(* ===== verification/_CoqProject ===== *)
-Q . S2P
Prelude.v
CMonad.v
Limbs.v
Mpi.v
MpiAddSub.v
MpiShift.v
MpiMul.v
MpiDiv.v
MpiDivCorrect.v
MpiMod.v
MpiMont.v
MpiExp.v
MpiGcd.v
MpiBin.v
Fermat.v
NumTheory.v
MpiPrime.v
MpiStr.v
BignumFindings.v
BignumTheorems.v
PrimeStrTheorems.v
BlowfishTables.v
Blowfish.v
BlowfishTheorems.v
Rsa.v
RsaCorrect.v
RsaPadding.v
RsaKeys.v
RsaTheorems.v
Pbuf.v
PbufChain.v
PbufData.v
PbufEdit.v
PbufAlloc.v
PbufTheorems.v
Inet.v
InetChksum.v
ChksumSpec.v
NetTheorems.v
Timers.v
TimersSpec.v
TimersTheorems.v
Netif.v
Etharp.v
EtharpTable.v
EtharpSpec.v
EtharpInput.v
EtharpTheorems.v
IpHdr.v
Frames.v
Driver.v
IpReass.v
IpReassMem.v
IpReassInv.v
IpReassStep.v
IpReassOrder.v
IpReassTheorems.v
IpFrag.v
IpFragSpec.v
IpFragTheorems.v
PacketEdit.v
IpOut.v
IpOutSpec.v
Icmp.v
EchoSpec.v
IpIn.v
IpInSpec.v
IpTheorems.v
Udp.v
UdpSpec.v
UdpInSpec.v
UdpTheorems.v
Tcp.v
TcpIn.v
TcpInSpec.v
TcpOutSpec.v
TcpProc.v
TcpEnd.v
TcpEndIn.v
TcpTheorems.v
