(* ===== verification/Prelude.v ===== *)
(** * Sparkle: a verification library of its C code

    Sparkle is a peer-to-peer virtual Ethernet.  Its nodes encrypt packets
    with Blowfish under session keys they exchange with RSA ([libsparkle], a
    C++ library around the C routines in [libsparkle/crypto]), and a node
    joins the virtual network through lwIP, a TCP/IP stack in C
    ([lwip/src], with the port in [lwip/port]).  This library models the C
    code of [libsparkle/crypto] completely and, of lwIP, the parts everything
    else stands on: the packet buffers, the byte order, address and checksum
    routines, the timers, the address resolution protocol, the Internet
    protocol (input, output, reassembly, fragmentation and ICMP), UDP, and the
    connections of TCP.

    ** How the code is modelled

    Every C function is a Rocq function with the same name.  [CMonad] gives
    the outcome of a call: a result, an error code, undefined behaviour [Ub]
    (an access outside of an array, a null pointer), or a loop without fuel.
    The state of the monad is the sequence of answers [malloc] gives: [true]
    for a block, [false] for none; an exhausted sequence answers [true].  So
    a theorem that ranges over all answers covers every pattern of allocation
    failures.  An error loses what the function had written; where the code
    ignores an error code, the definitions do too.  The predicates [runs] and
    [surely] are the program logics: [runs d m Q E] says that, for all
    sequences of answers ([MayFail]) or those without failure ([NoFail]), [m]
    ends without undefined behaviour in a result in [Q], an error in [E], or,
    with failures, [ERR_ALLOC]; [surely m Q] that [m] returns a result in [Q]
    whatever the answers.  That something is sent for sure is stated of runs
    without failure, [runs NoFail], next to the statement for all answers; a
    parameter that does not use up the memory is [thrifty].  Machine integers are [Z] with
    their wrap-around written out ([u8], [u16], [w64]).

    ** Files and what they model

    - [Prelude]: tactics and lemmas on lists, bits and bytes; [CMonad]: the
      monad, its loops and its logic.
    - [libsparkle/crypto/bignum.c] and [bn_mul.h].  [Limbs]: 64-bit limbs and
      their value.  [Mpi]: the structure [mpi] (a sign and the list of its
      limbs), allocation, copy, sizes, comparison.  [MpiAddSub], [MpiShift],
      [MpiMul], [MpiDiv], [MpiMod], [MpiMont], [MpiExp], [MpiGcd], [MpiBin],
      [MpiPrime], [MpiStr]: the operations of these names; an argument that
      may be the destination itself is [Self] or [Var], so that aliased calls are runs of their own.  [MpiDivCorrect], [Fermat],
      [NumTheory]: the mathematics of division, and of the primality test and
      RSA.  [BignumTheorems], [PrimeStrTheorems]: the properties;
      [BignumFindings]: runs that are defects of the code.
    - [libsparkle/crypto/blowfish.c].  [BlowfishTables]: the constants;
      [Blowfish]: context, rounds, block operations and key schedule;
      [BlowfishTheorems]: the properties.
    - [libsparkle/crypto/rsa.c].  [Rsa]: context, operations, padding,
      key generation; [RsaCorrect], [RsaPadding], [RsaKeys]: their
      specifications; [RsaTheorems]: the properties.
    - [lwip/src/core/pbuf.c].  [Pbuf]: the store of packet buffers and of
      memory blocks, and all operations; [PbufChain], [PbufData], [PbufEdit],
      [PbufAlloc]: chains, contents, editing and allocation; [PbufTheorems]:
      the properties.
    - [lwip/src/core/ipv4/inet.c], [ip_addr.c], [inet_chksum.c].  [Inet]:
      byte order and addresses; [InetChksum]: the three checksum routines and
      the checksums over chains; [ChksumSpec]: what they compute;
      [NetTheorems]: the properties.
    - [lwip/src/core/sys.c].  [Timers]: the lists of timeouts and the waits;
      [TimersSpec]: the agenda they implement; [TimersTheorems]: the
      properties.
    - [lwip/src/netif/etharp.c].  [Etharp]: the ARP table and the protocol;
      [EtharpTable]: the invariant, the search, the choice of the entry to
      recycle; [EtharpSpec], [EtharpInput]: the operations and reception;
      [EtharpTheorems]: the properties.
    - [lwip/src/core/ipv4/ip_frag.c] and [ip.h].  [Netif]:
      interfaces and the route; [IpHdr]: the fields of the IP header and what
      the setters do; [Frames]: which parts of the store an operation leaves
      alone, and the logic for code that may stop in a failed assertion; [Driver]: the contract of an output
      function and a driver that meets it.  [IpReass]: reassembly;
      [IpReassMem]: fragments in memory and the list through their headers;
      [IpReassInv], [IpReassStep], [IpReassOrder]: joining and the invariant,
      one fragment, any fragment and fragments in order;
      [IpReassTheorems]: the properties.  [IpFrag], [IpFragSpec],
      [IpFragTheorems]: fragmentation, what it sends, and the way through
      both.
    - [lwip/src/core/ipv4/ip.c], [icmp.c] and the loop queue of [netif.c].
      [PacketEdit]: reading, writing, moving and cutting packets in their own
      memory; [IpOut], [IpOutSpec]: output; [Icmp], [EchoSpec]: messages and
      echo replies; [IpIn], [IpInSpec]: input and the queue; [IpTheorems]: the
      properties.
    - [lwip/src/core/udp.c].  [Udp]: the control blocks, sending and
      receiving; [UdpSpec]: the list of control blocks, ports, and the search
      for the socket of a datagram; [UdpInSpec]: the bytes of a datagram,
      sending, and what becomes of a packet; [UdpTheorems]: the properties.
    - [lwip/src/core/tcp.c], [tcp_out.c], [tcp_in.c] and [tcp.h].  [Tcp]: the
      control block of a connection ([tcp_pcb], in the record [conn] with the
      packets it has sent and the calls of the application), its queues of
      segments, writing, sending and sending again; [TcpIn]: [tcp_receive];
      [TcpProc]: the state machine ([tcp_process]), what [tcp_input] does for
      a connection, opening and closing, and the timers, for one connection.
      [TcpInSpec], [TcpOutSpec]: the receiving and the sending queues against
      the streams of bytes, with sequence numbers as positions; [TcpEnd],
      [TcpEndIn]: both at once, for every operation; [TcpTheorems]: two ends
      and a network, and the properties.

    The parts call each other as the code does: [Rsa] runs on [MpiExp],
    [MpiGcd], [MpiDiv], [MpiBin] and [MpiPrime]; [InetChksum]
    and [Etharp] on the store of [Pbuf], [Etharp] on [Inet].  [IpIn] hands
    packets to [IpReass] and [Icmp], [Icmp] answers through [IpOut], and
    [IpOut] cuts packets with [IpFrag]; the reassembly sees ICMP through the
    class [QuietIcmp], of which [EchoSpec] gives the instance.  [Udp] sends
    through [IpOut] and answers through [Icmp]; its state is the rest of that
    of the IP layer, so that [udp_input] of [Udp] can stand for the parameter
    of [IpIn], and [UdpInSpec] makes of every [Driver] one for UDP.  [Tcp]
    takes the route of [Netif] and of a segment its bytes, not its buffers.

    ** What the theorems show

    - Numbers: each operation computes the mathematical function on the
      values of its arguments, for every alias the callers use, leaves a
      well-formed number behind, and fails only for lack of memory or in the
      cases its header names; the loops end.  What needs the quotient of a
      division is about the divisors for which the estimate of a digit is
      right (class [Estimate]): all with 128-bit words, those below 2^31
      without ([div_mpi_correct]).  The test of primality is refusal for a
      divisor below 1009 and else the test of Fermat for the bases it draws.
      Strings and binary data round-trip; reading a string implements a
      parser.
    - Ciphers: Blowfish decryption inverts encryption under every key, and a
      key is weak exactly when a word occurs twice in an S-box.  The
      RSA operations compute the powers modulo N, with the Chinese remainder
      theorem, and cancel each other; encryption padding and signatures
      round-trip; without a hash function or with MD or SHA-1 a signature is
      accepted exactly when it opens to a block with the hash; a key that
      passes the check is a key.
    - Packet buffers: allocation, joining, splitting, shrinking, copying and
      freeing keep chains well formed (total lengths, reference counts,
      memory ownership) and have the expected effect on the bytes of a
      packet; a failed allocation leaves nothing behind.
    - Addresses and checksums: formatting and parsing an address round-trip;
      the three checksum routines agree and compute the Internet sum of the
      bytes of a packet however it is cut into buffers; a packet with its
      checksum in place verifies.
    - Timers: the lists of relative times implement a sorted agenda of
      absolute times, and the waits make its calls at its times.
    - ARP: every operation keeps the table well formed (addresses distinct,
      packets only with pending entries and owned by their queue, ages below
      their limits); lookup is the function the table stands for; resolution
      flushes the queue in order and evicts only the victim of the policy;
      entries expire exactly at their limits; a request and its reply make
      two hosts resolve each other.
    - Fragments: [ip_reass] keeps its invariant whatever legal fragment
      arrives, loses no buffer, returns only fragments of one datagram in order, returns the
      whole datagram when they arrive in order, and forgets it in time;
      [ip_frag] sends the fragments of the specification; together they give
      the datagram back.
    - IP and ICMP: [ip_input] takes the sound packets for the host and frees
      the others;
      [ip_output] sends the packet behind a verifying header, whole, in
      fragments or to the queue, which is first in first out; an echo request
      is answered by the reply of the specification; messages carry the
      beginning of the packet they are about; nothing else is touched.
    - UDP: the list of control blocks has those with a port, in every
      reachable state; a new port is the first free one; a datagram finds the
      best socket; [udp_sendto] sends a datagram that the receiver accepts and
      [udp_input] delivers, answers or frees what comes; what one host sends
      the socket of another gets.
    - TCP: two ends run [tcp_write], [tcp_close], [tcp_output], [tcp_recved],
      the timers and [tcp_input] in any order, allocations fail, and the
      network loses, repeats and reorders packets: what one application hears
      is the beginning of what the other wrote, it is told of the end only
      behind all of it, and what it has not heard is in the queues of the
      sender.  A segment that keeps to the window is received without a
      failed assertion: an acknowledgement frees what it covers, the next
      bytes are handed over, early ones are kept; [tcp_write] takes all bytes
      or none.

    ** Fuel and bounds

    Loops whose end is a fact of arithmetic run on a number of turns that is
    computed from the arguments, and the theorems prove it enough: [gcd] and
    inverse (the bit lengths of the arguments), the estimate of a quotient
    digit ([est_fuel], [qhat_fuel], [top_fuel]), the digits of a string
    ([write_fuel]), walks along chains of buffers ([walk_fuel], the number of
    buffers).  The fuel of the prime search is an argument, which the theorem
    requires to reach the next prime; [rsa_gen_key] and the padding draw
    random numbers until they suit, so that their theorems speak of runs with
    enough fuel.  The fuel of a wait is the number of timeouts it runs.

    ** Parameters

    The form of the digit estimate ([POLARSSL_HAVE_LONGLONG] or not); the
    random callback [f_rng], a function of the state [p_rng] points to, and
    the answers of [rand], a list; what fresh memory holds ([junk]); the
    clock, mailboxes and semaphores of the port and the handlers of its
    users, with classes of laws for what the timers rely on ([Waits],
    [Handlers], [Signals]); [linkoutput], which sees the packet and does not
    change the buffers, and [ip_input] for ARP.  For IP: the output function of
    an interface, with the class [Driver], which takes every packet, keeps or
    frees it, and leaves the buffers of others alone; [tcpip_callback], with
    the class [Scheduler]; [udp_input] and [tcp_input]; for the reassembly
    [icmp_time_exceeded], with the class [QuietIcmp]; for UDP the call of a
    callback of the application, for TCP the functions of the application,
    which may refuse data but call TCP only from outside (class of hypotheses
    [host_ok]), and the queue limit, below 256 because the code counts the
    buffers of a segment in eight bits.  A failed [LWIP_ASSERT] or
    [LWIP_ERROR] calls [abort()], the error [ABORT].  The host is LP64 and
    little-endian.

    ** Not modelled

    The inline assembly of [bn_mul.h]; numbers of 2^31 limbs ([n] is an [int]
    in the code); the value of [*slen] when
    [mpi_write_string] fails; the request to the TCP thread when the pool of
    packet buffers is empty; handlers of timeouts that wait themselves; VLANs,
    AutoIP, DHCP and SNMP in the ARP code, which the port leaves out;
    forwarding, IP options on output and the pointers to the current packet
    in the IP code.  The theorems about fragments are about legal ones (data
    in blocks of eight bytes, up to 65,515 bytes, fewer than 256 buffers
    each, 28 bytes in a first buffer) and 64-bit pointers, those about
    [ip_frag] about an MTU of at least 44 and buffers of at least 20 bytes,
    those about echo requests about headers without options in the first
    buffer, those about UDP about data with room for the headers in front of
    them and datagrams with their headers in the first buffer;
    [reass_limits], [ip_frag_limits], [ip_input_limits] and [udp_limits] show
    what happens beyond, [oversized_datagram] for fragments that end behind
    65,535.  Of TCP, the lists of connections with ports, binding
    and listening, the choice of a connection to give up, the checks of
    [tcp_input] in front of the search for a connection, and the buffers that
    segments are in; the theorems are about connections from [ESTABLISHED] on
    that carry less than 2^30 bytes each way, and [fin_not_sent],
    [backoff_overrun], [parseopt_overrun], [no_copy_fails],
    [snd_buf_wraps], [end_before_data] and [window_overrun] show runs that go
    wrong.  Of lwIP, the configuration of interfaces and the thread
    interfaces; DHCP, DNS, raw sockets, IPv6, SNMP, PPP and sockets,
    which the project does not build.  [libsparkle] outside of [crypto],
    [sparkgap] and [sippy] are C++ on Qt. *)
From Stdlib Require Import ZArith List Lia Bool.
Import ListNotations.
#[local] Open Scope Z_scope.

#[global] Arguments Z.mul : simpl never.
#[global] Arguments Z.add : simpl never.
#[global] Arguments Z.sub : simpl never.
#[global] Arguments Z.pow : simpl never.
#[global] Arguments Z.div : simpl never.
#[global] Arguments Z.modulo : simpl never.
#[global] Arguments Z.opp : simpl never.
#[global] Arguments Z.of_nat : simpl never.

(** ** Tactics *)

(** [dlia]: linear arithmetic with divisions and remainders by constants. *)
Ltac dlia := Z.to_euclidean_division_equations; lia.

(** [inv H]: inversion, substitution and clean-up. *)
Ltac inv H := inversion H; subst; clear H.

(** [case_bool b]: split on a boolean comparison of integers and keep the
    arithmetic fact. *)
Ltac case_bool b :=
  let E := fresh "E" in
  destruct b eqn:E;
  rewrite ?Z.ltb_lt, ?Z.ltb_ge, ?Z.leb_le, ?Z.leb_gt, ?Z.eqb_eq, ?Z.eqb_neq,
    ?Nat.ltb_lt, ?Nat.ltb_ge, ?Nat.leb_le, ?Nat.leb_gt, ?Nat.eqb_eq, ?Nat.eqb_neq in E.

(** [destr_if]: split on the innermost condition of an [if] of the goal. *)
Ltac destr_if :=
  match goal with
  | |- context [if ?b then _ else _] =>
      lazymatch b with
      | context [if _ then _ else _] => fail
      | _ => case_bool b
      end
  end.

(** ** Machine words *)

(** Truncation of a mathematical integer to a [w]-bit unsigned word. *)
Definition wrap (w x : Z) : Z := x mod 2 ^ w.

Definition u8 (x : Z) : Z := x mod 256.
Definition u16 (x : Z) : Z := x mod 65536.
Definition u32 (x : Z) : Z := x mod 4294967296.

(** ** Updating one field of a record

    [x <| f := v |>] is [x] with the field [f] changed, for a record whose
    fields [Fields] lists; the function that changes the field [p] is found by
    [field_setter]. *)
Class Fields (R : Type) := fields : R -> R.
Class Field {R A : Type} (p : R -> A) := set_field : (A -> A) -> R -> R.
#[global] Arguments set_field {R A} p {_} f x : simpl nomatch.

Ltac field_setter p :=
  lazymatch goal with
  | |- @Field ?R ?A _ =>
      let i := constr:(ltac:(typeclasses eauto) : Fields R) in
      let e := eval cbv beta in (ltac:(let j := eval hnf in i in exact j)) in
      lazymatch eval pattern p in e with
      | ?c _ =>
          let t := eval cbv beta in (fun (f : A -> A) => c (fun x => f (p x))) in
          exact t
      end
  end.
#[export] Hint Extern 1 (Field ?p) => field_setter p : typeclass_instances.

Declare Scope record_scope.
Notation "x <| p := v |>" := (set_field p (fun _ => v) x) (at level 1, p at level 9, left associativity) : record_scope.


(** The value of a C comparison used as an integer. *)
Definition b2z (b : bool) : Z := if b then 1 else 0.

Lemma b2z_bounds b : 0 <= b2z b <= 1.
Proof. destruct b; simpl; lia. Qed.

(** ** Lists *)

Lemma firstn_skipn_nth {A} (n : nat) (l : list A) (x : A) :
  (n < length l)%nat -> l = firstn n l ++ nth n l x :: skipn (S n) l.
Proof.
  revert n; induction l as [|y l IH]; simpl; intros n Hn; [lia|].
  destruct n as [|n]; simpl; [reflexivity|]. f_equal. apply IH. lia.
Qed.

Lemma Forall_firstn {A} (P : A -> Prop) n l : Forall P l -> Forall P (firstn n l).
Proof.
  intros H; revert n; induction H; intros [|n]; simpl; auto.
Qed.

Lemma Forall_skipn {A} (P : A -> Prop) n l : Forall P l -> Forall P (skipn n l).
Proof.
  intros H; revert n; induction H; intros [|n]; simpl; auto.
Qed.

Lemma Forall_repeat {A} (P : A -> Prop) x n : P x -> Forall P (repeat x n).
Proof. intros; induction n; simpl; auto. Qed.

Lemma Forall_nth_Z (P : Z -> Prop) l i d : Forall P l -> P d -> P (nth i l d).
Proof. intros H Hd; revert i; induction H; intros [|i]; simpl; auto. Qed.

(** ** Bits *)

Lemma pow2_pos n : 0 < 2 ^ n \/ n < 0.
Proof. destruct (Z.lt_ge_cases n 0); [auto|left; apply Z.pow_pos_nonneg; lia]. Qed.

(** An [or] of disjoint fields is a sum. *)
Lemma lor_disjoint a r t :
  0 <= t -> 0 <= r < 2 ^ t -> Z.lor (a * 2 ^ t) r = a * 2 ^ t + r.
Proof.
  intros Ht Hr.
  assert (Hl : Z.land (a * 2 ^ t) r = 0).
  { apply Z.bits_inj'. intros i Hi. rewrite Z.land_spec, Z.bits_0.
    destruct (Z.lt_ge_cases i t).
    - rewrite Z.mul_pow2_bits_low by lia. reflexivity.
    - rewrite <- (Z.mod_small r (2 ^ t)) by lia.
      rewrite (Z.mod_pow2_bits_high r t) by lia. apply andb_false_r. }
  rewrite <- Z.lxor_lor, <- Z.add_nocarry_lxor by exact Hl. reflexivity.
Qed.

Lemma mod_mul_pow2 x t w :
  0 <= t <= w -> (x * 2 ^ t) mod 2 ^ w = (x mod 2 ^ (w - t)) * 2 ^ t.
Proof.
  intros H. replace w with (t + (w - t)) at 1 by lia.
  rewrite Z.pow_add_r, (Z.mul_comm x), (Z.mul_comm _ (2 ^ t)) by lia.
  apply Z.mul_mod_distr_l; apply Z.pow_nonzero; lia.
Qed.

(** A bit mask of one bit. *)
Lemma land_pow2 x i : 0 <= i -> Z.land x (2 ^ i) = if Z.testbit x i then 2 ^ i else 0.
Proof.
  intros Hi. apply Z.bits_inj'. intros j Hj. rewrite Z.land_spec, Z.pow2_bits_eqb by lia.
  destruct (Z.eqb_spec i j) as [->|Hne].
  - rewrite andb_true_r. destruct (Z.testbit x j); [now rewrite Z.pow2_bits_true|].
    now rewrite Z.bits_0.
  - rewrite andb_false_r. destruct (Z.testbit x i); [|now rewrite Z.bits_0].
    now rewrite Z.pow2_bits_false.
Qed.

(** ** Bytes *)

Definition byte (b : Z) : Prop := 0 <= b < 256.

Fixpoint le_value (l : list Z) : Z :=
  match l with
  | [] => 0
  | b :: l' => b + 256 * le_value l'
  end.

(** Big-endian: the last byte is the lowest. *)
Definition be_value (l : list Z) : Z := le_value (rev l).

Definition p256 (j : nat) : Z := 256 ^ Z.of_nat j.

Lemma p256_S j : p256 (S j) = 256 * p256 j.
Proof. unfold p256. rewrite Nat2Z.inj_succ, Z.pow_succ_r by lia. reflexivity. Qed.

Lemma p256_add i j : p256 (i + j) = p256 i * p256 j.
Proof. unfold p256. rewrite Nat2Z.inj_add, Z.pow_add_r by lia. reflexivity. Qed.

Lemma p256_pos j : 0 < p256 j.
Proof. apply Z.pow_pos_nonneg; lia. Qed.

Lemma p256_pow2 j : p256 j = 2 ^ (8 * Z.of_nat j).
Proof. unfold p256. now rewrite Z.pow_mul_r by lia. Qed.

Lemma le_value_app l m : le_value (l ++ m) = le_value l + p256 (length l) * le_value m.
Proof.
  induction l as [|b l IH]; cbn [le_value app length].
  - change (p256 0) with 1. lia.
  - rewrite IH, p256_S. ring.
Qed.

Lemma le_value_bounds l : Forall byte l -> 0 <= le_value l < p256 (length l).
Proof.
  induction 1 as [|b l Hb Hl IH]; cbn [le_value length]; [change (p256 0) with 1; lia|].
  rewrite p256_S. unfold byte in Hb. lia.
Qed.

(** ** Odd divisors *)

Lemma odd_cancel m k x : m mod 2 = 1 -> (m | x * 2 ^ Z.of_nat k) -> (m | x).
Proof.
  intros Hm. induction k as [|k IH]; intros (q & Hq).
  - exists q. now rewrite Z.mul_1_r in Hq.
  - apply IH. rewrite Nat2Z.inj_succ, Z.pow_succ_r in Hq by lia.
    set (y := x * 2 ^ Z.of_nat k) in *. assert (Hy : 2 * y = q * m) by (unfold y; lia).
    assert (Hq2 : q mod 2 = 0).
    { assert (H : (q * m) mod 2 = 0) by (rewrite <- Hy, Z.mul_comm; apply Z.mod_mul; lia).
      rewrite Z.mul_mod, Hm, Z.mul_1_r, Z.mod_mod in H; lia. }
    exists (q / 2). assert (Hq' : q = 2 * (q / 2)) by dlia.
    rewrite Hq' in Hy. lia.
Qed.
