(* ===== verification/CMonad.v ===== *)
(** * A small monad for the C code

    The outcome of a C function as the code has it: a result, an error code
    that the caller sees, undefined behaviour (an access outside an array,
    a null pointer), or a loop that has used up its fuel.  The state is the
    sequence of answers [malloc] gives.  [runs] is the unary program logic
    in which the components are specified. *)
From Stdlib Require Import ZArith List Lia Bool.
Import ListNotations.
From S2P Require Import Prelude.
#[local] Open Scope Z_scope.

Inductive outcome (A : Type) : Type :=
| Ok (a : A)
| Err (e : Z)
| Ub
| OutOfFuel.
Arguments Ok {A} a.
Arguments Err {A} e.
Arguments Ub {A}.
Arguments OutOfFuel {A}.

(** The answers of the coming calls of [malloc]: [true] when the call
    returns memory.  After the last one every call succeeds. *)
Definition heap : Type := list bool.

Definition M (A : Type) : Type := heap -> outcome A * heap.

Definition ret {A} (a : A) : M A := fun h => (Ok a, h).
Definition throw {A} (e : Z) : M A := fun h => (Err e, h).
Definition ub {A} : M A := fun h => (Ub, h).
Definition out_of_fuel {A} : M A := fun h => (OutOfFuel, h).
Definition bind {A B} (m : M A) (k : A -> M B) : M B :=
  fun h =>
    match m h with
    | (Ok a, h') => k a h'
    | (Err e, h') => (Err e, h')
    | (Ub, h') => (Ub, h')
    | (OutOfFuel, h') => (OutOfFuel, h')
    end.

(** A call whose return value the C code does not look at: on an error the
    caller goes on with [dflt]. *)
Definition unchecked {A} (dflt : A) (m : M A) : M A :=
  fun h => match m h with (Err _, h') => (Ok dflt, h') | r => r end.

(** A call whose error the caller turns into another one. *)
Definition on_error {A} (f : Z -> Z) (m : M A) : M A :=
  fun h => match m h with (Err e, h') => (Err (f e), h') | r => r end.

Definition malloc : M bool :=
  fun h => match h with [] => (Ok true, []) | b :: h' => (Ok b, h') end.

(** An array access: undefined outside the array. *)
Definition rd (l : list Z) (i : nat) : M Z :=
  match nth_error l i with Some x => ret x | None => ub end.

Fixpoint upd_list (l : list Z) (i : nat) (x : Z) : list Z :=
  match l, i with
  | [], _ => []
  | _ :: l', O => x :: l'
  | y :: l', S i' => y :: upd_list l' i' x
  end.

Definition wr (l : list Z) (i : nat) (x : Z) : M (list Z) :=
  if (i <? length l)%nat then ret (upd_list l i x) else ub.

(** The first [n] bytes of a buffer: undefined when it is shorter. *)
Definition take_bytes (n : nat) (buf : list Z) : M (list Z) :=
  if (length buf <? n)%nat then ub else ret (firstn n buf).

Declare Scope cmonad_scope.
Delimit Scope cmonad_scope with cmonad.
Notation "x <- c ;; k" := (bind c (fun x => k))
  (at level 100, c at next level, right associativity) : cmonad_scope.
Notation "' p <- c ;; k" := (bind c (fun x => match x with p => k end))
  (at level 100, p pattern, c at next level, right associativity) : cmonad_scope.
#[local] Open Scope cmonad_scope.

(** ** The program logic *)

(** Whether the allocations of a run may fail. *)
Inductive alloc_mode := NoFail | MayFail.

Definition ok_heap (d : alloc_mode) (h : heap) : Prop :=
  match d with NoFail => Forall (eq true) h | MayFail => True end.

(** What [malloc] failing makes the bignum functions return. *)
Definition ERR_ALLOC : Z := 1.

(** [runs d m Q E]: from every heap, [m] ends without undefined behaviour
    and without running out of fuel, with a result in [Q], with an error
    in [E], or, when allocations may fail, with [ERR_ALLOC]. *)
Definition runs {A} (d : alloc_mode) (m : M A) (Q : A -> Prop) (E : Z -> Prop) : Prop :=
  forall h, ok_heap d h ->
    match m h with
    | (Ok a, h') => ok_heap d h' /\ Q a
    | (Err e, h') => ok_heap d h' /\ (E e \/ (d = MayFail /\ e = ERR_ALLOC))
    | _ => False
    end.

Definition no_err (e : Z) : Prop := False.

Section Rules.
Context {A B : Type} (d : alloc_mode).
Implicit Types (Q : A -> Prop) (E : Z -> Prop).

Lemma runs_ret Q E (a : A) : Q a -> runs d (ret a) Q E.
Proof. intros HQ h Hh. simpl. auto. Qed.

Lemma runs_throw Q E e : E e -> runs d (@throw A e) Q E.
Proof. intros HE h Hh. simpl. auto. Qed.

Lemma runs_bind Q (Q' : B -> Prop) E (m : M A) (k : A -> M B) :
  runs d m Q E -> (forall a, Q a -> runs d (k a) Q' E) -> runs d (bind m k) Q' E.
Proof.
  intros Hm Hk h Hh. specialize (Hm h Hh). unfold bind.
  destruct (m h) as [[a|e| |] h']; try contradiction.
  - destruct Hm as [Hh' HQ]. apply (Hk a HQ h' Hh').
  - exact Hm.
Qed.

Lemma runs_weaken Q Q' E E' (m : M A) :
  runs d m Q E -> (forall a, Q a -> Q' a) -> (forall e, E e -> E' e) -> runs d m Q' E'.
Proof.
  intros Hm HQ HE h Hh. specialize (Hm h Hh).
  destruct (m h) as [[a|e| |] h']; auto; intuition auto.
Qed.

Lemma runs_post Q Q' E (m : M A) :
  runs d m Q E -> (forall a, Q a -> Q' a) -> runs d m Q' E.
Proof. intros; eapply runs_weaken; eauto. Qed.

Lemma runs_no_err Q E (m : M A) : runs d m Q no_err -> runs d m Q E.
Proof. intros; eapply runs_weaken; eauto. intros e []. Qed.

Lemma runs_conj_pure (P : Prop) Q E (m : M A) :
  P -> runs d m Q E -> runs d m (fun a => P /\ Q a) E.
Proof. intros HP H. eapply runs_post; eauto. Qed.
End Rules.

(** Two specifications of one run. *)
Lemma runs_and {A} d (m : M A) Q Q' E E' :
  runs d m Q E -> runs d m Q' E' -> runs d m (fun a => Q a /\ Q' a) E.
Proof.
  intros H1 H2 h Hh. specialize (H1 h Hh). specialize (H2 h Hh).
  destruct (m h) as [[a|e| |] h']; intuition auto.
Qed.

Lemma runs_on_error {A} (f : Z -> Z) (m : M A) Q (E : Z -> Prop) :
  runs NoFail m Q E -> runs NoFail (on_error f m) Q (fun e => exists e0, E e0 /\ e = f e0).
Proof.
  intros H h Hh. specialize (H h Hh). unfold on_error.
  destruct (m h) as [[a|e| |] h']; try contradiction; [exact H|].
  destruct H as [H1 [H2|[H2 _]]]; [|discriminate]. split; [exact H1|]. left. eauto.
Qed.

Lemma runs_ext {A} d (m m' : M A) Q E :
  (forall h, m' h = m h) -> runs d m Q E -> runs d m' Q E.
Proof. intros He Hm h Hh. rewrite He. exact (Hm h Hh). Qed.

Lemma runs_malloc d E : runs d malloc (fun b => d = NoFail -> b = true) E.
Proof.
  intros [|b h] Hh; simpl; [split; auto|].
  destruct d; simpl in *; [inv Hh|]; split; auto; congruence.
Qed.

Lemma runs_unchecked {A} (dflt : A) m Q :
  runs NoFail m Q no_err -> runs NoFail (unchecked dflt m) Q no_err.
Proof.
  intros Hm h Hh. specialize (Hm h Hh). unfold unchecked.
  destruct (m h) as [[a|e| |] h']; auto.
  destruct Hm as [_ [[]|[? _]]]; discriminate.
Qed.

Lemma runs_rd d E (l : list Z) i :
  (i < length l)%nat -> runs d (rd l i) (fun x => x = nth i l 0) E.
Proof.
  intros Hi. unfold rd. rewrite (nth_error_nth' l 0 Hi). now apply runs_ret.
Qed.

Lemma runs_wr d E (l : list Z) i x :
  (i < length l)%nat -> runs d (wr l i x) (fun l' => l' = upd_list l i x) E.
Proof.
  intros Hi. unfold wr. apply Nat.ltb_lt in Hi. rewrite Hi. now apply runs_ret.
Qed.

Lemma take_bytes_firstn n buf : (n <= length buf)%nat -> take_bytes n buf = ret (firstn n buf).
Proof. intros H. unfold take_bytes. case_bool (length buf <? n)%nat; [lia|reflexivity]. Qed.

Lemma take_bytes_all d n buf E : length buf = n -> runs d (take_bytes n buf) (fun b => b = buf) E.
Proof. intros <-. rewrite take_bytes_firstn, firstn_all by lia. now apply runs_ret. Qed.

(** A run with no allocation failure and no error returns a result. *)
Lemma runs_total {A} (m : M A) Q :
  runs NoFail m Q no_err -> exists a h', m [] = (Ok a, h') /\ Q a.
Proof.
  intros H. specialize (H [] (Forall_nil _)).
  destruct (m []) as [[a|e| |] h']; try contradiction.
  - exists a, h'. intuition auto.
  - destruct H as [_ [[]|[? _]]]; discriminate.
Qed.

(** ** Updates of one element *)

Lemma length_upd_list l i x : length (upd_list l i x) = length l.
Proof. revert i; induction l; intros [|i]; simpl; auto. Qed.

Lemma upd_list_app l i x :
  (i < length l)%nat -> upd_list l i x = firstn i l ++ x :: skipn (S i) l.
Proof.
  revert i; induction l as [|y l IH]; simpl; intros i Hi; [lia|].
  destruct i as [|i]; simpl; [reflexivity|]. f_equal. apply IH. lia.
Qed.

Lemma nth_upd_list_eq l i x : (i < length l)%nat -> nth i (upd_list l i x) 0 = x.
Proof.
  revert i; induction l as [|y l IH]; simpl; intros i Hi; [lia|].
  destruct i; simpl; [reflexivity|]. apply IH. lia.
Qed.

Lemma nth_upd_list_ne l i j x : i <> j -> nth j (upd_list l i x) 0 = nth j l 0.
Proof.
  revert i j; induction l as [|y l IH]; simpl; intros i j Hij; [destruct j; reflexivity|].
  destruct i, j; simpl; try reflexivity; [lia|]. apply IH. lia.
Qed.

Lemma Forall_upd_list (P : Z -> Prop) l i x : Forall P l -> P x -> Forall P (upd_list l i x).
Proof.
  intros H Hx; revert i; induction H; intros [|i]; simpl; auto.
Qed.

Lemma bind_ret {A B} (a : A) (k : A -> M B) : bind (ret a) k = k a.
Proof. reflexivity. Qed.

(** [runs_step lem]: the next call of a sequence, by its specification. *)
Ltac runs_step lem := eapply runs_bind; [eapply lem | cbv beta].

Lemma Forall_app_i (P : Z -> Prop) l l' : Forall P l -> Forall P l' -> Forall P (l ++ l').
Proof. intros; apply Forall_app; auto. Qed.

Create HintDb limbs.
#[export] Hint Resolve Forall_firstn Forall_skipn Forall_repeat Forall_upd_list : limbs.
#[export] Hint Resolve Forall_app_i Forall_nil Forall_cons : limbs.

(** ** Runs that may exhaust their fuel

    For loops whose end depends on random numbers: what holds when they
    end. *)

Definition partial {A} (d : alloc_mode) (m : M A) (Q : A -> Prop) (E : Z -> Prop) : Prop :=
  forall h, ok_heap d h ->
    match m h with
    | (Ok a, h') => ok_heap d h' /\ Q a
    | (Err e, h') => ok_heap d h' /\ (E e \/ (d = MayFail /\ e = ERR_ALLOC))
    | (Ub, _) => False
    | (OutOfFuel, _) => True
    end.

Lemma partial_runs {A} d (m : M A) Q E : runs d m Q E -> partial d m Q E.
Proof. intros H h Hh. specialize (H h Hh). now destruct (m h) as [[a|e| |] h']. Qed.

Lemma partial_out_of_fuel {A} d Q E : partial d (@out_of_fuel A) Q E.
Proof. intros h Hh. exact I. Qed.

Lemma partial_ret {A} d Q E (a : A) : Q a -> partial d (ret a) Q E.
Proof. intros. now apply partial_runs, runs_ret. Qed.

Lemma partial_bind {A B} d Q (Q' : B -> Prop) E (m : M A) (k : A -> M B) :
  partial d m Q E -> (forall a, Q a -> partial d (k a) Q' E) -> partial d (bind m k) Q' E.
Proof.
  intros Hm Hk h Hh. specialize (Hm h Hh). unfold bind.
  destruct (m h) as [[a|e| |] h']; try exact Hm. destruct Hm as [Hh' HQ]. apply (Hk a HQ h' Hh').
Qed.

Lemma partial_weaken {A} d Q Q' E E' (m : M A) :
  partial d m Q E -> (forall a, Q a -> Q' a) -> (forall e, E e -> E' e) -> partial d m Q' E'.
Proof.
  intros Hm HQ HE h Hh. specialize (Hm h Hh). destruct (m h) as [[a|e| |] h']; auto; intuition auto.
Qed.

Lemma partial_ext {A} d (m m' : M A) Q E :
  (forall h, m' h = m h) -> partial d m Q E -> partial d m' Q E.
Proof. intros He Hm h Hh. rewrite He. exact (Hm h Hh). Qed.

Lemma partial_on_error {A} (f : Z -> Z) (m : M A) Q (E : Z -> Prop) :
  partial NoFail m Q E -> partial NoFail (on_error f m) Q (fun e => exists e0, E e0 /\ e = f e0).
Proof.
  intros H h Hh. specialize (H h Hh). unfold on_error.
  destruct (m h) as [[a|e| |] h']; try exact H.
  destruct H as [H1 [H2|[H2 _]]]; [|discriminate]. split; [exact H1|]. left. eauto.
Qed.

Ltac partial_step lem := eapply partial_bind; [apply partial_runs; eapply lem | cbv beta].

(** ** Runs that return a result whatever [malloc] answers *)

Definition surely {A} (m : M A) (Q : A -> Prop) : Prop := forall h, exists a h', m h = (Ok a, h') /\ Q a.

Lemma surely_ret {A} (a : A) (Q : A -> Prop) : Q a -> surely (ret a) Q.
Proof. intros H h. exists a, h. auto. Qed.

Lemma surely_bind {A B} (m : M A) (k : A -> M B) Q Q' :
  surely m Q -> (forall a, Q a -> surely (k a) Q') -> surely (bind m k) Q'.
Proof.
  intros Hm Hk h. destruct (Hm h) as (a & h' & E & Ha). destruct (Hk a Ha h') as (b & h2 & E2 & Hb).
  exists b, h2. unfold bind. rewrite E. auto.
Qed.

Lemma surely_malloc (Q : bool -> Prop) : Q true -> Q false -> surely malloc Q.
Proof. intros Ht Hf [|[|] h]; [exists true, []|exists true, h|exists false, h]; auto. Qed.

Lemma surely_weaken {A} (m : M A) (Q Q' : A -> Prop) : surely m Q -> (forall a, Q a -> Q' a) -> surely m Q'.
Proof. intros H HQ h. destruct (H h) as (a & h' & E & Ha). exists a, h'. auto. Qed.

(** ** Simulation of one run by another *)

(** [m] and [m'] end in the same way from the same heap, with results that
    are related. *)
Definition simulates {A B} (R : A -> B -> Prop) (m : M A) (m' : M B) : Prop :=
  forall h,
    match m h, m' h with
    | (Ok a, h1), (Ok b, h2) => R a b /\ h1 = h2
    | (Err e, h1), (Err e', h2) => e = e' /\ h1 = h2
    | (Ub, h1), (Ub, h2) | (OutOfFuel, h1), (OutOfFuel, h2) => h1 = h2
    | _, _ => False
    end.

Lemma simulates_ret {A B} (R : A -> B -> Prop) a b : R a b -> simulates R (ret a) (ret b).
Proof. intros H h. now split. Qed.

Lemma simulates_same {A} (R : A -> A -> Prop) (m : M A) : (forall a, R a a) -> simulates R m m.
Proof. intros H h. destruct (m h) as [[a|e| |] h']; auto. Qed.

Lemma simulates_bind {A B A' B'} (R : A -> B -> Prop) (R' : A' -> B' -> Prop) m m' k k' :
  simulates R m m' -> (forall a b, R a b -> simulates R' (k a) (k' b)) -> simulates R' (bind m k) (bind m' k').
Proof.
  intros Hm Hk h. specialize (Hm h). unfold bind.
  destruct (m h) as [[a|e| |] h1], (m' h) as [[b|e'| |] h2]; try exact Hm; try contradiction.
  destruct Hm as [Hr ->]. apply (Hk a b Hr).
Qed.

(** ** Runs that have memory *)

(** A run in which [malloc] never fails leaves it so, and its result, if it
    has one, is in [N]. *)
Definition enough {A} (m : M A) (N : A -> Prop) : Prop :=
  forall h a h', ok_heap NoFail h -> m h = (Ok a, h') -> ok_heap NoFail h' /\ N a.

Definition thrifty {A} (m : M A) : Prop := enough m (fun _ => True).

Lemma enough_ret {A} (a : A) (N : A -> Prop) : N a -> enough (ret a) N.
Proof. intros H h b h' Hh [= <- <-]. auto. Qed.

Lemma enough_bind {A B} (m : M A) (k : A -> M B) N N' :
  enough m N -> (forall a, N a -> enough (k a) N') -> enough (bind m k) N'.
Proof.
  intros Hm Hk h b h' Hh. unfold bind. destruct (m h) as [[a|e| |] h1] eqn:E; try discriminate.
  destruct (Hm h a h1 Hh E) as [H1 Ha]. exact (Hk a Ha h1 b h' H1).
Qed.

Lemma enough_malloc : enough malloc (fun ok => ok = true).
Proof.
  intros [|b h] a h' Hh; cbn; [intros [= <- <-]; auto|]. inversion Hh; subst. intros [= <- <-]. auto.
Qed.

Lemma enough_weaken {A} (m : M A) (N N' : A -> Prop) : enough m N -> (forall a, N a -> N' a) -> enough m N'.
Proof. intros H HN h a h' Hh E. destruct (H h a h' Hh E) as [H1 H2]. auto. Qed.

(** What always holds of the result, and what holds of it with memory. *)
Lemma surely_enough {A} (m : M A) (Q N : A -> Prop) :
  surely m Q -> enough m N -> runs NoFail m (fun a => Q a /\ N a) no_err.
Proof.
  intros Hs He h Hh. destruct (Hs h) as (a & h' & E & HQ). rewrite E. destruct (He h a h' Hh E) as [H1 H2]. auto.
Qed.

Lemma thrifty_ret {A} (a : A) : thrifty (ret a).
Proof. now apply enough_ret. Qed.

Lemma thrifty_bind {A B} (m : M A) (k : A -> M B) : thrifty m -> (forall a, thrifty (k a)) -> thrifty (bind m k).
Proof. intros Hm Hk. eapply enough_bind; [exact Hm|]. intros a _. apply Hk. Qed.

Lemma thrifty_ub {A} : thrifty (@ub A).
Proof. intros h a h' _ [=]. Qed.

Lemma thrifty_throw {A} e : thrifty (@throw A e).
Proof. intros h a h' _ [=]. Qed.

Lemma thrifty_out_of_fuel {A} : thrifty (@out_of_fuel A).
Proof. intros h a h' _ [=]. Qed.

Create HintDb thrifty.
#[export] Hint Resolve thrifty_ret thrifty_ub thrifty_throw thrifty_out_of_fuel : thrifty.

(** Along the structure of a program, into the branches of its conditions. *)
Ltac thrifty :=
  cbv beta zeta;
  lazymatch goal with
  | |- forall _, _ => intro; thrifty
  | |- thrifty (bind _ _) => apply thrifty_bind; thrifty
  | |- thrifty (match ?x with _ => _ end) => destruct x; thrifty
  | |- _ => auto with thrifty
  end.
