(* ===== verification/Limbs.v ===== *)
(** * Limbs: the digits of the multi-precision integers

    [t_int] is [unsigned long], 64 bits wide on the LP64 platforms the
    library is built for.  A limb is a [Z] in [0 .. base-1]; the limb array
    of an [mpi] is a list, least significant limb first, and [eval] is its
    value. *)
From Stdlib Require Import ZArith List Lia Bool.
Import ListNotations.
From S2P Require Import Prelude CMonad.
#[local] Open Scope Z_scope.

(** ** The limb type *)

(** [sizeof(t_int)] and its derived sizes. *)
Abbreviation ciL := 8%nat.
Abbreviation biL := 64%Z.
Abbreviation biH := 32%Z.

Abbreviation base := 18446744073709551616.

Definition BITS_TO_LIMBS (i : Z) : nat := Z.to_nat ((i + biL - 1) / biL).
Definition CHARS_TO_LIMBS (i : nat) : nat := ((i + ciL - 1) / ciL)%nat.

Definition limb (x : Z) : Prop := 0 <= x < base.
Definition limbs : list Z -> Prop := Forall limb.

(** Truncation to [t_int]. *)
Definition w64 (x : Z) : Z := x mod base.

(** The value of an array of limbs. *)
Fixpoint eval (p : list Z) : Z :=
  match p with
  | [] => 0
  | x :: p' => x + base * eval p'
  end.

(** [base ^ k] *)
Definition bpow (k : nat) : Z := base ^ Z.of_nat k.

(** ** Scans from the most significant limb *)

(** [for( i = n - 1; i >= 0; i-- ) if( p[i] != 0 ) break;] returns [i + 1]. *)
Fixpoint scan_top (p : list Z) (k : nat) : nat :=
  match k with
  | O => O
  | S i => if nth i p 0 =? 0 then scan_top p i else k
  end.

(** [for( i = n - 1; i > 0; i-- ) if( p[i] != 0 ) break;] returns [i]. *)
Fixpoint scan_top1 (p : list Z) (i : nat) : nat :=
  match i with
  | O => O
  | S i' => if nth i p 0 =? 0 then scan_top1 p i' else i
  end.

(** The number of significant limbs. *)
Definition used (p : list Z) : nat := scan_top p (length p).

(** ** Facts on limbs and their values *)

Lemma w64_limb x : limb (w64 x).
Proof. unfold limb, w64. apply Z.mod_pos_bound. reflexivity. Qed.

Lemma w64_small x : limb x -> w64 x = x.
Proof. intros H. apply Z.mod_small. exact H. Qed.

Lemma limb_0 : limb 0.
Proof. unfold limb; lia. Qed.

Lemma bpow_0 : bpow 0 = 1.
Proof. reflexivity. Qed.

Lemma bpow_S k : bpow (S k) = base * bpow k.
Proof. unfold bpow. rewrite Nat2Z.inj_succ, Z.pow_succ_r by lia. reflexivity. Qed.

Lemma bpow_add j k : bpow (j + k) = bpow j * bpow k.
Proof. unfold bpow. rewrite Nat2Z.inj_add, Z.pow_add_r by lia. reflexivity. Qed.

Lemma bpow_pos k : 0 < bpow k.
Proof. apply Z.pow_pos_nonneg; lia. Qed.

Lemma bpow_mono j k : (j <= k)%nat -> bpow j <= bpow k.
Proof. intros. apply Z.pow_le_mono_r; lia. Qed.

Lemma bpow_pow2 k : bpow k = 2 ^ (biL * Z.of_nat k).
Proof. unfold bpow. rewrite Z.pow_mul_r by lia. reflexivity. Qed.

Lemma eval_app p q : eval (p ++ q) = eval p + bpow (length p) * eval q.
Proof.
  induction p as [|x p IH]; simpl app; simpl length; simpl eval.
  - rewrite bpow_0. lia.
  - rewrite IH, bpow_S. ring.
Qed.

Lemma eval_zeros k : eval (repeat 0 k) = 0.
Proof. induction k; simpl; lia. Qed.

Lemma eval_bounds p : limbs p -> 0 <= eval p < bpow (length p).
Proof.
  induction 1 as [|x p Hx Hp IH]; simpl length; simpl eval.
  - rewrite bpow_0. lia.
  - rewrite bpow_S. unfold limb in Hx. lia.
Qed.

Lemma eval_firstn_skipn k p :
  eval p = eval (firstn k p) + bpow (length (firstn k p)) * eval (skipn k p).
Proof. rewrite <- eval_app, firstn_skipn. reflexivity. Qed.

Lemma eval_split_nth i p :
  (i < length p)%nat ->
  eval p = eval (firstn i p) + bpow i * nth i p 0 + bpow (S i) * eval (skipn (S i) p).
Proof.
  intros Hi. rewrite (firstn_skipn_nth i p 0 Hi) at 1.
  rewrite eval_app, length_firstn, Nat.min_l by lia. simpl eval. rewrite bpow_S. ring.
Qed.

Lemma nth_limb p i : limbs p -> limb (nth i p 0).
Proof. intros H. apply Forall_nth_Z; [exact H|apply limb_0]. Qed.

Lemma eval_inj p q :
  limbs p -> limbs q -> length p = length q -> eval p = eval q -> p = q.
Proof.
  intros Hp; revert q; induction Hp as [|x p Hx Hp IH]; intros [|y q] Hq Hl He;
    simpl in *; try discriminate; [reflexivity|].
  inv Hq. unfold limb in *.
  assert (x = y /\ eval p = eval q) as [-> Heq] by lia.
  f_equal. apply IH; auto; lia.
Qed.

#[export] Hint Resolve w64_limb limb_0 nth_limb : limbs.
#[export] Hint Unfold limbs : limbs.

(** *** Significant limbs *)

Lemma scan_top_le p k : (scan_top p k <= k)%nat.
Proof. induction k; simpl; [lia|]. destruct (_ =? _); lia. Qed.

Lemma used_le p : (used p <= length p)%nat.
Proof. apply scan_top_le. Qed.

Lemma scan_top_eval p k :
  (k <= length p)%nat -> eval (firstn k p) = eval (firstn (scan_top p k) p).
Proof.
  induction k as [|i IH]; intros Hk; simpl scan_top; [reflexivity|].
  case_bool (nth i p 0 =? 0); [|reflexivity].
  rewrite <- IH by lia.
  rewrite (firstn_skipn_nth i (firstn (S i) p) 0) by (rewrite length_firstn; lia).
  rewrite firstn_firstn, Nat.min_l, eval_app by lia.
  rewrite skipn_all2 by (rewrite length_firstn; lia).
  rewrite nth_firstn. replace (i <? S i)%nat with true by (symmetry; apply Nat.ltb_lt; lia).
  rewrite E. simpl. lia.
Qed.

Lemma eval_used p : eval p = eval (firstn (used p) p).
Proof.
  unfold used. rewrite <- scan_top_eval by lia. now rewrite firstn_all.
Qed.

Lemma scan_top_nz p k i : scan_top p k = S i -> nth i p 0 <> 0.
Proof.
  induction k as [|j IH]; simpl; [discriminate|].
  case_bool (nth j p 0 =? 0); intros H; [auto|]. inv H. exact E.
Qed.

Lemma used_0 p : used p = 0%nat -> eval p = 0.
Proof. intros H. rewrite eval_used, H. reflexivity. Qed.

Lemma used_S_bounds p k :
  limbs p -> used p = S k -> bpow k <= eval p < bpow (S k).
Proof.
  intros Hp Hu. pose proof (used_le p) as Hle.
  pose proof (scan_top_nz _ _ _ Hu) as Hnz.
  rewrite eval_used, Hu.
  assert (Hl : limbs (firstn (S k) p)) by auto with limbs.
  pose proof (eval_bounds _ Hl) as Hb. rewrite length_firstn, Nat.min_l in Hb by lia.
  split; [|lia].
  rewrite (eval_split_nth k) by (rewrite length_firstn; lia).
  rewrite firstn_firstn, Nat.min_l by lia.
  rewrite (skipn_all2 (n := S k)) by (rewrite length_firstn; lia).
  rewrite nth_firstn. replace (k <? S k)%nat with true by (symmetry; apply Nat.ltb_lt; lia).
  simpl eval.
  assert (0 <= eval (firstn k p)) by (apply eval_bounds; auto with limbs).
  pose proof (nth_limb p k Hp) as Hx. unfold limb in Hx. pose proof (bpow_pos k). nia.
Qed.

Lemma used_0_iff p : limbs p -> used p = 0%nat <-> eval p = 0.
Proof.
  intros Hp; split; [apply used_0|]. intros He.
  destruct (used p) as [|k] eqn:Hu; [reflexivity|].
  pose proof (used_S_bounds p k Hp Hu). pose proof (bpow_pos k). lia.
Qed.

(** More significant limbs, larger value. *)
Lemma used_lt_eval p q : limbs p -> limbs q -> (used p < used q)%nat -> eval p < eval q.
Proof.
  intros Hp Hq H. destruct (used q) as [|k] eqn:Eq; [lia|].
  pose proof (used_S_bounds q k Hq Eq).
  destruct (used p) as [|j] eqn:Ep.
  - pose proof (used_0 p Ep). pose proof (bpow_pos k). lia.
  - pose proof (used_S_bounds p j Hp Ep).
    pose proof (bpow_mono (S j) k ltac:(lia)). lia.
Qed.

Lemma scan_top1_spec p i :
  S (scan_top1 p i) = Nat.max 1 (scan_top p (S i)).
Proof.
  induction i as [|i IH].
  - simpl. destruct (nth 0 p 0 =? 0); reflexivity.
  - change (scan_top1 p (S i)) with
      (if nth (S i) p 0 =? 0 then scan_top1 p i else S i).
    change (scan_top p (S (S i))) with
      (if nth (S i) p 0 =? 0 then scan_top p (S i) else S (S i)).
    destruct (nth (S i) p 0 =? 0); [exact IH|lia].
Qed.

Lemma scan_top_stable p k l :
  (scan_top p l <= k <= l)%nat -> scan_top p k = scan_top p l.
Proof.
  induction l as [|l IH]; simpl; intros H.
  - destruct k; [reflexivity|lia].
  - case_bool (nth l p 0 =? 0).
    + destruct (Nat.eq_dec k (S l)) as [->|]; [|apply IH; lia].
      simpl. rewrite E, Z.eqb_refl. reflexivity.
    + replace k with (S l) by lia. simpl. apply Z.eqb_neq in E. now rewrite E.
Qed.

Lemma eval_firstn_ge p k : (used p <= k)%nat -> eval (firstn k p) = eval p.
Proof.
  intros Hk. destruct (Nat.le_gt_cases (length p) k) as [Hl|Hl].
  - now rewrite firstn_all2.
  - rewrite (scan_top_eval p k), (eval_used p) by lia. unfold used in *.
    rewrite (scan_top_stable p k (length p)) by lia. reflexivity.
Qed.

Lemma eval_firstn_S p k :
  eval (firstn (S k) p) = eval (firstn k p) + bpow k * nth k p 0.
Proof.
  revert k; induction p as [|x p IH]; intros [|k];
    rewrite ?firstn_nil, ?firstn_cons, ?firstn_O; cbn [eval nth]; rewrite ?bpow_0; try lia.
  rewrite IH, bpow_S. ring.
Qed.

Lemma eval_firstn_bounds p k : limbs p -> 0 <= eval (firstn k p) < bpow k.
Proof.
  intros Hp. assert (H : limbs (firstn k p)) by auto with limbs.
  apply eval_bounds in H. rewrite length_firstn in H.
  pose proof (bpow_mono (Nat.min k (length p)) k ltac:(lia)). lia.
Qed.

Lemma eval_nonneg p : limbs p -> 0 <= eval p.
Proof. apply eval_bounds. Qed.

Lemma eval_firstn_add p j k :
  (j <= length p)%nat ->
  eval (firstn (j + k) p) = eval (firstn j p) + bpow j * eval (firstn k (skipn j p)).
Proof.
  intros Hj. rewrite (eval_firstn_skipn j (firstn (j + k) p)).
  rewrite firstn_firstn, Nat.min_l, length_firstn, Nat.min_l by lia.
  rewrite skipn_firstn_comm. do 4 f_equal. lia.
Qed.

(** The number of significant limbs depends on the value only. *)
Lemma used_eval_eq p q : limbs p -> limbs q -> eval p = eval q -> used p = used q.
Proof.
  intros Hp Hq He. pose proof (used_lt_eval p q Hp Hq). pose proof (used_lt_eval q p Hq Hp).
  destruct (Nat.lt_trichotomy (used p) (used q)) as [|[|]]; lia.
Qed.

Lemma eval_lt_bpow_used p : limbs p -> eval p < bpow (used p).
Proof. intros Hp. rewrite (eval_used p) at 1. now apply eval_firstn_bounds. Qed.

(** A limb is a digit of the value in base [2^64]. *)
Lemma nth_eval p i : limbs p -> nth i p 0 = (eval p / bpow i) mod base.
Proof.
  intros Hp. pose proof (nth_limb p i Hp) as Hx. unfold limb in Hx.
  pose proof (eval_firstn_bounds p i Hp) as Hlo. pose proof (bpow_pos i).
  destruct (Nat.le_gt_cases (length p) i) as [Hle|Hlt].
  - rewrite nth_overflow by lia. rewrite firstn_all2 in Hlo by lia.
    rewrite Z.div_small by lia. reflexivity.
  - assert (Hd : eval p / bpow i = nth i p 0 + base * eval (skipn (S i) p)).
    { symmetry. apply Z.div_unique with (eval (firstn i p)); [left; lia|].
      rewrite (eval_split_nth i p) at 1 by lia. rewrite bpow_S. ring. }
    rewrite Hd, (Z.mul_comm base), Z.mod_add, Z.mod_small by lia. reflexivity.
Qed.

Lemma nth_top p i : limbs p -> eval p < bpow (S i) -> nth i p 0 = eval p / bpow i.
Proof.
  intros Hp Hlt. rewrite nth_eval by auto. pose proof (bpow_pos i).
  rewrite bpow_S in Hlt. apply Z.mod_small. split.
  - apply Z.div_pos; [now apply eval_nonneg|lia].
  - apply Z.div_lt_upper_bound; lia.
Qed.

Lemma eval_upd_list p i x :
  (i < length p)%nat -> eval (upd_list p i x) = eval p + bpow i * (x - nth i p 0).
Proof.
  intros Hi. rewrite upd_list_app, eval_app, length_firstn, Nat.min_l by lia.
  rewrite (eval_split_nth i p) by lia. cbn [eval]. rewrite bpow_S. ring.
Qed.
