(* ===== verification/Mpi.v ===== *)
(** * Multi-precision integers: data, storage, sizes and comparison

    [libsparkle/crypto/bignum.c], first part: the [mpi] structure, its
    allocation, copy and small constants, its sizes in bits and bytes and
    its comparisons. *)
From Stdlib Require Import ZArith List Lia Bool.
Import ListNotations.
From S2P Require Import Prelude CMonad Limbs.
#[local] Open Scope Z_scope.
#[local] Open Scope cmonad_scope.

(** ** Data *)

(** The structure [mpi]: [n] is the length of [mpi_p], and the pointer is
    NULL when the list is empty. *)
Record mpi : Type := Mpi { mpi_s : Z; mpi_p : list Z }.

Definition mpi_n (X : mpi) : nat := length (mpi_p X).

Definition POLARSSL_ERR_MPI_FILE_IO_ERROR : Z := 2.
Definition POLARSSL_ERR_MPI_BAD_INPUT_DATA : Z := 4.
Definition POLARSSL_ERR_MPI_INVALID_CHARACTER : Z := 6.
Definition POLARSSL_ERR_MPI_BUFFER_TOO_SMALL : Z := 8.
Definition POLARSSL_ERR_MPI_NEGATIVE_VALUE : Z := 10.
Definition POLARSSL_ERR_MPI_DIVISION_BY_ZERO : Z := 12.
Definition POLARSSL_ERR_MPI_NOT_ACCEPTABLE : Z := 14.

(** An operand that is a pointer: to the destination of the call itself
    ([Self]), or to another [mpi]. *)
Inductive arg : Type := Self | Var (m : mpi).

Definition deref (X : mpi) (a : arg) : mpi := match a with Self => X | Var m => m end.
Definition is_self (a : arg) : bool := match a with Self => true | Var _ => false end.

(** ** Operations *)

Definition mpi_init : mpi := Mpi 1 [].

(** [memset( X->p, 0, .. ); free( X->p )], and the fields are reset. *)
Definition mpi_free (X : mpi) : mpi := Mpi 1 [].

Definition mpi_grow (X : mpi) (nblimbs : nat) : M mpi :=
  if (mpi_n X <? nblimbs)%nat then
    ok <- malloc;;
    if ok then ret (Mpi (mpi_s X) (mpi_p X ++ repeat 0 (nblimbs - mpi_n X)))
    else throw ERR_ALLOC
  else ret X.

(** The number of limbs [mpi_copy] copies: at least one of a non-empty
    source. *)
Definition copy_len (p : list Z) : nat :=
  match length p with O => O | S m => S (scan_top1 p m) end.

Definition mpi_copy (X : mpi) (Y : arg) : M mpi :=
  match Y with
  | Self => ret X
  | Var Y =>
      let i := copy_len (mpi_p Y) in
      X <- mpi_grow (Mpi (mpi_s Y) (mpi_p X)) i;;
      ret (Mpi (mpi_s X) (firstn i (mpi_p Y) ++ repeat 0 (mpi_n X - i)))
  end.

Definition mpi_swap (X Y : mpi) : mpi * mpi := (Y, X).

Definition mpi_lset (X : mpi) (z : Z) : M mpi :=
  X <- mpi_grow X 1;;
  p <- wr (repeat 0 (mpi_n X)) 0 (w64 (if z <? 0 then - z else z));;
  ret (Mpi (if z <? 0 then -1 else 1) p).

(** The bits of one limb from the lowest up: [( x >> j ) & 1 != 0]. *)
Fixpoint lsb_bits (x : Z) (j : Z) (todo : nat) : option Z :=
  match todo with
  | O => None
  | S todo' =>
      if Z.land (Z.shiftr x j) 1 =? 0 then lsb_bits x (j + 1) todo' else Some j
  end.

Fixpoint lsb_limbs (p : list Z) (count : Z) : Z :=
  match p with
  | [] => 0
  | x :: p' =>
      match lsb_bits x 0 (Z.to_nat biL) with
      | Some j => count + j
      | None => lsb_limbs p' (count + biL)
      end
  end.

Definition mpi_lsb (X : mpi) : Z := lsb_limbs (mpi_p X) 0.

(** [for( j = k - 1; j >= 0; j-- ) if( ( ( x >> j ) & 1 ) != 0 ) break;]
    returns [j + 1]. *)
Fixpoint msb_bits (x : Z) (k : nat) : Z :=
  match k with
  | O => 0
  | S j =>
      if Z.land (Z.shiftr x (Z.of_nat j)) 1 =? 0 then msb_bits x j else Z.of_nat k
  end.

Definition mpi_msb (X : mpi) : M Z :=
  match mpi_n X with
  | O => ub
  | S m =>
      let i := scan_top1 (mpi_p X) m in
      x <- rd (mpi_p X) i;;
      ret (Z.of_nat i * biL + msb_bits x (Z.to_nat biL))
  end.

Definition mpi_size (X : mpi) : M Z :=
  m <- mpi_msb X;;
  ret (Z.shiftr (m + 7) 3).

(** The common limbs of two operands from limb [k - 1] down. *)
Fixpoint cmp_limbs (p q : list Z) (k : nat) (gt lt : Z) : Z :=
  match k with
  | O => 0
  | S i =>
      if nth i q 0 <? nth i p 0 then gt
      else if nth i p 0 <? nth i q 0 then lt
      else cmp_limbs p q i gt lt
  end.

Definition mpi_cmp_abs (X Y : mpi) : Z :=
  let i := used (mpi_p X) in
  let j := used (mpi_p Y) in
  if ((i =? 0) && (j =? 0))%nat then 0
  else if (j <? i)%nat then 1
  else if (i <? j)%nat then -1
  else cmp_limbs (mpi_p X) (mpi_p Y) i 1 (-1).

Definition mpi_cmp_mpi (X Y : mpi) : Z :=
  let i := used (mpi_p X) in
  let j := used (mpi_p Y) in
  if ((i =? 0) && (j =? 0))%nat then 0
  else if (j <? i)%nat then mpi_s X
  else if (i <? j)%nat then - mpi_s X
  else if (0 <? mpi_s X) && (mpi_s Y <? 0) then 1
  else if (0 <? mpi_s Y) && (mpi_s X <? 0) then -1
  else cmp_limbs (mpi_p X) (mpi_p Y) i (mpi_s X) (- mpi_s X).

(** The [mpi] on the stack that stands for an [int]. *)
Definition mpi_of_int (z : Z) : mpi :=
  Mpi (if z <? 0 then -1 else 1) [w64 (if z <? 0 then - z else z)].

Definition mpi_cmp_int (X : mpi) (z : Z) : Z := mpi_cmp_mpi X (mpi_of_int z).

(** ** Specification *)

Definition sign_ok (z : Z) : Prop := z = 1 \/ z = -1.

(** What every operation keeps true of an [mpi]. *)
Definition mpi_wf (X : mpi) : Prop := sign_ok (mpi_s X) /\ limbs (mpi_p X).

(** The absolute value and the value of an [mpi]. *)
Definition mag (X : mpi) : Z := eval (mpi_p X).
Definition val (X : mpi) : Z := mpi_s X * mag X.

(** The number of bits of a non-negative integer. *)
Definition bitlen (v : Z) : Z := if v =? 0 then 0 else Z.log2 v + 1.

(** The [int] a three-way comparison returns. *)
Definition cmp_sign (c : comparison) : Z :=
  match c with Gt => 1 | Lt => -1 | Eq => 0 end.

Lemma mpi_wf_limbs X : mpi_wf X -> limbs (mpi_p X).
Proof. now intros [_ H]. Qed.
#[export] Hint Resolve mpi_wf_limbs : limbs.

Lemma sign_ok_1 : sign_ok 1. Proof. now left. Qed.
Lemma sign_ok_m1 : sign_ok (-1). Proof. now right. Qed.
Lemma sign_ok_opp z : sign_ok z -> sign_ok (- z).
Proof. intros [->| ->]; [right|left]; reflexivity. Qed.
Lemma sign_ok_mul a b : sign_ok a -> sign_ok b -> sign_ok (a * b).
Proof. intros [->| ->] [->| ->]; [left|right|right|left]; reflexivity. Qed.
Lemma sign_ok_if (b : bool) : sign_ok (if b then -1 else 1).
Proof. destruct b; [right|left]; reflexivity. Qed.
#[export] Hint Resolve sign_ok_1 sign_ok_m1 sign_ok_opp sign_ok_mul sign_ok_if : limbs.

Lemma mag_nonneg X : mpi_wf X -> 0 <= mag X.
Proof. intros [_ H]. now apply eval_bounds. Qed.

Lemma val_abs X : mpi_wf X -> Z.abs (val X) = mag X.
Proof.
  intros HX. pose proof (mag_nonneg X HX). destruct HX as [[Hs|Hs] _];
    unfold val; rewrite Hs; lia.
Qed.

Lemma mpi_init_wf : mpi_wf mpi_init.
Proof. split; [left; reflexivity|constructor]. Qed.
#[export] Hint Resolve mpi_init_wf : limbs.

(** *** Storage *)

Lemma mpi_grow_runs d X k E :
  runs d (mpi_grow X k)
    (fun X' => mpi_s X' = mpi_s X /\ mpi_p X' = mpi_p X ++ repeat 0 (k - mpi_n X)) E.
Proof.
  unfold mpi_grow. case_bool (mpi_n X <? k)%nat.
  - runs_step runs_malloc. intros [|] Hb; [apply runs_ret; auto|].
    intros h Hh. simpl. split; auto. right. split; auto.
    destruct d; auto. discriminate (Hb eq_refl).
  - apply runs_ret. rewrite (proj2 (Nat.sub_0_le _ _)) by lia. simpl. now rewrite app_nil_r.
Qed.

(** The same with what its callers use of it. *)
Lemma mpi_grow_spec d X k E :
  mpi_wf X ->
  runs d (mpi_grow X k)
    (fun X' => mpi_wf X' /\ mag X' = mag X /\ mpi_s X' = mpi_s X /\
               mpi_n X' = Nat.max (mpi_n X) k) E.
Proof.
  intros [Hs Hp]. eapply runs_post; [apply mpi_grow_runs|]. intros X' [Es Ep].
  unfold mpi_wf, mag, mpi_n in *. rewrite Es, Ep, eval_app, eval_zeros, length_app, repeat_length.
  repeat split; auto with limbs; lia.
Qed.

Lemma copy_len_spec p : copy_len p = Nat.min (length p) (Nat.max 1 (used p)).
Proof.
  unfold copy_len, used. destruct (length p) as [|m]; [reflexivity|].
  rewrite scan_top1_spec. pose proof (scan_top_le p (S m)). lia.
Qed.

Lemma eval_copy_len p : eval (firstn (copy_len p) p) = eval p.
Proof.
  rewrite copy_len_spec. destruct (Nat.le_gt_cases (length p) (Nat.max 1 (used p))).
  - rewrite Nat.min_l by lia. now rewrite firstn_all.
  - rewrite Nat.min_r by lia. apply eval_firstn_ge. lia.
Qed.

Lemma copy_len_le p : (copy_len p <= length p)%nat.
Proof. rewrite copy_len_spec. lia. Qed.

Lemma mpi_copy_var_runs d X Y E :
  runs d (mpi_copy X (Var Y))
    (fun X' => mpi_s X' = mpi_s Y /\
       mpi_p X' = firstn (copy_len (mpi_p Y)) (mpi_p Y)
                  ++ repeat 0 (Nat.max (mpi_n X) (copy_len (mpi_p Y)) - copy_len (mpi_p Y))) E.
Proof.
  unfold mpi_copy. runs_step mpi_grow_runs. intros X' [Es Ep].
  apply runs_ret. unfold mpi_n in *. simpl in *.
  rewrite Ep, length_app, repeat_length. split; [exact Es|].
  do 2 f_equal. lia.
Qed.

(** [mpi_copy] gives its destination the value of its source. *)
Lemma mpi_copy_spec d X Y E :
  mpi_wf (deref X Y) ->
  runs d (mpi_copy X Y)
    (fun X' => mpi_wf X' /\ mag X' = mag (deref X Y) /\ mpi_s X' = mpi_s (deref X Y) /\
               mpi_n X' = Nat.max (mpi_n X) (copy_len (mpi_p (deref X Y)))) E.
Proof.
  intros HY. destruct Y as [|Y]; simpl deref in *.
  - apply runs_ret. split; [exact HY|]. do 2 (split; [reflexivity|]).
    pose proof (copy_len_le (mpi_p X)). unfold mpi_n.
    lia.
  - eapply runs_post; [apply mpi_copy_var_runs|]. intros X' [Es Ep].
    unfold mpi_wf, mag, mpi_n in *. rewrite Es, Ep, eval_app, eval_zeros, eval_copy_len.
    rewrite length_app, length_firstn, repeat_length. pose proof (copy_len_le (mpi_p Y)).
    destruct HY as [HsY HpY]. repeat split; auto with limbs; lia.
Qed.

Lemma mpi_lset_spec d X z E :
  Z.abs z < base ->
  runs d (mpi_lset X z)
    (fun X' => mpi_wf X' /\ val X' = z /\ mpi_n X' = Nat.max 1 (mpi_n X) /\
               mpi_s X' = (if z <? 0 then -1 else 1) /\
               mpi_p X' = Z.abs z :: repeat 0 (mpi_n X - 1)) E.
Proof.
  intros Hz. unfold mpi_lset. runs_step mpi_grow_runs. intros X' [Es Ep].
  assert (Hn : mpi_n X' = S (mpi_n X - 1)).
  { unfold mpi_n in *. rewrite Ep, length_app, repeat_length. lia. }
  runs_step runs_wr; [rewrite repeat_length; lia|]. intros p ->. apply runs_ret.
  rewrite Hn. cbn [repeat upd_list mpi_s mpi_p].
  rewrite w64_small by (unfold limb; destruct (z <? 0) eqn:?; lia).
  replace (if z <? 0 then - z else z) with (Z.abs z) by (destruct (Z.ltb_spec z 0); lia).
  unfold mpi_wf, val, mag, mpi_n; cbn [mpi_s mpi_p eval length].
  rewrite eval_zeros, repeat_length.
  repeat split; auto with limbs; try lia.
  - constructor; [unfold limb; lia|]. apply Forall_repeat, limb_0.
  - case_bool (z <? 0); lia.
Qed.

(** *** Sizes *)

Lemma land_shiftr_1 x j : 0 <= j -> Z.land (Z.shiftr x j) 1 = (x / 2 ^ j) mod 2.
Proof.
  intros. rewrite Z.shiftr_div_pow2 by lia.
  change 1 with (Z.ones 1) at 1. now rewrite Z.land_ones by lia.
Qed.

Lemma msb_bits_spec x k : 0 <= x < 2 ^ Z.of_nat k -> msb_bits x k = bitlen x.
Proof.
  induction k as [|j IH]; intros Hx; simpl msb_bits.
  - replace x with 0 by (change (2 ^ Z.of_nat 0) with 1 in Hx; lia). reflexivity.
  - rewrite land_shiftr_1 by lia.
    assert (Hp : 2 ^ Z.of_nat (S j) = 2 * 2 ^ Z.of_nat j)
      by (rewrite Nat2Z.inj_succ, Z.pow_succ_r by lia; reflexivity).
    assert (0 < 2 ^ Z.of_nat j) by (apply Z.pow_pos_nonneg; lia).
    destruct (Z.lt_ge_cases x (2 ^ Z.of_nat j)) as [Hlt|Hge].
    + rewrite Z.div_small by lia. simpl. apply IH. lia.
    + assert (Hd : x / 2 ^ Z.of_nat j = 1)
        by (symmetry; apply Z.div_unique with (x - 2 ^ Z.of_nat j); lia).
      rewrite Hd. simpl. unfold bitlen. case_bool (x =? 0); [lia|].
      rewrite (Z.log2_unique x (Z.of_nat j)); [lia|lia|].
      rewrite Z.pow_succ_r by lia. lia.
Qed.

Lemma bitlen_add_high lo x k :
  limb x -> 0 < x -> 0 <= lo < bpow k ->
  bitlen (lo + bpow k * x) = Z.of_nat k * biL + bitlen x.
Proof.
  intros Hx Hx0 Hlo. pose proof (bpow_pos k). unfold bitlen.
  case_bool (x =? 0); [lia|]. case_bool (lo + bpow k * x =? 0); [nia|].
  enough (Z.log2 (lo + bpow k * x) = Z.of_nat k * biL + Z.log2 x) by lia.
  pose proof (Z.log2_spec x Hx0) as Hl. pose proof (Z.log2_nonneg x).
  apply Z.log2_unique; [lia|].
  rewrite Z.pow_succ_r, Z.pow_add_r by lia.
  rewrite (Z.mul_comm (Z.of_nat k)), <- bpow_pow2.
  rewrite Z.pow_succ_r in Hl by lia. nia.
Qed.

(** [mpi_msb] returns the position of the most significant bit plus one. *)
Lemma mpi_msb_spec d X E :
  mpi_wf X -> (0 < mpi_n X)%nat ->
  runs d (mpi_msb X) (fun m => m = bitlen (mag X)) E.
Proof.
  intros [_ Hp] Hn. unfold mpi_msb, mag. unfold mpi_n in *.
  destruct (length (mpi_p X)) as [|m] eqn:Hl; [lia|].
  pose proof (scan_top1_spec (mpi_p X) m) as Hs. rewrite <- Hl in Hs.
  change (scan_top (mpi_p X) (length (mpi_p X))) with (used (mpi_p X)) in Hs.
  pose proof (used_le (mpi_p X)).
  set (i := scan_top1 (mpi_p X) m) in *.
  runs_step runs_rd; [lia|]. intros x ->. apply runs_ret.
  pose proof (nth_limb (mpi_p X) i Hp) as Hx.
  rewrite msb_bits_spec by (unfold limb in Hx; change (2 ^ _) with base; lia).
  rewrite <- (eval_firstn_ge _ (S i)) by lia.
  rewrite (firstn_skipn_nth i (firstn (S i) (mpi_p X)) 0) by (rewrite length_firstn; lia).
  rewrite firstn_firstn, Nat.min_l by lia. rewrite nth_firstn.
  rewrite (proj2 (Nat.ltb_lt i (S i))) by lia.
  rewrite skipn_all2 by (rewrite length_firstn; lia).
  rewrite eval_app, length_firstn, Nat.min_l by lia. cbn [eval].
  assert (Hlo : limbs (firstn i (mpi_p X))) by auto with limbs.
  apply eval_bounds in Hlo. rewrite length_firstn, Nat.min_l in Hlo by lia.
  rewrite Z.mul_0_r, Z.add_0_r.
  destruct (used (mpi_p X)) as [|j] eqn:Eu.
  - replace i with 0%nat in * by lia.
    pose proof (used_0 _ Eu) as Hz.
    rewrite (eval_split_nth 0) in Hz by lia.
    assert (limbs (skipn 1 (mpi_p X))) as Hk by auto with limbs.
    apply eval_bounds in Hk. change (bpow 1) with base in Hz.
    unfold limb in Hx. simpl firstn in *. cbn [eval] in *. rewrite bpow_0 in *.
    replace (nth 0 (mpi_p X) 0) with 0 by lia. reflexivity.
  - replace i with j in * by lia. symmetry. apply bitlen_add_high; auto.
    apply scan_top_nz in Eu. unfold limb in Hx. lia.
Qed.

Lemma mpi_size_spec d X E :
  mpi_wf X -> (0 < mpi_n X)%nat ->
  runs d (mpi_size X) (fun m => m = (bitlen (mag X) + 7) / 8) E.
Proof.
  intros HX Hn. unfold mpi_size. runs_step mpi_msb_spec; auto. intros m ->.
  apply runs_ret. now rewrite Z.shiftr_div_pow2 by lia.
Qed.

(** *** Comparisons *)

Lemma cmp_limbs_spec p q k gt lt :
  limbs p -> limbs q ->
  cmp_limbs p q k gt lt =
    match eval (firstn k p) ?= eval (firstn k q) with
    | Gt => gt | Lt => lt | Eq => 0 end.
Proof.
  intros Hp Hq. induction k as [|i IH]; [reflexivity|].
  cbn [cmp_limbs]. rewrite IH, !eval_firstn_S. pose proof (bpow_pos i).
  pose proof (eval_firstn_bounds p i Hp). pose proof (eval_firstn_bounds q i Hq).
  case_bool (nth i q 0 <? nth i p 0); [|case_bool (nth i p 0 <? nth i q 0)].
  - destruct (Z.compare_spec (eval (firstn i p) + bpow i * nth i p 0)
                (eval (firstn i q) + bpow i * nth i q 0)); nia.
  - destruct (Z.compare_spec (eval (firstn i p) + bpow i * nth i p 0)
                (eval (firstn i q) + bpow i * nth i q 0)); nia.
  - replace (nth i p 0) with (nth i q 0) by lia. 
    rewrite !(Z.add_comm _ (bpow i * _)). now rewrite Z.add_compare_mono_l.
Qed.

(** [mpi_cmp_abs] compares the absolute values. *)
Lemma mpi_cmp_abs_spec X Y :
  mpi_wf X -> mpi_wf Y -> mpi_cmp_abs X Y = cmp_sign (mag X ?= mag Y).
Proof.
  intros [_ HX] [_ HY]. unfold mpi_cmp_abs, mag.
  pose proof (used_lt_eval _ _ HX HY) as Hlt. pose proof (used_lt_eval _ _ HY HX) as Hgt.
  destruct ((used (mpi_p X) =? 0) && (used (mpi_p Y) =? 0))%nat eqn:E0.
  { apply andb_prop in E0 as [E1 E2]. apply Nat.eqb_eq in E1, E2.
    now rewrite (used_0 _ E1), (used_0 _ E2). }
  case_bool (used (mpi_p Y) <? used (mpi_p X))%nat.
  { now rewrite (proj2 (Z.compare_gt_iff _ _)) by auto. }
  case_bool (used (mpi_p X) <? used (mpi_p Y))%nat.
  { now rewrite (proj2 (Z.compare_lt_iff _ _)) by auto. }
  rewrite cmp_limbs_spec by auto. rewrite <- (eval_used (mpi_p X)).
  replace (used (mpi_p X)) with (used (mpi_p Y)) by lia. rewrite <- (eval_used (mpi_p Y)).
  destruct (eval (mpi_p X) ?= eval (mpi_p Y)); reflexivity.
Qed.

(** [mpi_cmp_mpi] compares the values, when the signs are the same or the
    first operand has at least as many significant limbs as the second.
    [mpi_cmp_mpi_wrong] shows that the proviso is needed. *)
Lemma mpi_cmp_mpi_spec X Y :
  mpi_wf X -> mpi_wf Y ->
  mpi_s X = mpi_s Y \/ (used (mpi_p Y) <= used (mpi_p X))%nat ->
  mpi_cmp_mpi X Y = cmp_sign (val X ?= val Y).
Proof.
  intros [HsX HX] [HsY HY] Hc. unfold mpi_cmp_mpi, val, mag.
  pose proof (used_lt_eval _ _ HX HY) as Hlt. pose proof (used_lt_eval _ _ HY HX) as Hgt.
  pose proof (eval_nonneg _ HX). pose proof (eval_nonneg _ HY).
  pose proof (used_0_iff _ HX). pose proof (used_0_iff _ HY).
  destruct ((used (mpi_p X) =? 0) && (used (mpi_p Y) =? 0))%nat eqn:E0.
  { apply andb_prop in E0 as [E1 E2]. apply Nat.eqb_eq in E1, E2.
    now rewrite (used_0 _ E1), (used_0 _ E2), !Z.mul_0_r. }
  assert (Hnz : used (mpi_p X) <> 0%nat \/ used (mpi_p Y) <> 0%nat).
  { apply andb_false_iff in E0 as [E0|E0]; apply Nat.eqb_neq in E0; auto. }
  set (ex := eval (mpi_p X)) in *. set (ey := eval (mpi_p Y)) in *.
  case_bool (used (mpi_p Y) <? used (mpi_p X))%nat.
  { destruct HsX as [-> | ->], HsY as [-> | ->];
      destruct (Z.compare_spec (1 * ex) (1 * ey)); destruct (Z.compare_spec (1 * ex) (-1 * ey));
      destruct (Z.compare_spec (-1 * ex) (1 * ey)); destruct (Z.compare_spec (-1 * ex) (-1 * ey));
      simpl; lia. }
  case_bool (used (mpi_p X) <? used (mpi_p Y))%nat.
  { destruct Hc as [<-|]; [|lia]. destruct HsX as [-> | ->];
      destruct (Z.compare_spec (1 * ex) (1 * ey)); destruct (Z.compare_spec (-1 * ex) (-1 * ey));
      simpl; lia. }
  rewrite cmp_limbs_spec by auto. rewrite <- (eval_used (mpi_p X)).
  assert (used (mpi_p X) = used (mpi_p Y)) as Hu by lia.
  rewrite Hu, <- (eval_used (mpi_p Y)). fold ex ey.
  destruct HsX as [-> | ->], HsY as [-> | ->]; simpl;
    destruct (Z.compare_spec ex ey);
    destruct (Z.compare_spec (1 * ex) (1 * ey)); destruct (Z.compare_spec (1 * ex) (-1 * ey));
    destruct (Z.compare_spec (-1 * ex) (1 * ey)); destruct (Z.compare_spec (-1 * ex) (-1 * ey));
    simpl; lia.
Qed.

(** Comparison with a small constant that is zero or has the operand's sign. *)
Lemma mpi_of_int_wf z : mpi_wf (mpi_of_int z).
Proof. split; unfold mpi_of_int; simpl; auto with limbs. Qed.
#[export] Hint Resolve mpi_of_int_wf : limbs.

Lemma mpi_of_int_val z : Z.abs z < base -> val (mpi_of_int z) = z.
Proof.
  intros. unfold val, mag, mpi_of_int. cbn [mpi_s mpi_p eval].
  rewrite w64_small by (unfold limb; destruct (Z.ltb_spec z 0); lia).
  destruct (Z.ltb_spec z 0); lia.
Qed.

Lemma mpi_cmp_int_0 X : mpi_wf X -> mpi_cmp_int X 0 = cmp_sign (val X ?= 0).
Proof.
  intros HX. unfold mpi_cmp_int. rewrite mpi_cmp_mpi_spec; auto with limbs.
  right. change (used (mpi_p (mpi_of_int 0))) with 0%nat. lia.
Qed.

Lemma mpi_cmp_int_pos X z :
  mpi_wf X -> mpi_s X = 1 -> 0 <= z < base ->
  mpi_cmp_int X z = cmp_sign (val X ?= z).
Proof.
  intros HX Hs Hz. unfold mpi_cmp_int.
  rewrite mpi_cmp_mpi_spec; [now rewrite mpi_of_int_val by lia|exact HX|auto with limbs|].
  left. rewrite Hs. unfold mpi_of_int; simpl. case_bool (z <? 0); lia.
Qed.

Lemma cmp_sign_pos c : 0 <= cmp_sign c <-> c <> Lt.
Proof. destruct c; simpl; split; intros; try lia; congruence. Qed.

(** Zero has a positive sign: what [mpi_cmp_mpi] relies on, and what
    [mpi_sub_mpi] does not always keep. *)
Definition canon (X : mpi) : Prop := mag X = 0 -> mpi_s X = 1.

Lemma pos_sign X : mpi_wf X -> 0 < val X -> mpi_s X = 1.
Proof.
  intros [Hs Hp] Hv. pose proof (eval_nonneg _ Hp). unfold val, mag in Hv.
  destruct Hs as [Hs|Hs]; rewrite Hs in *; lia.
Qed.

Lemma mag_pos_n X : mpi_wf X -> 0 < mag X -> (0 < mpi_n X)%nat.
Proof.
  intros HX Hm. unfold mag, mpi_n in *. destruct (mpi_p X); [simpl in Hm; lia|simpl; lia].
Qed.
