(* ===== verification/MpiAddSub.v ===== *)
(** * Multi-precision integers: addition and subtraction

    [libsparkle/crypto/bignum.c]: the unsigned routines [mpi_add_abs] and
    [mpi_sub_abs] with their carry and borrow loops, and the signed ones on
    top of them. *)
From Stdlib Require Import ZArith List Lia Bool.
Import ListNotations.
From S2P Require Import Prelude CMonad Limbs Mpi.
#[local] Open Scope Z_scope.
#[local] Open Scope cmonad_scope.

(** ** Operations *)

(** One turn of the addition loop, [*p += c; c = ( *p < c ); *p += *o;
    c += ( *p < *o )].  When [o] is the array of [p] itself ([self]) the
    reads of [*o] see the limb just written. *)
Definition add_step (self : bool) (x y c : Z) : Z * Z :=
  let x1 := w64 (x + c) in
  let c1 := b2z (x1 <? c) in
  let x2 := w64 (x1 + (if self then x1 else y)) in
  (x2, c1 + b2z (x2 <? (if self then x2 else y))).

(** [while( c != 0 )]: the carry goes up, and the number grows by a limb
    when it leaves the array. *)
Fixpoint carry_up (p : list Z) (c : Z) : M (list Z) :=
  if c =? 0 then ret p
  else
    match p with
    | [] =>
        ok <- malloc;;
        if ok then ret [w64 (0 + c)] else throw ERR_ALLOC
    | x :: p' =>
        let x' := w64 (x + c) in
        p'' <- carry_up p' (b2z (x' <? c));;
        ret (x' :: p'')
    end.

Fixpoint add_loop (self : bool) (k : nat) (o p : list Z) (c : Z) : M (list Z) :=
  match k with
  | O => carry_up p c
  | S k' =>
      match o, p with
      | y :: o', x :: p' =>
          let '(x', c') := add_step self x y c in
          p'' <- add_loop self k' o' p' c';;
          ret (x' :: p'')
      | _, _ => ub
      end
  end.

Definition mpi_add_abs (X : mpi) (A B : arg) : M mpi :=
  let '(A, B) := match B with Self => (Self, A) | Var _ => (A, B) end in
  X <- (match A with Self => ret X | Var _ => mpi_copy X A end);;
  let X := Mpi 1 (mpi_p X) in
  let j := used (mpi_p (deref X B)) in
  X <- mpi_grow X j;;
  p <- add_loop (is_self B) j (mpi_p (deref X B)) (mpi_p X) 0;;
  ret (Mpi (mpi_s X) p).

(** [while( c != 0 )] of [mpi_sub_hlp]: nothing bounds the array. *)
Fixpoint borrow_up (d : list Z) (c : Z) : M (list Z) :=
  if c =? 0 then ret d
  else
    match d with
    | [] => ub
    | x :: d' =>
        d'' <- borrow_up d' (b2z (x <? c));;
        ret (w64 (x - c) :: d'')
    end.

Fixpoint sub_loop (n : nat) (s d : list Z) (c : Z) : M (list Z) :=
  match n with
  | O => borrow_up d c
  | S n' =>
      match s, d with
      | y :: s', x :: d' =>
          let z := b2z (x <? c) in
          let x1 := w64 (x - c) in
          let c' := b2z (x1 <? y) + z in
          d'' <- sub_loop n' s' d' c';;
          ret (w64 (x1 - y) :: d'')
      | _, _ => ub
      end
  end.

Definition mpi_sub_hlp (n : nat) (s d : list Z) : M (list Z) := sub_loop n s d 0.

Definition mpi_sub_abs (X : mpi) (A B : arg) : M mpi :=
  if mpi_cmp_abs (deref X A) (deref X B) <? 0 then throw POLARSSL_ERR_MPI_NEGATIVE_VALUE
  else
    B <- (match B with Self => mpi_copy mpi_init (Var X) | Var B => ret B end);;
    X <- (match A with Self => ret X | Var _ => mpi_copy X A end);;
    let X := Mpi 1 (mpi_p X) in
    p <- mpi_sub_hlp (used (mpi_p B)) (mpi_p B) (mpi_p X);;
    ret (Mpi (mpi_s X) p).

Definition mpi_add_mpi (X : mpi) (A B : arg) : M mpi :=
  let s := mpi_s (deref X A) in
  if mpi_s (deref X A) * mpi_s (deref X B) <? 0 then
    if 0 <=? mpi_cmp_abs (deref X A) (deref X B) then
      X <- mpi_sub_abs X A B;;
      ret (Mpi s (mpi_p X))
    else
      X <- mpi_sub_abs X B A;;
      ret (Mpi (- s) (mpi_p X))
  else
    X <- mpi_add_abs X A B;;
    ret (Mpi s (mpi_p X)).

Definition mpi_sub_mpi (X : mpi) (A B : arg) : M mpi :=
  let s := mpi_s (deref X A) in
  if 0 <? mpi_s (deref X A) * mpi_s (deref X B) then
    if 0 <=? mpi_cmp_abs (deref X A) (deref X B) then
      X <- mpi_sub_abs X A B;;
      ret (Mpi s (mpi_p X))
    else
      X <- mpi_sub_abs X B A;;
      ret (Mpi (- s) (mpi_p X))
  else
    X <- mpi_add_abs X A B;;
    ret (Mpi s (mpi_p X)).

Definition mpi_add_int (X : mpi) (A : arg) (b : Z) : M mpi :=
  mpi_add_mpi X A (Var (mpi_of_int b)).

Definition mpi_sub_int (X : mpi) (A : arg) (b : Z) : M mpi :=
  mpi_sub_mpi X A (Var (mpi_of_int b)).

(** ** The loops *)

Lemma add_step_spec x y c x' c' :
  limb x -> limb y -> 0 <= c <= 1 -> add_step false x y c = (x', c') ->
  limb x' /\ 0 <= c' <= 1 /\ x' + base * c' = x + y + c.
Proof.
  unfold add_step, limb, w64, b2z. intros Hx Hy Hc [= <- <-].
  repeat destr_if; dlia.
Qed.

Lemma carry_up_spec d p c E :
  limbs p -> 0 <= c <= 1 ->
  runs d (carry_up p c)
    (fun p' => limbs p' /\ eval p' = eval p + c /\ (length p <= length p')%nat) E.
Proof.
  intros Hp; revert c; induction Hp as [|x p Hx Hp IH]; intros c Hc; cbn [carry_up].
  - case_bool (c =? 0); [apply runs_ret; subst; repeat split; auto with limbs; lia|].
    runs_step runs_malloc. intros [|] Hb.
    + apply runs_ret. replace c with 1 by lia. change (w64 (0 + 1)) with 1.
      split; [constructor; [unfold limb; lia|constructor]|simpl; lia].
    + intros h Hh. simpl. split; auto. right.
      destruct d; [discriminate (Hb eq_refl)|auto].
  - case_bool (c =? 0); [apply runs_ret; subst; repeat split; auto with limbs; lia|].
    runs_step IH; [apply b2z_bounds|]. intros p' (Hl & He & Hn). apply runs_ret.
    cbn [eval length]. rewrite He. split; [constructor; auto with limbs|split; [|lia]].
    unfold limb, w64, b2z in *. destr_if; dlia.
Qed.

Lemma add_loop_spec d k o p c E :
  limbs o -> limbs p -> (k <= length o)%nat -> (k <= length p)%nat -> 0 <= c <= 1 ->
  runs d (add_loop false k o p c)
    (fun p' => limbs p' /\ eval p' = eval p + eval (firstn k o) + c /\
               (length p <= length p')%nat) E.
Proof.
  revert o p c; induction k as [|k IH]; intros o p c Ho Hp Hko Hkp Hc; cbn [add_loop].
  - rewrite firstn_O. cbn [eval]. rewrite Z.add_0_r. now apply carry_up_spec.
  - destruct Ho as [|y o Hy Ho]; [simpl in Hko; lia|].
    destruct Hp as [|x p Hx Hp]; [simpl in Hkp; lia|].
    destruct (add_step false x y c) as [x' c'] eqn:Es.
    apply add_step_spec in Es as (Hx' & Hc' & Es); auto.
    runs_step IH; auto; [simpl in *; lia..|]. intros p' (Hl & He & Hn).
    apply runs_ret. rewrite firstn_cons. cbn [eval length]. rewrite He.
    split; [constructor; auto|split; [lia|simpl; lia]].
Qed.

Lemma borrow_up_spec d p c E :
  limbs p -> 0 <= c <= 1 -> c <= eval p ->
  runs d (borrow_up p c)
    (fun p' => limbs p' /\ eval p' = eval p - c /\ length p' = length p) E.
Proof.
  intros Hp; revert c; induction Hp as [|x p Hx Hp IH]; intros c Hc He; cbn [borrow_up].
  - cbn [eval] in He. replace c with 0 by lia. simpl. apply runs_ret.
    repeat split; auto with limbs.
  - case_bool (c =? 0); [apply runs_ret; subst; repeat split; auto with limbs; lia|].
    cbn [eval] in He. pose proof (eval_nonneg p Hp).
    runs_step IH; [apply b2z_bounds|unfold b2z, limb in *; destr_if; lia|].
    intros p' (Hl & He' & Hn). apply runs_ret. cbn [eval length]. rewrite He'.
    split; [constructor; auto with limbs|split; [|lia]].
    unfold limb, w64, b2z in *. destr_if; dlia.
Qed.

Lemma sub_loop_spec d k o p c E :
  limbs o -> limbs p -> (k <= length o)%nat -> (k <= length p)%nat -> 0 <= c <= 1 ->
  eval (firstn k o) + c <= eval p ->
  runs d (sub_loop k o p c)
    (fun p' => limbs p' /\ eval p' = eval p - eval (firstn k o) - c /\
               length p' = length p) E.
Proof.
  revert o p c; induction k as [|k IH]; intros o p c Ho Hp Hko Hkp Hc He; cbn [sub_loop].
  - rewrite firstn_O in *. cbn [eval] in *. rewrite Z.sub_0_r. apply borrow_up_spec; auto; lia.
  - destruct Ho as [|y o Hy Ho]; [simpl in Hko; lia|].
    destruct Hp as [|x p Hx Hp]; [simpl in Hkp; lia|].
    rewrite firstn_cons in *. cbn [eval length] in *. pose proof (eval_nonneg p Hp).
    set (c' := b2z (w64 (x - c) <? y) + b2z (x <? c)).
    assert (Hs : 0 <= c' <= 1 /\ w64 (w64 (x - c) - y) - base * c' = x - y - c).
    { subst c'. unfold limb, w64, b2z in *. repeat destr_if; dlia. }
    destruct Hs as [Hc' Hs]. pose proof (w64_limb (w64 (x - c) - y)) as Hl'.
    unfold limb in Hl', Hx, Hy.
    runs_step IH; auto; [lia..|]. intros p' (Hl & He' & Hn).
    apply runs_ret. cbn [eval length]. rewrite He'.
    split; [constructor; auto|split; [lia|lia]].
Qed.

(** ** Unsigned addition and subtraction *)

(** [mpi_add_abs] adds the absolute values, unless all three operands are
    the same object. *)
Lemma mpi_add_abs_spec d X A B E :
  mpi_wf X -> mpi_wf (deref X A) -> mpi_wf (deref X B) ->
  is_self A && is_self B = false ->
  runs d (mpi_add_abs X A B)
    (fun X' => mpi_wf X' /\ mpi_s X' = 1 /\ mag X' = mag (deref X A) + mag (deref X B) /\
               (mpi_n X <= mpi_n X')%nat) E.
Proof.
  intros HX HA HB Hs. unfold mpi_add_abs.
  set (AB := match B with Self => (Self, A) | Var _ => (A, B) end).
  assert (Hab : exists A' B', AB = (A', Var B') /\ mpi_wf (deref X A') /\ mpi_wf B' /\
      mag (deref X A') + mag B' = mag (deref X A) + mag (deref X B)).
  { destruct A as [|A], B as [|B]; try discriminate Hs; subst AB; simpl in *;
      do 2 eexists; (split; [reflexivity|]); simpl; repeat split; try apply HX;
      try apply HA; try apply HB; lia. }
  destruct Hab as (A' & B' & -> & HA' & HB' & Hm).
  eapply runs_bind.
  { instantiate (1 := fun X' => mpi_wf X' /\ mag X' = mag (deref X A') /\
                                (mpi_n X <= mpi_n X')%nat).
    destruct A' as [|A']; [apply runs_ret; auto|].
    eapply runs_post; [apply mpi_copy_spec; auto|]. intros X' (H1 & H2 & _ & H4).
    repeat split; auto; lia || apply H1. }
  intros X1 (HX1 & Hm1 & Hn1). simpl deref.
  runs_step mpi_grow_spec; [split; [left; reflexivity|apply HX1]|].
  intros X2 (HX2 & Hm2 & Hs2 & Hn2). unfold mpi_n in *. simpl in *.
  runs_step add_loop_spec; [apply HB'|apply HX2|apply used_le|lia|lia|].
  intros p' (Hl & He & Hn). apply runs_ret. unfold mpi_n, mag in *. simpl.
  rewrite <- eval_used in He. unfold mag in *. simpl in *. rewrite Hs2.
  repeat split; simpl; auto with limbs; lia.
Qed.

(** [mpi_sub_abs] subtracts the absolute values, whatever the aliasing. *)
Lemma mpi_sub_abs_spec d X A B E :
  mpi_wf X -> mpi_wf (deref X A) -> mpi_wf (deref X B) ->
  mag (deref X B) <= mag (deref X A) ->
  runs d (mpi_sub_abs X A B)
    (fun X' => mpi_wf X' /\ mpi_s X' = 1 /\ mag X' = mag (deref X A) - mag (deref X B) /\
               (mpi_n X <= mpi_n X')%nat) E.
Proof.
  intros HX HA HB Hle. unfold mpi_sub_abs. rewrite mpi_cmp_abs_spec by auto.
  destruct (Z.compare_spec (mag (deref X A)) (mag (deref X B))) as [|Hlt|]; [|lia|].
  all: cbn [cmp_sign Z.ltb Z.compare].
  all: eapply runs_bind;
    [instantiate (1 := fun B' => mpi_wf B' /\ mag B' = mag (deref X B));
     destruct B as [|B]; [|apply runs_ret; auto];
     eapply runs_post; [apply mpi_copy_spec; auto with limbs|]; intros B' (H1 & H2 & _); auto|].
  all: intros B' (HB' & HmB); eapply runs_bind;
    [instantiate (1 := fun X' => mpi_wf X' /\ mag X' = mag (deref X A) /\
                                (mpi_n X <= mpi_n X')%nat);
     destruct A as [|A]; [apply runs_ret; auto|];
     eapply runs_post; [apply mpi_copy_spec; auto|]; intros X' (H1 & H2 & _ & H4);
     repeat split; auto; lia || apply H1|].
  all: intros X1 (HX1 & Hm1 & Hn1).
  all: assert (Hu : (used (mpi_p B') <= length (mpi_p X1))%nat) by
    (destruct (Nat.le_gt_cases (used (mpi_p B')) (length (mpi_p X1))) as [|Hgt]; auto;
     pose proof (used_le (mpi_p X1));
     pose proof (used_lt_eval (mpi_p X1) (mpi_p B') ltac:(apply HX1) ltac:(apply HB') ltac:(lia));
     unfold mag in *; lia).
  all: unfold mpi_sub_hlp; simpl mpi_p; runs_step sub_loop_spec;
    [apply HB'|apply HX1|apply used_le|exact Hu|lia
    |rewrite <- eval_used; unfold mag in *; lia|].
  all: intros p' (Hl & He & Hn); rewrite <- eval_used in He; apply runs_ret;
    unfold mpi_n, mag in *; simpl; repeat split; simpl; auto with limbs; lia.
Qed.

(** [mpi_sub_abs] reports an error when the result would be negative. *)
Lemma mpi_sub_abs_err d X A B Q :
  mpi_wf (deref X A) -> mpi_wf (deref X B) ->
  mag (deref X A) < mag (deref X B) ->
  runs d (mpi_sub_abs X A B) Q (fun e => e = POLARSSL_ERR_MPI_NEGATIVE_VALUE).
Proof.
  intros HA HB Hlt. unfold mpi_sub_abs. rewrite mpi_cmp_abs_spec by auto.
  rewrite (proj2 (Z.compare_lt_iff _ _)) by auto. simpl. now apply runs_throw.
Qed.

(** ** Signed addition and subtraction *)

(** A signed sum through the unsigned routines: what [mpi_add_mpi] and
    [mpi_sub_mpi] share. *)
Lemma set_sign_runs d (m : M mpi) s E v k :
  sign_ok s ->
  runs d m (fun X' => mpi_wf X' /\ mpi_s X' = 1 /\ mag X' = v /\ (k <= mpi_n X')%nat) E ->
  runs d (X <- m;; ret (Mpi s (mpi_p X)))
    (fun X' => mpi_wf X' /\ val X' = s * v /\ (k <= mpi_n X')%nat /\ mpi_s X' = s) E.
Proof.
  intros Hs Hm. eapply runs_bind; [exact Hm|]. intros X' (HX' & _ & Hv & Hn).
  apply runs_ret. unfold val, mag, mpi_n in *. simpl.
  repeat split; simpl; auto with limbs; congruence.
Qed.

Lemma cmp_abs_ge X Y :
  mpi_wf X -> mpi_wf Y -> (0 <=? mpi_cmp_abs X Y) = (mag Y <=? mag X).
Proof.
  intros HX HY. rewrite mpi_cmp_abs_spec by auto.
  destruct (Z.compare_spec (mag X) (mag Y)); simpl; symmetry;
    rewrite ?Z.leb_le, ?Z.leb_gt; lia.
Qed.

Lemma mpi_add_mpi_spec d X A B E :
  mpi_wf X -> mpi_wf (deref X A) -> mpi_wf (deref X B) ->
  is_self A && is_self B = false ->
  runs d (mpi_add_mpi X A B)
    (fun X' => mpi_wf X' /\ val X' = val (deref X A) + val (deref X B) /\
               (mpi_n X <= mpi_n X')%nat) E.
Proof.
  intros HX HA HB Hself. unfold mpi_add_mpi. pose proof (proj1 HA) as HsA.
  pose proof (proj1 HB) as HsB. rewrite cmp_abs_ge by auto.
  case_bool (mpi_s (deref X A) * mpi_s (deref X B) <? 0);
    [case_bool (mag (deref X B) <=? mag (deref X A))|];
    (eapply runs_post;
     [apply set_sign_runs;
      [|first [apply mpi_sub_abs_spec|apply mpi_add_abs_spec]]; auto with limbs; try lia|]);
    intros X' (HX' & Hv & Hn & _); repeat split; try apply HX'; auto;
    rewrite Hv; unfold val;
    destruct HsA as [Ha | Ha], HsB as [Hb | Hb]; rewrite Ha, Hb in *; lia.
Qed.

Lemma mpi_sub_mpi_spec d X A B E :
  mpi_wf X -> mpi_wf (deref X A) -> mpi_wf (deref X B) ->
  runs d (mpi_sub_mpi X A B)
    (fun X' => mpi_wf X' /\ val X' = val (deref X A) - val (deref X B) /\
               (mpi_n X <= mpi_n X')%nat) E.
Proof.
  intros HX HA HB. unfold mpi_sub_mpi. pose proof (proj1 HA) as HsA.
  pose proof (proj1 HB) as HsB. rewrite cmp_abs_ge by auto.
  case_bool (0 <? mpi_s (deref X A) * mpi_s (deref X B));
    [case_bool (mag (deref X B) <=? mag (deref X A))|];
    (eapply runs_post;
     [apply set_sign_runs;
      [|first [apply mpi_sub_abs_spec|apply mpi_add_abs_spec]]; auto with limbs; try lia|]);
    try (intros X' (HX' & Hv & Hn & _); repeat split; try apply HX'; auto;
    rewrite Hv; unfold val;
    destruct HsA as [Ha | Ha], HsB as [Hb | Hb]; rewrite Ha, Hb in *; lia).
  destruct A as [|A], B as [|B]; auto. simpl in *. destruct HsA as [Ha | Ha]; rewrite Ha in *; lia.
Qed.

(** Subtraction of non-negative numbers in place keeps a positive sign. *)
Lemma mpi_sub_mpi_pos d X B E :
  mpi_wf X -> mpi_wf B -> mpi_s X = 1 -> mpi_s B = 1 -> mag B <= mag X ->
  runs d (mpi_sub_mpi X Self (Var B))
    (fun X' => mpi_wf X' /\ mpi_s X' = 1 /\ mag X' = mag X - mag B /\
               (mpi_n X <= mpi_n X')%nat) E.
Proof.
  intros HX HB Hs1 Hs2 Hle. unfold mpi_sub_mpi. simpl deref. rewrite cmp_abs_ge by auto.
  rewrite Hs1, Hs2. rewrite (proj2 (Z.leb_le _ _)) by lia. simpl.
  eapply runs_post; [apply set_sign_runs; [|apply mpi_sub_abs_spec]; auto with limbs|].
  intros X' (HX' & Hv & Hn & Hs). unfold val in Hv. rewrite Hs in Hv.
  repeat split; try apply HX'; auto. simpl in Hv. lia.
Qed.

Lemma mpi_add_int_spec d X A b E :
  mpi_wf X -> mpi_wf (deref X A) -> Z.abs b < base ->
  runs d (mpi_add_int X A b)
    (fun X' => mpi_wf X' /\ val X' = val (deref X A) + b /\ (mpi_n X <= mpi_n X')%nat) E.
Proof.
  intros HX HA Hb. unfold mpi_add_int. eapply runs_post.
  - apply mpi_add_mpi_spec; auto; [apply mpi_of_int_wf|apply andb_false_r].
  - intros X' (H1 & H2 & H3). cbn [deref] in H2. rewrite mpi_of_int_val in H2 by exact Hb. auto.
Qed.

Lemma mpi_sub_int_spec d X A b E :
  mpi_wf X -> mpi_wf (deref X A) -> Z.abs b < base ->
  runs d (mpi_sub_int X A b)
    (fun X' => mpi_wf X' /\ val X' = val (deref X A) - b /\ (mpi_n X <= mpi_n X')%nat) E.
Proof.
  intros HX HA Hb. unfold mpi_sub_int. eapply runs_post.
  - apply mpi_sub_mpi_spec; auto. apply mpi_of_int_wf.
  - intros X' (H1 & H2 & H3). cbn [deref] in H2. rewrite mpi_of_int_val in H2 by exact Hb. auto.
Qed.
