(* ===== verification/MpiShift.v ===== *)
(** * Multi-precision integers: shifts

    [libsparkle/crypto/bignum.c]: [mpi_shift_l] and [mpi_shift_r]. *)
From Stdlib Require Import ZArith List Lia Bool.
Import ListNotations.
From S2P Require Import Prelude CMonad Limbs Mpi.
#[local] Open Scope Z_scope.
#[local] Open Scope cmonad_scope.

(** ** Operations *)

(** [r1 = *p >> (biL - t1); *p <<= t1; *p |= r0; r0 = r1], limb by limb. *)
Fixpoint shl_bits (t1 : Z) (p : list Z) (r0 : Z) : list Z :=
  match p with
  | [] => []
  | x :: p' =>
      Z.lor (w64 (Z.shiftl x t1)) r0 :: shl_bits t1 p' (Z.shiftr x (biL - t1))
  end.

(** The shift by whole limbs moves the array up in place and clears its
    lowest [v0] limbs. *)
Definition shl_limbs (v0 : nat) (p : list Z) : list Z :=
  firstn (length p) (repeat 0 v0 ++ p).

Definition mpi_shift_l (X : mpi) (count : Z) : M mpi :=
  let v0 := Z.to_nat (count / biL) in
  let t1 := Z.land count (biL - 1) in
  m <- mpi_msb X;;
  let i := m + count in
  X <- (if Z.of_nat (mpi_n X) * biL <? i then mpi_grow X (BITS_TO_LIMBS i) else ret X);;
  let p := if (0 <? v0)%nat then shl_limbs v0 (mpi_p X) else mpi_p X in
  let p := if 0 <? t1 then firstn v0 p ++ shl_bits t1 (skipn v0 p) 0 else p in
  ret (Mpi (mpi_s X) p).

(** The loop of the right shift runs from the top limb down; [r0] is what
    falls out of the limb above. *)
Fixpoint shr_bits (v1 : Z) (p : list Z) : list Z * Z :=
  match p with
  | [] => ([], 0)
  | x :: p' =>
      let '(q, r0) := shr_bits v1 p' in
      (Z.lor (Z.shiftr x v1) r0 :: q, w64 (Z.shiftl x (biL - v1)))
  end.

Definition shr_limbs (v0 : nat) (p : list Z) : list Z :=
  skipn v0 p ++ repeat 0 (Nat.min v0 (length p)).

Definition mpi_shift_r (X : mpi) (count : Z) : M mpi :=
  let v0 := Z.to_nat (count / biL) in
  let v1 := Z.land count (biL - 1) in
  let p := if (0 <? v0)%nat then shr_limbs v0 (mpi_p X) else mpi_p X in
  let p := if 0 <? v1 then fst (shr_bits v1 p) else p in
  ret (Mpi (mpi_s X) p).

(** ** The bit loops *)

Lemma land_63 c : Z.land c (biL - 1) = c mod biL.
Proof. change (biL - 1) with (Z.ones 6). rewrite Z.land_ones by lia. reflexivity. Qed.

Lemma base_pow2 t : 0 <= t <= biL -> base = 2 ^ (biL - t) * 2 ^ t.
Proof. intros H. rewrite <- Z.pow_add_r by lia. now replace (biL - t + t) with biL by lia. Qed.

Lemma shiftr_limb x t : limb x -> 0 <= t <= biL -> 0 <= x / 2 ^ t < 2 ^ (biL - t).
Proof.
  intros Hx Ht. assert (0 < 2 ^ t) by (apply Z.pow_pos_nonneg; lia).
  pose proof (base_pow2 t Ht). unfold limb in Hx.
  split; [apply Z.div_pos; lia|apply Z.div_lt_upper_bound; lia].
Qed.

Lemma w64_shl x t : 0 <= t <= biL -> w64 (x * 2 ^ t) = (x mod 2 ^ (biL - t)) * 2 ^ t.
Proof. intros H. unfold w64. change base with (2 ^ biL). now apply mod_mul_pow2. Qed.

Lemma shl_bits_spec t p r0 :
  0 < t < biL -> limbs p -> 0 <= r0 < 2 ^ t ->
  limbs (shl_bits t p r0) /\ length (shl_bits t p r0) = length p /\
  exists c, 0 <= c < 2 ^ t /\
    eval (shl_bits t p r0) + bpow (length p) * c = 2 ^ t * eval p + r0.
Proof.
  intros Ht Hp; revert r0; induction Hp as [|x p Hx Hp IH]; intros r0 Hr; cbn [shl_bits].
  - split; [constructor|split; [reflexivity|]]. exists r0. simpl. rewrite bpow_0. lia.
  - rewrite Z.shiftl_mul_pow2, Z.shiftr_div_pow2 by lia.
    pose proof (shiftr_limb x (biL - t) Hx ltac:(lia)) as Hq.
    replace (biL - (biL - t)) with t in Hq by lia.
    destruct (IH _ Hq) as (Hl & Hn & c & Hc & He).
    rewrite w64_shl, lor_disjoint by lia.
    pose proof (base_pow2 t ltac:(lia)) as Hb.
    assert (0 < 2 ^ (biL - t)) by (apply Z.pow_pos_nonneg; lia).
    pose proof (Z.mod_pos_bound x (2 ^ (biL - t)) ltac:(lia)).
    pose proof (Z.div_mod x (2 ^ (biL - t)) ltac:(lia)) as Hdm.
    split; [|split; [simpl; lia|]].
    + constructor; [|exact Hl]. unfold limb. rewrite Hb. nia.
    + exists c. split; [exact Hc|]. cbn [eval length]. rewrite bpow_S.
      generalize dependent (x / 2 ^ (biL - t)). intros xq ? ? ?.
      generalize dependent (x mod 2 ^ (biL - t)). intros xr ? ? ?.
      transitivity (xr * 2 ^ t + r0 + base * (2 ^ t * eval p + xq)); [|rewrite Hdm, Hb; ring].
      rewrite <- He. ring.
Qed.

Lemma shr_bits_spec t p :
  0 < t < biL -> limbs p ->
  limbs (fst (shr_bits t p)) /\ length (fst (shr_bits t p)) = length p /\
  eval (fst (shr_bits t p)) = eval p / 2 ^ t /\
  snd (shr_bits t p) = (eval p mod 2 ^ t) * 2 ^ (biL - t).
Proof.
  intros Ht Hp. induction Hp as [|x p Hx Hp IH]; cbn [shr_bits].
  - simpl. repeat split; auto with limbs.
  - destruct (shr_bits t p) as [q r0]. cbn [fst snd] in *.
    destruct IH as (Hl & Hn & He & ->).
    rewrite Z.shiftl_mul_pow2, Z.shiftr_div_pow2 by lia.
    pose proof (shiftr_limb x t Hx ltac:(lia)) as Hq.
    rewrite Z.lor_comm, lor_disjoint by lia.
    rewrite w64_shl by lia.
    replace (biL - (biL - t)) with t by lia.
    pose proof (base_pow2 t ltac:(lia)) as Hb.
    assert (0 < 2 ^ t) by (apply Z.pow_pos_nonneg; lia).
    assert (0 < 2 ^ (biL - t)) by (apply Z.pow_pos_nonneg; lia).
    pose proof (Z.mod_pos_bound (eval p) (2 ^ t) ltac:(lia)) as Hm.
    pose proof (Z.div_mod (eval p) (2 ^ t) ltac:(lia)) as Hdm.
    cbn [eval length]. rewrite He.
    split; [constructor; [unfold limb; rewrite Hb; nia|exact Hl]|].
    split; [lia|]. rewrite Hb. split.
    + replace (x + 2 ^ (biL - t) * 2 ^ t * eval p) with (x + (2 ^ (biL - t) * eval p) * 2 ^ t) by ring.
      rewrite Z.div_add by lia. rewrite Hdm at 3. ring.
    + replace (x + 2 ^ (biL - t) * 2 ^ t * eval p) with (x + (2 ^ (biL - t) * eval p) * 2 ^ t) by ring.
      rewrite Z.mod_add by lia. reflexivity.
Qed.

(** ** The shifts *)

Lemma eval_firstn_small p k : limbs p -> eval p < bpow k -> eval (firstn k p) = eval p.
Proof.
  intros Hp Hlt. apply eval_firstn_ge.
  destruct (used p) as [|j] eqn:Eu; [lia|].
  pose proof (used_S_bounds p j Hp Eu).
  destruct (Nat.le_gt_cases (S j) k); auto.
  pose proof (bpow_mono k j ltac:(lia)). lia.
Qed.

Lemma bitlen_bound v k : 0 <= v -> bitlen v <= k -> v < 2 ^ k.
Proof.
  unfold bitlen. intros Hv. case_bool (v =? 0); intros Hk.
  - subst. apply Z.pow_pos_nonneg; lia.
  - pose proof (Z.log2_spec v ltac:(lia)). pose proof (Z.log2_nonneg v).
    pose proof (Z.pow_le_mono_r 2 (Z.succ (Z.log2 v)) k ltac:(lia) ltac:(lia)). lia.
Qed.

Lemma shift_l_limbs v0 t p :
  0 <= t < biL -> limbs p -> eval p * (bpow v0 * 2 ^ t) < bpow (length p) ->
  let q := if (0 <? v0)%nat then shl_limbs v0 p else p in
  let r := if 0 <? t then firstn v0 q ++ shl_bits t (skipn v0 q) 0 else q in
  (v0 <= length p)%nat ->
  limbs r /\ eval r = eval p * (bpow v0 * 2 ^ t) /\ length r = length p.
Proof.
  intros Ht Hp Hlt q r Hv0.
  assert (Hq : q = repeat 0 v0 ++ firstn (length p - v0) p).
  { subst q. unfold shl_limbs. case_bool (0 <? v0)%nat.
    - rewrite firstn_app, repeat_length.
      now rewrite (firstn_all2 (repeat 0 v0)) by (rewrite repeat_length; lia).
    - replace v0 with 0%nat by lia. simpl. now rewrite firstn_all2 by lia. }
  assert (Hn : length q = length p)
    by (rewrite Hq, length_app, repeat_length, length_firstn; lia).
  pose proof (eval_nonneg p Hp) as Hnn. pose proof (bpow_pos v0).
  assert (H2 : 0 < 2 ^ t) by (apply Z.pow_pos_nonneg; lia).
  assert (Hsplit : bpow (length p) = bpow v0 * bpow (length p - v0))
    by (rewrite <- bpow_add; f_equal; lia).
  assert (Hlt' : eval p * 2 ^ t < bpow (length p - v0)) by nia.
  assert (He : eval (firstn (length p - v0) p) = eval p)
    by (apply eval_firstn_small; auto; nia).
  assert (Hlq : limbs q) by (rewrite Hq; auto with limbs).
  subst r. case_bool (0 <? t).
  - assert (Hf : firstn v0 q = repeat 0 v0).
    { rewrite Hq, firstn_app, repeat_length, Nat.sub_diag, firstn_O, app_nil_r.
      apply firstn_all2. rewrite repeat_length. lia. }
    assert (Hs : skipn v0 q = firstn (length p - v0) p).
    { rewrite Hq, skipn_app, repeat_length, Nat.sub_diag.
      rewrite skipn_all2 by (rewrite repeat_length; lia). reflexivity. }
    rewrite Hf, Hs.
    destruct (shl_bits_spec t (firstn (length p - v0) p) 0 ltac:(lia)
                ltac:(auto with limbs) ltac:(lia)) as (Hl & Hlen & c & Hc & Heq).
    rewrite length_firstn, Nat.min_l in Hlen, Heq by lia. rewrite He in Heq.
    pose proof (eval_bounds _ Hl) as Hb. rewrite Hlen in Hb.
    assert (c = 0) by nia. subst c.
    split; [auto with limbs|]. rewrite eval_app, eval_zeros, length_app, repeat_length.
    split; [lia|lia].
  - replace t with 0 by lia. rewrite Z.pow_0_r, Z.mul_1_r.
    split; [exact Hlq|split; [|exact Hn]].
    rewrite Hq, eval_app, eval_zeros, repeat_length, He. lia.
Qed.

(** [mpi_shift_l] multiplies by a power of two; it enlarges the number as
    needed, so that no bit is lost. *)
Lemma mpi_shift_l_spec d X count E :
  mpi_wf X -> (0 < mpi_n X)%nat -> 0 <= count ->
  runs d (mpi_shift_l X count)
    (fun X' => mpi_wf X' /\ mag X' = mag X * 2 ^ count /\ mpi_s X' = mpi_s X /\
       mpi_n X' = Nat.max (mpi_n X) (BITS_TO_LIMBS (bitlen (mag X) + count))) E.
Proof.
  intros HX Hn Hc. unfold mpi_shift_l. runs_step mpi_msb_spec; auto. intros m ->.
  set (i := bitlen (mag X) + count).
  assert (Hi : 0 <= i) by (unfold i, bitlen; destr_if; [|pose proof (Z.log2_nonneg (mag X))]; lia).
  assert (Hbtl : Z.of_nat (BITS_TO_LIMBS i) = (i + 63) / 64).
  { unfold BITS_TO_LIMBS. rewrite Z2Nat.id by (apply Z.div_pos; lia).
    f_equal. lia. }
  eapply runs_bind.
  { instantiate (1 := fun X' => mpi_wf X' /\ mag X' = mag X /\ mpi_s X' = mpi_s X /\
      mpi_n X' = Nat.max (mpi_n X) (BITS_TO_LIMBS i)).
    case_bool (Z.of_nat (mpi_n X) * biL <? i); [now apply mpi_grow_spec|].
    apply runs_ret. repeat split; try apply HX. dlia. }
  intros X1 (HX1 & Hm & Hs & Hn1). apply runs_ret.
  rewrite land_63. pose proof (Z.mod_pos_bound count biL ltac:(lia)) as Ht.
  assert (Hcount : 2 ^ count = bpow (Z.to_nat (count / biL)) * 2 ^ (count mod biL)).
  { rewrite bpow_pow2, Z2Nat.id, <- Z.pow_add_r by dlia.
    f_equal. apply Z.div_mod. lia. }
  assert (Hn64 : i <= 64 * Z.of_nat (mpi_n X1)) by (rewrite Hn1; dlia).
  destruct (shift_l_limbs (Z.to_nat (count / biL)) (count mod biL) (mpi_p X1)) as (Hl & He & Hlen).
  - exact Ht.
  - apply HX1.
  - rewrite <- Hcount, bpow_pow2. fold (mag X1). rewrite Hm.
    pose proof (mag_nonneg X HX).
    destruct (Z.eq_dec (mag X) 0) as [->|Hnz]; [apply Z.pow_pos_nonneg; lia|].
    unfold mpi_n in Hn64. apply Z.lt_le_trans with (2 ^ i).
    + unfold i. assert (0 <= bitlen (mag X)) by (unfold bitlen; destr_if; [|pose proof (Z.log2_nonneg (mag X))]; lia).
      rewrite Z.pow_add_r by lia. apply Z.mul_lt_mono_pos_r; [apply Z.pow_pos_nonneg; lia|].
      apply bitlen_bound; lia.
    + apply Z.pow_le_mono_r; lia.
  - unfold mpi_n in Hn64. assert (count <= i) by (unfold i, bitlen; destr_if; [|pose proof (Z.log2_nonneg (mag X))]; lia).
    dlia.
  - unfold mpi_wf, mag, mpi_n in *. cbn [mpi_s mpi_p] in *.
    rewrite Hlen, He, <- Hcount, Hm. repeat split; auto. rewrite Hs. apply HX.
Qed.

(** [mpi_shift_r] divides the absolute value by a power of two, and keeps
    the sign and the size. *)
Lemma mpi_shift_r_spec d X count E :
  mpi_wf X -> 0 <= count ->
  runs d (mpi_shift_r X count)
    (fun X' => mpi_wf X' /\ mag X' = mag X / 2 ^ count /\ mpi_s X' = mpi_s X /\
               mpi_n X' = mpi_n X) E.
Proof.
  intros [Hs Hp] Hc. apply runs_ret. rewrite land_63.
  pose proof (Z.mod_pos_bound count biL ltac:(lia)) as Ht.
  set (v0 := Z.to_nat (count / biL)). set (t := count mod biL) in *.
  assert (Hcount : 2 ^ count = bpow v0 * 2 ^ t).
  { unfold v0, t. rewrite bpow_pow2, Z2Nat.id, <- Z.pow_add_r by dlia.
    f_equal. apply Z.div_mod. lia. }
  set (q := if (0 <? v0)%nat then shr_limbs v0 (mpi_p X) else mpi_p X).
  assert (Hq : limbs q /\ eval q = eval (mpi_p X) / bpow v0 /\ length q = length (mpi_p X)).
  { subst q. unfold shr_limbs. case_bool (0 <? v0)%nat.
    - rewrite eval_app, eval_zeros, Z.mul_0_r, Z.add_0_r, length_app, length_skipn, repeat_length.
      split; [auto with limbs|split; [|lia]].
      destruct (Nat.le_gt_cases v0 (length (mpi_p X))) as [Hle|Hgt].
      + apply Z.div_unique with (eval (firstn v0 (mpi_p X))).
        * left. now apply eval_firstn_bounds.
        * rewrite (eval_firstn_skipn v0 (mpi_p X)) at 1.
          rewrite length_firstn, Nat.min_l by lia. ring.
      + rewrite skipn_all2 by lia. pose proof (eval_bounds _ Hp).
        pose proof (bpow_mono (length (mpi_p X)) v0 ltac:(lia)).
        cbn [eval]. symmetry. apply Z.div_small. lia.
    - replace v0 with 0%nat by lia. rewrite bpow_0, Z.div_1_r. auto. }
  destruct Hq as (Hlq & Heq & Hnq). pose proof (bpow_pos v0).
  assert (0 < 2 ^ t) by (apply Z.pow_pos_nonneg; lia).
  unfold mpi_wf, mag, mpi_n. cbn [mpi_s mpi_p]. case_bool (0 <? t).
  - destruct (shr_bits_spec t q ltac:(lia) Hlq) as (Hl & Hlen & He & _).
    repeat split; auto; [|lia]. rewrite He, Heq, Hcount, Z.div_div by lia. reflexivity.
  - repeat split; auto. rewrite Heq, Hcount. replace t with 0 by lia.
    now rewrite Z.pow_0_r, Z.mul_1_r.
Qed.
