(* ===== verification/MpiMul.v ===== *)
(** * Multi-precision integers: multiplication

    [libsparkle/crypto/bn_mul.h], the portable C form of the
    multiply-and-add step, and the multiplication routines of
    [libsparkle/crypto/bignum.c]. *)
From Stdlib Require Import ZArith List Lia Bool.
Import ListNotations.
From S2P Require Import Prelude CMonad Limbs Mpi.
#[local] Open Scope Z_scope.
#[local] Open Scope cmonad_scope.

(** ** Operations *)

(** [MULADDC_CORE] on half limbs: one limb [s] times [b], plus the carry [c],
    plus the limb [d].  Returns the limb to store and the new carry. *)
Definition muladdc_core (s b d c : Z) : Z * Z :=
  let b0 := Z.shiftr (w64 (Z.shiftl b biH)) biH in
  let b1 := Z.shiftr b biH in
  let s0 := Z.shiftr (w64 (Z.shiftl s biH)) biH in
  let s1 := Z.shiftr s biH in
  let rx := w64 (s0 * b1) in
  let r0 := w64 (s0 * b0) in
  let ry := w64 (s1 * b0) in
  let r1 := w64 (s1 * b1) in
  let r1 := w64 (r1 + Z.shiftr rx biH) in
  let r1 := w64 (r1 + Z.shiftr ry biH) in
  let rx := w64 (Z.shiftl rx biH) in
  let ry := w64 (Z.shiftl ry biH) in
  let r0 := w64 (r0 + rx) in
  let r1 := w64 (r1 + b2z (r0 <? rx)) in
  let r0 := w64 (r0 + ry) in
  let r1 := w64 (r1 + b2z (r0 <? ry)) in
  let r0 := w64 (r0 + c) in
  let r1 := w64 (r1 + b2z (r0 <? c)) in
  let r0 := w64 (r0 + d) in
  let r1 := w64 (r1 + b2z (r0 <? d)) in
  (r0, r1).

(** [MULADDC_CORE] with a double-width product ([t_dbl]), the form the
    header uses when [POLARSSL_HAVE_LONGLONG] is defined. *)
Definition muladdc_core_dbl (s b d c : Z) : Z * Z :=
  let r := s * b in
  let r0 := w64 r in
  let r1 := w64 (Z.shiftr r biL) in
  let r0 := w64 (r0 + c) in
  let r1 := w64 (r1 + b2z (r0 <? c)) in
  let r0 := w64 (r0 + d) in
  let r1 := w64 (r1 + b2z (r0 <? d)) in
  (r0, r1).

(** [k] steps in a row on the arrays at [s] and [d], and then [cont] on
    what is left of them. *)
Fixpoint muladdc_run (k : nat) (b : Z) (s d : list Z) (c : Z)
    (cont : list Z -> list Z -> Z -> M (list Z)) : M (list Z) :=
  match k with
  | O => cont s d c
  | S k' =>
      match s, d with
      | x :: s', y :: d' =>
          let '(y', c') := muladdc_core x b y c in
          r <- muladdc_run k' b s' d' c' cont;;
          ret (y' :: r)
      | _, _ => ub
      end
  end.

(** [for( ; i >= blk; i -= blk ) { blk times MULADDC_CORE }]. *)
Fixpoint mul_blocks (blk fuel : nat) (b : Z) (i : nat) (s d : list Z) (c : Z)
    (cont : nat -> list Z -> list Z -> Z -> M (list Z)) : M (list Z) :=
  if (blk <=? i)%nat then
    match fuel with
    | O => out_of_fuel
    | S fuel' =>
        muladdc_run blk b s d c
          (fun s d c => mul_blocks blk fuel' b (i - blk) s d c cont)
    end
  else cont i s d c.

(** [do { *d += c; c = ( *d < c ); d++; } while( c != 0 );] *)
Fixpoint mul_tail (d : list Z) (c : Z) : M (list Z) :=
  match d with
  | [] => ub
  | x :: d' =>
      let x' := w64 (x + c) in
      let c' := b2z (x' <? c) in
      if c' =? 0 then ret (x' :: d')
      else
        r <- mul_tail d' c';;
        ret (x' :: r)
  end.

Definition mpi_mul_hlp (i : nat) (s d : list Z) (b : Z) : M (list Z) :=
  mul_blocks 16 i b i s d 0 (fun i s d c =>
  mul_blocks 8 i b i s d c (fun i s d c =>
  mul_blocks 1 i b i s d c (fun _ _ d c =>
  mul_tail d c))).

(** [for( i++; j >= 0; j-- ) mpi_mul_hlp( i, A->p, X->p + j, B->p[j] );] *)
Fixpoint mul_rows (k : nat) (i : nat) (a b x : list Z) : M (list Z) :=
  match k with
  | O => ret x
  | S j =>
      bj <- rd b j;;
      r <- mpi_mul_hlp i a (skipn j x) bj;;
      mul_rows j i a b (firstn j x ++ r)
  end.

Definition mpi_mul_mpi (X : mpi) (A B : arg) : M mpi :=
  A <- (match A with Self => mpi_copy mpi_init (Var X) | Var A => ret A end);;
  B <- (match B with Self => mpi_copy mpi_init (Var X) | Var B => ret B end);;
  let i := used (mpi_p A) in
  let j := used (mpi_p B) in
  X <- mpi_grow X (i + j);;
  X <- mpi_lset X 0;;
  p <- mul_rows j i (mpi_p A) (mpi_p B) (mpi_p X);;
  ret (Mpi (mpi_s A * mpi_s B) p).

Definition mpi_mul_int (X : mpi) (A : arg) (b : Z) : M mpi :=
  mpi_mul_mpi X A (Var (Mpi 1 [b])).

(** ** The multiply-and-add step *)

Lemma halves x :
  limb x ->
  exists x1 x0, 0 <= x1 < 4294967296 /\ 0 <= x0 < 4294967296 /\ x = x1 * 4294967296 + x0 /\
    Z.shiftr x biH = x1 /\ Z.shiftr (w64 (Z.shiftl x biH)) biH = x0 /\
    w64 (Z.shiftl x biH) = x0 * 4294967296.
Proof.
  unfold limb, w64. intros Hx. exists (x / 4294967296), (x mod 4294967296).
  rewrite Z.shiftl_mul_pow2, !Z.shiftr_div_pow2 by lia.
  change (2 ^ biH) with 4294967296. dlia.
Qed.

Lemma prod_bound a b m : 0 <= a < m -> 0 <= b < m -> 0 <= a * b <= (m - 1) * (m - 1).
Proof. intros. split; [nia|]. apply Z.mul_le_mono_nonneg; lia. Qed.

(** The tail both forms of the step share: add the carry and the limb to
    the double-width product [r1 : r0]. *)
Lemma muladdc_finish r0 r1 c d v :
  limb r0 -> limb r1 -> limb c -> limb d ->
  r0 + base * r1 = v -> v <= (base - 1) * (base - 1) ->
  let r0' := w64 (r0 + c) in
  let r1' := w64 (r1 + b2z (r0' <? c)) in
  let r0'' := w64 (r0' + d) in
  let r1'' := w64 (r1' + b2z (r0'' <? d)) in
  limb r0'' /\ limb r1'' /\ r0'' + base * r1'' = v + c + d.
Proof.
  cbv zeta. intros H0 H1 Hc Hd Hv Hb. split; [apply w64_limb|split; [apply w64_limb|]].
  unfold limb, w64, b2z in *. repeat destr_if; dlia.
Qed.

Lemma muladdc_core_spec s b d c y c' :
  limb s -> limb b -> limb d -> limb c -> muladdc_core s b d c = (y, c') ->
  limb y /\ limb c' /\ y + base * c' = s * b + d + c.
Proof.
  intros Hs Hb Hd Hc. unfold muladdc_core.
  destruct (halves s Hs) as (s1 & s0 & Hs1 & Hs0 & Es & -> & -> & _).
  destruct (halves b Hb) as (b1 & b0 & Hb1 & Hb0 & Eb & -> & -> & _).
  pose proof (prod_bound s0 b1 _ Hs0 Hb1) as P01. pose proof (prod_bound s0 b0 _ Hs0 Hb0) as P00.
  pose proof (prod_bound s1 b0 _ Hs1 Hb0) as P10. pose proof (prod_bound s1 b1 _ Hs1 Hb1) as P11.
  assert (Hv : s * b = s1 * b1 * base + (s0 * b1 + s1 * b0) * 4294967296 + s0 * b0)
    by (rewrite Es, Eb; ring).
  pose proof (prod_bound s b base Hs Hb) as Hsb.
  set (p01 := s0 * b1) in *. set (p00 := s0 * b0) in *.
  set (p10 := s1 * b0) in *. set (p11 := s1 * b1) in *.
  clearbody p01 p00 p10 p11. set (v := s * b) in *. clearbody v.
  rewrite !(w64_small p01), !(w64_small p00), !(w64_small p10), !(w64_small p11)
    by (unfold limb; lia).
  destruct (halves p01) as (x1 & x0 & Hx1 & Hx0 & Ex & -> & _ & ->); [unfold limb; lia|].
  destruct (halves p10) as (y1 & y0 & Hy1 & Hy0 & Ey & -> & _ & ->); [unfold limb; lia|].
  intros Heq.
  set (t0 := w64 (w64 (p00 + x0 * 4294967296) + y0 * 4294967296)) in *.
  set (t1 := w64 (w64 (w64 (w64 (p11 + x1) + y1) + b2z (w64 (p00 + x0 * 4294967296) <? x0 * 4294967296))
                + b2z (t0 <? y0 * 4294967296))) in *.
  assert (Ht : t0 + base * t1 = v).
  { subst t0 t1. unfold w64, b2z. repeat destr_if; dlia. }
  destruct (muladdc_finish t0 t1 c d v) as (H1 & H2 & H3); auto;
    [apply w64_limb|apply w64_limb|lia|].
  inv Heq. split; [exact H1|split; [exact H2|]]. lia.
Qed.

Lemma muladdc_core_dbl_spec s b d c y c' :
  limb s -> limb b -> limb d -> limb c -> muladdc_core_dbl s b d c = (y, c') ->
  limb y /\ limb c' /\ y + base * c' = s * b + d + c.
Proof.
  intros Hs Hb Hd Hc. unfold muladdc_core_dbl. cbv zeta.
  pose proof (prod_bound s b base Hs Hb) as Hsb. set (v := s * b) in *. clearbody v.
  rewrite Z.shiftr_div_pow2 by lia. change (2 ^ biL) with base.
  assert (Hv : w64 v + base * w64 (v / base) = v) by (unfold w64; dlia).
  destruct (muladdc_finish (w64 v) (w64 (v / base)) c d v) as (H1 & H2 & H3);
    auto using w64_limb; [lia|].
  intros Heq. inv Heq. split; [exact H1|split; [exact H2|]]. lia.
Qed.

(** ** The helper: unrolled loops and carry *)

Lemma muladdc_run_spec d E k b s y c cont (Q : list Z -> Prop) :
  limbs s -> limbs y -> limb b -> limb c -> (k <= length s)%nat -> (k <= length y)%nat ->
  (forall y1 c1, limbs y1 -> limb c1 -> length y1 = k ->
     eval y1 + bpow k * c1 = eval (firstn k y) + eval (firstn k s) * b + c ->
     runs d (cont (skipn k s) (skipn k y) c1) (fun r => Q (y1 ++ r)) E) ->
  runs d (muladdc_run k b s y c cont) Q E.
Proof.
  revert s y c Q; induction k as [|k IH]; intros s y c Q Hs Hy Hb Hc Hks Hky Hcont;
    cbn [muladdc_run].
  - specialize (Hcont [] c). simpl in Hcont. apply Hcont; auto with limbs.
    rewrite bpow_0. lia.
  - destruct Hs as [|x s Hx Hs]; [simpl in Hks; lia|].
    destruct Hy as [|z y Hz Hy]; [simpl in Hky; lia|].
    destruct (muladdc_core x b z c) as [z' c'] eqn:Em.
    apply muladdc_core_spec in Em as (Hz' & Hc' & Em); auto.
    eapply runs_bind.
    + apply (IH s y c' (fun r => Q (z' :: r))); auto; [simpl in *; lia..|].
      intros y1 c1 Hy1 Hc1 Hn He. apply (Hcont (z' :: y1) c1); auto with limbs; [simpl; lia|].
      rewrite !firstn_cons, bpow_S. cbn [eval]. lia.
    + intros r Hr. now apply runs_ret.
Qed.

(** A block loop is a plain run of as many steps as it consumes. *)
Lemma mul_blocks_spec d E blk fuel b i s y c cont (Q : list Z -> Prop) :
  (0 < blk)%nat -> (i <= fuel)%nat ->
  limbs s -> limbs y -> limb b -> limb c -> (i <= length s)%nat -> (i <= length y)%nat ->
  (forall k y1 c1, (k <= i)%nat -> (i - k < blk)%nat -> limbs y1 -> limb c1 -> length y1 = k ->
     eval y1 + bpow k * c1 = eval (firstn k y) + eval (firstn k s) * b + c ->
     runs d (cont (i - k)%nat (skipn k s) (skipn k y) c1) (fun r => Q (y1 ++ r)) E) ->
  runs d (mul_blocks blk fuel b i s y c cont) Q E.
Proof.
  intros Hblk. revert i s y c Q; induction fuel as [|fuel IH];
    intros i s y c Q Hf Hs Hy Hb Hc His Hiy Hcont; cbn [mul_blocks];
    case_bool (blk <=? i)%nat; try lia.
  1, 3: specialize (Hcont 0%nat [] c); rewrite Nat.sub_0_r in Hcont; simpl in Hcont;
    apply Hcont; auto with limbs; rewrite ?bpow_0; lia.
  apply muladdc_run_spec; auto; [lia|lia|].
  intros y1 c1 Hy1 Hc1 Hn He. apply IH; auto with limbs; rewrite ?length_skipn; try lia.
  intros k y2 c2 Hk Hlt Hy2 Hc2 Hn2 He2. rewrite !skipn_skipn.
  specialize (Hcont (k + blk)%nat (y1 ++ y2) c2).
  replace (i - (k + blk))%nat with (i - blk - k)%nat in Hcont by lia.
  eapply runs_post; [apply Hcont; auto with limbs; rewrite ?length_app; try lia|].
  - rewrite eval_app, Hn, (Nat.add_comm k blk), !eval_firstn_add, bpow_add by lia.
    transitivity (eval y1 + bpow blk * (eval y2 + bpow k * c2)); [ring|]. rewrite He2.
    transitivity ((eval y1 + bpow blk * c1)
      + bpow blk * (eval (firstn k (skipn blk y)) + eval (firstn k (skipn blk s)) * b)); [ring|].
    rewrite He. ring.
  - intros r. now rewrite app_assoc.
Qed.

Lemma mul_tail_spec d p c E :
  limbs p -> limb c -> (0 < length p)%nat -> eval p + c < bpow (length p) ->
  runs d (mul_tail p c)
    (fun p' => limbs p' /\ eval p' = eval p + c /\ length p' = length p) E.
Proof.
  intros Hp; revert c; induction Hp as [|x p Hx Hp IH]; intros c Hc Hn Hlt; [simpl in Hn; lia|].
  cbn [mul_tail]. cbn [eval length] in *. rewrite bpow_S in Hlt.
  assert (Hs : limb (w64 (x + c)) /\ w64 (x + c) + base * b2z (w64 (x + c) <? c) = x + c).
  { split; [apply w64_limb|]. unfold limb, w64, b2z in *. destr_if; dlia. }
  destruct Hs as [Hl Hs]. pose proof (b2z_bounds (w64 (x + c) <? c)) as Hb.
  set (c' := b2z (w64 (x + c) <? c)) in *. clearbody c'.
  case_bool (c' =? 0).
  - apply runs_ret. cbn [eval length]. repeat split; auto with limbs; lia.
  - unfold limb in Hl. runs_step IH; [unfold limb; lia| |lia|].
    + destruct p; [change (bpow (length [])) with 1 in Hlt; cbn [eval] in Hlt; lia|simpl; lia].
    + intros p' (Hl' & He' & Hn'). apply runs_ret. cbn [eval length].
      rewrite He'. repeat split; auto with limbs; lia.
Qed.

(** [mpi_mul_hlp] adds [s * b] to [d], whichever of the unrolled loops run. *)
Lemma mpi_mul_hlp_spec d i s y b E :
  limbs s -> limbs y -> limb b -> (i <= length s)%nat -> (i < length y)%nat ->
  eval (firstn i s) * b + eval y < bpow (length y) ->
  runs d (mpi_mul_hlp i s y b)
    (fun r => limbs r /\ eval r = eval y + eval (firstn i s) * b /\ length r = length y) E.
Proof.
  intros Hs Hy Hb His Hiy Hlt. unfold mpi_mul_hlp.
  apply mul_blocks_spec; auto with limbs; try lia.
  intros k1 y1 c1 Hk1 _ Hy1 Hc1 Hn1 He1.
  apply mul_blocks_spec; auto with limbs; rewrite ?length_skipn; try lia.
  intros k2 y2 c2 Hk2 _ Hy2 Hc2 Hn2 He2.
  apply mul_blocks_spec; auto with limbs; rewrite ?length_skipn; try lia.
  intros k3 y3 c3 Hk3 Hlt3 Hy3 Hc3 Hn3 He3.
  assert (Hi : i = (k1 + (k2 + k3))%nat) by lia.
  rewrite !skipn_skipn. replace (k3 + k2 + k1)%nat with i by lia.
  assert (He : eval (y1 ++ y2 ++ y3) + bpow i * c3 = eval (firstn i y) + eval (firstn i s) * b).
  { rewrite !eval_app, Hn1, Hn2, Hi, !eval_firstn_add, !bpow_add
      by (rewrite ?length_skipn; lia).
    transitivity (eval y1 + bpow k1 * (eval y2 + bpow k2 * (eval y3 + bpow k3 * c3))); [ring|].
    rewrite He3.
    transitivity (eval y1 + bpow k1 * ((eval y2 + bpow k2 * c2) + bpow k2 *
      (eval (firstn k3 (skipn k2 (skipn k1 y))) + eval (firstn k3 (skipn k2 (skipn k1 s))) * b)));
      [ring|].
    rewrite He2.
    transitivity ((eval y1 + bpow k1 * c1) + bpow k1 *
      (eval (firstn k2 (skipn k1 y)) + eval (firstn k2 (skipn k1 s)) * b + bpow k2 *
      (eval (firstn k3 (skipn k2 (skipn k1 y))) + eval (firstn k3 (skipn k2 (skipn k1 s))) * b)));
      [ring|].
    rewrite He1. ring. }
  set (u := y1 ++ y2 ++ y3) in *.
  assert (Hu : limbs u /\ length u = i)
    by (subst u; split; [auto with limbs|rewrite !length_app; lia]).
  destruct Hu as [Hu Hnu]. pose proof (eval_nonneg u Hu).
  assert (Hsplit : eval y = eval (firstn i y) + bpow i * eval (skipn i y)).
  { rewrite (eval_firstn_skipn i y) at 1. now rewrite length_firstn, Nat.min_l by lia. }
  assert (Hbp : bpow (length y) = bpow i * bpow (length y - i))
    by (rewrite <- bpow_add; f_equal; lia).
  eapply runs_post.
  - apply mul_tail_spec; auto with limbs; rewrite ?length_skipn; [lia|].
    apply (Z.mul_lt_mono_pos_l (bpow i)); [apply bpow_pos|].
    rewrite Z.mul_add_distr_l. lia.
  - intros r (Hr & Her & Hnr). rewrite length_skipn in Hnr.
    replace (y1 ++ y2 ++ y3 ++ r) with (u ++ r) by (subst u; now rewrite <- !app_assoc).
    rewrite eval_app, length_app, Hnu. split; [auto with limbs|split; [|lia]].
    rewrite Her, Z.mul_add_distr_l. lia.
Qed.

(** ** Products *)

Lemma mul_rows_spec d k i a b x E :
  limbs a -> limbs b -> limbs x -> (i <= length a)%nat -> (k <= length b)%nat ->
  (k + i <= length x)%nat -> eval x + eval (firstn i a) * eval (firstn k b) < bpow (length x) ->
  runs d (mul_rows k i a b x)
    (fun r => limbs r /\ eval r = eval x + eval (firstn i a) * eval (firstn k b) /\
              length r = length x) E.
Proof.
  revert x; induction k as [|j IH]; intros x Ha Hb Hx Hia Hkb Hkx Hlt; cbn [mul_rows].
  - apply runs_ret. rewrite firstn_O. cbn [eval]. repeat split; auto; lia.
  - rewrite eval_firstn_S in *. pose proof (nth_limb b j Hb) as Hbj.
    pose proof (eval_firstn_bounds b j Hb). pose proof (eval_firstn_bounds a i Ha) as Hea.
    pose proof (bpow_pos j). unfold limb in Hbj.
    assert (Hsplit : eval x = eval (firstn j x) + bpow j * eval (skipn j x)).
    { rewrite (eval_firstn_skipn j x) at 1. now rewrite length_firstn, Nat.min_l by lia. }
    assert (Hbp : bpow (length x) = bpow j * bpow (length x - j))
      by (rewrite <- bpow_add; f_equal; lia).
    pose proof (eval_firstn_bounds x j Hx).
    runs_step runs_rd; [lia|]. intros ? ->.
    runs_step mpi_mul_hlp_spec; auto with limbs; rewrite ?length_skipn; try lia.
    { assert (0 <= eval (firstn i a) * eval (firstn j b)) by (apply Z.mul_nonneg_nonneg; lia). nia. }
    intros r (Hr & Her & Hnr). rewrite ?length_skipn in Hnr.
    assert (Hlen : length (firstn j x ++ r) = length x)
      by (rewrite length_app, length_firstn; lia).
    assert (Hev : eval (firstn j x ++ r) = eval x + bpow j * (eval (firstn i a) * nth j b 0)).
    { rewrite eval_app, length_firstn, Nat.min_l, Her, Hsplit by lia. ring. }
    eapply runs_post; [apply IH; auto with limbs; rewrite ?Hlen, ?Hev; try lia|].
    intros p (Hp & Hep & Hnp). rewrite Hlen, Hev in *. repeat split; auto. rewrite Hep. ring.
Qed.

(** A copy made because the destination is also a source. *)
Lemma self_copy_runs d X A E :
  mpi_wf X -> mpi_wf (deref X A) ->
  runs d (match A with Self => mpi_copy mpi_init (Var X) | Var A => ret A end)
    (fun A' => mpi_wf A' /\ mag A' = mag (deref X A) /\ mpi_s A' = mpi_s (deref X A)) E.
Proof.
  intros HX HA. destruct A as [|A]; [|apply runs_ret; auto].
  eapply runs_post; [apply mpi_copy_spec; auto with limbs|]. intros A' (H1 & H2 & H3 & _). auto.
Qed.

(** [mpi_mul_mpi] multiplies the values, whatever the aliasing. *)
Lemma mpi_mul_mpi_spec d X A B E :
  mpi_wf X -> mpi_wf (deref X A) -> mpi_wf (deref X B) ->
  runs d (mpi_mul_mpi X A B)
    (fun X' => mpi_wf X' /\ mag X' = mag (deref X A) * mag (deref X B) /\
       mpi_s X' = mpi_s (deref X A) * mpi_s (deref X B) /\
       mpi_n X' = Nat.max (Nat.max 1 (mpi_n X))
                    (used (mpi_p (deref X A)) + used (mpi_p (deref X B)))) E.
Proof.
  intros HX HA HB. unfold mpi_mul_mpi.
  eapply runs_bind; [apply (self_copy_runs d X A); auto|]. intros A' (HA' & HmA & HsA).
  eapply runs_bind; [apply (self_copy_runs d X B); auto|]. intros B' (HB' & HmB & HsB).
  assert (HuA : used (mpi_p A') = used (mpi_p (deref X A)))
    by (apply used_eval_eq; auto with limbs).
  assert (HuB : used (mpi_p B') = used (mpi_p (deref X B)))
    by (apply used_eval_eq; auto with limbs).
  runs_step mpi_grow_spec; [exact HX|]. intros X1 (HX1 & _ & _ & Hn1).
  runs_step mpi_lset_spec; [lia|]. intros X2 (HX2 & _ & Hn2 & _ & Hp2).
  assert (He2 : eval (mpi_p X2) = 0) by (rewrite Hp2; cbn [eval]; rewrite eval_zeros; reflexivity).
  unfold mpi_n in *.
  runs_step mul_rows_spec; try apply used_le; auto with limbs; [lia| |].
  - rewrite <- !eval_used, He2. pose proof (eval_nonneg (mpi_p A') ltac:(auto with limbs)).
    pose proof (eval_lt_bpow_used (mpi_p A') ltac:(auto with limbs)).
    pose proof (eval_nonneg (mpi_p B') ltac:(auto with limbs)).
    pose proof (eval_lt_bpow_used (mpi_p B') ltac:(auto with limbs)).
    eapply Z.lt_le_trans with (bpow (used (mpi_p A') + used (mpi_p B'))).
    + rewrite bpow_add. nia.
    + apply bpow_mono. lia.
  - intros p (Hp & Hep & Hnp). apply runs_ret. rewrite <- !eval_used, He2 in Hep.
    unfold mag in *. cbn [mpi_s mpi_p] in *.
    split; [split; cbn [mpi_s mpi_p]; [apply sign_ok_mul; [apply HA'|apply HB']|exact Hp]|].
    split; [rewrite Hep, HmA, HmB; ring|split; [congruence|]]. lia.
Qed.

Lemma mpi_mul_mpi_val d X A B E :
  mpi_wf X -> mpi_wf (deref X A) -> mpi_wf (deref X B) ->
  runs d (mpi_mul_mpi X A B)
    (fun X' => mpi_wf X' /\ val X' = val (deref X A) * val (deref X B)) E.
Proof.
  intros HX HA HB. eapply runs_post; [apply mpi_mul_mpi_spec; auto|].
  intros X' (HX' & Hm & Hs & _). split; [exact HX'|]. unfold val. rewrite Hm, Hs. ring.
Qed.
