(* ===== verification/MpiDiv.v ===== *)
(** * Multi-precision integers: division

    [libsparkle/crypto/bignum.c]: [mpi_div_mpi] (schoolbook division on
    limbs, with both forms of the estimate of a quotient digit) and
    [mpi_div_int]. *)
From Stdlib Require Import ZArith List Lia Bool.
Import ListNotations.
From S2P Require Import Prelude CMonad Limbs Mpi MpiAddSub MpiShift MpiMul.
#[local] Open Scope Z_scope.
#[local] Open Scope cmonad_scope.

(** ** The estimate of a quotient digit *)

(** With a double-width type ([POLARSSL_HAVE_LONGLONG]). *)
Definition est_dbl (xi xi1 yt : Z) : M Z :=
  let r := Z.shiftl xi biL in
  let r := Z.lor r xi1 in
  let r := r / yt in
  let r := if base - 1 <? r then base - 1 else r in
  ret (w64 r).

(** [while( r >= d && r < m ) q--, r += d;] *)
Fixpoint est_correct (fuel : nat) (q r d m : Z) : M (Z * Z) :=
  if (d <=? r) && (r <? m) then
    match fuel with
    | O => out_of_fuel
    | S fuel' => est_correct fuel' (w64 (q - 1)) (w64 (r + d)) d m
    end
  else ret (q, r).

(** At most this many corrections before [r + d] wraps: [d] is at least
    [2^62] in a normalised division. *)
Definition est_fuel : nat := 4.

(** One half-limb step: [__udiv_qrnnd_c] for the half limb [x0] below [n]. *)
Definition est_half (n x0 d d1 d0 : Z) : M (Z * Z) :=
  let q := n / d1 in
  let r := w64 (n - w64 (d1 * q)) in
  let r := w64 (Z.shiftl r biH) in
  let r := Z.lor r x0 in
  let m := w64 (q * d0) in
  '(q, r) <- (if r <? m then est_correct est_fuel (w64 (q - 1)) (w64 (r + d)) d m
              else ret (q, r));;
  ret (q, w64 (r - m)).

(** Without one: two half-limb divisions. *)
Definition est_portable (xi xi1 yt : Z) : M Z :=
  let d := yt in
  let d0 := Z.shiftr (w64 (Z.shiftl d biH)) biH in
  let d1 := Z.shiftr d biH in
  '(q1, r1) <- est_half xi (Z.shiftr xi1 biH) d d1 d0;;
  '(q0, r0) <- est_half r1 (Z.shiftr (w64 (Z.shiftl xi1 biH)) biH) d d1 d0;;
  ret (Z.lor (w64 (Z.shiftl q1 biH)) q0).

Definition estimate (have_longlong : bool) (xi xi1 yt : Z) : M Z :=
  if have_longlong then est_dbl xi xi1 yt else est_portable xi xi1 yt.

(** ** The division *)

(** [do { q--; T1 = q * ( Y.p[t] : Y.p[t-1] ); T2 = ( X.p[i] : X.p[i-1] :
    X.p[i-2] ); } while( T1 > T2 );] *)
Fixpoint qhat_loop (fuel : nat) (i t : nat) (X Y T1 T2 : mpi) (q : Z) : M (Z * mpi * mpi) :=
  match fuel with
  | O => out_of_fuel
  | S fuel' =>
      let q := w64 (q - 1) in
      T1 <- mpi_lset T1 0;;
      y1 <- (if (t <? 1)%nat then ret 0 else rd (mpi_p Y) (t - 1));;
      p <- wr (mpi_p T1) 0 y1;;
      yt <- rd (mpi_p Y) t;;
      p <- wr p 1 yt;;
      T1 <- mpi_mul_int (Mpi (mpi_s T1) p) Self q;;
      T2 <- mpi_lset T2 0;;
      x2 <- (if (i <? 2)%nat then ret 0 else rd (mpi_p X) (i - 2));;
      p <- wr (mpi_p T2) 0 x2;;
      x1 <- (if (i <? 1)%nat then ret 0 else rd (mpi_p X) (i - 1));;
      p <- wr p 1 x1;;
      x0 <- rd (mpi_p X) i;;
      p <- wr p 2 x0;;
      let T2 := Mpi (mpi_s T2) p in
      if 0 <? mpi_cmp_mpi T1 T2 then qhat_loop fuel' i t X Y T1 T2 q
      else ret (q, T1, T2)
  end.

(** A quotient digit is at most this far below its estimate, plus the first
    turn of the loop. *)
Definition qhat_fuel : nat := 6.

Section Division.
Context (have_longlong : bool).

(** The body of [for( i = n; i > t; i-- )], [i = t + m]: one digit [z_(m-1)]
    of the quotient. *)
Definition div_digit (t m : nat) (Y : mpi) (X T1 T2 : mpi) : M (Z * mpi * mpi * mpi) :=
  let i := (t + m)%nat in
  let sh := biL * Z.of_nat (m - 1) in
  xi <- rd (mpi_p X) i;;
  yt <- rd (mpi_p Y) t;;
  q <- (if yt <=? xi then ret (base - 1)
        else
          xi1 <- rd (mpi_p X) (i - 1);;
          estimate have_longlong xi xi1 yt);;
  '(q, T1, T2) <- qhat_loop qhat_fuel i t X Y T1 T2 (w64 (q + 1));;
  T1 <- mpi_mul_int T1 (Var Y) q;;
  T1 <- mpi_shift_l T1 sh;;
  X <- mpi_sub_mpi X Self (Var T1);;
  if mpi_cmp_int X 0 <? 0 then
    T1 <- mpi_copy T1 (Var Y);;
    T1 <- mpi_shift_l T1 sh;;
    X <- mpi_add_mpi X Self (Var T1);;
    ret (w64 (q - 1), X, T1, T2)
  else ret (q, X, T1, T2).

Fixpoint div_loop (t m : nat) (Y : mpi) (z : list Z) (X T1 T2 : mpi) : M (list Z * mpi) :=
  match m with
  | O => ret (z, X)
  | S m' =>
      '(q, X, T1, T2) <- div_digit t m Y X T1 T2;;
      z <- wr z m' q;;
      div_loop t m' Y z X T1 T2
  end.

(** [while( mpi_cmp_mpi( &X, &Y ) >= 0 ) { Z.p[n - t]++; X -= Y; }] *)
Fixpoint div_top (fuel : nat) (k : nat) (Y : mpi) (z : list Z) (X : mpi) : M (list Z * mpi) :=
  if 0 <=? mpi_cmp_mpi X Y then
    match fuel with
    | O => out_of_fuel
    | S fuel' =>
        zk <- rd z k;;
        z <- wr z k (w64 (zk + 1));;
        X <- unchecked X (mpi_sub_mpi X Self (Var Y));;
        div_top fuel' k Y z X
    end
  else ret (z, X).

Definition top_fuel : nat := 4.

(** The absolute values: the quotient limbs and the remainder of [A] by
    [B], for [|A| >= |B| > 0]. *)
Definition div_abs (A B : mpi) : M (mpi * mpi) :=
  X <- mpi_copy mpi_init (Var A);;
  Y <- mpi_copy mpi_init (Var B);;
  let X := Mpi 1 (mpi_p X) in
  let Y := Mpi 1 (mpi_p Y) in
  Zq <- mpi_grow mpi_init (mpi_n A + 2);;
  Zq <- mpi_lset Zq 0;;
  T1 <- mpi_grow mpi_init 2;;
  T2 <- mpi_grow mpi_init 3;;
  m <- mpi_msb Y;;
  let k := m mod biL in
  '(k, X, Y) <- (if k <? biL - 1 then
                   let k := biL - 1 - k in
                   X <- mpi_shift_l X k;;
                   Y <- mpi_shift_l Y k;;
                   ret (k, X, Y)
                 else ret (0, X, Y));;
  let n := (mpi_n X - 1)%nat in
  let t := (mpi_n Y - 1)%nat in
  Y <- unchecked Y (mpi_shift_l Y (biL * Z.of_nat (n - t)));;
  '(z, X) <- div_top top_fuel (n - t) Y (mpi_p Zq) X;;
  Y <- mpi_shift_r Y (biL * Z.of_nat (n - t));;
  '(z, X) <- div_loop t (n - t) Y z X T1 T2;;
  X <- mpi_shift_r X k;;
  ret (Mpi (mpi_s Zq) z, X).

(** An operand of a division: the object the quotient or the remainder is
    written to, or another one. *)
Inductive div_arg : Type := IsQ | IsR | Other (m : mpi).

(** The current value of an operand.  A destination is absent when the
    caller passes NULL; it is then no operand. *)
Definition div_deref (Q R : option mpi) (a : div_arg) : mpi :=
  match a with
  | IsQ => match Q with Some q => q | None => mpi_init end
  | IsR => match R with Some r => r | None => mpi_init end
  | Other m => m
  end.

(** [|A| < |B|]: the quotient is zero and the remainder is [A]. *)
Definition div_small (Q R : option mpi) (A : div_arg) : M (option mpi * option mpi) :=
  Q <- (match Q with
        | Some q => q <- mpi_lset q 0;; ret (Some q)
        | None => ret None
        end);;
  R <- (match R with
        | Some r =>
            r <- mpi_copy r (match A with IsR => Self | _ => Var (div_deref Q R A) end);;
            ret (Some r)
        | None => ret None
        end);;
  ret (Q, R).

(** [if( Q != NULL ) { mpi_copy( Q, &Z ); Q->s = A->s * B->s; }] *)
Definition div_set_Q (Q R : option mpi) (A B : div_arg) (Zq : mpi) : M (option mpi) :=
  match Q with
  | Some q =>
      q <- unchecked (Mpi (mpi_s Zq) (mpi_p q)) (mpi_copy q (Var Zq));;
      let s := mpi_s (div_deref (Some q) R A) * mpi_s (div_deref (Some q) R B) in
      ret (Some (Mpi s (mpi_p q)))
  | None => ret None
  end.

(** The same for [R], after the shift back of [X]. *)
Definition div_set_R (Q R : option mpi) (A : div_arg) (X : mpi) : M (option mpi) :=
  match R with
  | Some r =>
      r <- unchecked (Mpi (mpi_s X) (mpi_p r)) (mpi_copy r (Var X));;
      let r := Mpi (mpi_s (div_deref Q (Some r) A)) (mpi_p r) in
      ret (Some (if mpi_cmp_int r 0 =? 0 then Mpi 1 (mpi_p r) else r))
  | None => ret None
  end.

Definition mpi_div_mpi (Q R : option mpi) (A B : div_arg) : M (option mpi * option mpi) :=
  if mpi_cmp_int (div_deref Q R B) 0 =? 0 then throw POLARSSL_ERR_MPI_DIVISION_BY_ZERO
  else if mpi_cmp_abs (div_deref Q R A) (div_deref Q R B) <? 0 then div_small Q R A
  else
    '(Zq, X) <- div_abs (div_deref Q R A) (div_deref Q R B);;
    Q <- div_set_Q Q R A B Zq;;
    R <- div_set_R Q R A X;;
    ret (Q, R).

Definition mpi_div_int (Q R : option mpi) (A : div_arg) (b : Z) : M (option mpi * option mpi) :=
  mpi_div_mpi Q R A (Other (mpi_of_int b)).
End Division.

(** ** The estimate *)

(** What the division needs of the estimate for the divisor limb [d]. *)
Definition est_good (hl : bool) (d : Z) : Prop :=
  forall xi xi1, 0 <= xi < d -> limb xi1 ->
  runs NoFail (estimate hl xi xi1 d)
    (fun q => q = Z.min (base - 1) ((xi * base + xi1) / d)) no_err.

(** With a double-width type the estimate is good for every divisor. *)
Lemma est_dbl_good d : 0 < d -> est_good true d.
Proof.
  intros Hd xi xi1 Hxi Hxi1. simpl. apply runs_ret.
  rewrite Z.shiftl_mul_pow2 by lia. change base with (2 ^ biL) in *.
  rewrite lor_disjoint by (unfold limb in *; lia). change (2 ^ biL) with base in *.
  unfold limb in *. assert (0 <= (xi * base + xi1) / d) by (apply Z.div_pos; lia).
  case_bool (base - 1 <? (xi * base + xi1) / d);
    [change (w64 (base - 1)) with (base - 1)|rewrite w64_small by (unfold limb; lia)]; lia.
Qed.

(** The portable estimate is good when the low half of the divisor limb is
    zero: no correction is needed then. *)
Lemma lor_half h x0 :
  0 <= x0 < 4294967296 -> Z.lor (h * 4294967296) x0 = h * 4294967296 + x0.
Proof. intros. change 4294967296 with (2 ^ biH) in *. apply lor_disjoint; lia. Qed.

Lemma est_half_exact n x0 d1 :
  0 < d1 -> 0 <= n < d1 * 4294967296 -> d1 < 2147483648 -> 0 <= x0 < 4294967296 ->
  est_half n x0 (d1 * 4294967296) d1 0 = ret (n / d1, (n mod d1) * 4294967296 + x0).
Proof.
  intros Hd1 Hn Hd1' Hx0. unfold est_half. cbv zeta.
  assert (Hq : 0 <= n / d1 < 4294967296)
    by (split; [apply Z.div_pos; lia|apply Z.div_lt_upper_bound; lia]).
  pose proof (Z.mod_pos_bound n d1 Hd1) as Hr. pose proof (Z.div_mod n d1 ltac:(lia)) as Hdm.
  rewrite (w64_small (d1 * (n / d1))) by (unfold limb; nia).
  replace (n - d1 * (n / d1)) with (n mod d1) by lia.
  rewrite (w64_small (n mod d1)) by (unfold limb; lia).
  rewrite Z.shiftl_mul_pow2 by lia. change (2 ^ biH) with 4294967296.
  rewrite (w64_small (n mod d1 * 4294967296)) by (unfold limb; lia).
  rewrite lor_half by lia. rewrite Z.mul_0_r. change (w64 0) with 0.
  rewrite (proj2 (Z.ltb_ge _ _)) by lia.
  unfold bind, ret. rewrite Z.sub_0_r, w64_small by (unfold limb; lia). reflexivity.
Qed.

Lemma est_portable_good d1 :
  0 < d1 < 2147483648 -> est_good false (d1 * 4294967296).
Proof.
  intros Hd1 xi xi1 Hxi Hxi1. unfold estimate, est_portable.
  destruct (halves (d1 * 4294967296)) as (e1 & e0 & He1 & He0 & Ee & -> & -> & _);
    [unfold limb; lia|].
  replace e1 with d1 by lia. replace e0 with 0 by lia.
  destruct (halves xi1 Hxi1) as (h1 & h0 & Hh1 & Hh0 & Eh & -> & -> & _).
  rewrite est_half_exact, bind_ret by lia.
  assert (Hq : 0 <= xi / d1 < 4294967296)
    by (split; [apply Z.div_pos; lia|apply Z.div_lt_upper_bound; lia]).
  pose proof (Z.mod_pos_bound xi d1 ltac:(lia)) as Hr.
  rewrite est_half_exact, bind_ret by lia.
  set (r1 := xi mod d1 * 4294967296 + h1) in *.
  assert (Hq0 : 0 <= r1 / d1 < 4294967296)
    by (split; [apply Z.div_pos; lia|apply Z.div_lt_upper_bound; lia]).
  apply runs_ret.
  rewrite Z.shiftl_mul_pow2 by lia. change (2 ^ biH) with 4294967296.
  rewrite w64_small by (unfold limb; lia). rewrite lor_half by lia.
  assert (Hv : (xi * base + xi1) / (d1 * 4294967296) = xi / d1 * 4294967296 + r1 / d1).
  { rewrite (Z.mul_comm d1), <- Z.div_div by lia.
    replace ((xi * base + xi1) / 4294967296) with (xi * 4294967296 + h1)
      by (apply Z.div_unique with h0; lia).
    subst r1. pose proof (Z.div_mod xi d1 ltac:(lia)) as Hdm.
    replace (xi * 4294967296 + h1)
      with (xi mod d1 * 4294967296 + h1 + (xi / d1 * 4294967296) * d1) by (rewrite Hdm at 3; ring).
    rewrite Z.div_add by lia. lia. }
  rewrite Hv. lia.
Qed.

(** ** One quotient digit *)

(** The three limbs of [X] from [i] down, and the two of [Y] from [t] down. *)
Definition win3 (p : list Z) (i : nat) : Z :=
  nth i p 0 * (base * base) + nth (i - 1) p 0 * base + (if (i <? 2)%nat then 0 else nth (i - 2) p 0).
Definition win2 (p : list Z) (t : nat) : Z :=
  nth t p 0 * base + (if (t <? 1)%nat then 0 else nth (t - 1) p 0).

Lemma qhat_loop_spec fuel i t X Y T1 T2 q :
  let q1 := w64 (q - 1) in
  mpi_wf X -> mpi_wf Y -> mpi_wf T1 -> mpi_wf T2 ->
  (1 <= i < mpi_n X)%nat -> (t < mpi_n Y)%nat -> (2 <= mpi_n T1)%nat -> (3 <= mpi_n T2)%nat ->
  (exists lb, 0 <= lb <= q1 /\ q1 - lb < Z.of_nat fuel /\
     lb * win2 (mpi_p Y) t <= win3 (mpi_p X) i) ->
  runs NoFail (qhat_loop fuel i t X Y T1 T2 q)
    (fun '(q', T1', T2') =>
       0 <= q' <= q1 /\ q' * win2 (mpi_p Y) t <= win3 (mpi_p X) i /\
       (forall lb, 0 <= lb <= q1 -> lb * win2 (mpi_p Y) t <= win3 (mpi_p X) i -> lb <= q') /\
       mpi_wf T1' /\ mpi_wf T2' /\ (2 <= mpi_n T1')%nat /\ (3 <= mpi_n T2')%nat) no_err.
Proof.
  intros q1 HX HY. subst q1. revert T1 T2 q. induction fuel as [|fuel IH];
    intros T1 T2 q HT1 HT2 Hi Ht Hn1 Hn2 (lb & Hlb & Hfuel & Hle); [simpl in Hfuel; lia|].
  cbn [qhat_loop]. pose proof (w64_limb (q - 1)) as Hq. set (q1 := w64 (q - 1)) in *.
  unfold mpi_n in *.
  assert (HlX : limbs (mpi_p X)) by auto with limbs.
  assert (HlY : limbs (mpi_p Y)) by auto with limbs.
  runs_step mpi_lset_spec; [lia|]. intros T1a (HT1a & _ & Hna & Hsa & Hpa).
  unfold mpi_n in *. destruct (length (mpi_p T1)) as [|[|n1]] eqn:El1; try lia.
  eapply runs_bind.
  { instantiate (1 := fun y => y = if (t <? 1)%nat then 0 else nth (t - 1) (mpi_p Y) 0).
    case_bool (t <? 1)%nat; [now apply runs_ret|apply runs_rd; lia]. }
  intros y1 ->. set (y1 := if (t <? 1)%nat then 0 else _).
  runs_step runs_wr; [rewrite Hpa; simpl; lia|]. intros ? ->.
  runs_step runs_rd; [lia|]. intros ? ->.
  runs_step runs_wr; [rewrite Hpa; simpl; rewrite repeat_length; lia|]. intros ? ->.
  rewrite Hpa. replace (S (S n1) - 1)%nat with (S n1) by lia. cbn [repeat upd_list].
  assert (Hy1 : limb y1) by (subst y1; destruct (t <? 1)%nat; auto with limbs).
  set (U1 := Mpi (mpi_s T1a) (y1 :: nth t (mpi_p Y) 0 :: repeat 0 n1)).
  assert (HU1 : mpi_wf U1 /\ mag U1 = win2 (mpi_p Y) t /\ mpi_s U1 = 1).
  { unfold U1, mpi_wf, mag, win2. cbn [mpi_s mpi_p eval]. rewrite eval_zeros, Hsa.
    fold y1. repeat split; auto with limbs. lia. }
  destruct HU1 as (HU1 & Hm1 & Hs1).
  runs_step mpi_mul_mpi_spec; auto; [split; simpl; auto with limbs|].
  intros T1b (HT1b & Hmb & Hsb & Hnb). simpl deref in *. rewrite Hm1, Hs1 in *.
  unfold mag in Hmb at 2. cbn [mpi_p eval mpi_s] in Hmb, Hsb.
  unfold mpi_n in Hnb. simpl length in Hnb.
  runs_step mpi_lset_spec; [lia|]. intros T2a (HT2a & _ & Hn2a & Hs2a & Hp2a).
  unfold mpi_n in *. destruct (length (mpi_p T2)) as [|[|[|n2]]] eqn:El2; try lia.
  eapply runs_bind.
  { instantiate (1 := fun y => y = if (i <? 2)%nat then 0 else nth (i - 2) (mpi_p X) 0).
    case_bool (i <? 2)%nat; [now apply runs_ret|apply runs_rd; lia]. }
  intros x2 ->. set (x2 := if (i <? 2)%nat then 0 else _).
  runs_step runs_wr; [rewrite Hp2a; simpl; lia|]. intros ? ->.
  rewrite (proj2 (Nat.ltb_ge i 1)) by lia.
  runs_step runs_rd; [lia|]. intros ? ->.
  runs_step runs_wr; [rewrite Hp2a; simpl; rewrite repeat_length; lia|]. intros ? ->.
  runs_step runs_rd; [lia|]. intros ? ->.
  runs_step runs_wr; [rewrite Hp2a; simpl; rewrite repeat_length; lia|]. intros ? ->.
  rewrite Hp2a. replace (S (S (S n2)) - 1)%nat with (S (S n2)) by lia. cbn [repeat upd_list].
  assert (Hx2 : limb x2) by (subst x2; destruct (i <? 2)%nat; auto with limbs).
  set (U2 := Mpi (mpi_s T2a) (x2 :: nth (i - 1) (mpi_p X) 0 :: nth i (mpi_p X) 0 :: repeat 0 n2)).
  assert (HU2 : mpi_wf U2 /\ mag U2 = win3 (mpi_p X) i /\ mpi_s U2 = 1).
  { unfold U2, mpi_wf, mag, win3. cbn [mpi_s mpi_p eval]. rewrite eval_zeros, Hs2a.
    fold x2. repeat split; auto 10 with limbs. lia. }
  destruct HU2 as (HU2 & Hm2 & Hs2).
  rewrite mpi_cmp_mpi_spec by (auto; left; lia).
  unfold val. rewrite Hs2, Hsb, Hm2, Hmb, !Z.mul_1_r, !Z.mul_1_l.
  replace (win2 (mpi_p Y) t * (q1 + base * 0)) with (q1 * win2 (mpi_p Y) t) by ring.
  assert (Hn2' : (3 <= length (mpi_p U2))%nat) by (simpl; lia).
  destruct (Z.compare_spec (q1 * win2 (mpi_p Y) t) (win3 (mpi_p X) i)) as [Heq|Hlt|Hgt];
    cbn [cmp_sign Z.ltb Z.compare].
  1, 2: apply runs_ret; unfold limb in Hq;
    (split; [lia|split; [lia|split; [intros; lia|]]]);
    (split; [exact HT1b|split; [exact HU2|split; [lia|exact Hn2']]]).
  assert (Hq1 : 1 <= q1 /\ w64 (q1 - 1) = q1 - 1).
  { assert (lb <> q1) by (intros ->; lia). unfold limb in Hq. split; [lia|]. apply w64_small. unfold limb. lia. }
  destruct Hq1 as [Hq1 Hw].
  assert (Hlbq : lb <> q1) by (intros ->; lia).
  eapply runs_post; [apply IH; auto; try lia|].
  - rewrite Hw. exists lb. lia.
  - intros [[q' T1'] T2'] (H1 & H2 & H3 & H4). rewrite Hw in *. repeat split; try apply H4; try lia.
    intros lb' Hlb' Hle'. apply H3; [|exact Hle']. assert (lb' <> q1) by (intros ->; lia). lia.
Qed.
