(* ===== verification/MpiDivCorrect.v ===== *)
(** * Multi-precision integers: correctness of the division

    The digits of [mpi_div_mpi] are those of the quotient: the arithmetic
    of one digit, the loops, and the whole routine. *)
From Stdlib Require Import ZArith List Lia Bool.
Import ListNotations.
From S2P Require Import Prelude CMonad Limbs Mpi MpiAddSub MpiShift MpiMul MpiDiv.
#[local] Open Scope Z_scope.
#[local] Open Scope cmonad_scope.

(** ** The arithmetic of one digit *)

(** A window of limbs below a top limb. *)
Lemma window p j k :
  limbs p -> eval p < bpow (S j) -> (k <= j)%nat ->
  bpow k * (eval (firstn (S j - k) (skipn k p))) <= eval p
    < bpow k * (eval (firstn (S j - k) (skipn k p)) + 1).
Proof.
  intros Hp Hlt Hk. pose proof (eval_firstn_bounds p k Hp). pose proof (bpow_pos k).
  destruct (Nat.le_gt_cases k (length p)) as [Hle|Hgt].
  - assert (He : eval (firstn (S j) p) = eval p) by (apply eval_firstn_small; auto).
    replace (S j) with (k + (S j - k))%nat in He at 1 by lia.
    rewrite eval_firstn_add in He by lia. lia.
  - rewrite skipn_all2 by lia. rewrite firstn_nil. cbn [eval].
    rewrite firstn_all2 in H by lia. lia.
Qed.

Lemma firstn_skipn_nth0 p k n : eval (firstn (S n) (skipn k p)) = nth k p 0 + base * eval (firstn n (skipn (S k) p)).
Proof.
  revert k; induction p as [|x p IH]; intros [|k]; simpl skipn;
    rewrite ?firstn_nil, ?firstn_cons; cbn [eval nth]; try lia.
  apply (IH k).
Qed.

Lemma mul_le_cancel a b c : 0 < c -> c * a < c * (b + 1) -> a <= b.
Proof. intros. nia. Qed.


Section Digit.
(** [X] and [Y] are limb arrays, [t] the top limb of the divisor, and
    [i = t + m] the limb of [X] the digit is for. *)
Context (X Y : list Z) (t m : nat).
Context (HX : limbs X) (HY : limbs Y) (Hm : (1 <= m)%nat).
Context (HYt : eval Y < bpow (S t)) (Hlow : 4611686018427387904 <= nth t Y 0).
Context (HXlt : eval X < eval Y * bpow m).

Let D := bpow (m - 1).
Let i := (t + m)%nat.
Let q := eval X / (eval Y * D).

Lemma D_pos : 0 < D. Proof using All. apply bpow_pos. Qed.

Lemma bpow_m : bpow m = base * D.
Proof using All. unfold D. replace m with (S (m - 1)) at 1 by lia. apply bpow_S. Qed.

Lemma Y_top : bpow t * nth t Y 0 <= eval Y < bpow t * (nth t Y 0 + 1).
Proof using All.
  rewrite nth_top by auto. pose proof (bpow_pos t).
  pose proof (Z.mul_div_le (eval Y) (bpow t) ltac:(lia)).
  pose proof (Z.mul_succ_div_gt (eval Y) (bpow t) ltac:(lia)). lia.
Qed.

Lemma Y_pos : 0 < eval Y.
Proof using All. pose proof Y_top. pose proof (bpow_pos t). nia. Qed.

Lemma X_lt_top : eval X < bpow (S i).
Proof using All.
  unfold i. replace (S (t + m)) with (S t + m)%nat by lia. rewrite bpow_add.
  pose proof (bpow_pos m). nia.
Qed.

Lemma q_bounds : 0 <= q < base.
Proof using All.
  pose proof Y_pos. pose proof D_pos. pose proof (eval_nonneg X HX). pose proof bpow_m.
  unfold q. split; [apply Z.div_pos; nia|]. apply Z.div_lt_upper_bound; nia.
Qed.

Lemma q_mul : q * (eval Y * D) <= eval X < (q + 1) * (eval Y * D).
Proof using All.
  pose proof Y_pos. pose proof D_pos. unfold q.
  pose proof (Z.mul_div_le (eval X) (eval Y * D) ltac:(nia)).
  pose proof (Z.mul_succ_div_gt (eval X) (eval Y * D) ltac:(nia)). lia.
Qed.

Lemma win2_bounds :
  (1 <= t)%nat -> bpow (t - 1) * win2 Y t <= eval Y < bpow (t - 1) * (win2 Y t + 1).
Proof using All.
  intros Ht. pose proof (window Y t (t - 1) HY HYt ltac:(lia)) as H.
  replace (S t - (t - 1))%nat with 2%nat in H by lia.
  rewrite !firstn_skipn_nth0, firstn_O in H. cbn [eval] in H.
  replace (S (t - 1)) with t in H by lia. unfold win2.
  rewrite (proj2 (Nat.ltb_ge t 1)) by lia. lia.
Qed.

Lemma win2_0 : t = 0%nat -> win2 Y t = base * eval Y.
Proof using All.
  intros Ht. pose proof Y_top as H. unfold win2. rewrite Ht in *. simpl. rewrite bpow_0 in H. lia.
Qed.

Lemma win3_bounds :
  (2 <= i)%nat -> bpow (i - 2) * win3 X i <= eval X < bpow (i - 2) * (win3 X i + 1).
Proof using All.
  intros Hi. pose proof (window X i (i - 2) HX X_lt_top ltac:(lia)) as H.
  replace (S i - (i - 2))%nat with 3%nat in H by lia.
  rewrite !firstn_skipn_nth0, firstn_O in H. cbn [eval] in H.
  replace (S (i - 2)) with (i - 1)%nat in H by lia.
  replace (S (i - 1)) with i in H by lia. unfold win3.
  rewrite (proj2 (Nat.ltb_ge i 2)) by lia.
  replace (nth i X 0 * (base * base) + nth (i - 1) X 0 * base + nth (i - 2) X 0)
    with (nth (i - 2) X 0 + base * (nth (i - 1) X 0 + base * (nth i X 0 + base * 0))) by ring.
  exact H.
Qed.

Lemma win3_1 : i = 1%nat -> win3 X i = base * eval X.
Proof using All.
  intros Hi. pose proof (window X i 0 HX X_lt_top ltac:(lia)) as H.
  rewrite Hi in *. simpl Nat.sub in H. rewrite !firstn_skipn_nth0, firstn_O, bpow_0 in H.
  cbn [eval] in H. unfold win3. simpl. lia.
Qed.

Lemma i_top : bpow (i - 1) * (nth i X 0 * base + nth (i - 1) X 0) <= eval X
              < bpow (i - 1) * (nth i X 0 * base + nth (i - 1) X 0 + 1).
Proof using All.
  pose proof (window X i (i - 1) HX X_lt_top ltac:(lia)) as H.
  replace (S i - (i - 1))%nat with 2%nat in H by (unfold i; lia).
  rewrite !firstn_skipn_nth0, firstn_O in H. cbn [eval] in H.
  replace (S (i - 1)) with i in H by (unfold i; lia). lia.
Qed.

(** The digit passes the test of the correction loop. *)
Lemma q_test : q * win2 Y t <= win3 X i.
Proof using All.
  pose proof q_mul as Hq. pose proof q_bounds. pose proof D_pos as HD.
  destruct (Nat.eq_dec i 1) as [Hi|Hi].
  - assert (t = 0%nat) by (unfold i in Hi; lia). assert (m = 1%nat) by (unfold i in Hi; lia).
    rewrite win3_1, win2_0 by auto. unfold D in *. subst m. simpl in *. rewrite bpow_0 in *. lia.
  - assert (Hi2 : (2 <= i)%nat) by (unfold i in *; lia).
    pose proof (win3_bounds Hi2) as Hw. apply (mul_le_cancel _ _ (bpow (i - 2))); [apply bpow_pos|].
    eapply Z.le_lt_trans; [|apply Hw].
    eapply Z.le_trans; [|apply Hq].
    destruct (Nat.eq_dec t 0) as [Ht|Ht].
    + rewrite win2_0 by auto. unfold D. replace (m - 1)%nat with (S (i - 2)) by (unfold i; lia).
      rewrite bpow_S. lia.
    + pose proof (win2_bounds ltac:(lia)) as Hw2.
      replace (i - 2)%nat with ((t - 1) + (m - 1))%nat by (unfold i; lia).
      rewrite bpow_add. fold D.
      transitivity (q * D * (bpow (t - 1) * win2 Y t)); [apply Z.eq_le_incl; ring|].
      transitivity (q * D * eval Y); [|apply Z.eq_le_incl; ring].
      apply Z.mul_le_mono_nonneg_l; [nia|lia].
Qed.

(** What passes the test is at most one too large. *)
Lemma test_close p : 0 <= p < base -> p * win2 Y t <= win3 X i -> p <= q + 1.
Proof using All.
  intros Hp Ht. pose proof q_mul as Hq. pose proof q_bounds as Hqb. pose proof D_pos as HD.
  pose proof Y_pos as HY0.
  destruct (Z.le_gt_cases p (q + 1)) as [|Hgt]; [auto|exfalso].
  assert (Hx : eval X < (p - 1) * (eval Y * D)).
  { eapply Z.lt_le_trans; [apply Hq|]. apply Z.mul_le_mono_nonneg_r; nia. }
  destruct (Nat.eq_dec i 1) as [Hi|Hi].
  - assert (t = 0%nat) by (unfold i in Hi; lia). assert (m = 1%nat) by (unfold i in Hi; lia).
    rewrite win3_1, win2_0 in Ht by auto. unfold D in *. subst m. simpl in *. rewrite bpow_0 in *. nia.
  - assert (Hi2 : (2 <= i)%nat) by (unfold i in *; lia).
    pose proof (win3_bounds Hi2) as Hw. pose proof (bpow_pos (i - 2)) as Hb.
    assert (Hpx : bpow (i - 2) * (p * win2 Y t) <= eval X) by nia.
    destruct (Nat.eq_dec t 0) as [Ht0|Ht0].
    + rewrite win2_0 in Hpx by auto. unfold D in Hx.
      replace (m - 1)%nat with (S (i - 2)) in Hx by (unfold i; lia).
      rewrite bpow_S in Hx. nia.
    + pose proof (win2_bounds ltac:(lia)) as Hw2.
      replace (i - 2)%nat with ((t - 1) + (m - 1))%nat in Hpx by (unfold i; lia).
      rewrite bpow_add in Hpx. fold D in Hpx. pose proof (bpow_pos (t - 1)) as HP.
      set (P := bpow (t - 1)) in *. set (w := win2 Y t) in *.
      assert (Hw' : base <= w).
      { unfold w, win2. rewrite (proj2 (Nat.ltb_ge t 1)) by lia.
        pose proof (nth_limb Y (t - 1) HY) as Hl. unfold limb in Hl. nia. }
      assert (H1 : (p - 1) * (eval Y * D) <= (p - 1) * (P * (w + 1) * D)).
      { apply Z.mul_le_mono_nonneg_l; [lia|]. apply Z.mul_le_mono_nonneg_r; lia. }
      assert (H2 : (P * D) * (p * w) < (P * D) * ((p - 1) * (w + 1))) by lia.
      apply Z.mul_lt_mono_pos_l in H2; [|nia]. lia.
Qed.

(** The first estimate, before the correction loop. *)
Definition qhat0 : Z :=
  if nth t Y 0 <=? nth i X 0 then base - 1
  else Z.min (base - 1) ((nth i X 0 * base + nth (i - 1) X 0) / nth t Y 0).

Lemma xi_le : nth i X 0 <= nth t Y 0.
Proof using All.
  pose proof Y_top as HY1. pose proof i_top as HX1. pose proof (nth_limb X (i - 1) HX) as Hl.
  unfold limb in Hl. pose proof (bpow_pos m). pose proof (bpow_pos (i - 1)).
  assert (Hi : bpow i = bpow (i - 1) * base).
  { replace i with (S (i - 1)) at 1 by (unfold i; lia). rewrite bpow_S. ring. }
  assert (H1 : bpow i * nth i X 0 <= eval X) by (rewrite Hi; nia).
  assert (H2 : eval Y * bpow m <= bpow i * (nth t Y 0 + 1)).
  { unfold i. rewrite bpow_add. nia. }
  apply (mul_le_cancel _ _ (bpow i)); [apply bpow_pos|]. lia.
Qed.

Lemma qhat0_bounds : q <= qhat0 <= base - 1.
Proof using All.
  pose proof q_bounds. pose proof q_mul as Hq. unfold qhat0.
  case_bool (nth t Y 0 <=? nth i X 0); [lia|].
  enough (q <= (nth i X 0 * base + nth (i - 1) X 0) / nth t Y 0) by lia.
  apply Z.div_le_lower_bound; [lia|].
  apply (mul_le_cancel _ _ (bpow (i - 1))); [apply bpow_pos|].
  eapply Z.le_lt_trans; [|apply i_top]. eapply Z.le_trans; [|apply Hq].
  replace (i - 1)%nat with (t + (m - 1))%nat by (unfold i; lia). rewrite bpow_add. fold D.
  pose proof Y_top. pose proof D_pos.
  transitivity (q * D * (bpow t * nth t Y 0)); [apply Z.eq_le_incl; ring|].
  transitivity (q * D * eval Y); [|apply Z.eq_le_incl; ring].
  apply Z.mul_le_mono_nonneg_l; nia.
Qed.

(** Few turns of the correction loop are needed. *)
Lemma qhat0_fuel :
  exists lb, 0 <= lb <= qhat0 /\ qhat0 - lb < 6 /\ lb * win2 Y t <= win3 X i.
Proof using All.
  pose proof qhat0_bounds as Hb. pose proof q_bounds as Hq.
  set (y' := if (t <? 1)%nat then 0 else nth (t - 1) Y 0).
  set (x' := if (i <? 2)%nat then 0 else nth (i - 2) X 0).
  assert (Hy' : limb y') by (subst y'; destruct (t <? 1)%nat; auto with limbs).
  assert (Hx' : limb x') by (subst x'; destruct (i <? 2)%nat; auto with limbs).
  pose proof (nth_limb X (i - 1) HX) as Hx1. pose proof (nth_limb X i HX) as Hxi.
  unfold limb in *.
  assert (Hover : qhat0 * win2 Y t <= win3 X i + base * base).
  { unfold win2, win3. fold y' x'.
    assert (Hqy : qhat0 * nth t Y 0 * base <=
                  nth i X 0 * (base * base) + nth (i - 1) X 0 * base).
    { revert Hb. unfold qhat0. case_bool (nth t Y 0 <=? nth i X 0); intros Hb.
      - pose proof xi_le. nia.
      - set (v := nth i X 0 * base + nth (i - 1) X 0) in *.
        pose proof (Z.mul_div_le v (nth t Y 0) ltac:(lia)). nia. }
    assert (qhat0 * y' <= base * base) by nia. nia. }
  assert (Hw : base * base <= 4 * win2 Y t) by (unfold win2; fold y'; lia).
  destruct (Z.le_gt_cases 4 qhat0) as [H4|H4].
  - exists (qhat0 - 4). split; [lia|split; [lia|]]. lia.
  - exists 0. split; [lia|split; [lia|]]. unfold win3. fold x'. nia.
Qed.
End Digit.

(** ** The loops *)

Lemma val_nonneg_mag X : mpi_wf X -> 0 <= val X -> val X = mag X.
Proof. intros HX H. rewrite <- val_abs by auto. lia. Qed.

Lemma mul_bpow_shift v k : v * 2 ^ (biL * Z.of_nat k) = v * bpow k.
Proof. now rewrite bpow_pow2. Qed.

Lemma div_mod_split x y D : 0 < y -> 0 < D -> 0 <= x ->
  x / y = x / (y * D) * D + (x mod (y * D)) / y /\ (x mod (y * D)) mod y = x mod y.
Proof.
  intros Hy HD Hx. pose proof (Z.div_mod x (y * D) ltac:(nia)) as Hdm.
  set (a := x / (y * D)) in *. set (b := x mod (y * D)) in *.
  assert (Hx' : x = b + (a * D) * y) by (rewrite Hdm; ring).
  rewrite Hx', Z.div_add, Z.mod_add by lia. lia.
Qed.

Section Loops.
Context (hl : bool) (t : nat) (Y : mpi).
Context (HY : mpi_wf Y) (HYs : mpi_s Y = 1) (HYn : (t < mpi_n Y)%nat)
        (HYt : mag Y < bpow (S t)) (Hlow : 4611686018427387904 <= nth t (mpi_p Y) 0)
        (Hest : est_good hl (nth t (mpi_p Y) 0)).

Lemma mag_Y_pos : 0 < mag Y.
Proof using HY HYn HYt Hlow.
  pose proof (nth_top (mpi_p Y) t ltac:(auto with limbs) HYt) as Ht.
  pose proof (mag_nonneg Y HY). destruct (Z.eq_dec (mag Y) 0) as [Hz|]; [|lia].
  unfold mag in Hz. rewrite Hz, Z.div_0_l in Ht by (pose proof (bpow_pos t); lia). lia.
Qed.

(** The scratch numbers of the division. *)
Definition scratch (T1 T2 : mpi) : Prop :=
  mpi_wf T1 /\ mpi_wf T2 /\ (2 <= mpi_n T1)%nat /\ (3 <= mpi_n T2)%nat.

(** [div_digit] returns the digit and takes it off the dividend. *)
Lemma div_digit_spec m X T1 T2 :
  (1 <= m)%nat -> mpi_wf X -> scratch T1 T2 -> (t + m < mpi_n X)%nat ->
  0 <= val X < mag Y * bpow m ->
  runs NoFail (div_digit hl t m Y X T1 T2)
    (fun '(q, X', T1', T2') =>
       q = val X / (mag Y * bpow (m - 1)) /\ 0 <= q < base /\
       mpi_wf X' /\ val X' = val X mod (mag Y * bpow (m - 1)) /\
       (mpi_n X <= mpi_n X')%nat /\ scratch T1' T2') no_err.
Proof using All.
  intros Hm HX (HT1 & HT2 & Hn1 & Hn2) Hn HXv.
  pose proof (val_nonneg_mag X HX ltac:(lia)) as HvX. rewrite HvX in *.
  assert (HlX : limbs (mpi_p X)) by auto with limbs.
  assert (HlY : limbs (mpi_p Y)) by auto with limbs.
  unfold mag in HXv, HYt.
  assert (HXlt : eval (mpi_p X) < eval (mpi_p Y) * bpow m) by lia.
  pose proof (q_bounds _ _ t m HlX HlY Hm HYt Hlow HXlt) as Hqb.
  pose proof (q_mul _ _ t m HlX HlY Hm HYt Hlow HXlt) as Hqm.
  pose proof (q_test _ _ t m HlX HlY Hm HYt Hlow HXlt) as Hqt.
  pose proof (test_close _ _ t m HlX HlY Hm HYt Hlow HXlt) as Hclose.
  pose proof (qhat0_bounds _ _ t m HlX HlY Hm HYt Hlow HXlt) as Hq0.
  pose proof (qhat0_fuel _ _ t m HlX HlY Hm HYt Hlow HXlt) as Hfuel.
  pose proof mag_Y_pos as HYpos. pose proof (bpow_pos (m - 1)) as HD.
  fold (mag X) (mag Y) in *. set (D := bpow (m - 1)) in *.
  set (q := mag X / (mag Y * D)) in *. set (q0 := qhat0 (mpi_p X) (mpi_p Y) t m) in *.
  unfold div_digit. unfold mpi_n in Hn, HYn.
  runs_step runs_rd; [lia|]. intros ? ->. runs_step runs_rd; [lia|]. intros ? ->.
  eapply runs_bind.
  { instantiate (1 := fun e => e = q0). subst q0. unfold qhat0.
    case_bool (nth t (mpi_p Y) 0 <=? nth (t + m) (mpi_p X) 0); [now apply runs_ret|].
    runs_step runs_rd; [lia|]. intros ? ->. apply Hest; auto with limbs.
    pose proof (nth_limb (mpi_p X) (t + m) HlX) as Hl. unfold limb in Hl. lia. }
  intros ? ->.
  assert (Hw : w64 (w64 (q0 + 1) - 1) = q0) by (unfold w64; dlia).
  eapply runs_bind; [apply qhat_loop_spec; unfold mpi_n; auto; try lia; rewrite Hw|].
  { destruct Hfuel as (lb & H1 & H2 & H3). exists lb. unfold qhat_fuel. auto. }
  intros [[p T1a] T2a] (Hp1 & Hp2 & Hp3 & HT1a & HT2a & Hn1a & Hn2a). rewrite Hw in *.
  specialize (Hclose p ltac:(lia) Hp2). specialize (Hp3 q ltac:(lia) Hqt).
  assert (Hpl : mpi_wf (Mpi 1 [p])).
  { split; simpl; auto with limbs. constructor; [unfold limb; lia|constructor]. }
  assert (Hmp : mag (Mpi 1 [p]) = p) by (unfold mag; cbn [mpi_p eval]; lia).
  runs_step mpi_mul_mpi_spec; auto. intros T1b (HT1b & Hmb & Hsb & Hnb).
  simpl deref in *. rewrite HYs, Hmp in *. cbn [mpi_s] in Hsb.
  runs_step mpi_shift_l_spec; auto; [unfold mpi_n in *; lia|lia|].
  intros T1c (HT1c & Hmc & Hsc & Hnc). rewrite mul_bpow_shift, Hmb in Hmc. fold D in Hmc.
  assert (Hvc : val T1c = mag Y * p * D) by (unfold val; rewrite Hsc, Hsb, Hmc; ring).
  runs_step mpi_sub_mpi_spec; auto. intros X1 (HX1 & Hv1 & Hnx1). simpl deref in *.
  rewrite Hvc, HvX in Hv1.
  assert (HqX : mag X = q * (mag Y * D) + mag X mod (mag Y * D)).
  { unfold q. pose proof (Z.div_mod (mag X) (mag Y * D) ltac:(nia)). lia. }
  pose proof (Z.mod_pos_bound (mag X) (mag Y * D) ltac:(nia)) as Hrb.
  set (r := mag X mod (mag Y * D)) in *.
  assert (Hpq : p = q \/ p = q + 1) by lia.
  rewrite mpi_cmp_int_0 by auto.
  destruct (Z.compare_spec (val X1) 0) as [Hz|Hz|Hz]; cbn [cmp_sign Z.ltb Z.compare].
  1, 3: assert (p = q) as -> by (destruct Hpq as [|Hpq]; [auto|rewrite Hpq in *; lia]);
    apply runs_ret; unfold scratch, mpi_n in *;
    (split; [reflexivity|split; [lia|split; [exact HX1|split; [lia|split; [lia|]]]]]);
    repeat split; try apply HT1c; try apply HT2a; lia.
  assert (Hpq1 : p = q + 1) by (destruct Hpq as [Hpq|]; [rewrite Hpq in *; lia|auto]).
  runs_step mpi_copy_spec; auto. intros T1d (HT1d & Hmd & Hsd & Hnd). simpl deref in *.
  runs_step mpi_shift_l_spec; auto; [unfold mpi_n in *; lia|lia|].
  intros T1e (HT1e & Hme & Hse & Hne). rewrite mul_bpow_shift, Hmd in Hme. fold D in Hme.
  assert (Hve : val T1e = mag Y * D) by (unfold val; rewrite Hse, Hsd, HYs, Hme; ring).
  runs_step mpi_add_mpi_spec; auto. intros X2 (HX2 & Hv2 & Hnx2). simpl deref in *.
  apply runs_ret. rewrite Hve, Hv1, Hpq1 in Hv2.
  assert (Hwq : w64 (p - 1) = q) by (rewrite Hpq1, w64_small; unfold limb; lia).
  rewrite Hwq. unfold scratch, mpi_n in *.
  split; [reflexivity|split; [lia|split; [exact HX2|split; [lia|split; [lia|]]]]].
  repeat split; try apply HT1e; try apply HT2a; lia.
Qed.

Lemma div_loop_spec m z X T1 T2 :
  limbs z -> (m <= length z)%nat -> (forall j, (j < m)%nat -> nth j z 0 = 0) ->
  mpi_wf X -> scratch T1 T2 -> (t + m < mpi_n X)%nat -> 0 <= val X < mag Y * bpow m ->
  runs NoFail (div_loop hl t m Y z X T1 T2)
    (fun '(z', X') => limbs z' /\ length z' = length z /\ eval z' = eval z + val X / mag Y /\
       mpi_wf X' /\ val X' = val X mod mag Y) no_err.
Proof using All.
  revert z X T1 T2; induction m as [|m IH]; intros z X T1 T2 Hz Hzn Hz0 HX Hsc Hn Hv;
    cbn [div_loop].
  - apply runs_ret. rewrite bpow_0 in Hv. rewrite Z.div_small, Z.mod_small by lia.
    repeat split; auto; try apply HX; lia.
  - runs_step div_digit_spec; auto; [lia|].
    intros [[[q X1] T1'] T2'] (Hq & Hqb & HX1 & Hv1 & Hn1 & Hsc').
    simpl Nat.sub in *. rewrite Nat.sub_0_r in *.
    pose proof mag_Y_pos as HYpos. pose proof (bpow_pos m) as HD.
    destruct (div_mod_split (val X) (mag Y) (bpow m) HYpos HD ltac:(lia)) as [Hd Hm].
    pose proof (Z.mod_pos_bound (val X) (mag Y * bpow m) ltac:(nia)) as Hr.
    runs_step runs_wr; [lia|]. intros ? ->.
    eapply runs_post; [apply IH; auto|].
    + apply Forall_upd_list; auto.
    + rewrite length_upd_list. lia.
    + intros j Hj. rewrite nth_upd_list_ne by lia. apply Hz0. lia.
    + lia.
    + lia.
    + intros [z' X'] (Hz' & Hlen & He & HX' & Hv').
      rewrite length_upd_list in Hlen. rewrite eval_upd_list, Hz0 in He by lia.
      split; [exact Hz'|split; [exact Hlen|split; [|split; [exact HX'|]]]].
      * rewrite He, Hv1, Hd, Hq. ring.
      * rewrite Hv', Hv1. exact Hm.
Qed.
End Loops.

Lemma div_top_spec fuel k Y z X :
  limbs z -> (k < length z)%nat -> mpi_wf X -> mpi_wf Y -> mpi_s X = 1 -> mpi_s Y = 1 ->
  0 < mag Y -> mag X / mag Y <= Z.of_nat fuel -> nth k z 0 + mag X / mag Y < base ->
  runs NoFail (div_top fuel k Y z X)
    (fun '(z', X') => limbs z' /\ length z' = length z /\
       (forall j, j <> k -> nth j z' 0 = nth j z 0) /\
       eval z' = eval z + bpow k * (mag X / mag Y) /\
       mpi_wf X' /\ mpi_s X' = 1 /\ mag X' = mag X mod mag Y /\ (mpi_n X <= mpi_n X')%nat) no_err.
Proof.
  intros Hz Hk HX HY HsX HsY HYpos. revert z X Hz Hk HX HsX.
  induction fuel as [|fuel IH]; intros z X Hz Hk HX HsX Hf Hlt; cbn [div_top];
    rewrite mpi_cmp_mpi_spec by (auto; left; lia);
    unfold val at 1; unfold val at 1; rewrite HsX, HsY, !Z.mul_1_l;
    pose proof (mag_nonneg X HX) as Hnn.
  - assert (Hs : mag X < mag Y) by (pose proof (Z.mul_succ_div_gt (mag X) (mag Y) HYpos);
      pose proof (Z.div_pos (mag X) (mag Y) Hnn HYpos); simpl in Hf; nia).
    rewrite (proj2 (Z.compare_lt_iff _ _)) by auto. simpl. apply runs_ret.
    rewrite Z.div_small, Z.mod_small by lia. repeat split; auto; try apply HX; lia.
  - destruct (Z.compare_spec (mag X) (mag Y)) as [He|Hs|Hg]; cbn [cmp_sign Z.leb Z.compare].
    2: { apply runs_ret. rewrite Z.div_small, Z.mod_small by lia.
         repeat split; auto; try apply HX; lia. }
    all: assert (Hstep : mag X / mag Y = (mag X - mag Y) / mag Y + 1) by
        (replace (mag X) with (mag X - mag Y + 1 * mag Y) at 1 by lia;
         rewrite Z.div_add by lia; reflexivity).
    all: assert (Hmod : (mag X - mag Y) mod mag Y = mag X mod mag Y) by
        (replace (mag X) with (mag X - mag Y + 1 * mag Y) at 2 by lia;
         rewrite Z.mod_add by lia; reflexivity).
    all: assert (Hdp : 0 <= (mag X - mag Y) / mag Y) by (apply Z.div_pos; lia).
    all: runs_step runs_rd; [lia|]; intros ? ->.
    all: pose proof (nth_limb z k Hz) as Hzk; unfold limb in Hzk.
    all: rewrite w64_small by (unfold limb; lia).
    all: runs_step runs_wr; [lia|]; intros ? ->.
    all: eapply runs_bind; [apply runs_unchecked, mpi_sub_mpi_pos; auto; lia|].
    all: intros X1 (HX1 & Hs1 & Hm1 & Hn1).
    all: eapply runs_post; [apply IH; auto|].
    all: rewrite ?length_upd_list, ?nth_upd_list_eq, ?Hm1 by lia; try lia.
    1, 3: apply Forall_upd_list; auto; unfold limb; lia.
    all: intros [z' X'] (H1 & H2 & H3 & H4 & H5 & H6 & H7 & H8).
    all: rewrite eval_upd_list in H4 by lia; rewrite ?length_upd_list in H2; rewrite ?Hm1 in H4; rewrite ?Hm1 in H7.
    all: split; [exact H1|split; [exact H2|split; [|split; [|split; [exact H5|split; [exact H6|split]]]]]].
    1, 5: intros j Hj; rewrite H3, nth_upd_list_ne by lia; reflexivity.
    1, 4: rewrite H4, Hstep; ring.
    1, 3: rewrite H7; exact Hmod.
    all: lia.
Qed.

(** ** The whole division on absolute values *)

(** The shift that normalises a divisor, and the top limb it then has. *)
Definition norm_shift (v : Z) : Z := biL - 1 - bitlen v mod biL.
Definition norm_limb (v : Z) : Z :=
  v * 2 ^ norm_shift v / 2 ^ (bitlen v + norm_shift v - 63).

Lemma bitlen_pos v : 0 < v -> 1 <= bitlen v.
Proof.
  intros. unfold bitlen. case_bool (v =? 0); [lia|]. pose proof (Z.log2_nonneg v). lia.
Qed.

Lemma bitlen_spec v : 0 < v -> 2 ^ (bitlen v - 1) <= v < 2 ^ bitlen v.
Proof.
  intros. unfold bitlen. case_bool (v =? 0); [lia|].
  pose proof (Z.log2_spec v ltac:(lia)) as Hl. rewrite <- Z.add_1_r in Hl.
  now replace (Z.log2 v + 1 - 1) with (Z.log2 v) by lia.
Qed.

Lemma bitlen_shift v k : 0 < v -> 0 <= k -> bitlen (v * 2 ^ k) = bitlen v + k.
Proof.
  intros Hv Hk. assert (0 < 2 ^ k) by (apply Z.pow_pos_nonneg; lia).
  unfold bitlen. case_bool (v =? 0); [lia|]. case_bool (v * 2 ^ k =? 0); [nia|].
  rewrite Z.log2_mul_pow2 by lia. lia.
Qed.

Lemma norm_shift_bounds v : 0 <= norm_shift v < 64.
Proof. unfold norm_shift. pose proof (Z.mod_pos_bound (bitlen v) biL ltac:(lia)). lia. Qed.

Lemma norm_limb_bounds v : 0 < v -> 4611686018427387904 <= norm_limb v < 9223372036854775808.
Proof.
  intros Hv. unfold norm_limb. pose proof (norm_shift_bounds v) as Hk.
  pose proof (bitlen_pos v Hv). set (k := norm_shift v) in *.
  pose proof (Z.mod_le (bitlen v) biL ltac:(lia) ltac:(lia)).
  assert (Hb : 63 <= bitlen v + k). { unfold k, norm_shift. lia. }
  assert (Hv' : 0 < v * 2 ^ k) by (apply Z.mul_pos_pos; [lia|apply Z.pow_pos_nonneg; lia]).
  pose proof (bitlen_spec _ Hv') as Hs. rewrite bitlen_shift in Hs by lia.
  assert (He : exists e, 0 <= e /\ bitlen v + k = 63 + e) by (exists (bitlen v + k - 63); lia).
  destruct He as (e & He0 & He). rewrite He in *.
  replace (63 + e - 1) with (62 + e) in Hs by lia. replace (63 + e - 63) with e by lia.
  assert (0 < 2 ^ e) by (apply Z.pow_pos_nonneg; lia).
  rewrite !Z.pow_add_r in Hs by lia.
  split; [apply Z.div_le_lower_bound|apply Z.div_lt_upper_bound]; lia.
Qed.

(** What the division asks of the digit estimate it is compiled with: that it
    is exact for the normalised top limb of the divisor [v].  The double-width
    estimate is exact for every divisor; the portable one for divisors of less
    than 32 bits, and not for every divisor ([div_portable_wrong]). *)
Class Estimate (have_longlong : bool) (v : Z) : Prop :=
  estimate_ok : est_good have_longlong (norm_limb v).

#[export] Instance Estimate_longlong v : Estimate true v.
Proof. intros xi xi1 Hxi Hxi1. apply est_dbl_good; auto; lia. Qed.

Lemma norm_limb_small v : 0 < v < 2 ^ 31 -> exists d1, 0 < d1 < 2147483648 /\ norm_limb v = d1 * 4294967296.
Proof.
  intros Hv. pose proof (norm_limb_bounds v ltac:(lia)) as Hb. unfold norm_limb in *.
  assert (Hl : 0 <= Z.log2 v < 31).
  { split; [apply Z.log2_nonneg|apply Z.log2_lt_pow2; lia]. }
  assert (Hbl : bitlen v = Z.log2 v + 1) by (unfold bitlen; case_bool (v =? 0); lia).
  assert (Hk : norm_shift v = 62 - Z.log2 v).
  { unfold norm_shift. rewrite Hbl, Z.mod_small by lia. lia. }
  rewrite Hk, Hbl in *. replace (Z.log2 v + 1 + (62 - Z.log2 v) - 63) with 0 in * by lia.
  rewrite Z.pow_0_r, Z.div_1_r in *.
  exists (v * 2 ^ (30 - Z.log2 v)).
  replace (62 - Z.log2 v) with ((30 - Z.log2 v) + 32) in * by lia. rewrite Z.pow_add_r in * by lia.
  change (2 ^ 32) with 4294967296 in *. lia.
Qed.

Lemma Estimate_portable v : 0 < v < 2 ^ 31 -> Estimate false v.
Proof.
  intros Hv. destruct (norm_limb_small v Hv) as (d1 & Hd1 & He). unfold Estimate. rewrite He.
  now apply est_portable_good.
Qed.

(** The divisors for which the estimate is exact, in the two forms the code
    can be compiled with. *)
Definition estimable (have_longlong : bool) (v : Z) : Prop :=
  have_longlong = true \/ 0 < v < 2 ^ 31.

Lemma estimable_ok hl v : estimable hl v -> Estimate hl v.
Proof.
  intros [->|Hv]; [exact _|]. destruct hl; [exact _|now apply Estimate_portable].
Qed.

Lemma used_bitlen p : limbs p -> 0 < eval p -> Z.of_nat (used p) = (bitlen (eval p) + 63) / 64.
Proof.
  intros Hp Hv. destruct (used p) as [|k] eqn:Eu; [apply used_0 in Eu; lia|].
  pose proof (used_S_bounds p k Hp Eu) as Hb. rewrite !bpow_pow2 in Hb.
  assert (64 * Z.of_nat k <= Z.log2 (eval p) < 64 * Z.of_nat (S k)).
  { split; [apply Z.log2_le_pow2; lia|apply Z.log2_lt_pow2; lia]. }
  unfold bitlen. case_bool (eval p =? 0); [lia|]. dlia.
Qed.

Lemma limbs_of_bits i : 0 <= i -> Z.of_nat (BITS_TO_LIMBS i) = (i + 63) / 64.
Proof.
  intros. unfold BITS_TO_LIMBS. rewrite Z2Nat.id by (apply Z.div_pos; lia). f_equal. lia.
Qed.

(** The normalised operands: the copies shifted by the same amount. *)
Lemma normalise_spec X Y v w :
  mpi_wf X -> mpi_wf Y -> mpi_s X = 1 -> mpi_s Y = 1 -> mag X = v -> mag Y = w ->
  0 < w -> 0 < v -> mpi_n X = used (mpi_p X) -> mpi_n Y = used (mpi_p Y) ->
  runs NoFail
    (let k := bitlen w mod biL in
     if k <? biL - 1 then
       let k := biL - 1 - k in
       X <- mpi_shift_l X k;;
       Y <- mpi_shift_l Y k;;
       ret (k, X, Y)
     else ret (0, X, Y))
    (fun '(k, X', Y') =>
       k = norm_shift w /\ mpi_wf X' /\ mpi_wf Y' /\ mpi_s X' = 1 /\ mpi_s Y' = 1 /\
       mag X' = v * 2 ^ k /\ mag Y' = w * 2 ^ k /\
       Z.of_nat (mpi_n X') = (bitlen v + k + 63) / 64 /\
       Z.of_nat (mpi_n Y') = (bitlen w + k + 63) / 64) no_err.
Proof.
  intros HX HY HsX HsY HmX HmY Hw Hv HnX HnY.
  pose proof (used_bitlen (mpi_p X) ltac:(auto with limbs) ltac:(fold (mag X); lia)) as HuX.
  pose proof (used_bitlen (mpi_p Y) ltac:(auto with limbs) ltac:(fold (mag Y); lia)) as HuY.
  fold (mag X) (mag Y) in *. rewrite HmX, HmY in *.
  pose proof (bitlen_pos v Hv). pose proof (bitlen_pos w Hw).
  cbv zeta. assert (HnX0 : (0 < mpi_n X)%nat) by (rewrite HnX; dlia).
  assert (HnY0 : (0 < mpi_n Y)%nat) by (rewrite HnY; dlia).
  pose proof (norm_shift_bounds w) as Hk. unfold norm_shift in *.
  case_bool (bitlen w mod biL <? biL - 1).
  - runs_step mpi_shift_l_spec; auto; [lia|]. intros X1 (HX1 & Hm1 & Hs1 & Hn1).
    runs_step mpi_shift_l_spec; auto; [lia|]. intros Y1 (HY1 & Hm2 & Hs2 & Hn2).
    apply runs_ret. rewrite HmX in Hm1, Hn1. rewrite HmY in Hm2, Hn2.
    set (k := biL - 1 - bitlen w mod biL) in *.
    pose proof (limbs_of_bits (bitlen v + k) ltac:(lia)).
    pose proof (limbs_of_bits (bitlen w + k) ltac:(lia)).
    repeat split; try apply HX1; try apply HY1; try congruence.
    + rewrite Hn1. dlia.
    + rewrite Hn2. dlia.
  - apply runs_ret. assert (Hz : biL - 1 - bitlen w mod biL = 0) by dlia. rewrite Hz.
    rewrite !Z.mul_1_r, !Z.add_0_r. repeat split; try apply HX; try apply HY; auto; lia.
Qed.

(** A copy of a number, as [div_abs] starts with. *)
Lemma fresh_copy S :
  mpi_wf S -> 0 < mag S ->
  runs NoFail (mpi_copy mpi_init (Var S))
    (fun X => mpi_wf X /\ mag X = mag S /\ mpi_n X = used (mpi_p X)) no_err.
Proof.
  intros HS Hpos. eapply runs_post; [apply mpi_copy_spec; auto with limbs|].
  intros X (HX & Hm & _ & Hn). simpl deref in *. split; [exact HX|split; [exact Hm|]].
  rewrite (used_eval_eq (mpi_p X) (mpi_p S)) by (auto with limbs).
  rewrite Hn, copy_len_spec. pose proof (used_le (mpi_p S)).
  destruct (used (mpi_p S)) eqn:Eu; [apply used_0 in Eu; unfold mag in Hpos; lia|].
  change (mpi_n mpi_init) with 0%nat. lia.
Qed.

(** The sizes after the normalisation: [t] is the top limb of the divisor,
    [n] that of the dividend. *)
Lemma norm_sizes v w :
  0 < w -> w <= v ->
  let k := norm_shift w in
  let t := bitlen w / 64 in
  bitlen w + k = 64 * t + 63 /\ (bitlen w + k + 63) / 64 = t + 1 /\
  t + 1 <= (bitlen v + k + 63) / 64 <= (bitlen v + 63) / 64 + 1.
Proof.
  intros Hw Hv k t. assert (bitlen w <= bitlen v).
  { unfold bitlen. case_bool (w =? 0); [lia|]. case_bool (v =? 0); [lia|].
    pose proof (Z.log2_le_mono w v Hv). lia. }
  unfold k, t, norm_shift. dlia.
Qed.

(** The division of normalised operands, of [t + m + 1] and [t + 1] limbs. *)
Lemma div_normal_spec hl k t m z X Y T1 T2 :
  mpi_wf X -> mpi_wf Y -> mpi_s X = 1 -> mpi_s Y = 1 ->
  mpi_n X = S (t + m) -> mpi_n Y = S t -> 0 <= k ->
  4611686018427387904 <= nth t (mpi_p Y) 0 -> est_good hl (nth t (mpi_p Y) 0) ->
  (m < z)%nat -> scratch T1 T2 ->
  runs NoFail
    (Y <- unchecked Y (mpi_shift_l Y (biL * Z.of_nat m));;
     '(z, X) <- div_top top_fuel m Y (repeat 0 z) X;;
     Y <- mpi_shift_r Y (biL * Z.of_nat m);;
     '(z, X) <- div_loop hl t m Y z X T1 T2;;
     X <- mpi_shift_r X k;;
     ret (Mpi 1 z, X))
    (fun '(Zq, X') => mpi_wf Zq /\ mpi_s Zq = 1 /\ mag Zq = mag X / mag Y /\ mpi_wf X' /\
       val X' = (mag X mod mag Y) / 2 ^ k) no_err.
Proof.
  intros HX HY HsX HsY HnX HnY Hk Hlow Hest Hz Hsc. unfold mpi_n in HnX, HnY.
  pose proof (eval_bounds (mpi_p X) ltac:(auto with limbs)) as HXt.
  pose proof (eval_bounds (mpi_p Y) ltac:(auto with limbs)) as HYt.
  rewrite HnX in HXt. rewrite HnY in HYt. fold (mag X) in HXt. fold (mag Y) in HYt.
  assert (Htop : bpow t * nth t (mpi_p Y) 0 <= mag Y).
  { rewrite nth_top by (auto with limbs; fold (mag Y); lia). apply Z.mul_div_le, bpow_pos. }
  pose proof (bpow_pos t) as Hbt. pose proof (bpow_pos m) as Hbm.
  replace (S (t + m)) with (1 + t + m)%nat in HXt by lia.
  rewrite !bpow_add in HXt. change (bpow 1) with base in HXt.
  assert (HYpos : 0 < mag Y) by nia.
  assert (HYm : 0 < mag Y * bpow m) by nia.
  eapply runs_bind; [apply runs_unchecked, mpi_shift_l_spec; auto; unfold mpi_n; lia|].
  intros Y1 (HY1 & Hm1 & Hs1 & Hn1). rewrite mul_bpow_shift in Hm1. unfold mpi_n in Hn1.
  assert (Hq3 : 0 <= mag X / mag Y1 < 4).
  { rewrite Hm1. split; [apply Z.div_pos; lia|apply Z.div_lt_upper_bound; [lia|]].
    assert (4611686018427387904 * (bpow t * bpow m) <= mag Y * bpow m) by nia. lia. }
  runs_step div_top_spec; auto with limbs; try lia.
  { rewrite repeat_length; lia. } { unfold top_fuel; lia. }
  { rewrite nth_repeat. lia. }
  intros [z1 X1] (Hz1 & Hlz & Hne & Hez & HX1 & HsX1 & HmX1 & HnX1).
  rewrite repeat_length in Hlz. rewrite eval_zeros in Hez. unfold mpi_n in HnX1.
  runs_step mpi_shift_r_spec; auto; [lia|]. intros Y2 (HY2 & Hm2 & Hs2 & Hn2). unfold mpi_n in Hn2.
  assert (HmY2 : mag Y2 = mag Y).
  { rewrite Hm2, Hm1, <- (Z.mul_1_l (2 ^ _)), mul_bpow_shift, Z.mul_1_l. apply Z.div_mul. lia. }
  assert (Hnth : nth t (mpi_p Y2) 0 = nth t (mpi_p Y) 0).
  { rewrite !nth_top by (auto with limbs; fold (mag Y) (mag Y2); lia).
    fold (mag Y) (mag Y2). now rewrite HmY2. }
  pose proof (Z.mod_pos_bound (mag X) (mag Y1) ltac:(lia)) as Hr.
  assert (Hv1 : val X1 = mag X mod mag Y1) by (unfold val; rewrite HsX1, HmX1; lia).
  eapply runs_bind.
  { apply div_loop_spec; auto; unfold mpi_n; rewrite ?Hnth, ?HmY2; auto; try lia; try congruence.
    intros j Hj. rewrite Hne by lia. apply nth_repeat. }
  intros [z2 X2] (Hz2 & Hlz2 & He2 & HX2 & Hv2).
  assert (HmX2 : mag X2 = mag X mod mag Y).
  { rewrite <- val_nonneg_mag; auto; rewrite Hv2, HmY2, ?Hv1, ?Hm1;
      [apply div_mod_split|apply Z.mod_pos_bound]; auto. apply mag_nonneg; auto. }
  runs_step mpi_shift_r_spec; auto. intros X3 (HX3 & HmX3 & HsX3 & _). apply runs_ret.
  unfold mag at 1. cbn [mpi_p mpi_s]. split; [split; auto with limbs|split; [auto|]].
  assert (HvX3 : val X3 = (mag X mod mag Y) / 2 ^ k).
  { pose proof (Z.mod_pos_bound (val X1) (mag Y2) ltac:(lia)) as Hmb.
    unfold val in *. rewrite HsX3, HmX3, HmX2. pose proof (val_nonneg_mag X2 HX2) as H.
    unfold val in H. destruct HX2 as [[Hs|Hs] _]; rewrite Hs in *; [lia|].
    replace (mag X mod mag Y) with 0 by lia. reflexivity. }
  split; [|auto].
  rewrite He2, Hez, HmY2, Hv1, Hm1.
  destruct (div_mod_split (mag X) (mag Y) (bpow m)) as [Hd _]; auto; [apply mag_nonneg; auto|].
  rewrite Hd. ring.
Qed.

Lemma div_abs_spec hl A B :
  mpi_wf A -> mpi_wf B -> 0 < mag B -> mag B <= mag A -> est_good hl (norm_limb (mag B)) ->
  runs NoFail (div_abs hl A B)
    (fun '(Zq, X) => mpi_wf Zq /\ mpi_s Zq = 1 /\ mag Zq = mag A / mag B /\ mpi_wf X /\
       val X = mag A mod mag B) no_err.
Proof.
  intros HA HB HBpos Hle Hest. unfold div_abs.
  runs_step fresh_copy; [auto|lia|]. intros X0 (HX0 & HmX0 & HnX0).
  runs_step fresh_copy; auto. intros Y0 (HY0 & HmY0 & HnY0).
  runs_step mpi_grow_spec; [auto with limbs|]. intros Z0 (HZ0 & _ & _ & HnZ0).
  runs_step mpi_lset_spec; [lia|]. intros Zq (HZq & _ & _ & HsZq & HpZq).
  runs_step mpi_grow_spec; [auto with limbs|]. intros T1 (HT1 & _ & _ & HnT1).
  runs_step mpi_grow_spec; [auto with limbs|]. intros T2 (HT2 & _ & _ & HnT2).
  change (mpi_n mpi_init) with 0%nat in *.
  set (X1 := Mpi 1 (mpi_p X0)). set (Y1 := Mpi 1 (mpi_p Y0)).
  assert (HX1 : mpi_wf X1) by (split; simpl; auto with limbs).
  assert (HY1 : mpi_wf Y1) by (split; simpl; auto with limbs).
  assert (HuA : (used (mpi_p X0) <= mpi_n A)%nat).
  { rewrite (used_eval_eq (mpi_p X0) (mpi_p A)) by auto with limbs. apply used_le. }
  pose proof (used_bitlen (mpi_p X0) ltac:(auto with limbs) ltac:(fold (mag X0); lia)) as Hub.
  fold (mag X0) in Hub. rewrite HmX0 in Hub.
  assert (HnY1 : (0 < mpi_n Y1)%nat).
  { change (mpi_n Y1) with (mpi_n Y0). rewrite HnY0.
    pose proof (used_0 (mpi_p Y0)) as H0. fold (mag Y0) in H0. lia. }
  runs_step mpi_msb_spec; auto. intros m ->. change (mag Y1) with (mag Y0). rewrite HmY0.
  eapply runs_bind; [apply (normalise_spec X1 Y1 (mag A) (mag B)); auto; try lia|].
  intros [[k X] Y] (Hk & HX & HY & HsX & HsY & HmX & HmY & HnX & HnY).
  pose proof (norm_sizes (mag A) (mag B) HBpos Hle) as (Hk1 & Hk2 & Hk3).
  pose proof (norm_limb_bounds (mag B) HBpos) as Hlow. pose proof (norm_shift_bounds (mag B)) as Hkb.
  pose proof (bitlen_pos (mag B) HBpos) as Hbp. pose proof (Z.div_pos (bitlen (mag B)) 64) as Ht0.
  unfold norm_limb in *. rewrite <- Hk, Hk1, <- HmY in *. rewrite Hk2 in HnY.
  cbv zeta. set (t := (mpi_n Y - 1)%nat). set (mm := (mpi_n X - 1 - t)%nat).
  replace (64 * (bitlen (mag B) / 64) + 63 - 63) with (biL * Z.of_nat t) in * by (unfold t; lia).
  rewrite <- bpow_pow2 in *.
  assert (Hnth : nth t (mpi_p Y) 0 = mag Y / bpow t).
  { apply nth_top; auto with limbs. replace (S t) with (mpi_n Y) by (unfold t; lia).
    apply eval_bounds; auto with limbs. }
  rewrite HsZq, HpZq. change (Z.abs 0 :: repeat 0 (mpi_n Z0 - 1)) with (repeat 0 (S (mpi_n Z0 - 1))).
  assert (H2k : 0 < 2 ^ k) by (apply Z.pow_pos_nonneg; lia).
  eapply runs_post; [apply div_normal_spec; rewrite ?Hnth; auto; try (unfold mm, t; lia); try apply Hlow|].
  - repeat split; try apply HT1; try apply HT2; lia.
  - intros [Zq' X'] (H1 & H2 & H3 & H4 & H5). rewrite HmX, HmY in *.
    rewrite Z.div_mul_cancel_r in H3 by lia.
    rewrite Z.mul_mod_distr_r, Z.div_mul in H5 by lia. auto.
Qed.

(** ** [mpi_div_mpi] *)

(** What a destination holds after the call, when it is there. *)
Definition opt_is (X : option mpi) (P : mpi -> Prop) : Prop :=
  match X with Some X => mpi_wf X /\ P X | None => True end.

(** Division by a zero divisor: the error, whatever the operands. *)
Lemma mpi_div_mpi_zero d hl Q R A B Post :
  mpi_wf (div_deref Q R B) -> mag (div_deref Q R B) = 0 ->
  runs d (mpi_div_mpi hl Q R A B) Post (fun e => e = POLARSSL_ERR_MPI_DIVISION_BY_ZERO).
Proof.
  intros HB Hz. unfold mpi_div_mpi. rewrite mpi_cmp_int_0 by auto.
  unfold val. rewrite Hz, Z.mul_0_r. simpl. now apply runs_throw.
Qed.

(** The sign of an operand as the code reads it when it sets that of the
    quotient: an operand that is the quotient has lost its own. *)
Definition sign_after_Q (a : div_arg) (s : Z) : Z := match a with IsQ => 1 | _ => s end.

Definition sign_of_R (a : div_arg) (s : Z) (small : bool) : Z :=
  match a with IsR => if small then s else 1 | _ => s end.

(** A destination never loses limbs. *)
Definition grown (R : option mpi) (r : mpi) : Prop :=
  match R with Some r0 => (mpi_n r0 <= mpi_n r)%nat | None => True end.

(** Absent destinations stay absent. *)
Definition same_null (X X' : option mpi) : Prop := X' = None <-> X = None.

Lemma div_small_spec Q R A E :
  let a := div_deref Q R A in
  mpi_wf a -> (A = IsQ -> R = None) ->
  runs NoFail (div_small Q R A)
    (fun '(Q', R') => opt_is Q' (fun q => val q = 0) /\
       opt_is R' (fun r => val r = val a /\ (canon a -> canon r) /\ grown R r) /\
       same_null Q Q' /\ same_null R R') E.
Proof.
  cbv zeta. intros HA HAQ. unfold div_small, same_null.
  eapply runs_bind with (Q := fun Q' => opt_is Q' (fun q => val q = 0) /\ (Q' = None <-> Q = None)
    /\ (A <> IsQ -> div_deref Q' R A = div_deref Q R A)).
  { destruct Q as [q|]; [|apply runs_ret; simpl; intuition].
    runs_step mpi_lset_spec; [lia|]. intros q' (H1 & H2 & _). apply runs_ret.
    split; [split; auto|split; [easy|]]. now destruct A. }
  intros Q' (HQ' & HQn & HAd).
  eapply runs_bind with (Q := fun R' => opt_is R' (fun r => val r = val (div_deref Q R A) /\
      (canon (div_deref Q R A) -> canon r) /\ grown R r) /\ (R' = None <-> R = None)).
  { destruct R as [r|]; [|apply runs_ret; simpl; intuition].
    rewrite HAd by (intros HA'; discriminate (HAQ HA')).
    runs_step mpi_copy_spec; [destruct A; auto|]. intros r' (H1 & H2 & H3 & H4).
    assert (Hd : deref r match A with IsR => Self | _ => Var (div_deref Q (Some r) A) end =
      div_deref Q (Some r) A) by now destruct A.
    rewrite Hd in *. apply runs_ret. split; [split; auto|easy].
    unfold val, canon, grown. rewrite H2, H3, H4. repeat split; auto. lia. }
  intros R' (HR' & HRn). apply runs_ret. auto.
Qed.

Lemma div_set_Q_spec Q R A B Zq :
  let a := div_deref Q R A in
  let b := div_deref Q R B in
  mpi_wf a -> mpi_wf b -> mpi_wf Zq -> mpi_s Zq = 1 ->
  runs NoFail (div_set_Q Q R A B Zq)
    (fun Q' => opt_is Q' (fun q =>
        val q = sign_after_Q A (mpi_s a) * sign_after_Q B (mpi_s b) * mag Zq) /\
      same_null Q Q' /\ (A <> IsQ -> div_deref Q' R A = a)) no_err.
Proof.
  cbv zeta. intros HA HB HZ HsZ. unfold div_set_Q, same_null.
  destruct Q as [q|]; [|apply runs_ret; simpl; intuition].
  eapply runs_bind; [apply runs_unchecked, mpi_copy_spec; auto|].
  intros q' (H1 & H2 & H3 & _). apply runs_ret. simpl deref in *.
  assert (HsA : mpi_s (div_deref (Some q') R A) = sign_after_Q A (mpi_s (div_deref (Some q) R A)))
    by (destruct A; simpl; congruence).
  assert (HsB : mpi_s (div_deref (Some q') R B) = sign_after_Q B (mpi_s (div_deref (Some q) R B)))
    by (destruct B; simpl; congruence).
  rewrite HsA, HsB. split; [|split; [easy|now destruct A]]. unfold opt_is, mpi_wf, val, mag in *.
  cbn [mpi_s mpi_p]. rewrite H2. split; [|reflexivity]. split; [|apply H1].
  destruct HA as [HA _], HB as [HB _].
  apply sign_ok_mul; [destruct A|destruct B]; simpl in *; auto with limbs.
Qed.

Lemma div_set_R_spec Q R A X :
  let a := div_deref Q R A in
  mpi_wf a -> mpi_wf X -> val X = mag X ->
  runs NoFail (div_set_R Q R A X)
    (fun R' => opt_is R' (fun r =>
        val r = (match A with IsR => 1 | _ => mpi_s a end) * mag X /\ canon r /\ grown R r) /\
      same_null R R') no_err.
Proof.
  cbv zeta. intros HA HX HvX. unfold div_set_R, same_null.
  destruct R as [r|]; [|apply runs_ret; simpl; intuition].
  eapply runs_bind; [apply runs_unchecked, mpi_copy_spec; auto|].
  intros r' (H1 & H2 & H3 & H4). apply runs_ret. simpl deref in *. split; [|easy].
  set (r1 := Mpi _ (mpi_p r')).
  assert (Hs1 : mpi_s r1 = match A with IsR => mpi_s X | _ => mpi_s (div_deref Q (Some r) A) end)
    by (destruct A; simpl; congruence).
  assert (Hr1 : mpi_wf r1).
  { split; [rewrite Hs1|apply H1]. destruct A; [apply HA|apply HX|apply HA]. }
  assert (Hv : val r1 = (match A with IsR => 1 | _ => mpi_s (div_deref Q (Some r) A) end) * mag X).
  { unfold val in *. rewrite Hs1. change (mag r1) with (mag r'). rewrite H2.
    destruct A; rewrite ?Z.mul_1_l; auto. }
  assert (Hg : (mpi_n r <= mpi_n r1)%nat) by (change (mpi_n r1) with (mpi_n r'); lia).
  rewrite mpi_cmp_int_0 by auto. unfold opt_is, canon, grown.
  destruct (Z.compare_spec (val r1) 0) as [Hz| |]; cbn [cmp_sign Z.eqb].
  2, 3: split; [auto|split; [auto|split; [|exact Hg]]]; intros Hm; unfold val in *; rewrite Hm in *; lia.
  split; [split; [apply sign_ok_1|apply H1]|]. rewrite <- Hv. split; [|split; [reflexivity|exact Hg]].
  pose proof (val_abs r1 Hr1) as Hm. unfold val at 1. change (mag _) with (mag r1). simpl. lia.
Qed.

(** The whole contract, aliased operands included; a quotient that is the
    dividend leaves no room for a remainder. *)
Lemma mpi_div_mpi_gen hl Q R A B :
  let a := div_deref Q R A in
  let b := div_deref Q R B in
  mpi_wf a -> mpi_wf b -> mag b <> 0 -> (A = IsQ -> R = None) ->
  est_good hl (norm_limb (mag b)) ->
  runs NoFail (mpi_div_mpi hl Q R A B)
    (fun '(Q', R') =>
       opt_is Q' (fun q =>
         val q = sign_after_Q A (mpi_s a) * sign_after_Q B (mpi_s b) * (mag a / mag b)) /\
       opt_is R' (fun r =>
         val r = sign_of_R A (mpi_s a) (mag a <? mag b) * (mag a mod mag b) /\
         (canon a -> canon r) /\ grown R r) /\
       same_null Q Q' /\ same_null R R') no_err.
Proof.
  cbv zeta. intros HA HB HB0 HAQ Hest. unfold mpi_div_mpi.
  set (a := div_deref Q R A) in *. set (b := div_deref Q R B) in *.
  pose proof (mag_nonneg a HA) as HnA. pose proof (mag_nonneg b HB) as HnB.
  assert (Hb0 : (mpi_cmp_int b 0 =? 0) = false).
  { rewrite mpi_cmp_int_0 by auto. pose proof (val_abs b HB).
    destruct (Z.compare_spec (val b) 0); [lia|reflexivity..]. }
  rewrite Hb0, mpi_cmp_abs_spec by auto. clear Hb0.
  destruct (Z.ltb_spec (mag a) (mag b)) as [Hlt|Hge].
  - rewrite (proj2 (Z.compare_lt_iff _ _)) by auto. cbn [cmp_sign Z.ltb Z.compare].
    rewrite Z.div_small, Z.mod_small by lia.
    eapply runs_post; [now apply div_small_spec|]. intros [Q' R'] (H1 & H2 & H3 & H4).
    fold a in H2. split; [|split; [|auto]].
    + destruct Q'; simpl in *; intuition lia.
    + destruct R'; simpl in *; [|auto]. destruct A; apply H2.
  - assert (Hc : (cmp_sign (mag a ?= mag b) <? 0) = false)
      by (destruct (Z.compare_spec (mag a) (mag b)); [reflexivity|lia|reflexivity]).
    rewrite Hc. clear Hc.
    runs_step div_abs_spec; auto; [lia|]. intros [Zq X] (HZ & HsZ & HmZ & HX & HvX).
    pose proof (Z.mod_pos_bound (mag a) (mag b) ltac:(lia)) as Hr.
    pose proof (val_nonneg_mag X HX ltac:(lia)) as HmX.
    runs_step div_set_Q_spec; auto. intros Q' (HQ' & HQn & HAd). fold a b in HQ'.
    destruct R as [r|].
    + assert (HAQ' : A <> IsQ) by (intros HA'; discriminate (HAQ HA')).
      runs_step div_set_R_spec; auto; [now rewrite HAd|]. intros R' (HR' & HRn).
      rewrite HAd in HR' by auto. apply runs_ret. rewrite <- HmZ, <- HvX, HmX.
      split; [exact HQ'|split; [|split; auto]].
      destruct R'; simpl in *; [|auto]. split; [apply HR'|].
      split; [|split; [intros; apply HR'|apply HR']].
      destruct A; [contradiction|apply HR'..].
    + cbn [div_set_R]. rewrite bind_ret. apply runs_ret. rewrite <- HmZ.
      repeat split; simpl; auto; apply HQn.
Qed.

Lemma quot_rem_signs s t a b :
  sign_ok s -> sign_ok t -> 0 <= a -> 0 < b ->
  Z.quot (s * a) (t * b) = s * t * (a / b) /\ Z.rem (s * a) (t * b) = s * (a mod b).
Proof.
  intros Hs Ht Ha Hb. assert (b <> 0 /\ - b <> 0) as [Hb1 Hb2] by lia.
  assert (Hq : Z.quot a b = a / b) by (apply Z.quot_div_nonneg; lia).
  assert (Hr : Z.rem a b = a mod b) by (apply Z.rem_mod_nonneg; lia).
  assert (H1 : forall z, 1 * z = z) by (intros; lia).
  assert (H2 : forall z, -1 * z = - z) by (intros; lia).
  destruct Hs as [->| ->], Ht as [->| ->]; rewrite ?H1, ?H2;
    rewrite ?Z.quot_opp_opp, ?Z.quot_opp_l, ?Z.quot_opp_r by auto;
    rewrite ?Z.rem_opp_l, ?Z.rem_opp_r by auto; rewrite ?Hq, ?Hr; lia.
Qed.

(** Neither destination is an operand: truncating division. *)
Lemma mpi_div_mpi_spec hl Q R A B :
  mpi_wf A -> mpi_wf B -> mag B <> 0 ->
  est_good hl (norm_limb (mag B)) ->
  runs NoFail (mpi_div_mpi hl Q R (Other A) (Other B))
    (fun '(Q', R') =>
       opt_is Q' (fun q => val q = Z.quot (val A) (val B)) /\
       opt_is R' (fun r => val r = Z.rem (val A) (val B) /\ (canon A -> canon r) /\ grown R r) /\
       same_null Q Q' /\ same_null R R') no_err.
Proof.
  intros HA HB HB0 Hest. pose proof (mag_nonneg A HA). pose proof (mag_nonneg B HB).
  eapply runs_post; [apply mpi_div_mpi_gen; auto; discriminate|].
  intros [Q' R']. simpl. unfold val.
  destruct (quot_rem_signs (mpi_s A) (mpi_s B) (mag A) (mag B)) as [-> ->];
    try apply HA; try apply HB; auto; lia.
Qed.
