(* ===== verification/MpiMod.v ===== *)
(** * Multi-precision integers: remainders

    [mpi_mod_mpi] and [mpi_mod_int] of [libsparkle/crypto/bignum.c]. *)
From Stdlib Require Import ZArith List Lia Bool.
Import ListNotations.
From S2P Require Import Prelude CMonad Limbs Mpi MpiAddSub MpiShift MpiMul MpiDiv.
From S2P Require Import MpiDivCorrect.
#[local] Open Scope Z_scope.
#[local] Open Scope cmonad_scope.

(** ** Operations *)

Section Mod.
Context (have_longlong : bool).

(** [while( mpi_cmp_int( R, 0 ) < 0 ) R += B] *)
Fixpoint mod_up (fuel : nat) (R : mpi) (B : arg) : M mpi :=
  if mpi_cmp_int R 0 <? 0 then
    match fuel with
    | O => out_of_fuel
    | S fuel' =>
        R <- mpi_add_mpi R Self B;;
        mod_up fuel' R B
    end
  else ret R.

(** [while( mpi_cmp_mpi( R, B ) >= 0 ) R -= B] *)
Fixpoint mod_down (fuel : nat) (R : mpi) (B : arg) : M mpi :=
  if 0 <=? mpi_cmp_mpi R (deref R B) then
    match fuel with
    | O => out_of_fuel
    | S fuel' =>
        R <- mpi_sub_mpi R Self B;;
        mod_down fuel' R B
    end
  else ret R.

(** The remainder of a division is within one divisor of the result. *)
Definition mod_fuel : nat := 2.

Definition arg_R (a : arg) : div_arg := match a with Self => IsR | Var m => Other m end.

Definition mpi_mod_mpi (R : mpi) (A B : arg) : M mpi :=
  if mpi_cmp_int (deref R B) 0 <? 0 then throw POLARSSL_ERR_MPI_NEGATIVE_VALUE
  else
    '(_, R') <- mpi_div_mpi have_longlong None (Some R) (arg_R A) (arg_R B);;
    match R' with
    | Some R =>
        R <- mod_up mod_fuel R B;;
        mod_down mod_fuel R B
    | None => ub
    end.
End Mod.

(** The loop of [mpi_mod_int] over the limbs, from the top one down: the
    remainder [y] takes in two half limbs per turn. *)
Fixpoint mod_int_loop (b : Z) (p : list Z) : Z :=
  match p with
  | [] => 0
  | x :: p' =>
      let y := mod_int_loop b p' in
      let y := Z.lor (w64 (Z.shiftl y biH)) (Z.shiftr x biH) in
      let z := y / b in
      let y := w64 (y - w64 (z * b)) in
      let x := w64 (Z.shiftl x biH) in
      let y := Z.lor (w64 (Z.shiftl y biH)) (Z.shiftr x biH) in
      let z := y / b in
      w64 (y - w64 (z * b))
  end.

Definition mpi_mod_int (A : mpi) (b : Z) : M Z :=
  if b =? 0 then throw POLARSSL_ERR_MPI_DIVISION_BY_ZERO
  else if b <? 0 then throw POLARSSL_ERR_MPI_NEGATIVE_VALUE
  else if b =? 1 then ret 0
  else if b =? 2 then
    x <- rd (mpi_p A) 0;;
    ret (Z.land x 1)
  else
    let y := mod_int_loop b (mpi_p A) in
    ret (if (mpi_s A <? 0) && negb (y =? 0) then w64 (b - y) else y).

(** ** [mpi_mod_int] *)

Lemma mod_half b y h :
  0 < b < 4294967296 -> 0 <= y < b -> 0 <= h < 4294967296 ->
  let y' := Z.lor (w64 (Z.shiftl y biH)) h in
  w64 (y' - w64 (y' / b * b)) = (y * 4294967296 + h) mod b.
Proof.
  cbv zeta. intros Hb Hy Hh. rewrite Z.shiftl_mul_pow2 by lia. change (2 ^ biH) with 4294967296.
  rewrite (w64_small (y * _)) by (unfold limb; nia). rewrite lor_half by lia.
  set (v := y * 4294967296 + h). assert (Hv : 0 <= v < base) by (unfold v; nia).
  pose proof (Z.mod_pos_bound v b ltac:(lia)) as Hm. pose proof (Z.div_mod v b ltac:(lia)) as Hdm.
  replace (v / b * b) with (v - v mod b) by lia.
  assert (v mod b <= v) by (apply Z.mod_le; lia).
  rewrite (w64_small (v - v mod b)) by (unfold limb; lia).
  rewrite w64_small; unfold limb; lia.
Qed.

Lemma mod_push b a h :
  b <> 0 -> (a mod b * 4294967296 + h) mod b = (a * 4294967296 + h) mod b.
Proof.
  intros. rewrite <- (Z.add_mod_idemp_l (_ * _)), Z.mul_mod_idemp_l by auto.
  now rewrite Z.add_mod_idemp_l.
Qed.

Lemma mod_int_loop_spec b p :
  0 < b < 4294967296 -> limbs p -> mod_int_loop b p = eval p mod b.
Proof.
  intros Hb Hp. induction Hp as [|x p Hx Hp IH]; cbn [mod_int_loop eval].
  - now rewrite Z.mod_0_l by lia.
  - rewrite IH. pose proof (Z.mod_pos_bound (eval p) b ltac:(lia)) as Hm.
    destruct (halves x Hx) as (x1 & x0 & H1 & H0 & Ex & -> & Ex0 & _).
    rewrite Ex0. rewrite (mod_half b (eval p mod b) x1) by lia.
    pose proof (Z.mod_pos_bound (eval p mod b * 4294967296 + x1) b ltac:(lia)) as Hm'.
    rewrite (mod_half b _ x0) by lia.
    rewrite (mod_push b (eval p)), mod_push by lia.
    replace ((eval p * 4294967296 + x1) * 4294967296 + x0) with (x + base * eval p) by lia.
    reflexivity.
Qed.

(** [mpi_mod_int] is the non-negative remainder, for every sign. *)
Lemma mpi_mod_int_spec d A b E :
  mpi_wf A -> (0 < mpi_n A)%nat -> 0 < b < 2147483648 ->
  runs d (mpi_mod_int A b) (fun r => r = val A mod b) E.
Proof.
  intros [Hs Hp] Hn Hb. unfold mpi_mod_int, mpi_n in *.
  case_bool (b =? 0); [lia|]. case_bool (b <? 0); [lia|].
  case_bool (b =? 1). { apply runs_ret. subst. now rewrite Z.mod_1_r. }
  case_bool (b =? 2).
  { subst. runs_step runs_rd; [lia|]. intros ? ->. apply runs_ret.
    change 1 with (Z.ones 1) at 1. rewrite Z.land_ones by lia. change (2 ^ 1) with 2.
    rewrite (nth_eval _ _ Hp), bpow_0, Z.div_1_r. fold (mag A). unfold val.
    destruct Hs as [-> | ->]; dlia. }
  apply runs_ret. rewrite mod_int_loop_spec by (auto; lia). fold (mag A). unfold val.
  pose proof (Z.mod_pos_bound (mag A) b ltac:(lia)) as Hm.
  destruct Hs as [-> | ->]; cbn [Z.ltb Z.compare andb]; [now rewrite Z.mul_1_l|].
  replace (-1 * mag A) with (- mag A) by lia.
  case_bool (mag A mod b =? 0); cbn [negb].
  - now rewrite Z.mod_opp_l_z by lia.
  - rewrite Z.mod_opp_l_nz by lia. apply w64_small. unfold limb. lia.
Qed.

Lemma mpi_mod_int_err A b :
  mpi_mod_int A 0 = throw POLARSSL_ERR_MPI_DIVISION_BY_ZERO /\
  (b < 0 -> mpi_mod_int A b = throw POLARSSL_ERR_MPI_NEGATIVE_VALUE).
Proof.
  split; [reflexivity|]. intros Hb. unfold mpi_mod_int.
  case_bool (b =? 0); [lia|]. case_bool (b <? 0); [reflexivity|lia].
Qed.

(** ** [mpi_mod_mpi] *)

Lemma canon_sign X : mpi_wf X -> canon X -> 0 <= val X -> mpi_s X = 1.
Proof.
  intros HX Hc Hv. destruct (Z.eq_dec (val X) 0) as [Hz|]; [|apply pos_sign; auto; lia].
  apply Hc. rewrite <- val_nonneg_mag; auto.
Qed.

Lemma cmp_int_0_ltb X : mpi_wf X -> (mpi_cmp_int X 0 <? 0) = (val X <? 0).
Proof.
  intros HX. rewrite mpi_cmp_int_0 by auto.
  destruct (Z.compare_spec (val X) 0); simpl; symmetry; rewrite ?Z.ltb_lt, ?Z.ltb_ge; lia.
Qed.

Section ModSpec.
Context (hl : bool).

(** The loops bring a value within one divisor of the result into range. *)
Lemma mod_down_done fuel R B E :
  mpi_wf R -> mpi_wf B -> mpi_s R = 1 -> mpi_s B = 1 -> val R < val B ->
  runs NoFail (mod_down fuel R (Var B)) (fun R' => R' = R) E.
Proof.
  intros HR HB Hs1 Hs2 Hlt.
  assert (H : (0 <=? mpi_cmp_mpi R B) = false).
  { rewrite mpi_cmp_mpi_spec by (auto; left; congruence).
    destruct (Z.compare_spec (val R) (val B)); [lia|reflexivity|lia]. }
  destruct fuel; simpl deref; unfold mod_down; simpl deref; rewrite H; now apply runs_ret.
Qed.

Lemma mod_up_spec R B E :
  mpi_wf R -> mpi_wf B -> - val B < val R < val B -> canon R ->
  runs NoFail (mod_up mod_fuel R (Var B))
    (fun R' => mpi_wf R' /\ val R' = val R mod val B /\ mpi_s R' = 1 /\
               (mpi_n R <= mpi_n R')%nat) E.
Proof.
  intros HR HB Hb Hc. unfold mod_fuel. cbn [mod_up]. rewrite cmp_int_0_ltb by auto.
  case_bool (val R <? 0).
  - runs_step mpi_add_mpi_spec; auto. intros R1 (HR1 & Hv1 & Hn1). simpl deref in *.
    rewrite cmp_int_0_ltb by auto. rewrite (proj2 (Z.ltb_ge _ _)) by lia. apply runs_ret.
    split; [exact HR1|split; [|split; [apply pos_sign; auto; lia|exact Hn1]]].
    rewrite Hv1, <- (Z.mod_add (val R) 1), Z.mul_1_l, Z.mod_small by lia. lia.
  - apply runs_ret. split; [exact HR|split; [|split; [apply canon_sign; auto|lia]]].
    now rewrite Z.mod_small by lia.
Qed.

(** The remainder for a positive modulus: for a negative [A] only when [R]
    is another object. *)
Lemma mpi_mod_mpi_spec R A B :
  mpi_wf (deref R A) -> canon (deref R A) -> mpi_wf B -> 0 < val B ->
  (A = Self -> 0 <= val R) -> est_good hl (norm_limb (mag B)) ->
  runs NoFail (mpi_mod_mpi hl R A (Var B))
    (fun R' => mpi_wf R' /\ val R' = val (deref R A) mod val B /\ mpi_s R' = 1 /\
               (mpi_n R <= mpi_n R')%nat) no_err.
Proof.
  intros HA HcA HB HvB Hneg Hest. unfold mpi_mod_mpi. simpl deref.
  rewrite cmp_int_0_ltb by auto. rewrite (proj2 (Z.ltb_ge _ _)) by lia.
  assert (HmB : val B = mag B) by (apply val_nonneg_mag; auto; lia).
  assert (Hd : div_deref None (Some R) (arg_R A) = deref R A) by now destruct A.
  eapply runs_bind; [apply mpi_div_mpi_gen; rewrite ?Hd; auto; simpl; try lia; now destruct A|].
  intros [Q' R'] (_ & HR' & _ & Hn). rewrite Hd in HR'. simpl in HR'.
  destruct R' as [R'|]; [|destruct Hn as [Hn _]; discriminate (Hn eq_refl)].
  destruct HR' as (HR' & HvR' & HcR' & HgR'). specialize (HcR' HcA).
  pose proof (Z.mod_pos_bound (mag (deref R A)) (mag B) ltac:(lia)) as Hr.
  assert (Hs : sign_of_R (arg_R A) (mpi_s (deref R A)) (mag (deref R A) <? mag B)
               = mpi_s (deref R A)).
  { destruct A as [|A]; [|reflexivity]. simpl in *. specialize (Hneg eq_refl).
    now rewrite (canon_sign R) by auto; destruct (_ <? _). }
  rewrite Hs in HvR'.
  runs_step mod_up_spec; auto;
    [rewrite HvR', HmB; destruct HA as [[-> | ->] _]; lia|].
  intros R1 (HR1 & Hv1 & Hs1 & Hn1). pose proof (Z.mod_pos_bound (val R') (val B) HvB).
  eapply runs_post; [apply mod_down_done; auto; [apply pos_sign|]; auto; lia|].
  simpl in HgR'. intros R2 ->. split; [exact HR1|split; [|split; [exact Hs1|lia]]]. rewrite Hv1, HvR', HmB.
  rewrite Z.mul_mod_idemp_r by lia. reflexivity.
Qed.

(** The error returns. *)
Lemma mpi_mod_mpi_neg R A B :
  mpi_wf (deref R B) -> val (deref R B) < 0 ->
  mpi_mod_mpi hl R A B = throw POLARSSL_ERR_MPI_NEGATIVE_VALUE.
Proof.
  intros HB Hv. unfold mpi_mod_mpi. rewrite cmp_int_0_ltb by auto.
  now rewrite (proj2 (Z.ltb_lt _ _)).
Qed.

Lemma mpi_mod_mpi_zero d R A B Q :
  mpi_wf (deref R B) -> val (deref R B) = 0 ->
  runs d (mpi_mod_mpi hl R A B) Q (fun e => e = POLARSSL_ERR_MPI_DIVISION_BY_ZERO).
Proof.
  intros HB Hv. unfold mpi_mod_mpi. rewrite cmp_int_0_ltb, Hv by auto. simpl.
  eapply runs_bind with (Q := fun _ => False); [|contradiction].
  pose proof (val_abs _ HB).
  assert (Hd : div_deref None (Some R) (arg_R B) = deref R B) by now destruct B.
  apply mpi_div_mpi_zero; rewrite Hd; auto; lia.
Qed.
End ModSpec.
