(* ===== verification/MpiMont.v ===== *)
(** * Multi-precision integers: Montgomery multiplication

    [mpi_montg_init], [mpi_montmul] and [mpi_montred] of
    [libsparkle/crypto/bignum.c]. *)
From Stdlib Require Import ZArith List Lia Bool Znumtheory.
Import ListNotations.
From S2P Require Import Prelude CMonad Limbs Mpi MpiAddSub MpiShift MpiMul.
#[local] Open Scope Z_scope.
#[local] Open Scope cmonad_scope.

(** ** Operations *)

(** [x *= ( 2 - ( m0 * x ) )] *)
Definition newton_step (m0 x : Z) : Z := w64 (x * w64 (2 - w64 (m0 * x))).

Definition mpi_montg_init (N : mpi) : M Z :=
  m0 <- rd (mpi_p N) 0;;
  let x := m0 in
  let x := w64 (x + w64 (Z.shiftl (Z.land (w64 (m0 + 2)) 4) 1)) in
  let x := newton_step m0 x in
  let x := if 16 <=? biL then newton_step m0 x else x in
  let x := if 32 <=? biL then newton_step m0 x else x in
  let x := if 64 <=? biL then newton_step m0 x else x in
  ret (w64 (w64 (Z.lnot x) + 1)).

(** The loop of [mpi_montmul]; [d] is at limb [i] of the scratch array
    [T]. *)
Fixpoint mont_loop (k i : nat) (a b nn : list Z) (m n : nat) (mm : Z) (T : list Z) : M (list Z) :=
  match k with
  | O => ret T
  | S k' =>
      u0 <- rd a i;;
      d0 <- rd T i;;
      b0 <- rd b 0;;
      let u1 := w64 (w64 (d0 + w64 (u0 * b0)) * mm) in
      d <- mpi_mul_hlp m b (skipn i T) u0;;
      d <- mpi_mul_hlp n nn d u1;;
      T <- wr (firstn i T ++ d) i u0;;
      T <- wr T (S i + n + 1) 0;;
      mont_loop k' (S i) a b nn m n mm T
  end.

(** [memcpy( dst, src, k * ciL )] *)
Definition memcpy (dst src : list Z) (k : nat) : M (list Z) :=
  if ((k <=? length dst) && (k <=? length src))%nat
  then ret (firstn k src ++ skipn k dst) else ub.

(** [A = A * B * R^-1 mod N]; returns the new [A] and the scratch [T]. *)
Definition mpi_montmul (A B N : mpi) (mm : Z) (T : mpi) : M (mpi * mpi) :=
  let n := mpi_n N in
  let m := if (mpi_n B <? n)%nat then mpi_n B else n in
  t <- mont_loop n 0 (mpi_p A) (mpi_p B) (mpi_p N) m n mm (repeat 0 (mpi_n T));;
  p <- memcpy (mpi_p A) (skipn n t) (n + 1);;
  let A := Mpi (mpi_s A) p in
  if 0 <=? mpi_cmp_abs A N then
    p <- mpi_sub_hlp n (mpi_p N) (mpi_p A);;
    ret (Mpi (mpi_s A) p, Mpi (mpi_s T) t)
  else
    t <- mpi_sub_hlp n (mpi_p A) t;;
    ret (A, Mpi (mpi_s T) t).

(** [A = A * R^-1 mod N]: the product with the number one on the stack. *)
Definition mpi_montred (A N : mpi) (mm : Z) (T : mpi) : M (mpi * mpi) :=
  mpi_montmul A (Mpi 1 [1]) N mm T.

(** ** The inverse of the low limb *)

Lemma w64_eqm x : exists k, w64 x = x + k * base.
Proof. unfold w64. exists (- (x / base)). dlia. Qed.

(** [x] inverts [m] modulo [2^k]. *)
Definition inverts (k m x : Z) : Prop := (2 ^ k | m * x - 1).

Lemma newton_inverts k m x :
  0 <= k <= 32 -> inverts k m x -> inverts (2 * k) m (newton_step m x).
Proof.
  intros Hk (c & Hc). unfold inverts, newton_step.
  destruct (w64_eqm (m * x)) as (k1 & ->). destruct (w64_eqm (2 - (m * x + k1 * base))) as (k2 & ->).
  destruct (w64_eqm (x * (2 - (m * x + k1 * base) + k2 * base))) as (k3 & ->).
  replace (m * (x * (2 - (m * x + k1 * base) + k2 * base) + k3 * base) - 1)
    with (- ((m * x - 1) * (m * x - 1)) + base * (m * x * (k2 - k1) + m * k3)) by ring.
  rewrite Hc. apply Z.divide_add_r.
  - rewrite Z.divide_opp_r. exists (c * c). replace (2 * k) with (k + k) by lia.
    rewrite Z.pow_add_r by lia. ring.
  - apply Z.divide_mul_l. change base with (2 ^ 64). exists (2 ^ (64 - 2 * k)).
    rewrite <- Z.pow_add_r by lia. f_equal. lia.
Qed.

Lemma land_4 y : Z.land y 4 = 4 * ((y / 4) mod 2).
Proof.
  assert (H : Z.land y (Z.shiftl 1 2) = Z.shiftl (Z.land (Z.shiftr y 2) 1) 2).
  { rewrite Z.shiftl_land. apply Z.bits_inj'. intros i Hi. rewrite !Z.land_spec.
    destruct (Z.lt_ge_cases i 2) as [Hlt|Hge].
    - rewrite !(Z.shiftl_spec_low _ 2 i) by lia. now rewrite !andb_false_r.
    - rewrite (Z.shiftl_spec_high (Z.shiftr y 2)) by lia. rewrite Z.shiftr_spec by lia.
      now replace (i - 2 + 2) with i by lia. }
  change (Z.shiftl 1 2) with 4 in H. rewrite H, land_shiftr_1, Z.shiftl_mul_pow2 by lia.
  change (2 ^ 2) with 4. lia.
Qed.

Lemma first_inverts m : limb m -> m mod 2 = 1 ->
  inverts 4 m (w64 (m + w64 (Z.shiftl (Z.land (w64 (m + 2)) 4) 1))).
Proof.
  unfold limb. intros Hm Hodd. rewrite land_4, Z.shiftl_mul_pow2 by lia. change (2 ^ 1) with 2.
  assert (H8 : w64 (4 * ((w64 (m + 2) / 4) mod 2) * 2) = 8 * (((m + 2) / 4) mod 2)).
  { unfold w64. dlia. }
  rewrite H8. destruct (w64_eqm (m + 8 * (((m + 2) / 4) mod 2))) as (k & ->).
  unfold inverts. change (2 ^ 4) with 16.
  assert (Hr : exists a r, m = 8 * a + r /\ 0 <= r < 8 /\ r mod 2 = 1)
    by (exists (m / 8), (m mod 8); dlia).
  destruct Hr as (a & r & -> & Hr & Hr2). clear H8 Hm Hodd.
  assert (Hq : ((8 * a + r + 2) / 4) mod 2 = ((r + 2) / 4) mod 2) by dlia.
  rewrite Hq. clear Hq.
  assert (r = 1 \/ r = 3 \/ r = 5 \/ r = 7) as [->|[->|[->| ->]]] by dlia.
  all: match goal with |- context [((?x / 4) mod 2)] => 
         let v := eval vm_compute in ((x / 4) mod 2) in change ((x / 4) mod 2) with v end.
  - exists ((8 * a + 1) * k * 1152921504606846976 + 4 * a * a + a). ring.
  - exists ((8 * a + 3) * k * 1152921504606846976 + 4 * a * a + 7 * a + 2). ring.
  - exists ((8 * a + 5) * k * 1152921504606846976 + 4 * a * a + 9 * a + 4). ring.
  - exists ((8 * a + 7) * k * 1152921504606846976 + 4 * a * a + 7 * a + 3). ring.
Qed.

(** [mpi_montg_init] returns [- N^-1] modulo [2^64], for an odd [N]. *)
Lemma mpi_montg_init_spec d N E :
  mpi_wf N -> (0 < mpi_n N)%nat -> mag N mod 2 = 1 ->
  runs d (mpi_montg_init N) (fun mm => limb mm /\ (nth 0 (mpi_p N) 0 * mm + 1) mod base = 0) E.
Proof.
  intros [_ HN] Hn Hodd. unfold mpi_montg_init, mpi_n, mag in *.
  runs_step runs_rd; [lia|]. intros ? ->. apply runs_ret. cbn [Z.leb Z.compare Pos.compare Pos.compare_cont].
  pose proof (nth_limb _ 0 HN) as Hm. set (m := nth 0 (mpi_p N) 0) in *.
  assert (Hm2 : m mod 2 = 1).
  { unfold m. rewrite nth_eval, bpow_0, Z.div_1_r by auto. rewrite <- Hodd. dlia. }
  pose proof (first_inverts m Hm Hm2) as H0.
  apply newton_inverts in H0; [|lia]. apply newton_inverts in H0; [|lia].
  apply newton_inverts in H0; [|lia]. apply newton_inverts in H0; [|lia].
  change (2 * (2 * (2 * (2 * 4)))) with 64 in H0.
  set (x := newton_step m (newton_step m _)) in *. split; [apply w64_limb|].
  destruct (w64_eqm (Z.lnot x)) as (k1 & ->). destruct (w64_eqm (Z.lnot x + k1 * base + 1)) as (k2 & ->).
  unfold inverts in H0. change (2 ^ 64) with base in H0. destruct H0 as (c & Hc).
  unfold Z.lnot. apply Z.mod_divide; [lia|]. exists (m * (k1 + k2) - c). nia.
Qed.

(** ** The multiplication loop *)

Lemma upd_list_app_r l r i x :
  (length l <= i)%nat -> upd_list (l ++ r) i x = l ++ upd_list r (i - length l) x.
Proof.
  revert i; induction l as [|y l IH]; intros i Hi; simpl in *; [now rewrite Nat.sub_0_r|].
  destruct i as [|i]; [lia|]. cbn [upd_list app]. rewrite IH by lia. reflexivity.
Qed.

Lemma nth_high p k : limbs p -> eval p < bpow k -> nth k p 0 = 0.
Proof.
  intros Hp Hlt. pose proof (eval_nonneg p Hp). rewrite nth_eval by auto.
  now rewrite Z.div_small by lia.
Qed.

Lemma eval_skipn_high p k : limbs p -> eval p < bpow k -> eval (skipn k p) = 0.
Proof.
  intros Hp Hlt. pose proof (eval_firstn_skipn k p) as H.
  rewrite eval_firstn_small in H by auto.
  pose proof (bpow_pos (length (firstn k p))). nia.
Qed.

Section MontLoop.
Context (a b nn : list Z) (mm : Z).
Let n := length nn.
Let m := if (length b <? n)%nat then length b else n.
Context (Ha : limbs a) (Hb : limbs b) (Hnn : limbs nn) (Hmm : limb mm)
        (Hna : (n <= length a)%nat) (Hnb : (0 < length b)%nat) (Hn : (0 < n)%nat)
        (HN : 0 < eval nn) (HB : eval b <= eval nn)
        (Hinv : (nth 0 nn 0 * mm + 1) mod base = 0).

Lemma eval_b_m : eval (firstn m b) = eval b.
Proof using All.
  unfold m. case_bool (length b <? n)%nat; [now rewrite firstn_all|].
  apply eval_firstn_small; auto. pose proof (eval_bounds nn Hnn) as Hbn. fold n in Hbn. lia.
Qed.

Lemma m_bounds : (m <= length b /\ m <= n)%nat.
Proof using All. unfold m. case_bool (length b <? n)%nat; lia. Qed.

(** What the loop maintains before turn [i]. *)
Definition mont_inv (i : nat) (T : list Z) : Prop :=
  limbs T /\ (2 * n + 2 <= length T)%nat /\
  eval (firstn i T) = eval (firstn i a) /\
  0 <= eval (skipn i T) < eval b + eval nn /\
  exists U, 0 <= U < bpow i /\
    eval (skipn i T) * bpow i = eval (firstn i a) * eval b + U * eval nn.

(** The digit [u1] makes the sum divisible by the base. *)
Lemma mont_digit d0 u0 :
  (d0 + nth 0 b 0 * u0 + nth 0 nn 0 * w64 (w64 (d0 + w64 (u0 * nth 0 b 0)) * mm)) mod base = 0.
Proof using All.
  destruct (w64_eqm (u0 * nth 0 b 0)) as (k1 & ->).
  destruct (w64_eqm (d0 + (u0 * nth 0 b 0 + k1 * base))) as (k2 & ->).
  set (v := d0 + (u0 * nth 0 b 0 + k1 * base) + k2 * base).
  destruct (w64_eqm (v * mm)) as (k3 & ->).
  apply Z.mod_divide in Hinv; [|lia]. destruct Hinv as (c & Hc).
  apply Z.mod_divide; [lia|]. exists (v * c - k1 - k2 + nth 0 nn 0 * k3). unfold v in *. nia.
Qed.

Lemma mod_base_eval p : limbs p -> eval p mod base = nth 0 p 0.
Proof using. intros. now rewrite nth_eval, bpow_0, Z.div_1_r. Qed.

Lemma mont_loop_spec d k i T E :
  (i + k = n)%nat -> mont_inv i T ->
  runs d (mont_loop k i a b nn m n mm T)
    (fun T' => mont_inv n T' /\ length T' = length T) E.
Proof using All.
  revert i T; induction k as [|k IH]; intros i T Hik (HT & HlT & Hlo & Ht & U & HU & HtU);
    cbn [mont_loop].
  { replace n with i by lia. apply runs_ret. split; [|reflexivity].
    split; [exact HT|]. split; [lia|]. split; [exact Hlo|]. split; [exact Ht|].
    exists U. auto. }
  runs_step runs_rd; [lia|]. intros ? ->. runs_step runs_rd; [lia|]. intros ? ->.
  runs_step runs_rd; [lia|]. intros ? ->.
  pose proof (nth_limb a i Ha) as Hu0. set (u0 := nth i a 0) in *.
  set (d0 := nth i T 0). set (u1 := w64 (w64 (d0 + _) * mm)).
  pose proof (w64_limb (w64 (d0 + w64 (u0 * nth 0 b 0)) * mm)) as Hu1. fold u1 in Hu1.
  pose proof (eval_nonneg b Hb) as HB0. pose proof (eval_bounds nn Hnn) as HNb. fold n in HNb.
  set (t := eval (skipn i T)) in *. set (Bv := eval b) in *. set (Nv := eval nn) in *.
  assert (Hlen : (n + 3 <= length (skipn i T))%nat) by (rewrite length_skipn; lia).
  assert (Hbig : base * (Bv + Nv) < bpow (length (skipn i T))).
  { apply Z.lt_le_trans with (bpow (S (S n))); [rewrite !bpow_S; lia|apply bpow_mono; lia]. }
  unfold limb in Hu0, Hu1.
  assert (Hsum : t + Bv * u0 + Nv * u1 < base * (Bv + Nv)) by nia.
  eapply runs_bind; [apply mpi_mul_hlp_spec; auto with limbs; rewrite ?eval_b_m; fold Bv t; try nia|].
  { apply m_bounds. } { pose proof m_bounds. lia. }
  intros e1 (He1 & Hv1 & Hl1). rewrite eval_b_m in Hv1. fold Bv t in Hv1.
  eapply runs_bind; [apply mpi_mul_hlp_spec; auto with limbs; unfold n; try lia|].
  { fold n. unfold n. rewrite firstn_all, Hl1, Hv1. fold Nv. lia. }
  intros e2 (He2 & Hv2 & Hl2). unfold n in Hv2. rewrite firstn_all in Hv2. fold n Nv in Hv2.
  destruct He2 as [|e0 e He0 He]; [simpl in Hl2; lia|]. cbn [eval length] in Hv2, Hl2.
  assert (Hz : e0 = 0).
  { pose proof (mont_digit d0 u0) as Hm. fold u1 in Hm.
    rewrite <- !mod_base_eval in Hm by auto. fold Bv Nv in Hm.
    assert (Hd0 : d0 = t mod base).
    { unfold d0, t. rewrite mod_base_eval by auto with limbs. now rewrite nth_skipn, Nat.add_0_r. }
    rewrite Hd0 in Hm. unfold limb in He0. rewrite <- (Z.mod_small e0 base) by lia.
    rewrite <- (Z.mod_add e0 (eval e)), (Z.mul_comm (eval e)), Hv2, Hv1 by lia.
    rewrite <- Hm. destruct (w64_eqm t) as (k1 & E1), (w64_eqm Bv) as (k2 & E2),
      (w64_eqm Nv) as (k3 & E3). unfold w64 in E1, E2, E3. rewrite E1, E2, E3.
    replace (t + k1 * base + (Bv + k2 * base) * u0 + (Nv + k3 * base) * u1)
      with (t + Bv * u0 + Nv * u1 + (k1 + k2 * u0 + k3 * u1) * base) by ring.
    now rewrite Z.mod_add by lia. }
  subst e0. assert (Hte : base * eval e = t + Bv * u0 + Nv * u1) by lia.
  assert (Hlt : eval e < Bv + Nv) by lia.
  assert (Hhi : eval e < bpow (n + 1)) by (rewrite bpow_add; change (bpow 1) with base; lia).
  rewrite length_skipn in *.
  assert (Hfi : length (firstn i T) = i) by (rewrite length_firstn; lia).
  runs_step runs_wr; [rewrite length_app, Hfi; simpl; lia|]. intros T1 ->.
  rewrite upd_list_app_r, Hfi, Nat.sub_diag by lia. cbn [upd_list].
  runs_step runs_wr; [rewrite length_app, Hfi; simpl; lia|]. intros T2 ->.
  rewrite upd_list_app_r, Hfi by lia. replace (S i + n + 1 - i)%nat with (S (n + 1)) by lia.
  cbn [upd_list]. set (e' := upd_list e (n + 1) 0).
  assert (He' : limbs e') by (apply Forall_upd_list; auto with limbs).
  assert (Hev : eval e' = eval e).
  { unfold e'. rewrite eval_upd_list, nth_high by (auto; lia). lia. }
  assert (Hle' : length e' = length e) by apply length_upd_list.
  assert (Hcut : forall x, firstn (S i) (firstn i T ++ x :: e') = firstn i T ++ [x] /\
                      skipn (S i) (firstn i T ++ x :: e') = e').
  { intros x. rewrite firstn_app, skipn_app, Hfi. replace (S i - i)%nat with 1%nat by lia.
    rewrite firstn_all2, (skipn_all2 (n := S i)) by lia. split; reflexivity. }
  eapply runs_post; [apply IH; [lia|]|].
  - destruct (Hcut u0) as [Hc1 Hc2]. unfold mont_inv. rewrite Hc1, Hc2, Hev.
    rewrite eval_firstn_S, eval_app, Hfi, Hlo, length_app, Hfi. cbn [eval length]. rewrite Hle'. fold u0.
    split; [apply Forall_app_i; [auto with limbs|constructor; auto]|].
    split; [lia|]. split; [ring|]. split; [fold Bv Nv; nia|].
    pose proof (bpow_pos i). rewrite bpow_S.
    exists (U + bpow i * u1). split; [nia|].
    replace (eval e * (base * bpow i)) with (base * eval e * bpow i) by ring.
    rewrite Hte. fold Bv Nv. nia.
  - intros T' [H1 H2]. split; [exact H1|]. rewrite H2, length_app, Hfi. simpl. lia.
Qed.
End MontLoop.

(** ** [mpi_montmul] *)

(** An odd modulus with its Montgomery constant. *)
Definition mont_mod (N : mpi) (mm : Z) : Prop :=
  mpi_wf N /\ (0 < mpi_n N)%nat /\ 0 < mag N /\ limb mm /\
  (nth 0 (mpi_p N) 0 * mm + 1) mod base = 0.

(** The Montgomery radix of [N]. *)
Definition mont_R (N : mpi) : Z := bpow (mpi_n N).

Lemma mag_lt_R N mm : mont_mod N mm -> mag N < mont_R N.
Proof. intros (HN & _). unfold mont_R, mag, mpi_n. apply eval_bounds. auto with limbs. Qed.

Lemma memcpy_runs d dst src k E :
  (k <= length dst)%nat -> (k <= length src)%nat ->
  runs d (memcpy dst src k) (fun r => r = firstn k src ++ skipn k dst) E.
Proof.
  intros H1 H2. unfold memcpy. rewrite (proj2 (Nat.leb_le _ _) H1), (proj2 (Nat.leb_le _ _) H2).
  now apply runs_ret.
Qed.

(** A difference of the low limbs that does not borrow. *)
Lemma mpi_sub_hlp_spec d k o p E :
  limbs o -> limbs p -> (k <= length o)%nat -> (k <= length p)%nat ->
  eval (firstn k o) <= eval p ->
  runs d (mpi_sub_hlp k o p)
    (fun p' => limbs p' /\ eval p' = eval p - eval (firstn k o) /\ length p' = length p) E.
Proof.
  intros Ho Hp Hk1 Hk2 Hle. unfold mpi_sub_hlp.
  eapply runs_post; [apply sub_loop_spec; auto; lia|].
  intros p' (H1 & H2 & H3). split; [exact H1|split; [lia|exact H3]].
Qed.

Lemma mont_inv_start a b nn k :
  limbs b -> 0 < eval nn -> (2 * length nn + 2 <= k)%nat ->
  mont_inv a b nn 0 (repeat 0 k).
Proof.
  intros Hb HN Hk. unfold mont_inv. rewrite !firstn_O, skipn_O, eval_zeros, repeat_length.
  pose proof (eval_nonneg b Hb). cbn [eval]. split; [auto with limbs|]. split; [lia|].
  split; [reflexivity|]. split; [lia|]. exists 0. rewrite bpow_0. lia.
Qed.

(** The scratch is large enough, and so is the destination. *)
Definition mont_room (A N T : mpi) : Prop :=
  (mpi_n N + 1 <= mpi_n A)%nat /\ (2 * mpi_n N + 2 <= mpi_n T)%nat.

(** [mpi_montmul] multiplies modulo [N] and divides by the radix; the
    accesses stay inside the arrays, those of the dummy subtraction too. *)
Lemma mpi_montmul_spec d A B N mm T E :
  mpi_wf A -> mpi_wf B -> mont_mod N mm -> mont_room A N T ->
  mag A < mont_R N -> mag B <= mag N -> (0 < mpi_n B)%nat ->
  runs d (mpi_montmul A B N mm T)
    (fun '(A', T') => mpi_wf A' /\ mpi_s A' = mpi_s A /\ mpi_n A' = mpi_n A /\
       mpi_n T' = mpi_n T /\ mag A' < mag N /\
       (mag A' * mont_R N) mod mag N = (mag A * mag B) mod mag N) E.
Proof.
  intros HA HB (HN & Hn & HmN & Hmm & Hinv) (HnA & HnT) HAR HBN HnB. unfold mpi_montmul.
  unfold mont_R, mpi_n in *. pose proof (eval_nonneg _ (mpi_wf_limbs B HB)) as HB0.
  eapply runs_bind.
  { apply mont_loop_spec; auto with limbs; try lia. apply mont_inv_start; auto with limbs; lia. }
  intros t ((Ht & _ & Hlo & Htb & U & HU & HtU) & Hlt). rewrite repeat_length in Hlt.
  set (n := length (mpi_p N)) in *. set (tn := eval (skipn n t)) in *.
  fold (mag B) (mag N) in *. rewrite (eval_firstn_small (mpi_p A)) in Hlo, HtU by (auto with limbs; exact HAR).
  fold (mag A) in Hlo, HtU. pose proof (mag_nonneg A HA) as HA0.
  assert (HNb : mag N < bpow n) by (apply eval_bounds; auto with limbs).
  runs_step memcpy_runs; [lia|rewrite length_skipn; lia|]. intros p ->.
  set (p := firstn (n + 1) (skipn n t) ++ skipn (n + 1) (mpi_p A)).
  assert (Hp : limbs p).
  { apply Forall_app_i; [apply Forall_firstn, Forall_skipn; exact Ht|apply Forall_skipn, HA]. }
  assert (Hlp : length p = length (mpi_p A)).
  { unfold p. rewrite length_app, length_firstn, !length_skipn. lia. }
  assert (Hep : eval p = tn).
  { unfold p. rewrite eval_app. rewrite eval_firstn_small, (eval_skipn_high (mpi_p A)); auto with limbs.
    - fold tn. lia.
    - apply Z.lt_le_trans with (bpow n); [exact HAR|apply bpow_mono; lia].
    - fold tn. rewrite bpow_add. change (bpow 1) with base. lia. }
  assert (Hres : (tn * bpow n) mod mag N = (mag A * mag B) mod mag N).
  { rewrite HtU. apply Z.mod_add. lia. }
  assert (HA1 : mpi_wf (Mpi (mpi_s A) p)) by (split; [apply HA|exact Hp]).
  rewrite cmp_abs_ge by auto. change (mag (Mpi (mpi_s A) p)) with (eval p). rewrite Hep.
  case_bool (mag N <=? tn).
  - runs_step mpi_sub_hlp_spec; auto with limbs; cbn [mpi_p]; try lia.
    { unfold n. rewrite firstn_all. fold (mag N). lia. }
    intros p' (Hp' & Hep' & Hlp'). apply runs_ret. unfold n in Hep'. rewrite firstn_all in Hep'.
    cbn [mpi_s mpi_p]. fold (mag N) in Hep'. unfold mag at 1 3, mpi_wf. cbn [mpi_s mpi_p].
    rewrite Hep', Hlp', Hep. split; [split; [apply HA|exact Hp']|].
    split; [reflexivity|]. split; [lia|]. split; [lia|]. split; [lia|].
    rewrite <- Hres. replace ((tn - mag N) * bpow n) with (tn * bpow n + (- bpow n) * mag N) by ring.
    apply Z.mod_add. lia.
  - runs_step mpi_sub_hlp_spec; auto with limbs; cbn [mpi_p]; try lia.
    { pose proof (eval_firstn_bounds p n Hp). pose proof (bpow_pos n).
      pose proof (eval_firstn_bounds t n Ht).
      pose proof (eval_firstn_skipn n t) as Hs. rewrite length_firstn, Nat.min_l in Hs by lia.
      fold tn in Hs. rewrite <- Hep in Hs.
      pose proof (eval_firstn_skipn n p) as Hs2. rewrite length_firstn, Nat.min_l in Hs2 by lia.
      pose proof (eval_nonneg (skipn n p) ltac:(auto with limbs)). nia. }
    intros t' (_ & _ & Hlt'). apply runs_ret. cbn [mpi_s mpi_p].
    change (mag (Mpi (mpi_s A) p)) with (eval p). rewrite Hep, Hlt'.
    split; [exact HA1|]. split; [reflexivity|]. split; [exact Hlp|].
    split; [lia|]. split; [lia|exact Hres].
Qed.

Lemma mpi_montred_spec d A N mm T E :
  mpi_wf A -> mont_mod N mm -> mont_room A N T -> mag A < mont_R N ->
  runs d (mpi_montred A N mm T)
    (fun '(A', T') => mpi_wf A' /\ mpi_s A' = mpi_s A /\ mpi_n A' = mpi_n A /\
       mpi_n T' = mpi_n T /\ mag A' < mag N /\
       (mag A' * mont_R N) mod mag N = mag A mod mag N) E.
Proof.
  intros HA HN Hroom HAR. pose proof HN as (_ & _ & HmN & _).
  assert (H1 : mpi_wf (Mpi 1 [1])) 
    by (split; [apply sign_ok_1|constructor; [unfold limb; lia|constructor]]).
  assert (Hm1 : mag (Mpi 1 [1]) = 1) by reflexivity.
  assert (HnU : (0 < mpi_n (Mpi 1 [1%Z]))%nat) by (unfold mpi_n; simpl; lia).
  eapply runs_post; [apply mpi_montmul_spec; auto; lia|].
  intros [A' T']. now rewrite Hm1, Z.mul_1_r.
Qed.
