(* ===== verification/MpiExp.v ===== *)
(** * Multi-precision integers: modular exponentiation

    [mpi_exp_mod] of [libsparkle/crypto/bignum.c]: the sliding-window
    exponentiation on Montgomery forms. *)
From Stdlib Require Import ZArith List Lia Bool Znumtheory.
Import ListNotations.
From S2P Require Import Prelude CMonad Limbs Mpi MpiAddSub MpiShift MpiMul MpiDiv.
From S2P Require Import MpiDivCorrect MpiMod MpiMont.
#[local] Open Scope Z_scope.
#[local] Open Scope cmonad_scope.

(** ** Operations *)

(** The array of numbers [mpi W[64]]. *)
Definition getW (W : list mpi) (i : nat) : M mpi :=
  match nth_error W i with Some x => ret x | None => ub end.
Definition putW (W : list mpi) (i : nat) (x : mpi) : M (list mpi) :=
  if (i <? length W)%nat then ret (firstn i W ++ x :: skipn (S i) W) else ub.

(** An element after [memset( W, 0, sizeof( W ) )]. *)
Definition mpi_zeroed : mpi := Mpi 0 [].

Section ExpMod.
Context (have_longlong : bool).

Definition window_size (i : Z) : Z :=
  if 671 <? i then 6 else if 239 <? i then 5 else if 79 <? i then 4 else if 23 <? i then 3 else 1.

(** [for( i = 0; i < k; i++ ) mpi_montmul( X, X, N, mm, &T );] *)
Fixpoint square_times (k : nat) (X N : mpi) (mm : Z) (T : mpi) : M (mpi * mpi) :=
  match k with
  | O => ret (X, T)
  | S k' =>
      '(X, T) <- mpi_montmul X X N mm T;;
      square_times k' X N mm T
  end.

(** [W[i] = W[i - 1] * W[1]] for [k] elements from [i] up. *)
Fixpoint fill_window (k i : nat) (W : list mpi) (N : mpi) (mm : Z) (T : mpi)
    : M (list mpi * mpi) :=
  match k with
  | O => ret (W, T)
  | S k' =>
      w <- getW W i;;
      w <- mpi_grow w (mpi_n N + 1);;
      prev <- getW W (i - 1);;
      w <- mpi_copy w (Var prev);;
      w1 <- getW W 1;;
      '(w, T) <- mpi_montmul w w1 N mm T;;
      W <- putW W i w;;
      fill_window k' (S i) W N mm T
  end.

Definition make_window (wsize : Z) (W : list mpi) (N : mpi) (mm : Z) (T : mpi)
    : M (list mpi * mpi) :=
  if 1 <? wsize then
    let j := Z.to_nat (Z.shiftl 1 (wsize - 1)) in
    w <- getW W j;;
    w <- mpi_grow w (mpi_n N + 1);;
    w1 <- getW W 1;;
    w <- mpi_copy w (Var w1);;
    '(w, T) <- square_times (Z.to_nat (wsize - 1)) w N mm T;;
    W <- putW W j w;;
    fill_window (j - 1) (S j) W N mm T
  else ret (W, T).

(** The variables of the main loop. *)
Record exp_state := ExpState
  { es_X : mpi; es_T : mpi; es_state : Z; es_nbits : Z; es_wbits : Z }.

(** One bit [ei] of the exponent. *)
Definition exp_bit (wsize : Z) (W : list mpi) (N : mpi) (mm : Z) (ei : Z) (st : exp_state)
    : M exp_state :=
  if (ei =? 0) && (es_state st =? 0) then ret st
  else if (ei =? 0) && (es_state st =? 1) then
    '(X, T) <- mpi_montmul (es_X st) (es_X st) N mm (es_T st);;
    ret (ExpState X T (es_state st) (es_nbits st) (es_wbits st))
  else
    let nbits := es_nbits st + 1 in
    let wbits := Z.lor (es_wbits st) (Z.shiftl ei (wsize - nbits)) in
    if nbits =? wsize then
      '(X, T) <- square_times (Z.to_nat wsize) (es_X st) N mm (es_T st);;
      w <- getW W (Z.to_nat wbits);;
      '(X, T) <- mpi_montmul X w N mm T;;
      ret (ExpState X T 1 0 0)
    else ret (ExpState (es_X st) (es_T st) 2 nbits wbits).

(** The [bufsize] low bits of the limb [x], from the highest down. *)
Fixpoint exp_limb (bufsize : nat) (x : Z) (wsize : Z) (W : list mpi) (N : mpi) (mm : Z)
    (st : exp_state) : M exp_state :=
  match bufsize with
  | O => ret st
  | S b =>
      st <- exp_bit wsize W N mm (Z.land (Z.shiftr x (Z.of_nat b)) 1) st;;
      exp_limb b x wsize W N mm st
  end.

(** The limbs of the exponent, from the top one down. *)
Fixpoint exp_limbs (nblimbs : nat) (p : list Z) (wsize : Z) (W : list mpi) (N : mpi) (mm : Z)
    (st : exp_state) : M exp_state :=
  match nblimbs with
  | O => ret st
  | S k =>
      x <- rd p k;;
      st <- exp_limb (Z.to_nat biL) x wsize W N mm st;;
      exp_limbs k p wsize W N mm st
  end.

(** The bits that are left in the window. *)
Fixpoint exp_rest (k : nat) (wsize : Z) (w1 N : mpi) (mm : Z) (X T : mpi) (wbits : Z)
    : M (mpi * mpi) :=
  match k with
  | O => ret (X, T)
  | S k' =>
      '(X, T) <- mpi_montmul X X N mm T;;
      let wbits := Z.shiftl wbits 1 in
      if negb (Z.land wbits (Z.shiftl 1 wsize) =? 0) then
        '(X, T) <- mpi_montmul X w1 N mm T;;
        exp_rest k' wsize w1 N mm X T wbits
      else exp_rest k' wsize w1 N mm X T wbits
  end.

(** [R^2 mod N], from the caller's cache when it is filled. *)
Definition exp_RR (N : mpi) (_RR : option mpi) : M mpi :=
  match _RR with
  | Some (Mpi s (x :: p)) => ret (Mpi s (x :: p))
  | _ =>
      RR <- mpi_lset mpi_init 1;;
      RR <- mpi_shift_l RR (Z.of_nat (mpi_n N) * 2 * biL);;
      mpi_mod_mpi have_longlong RR Self (Var N)
  end.

(** From the reduced base in [W[1]] and [R^2 mod N] to the power. *)
Definition exp_core (wsize : Z) (X w1 RR E N : mpi) (mm : Z) (T : mpi) : M mpi :=
  '(w1, T) <- mpi_montmul w1 RR N mm T;;
  X <- mpi_copy X (Var RR);;
  '(X, T) <- mpi_montred X N mm T;;
  W <- putW (repeat mpi_zeroed 64) 1 w1;;
  '(W, T) <- make_window wsize W N mm T;;
  st <- exp_limbs (mpi_n E) (mpi_p E) wsize W N mm (ExpState X T 0 0 0);;
  w1 <- getW W 1;;
  '(X, T) <- exp_rest (Z.to_nat (es_nbits st)) wsize w1 N mm (es_X st) (es_T st)
               (es_wbits st);;
  '(X, T) <- mpi_montred X N mm T;;
  ret X.

(** [X = A^E mod N]; the result is [X] and the cache. *)
Definition mpi_exp_mod (X : mpi) (A : arg) (E N : mpi) (_RR : option mpi)
    : M (mpi * option mpi) :=
  even <- (if mpi_cmp_int N 0 <? 0 then ret true
           else x <- rd (mpi_p N) 0;; ret (Z.land x 1 =? 0));;
  if even then throw POLARSSL_ERR_MPI_BAD_INPUT_DATA
  else
    mm <- mpi_montg_init N;;
    i <- mpi_msb E;;
    let wsize := window_size i in
    let j := (mpi_n N + 1)%nat in
    X <- mpi_grow X j;;
    w1 <- mpi_grow mpi_zeroed j;;
    T <- mpi_grow mpi_init (j * 2);;
    RR <- exp_RR N _RR;;
    w1 <- (if 0 <=? mpi_cmp_mpi (deref X A) N
           then unchecked w1 (mpi_mod_mpi have_longlong w1 (Var (deref X A)) (Var N))
           else unchecked w1 (mpi_copy w1 (Var (deref X A))));;
    X <- exp_core wsize X w1 RR E N mm T;;
    ret (X, match _RR with Some _ => Some RR | None => None end).
End ExpMod.

(** ** Montgomery forms *)

Lemma bpow_pow2_nat k : bpow k = 2 ^ Z.of_nat (64 * k).
Proof. rewrite bpow_pow2. f_equal. lia. Qed.

(** ** The table *)

Lemma getW_runs d W i E :
  (i < length W)%nat -> runs d (getW W i) (fun x => x = nth i W mpi_init) E.
Proof.
  intros Hi. unfold getW. rewrite (nth_error_nth' W mpi_init Hi). now apply runs_ret.
Qed.

Lemma putW_runs d W i x E :
  (i < length W)%nat ->
  runs d (putW W i x)
    (fun W' => length W' = length W /\ nth i W' mpi_init = x /\
       forall j, j <> i -> nth j W' mpi_init = nth j W mpi_init) E.
Proof.
  intros Hi. unfold putW. rewrite (proj2 (Nat.ltb_lt _ _)) by auto. apply runs_ret.
  assert (Hf : length (firstn i W) = i) by (rewrite length_firstn; lia).
  split; [rewrite length_app, Hf; cbn [length]; rewrite length_skipn; lia|].
  split; [rewrite app_nth2, Hf, Nat.sub_diag by lia; reflexivity|].
  intros j Hj. destruct (Nat.lt_ge_cases j i).
  - rewrite app_nth1 by lia. rewrite nth_firstn. now rewrite (proj2 (Nat.ltb_lt _ _)).
  - rewrite app_nth2, Hf by lia. destruct (j - i)%nat as [|q] eqn:Eq; [lia|]. cbn [nth].
    rewrite nth_skipn. f_equal. lia.
Qed.

Section Forms.
Context (N : mpi) (mm a : Z) (HN : mont_mod N mm) (Hodd : mag N mod 2 = 1).
Let R := mont_R N.
Let n := mpi_n N.

Lemma N_pos : 0 < mag N.
Proof using HN. apply HN. Qed.

(** The radix is invertible modulo an odd [N]. *)
Lemma R_cancel x y : (x * R) mod mag N = (y * R) mod mag N -> x mod mag N = y mod mag N.
Proof using All.
  intros H. pose proof N_pos as HNp.
  assert (Hd : (mag N | (x - y) * R)).
  { apply Z.mod_divide; [lia|]. rewrite Z.mul_sub_distr_r, Zminus_mod, H, Z.sub_diag.
    apply Z.mod_0_l. lia. }
  unfold R, mont_R in Hd. rewrite bpow_pow2_nat in Hd. apply odd_cancel in Hd; auto. destruct Hd as (c & Hc).
  replace x with (y + c * mag N) by lia. apply Z.mod_add. lia.
Qed.

(** [X] holds [a^e * R mod N], with room for the products. *)
Definition form (e : Z) (X : mpi) : Prop :=
  mpi_wf X /\ mpi_s X = 1 /\ (n + 1 <= mpi_n X)%nat /\ mag X < mag N /\
  mag X mod mag N = (a ^ e * R) mod mag N.

Definition room (T : mpi) : Prop := (2 * n + 2 <= mpi_n T)%nat.

Lemma form_mul d X Y T i j E :
  0 <= i -> 0 <= j -> form i X -> form j Y -> room T ->
  runs d (mpi_montmul X Y N mm T) (fun '(X', T') => form (i + j) X' /\ room T') E.
Proof using All.
  intros Hi Hj (HX & HsX & HnX & HlX & HmX) (HY & HsY & HnY & HlY & HmY) HT.
  pose proof (mag_lt_R N mm HN). pose proof N_pos.
  eapply runs_post; [apply mpi_montmul_spec; auto; try (unfold n in *; lia)|].
  { split; auto. }
  intros [X' T'] (HX' & Hs' & Hn' & HnT' & Hl' & Hm'). unfold form, room in *.
  split; [|lia]. split; [exact HX'|]. split; [congruence|]. split; [lia|]. split; [exact Hl'|].
  apply R_cancel. fold R in Hm'. rewrite Hm', Z.mul_mod, HmX, HmY, <- Z.mul_mod by lia.
  rewrite Z.pow_add_r by auto. f_equal. ring.
Qed.

Lemma form_square d k X T i E :
  0 <= i -> form i X -> room T ->
  runs d (square_times k X N mm T)
    (fun '(X', T') => form (i * 2 ^ Z.of_nat k) X' /\ room T') E.
Proof using All.
  revert X T i; induction k as [|k IH]; intros X T i Hi HX HT; cbn [square_times].
  - apply runs_ret. change (2 ^ Z.of_nat 0) with 1. now rewrite Z.mul_1_r.
  - runs_step form_mul; [| |exact HX|exact HX|exact HT|]; auto. intros [X1 T1] [HX1 HT1].
    eapply runs_post; [apply IH; [|exact HX1|exact HT1]; lia|]. intros [X2 T2] H.
    rewrite Nat2Z.inj_succ, Z.pow_succ_r by lia.
    replace (i * (2 * 2 ^ Z.of_nat k)) with ((i + i) * 2 ^ Z.of_nat k) by ring. exact H.
Qed.

(** A copy of a form, as the window is filled with. *)
Lemma grow_room d w E :
  runs d (mpi_grow w (n + 1)) (fun w' => (n + 1 <= mpi_n w')%nat) E.
Proof.
  eapply runs_post; [apply mpi_grow_runs|]. intros w' [_ Hp'].
  unfold mpi_n at 1. rewrite Hp', length_app, repeat_length. unfold mpi_n. lia.
Qed.

Lemma form_copy d w Y i E :
  (n + 1 <= mpi_n w)%nat -> form i Y ->
  runs d (mpi_copy w (Var Y)) (fun X => form i X) E.
Proof.
  intros Hw (HwY & HsY & HnY & HlY & HmY).
  eapply runs_post; [apply mpi_copy_spec; exact HwY|]. simpl deref.
  intros X (HX & Hm & Hs & Hn). unfold form. rewrite Hm, Hs, Hn.
  split; [exact HX|]. split; [exact HsY|]. split; [lia|auto].
Qed.

(** ** The window *)

(** [W] holds the first power and those from [j] to [k - 1]. *)
Definition window_ok (W : list mpi) (j k : nat) : Prop :=
  length W = 64%nat /\ form 1 (nth 1 W mpi_init) /\
  forall i, (j <= i < k)%nat -> form (Z.of_nat i) (nth i W mpi_init).

Lemma fill_window_spec d k i j W T E :
  (1 <= j < i)%nat -> (i + k <= 64)%nat -> window_ok W j i -> room T ->
  runs d (fill_window k i W N mm T)
    (fun '(W', T') => window_ok W' j (i + k) /\ room T') E.
Proof using All.
  revert i W T; induction k as [|k IH]; intros i W T Hj Hk (HlW & H1 & HW) HT;
    cbn [fill_window].
  - apply runs_ret. rewrite Nat.add_0_r. split; [|exact HT]. split; auto.
  - runs_step getW_runs; [lia|]. intros w ->.
    eapply runs_bind; [apply grow_room|]. intros w Hw.
    runs_step getW_runs; [lia|]. intros ? ->.
    runs_step form_copy; [exact Hw|apply HW; lia|]. intros w2 Hw2.
    runs_step getW_runs; [lia|]. intros ? ->.
    runs_step form_mul; [| |exact Hw2|exact H1|exact HT|]; [lia..|].
    intros [w3 T3] [Hw3 HT3].
    replace (Z.of_nat (i - 1) + 1) with (Z.of_nat i) in Hw3 by lia.
    runs_step putW_runs; [lia|]. intros W' (HlW' & Hi' & Hne').
    replace (i + S k)%nat with (S i + k)%nat by lia.
    apply IH; [lia|lia| |exact HT3].
    split; [lia|]. split; [rewrite Hne' by lia; exact H1|].
    intros i' Hi''. destruct (Nat.eq_dec i' i) as [->|Hne]; [now rewrite Hi'|].
    rewrite Hne' by auto. apply HW. lia.
Qed.

Definition win_lo (wsize : Z) : nat := Z.to_nat (2 ^ (wsize - 1)).

Lemma make_window_spec d wsize W T E :
  1 <= wsize <= 6 -> length W = 64%nat -> form 1 (nth 1 W mpi_init) -> room T ->
  runs d (make_window wsize W N mm T)
    (fun '(W', T') => window_ok W' (win_lo wsize) (2 * win_lo wsize) /\ room T') E.
Proof using All.
  intros Hw HlW H1 HT. unfold make_window, win_lo.
  case_bool (1 <? wsize).
  - rewrite Z.shiftl_mul_pow2, Z.mul_1_l by lia.
    assert (Hj : 2 <= 2 ^ (wsize - 1) <= 32).
    { pose proof (Z.pow_le_mono_r 2 1 (wsize - 1) ltac:(lia) ltac:(lia)).
      pose proof (Z.pow_le_mono_r 2 (wsize - 1) 5 ltac:(lia) ltac:(lia)).
      change (2 ^ 1) with 2 in *. change (2 ^ 5) with 32 in *. lia. }
    set (j := Z.to_nat (2 ^ (wsize - 1))).
    runs_step getW_runs; [lia|]. intros w ->.
    eapply runs_bind; [apply grow_room|]. intros w Hw'.
    runs_step getW_runs; [lia|]. intros ? ->.
    runs_step form_copy; [exact Hw'|exact H1|]. intros w2 Hw2.
    runs_step form_square; [|exact Hw2|exact HT|]; [lia|]. intros [w3 T3] [Hw3 HT3].
    runs_step putW_runs; [lia|]. intros W' (HlW' & Hj' & Hne').
    replace (2 * j)%nat with (S j + (j - 1))%nat by lia.
    apply fill_window_spec; [lia|lia| |exact HT3].
    split; [lia|]. split; [rewrite Hne' by lia; exact H1|].
    intros i Hi. replace i with j by lia. rewrite Hj'.
    replace (Z.of_nat j) with (1 * 2 ^ Z.of_nat (Z.to_nat (wsize - 1))); [exact Hw3|].
    unfold j. rewrite !Z2Nat.id by lia. lia.
  - apply runs_ret. replace wsize with 1 by lia. split; [|exact HT].
    change (Z.to_nat (2 ^ (1 - 1))) with 1%nat. split; [exact HlW|]. split; [exact H1|].
    intros i Hi. replace i with 1%nat by lia. exact H1.
Qed.
(** ** The main loop *)

Section Loop.
Context (wsize : Z) (W : list mpi) (Hw : 1 <= wsize <= 6)
        (HW : window_ok W (win_lo wsize) (2 * win_lo wsize)).

(** The exponent bits read so far are those of [v]; the last of them may
    still be in the window. *)
Inductive exp_inv (v : Z) (st : exp_state) : Prop :=
| inv_skip : v = 0 -> es_state st = 0 -> es_nbits st = 0 -> es_wbits st = 0 ->
    form 0 (es_X st) -> exp_inv v st
| inv_out : es_state st = 1 -> es_nbits st = 0 -> es_wbits st = 0 -> 0 <= v ->
    form v (es_X st) -> exp_inv v st
| inv_window e u : es_state st = 2 -> 0 <= e -> form e (es_X st) ->
    0 < es_nbits st < wsize -> es_wbits st = u * 2 ^ (wsize - es_nbits st) ->
    2 ^ (es_nbits st - 1) <= u < 2 ^ es_nbits st -> v = e * 2 ^ es_nbits st + u ->
    exp_inv v st.

Lemma window_form u :
  2 ^ (wsize - 1) <= u < 2 ^ wsize ->
  (Z.to_nat u < length W)%nat /\ form u (nth (Z.to_nat u) W mpi_init).
Proof using All.
  intros Hu. destruct HW as (HlW & _ & HWi). unfold win_lo in HWi.
  assert (Hp : 2 ^ wsize = 2 * 2 ^ (wsize - 1)).
  { rewrite <- Z.pow_succ_r by lia. f_equal. lia. }
  pose proof (Z.pow_le_mono_r 2 wsize 6 ltac:(lia) ltac:(lia)) as H64. change (2 ^ 6) with 64 in H64.
  assert (H0 : 0 < 2 ^ (wsize - 1)) by (apply Z.pow_pos_nonneg; lia).
  split; [lia|]. pose proof (HWi (Z.to_nat u)) as H. rewrite Z2Nat.id in H by lia. apply H. lia.
Qed.

(** A bit that enters the window. *)
Lemma exp_bit_window d ei st e u E :
  0 <= e -> form e (es_X st) -> room (es_T st) -> 0 <= es_nbits st < wsize ->
  es_wbits st = u * 2 ^ (wsize - es_nbits st) -> 0 <= ei <= 1 ->
  2 ^ es_nbits st <= 2 * u + ei < 2 * 2 ^ es_nbits st ->
  (ei =? 0) && (es_state st =? 0) = false -> (ei =? 0) && (es_state st =? 1) = false ->
  runs d (exp_bit wsize W N mm ei st)
    (fun st' => exp_inv (2 * (e * 2 ^ es_nbits st + u) + ei) st' /\ room (es_T st')) E.
Proof using All.
  intros He HX HT Hnb Hwb Hei Hu Hc1 Hc2. unfold exp_bit. rewrite Hc1, Hc2. cbv zeta.
  set (nb := es_nbits st) in *.
  assert (Hk : 0 < 2 ^ (wsize - (nb + 1))) by (apply Z.pow_pos_nonneg; lia).
  assert (Hlor : Z.lor (es_wbits st) (Z.shiftl ei (wsize - (nb + 1)))
                 = (2 * u + ei) * 2 ^ (wsize - (nb + 1))).
  { rewrite Hwb, Z.shiftl_mul_pow2 by lia.
    replace (wsize - nb) with (Z.succ (wsize - (nb + 1))) by lia. rewrite Z.pow_succ_r by lia.
    set (p := 2 ^ (wsize - (nb + 1))) in *.
    replace (u * (2 * p)) with (u * 2 ^ Z.succ (wsize - (nb + 1)))
      by (rewrite Z.pow_succ_r by lia; fold p; ring).
    rewrite lor_disjoint; [|lia|]; rewrite Z.pow_succ_r by lia; fold p; [ring|nia]. }
  rewrite Hlor. assert (Hp2 : 2 ^ (nb + 1) = 2 * 2 ^ nb) by (rewrite Z.pow_add_r by lia; lia).
  case_bool (nb + 1 =? wsize).
  - replace (wsize - (nb + 1)) with 0 by lia. rewrite Z.pow_0_r, Z.mul_1_r.
    runs_step form_square; [|exact HX|exact HT|]; [lia|]. intros [X1 T1] [HX1 HT1].
    rewrite Z2Nat.id in HX1 by lia.
    destruct (window_form (2 * u + ei)) as [Hl Hf].
    { replace (wsize - 1) with nb by lia. replace wsize with (nb + 1) by lia. lia. }
    runs_step getW_runs; [exact Hl|]. intros w ->.
    assert (H0w : 0 < 2 ^ wsize) by (apply Z.pow_pos_nonneg; lia).
    runs_step form_mul; [| |exact HX1|exact Hf|exact HT1|]; [nia|lia|].
    intros [X2 T2] [HX2 HT2]. apply runs_ret. split; [|exact HT2].
    replace (2 * (e * 2 ^ nb + u) + ei) with (e * 2 ^ wsize + (2 * u + ei))
      by (replace wsize with (nb + 1) by lia; rewrite Hp2; ring).
    apply inv_out; auto. nia.
  - apply runs_ret. split; [|exact HT]. apply inv_window with e (2 * u + ei); simpl; auto; try lia.
    rewrite Hp2; replace (nb + 1 - 1) with nb by lia; lia.
Qed.

Lemma exp_bit_spec d ei v st E :
  0 <= ei <= 1 -> exp_inv v st -> room (es_T st) ->
  runs d (exp_bit wsize W N mm ei st)
    (fun st' => exp_inv (2 * v + ei) st' /\ room (es_T st')) E.
Proof using All.
  intros Hei [Hv Hs Hn Hwb HX|Hs Hn Hwb Hv HX|e u Hs He HX Hnb Hwb Hu Hv] HT.
  - destruct (Z.eq_dec ei 0) as [->|].
    + unfold exp_bit. rewrite Hs. simpl. apply runs_ret. split; [|exact HT].
      subst v. now apply inv_skip.
    + replace (2 * v + ei) with (2 * (0 * 2 ^ es_nbits st + 0) + ei) by lia.
      apply exp_bit_window; rewrite ?Hn, ?Hwb, ?Hs; auto; simpl; try lia;
        destruct (ei =? 0) eqn:?; auto; lia.
  - destruct (Z.eq_dec ei 0) as [->|].
    + unfold exp_bit. rewrite Hs. simpl.
      runs_step form_mul; [| |exact HX|exact HX|exact HT|]; auto.
      intros [X1 T1] [HX1 HT1]. apply runs_ret. split; [|exact HT1].
      replace (2 * v + 0) with (v + v) by lia. apply inv_out; simpl; auto; lia.
    + replace (2 * v + ei) with (2 * (v * 2 ^ es_nbits st + 0) + ei)
        by (rewrite Hn, Z.pow_0_r; lia).
      apply exp_bit_window; rewrite ?Hn, ?Hwb, ?Hs; auto; simpl; try lia;
        destruct (ei =? 0) eqn:?; auto; lia.
  - rewrite Hv. apply exp_bit_window; auto; try lia.
    + assert (2 ^ es_nbits st = 2 * 2 ^ (es_nbits st - 1))
        by (rewrite <- Z.pow_succ_r by lia; f_equal; lia). lia.
Qed.

Lemma exp_limb_spec d b x v st E :
  0 <= x -> exp_inv v st -> room (es_T st) ->
  runs d (exp_limb b x wsize W N mm st)
    (fun st' => exp_inv (v * 2 ^ Z.of_nat b + x mod 2 ^ Z.of_nat b) st' /\ room (es_T st')) E.
Proof using All.
  intros Hx. revert v st; induction b as [|b IH]; intros v st Hv HT; cbn [exp_limb].
  - apply runs_ret. change (2 ^ Z.of_nat 0) with 1. rewrite Z.mod_1_r.
    now replace (v * 1 + 0) with v by lia.
  - rewrite land_shiftr_1 by lia. set (ei := (x / 2 ^ Z.of_nat b) mod 2).
    pose proof (Z.mod_pos_bound (x / 2 ^ Z.of_nat b) 2 ltac:(lia)) as Hei. fold ei in Hei.
    runs_step exp_bit_spec; [|exact Hv|exact HT|]; [lia|]. intros st1 [Hv1 HT1].
    eapply runs_post; [apply IH; [exact Hv1|exact HT1]|]. intros st2 [Hv2 HT2].
    split; [|exact HT2].
    replace (v * 2 ^ Z.of_nat (S b) + x mod 2 ^ Z.of_nat (S b))
      with ((2 * v + ei) * 2 ^ Z.of_nat b + x mod 2 ^ Z.of_nat b); [exact Hv2|].
    rewrite Nat2Z.inj_succ, Z.pow_succ_r by lia.
    assert (0 < 2 ^ Z.of_nat b) by (apply Z.pow_pos_nonneg; lia).
    rewrite (Z.mul_comm 2 (2 ^ _)), (Z.rem_mul_r x) by lia. fold ei. ring.
Qed.

Lemma exp_limbs_spec d k p v st E :
  limbs p -> (k <= length p)%nat -> exp_inv v st -> room (es_T st) ->
  runs d (exp_limbs k p wsize W N mm st)
    (fun st' => exp_inv (v * bpow k + eval (firstn k p)) st' /\ room (es_T st')) E.
Proof using All.
  intros Hp. revert v st; induction k as [|k IH]; intros v st Hk Hv HT; cbn [exp_limbs].
  - apply runs_ret. rewrite bpow_0, firstn_O. cbn [eval].
    now replace (v * 1 + 0) with v by lia.
  - runs_step runs_rd; [lia|]. intros ? ->.
    pose proof (nth_limb p k Hp) as Hl. unfold limb in Hl.
    runs_step exp_limb_spec; [|exact Hv|exact HT|]; [lia|]. intros st1 [Hv1 HT1].
    change (2 ^ Z.of_nat (Z.to_nat 64)) with base in Hv1. rewrite Z.mod_small in Hv1 by lia.
    eapply runs_post; [apply IH; [lia|exact Hv1|exact HT1]|]. intros st2 [Hv2 HT2].
    split; [|exact HT2]. rewrite eval_firstn_S, bpow_S.
    replace (v * (base * bpow k) + (eval (firstn k p) + bpow k * nth k p 0))
      with ((v * base + nth k p 0) * bpow k + eval (firstn k p)) by ring. exact Hv2.
Qed.

(** The bits left in the window: [k] of them are still to be used. *)
Lemma exp_rest_spec d k w1 X T e u E :
  (Z.of_nat k <= wsize) -> form 1 w1 -> 0 <= e -> form e X -> room T -> 0 <= u < 2 ^ Z.of_nat k ->
  forall h, 0 <= h ->
  runs d (exp_rest k wsize w1 N mm X T ((h * 2 ^ Z.of_nat k + u) * 2 ^ (wsize - Z.of_nat k)))
    (fun '(X', T') => form (e * 2 ^ Z.of_nat k + u) X' /\ room T') E.
Proof using All.
  intros Hk H1. revert X T e u. induction k as [|k IH]; intros X T e u He HX HT Hu h Hh;
    cbn [exp_rest].
  - apply runs_ret. change (2 ^ Z.of_nat 0) with 1 in *.
    now replace (e * 1 + u) with e by lia.
  - runs_step form_mul; [| |exact HX|exact HX|exact HT|]; auto. intros [X1 T1] [HX1 HT1].
    rewrite Nat2Z.inj_succ in *. rewrite Z.pow_succ_r in * by lia.
    set (q := 2 ^ Z.of_nat k) in *. assert (Hq : 0 < q) by (apply Z.pow_pos_nonneg; lia).
    assert (Hb : exists b u', 0 <= b <= 1 /\ 0 <= u' < q /\ u = b * q + u').
    { exists (u / q), (u mod q). pose proof (Z.mod_pos_bound u q Hq).
      pose proof (Z.div_mod u q ltac:(lia)).
      assert (0 <= u / q < 2) by (split; [apply Z.div_pos; lia|apply Z.div_lt_upper_bound; lia]).
      lia. }
    destruct Hb as (b & u' & Hb & Hu' & ->).
    set (wb := Z.shiftl _ 1).
    assert (Hwb : wb = ((2 * h + b) * q + u') * 2 ^ (wsize - Z.of_nat k)).
    { unfold wb. rewrite Z.shiftl_mul_pow2 by lia. change (2 ^ 1) with 2.
      replace (wsize - Z.of_nat k) with (Z.succ (wsize - Z.succ (Z.of_nat k))) by lia.
      rewrite Z.pow_succ_r by lia. ring. }
    assert (Hbit : Z.testbit wb wsize = (b =? 1)).
    { rewrite Hwb, Z.mul_pow2_bits by lia. replace (wsize - (wsize - Z.of_nat k)) with (Z.of_nat k) by lia.
      rewrite Z.testbit_odd, Z.shiftr_div_pow2 by lia. fold q.
      rewrite Z.div_add_l, Z.div_small, Z.add_0_r by lia.
      assert (b = 0 \/ b = 1) as [->| ->] by lia; rewrite Z.odd_add_mul_2 || idtac.
      + replace (2 * h + 0) with (0 + 2 * h) by lia. now rewrite Z.odd_add_mul_2.
      + replace (2 * h + 1) with (1 + 2 * h) by lia. now rewrite Z.odd_add_mul_2. }
    assert (Hland : (Z.land wb (Z.shiftl 1 wsize) =? 0) = negb (b =? 1)).
    { rewrite <- Hbit, Z.shiftl_1_l, land_pow2 by lia. destruct (Z.testbit wb wsize); [|reflexivity].
      apply Z.eqb_neq. assert (0 < 2 ^ wsize) by (apply Z.pow_pos_nonneg; lia). simpl. lia. }
    rewrite Hland, negb_involutive, Hwb.
    assert (b = 0 \/ b = 1) as [->| ->] by lia; cbn [Z.eqb Pos.eqb].
    + eapply runs_post; [apply IH; [lia| |exact HX1|exact HT1|exact Hu'|]; lia|].
      intros [X2 T2] [HX2 HT2]. split; [|exact HT2].
      replace (e * (2 * q) + (0 * q + u')) with ((e + e) * q + u') by ring. exact HX2.
    + runs_step form_mul; [| |exact HX1|exact H1|exact HT1|]; [lia..|].
      intros [X2 T2] [HX2 HT2].
      eapply runs_post; [apply IH; [lia| |exact HX2|exact HT2|exact Hu'|]; lia|].
      intros [X3 T3] [HX3 HT3]. split; [|exact HT3].
      replace (e * (2 * q) + (1 * q + u')) with ((e + e + 1) * q + u') by ring. exact HX3.
Qed.
End Loop.
End Forms.

(** ** [mpi_exp_mod] *)

(** The cache: absent, empty, or filled with [R^2 mod N]. *)
Definition rr_ok (N : mpi) (rr : mpi) : Prop :=
  mpi_wf rr /\ mpi_s rr = 1 /\ (0 < mpi_n rr)%nat /\ mag rr < mag N /\
  mag rr mod mag N = (mont_R N * mont_R N) mod mag N.

Definition cache_ok (N : mpi) (_RR : option mpi) : Prop :=
  match _RR with Some rr => mpi_p rr <> [] -> rr_ok N rr | None => True end.

Section ExpModSpec.
Context (hl : bool).

Lemma exp_RR_spec N rr :
  mpi_wf N -> 0 < val N -> (0 < mpi_n N)%nat -> cache_ok N rr -> est_good hl (norm_limb (mag N)) ->
  runs NoFail (exp_RR hl N rr) (fun RR => rr_ok N RR) no_err.
Proof.
  intros HN HvN HnN Hc Hest. assert (HmN : val N = mag N) by (apply val_nonneg_mag; auto; lia).
  assert (Hfresh : runs NoFail (RR <- mpi_lset mpi_init 1;;
      RR <- mpi_shift_l RR (Z.of_nat (mpi_n N) * 2 * biL);; mpi_mod_mpi hl RR Self (Var N))
      (fun RR => rr_ok N RR) no_err).
  { runs_step mpi_lset_spec; [lia|]. intros r (Hr & Hvr & Hnr & Hsr & _).
    assert (Hmr : mag r = 1) by (rewrite <- val_nonneg_mag; auto; lia).
    runs_step mpi_shift_l_spec; auto; [lia|lia|]. intros r1 (Hr1 & Hm1 & Hs1 & Hn1).
    assert (HR2 : mag r1 = mont_R N * mont_R N).
    { rewrite Hm1, Hmr, Z.mul_1_l. unfold mont_R. rewrite bpow_pow2, <- Z.pow_add_r by lia.
      f_equal. lia. }
    assert (Hpos : 0 < mont_R N) by apply bpow_pos.
    assert (Hv1 : val r1 = mag r1) by (unfold val; rewrite Hs1, Hsr; simpl; lia).
    assert (Hrange : 0 < mag r1) by (rewrite HR2; nia).
    eapply runs_post; [apply mpi_mod_mpi_spec; auto; simpl; try lia; intros Hz; lia|].
    intros RR (HRR & Hv & Hs & Hn). simpl deref in Hv. rewrite Hv1, HmN, HR2 in Hv.
    pose proof (Z.mod_pos_bound (mont_R N * mont_R N) (mag N) ltac:(lia)) as Hb.
    assert (HmRR : mag RR = (mont_R N * mont_R N) mod mag N)
      by (rewrite <- Hv; symmetry; apply val_nonneg_mag; auto; lia).
    split; [exact HRR|]. split; [exact Hs|]. split; [|split; [lia|]].
    - lia.
    - rewrite HmRR. apply Z.mod_mod. lia. }
  unfold exp_RR. destruct rr as [[s [|x p]]|]; [exact Hfresh| |exact Hfresh].
  apply runs_ret. apply Hc. discriminate.
Qed.
(** [W[1]]: the base reduced modulo [N]. *)
Lemma exp_base_spec w A N :
  mpi_wf A -> canon A -> 0 <= val A -> mpi_wf N -> 0 < val N -> mpi_n w = (mpi_n N + 1)%nat ->
  est_good hl (norm_limb (mag N)) ->
  runs NoFail (if 0 <=? mpi_cmp_mpi A N
               then unchecked w (mpi_mod_mpi hl w (Var A) (Var N))
               else unchecked w (mpi_copy w (Var A)))
    (fun w' => mpi_wf w' /\ mpi_s w' = 1 /\ mag w' = mag A mod mag N /\
               (mpi_n N + 1 <= mpi_n w')%nat) no_err.
Proof.
  intros HA HcA HvA HN HvN Hw Hest.
  assert (HmN : val N = mag N) by (apply val_nonneg_mag; auto; lia).
  assert (HmA : val A = mag A) by (apply val_nonneg_mag; auto).
  pose proof (canon_sign A HA HcA HvA) as HsA. pose proof (pos_sign N HN HvN) as HsN.
  rewrite mpi_cmp_mpi_spec by (auto; left; congruence). rewrite HmN, HmA.
  assert (Hcmp : (0 <=? cmp_sign (mag A ?= mag N)) = (mag N <=? mag A)).
  { destruct (Z.compare_spec (mag A) (mag N)); simpl; symmetry; rewrite ?Z.leb_le, ?Z.leb_gt; lia. }
  rewrite Hcmp. case_bool (mag N <=? mag A).
  - apply runs_unchecked. eapply runs_post; [apply mpi_mod_mpi_spec; auto; discriminate|].
    intros w' (Hw' & Hv & Hs & Hn). simpl deref in Hv. rewrite HmN, HmA in Hv.
    pose proof (Z.mod_pos_bound (mag A) (mag N) ltac:(lia)).
    split; [exact Hw'|]. split; [exact Hs|]. split; [|lia].
    rewrite <- Hv. symmetry. apply val_nonneg_mag; auto. lia.
  - apply runs_unchecked. eapply runs_post; [apply mpi_copy_spec; exact HA|].
    intros w' (Hw' & Hm & Hs & Hn). simpl deref in *. pose proof (mag_nonneg A HA).
    rewrite Z.mod_small by lia. split; [exact Hw'|]. split; [congruence|]. split; [exact Hm|lia].
Qed.

(** The exponentiation proper, from the reduced base and [R^2 mod N]. *)
Lemma exp_core_spec X0 w0 T0 RR N mm a E :
  mont_mod N mm -> mag N mod 2 = 1 -> mpi_wf w0 -> mpi_s w0 = 1 -> mag w0 = a mod mag N ->
  (mpi_n N + 1 <= mpi_n w0)%nat -> room N T0 -> (mpi_n N + 1 <= mpi_n X0)%nat -> rr_ok N RR ->
  mpi_wf E -> (0 < mpi_n E)%nat ->
  runs NoFail (exp_core (window_size (bitlen (mag E))) X0 w0 RR E N mm T0)
    (fun X' => mpi_wf X' /\ (mpi_s X' = 1 /\ (0 < mpi_n X')%nat) /\ mag X' = a ^ mag E mod mag N) no_err.
Proof.
  intros HN Hodd Hw0 Hsw Hmw Hnw HT0 HnX (HRR & HsRR & HnRR & HlRR & HmRR) HE HnE.
  unfold exp_core. set (wsize := window_size (bitlen (mag E))).
  pose proof (N_pos N mm HN) as HNp. pose proof (mag_lt_R N mm HN) as HNR.
  pose proof (Z.mod_pos_bound a (mag N) HNp) as Hab.
  assert (Hws : 1 <= wsize <= 6) by (unfold wsize, window_size; repeat destr_if; lia).
  assert (HE0 : 0 <= mag E) by (apply mag_nonneg; auto).
  runs_step mpi_montmul_spec; auto; try lia; [split; auto|].
  intros [w1 T1] (Hw1 & Hs1 & Hn1 & HnT1 & Hl1 & Hm1).
  assert (HW1 : form N a 1 w1).
  { split; [exact Hw1|]. split; [congruence|]. split; [lia|]. split; [exact Hl1|].
    apply (R_cancel N mm a HN Hodd). rewrite Hm1, Hmw, Z.mul_mod_idemp_l by lia.
    rewrite Z.mul_mod, HmRR, <- Z.mul_mod by lia. rewrite Z.pow_1_r. f_equal. ring. }
  assert (HT1 : room N T1) by (unfold room in *; lia).
  runs_step mpi_copy_spec; [exact HRR|]. intros X1 (HX1 & HmX1 & HsX1 & HnX1). simpl deref in *.
  runs_step mpi_montred_spec; auto; [split; [lia|exact HT1]|lia|].
  intros [X2 T2] (HX2 & HsX2 & HnX2 & HnT2 & HlX2 & HmX2).
  assert (HF0 : form N a 0 X2).
  { split; [exact HX2|]. split; [congruence|]. split; [lia|]. split; [exact HlX2|].
    apply (R_cancel N mm a HN Hodd). rewrite HmX2, HmX1, HmRR, Z.pow_0_r. f_equal. ring. }
  assert (HT2 : room N T2) by (unfold room in *; lia).
  runs_step putW_runs; [simpl; lia|]. intros W (HlW & HeW & _).
  eapply runs_bind; [apply (make_window_spec N mm a HN Hodd); rewrite ?HeW; eauto|].
  intros [W1 T3] [HW HT3].
  eapply runs_bind.
  { eapply (exp_limbs_spec N mm a HN Hodd wsize W1 Hws HW _ _ _ 0); auto with limbs.
    apply inv_skip; auto. }
  intros st [Hst HTst]. unfold mpi_n in Hst. rewrite firstn_all in Hst. fold (mag E) in Hst.
  replace (0 * bpow (length (mpi_p E)) + mag E) with (mag E) in Hst by ring.
  runs_step getW_runs; [rewrite (proj1 HW); lia|]. intros ? ->.
  eapply runs_bind with (Q := fun '(X', T') => form N a (mag E) X' /\ room N T').
  { destruct Hst as [Hv Hs Hn Hwb HX|Hs Hn Hwb Hv HX|e u Hs He HX Hnb Hwb Hu Hv].
    - rewrite Hn. cbn [Z.to_nat exp_rest]. apply runs_ret. rewrite Hv. auto.
    - rewrite Hn. cbn [Z.to_nat exp_rest]. apply runs_ret. auto.
    - rewrite Hv, Hwb.
      destruct (Z_of_nat_complete (es_nbits st) ltac:(lia)) as (k & Hk).
      rewrite Hk, Nat2Z.id in *.
      replace (u * 2 ^ (wsize - Z.of_nat k)) with ((0 * 2 ^ Z.of_nat k + u) * 2 ^ (wsize - Z.of_nat k))
        by ring.
      apply (exp_rest_spec N mm a HN Hodd wsize W1 Hws HW); auto; try lia; try exact (proj1 (proj2 HW)). }
  intros [X3 T4] [(HX3 & HsX3 & HnX3 & HlX3 & HmX3) HT4].
  runs_step mpi_montred_spec; auto; [split; auto|lia|].
  intros [X4 T5] (HX4 & HsX4 & HnX4 & HnT5 & HlX4 & HmX4). apply runs_ret.
  split; [exact HX4|]. split; [split; [congruence|lia]|].
  rewrite <- (Z.mod_small (mag X4) (mag N)) by (split; [apply mag_nonneg; auto|lia]).
  apply (R_cancel N mm a HN Hodd). now rewrite HmX4, HmX3.
Qed.
Lemma odd_check d N E :
  mpi_wf N -> 0 < val N -> (0 < mpi_n N)%nat ->
  runs d (if mpi_cmp_int N 0 <? 0 then ret true
          else x <- rd (mpi_p N) 0;; ret (Z.land x 1 =? 0))
    (fun b => b = (mag N mod 2 =? 0)) E.
Proof.
  intros HN HvN Hn. rewrite cmp_int_0_ltb, (proj2 (Z.ltb_ge _ _)) by (auto; lia).
  runs_step runs_rd; [exact Hn|]. intros x ->. apply runs_ret.
  change 1 with (Z.ones 1). rewrite Z.land_ones by lia. change (2 ^ 1) with 2.
  rewrite nth_eval, bpow_0, Z.div_1_r by auto with limbs. fold (mag N).
  replace (mag N mod base mod 2) with (mag N mod 2) by dlia. reflexivity.
Qed.

(** [mpi_exp_mod] computes the power, for an odd modulus and a base that is
    not negative; the cache is left empty or filled with [R^2 mod N]. *)
Lemma mpi_exp_mod_full X A E N rr :
  mpi_wf (deref X A) -> canon (deref X A) -> 0 <= val (deref X A) ->
  mpi_wf E -> (0 < mpi_n E)%nat -> mpi_wf N -> 0 < val N -> val N mod 2 = 1 ->
  cache_ok N rr -> est_good hl (norm_limb (mag N)) ->
  runs NoFail (mpi_exp_mod hl X A E N rr)
    (fun '(X', rr') => mpi_wf X' /\ (mpi_s X' = 1 /\ (0 < mpi_n X')%nat) /\ val X' = val (deref X A) ^ mag E mod val N /\
       cache_ok N rr' /\ (rr' = None <-> rr = None)) no_err.
Proof.
  intros HA HcA HvA HE HnE HN HvN Hodd Hrr Hest.
  assert (HmN : val N = mag N) by (apply val_nonneg_mag; auto; lia).
  assert (HmA : val (deref X A) = mag (deref X A)) by (apply val_nonneg_mag; auto).
  assert (HnN : (0 < mpi_n N)%nat) by (apply mag_pos_n; auto; lia). rewrite HmN in Hodd.
  unfold mpi_exp_mod. runs_step odd_check; auto. intros even ->. rewrite Hodd.
  cbn [Z.eqb Pos.eqb].
  runs_step mpi_montg_init_spec; auto. intros mm [Hmm Hinv].
  assert (HNm : mont_mod N mm) by (split; [exact HN|split; [exact HnN|split; [lia|auto]]]).
  runs_step mpi_msb_spec; auto. intros i ->.
  runs_step mpi_grow_runs. intros X1 [HsX1 HpX1].
  assert (HX1 : (mpi_n N + 1 <= mpi_n X1)%nat).
  { unfold mpi_n at 2. rewrite HpX1, length_app, repeat_length. unfold mpi_n. lia. }
  assert (HA1 : mpi_wf (deref X1 A) /\ mag (deref X1 A) = mag (deref X A) /\
                mpi_s (deref X1 A) = mpi_s (deref X A)).
  { destruct A as [|A]; simpl in *; [|auto]. unfold mpi_wf, mag.
    rewrite HsX1, HpX1, eval_app, eval_zeros. destruct HA as [Hs Hl].
    repeat split; auto with limbs; try lia. }
  destruct HA1 as (HA1 & HmA1 & HsA1).
  runs_step mpi_grow_runs. intros w [_ Hpw]. simpl in Hpw.
  assert (Hnw : mpi_n w = (mpi_n N + 1)%nat).
  { unfold mpi_n at 1. rewrite Hpw, repeat_length. unfold mpi_n. simpl. lia. }
  runs_step mpi_grow_spec; [auto with limbs|]. intros T (HT & _ & _ & HnT).
  runs_step exp_RR_spec; auto. intros RR HRR.
  eapply runs_bind; [apply exp_base_spec; auto; unfold canon, val; rewrite ?HmA1, ?HsA1; auto|].
  intros w1 (Hw1 & Hs1 & Hm1 & Hn1). rewrite HmA1 in Hm1.
  eapply runs_bind.
  { apply (exp_core_spec X1 w1 T RR N mm (mag (deref X A)) E HNm Hodd Hw1 Hs1 Hm1 Hn1); auto.
    unfold room. simpl in HnT. lia. }
  intros X' (HX' & HsX' & HmX'). apply runs_ret.
  split; [exact HX'|]. split; [exact HsX'|]. destruct HsX' as [HsX' _]. split; [unfold val at 1; rewrite HsX', HmX', HmA, HmN; lia|].
  destruct rr; simpl; [|easy]. split; [intros _; exact HRR|easy].
Qed.

(** The same without the sign. *)
Lemma mpi_exp_mod_spec X A E N rr :
  mpi_wf (deref X A) -> canon (deref X A) -> 0 <= val (deref X A) ->
  mpi_wf E -> (0 < mpi_n E)%nat -> mpi_wf N -> 0 < val N -> val N mod 2 = 1 ->
  cache_ok N rr -> est_good hl (norm_limb (mag N)) ->
  runs NoFail (mpi_exp_mod hl X A E N rr)
    (fun '(X', rr') => mpi_wf X' /\ val X' = val (deref X A) ^ mag E mod val N /\
       cache_ok N rr' /\ (rr' = None <-> rr = None)) no_err.
Proof.
  intros. eapply runs_post; [apply mpi_exp_mod_full; assumption|].
  intros [X' rr'] (Q1 & _ & Q2 & Q3). auto.
Qed.

(** The error return: a modulus that is negative or even. *)
Lemma mpi_exp_mod_err d X A E N rr Q :
  mpi_wf N -> (0 < mpi_n N)%nat -> val N < 0 \/ val N mod 2 = 0 ->
  runs d (mpi_exp_mod hl X A E N rr) Q (fun e => e = POLARSSL_ERR_MPI_BAD_INPUT_DATA).
Proof.
  intros HN HnN Hbad. unfold mpi_exp_mod.
  eapply runs_bind with (Q := fun b => b = true); [|intros ? ->; now apply runs_throw].
  rewrite cmp_int_0_ltb by auto. case_bool (val N <? 0); [now apply runs_ret|].
  destruct Hbad as [|Hev]; [lia|].
  assert (HmN : val N = mag N) by (apply val_nonneg_mag; auto; lia). rewrite HmN in Hev.
  runs_step runs_rd; [exact HnN|]. intros x ->. apply runs_ret.
  change 1 with (Z.ones 1). rewrite Z.land_ones by lia. change (2 ^ 1) with 2.
  rewrite nth_eval, bpow_0, Z.div_1_r by auto with limbs. fold (mag N).
  apply Z.eqb_eq. dlia.
Qed.
End ExpModSpec.
