(* ===== verification/MpiGcd.v ===== *)
(** * Multi-precision integers: greatest common divisor and modular inverse

    [mpi_gcd] and [mpi_inv_mod] of [libsparkle/crypto/bignum.c]. *)
From Stdlib Require Import ZArith List Lia Bool.
Import ListNotations.
From S2P Require Import Prelude CMonad Limbs Mpi MpiAddSub MpiShift MpiMul MpiDiv.
From S2P Require Import MpiDivCorrect MpiMod.
#[local] Open Scope Z_scope.
#[local] Open Scope cmonad_scope.

(** ** Operations *)

(** One turn shortens one of the two numbers by a bit or more. *)
Fixpoint gcd_loop (fuel : nat) (TA TB : mpi) : M mpi :=
  if mpi_cmp_int TA 0 =? 0 then ret TB
  else
    match fuel with
    | O => out_of_fuel
    | S fuel' =>
        TA <- mpi_shift_r TA (mpi_lsb TA);;
        TB <- mpi_shift_r TB (mpi_lsb TB);;
        if 0 <=? mpi_cmp_mpi TA TB then
          TA <- mpi_sub_abs TA Self (Var TB);;
          TA <- mpi_shift_r TA 1;;
          gcd_loop fuel' TA TB
        else
          TB <- mpi_sub_abs TB Self (Var TA);;
          TB <- mpi_shift_r TB 1;;
          gcd_loop fuel' TA TB
    end.

(** The bits of two numbers. *)
Definition bits_of (X Y : mpi) : nat := (64 * (mpi_n X + mpi_n Y))%nat.

Definition mpi_gcd (G A B : mpi) : M mpi :=
  TA <- mpi_copy mpi_init (Var A);;
  TB <- mpi_copy mpi_init (Var B);;
  let lz := mpi_lsb TA in
  let lzt := mpi_lsb TB in
  let lz := if lzt <? lz then lzt else lz in
  TA <- mpi_shift_r TA lz;;
  TB <- mpi_shift_r TB lz;;
  TB <- gcd_loop (bits_of TA TB) (Mpi 1 (mpi_p TA)) (Mpi 1 (mpi_p TB));;
  TB <- mpi_shift_l TB lz;;
  mpi_copy G (Var TB).

(** [( X.p[0] & 1 ) == 0] *)
Definition is_even (X : mpi) : M bool :=
  x <- rd (mpi_p X) 0;;
  ret (Z.land x 1 =? 0).

(** [if( ( U1.p[0] & 1 ) != 0 || ( U2.p[0] & 1 ) != 0 ) { U1 += TB; U2 -= TA; }] *)
Definition fix_cofactors (U1 U2 TA TB : mpi) : M (mpi * mpi) :=
  e1 <- is_even U1;;
  e2 <- (if e1 then is_even U2 else ret false);;
  if e1 && e2 then ret (U1, U2)
  else
    U1 <- mpi_add_mpi U1 Self (Var TB);;
    U2 <- mpi_sub_mpi U2 Self (Var TA);;
    ret (U1, U2).

(** [while( ( TU.p[0] & 1 ) == 0 )]: halve [TU] and its two cofactors. *)
Fixpoint halve_loop (fuel : nat) (TU U1 U2 TA TB : mpi) : M (mpi * mpi * mpi) :=
  even <- is_even TU;;
  if even then
    match fuel with
    | O => out_of_fuel
    | S fuel' =>
        TU <- mpi_shift_r TU 1;;
        '(U1, U2) <- fix_cofactors U1 U2 TA TB;;
        U1 <- mpi_shift_r U1 1;;
        U2 <- mpi_shift_r U2 1;;
        halve_loop fuel' TU U1 U2 TA TB
    end
  else ret (TU, U1, U2).

(** [TU -= TV; U1 -= V1; U2 -= V2;] *)
Definition sub_triple (TU U1 U2 TV V1 V2 : mpi) : M (mpi * mpi * mpi) :=
  TU <- mpi_sub_mpi TU Self (Var TV);;
  U1 <- mpi_sub_mpi U1 Self (Var V1);;
  U2 <- mpi_sub_mpi U2 Self (Var V2);;
  ret (TU, U1, U2).

(** The [do .. while( mpi_cmp_int( &TU, 0 ) != 0 )] loop; returns [V1]. *)
Fixpoint inv_loop (fuel : nat) (TA TB TU U1 U2 TV V1 V2 : mpi) : M mpi :=
  match fuel with
  | O => out_of_fuel
  | S fuel' =>
      '(TU, U1, U2) <- halve_loop (64 * mpi_n TU) TU U1 U2 TA TB;;
      '(TV, V1, V2) <- halve_loop (64 * mpi_n TV) TV V1 V2 TA TB;;
      '(TU, U1, U2, TV, V1, V2) <-
        (if 0 <=? mpi_cmp_mpi TU TV then
           '(TU, U1, U2) <- sub_triple TU U1 U2 TV V1 V2;;
           ret (TU, U1, U2, TV, V1, V2)
         else
           '(TV, V1, V2) <- sub_triple TV V1 V2 TU U1 U2;;
           ret (TU, U1, U2, TV, V1, V2));;
      if mpi_cmp_int TU 0 =? 0 then ret V1
      else inv_loop fuel' TA TB TU U1 U2 TV V1 V2
  end.

Section InvMod.
Context (have_longlong : bool).

Definition mpi_inv_mod (X A N : mpi) : M mpi :=
  if mpi_cmp_int N 0 <=? 0 then throw POLARSSL_ERR_MPI_BAD_INPUT_DATA
  else
    G <- mpi_gcd mpi_init A N;;
    if negb (mpi_cmp_int G 1 =? 0) then throw POLARSSL_ERR_MPI_NOT_ACCEPTABLE
    else
      TA <- mpi_mod_mpi have_longlong mpi_init (Var A) (Var N);;
      TU <- mpi_copy mpi_init (Var TA);;
      TB <- mpi_copy mpi_init (Var N);;
      TV <- mpi_copy mpi_init (Var N);;
      U1 <- mpi_lset mpi_init 1;;
      U2 <- mpi_lset mpi_init 0;;
      V1 <- mpi_lset mpi_init 0;;
      V2 <- mpi_lset mpi_init 1;;
      let bits := S (bits_of TU TV) in
      V1 <- inv_loop bits TA TB TU U1 U2 TV V1 V2;;
      V1 <- mod_up (S (S bits)) V1 (Var N);;
      V1 <- mod_down (S (S bits)) V1 (Var N);;
      mpi_copy X (Var V1).
End InvMod.

(** ** Trailing zeros *)

(** [v] is [2^k] times an odd number. *)
Definition trailing (v k : Z) : Prop := 0 <= k /\ exists o, v = o * 2 ^ k /\ o mod 2 = 1.

Lemma lsb_bits_spec x j todo :
  0 <= j -> 0 <= x -> x mod 2 ^ j = 0 -> 
  match lsb_bits x j todo with
  | Some k => j <= k < j + Z.of_nat todo /\ trailing x k
  | None => x mod 2 ^ (j + Z.of_nat todo) = 0
  end.
Proof.
  intros Hj Hx. revert j Hj. induction todo as [|todo IH]; intros j Hj Hm; cbn [lsb_bits].
  - now rewrite Z.add_0_r.
  - rewrite land_shiftr_1 by lia. assert (0 < 2 ^ j) by (apply Z.pow_pos_nonneg; lia).
    pose proof (Z.div_mod x (2 ^ j) ltac:(lia)) as Hdm.
    case_bool ((x / 2 ^ j) mod 2 =? 0).
    + assert (Hm' : x mod 2 ^ (j + 1) = 0).
      { rewrite Z.pow_add_r, (Z.rem_mul_r x) by lia. change (2 ^ 1) with 2. rewrite Hm, E. lia. }
      specialize (IH (j + 1) ltac:(lia) Hm'). destruct (lsb_bits x (j + 1) todo).
      * destruct IH. split; [lia|assumption].
      * now replace (j + Z.of_nat (S todo)) with (j + 1 + Z.of_nat todo) by lia.
    + split; [lia|]. split; [lia|]. exists (x / 2 ^ j). split; [lia|dlia].
Qed.

Lemma lsb_limbs_spec p c :
  limbs p -> 0 <= c -> eval p <> 0 ->
  exists k, lsb_limbs p c = c + k /\ trailing (eval p) k.
Proof.
  intros Hp. revert c. induction Hp as [|x p Hx Hp IH]; intros c Hc Hnz; [contradiction|].
  cbn [lsb_limbs eval] in *. unfold limb in Hx.
  pose proof (lsb_bits_spec x 0 64 ltac:(lia) ltac:(lia) (Z.mod_1_r x)) as Hb.
  change (Z.to_nat biL) with 64%nat. change (Z.of_nat 64) with 64 in *.
  destruct (lsb_bits x 0 64) as [k|].
  - destruct Hb as (Hk & Hk0 & o & Ho & Hodd). exists k. split; [reflexivity|]. split; [lia|].
    exists (o + 2 ^ (64 - k) * eval p). split.
    + rewrite Z.mul_add_distr_r, <- Ho. replace (2 ^ (64 - k) * eval p * 2 ^ k)
        with (2 ^ k * 2 ^ (64 - k) * eval p) by ring.
      rewrite <- Z.pow_add_r by lia. now replace (k + (64 - k)) with 64 by lia.
    + replace (64 - k) with (Z.succ (63 - k)) by lia. rewrite Z.pow_succ_r by lia.
      replace (o + 2 * 2 ^ (63 - k) * eval p) with (o + (2 ^ (63 - k) * eval p) * 2) by ring.
      now rewrite Z.mod_add.
  - assert (x = 0) as -> by (rewrite Z.mod_small in Hb; [exact Hb|simpl; lia]).
    destruct (IH (c + 64) ltac:(lia) ltac:(lia)) as (k & -> & Hk0 & o & Ho & Hodd).
    exists (64 + k). split; [lia|]. split; [lia|]. exists o. split; [|exact Hodd].
    rewrite Ho, Z.pow_add_r by lia. change (2 ^ 64) with base. ring.
Qed.

(** [mpi_lsb] returns the number of trailing zero bits. *)
Lemma mpi_lsb_spec X : mpi_wf X -> mag X <> 0 -> trailing (mag X) (mpi_lsb X).
Proof.
  intros [_ Hp] Hnz. unfold mpi_lsb, mag.
  destruct (lsb_limbs_spec (mpi_p X) 0 Hp ltac:(lia) Hnz) as (k & -> & Hk). exact Hk.
Qed.

Lemma lsb_limbs_0 p c : limbs p -> eval p = 0 -> lsb_limbs p c = 0.
Proof.
  intros Hp. revert c. induction Hp as [|x p Hx Hp IH]; intros c Hz; [reflexivity|].
  cbn [lsb_limbs eval] in *. unfold limb in Hx. pose proof (eval_nonneg p Hp).
  assert (x = 0) as -> by lia. change (lsb_bits 0 0 (Z.to_nat biL)) with (@None Z). apply IH. lia.
Qed.

Lemma mpi_lsb_0 X : mpi_wf X -> mag X = 0 -> mpi_lsb X = 0.
Proof. intros [_ Hp] Hz. now apply lsb_limbs_0. Qed.

(** ** Greatest common divisor *)

Lemma odd_cancel_Z m x k : 0 <= k -> m mod 2 = 1 -> (m | x * 2 ^ k) -> (m | x).
Proof.
  intros Hk Hm. rewrite <- (Z2Nat.id k) by auto. now apply odd_cancel.
Qed.

Lemma odd_divisor d v : v mod 2 = 1 -> (d | v) -> d mod 2 = 1.
Proof.
  intros Hv (c & ->). pose proof (Z.mod_pos_bound d 2 ltac:(lia)).
  destruct (Z.eq_dec (d mod 2) 0) as [Hz|]; [|lia].
  rewrite Z.mul_mod, Hz, Z.mul_0_r in Hv by lia. discriminate.
Qed.

(** Factors of two do not matter to an odd partner. *)
Lemma gcd_pow2 a b k : 0 <= k -> b mod 2 = 1 -> Z.gcd (a * 2 ^ k) b = Z.gcd a b.
Proof.
  intros Hk Hb. apply Z.divide_antisym_nonneg; try apply Z.gcd_nonneg.
  - apply Z.gcd_greatest; [|apply Z.gcd_divide_r].
    apply (odd_cancel_Z _ _ k Hk); [|apply Z.gcd_divide_l].
    apply (odd_divisor _ b Hb), Z.gcd_divide_r.
  - apply Z.gcd_greatest; [|apply Z.gcd_divide_r].
    apply Z.divide_mul_l, Z.gcd_divide_l.
Qed.

Lemma gcd_odd_sub a b c : b mod 2 = 1 -> a - b = c * 2 -> Z.gcd c b = Z.gcd a b.
Proof.
  intros Hb Hc. rewrite <- (gcd_pow2 c b 1), Z.pow_1_r, <- Hc by lia.
  now rewrite Z.gcd_comm, Z.gcd_sub_diag_r, Z.gcd_comm.
Qed.

Lemma gcd_trailing i j oa ob :
  0 <= i -> 0 <= j -> oa mod 2 = 1 -> ob mod 2 = 1 -> i = 0 \/ j = 0 ->
  Z.gcd (oa * 2 ^ i) (ob * 2 ^ j) = Z.gcd oa ob.
Proof.
  intros Hi Hj Ha Hb [-> | ->]; rewrite Z.pow_0_r, Z.mul_1_r.
  - rewrite Z.gcd_comm, gcd_pow2, Z.gcd_comm by auto. reflexivity.
  - now apply gcd_pow2.
Qed.

(** Halving the difference of two odd numbers saves a bit. *)
Lemma bitlen_half_sub a b : 0 < b <= a -> bitlen ((a - b) / 2) + 1 <= bitlen a.
Proof.
  intros H. pose proof (bitlen_spec a ltac:(lia)) as Ha. pose proof (bitlen_pos a ltac:(lia)).
  unfold bitlen at 1. case_bool ((a - b) / 2 =? 0); [lia|].
  assert (Hp : 0 < (a - b) / 2) by dlia.
  enough (Z.log2 ((a - b) / 2) < bitlen a - 1) by lia. apply Z.log2_lt_pow2; [exact Hp|].
  replace (bitlen a) with (Z.succ (bitlen a - 1)) in Ha at 2 by lia.
  rewrite Z.pow_succ_r in Ha by lia. dlia.
Qed.

Lemma bitlen_odd_part o k : 0 <= k -> 0 < o -> bitlen o <= bitlen (o * 2 ^ k).
Proof. intros. rewrite bitlen_shift by auto. lia. Qed.

Lemma bitlen_nonneg v : 0 <= bitlen v.
Proof. unfold bitlen. case_bool (v =? 0); [lia|]. pose proof (Z.log2_nonneg v). lia. Qed.

Lemma bitlen_mag X : mpi_wf X -> bitlen (mag X) <= 64 * Z.of_nat (mpi_n X).
Proof.
  intros [_ Hp]. pose proof (eval_bounds _ Hp) as Hb. unfold mag, mpi_n in *.
  unfold bitlen. case_bool (eval (mpi_p X) =? 0); [lia|].
  rewrite bpow_pow2 in Hb. pose proof (Z.log2_lt_pow2 (eval (mpi_p X)) (biL * Z.of_nat (length (mpi_p X)))).
  lia.
Qed.

(** The number shifted right by its trailing zeros is its odd part. *)
Lemma shift_odd d X E :
  mpi_wf X -> mag X <> 0 ->
  runs d (mpi_shift_r X (mpi_lsb X))
    (fun X' => mpi_wf X' /\ mpi_s X' = mpi_s X /\ mpi_n X' = mpi_n X /\ mag X' mod 2 = 1 /\
       mag X = mag X' * 2 ^ mpi_lsb X /\ 0 <= mpi_lsb X) E.
Proof.
  intros HX Hnz. destruct (mpi_lsb_spec X HX Hnz) as (Hk & o & Ho & Hodd).
  eapply runs_post; [apply mpi_shift_r_spec; auto|]. intros X' (HX' & Hm & Hs & Hn).
  assert (0 < 2 ^ mpi_lsb X) by (apply Z.pow_pos_nonneg; lia).
  assert (He : mag X' = o) by (rewrite Hm, Ho; apply Z.div_mul; lia).
  rewrite He. auto 10.
Qed.

Lemma cmp_mpi_pos_leb X Y :
  mpi_wf X -> mpi_wf Y -> mpi_s X = 1 -> mpi_s Y = 1 ->
  (0 <=? mpi_cmp_mpi X Y) = (mag Y <=? mag X).
Proof.
  intros HX HY HsX HsY. rewrite mpi_cmp_mpi_spec by (auto; left; congruence).
  unfold val. rewrite HsX, HsY, !Z.mul_1_l.
  destruct (Z.compare_spec (mag X) (mag Y)); simpl; symmetry; rewrite ?Z.leb_le, ?Z.leb_gt; lia.
Qed.

Lemma cmp_int_0_eqb X : mpi_wf X -> (mpi_cmp_int X 0 =? 0) = (mag X =? 0).
Proof.
  intros HX. rewrite mpi_cmp_int_0 by auto. pose proof (val_abs X HX).
  destruct (Z.compare_spec (val X) 0); simpl; symmetry; rewrite ?Z.eqb_eq, ?Z.eqb_neq; lia.
Qed.

Lemma gcd_loop_spec d fuel TA TB E :
  mpi_wf TA -> mpi_wf TB -> mpi_s TA = 1 -> mpi_s TB = 1 -> mag TB <> 0 ->
  mag TA = 0 \/ mag TA mod 2 = 1 \/ mag TB mod 2 = 1 ->
  bitlen (mag TA) + bitlen (mag TB) <= Z.of_nat fuel ->
  runs d (gcd_loop fuel TA TB)
    (fun G => mpi_wf G /\ mpi_s G = 1 /\ mag G = Z.gcd (mag TA) (mag TB)) E.
Proof.
  revert TA TB. induction fuel as [|fuel IH]; intros TA TB HA HB HsA HsB HnzB Hpar Hf;
    cbn [gcd_loop]; rewrite cmp_int_0_eqb by auto;
    pose proof (mag_nonneg TA HA) as HA0; pose proof (mag_nonneg TB HB) as HB0.
  { pose proof (bitlen_pos (mag TB) ltac:(lia)). pose proof (bitlen_nonneg (mag TA)). lia. }
  case_bool (mag TA =? 0).
  { apply runs_ret. rewrite E0, Z.gcd_0_l, Z.abs_eq by lia. auto. }
  destruct Hpar as [|Hpar]; [contradiction|].
  runs_step shift_odd; auto. intros TA1 (HA1 & Hs1 & Hn1 & Hodd1 & Hm1 & Hk1).
  runs_step shift_odd; auto. intros TB1 (HB1 & Hs2 & Hn2 & Hodd2 & Hm2 & Hk2).
  pose proof (mag_nonneg TA1 HA1) as HA10. pose proof (mag_nonneg TB1 HB1) as HB10.
  assert (HpA : 0 < mag TA1) by dlia. assert (HpB : 0 < mag TB1) by dlia.
  pose proof (bitlen_odd_part (mag TA1) _ Hk1 HpA) as HbA. rewrite <- Hm1 in HbA.
  pose proof (bitlen_odd_part (mag TB1) _ Hk2 HpB) as HbB. rewrite <- Hm2 in HbB.
  assert (Hk0 : mpi_lsb TA = 0 \/ mpi_lsb TB = 0).
  { destruct (Z.eq_dec (mpi_lsb TA) 0) as [|Hne1]; [auto|]. right.
    destruct (Z.eq_dec (mpi_lsb TB) 0) as [|Hne2]; [auto|].
    replace (mpi_lsb TA) with (Z.succ (mpi_lsb TA - 1)) in Hm1 by lia.
    replace (mpi_lsb TB) with (Z.succ (mpi_lsb TB - 1)) in Hm2 by lia.
    rewrite Z.pow_succ_r in Hm1, Hm2 by lia. rewrite Hm1, Hm2 in Hpar.
    rewrite !(Z.mul_comm 2), !Z.mul_assoc, !Z.mod_mul in Hpar by lia. lia. }
  assert (Hg : Z.gcd (mag TA) (mag TB) = Z.gcd (mag TA1) (mag TB1)).
  { rewrite Hm1, Hm2. now apply gcd_trailing. }
  rewrite Hg, cmp_mpi_pos_leb by (auto; congruence). change (2 ^ 1) with 2 in *.
  case_bool (mag TB1 <=? mag TA1).
  - runs_step mpi_sub_abs_spec; simpl; auto. intros TA2 (HA2 & Hs3 & Hm3 & _). simpl in Hm3.
    runs_step mpi_shift_r_spec; auto; [lia|]. intros TA3 (HA3 & Hm4 & Hs4 & _).
    change (2 ^ 1) with 2 in Hm4. rewrite Hm3 in Hm4.
    pose proof (bitlen_half_sub (mag TA1) (mag TB1) ltac:(lia)) as Hbl. rewrite <- Hm4 in Hbl.
    eapply runs_post; [apply IH; auto; try congruence; lia|].
    intros G (HG & HsG & HmG). split; [exact HG|]. split; [exact HsG|].
    rewrite HmG. apply gcd_odd_sub; [exact Hodd2|]. rewrite Hm4. dlia.
  - runs_step mpi_sub_abs_spec; simpl; auto; [lia|]. intros TB2 (HB2 & Hs3 & Hm3 & _). simpl in Hm3.
    runs_step mpi_shift_r_spec; auto; [lia|]. intros TB3 (HB3 & Hm4 & Hs4 & _).
    change (2 ^ 1) with 2 in Hm4. rewrite Hm3 in Hm4.
    pose proof (bitlen_half_sub (mag TB1) (mag TA1) ltac:(lia)) as Hbl. rewrite <- Hm4 in Hbl.
    eapply runs_post; [apply IH; auto; try congruence; try lia; dlia|].
    intros G (HG & HsG & HmG). split; [exact HG|]. split; [exact HsG|].
    rewrite HmG, Z.gcd_comm, (Z.gcd_comm (mag TA1)). apply gcd_odd_sub; [exact Hodd1|].
    rewrite Hm4. dlia.
Qed.

(** [mpi_gcd] returns the greatest common divisor of the absolute values,
    when the second one is not zero. *)
Lemma mpi_gcd_spec G A B :
  mpi_wf A -> mpi_wf B -> mag B <> 0 ->
  runs NoFail (mpi_gcd G A B)
    (fun G' => mpi_wf G' /\ mpi_s G' = 1 /\ mag G' = Z.gcd (val A) (val B)) no_err.
Proof.
  intros HA HB HnzB. unfold mpi_gcd.
  runs_step mpi_copy_spec; [exact HA|]. intros TA (HTA & HmA & _ & _).
  runs_step mpi_copy_spec; [exact HB|]. intros TB (HTB & HmB & _ & _). simpl deref in *. cbv zeta.
  assert (Htb : trailing (mag TB) (mpi_lsb TB)) by (apply mpi_lsb_spec; auto; lia).
  assert (Hla : 0 <= mpi_lsb TA).
  { destruct (Z.eq_dec (mag TA) 0); [rewrite mpi_lsb_0 by auto; lia|].
    destruct (mpi_lsb_spec TA); auto. }
  destruct Htb as (Hlb & ob & Hob & Hobo).
  set (lz := if mpi_lsb TB <? mpi_lsb TA then mpi_lsb TB else mpi_lsb TA).
  assert (Hlz : 0 <= lz /\ lz <= mpi_lsb TA /\ lz <= mpi_lsb TB)
    by (unfold lz; case_bool (mpi_lsb TB <? mpi_lsb TA); lia).
  assert (H2 : 0 < 2 ^ lz) by (apply Z.pow_pos_nonneg; lia).
  runs_step mpi_shift_r_spec; auto; [lia|]. intros TA1 (HA1 & Hm1 & Hs1 & Hn1).
  runs_step mpi_shift_r_spec; auto; [lia|]. intros TB1 (HB1 & Hm2 & Hs2 & Hn2).
  assert (Hdb : mag TB = mag TB1 * 2 ^ lz).
  { rewrite Hm2, Hob. replace (mpi_lsb TB) with ((mpi_lsb TB - lz) + lz) by lia.
    rewrite Z.pow_add_r, Z.mul_assoc, Z.div_mul by lia. reflexivity. }
  assert (Hda : mag TA = mag TA1 * 2 ^ lz).
  { destruct (Z.eq_dec (mag TA) 0) as [Hz|Hz]; [rewrite Hm1, Hz, Z.div_0_l; lia|].
    destruct (mpi_lsb_spec TA HTA Hz) as (_ & oa & Hoa & _). rewrite Hm1, Hoa.
    replace (mpi_lsb TA) with ((mpi_lsb TA - lz) + lz) by lia.
    rewrite Z.pow_add_r, Z.mul_assoc, Z.div_mul by lia. reflexivity. }
  assert (Hpar : mag TA1 = 0 \/ mag TA1 mod 2 = 1 \/ mag TB1 mod 2 = 1).
  { destruct (Z.eq_dec (mag TA) 0) as [Hz|Hz]; [left; nia|]. right.
    destruct (mpi_lsb_spec TA HTA Hz) as (_ & oa & Hoa & Hoao).
    destruct (Z.lt_ge_cases (mpi_lsb TB) (mpi_lsb TA)) as [Hlt|Hge]; [right|left].
    - replace (mag TB1) with ob; [exact Hobo|]. apply (Z.mul_reg_r _ _ (2 ^ lz)); [lia|].
      rewrite <- Hdb, Hob. unfold lz. now rewrite (proj2 (Z.ltb_lt _ _)).
    - replace (mag TA1) with oa; [exact Hoao|]. apply (Z.mul_reg_r _ _ (2 ^ lz)); [lia|].
      rewrite <- Hda, Hoa. unfold lz. now rewrite (proj2 (Z.ltb_ge _ _)). }
  assert (HnzB1 : mag TB1 <> 0) by nia.
  eapply runs_bind; [apply gcd_loop_spec; auto; try (split; [apply sign_ok_1|apply HA1 || apply HB1])|].
  { pose proof (bitlen_mag TA1 HA1). pose proof (bitlen_mag TB1 HB1).
    change (mag (Mpi 1 (mpi_p TA1))) with (mag TA1). change (mag (Mpi 1 (mpi_p TB1))) with (mag TB1).
    unfold bits_of. lia. }
  intros TB2 (HB2 & Hs3 & Hm3).
  change (mag (Mpi 1 (mpi_p TA1))) with (mag TA1) in Hm3.
  change (mag (Mpi 1 (mpi_p TB1))) with (mag TB1) in Hm3.
  assert (HnB2 : (0 < mpi_n TB2)%nat).
  { apply mag_pos_n; auto. rewrite Hm3. pose proof (Z.gcd_nonneg (mag TA1) (mag TB1)).
    destruct (Z.eq_dec (Z.gcd (mag TA1) (mag TB1)) 0) as [Hz|]; [|lia].
    apply Z.gcd_eq_0_r in Hz. contradiction. }
  runs_step mpi_shift_l_spec; auto; [lia|]. intros TB3 (HB3 & Hm4 & Hs4 & _).
  eapply runs_post; [apply mpi_copy_spec; exact HB3|]. simpl deref. intros G' (HG & HmG & HsG & _).
  split; [exact HG|]. split; [simpl in HsG; congruence|].
  assert (Hv : Z.gcd (val A) (val B) = Z.gcd (mag A) (mag B))
    by (rewrite <- !val_abs by auto; now rewrite Z.gcd_abs_l, Z.gcd_abs_r).
  simpl in HmG. rewrite Hv, HmG, Hm4, Hm3, <- HmA, <- HmB, Hda, Hdb.
  rewrite Z.gcd_mul_mono_r, Z.abs_eq by lia. reflexivity.
Qed.

(** ** Modular inverse *)

Lemma is_even_spec d X E :
  mpi_wf X -> (0 < mpi_n X)%nat ->
  runs d (is_even X) (fun b => b = (val X mod 2 =? 0)) E.
Proof.
  intros HX Hn. unfold is_even. runs_step runs_rd; [exact Hn|]. intros x ->. apply runs_ret.
  change 1 with (Z.ones 1). rewrite Z.land_ones by lia. change (2 ^ 1) with 2.
  rewrite nth_eval, bpow_0, Z.div_1_r by auto with limbs. fold (mag X).
  replace (mag X mod base mod 2) with (val X mod 2); [reflexivity|].
  unfold val. destruct HX as [[-> | ->] _]; dlia.
Qed.

(** A shift right by one halves an even number, whatever its sign. *)
Lemma shift_half d X E :
  mpi_wf X -> val X mod 2 = 0 ->
  runs d (mpi_shift_r X 1)
    (fun X' => mpi_wf X' /\ 2 * val X' = val X /\ mpi_s X' = mpi_s X /\ mpi_n X' = mpi_n X) E.
Proof.
  intros HX Hev. eapply runs_post; [apply mpi_shift_r_spec; auto; lia|].
  intros X' (HX' & Hm & Hs & Hn). change (2 ^ 1) with 2 in Hm.
  split; [exact HX'|]. split; [|auto]. unfold val in *. rewrite Hs, Hm.
  destruct HX as [[Hs1|Hs1] _]; rewrite Hs1 in *; dlia.
Qed.

Section Inverse.
Context (TA TB : mpi) (HTA : mpi_wf TA) (HTB : mpi_wf TB)
        (Ha : 0 < val TA) (Hm : 0 < val TB) (Hg : Z.gcd (val TA) (val TB) = 1).

(** A number with its cofactors. *)
Definition bezout (TU U1 U2 : mpi) : Prop :=
  mpi_wf TU /\ mpi_wf U1 /\ mpi_wf U2 /\ (0 < mpi_n TU)%nat /\ (0 < mpi_n U1)%nat /\
  (0 < mpi_n U2)%nat /\ val U1 * val TA + val U2 * val TB = val TU.

Lemma not_both_even : val TA mod 2 = 0 -> val TB mod 2 = 0 -> False.
Proof using All.
  intros H1 H2. assert (H : (2 | 1)).
  { rewrite <- Hg. apply Z.gcd_greatest; apply Z.mod_divide; lia. }
  destruct H as (c & Hc). lia.
Qed.

(** The cofactors of an even number are made even. *)
Lemma cofactors_even d TU U1 U2 E :
  bezout TU U1 U2 -> val TU mod 2 = 0 ->
  runs d (fix_cofactors U1 U2 TA TB)
    (fun '(U1', U2') => bezout TU U1' U2' /\ val U1' mod 2 = 0 /\ val U2' mod 2 = 0 /\
       Z.abs (val U1') <= Z.abs (val U1) + val TB) E.
Proof using All.
  intros (HU & HU1 & HU2 & Hn & Hn1 & Hn2 & Heq) Hev. unfold fix_cofactors.
  runs_step is_even_spec; auto. intros e1 ->.
  eapply runs_bind with (Q := fun e2 => e2 = (val U1 mod 2 =? 0) && (val U2 mod 2 =? 0)).
  { destruct (val U1 mod 2 =? 0); [apply is_even_spec; auto|now apply runs_ret]. }
  intros e2 ->.
  destruct ((val U1 mod 2 =? 0) && ((val U1 mod 2 =? 0) && (val U2 mod 2 =? 0))) eqn:Ee.
  { apply andb_prop in Ee as [E1 E2]. apply andb_prop in E2 as [_ E2].
    apply Z.eqb_eq in E1, E2. apply runs_ret.
    split; [repeat (split; [assumption|]); exact Heq|]. split; [exact E1|]. split; [exact E2|]. lia. }
  assert (Hodd : ~ (val U1 mod 2 = 0 /\ val U2 mod 2 = 0)).
  { intros [E1 E2]. now rewrite E1, E2 in Ee. }
  runs_step mpi_add_mpi_spec; auto. intros U1' (HU1' & Hv1 & Hn1'). simpl deref in *.
  runs_step mpi_sub_mpi_spec; auto. intros U2' (HU2' & Hv2 & Hn2'). simpl deref in *.
  apply runs_ret. split; [split; [exact HU|]; repeat (split; [assumption || lia|]); rewrite Hv1, Hv2; nia|].
  rewrite Hv1, Hv2.
  pose proof not_both_even as Hne.
  assert (Hpar : (val U1 * val TA + val U2 * val TB) mod 2 = 0) by (now rewrite Heq).
  assert (Hred : ((val U1 mod 2) * (val TA mod 2) + (val U2 mod 2) * (val TB mod 2)) mod 2 = 0).
  { rewrite <- Hpar, (Z.add_mod (val U1 * _)), !(Z.mul_mod (val _)) by lia.
    now rewrite <- Z.add_mod by lia. }
  pose proof (Z.mod_pos_bound (val U1) 2 ltac:(lia)). pose proof (Z.mod_pos_bound (val U2) 2 ltac:(lia)).
  pose proof (Z.mod_pos_bound (val TA) 2 ltac:(lia)). pose proof (Z.mod_pos_bound (val TB) 2 ltac:(lia)).
  assert (Hc : val U1 mod 2 = val TB mod 2 /\ val U2 mod 2 = val TA mod 2).
  { assert (val U1 mod 2 = 0 \/ val U1 mod 2 = 1) as [E1|E1] by lia;
    assert (val U2 mod 2 = 0 \/ val U2 mod 2 = 1) as [E2|E2] by lia;
    assert (val TA mod 2 = 0 \/ val TA mod 2 = 1) as [E3|E3] by lia;
    assert (val TB mod 2 = 0 \/ val TB mod 2 = 1) as [E4|E4] by lia;
    rewrite E1, E2, E3, E4 in *; simpl in Hred; try discriminate; try lia; exfalso; auto. }
  clear - Hc Hm. dlia.
Qed.

Lemma halve_loop_spec d fuel TU U1 U2 E :
  bezout TU U1 U2 -> mpi_s TU = 1 -> 0 < val TU -> bitlen (val TU) <= Z.of_nat fuel ->
  runs d (halve_loop fuel TU U1 U2 TA TB)
    (fun '(TU', U1', U2') => bezout TU' U1' U2' /\ mpi_s TU' = 1 /\ 0 < val TU' /\
       val TU' mod 2 = 1 /\ (exists k, 0 <= k /\ val TU = val TU' * 2 ^ k /\
         (val TU mod 2 = 0 -> 1 <= k)) /\
       (forall B, val TB <= B -> Z.abs (val U1) <= B -> Z.abs (val U1') <= B) /\
       (forall B, val TB <= B -> val TU mod 2 = 0 -> Z.abs (val U1) <= 2 * B ->
          Z.abs (val U1') <= B + val TB)) E.
Proof using All.
  revert TU U1 U2. induction fuel as [|fuel IH]; intros TU U1 U2 Hb Hs Hp Hf; cbn [halve_loop];
    pose proof Hb as (HU & _ & _ & Hn & _).
  { pose proof (bitlen_pos (val TU) Hp). lia. }
  runs_step is_even_spec; auto. intros ev ->. case_bool (val TU mod 2 =? 0).
  2: { apply runs_ret. split; [exact Hb|]. split; [exact Hs|]. split; [exact Hp|].
       split; [dlia|]. split; [exists 0; rewrite Z.pow_0_r; lia|]. split; [auto|]. intros; lia. }
  runs_step shift_half; auto. intros TU1 (HTU1 & Hv & Hs1 & Hn1).
  runs_step cofactors_even; [exact Hb|exact E0|].
  intros [U1a U2a] (Hba & He1 & He2 & Hbd). destruct Hba as (_ & HU1 & HU2 & _ & HnU1 & HnU2 & Heq).
  runs_step shift_half; auto. intros U1b (HU1b & Hv1 & _ & Hn1b).
  runs_step shift_half; auto. intros U2b (HU2b & Hv2 & _ & Hn2b).
  assert (Hb' : bezout TU1 U1b U2b).
  { unfold bezout. repeat (split; [assumption || lia|]). nia. }
  assert (Hp1 : 0 < val TU1) by lia.
  assert (Hbl : bitlen (val TU1) + 1 <= bitlen (val TU)).
  { rewrite <- Hv, Z.mul_comm, <- (Z.pow_1_r 2) at 1. rewrite bitlen_shift by lia. lia. }
  eapply runs_post; [apply IH; auto; [congruence|lia]|].
  intros [[TU2 U1c] U2c] (H1 & H2 & H3 & H4 & (k & Hk & Hk2 & _) & H5 & _).
  split; [exact H1|]. split; [exact H2|]. split; [exact H3|]. split; [exact H4|]. split.
  { exists (Z.succ k). rewrite Z.pow_succ_r by lia. split; [lia|]. split; [lia|intros; lia]. }
  split; [intros B HB Hle; apply H5; lia|]. intros B HB _ Hle. apply H5; lia.
Qed.

(** What holds at the head of the loop after [c] turns. *)
Definition half_ok (c : Z) (TU U1 U2 : mpi) : Prop :=
  bezout TU U1 U2 /\ mpi_s TU = 1 /\ 0 < val TU /\
  Z.abs (val U1) <= (if val TU mod 2 =? 0 then 2 else 1) * ((c + 1) * val TB).

(** The bits that are left, one less for an even number. *)
Definition bits_left (v : Z) : Z := bitlen v - (if v mod 2 =? 0 then 1 else 0).

Lemma halve_ok d c TU U1 U2 E :
  0 <= c -> half_ok c TU U1 U2 ->
  runs d (halve_loop (64 * mpi_n TU) TU U1 U2 TA TB)
    (fun '(TU', U1', U2') => bezout TU' U1' U2' /\ mpi_s TU' = 1 /\ 0 < val TU' /\
       val TU' mod 2 = 1 /\ Z.abs (val U1') <= (c + 2) * val TB /\
       bitlen (val TU') <= bits_left (val TU) /\
       (forall y, Z.gcd (val TU) y = 1 -> Z.gcd (val TU') y = 1)) E.
Proof using All.
  intros Hc (Hb & Hs & Hp & Hbd). pose proof (proj1 Hb) as HU.
  assert (Hv : val TU = mag TU) by (apply val_nonneg_mag; auto; lia).
  pose proof (bitlen_mag TU HU) as Hbl. rewrite <- Hv in Hbl.
  eapply runs_post; [apply halve_loop_spec; auto; lia|].
  intros [[TU' U1'] U2'] (H1 & H2 & H3 & H4 & (k & Hk & Hk2 & Hk3) & H5 & H6).
  repeat (split; [assumption|]). pose proof (bitlen_odd_part (val TU') k Hk H3) as Hodd.
  split; [|split].
  - case_bool (val TU mod 2 =? 0).
    + specialize (H6 ((c + 1) * val TB)). nia.
    + specialize (H5 ((c + 1) * val TB)). nia.
  - unfold bits_left. rewrite Hk2 at 1. rewrite bitlen_shift by auto.
    case_bool (val TU mod 2 =? 0); [specialize (Hk3 E0)|]; lia.
  - intros y Hy. pose proof (Z.gcd_nonneg (val TU') y).
    assert (Hd : (Z.gcd (val TU') y | 1)).
    { rewrite <- Hy. apply Z.gcd_greatest; [|apply Z.gcd_divide_r].
      rewrite Hk2. apply Z.divide_mul_l, Z.gcd_divide_l. }
    apply Z.divide_1_r_nonneg in Hd; auto.
Qed.
Lemma bezout_sub d TU U1 U2 TV V1 V2 E :
  bezout TU U1 U2 -> bezout TV V1 V2 -> mpi_s TU = 1 -> mpi_s TV = 1 -> val TV <= val TU ->
  runs d (sub_triple TU U1 U2 TV V1 V2)
    (fun '(TU', U1', U2') => bezout TU' U1' U2' /\ mpi_s TU' = 1 /\
       val TU' = val TU - val TV /\ val U1' = val U1 - val V1) E.
Proof using All.
  intros (HU & HU1 & HU2 & Hn & Hn1 & Hn2 & Heq) (HV & HV1 & HV2 & _ & _ & _ & Heq') HsU HsV Hle.
  unfold val in Hle. rewrite HsU, HsV in Hle. unfold sub_triple.
  runs_step mpi_sub_mpi_pos; auto; [lia|]. intros T (HT & HsT & HmT & HnT).
  runs_step mpi_sub_mpi_spec; auto. intros W1 (HW1 & Hv1 & Hnw1). simpl deref in *.
  runs_step mpi_sub_mpi_spec; auto. intros W2 (HW2 & Hv2 & Hnw2). simpl deref in *.
  apply runs_ret. assert (HvT : val T = val TU - val TV)
    by (unfold val; rewrite HsT, HmT, HsU, HsV; ring).
  split; [|auto]. unfold bezout. repeat (split; [assumption || lia|]).
  rewrite Hv1, Hv2, HvT, <- Heq, <- Heq'. ring.
Qed.

Lemma gcd_sub u v : Z.gcd u v = 1 -> Z.gcd (u - v) v = 1.
Proof. intros H. now rewrite Z.gcd_comm, Z.gcd_sub_diag_r, Z.gcd_comm. Qed.

Lemma bitlen_mono u v : 0 <= u <= v -> bitlen u <= bitlen v.
Proof.
  intros H. unfold bitlen. case_bool (u =? 0); case_bool (v =? 0); try lia.
  - pose proof (Z.log2_nonneg v). lia.
  - pose proof (Z.log2_le_mono u v). lia.
Qed.

(** After a difference of odd numbers. *)
Lemma half_ok_sub c u T U1 U2 :
  0 <= c -> bezout T U1 U2 -> mpi_s T = 1 -> 0 < val T -> val T mod 2 = 0 -> val T <= u ->
  Z.abs (val U1) <= 2 * ((c + 2) * val TB) ->
  half_ok (c + 1) T U1 U2 /\ bits_left (val T) <= bitlen u - 1.
Proof using All.
  intros Hc Hb Hs Hp Hev Hu Hbd. unfold half_ok, bits_left. rewrite Hev. cbn [Z.eqb].
  replace (c + 1 + 1) with (c + 2) by lia. pose proof (bitlen_mono (val T) u ltac:(lia)).
  split; [auto|lia].
Qed.

Lemma half_ok_keep c T U1 U2 :
  bezout T U1 U2 -> mpi_s T = 1 -> 0 < val T -> val T mod 2 = 1 ->
  Z.abs (val U1) <= (c + 2) * val TB ->
  half_ok (c + 1) T U1 U2 /\ bits_left (val T) = bitlen (val T).
Proof using All.
  intros Hb Hs Hp Hodd Hbd. unfold half_ok, bits_left. rewrite Hodd. cbn [Z.eqb Pos.eqb].
  replace (c + 1 + 1) with (c + 2) by lia. split; [|lia]. repeat (split; [assumption|]). lia.
Qed.

Lemma bits_left_pos v : 0 < v -> 1 <= bits_left v.
Proof.
  intros Hv. unfold bits_left. pose proof (bitlen_pos v Hv). case_bool (v mod 2 =? 0); [|lia].
  pose proof (bitlen_spec v Hv) as Hb. destruct (Z.eq_dec (bitlen v) 1) as [He|]; [|lia].
  rewrite He in Hb. simpl in Hb. assert (v = 1) as -> by lia. discriminate.
Qed.

(** The inverse, not yet reduced. *)
Definition inv_result (c : Z) (V1 : mpi) : Prop :=
  mpi_wf V1 /\ (exists k, val V1 * val TA + k * val TB = 1) /\
  Z.abs (val V1) <= (c + 2) * val TB.

Lemma inv_loop_spec d fuel c TU U1 U2 TV V1 V2 E :
  0 <= c -> half_ok c TU U1 U2 -> half_ok c TV V1 V2 -> Z.gcd (val TU) (val TV) = 1 ->
  bits_left (val TU) + bits_left (val TV) <= Z.of_nat fuel ->
  runs d (inv_loop fuel TA TB TU U1 U2 TV V1 V2)
    (fun V' => inv_result (c + Z.of_nat fuel) V') E.
Proof using All.
  revert c TU U1 U2 TV V1 V2. induction fuel as [|fuel IH];
    intros c TU U1 U2 TV V1 V2 Hc HU HV Hgcd Hf; cbn [inv_loop].
  { destruct HU as (_ & _ & Hp & _). pose proof (bits_left_pos _ Hp).
    destruct HV as (_ & _ & Hp' & _). pose proof (bits_left_pos _ Hp'). lia. }
  eapply runs_bind; [apply halve_ok; [exact Hc|exact HU]|]. 
  intros [[TU1 U11] U21] (Hb1 & Hs1 & Hp1 & Ho1 & Hbd1 & Hbl1 & Hg1).
  eapply runs_bind; [apply halve_ok; [exact Hc|exact HV]|]. 
  intros [[TV1 V11] V21] (Hb2 & Hs2 & Hp2 & Ho2 & Hbd2 & Hbl2 & Hg2).
  assert (Hgcd1 : Z.gcd (val TU1) (val TV1) = 1).
  { apply Hg1. rewrite Z.gcd_comm. apply Hg2. rewrite Z.gcd_comm. exact Hgcd. }
  rewrite cmp_mpi_pos_leb by (auto; apply Hb1 || apply Hb2).
  assert (HmU : mag TU1 = val TU1) by (unfold val; rewrite Hs1; lia).
  assert (HmV : mag TV1 = val TV1) by (unfold val; rewrite Hs2; lia).
  rewrite HmU, HmV. case_bool (val TV1 <=? val TU1).
  - eapply runs_bind with (Q := fun '(T, W1, W2, TV', V1', V2') =>
      (bezout T W1 W2 /\ mpi_s T = 1 /\ val T = val TU1 - val TV1 /\ val W1 = val U11 - val V11)
      /\ (TV', V1', V2') = (TV1, V11, V21)).
    { runs_step bezout_sub; [exact Hb1|exact Hb2|exact Hs1|exact Hs2|exact E0|].
      intros [[T W1] W2] H. apply runs_ret.
      exact (conj H eq_refl). }
    intros [[[[[T W1] W2] TV'] V1'] V2'] [(HbT & HsT & HvT & HvW) [= -> -> ->]].
    rewrite cmp_int_0_eqb by apply HbT.
    assert (HmT : mag T = val T) by (unfold val; rewrite HsT; lia). rewrite HmT.
    destruct (half_ok_keep c TV1 V11 V21 Hb2 Hs2 Hp2 Ho2 Hbd2) as [HV' Hbl2'].
    case_bool (val T =? 0).
    + apply runs_ret. assert (Hv1 : val TV1 = 1).
      { replace (val TU1) with (val TV1) in Hgcd1 by lia. rewrite Z.gcd_diag in Hgcd1. lia. }
      destruct Hb2 as (_ & HV1 & _ & _ & _ & _ & Heq).
      split; [exact HV1|]. split; [exists (val V21); lia|]. nia.
    + destruct (half_ok_sub c (val TU1) T W1 W2 Hc HbT HsT) as [HU' Hbl1']; try lia; [dlia|].
      eapply runs_post; [apply (IH (c + 1)); auto; [lia|rewrite HvT; now apply gcd_sub|lia]|].
      intros V'. now replace (c + 1 + Z.of_nat fuel) with (c + Z.of_nat (S fuel)) by lia.
  - eapply runs_bind with (Q := fun '(TU', U1', U2', T, W1, W2) =>
      (bezout T W1 W2 /\ mpi_s T = 1 /\ val T = val TV1 - val TU1 /\ val W1 = val V11 - val U11)
      /\ (TU', U1', U2') = (TU1, U11, U21)).
    { runs_step bezout_sub; [exact Hb2|exact Hb1|exact Hs2|exact Hs1|lia|].
      intros [[T W1] W2] H. apply runs_ret.
      exact (conj H eq_refl). }
    intros [[[[[TU' U1'] U2'] T] W1] W2] [(HbT & HsT & HvT & HvW) [= -> -> ->]].
    rewrite cmp_int_0_eqb, HmU by apply Hb1. rewrite (proj2 (Z.eqb_neq _ _)) by lia.
    destruct (half_ok_keep c TU1 U11 U21 Hb1 Hs1 Hp1 Ho1 Hbd1) as [HU' Hbl1'].
    destruct (half_ok_sub c (val TV1) T W1 W2 Hc HbT HsT) as [HV' Hbl2']; try lia; [dlia|].
    eapply runs_post; [apply (IH (c + 1)); auto; [lia| |lia]|].
    + rewrite HvT, Z.gcd_comm. apply gcd_sub. now rewrite Z.gcd_comm.
    + intros V'. now replace (c + 1 + Z.of_nat fuel) with (c + Z.of_nat (S fuel)) by lia.
Qed.
End Inverse.

(** The loops that bring the inverse into range. *)
Lemma mod_up_far fuel R B E :
  mpi_wf R -> mpi_wf B -> 0 < val B -> - (Z.of_nat fuel * val B) <= val R -> val R <> 0 ->
  val R mod val B <> 0 ->
  runs NoFail (mod_up fuel R (Var B))
    (fun R' => mpi_wf R' /\ 0 < val R' /\ (val R < 0 -> val R' < val B) /\
               (0 < val R -> val R' = val R) /\ (exists k, val R' = val R + k * val B)) E.
Proof.
  intros HR HB HvB. revert R HR. induction fuel as [|fuel IH]; intros R HR Hb Hnz Hmod; cbn [mod_up];
    rewrite cmp_int_0_ltb by auto.
  - rewrite (proj2 (Z.ltb_ge _ _)) by lia. apply runs_ret.
    split; [exact HR|]. split; [lia|]. split; [lia|]. split; [auto|]. exists 0. lia.
  - case_bool (val R <? 0).
    2: { apply runs_ret. split; [exact HR|]. split; [lia|]. split; [lia|]. split; [auto|].
         exists 0. lia. }
    runs_step mpi_add_mpi_spec; auto. intros R1 (HR1 & Hv1 & _). simpl deref in *.
    assert (Hm1 : val R1 mod val B = val R mod val B).
    { rewrite Hv1, <- (Z.mod_add (val R) 1) by lia. f_equal. lia. }
    assert (Hnz1 : val R1 <> 0) by (intros Hz; rewrite Hz, Z.mod_0_l in Hm1 by lia; auto).
    eapply runs_post; [apply IH; auto; [nia|now rewrite Hm1]|].
    intros R2 (H1 & H2 & H3 & H4 & (k & H5)). split; [exact H1|]. split; [exact H2|].
    split; [|split; [lia|exists (k + 1); lia]]. intros _.
    destruct (Z.lt_ge_cases (val R1) 0); [auto|]. rewrite H4; lia.
Qed.

Lemma mod_down_far fuel R B E :
  mpi_wf R -> mpi_wf B -> 0 < val B -> mpi_s R = 1 -> val R < (Z.of_nat fuel + 1) * val B ->
  runs NoFail (mod_down fuel R (Var B))
    (fun R' => mpi_wf R' /\ val R' = val R mod val B /\ mpi_s R' = 1) E.
Proof.
  intros HR HB HvB. pose proof (pos_sign B HB HvB) as HsB.
  assert (HmB : val B = mag B) by (unfold val; rewrite HsB; lia).
  revert R HR. induction fuel as [|fuel IH]; intros R HR HsR Hb; cbn [mod_down]; simpl deref;
    rewrite cmp_mpi_pos_leb by auto; pose proof (mag_nonneg R HR) as HR0;
    assert (HmR : val R = mag R) by (unfold val; rewrite HsR; lia); rewrite <- HmR, <- HmB in *.
  - rewrite (proj2 (Z.leb_gt _ _)) by lia. apply runs_ret. rewrite Z.mod_small by lia. auto.
  - case_bool (val B <=? val R).
    2: { apply runs_ret. rewrite Z.mod_small by lia. auto. }
    runs_step mpi_sub_mpi_pos; auto; [lia|]. intros R1 (HR1 & Hs1 & Hm1 & _).
    assert (Hv1 : val R1 = val R - val B) by (unfold val at 1; rewrite Hs1, Hm1; lia).
    eapply runs_post; [apply IH; auto; rewrite Hv1; lia|].
    intros R2 (H1 & H2 & H3). split; [exact H1|]. split; [|exact H3].
    rewrite H2, Hv1, <- (Z.mod_add (val R) (-1)) by lia.
    now replace (val R + -1 * val B) with (val R - val B) by lia.
Qed.

Section InvModSpec.
Context (hl : bool).

Lemma cmp_int_0_leb X : mpi_wf X -> (mpi_cmp_int X 0 <=? 0) = (val X <=? 0).
Proof.
  intros HX. rewrite mpi_cmp_int_0 by auto.
  destruct (Z.compare_spec (val X) 0); simpl; symmetry; rewrite ?Z.leb_le, ?Z.leb_gt; lia.
Qed.

(** The test for coprimality. *)
Lemma gcd_test G A N :
  mpi_wf G -> mpi_s G = 1 -> mag G = Z.gcd (val A) (val N) ->
  (mpi_cmp_int G 1 =? 0) = (Z.gcd (val A) (val N) =? 1).
Proof.
  intros HG HsG HmG. rewrite mpi_cmp_int_pos by (auto; lia).
  unfold val. rewrite HsG, Z.mul_1_l. fold (val A) (val N). rewrite HmG.
  destruct (Z.compare_spec (Z.gcd (val A) (val N)) 1) as [Hc|Hc|Hc]; cbn [cmp_sign Z.eqb]; symmetry;
    rewrite ?Z.eqb_eq, ?Z.eqb_neq; lia.
Qed.

Lemma lset_fresh z E : 0 <= z < base ->
  runs NoFail (mpi_lset mpi_init z)
    (fun X => mpi_wf X /\ val X = z /\ (0 < mpi_n X)%nat) E.
Proof.
  intros Hz. eapply runs_post; [apply mpi_lset_spec; lia|]. intros X (H1 & H2 & H3 & _).
  split; [exact H1|]. split; [exact H2|lia].
Qed.

(** [mpi_inv_mod] returns the inverse of [A] modulo [N], for [N > 1] and a
    coprime [A] of either sign. *)
Lemma mpi_inv_mod_spec X A N :
  mpi_wf A -> canon A -> mpi_wf N -> 1 < val N -> Z.gcd (val A) (val N) = 1 ->
  est_good hl (norm_limb (mag N)) ->
  runs NoFail (mpi_inv_mod hl X A N)
    (fun X' => mpi_wf X' /\ 0 < val X' < val N /\ (val X' * val A) mod val N = 1) no_err.
Proof.
  intros HA HcA HN HvN Hgcd Hest. unfold mpi_inv_mod.
  rewrite cmp_int_0_leb by auto. rewrite (proj2 (Z.leb_gt _ _)) by lia.
  assert (HmN : val N = mag N) by (apply val_nonneg_mag; auto; lia).
  pose proof (pos_sign N HN ltac:(lia)) as HsN.
  runs_step mpi_gcd_spec; auto; [lia|]. intros G (HG & HsG & HmG).
  rewrite (gcd_test G A N) by auto. rewrite Hgcd. cbn [Z.eqb Pos.eqb negb].
  runs_step mpi_mod_mpi_spec; auto; [lia|discriminate|]. intros TA (HTA & HvTA & HsTA & _).
  simpl deref in HvTA. pose proof (Z.mod_pos_bound (val A) (val N) ltac:(lia)) as Hab.
  rewrite <- HvTA in Hab.
  assert (Hg2 : Z.gcd (val TA) (val N) = 1).
  { rewrite HvTA, Z.gcd_mod by lia. rewrite Z.gcd_comm. exact Hgcd. }
  assert (Ha : 0 < val TA).
  { destruct (Z.eq_dec (val TA) 0) as [Hz|]; [|lia]. rewrite Hz, Z.gcd_0_l in Hg2. lia. }
  runs_step mpi_copy_spec; [exact HTA|]. intros TU (HTU & HmTU & HsTU & _).
  runs_step mpi_copy_spec; [exact HN|]. intros TB (HTB & HmTB & HsTB & _).
  runs_step mpi_copy_spec; [exact HN|]. intros TV (HTV & HmTV & HsTV & _). simpl deref in *.
  assert (HvTB : val TB = val N) by (unfold val; congruence).
  assert (HvTU : val TU = val TA) by (unfold val; congruence).
  assert (HvTV : val TV = val N) by (unfold val; congruence).
  runs_step lset_fresh; [lia|]. intros U1 (HU1 & HvU1 & HnU1).
  runs_step lset_fresh; [lia|]. intros U2 (HU2 & HvU2 & HnU2).
  runs_step lset_fresh; [lia|]. intros V1 (HV1 & HvV1 & HnV1).
  runs_step lset_fresh; [lia|]. intros V2 (HV2 & HvV2 & HnV2). cbv zeta.
  assert (HnTU : (0 < mpi_n TU)%nat).
  { apply mag_pos_n; auto. rewrite <- val_nonneg_mag; auto; lia. }
  assert (HnTV : (0 < mpi_n TV)%nat).
  { apply mag_pos_n; auto. rewrite <- val_nonneg_mag; auto; lia. }
  set (bits := S (bits_of TU TV)).
  eapply runs_bind.
  { eapply (inv_loop_spec TA TB HTA HTB Ha ltac:(lia) ltac:(rewrite HvTB; exact Hg2) _ _ 0);
      rewrite ?HvTU, ?HvTV.
    - lia.
    - split; [|split; [congruence|split; [lia|rewrite HvU1, HvTU; destr_if; lia]]].
      unfold bezout. repeat (split; [assumption|]). rewrite HvU1, HvU2, HvTU. ring.
    - split; [|split; [congruence|split; [lia|rewrite HvV1, HvTV; destr_if; lia]]].
      unfold bezout. repeat (split; [assumption|]). rewrite HvV1, HvV2, HvTV, HvTB. ring.
    - exact Hg2.
    - pose proof (bitlen_mag TU HTU) as Hb1. pose proof (bitlen_mag TV HTV) as Hb2.
      rewrite <- (val_nonneg_mag TU), HvTU in Hb1 by (auto; lia).
      rewrite <- (val_nonneg_mag TV), HvTV in Hb2 by (auto; lia).
      unfold bits, bits_of, bits_left. repeat destr_if; lia. }
  intros V (HV & (k & Hk) & Hbd). rewrite HvTB in Hk, Hbd.
  assert (Hinv : (val V * val A) mod val N = 1).
  { rewrite <- (Z.mul_mod_idemp_r (val V)), <- HvTA by lia.
    rewrite <- (Z.mod_add _ k), Hk by lia. apply Z.mod_small. lia. }
  assert (Hnz : val V mod val N <> 0).
  { intros Hz. rewrite <- (Z.mul_mod_idemp_l (val V)), Hz, Z.mod_0_l in Hinv by lia. discriminate. }
  assert (HvV : val V <> 0) by (intros Hz; rewrite Hz, Z.mod_0_l in Hnz; lia).
  runs_step mod_up_far; auto; [lia|nia|]. intros R (HR & HvR & HR1 & HR2 & (j & HR3)).
  runs_step mod_down_far; auto; [lia|apply pos_sign; auto|nia|]. intros R' (HR' & HvR' & HsR').
  eapply runs_post; [apply mpi_copy_spec; exact HR'|]. simpl deref. intros X' (HX' & HmX' & HsX' & _).
  split; [exact HX'|]. assert (HvX : val X' = val V mod val N).
  { simpl in HmX', HsX'. unfold val at 1. rewrite HmX', HsX'. fold (val R').
    rewrite HvR', HR3, Z.mod_add by lia. reflexivity. }
  rewrite HvX. pose proof (Z.mod_pos_bound (val V) (val N) ltac:(lia)).
  split; [lia|]. rewrite Z.mul_mod_idemp_l by lia. exact Hinv.
Qed.
End InvModSpec.
