(* ===== verification/MpiBin.v ===== *)
(** * Multi-precision integers: binary import and export

    [mpi_read_binary] and [mpi_write_binary] of
    [libsparkle/crypto/bignum.c].  Bytes are integers in [0 .. 255]. *)
From Stdlib Require Import ZArith List Lia Bool.
Import ListNotations.
From S2P Require Import Prelude CMonad Limbs Mpi MpiShift.
#[local] Open Scope Z_scope.
#[local] Open Scope cmonad_scope.

(** ** Operations *)

(** [for( n = 0; n < buflen; n++ ) if( buf[n] != 0 ) break;] *)
Fixpoint skip_zeros (buf : list Z) : list Z :=
  match buf with
  | b :: buf' => if b =? 0 then skip_zeros buf' else buf
  | [] => []
  end.

(** The bytes from the last one up: byte [j] of the number goes to limb
    [j / ciL]. *)
Fixpoint read_bytes (bytes : list Z) (j : nat) (p : list Z) : M (list Z) :=
  match bytes with
  | [] => ret p
  | b :: bytes' =>
      x <- rd p (j / ciL);;
      p <- wr p (j / ciL) (Z.lor x (w64 (Z.shiftl b (Z.shiftl (Z.of_nat (j mod ciL)) 3))));;
      read_bytes bytes' (S j) p
  end.

Definition mpi_read_binary (X : mpi) (buf : list Z) : M mpi :=
  let tail := skip_zeros buf in
  X <- mpi_grow X (CHARS_TO_LIMBS (length tail));;
  X <- mpi_lset X 0;;
  p <- read_bytes (rev tail) 0 (mpi_p X);;
  ret (Mpi (mpi_s X) p).

(** [for( i = buflen - 1, j = 0; n > 0; i--, j++, n-- )] *)
Fixpoint write_bytes (n j : nat) (p buf : list Z) : M (list Z) :=
  match n with
  | O => ret buf
  | S n' =>
      x <- rd p (j / ciL);;
      buf <- wr buf (length buf - 1 - j)
               (u8 (Z.shiftr x (Z.shiftl (Z.of_nat (j mod ciL)) 3)));;
      write_bytes n' (S j) p buf
  end.

(** Fills a buffer of [buflen] bytes. *)
Definition mpi_write_binary (X : mpi) (buflen : nat) : M (list Z) :=
  n <- mpi_size X;;
  if Z.of_nat buflen <? n then throw POLARSSL_ERR_MPI_BUFFER_TOO_SMALL
  else write_bytes (Z.to_nat n) 0 (mpi_p X) (repeat 0 buflen).

(** ** The value of a byte string *)

Lemma le_value_zeros k : le_value (repeat 0 k) = 0.
Proof. induction k; simpl; lia. Qed.

Lemma le_value_upd l j x :
  (j < length l)%nat -> le_value (upd_list l j x) = le_value l + p256 j * (x - nth j l 0).
Proof.
  revert j; induction l as [|b l IH]; intros j Hj; simpl in Hj; [lia|].
  destruct j as [|j]; cbn [upd_list le_value nth].
  - change (p256 0) with 1. lia.
  - rewrite IH, p256_S by lia. ring.
Qed.

Lemma skip_zeros_value buf : be_value (skip_zeros buf) = be_value buf.
Proof.
  unfold be_value. induction buf as [|b buf IH]; [reflexivity|]. cbn [skip_zeros].
  case_bool (b =? 0); [|reflexivity]. subst b.
  rewrite IH. simpl rev. rewrite le_value_app. cbn [le_value]. lia.
Qed.

Lemma skip_zeros_bytes buf : Forall byte buf -> Forall byte (skip_zeros buf).
Proof.
  induction 1 as [|b buf Hb H IH]; cbn [skip_zeros]; [constructor|].
  destruct (b =? 0); [exact IH|now constructor].
Qed.

(** ** Import *)

(** Byte [j] of a number sits in limb [j / 8]. *)
Lemma p256_limb j : p256 j = bpow (j / 8) * p256 (j mod 8).
Proof.
  rewrite bpow_pow2, !p256_pow2, <- Z.pow_add_r by lia. f_equal.
  pose proof (Nat.div_mod j 8 ltac:(lia)). lia.
Qed.

Lemma shift_8 r : Z.shiftl (Z.of_nat r) 3 = 8 * Z.of_nat r.
Proof. rewrite Z.shiftl_mul_pow2 by lia. change (2 ^ 3) with 8. lia. Qed.

Lemma read_bytes_spec d bytes j p E :
  Forall byte bytes -> limbs p -> eval p < p256 j -> (j + length bytes <= 8 * length p)%nat ->
  runs d (read_bytes bytes j p)
    (fun p' => limbs p' /\ length p' = length p /\ eval p' = eval p + p256 j * le_value bytes) E.
Proof.
  intros Hb. revert j p. induction Hb as [|b bytes Hb Hbs IH]; intros j p Hp Hlt Hlen;
    cbn [read_bytes le_value length] in *.
  - apply runs_ret. split; [exact Hp|split; [reflexivity|lia]].
  - pose proof (Nat.div_mod j 8 ltac:(lia)) as Hdm. pose proof (Nat.mod_upper_bound j 8 ltac:(lia)) as Hm.
    assert (Hj : (j / 8 < length p)%nat) by lia.
    runs_step runs_rd; [exact Hj|]. intros x Hx. runs_step runs_wr; [exact Hj|]. intros p' ->.
    pose proof (eval_nonneg p Hp) as He0. pose proof (bpow_pos (j / 8)) as Hbp.
    rewrite p256_limb in Hlt. set (r := (j mod 8)%nat) in *.
    assert (Hxr : 0 <= x < p256 r).
    { pose proof (nth_limb p (j / 8) Hp) as Hl. rewrite <- Hx in Hl. unfold limb in Hl.
      split; [lia|]. subst x. rewrite nth_eval by auto.
      assert (Hd : eval p / bpow (j / 8) < p256 r) by (apply Z.div_lt_upper_bound; lia).
      pose proof (Z.mod_le (eval p / bpow (j / 8)) base) as Hmod.
      pose proof (Z.div_pos (eval p) (bpow (j / 8))). lia. }
    unfold byte in Hb. rewrite p256_pow2 in Hxr.
    assert (H2 : 0 < 2 ^ (8 * Z.of_nat r)) by (apply Z.pow_pos_nonneg; lia).
    assert (Hp2 : 2 ^ (8 * Z.of_nat r) * 256 <= base).
    { change 256 with (2 ^ 8). rewrite <- Z.pow_add_r by lia.
      change base with (2 ^ 64). apply Z.pow_le_mono_r; lia. }
    assert (Hv : Z.lor x (w64 (Z.shiftl b (Z.shiftl (Z.of_nat r) 3)))
                 = b * 2 ^ (8 * Z.of_nat r) + x).
    { rewrite shift_8, Z.shiftl_mul_pow2 by lia. rewrite w64_small by (unfold limb; nia).
      rewrite Z.lor_comm, lor_disjoint by lia. reflexivity. }
    rewrite Hv.
    assert (Hnew : eval (upd_list p (j / 8) (b * 2 ^ (8 * Z.of_nat r) + x)) = eval p + p256 j * b).
    { rewrite eval_upd_list by exact Hj. rewrite <- Hx, p256_limb, p256_pow2. fold r. ring. }
    eapply runs_post; [apply IH|].
    + apply Forall_upd_list; [exact Hp|]. unfold limb. nia.
    + rewrite Hnew, p256_S, p256_limb. fold r.
      pose proof (p256_pos r). rewrite p256_pow2 in *. nia.
    + rewrite length_upd_list. lia.
    + intros p' (H1 & H3 & H4). split; [exact H1|]. split; [now rewrite H3, length_upd_list|].
      rewrite H4, Hnew, p256_S. ring.
Qed.

(** [mpi_read_binary] reads the big-endian number. *)
Lemma mpi_read_binary_full X buf :
  mpi_wf X -> Forall byte buf ->
  runs NoFail (mpi_read_binary X buf)
    (fun X' => mpi_wf X' /\ (mpi_s X' = 1 /\ (0 < mpi_n X')%nat) /\ val X' = be_value buf) no_err.
Proof.
  intros HX Hbuf. unfold mpi_read_binary.
  pose proof (skip_zeros_bytes buf Hbuf) as Ht. set (tail := skip_zeros buf) in *.
  runs_step mpi_grow_spec; [exact HX|]. intros X1 (HX1 & _ & _ & Hn1).
  runs_step mpi_lset_spec; [lia|]. intros X2 (HX2 & _ & Hn2 & Hs2 & Hp2).
  assert (He2 : eval (mpi_p X2) = 0) by (rewrite Hp2; cbn [eval]; rewrite eval_zeros; reflexivity).
  eapply runs_bind.
  { apply read_bytes_spec; auto with limbs.
    - now apply Forall_rev.
    - rewrite He2. apply p256_pos.
    - rewrite length_rev. fold (mpi_n X2). rewrite Hn2, Hn1. unfold CHARS_TO_LIMBS.
      pose proof (Nat.div_mod (length tail + 8 - 1) 8 ltac:(lia)).
      pose proof (Nat.mod_upper_bound (length tail + 8 - 1) 8 ltac:(lia)). lia. }
  intros p (Hp & Hlp & He). apply runs_ret. rewrite Hs2. split; [split; simpl; auto with limbs|].
  split; [split; [reflexivity|unfold mpi_n in *; cbn [mpi_p]; lia]|].
  unfold val, mag. cbn [mpi_s mpi_p]. rewrite He, He2. change (p256 0) with 1.
  change (le_value (rev tail)) with (be_value tail). unfold tail. rewrite skip_zeros_value.
  cbn [Z.ltb Z.compare]. lia.
Qed.

Lemma mpi_read_binary_spec X buf :
  mpi_wf X -> Forall byte buf ->
  runs NoFail (mpi_read_binary X buf)
    (fun X' => mpi_wf X' /\ val X' = be_value buf) no_err.
Proof.
  intros HX Hb. eapply runs_post; [now apply mpi_read_binary_full|]. intros X' (H1 & _ & H2). auto.
Qed.

(** ** Export *)

Lemma byte_of_limb x r : (r < 8)%nat -> u8 (Z.shiftr (x mod base) (8 * Z.of_nat r)) = (x / p256 r) mod 256.
Proof.
  intros Hr. rewrite p256_pow2, Z.shiftr_div_pow2 by lia. unfold u8.
  assert (H2 : 0 < 2 ^ (8 * Z.of_nat r)) by (apply Z.pow_pos_nonneg; lia).
  assert (Hb : base = 2 ^ (8 * Z.of_nat r) * (256 * 2 ^ (56 - 8 * Z.of_nat r))).
  { change 256 with (2 ^ 8). rewrite <- !Z.pow_add_r by lia. change base with (2 ^ 64). f_equal. lia. }
  set (u := 2 ^ (8 * Z.of_nat r)) in *. set (w := 2 ^ (56 - 8 * Z.of_nat r)) in *.
  assert (0 < w) by (apply Z.pow_pos_nonneg; lia).
  rewrite Hb, Z.rem_mul_r by lia. rewrite (Z.mul_comm u), Z.div_add by lia.
  rewrite (Z.div_small (x mod u)), Z.add_0_l by (apply Z.mod_pos_bound; lia).
  rewrite Z.rem_mul_r by lia. rewrite (Z.mul_comm 256), Z.mod_add, Z.mod_mod by lia. reflexivity.
Qed.

Lemma rev_upd_list l j x :
  (j < length l)%nat -> rev (upd_list l (length l - 1 - j) x) = upd_list (rev l) j x.
Proof.
  intros Hj. apply nth_ext with 0 0; rewrite ?length_rev, ?length_upd_list, ?length_rev; [lia|].
  intros i Hi. rewrite rev_nth by (rewrite length_upd_list; lia). rewrite length_upd_list.
  destruct (Nat.eq_dec i j) as [->|Hne].
  - rewrite nth_upd_list_eq by (rewrite length_rev; lia).
    replace (length l - S j)%nat with (length l - 1 - j)%nat by lia.
    apply nth_upd_list_eq. lia.
  - rewrite !nth_upd_list_ne by lia. rewrite rev_nth by lia. reflexivity.
Qed.

Lemma write_bytes_spec d n j p buf E :
  limbs p -> (j + n <= 8 * length p)%nat -> (j + n <= length buf)%nat -> Forall byte buf ->
  le_value (rev buf) = eval p mod p256 j -> (forall i, (j <= i)%nat -> nth i (rev buf) 0 = 0) ->
  runs d (write_bytes n j p buf)
    (fun buf' => length buf' = length buf /\ Forall byte buf' /\
       be_value buf' = eval p mod p256 (j + n)) E.
Proof.
  intros Hp. revert j buf. induction n as [|n IH]; intros j buf Hjp Hjb Hbuf Hv Hz; cbn [write_bytes].
  - apply runs_ret. rewrite Nat.add_0_r. auto.
  - pose proof (Nat.div_mod j 8 ltac:(lia)) as Hdm. pose proof (Nat.mod_upper_bound j 8 ltac:(lia)) as Hm.
    runs_step runs_rd; [lia|]. intros x ->. runs_step runs_wr; [lia|]. intros buf' ->.
    rewrite shift_8, nth_eval, byte_of_limb by auto.
    assert (Hby : (eval p / bpow (j / 8) / p256 (j mod 8)) mod 256 = (eval p / p256 j) mod 256).
    { rewrite Z.div_div, <- p256_limb by (apply p256_pos || (pose proof (bpow_pos (j / 8)); lia)).
      reflexivity. }
    rewrite Hby. set (b := (eval p / p256 j) mod 256).
    assert (Hb : byte b) by (apply Z.mod_pos_bound; lia).
    pose proof (p256_pos j) as Hpj.
    eapply runs_post; [apply IH|].
    + lia.
    + rewrite length_upd_list. lia.
    + now apply Forall_upd_list.
    + rewrite rev_upd_list, le_value_upd by (rewrite ?length_rev; lia).
      rewrite Hv, Hz by lia. rewrite p256_S, (Z.mul_comm 256), Z.rem_mul_r by lia. fold b. ring.
    + intros i Hi. rewrite rev_upd_list by lia. rewrite nth_upd_list_ne by lia. apply Hz. lia.
    + intros buf' (H1 & H2 & H3). rewrite length_upd_list in H1. split; [exact H1|].
      split; [exact H2|]. now replace (j + S n)%nat with (S j + n)%nat by lia.
Qed.

(** [mpi_write_binary] fills the buffer with the big-endian number. *)
Lemma mpi_write_binary_spec d X buflen E :
  mpi_wf X -> (0 < mpi_n X)%nat -> (bitlen (mag X) + 7) / 8 <= Z.of_nat buflen ->
  runs d (mpi_write_binary X buflen)
    (fun buf => length buf = buflen /\ Forall byte buf /\ be_value buf = mag X) E.
Proof.
  intros HX Hn Hlen. unfold mpi_write_binary. runs_step mpi_size_spec; auto. intros n ->.
  case_bool (Z.of_nat buflen <? (bitlen (mag X) + 7) / 8); [lia|].
  assert (Hb0 : 0 <= bitlen (mag X)).
  { unfold bitlen. destr_if; [lia|]. pose proof (Z.log2_nonneg (mag X)). lia. }
  set (n := Z.to_nat ((bitlen (mag X) + 7) / 8)).
  assert (Hnz : Z.of_nat n = (bitlen (mag X) + 7) / 8) by (unfold n; rewrite Z2Nat.id; dlia).
  pose proof (mag_nonneg X HX) as Hm0.
  assert (Hfit : mag X < p256 n).
  { rewrite p256_pow2. apply bitlen_bound; dlia. }
  assert (Hnp : (n <= 8 * mpi_n X)%nat).
  { assert (bitlen (mag X) <= 64 * Z.of_nat (mpi_n X)).
    { pose proof (eval_bounds (mpi_p X) ltac:(auto with limbs)) as Hb. fold (mag X) (mpi_n X) in Hb.
      unfold bitlen. destr_if; [lia|]. rewrite bpow_pow2 in Hb.
      pose proof (Z.log2_lt_pow2 (mag X) (biL * Z.of_nat (mpi_n X))). lia. }
    dlia. }
  eapply runs_post; [apply write_bytes_spec; auto with limbs; rewrite ?repeat_length|].
  - lia.
  - apply Forall_repeat. unfold byte. lia.
  - rewrite rev_repeat, le_value_zeros. change (p256 0) with 1. now rewrite Z.mod_1_r.
  - intros i _. rewrite rev_repeat. apply nth_repeat.
  - intros buf (H1 & H2 & H3). rewrite repeat_length in H1. split; [exact H1|]. split; [exact H2|].
    rewrite H3. simpl Nat.add. apply Z.mod_small. fold (mag X). lia.
Qed.

Lemma mpi_write_binary_err d X buflen Q :
  mpi_wf X -> (0 < mpi_n X)%nat -> Z.of_nat buflen < (bitlen (mag X) + 7) / 8 ->
  runs d (mpi_write_binary X buflen) Q (fun e => e = POLARSSL_ERR_MPI_BUFFER_TOO_SMALL).
Proof.
  intros HX Hn Hlen. unfold mpi_write_binary. runs_step mpi_size_spec; auto. intros n ->.
  case_bool (Z.of_nat buflen <? (bitlen (mag X) + 7) / 8); [|lia]. now apply runs_throw.
Qed.
