(* ===== verification/Fermat.v ===== *)
(** * Fermat's little theorem

    MathComp's theorem on the naturals, carried to the integers and the primes
    of the Standard Library; [NumTheory] builds on it. *)
From Stdlib Require Import ZArith Znumtheory Lia.
From mathcomp Require Import boot.
#[local] Open Scope Z_scope.

(** ** From MathComp's naturals to the integers *)

Lemma of_nat_expn (a n : nat) : Z.of_nat (expn a n) = Z.of_nat a ^ Z.of_nat n.
Proof.
  elim: n => [|n IH]; first by rw expn0.
  have Hn := Nat2Z.is_nonneg n.
  by rw expnS Nat2Z.inj_succ (Z.pow_succ_r _ _ Hn) -IH -Nat2Z.inj_mul.
Qed.

Lemma of_nat_modn (a b : nat) : (0 < b)%N -> Z.of_nat (modn a b) = Z.of_nat a mod Z.of_nat b.
Proof.
  move=> Hb. apply: (Z.mod_unique _ _ (Z.of_nat (divn a b))).
  - left. have /ltP := ltn_pmod a Hb. lia.
  - have := divn_eq a b. rw -plusE -multE => H. rw {1}H. lia.
Qed.

Lemma prime_of_Z (p : nat) : Znumtheory.prime (Z.of_nat p) -> prime.prime p.
Proof.
  move=> Hp. have H1 : (1 < Z.of_nat p) by case: Hp.
  apply/primeP; split; first by apply/ltP; lia.
  move=> d /dvdnP [k Hk].
  have Hd : (Z.of_nat d | Z.of_nat p).
  { exists (Z.of_nat k). by rw Hk -multE Nat2Z.inj_mul. }
  have [H|[H|[H|H]]] := prime_divisors _ Hp _ Hd; apply/orP.
  - lia.
  - left. apply/eqP. lia.
  - right. apply/eqP. lia.
  - lia.
Qed.

(** Fermat's little theorem. *)
Lemma fermat_Z p a : Znumtheory.prime p -> 0 <= a -> a ^ p mod p = a mod p.
Proof.
  move=> Hp Ha. have H1 : (1 < p) by case: Hp.
  have Ep : Z.of_nat (Z.to_nat p) = p by apply: Z2Nat.id; lia.
  have Ea : Z.of_nat (Z.to_nat a) = a by apply: Z2Nat.id.
  move: Hp H1. rw -Ep -Ea. move: (Z.to_nat p) (Z.to_nat a) => q b Hp H1.
  have Hq : (0 < q)%N by apply/ltP; lia.
  rw -of_nat_expn -!of_nat_modn //. congr Z.of_nat. exact: fermat_little (prime_of_Z _ Hp).
Qed.
