(* ===== verification/NumTheory.v ===== *)
(** * Number theory of the primality test and of RSA

    Fermat's theorem for units, trial division, the exponent law, exponents
    reduced modulo [p - 1] and the recombination by the Chinese remainder
    theorem, on which [mpi_is_prime] and [libsparkle/crypto/rsa.c] rely. *)
From Stdlib Require Import ZArith Znumtheory Zpow_facts Lia.
From S2P Require Import Fermat.
#[local] Open Scope Z_scope.

Lemma prime_gt_1 p : prime p -> 1 < p.
Proof. now intros [H _]. Qed.

Lemma mod_eq_divide n x y : 0 < n -> x mod n = y mod n <-> (n | x - y).
Proof.
  intros Hn. rewrite <- Z.mod_divide by lia. split; intros E.
  - now rewrite Zminus_mod, E, Z.sub_diag, Z.mod_0_l by lia.
  - rewrite <- (Z.sub_add y x) at 1. rewrite Z.add_mod, E, Z.add_0_l, Z.mod_mod by lia. reflexivity.
Qed.

(** A number below a prime to the power of the prime less one. *)
Lemma fermat_unit p a : prime p -> 0 < a < p -> a ^ (p - 1) mod p = 1.
Proof.
  intros Hp Ha. pose proof (prime_gt_1 p Hp) as H1.
  assert (H : (p | a * (a ^ (p - 1) - 1))).
  { replace (a * (a ^ (p - 1) - 1)) with (a ^ p - a).
    - apply mod_eq_divide; [lia|]. apply fermat_Z; [exact Hp|lia].
    - replace p with (Z.succ (p - 1)) at 1 by lia. rewrite Z.pow_succ_r by lia. ring. }
  apply prime_mult in H as [H|H]; [apply Z.divide_pos_le in H; lia| |exact Hp].
  apply mod_eq_divide in H; [|lia]. now rewrite (Z.mod_small 1) in H by lia.
Qed.

(** ** Trial division *)

Lemma prime_factor n : 1 < n -> exists p, prime p /\ (p | n).
Proof.
  intros H. assert (H0 : 0 <= n) by lia. revert H. pattern n. apply Z_lt_induction; [|exact H0].
  clear n H0. intros n IH Hn. destruct (prime_dec n) as [Hp|Hp].
  - exists n. split; [exact Hp|apply Z.divide_refl].
  - destruct (not_prime_divide n Hn Hp) as (a & Ha & Hd). destruct (IH a) as (p & Hp1 & Hp2); [lia|lia|].
    exists p. split; [exact Hp1|]. now apply Z.divide_trans with a.
Qed.

(** A number above one that is not prime has a prime factor whose square is
    not above it. *)
Lemma small_factor n : 1 < n -> ~ prime n -> exists p, prime p /\ (p | n) /\ p * p <= n.
Proof.
  intros Hn Hp. destruct (not_prime_divide n Hn Hp) as (a & Ha & b & Hb).
  assert (Hf : forall c d, 1 < c -> n = d * c -> c <= d -> exists p, prime p /\ (p | n) /\ p * p <= n).
  { intros c d Hc E Hle. destruct (prime_factor c Hc) as (p & Hp1 & Hp2). exists p.
    split; [exact Hp1|]. split; [apply Z.divide_trans with c; [exact Hp2|now exists d]|].
    apply Z.divide_pos_le in Hp2; [|lia]. pose proof (prime_gt_1 p Hp1).
    rewrite E. apply Z.mul_le_mono_nonneg; lia. }
  assert (1 < b) by (clear Hf; nia).
  destruct (Z.le_gt_cases a b); [apply (Hf a b); lia|apply (Hf b a); lia].
Qed.

(** ** Exponents *)

(** [a^(1 + k (p-1))] is [a] modulo the prime [p]. *)
Lemma fermat_exp p a k :
  prime p -> 0 <= a -> 0 <= k -> a ^ (1 + k * (p - 1)) mod p = a mod p.
Proof.
  intros Hp Ha Hk. pose proof (prime_gt_1 p Hp) as H1. pattern k. revert k Hk. apply natlike_ind.
  - now rewrite Z.mul_0_l, Z.add_0_r, Z.pow_1_r.
  - intros k Hk IH. replace (1 + Z.succ k * (p - 1)) with (k * (p - 1) + p) by lia.
    rewrite Z.pow_add_r by nia. rewrite Z.mul_mod, fermat_Z, <- Z.mul_mod by (auto; lia).
    rewrite <- IH. f_equal. rewrite Z.pow_add_r by nia. rewrite Z.pow_1_r. ring.
Qed.

(** Exponents count modulo [p - 1], as long as they are not zero. *)
Lemma exp_reduce p a d :
  prime p -> 0 <= a -> 0 <= d -> 0 < d mod (p - 1) -> a ^ (d mod (p - 1)) mod p = a ^ d mod p.
Proof.
  intros Hp Ha Hd Hr. pose proof (prime_gt_1 p Hp) as H1. set (r := d mod (p - 1)) in *.
  assert (Hn : p - 1 <> 0) by (intros E; unfold r in Hr; rewrite E, Zmod_0_r in Hr; lia).
  pose proof (Z.div_mod d (p - 1) Hn) as Hdm. fold r in Hdm.
  assert (Hk : 0 <= d / (p - 1)) by (apply Z.div_pos; lia). set (k := d / (p - 1)) in *.
  replace d with ((r - 1) + (1 + k * (p - 1))) by lia. rewrite (Z.pow_add_r a (r - 1)) by nia.
  rewrite (Z.mul_mod (a ^ (r - 1))), fermat_exp, <- Z.mul_mod by (auto; lia).
  f_equal. replace r with ((r - 1) + 1) at 1 by lia. now rewrite Z.pow_add_r, Z.pow_1_r by lia.
Qed.

(** Congruent modulo two distinct primes is congruent modulo the product. *)
Lemma primes_product p q x y :
  prime p -> prime q -> p <> q -> x mod p = y mod p -> x mod q = y mod q ->
  x mod (p * q) = y mod (p * q).
Proof.
  intros Hp Hq Hne Ep Eq. pose proof (prime_gt_1 p Hp). pose proof (prime_gt_1 q Hq).
  apply mod_eq_divide; [nia|]. apply mod_eq_divide in Ep; [|lia]. apply mod_eq_divide in Eq; [|lia].
  destruct Ep as [c Ec]. rewrite Ec in Eq |- *. rewrite (Z.mul_comm p q). apply Z.mul_divide_mono_r.
  apply Gauss with p; [now rewrite Z.mul_comm in Eq|].
  apply rel_prime_sym, prime_rel_prime; [exact Hp|]. intros Hd.
  apply (prime_div_prime p q Hp Hq) in Hd. contradiction.
Qed.

Lemma mod_divide_mod x a b : 0 < a -> 0 < b -> (a | b) -> (x mod b) mod a = x mod a.
Proof. intros. symmetry. now apply Zmod_div_mod. Qed.

(** Encryption and decryption exponents undo each other, when their product
    is [1] modulo [(p - 1) (q - 1)]. *)
Lemma rsa_exp p q e d m :
  prime p -> prime q -> p <> q -> 2 < p -> 2 < q -> 0 <= m < p * q -> 0 <= e * d ->
  (e * d) mod ((p - 1) * (q - 1)) = 1 -> m ^ (e * d) mod (p * q) = m.
Proof.
  intros Hp Hq Hne Hp2 Hq2 Hm Hed H. rewrite <- (Z.mod_small m (p * q)) at 2 by lia.
  set (f := (p - 1) * (q - 1)) in *. assert (Hf : 0 < f) by (unfold f; nia).
  pose proof (Z.div_mod (e * d) f ltac:(lia)) as Hdm. rewrite H in Hdm.
  assert (Hk : 0 <= e * d / f) by (apply Z.div_pos; lia). set (k := e * d / f) in *.
  apply primes_product; auto.
  - replace (e * d) with (1 + (k * (q - 1)) * (p - 1)) by (unfold f in Hdm; lia).
    apply fermat_exp; [exact Hp|lia|nia].
  - replace (e * d) with (1 + (k * (p - 1)) * (q - 1)) by (unfold f in Hdm; lia).
    apply fermat_exp; [exact Hq|lia|nia].
Qed.

(** What is [1] times a number modulo [(p - 1) (q - 1)] is not [0] modulo
    [p - 1]. *)
Lemma inverse_nonzero e d a b :
  1 < a -> 0 < b -> (e * d) mod (a * b) = 1 -> 0 < d mod a.
Proof.
  intros Ha Hb H. pose proof (Z.mod_pos_bound d a ltac:(lia)).
  destruct (Z.eq_dec (d mod a) 0) as [E|]; [|lia]. exfalso.
  assert (H1 : (e * d) mod a = 1 mod a).
  { rewrite <- (mod_divide_mod (e * d) a (a * b)) by (try nia; exists b; ring). now rewrite H. }
  rewrite Z.mul_mod, E, Z.mul_0_r, Z.mod_0_l, Z.mod_1_l in H1; lia.
Qed.

(** Garner's recombination. *)
Lemma crt_recombine p q qp x :
  prime p -> prime q -> p <> q -> (qp * q) mod p = 1 ->
  x mod q + (((x mod p - x mod q) * qp) mod p) * q = x mod (p * q).
Proof.
  intros Hp Hq Hne Hqp. pose proof (prime_gt_1 p Hp). pose proof (prime_gt_1 q Hq).
  set (t := ((x mod p - x mod q) * qp) mod p).
  assert (Ht : 0 <= t < p) by (apply Z.mod_pos_bound; lia).
  pose proof (Z.mod_pos_bound x q ltac:(lia)) as Hxq.
  rewrite <- (Z.mod_small (x mod q + t * q) (p * q)) by nia.
  apply primes_product; auto.
  - rewrite Z.add_mod, Z.mul_mod by lia. unfold t.
    rewrite Z.mod_mod, <- Z.mul_mod, <- Z.mul_assoc by lia.
    rewrite Z.mul_mod, Hqp, Z.mul_1_r, Z.mod_mod, <- Z.add_mod by lia.
    replace (x mod q + (x mod p - x mod q)) with (x mod p) by ring. apply Z.mod_mod. lia.
  - rewrite Z.mod_add, Z.mod_mod by lia. reflexivity.
Qed.

(** ** Proth's criterion

    Primes of the form [k 2^m + 1] for the concrete keys. *)

Lemma pow_mod_1 b x y p : 1 < p -> 0 <= x -> 0 <= y -> b ^ x mod p = 1 -> (b ^ x) ^ y mod p = 1.
Proof. intros Hp Hx Hy H. rewrite <- Z.mod_pow_l, H, Z.pow_1_l by lia. apply Z.mod_small. lia. Qed.

Lemma pow_gcd b p x y :
  1 < p -> 0 <= x -> 0 <= y -> b ^ x mod p = 1 -> b ^ y mod p = 1 -> b ^ Z.gcd x y mod p = 1.
Proof.
  intros Hp Hx Hy. revert x Hx. pattern y. apply Z_lt_induction; [|exact Hy]. clear y Hy.
  intros y IH x Hx H1 H2. destruct (Z.eq_dec y 0) as [->|Hy0].
  - now rewrite Z.gcd_0_r, Z.abs_eq by lia.
  - destruct (Z.lt_ge_cases y 0) as [Hneg|Hpos].
    { rewrite Z.pow_neg_r in H2 by lia. rewrite Z.mod_0_l in H2; lia. }
    pose proof (Z.mod_pos_bound x y ltac:(lia)) as Hm.
    rewrite Z.gcd_comm, <- (Z.gcd_mod x y), Z.gcd_comm by lia. apply (IH (x mod y)); [lia|lia|exact H2|].
    pose proof (Z.div_mod x y ltac:(lia)) as Hd. assert (0 <= x / y) by (apply Z.div_pos; lia).
    rewrite Hd, Z.pow_add_r, Z.pow_mul_r, Z.mul_mod, pow_mod_1, Z.mul_1_l, Z.mod_mod in H1 by (auto; nia).
    exact H1.
Qed.

Lemma proth k m a :
  0 < k < 2 ^ m -> 1 <= m -> a ^ (k * 2 ^ (m - 1)) mod (k * 2 ^ m + 1) = k * 2 ^ m ->
  prime (k * 2 ^ m + 1).
Proof.
  intros Hk Hm H. set (n := k * 2 ^ m + 1) in *.
  assert (H2m : 2 ^ m = 2 * 2 ^ (m - 1)) by (rewrite <- Z.pow_succ_r by lia; f_equal; lia).
  assert (H2p : 0 < 2 ^ (m - 1)) by (apply Z.pow_pos_nonneg; lia).
  assert (Hn : 2 < n) by (unfold n; nia).
  destruct (prime_dec n) as [Hp|Hp]; [exact Hp|exfalso].
  destruct (small_factor n ltac:(lia) Hp) as (q & Hq & Hqn & Hqq). pose proof (prime_gt_1 q Hq) as Hq1.
  assert (Hq2 : q <> 2).
  { intros ->. destruct Hqn as [c Hc]. unfold n in Hc. lia. }
  set (b := a ^ k).
  assert (Hmod : forall x y, x mod n = y mod n -> x mod q = y mod q).
  { intros x y E. rewrite <- (mod_divide_mod x q n), <- (mod_divide_mod y q n) by (auto; lia). now rewrite E. }
  assert (Hb : b ^ 2 ^ (m - 1) mod q = (-1) mod q).
  { unfold b. rewrite <- Z.pow_mul_r by lia. apply Hmod. rewrite H.
    rewrite <- (Z.mod_small (k * 2 ^ m) n) by (unfold n; nia).
    replace (k * 2 ^ m) with (-1 + 1 * n) by (unfold n; ring). apply Z.mod_add. lia. }
  assert (Hone : b ^ 2 ^ m mod q = 1).
  { rewrite H2m, Z.mul_comm, Z.pow_mul_r by lia. rewrite <- Z.mod_pow_l, Hb, Z.mod_pow_l.
    change ((-1) ^ 2) with 1. apply Z.mod_small. lia. }
  assert (Hnz : b mod q <> 0).
  { intros E. rewrite <- Z.mod_pow_l, E, Z.pow_0_l, Z.mod_0_l in Hone by (try apply Z.pow_pos_nonneg; lia). lia. }
  assert (Hf : b ^ (q - 1) mod q = 1).
  { rewrite <- Z.mod_pow_l. apply fermat_unit; [exact Hq|]. pose proof (Z.mod_pos_bound b q). lia. }
  pose proof (pow_gcd b q (2 ^ m) (q - 1) ltac:(lia) ltac:(lia) ltac:(lia) Hone Hf) as Hg.
  assert (Hpow : exists j, 0 <= j <= m /\ Z.gcd (2 ^ m) (q - 1) = 2 ^ j).
  { destruct (Zdivide_power_2 (Z.gcd (2 ^ m) (q - 1)) 2 m) as [j Hj];
      [lia|apply Z.gcd_nonneg|apply prime_2|apply Z.gcd_divide_l|].
    assert (Hg1 : 0 < Z.gcd (2 ^ m) (q - 1)).
    { pose proof (Z.gcd_nonneg (2 ^ m) (q - 1)). assert (Z.gcd (2 ^ m) (q - 1) <> 0); [|lia].
      intros E. apply Z.gcd_eq_0_r in E. lia. }
    destruct (Z.lt_ge_cases j 0) as [Hj0|Hj0]; [rewrite (Z.pow_neg_r 2 j) in Hj; lia|].
    exists j. split; [|exact Hj]. split; [exact Hj0|].
    destruct (Z.le_gt_cases j m); [lia|]. exfalso.
    pose proof (Z.divide_pos_le (Z.gcd (2 ^ m) (q - 1)) (2 ^ m) ltac:(lia) (Z.gcd_divide_l (2 ^ m) (q - 1))) as Hle. rewrite Hj in Hle.
    apply Z.pow_le_mono_r_iff in Hle; lia. }
  destruct Hpow as (j & Hj & Hgj). rewrite Hgj in Hg.
  destruct (Z.eq_dec j m) as [->|Hjm].
  - assert (Hd : (2 ^ m | q - 1)) by (rewrite <- Hgj; apply Z.gcd_divide_r).
    apply Z.divide_pos_le in Hd; [|lia]. unfold n in Hqq. nia.
  - assert (Hm1 : b ^ 2 ^ (m - 1) mod q = 1).
    { replace (m - 1) with (j + (m - 1 - j)) by lia. rewrite Z.pow_add_r, Z.pow_mul_r by lia.
      apply pow_mod_1; auto; lia. }
    rewrite Hm1 in Hb. replace (-1) with (q - 1 + (-1) * q) in Hb by ring.
    rewrite Z.mod_add, Z.mod_small in Hb by lia. lia.
Qed.
