(* ===== verification/MpiPrime.v ===== *)
(** * Multi-precision integers: primality and prime generation

    [mpi_is_prime] and [mpi_gen_prime] of [libsparkle/crypto/bignum.c].  The
    random numbers come from the caller's callback [f_rng], a parameter: a
    function of the state that [p_rng] points to, which returns an [int] and
    the next state. *)
From Stdlib Require Import ZArith Znumtheory List Lia Bool.
Import ListNotations.
From S2P Require Import Prelude CMonad Limbs Mpi MpiAddSub MpiShift MpiMul MpiDiv.
From S2P Require Import MpiDivCorrect.
From S2P Require Import MpiMod MpiMont MpiExp MpiBin NumTheory.
#[local] Open Scope Z_scope.
#[local] Open Scope cmonad_scope.

(** ** Operations *)

Definition small_prime : list Z :=
  [3; 5; 7; 11; 13; 17; 19; 23; 29; 31; 37; 41; 43; 47; 53; 59; 61; 67; 71; 73; 79; 83; 89; 97;
   101; 103; 107; 109; 113; 127; 131; 137; 139; 149; 151; 157; 163; 167; 173; 179; 181; 191;
   193; 197; 199; 211; 223; 227; 229; 233; 239; 241; 251; 257; 263; 269; 271; 277; 281; 283;
   293; 307; 311; 313; 317; 331; 337; 347; 349; 353; 359; 367; 373; 379; 383; 389; 397; 401;
   409; 419; 421; 431; 433; 439; 443; 449; 457; 461; 463; 467; 479; 487; 491; 499; 503; 509;
   521; 523; 541; 547; 557; 563; 569; 571; 577; 587; 593; 599; 601; 607; 613; 617; 619; 631;
   641; 643; 647; 653; 659; 661; 673; 677; 683; 691; 701; 709; 719; 727; 733; 739; 743; 751;
   757; 761; 769; 773; 787; 797; 809; 811; 821; 823; 827; 829; 839; 853; 857; 859; 863; 877;
   881; 883; 887; 907; 911; 919; 929; 937; 941; 947; 953; 967; 971; 977; 983; 991; 997; -103].

(** [for( i = 0; small_prime[i] > 0; i++ )]: a return value when the
    function returns inside the loop. *)
Fixpoint trial (primes : list Z) (X : mpi) : M (option Z) :=
  match primes with
  | [] => ub
  | p :: primes' =>
      if 0 <? p then
        if mpi_cmp_int X p <=? 0 then ret (Some 0)
        else
          r <- mpi_mod_int X p;;
          if r =? 0 then ret (Some POLARSSL_ERR_MPI_NOT_ACCEPTABLE) else trial primes' X
      else ret None
  end.

(** HAC, table 4.4. *)
Definition hac_rounds (i : Z) : nat :=
  if 1300 <=? i then 2 else if 850 <=? i then 3 else if 650 <=? i then 4
  else if 350 <=? i then 8 else if 250 <=? i then 12 else if 150 <=? i then 18 else 27.

(** [X.p[0] |= 3] *)
Definition or3 (X : mpi) : M mpi :=
  x <- rd (mpi_p X) 0;;
  p <- wr (mpi_p X) 0 (Z.lor x 3);;
  ret (Mpi (mpi_s X) p).

Section Prime.
Variable have_longlong : bool.
Context {St : Type} (f_rng : St -> Z * St).

(** [*p++ = (unsigned char) f_rng( p_rng )], [n] times. *)
Fixpoint random_bytes (n : nat) (p_rng : St) : list Z * St :=
  match n with
  | O => ([], p_rng)
  | S n' =>
      let '(r, p_rng) := f_rng p_rng in
      let '(l, p_rng) := random_bytes n' p_rng in
      (u8 r :: l, p_rng)
  end.

(** The same through a pointer to limbs: eight bytes a limb, the lowest
    first. *)
Fixpoint random_limbs (n : nat) (p_rng : St) : list Z * St :=
  match n with
  | O => ([], p_rng)
  | S n' =>
      let '(b, p_rng) := random_bytes ciL p_rng in
      let '(l, p_rng) := random_limbs n' p_rng in
      (le_value b :: l, p_rng)
  end.

(** Pick a random [A], [1 < A < |X| - 1]. *)
Definition random_base (A X W : mpi) (p_rng : St) : M (mpi * St) :=
  A <- mpi_grow A (mpi_n X);;
  let '(p, p_rng) := random_limbs (mpi_n A) p_rng in
  let A := Mpi (mpi_s A) p in
  a <- mpi_msb A;;
  w <- mpi_msb W;;
  A <- mpi_shift_r A (a - w + 1);;
  A <- or3 A;;
  ret (A, p_rng).

(** [while( j < s && mpi_cmp_mpi( &A, &W ) != 0 )], with [s - j] turns to
    go. *)
Fixpoint square_loop (todo : nat) (A T W X : mpi) : M (mpi * mpi) :=
  match todo with
  | O => ret (A, T)
  | S todo' =>
      if mpi_cmp_mpi A W =? 0 then ret (A, T)
      else
        T <- mpi_mul_mpi T (Var A) (Var A);;
        A <- mpi_mod_mpi have_longlong A (Var T) (Var X);;
        if mpi_cmp_int A 1 =? 0 then ret (A, T) else square_loop todo' A T W X
  end.

(** [for( i = 0; i < n; i++ )]: the return value, and the state of the
    generator. *)
Fixpoint witness_loop (n : nat) (s : Z) (X W R A T RR : mpi) (p_rng : St) : M (Z * St) :=
  match n with
  | O => ret (0, p_rng)
  | S n' =>
      '(A, p_rng) <- random_base A X W p_rng;;
      '(A, RR') <- mpi_exp_mod have_longlong A Self R X (Some RR);;
      let RR := match RR' with Some RR => RR | None => RR end in
      if (mpi_cmp_mpi A W =? 0) || (mpi_cmp_int A 1 =? 0) then
        witness_loop n' s X W R A T RR p_rng
      else
        '(A, T) <- square_loop (Z.to_nat (s - 1)) A T W X;;
        if negb (mpi_cmp_mpi A W =? 0) || (mpi_cmp_int A 1 =? 0) then
          ret (POLARSSL_ERR_MPI_NOT_ACCEPTABLE, p_rng)
        else witness_loop n' s X W R A T RR p_rng
  end.

(** The return value, the number, whose sign the function changes, and the
    state of the generator.  [s] is the number of low zero bits of [W] before
    [W] is computed. *)
Definition mpi_is_prime (X : mpi) (p_rng : St) : M (Z * mpi * St) :=
  if (mpi_cmp_int X 0 =? 0) || (mpi_cmp_int X 1 =? 0) then
    ret (POLARSSL_ERR_MPI_NOT_ACCEPTABLE, X, p_rng)
  else if mpi_cmp_int X 2 =? 0 then ret (0, X, p_rng)
  else
    let xs := mpi_s X in
    let X := Mpi 1 (mpi_p X) in
    x <- rd (mpi_p X) 0;;
    if Z.land x 1 =? 0 then ret (POLARSSL_ERR_MPI_NOT_ACCEPTABLE, X, p_rng)
    else
      t <- trial small_prime X;;
      match t with
      | Some r => ret (r, X, p_rng)
      | None =>
          let s := mpi_lsb mpi_init in
          W <- mpi_sub_int mpi_init (Var X) 1;;
          R <- mpi_copy mpi_init (Var W);;
          R <- mpi_shift_r R s;;
          i <- mpi_msb X;;
          '(r, p_rng) <- witness_loop (hac_rounds i) s X W R mpi_init mpi_init mpi_init p_rng;;
          ret (r, Mpi xs (mpi_p X), p_rng)
      end.

(** [while( ( ret = mpi_is_prime( X, f_rng, p_rng ) ) != 0 )] *)
Fixpoint next_prime (fuel : nat) (X : mpi) (p_rng : St) : M (mpi * St) :=
  match fuel with
  | O => out_of_fuel
  | S fuel' =>
      '(r, X, p_rng) <- mpi_is_prime X p_rng;;
      if r =? 0 then ret (X, p_rng)
      else
        X <- mpi_add_int X Self 2;;
        next_prime fuel' X p_rng
  end.

(** [while( 1 )]: [Y] is [( X - 1 ) / 2]. *)
Fixpoint next_safe_prime (fuel : nat) (X Y : mpi) (p_rng : St) : M (mpi * St) :=
  match fuel with
  | O => out_of_fuel
  | S fuel' =>
      '(r, X, p_rng) <- mpi_is_prime X p_rng;;
      '(r, Y, p_rng) <- (if r =? 0 then mpi_is_prime Y p_rng else ret (r, Y, p_rng));;
      if r =? 0 then ret (X, p_rng)
      else
        Y <- mpi_add_int Y (Var X) 1;;
        X <- mpi_add_int X Self 2;;
        Y <- mpi_shift_r Y 1;;
        next_safe_prime fuel' X Y p_rng
  end.

(** The random number of [nbits] bits the search starts from. *)
Definition prime_start (X : mpi) (nbits : Z) (p_rng : St) : M (mpi * St) :=
  X <- mpi_grow X (BITS_TO_LIMBS nbits);;
  X <- mpi_lset X 0;;
  let '(p, p_rng) := random_limbs (mpi_n X) p_rng in
  let X := Mpi (mpi_s X) p in
  k <- mpi_msb X;;
  X <- (if k <? nbits then mpi_shift_l X (nbits - k) else ret X);;
  X <- (if nbits <? k then mpi_shift_r X (k - nbits) else ret X);;
  X <- or3 X;;
  ret (X, p_rng).

Definition mpi_gen_prime (fuel : nat) (X : mpi) (nbits dh_flag : Z) (p_rng : St) : M (mpi * St) :=
  if nbits <? 3 then throw POLARSSL_ERR_MPI_BAD_INPUT_DATA
  else
    '(X, p_rng) <- prime_start X nbits p_rng;;
    if dh_flag =? 0 then next_prime fuel X p_rng
    else
      Y <- mpi_sub_int mpi_init (Var X) 1;;
      Y <- mpi_shift_r Y 1;;
      next_safe_prime fuel X Y p_rng.
End Prime.

(** ** Trial division *)

(** [trial] on the value. *)
Fixpoint small_test (primes : list Z) (x : Z) : option Z :=
  match primes with
  | [] => None
  | p :: primes' =>
      if x <=? p then Some 0
      else if x mod p =? 0 then Some POLARSSL_ERR_MPI_NOT_ACCEPTABLE else small_test primes' x
  end.

Lemma trial_spec d ps l X E :
  Forall (fun p => 0 < p < 2147483648) ps -> mpi_wf X -> mpi_s X = 1 -> (0 < mpi_n X)%nat ->
  runs d (trial (ps ++ -103 :: l) X) (fun t => t = small_test ps (val X)) E.
Proof.
  intros Hps HX Hs Hn. induction Hps as [|p ps Hp Hps IH]; cbn [trial app small_test].
  - now apply runs_ret.
  - case_bool (0 <? p); [|lia]. rewrite mpi_cmp_int_pos by (auto; lia).
    destruct (Z.compare_spec (val X) p) as [E1|E1|E1]; cbn [cmp_sign Z.leb Z.compare].
    1, 2: apply runs_ret; case_bool (val X <=? p); [reflexivity|lia].
    case_bool (val X <=? p); [lia|].
    runs_step mpi_mod_int_spec; auto. intros r ->.
    destruct (val X mod p =? 0); [now apply runs_ret|exact IH].
Qed.

Definition small_primes : list Z := removelast small_prime.

Lemma small_primes_bounds : Forall (fun p => 0 < p < 2147483648) small_primes.
Proof.
  apply Forall_forall. intros p Hp.
  assert (H : forallb (fun p => (0 <? p) && (p <? 2147483648)) small_primes = true) by (vm_compute; reflexivity).
  rewrite forallb_forall in H. specialize (H p Hp). apply andb_prop in H as [H1 H2].
  apply Z.ltb_lt in H1, H2. auto.
Qed.

Lemma small_test_reject ps x : Forall (fun p => 1 < p) ps ->
  small_test ps x = Some POLARSSL_ERR_MPI_NOT_ACCEPTABLE -> ~ prime x.
Proof.
  intros Hps. induction Hps as [|p ps Hp Hps IH]; cbn [small_test]; [discriminate|].
  case_bool (x <=? p); [discriminate|]. case_bool (x mod p =? 0); [|exact IH].
  intros _ Hx. apply Z.mod_divide in E0; [|lia].
  destruct (prime_divisors x Hx p E0) as [H|[H|[H|H]]]; lia.
Qed.

Lemma small_test_pass ps x : Forall (fun p => 1 < p) ps -> small_test ps x = None ->
  Forall (fun p => p < x /\ ~ (p | x)) ps.
Proof.
  intros Hps. induction Hps as [|p ps Hp Hps IH]; cbn [small_test]; [constructor|].
  case_bool (x <=? p); [discriminate|]. case_bool (x mod p =? 0); [discriminate|].
  intros H. constructor; [|auto]. split; [lia|]. intros Hd. apply Z.mod_divide in Hd; lia.
Qed.

(** Integers from [a] on, for checks by computation. *)
Fixpoint zseq (a : Z) (k : nat) : list Z := match k with O => [] | S k' => a :: zseq (a + 1) k' end.

Lemma in_zseq x a k : a <= x < a + Z.of_nat k -> In x (zseq a k).
Proof.
  revert a. induction k as [|k IH]; intros a H; cbn [zseq In]; [lia|].
  destruct (Z.eq_dec a x); [auto|right; apply IH; lia].
Qed.

Definition no_divisor (x : Z) : bool :=
  forallb (fun d => (x <? d * d) || negb (x mod d =? 0)) (zseq 2 31).

Lemma no_divisor_prime x : 1 < x < 1089 -> no_divisor x = true -> prime x.
Proof.
  intros Hx H. destruct (prime_dec x) as [Hp|Hp]; [exact Hp|].
  destruct (small_factor x ltac:(lia) Hp) as (p & Hp1 & Hp2 & Hp3). pose proof (prime_gt_1 p Hp1).
  unfold no_divisor in H. rewrite forallb_forall in H. specialize (H p (in_zseq p 2 31 ltac:(nia))).
  apply orb_prop in H as [H|H]; [apply Z.ltb_lt in H; lia|].
  apply negb_true_iff, Z.eqb_neq in H. apply Z.mod_divide in Hp2; lia.
Qed.

Lemma prime_no_divisor x : 1 < x < 1089 -> prime x -> no_divisor x = true.
Proof.
  intros Hx Hp. unfold no_divisor. apply forallb_forall. intros d Hd.
  apply orb_true_iff. case_bool (x <? d * d); [auto|right]. apply negb_true_iff, Z.eqb_neq. intros Hm.
  assert (Hd2 : 2 <= d) by (revert Hd; clear; assert (H : forall k a, In d (zseq a k) -> a <= d);
    [induction k; intros a; cbn [zseq In]; [tauto|intros [<-|H]; [lia|apply IHk in H; lia]]|apply H]).
  apply Z.mod_divide in Hm; [|lia]. destruct (prime_divisors x Hp d Hm) as [H|[H|[H|H]]]; nia.
Qed.

(** What the table is: the odd primes below 1009, in order. *)
Lemma small_primes_accept x :
  2 < x -> x mod 2 = 1 -> small_test small_primes x = Some 0 -> prime x.
Proof.
  intros Hx Ho H. destruct (Z.lt_ge_cases x 998) as [Hlt|Hge].
  - apply no_divisor_prime; [lia|].
    assert (Hall : forallb (fun x => negb (x mod 2 =? 1) || match small_test small_primes x with
       | Some r => negb (r =? 0) || no_divisor x | None => true end) (zseq 3 995) = true)
      by (vm_compute; reflexivity).
    rewrite forallb_forall in Hall. specialize (Hall x (in_zseq x 3 995 ltac:(lia))).
    rewrite H, Ho in Hall. exact Hall.
  - exfalso. assert (Hmax : Forall (fun p => p <= 997) small_primes).
    { apply Forall_forall. intros p Hp.
      assert (Hb : forallb (fun p => p <=? 997) small_primes = true) by (vm_compute; reflexivity).
      rewrite forallb_forall in Hb. now apply Z.leb_le, Hb. }
    revert H. induction Hmax as [|p ps Hp Hps IH]; cbn [small_test]; [discriminate|].
    case_bool (x <=? p); [lia|]. destruct (x mod p =? 0); [discriminate|exact IH].
Qed.

Lemma small_primes_all q : prime q -> 2 < q < 1009 -> In q small_primes.
Proof.
  intros Hq Hb.
  assert (Hall : forallb (fun x => negb (no_divisor x) || existsb (Z.eqb x) small_primes) (zseq 3 1006) = true)
    by (vm_compute; reflexivity).
  rewrite forallb_forall in Hall. specialize (Hall q (in_zseq q 3 1006 ltac:(lia))).
  rewrite (prime_no_divisor q ltac:(lia) Hq) in Hall. apply existsb_exists in Hall as (y & Hy & E).
  apply Z.eqb_eq in E. now subst y.
Qed.

Lemma small_primes_gt1 : Forall (fun p => 1 < p) small_primes.
Proof.
  apply Forall_forall. intros p Hp.
  assert (Hb : forallb (fun p => 1 <? p) small_primes = true) by (vm_compute; reflexivity).
  rewrite forallb_forall in Hb. now apply Z.ltb_lt, Hb.
Qed.

Lemma odd_prime q : prime q -> 2 < q -> q mod 2 = 1.
Proof.
  intros Hq Hgt. pose proof (Z.mod_pos_bound q 2 ltac:(lia)). assert (q mod 2 <> 0); [|lia].
  intros E. apply Z.mod_divide in E; [|lia]. destruct (prime_divisors q Hq 2 E) as [H1|[H1|[H1|H1]]]; lia.
Qed.

Lemma small_test_result ps x r : small_test ps x = Some r -> r = 0 \/ r = POLARSSL_ERR_MPI_NOT_ACCEPTABLE.
Proof.
  induction ps as [|p ps IH]; cbn [small_test]; [discriminate|].
  destruct (x <=? p); [intros [= <-]; auto|]. destruct (x mod p =? 0); [intros [= <-]; auto|exact IH].
Qed.

Lemma first_limb_parity p : Z.land (nth 0 p 0) 1 = eval p mod 2.
Proof.
  rewrite (Z.land_ones _ 1) by lia. change (2 ^ 1) with 2. destruct p as [|x p]; [reflexivity|].
  cbn [nth eval]. dlia.
Qed.

(** ** The low bits and the shift by a number of either sign *)

Lemma lor_3 x : Z.lor x 3 = x / 4 * 4 + 3.
Proof.
  pose proof (Z.mod_pos_bound x 4 ltac:(lia)) as Hm.
  assert (Hx : x = Z.lor (x / 4 * 4) (x mod 4)).
  { pose proof (lor_disjoint (x / 4) (x mod 4) 2 ltac:(lia) Hm) as H. change (2 ^ 2) with 4 in H.
    rewrite H. dlia. }
  rewrite Hx at 1. rewrite <- Z.lor_assoc. replace (Z.lor (x mod 4) 3) with 3.
  - apply (lor_disjoint (x / 4) 3 2); lia.
  - assert (H : x mod 4 = 0 \/ x mod 4 = 1 \/ x mod 4 = 2 \/ x mod 4 = 3) by lia.
    destruct H as [-> |[-> |[-> | ->]]]; reflexivity.
Qed.

Lemma or3_spec d X E :
  mpi_wf X -> (0 < mpi_n X)%nat ->
  runs d (or3 X) (fun X' => mpi_wf X' /\ mpi_s X' = mpi_s X /\ mpi_n X' = mpi_n X /\
                            mag X' = mag X / 4 * 4 + 3) E.
Proof.
  intros [Hs Hp] Hn. unfold or3. unfold mpi_n in *. runs_step runs_rd; [exact Hn|]. intros x ->.
  runs_step runs_wr; [exact Hn|]. intros p ->. apply runs_ret. cbn [mpi_s mpi_p].
  assert (Hx : limb (nth 0 (mpi_p X) 0)) by now apply nth_limb.
  rewrite lor_3. unfold limb in Hx. split; [split; [exact Hs|]|].
  - apply Forall_upd_list; [exact Hp|]. unfold limb. cbn [mpi_p]. dlia.
  - split; [reflexivity|]. split; [apply length_upd_list|]. unfold mag. cbn [mpi_p].
    rewrite eval_upd_list by exact Hn. destruct (mpi_p X) as [|y p]; [simpl in Hn; lia|].
    cbn [nth eval]. rewrite bpow_0. dlia.
Qed.

(** A negative count shifts by its remainder modulo the limb size. *)
Lemma mpi_shift_r_any d X c E :
  mpi_wf X ->
  runs d (mpi_shift_r X c)
    (fun X' => mpi_wf X' /\ mpi_s X' = mpi_s X /\ mpi_n X' = mpi_n X /\ 0 <= mag X' <= mag X /\
               (0 <= c -> mag X' = mag X / 2 ^ c)) E.
Proof.
  intros HX. pose proof (mag_nonneg X HX) as H0.
  assert (Hp : forall c, 0 <= c -> 0 <= mag X / 2 ^ c <= mag X).
  { intros c' Hc'. assert (0 < 2 ^ c') by (apply Z.pow_pos_nonneg; lia).
    split; [apply Z.div_pos; lia|apply Z.div_le_upper_bound; nia]. }
  destruct (Z.le_gt_cases 0 c) as [Hc|Hc].
  - eapply runs_post; [now apply mpi_shift_r_spec|]. intros X' (H1 & H2 & H3 & H4).
    rewrite H2. specialize (Hp c Hc). auto.
  - assert (E' : mpi_shift_r X c = mpi_shift_r X (c mod biL)).
    { pose proof (Z.mod_pos_bound c biL ltac:(lia)). unfold mpi_shift_r. rewrite !land_63.
      rewrite (Z.mod_small (c mod biL)), (Z.div_small (c mod biL)) by lia.
      replace (Z.to_nat (c / biL)) with 0%nat by dlia. reflexivity. }
    rewrite E'. pose proof (Z.mod_pos_bound c biL ltac:(lia)) as Hm.
    eapply runs_post; [apply mpi_shift_r_spec; [exact HX|lia]|]. intros X' (H1 & H2 & H3 & H4).
    rewrite H2. specialize (Hp (c mod biL) ltac:(lia)). do 4 (split; [auto|]). lia.
Qed.

(** ** The witnesses *)

Section Spec.
Context (hl : bool) {St : Type} (f_rng : St -> Z * St).

Lemma random_bytes_spec n st :
  let '(l, _) := random_bytes f_rng n st in Forall byte l /\ length l = n.
Proof.
  revert st. induction n as [|n IH]; intros st; cbn [random_bytes]; [auto|].
  destruct (f_rng st) as [r st1]. specialize (IH st1). destruct (random_bytes f_rng n st1) as [l st2].
  destruct IH as [H1 H2]. split; [constructor; [apply Z.mod_pos_bound; lia|exact H1]|simpl; lia].
Qed.

Lemma random_limbs_spec n st :
  let '(l, _) := random_limbs f_rng n st in limbs l /\ length l = n.
Proof.
  revert st. induction n as [|n IH]; intros st; cbn [random_limbs]; [split; [constructor|reflexivity]|].
  pose proof (random_bytes_spec ciL st) as Hb. destruct (random_bytes f_rng ciL st) as [b st1].
  specialize (IH st1). destruct (random_limbs f_rng n st1) as [l st2].
  destruct IH as [H1 H2], Hb as [H3 H4]. split; [|simpl; lia]. constructor; [|exact H1].
  pose proof (le_value_bounds b H3) as H. rewrite H4 in H. exact H.
Qed.

(** A base for which the test sees no sign of a factor. *)
Definition fermat_base (x a : Z) : Prop :=
  1 < a < x - 1 /\ (a ^ (x - 1) mod x = 1 \/ a ^ (x - 1) mod x = x - 1).

(** [a] is a base drawn for a number [x] of [k] limbs when the generator is in
    the state [st]: it lies strictly between 1 and [x - 1] and consists of the
    highest bits of the drawn number, one fewer than [x - 1] has, with the two
    lowest bits set.  (The bits of a drawn number that is much shorter than [x] are
    left open.)  The limbs drawn are at least those of [x]. *)
Definition drawn (x : Z) (k : nat) (st : St) (a : Z) (st' : St) : Prop :=
  exists m p, (k <= m)%nat /\ random_limbs f_rng m st = (p, st') /\ 1 < a < x - 1 /\
    let c := bitlen (eval p) - bitlen (x - 1) + 1 in 0 <= c -> a = eval p / 2 ^ c / 4 * 4 + 3.

(** The result and the last state of [n] rounds of the test of Fermat, each
    with a base of its own, up to the first that shows a factor. *)
Fixpoint tested (x : Z) (k n : nat) (st : St) (r : Z) (st' : St) : Prop :=
  match n with
  | O => r = 0 /\ st' = st
  | S n' =>
      exists a st1, drawn x k st a st1 /\
        (fermat_base x a /\ tested x k n' st1 r st' \/
         ~ fermat_base x a /\ r = POLARSSL_ERR_MPI_NOT_ACCEPTABLE /\ st' = st1)
  end.

Lemma tested_result x k n st r st' :
  tested x k n st r st' -> r = 0 \/ r = POLARSSL_ERR_MPI_NOT_ACCEPTABLE.
Proof.
  revert st. induction n as [|n IH]; cbn [tested]; [intros st [-> _]; auto|].
  intros st (a & st1 & _ & [[_ H]|(_ & -> & _)]); [now apply (IH st1)|auto].
Qed.

Lemma tested_prime x k n st r st' : prime x -> tested x k n st r st' -> r = 0.
Proof.
  intros Hp. revert st. induction n as [|n IH]; cbn [tested]; [now intros st [-> _]|].
  intros st (a & st1 & Ha & [[_ H]|(Hn & _)]); [now apply (IH st1)|]. exfalso. apply Hn.
  destruct Ha as (_ & _ & _ & _ & Hb & _). split; [exact Hb|left]. apply fermat_unit; [exact Hp|lia].
Qed.

Lemma tested_base x k n st st' : tested x k n st 0 st' -> n <> 0%nat -> exists a, fermat_base x a.
Proof.
  destruct n as [|n]; [intros _ H; now contradiction H|]. cbn [tested].
  intros (a & st1 & _ & [[H _]|(_ & H & _)]) _; [now exists a|discriminate].
Qed.

(** The random base: at least 3, and of fewer bits than [W]. *)
Lemma random_base_spec d A X W st E :
  mpi_wf A -> mpi_s A = 1 -> mpi_wf W -> 4 < mag W -> (0 < mpi_n X)%nat ->
  runs d (random_base f_rng A X W st)
    (fun '(A', st') => mpi_wf A' /\ mpi_s A' = 1 /\ drawn (mag W + 1) (mpi_n X) st (mag A') st') E.
Proof.
  intros HA Hs HW Hw Hn. unfold random_base. runs_step mpi_grow_spec; [exact HA|]. intros A1 (HA1 & _ & Hs1 & Hn1).
  pose proof (random_limbs_spec (mpi_n A1) st) as Hr.
  destruct (random_limbs f_rng (mpi_n A1) st) as [p st1] eqn:Ep. destruct Hr as [Hl Hlen].
  set (A2 := Mpi (mpi_s A1) p). rewrite Hs in Hs1.
  assert (HA2 : mpi_wf A2) by (unfold A2; rewrite Hs1; split; simpl; auto with limbs).
  assert (Hn2 : (0 < mpi_n A2)%nat) by (unfold mpi_n at 1; simpl mpi_p; lia).
  runs_step mpi_msb_spec; auto. intros a ->.
  runs_step mpi_msb_spec; [exact HW|apply mag_pos_n; auto; lia|]. intros w ->.
  runs_step mpi_shift_r_any; [exact HA2|]. intros A3 (HA3 & Hs3 & Hn3 & Hm3 & Hc3).
  runs_step or3_spec; [exact HA3|lia|]. intros A4 (HA4 & Hs4 & _ & Hm4). apply runs_ret.
  split; [exact HA4|]. split; [unfold A2 in Hs3; simpl in Hs3; lia|].
  exists (mpi_n A1), p. split; [lia|]. split; [exact Ep|].
  replace (mag W + 1 - 1) with (mag W) by lia.
  split; [|intros c Hc; now rewrite Hm4, (Hc3 Hc)].
  pose proof (mag_nonneg A2 HA2) as H0.
  pose proof (bitlen_spec (mag W) ltac:(lia)) as [Hw1 Hw2].
  assert (Hb : 3 <= bitlen (mag W)).
  { destruct (Z.le_gt_cases 3 (bitlen (mag W))); [auto|].
    assert (2 ^ bitlen (mag W) <= 2 ^ 2) by (apply Z.pow_le_mono_r; lia).
    change (2 ^ 2) with 4 in *. lia. }
  assert (Hlt : mag A3 < 2 ^ (bitlen (mag W) - 1)).
  { set (c := bitlen (mag A2) - bitlen (mag W) + 1) in *.
    assert (HbA : mag A2 < 2 ^ bitlen (mag A2) /\ 0 <= bitlen (mag A2)).
    { destruct (Z.eq_dec (mag A2) 0) as [->|Hz]; [change (bitlen 0) with 0; lia|].
      pose proof (bitlen_spec (mag A2) ltac:(lia)) as [_ HbA]. split; [exact HbA|].
      unfold bitlen. destr_if; [lia|]. pose proof (Z.log2_nonneg (mag A2)). lia. }
    destruct (Z.le_gt_cases 0 c) as [Hc|Hc].
    - rewrite Hc3 by exact Hc. apply Z.div_lt_upper_bound; [apply Z.pow_pos_nonneg; lia|].
      rewrite <- Z.pow_add_r by lia. replace (c + (bitlen (mag W) - 1)) with (bitlen (mag A2)) by lia. lia.
    - eapply Z.le_lt_trans; [apply Hm3|]. eapply Z.lt_le_trans; [apply HbA|].
      apply Z.pow_le_mono_r; lia. }
  rewrite Hm4.
  assert (H4 : 2 ^ (bitlen (mag W) - 1) = 4 * 2 ^ (bitlen (mag W) - 3)).
  { replace (bitlen (mag W) - 1) with (2 + (bitlen (mag W) - 3)) by lia.
    rewrite Z.pow_add_r by lia. reflexivity. }
  assert (mag A3 / 4 < 2 ^ (bitlen (mag W) - 3)) by (apply Z.div_lt_upper_bound; lia).
  pose proof (Z.div_pos (mag A3) 4). lia.
Qed.

(** Equality with a positive number, whatever the sign of a zero. *)
Lemma cmp_pos_eq A W :
  mpi_wf A -> mpi_wf W -> 0 <= val A -> 0 < val W -> (mpi_cmp_mpi A W =? 0) = (val A =? val W).
Proof.
  intros HA HW HvA HvW. pose proof (pos_sign W HW HvW) as HsW.
  destruct (Z.eq_dec (mpi_s A) 1) as [Hs|Hs].
  - rewrite mpi_cmp_mpi_spec by (auto; left; congruence).
    destruct (Z.compare_spec (val A) (val W)); cbn [cmp_sign]; case_bool (val A =? val W); try reflexivity; lia.
  - assert (Hs1 : mpi_s A = -1) by (destruct HA as [[H|H] _]; congruence).
    pose proof (mag_nonneg A HA) as H0. unfold val in HvA, HvW |- *. rewrite Hs1, HsW in *.
    assert (Hm : mag A = 0) by lia. unfold mag in Hm. unfold mpi_cmp_mpi.
    rewrite (proj2 (used_0_iff _ (proj2 HA)) Hm).
    destruct (used (mpi_p W)) as [|k] eqn:Hu.
    { apply used_0 in Hu. unfold mag in HvW. lia. }
    cbn [Nat.eqb andb Nat.ltb Nat.leb]. rewrite Hs1. unfold mag at 1. rewrite Hm.
    case_bool (-1 * 0 =? 1 * mag W); [lia|reflexivity].
Qed.

Lemma witness_loop_spec n X W R A T RR st :
  Estimate hl (mag X) ->
  mpi_wf X -> mpi_s X = 1 -> 997 < mag X -> mag X mod 2 = 1 ->
  mpi_wf W -> mpi_s W = 1 -> mag W = mag X - 1 -> mpi_wf R -> mag R = mag X - 1 ->
  mpi_wf A -> mpi_s A = 1 -> mpi_wf T -> cache_ok X (Some RR) ->
  runs NoFail (witness_loop hl f_rng n 0 X W R A T RR st)
    (fun '(r, st') => tested (mag X) (mpi_n X) n st r st') no_err.
Proof.
  intros Hest HX HsX Hbig Hodd HW HsW HmW HR HmR. revert A T RR st.
  induction n as [|n IH]; intros A T RR st HA HsA HT Hc; cbn [witness_loop].
  - now apply runs_ret.
  - assert (HnX : (0 < mpi_n X)%nat) by (apply mag_pos_n; auto; lia).
    runs_step random_base_spec; auto; [lia|]. intros [A1 st1] (HA1 & HsA1 & Hdr).
    rewrite HmW in Hdr. replace (mag X - 1 + 1) with (mag X) in Hdr by lia.
    assert (HmA1 : 1 < mag A1 < mag X - 1) by (destruct Hdr as (_ & _ & _ & _ & Hb & _); exact Hb).
    assert (HvX : val X = mag X) by (unfold val; rewrite HsX; ring).
    runs_step mpi_exp_mod_spec; simpl deref; auto.
    { intros H. lia. } { unfold val. rewrite HsA1. lia. } { apply mag_pos_n; auto; lia. }
    { lia. } { now rewrite HvX. }
    intros [A2 RR2] (HA2 & HvA2 & Hc2 & Hsame).
    destruct RR2 as [RR2|]; [|destruct Hsame as [Hsame _]; discriminate (Hsame eq_refl)].
    assert (HvA1 : val A1 = mag A1) by (unfold val; rewrite HsA1; ring). rewrite HvA1, HmR, HvX in HvA2.
    pose proof (Z.mod_pos_bound (mag A1 ^ (mag X - 1)) (mag X) ltac:(lia)) as Hb.
    assert (HvW : val W = mag X - 1) by (unfold val; rewrite HsW, HmW; ring).
    unfold mpi_cmp_int. rewrite !cmp_pos_eq by (auto using mpi_of_int_wf; rewrite ?mpi_of_int_val; lia).
    rewrite mpi_of_int_val, HvW by lia.
    destruct ((val A2 =? mag X - 1) || (val A2 =? 1)) eqn:Eq.
    + assert (HsA2 : mpi_s A2 = 1).
      { apply pos_sign; [exact HA2|]. apply orb_prop in Eq as [Eq|Eq]; apply Z.eqb_eq in Eq; lia. }
      eapply runs_post; [apply IH; auto|]. intros [r st2] H1. exists (mag A1), st1.
      split; [exact Hdr|left]. split; [|exact H1]. split; [lia|]. rewrite <- HvA2.
      apply orb_prop in Eq as [Eq|Eq]; apply Z.eqb_eq in Eq; auto.
    + cbn [square_loop Z.to_nat Z.sub Z.add Z.opp]. change (Z.to_nat (0 - 1)) with 0%nat.
      cbn [square_loop]. rewrite bind_ret. cbv beta iota.
      rewrite !cmp_pos_eq by (auto using mpi_of_int_wf; rewrite ?mpi_of_int_val; lia).
      rewrite mpi_of_int_val, HvW by lia. apply orb_false_iff in Eq as [Eq1 Eq2].
      rewrite Eq1, Eq2. cbn [negb orb]. apply runs_ret. exists (mag A1), st1.
      split; [exact Hdr|right]. split; [|auto]. rewrite <- HvA2 in *. intros [_ Hf].
      rewrite <- HvA2 in Hf. apply Z.eqb_neq in Eq1, Eq2. lia.
Qed.

(** What [mpi_is_prime] answers: exactly whether the number is prime below
    [1009^2]; from there on, whether no prime below 1009 divides it and it passes
    the test of Fermat for the bases drawn. *)
Definition prime_verdict (x : Z) (k : nat) (st : St) (r : Z) (st' : St) : Prop :=
  if x <? 1018081 then (r = 0 /\ prime x \/ r = POLARSSL_ERR_MPI_NOT_ACCEPTABLE /\ ~ prime x)
  else
    (exists q, 1 < q < 1009 /\ (q | x)) /\ r = POLARSSL_ERR_MPI_NOT_ACCEPTABLE /\ st' = st \/
    (forall q, 1 < q < 1009 -> ~ (q | x)) /\
    tested x k (hac_rounds (bitlen x)) st r st'.

Lemma verdict_not st x k q :
  1 < q < 1009 -> q < x -> (q | x) -> prime_verdict x k st POLARSSL_ERR_MPI_NOT_ACCEPTABLE st.
Proof.
  intros Hq Hlt Hd. unfold prime_verdict. case_bool (x <? 1018081); [right; split; [reflexivity|]|].
  - intros Hp. destruct (prime_divisors x Hp q Hd) as [H|[H|[H|H]]]; lia.
  - left. split; [now exists q|auto].
Qed.

(** A divisor below 1009 has a prime divisor below 1009. *)
Lemma no_small_divisor x q :
  (forall p, prime p -> p < 1009 -> ~ (p | x)) -> 1 < q < 1009 -> ~ (q | x).
Proof.
  intros Hno Hq Hd. destruct (prime_dec q) as [Hp|Hp]; [now apply (Hno q)|].
  destruct (small_factor q ltac:(lia) Hp) as (p & Hp1 & Hp2 & Hp3). apply (Hno p Hp1).
  - apply Z.divide_pos_le in Hp2; lia.
  - now apply Z.divide_trans with q.
Qed.

Lemma small_test_divisor ps x : small_test ps x = Some POLARSSL_ERR_MPI_NOT_ACCEPTABLE ->
  exists p, In p ps /\ p < x /\ x mod p = 0.
Proof.
  induction ps as [|p ps IH]; cbn [small_test]; [discriminate|].
  case_bool (x <=? p); [discriminate|]. case_bool (x mod p =? 0).
  - intros _. exists p. split; [now left|]. split; [lia|exact E0].
  - intros H. destruct (IH H) as (p' & H1 & H2). exists p'. split; [now right|exact H2].
Qed.

Lemma small_primes_range p : In p small_primes -> 1 < p < 1009.
Proof.
  intros Hp. assert (Hb : forallb (fun p => (1 <? p) && (p <? 1009)) small_primes = true) by reflexivity.
  rewrite forallb_forall in Hb. specialize (Hb p Hp). apply andb_prop in Hb as [H1 H2]. lia.
Qed.

(** Trial division accepts small numbers only. *)
Lemma small_test_small ps x : (forall p, In p ps -> p < 1009) -> small_test ps x = Some 0 -> x < 1009.
Proof.
  induction ps as [|p ps IH]; cbn [small_test]; [discriminate|]. intros Hps.
  pose proof (Hps p (or_introl eq_refl)). case_bool (x <=? p); [lia|].
  case_bool (x mod p =? 0); [discriminate|]. apply IH. intros q Hq. apply Hps. now right.
Qed.

Lemma hac_rounds_some i : hac_rounds i <> 0%nat.
Proof. unfold hac_rounds. repeat destr_if; discriminate. Qed.

Lemma verdict_small x k st r st' :
  x < 1018081 -> (r = 0 /\ prime x \/ r = POLARSSL_ERR_MPI_NOT_ACCEPTABLE /\ ~ prime x) ->
  prime_verdict x k st r st'.
Proof. intros Hx H. unfold prime_verdict. case_bool (x <? 1018081); [exact H|lia]. Qed.

Lemma verdict_tested x k st r st' :
  997 < x -> (forall q, prime q -> q < 1009 -> ~ (q | x)) ->
  tested x k (hac_rounds (bitlen x)) st r st' -> prime_verdict x k st r st'.
Proof.
  intros Hx Hnd Ht. unfold prime_verdict. case_bool (x <? 1018081).
  - left. destruct (prime_dec x) as [Hp|Hp]; [split; [now apply (tested_prime _ _ _ _ _ _ Hp Ht)|exact Hp]|].
    destruct (small_factor x ltac:(lia) Hp) as (q & Hq1 & Hq2 & Hq3).
    destruct (Z.lt_ge_cases q 1009) as [Hlt|Hge]; [now apply (Hnd q) in Hq2|nia].
  - right. split; [|exact Ht]. intros q Hq. now apply no_small_divisor.
Qed.

Lemma mpi_is_prime_exact X st :
  Estimate hl (mag X) -> mpi_wf X -> mpi_s X = 1 ->
  runs NoFail (mpi_is_prime hl f_rng X st)
    (fun '(r, X', st') => X' = X /\ prime_verdict (val X) (mpi_n X) st r st') no_err.
Proof.
  intros Hest HX Hs. pose proof (mag_nonneg X HX) as H0.
  assert (Hv : val X = mag X) by (unfold val; rewrite Hs; ring).
  assert (HXe : Mpi 1 (mpi_p X) = X) by (destruct X; simpl in *; now subst).
  unfold mpi_is_prime. rewrite !mpi_cmp_int_pos, Hs, HXe by (auto; lia). rewrite Hv.
  assert (Hcase : mag X = 0 \/ mag X = 1 \/ mag X = 2 \/ 2 < mag X) by lia.
  destruct Hcase as [E|[E|[E|Hgt]]]; try rewrite E.
  1, 2: apply runs_ret; split; [reflexivity|]; apply verdict_small; [lia|];
    right; split; [reflexivity|]; intros Hp; apply prime_gt_1 in Hp; lia.
  { apply runs_ret. split; [reflexivity|]. apply verdict_small; [lia|]. left. split; [reflexivity|apply prime_2]. }
  assert (Hcmp : forall z, 0 <= z <= 2 -> cmp_sign (mag X ?= z) = 1).
  { intros z Hz. now rewrite (proj2 (Z.compare_gt_iff _ _)) by lia. }
  rewrite !Hcmp by lia. cbn [Z.eqb orb].
  assert (Hn : (0 < mpi_n X)%nat) by (apply mag_pos_n; auto; lia).
  runs_step runs_rd; [exact Hn|]. intros x ->. rewrite first_limb_parity. fold (mag X).
  case_bool (mag X mod 2 =? 0).
  { apply runs_ret. split; [reflexivity|]. apply (verdict_not _ _ _ 2); [lia|lia|]. now apply Z.mod_divide. }
  assert (Hodd : mag X mod 2 = 1) by (pose proof (Z.mod_pos_bound (mag X) 2); lia).
  runs_step (trial_spec NoFail small_primes []); [apply small_primes_bounds|auto..|]. intros t Ht.
  rewrite Hv in Ht. destruct t as [r|].
  { apply runs_ret. split; [reflexivity|]. destruct (small_test_result _ _ _ (eq_sym Ht)) as [-> | ->].
    - apply verdict_small; [|left; split; [reflexivity|now apply small_primes_accept]].
      pose proof (small_test_small _ _ (fun p Hp => proj2 (small_primes_range p Hp)) (eq_sym Ht)). lia.
    - destruct (small_test_divisor _ _ (eq_sym Ht)) as (q & Hq & Hlt & Hd). pose proof (small_primes_range q Hq).
      apply (verdict_not _ _ _ q); [lia|exact Hlt|]. apply Z.mod_divide; [lia|exact Hd]. }
  pose proof (small_test_pass _ _ small_primes_gt1 (eq_sym Ht)) as Hpass. rewrite Forall_forall in Hpass.
  assert (Hbig : 997 < mag X) by (apply (Hpass 997); vm_compute; tauto).
  assert (Hnd : forall q, prime q -> q < 1009 -> ~ (q | mag X)).
  { intros q Hq Hlt Hd. pose proof (prime_gt_1 q Hq). destruct (Z.eq_dec q 2) as [->|Hq2].
    - apply Z.mod_divide in Hd; lia.
    - now apply (Hpass q (small_primes_all q Hq ltac:(lia))). }
  change (mpi_lsb mpi_init) with 0.
  runs_step mpi_sub_int_spec; auto with limbs; [lia|]. intros W (HW & HvW & _). simpl deref in HvW.
  assert (HsW : mpi_s W = 1) by (apply pos_sign; [exact HW|lia]).
  assert (HmW : mag W = mag X - 1) by (unfold val in HvW at 1; rewrite HsW in HvW; lia).
  runs_step mpi_copy_spec; [exact HW|]. intros R (HR & HmR & _). simpl deref in HmR.
  runs_step mpi_shift_r_spec; [exact HR|lia|]. intros R2 (HR2 & HmR2 & _).
  rewrite Z.pow_0_r, Z.div_1_r in HmR2.
  runs_step mpi_msb_spec; auto. intros i ->.
  runs_step witness_loop_spec; auto with limbs; try lia; [intros H; now contradiction H|].
  intros [r st'] Ht'. apply runs_ret. split; [now rewrite HXe|]. now apply verdict_tested.
Qed.

(** [mpi_is_prime] accepts every prime, and accepts another number only when
    no prime below 1009 divides it and it passes the test of Fermat for a
    base. *)
Lemma mpi_is_prime_spec X st :
  Estimate hl (mag X) -> mpi_wf X -> mpi_s X = 1 ->
  runs NoFail (mpi_is_prime hl f_rng X st)
    (fun '(r, X', _) =>
       X' = X /\ (r = 0 \/ r = POLARSSL_ERR_MPI_NOT_ACCEPTABLE) /\ (prime (val X) -> r = 0) /\
       (r = 0 -> prime (val X) \/
          1018081 <= val X /\ (forall q, prime q -> q < 1009 -> ~ (q | val X)) /\
          exists a, fermat_base (val X) a)) no_err.
Proof.
  intros Hest HX Hs. eapply runs_post; [now apply mpi_is_prime_exact|].
  intros [[r X'] st'] [HX' H]. split; [exact HX'|]. unfold prime_verdict in H.
  case_bool (val X <? 1018081).
  { destruct H as [[-> H]|[-> H]]; (split; [auto|split; [tauto|]]); [auto|discriminate]. }
  destruct H as [((q & Hq & Hd) & -> & _)|[Hno H]].
  { split; [auto|]. split; [|discriminate]. intros Hp.
    destruct (prime_divisors _ Hp q Hd) as [H|[H|[H|H]]]; lia. }
  split; [now apply (tested_result _ _ _ _ _ _ H)|].
  split; [intros Hp; now apply (tested_prime _ _ _ _ _ _ Hp H)|]. intros ->. right. split; [lia|].
  split; [|now apply (tested_base _ _ _ _ _ H), hac_rounds_some].
  intros q Hq Hlt. pose proof (prime_gt_1 q Hq). apply Hno. lia.
Qed.

(** ** Generation *)

(** The numbers [mpi_is_prime] may accept. *)
Definition accepted (x : Z) : Prop :=
  prime x \/
  1018081 <= x /\ (forall q, prime q -> q < 1009 -> ~ (q | x)) /\ exists a, fermat_base x a.

(** From an odd number on, the search ends at the first prime at the
    latest. *)
Lemma next_prime_spec fuel X st p :
  (forall v, val X <= v <= p -> Estimate hl v) -> mpi_wf X -> mpi_s X = 1 ->
  val X mod 2 = 1 -> 3 <= val X -> prime p -> val X <= p -> p - val X < 2 * Z.of_nat fuel ->
  runs NoFail (next_prime hl f_rng fuel X st)
    (fun '(X', _) => mpi_wf X' /\ mpi_s X' = 1 /\ val X <= val X' /\ val X' mod 2 = 1 /\
       accepted (val X') /\ (forall q, prime q -> val X <= q -> val X' <= q)) no_err.
Proof.
  revert X st. induction fuel as [|fuel IH]; intros X st Hest HX Hs Hodd H3 Hp Hle Hf; [lia|].
  assert (Hv : val X = mag X) by (unfold val; rewrite Hs; ring).
  pose proof (mag_nonneg X HX) as H0. cbn [next_prime].
  runs_step mpi_is_prime_spec; auto; [apply Hest; lia|]. intros [[r X'] st'] (-> & Hr & Hpr & Hacc).
  case_bool (r =? 0).
  - apply runs_ret. specialize (Hacc E). do 2 (split; [auto|]). split; [lia|]. auto.
  - assert (Hnp : ~ prime (val X)) by auto.
    assert (Hp2 : val X + 2 <= p).
    { assert (val X <> p) by congruence. pose proof (odd_prime p Hp ltac:(lia)). dlia. }
    runs_step mpi_add_int_spec; auto; [lia|]. intros X2 (HX2 & Hv2 & _). simpl deref in Hv2.
    assert (Hs2 : mpi_s X2 = 1) by (apply pos_sign; [exact HX2|lia]).
    eapply runs_post; [apply IH; auto; try lia|].
    + intros v Hvb. apply Hest. lia.
    + rewrite Hv2. dlia.
    + intros [X3 st3] (H1 & H2 & H4 & H5 & H6 & H7). do 2 (split; [auto|]). split; [lia|].
      do 2 (split; [auto|]). intros q Hq Hxq. apply H7; [exact Hq|].
      assert (val X <> q) by congruence. pose proof (odd_prime q Hq ltac:(lia)). dlia.
Qed.

(** The search starts from [3] when the generator returns zeros only, and
    otherwise from a number of exactly [nbits] bits, the two lowest set. *)
Lemma prime_start_spec X nbits st :
  mpi_wf X -> 3 <= nbits ->
  runs NoFail (prime_start f_rng X nbits st)
    (fun '(X', _) => mpi_wf X' /\ mpi_s X' = 1 /\ mag X' mod 4 = 3 /\
       (mag X' = 3 \/ 2 ^ (nbits - 1) <= mag X' < 2 ^ nbits)) no_err.
Proof.
  intros HX Hb. unfold prime_start. runs_step mpi_grow_spec; [exact HX|]. intros X1 (HX1 & _ & _ & Hn1).
  runs_step mpi_lset_spec; [lia|]. intros X2 (HX2 & _ & Hn2 & Hs2 & _).
  pose proof (random_limbs_spec (mpi_n X2) st) as Hr.
  destruct (random_limbs f_rng (mpi_n X2) st) as [l st1]. destruct Hr as [Hl Hlen].
  cbn [Z.ltb Z.compare] in Hs2. rewrite Hs2. set (X3 := Mpi 1 l).
  assert (HX3 : mpi_wf X3) by (split; simpl; auto with limbs).
  assert (Hn3 : (0 < mpi_n X3)%nat) by (unfold mpi_n at 1; simpl mpi_p; lia).
  pose proof (mag_nonneg X3 HX3) as H0.
  runs_step mpi_msb_spec; auto. intros k ->. set (k := bitlen (mag X3)).
  eapply runs_bind.
  { instantiate (1 := fun X' => mpi_wf X' /\ mpi_s X' = 1 /\ (0 < mpi_n X')%nat /\
      mag X' = if k <? nbits then mag X3 * 2 ^ (nbits - k) else mag X3).
    case_bool (k <? nbits).
    - eapply runs_post; [apply mpi_shift_l_spec; auto; lia|]. intros X' (H1 & H2 & H3 & H4).
      split; [exact H1|]. split; [now rewrite H3|]. split; [lia|exact H2].
    - apply runs_ret. auto. }
  intros X4 (HX4 & Hs4 & Hn4 & Hm4).
  eapply runs_bind.
  { instantiate (1 := fun X' => mpi_wf X' /\ mpi_s X' = 1 /\ (0 < mpi_n X')%nat /\
      (mag X' = 0 \/ 2 ^ (nbits - 1) <= mag X' < 2 ^ nbits)).
    assert (Hk : mag X3 = 0 \/ 0 < mag X3) by lia. destruct Hk as [Hz|Hpos].
    - unfold k in *. rewrite Hz in *. change (bitlen 0) with 0 in *.
      case_bool (nbits <? 0); [lia|]. apply runs_ret. do 3 (split; [auto|]). left. rewrite Hm4.
      destr_if; lia.
    - pose proof (bitlen_spec (mag X3) Hpos) as [Hk1 Hk2]. fold k in Hk1, Hk2.
      assert (Hk0 : 1 <= k) by (unfold k, bitlen; destr_if; [lia|pose proof (Z.log2_nonneg (mag X3)); lia]).
      case_bool (nbits <? k).
      + case_bool (k <? nbits); [lia|]. eapply runs_post; [apply mpi_shift_r_spec; [exact HX4|lia]|].
        intros X' (H1 & H2 & H3 & H4). split; [exact H1|]. split; [now rewrite H3|]. split; [lia|right].
        rewrite H2, Hm4. assert (Hp : 0 < 2 ^ (k - nbits)) by (apply Z.pow_pos_nonneg; lia). split.
        * apply Z.div_le_lower_bound; [exact Hp|]. rewrite <- Z.pow_add_r by lia.
          now replace (k - nbits + (nbits - 1)) with (k - 1) by lia.
        * apply Z.div_lt_upper_bound; [exact Hp|]. rewrite <- Z.pow_add_r by lia.
          now replace (k - nbits + nbits) with k by lia.
      + apply runs_ret. do 3 (split; [auto|]). right. rewrite Hm4. case_bool (k <? nbits).
        * replace (nbits - 1) with ((k - 1) + (nbits - k)) by lia.
          replace (2 ^ nbits) with (2 ^ k * 2 ^ (nbits - k)) by (rewrite <- Z.pow_add_r by lia; f_equal; lia).
          rewrite Z.pow_add_r by lia. assert (Hp : 0 < 2 ^ (nbits - k)) by (apply Z.pow_pos_nonneg; lia). nia.
        * now replace nbits with k by lia. }
  intros X5 (HX5 & Hs5 & Hn5 & Hm5). runs_step or3_spec; auto. intros X6 (HX6 & Hs6 & _ & Hm6).
  apply runs_ret. split; [exact HX6|]. split; [congruence|]. split; [rewrite Hm6; dlia|].
  rewrite Hm6. destruct Hm5 as [->|Hm5]; [now left|right].
  assert (H4 : forall j, 2 <= j -> 2 ^ j = 4 * 2 ^ (j - 2)).
  { intros j Hj. replace j with (2 + (j - 2)) at 1 by lia. now rewrite Z.pow_add_r by lia. }
  rewrite (H4 nbits), (H4 (nbits - 1)) in * by lia. dlia.
Qed.

(** [mpi_gen_prime] returns the first number the test accepts from a random
    one on; the fuel of any prime of more bits is enough. *)
Lemma mpi_gen_prime_spec fuel X nbits st p :
  (forall v, 3 <= v <= p -> Estimate hl v) -> mpi_wf X -> 3 <= nbits ->
  prime p -> 2 ^ nbits <= p -> p < 2 * Z.of_nat fuel ->
  runs NoFail (mpi_gen_prime hl f_rng fuel X nbits 0 st)
    (fun '(X', _) => mpi_wf X' /\ mpi_s X' = 1 /\ val X' mod 2 = 1 /\ accepted (val X') /\
       exists x0, (x0 = 3 \/ 2 ^ (nbits - 1) <= x0 < 2 ^ nbits) /\ x0 <= val X' /\
                  (forall q, prime q -> x0 <= q -> val X' <= q)) no_err.
Proof.
  intros Hest HX Hb Hp Hlt Hf. unfold mpi_gen_prime. case_bool (nbits <? 3); [lia|].
  runs_step prime_start_spec; auto. intros [X1 st1] (HX1 & Hs1 & H4 & Hm1).
  cbn [Z.eqb]. assert (Hv : val X1 = mag X1) by (unfold val; rewrite Hs1; ring).
  assert (H8 : 2 ^ 3 <= 2 ^ nbits) by (apply Z.pow_le_mono_r; lia). change (2 ^ 3) with 8 in H8.
  pose proof (mag_nonneg X1 HX1). assert (3 <= mag X1) by dlia.
  eapply runs_post; [apply (next_prime_spec fuel X1 st1 p); auto; try lia|].
  - intros v Hvb. apply Hest. lia.
  - rewrite Hv. dlia.
  - intros [X' st'] (H1 & H2 & H3 & H5 & H6 & H7). do 4 (split; [auto|]).
    exists (val X1). rewrite Hv in *. auto.
Qed.
End Spec.
