(* ===== verification/MpiStr.v ===== *)
(** * Multi-precision integers: strings

    [mpi_read_string] and [mpi_write_string] of
    [libsparkle/crypto/bignum.c].  A string is the list of its character
    codes, without the terminating zero when it is an input. *)
From Stdlib Require Import ZArith List Lia Bool.
Import ListNotations.
From S2P Require Import Prelude CMonad Limbs Mpi MpiAddSub MpiShift MpiMul MpiDiv.
From S2P Require Import MpiDivCorrect.
From S2P Require Import MpiMod MpiBin.
#[local] Open Scope Z_scope.
#[local] Open Scope cmonad_scope.

(** ** Operations *)

(** The digit a character stands for. *)
Definition digit_of (c : Z) : Z :=
  let d := 255 in
  let d := if (0x30 <=? c) && (c <=? 0x39) then c - 0x30 else d in
  let d := if (0x41 <=? c) && (c <=? 0x46) then c - 0x37 else d in
  if (0x61 <=? c) && (c <=? 0x66) then c - 0x57 else d.

Definition mpi_get_digit (radix c : Z) : M Z :=
  let d := digit_of c in
  if radix <=? d then throw POLARSSL_ERR_MPI_INVALID_CHARACTER else ret d.

(** The minus sign. *)
Abbreviation dash := 45.

(** [for( i = strlen( s ) - 1, j = 0; i >= 0; i--, j++ )]: the characters
    from the last one on. *)
Fixpoint read_hex (cs : list Z) (j : nat) (X : mpi) : M mpi :=
  match cs with
  | [] => ret X
  | c :: cs' =>
      if (length cs' =? 0)%nat && (c =? dash) then ret (Mpi (-1) (mpi_p X))
      else
        d <- mpi_get_digit 16 c;;
        x <- rd (mpi_p X) (j / (2 * ciL));;
        p <- wr (mpi_p X) (j / (2 * ciL))
               (Z.lor x (w64 (Z.shiftl d (Z.shiftl (Z.of_nat (j mod (2 * ciL))) 2))));;
        read_hex cs' (S j) (Mpi (mpi_s X) p)
  end.

(** [for( i = 0; i < (int) strlen( s ); i++ )]; [first] is [i == 0]. *)
Fixpoint read_digits (radix : Z) (first : bool) (cs : list Z) (X T : mpi) : M mpi :=
  match cs with
  | [] => ret X
  | c :: cs' =>
      if first && (c =? dash) then read_digits radix false cs' (Mpi (-1) (mpi_p X)) T
      else
        d <- mpi_get_digit radix c;;
        T <- mpi_mul_int T (Var X) radix;;
        X <- (if mpi_s X =? 1 then mpi_add_int X (Var T) d else mpi_sub_int X (Var T) d);;
        read_digits radix false cs' X T
  end.

Definition mpi_read_string (X : mpi) (radix : Z) (s : list Z) : M mpi :=
  if (radix <? 2) || (16 <? radix) then throw POLARSSL_ERR_MPI_BAD_INPUT_DATA
  else if radix =? 16 then
    X <- mpi_grow X (BITS_TO_LIMBS (Z.shiftl (Z.of_nat (length s)) 2));;
    X <- mpi_lset X 0;;
    read_hex (rev s) 0 X
  else
    X <- mpi_lset X 0;;
    read_digits radix true s X mpi_init.

(** [( r < 10 ) ? r + 0x30 : r + 0x37] *)
Definition digit_char (r : Z) : Z := if r <? 10 then r + 0x30 else r + 0x37.

(** [sprintf( p, "%02X", c )] *)
Definition sprintf_02X (c : Z) : list Z := [digit_char (c / 16); digit_char (c mod 16)].

Section Write.
Variable have_longlong : bool.

(** The digits the calls write from here on. *)
Fixpoint mpi_write_hlp (fuel : nat) (X : mpi) (radix : Z) : M (list Z) :=
  match fuel with
  | O => out_of_fuel
  | S fuel' =>
      if (radix <? 2) || (16 <? radix) then throw POLARSSL_ERR_MPI_BAD_INPUT_DATA
      else
        r <- mpi_mod_int X radix;;
        '(Q, _) <- mpi_div_int have_longlong (Some X) None IsQ radix;;
        match Q with
        | Some X =>
            hi <- (if negb (mpi_cmp_int X 0 =? 0) then mpi_write_hlp fuel' X radix else ret []);;
            ret (hi ++ [digit_char r])
        | None => ub
        end
  end.

(** A limb has one digit a bit at most. *)
Definition write_fuel (X : mpi) : nat := S (64 * mpi_n X).

(** [for( j = ciL - 1; j >= 0; j-- )], [jn = j + 1], on the limb [x] of index
    [i]. *)
Fixpoint hex_bytes (i : nat) (x : Z) (jn : nat) (k : bool) : list Z * bool :=
  match jn with
  | O => ([], k)
  | S j =>
      let c := Z.land (Z.shiftr x (Z.shiftl (Z.of_nat j) 3)) 0xFF in
      if (c =? 0) && negb k && negb (i + j =? 0)%nat then hex_bytes i x j k
      else
        let '(l, k) := hex_bytes i x j true in
        (sprintf_02X c ++ l, k)
  end.

(** [for( i = X->n - 1, k = 0; i >= 0; i-- )] *)
Fixpoint hex_limbs (i1 : nat) (p : list Z) (k : bool) : list Z :=
  match i1 with
  | O => []
  | S i =>
      let '(l, k) := hex_bytes i (nth i p 0) ciL k in
      l ++ hex_limbs i p k
  end.

(** The size [mpi_write_string] asks for. *)
Definition string_size (radix m : Z) : Z :=
  let n := m in
  let n := if 4 <=? radix then Z.shiftr n 1 else n in
  let n := if 16 <=? radix then Z.shiftr n 1 else n in
  n + 3.

(** The characters written to [s], which has [slen] bytes, the terminating
    zero included; more of them than the buffer holds is undefined
    behaviour. *)
Definition mpi_write_string (X : mpi) (radix slen : Z) : M (list Z) :=
  if (radix <? 2) || (16 <? radix) then throw POLARSSL_ERR_MPI_BAD_INPUT_DATA
  else
    m <- mpi_msb X;;
    if slen <? string_size radix m then throw POLARSSL_ERR_MPI_BUFFER_TOO_SMALL
    else
      let sign := if mpi_s X =? -1 then [dash] else [] in
      ds <- (if radix =? 16 then ret (hex_limbs (mpi_n X) (mpi_p X) false)
             else
               T <- mpi_copy mpi_init (Var X);;
               let T := if mpi_s T =? -1 then Mpi 1 (mpi_p T) else T in
               mpi_write_hlp (write_fuel T) T radix);;
      let s := sign ++ ds ++ [0] in
      if Z.of_nat (length s) <=? slen then ret s else ub.

(** [p] is the prefix the caller asks for, [fout] is [None] for [stdout] and
    tells otherwise whether both [fwrite] succeed.  The result is what is
    written; the buffer has 1024 bytes, two of them for the end of line. *)
Definition mpi_write_file (p : list Z) (X : mpi) (radix : Z) (fout : option bool) : M (list Z) :=
  s <- mpi_write_string X radix (1024 - 2);;
  let s := removelast s ++ [13; 10] in
  match fout with
  | Some false => throw POLARSSL_ERR_MPI_FILE_IO_ERROR
  | _ => ret (p ++ s)
  end.
End Write.

(** [if( s[slen - 1] == c ) { slen--; s[slen] = 0; }]: undefined on the empty
    string. *)
Definition chop (c : Z) (s : list Z) : M (list Z) :=
  match rev s with
  | [] => ub
  | x :: r => ret (if x =? c then rev r else s)
  end.

(** [while( --p >= s ) if( mpi_get_digit( &d, radix, *p ) != 0 ) break;] on the
    characters from the last one on. *)
Fixpoint leading_digits (radix : Z) (cs : list Z) : list Z :=
  match cs with
  | c :: cs' => if radix <=? digit_of c then [] else c :: leading_digits radix cs'
  | [] => []
  end.

(** [line] is what [fgets] stores, [None] when it returns NULL. *)
Definition mpi_read_file (X : mpi) (radix : Z) (line : option (list Z)) : M mpi :=
  match line with
  | None => throw POLARSSL_ERR_MPI_FILE_IO_ERROR
  | Some s =>
      s <- chop 10 s;;
      s <- chop 13 s;;
      mpi_read_string X radix (rev (leading_digits radix (rev s)))
  end.

(** ** Numbers in a radix *)

(** Big-endian digits on top of [acc]; [None] when a character is no digit. *)
Fixpoint num_of (radix : Z) (acc : Z) (cs : list Z) : option Z :=
  match cs with
  | [] => Some acc
  | c :: cs' =>
      if radix <=? digit_of c then None else num_of radix (acc * radix + digit_of c) cs'
  end.

(** The sign and the absolute value that a string denotes. *)
Definition parse (radix : Z) (s : list Z) : option (Z * Z) :=
  match s with
  | c :: cs => if c =? dash then option_map (pair (-1)) (num_of radix 0 cs)
               else option_map (pair 1) (num_of radix 0 s)
  | [] => Some (1, 0)
  end.

Lemma digit_of_bounds c : 0 <= digit_of c < 256.
Proof.
  unfold digit_of.
  repeat match goal with |- context [(?a <=? ?b) && (?c' <=? ?d)] =>
    destruct (Z.leb_spec a b), (Z.leb_spec c' d) end; cbn [andb]; lia.
Qed.

Lemma digit_of_char r : 0 <= r < 16 -> digit_of (digit_char r) = r.
Proof.
  intros Hr. assert (H : forallb (fun r => digit_of (digit_char r) =? r)
    [0; 1; 2; 3; 4; 5; 6; 7; 8; 9; 10; 11; 12; 13; 14; 15] = true) by reflexivity.
  rewrite forallb_forall in H. apply Z.eqb_eq, H. cbn [In]. lia.
Qed.

Lemma digit_char_not_dash r : 0 <= r < 16 -> digit_char r <> dash.
Proof. unfold digit_char. intros Hr. destr_if; lia. Qed.

Lemma digit_of_dash : digit_of dash = 255.
Proof. reflexivity. Qed.

Lemma num_of_app radix acc a b :
  num_of radix acc (a ++ b) =
  match num_of radix acc a with Some v => num_of radix v b | None => None end.
Proof.
  revert acc. induction a as [|c a IH]; intros acc; cbn [num_of app]; [reflexivity|].
  destruct (radix <=? digit_of c); [reflexivity|apply IH].
Qed.

(** Accumulating on top of a number. *)
Lemma num_of_acc radix acc cs :
  num_of radix acc cs =
  option_map (fun v => acc * radix ^ Z.of_nat (length cs) + v) (num_of radix 0 cs).
Proof.
  revert acc. induction cs as [|c cs IH]; intros acc; cbn [num_of length].
  - cbn [option_map]. f_equal. change (Z.of_nat 0) with 0. lia.
  - destruct (radix <=? digit_of c); [reflexivity|]. rewrite IH, (IH (0 * radix + digit_of c)).
    destruct (num_of radix 0 cs) as [v|]; [|reflexivity]. cbn [option_map]. f_equal.
    rewrite Nat2Z.inj_succ, Z.pow_succ_r by lia. ring.
Qed.

Lemma num_of_nonneg radix acc cs v : 2 <= radix -> 0 <= acc -> num_of radix acc cs = Some v -> 0 <= v.
Proof.
  intros Hr. revert acc. induction cs as [|c cs IH]; intros acc Ha; cbn [num_of]; [congruence|].
  destruct (radix <=? digit_of c); [discriminate|]. apply IH. pose proof (digit_of_bounds c). nia.
Qed.

(** ** Reading *)

(** A digit is added to a number of either sign without changing the sign. *)
Lemma add_digit_spec d X T s b E :
  mpi_wf X -> mpi_wf T -> mpi_s T = s -> sign_ok s -> 0 <= b < base ->
  runs d (if s =? 1 then mpi_add_int X (Var T) b else mpi_sub_int X (Var T) b)
    (fun X' => mpi_wf X' /\ mpi_s X' = s /\ mag X' = mag T + b) E.
Proof.
  intros HX HT Hs Hok Hb. unfold mpi_add_int, mpi_sub_int, mpi_add_mpi, mpi_sub_mpi. cbn [deref].
  pose proof (mpi_of_int_wf b) as HwB.
  assert (HB : mpi_s (mpi_of_int b) = 1 /\ mag (mpi_of_int b) = b).
  { unfold mpi_of_int, mag. cbn [mpi_s mpi_p eval]. case_bool (b <? 0); [lia|].
    rewrite w64_small by (unfold limb; lia). split; [reflexivity|lia]. }
  destruct HB as [HsB HmB]. rewrite HsB, Hs.
  assert (H : forall m, m = mpi_add_abs X (Var T) (Var (mpi_of_int b)) ->
    runs d (X' <- m;; ret (Mpi s (mpi_p X'))) (fun X' => mpi_wf X' /\ mpi_s X' = s /\ mag X' = mag T + b) E).
  { intros m ->. runs_step mpi_add_abs_spec; auto. intros X' (H1 & _ & H3 & _). apply runs_ret.
    cbn [deref] in H3. rewrite HmB in H3. split; [split; [exact Hok|apply H1]|]. auto. }
  destruct Hok as [-> | ->]; cbn [Z.eqb Z.ltb Z.compare]; now apply H.
Qed.

Lemma read_digits_spec d radix cs X T :
  2 <= radix < base -> mpi_wf X -> mpi_wf T ->
  runs d (read_digits radix false cs X T)
    (fun X' => mpi_wf X' /\ mpi_s X' = mpi_s X /\ num_of radix (mag X) cs = Some (mag X'))
    (fun e => e = POLARSSL_ERR_MPI_INVALID_CHARACTER /\ num_of radix (mag X) cs = None).
Proof.
  intros Hr. revert X T. induction cs as [|c cs IH]; intros X T HX HT; cbn [read_digits num_of].
  - apply runs_ret. auto.
  - cbn [andb]. unfold mpi_get_digit. pose proof (digit_of_bounds c).
    case_bool (radix <=? digit_of c); [now apply runs_throw|]. rewrite bind_ret.
    eapply runs_bind.
    { unfold mpi_mul_int. apply mpi_mul_mpi_spec; auto. split; cbn; auto with limbs.
      constructor; [unfold limb; lia|constructor]. }
    intros T1 (HT1 & Hm1 & Hs1 & _). cbn [deref mpi_s] in Hm1, Hs1. rewrite Z.mul_1_r in Hs1.
    replace (mag (Mpi 1 [radix])) with radix in Hm1 by (unfold mag; cbn [mpi_p eval]; lia).
    runs_step (add_digit_spec d X T1 (mpi_s X)); auto; [apply HX|lia|]. intros X1 (HX1 & Hs & Hm).
    rewrite Hm1 in Hm. eapply runs_weaken; [apply IH; auto| |].
    + intros X' (H1 & H2 & H3). rewrite Hm in H3. split; [exact H1|]. split; [congruence|exact H3].
    + intros e He. now rewrite Hm in He.
Qed.

(** Digit [j] of a number in radix 16 sits in limb [j / 16]. *)
Lemma pow16_limb j : 16 ^ Z.of_nat j = bpow (j / 16) * 16 ^ Z.of_nat (j mod 16).
Proof.
  rewrite bpow_pow2. change 16 with (2 ^ 4). rewrite <- !Z.pow_mul_r, <- Z.pow_add_r by lia. f_equal.
  pose proof (Nat.div_mod j 16 ltac:(lia)). lia.
Qed.

(** The digits from the last one on. *)
Fixpoint le16 (cs : list Z) : option Z :=
  match cs with
  | [] => Some 0
  | c :: cs' => if 16 <=? digit_of c then None else option_map (fun v => digit_of c + 16 * v) (le16 cs')
  end.

Lemma le16_rev cs : le16 (rev cs) = num_of 16 0 cs.
Proof.
  rewrite <- (rev_involutive cs) at 2. induction (rev cs) as [|c l IH]; [reflexivity|].
  cbn [le16 rev]. rewrite num_of_app, <- IH. cbn [num_of].
  destruct (le16 l) as [v|]; cbn [option_map]; destruct (16 <=? digit_of c); try reflexivity.
  f_equal. ring.
Qed.

Lemma or_digit p j b :
  limbs p -> eval p < 16 ^ Z.of_nat j -> (j / 16 < length p)%nat -> 0 <= b < 16 ->
  let p' := upd_list p (j / 16) (Z.lor (nth (j / 16) p 0)
              (w64 (Z.shiftl b (Z.shiftl (Z.of_nat (j mod 16)) 2)))) in
  limbs p' /\ eval p' = eval p + 16 ^ Z.of_nat j * b.
Proof.
  intros Hp Hlt Hj Hb. cbv zeta. pose proof (Nat.mod_upper_bound j 16 ltac:(lia)) as Hm.
  pose proof (eval_nonneg p Hp) as He0. pose proof (bpow_pos (j / 16)) as Hbp.
  rewrite (pow16_limb j) in Hlt. set (r := (j mod 16)%nat) in *. set (x := nth (j / 16) p 0).
  assert (H2 : 0 < 16 ^ Z.of_nat r) by (apply Z.pow_pos_nonneg; lia).
  assert (Hx : 0 <= x < 16 ^ Z.of_nat r).
  { pose proof (nth_limb p (j / 16) Hp) as Hl. fold x in Hl. unfold limb in Hl. split; [lia|].
    unfold x. rewrite nth_eval by auto.
    assert (Hd : eval p / bpow (j / 16) < 16 ^ Z.of_nat r) by (apply Z.div_lt_upper_bound; lia).
    pose proof (Z.mod_le (eval p / bpow (j / 16)) base). pose proof (Z.div_pos (eval p) (bpow (j / 16))). lia. }
  assert (Hp2 : 16 ^ Z.of_nat r * 16 <= base).
  { change 16 with (2 ^ 4). rewrite <- Z.pow_mul_r, <- Z.pow_add_r by lia.
    change base with (2 ^ 64). apply Z.pow_le_mono_r; lia. }
  assert (He : 16 ^ Z.of_nat r = 2 ^ (4 * Z.of_nat r)) by (change 16 with (2 ^ 4); now rewrite <- Z.pow_mul_r by lia).
  assert (Hv : Z.lor x (w64 (Z.shiftl b (Z.shiftl (Z.of_nat r) 2))) = b * 16 ^ Z.of_nat r + x).
  { rewrite (Z.shiftl_mul_pow2 (Z.of_nat r) 2) by lia. change (2 ^ 2) with 4.
    rewrite Z.shiftl_mul_pow2, (Z.mul_comm (Z.of_nat r)), <- He by lia.
    rewrite w64_small by (unfold limb; nia). rewrite Z.lor_comm, He. apply lor_disjoint; lia. }
  rewrite Hv. split; [apply Forall_upd_list; [exact Hp|unfold limb; nia]|].
  rewrite eval_upd_list by exact Hj. fold x. rewrite (pow16_limb j). fold r. ring.
Qed.

(** [tail] is the minus sign at the front of the string, if there is one. *)
Lemma read_hex_spec d cs tail j X :
  tail = [dash] \/ tail = [] /\ (cs = [] \/ last cs 0 <> dash) ->
  mpi_wf X -> mpi_s X = 1 -> mag X < 16 ^ Z.of_nat j -> (j + length cs <= 16 * mpi_n X)%nat ->
  runs d (read_hex (cs ++ tail) j X)
    (fun X' => mpi_wf X' /\ mpi_s X' = (if tail is [] then 1 else -1) /\
       option_map (fun v => mag X + 16 ^ Z.of_nat j * v) (le16 cs) = Some (mag X'))
    (fun e => e = POLARSSL_ERR_MPI_INVALID_CHARACTER /\ le16 cs = None).
Proof.
  revert j X. induction cs as [|c cs IH]; intros j X Ht HX Hs Hlt Hlen; cbn [le16 app length] in *.
  - assert (Hz : mag X + 16 ^ Z.of_nat j * 0 = mag X) by ring. cbn [option_map].
    destruct Ht as [->|[-> _]].
    + cbn [read_hex length Nat.eqb]. apply runs_ret. rewrite Hz.
      split; [split; [auto with limbs|apply HX]|]. auto.
    + cbn [read_hex]. apply runs_ret. rewrite Hz. auto.
  - cbn [read_hex].
    assert (Hnd : ((length (cs ++ tail) =? 0)%nat && (c =? dash)) = false).
    { rewrite length_app. destruct Ht as [->|[-> Hl]]; [cbn [length]; case_bool (length cs + 1 =? 0)%nat; [lia|reflexivity]|].
      cbn [length]. case_bool (length cs + 0 =? 0)%nat; [|reflexivity]. destruct cs as [|c' cs']; [|cbn [length app Nat.add] in E; lia].
      destruct Hl as [Hl|Hl]; [discriminate|]. cbn [last] in Hl. case_bool (c =? dash); [contradiction|reflexivity]. }
    rewrite Hnd. unfold mpi_get_digit. pose proof (digit_of_bounds c).
    case_bool (16 <=? digit_of c); [now apply runs_throw|]. rewrite bind_ret.
    pose proof (Nat.div_mod j 16 ltac:(lia)). pose proof (Nat.mod_upper_bound j 16 ltac:(lia)).
    change (2 * ciL)%nat with 16%nat. unfold mpi_n in *.
    assert (Hj : (j / 16 < length (mpi_p X))%nat) by lia.
    runs_step runs_rd; [exact Hj|]. intros x ->. runs_step runs_wr; [exact Hj|]. intros p ->.
    destruct (or_digit (mpi_p X) j (digit_of c)) as [Hl He]; auto with limbs; [lia|].
    set (p := upd_list _ _ _) in *. assert (H16 : 0 < 16 ^ Z.of_nat j) by (apply Z.pow_pos_nonneg; lia).
    assert (Hm : mag (Mpi (mpi_s X) p) = mag X + 16 ^ Z.of_nat j * digit_of c) by exact He.
    eapply runs_weaken; [apply IH| |].
    + destruct Ht as [->|[-> Hl2]]; [now left|right]. split; [reflexivity|].
      destruct cs; [now left|right]. destruct Hl2 as [Hl2|Hl2]; [discriminate|exact Hl2].
    + split; [apply HX|exact Hl].
    + exact Hs.
    + rewrite Hm, Nat2Z.inj_succ, Z.pow_succ_r by lia. nia.
    + cbn [mpi_p]. unfold p. rewrite length_upd_list. lia.
    + intros X' (Q1 & Q2 & Q3). split; [exact Q1|]. split; [exact Q2|]. rewrite Hm in Q3.
      destruct (le16 cs) as [v|]; [|discriminate]. cbn [option_map] in Q3 |- *. injection Q3 as Q3. f_equal.
      rewrite <- Q3, Nat2Z.inj_succ, Z.pow_succ_r by lia. ring.
    + intros e [-> ->]. auto.
Qed.

(** [mpi_read_string] reads what [parse] says, and refuses everything
    else. *)
Lemma mpi_read_string_spec X radix s :
  mpi_wf X -> 2 <= radix <= 16 ->
  runs NoFail (mpi_read_string X radix s)
    (fun X' => mpi_wf X' /\ parse radix s = Some (mpi_s X', mag X'))
    (fun e => e = POLARSSL_ERR_MPI_INVALID_CHARACTER /\ parse radix s = None).
Proof.
  intros HX Hr. unfold mpi_read_string.
  case_bool (radix <? 2); [lia|]. case_bool (16 <? radix); [lia|]. cbn [orb].
  case_bool (radix =? 16).
  - subst radix. runs_step mpi_grow_spec; [exact HX|]. intros X1 (HX1 & _ & _ & Hn1).
    runs_step mpi_lset_spec; [lia|]. intros X2 (HX2 & Hv2 & Hn2 & Hs2 & _).
    cbn [Z.ltb Z.compare] in Hs2. unfold val in Hv2. rewrite Hs2 in Hv2.
    assert (Hm2 : mag X2 = 0) by lia.
    assert (Hlen : (length s <= 16 * mpi_n X2)%nat).
    { rewrite Hn2, Hn1. unfold BITS_TO_LIMBS. rewrite Z.shiftl_mul_pow2 by lia. change (2 ^ 2) with 4.
      assert (Z.of_nat (length s) <= 16 * ((Z.of_nat (length s) * 4 + 64 - 1) / 64)) by dlia. lia. }
    assert (Hcore : forall cs tail, s = rev tail ++ cs -> (tail = [dash] \/ tail = [] /\ (cs = [] \/ hd 0 cs <> dash)) ->
      runs NoFail (read_hex (rev s) 0 X2)
        (fun X' => mpi_wf X' /\ mpi_s X' = (if tail is [] then 1 else -1) /\ num_of 16 0 cs = Some (mag X'))
        (fun e => e = POLARSSL_ERR_MPI_INVALID_CHARACTER /\ num_of 16 0 cs = None)).
    { intros cs tail Es Ht. rewrite Es, rev_app_distr, rev_involutive.
      eapply runs_weaken; [apply (read_hex_spec NoFail (rev cs) tail 0 X2); auto| |].
      - destruct Ht as [Ht|[Ht Hh]]; [now left|right]. split; [exact Ht|].
        destruct cs as [|c cs]; [now left|right]. destruct Hh as [Hh|Hh]; [discriminate|].
        cbn [rev]. now rewrite last_last.
      - rewrite Hm2. lia.
      - rewrite length_rev. rewrite Es, length_app in Hlen. cbn [Nat.add]. lia.
      - intros X' (H1 & H2 & H3). split; [exact H1|]. split; [exact H2|]. rewrite <- le16_rev.
        destruct (le16 (rev cs)) as [v|]; [|discriminate]. cbn [option_map] in H3. injection H3 as H3.
        f_equal. rewrite Hm2 in H3. change (16 ^ Z.of_nat 0) with 1 in H3. lia.
      - intros e [H1 H2]. now rewrite <- le16_rev. }
    destruct s as [|c cs].
    + eapply runs_weaken; [apply (Hcore [] []); auto| |].
      * intros X' (H1 & H2 & H3). cbn [parse]. injection H3 as H3. rewrite H2, <- H3. auto.
      * intros e [_ H]. discriminate.
    + cbn [parse]. case_bool (c =? dash).
      * subst c. eapply runs_weaken; [apply (Hcore cs [dash]); auto| |].
        -- intros X' (H1 & H2 & H3). rewrite H2, H3. auto.
        -- intros e [H1 H2]. rewrite H2. auto.
      * eapply runs_weaken; [apply (Hcore (c :: cs) []); auto| |].
        -- intros X' (H1 & H2 & H3). rewrite H2, H3. auto.
        -- intros e [H1 H2]. rewrite H2. auto.
  - runs_step mpi_lset_spec; [lia|]. intros X2 (HX2 & Hv2 & _ & Hs2 & _).
    cbn [Z.ltb Z.compare] in Hs2. unfold val in Hv2. rewrite Hs2 in Hv2.
    assert (Hm2 : mag X2 = 0) by lia.
    destruct s as [|c cs]; cbn [read_digits parse].
    { apply runs_ret. now rewrite Hs2, Hm2. }
    case_bool (c =? dash); cbn [andb].
    + eapply runs_weaken; [apply read_digits_spec; auto with limbs; [lia|split; [auto with limbs|apply HX2]]| |].
      * intros X' (H1 & H2 & H3). change (mag (Mpi (-1) (mpi_p X2))) with (mag X2) in H3.
        rewrite Hm2 in H3. rewrite H2, H3. auto.
      * intros e [H1 H2]. change (mag (Mpi (-1) (mpi_p X2))) with (mag X2) in H2. rewrite Hm2 in H2.
        rewrite H2. auto.
    + eapply runs_weaken; [eapply runs_ext; [|apply (read_digits_spec NoFail radix (c :: cs) X2 mpi_init); auto with limbs; lia]| |].
      * intros h. reflexivity.
      * intros X' (H1 & H2 & H3). rewrite Hm2 in H3. rewrite H2, H3, Hs2. auto.
      * intros e [H1 H2]. rewrite Hm2 in H2. rewrite H2. auto.
Qed.

(** ** Writing *)

Lemma est_good_radix hl radix : 2 <= radix <= 16 -> est_good hl (norm_limb radix).
Proof.
  intros Hr. destruct hl; [apply (Estimate_longlong radix)|apply (Estimate_portable radix)].
  change (2 ^ 31) with 2147483648. lia.
Qed.

(** The division of a number by the radix in place. *)
Lemma div_radix_spec hl X radix :
  mpi_wf X -> mpi_s X = 1 -> 2 <= radix <= 16 ->
  runs NoFail (mpi_div_int hl (Some X) None IsQ radix)
    (fun '(Q, _) => match Q with Some q => mpi_wf q /\ val q = mag X / radix | None => False end) no_err.
Proof.
  intros HX Hs Hr. unfold mpi_div_int.
  assert (HB : mpi_s (mpi_of_int radix) = 1 /\ mag (mpi_of_int radix) = radix).
  { unfold mpi_of_int, mag. cbn [mpi_s mpi_p eval]. case_bool (radix <? 0); [lia|].
    rewrite w64_small by (unfold limb; lia). split; [reflexivity|lia]. }
  destruct HB as [HsB HmB].
  eapply runs_post; [apply mpi_div_mpi_gen; cbn [div_deref]; auto; rewrite ?HmB|].
  - apply mpi_of_int_wf.
  - lia.
  - now apply est_good_radix.
  - intros [Q R] (H1 & _ & H2 & _). cbn [div_deref] in H1. rewrite Hs, HsB, HmB in H1.
    destruct Q as [q|]; [|now destruct H2 as [H2 _]; discriminate (H2 eq_refl)].
    destruct H1 as [H1 H3]. split; [exact H1|]. rewrite H3. cbn [sign_after_Q]. lia.
Qed.

(** What a string of digits promises: no sign, the value, and no more digits
    than it takes. *)
Definition digits_ok (radix v : Z) (ds : list Z) : Prop :=
  Forall (fun c => c <> dash) ds /\ ds <> [] /\ num_of radix 0 ds = Some v /\
  ((1 < length ds)%nat -> radix ^ (Z.of_nat (length ds) - 1) <= v).

Lemma mpi_write_hlp_spec hl fuel X radix :
  mpi_wf X -> mpi_s X = 1 -> (0 < mpi_n X)%nat -> 2 <= radix <= 15 -> mag X < 2 ^ Z.of_nat fuel ->
  (0 < fuel)%nat ->
  runs NoFail (mpi_write_hlp hl fuel X radix) (digits_ok radix (mag X)) no_err.
Proof.
  revert X. induction fuel as [|fuel IH]; intros X HX Hs Hn Hr Hlt Hf; [lia|]. cbn [mpi_write_hlp].
  case_bool (radix <? 2); [lia|]. case_bool (16 <? radix); [lia|]. cbn [orb].
  pose proof (mag_nonneg X HX) as H0. assert (Hv : val X = mag X) by (unfold val; rewrite Hs; ring).
  runs_step mpi_mod_int_spec; [auto|auto|lia|]. intros r ->. rewrite Hv.
  pose proof (Z.mod_pos_bound (mag X) radix ltac:(lia)) as Hm.
  runs_step div_radix_spec; [auto|auto|lia|]. intros [[q|] R] HQ; [|contradiction]. destruct HQ as [Hq Hvq].
  assert (Hd : digit_of (digit_char (mag X mod radix)) = mag X mod radix) by (apply digit_of_char; lia).
  assert (Hc : digit_char (mag X mod radix) <> dash) by (apply digit_char_not_dash; lia).
  rewrite mpi_cmp_int_0, Hvq by exact Hq.
  pose proof (Z.div_mod (mag X) radix ltac:(lia)) as Hdm. set (u := mag X / radix) in *. set (w := mag X mod radix) in *.
  assert (Hu : 0 <= u) by (apply Z.div_pos; lia).
  assert (Hw : (radix <=? w) = false) by (apply Z.leb_gt; lia).
  destruct (Z.compare_spec u 0) as [Eu|Eu|Eu]; [|lia|]; cbn [cmp_sign Z.eqb negb].
  - rewrite bind_ret. apply runs_ret. unfold digits_ok. cbn [app num_of length]. rewrite Hd, Hw.
    split; [constructor; auto|]. split; [discriminate|]. split; [f_equal; lia|]. intros. lia.
  - assert (Hsq : mpi_s q = 1) by (apply pos_sign; [exact Hq|lia]).
    assert (Hmq : mag q = u) by (unfold val in Hvq; rewrite Hsq in Hvq; lia).
    rewrite Nat2Z.inj_succ, Z.pow_succ_r in Hlt by lia.
    assert (Hlt' : mag q < 2 ^ Z.of_nat fuel) by (rewrite Hmq; nia).
    assert (Hf' : (0 < fuel)%nat) by (destruct fuel; [change (2 ^ Z.of_nat 0) with 1 in Hlt'; lia|lia]).
    eapply runs_bind; [apply IH; auto; apply mag_pos_n; auto; lia|].
    intros hi (D1 & D2 & D3 & D4). apply runs_ret. rewrite Hmq in *. unfold digits_ok.
    split; [apply Forall_app; auto|]. split; [now destruct hi|].
    split; [rewrite num_of_app, D3; cbn [num_of]; rewrite Hd, Hw; f_equal; lia|].
    intros _. rewrite length_app. cbn [length].
    assert (Hl : (1 <= length hi)%nat) by (destruct hi; [contradiction|simpl; lia]).
    replace (Z.of_nat (length hi + 1) - 1) with (Z.succ (Z.of_nat (length hi) - 1)) by lia.
    rewrite Z.pow_succ_r by lia. destruct (Nat.eq_dec (length hi) 1) as [E1|E1].
    + rewrite E1. change (radix ^ (Z.of_nat 1 - 1)) with (radix ^ 0). rewrite Z.pow_0_r. nia.
    + specialize (D4 ltac:(lia)). nia.
Qed.

(** *** Radix 16 *)

(** The bytes of a limb, the highest of the [jn] lowest first. *)
Fixpoint limb_bytes (x : Z) (jn : nat) : list Z :=
  match jn with
  | O => []
  | S j => Z.land (Z.shiftr x (Z.shiftl (Z.of_nat j) 3)) 0xFF :: limb_bytes x j
  end.

Fixpoint number_bytes (i1 : nat) (p : list Z) : list Z :=
  match i1 with
  | O => []
  | S i => limb_bytes (nth i p 0) ciL ++ number_bytes i p
  end.

(** Leading zero bytes go, but the last byte stays. *)
Fixpoint strip (bs : list Z) : list Z :=
  match bs with
  | [] => []
  | c :: bs' => if (c =? 0) && negb (length bs' =? 0)%nat then strip bs' else bs
  end.

Lemma hex_bytes_true i x jn :
  hex_bytes i x jn true = (flat_map sprintf_02X (limb_bytes x jn), true).
Proof.
  induction jn as [|j IH]; [reflexivity|]. cbn [hex_bytes limb_bytes flat_map].
  rewrite andb_false_r. cbn [andb]. now rewrite IH.
Qed.

Lemma hex_bytes_false i x jn rest :
  length rest = (8 * i)%nat ->
  let '(l, k) := hex_bytes i x jn false in
  (if k then l ++ flat_map sprintf_02X rest = flat_map sprintf_02X (strip (limb_bytes x jn ++ rest))
   else l = [] /\ ((0 < jn)%nat -> rest <> []) /\ strip (limb_bytes x jn ++ rest) = strip rest).
Proof.
  intros Hr. induction jn as [|j IH]; cbn [hex_bytes limb_bytes app strip].
  - split; [reflexivity|]. split; [lia|reflexivity].
  - set (c := Z.land _ _). rewrite andb_true_r.
    assert (Hlen : (length (limb_bytes x j ++ rest) =? 0)%nat = (i + j =? 0)%nat).
    { rewrite length_app. replace (length (limb_bytes x j)) with j by (clear; induction j; simpl; congruence).
      rewrite Hr. case_bool (j + 8 * i =? 0)%nat; case_bool (i + j =? 0)%nat; try reflexivity; lia. }
    rewrite Hlen. destruct (c =? 0) eqn:Ec; cbn [andb].
    + case_bool (i + j =? 0)%nat; cbn [negb].
      * rewrite hex_bytes_true. cbv beta iota zeta. rewrite <- app_assoc. cbn [flat_map app].
        now rewrite flat_map_app.
      * destruct (hex_bytes i x j false) as [l k]. destruct k; [exact IH|].
        destruct IH as (H1 & H2 & H3). split; [exact H1|]. split; [|exact H3].
        intros _ Hnil. rewrite Hnil in Hr. simpl in Hr.
        destruct j as [|j]; [lia|]. now apply (H2 ltac:(lia)).
    + rewrite hex_bytes_true. cbv beta iota zeta. rewrite <- app_assoc. cbn [flat_map app].
      now rewrite flat_map_app.
Qed.

Lemma length_number_bytes i p : length (number_bytes i p) = (8 * i)%nat.
Proof.
  induction i as [|i IH]; [reflexivity|]. cbn [number_bytes]. rewrite length_app, IH.
  simpl length. lia.
Qed.

Lemma hex_limbs_strip i1 p :
  hex_limbs i1 p true = flat_map sprintf_02X (number_bytes i1 p) /\
  hex_limbs i1 p false = flat_map sprintf_02X (strip (number_bytes i1 p)).
Proof.
  induction i1 as [|i [IHt IHf]]; [split; reflexivity|]. cbn [hex_limbs number_bytes]. split.
  - rewrite hex_bytes_true, IHt. now rewrite flat_map_app.
  - pose proof (hex_bytes_false i (nth i p 0) ciL (number_bytes i p) (length_number_bytes i p)) as H.
    destruct (hex_bytes i (nth i p 0) ciL false) as [l k]. destruct k.
    + now rewrite IHt.
    + destruct H as (-> & _ & ->). exact IHf.
Qed.

Lemma be_value_cons b l : be_value (b :: l) = b * p256 (length l) + be_value l.
Proof.
  unfold be_value. cbn [rev]. rewrite le_value_app, length_rev. cbn [le_value]. ring.
Qed.

Lemma be_value_app l m : be_value (l ++ m) = be_value l * p256 (length m) + be_value m.
Proof.
  unfold be_value. rewrite rev_app_distr, le_value_app, length_rev. ring.
Qed.

Lemma be_value_bounds l : Forall byte l -> 0 <= be_value l < p256 (length l).
Proof. intros H. rewrite <- length_rev. apply le_value_bounds. now apply Forall_rev. Qed.

Lemma limb_bytes_spec x jn :
  length (limb_bytes x jn) = jn /\ Forall byte (limb_bytes x jn) /\
  be_value (limb_bytes x jn) = x mod p256 jn.
Proof.
  induction jn as [|j (IHl & IHb & IHv)]; cbn [limb_bytes length].
  - split; [reflexivity|]. split; [constructor|]. change (p256 0) with 1. now rewrite Z.mod_1_r.
  - assert (Hc : Z.land (Z.shiftr x (Z.shiftl (Z.of_nat j) 3)) 0xFF = (x / p256 j) mod 256).
    { change 0xFF with (Z.ones 8). rewrite Z.land_ones by lia. change (2 ^ 8) with 256.
      rewrite shift_8, Z.shiftr_div_pow2, p256_pow2 by lia. reflexivity. }
    rewrite Hc. split; [lia|]. split; [constructor; [apply Z.mod_pos_bound; lia|exact IHb]|].
    rewrite be_value_cons, IHl, IHv, p256_S. pose proof (p256_pos j).
    rewrite (Z.mul_comm 256), Z.rem_mul_r by lia. ring.
Qed.

Lemma number_bytes_spec i p :
  limbs p -> (i <= length p)%nat ->
  Forall byte (number_bytes i p) /\ be_value (number_bytes i p) = eval (firstn i p).
Proof.
  intros Hp. induction i as [|i IH]; intros Hi; cbn [number_bytes].
  - split; [constructor|]. reflexivity.
  - destruct (IH ltac:(lia)) as [IHb IHv].
    destruct (limb_bytes_spec (nth i p 0) ciL) as (_ & Hb & Hv).
    split; [apply Forall_app; split; assumption|]. rewrite be_value_app, Hv, IHv, length_number_bytes, eval_firstn_S.
    pose proof (nth_limb p i Hp) as Hl. change (p256 ciL) with base. rewrite Z.mod_small by exact Hl.
    replace (p256 (8 * i)) with (bpow i); [ring|]. rewrite bpow_pow2, p256_pow2. f_equal. lia.
Qed.

Lemma strip_spec bs :
  Forall byte bs -> bs <> [] ->
  Forall byte (strip bs) /\ be_value (strip bs) = be_value bs /\ strip bs <> [] /\
  ((1 < length (strip bs))%nat -> p256 (length (strip bs) - 1) <= be_value bs).
Proof.
  induction 1 as [|c bs Hc Hbs IH]; [contradiction|]. intros _. cbn [strip].
  case_bool (c =? 0); cbn [andb].
  - case_bool (length bs =? 0)%nat; cbn [negb].
    + split; [now constructor|]. split; [reflexivity|]. split; [discriminate|]. cbn [length]. lia.
    + destruct IH as (H1 & H2 & H3 & H4); [now destruct bs|].
      rewrite be_value_cons. subst c. rewrite H2, Z.mul_0_l, Z.add_0_l. auto.
  - split; [now constructor|]. split; [reflexivity|]. split; [discriminate|]. intros _. cbn [length].
    rewrite be_value_cons. pose proof (be_value_bounds bs Hbs). pose proof (p256_pos (length bs)).
    unfold byte in Hc. replace (S (length bs) - 1)%nat with (length bs) by lia. nia.
Qed.

Lemma num_of_hex bs : Forall byte bs -> forall acc, 0 <= acc ->
  num_of 16 acc (flat_map sprintf_02X bs) = Some (acc * p256 (length bs) + be_value bs) /\
  Forall (fun c => c <> dash) (flat_map sprintf_02X bs) /\
  length (flat_map sprintf_02X bs) = (2 * length bs)%nat.
Proof.
  induction 1 as [|c bs Hc Hbs IH]; intros acc Ha.
  - cbn [flat_map num_of length]. change (p256 0) with 1. change (be_value []) with 0.
    split; [f_equal; lia|]. split; [constructor|reflexivity].
  - cbn [flat_map sprintf_02X app num_of length]. unfold byte in Hc.
    assert (Hh : 0 <= c / 16 < 16) by dlia. assert (Hl : 0 <= c mod 16 < 16) by dlia.
    rewrite !digit_of_char by lia. rewrite !(proj2 (Z.leb_gt 16 _)) by lia.
    destruct (IH ((acc * 16 + c / 16) * 16 + c mod 16)) as (IH1 & IH2 & IH3); [nia|].
    rewrite IH1, be_value_cons, p256_S. split; [f_equal; pose proof (Z.div_mod c 16); nia|].
    split; [repeat constructor; auto using digit_char_not_dash|]. rewrite IH3. lia.
Qed.

(** The digits in radix 16: two a byte, and no leading zero byte. *)
Lemma hex_limbs_ok X :
  mpi_wf X -> (0 < mpi_n X)%nat ->
  exists k, length (hex_limbs (mpi_n X) (mpi_p X) false) = (2 * k)%nat /\ (0 < k)%nat /\
    ((1 < k)%nat -> p256 (k - 1) <= mag X) /\
    num_of 16 0 (hex_limbs (mpi_n X) (mpi_p X) false) = Some (mag X) /\
    Forall (fun c => c <> dash) (hex_limbs (mpi_n X) (mpi_p X) false).
Proof.
  intros [_ Hp] Hn. rewrite (proj2 (hex_limbs_strip _ _)). unfold mpi_n in *.
  destruct (number_bytes_spec (length (mpi_p X)) (mpi_p X) Hp ltac:(lia)) as [Hb Hv].
  rewrite firstn_all in Hv.
  destruct (strip_spec _ Hb) as (S1 & S2 & S3 & S4).
  { intros E. apply (f_equal (@length Z)) in E. rewrite length_number_bytes in E. simpl in E. lia. }
  destruct (num_of_hex _ S1 0 ltac:(lia)) as (N1 & N2 & N3).
  set (bs := strip _) in *. exists (length bs). split; [exact N3|].
  assert (H0 : length bs <> 0%nat) by (intros E; now apply S3, length_zero_iff_nil).
  split; [lia|]. rewrite Hv in S4. split; [exact S4|].
  split; [|exact N2]. rewrite N1, S2, Hv. reflexivity.
Qed.

(** *** The whole string *)

(** In radix 16 the size leaves no room for the sign when the highest byte
    holds less than half a byte. *)
Definition dash_overflow (radix : Z) (X : mpi) : Prop :=
  radix = 16 /\ mpi_s X = -1 /\ (bitlen (mag X) = 0 \/ 1 <= bitlen (mag X) mod 8 <= 3).

Lemma bitlen_le v : 0 <= v -> v < 2 ^ bitlen v /\ 0 <= bitlen v.
Proof.
  intros Hv. destruct (Z.eq_dec v 0) as [->|Hz]; [change (bitlen 0) with 0; lia|].
  pose proof (bitlen_spec v ltac:(lia)) as [_ H]. split; [exact H|].
  unfold bitlen. destr_if; [lia|]. pose proof (Z.log2_nonneg v). lia.
Qed.

Lemma digits_fit radix v L :
  2 <= radix <= 15 -> 0 <= v -> (0 < L)%nat -> ((1 < L)%nat -> radix ^ (Z.of_nat L - 1) <= v) ->
  Z.of_nat L + 2 <= string_size radix (bitlen v).
Proof.
  intros Hr Hv HL H. destruct (bitlen_le v Hv) as [Hlt H0]. set (m := bitlen v) in *.
  unfold string_size. case_bool (16 <=? radix); [lia|].
  destruct (Nat.eq_dec L 1) as [->|Hne].
  { case_bool (4 <=? radix); rewrite ?Z.shiftr_div_pow2 by lia; change (2 ^ 1) with 2; dlia. }
  specialize (H ltac:(lia)).
  case_bool (4 <=? radix).
  - rewrite Z.shiftr_div_pow2 by lia. change (2 ^ 1) with 2.
    assert (Hp : 2 ^ (2 * (Z.of_nat L - 1)) < 2 ^ m).
    { rewrite Z.pow_mul_r by lia. change (2 ^ 2) with 4.
      assert (4 ^ (Z.of_nat L - 1) <= radix ^ (Z.of_nat L - 1)) by (apply Z.pow_le_mono_l; lia). lia. }
    apply Z.pow_lt_mono_r_iff in Hp; [dlia|lia|lia].
  - assert (Hp : 2 ^ (Z.of_nat L - 1) < 2 ^ m).
    { assert (2 ^ (Z.of_nat L - 1) <= radix ^ (Z.of_nat L - 1)) by (apply Z.pow_le_mono_l; lia). lia. }
    apply Z.pow_lt_mono_r_iff in Hp; lia.
Qed.

Lemma hex_fit v k sign :
  0 <= v -> (0 < k)%nat -> ((1 < k)%nat -> p256 (k - 1) <= v) -> 0 <= sign <= 1 ->
  (sign = 1 -> bitlen v <> 0 /\ ~ (1 <= bitlen v mod 8 <= 3)) ->
  2 * Z.of_nat k + sign + 1 <= string_size 16 (bitlen v).
Proof.
  intros Hv Hk H Hs Hd. destruct (bitlen_le v Hv) as [Hlt H0]. set (m := bitlen v) in *.
  unfold string_size. cbn [Z.leb Z.compare Pos.compare Pos.compare_cont].
  rewrite !Z.shiftr_div_pow2 by lia. change (2 ^ 1) with 2.
  destruct (Nat.eq_dec k 1) as [->|Hne]; [dlia|]. specialize (H ltac:(lia)). rewrite p256_pow2 in H.
  assert (Hp : 2 ^ (8 * Z.of_nat (k - 1)) < 2 ^ m) by lia.
  apply Z.pow_lt_mono_r_iff in Hp; [dlia|lia|lia].
Qed.

(** [mpi_write_string] writes a string that denotes the number and stays
    inside the buffer, but for the numbers of [dash_overflow], for which the
    buffer must have one byte more than the function asks for. *)
Lemma mpi_write_string_spec hl X radix slen :
  mpi_wf X -> (0 < mpi_n X)%nat -> 2 <= radix <= 16 ->
  string_size radix (bitlen (mag X)) <= slen -> ~ dash_overflow radix X ->
  runs NoFail (mpi_write_string hl X radix slen)
    (fun s => Z.of_nat (length s) <= slen /\
              exists cs, s = cs ++ [0] /\ cs <> [] /\ parse radix cs = Some (mpi_s X, mag X)) no_err.
Proof.
  intros HX Hn Hr Hlen Hd. unfold mpi_write_string.
  case_bool (radix <? 2); [lia|]. case_bool (16 <? radix); [lia|]. cbn [orb].
  pose proof (mag_nonneg X HX) as H0.
  runs_step mpi_msb_spec; auto. intros m ->.
  case_bool (slen <? string_size radix (bitlen (mag X))); [lia|].
  set (sign := if mpi_s X =? -1 then [dash] else []).
  eapply runs_bind.
  { instantiate (1 := fun ds => Forall (fun c => c <> dash) ds /\ ds <> [] /\
      num_of radix 0 ds = Some (mag X) /\
      Z.of_nat (length (sign ++ ds ++ [0])) <= string_size radix (bitlen (mag X))).
    assert (Hsl : 0 <= Z.of_nat (length sign) <= 1) by (unfold sign; destruct (mpi_s X =? -1); cbn [length]; lia).
    case_bool (radix =? 16).
    - subst radix. apply runs_ret. destruct (hex_limbs_ok X HX Hn) as (k & K1 & K2 & K3 & K4 & K5).
      split; [exact K5|]. split; [intros Hnil; rewrite Hnil in K1; simpl in K1; lia|]. split; [exact K4|].
      rewrite !length_app, K1. cbn [length].
      pose proof (hex_fit (mag X) k (Z.of_nat (length sign)) H0 K2 K3 Hsl) as Hf.
      assert (Hd' : Z.of_nat (length sign) = 1 -> bitlen (mag X) <> 0 /\ ~ (1 <= bitlen (mag X) mod 8 <= 3)).
      { intros E'. assert (Hs : mpi_s X = -1) by (unfold sign in E'; case_bool (mpi_s X =? -1); [auto|discriminate]).
        unfold dash_overflow in Hd. tauto. }
      specialize (Hf Hd'). lia.
    - runs_step mpi_copy_spec; [exact HX|]. intros T (HT & HmT & HsT & HnT). cbn [deref] in *.
      set (T1 := if mpi_s T =? -1 then _ else T).
      assert (HT1 : mpi_wf T1 /\ mpi_s T1 = 1 /\ mag T1 = mag X /\ mpi_n T1 = mpi_n T).
      { unfold T1. case_bool (mpi_s T =? -1).
        - split; [split; [auto with limbs|apply HT]|]. auto.
        - destruct HT as [[Hs|Hs] Hl]; [|contradiction]. split; [split; [now left|exact Hl]|]. auto. }
      destruct HT1 as (W1 & W2 & W3 & W4).
      assert (Hn1 : (0 < mpi_n T1)%nat).
      { rewrite W4, HnT, copy_len_spec. fold (mpi_n X). lia. }
      eapply runs_post; [apply mpi_write_hlp_spec; auto; [lia| |unfold write_fuel; lia]|].
      + pose proof (eval_bounds (mpi_p T1) ltac:(apply W1)) as Hb. fold (mag T1) (mpi_n T1) in Hb.
        eapply Z.lt_le_trans; [apply Hb|]. rewrite bpow_pow2. apply Z.pow_le_mono_r; [lia|].
        unfold write_fuel. lia.
      + intros ds (D1 & D2 & D3 & D4). rewrite W3 in *. do 3 (split; [auto|]).
        assert (HL : (0 < length ds)%nat) by (destruct ds; [contradiction|simpl; lia]).
        pose proof (digits_fit radix (mag X) (length ds) ltac:(lia) H0 HL D4) as Hf.
        rewrite !length_app. cbn [length]. lia. }
  intros ds (D1 & D2 & D3 & D4). cbv beta zeta. fold sign. set (s := sign ++ ds ++ [0]) in *.
  case_bool (Z.of_nat (length s) <=? slen); [|lia]. apply runs_ret. split; [lia|].
  exists (sign ++ ds). split; [apply app_assoc|]. split; [intros Hnil; now apply app_eq_nil in Hnil|].
  destruct ds as [|c ds]; [contradiction|]. inv D1. unfold sign. case_bool (mpi_s X =? -1); cbn [app parse].
  - rewrite Z.eqb_refl, D3. cbn [option_map]. congruence.
  - case_bool (c =? dash); [contradiction|]. rewrite D3. cbn [option_map].
    destruct HX as [[Hs|Hs] _]; [now rewrite Hs|contradiction].
Qed.

(** *** Files *)

Lemma leading_digits_all radix cs v rest :
  num_of radix 0 cs = Some v -> (forall c r, rest = c :: r -> radix <= digit_of c) ->
  leading_digits radix (rev cs ++ rest) = rev cs.
Proof.
  intros Hn Hr.
  assert (Hall : Forall (fun c => digit_of c < radix) cs).
  { clear Hr. revert Hn. generalize 0. induction cs as [|c cs IH]; intros a; cbn [num_of]; [constructor|].
    case_bool (radix <=? digit_of c); [discriminate|]. intros H. constructor; [lia|eauto]. }
  apply Forall_rev in Hall. revert Hall. generalize (rev cs). intros l Hl.
  induction Hl as [|c l Hc Hl IH]; cbn [app leading_digits].
  - destruct rest as [|c r]; [reflexivity|]. cbn [leading_digits]. specialize (Hr c r eq_refl).
    case_bool (radix <=? digit_of c); [reflexivity|lia].
  - case_bool (radix <=? digit_of c); [lia|]. now rewrite IH.
Qed.

(** The digits of a string that denotes a number are read back from a line
    without the sign. *)
Lemma read_file_line X radix cs s v :
  mpi_wf X -> 2 <= radix <= 16 -> parse radix cs = Some (s, v) -> cs <> [] ->
  runs NoFail (mpi_read_file X radix (Some (cs ++ [13; 10])))
    (fun X' => mpi_wf X' /\ val X' = v) no_err.
Proof.
  intros HX Hr Hp Hne. unfold mpi_read_file, chop.
  replace (cs ++ [13; 10]) with ((cs ++ [13]) ++ [10]) by (now rewrite <- app_assoc).
  rewrite rev_unit, Z.eqb_refl, rev_involutive, bind_ret, rev_unit, Z.eqb_refl, rev_involutive, bind_ret.
  assert (Hd : exists ds, leading_digits radix (rev cs) = rev ds /\ num_of radix 0 ds = Some v /\
                          hd 0 ds <> dash).
  { destruct cs as [|c cs]; [contradiction|]. cbn [parse] in Hp. case_bool (c =? dash).
    - subst c. destruct (num_of radix 0 cs) as [w|] eqn:En; [|discriminate]. injection Hp as _ <-.
      exists cs. split; [|split; [exact En|]].
      + cbn [rev]. apply (leading_digits_all radix cs w [dash] En). intros c r [= <- _]. rewrite digit_of_dash. lia.
      + destruct cs as [|c cs]; cbn [hd]; [lia|]. intros ->. cbn [num_of] in En. rewrite digit_of_dash in En.
        case_bool (radix <=? 255); [discriminate|lia].
    - destruct (num_of radix 0 (c :: cs)) as [w|] eqn:En; [|discriminate]. injection Hp as _ <-.
      exists (c :: cs). split; [|split; [exact En|exact E]].
      rewrite <- (app_nil_r (rev (c :: cs))) at 1. apply (leading_digits_all radix (c :: cs) w [] En).
      discriminate. }
  destruct Hd as (ds & -> & Hds & Hh). rewrite rev_involutive.
  assert (Hpd : parse radix ds = Some (1, v)).
  { destruct ds as [|c ds]; cbn [parse]; [now injection Hds as <-|]. cbn [hd] in Hh.
    case_bool (c =? dash); [contradiction|]. now rewrite Hds. }
  eapply runs_weaken; [apply mpi_read_string_spec; auto| |].
  - intros X' [H1 H2]. rewrite Hpd in H2. injection H2 as H2 H3. split; [exact H1|].
    unfold val. rewrite <- H2, <- H3. ring.
  - intros e [_ H]. now rewrite Hpd in H.
Qed.

Lemma mpi_write_file_spec hl p X radix :
  mpi_wf X -> (0 < mpi_n X)%nat -> 2 <= radix <= 16 ->
  string_size radix (bitlen (mag X)) <= 1022 -> ~ dash_overflow radix X ->
  runs NoFail (mpi_write_file hl p X radix None)
    (fun out => exists cs, out = p ++ cs ++ [13; 10] /\ cs <> [] /\
                           parse radix cs = Some (mpi_s X, mag X)) no_err.
Proof.
  intros HX Hn Hr Hs Hd. unfold mpi_write_file.
  eapply runs_bind; [apply mpi_write_string_spec; auto|]. intros s (_ & cs & -> & Hne & Hp).
  apply runs_ret. exists cs. rewrite removelast_last. auto.
Qed.
