(* ===== verification/BignumFindings.v ===== *)
(** * Multi-precision integers: where the code does not do what it means to

    Concrete runs of the model, each of them a defect of
    [libsparkle/crypto/bignum.c]; the theorems of [BignumTheorems] state the
    provisos that exclude them. *)
From Stdlib Require Import ZArith List Lia Bool.
Import ListNotations.
From S2P Require Import Prelude CMonad Limbs Mpi MpiAddSub MpiShift MpiMul MpiDiv.
From S2P Require Import MpiDivCorrect MpiMod MpiMont MpiExp MpiGcd.
#[local] Open Scope Z_scope.
#[local] Open Scope cmonad_scope.

(** The outcome of a run in which no allocation fails. *)
Definition run {A} (m : M A) : outcome A := fst (m []).

(** The value of a result. *)
Definition out_val (o : outcome mpi) : option Z :=
  match o with Ok X => Some (val X) | _ => None end.

(** [mpi_cmp_mpi] with a negative second operand of more limbs: [3] is
    reported as smaller than [- 2^64]. *)
Example mpi_cmp_mpi_wrong : mpi_cmp_mpi (Mpi 1 [3]) (Mpi (-1) [0; 1]) = -1.
Proof. reflexivity. Qed.

(** So is zero against a negative constant. *)
Example mpi_cmp_int_wrong : mpi_cmp_int (Mpi 1 [0]) (-5) = -1.
Proof. reflexivity. Qed.

(** [mpi_add_abs( X, X, X )] loses the carries. *)
Example mpi_add_abs_alias_wrong :
  out_val (run (mpi_add_abs (Mpi 1 [base - 1]) Self Self)) = Some (base - 2).
Proof. vm_compute. reflexivity. Qed.

(** The estimate of [mpi_div_mpi] without a double-width type: quotient and
    remainder of a division are wrong, and the remainder exceeds the divisor. *)
Example div_portable_wrong :
  let A := Mpi 1 [15078438420181860742; 6197242898770034686] in
  let B := Mpi 1 [6197242898770034687] in
  match run (mpi_div_mpi false (Some mpi_init) (Some mpi_init) (Other A) (Other B)) with
  | Ok (Some q, Some r) => val q <> val A / val B /\ val B <= val r
  | _ => False
  end.
Proof. vm_compute. split; discriminate. Qed.

(** A quotient written over the dividend loses the sign: [-7 / 2 = 3]. *)
Example div_alias_sign_wrong :
  match run (mpi_div_mpi true (Some (Mpi (-1) [7])) None IsQ (Other (Mpi 1 [2]))) with
  | Ok (Some q, None) => val q = 3
  | _ => False
  end.
Proof. vm_compute. reflexivity. Qed.

(** A remainder written over the dividend too: [-7 mod 5 = 2]. *)
Example mod_alias_sign_wrong :
  out_val (run (mpi_mod_mpi true (Mpi (-1) [7]) Self (Var (Mpi 1 [5])))) = Some 2.
Proof. vm_compute. reflexivity. Qed.

(** A zero with a negative sign, which [mpi_sub_mpi] produces, has the
    remainder [- N]. *)
Example mod_negative_zero_wrong :
  out_val (run (Z0 <- mpi_sub_mpi mpi_init (Var (Mpi (-1) [5])) (Var (Mpi (-1) [5]));;
                mpi_mod_mpi true mpi_init (Var Z0) (Var (Mpi 1 [7])))) = Some (-7).
Proof. vm_compute. reflexivity. Qed.

(** The greatest common divisor of a number and zero is returned as zero. *)
Example gcd_zero_wrong :
  out_val (run (mpi_gcd mpi_init (Mpi 1 [12]) (Mpi 1 [0]))) = Some 0.
Proof. vm_compute. reflexivity. Qed.

(** The power of a negative base is that of its absolute value: [(-2)^3 mod 7]
    is [6], and the code returns [1]. *)
Example exp_mod_negative_wrong :
  match run (mpi_exp_mod true mpi_init (Var (Mpi (-1) [2])) (Mpi 1 [3]) (Mpi 1 [7]) None) with
  | Ok (X, _) => val X = 1
  | _ => False
  end.
Proof. vm_compute. reflexivity. Qed.

(** ** A loop that does not end *)

(** No amount of fuel is enough. *)
Definition diverges {A} (m : M A) : Prop :=
  forall h, ok_heap NoFail h -> fst (m h) = OutOfFuel.

Lemma diverges_bind {A B} (m : M A) (k : A -> M B) Q :
  runs NoFail m Q no_err -> (forall a, Q a -> diverges (k a)) -> diverges (bind m k).
Proof.
  intros Hm Hk h Hh. specialize (Hm h Hh). unfold bind.
  destruct (m h) as [[a|e| |] h']; try contradiction.
  - destruct Hm as [Hh' HQ]. exact (Hk a HQ h' Hh').
  - destruct Hm as [_ [[]|[Hd _]]]. discriminate.
Qed.

(** The number keeps limbs to look at. *)
Definition has_limbs (X : mpi) : Prop := mpi_wf X /\ (0 < mpi_n X)%nat.

Lemma fix_cofactors_limbs U1 U2 TA TB :
  has_limbs U1 -> has_limbs U2 -> mpi_wf TA -> mpi_wf TB ->
  runs NoFail (fix_cofactors U1 U2 TA TB) (fun '(V1, V2) => has_limbs V1 /\ has_limbs V2) no_err.
Proof.
  intros [H1 N1] [H2 N2] HA HB. unfold fix_cofactors.
  runs_step is_even_spec; auto. intros e1 _.
  eapply runs_bind with (Q := fun _ => True).
  { destruct e1; [|now apply runs_ret]. eapply runs_post; [apply is_even_spec; auto|auto]. }
  intros e2 _. destruct (e1 && e2); [apply runs_ret; split; split; auto|].
  runs_step mpi_add_mpi_spec; auto. intros V1 (HV1 & _ & Hn1).
  runs_step mpi_sub_mpi_spec; auto. intros V2 (HV2 & _ & Hn2).
  apply runs_ret. split; split; auto; lia.
Qed.

Lemma shift_limbs X :
  has_limbs X -> runs NoFail (mpi_shift_r X 1) (fun X' => has_limbs X' /\ (mag X = 0 -> mag X' = 0)) no_err.
Proof.
  intros [HX HN]. eapply runs_post; [apply mpi_shift_r_spec; auto; lia|].
  intros X' (HX' & Hm & _ & Hn). split; [split; auto; lia|]. intros Hz. now rewrite Hm, Hz.
Qed.

(** Halving zero never makes it odd, so that the loop does not end
    whatever the fuel: the loop [mpi_inv_mod] is in when it is called with
    the modulus one. *)
Theorem halve_zero_diverges fuel TU U1 U2 TA TB :
  has_limbs TU -> mag TU = 0 -> has_limbs U1 -> has_limbs U2 -> mpi_wf TA -> mpi_wf TB ->
  diverges (halve_loop fuel TU U1 U2 TA TB).
Proof.
  revert TU U1 U2. induction fuel as [|fuel IH]; intros TU U1 U2 HU Hz H1 H2 HA HB;
    cbn [halve_loop]; (eapply diverges_bind; [apply is_even_spec; apply HU|]); intros ev ->;
    unfold val; rewrite Hz, Z.mul_0_r; cbn [Z.modulo Z.div_eucl Z.eqb].
  - intros h _. reflexivity.
  - eapply diverges_bind; [apply shift_limbs; exact HU|]. intros TU' [HU' Hz'].
    eapply diverges_bind; [apply fix_cofactors_limbs; auto|]. intros [V1 V2] [HV1 HV2].
    eapply diverges_bind; [apply shift_limbs; exact HV1|]. intros W1 [HW1 _].
    eapply diverges_bind; [apply shift_limbs; exact HV2|]. intros W2 [HW2 _].
    apply IH; auto.
Qed.

(** And that is where the call with the modulus one ends up. *)
Example inv_mod_one_diverges : run (mpi_inv_mod true mpi_init (Mpi 1 [3]) (Mpi 1 [1])) = OutOfFuel.
Proof. vm_compute. reflexivity. Qed.

Lemma halve_zero_diverges_witness :
  diverges (halve_loop 1000 (Mpi 1 [0]) (Mpi 1 [1]) (Mpi 1 [0]) (Mpi 1 [0]) (Mpi 1 [1])).
Proof.
  apply (halve_zero_diverges 1000 (Mpi 1 [0]) (Mpi 1 [1]) (Mpi 1 [0]) (Mpi 1 [0]) (Mpi 1 [1]));
    try reflexivity; unfold has_limbs, mpi_wf, sign_ok, mpi_n; simpl;
    repeat split; auto; repeat constructor; unfold limb; lia.
Defined.

(** The inputs outside the provisos of the other theorems: comparisons
    with a longer negative operand, sums and quotients written over their
    operands, a zero with a negative sign, the portable digit estimate, a zero
    second operand of the gcd, a negative base. *)
Theorem bignum_limits :
  (mpi_cmp_mpi (Mpi 1 [3]) (Mpi (-1) [0; 1]) = -1 /\ mpi_cmp_int (Mpi 1 [0]) (-5) = -1) /\
  out_val (run (mpi_add_abs (Mpi 1 [base - 1]) Self Self)) = Some (base - 2) /\
  (let A := Mpi 1 [15078438420181860742; 6197242898770034686] in
   let B := Mpi 1 [6197242898770034687] in
   match run (mpi_div_mpi false (Some mpi_init) (Some mpi_init) (Other A) (Other B)) with
   | Ok (Some q, Some r) => val q <> val A / val B /\ val B <= val r
   | _ => False
   end) /\
  match run (mpi_div_mpi true (Some (Mpi (-1) [7])) None IsQ (Other (Mpi 1 [2]))) with
  | Ok (Some q, None) => val q = 3
  | _ => False
  end /\
  out_val (run (mpi_mod_mpi true (Mpi (-1) [7]) Self (Var (Mpi 1 [5])))) = Some 2 /\
  out_val (run (Z0 <- mpi_sub_mpi mpi_init (Var (Mpi (-1) [5])) (Var (Mpi (-1) [5]));;
                mpi_mod_mpi true mpi_init (Var Z0) (Var (Mpi 1 [7])))) = Some (-7) /\
  out_val (run (mpi_gcd mpi_init (Mpi 1 [12]) (Mpi 1 [0]))) = Some 0 /\
  match run (mpi_exp_mod true mpi_init (Var (Mpi (-1) [2])) (Mpi 1 [3]) (Mpi 1 [7]) None) with
  | Ok (X, _) => val X = 1
  | _ => False
  end.
Proof.
  split; [split; [exact mpi_cmp_mpi_wrong|exact mpi_cmp_int_wrong]|].
  split; [exact mpi_add_abs_alias_wrong|]. split; [exact div_portable_wrong|].
  split; [exact div_alias_sign_wrong|]. split; [exact mod_alias_sign_wrong|].
  split; [exact mod_negative_zero_wrong|]. split; [exact gcd_zero_wrong|].
  exact exp_mod_negative_wrong.
Qed.
