(* ===== verification/BignumTheorems.v ===== *)
(** * Multi-precision integers: the properties

    What [libsparkle/crypto/bignum.c] promises to its callers, each with a
    run on a concrete input. *)
From Stdlib Require Import ZArith List Lia Bool.
Import ListNotations.
From S2P Require Import Prelude CMonad Limbs Mpi MpiAddSub MpiShift MpiMul MpiDiv.
From S2P Require Import MpiDivCorrect MpiMod MpiMont MpiExp MpiGcd MpiBin.
#[local] Open Scope Z_scope.
#[local] Open Scope cmonad_scope.

(** A concrete number is well formed. *)
Ltac concrete_wf :=
  split; [first [left; reflexivity | right; reflexivity]
         | repeat (constructor; [unfold limb; simpl; lia|]); constructor].

Ltac concrete := try concrete_wf; try (intros Hz; vm_compute in Hz; discriminate Hz);
  try (vm_compute; congruence); try reflexivity; try exact I.

(** C1: [mpi_exp_mod] returns [A^E mod N] for every odd positive modulus,
    every non-negative base (which may be the destination itself) and every
    exponent, in the range of the modulus, without running out of an array or
    of fuel; the cache of [R^2 mod N] it is given or creates is right
    afterwards. *)
Theorem exp_mod_correct hl X A E N rr :
  Estimate hl (mag N) -> mpi_wf (deref X A) -> canon (deref X A) -> 0 <= val (deref X A) ->
  mpi_wf E -> (0 < mpi_n E)%nat -> mpi_wf N -> 0 < val N -> val N mod 2 = 1 -> cache_ok N rr ->
  runs NoFail (mpi_exp_mod hl X A E N rr)
    (fun '(X', rr') => mpi_wf X' /\ val X' = val (deref X A) ^ mag E mod val N /\
       cache_ok N rr' /\ (rr' = None <-> rr = None)) no_err.
Proof. intros. now apply mpi_exp_mod_spec. Qed.

Lemma exp_mod_correct_witness :
  runs NoFail (mpi_exp_mod true (Mpi 1 [3; 0; 0]) Self (Mpi 1 [5; 9]) (Mpi 1 [7; 1]) (Some mpi_init))
    (fun '(X', rr') => mpi_wf X' /\
       val X' = 3 ^ (5 + base * 9) mod (7 + base) /\
       cache_ok (Mpi 1 [7; 1]) rr' /\ (rr' = None <-> Some mpi_init = None)) no_err.
Proof.
  apply (exp_mod_correct true (Mpi 1 [3; 0; 0]) Self (Mpi 1 [5; 9]) (Mpi 1 [7; 1]) (Some mpi_init)).
  - exact _.
  - concrete.
  - concrete.
  - vm_compute; discriminate.
  - concrete.
  - unfold mpi_n; simpl; lia.
  - concrete.
  - reflexivity.
  - reflexivity.
  - simpl. intros H. now contradiction H.
Defined.

(** C2: [mpi_inv_mod] returns the inverse of [A] modulo [N], in the range of
    the modulus, for every [N > 1] and every [A] of either sign that is
    coprime to it; the halving and subtracting loops end.  [Estimate] is the
    proviso on the division of [mpi_mod_mpi], as for [exp_mod_correct]. *)
Theorem inv_mod_correct hl X A N :
  Estimate hl (mag N) -> mpi_wf A -> canon A -> mpi_wf N -> 1 < val N ->
  Z.gcd (val A) (val N) = 1 ->
  runs NoFail (mpi_inv_mod hl X A N)
    (fun X' => mpi_wf X' /\ 0 < val X' < val N /\ (val X' * val A) mod val N = 1) no_err.
Proof. intros. now apply mpi_inv_mod_spec. Qed.

Lemma inv_mod_correct_witness :
  runs NoFail (mpi_inv_mod true mpi_init (Mpi (-1) [3]) (Mpi 1 [0; 1]))
    (fun X' => mpi_wf X' /\ 0 < val X' < base /\ (val X' * -3) mod base = 1) no_err.
Proof.
  apply (inv_mod_correct true mpi_init (Mpi (-1) [3]) (Mpi 1 [0; 1])).
  - exact _.
  - concrete.
  - concrete.
  - concrete.
  - reflexivity.
  - reflexivity.
Defined.

(** C3: [mpi_div_mpi] is truncating division: when neither destination is an
    operand, the quotient and the remainder are those of [Z.quot] and
    [Z.rem], for all lengths and signs of the operands, whichever of the two
    destinations the caller asks for; for every divisor but zero where the
    code is compiled with [POLARSSL_HAVE_LONGLONG], and for those of
    less than 32 bits where it is not, as in this repository's build
    ([div_portable_wrong] is a larger divisor with a wrong result). *)
Theorem div_mpi_correct hl Q R A B :
  estimable hl (mag B) -> mpi_wf A -> mpi_wf B -> mag B <> 0 ->
  runs NoFail (mpi_div_mpi hl Q R (Other A) (Other B))
    (fun '(Q', R') =>
       opt_is Q' (fun q => val q = Z.quot (val A) (val B)) /\
       opt_is R' (fun r => val r = Z.rem (val A) (val B)) /\
       same_null Q Q' /\ same_null R R') no_err.
Proof.
  intros Hest%estimable_ok HA HB Hnz. eapply runs_post; [apply mpi_div_mpi_spec; auto|].
  intros [Q' R'] (H1 & H2 & H3 & H4). split; [exact H1|]. split; [|auto].
  destruct R' as [r|]; [|exact I]. destruct H2 as (H2 & H5 & _). split; assumption.
Qed.

(** A divisor of two limbs in the one form, and one of 31 bits in the other. *)
Lemma div_mpi_correct_witness :
  runs NoFail (mpi_div_mpi true (Some mpi_init) (Some mpi_init) (Other (Mpi (-1) [1; 2; 3]))
                 (Other (Mpi 1 [5; 6])))
    (fun '(Q', R') =>
       opt_is Q' (fun q => val q = Z.quot (- (1 + base * (2 + base * 3))) (5 + base * 6)) /\
       opt_is R' (fun r => val r = Z.rem (- (1 + base * (2 + base * 3))) (5 + base * 6)) /\
       same_null (Some mpi_init) Q' /\ same_null (Some mpi_init) R') no_err /\
  runs NoFail (mpi_div_mpi false (Some mpi_init) (Some mpi_init) (Other (Mpi (-1) [1; 2; 3]))
                 (Other (Mpi 1 [2147483647])))
    (fun '(Q', R') =>
       opt_is Q' (fun q => val q = Z.quot (- (1 + base * (2 + base * 3))) 2147483647) /\
       opt_is R' (fun r => val r = Z.rem (- (1 + base * (2 + base * 3))) 2147483647) /\
       same_null (Some mpi_init) Q' /\ same_null (Some mpi_init) R') no_err.
Proof.
  split.
  - apply (div_mpi_correct true (Some mpi_init) (Some mpi_init) (Mpi (-1) [1; 2; 3]) (Mpi 1 [5; 6])).
    + now left.
    + concrete.
    + concrete.
    + vm_compute; discriminate.
  - apply (div_mpi_correct false (Some mpi_init) (Some mpi_init) (Mpi (-1) [1; 2; 3])
             (Mpi 1 [2147483647])).
    + right. split; reflexivity.
    + concrete.
    + concrete.
    + vm_compute; discriminate.
Defined.

(** [mpi_gcd] returns the greatest common divisor of two numbers of any
    sign, the second of which is not zero. *)
Theorem gcd_correct G A B :
  mpi_wf A -> mpi_wf B -> mag B <> 0 ->
  runs NoFail (mpi_gcd G A B)
    (fun G' => mpi_wf G' /\ val G' = Z.gcd (val A) (val B)) no_err.
Proof.
  intros HA HB Hnz. eapply runs_post; [now apply mpi_gcd_spec|]. intros G' (H1 & H2 & H3).
  split; [exact H1|]. unfold val at 1. rewrite H2, H3. lia.
Qed.

Lemma gcd_correct_witness :
  runs NoFail (mpi_gcd mpi_init (Mpi (-1) [12; 8]) (Mpi 1 [18]))
    (fun G' => mpi_wf G' /\ val G' = Z.gcd (- (12 + base * 8)) 18) no_err.
Proof.
  apply (gcd_correct mpi_init (Mpi (-1) [12; 8]) (Mpi 1 [18])).
  - concrete.
  - concrete.
  - vm_compute; discriminate.
Defined.

(** [mpi_montmul] is multiplication modulo [N] divided by the radix: the
    result is below [N], keeps its sign and its limbs, and times [R] it is
    congruent to the product; no access leaves the arrays, in the branch that
    only spends time neither, whether or not allocations fail. *)
Theorem montmul_correct d A B N mm T :
  mpi_wf A -> mpi_wf B -> mont_mod N mm -> mont_room A N T ->
  mag A < mont_R N -> mag B <= mag N -> (0 < mpi_n B)%nat ->
  runs d (mpi_montmul A B N mm T)
    (fun '(A', T') => mpi_wf A' /\ mpi_s A' = mpi_s A /\ mpi_n A' = mpi_n A /\
       mpi_n T' = mpi_n T /\ mag A' < mag N /\
       (mag A' * mont_R N) mod mag N = (mag A * mag B) mod mag N) no_err.
Proof. intros. now apply mpi_montmul_spec. Qed.

Lemma montmul_correct_witness :
  runs MayFail (mpi_montmul (Mpi 1 [5; 0]) (Mpi 1 [6]) (Mpi 1 [7]) 10540996613548315209 (Mpi 1 [9; 9; 9; 9]))
    (fun '(A', T') => mpi_wf A' /\ mpi_s A' = 1 /\ mpi_n A' = 2%nat /\ mpi_n T' = 4%nat /\
       mag A' < 7 /\ (mag A' * base) mod 7 = (5 * 6) mod 7) no_err.
Proof.
  apply (montmul_correct MayFail (Mpi 1 [5; 0]) (Mpi 1 [6]) (Mpi 1 [7]) 10540996613548315209
           (Mpi 1 [9; 9; 9; 9])).
  - concrete.
  - concrete.
  - split; [concrete|]. split; [unfold mpi_n; simpl; lia|]. split; [reflexivity|].
    split; [unfold limb; lia|reflexivity].
  - split; unfold mpi_n; simpl; lia.
  - reflexivity.
  - vm_compute; discriminate.
  - unfold mpi_n; simpl; lia.
Defined.

(** [mpi_mod_mpi] returns the remainder in [0 .. N-1] for a positive
    modulus; a negative modulus and a zero one are the errors the header
    names. *)
Theorem mod_mpi_correct hl R A B :
  Estimate hl (mag B) -> mpi_wf (deref R A) -> canon (deref R A) -> mpi_wf B ->
  (A = Self -> 0 <= val R) ->
  runs NoFail (mpi_mod_mpi hl R A (Var B))
    (fun R' => mpi_wf R' /\ 0 < val B /\ val R' = val (deref R A) mod val B)
    (fun e => (val B < 0 /\ e = POLARSSL_ERR_MPI_NEGATIVE_VALUE) \/
              (val B = 0 /\ e = POLARSSL_ERR_MPI_DIVISION_BY_ZERO)).
Proof.
  intros Hest HA Hc HB Hs. destruct (Z.lt_trichotomy (val B) 0) as [Hlt|[Hz|Hgt]].
  - rewrite mpi_mod_mpi_neg by auto. apply runs_throw. auto.
  - eapply runs_weaken; [apply mpi_mod_mpi_zero with (Q := fun _ => False); auto|contradiction|].
    intros e He. auto.
  - apply runs_no_err. eapply runs_post; [now apply mpi_mod_mpi_spec|].
    intros R' (H1 & H2 & _). auto.
Qed.

Lemma mod_mpi_correct_witness :
  runs NoFail (mpi_mod_mpi true mpi_init (Var (Mpi (-1) [7])) (Var (Mpi 1 [5])))
    (fun R' => mpi_wf R' /\ 0 < 5 /\ val R' = (-7) mod 5)
    (fun e => (5 < 0 /\ e = POLARSSL_ERR_MPI_NEGATIVE_VALUE) \/
              (5 = 0 /\ e = POLARSSL_ERR_MPI_DIVISION_BY_ZERO)).
Proof.
  apply (mod_mpi_correct true mpi_init (Var (Mpi (-1) [7])) (Mpi 1 [5])).
  - exact _.
  - concrete.
  - concrete.
  - concrete.
  - discriminate.
Defined.

(** What [mpi_write_binary] writes into a buffer, [mpi_read_binary] reads
    back, whatever the size of the buffer; a buffer that is too small for the
    number is refused. *)
Theorem binary_round_trip X Y buflen :
  mpi_wf X -> (0 < mpi_n X)%nat -> mpi_wf Y ->
  runs NoFail (buf <- mpi_write_binary X buflen;; mpi_read_binary Y buf)
    (fun Y' => mpi_wf Y' /\ val Y' = mag X /\ mag X < 256 ^ Z.of_nat buflen)
    (fun e => e = POLARSSL_ERR_MPI_BUFFER_TOO_SMALL /\ 256 ^ Z.of_nat buflen <= mag X).
Proof.
  intros HX Hn HY. pose proof (mag_nonneg X HX) as H0.
  destruct (Z.le_gt_cases ((bitlen (mag X) + 7) / 8) (Z.of_nat buflen)) as [Hle|Hgt].
  - apply runs_no_err. runs_step mpi_write_binary_spec; auto. intros buf (Hl & Hb & Hv).
    eapply runs_post; [apply mpi_read_binary_spec; auto|]. intros Y' [HY' HvY].
    split; [exact HY'|]. split; [congruence|].
    pose proof (le_value_bounds (rev buf) ltac:(now apply Forall_rev)) as Hbd.
    rewrite length_rev, Hl in Hbd. unfold be_value in Hv. unfold p256 in Hbd. lia.
  - eapply runs_bind with (Q := fun _ => False); [|contradiction].
    eapply runs_weaken; [now apply mpi_write_binary_err with (Q := fun _ => False)|auto|].
    intros e He. split; [exact He|]. change (256 ^ _) with (p256 buflen). rewrite p256_pow2.
    assert (Hp : 0 < mag X).
    { destruct (Z.eq_dec (mag X) 0) as [Hz|]; [rewrite Hz in Hgt; change ((bitlen 0 + 7) / 8) with 0 in Hgt; lia|lia]. }
    pose proof (bitlen_spec (mag X) Hp) as [Hlo _].
    eapply Z.le_trans; [|exact Hlo]. apply Z.pow_le_mono_r; dlia.
Qed.

Lemma binary_round_trip_witness :
  runs NoFail (buf <- mpi_write_binary (Mpi (-1) [513; 4]) 12;; mpi_read_binary mpi_init buf)
    (fun Y' => mpi_wf Y' /\ val Y' = 513 + base * 4 /\ 513 + base * 4 < 256 ^ 12)
    (fun e => e = POLARSSL_ERR_MPI_BUFFER_TOO_SMALL /\ 256 ^ 12 <= 513 + base * 4).
Proof.
  apply (binary_round_trip (Mpi (-1) [513; 4]) mpi_init 12).
  - concrete.
  - unfold mpi_n; simpl; lia.
  - concrete.
Defined.

(** [mpi_mul_mpi] multiplies two numbers, whether or not they are the
    destination, and whether or not allocations fail. *)
Theorem mul_mpi_correct d X A B :
  mpi_wf X -> mpi_wf (deref X A) -> mpi_wf (deref X B) ->
  runs d (mpi_mul_mpi X A B)
    (fun X' => mpi_wf X' /\ val X' = val (deref X A) * val (deref X B)) no_err.
Proof. intros. now apply mpi_mul_mpi_val. Qed.

Lemma mul_mpi_correct_witness :
  runs MayFail (mpi_mul_mpi (Mpi (-1) [base - 1; 2]) Self Self)
    (fun X' => mpi_wf X' /\ val X' = (- (base - 1 + base * 2)) * (- (base - 1 + base * 2))) no_err.
Proof.
  apply (mul_mpi_correct MayFail (Mpi (-1) [base - 1; 2]) Self Self); concrete.
Defined.

(** [mpi_add_mpi] and [mpi_sub_mpi] are addition and subtraction of
    signed numbers; an operand may be the destination, but for a sum not
    both. *)
Theorem add_sub_correct d X A B :
  mpi_wf X -> mpi_wf (deref X A) -> mpi_wf (deref X B) ->
  (is_self A && is_self B = false ->
   runs d (mpi_add_mpi X A B)
     (fun X' => mpi_wf X' /\ val X' = val (deref X A) + val (deref X B)) no_err) /\
  runs d (mpi_sub_mpi X A B)
    (fun X' => mpi_wf X' /\ val X' = val (deref X A) - val (deref X B)) no_err.
Proof.
  intros HX HA HB. split; [intros Hs|].
  - eapply runs_post; [now apply mpi_add_mpi_spec|]. intros X' (H1 & H2 & _). auto.
  - eapply runs_post; [now apply mpi_sub_mpi_spec|]. intros X' (H1 & H2 & _). auto.
Qed.

Lemma add_sub_correct_witness :
  (is_self Self && is_self (Var (Mpi (-1) [1])) = false ->
   runs NoFail (mpi_add_mpi (Mpi 1 [base - 1]) Self (Var (Mpi (-1) [1])))
     (fun X' => mpi_wf X' /\ val X' = (base - 1) + -1) no_err) /\
  runs NoFail (mpi_sub_mpi (Mpi 1 [base - 1]) Self (Var (Mpi (-1) [1])))
    (fun X' => mpi_wf X' /\ val X' = (base - 1) - -1) no_err.
Proof.
  apply (add_sub_correct NoFail (Mpi 1 [base - 1]) Self (Var (Mpi (-1) [1]))); concrete.
Defined.

(** The shifts multiply and divide the absolute value by a power of two
    and keep the sign; the left shift grows the number to the limbs it needs
    and to no more. *)
Theorem shift_correct d X count :
  mpi_wf X -> (0 < mpi_n X)%nat -> 0 <= count ->
  runs d (mpi_shift_l X count)
    (fun X' => mpi_wf X' /\ val X' = val X * 2 ^ count /\
       mpi_n X' = Nat.max (mpi_n X) (BITS_TO_LIMBS (bitlen (mag X) + count))) no_err /\
  runs d (mpi_shift_r X count)
    (fun X' => mpi_wf X' /\ val X' = mpi_s X * (mag X / 2 ^ count) /\ mpi_n X' = mpi_n X) no_err.
Proof.
  intros HX Hn Hc. split.
  - eapply runs_post; [now apply mpi_shift_l_spec|]. intros X' (H1 & H2 & H3 & H4).
    split; [exact H1|]. split; [|exact H4]. unfold val. rewrite H2, H3. ring.
  - eapply runs_post; [now apply mpi_shift_r_spec|]. intros X' (H1 & H2 & H3 & H4).
    split; [exact H1|]. split; [|exact H4]. unfold val. now rewrite H2, H3.
Qed.

Lemma shift_correct_witness :
  runs NoFail (mpi_shift_l (Mpi (-1) [base - 1]) 67)
    (fun X' => mpi_wf X' /\ val X' = - (base - 1) * 2 ^ 67 /\ mpi_n X' = 3%nat) no_err /\
  runs NoFail (mpi_shift_r (Mpi (-1) [base - 1]) 67)
    (fun X' => mpi_wf X' /\ val X' = -1 * ((base - 1) / 2 ^ 67) /\ mpi_n X' = 1%nat) no_err.
Proof.
  apply (shift_correct NoFail (Mpi (-1) [base - 1]) 67); concrete; unfold mpi_n; simpl; lia.
Defined.

(** [mpi_mod_int] returns the non-negative remainder by an [int], for a
    dividend of either sign, and the errors for a zero or negative divisor. *)
Theorem mod_int_correct d A b :
  mpi_wf A -> (0 < mpi_n A)%nat -> b < 2147483648 ->
  runs d (mpi_mod_int A b) (fun r => 0 < b /\ r = val A mod b)
    (fun e => (b < 0 /\ e = POLARSSL_ERR_MPI_NEGATIVE_VALUE) \/
              (b = 0 /\ e = POLARSSL_ERR_MPI_DIVISION_BY_ZERO)).
Proof.
  intros HA Hn Hb. destruct (mpi_mod_int_err A b) as [H0 Hneg].
  destruct (Z.lt_trichotomy b 0) as [Hlt|[->|Hgt]].
  - rewrite Hneg by auto. apply runs_throw. auto.
  - rewrite H0. apply runs_throw. auto.
  - eapply runs_post; [apply mpi_mod_int_spec; auto|]. auto.
Qed.

Lemma mod_int_correct_witness :
  runs NoFail (mpi_mod_int (Mpi (-1) [3; 1]) 997)
    (fun r => 0 < 997 /\ r = (- (3 + base * 1)) mod 997)
    (fun e => (997 < 0 /\ e = POLARSSL_ERR_MPI_NEGATIVE_VALUE) \/
              (997 = 0 /\ e = POLARSSL_ERR_MPI_DIVISION_BY_ZERO)).
Proof.
  apply (mod_int_correct NoFail (Mpi (-1) [3; 1]) 997); concrete; unfold mpi_n; simpl; lia.
Defined.

(** The two forms of [MULADDC_CORE], on half limbs and on a double-width
    product, store the same limb and the same carry. *)
Theorem muladdc_forms_agree s b d c :
  limb s -> limb b -> limb d -> limb c ->
  muladdc_core s b d c = muladdc_core_dbl s b d c.
Proof.
  intros Hs Hb Hd Hc. destruct (muladdc_core s b d c) as [y1 c1] eqn:E1.
  destruct (muladdc_core_dbl s b d c) as [y2 c2] eqn:E2.
  apply muladdc_core_spec in E1 as (Hy1 & Hc1 & Hv1); auto.
  apply muladdc_core_dbl_spec in E2 as (Hy2 & Hc2 & Hv2); auto.
  unfold limb in *. f_equal; lia.
Qed.

Lemma muladdc_forms_agree_witness :
  muladdc_core (base - 1) (base - 1) (base - 1) (base - 1)
  = muladdc_core_dbl (base - 1) (base - 1) (base - 1) (base - 1).
Proof. apply (muladdc_forms_agree (base - 1) (base - 1) (base - 1) (base - 1)); unfold limb; lia. Defined.

(** [mpi_cmp_mpi] orders numbers by value when their signs agree or the
    first has at least as many significant limbs, and [mpi_cmp_abs] orders
    their absolute values without any proviso. *)
Theorem cmp_correct X Y :
  mpi_wf X -> mpi_wf Y ->
  mpi_cmp_abs X Y = cmp_sign (mag X ?= mag Y) /\
  (mpi_s X = mpi_s Y \/ (used (mpi_p Y) <= used (mpi_p X))%nat ->
   mpi_cmp_mpi X Y = cmp_sign (val X ?= val Y)).
Proof. intros. split; [now apply mpi_cmp_abs_spec|intros; now apply mpi_cmp_mpi_spec]. Qed.

Lemma cmp_correct_witness :
  mpi_cmp_abs (Mpi (-1) [3; 4]) (Mpi (-1) [9; 0]) = 1 /\
  (-1 = -1 \/ (used [9%Z; 0%Z] <= used [3%Z; 4%Z])%nat -> mpi_cmp_mpi (Mpi (-1) [3; 4]) (Mpi (-1) [9; 0]) = -1).
Proof.
  apply (cmp_correct (Mpi (-1) [3; 4]) (Mpi (-1) [9; 0])); concrete.
Defined.
