(* ===== verification/PrimeStrTheorems.v ===== *)
(** * Strings, files, primality and prime generation: the properties *)
From Stdlib Require Import ZArith Znumtheory List Lia Bool.
Import ListNotations.
From S2P Require Import Prelude CMonad Limbs Mpi MpiDivCorrect MpiBin NumTheory.
From S2P Require Import MpiPrime MpiStr.
#[local] Open Scope Z_scope.
#[local] Open Scope cmonad_scope.

Ltac small_mpi :=
  first [ split; [first [left; reflexivity | right; reflexivity]
                 | repeat (constructor; [unfold limb; simpl; lia|]); constructor] ].


(** A generator for the examples. *)
Definition counter (n : Z) : Z * Z := (n * 7 + 3, n + 1).


(** The answers of these two runs. *)
Example is_prime_answers :
  match mpi_is_prime true counter (Mpi 1 [1018081]) 5 [], mpi_is_prime true counter (Mpi 1 [1000003; 0]) 5 [] with
  | (Ok (r1, _, st1), _), (Ok (r2, _, _), _) => r1 = POLARSSL_ERR_MPI_NOT_ACCEPTABLE /\ st1 = 13 /\ r2 = 0
  | _, _ => False
  end.
Proof. vm_compute. auto. Qed.

(** [mpi_gen_prime] ends: with the fuel of any prime of more than [nbits]
    bits it returns an odd number that the test accepts, not above the first
    prime from its random starting point on; that point has exactly [nbits]
    bits unless all random bytes are zero, when it is 3. *)
Theorem gen_prime_correct hl {St} (f_rng : St -> Z * St) fuel X nbits st p :
  (forall v, 3 <= v <= p -> Estimate hl v) -> mpi_wf X -> 3 <= nbits ->
  prime p -> 2 ^ nbits <= p -> p < 2 * Z.of_nat fuel ->
  runs NoFail (mpi_gen_prime hl f_rng fuel X nbits 0 st)
    (fun '(X', _) => mpi_wf X' /\ mpi_s X' = 1 /\ val X' mod 2 = 1 /\ accepted (val X') /\
       exists x0, (x0 = 3 \/ 2 ^ (nbits - 1) <= x0 < 2 ^ nbits) /\ x0 <= val X' /\
                  (forall q, prime q -> x0 <= q -> val X' <= q)) no_err.
Proof. intros. now apply (mpi_gen_prime_spec hl f_rng fuel X nbits st p). Qed.

Lemma gen_prime_correct_witness :
  runs NoFail (mpi_gen_prime true counter 20 mpi_init 4 0 5)
    (fun '(X', _) => mpi_wf X' /\ mpi_s X' = 1 /\ val X' mod 2 = 1 /\ accepted (val X') /\
       exists x0, (x0 = 3 \/ 2 ^ (4 - 1) <= x0 < 2 ^ 4) /\ x0 <= val X' /\
                  (forall q, prime q -> x0 <= q -> val X' <= q)) no_err.
Proof.
  apply (gen_prime_correct true counter 20 mpi_init 4 5 17).
  - intros. exact _.
  - apply mpi_init_wf.
  - lia.
  - apply no_divisor_prime; [lia|reflexivity].
  - vm_compute; discriminate.
  - reflexivity.
Defined.

(** [mpi_write_string] stays inside its buffer and writes a string that
    [mpi_read_string] reads back, sign and absolute value, for every radix
    from 2 to 16; the exception is a negative number in radix 16 whose highest
    byte is below 8 (or which is zero). *)
Theorem string_round_trip hl X Y radix slen :
  mpi_wf X -> (0 < mpi_n X)%nat -> mpi_wf Y -> 2 <= radix <= 16 ->
  string_size radix (bitlen (mag X)) <= slen -> ~ dash_overflow radix X ->
  runs NoFail (s <- mpi_write_string hl X radix slen;; mpi_read_string Y radix (removelast s))
    (fun Y' => mpi_wf Y' /\ mpi_s Y' = mpi_s X /\ val Y' = val X) no_err.
Proof.
  intros HX Hn HY Hr Hs Hd. eapply runs_bind; [apply mpi_write_string_spec; auto|].
  intros s (_ & cs & -> & _ & Hp). rewrite removelast_last.
  eapply runs_weaken; [apply mpi_read_string_spec; auto| |].
  - intros Y' [H1 H2]. rewrite Hp in H2. injection H2 as H2 H3. unfold val. rewrite <- H2, <- H3. auto.
  - intros e [_ H]. now rewrite Hp in H.
Qed.

Lemma string_round_trip_witness :
  runs NoFail (s <- mpi_write_string true (Mpi (-1) [255; 7]) 10 60;; mpi_read_string mpi_init 10 (removelast s))
    (fun Y' => mpi_wf Y' /\ mpi_s Y' = -1 /\ val Y' = - (255 + base * 7)) no_err.
Proof.
  apply (string_round_trip true (Mpi (-1) [255; 7]) mpi_init 10 60).
  - small_mpi.
  - unfold mpi_n; simpl; lia.
  - apply mpi_init_wf.
  - lia.
  - vm_compute; discriminate.
  - unfold dash_overflow; lia.
Defined.

(** [mpi_read_string] implements the reference reading of a string: it
    returns the number the string denotes in the radix, and refuses exactly
    the strings that denote none. *)
Theorem read_string_refines_parse X radix s :
  mpi_wf X -> 2 <= radix <= 16 ->
  runs NoFail (mpi_read_string X radix s)
    (fun X' => mpi_wf X' /\ parse radix s = Some (mpi_s X', mag X'))
    (fun e => e = POLARSSL_ERR_MPI_INVALID_CHARACTER /\ parse radix s = None).
Proof. intros. now apply mpi_read_string_spec. Qed.

Lemma read_string_refines_parse_witness :
  runs NoFail (mpi_read_string mpi_init 16 [45; 49; 65; 102])
    (fun X' => mpi_wf X' /\ Some (-1, 0x1AF) = Some (mpi_s X', mag X'))
    (fun e => e = POLARSSL_ERR_MPI_INVALID_CHARACTER /\ Some (-1, 0x1AF) = None).
Proof.
  apply (read_string_refines_parse mpi_init 16 [45; 49; 65; 102]).
  - apply mpi_init_wf.
  - lia.
Defined.

(** What [mpi_write_file] writes without a prefix, [mpi_read_file] reads
    back as the absolute value: the sign is lost. *)
Theorem file_round_trip_abs hl X Y radix :
  mpi_wf X -> (0 < mpi_n X)%nat -> mpi_wf Y -> 2 <= radix <= 16 ->
  string_size radix (bitlen (mag X)) <= 1022 -> ~ dash_overflow radix X ->
  runs NoFail (l <- mpi_write_file hl [] X radix (Some true);; mpi_read_file Y radix (Some l))
    (fun Y' => mpi_wf Y' /\ val Y' = mag X) no_err.
Proof.
  intros HX Hn HY Hr Hs Hd. eapply runs_bind.
  - apply (runs_ext NoFail (mpi_write_file hl [] X radix None)); [reflexivity|].
    now apply mpi_write_file_spec.
  - intros l (cs & -> & Hne & Hp). cbn [app]. now apply (read_file_line Y radix cs (mpi_s X) (mag X)).
Qed.

Lemma file_round_trip_abs_witness :
  runs NoFail (l <- mpi_write_file true [] (Mpi (-1) [12]) 10 (Some true);; mpi_read_file mpi_init 10 (Some l))
    (fun Y' => mpi_wf Y' /\ val Y' = 12) no_err.
Proof.
  apply (file_round_trip_abs true (Mpi (-1) [12]) mpi_init 10).
  - small_mpi.
  - unfold mpi_n; simpl; lia.
  - apply mpi_init_wf.
  - lia.
  - vm_compute; discriminate.
  - unfold dash_overflow; lia.
Defined.

(** The outcome of a run in which no allocation fails. *)
Definition outcome_of {A} (m : M A) : outcome A := fst (m []).

(** The number [mpi_is_prime] leaves and its answer. *)
Definition prime_answer (o : outcome (Z * mpi * Z)) : option (Z * mpi) :=
  match o with Ok (r, X, _) => Some (r, X) | _ => None end.

Lemma not_prime_product a b : 1 < a -> 1 < b -> ~ prime (a * b).
Proof.
  intros Ha Hb Hp. destruct (prime_divisors _ Hp a ltac:(exists b; ring)) as [H|[H|[H|H]]]; nia.
Qed.

(** Where the code falls short of what it means to do.  The test takes
    [s] from [W] before [W] is computed, so that it is the test of Fermat and
    accepts the Carmichael number 1171 * 2341 * 3511 for a generator that
    gives ordinary bases; it calls -1 prime and -2 composite and loses the
    sign of -7.  [mpi_write_string] writes past a buffer of the size it asks
    for on -1 in radix 16; "-0" is read as a negative zero; an empty line
    makes [mpi_read_file] read before its buffer. *)
Theorem prime_and_string_limits :
  (prime_answer (outcome_of (mpi_is_prime true counter (Mpi 1 [9624742921]) 5)) = Some (0, Mpi 1 [9624742921]) /\
   ~ prime 9624742921) /\
  prime_answer (outcome_of (mpi_is_prime true counter (Mpi (-1) [1]) 5)) = Some (0, Mpi 1 [1]) /\
  prime_answer (outcome_of (mpi_is_prime true counter (Mpi (-1) [2]) 5)) =
    Some (POLARSSL_ERR_MPI_NOT_ACCEPTABLE, Mpi 1 [2]) /\
  prime_answer (outcome_of (mpi_is_prime true counter (Mpi (-1) [7]) 5)) = Some (0, Mpi 1 [7]) /\
  (string_size 16 1 = 3 /\ outcome_of (mpi_write_string true (Mpi (-1) [1]) 16 3) = Ub) /\
  outcome_of (mpi_read_string mpi_init 10 [45; 48]) = Ok (Mpi (-1) [0]) /\
  outcome_of (mpi_read_file mpi_init 10 (Some [10])) = Ub.
Proof.
  split; [split; [vm_compute; reflexivity|apply (not_prime_product 1171 8219251); lia]|].
  repeat split; vm_compute; reflexivity.
Qed.
