(* ===== verification/Blowfish.v ===== *)
(** * Blowfish

    [libsparkle/crypto/blowfish.c], built with 16 rounds: the context, the
    block operations, the key schedule and the test for weak keys.  Words are
    integers in [0 .. 2^32-1], bytes in [0 .. 255]; the arrays of the context
    have the lengths of their declarations ([ctx_ok]) and every index is a
    byte or a constant. *)
From Stdlib Require Import ZArith List Lia Bool.
Import ListNotations.
From S2P Require Import Prelude CMonad MpiBin BlowfishTables.
#[local] Open Scope Z_scope.

Definition CIPHER_ALGO_BLOWFISH : Z := 4.
Definition BLOWFISH_BLOCKSIZE : Z := 8.
Abbreviation BLOWFISH_ROUNDS := 16%nat.

(** ** The context *)

Record BLOWFISH_context := Ctx
  { bc_s0 : list Z; bc_s1 : list Z; bc_s2 : list Z; bc_s3 : list Z; bc_p : list Z }.

(** Four tables of 256 words, and the round keys. *)
Definition sizeof_context : Z := 4 * (4 * 256 + (Z.of_nat BLOWFISH_ROUNDS + 2)).

(** ** The rounds *)

(** [((uint8_t* )&x)[k]] on a little-endian host. *)
Definition byte_of (x : Z) (k : Z) : nat := Z.to_nat (u8 (Z.shiftr x (8 * k))).

(** The macro [F]. *)
Definition F (bc : BLOWFISH_context) (x : Z) : Z :=
  u32 (Z.lxor (u32 (nth (byte_of x 3) (bc_s0 bc) 0 + nth (byte_of x 2) (bc_s1 bc) 0))
              (nth (byte_of x 1) (bc_s2 bc) 0)
       + nth (byte_of x 0) (bc_s3 bc) 0).

(** The macro [R(l,r,i)]. *)
Definition R (bc : BLOWFISH_context) (l r : Z) (i : nat) : Z * Z :=
  let l := Z.lxor l (nth i (bc_p bc) 0) in
  let r := Z.lxor r (F bc l) in
  (l, r).

Definition do_encrypt (bc : BLOWFISH_context) (xl xr : Z) : Z * Z :=
  let '(xl, xr) := R bc xl xr 0 in
  let '(xr, xl) := R bc xr xl 1 in
  let '(xl, xr) := R bc xl xr 2 in
  let '(xr, xl) := R bc xr xl 3 in
  let '(xl, xr) := R bc xl xr 4 in
  let '(xr, xl) := R bc xr xl 5 in
  let '(xl, xr) := R bc xl xr 6 in
  let '(xr, xl) := R bc xr xl 7 in
  let '(xl, xr) := R bc xl xr 8 in
  let '(xr, xl) := R bc xr xl 9 in
  let '(xl, xr) := R bc xl xr 10 in
  let '(xr, xl) := R bc xr xl 11 in
  let '(xl, xr) := R bc xl xr 12 in
  let '(xr, xl) := R bc xr xl 13 in
  let '(xl, xr) := R bc xl xr 14 in
  let '(xr, xl) := R bc xr xl 15 in
  let xl := Z.lxor xl (nth BLOWFISH_ROUNDS (bc_p bc) 0) in
  let xr := Z.lxor xr (nth (BLOWFISH_ROUNDS + 1) (bc_p bc) 0) in
  (xr, xl).

Definition decrypt (bc : BLOWFISH_context) (xl xr : Z) : Z * Z :=
  let '(xl, xr) := R bc xl xr 17 in
  let '(xr, xl) := R bc xr xl 16 in
  let '(xl, xr) := R bc xl xr 15 in
  let '(xr, xl) := R bc xr xl 14 in
  let '(xl, xr) := R bc xl xr 13 in
  let '(xr, xl) := R bc xr xl 12 in
  let '(xl, xr) := R bc xl xr 11 in
  let '(xr, xl) := R bc xr xl 10 in
  let '(xl, xr) := R bc xl xr 9 in
  let '(xr, xl) := R bc xr xl 8 in
  let '(xl, xr) := R bc xl xr 7 in
  let '(xr, xl) := R bc xr xl 6 in
  let '(xl, xr) := R bc xl xr 5 in
  let '(xr, xl) := R bc xr xl 4 in
  let '(xl, xr) := R bc xl xr 3 in
  let '(xr, xl) := R bc xr xl 2 in
  let xl := Z.lxor xl (nth 1 (bc_p bc) 0) in
  let xr := Z.lxor xr (nth 0 (bc_p bc) 0) in
  (xr, xl).

(** The forms the source has for another number of rounds: a loop that
    swaps the halves, over the indices [ixs] of the round keys. *)
Fixpoint rounds (bc : BLOWFISH_context) (ixs : list nat) (xl xr : Z) : Z * Z :=
  match ixs with
  | [] => (xl, xr)
  | i :: ixs' =>
      let xl := Z.lxor xl (nth i (bc_p bc) 0) in
      let xr := Z.lxor xr (F bc xl) in
      rounds bc ixs' xr xl
  end.

Definition do_encrypt_loop (bc : BLOWFISH_context) (n : nat) (xl xr : Z) : Z * Z :=
  let '(xl, xr) := rounds bc (seq 0 n) xl xr in
  let '(xl, xr) := (xr, xl) in
  let xr := Z.lxor xr (nth n (bc_p bc) 0) in
  let xl := Z.lxor xl (nth (n + 1) (bc_p bc) 0) in
  (xl, xr).

Definition decrypt_loop (bc : BLOWFISH_context) (n : nat) (xl xr : Z) : Z * Z :=
  let '(xl, xr) := rounds bc (rev (seq 2 n)) xl xr in
  let '(xl, xr) := (xr, xl) in
  let xr := Z.lxor xr (nth 1 (bc_p bc) 0) in
  let xl := Z.lxor xl (nth 0 (bc_p bc) 0) in
  (xl, xr).

(** ** Blocks *)

(** [b[0] << 24 | b[1] << 16 | b[2] << 8 | b[3]], as an [uint32_t]. *)
Definition load32 (b0 b1 b2 b3 : Z) : Z :=
  u32 (Z.lor (Z.lor (Z.lor (Z.shiftl b0 24) (Z.shiftl b1 16)) (Z.shiftl b2 8)) b3).

Definition store32 (d : Z) : list Z :=
  [Z.land (Z.shiftr d 24) 255; Z.land (Z.shiftr d 16) 255; Z.land (Z.shiftr d 8) 255; Z.land d 255].

Definition block_words (inbuf : list Z) : Z * Z :=
  (load32 (nth 0 inbuf 0) (nth 1 inbuf 0) (nth 2 inbuf 0) (nth 3 inbuf 0),
   load32 (nth 4 inbuf 0) (nth 5 inbuf 0) (nth 6 inbuf 0) (nth 7 inbuf 0)).

Definition do_encrypt_block (bc : BLOWFISH_context) (inbuf : list Z) : list Z :=
  let '(d1, d2) := block_words inbuf in
  let '(d1, d2) := do_encrypt bc d1 d2 in
  store32 d1 ++ store32 d2.

Definition do_decrypt_block (bc : BLOWFISH_context) (inbuf : list Z) : list Z :=
  let '(d1, d2) := block_words inbuf in
  let '(d1, d2) := decrypt bc d1 d2 in
  store32 d1 ++ store32 d2.

(** [burn_stack] overwrites dead stack frames only. *)
Definition encrypt_block (bc : BLOWFISH_context) (inbuf : list Z) : list Z :=
  do_encrypt_block bc inbuf.

Definition decrypt_block (bc : BLOWFISH_context) (inbuf : list Z) : list Z :=
  do_decrypt_block bc inbuf.

(** ** The key schedule *)

(** The key bytes from [j] on, wrapping around. *)
Definition key_word (key : list Z) (j : nat) : Z :=
  let keylen := length key in
  load32 (nth j key 0) (nth ((j + 1) mod keylen) key 0) (nth ((j + 2) mod keylen) key 0)
         (nth ((j + 3) mod keylen) key 0).

Fixpoint xor_key (key : list Z) (p : list Z) (j : nat) : list Z :=
  match p with
  | [] => []
  | x :: p' => Z.lxor x (key_word key j) :: xor_key key p' ((j + 4) mod length key)
  end.

(** The arrays of the context, as the loops fill them one after the other. *)
Inductive table := TP | T0 | T1 | T2 | T3.

Definition table_of (t : table) (bc : BLOWFISH_context) : list Z :=
  match t with
  | TP => bc_p bc | T0 => bc_s0 bc | T1 => bc_s1 bc | T2 => bc_s2 bc | T3 => bc_s3 bc
  end.

Definition set_table (t : table) (i : nat) (x : Z) (bc : BLOWFISH_context) : BLOWFISH_context :=
  let '(Ctx a b c d p) := bc in
  match t with
  | TP => Ctx a b c d (upd_list p i x)
  | T0 => Ctx (upd_list a i x) b c d p
  | T1 => Ctx a (upd_list b i x) c d p
  | T2 => Ctx a b (upd_list c i x) d p
  | T3 => Ctx a b c (upd_list d i x) p
  end.

(** [for( ; i < n; i += 2 ) { do_encrypt( c, &datal, &datar ); ... }], [k]
    turns. *)
Fixpoint fill_table (t : table) (k i : nat) (bc : BLOWFISH_context) (datal datar : Z)
    : BLOWFISH_context * Z * Z :=
  match k with
  | O => (bc, datal, datar)
  | S k' =>
      let '(datal, datar) := do_encrypt bc datal datar in
      let bc := set_table t i datal bc in
      let bc := set_table t (i + 1) datar bc in
      fill_table t k' (i + 2) bc datal datar
  end.

(** Two entries of one of the tables are the same. *)
Definition same_entry (bc : BLOWFISH_context) (i j : nat) : bool :=
  (nth i (bc_s0 bc) 0 =? nth j (bc_s0 bc) 0) || (nth i (bc_s1 bc) 0 =? nth j (bc_s1 bc) 0) ||
  (nth i (bc_s2 bc) 0 =? nth j (bc_s2 bc) 0) || (nth i (bc_s3 bc) 0 =? nth j (bc_s3 bc) 0).

(** [for(i=0; i < 255; i++ ) for( j=i+1; j < 256; j++)] *)
Definition weak (bc : BLOWFISH_context) : bool :=
  existsb (fun i => existsb (same_entry bc i) (seq (i + 1) (256 - (i + 1)))) (seq 0 255).

(** The context after the call and the return value; a key of no bytes is a
    remainder by zero. *)
Definition do_bf_setkey (key : list Z) : option (BLOWFISH_context * Z) :=
  match key with
  | [] => None
  | _ =>
      let c := Ctx ks0 ks1 ks2 ks3 (xor_key key ps 0) in
      let '(c, dl, dr) := fill_table TP 9 0 c 0 0 in
      let '(c, dl, dr) := fill_table T0 128 0 c dl dr in
      let '(c, dl, dr) := fill_table T1 128 0 c dl dr in
      let '(c, dl, dr) := fill_table T2 128 0 c dl dr in
      let '(c, dl, dr) := fill_table T3 128 0 c dl dr in
      Some (c, if weak c then -1 else 0)
  end.

Definition bf_setkey (key : list Z) : option (BLOWFISH_context * Z) := do_bf_setkey key.

(** The sizes [blowfish_get_info] reports, and whether it knows the
    algorithm. *)
Definition blowfish_get_info (algo : Z) : Z * Z * Z * bool :=
  (128, BLOWFISH_BLOCKSIZE, sizeof_context, algo =? CIPHER_ALGO_BLOWFISH).

(** ** Well-formed contexts *)

Definition word32 (x : Z) : Prop := 0 <= x < 4294967296.

(** The arrays have their declared lengths and hold 32-bit words. *)
Definition ctx_ok (bc : BLOWFISH_context) : Prop :=
  (Forall word32 (bc_s0 bc) /\ length (bc_s0 bc) = 256%nat) /\
  (Forall word32 (bc_s1 bc) /\ length (bc_s1 bc) = 256%nat) /\
  (Forall word32 (bc_s2 bc) /\ length (bc_s2 bc) = 256%nat) /\
  (Forall word32 (bc_s3 bc) /\ length (bc_s3 bc) = 256%nat) /\
  (Forall word32 (bc_p bc) /\ length (bc_p bc) = 18%nat).

(** The indices of the tables are inside them. *)
Lemma byte_of_bound x k : (byte_of x k < 256)%nat.
Proof.
  unfold byte_of, u8. pose proof (Z.mod_pos_bound (Z.shiftr x (8 * k)) 256 ltac:(lia)). lia.
Qed.

Lemma u32_word x : word32 (u32 x).
Proof. apply Z.mod_pos_bound. lia. Qed.

Lemma word32_log2 x : word32 x <-> 0 <= x /\ (x = 0 \/ Z.log2 x < 32).
Proof.
  unfold word32. change 4294967296 with (2 ^ 32). split; intros H.
  - split; [lia|]. destruct (Z.eq_dec x 0); [auto|right]. apply Z.log2_lt_pow2; lia.
  - destruct H as [H0 [->|H]]; [lia|]. destruct (Z.eq_dec x 0); [subst; lia|].
    split; [lia|]. apply Z.log2_lt_pow2; lia.
Qed.

Lemma lxor_word x y : word32 x -> word32 y -> word32 (Z.lxor x y).
Proof.
  rewrite !word32_log2. intros [Hx Hlx] [Hy Hly].
  assert (Hn : 0 <= Z.lxor x y) by (apply Z.lxor_nonneg; tauto).
  split; [exact Hn|]. destruct (Z.eq_dec (Z.lxor x y) 0); [auto|right].
  destruct Hlx as [->|Hlx]; [rewrite Z.lxor_0_l in *; destruct Hly as [->|]; [contradiction|auto]|].
  destruct Hly as [->|Hly]; [now rewrite Z.lxor_0_r|].
  pose proof (Z.log2_lxor x y Hx Hy). lia.
Qed.

Lemma nth_word l i : Forall word32 l -> word32 (nth i l 0).
Proof. intros H. apply Forall_nth_Z; [exact H|unfold word32; lia]. Qed.

Lemma lxor_cancel a b : Z.lxor (Z.lxor a b) b = a.
Proof. now rewrite Z.lxor_assoc, Z.lxor_nilpotent, Z.lxor_0_r. Qed.

(** ** The rounds undo each other *)

Lemma do_encrypt_is_loop bc xl xr : do_encrypt bc xl xr = do_encrypt_loop bc 16 xl xr.
Proof. reflexivity. Qed.

Lemma decrypt_is_loop bc xl xr : decrypt bc xl xr = decrypt_loop bc 16 xl xr.
Proof. reflexivity. Qed.

Lemma rounds_app bc l m xl xr :
  rounds bc (l ++ m) xl xr = let '(a, b) := rounds bc l xl xr in rounds bc m a b.
Proof. revert xl xr; induction l as [|i l IH]; intros; [reflexivity|apply IH]. Qed.

(** After [n - k] rounds, decryption is where encryption was before round
    [k], with the halves swapped and masked. *)
Lemma rounds_undo bc n k xl xr :
  (k <= n)%nat ->
  let '(a, b) := rounds bc (seq 0 n) xl xr in
  let '(c, d) := rounds bc (seq 0 k) xl xr in
  rounds bc (rev (seq (k + 2) (n - k)))
    (Z.lxor b (nth (n + 1) (bc_p bc) 0)) (Z.lxor a (nth n (bc_p bc) 0))
  = (Z.lxor d (nth (k + 1) (bc_p bc) 0), Z.lxor c (nth k (bc_p bc) 0)).
Proof.
  intros Hk. remember (n - k)%nat as m eqn:Hm. revert k Hk Hm.
  induction m as [|m IH]; intros k Hk Hm.
  - replace k with n by lia. destruct (rounds bc (seq 0 n) xl xr). reflexivity.
  - specialize (IH (S k) ltac:(lia) ltac:(lia)).
    destruct (rounds bc (seq 0 n) xl xr) as [a b].
    rewrite (seq_S k 0), rounds_app in IH.
    destruct (rounds bc (seq 0 k) xl xr) as [c d]. cbn [seq rounds Nat.add] in IH.
    change (seq (k + 2) (S m)) with ((k + 2)%nat :: seq (S (k + 2)) m).
    cbn [rev]. rewrite rounds_app.
    rewrite IH. cbn [rounds]. replace (S (k + 1)) with (k + 2)%nat by lia.
    replace (S k) with (k + 1)%nat by lia. rewrite !lxor_cancel.
    rewrite (Z.lxor_assoc (Z.lxor d _)), (Z.lxor_comm (nth (k + 1) _ 0)), <- Z.lxor_assoc.
    now rewrite lxor_cancel.
Qed.

Lemma decrypt_do_encrypt bc xl xr :
  (let '(a, b) := do_encrypt bc xl xr in decrypt bc a b) = (xl, xr).
Proof.
  rewrite do_encrypt_is_loop. unfold do_encrypt_loop.
  pose proof (rounds_undo bc 16 0 xl xr ltac:(lia)) as H.
  destruct (rounds bc (seq 0 16) xl xr) as [a b]. cbn [seq rounds] in H.
  rewrite decrypt_is_loop. unfold decrypt_loop. change (seq 2 16) with (seq (0 + 2) (16 - 0)).
  rewrite H. now rewrite !lxor_cancel.
Qed.

(** Decryption is encryption with the round keys in reverse order. *)
Definition reverse_keys (bc : BLOWFISH_context) : BLOWFISH_context :=
  Ctx (bc_s0 bc) (bc_s1 bc) (bc_s2 bc) (bc_s3 bc) (rev (bc_p bc)).

Lemma key_reverse bc i :
  length (bc_p bc) = 18%nat -> (i <= 17)%nat ->
  nth (17 - i) (bc_p bc) 0 = nth i (bc_p (reverse_keys bc)) 0.
Proof.
  intros Hl Hi. simpl. rewrite rev_nth, Hl by lia. reflexivity.
Qed.

Lemma rounds_reverse bc ixs xl xr :
  length (bc_p bc) = 18%nat -> Forall (fun i => (i <= 17)%nat) ixs ->
  rounds bc (map (fun i => 17 - i)%nat ixs) xl xr = rounds (reverse_keys bc) ixs xl xr.
Proof.
  intros Hl Hi. revert xl xr. induction Hi as [|i ixs Hi Hixs IH]; intros xl xr; [reflexivity|].
  cbn [map rounds]. rewrite key_reverse by auto. apply IH.
Qed.

Lemma decrypt_reverse bc xl xr :
  length (bc_p bc) = 18%nat -> decrypt bc xl xr = do_encrypt (reverse_keys bc) xl xr.
Proof.
  intros Hl. rewrite do_encrypt_is_loop, decrypt_is_loop. unfold do_encrypt_loop, decrypt_loop.
  change (rev (seq 2 16)) with (map (fun i => 17 - i)%nat (seq 0 16)).
  rewrite rounds_reverse by (auto; repeat constructor).
  destruct (rounds (reverse_keys bc) (seq 0 16) xl xr) as [a b].
  rewrite <- !key_reverse by (auto; lia). reflexivity.
Qed.

Lemma reverse_reverse bc : reverse_keys (reverse_keys bc) = bc.
Proof. destruct bc. unfold reverse_keys. simpl. now rewrite rev_involutive. Qed.

Lemma do_encrypt_decrypt bc xl xr :
  length (bc_p bc) = 18%nat -> (let '(a, b) := decrypt bc xl xr in do_encrypt bc a b) = (xl, xr).
Proof.
  intros Hl. rewrite decrypt_reverse by auto.
  pose proof (decrypt_do_encrypt (reverse_keys bc) xl xr) as H.
  destruct (do_encrypt (reverse_keys bc) xl xr) as [a b].
  rewrite decrypt_reverse, reverse_reverse in H by (simpl; now rewrite length_rev). exact H.
Qed.

(** ** Words and bytes *)

Lemma lor_shifted a r t :
  0 <= t -> 0 <= r < 256 -> Z.lor (a * 256 * 2 ^ t) (r * 2 ^ t) = (a * 256 + r) * 2 ^ t.
Proof.
  intros Ht Hr. rewrite <- !Z.shiftl_mul_pow2, <- Z.shiftl_lor by lia. f_equal.
  change 256 with (2 ^ 8) in *. now apply lor_disjoint.
Qed.

Lemma load_sum a b c e :
  byte a -> byte b -> byte c -> byte e ->
  load32 a b c e = ((a * 256 + b) * 256 + c) * 256 + e.
Proof.
  unfold byte, load32. intros Ha Hb Hc He. rewrite !Z.shiftl_mul_pow2 by lia.
  replace (a * 2 ^ 24) with (a * 256 * 2 ^ 16) by (change (2 ^ 24) with (256 * 2 ^ 16); ring).
  rewrite (lor_shifted a b 16) by lia.
  replace ((a * 256 + b) * 2 ^ 16) with ((a * 256 + b) * 256 * 2 ^ 8)
    by (change (2 ^ 16) with (256 * 2 ^ 8); ring).
  rewrite (lor_shifted (a * 256 + b) c 8) by lia.
  rewrite lor_disjoint by (change (2 ^ 8) with 256; lia). change (2 ^ 8) with 256.
  unfold u32. apply Z.mod_small. lia.
Qed.

Lemma store_load d : word32 d ->
  match store32 d with [a; b; c; e] => load32 a b c e | _ => 0 end = d.
Proof.
  unfold word32, store32. intros Hd.
  assert (Hl : forall x, Z.land x 255 = x mod 256) by (intros; apply (Z.land_ones x 8); lia).
  rewrite !Hl, !Z.shiftr_div_pow2 by lia.
  change (2 ^ 24) with 16777216. change (2 ^ 16) with 65536. change (2 ^ 8) with 256.
  rewrite load_sum by (apply Z.mod_pos_bound; lia). dlia.
Qed.

Lemma store_bytes d : Forall byte (store32 d) /\ length (store32 d) = 4%nat.
Proof.
  split; [|reflexivity]. unfold store32.
  assert (Hl : forall x, byte (Z.land x 255)).
  { intros x. change 255 with (Z.ones 8). rewrite Z.land_ones by lia.
    apply Z.mod_pos_bound. lia. }
  repeat (constructor; [apply Hl|]). constructor.
Qed.

(** Bytes are read back from the words they were packed in. *)
Lemma load_store a b c e :
  byte a -> byte b -> byte c -> byte e -> store32 (load32 a b c e) = [a; b; c; e].
Proof.
  intros Ha Hb Hc He. rewrite load_sum by auto. unfold store32, byte in *.
  assert (Hl : forall x, Z.land x 255 = x mod 256) by (intros; apply (Z.land_ones x 8); lia).
  rewrite !Hl, !Z.shiftr_div_pow2 by lia.
  change (2 ^ 24) with 16777216. change (2 ^ 16) with 65536. change (2 ^ 8) with 256.
  repeat f_equal; dlia.
Qed.

(** ** Words stay words *)

Lemma F_word bc x : word32 (F bc x).
Proof. apply u32_word. Qed.

Lemma rounds_word bc ixs xl xr :
  Forall word32 (bc_p bc) -> word32 xl -> word32 xr ->
  let '(a, b) := rounds bc ixs xl xr in word32 a /\ word32 b.
Proof.
  intros Hp. revert xl xr. induction ixs as [|i ixs IH]; intros xl xr Hl Hr; cbn [rounds]; [auto|].
  apply IH; [|apply lxor_word; auto using nth_word].
  apply lxor_word; [exact Hr|apply F_word].
Qed.

Lemma do_encrypt_word bc xl xr :
  Forall word32 (bc_p bc) -> word32 xl -> word32 xr ->
  let '(a, b) := do_encrypt bc xl xr in word32 a /\ word32 b.
Proof.
  intros Hp Hl Hr. rewrite do_encrypt_is_loop. unfold do_encrypt_loop.
  pose proof (rounds_word bc (seq 0 16) xl xr Hp Hl Hr) as H.
  destruct (rounds bc (seq 0 16) xl xr) as [a b]. destruct H.
  split; apply lxor_word; auto using nth_word.
Qed.

Lemma decrypt_word bc xl xr :
  Forall word32 (bc_p bc) -> word32 xl -> word32 xr ->
  let '(a, b) := decrypt bc xl xr in word32 a /\ word32 b.
Proof.
  intros Hp Hl Hr. rewrite decrypt_is_loop. unfold decrypt_loop.
  pose proof (rounds_word bc (rev (seq 2 16)) xl xr Hp Hl Hr) as H.
  destruct (rounds bc (rev (seq 2 16)) xl xr) as [a b]. destruct H.
  split; apply lxor_word; auto using nth_word.
Qed.

(** ** The key schedule *)

Lemma xor_key_ok key p j :
  Forall word32 p -> Forall word32 (xor_key key p j) /\ length (xor_key key p j) = length p.
Proof.
  intros Hp. revert j. induction Hp as [|x p Hx Hp IH]; intros j; cbn [xor_key length]; [auto|].
  destruct (IH ((j + 4) mod length key)%nat) as [H1 H2]. split; [|lia].
  constructor; [|exact H1]. apply lxor_word; [exact Hx|apply u32_word].
Qed.

Lemma set_table_ok t i x bc : ctx_ok bc -> word32 x -> ctx_ok (set_table t i x bc).
Proof.
  destruct bc as [a b c d p]. intros H Hx. unfold ctx_ok in *. simpl in H. decompose [and] H.
  destruct t; simpl; rewrite ?length_upd_list;
    repeat (split; [split; [try apply Forall_upd_list; assumption|assumption]|]);
    split; try apply Forall_upd_list; assumption.
Qed.

Lemma fill_table_ok t k i bc dl dr :
  ctx_ok bc -> word32 dl -> word32 dr ->
  let '(bc', dl', dr') := fill_table t k i bc dl dr in ctx_ok bc' /\ word32 dl' /\ word32 dr'.
Proof.
  revert i bc dl dr. induction k as [|k IH]; intros i bc dl dr Hc Hl Hr; cbn [fill_table]; [auto|].
  pose proof (do_encrypt_word bc dl dr (proj1 (proj2 (proj2 (proj2 (proj2 Hc))))) Hl Hr) as H.
  destruct (do_encrypt bc dl dr) as [a b]. destruct H. apply IH; auto using set_table_ok.
Qed.

Lemma words_check l : forallb (fun x => (0 <=? x) && (x <? 4294967296)) l = true -> Forall word32 l.
Proof.
  intros H. apply Forall_forall. intros x Hx. rewrite forallb_forall in H. specialize (H x Hx).
  apply andb_prop in H as [H1 H2]. apply Z.leb_le in H1. apply Z.ltb_lt in H2. split; auto.
Qed.

Lemma initial_ok key : ctx_ok (Ctx ks0 ks1 ks2 ks3 (xor_key key ps 0)).
Proof.
  unfold ctx_ok. cbn [bc_s0 bc_s1 bc_s2 bc_s3 bc_p].
  do 4 (split; [split; [apply words_check; vm_compute; reflexivity|reflexivity]|]).
  destruct (xor_key_ok key ps 0) as [H1 H2]; [apply words_check; vm_compute; reflexivity|].
  split; [exact H1|]. now rewrite H2.
Qed.

Lemma do_bf_setkey_ok key :
  key <> [] ->
  exists bc, do_bf_setkey key = Some (bc, if weak bc then -1 else 0) /\ ctx_ok bc.
Proof.
  intros Hk. destruct key as [|x key']; [contradiction|]. set (key := x :: key').
  assert (H0 : word32 0) by (unfold word32; lia).
  unfold do_bf_setkey. fold key. change (match key with [] => None | _ => ?e end) with e.
  pose proof (fill_table_ok TP 9 0 _ 0 0 (initial_ok key) H0 H0) as H.
  destruct (fill_table TP 9 0 _ 0 0) as [[c1 l1] r1]. destruct H as (Hc1 & Hl1 & Hr1).
  pose proof (fill_table_ok T0 128 0 c1 l1 r1 Hc1 Hl1 Hr1) as H.
  destruct (fill_table T0 128 0 c1 l1 r1) as [[c2 l2] r2]. destruct H as (Hc2 & Hl2 & Hr2).
  pose proof (fill_table_ok T1 128 0 c2 l2 r2 Hc2 Hl2 Hr2) as H.
  destruct (fill_table T1 128 0 c2 l2 r2) as [[c3 l3] r3]. destruct H as (Hc3 & Hl3 & Hr3).
  pose proof (fill_table_ok T2 128 0 c3 l3 r3 Hc3 Hl3 Hr3) as H.
  destruct (fill_table T2 128 0 c3 l3 r3) as [[c4 l4] r4]. destruct H as (Hc4 & Hl4 & Hr4).
  pose proof (fill_table_ok T3 128 0 c4 l4 r4 Hc4 Hl4 Hr4) as H.
  destruct (fill_table T3 128 0 c4 l4 r4) as [[c5 l5] r5]. destruct H as (Hc5 & _).
  exists c5. auto.
Qed.

(** The weak-key test finds exactly the duplicates in a table. *)
Lemma weak_spec bc :
  weak bc = true <->
  exists i j, (i < j < 256)%nat /\
    (nth i (bc_s0 bc) 0 = nth j (bc_s0 bc) 0 \/ nth i (bc_s1 bc) 0 = nth j (bc_s1 bc) 0 \/
     nth i (bc_s2 bc) 0 = nth j (bc_s2 bc) 0 \/ nth i (bc_s3 bc) 0 = nth j (bc_s3 bc) 0).
Proof.
  unfold weak. rewrite existsb_exists. split.
  - intros (i & Hi & H). apply existsb_exists in H as (j & Hj & H). apply in_seq in Hi, Hj.
    exists i, j. split; [lia|]. unfold same_entry in H. rewrite !orb_true_iff, !Z.eqb_eq in H. tauto.
  - intros (i & j & Hij & H). exists i. split; [apply in_seq; lia|]. apply existsb_exists.
    exists j. split; [apply in_seq; lia|]. unfold same_entry. rewrite !orb_true_iff, !Z.eqb_eq. tauto.
Qed.

(** No two entries of a full table are the same. *)
Lemma NoDup_table l : length l = 256%nat ->
  (NoDup l <-> forall i j, (i < j < 256)%nat -> nth i l 0 <> nth j l 0).
Proof.
  intros Hl. rewrite (NoDup_nth l 0), Hl. split.
  - intros H i j Hij E. apply H in E; lia.
  - intros H i j Hi Hj E. destruct (Nat.lt_trichotomy i j) as [Hlt|[Heq|Hlt]]; [|exact Heq|].
    + exfalso. apply (H i j); [lia|exact E].
    + exfalso. apply (H j i); [lia|now symmetry].
Qed.

Lemma not_weak_spec bc : ctx_ok bc ->
  (weak bc = false <-> NoDup (bc_s0 bc) /\ NoDup (bc_s1 bc) /\ NoDup (bc_s2 bc) /\ NoDup (bc_s3 bc)).
Proof.
  intros ([_ H0] & [_ H1] & [_ H2] & [_ H3] & _). rewrite !NoDup_table, <- not_true_iff_false, weak_spec by assumption.
  split.
  - intros H. repeat split; intros i j Hij E; apply H; exists i, j; tauto.
  - intros (N0 & N1 & N2 & N3) (i & j & Hij & [E|[E|[E|E]]]);
      [apply (N0 i j Hij E)|apply (N1 i j Hij E)|apply (N2 i j Hij E)|apply (N3 i j Hij E)].
Qed.

(** ** Blocks *)

Lemma block_cases (b : list Z) : length b = 8%nat ->
  exists b0 b1 b2 b3 b4 b5 b6 b7, b = [b0; b1; b2; b3; b4; b5; b6; b7].
Proof.
  intros Hl. do 8 (destruct b as [|? b]; [discriminate Hl|]). destruct b; [|discriminate Hl].
  repeat eexists.
Qed.

Lemma block_words_store d1 d2 :
  word32 d1 -> word32 d2 -> block_words (store32 d1 ++ store32 d2) = (d1, d2).
Proof.
  intros H1 H2. pose proof (store_load d1 H1) as E1. pose proof (store_load d2 H2) as E2.
  unfold block_words, store32 in *. cbn [app nth]. now rewrite E1, E2.
Qed.

Lemma store_block_words b :
  length b = 8%nat -> Forall byte b ->
  let '(d1, d2) := block_words b in store32 d1 ++ store32 d2 = b /\ word32 d1 /\ word32 d2.
Proof.
  intros Hl Hb. destruct (block_cases b Hl) as (b0 & b1 & b2 & b3 & b4 & b5 & b6 & b7 & ->).
  repeat match goal with H : Forall _ (_ :: _) |- _ => inv H end.
  unfold block_words. cbn [nth]. rewrite !load_store by auto.
  split; [reflexivity|]. split; apply u32_word.
Qed.

Lemma decrypt_encrypt_block bc b :
  ctx_ok bc -> length b = 8%nat -> Forall byte b -> decrypt_block bc (encrypt_block bc b) = b.
Proof.
  intros Hc Hl Hb. unfold decrypt_block, encrypt_block, do_decrypt_block, do_encrypt_block.
  pose proof (store_block_words b Hl Hb) as H. destruct (block_words b) as [d1 d2].
  destruct H as (He & H1 & H2).
  pose proof (do_encrypt_word bc d1 d2 (proj1 (proj2 (proj2 (proj2 (proj2 Hc))))) H1 H2) as Hw.
  pose proof (decrypt_do_encrypt bc d1 d2) as Hd. destruct (do_encrypt bc d1 d2) as [e1 e2].
  rewrite block_words_store by apply Hw. now rewrite Hd.
Qed.

Lemma encrypt_decrypt_block bc b :
  ctx_ok bc -> length b = 8%nat -> Forall byte b -> encrypt_block bc (decrypt_block bc b) = b.
Proof.
  intros Hc Hl Hb. unfold decrypt_block, encrypt_block, do_decrypt_block, do_encrypt_block.
  pose proof (store_block_words b Hl Hb) as H. destruct (block_words b) as [d1 d2].
  destruct H as (He & H1 & H2).
  pose proof (decrypt_word bc d1 d2 (proj1 (proj2 (proj2 (proj2 (proj2 Hc))))) H1 H2) as Hw.
  pose proof (do_encrypt_decrypt bc d1 d2 (proj2 (proj2 (proj2 (proj2 (proj2 Hc)))))) as Hd.
  destruct (decrypt bc d1 d2) as [e1 e2].
  rewrite block_words_store by apply Hw. now rewrite Hd.
Qed.

Lemma encrypt_block_bytes bc b :
  Forall byte (encrypt_block bc b) /\ length (encrypt_block bc b) = 8%nat.
Proof.
  unfold encrypt_block, do_encrypt_block. destruct (block_words b) as [d1 d2].
  destruct (do_encrypt bc d1 d2) as [e1 e2].
  clear. destruct (store_bytes e1) as [H1 H2], (store_bytes e2) as [H3 H4].
  split; [apply Forall_app; auto|]. now rewrite length_app, H2, H4.
Qed.
