(* ===== verification/BlowfishTheorems.v ===== *)
(** * Blowfish: the properties *)
From Stdlib Require Import ZArith List Lia Bool.
Import ListNotations.
From S2P Require Import Prelude CMonad MpiBin BlowfishTables Blowfish.
#[local] Open Scope Z_scope.

(** C20: every key of at least one byte gives a context in which decryption
    undoes encryption and encryption undoes decryption, on every block; the
    arrays of the context are full of 32-bit words.  The return value is [0]
    exactly when no word occurs twice in one of the four S-boxes, and [-1]
    otherwise.  (The comment in front of the test names the P-array, which the
    code does not look at.) *)
Theorem blowfish_key_round_trip key :
  key <> [] ->
  exists bc rc, bf_setkey key = Some (bc, rc) /\ ctx_ok bc /\
    (forall b, length b = 8%nat -> Forall byte b ->
       decrypt_block bc (encrypt_block bc b) = b /\ encrypt_block bc (decrypt_block bc b) = b) /\
    (rc = 0 \/ rc = -1) /\
    (rc = 0 <-> NoDup (bc_s0 bc) /\ NoDup (bc_s1 bc) /\ NoDup (bc_s2 bc) /\ NoDup (bc_s3 bc)).
Proof.
  intros Hk. destruct (do_bf_setkey_ok key Hk) as (bc & He & Hc).
  exists bc, (if weak bc then -1 else 0). split; [exact He|]. split; [exact Hc|]. split.
  - intros b Hl Hb. split; [now apply decrypt_encrypt_block|now apply encrypt_decrypt_block].
  - rewrite <- (not_weak_spec bc Hc). destruct (weak bc); split; auto; split; intros; congruence.
Qed.

Lemma blowfish_key_round_trip_witness :
  exists bc rc, bf_setkey [97; 98; 99] = Some (bc, rc) /\ ctx_ok bc /\
    (forall b, length b = 8%nat -> Forall byte b ->
       decrypt_block bc (encrypt_block bc b) = b /\ encrypt_block bc (decrypt_block bc b) = b) /\
    (rc = 0 \/ rc = -1) /\
    (rc = 0 <-> NoDup (bc_s0 bc) /\ NoDup (bc_s1 bc) /\ NoDup (bc_s2 bc) /\ NoDup (bc_s3 bc)).
Proof. apply (blowfish_key_round_trip [97; 98; 99]). discriminate. Defined.

(** The unrolled rounds of the default build are the loops the source
    has for other numbers of rounds. *)
Theorem blowfish_unrolled_is_loop bc xl xr :
  do_encrypt bc xl xr = do_encrypt_loop bc 16 xl xr /\ decrypt bc xl xr = decrypt_loop bc 16 xl xr.
Proof. split; [apply do_encrypt_is_loop|apply decrypt_is_loop]. Qed.

(** The test values of the head of the source file: the key
    "abcdefghijklmnopqrstuvwxyz" is accepted and encrypts "BLOWFISH" to
    324ED0FEF413A203. *)
Theorem blowfish_test_values :
  match bf_setkey [97; 98; 99; 100; 101; 102; 103; 104; 105; 106; 107; 108; 109; 110; 111; 112; 113;
                   114; 115; 116; 117; 118; 119; 120; 121; 122] with
  | Some (bc, rc) =>
      rc = 0 /\
      encrypt_block bc [0x42; 0x4c; 0x4f; 0x57; 0x46; 0x49; 0x53; 0x48]
      = [0x32; 0x4e; 0xd0; 0xfe; 0xf4; 0x13; 0xa2; 0x03]
  | None => False
  end.
Proof. vm_compute. split; reflexivity. Qed.
