(* ===== verification/Rsa.v ===== *)
(** * RSA

    [libsparkle/crypto/rsa.c]: the context, key generation, the key checks,
    the public and the private operation and the PKCS#1 1.5 padding of
    encryption and of signatures.

    A buffer is the list of its bytes.  Reading past an input is undefined
    behaviour; the outputs are as long as the modulus, and the in-place calls
    read their input before they write.  [f_rng] is the caller's callback and
    [p_rng] the state it works on.  The answers of the C library's [rand] are
    a list; a padding loop for which they hold no non-zero byte runs out of
    fuel. *)
From Stdlib Require Import ZArith List Lia Bool.
Import ListNotations.
From Stdlib Require Import ZArith Znumtheory List Lia Bool.
From S2P Require Import Prelude CMonad Limbs Mpi MpiAddSub MpiShift MpiMul MpiDiv.
From S2P Require Import MpiDivCorrect MpiMod MpiMont MpiExp MpiGcd MpiBin NumTheory.
From S2P Require Import MpiPrime.
#[local] Open Scope Z_scope.
#[local] Open Scope cmonad_scope.

(** ** Constants *)

Definition POLARSSL_ERR_RSA_BAD_INPUT_DATA : Z := -0x0400.
Definition POLARSSL_ERR_RSA_INVALID_PADDING : Z := -0x0410.
Definition POLARSSL_ERR_RSA_KEY_GEN_FAILED : Z := -0x0420.
Definition POLARSSL_ERR_RSA_KEY_CHECK_FAILED : Z := -0x0430.
Definition POLARSSL_ERR_RSA_PUBLIC_FAILED : Z := -0x0440.
Definition POLARSSL_ERR_RSA_PRIVATE_FAILED : Z := -0x0450.
Definition POLARSSL_ERR_RSA_VERIFY_FAILED : Z := -0x0460.
Definition POLARSSL_ERR_RSA_OUTPUT_TOO_LARGE : Z := -0x0470.

Definition SIG_RSA_RAW : Z := 0.
Definition SIG_RSA_MD2 : Z := 2.
Definition SIG_RSA_MD4 : Z := 3.
Definition SIG_RSA_MD5 : Z := 4.
Definition SIG_RSA_SHA1 : Z := 5.
Definition SIG_RSA_SHA224 : Z := 14.
Definition SIG_RSA_SHA256 : Z := 11.
Definition SIG_RSA_SHA384 : Z := 12.
Definition SIG_RSA_SHA512 : Z := 13.

Definition RSA_PUBLIC : Z := 0.
Definition RSA_PRIVATE : Z := 1.
Definition RSA_PKCS_V15 : Z := 0.
Definition RSA_PKCS_V21 : Z := 1.
Definition RSA_SIGN : Z := 1.
Definition RSA_CRYPT : Z := 2.

Definition ASN1_HASH_MDX : list Z :=
  [0x30; 0x20; 0x30; 0x0C; 0x06; 0x08; 0x2A; 0x86; 0x48; 0x86; 0xF7; 0x0D; 0x02; 0x00; 0x05; 0x00;
   0x04; 0x10].
Definition ASN1_HASH_SHA1 : list Z :=
  [0x30; 0x21; 0x30; 0x09; 0x06; 0x05; 0x2b; 0x0e; 0x03; 0x02; 0x1a; 0x05; 0x00; 0x04; 0x14].
Definition ASN1_HASH_SHA2X : list Z :=
  [0x30; 0x11; 0x30; 0x0d; 0x06; 0x09; 0x60; 0x86; 0x48; 0x01; 0x65; 0x03; 0x04; 0x02; 0x00; 0x05;
   0x00; 0x04; 0x00].

(** ** The context *)

(** [RNG] is the type of the state [p_rng] points to. *)
Record rsa_context {RNG : Type} : Type := RsaContext
  { rsa_ver : Z; rsa_len : Z;
    rsa_N : mpi; rsa_E : mpi; rsa_D : mpi; rsa_P : mpi; rsa_Q : mpi;
    rsa_DP : mpi; rsa_DQ : mpi; rsa_QP : mpi;
    rsa_RN : mpi; rsa_RP : mpi; rsa_RQ : mpi;
    rsa_padding : Z; rsa_hash_id : Z;
    rsa_f_rng : option (RNG -> Z * RNG); rsa_p_rng : RNG }.
Arguments rsa_context RNG : clear implicits.

(** All fields zero: the sign of a zeroed [mpi] is zero. *)
Definition rsa_init {RNG} (padding hash_id : Z) (f_rng : option (RNG -> Z * RNG)) (p_rng : RNG)
    : rsa_context RNG :=
  RsaContext RNG 0 0 mpi_zeroed mpi_zeroed mpi_zeroed mpi_zeroed mpi_zeroed mpi_zeroed mpi_zeroed
    mpi_zeroed mpi_zeroed mpi_zeroed mpi_zeroed padding hash_id f_rng p_rng.

Definition rsa_free {RNG} (ctx : rsa_context RNG) : rsa_context RNG :=
  RsaContext RNG (rsa_ver ctx) (rsa_len ctx)
    (mpi_free (rsa_N ctx)) (mpi_free (rsa_E ctx)) (mpi_free (rsa_D ctx)) (mpi_free (rsa_P ctx))
    (mpi_free (rsa_Q ctx)) (mpi_free (rsa_DP ctx)) (mpi_free (rsa_DQ ctx)) (mpi_free (rsa_QP ctx))
    (mpi_free (rsa_RN ctx)) (mpi_free (rsa_RP ctx)) (mpi_free (rsa_RQ ctx))
    (rsa_padding ctx) (rsa_hash_id ctx) (rsa_f_rng ctx) (rsa_p_rng ctx).

(** The caches of [R^2] an operation leaves. *)
Definition set_caches {RNG} (ctx : rsa_context RNG) (RN RP RQ : mpi) : rsa_context RNG :=
  RsaContext RNG (rsa_ver ctx) (rsa_len ctx) (rsa_N ctx) (rsa_E ctx) (rsa_D ctx) (rsa_P ctx) (rsa_Q ctx)
    (rsa_DP ctx) (rsa_DQ ctx) (rsa_QP ctx) RN RP RQ (rsa_padding ctx) (rsa_hash_id ctx)
    (rsa_f_rng ctx) (rsa_p_rng ctx).

(** ** Checks *)

Definition rsa_check_pubkey {RNG} (ctx : rsa_context RNG) : M unit :=
  match mpi_p (rsa_N ctx), mpi_p (rsa_E ctx) with
  | n0 :: _, e0 :: _ =>
      if (Z.land n0 1 =? 0) || (Z.land e0 1 =? 0) then throw POLARSSL_ERR_RSA_KEY_CHECK_FAILED
      else
        n <- mpi_msb (rsa_N ctx);;
        if (n <? 128) || (4096 <? n) then throw POLARSSL_ERR_RSA_KEY_CHECK_FAILED
        else
          e <- mpi_msb (rsa_E ctx);;
          if (e <? 2) || (64 <? e) then throw POLARSSL_ERR_RSA_KEY_CHECK_FAILED else ret tt
  | _, _ => throw POLARSSL_ERR_RSA_KEY_CHECK_FAILED
  end.

Definition is_null (X : mpi) : bool := match mpi_p X with [] => true | _ => false end.

Section Operations.
Variable have_longlong : bool.
Context {RNG : Type}.
Implicit Type ctx : rsa_context RNG.

(** The three conditions of [rsa_check_privkey]. *)
Definition privkey_test ctx : M bool :=
  PQ <- mpi_mul_mpi mpi_init (Var (rsa_P ctx)) (Var (rsa_Q ctx));;
  DE <- mpi_mul_mpi mpi_init (Var (rsa_D ctx)) (Var (rsa_E ctx));;
  P1 <- mpi_sub_int mpi_init (Var (rsa_P ctx)) 1;;
  Q1 <- mpi_sub_int mpi_init (Var (rsa_Q ctx)) 1;;
  H <- mpi_mul_mpi mpi_init (Var P1) (Var Q1);;
  I <- mpi_mod_mpi have_longlong mpi_init (Var DE) (Var H);;
  G <- mpi_gcd mpi_init (rsa_E ctx) H;;
  ret ((mpi_cmp_mpi PQ (rsa_N ctx) =? 0) && (mpi_cmp_int I 1 =? 0) && (mpi_cmp_int G 1 =? 0)).

Definition rsa_check_privkey ctx : M unit :=
  _ <- rsa_check_pubkey ctx;;
  if is_null (rsa_P ctx) || is_null (rsa_Q ctx) || is_null (rsa_D ctx) then
    throw POLARSSL_ERR_RSA_KEY_CHECK_FAILED
  else
    ok <- on_error (Z.lor POLARSSL_ERR_RSA_KEY_CHECK_FAILED) (privkey_test ctx);;
    if ok then ret tt else throw (Z.lor POLARSSL_ERR_RSA_KEY_CHECK_FAILED 0).

(** ** The public and the private operation *)

(** [mpi_exp_mod] with a cache. *)
Definition exp_cached (X : mpi) (A : arg) (E N RR : mpi) : M (mpi * mpi) :=
  '(X, RR') <- mpi_exp_mod have_longlong X A E N (Some RR);;
  match RR' with Some RR' => ret (X, RR') | None => ub end.

Definition rsa_public ctx (input : list Z) : M (list Z * rsa_context RNG) :=
  input <- take_bytes (Z.to_nat (rsa_len ctx)) input;;
  T <- on_error (Z.lor POLARSSL_ERR_RSA_PUBLIC_FAILED) (mpi_read_binary mpi_init input);;
  if 0 <=? mpi_cmp_mpi T (rsa_N ctx) then throw POLARSSL_ERR_RSA_BAD_INPUT_DATA
  else
    on_error (Z.lor POLARSSL_ERR_RSA_PUBLIC_FAILED)
      ('(T, RN) <- exp_cached T Self (rsa_E ctx) (rsa_N ctx) (rsa_RN ctx);;
       output <- mpi_write_binary T (Z.to_nat (rsa_len ctx));;
       ret (output, set_caches ctx RN (rsa_RP ctx) (rsa_RQ ctx))).

(** The exponentiation modulo the two primes and the recombination. *)
Definition private_crt ctx (T : mpi) : M (mpi * rsa_context RNG) :=
  '(T1, RP) <- exp_cached mpi_init (Var T) (rsa_DP ctx) (rsa_P ctx) (rsa_RP ctx);;
  '(T2, RQ) <- exp_cached mpi_init (Var T) (rsa_DQ ctx) (rsa_Q ctx) (rsa_RQ ctx);;
  T <- mpi_sub_mpi T (Var T1) (Var T2);;
  T1 <- mpi_mul_mpi T1 (Var T) (Var (rsa_QP ctx));;
  T <- mpi_mod_mpi have_longlong T (Var T1) (Var (rsa_P ctx));;
  T1 <- mpi_mul_mpi T1 (Var T) (Var (rsa_Q ctx));;
  T <- mpi_add_mpi T (Var T2) (Var T1);;
  ret (T, set_caches ctx (rsa_RN ctx) RP RQ).

Definition rsa_private ctx (input : list Z) : M (list Z * rsa_context RNG) :=
  input <- take_bytes (Z.to_nat (rsa_len ctx)) input;;
  T <- on_error (Z.lor POLARSSL_ERR_RSA_PRIVATE_FAILED) (mpi_read_binary mpi_init input);;
  if 0 <=? mpi_cmp_mpi T (rsa_N ctx) then throw POLARSSL_ERR_RSA_BAD_INPUT_DATA
  else
    on_error (Z.lor POLARSSL_ERR_RSA_PRIVATE_FAILED)
      ('(T, ctx) <- private_crt ctx T;;
       output <- mpi_write_binary T (Z.to_nat (rsa_len ctx));;
       ret (output, ctx)).

(** [( mode == RSA_PUBLIC ) ? rsa_public( .. ) : rsa_private( .. )] *)
Definition rsa_operation ctx (mode : Z) (input : list Z) : M (list Z * rsa_context RNG) :=
  if mode =? RSA_PUBLIC then rsa_public ctx input else rsa_private ctx input.

(** ** Encryption padding *)

(** [do { *p = (unsigned char) rand(); } while( *p == 0 );] *)
Fixpoint nonzero_byte (rand : list Z) : M (Z * list Z) :=
  match rand with
  | [] => out_of_fuel
  | r :: rand' => if u8 r =? 0 then nonzero_byte rand' else ret (u8 r, rand')
  end.

(** [while( nb_pad-- > 0 )] *)
Fixpoint pad_bytes (nb_pad : nat) (rand : list Z) : M (list Z * list Z) :=
  match nb_pad with
  | O => ret ([], rand)
  | S n =>
      '(b, rand) <- nonzero_byte rand;;
      '(l, rand) <- pad_bytes n rand;;
      ret (b :: l, rand)
  end.

(** The output, the context and the answers of [rand] that are left. *)
Definition rsa_pkcs1_encrypt ctx (mode ilen : Z) (input rand : list Z)
    : M (list Z * rsa_context RNG * list Z) :=
  let olen := rsa_len ctx in
  if rsa_padding ctx =? RSA_PKCS_V15 then
    if (ilen <? 0) || (olen <? ilen + 11) then throw POLARSSL_ERR_RSA_BAD_INPUT_DATA
    else
      let nb_pad := olen - 3 - ilen in
      '(pad, rand) <- pad_bytes (Z.to_nat nb_pad) rand;;
      msg <- take_bytes (Z.to_nat ilen) input;;
      '(output, ctx) <- rsa_operation ctx mode ([0; RSA_CRYPT] ++ pad ++ [0] ++ msg);;
      ret (output, ctx, rand)
  else throw POLARSSL_ERR_RSA_INVALID_PADDING.

(** [while( *p != 0 )] from the byte [p] points to up to the last of the
    [ilen] bytes; [more] is the condition on the bytes skipped. *)
Fixpoint skip_padding (more : Z -> bool) (p : list Z) : M (list Z) :=
  match p with
  | [] => ub
  | b :: p' =>
      if b =? 0 then ret p'
      else if (length p' =? 0)%nat || negb (more b) then throw POLARSSL_ERR_RSA_INVALID_PADDING
      else skip_padding more p'
  end.

(** [*p++ != 0 || *p++ != t], then the padding: the rest of the buffer. *)
Definition unpad (t : Z) (more : Z -> bool) (buf : list Z) : M (list Z) :=
  match buf with
  | b0 :: b1 :: p =>
      if negb (b0 =? 0) || negb (b1 =? t) then throw POLARSSL_ERR_RSA_INVALID_PADDING
      else skip_padding more p
  | _ => ub
  end.

(** The output, whose length is [*olen]. *)
Definition rsa_pkcs1_decrypt ctx (mode : Z) (input : list Z) (output_max_len : Z)
    : M (list Z * rsa_context RNG) :=
  let ilen := rsa_len ctx in
  if (ilen <? 16) || (1024 <? ilen) then throw POLARSSL_ERR_RSA_BAD_INPUT_DATA
  else
    '(buf, ctx) <- rsa_operation ctx mode input;;
    if rsa_padding ctx =? RSA_PKCS_V15 then
      p <- unpad RSA_CRYPT (fun _ => true) buf;;
      if output_max_len <? Z.of_nat (length p) then throw POLARSSL_ERR_RSA_OUTPUT_TOO_LARGE
      else ret (p, ctx)
    else throw POLARSSL_ERR_RSA_INVALID_PADDING.

(** ** Signatures *)

(** The bytes after the padding: the length the code reserves for them. *)
Definition digest_len (hash_id hashlen : Z) : option Z :=
  if hash_id =? SIG_RSA_RAW then Some hashlen
  else if (hash_id =? SIG_RSA_MD2) || (hash_id =? SIG_RSA_MD4) || (hash_id =? SIG_RSA_MD5) then Some 34
  else if hash_id =? SIG_RSA_SHA1 then Some 35
  else if hash_id =? SIG_RSA_SHA224 then Some 47
  else if hash_id =? SIG_RSA_SHA256 then Some 51
  else if hash_id =? SIG_RSA_SHA384 then Some 67
  else if hash_id =? SIG_RSA_SHA512 then Some 83
  else None.

(** [p[i] += x] on an [unsigned char]. *)
Definition add8 (p : list Z) (i : nat) (x : Z) : list Z := upd_list p i (u8 (nth i p 0 + x)).

(** [memcpy( p, ASN1_HASH_MDX, 18 ); memcpy( p + 18, hash, 16 ); p[13] = alg;] *)
Definition digest_mdx (alg : Z) (hash : list Z) : M (list Z) :=
  h <- take_bytes 16 hash;;
  ret (upd_list (ASN1_HASH_MDX ++ h) 13 alg).

Definition digest_sha2 (len : nat) (alg : Z) (hash : list Z) : M (list Z) :=
  h <- take_bytes len hash;;
  let p := ASN1_HASH_SHA2X ++ h in
  let p := add8 p 1 (Z.of_nat len) in
  let p := upd_list p 14 alg in
  ret (add8 p 18 (Z.of_nat len)).

Definition digest_bytes (hash_id hashlen : Z) (hash : list Z) : M (list Z) :=
  if hash_id =? SIG_RSA_RAW then (if hashlen <? 0 then ub else take_bytes (Z.to_nat hashlen) hash)
  else if hash_id =? SIG_RSA_MD2 then digest_mdx 2 hash
  else if hash_id =? SIG_RSA_MD4 then digest_mdx 4 hash
  else if hash_id =? SIG_RSA_MD5 then digest_mdx 5 hash
  else if hash_id =? SIG_RSA_SHA1 then h <- take_bytes 20 hash;; ret (ASN1_HASH_SHA1 ++ h)
  else if hash_id =? SIG_RSA_SHA224 then digest_sha2 28 4 hash
  else if hash_id =? SIG_RSA_SHA256 then digest_sha2 32 1 hash
  else if hash_id =? SIG_RSA_SHA384 then digest_sha2 48 2 hash
  else if hash_id =? SIG_RSA_SHA512 then digest_sha2 64 3 hash
  else throw POLARSSL_ERR_RSA_BAD_INPUT_DATA.

Definition rsa_pkcs1_sign ctx (mode hash_id hashlen : Z) (hash : list Z)
    : M (list Z * rsa_context RNG) :=
  let olen := rsa_len ctx in
  if rsa_padding ctx =? RSA_PKCS_V15 then
    match digest_len hash_id hashlen with
    | None => throw POLARSSL_ERR_RSA_BAD_INPUT_DATA
    | Some dlen =>
        let nb_pad := olen - 3 - dlen in
        if nb_pad <? 8 then throw POLARSSL_ERR_RSA_BAD_INPUT_DATA
        else
          p <- digest_bytes hash_id hashlen hash;;
          rsa_operation ctx mode ([0; RSA_SIGN] ++ repeat 0xFF (Z.to_nat nb_pad) ++ [0] ++ p)
    end
  else throw POLARSSL_ERR_RSA_INVALID_PADDING.

(** [memcmp( a, b, n ) == 0], undefined when an array is shorter. *)
Definition memcmp_eq (a b : list Z) (n : nat) : M bool :=
  a <- take_bytes n a;;
  b <- take_bytes n b;;
  ret (if list_eq_dec Z.eq_dec a b then true else false).

(** [&&] of conditions that may be undefined. *)
Definition and_then (a b : M bool) : M bool := x <- a;; if x then b else ret false.

(** Return 0, or [POLARSSL_ERR_RSA_VERIFY_FAILED]. *)
Definition verify_result (b : bool) : M unit := if b then ret tt else throw POLARSSL_ERR_RSA_VERIFY_FAILED.

(** What follows the padding, [p] with [len] bytes, against the hash. *)
Definition check_digest (hash_id hashlen : Z) (hash p : list Z) : M unit :=
  let len := Z.of_nat (length p) in
  let c13 := nth 13 p 0 in
  let p13 := upd_list p 13 0 in
  md <- (if len =? 34 then
           e <- memcmp_eq p13 ASN1_HASH_MDX 18;;
           if negb e then throw POLARSSL_ERR_RSA_VERIFY_FAILED
           else ret (((c13 =? 2) && (hash_id =? SIG_RSA_MD2)) ||
                     ((c13 =? 4) && (hash_id =? SIG_RSA_MD4)) ||
                     ((c13 =? 5) && (hash_id =? SIG_RSA_MD5)))
         else ret false);;
  let p := if len =? 34 then p13 else p in
  if md then
    e <- memcmp_eq (skipn 18 p) hash 16;;
    verify_result e
  else if (len =? 35) && (hash_id =? SIG_RSA_SHA1) then
    e <- and_then (memcmp_eq p ASN1_HASH_SHA1 15) (memcmp_eq (skipn 15 p) hash 20);;
    verify_result e
  else if ((len =? 19 + 28) && (nth 14 p 0 =? 4) && (hash_id =? SIG_RSA_SHA224)) ||
          ((len =? 19 + 32) && (nth 14 p 0 =? 1) && (hash_id =? SIG_RSA_SHA256)) ||
          ((len =? 19 + 48) && (nth 14 p 0 =? 2) && (hash_id =? SIG_RSA_SHA384)) ||
          ((len =? 19 + 64) && (nth 14 p 0 =? 3) && (hash_id =? SIG_RSA_SHA512)) then
    let c := u8 (nth 1 p 0 - 17) in
    let p := upd_list p 1 17 in
    let p := upd_list p 14 0 in
    e <- and_then (ret (nth 18 p 0 =? c))
           (and_then (memcmp_eq p ASN1_HASH_SHA2X 18) (memcmp_eq (skipn 19 p) hash (Z.to_nat c)));;
    verify_result e
  else if (len =? hashlen) && (hash_id =? SIG_RSA_RAW) then
    e <- memcmp_eq p hash (Z.to_nat hashlen);;
    verify_result e
  else throw POLARSSL_ERR_RSA_INVALID_PADDING.

Definition rsa_pkcs1_verify ctx (mode hash_id hashlen : Z) (hash sig : list Z)
    : M (rsa_context RNG) :=
  let siglen := rsa_len ctx in
  if (siglen <? 16) || (1024 <? siglen) then throw POLARSSL_ERR_RSA_BAD_INPUT_DATA
  else
    '(buf, ctx) <- rsa_operation ctx mode sig;;
    if rsa_padding ctx =? RSA_PKCS_V15 then
      p <- unpad RSA_SIGN (Z.eqb 0xFF) buf;;
      _ <- check_digest hash_id hashlen hash p;;
      ret ctx
    else throw POLARSSL_ERR_RSA_INVALID_PADDING.
End Operations.


(** ** Operations *)

(** The variables of the search: four fields of the context and four
    locals. *)
Record gen_state : Type := GenState
  { gs_P : mpi; gs_Q : mpi; gs_N : mpi; gs_P1 : mpi; gs_Q1 : mpi; gs_H : mpi; gs_G : mpi }.

Section Gen.
Variable have_longlong : bool.
Context {RNG : Type} (f_rng : RNG -> Z * RNG).

(** One turn of the loop after the two primes are drawn: the two [continue]
    leave what was computed before them. *)
Definition gen_turn (nbits : Z) (E : mpi) (s : gen_state) : M gen_state :=
  let '(P, Q) := if mpi_cmp_mpi (gs_P s) (gs_Q s) <? 0 then mpi_swap (gs_P s) (gs_Q s)
                 else (gs_P s, gs_Q s) in
  if mpi_cmp_mpi P Q =? 0 then
    ret (GenState P Q (gs_N s) (gs_P1 s) (gs_Q1 s) (gs_H s) (gs_G s))
  else
    N <- mpi_mul_mpi (gs_N s) (Var P) (Var Q);;
    m <- mpi_msb N;;
    if negb (m =? nbits) then ret (GenState P Q N (gs_P1 s) (gs_Q1 s) (gs_H s) (gs_G s))
    else
      P1 <- mpi_sub_int (gs_P1 s) (Var P) 1;;
      Q1 <- mpi_sub_int (gs_Q1 s) (Var Q) 1;;
      H <- mpi_mul_mpi (gs_H s) (Var P1) (Var Q1);;
      G <- mpi_gcd (gs_G s) E H;;
      ret (GenState P Q N P1 Q1 H G).

(** [do { .. } while( mpi_cmp_int( &G, 1 ) != 0 );]; [pf] is the fuel of the
    two prime searches of a turn. *)
Fixpoint gen_loop (fuel pf : nat) (nbits : Z) (E : mpi) (s : gen_state) (p_rng : RNG)
    : M (gen_state * RNG) :=
  match fuel with
  | O => out_of_fuel
  | S fuel' =>
      '(P, p_rng) <- mpi_gen_prime have_longlong f_rng pf (gs_P s) (Z.shiftr (nbits + 1) 1) 0 p_rng;;
      '(Q, p_rng) <- mpi_gen_prime have_longlong f_rng pf (gs_Q s) (Z.shiftr (nbits + 1) 1) 0 p_rng;;
      s <- gen_turn nbits E (GenState P Q (gs_N s) (gs_P1 s) (gs_Q1 s) (gs_H s) (gs_G s));;
      if negb (mpi_cmp_int (gs_G s) 1 =? 0) then gen_loop fuel' pf nbits E s p_rng
      else ret (s, p_rng)
  end.

(** The exponents, once the primes are found. *)
Definition gen_exponents (ctx : rsa_context RNG) (E : mpi) (s : gen_state) (p_rng : RNG)
    : M (rsa_context RNG) :=
  D <- mpi_inv_mod have_longlong (rsa_D ctx) E (gs_H s);;
  DP <- mpi_mod_mpi have_longlong (rsa_DP ctx) (Var D) (Var (gs_P1 s));;
  DQ <- mpi_mod_mpi have_longlong (rsa_DQ ctx) (Var D) (Var (gs_Q1 s));;
  QP <- mpi_inv_mod have_longlong (rsa_QP ctx) (gs_Q s) (gs_P s);;
  m <- mpi_msb (gs_N s);;
  ret (RsaContext RNG (rsa_ver ctx) (Z.shiftr (m + 7) 3) (gs_N s) E D (gs_P s) (gs_Q s) DP DQ QP
         (rsa_RN ctx) (rsa_RP ctx) (rsa_RQ ctx) (rsa_padding ctx) (rsa_hash_id ctx)
         (rsa_f_rng ctx) p_rng).
End Gen.

(** On an error the context is freed before the code is returned. *)
Definition rsa_gen_key (have_longlong : bool) {RNG} (fuel pf : nat) (ctx : rsa_context RNG)
    (nbits exponent : Z) : M (rsa_context RNG) :=
  match rsa_f_rng ctx with
  | None => throw POLARSSL_ERR_RSA_BAD_INPUT_DATA
  | Some f_rng =>
      if (nbits <? 128) || (exponent <? 3) then throw POLARSSL_ERR_RSA_BAD_INPUT_DATA
      else
        on_error (Z.lor POLARSSL_ERR_RSA_KEY_GEN_FAILED)
          (E <- mpi_lset (rsa_E ctx) exponent;;
           let s := GenState (rsa_P ctx) (rsa_Q ctx) (rsa_N ctx) mpi_init mpi_init mpi_init mpi_init in
           '(s, p_rng) <- gen_loop have_longlong f_rng fuel pf nbits E s (rsa_p_rng ctx);;
           gen_exponents have_longlong ctx E s p_rng)
  end.
