(* ===== verification/RsaCorrect.v ===== *)
(** * RSA: the public and the private operation

    What [rsa_public] and [rsa_private] of [libsparkle/crypto/rsa.c] compute
    for a well-formed key, and that they undo each other. *)
From Stdlib Require Import ZArith Znumtheory List Lia Bool.
Import ListNotations.
From S2P Require Import Prelude CMonad Limbs Mpi MpiAddSub MpiShift MpiMul MpiDiv.
From S2P Require Import MpiDivCorrect.
From S2P Require Import MpiMod MpiMont MpiExp MpiGcd MpiBin MpiPrime NumTheory Rsa.
#[local] Open Scope Z_scope.
#[local] Open Scope cmonad_scope.

(** ** Keys *)

Section Keys.
Context (hl : bool) {RNG : Type}.
Implicit Type ctx : rsa_context RNG.

(** What the public operation needs of a context. *)
Record public_key ctx : Prop := PublicKey
  { pk_N : mpi_wf (rsa_N ctx); pk_E : mpi_wf (rsa_E ctx);
    pk_N_pos : 1 < val (rsa_N ctx); pk_N_odd : val (rsa_N ctx) mod 2 = 1;
    pk_E_pos : 0 < val (rsa_E ctx);
    pk_RN : cache_ok (rsa_N ctx) (Some (rsa_RN ctx));
    pk_len : rsa_len ctx = (bitlen (val (rsa_N ctx)) + 7) / 8;
    pk_est : Estimate hl (mag (rsa_N ctx)) }.

(** What the private operation needs: the relations of the CRT key. *)
Record private_key ctx : Prop := PrivateKey
  { sk_P : mpi_wf (rsa_P ctx); sk_Q : mpi_wf (rsa_Q ctx); sk_D : mpi_wf (rsa_D ctx);
    sk_DP : mpi_wf (rsa_DP ctx); sk_DQ : mpi_wf (rsa_DQ ctx); sk_QP : mpi_wf (rsa_QP ctx);
    sk_primeP : prime (val (rsa_P ctx)); sk_primeQ : prime (val (rsa_Q ctx));
    sk_P2 : 2 < val (rsa_P ctx); sk_Q2 : 2 < val (rsa_Q ctx);
    sk_ne : val (rsa_P ctx) <> val (rsa_Q ctx);
    sk_N : val (rsa_N ctx) = val (rsa_P ctx) * val (rsa_Q ctx);
    sk_D_pos : 0 < val (rsa_D ctx);
    sk_inv : (val (rsa_E ctx) * val (rsa_D ctx)) mod ((val (rsa_P ctx) - 1) * (val (rsa_Q ctx) - 1)) = 1;
    sk_DP_val : val (rsa_DP ctx) = val (rsa_D ctx) mod (val (rsa_P ctx) - 1);
    sk_DQ_val : val (rsa_DQ ctx) = val (rsa_D ctx) mod (val (rsa_Q ctx) - 1);
    sk_QP_pos : 0 < val (rsa_QP ctx);
    sk_QP_val : (val (rsa_QP ctx) * val (rsa_Q ctx)) mod val (rsa_P ctx) = 1;
    sk_RP : cache_ok (rsa_P ctx) (Some (rsa_RP ctx));
    sk_RQ : cache_ok (rsa_Q ctx) (Some (rsa_RQ ctx));
    sk_estP : Estimate hl (mag (rsa_P ctx)); sk_estQ : Estimate hl (mag (rsa_Q ctx)) }.

(** The operations change nothing of a key but its caches. *)
Definition same_key ctx ctx' : Prop :=
  exists RN RP RQ, ctx' = set_caches ctx RN RP RQ /\
    cache_ok (rsa_N ctx) (Some RN) /\ cache_ok (rsa_P ctx) (Some RP) /\ cache_ok (rsa_Q ctx) (Some RQ).

Lemma same_key_public ctx ctx' : public_key ctx -> same_key ctx ctx' -> public_key ctx'.
Proof. intros [] (RN & RP & RQ & -> & H & _). constructor; auto. Qed.

Lemma same_key_private ctx ctx' : private_key ctx -> same_key ctx ctx' -> private_key ctx'.
Proof. intros [] (RN & RP & RQ & -> & _ & H1 & H2). constructor; auto. Qed.

(** ** Helpers *)

Lemma exp_cached_spec X A E N RR :
  mpi_wf (deref X A) -> mpi_s (deref X A) = 1 -> mpi_wf E -> 0 < val E -> mpi_wf N -> 0 < val N ->
  val N mod 2 = 1 -> cache_ok N (Some RR) -> Estimate hl (mag N) ->
  runs NoFail (exp_cached hl X A E N RR)
    (fun '(X', RR') => mpi_wf X' /\ (mpi_s X' = 1 /\ (0 < mpi_n X')%nat) /\
       val X' = val (deref X A) ^ val E mod val N /\ cache_ok N (Some RR')) no_err.
Proof.
  intros HA HsA HE HvE HN HvN Hodd Hc Hest. unfold exp_cached.
  assert (HsE : mpi_s E = 1) by (now apply pos_sign).
  assert (HvA : val (deref X A) = mag (deref X A)) by (unfold val; rewrite HsA; ring).
  assert (HmE : val E = mag E) by (unfold val; rewrite HsE; ring).
  pose proof (mag_nonneg _ HA).
  eapply runs_bind.
  - apply mpi_exp_mod_full; auto; [intros _; exact HsA|lia|apply mag_pos_n; auto; lia].
  - intros [X' RR'] (H1 & H2 & H3 & H4 & H5). destruct RR' as [RR'|].
    + apply runs_ret. rewrite HmE. auto.
    + destruct H5 as [H5 _]. discriminate (H5 eq_refl).
Qed.

(** A number below the modulus fits in the output. *)
Lemma write_below d X N len E :
  mpi_wf X -> (0 < mpi_n X)%nat -> 0 <= val X < val N -> len = (bitlen (val N) + 7) / 8 ->
  runs d (mpi_write_binary X (Z.to_nat len))
    (fun out => length out = Z.to_nat len /\ Forall byte out /\ be_value out = val X) E.
Proof.
  intros HX Hn Hb ->. pose proof (val_abs X HX) as Ha.
  replace (val X) with (mag X) in Hb |- * by lia.
  apply mpi_write_binary_spec; auto.
  assert (Hl : bitlen (mag X) <= bitlen (val N)).
  { unfold bitlen. case_bool (val N =? 0); [lia|]. pose proof (Z.log2_nonneg (val N)).
    case_bool (mag X =? 0); [lia|]. pose proof (Z.log2_le_mono (mag X) (val N)). lia. }
  assert (H0 : 0 <= bitlen (mag X)) by (unfold bitlen; destr_if; [lia|pose proof (Z.log2_nonneg (mag X)); lia]).
  rewrite Z2Nat.id by dlia. apply Z.div_le_mono; lia.
Qed.

Lemma runs_on_error_none {A} (f : Z -> Z) (m : M A) Q E :
  runs NoFail m Q no_err -> runs NoFail (on_error f m) Q E.
Proof.
  intros H. eapply runs_weaken; [exact (runs_on_error f m Q no_err H)|auto|]. intros e (e0 & [] & _).
Qed.

(** ** The public operation *)

(** The outcome of an operation that maps a message [m] below [N] to [f m]. *)
Definition operation_ok ctx (input : list Z) (f : Z -> Z) (r : list Z * rsa_context RNG) : Prop :=
  let '(out, ctx') := r in
  be_value input < val (rsa_N ctx) /\ length out = length input /\ Forall byte out /\
  be_value out = f (be_value input) /\ same_key ctx ctx'.

Definition operation_err ctx (input : list Z) (e : Z) : Prop :=
  e = POLARSSL_ERR_RSA_BAD_INPUT_DATA /\ val (rsa_N ctx) <= be_value input.

Definition is_message ctx (input : list Z) : Prop :=
  Forall byte input /\ length input = Z.to_nat (rsa_len ctx).

(** The input is read, and compared with the modulus. *)
Lemma read_input ctx (f : Z -> Z) input (Q : list Z * rsa_context RNG -> Prop) (k : mpi -> M (list Z * rsa_context RNG)) :
  mpi_wf (rsa_N ctx) -> 0 < val (rsa_N ctx) -> is_message ctx input ->
  (forall T, mpi_wf T -> mpi_s T = 1 -> (0 < mpi_n T)%nat -> val T = be_value input ->
     val T < val (rsa_N ctx) -> runs NoFail (k T) Q (operation_err ctx input)) ->
  runs NoFail
    (input <- take_bytes (Z.to_nat (rsa_len ctx)) input;;
     T <- on_error f (mpi_read_binary mpi_init input);;
     if 0 <=? mpi_cmp_mpi T (rsa_N ctx) then throw POLARSSL_ERR_RSA_BAD_INPUT_DATA else k T)
    Q (operation_err ctx input).
Proof.
  intros HN Hpos [Hb Hl] Hk. runs_step take_bytes_all; [exact Hl|]. intros ? ->.
  eapply runs_bind; [apply runs_on_error_none, mpi_read_binary_full; auto with limbs|].
  intros T (HT & [HsT HnT] & HvT).
  assert (HsN : mpi_s (rsa_N ctx) = 1) by (now apply pos_sign).
  rewrite mpi_cmp_mpi_spec by (auto; left; congruence). rewrite HvT.
  destruct (Z.compare_spec (be_value input) (val (rsa_N ctx))) as [E|E|E]; cbn [cmp_sign Z.leb Z.compare].
  - apply runs_throw. split; [reflexivity|lia].
  - apply Hk; auto. lia.
  - apply runs_throw. split; [reflexivity|lia].
Qed.

Lemma rsa_public_spec ctx input :
  public_key ctx -> cache_ok (rsa_P ctx) (Some (rsa_RP ctx)) -> cache_ok (rsa_Q ctx) (Some (rsa_RQ ctx)) ->
  is_message ctx input ->
  runs NoFail (rsa_public hl ctx input)
    (operation_ok ctx input (fun m => m ^ val (rsa_E ctx) mod val (rsa_N ctx)))
    (operation_err ctx input).
Proof.
  intros [HN HE HNp Hodd HEp HRN Hlen Hest] HRP HRQ Hm. unfold rsa_public.
  apply read_input; auto; [lia|]. intros T HT HsT HnT HvT Hlt. apply runs_on_error_none.
  runs_step exp_cached_spec; cbn [deref]; auto; [lia|].
  intros [T' RN] (HT' & [HsT' HnT'] & HvT' & HRN').
  pose proof (Z.mod_pos_bound (be_value input ^ val (rsa_E ctx)) (val (rsa_N ctx)) ltac:(lia)) as Hb.
  cbn [deref] in HvT'. rewrite HvT in *.
  runs_step (write_below NoFail T' (rsa_N ctx) (rsa_len ctx)); auto; [now rewrite HvT'|].
  intros out (Hl & Hbo & Hvo). apply runs_ret. unfold operation_ok.
  split; [lia|]. split; [destruct Hm; congruence|]. split; [exact Hbo|]. split; [congruence|].
  exists RN, (rsa_RP ctx), (rsa_RQ ctx). auto.
Qed.

(** ** The private operation *)

(** The difference of two non-negative numbers is in canonical form. *)
Lemma mpi_sub_mpi_canon d X A B E :
  mpi_wf X -> mpi_wf A -> mpi_wf B -> mpi_s A = 1 -> mpi_s B = 1 ->
  runs d (mpi_sub_mpi X (Var A) (Var B)) canon E.
Proof.
  intros HX HA HB HsA HsB. unfold mpi_sub_mpi. cbn [deref]. rewrite HsA, HsB, mpi_cmp_abs_spec by auto.
  cbn [Z.ltb Z.compare Z.mul Pos.mul].
  assert (H1 : 0 <? 1 * 1 = true) by reflexivity. rewrite H1.
  destruct (Z.compare_spec (mag A) (mag B)) as [Ec|Ec|Ec]; cbn [cmp_sign Z.leb Z.compare].
  - runs_step mpi_sub_abs_spec; cbn [deref]; auto; [lia|]. intros X' _. now apply runs_ret.
  - runs_step mpi_sub_abs_spec; cbn [deref]; auto; [lia|]. intros X' (_ & _ & Hm & _). apply runs_ret.
    intros Hz. change (mag (Mpi (- (1)) (mpi_p X'))) with (mag X') in Hz. cbn [deref] in Hm. lia.
  - runs_step mpi_sub_abs_spec; cbn [deref]; auto; [lia|]. intros X' _. now apply runs_ret.
Qed.

Lemma private_crt_spec ctx T :
  private_key ctx -> cache_ok (rsa_N ctx) (Some (rsa_RN ctx)) ->
  mpi_wf T -> mpi_s T = 1 -> (0 < mpi_n T)%nat ->
  runs NoFail (private_crt hl ctx T)
    (fun '(T', ctx') => mpi_wf T' /\ (0 < mpi_n T')%nat /\
       val T' = val T ^ val (rsa_D ctx) mod val (rsa_N ctx) /\ same_key ctx ctx') no_err.
Proof.
  intros [HP HQ HD HDP HDQ HQP PP PQ P2 Q2 Hne HvN HD0 Hinv HvDP HvDQ HQP0 HvQP HRP HRQ EP EQ] HRN HT HsT HnT.
  set (p := val (rsa_P ctx)) in *. set (q := val (rsa_Q ctx)) in *. set (dd := val (rsa_D ctx)) in *.
  assert (Hdp : 0 < dd mod (p - 1)).
  { apply (inverse_nonzero (val (rsa_E ctx)) dd (p - 1) (q - 1)); [lia|lia|exact Hinv]. }
  assert (Hdq : 0 < dd mod (q - 1)).
  { apply (inverse_nonzero (val (rsa_E ctx)) dd (q - 1) (p - 1)); [lia|lia|]. now rewrite (Z.mul_comm (q - 1)). }
  assert (HvT0 : 0 <= val T) by (unfold val; rewrite HsT; pose proof (mag_nonneg T HT); lia).
  pose proof (odd_prime p PP P2) as Op. pose proof (odd_prime q PQ Q2) as Oq.
  unfold private_crt.
  runs_step exp_cached_spec; cbn [deref]; auto; [rewrite HvDP; exact Hdp|unfold p in P2; lia|].
  intros [T1 RP] (HT1 & [HsT1 HnT1] & HvT1 & HRP'). cbn [deref] in HvT1. fold p in HvT1.
  runs_step exp_cached_spec; cbn [deref]; auto; [rewrite HvDQ; exact Hdq|unfold q in Q2; lia|].
  intros [T2 RQ] (HT2 & [HsT2 HnT2] & HvT2 & HRQ'). cbn [deref] in HvT2. fold q in HvT2.
  rewrite HvDP, exp_reduce in HvT1 by (auto; lia). rewrite HvDQ, exp_reduce in HvT2 by (auto; lia).
  set (m := val T ^ dd) in *.
  eapply runs_bind.
  { apply runs_and with (E' := no_err); [apply mpi_sub_mpi_spec; cbn [deref]; auto|apply mpi_sub_mpi_canon; auto]. }
  cbv beta. cbn [deref]. intros T3 [(HT3 & HvT3 & HnT3) Hc3].
  assert (HsQP : mpi_s (rsa_QP ctx) = 1) by (now apply pos_sign).
  runs_step mpi_mul_mpi_spec; cbn [deref]; auto. intros T4 (HT4 & HmT4 & HsT4 & _).
  cbn [deref] in HmT4, HsT4.
  assert (HmQP : 0 < mag (rsa_QP ctx)) by (unfold val in HQP0; rewrite HsQP in HQP0; lia).
  assert (HvT4 : val T4 = val T3 * val (rsa_QP ctx)) by (unfold val; rewrite HmT4, HsT4; ring).
  runs_step mpi_mod_mpi_spec; cbn [deref]; auto.
  { intros Hz. rewrite HmT4 in Hz. rewrite HsT4, HsQP, Z.mul_1_r. apply Hc3. nia. }
  { fold p. lia. } { discriminate. }
  intros T5 (HT5 & HvT5 & HsT5 & HnT5). cbn [deref] in HvT5. fold p in HvT5.
  runs_step mpi_mul_mpi_val; cbn [deref]; auto. intros T6 (HT6 & HvT6). cbn [deref] in HvT6. fold q in HvT6.
  runs_step mpi_add_mpi_spec; cbn [deref is_self andb]; auto. intros T7 (HT7 & HvT7 & HnT7).
  cbn [deref] in HvT7. apply runs_ret. split; [exact HT7|]. split; [lia|]. split.
  - rewrite HvT7, HvT6, HvT5, HvT4, HvT3, HvT1, HvT2, HvN. now apply crt_recombine.
  - exists (rsa_RN ctx), RP, RQ. auto.
Qed.

Lemma rsa_private_spec ctx input :
  private_key ctx -> mpi_wf (rsa_N ctx) -> cache_ok (rsa_N ctx) (Some (rsa_RN ctx)) ->
  rsa_len ctx = (bitlen (val (rsa_N ctx)) + 7) / 8 -> is_message ctx input ->
  runs NoFail (rsa_private hl ctx input)
    (operation_ok ctx input (fun m => m ^ val (rsa_D ctx) mod val (rsa_N ctx)))
    (operation_err ctx input).
Proof.
  intros Hk HN HRN Hlen Hm.
  assert (HvN : 0 < val (rsa_N ctx)) by (destruct Hk; rewrite sk_N0; nia).
  unfold rsa_private. apply read_input; auto. intros T HT HsT HnT HvT Hlt. apply runs_on_error_none.
  runs_step private_crt_spec; auto. intros [T' ctx'] (HT' & HnT' & HvT' & Hs).
  pose proof (Z.mod_pos_bound (be_value input ^ val (rsa_D ctx)) (val (rsa_N ctx)) HvN) as Hb.
  rewrite HvT in HvT'.
  assert (Hl' : rsa_len ctx' = rsa_len ctx) by (destruct Hs as (? & ? & ? & -> & _); reflexivity).
  rewrite Hl'. runs_step (write_below NoFail T' (rsa_N ctx) (rsa_len ctx)); auto; [now rewrite HvT'|].
  intros out (Hl & Hbo & Hvo). apply runs_ret. unfold operation_ok.
  split; [lia|]. split; [destruct Hm; congruence|]. split; [exact Hbo|]. split; [congruence|exact Hs].
Qed.

(** ** The two operations undo each other *)

Lemma exponents_cancel ctx e d m :
  private_key ctx -> 0 < e -> 0 < d ->
  e * d = val (rsa_E ctx) * val (rsa_D ctx) -> 0 <= m < val (rsa_N ctx) ->
  (m ^ e mod val (rsa_N ctx)) ^ d mod val (rsa_N ctx) = m.
Proof.
  intros [] He Hd Hed Hm. rewrite Z.mod_pow_l, <- Z.pow_mul_r by lia. rewrite sk_N0 in *.
  apply rsa_exp; auto; [nia|]. now rewrite Hed.
Qed.

(** Which exponent a mode uses. *)
Definition exponent ctx (mode : Z) : Z := if mode =? RSA_PUBLIC then val (rsa_E ctx) else val (rsa_D ctx).
Definition other_mode (mode : Z) : Z := if mode =? RSA_PUBLIC then RSA_PRIVATE else RSA_PUBLIC.

Lemma rsa_operation_spec ctx mode input :
  public_key ctx -> private_key ctx -> is_message ctx input ->
  runs NoFail (rsa_operation hl ctx mode input)
    (operation_ok ctx input (fun m => m ^ exponent ctx mode mod val (rsa_N ctx)))
    (operation_err ctx input).
Proof.
  intros Hpk Hsk Hm. unfold rsa_operation, exponent. destruct (mode =? RSA_PUBLIC).
  - destruct Hsk. now apply rsa_public_spec.
  - destruct Hpk. now apply rsa_private_spec.
Qed.

Lemma be_value_inj a b : Forall byte a -> Forall byte b -> length a = length b -> be_value a = be_value b -> a = b.
Proof.
  unfold be_value. intros Ha Hb Hl Hv. rewrite <- (rev_involutive a), <- (rev_involutive b). f_equal.
  apply Forall_rev in Ha, Hb. rewrite <- (length_rev a), <- (length_rev b) in Hl.
  revert Hb Hl Hv. generalize (rev b). induction Ha as [|x l Hx Hl IH]; intros [|y r] Hb Hlen Hv;
    try discriminate; [reflexivity|].
  inv Hb. cbn [le_value] in Hv. simpl in Hlen. unfold byte in *.
  assert (x = y) by lia. subst y. f_equal. apply IH; [assumption|lia|lia].
Qed.

(** What one operation leaves, the other one turns into the input again. *)
Lemma operation_undone ctx mode input :
  public_key ctx -> private_key ctx -> is_message ctx input -> be_value input < val (rsa_N ctx) ->
  runs NoFail (rsa_operation hl ctx mode input)
    (fun '(out, ctx') => same_key ctx ctx' /\ is_message ctx out /\
       runs NoFail (rsa_operation hl ctx' (other_mode mode) out)
         (fun '(out', ctx'') => out' = input /\ same_key ctx ctx'') no_err) no_err.
Proof.
  intros Hpk Hsk Hm Hlt. pose proof Hm as [Hb Hl].
  eapply runs_weaken; [apply rsa_operation_spec; auto| |intros e [_ He]; lia].
  intros [out ctx'] (_ & Hlo & Hbo & Hvo & Hs).
  split; [exact Hs|]. split; [split; [exact Hbo|congruence]|].
  pose proof (same_key_public _ _ Hpk Hs) as Hpk'. pose proof (same_key_private _ _ Hsk Hs) as Hsk'.
  assert (HN : val (rsa_N ctx') = val (rsa_N ctx) /\ exponent ctx' (other_mode mode) = exponent ctx (other_mode mode) /\
               rsa_len ctx' = rsa_len ctx).
  { destruct Hs as (? & ? & ? & -> & _). auto. }
  destruct HN as (HN & Hexp & Hlen').
  assert (Hpos : 0 < val (rsa_E ctx) /\ 0 < val (rsa_D ctx)) by (destruct Hpk, Hsk; auto).
  assert (Hval : be_value out ^ exponent ctx (other_mode mode) mod val (rsa_N ctx) = be_value input).
  { rewrite Hvo. pose proof (le_value_bounds (rev input) ltac:(now apply Forall_rev)) as Hbd.
    assert (H0 : 0 <= be_value input < val (rsa_N ctx)) by (unfold be_value in *; lia).
    destruct Hpos. unfold exponent, other_mode. destruct (mode =? RSA_PUBLIC).
    - change (RSA_PRIVATE =? RSA_PUBLIC) with false. cbv iota. now apply (exponents_cancel ctx).
    - change (RSA_PUBLIC =? RSA_PUBLIC) with true. cbv iota. apply (exponents_cancel ctx); auto. ring. }
  assert (Hout : be_value out < val (rsa_N ctx)).
  { rewrite Hvo. apply Z.mod_pos_bound. destruct Hpk. lia. }
  eapply runs_weaken; [apply rsa_operation_spec; auto; split; [exact Hbo|congruence]| |].
  - intros [out2 ctx2] (_ & Hl2 & Hb2 & Hv2 & Hs2). rewrite Hexp, HN, Hval in Hv2. split.
    + apply be_value_inj; auto. congruence.
    + destruct Hs as (? & ? & ? & -> & _), Hs2 as (RN & RP & RQ & -> & H1 & H2 & H3).
      exists RN, RP, RQ. auto.
  - intros e [_ He]. rewrite HN in He. lia.
Qed.

(** An operation, then the other one: the input comes back. *)
Lemma operations_cancel ctx mode input :
  public_key ctx -> private_key ctx -> is_message ctx input -> be_value input < val (rsa_N ctx) ->
  runs NoFail
    ('(out, ctx) <- rsa_operation hl ctx mode input;;
     rsa_operation hl ctx (other_mode mode) out)
    (fun '(out, ctx') => out = input /\ same_key ctx ctx') no_err.
Proof.
  intros. eapply runs_bind; [now apply operation_undone|]. intros [out ctx'] (_ & _ & H3). exact H3.
Qed.
End Keys.
