(* ===== verification/RsaPadding.v ===== *)
(** * RSA: PKCS#1 1.5 padding

    Encryption padding, signature blocks and their removal, and the
    compositions with the two operations of [RsaCorrect]. *)
From Stdlib Require Import ZArith List Lia Bool.
Import ListNotations.
From S2P Require Import Prelude CMonad Limbs Mpi MpiShift MpiExp MpiBin.
From S2P Require Import MpiDivCorrect Rsa RsaCorrect.
#[local] Open Scope Z_scope.
#[local] Open Scope cmonad_scope.

(** ** Padding and its removal *)

Definition pad_byte (more : Z -> bool) (b : Z) : Prop := b <> 0 /\ more b = true.

Lemma skip_padding_app more pad msg :
  Forall (pad_byte more) pad -> skip_padding more (pad ++ 0 :: msg) = ret msg.
Proof.
  induction 1 as [|b pad [Hb Hm] H IH]; cbn [skip_padding app]; [reflexivity|].
  case_bool (b =? 0); [contradiction|]. rewrite Hm. cbn [negb].
  case_bool (length (pad ++ 0%Z :: msg) =? 0)%nat; [|exact IH].
  rewrite length_app in *. cbn [length] in *. lia.
Qed.

Lemma unpad_block t more pad msg :
  Forall (pad_byte more) pad -> unpad t more ([0; t] ++ pad ++ [0] ++ msg) = ret msg.
Proof.
  intros H. cbn [unpad app]. rewrite !Z.eqb_refl. cbn [negb orb]. now apply skip_padding_app.
Qed.

(** The removal of the padding accepts the padded blocks and nothing else; it
    stays inside the block. *)
Lemma unpad_spec d t more buf :
  (2 < length buf)%nat ->
  runs d (unpad t more buf)
    (fun msg => exists pad, buf = [0; t] ++ pad ++ [0] ++ msg /\ Forall (pad_byte more) pad)
    (fun e => e = POLARSSL_ERR_RSA_INVALID_PADDING /\
       forall pad msg, Forall (pad_byte more) pad -> buf <> [0; t] ++ pad ++ [0] ++ msg).
Proof.
  intros Hl. destruct buf as [|b0 [|b1 p]]; [simpl in Hl; lia..|]. cbn [unpad].
  assert (Hp : p <> []) by (destruct p; [simpl in Hl; lia|discriminate]).
  case_bool (b0 =? 0); cbn [negb orb].
  2: { apply runs_throw. split; [reflexivity|]. intros pad msg _ [=]. congruence. }
  case_bool (b1 =? t); cbn [negb orb].
  2: { apply runs_throw. split; [reflexivity|]. intros pad msg _ [=]. congruence. }
  subst b0 b1.
  assert (H : runs d (skip_padding more p)
    (fun msg => exists pad, p = pad ++ [0] ++ msg /\ Forall (pad_byte more) pad)
    (fun e => e = POLARSSL_ERR_RSA_INVALID_PADDING /\
       forall pad msg, Forall (pad_byte more) pad -> p <> pad ++ [0] ++ msg)).
  { clear Hl. induction p as [|b p IH]; [contradiction|]. cbn [skip_padding].
    case_bool (b =? 0).
    { apply runs_ret. exists []. subst b. split; [reflexivity|constructor]. }
    assert (Hno : forall pad msg, Forall (pad_byte more) pad -> b :: p = pad ++ [0] ++ msg ->
                  more b = true /\ exists pad', Forall (pad_byte more) pad' /\ p = pad' ++ [0] ++ msg).
    { intros pad msg Hpad Heq. destruct pad as [|b' pad]; cbn [app] in Heq; [congruence|].
      injection Heq as <- ->. inv Hpad. split; [apply H1|]. exists pad. auto. }
    case_bool (length p =? 0)%nat; cbn [orb].
    { apply runs_throw. split; [reflexivity|]. intros pad msg Hpad Heq.
      destruct (Hno pad msg Hpad Heq) as (_ & pad' & _ & Hp'). apply length_zero_iff_nil in E0. subst p.
      now apply app_cons_not_nil in Hp'. }
    destruct (more b) eqn:Em; cbn [negb].
    - eapply runs_weaken; [apply IH; intros ->; now apply E0| |].
      + intros msg (pad & -> & Hpad). exists (b :: pad). split; [reflexivity|]. constructor; [split; auto|exact Hpad].
      + intros e [He Hall]. split; [exact He|]. intros pad msg Hpad Heq.
        destruct (Hno pad msg Hpad Heq) as (_ & pad' & Hpad' & Hp'). now apply (Hall pad' msg).
    - apply runs_throw. split; [reflexivity|]. intros pad msg Hpad Heq.
      destruct (Hno pad msg Hpad Heq) as [Hm _]. congruence. }
  eapply runs_weaken; [exact H| |].
  - intros msg (pad & -> & Hpad). exists pad. auto.
  - intros e [He Hall]. split; [exact He|]. intros pad msg Hpad [= Heq]. now apply (Hall pad msg).
Qed.

(** The answers of [rand] that the padding loop keeps. *)
Definition usable (rand : list Z) : nat := length (filter (fun r => negb (u8 r =? 0)) rand).

Lemma nonzero_byte_spec d rand E :
  (0 < usable rand)%nat ->
  runs d (nonzero_byte rand)
    (fun '(b, rand') => byte b /\ b <> 0 /\ usable rand = S (usable rand')) E.
Proof.
  unfold usable. induction rand as [|r rand IH]; cbn [nonzero_byte filter length]; [lia|]. intros H.
  case_bool (u8 r =? 0); cbn [negb] in *.
  - now apply IH.
  - apply runs_ret. split; [apply Z.mod_pos_bound; lia|]. auto.
Qed.

Lemma pad_bytes_spec d n rand E :
  (n <= usable rand)%nat ->
  runs d (pad_bytes n rand)
    (fun '(l, _) => length l = n /\ Forall byte l /\ Forall (fun b => b <> 0) l) E.
Proof.
  revert rand. induction n as [|n IH]; intros rand H; cbn [pad_bytes]; [apply runs_ret; auto|].
  runs_step nonzero_byte_spec; [lia|]. intros [b rand'] (Hb & Hnz & Hu).
  runs_step IH; [lia|]. intros [l rand2] (Hl & H1 & H2). apply runs_ret. simpl. auto.
Qed.

(** ** Blocks are messages *)

Lemma be_value_lead0 l : be_value (0 :: l) = be_value l.
Proof. unfold be_value. cbn [rev]. rewrite le_value_app. cbn [le_value]. lia. Qed.

(** A block of the length of the modulus with a leading zero byte is below
    the modulus. *)
Lemma block_below v len l :
  1 < v -> len = (bitlen v + 7) / 8 -> Forall byte l -> length (0 :: l) = Z.to_nat len ->
  be_value (0 :: l) < v.
Proof.
  intros Hv Hlen Hb Hl. rewrite be_value_lead0. pose proof (bitlen_spec v ltac:(lia)) as [H1 _].
  assert (H0 : 1 <= bitlen v).
  { unfold bitlen. case_bool (v =? 0); [lia|]. pose proof (Z.log2_nonneg v). lia. }
  pose proof (le_value_bounds (rev l) ltac:(now apply Forall_rev)) as Hbd. rewrite length_rev in Hbd.
  unfold be_value. eapply Z.lt_le_trans; [apply Hbd|]. eapply Z.le_trans; [|exact H1].
  rewrite p256_pow2. apply Z.pow_le_mono_r; [lia|]. cbn [length] in Hl. dlia.
Qed.

Lemma Forall_byte_const b n : 0 <= b < 256 -> Forall byte (repeat b n).
Proof. intros. now apply Forall_repeat. Qed.

Section Compose.
Context (hl : bool) {RNG : Type}.
Implicit Type ctx : rsa_context RNG.

(** A key both operations can use, with this padding and a modulus of a size
    that [rsa_pkcs1_decrypt] and [rsa_pkcs1_verify] take. *)
Record pkcs1_key ctx : Prop := Pkcs1Key
  { pc_public : public_key hl ctx; pc_private : private_key hl ctx;
    pc_padding : rsa_padding ctx = RSA_PKCS_V15; pc_len : 16 <= rsa_len ctx <= 1024 }.

Lemma same_key_fields ctx ctx' : same_key ctx ctx' ->
  rsa_len ctx' = rsa_len ctx /\ rsa_padding ctx' = rsa_padding ctx.
Proof. intros (? & ? & ? & -> & _). auto. Qed.

(** An operation on a block, undone by the other one. *)
Lemma block_undone ctx mode t pad msg :
  pkcs1_key ctx -> byte t -> Forall byte pad -> Forall byte msg ->
  Z.of_nat (length pad + length msg) = rsa_len ctx - 3 ->
  let blk := [0; t] ++ pad ++ [0] ++ msg in
  runs NoFail (rsa_operation hl ctx mode blk)
    (fun '(out, ctx') => same_key ctx ctx' /\ is_message ctx out /\
       runs NoFail (rsa_operation hl ctx' (other_mode mode) out)
         (fun '(out', ctx'') => out' = blk /\ same_key ctx ctx'') no_err) no_err.
Proof.
  intros [Hpk Hsk Hpad Hlen] Ht Hbp Hbm Hl blk.
  assert (Hb : Forall byte blk).
  { unfold blk. assert (H0 : byte 0) by (split; lia). cbn [app]. repeat (constructor; [assumption|]).
    apply Forall_app_i; [exact Hbp|]. now constructor. }
  assert (Hlb : length blk = Z.to_nat (rsa_len ctx)) by (unfold blk; rewrite !length_app; cbn [length]; lia).
  apply operation_undone; auto; [split; auto|].
  apply (block_below _ (rsa_len ctx)); [apply Hpk|apply Hpk| |exact Hlb]. now inv Hb.
Qed.

(** ** Encryption *)

Lemma pkcs1_encrypt_decrypt ctx mode ilen input rand max :
  pkcs1_key ctx -> 0 <= ilen <= Z.of_nat (length input) -> ilen + 11 <= rsa_len ctx ->
  Forall byte input -> (Z.to_nat (rsa_len ctx - 3 - ilen) <= usable rand)%nat -> ilen <= max ->
  runs NoFail
    ('(out, ctx, _) <- rsa_pkcs1_encrypt hl ctx mode ilen input rand;;
     rsa_pkcs1_decrypt hl ctx (other_mode mode) out max)
    (fun '(msg, ctx') => msg = firstn (Z.to_nat ilen) input /\ same_key ctx ctx') no_err.
Proof.
  intros Hk Hi Hl Hb Hu Hmax. pose proof Hk as [Hpk Hsk Hpad Hlen]. unfold rsa_pkcs1_encrypt.
  rewrite Hpad, Z.eqb_refl. case_bool (ilen <? 0); [lia|]. case_bool (rsa_len ctx <? ilen + 11); [lia|].
  cbn [orb].
  eapply runs_bind with (Q := fun '(out, ctx', _) => same_key ctx ctx' /\
       runs NoFail (rsa_operation hl ctx' (other_mode mode) out)
         (fun '(out', ctx'') => (exists pad, out' = [0; RSA_CRYPT] ++ pad ++ [0] ++ firstn (Z.to_nat ilen) input /\
              Forall (pad_byte (fun _ => true)) pad) /\ same_key ctx ctx'') no_err).
  - eapply runs_bind; [now apply pad_bytes_spec|]. intros [pad rand'] (Hlp & Hbp & Hnz).
    rewrite take_bytes_firstn, bind_ret by lia.
    eapply runs_bind.
    + apply (block_undone ctx mode RSA_CRYPT pad (firstn (Z.to_nat ilen) input)); auto with limbs.
      * unfold byte, RSA_CRYPT; lia.
      * rewrite length_firstn. lia.
    + intros [out ctx'] (Hs & _ & Hr). apply runs_ret. split; [exact Hs|].
      eapply runs_post; [exact Hr|]. intros [out' ctx''] [-> Hs']. split; [|exact Hs'].
      exists pad. split; [reflexivity|]. eapply Forall_impl; [|exact Hnz]. intros b Hbn. split; auto.
  - intros [[out ctx'] rand'] [Hs Hr]. destruct (same_key_fields _ _ Hs) as [El Ep].
    unfold rsa_pkcs1_decrypt. rewrite El.
    case_bool (rsa_len ctx <? 16); [lia|]. case_bool (1024 <? rsa_len ctx); [lia|]. cbn [orb].
    eapply runs_bind; [exact Hr|]. intros [buf ctx''] [(pad & -> & Hp) Hs''].
    rewrite (proj2 (same_key_fields _ _ Hs'')), Hpad, Z.eqb_refl, unpad_block by exact Hp.
    rewrite bind_ret. rewrite length_firstn.
    case_bool (max <? Z.of_nat (Nat.min (Z.to_nat ilen) (length input))); [lia|]. now apply runs_ret.
Qed.

(** ** Signatures *)

(** The hash has the length its kind prescribes.  Raw data of 34 bytes is left
    out: the verification takes it for a digest with a header. *)
Definition hash_ok (hash_id hashlen : Z) (hash : list Z) : Prop :=
  (hash_id = SIG_RSA_RAW /\ hashlen = Z.of_nat (length hash) /\ hashlen <> 34) \/
  ((hash_id = SIG_RSA_MD2 \/ hash_id = SIG_RSA_MD4 \/ hash_id = SIG_RSA_MD5) /\ length hash = 16%nat) \/
  (hash_id = SIG_RSA_SHA1 /\ length hash = 20%nat) \/
  (hash_id = SIG_RSA_SHA224 /\ length hash = 28%nat) \/
  (hash_id = SIG_RSA_SHA256 /\ length hash = 32%nat) \/
  (hash_id = SIG_RSA_SHA384 /\ length hash = 48%nat) \/
  (hash_id = SIG_RSA_SHA512 /\ length hash = 64%nat).

Lemma memcmp_eq_same a b n :
  (n <= length a)%nat -> (n <= length b)%nat -> firstn n a = firstn n b -> memcmp_eq a b n = ret true.
Proof.
  intros Ha Hb He. unfold memcmp_eq. rewrite !take_bytes_firstn, !bind_ret by assumption. rewrite He.
  now destruct (list_eq_dec Z.eq_dec (firstn n b) (firstn n b)).
Qed.

Lemma memcmp_eq_full a : memcmp_eq a a (length a) = ret true.
Proof. now apply memcmp_eq_same. Qed.

Lemma check_mdx alg hash_id hashlen hash :
  In (alg, hash_id) [(2, SIG_RSA_MD2); (4, SIG_RSA_MD4); (5, SIG_RSA_MD5)] -> length hash = 16%nat ->
  check_digest hash_id hashlen hash (upd_list (ASN1_HASH_MDX ++ hash) 13 alg) = ret tt.
Proof.
  intros Hin Hl. unfold check_digest.
  assert (Hlen : Z.of_nat (length (upd_list (ASN1_HASH_MDX ++ hash) 13 alg)) = 34)
    by (rewrite length_upd_list, length_app, Hl; reflexivity).
  rewrite Hlen. change (34 =? 34) with true. cbv iota.
  change (nth 13 (upd_list (ASN1_HASH_MDX ++ hash) 13 alg) 0) with alg.
  change (upd_list (upd_list (ASN1_HASH_MDX ++ hash) 13 alg) 13 0) with (ASN1_HASH_MDX ++ hash).
  rewrite (memcmp_eq_same (ASN1_HASH_MDX ++ hash) ASN1_HASH_MDX 18)
    by (try reflexivity; rewrite ?length_app; simpl; lia).
  rewrite bind_ret. cbn [negb]. change (skipn 18 (ASN1_HASH_MDX ++ hash)) with hash.
  replace 16%nat with (length hash). rewrite memcmp_eq_full.
  cbn [In] in Hin. destruct Hin as [[= <- <-]|[[= <- <-]|[[= <- <-]|[]]]]; reflexivity.
Qed.

Lemma check_sha1 hashlen hash :
  length hash = 20%nat -> check_digest SIG_RSA_SHA1 hashlen hash (ASN1_HASH_SHA1 ++ hash) = ret tt.
Proof.
  intros Hl. unfold check_digest.
  assert (Hlen : Z.of_nat (length (ASN1_HASH_SHA1 ++ hash)) = 35) by (rewrite length_app, Hl; reflexivity).
  rewrite Hlen. change (35 =? 34) with false. cbv iota. rewrite bind_ret.
  change ((35 =? 35) && (SIG_RSA_SHA1 =? SIG_RSA_SHA1)) with true. cbv iota. unfold and_then.
  rewrite (memcmp_eq_same (ASN1_HASH_SHA1 ++ hash) ASN1_HASH_SHA1 15)
    by (try reflexivity; rewrite ?length_app; simpl; lia).
  rewrite bind_ret. change (skipn 15 (ASN1_HASH_SHA1 ++ hash)) with hash.
  replace 20%nat with (length hash). now rewrite memcmp_eq_full.
Qed.

(** The header of a SHA-2 digest of [len] bytes. *)
Definition sha2_bytes (len : nat) (alg : Z) (hash : list Z) : list Z :=
  add8 (upd_list (add8 (ASN1_HASH_SHA2X ++ hash) 1 (Z.of_nat len)) 14 alg) 18 (Z.of_nat len).

Lemma check_sha2 len alg hash_id hashlen hash :
  In (len, alg, hash_id)
    [(28%nat, 4, SIG_RSA_SHA224); (32%nat, 1, SIG_RSA_SHA256); (48%nat, 2, SIG_RSA_SHA384);
     (64%nat, 3, SIG_RSA_SHA512)] -> length hash = len ->
  check_digest hash_id hashlen hash (sha2_bytes len alg hash) = ret tt.
Proof.
  intros Hin Hl. unfold check_digest.
  assert (Hlen : Z.of_nat (length (sha2_bytes len alg hash)) = 19 + Z.of_nat len).
  { unfold sha2_bytes, add8. rewrite !length_upd_list, length_app, Hl, Nat2Z.inj_add. reflexivity. }
  rewrite Hlen.
  assert (H34 : (19 + Z.of_nat len =? 34) = false /\
                ((19 + Z.of_nat len =? 35) && (hash_id =? SIG_RSA_SHA1)) = false /\
                ((19 + Z.of_nat len =? 19 + 28) && (alg =? 4) && (hash_id =? SIG_RSA_SHA224)
                 || (19 + Z.of_nat len =? 19 + 32) && (alg =? 1) && (hash_id =? SIG_RSA_SHA256)
                 || (19 + Z.of_nat len =? 19 + 48) && (alg =? 2) && (hash_id =? SIG_RSA_SHA384)
                 || (19 + Z.of_nat len =? 19 + 64) && (alg =? 3) && (hash_id =? SIG_RSA_SHA512)) = true /\
                u8 (0x11 + Z.of_nat len) = 0x11 + Z.of_nat len /\ u8 (0 + Z.of_nat len) = Z.of_nat len /\
                u8 (0x11 + Z.of_nat len - 17) = Z.of_nat len).
  { cbn [In] in Hin. destruct Hin as [[= <- <- <-]|[[= <- <- <-]|[[= <- <- <-]|[[= <- <- <-]|[]]]]];
      repeat split; reflexivity. }
  destruct H34 as (H1 & H2 & H3 & H4 & H5 & H6). rewrite H1, H2. cbv iota. rewrite bind_ret.
  change (nth 14 (sha2_bytes len alg hash) 0) with alg. rewrite H3. cbv iota.
  change (nth 1 (sha2_bytes len alg hash) 0) with (u8 (0x11 + Z.of_nat len)). rewrite H4, H6.
  change (upd_list (upd_list (sha2_bytes len alg hash) 1 17) 14 0)
    with (firstn 18 ASN1_HASH_SHA2X ++ u8 (0 + Z.of_nat len) :: hash). rewrite H5.
  change (nth 18 (firstn 18 ASN1_HASH_SHA2X ++ Z.of_nat len :: hash) 0) with (Z.of_nat len).
  rewrite Z.eqb_refl. unfold and_then. rewrite bind_ret.
  rewrite (memcmp_eq_same _ ASN1_HASH_SHA2X 18)
    by (try reflexivity; rewrite ?length_app; simpl; lia).
  rewrite bind_ret.
  change (skipn 19 (firstn 18 ASN1_HASH_SHA2X ++ Z.of_nat len :: hash)) with hash.
  rewrite Nat2Z.id, <- Hl, memcmp_eq_full. reflexivity.
Qed.

Lemma byte_upd l i x : Forall byte l -> byte x -> Forall byte (upd_list l i x).
Proof. apply Forall_upd_list. Qed.

Lemma bytes_dec l : forallb (fun b => (0 <=? b) && (b <? 256)) l = true -> Forall byte l.
Proof.
  intros H. apply Forall_forall. intros b Hb. rewrite forallb_forall in H. specialize (H b Hb).
  apply andb_prop in H as [H1 H2]. apply Z.leb_le in H1. apply Z.ltb_lt in H2. split; auto.
Qed.

Lemma u8_byte x : byte (u8 x).
Proof. apply Z.mod_pos_bound. lia. Qed.

(** The bytes a signature carries, and that the verification accepts them. *)
Lemma digest_checks hash_id hashlen hash :
  hash_ok hash_id hashlen hash -> Forall byte hash ->
  exists p dlen, digest_bytes hash_id hashlen hash = ret p /\ digest_len hash_id hashlen = Some dlen /\
    Z.of_nat (length p) = dlen /\ Forall byte p /\ check_digest hash_id hashlen hash p = ret tt.
Proof.
  intros Hh Hb.
  assert (Hmd : forall alg id, In (alg, id) [(2, SIG_RSA_MD2); (4, SIG_RSA_MD4); (5, SIG_RSA_MD5)] ->
    hash_id = id -> length hash = 16%nat -> byte alg -> digest_bytes id hashlen hash = digest_mdx alg hash ->
    digest_len id hashlen = Some 34 ->
    exists p dlen, digest_bytes hash_id hashlen hash = ret p /\ digest_len hash_id hashlen = Some dlen /\
      Z.of_nat (length p) = dlen /\ Forall byte p /\ check_digest hash_id hashlen hash p = ret tt).
  { intros alg id Hin -> Hl Ha Hd Hdl. exists (upd_list (ASN1_HASH_MDX ++ hash) 13 alg), 34.
    split; [rewrite Hd; unfold digest_mdx; now rewrite take_bytes_firstn, bind_ret, firstn_all2 by lia|].
    split; [exact Hdl|]. split; [rewrite length_upd_list, length_app, Hl; reflexivity|].
    split; [|now apply check_mdx]. apply byte_upd; [|exact Ha].
    apply Forall_app_i; [now apply bytes_dec|exact Hb]. }
  assert (Hsha : forall len alg id, In (len, alg, id)
      [(28%nat, 4, SIG_RSA_SHA224); (32%nat, 1, SIG_RSA_SHA256); (48%nat, 2, SIG_RSA_SHA384);
       (64%nat, 3, SIG_RSA_SHA512)] ->
    hash_id = id -> length hash = len -> byte alg -> digest_bytes id hashlen hash = digest_sha2 len alg hash ->
    digest_len id hashlen = Some (19 + Z.of_nat len) ->
    exists p dlen, digest_bytes hash_id hashlen hash = ret p /\ digest_len hash_id hashlen = Some dlen /\
      Z.of_nat (length p) = dlen /\ Forall byte p /\ check_digest hash_id hashlen hash p = ret tt).
  { intros len alg id Hin -> Hl Ha Hd Hdl. exists (sha2_bytes len alg hash), (19 + Z.of_nat len).
    split; [rewrite Hd; unfold digest_sha2; now rewrite take_bytes_firstn, bind_ret, firstn_all2 by lia|].
    split; [exact Hdl|].
    split; [unfold sha2_bytes, add8; rewrite !length_upd_list, length_app, Hl, Nat2Z.inj_add; reflexivity|].
    split; [|now apply check_sha2]. unfold sha2_bytes, add8.
    repeat apply byte_upd; auto using u8_byte. apply Forall_app_i; [now apply bytes_dec|exact Hb]. }
  assert (Hbs : byte 1 /\ byte 2 /\ byte 3 /\ byte 4 /\ byte 5) by (unfold byte; lia).
  destruct Hbs as (B1 & B2 & B3 & B4 & B5).
  destruct Hh as [(E & El & Hne)|[([E|[E|E]] & El)|[(E & El)|[(E & El)|[(E & El)|[(E & El)|(E & El)]]]]]].
  - subst hash_id. exists hash, hashlen. split; [|split; [reflexivity|split; [now symmetry|split; [exact Hb|]]]].
    + unfold digest_bytes. change (SIG_RSA_RAW =? SIG_RSA_RAW) with true. cbv iota.
      case_bool (hashlen <? 0); [lia|]. rewrite take_bytes_firstn by lia. now rewrite firstn_all2 by lia.
    + unfold check_digest. rewrite <- El. case_bool (hashlen =? 34); [contradiction|]. rewrite bind_ret.
      rewrite !andb_false_r. cbn [orb]. rewrite Z.eqb_refl. cbn [andb].
      change (SIG_RSA_RAW =? SIG_RSA_RAW) with true. cbv iota. rewrite El, Nat2Z.id, memcmp_eq_full. reflexivity.
  - apply (Hmd 2 SIG_RSA_MD2); auto; cbn [In]; auto.
  - apply (Hmd 4 SIG_RSA_MD4); auto; cbn [In]; auto.
  - apply (Hmd 5 SIG_RSA_MD5); auto; cbn [In]; auto.
  - subst hash_id. exists (ASN1_HASH_SHA1 ++ hash), 35.
    assert (Hd : digest_bytes SIG_RSA_SHA1 hashlen hash = (h <- take_bytes 20 hash;; ret (ASN1_HASH_SHA1 ++ h)))
      by reflexivity.
    split; [rewrite Hd, take_bytes_firstn, bind_ret, firstn_all2 by lia; reflexivity|].
    split; [reflexivity|]. split; [rewrite length_app, El; reflexivity|].
    split; [apply Forall_app_i; [now apply bytes_dec|exact Hb]|now apply check_sha1].
  - apply (Hsha 28%nat 4 SIG_RSA_SHA224); auto; cbn [In]; auto.
  - apply (Hsha 32%nat 1 SIG_RSA_SHA256); auto; cbn [In]; auto.
  - apply (Hsha 48%nat 2 SIG_RSA_SHA384); auto; cbn [In]; auto.
  - apply (Hsha 64%nat 3 SIG_RSA_SHA512); auto; cbn [In]; auto 6.
Qed.

Lemma memcmp_eq_value a b n :
  (n <= length a)%nat -> (n <= length b)%nat ->
  memcmp_eq a b n = ret (if list_eq_dec Z.eq_dec (firstn n a) (firstn n b) then true else false).
Proof. intros Ha Hb. unfold memcmp_eq. now rewrite !take_bytes_firstn, !bind_ret by assumption. Qed.

(** The answers of the verification for a signature whose block does not
    carry the hash. *)
Definition refused (e : Z) : Prop :=
  e = POLARSSL_ERR_RSA_VERIFY_FAILED \/ e = POLARSSL_ERR_RSA_INVALID_PADDING.

Lemma upd_list_same l i x : nth i l 0 = x -> upd_list l i x = l.
Proof.
  revert i. induction l as [|y l IH]; intros [|i] H; cbn [upd_list nth] in *; try reflexivity.
  - now subst.
  - f_equal. now apply IH.
Qed.

Lemma upd_list_twice l i x y : upd_list (upd_list l i x) i y = upd_list l i y.
Proof.
  revert i. induction l as [|z l IH]; intros [|i]; cbn [upd_list]; try reflexivity. now rewrite IH.
Qed.

Ltac closed_ids :=
  unfold SIG_RSA_RAW, SIG_RSA_MD2, SIG_RSA_MD4, SIG_RSA_MD5, SIG_RSA_SHA1, SIG_RSA_SHA224,
    SIG_RSA_SHA256, SIG_RSA_SHA384, SIG_RSA_SHA512 in *; cbn [Z.eqb Pos.eqb] in *;
  rewrite ?andb_false_r, ?andb_true_r, ?orb_false_r; cbn [orb andb].

(** A block that passes the first comparison carries an MD header. *)
Lemma mdx_header p :
  length p = 34%nat -> firstn 18 (upd_list p 13 0) = firstn 18 ASN1_HASH_MDX ->
  p = upd_list (ASN1_HASH_MDX ++ skipn 18 (upd_list p 13 0)) 13 (nth 13 p 0).
Proof.
  intros Hl He. change ASN1_HASH_MDX with (firstn 18 ASN1_HASH_MDX) at 1.
  rewrite <- He, firstn_skipn, upd_list_twice. symmetry. now apply upd_list_same.
Qed.

Lemma sound_mdx d alg hash_id hashlen hash p :
  In (alg, hash_id) [(2, SIG_RSA_MD2); (4, SIG_RSA_MD4); (5, SIG_RSA_MD5)] -> length hash = 16%nat ->
  runs d (check_digest hash_id hashlen hash p) (fun _ => digest_mdx alg hash = ret p) refused.
Proof.
  intros Hin Hl. unfold check_digest. set (len := Z.of_nat (length p)).
  assert (Hc : forall c, ((c =? 2) && (hash_id =? SIG_RSA_MD2) || (c =? 4) && (hash_id =? SIG_RSA_MD4)
                 || (c =? 5) && (hash_id =? SIG_RSA_MD5)) = (c =? alg) /\ (hash_id =? SIG_RSA_SHA1) = false /\
                 (hash_id =? SIG_RSA_SHA224) = false /\ (hash_id =? SIG_RSA_SHA256) = false /\
                 (hash_id =? SIG_RSA_SHA384) = false /\ (hash_id =? SIG_RSA_SHA512) = false /\
                 (hash_id =? SIG_RSA_RAW) = false).
  { intros c. cbn [In] in Hin. destruct Hin as [[= <- <-]|[[= <- <-]|[[= <- <-]|[]]]]; closed_ids; auto 8. }
  destruct (Hc (nth 13 p 0)) as (H0 & H1 & H2 & H3 & H4 & H5 & H6). rewrite H0, H1, H2, H3, H4, H5, H6.
  rewrite !andb_false_r. cbn [orb].
  case_bool (len =? 34); [|rewrite bind_ret; apply runs_throw; now right].
  rewrite memcmp_eq_value by (rewrite ?length_upd_list; simpl; lia). rewrite bind_ret.
  destruct (list_eq_dec Z.eq_dec (firstn 18 (upd_list p 13 0)) (firstn 18 ASN1_HASH_MDX)) as [He|He]; cbn [negb];
    [|apply runs_throw; now left].
  rewrite bind_ret. pose proof (mdx_header p ltac:(lia) He) as Hp.
  case_bool (nth 13 p 0 =? alg); [|apply runs_throw; now right].
  set (h := skipn 18 (upd_list p 13 0)) in *.
  assert (Hlh : length h = 16%nat) by (unfold h; rewrite length_skipn, length_upd_list; lia).
  rewrite memcmp_eq_value, bind_ret, !firstn_all2 by lia.
  destruct (list_eq_dec Z.eq_dec h hash) as [Hh|Hh]; [|apply runs_throw; now left].
  apply runs_ret. unfold digest_mdx. rewrite take_bytes_firstn, bind_ret, firstn_all2 by lia.
  rewrite Hp, E0, Hh. reflexivity.
Qed.

Lemma sound_sha1 d hashlen hash p :
  length hash = 20%nat ->
  runs d (check_digest SIG_RSA_SHA1 hashlen hash p) (fun _ => p = ASN1_HASH_SHA1 ++ hash) refused.
Proof.
  intros Hl. unfold check_digest. set (len := Z.of_nat (length p)). closed_ids.
  case_bool (len =? 34).
  { rewrite memcmp_eq_value by (rewrite ?length_upd_list; simpl; lia). rewrite bind_ret.
    destruct (list_eq_dec Z.eq_dec _ _); cbn [negb]; [|apply runs_throw; now left].
    rewrite bind_ret. case_bool (len =? 35); [lia|]. apply runs_throw. now right. }
  rewrite bind_ret. case_bool (len =? 35); [|apply runs_throw; now right].
  unfold and_then. rewrite memcmp_eq_value by (simpl; lia). rewrite bind_ret.
  destruct (list_eq_dec Z.eq_dec (firstn 15 p) (firstn 15 ASN1_HASH_SHA1)) as [He|He];
    [|apply runs_throw; now left].
  rewrite memcmp_eq_value by (rewrite ?length_skipn; lia). rewrite bind_ret.
  rewrite !firstn_all2 by (rewrite ?length_skipn; lia).
  destruct (list_eq_dec Z.eq_dec (skipn 15 p) hash) as [Hh|Hh]; [|apply runs_throw; now left].
  apply runs_ret. rewrite <- (firstn_skipn 15 p), He, Hh. reflexivity.
Qed.

Lemma sound_raw d hash p :
  Z.of_nat (length hash) <> 34 ->
  runs d (check_digest SIG_RSA_RAW (Z.of_nat (length hash)) hash p) (fun _ => p = hash) refused.
Proof.
  intros Hl. unfold check_digest. set (len := Z.of_nat (length p)). closed_ids.
  case_bool (len =? 34).
  { rewrite memcmp_eq_value by (rewrite ?length_upd_list; simpl; lia). rewrite bind_ret.
    destruct (list_eq_dec Z.eq_dec _ _); cbn [negb]; [|apply runs_throw; now left].
    rewrite bind_ret. case_bool (len =? Z.of_nat (length hash)); [lia|]. apply runs_throw. now right. }
  rewrite bind_ret. case_bool (len =? Z.of_nat (length hash)); [|apply runs_throw; now right].
  rewrite memcmp_eq_value, bind_ret, !firstn_all2 by lia.
  destruct (list_eq_dec Z.eq_dec p hash) as [Hh|Hh]; [now apply runs_ret|apply runs_throw; now left].
Qed.

(** Without the SHA-2 hashes the verification accepts the digest of the hash
    only, and answers every block of bytes. *)
Lemma check_digest_sound d hash_id hashlen hash p :
  hash_ok hash_id hashlen hash ->
  In hash_id [SIG_RSA_RAW; SIG_RSA_MD2; SIG_RSA_MD4; SIG_RSA_MD5; SIG_RSA_SHA1] ->
  runs d (check_digest hash_id hashlen hash p) (fun _ => digest_bytes hash_id hashlen hash = ret p) refused.
Proof.
  intros Hh Hin.
  destruct Hh as [(-> & -> & Hne)|[([-> | [-> | -> ]] & El)|[(-> & El)|Hbad]]].
  - eapply runs_post; [now apply sound_raw|]. intros _ ->. unfold digest_bytes.
    change (SIG_RSA_RAW =? SIG_RSA_RAW) with true. cbv iota.
    case_bool (Z.of_nat (length hash) <? 0); [lia|]. rewrite Nat2Z.id, take_bytes_firstn by lia. now rewrite firstn_all.
  - apply (sound_mdx d 2); [cbn [In]; auto|exact El].
  - apply (sound_mdx d 4); [cbn [In]; auto|exact El].
  - apply (sound_mdx d 5); [cbn [In]; auto|exact El].
  - eapply runs_post; [now apply sound_sha1|]. intros _ ->.
    change (digest_bytes SIG_RSA_SHA1 hashlen hash) with (h <- take_bytes 20 hash;; ret (ASN1_HASH_SHA1 ++ h)).
    now rewrite take_bytes_firstn, bind_ret, firstn_all2 by lia.
  - exfalso. destruct Hbad as [[-> _] | [[-> _] | [[-> _] | [-> _] ]]]; vm_compute in Hin; intuition discriminate.
Qed.

(** *** Signing and verifying *)

(** The verification of a signature whose block is known. *)
Lemma verify_block ctx mode hash_id hashlen hash sig pad p Q E :
  pkcs1_key ctx ->
  runs NoFail (rsa_operation hl ctx mode sig)
    (fun '(out, ctx') => out = [0; RSA_SIGN] ++ pad ++ [0] ++ p /\ Q ctx') E ->
  Forall (pad_byte (Z.eqb 0xFF)) pad -> (forall ctx', Q ctx' -> rsa_padding ctx' = RSA_PKCS_V15) ->
  check_digest hash_id hashlen hash p = ret tt ->
  runs NoFail (rsa_pkcs1_verify hl ctx mode hash_id hashlen hash sig) Q E.
Proof.
  intros [_ _ _ Hlen] Hop Hpad HQ Hcd. unfold rsa_pkcs1_verify.
  case_bool (rsa_len ctx <? 16); [lia|]. case_bool (1024 <? rsa_len ctx); [lia|]. cbn [orb].
  eapply runs_bind; [exact Hop|]. intros [buf ctx'] [-> HQ']. rewrite (HQ ctx' HQ'), Z.eqb_refl.
  rewrite unpad_block, bind_ret, Hcd, bind_ret by exact Hpad. now apply runs_ret.
Qed.

Lemma ff_padding n : Forall (pad_byte (Z.eqb 0xFF)) (repeat 0xFF n) /\ Forall byte (repeat 0xFF n).
Proof. split; apply Forall_repeat; [split; [discriminate|reflexivity]|unfold byte; lia]. Qed.

Lemma pkcs1_sign_verify ctx mode hash_id hashlen hash dlen :
  pkcs1_key ctx -> hash_ok hash_id hashlen hash -> Forall byte hash ->
  digest_len hash_id hashlen = Some dlen -> dlen + 11 <= rsa_len ctx ->
  runs NoFail
    ('(sig, ctx) <- rsa_pkcs1_sign hl ctx mode hash_id hashlen hash;;
     rsa_pkcs1_verify hl ctx (other_mode mode) hash_id hashlen hash sig)
    (fun ctx' => same_key ctx ctx') no_err.
Proof.
  intros Hk Hh Hb Hdl Hlen. pose proof Hk as [Hpk Hsk Hpad Hl]. unfold rsa_pkcs1_sign.
  rewrite Hpad, Z.eqb_refl, Hdl. case_bool (rsa_len ctx - 3 - dlen <? 8); [lia|].
  destruct (digest_checks hash_id hashlen hash Hh Hb) as (p & dlen' & Hd & Hdl' & Hlp & Hbp & Hcd).
  assert (dlen' = dlen) by congruence. subst dlen'. rewrite Hd, bind_ret.
  destruct (ff_padding (Z.to_nat (rsa_len ctx - 3 - dlen))) as [Hff Hbff].
  eapply runs_bind.
  - apply (block_undone ctx mode RSA_SIGN (repeat 0xFF (Z.to_nat (rsa_len ctx - 3 - dlen))) p); auto.
    + unfold byte, RSA_SIGN; lia.
    + rewrite repeat_length. lia.
  - intros [sig ctx'] (Hs & _ & Hr). destruct (same_key_fields _ _ Hs) as [El Ep].
    assert (Hk' : pkcs1_key ctx').
    { constructor; [now apply (same_key_public hl ctx)|now apply (same_key_private hl ctx)|congruence|now rewrite El]. }
    eapply verify_block; [exact Hk'|exact Hr|exact Hff| |exact Hcd].
    intros ctx'' Hs''. now rewrite (proj2 (same_key_fields _ _ Hs'')).
Qed.

(** *** What an accepted signature shows *)

Lemma ff_repeat pad : Forall (pad_byte (Z.eqb 0xFF)) pad -> pad = repeat 0xFF (length pad).
Proof.
  induction 1 as [|b pad [_ Hb] H IH]; [reflexivity|]. cbn [length repeat]. apply Z.eqb_eq in Hb. congruence.
Qed.

(** The block of a signature: the padding, then the digest. *)
Definition signature_block (n : nat) (p : list Z) : list Z := [0; RSA_SIGN] ++ repeat 0xFF n ++ [0] ++ p.

(** The verification accepts exactly the digest of the hash. *)
Lemma check_digest_exact d hash_id hashlen hash p :
  hash_ok hash_id hashlen hash -> Forall byte hash ->
  In hash_id [SIG_RSA_RAW; SIG_RSA_MD2; SIG_RSA_MD4; SIG_RSA_MD5; SIG_RSA_SHA1] ->
  runs d (check_digest hash_id hashlen hash p) (fun _ => digest_bytes hash_id hashlen hash = ret p)
    (fun e => refused e /\ digest_bytes hash_id hashlen hash <> ret p).
Proof.
  intros Hh Hb Hin. destruct (digest_checks hash_id hashlen hash Hh Hb) as (p0 & _ & Hd & _ & _ & _ & Hc).
  destruct (list_eq_dec Z.eq_dec p p0) as [->|Hne]; [rewrite Hc; now apply runs_ret|].
  eapply runs_weaken; [now apply check_digest_sound|auto|]. intros e He. split; [exact He|].
  rewrite Hd. intros E. apply (f_equal (fun m => fst (m []))) in E. injection E as E. now apply Hne.
Qed.

(** The signature raised to the public exponent is the block of the hash. *)
Definition vouches (ctx : rsa_context RNG) (hash_id hashlen : Z) (hash sig : list Z) : Prop :=
  exists n p, digest_bytes hash_id hashlen hash = ret p /\
    length (signature_block n p) = length sig /\
    be_value (signature_block n p) = be_value sig ^ val (rsa_E ctx) mod val (rsa_N ctx).

(** What a block is that has the value and the length of the block of a hash. *)
Lemma vouches_block ctx hash_id hashlen hash sig buf :
  Forall byte buf -> length buf = length sig -> hash_ok hash_id hashlen hash -> Forall byte hash ->
  be_value buf = be_value sig ^ val (rsa_E ctx) mod val (rsa_N ctx) ->
  vouches ctx hash_id hashlen hash sig ->
  exists n p, digest_bytes hash_id hashlen hash = ret p /\ buf = signature_block n p.
Proof.
  intros Hb Hl Hh Hbh Hv (n & p & Hd & Hlen & Hval). exists n, p. split; [exact Hd|].
  destruct (digest_checks hash_id hashlen hash Hh Hbh) as (p0 & _ & Hd0 & _ & _ & Hbp & _).
  rewrite Hd in Hd0. apply (f_equal (fun m => fst (m []))) in Hd0. injection Hd0 as ->.
  apply be_value_inj; [exact Hb| |congruence|congruence].
  unfold signature_block. repeat apply Forall_app_i; try exact Hbp; try apply ff_padding;
    repeat (constructor; [unfold byte, RSA_SIGN; lia|]); constructor.
Qed.

Lemma verify_sound ctx hash_id hashlen hash sig :
  public_key hl ctx -> cache_ok (rsa_P ctx) (Some (rsa_RP ctx)) -> cache_ok (rsa_Q ctx) (Some (rsa_RQ ctx)) ->
  rsa_padding ctx = RSA_PKCS_V15 -> 16 <= rsa_len ctx <= 1024 -> is_message ctx sig ->
  hash_ok hash_id hashlen hash -> Forall byte hash ->
  In hash_id [SIG_RSA_RAW; SIG_RSA_MD2; SIG_RSA_MD4; SIG_RSA_MD5; SIG_RSA_SHA1] ->
  runs NoFail (rsa_pkcs1_verify hl ctx RSA_PUBLIC hash_id hashlen hash sig)
    (fun ctx' => same_key ctx ctx' /\ vouches ctx hash_id hashlen hash sig)
    (fun e => (refused e /\ ~ vouches ctx hash_id hashlen hash sig) \/ operation_err ctx sig e).
Proof.
  intros Hpk HRP HRQ Hpad Hlen Hm Hh Hbh Hin. unfold rsa_pkcs1_verify.
  case_bool (rsa_len ctx <? 16); [lia|]. case_bool (1024 <? rsa_len ctx); [lia|]. cbn [orb].
  eapply runs_bind.
  { change (rsa_operation hl ctx RSA_PUBLIC sig) with (rsa_public hl ctx sig).
    eapply runs_weaken; [apply rsa_public_spec; auto|intros a Ha; exact Ha|auto]. }
  intros [buf ctx'] (_ & Hlb & Hbb & Hv & Hs). rewrite (proj2 (same_key_fields _ _ Hs)), Hpad, Z.eqb_refl.
  pose proof (vouches_block ctx hash_id hashlen hash sig buf Hbb Hlb Hh Hbh Hv) as Hblk.
  eapply runs_bind.
  { eapply runs_weaken; [apply unpad_spec; destruct Hm; lia|intros a Ha; exact Ha|].
    intros e [-> Hno]. left. split; [now right|]. intros (n & p & _ & Hbuf)%Hblk.
    apply (Hno (repeat 0xFF n) p); [apply ff_padding|exact Hbuf]. }
  intros p (pad & Hbuf & Hp).
  eapply runs_bind; [eapply runs_weaken; [now apply check_digest_exact|intros a Ha; exact Ha|]|].
  - intros e [He Hd]. left. split; [exact He|]. intros (n & p' & Hd' & Hbuf')%Hblk. apply Hd.
    pose proof (unpad_block RSA_SIGN (Z.eqb 0xFF) pad p Hp) as U1. rewrite <- Hbuf, Hbuf' in U1.
    unfold signature_block in U1. rewrite unpad_block in U1 by apply ff_padding. now rewrite <- U1.
  - cbv beta. intros u Hd. apply runs_ret. split; [exact Hs|]. exists (length pad), p.
    split; [exact Hd|]. unfold signature_block. rewrite <- (ff_repeat pad Hp), <- Hbuf. auto.
Qed.
End Compose.
