(* ===== verification/RsaKeys.v ===== *)
(** * RSA: key checks and key generation

    [rsa_check_pubkey], [rsa_check_privkey] and [rsa_gen_key] of
    [libsparkle/crypto/rsa.c]. *)
From Stdlib Require Import ZArith Znumtheory List Lia Bool.
Import ListNotations.
From S2P Require Import Prelude CMonad Limbs Mpi MpiAddSub MpiShift MpiMul MpiDiv.
From S2P Require Import MpiDivCorrect MpiMod MpiMont MpiExp MpiGcd MpiBin NumTheory.
From S2P Require Import MpiPrime Rsa RsaCorrect.
#[local] Open Scope Z_scope.
#[local] Open Scope cmonad_scope.

(** ** The checks *)

(** What [rsa_check_pubkey] asks of the modulus and the exponent. *)
Definition pubkey_good {RNG} (ctx : rsa_context RNG) : Prop :=
  val (rsa_N ctx) mod 2 = 1 /\ val (rsa_E ctx) mod 2 = 1 /\
  128 <= bitlen (val (rsa_N ctx)) <= 4096 /\ 2 <= bitlen (val (rsa_E ctx)) <= 64.

Definition privkey_good {RNG} (ctx : rsa_context RNG) : Prop :=
  let H := (val (rsa_P ctx) - 1) * (val (rsa_Q ctx) - 1) in
  val (rsa_P ctx) * val (rsa_Q ctx) = val (rsa_N ctx) /\
  (val (rsa_D ctx) * val (rsa_E ctx)) mod H = 1 /\ Z.gcd (val (rsa_E ctx)) H = 1.

(** A number that is present and positive in sign. *)
Definition positive (X : mpi) : Prop := mpi_wf X /\ mpi_s X = 1 /\ (0 < mpi_n X)%nat.

Lemma positive_val X : positive X -> val X = mag X /\ 0 <= mag X.
Proof. intros (H & Hs & _). split; [unfold val; rewrite Hs; ring|now apply mag_nonneg]. Qed.

Lemma positive_limb X : positive X ->
  exists x p, mpi_p X = x :: p /\ Z.land x 1 = val X mod 2.
Proof.
  intros HX. destruct (positive_val X HX) as [Hv _]. destruct HX as (_ & _ & Hn). unfold mpi_n in Hn.
  destruct (mpi_p X) as [|x p] eqn:E; [simpl in Hn; lia|]. exists x, p. split; [reflexivity|].
  rewrite Hv. unfold mag. rewrite E, <- first_limb_parity. reflexivity.
Qed.

Lemma rsa_check_pubkey_spec d {RNG} (ctx : rsa_context RNG) :
  positive (rsa_N ctx) -> positive (rsa_E ctx) ->
  runs d (rsa_check_pubkey ctx) (fun _ => pubkey_good ctx)
    (fun e => e = POLARSSL_ERR_RSA_KEY_CHECK_FAILED /\ ~ pubkey_good ctx).
Proof.
  intros HN HE. unfold rsa_check_pubkey, pubkey_good.
  destruct (positive_limb _ HN) as (n0 & n & EN & On). destruct (positive_limb _ HE) as (e0 & e & EE & Oe).
  destruct (positive_val _ HN) as [VN _]. destruct (positive_val _ HE) as [VE _].
  rewrite EN, EE, On, Oe.
  pose proof (Z.mod_pos_bound (val (rsa_N ctx)) 2 ltac:(lia)). pose proof (Z.mod_pos_bound (val (rsa_E ctx)) 2 ltac:(lia)).
  case_bool (val (rsa_N ctx) mod 2 =? 0); [apply runs_throw; split; [reflexivity|lia]|].
  case_bool (val (rsa_E ctx) mod 2 =? 0); [apply runs_throw; split; [reflexivity|lia]|]. cbn [orb].
  destruct HN as (WN & _ & NN), HE as (WE & _ & NE).
  runs_step mpi_msb_spec; auto. intros bn ->. rewrite VN in *.
  case_bool (bitlen (mag (rsa_N ctx)) <? 128); [apply runs_throw; split; [reflexivity|lia]|].
  case_bool (4096 <? bitlen (mag (rsa_N ctx))); [apply runs_throw; split; [reflexivity|lia]|]. cbn [orb].
  runs_step mpi_msb_spec; auto. intros be ->. rewrite VE in *.
  case_bool (bitlen (mag (rsa_E ctx)) <? 2); [apply runs_throw; split; [reflexivity|lia]|].
  case_bool (64 <? bitlen (mag (rsa_E ctx))); [apply runs_throw; split; [reflexivity|lia]|]. cbn [orb].
  apply runs_ret. lia.
Qed.

Section Checks.
Context (hl : bool) {RNG : Type}.
Implicit Type ctx : rsa_context RNG.

Lemma privkey_test_spec ctx :
  positive (rsa_N ctx) -> positive (rsa_E ctx) -> positive (rsa_P ctx) -> positive (rsa_Q ctx) ->
  positive (rsa_D ctx) -> 1 < val (rsa_P ctx) -> 1 < val (rsa_Q ctx) ->
  Estimate hl ((val (rsa_P ctx) - 1) * (val (rsa_Q ctx) - 1)) ->
  runs NoFail (privkey_test hl ctx) (fun ok => ok = true <-> privkey_good ctx) no_err.
Proof.
  intros (HN & SN & _) (HE & SE & _) (HP & SP & _) (HQ & SQ & _) (HD & SD & _) VP VQ Hest.
  unfold privkey_test, privkey_good. cbv zeta.
  runs_step mpi_mul_mpi_spec; cbn [deref]; auto with limbs. intros PQ (HPQ & MPQ & SPQ & _). cbn [deref] in *.
  runs_step mpi_mul_mpi_spec; cbn [deref]; auto with limbs. intros DE (HDE & MDE & SDE & _). cbn [deref] in *.
  rewrite SP, SQ in SPQ. rewrite SD, SE in SDE. cbn [Z.mul Pos.mul] in SPQ, SDE.
  runs_step mpi_sub_int_spec; cbn [deref]; auto with limbs; [lia|]. intros P1 (HP1 & VP1 & _). cbn [deref] in *.
  runs_step mpi_sub_int_spec; cbn [deref]; auto with limbs; [lia|]. intros Q1 (HQ1 & VQ1 & _). cbn [deref] in *.
  runs_step mpi_mul_mpi_val; cbn [deref]; auto with limbs. intros H (HH & VH). cbn [deref] in *.
  rewrite VP1, VQ1 in VH. set (h := (val (rsa_P ctx) - 1) * (val (rsa_Q ctx) - 1)) in *.
  assert (Hh : 0 < h) by (unfold h; nia).
  assert (MH : mag H = h).
  { pose proof (pos_sign H HH ltac:(lia)) as SH. unfold val in VH. rewrite SH in VH. lia. }
  runs_step mpi_mod_mpi_spec; cbn [deref]; auto with limbs.
  { intros _. exact SDE. } { lia. } { discriminate. } { rewrite MH. exact Hest. }
  intros I (HI & VI & SI & _). cbn [deref] in VI.
  runs_step mpi_gcd_spec; auto; [lia|]. intros G (HG & SG & MG). apply runs_ret.
  rewrite mpi_cmp_mpi_spec, !mpi_cmp_int_pos by (auto; try lia; left; congruence).
  assert (VPQ : val PQ = val (rsa_P ctx) * val (rsa_Q ctx)) by (unfold val; rewrite SPQ, MPQ, SP, SQ; ring).
  assert (VDE : val DE = val (rsa_D ctx) * val (rsa_E ctx)) by (unfold val; rewrite SDE, MDE, SD, SE; ring).
  assert (VG : val G = Z.gcd (val (rsa_E ctx)) h) by (unfold val at 1; rewrite SG, MG, VH; ring).
  rewrite <- VPQ, <- VDE, <- VG, <- VH, <- VI.
  assert (Hc : forall a b, (cmp_sign (a ?= b) =? 0) = (a =? b)).
  { intros a b. destruct (Z.compare_spec a b); cbn [cmp_sign]; case_bool (a =? b); try reflexivity; lia. }
  rewrite !Hc, !andb_true_iff, !Z.eqb_eq. tauto.
Qed.

(** [rsa_check_privkey] accepts exactly the keys with the relations of RSA. *)
Lemma rsa_check_privkey_spec ctx :
  positive (rsa_N ctx) -> positive (rsa_E ctx) -> positive (rsa_P ctx) -> positive (rsa_Q ctx) ->
  positive (rsa_D ctx) -> 1 < val (rsa_P ctx) -> 1 < val (rsa_Q ctx) ->
  Estimate hl ((val (rsa_P ctx) - 1) * (val (rsa_Q ctx) - 1)) ->
  runs NoFail (rsa_check_privkey hl ctx) (fun _ => pubkey_good ctx /\ privkey_good ctx)
    (fun e => e = POLARSSL_ERR_RSA_KEY_CHECK_FAILED /\ ~ (pubkey_good ctx /\ privkey_good ctx)).
Proof.
  intros HN HE HP HQ HD VP VQ Hest. unfold rsa_check_privkey.
  eapply runs_bind; [eapply runs_weaken; [apply rsa_check_pubkey_spec; auto|intros a Ha; exact Ha|]|].
  { intros e [-> Hno]. tauto. }
  cbv beta. intros u Hpub.
  assert (Hnull : forall X, positive X -> is_null X = false).
  { intros X (_ & _ & Hn). unfold is_null, mpi_n in *. destruct (mpi_p X); [simpl in Hn; lia|reflexivity]. }
  rewrite !Hnull by auto. cbn [orb].
  eapply runs_bind; [apply runs_on_error_none, privkey_test_spec; auto|]. intros [|] Hok.
  - apply runs_ret. tauto.
  - apply runs_throw. split; [reflexivity|]. intros [_ Hg]. apply Hok in Hg. discriminate.
Qed.
End Checks.

(** ** Destinations that are only zeroed

    [rsa_init] leaves numbers with a zero sign; the functions that overwrite
    their destination do not look at it. *)

Definition resign (X : mpi) : mpi := Mpi 1 (mpi_p X).

Lemma resign_wf X : limbs (mpi_p X) -> mpi_wf (resign X).
Proof. intros H. split; [now left|exact H]. Qed.

(** The sign does not survive [mpi_lset]. *)
Lemma mpi_lset_resign X z h : mpi_lset X z h = mpi_lset (resign X) z h.
Proof.
  unfold mpi_lset, mpi_grow. change (mpi_n (resign X)) with (mpi_n X).
  case_bool (mpi_n X <? 1)%nat; unfold bind, malloc, ret; [|reflexivity].
  destruct h as [|[|] h]; reflexivity.
Qed.

Lemma grow_lset_resign {A} X k z (f : mpi -> M A) h :
  bind (mpi_grow X k) (fun X => bind (mpi_lset X z) f) h =
  bind (mpi_grow (resign X) k) (fun X => bind (mpi_lset X z) f) h.
Proof.
  unfold mpi_grow. change (mpi_n (resign X)) with (mpi_n X).
  case_bool (mpi_n X <? k)%nat; unfold bind, malloc, ret, throw.
  - destruct h as [|[|] h]; try reflexivity; rewrite mpi_lset_resign; reflexivity.
  - now rewrite mpi_lset_resign.
Qed.

Section Gen.
Context (hl : bool) {RNG : Type} (f_rng : RNG -> Z * RNG).

Lemma gen_prime_resign fuel X nbits dh st h :
  mpi_gen_prime hl f_rng fuel X nbits dh st h = mpi_gen_prime hl f_rng fuel (resign X) nbits dh st h.
Proof.
  unfold mpi_gen_prime. destruct (nbits <? 3); [reflexivity|].
  unfold bind at 1. unfold bind at 3. unfold prime_start. now rewrite grow_lset_resign.
Qed.

Lemma mul_resign X A B h : mpi_mul_mpi X (Var A) (Var B) h = mpi_mul_mpi (resign X) (Var A) (Var B) h.
Proof. unfold mpi_mul_mpi. rewrite !bind_ret. apply grow_lset_resign. Qed.

(** ** The prime search, without a bound on its length *)

Lemma next_prime_partial fuel X st :
  (forall v, Estimate hl v) -> mpi_wf X -> mpi_s X = 1 -> val X mod 2 = 1 -> 3 <= val X ->
  partial NoFail (next_prime hl f_rng fuel X st)
    (fun '(X', _) => mpi_wf X' /\ mpi_s X' = 1 /\ val X <= val X' /\ val X' mod 2 = 1 /\ accepted (val X')) no_err.
Proof.
  intros Hest. revert X st. induction fuel as [|fuel IH]; intros X st HX Hs Hodd H3; cbn [next_prime];
    [apply partial_out_of_fuel|].
  partial_step mpi_is_prime_spec; auto. intros [[r X'] st'] (-> & _ & _ & Hacc).
  case_bool (r =? 0).
  - apply partial_ret. do 2 (split; [auto|]). split; [lia|]. split; [exact Hodd|]. now apply Hacc.
  - partial_step mpi_add_int_spec; auto; [lia|]. intros X2 (HX2 & Hv2 & _). cbn [deref] in Hv2.
    eapply partial_weaken; [apply IH; auto| |auto].
    + apply pos_sign; [exact HX2|lia].
    + rewrite Hv2. dlia.
    + lia.
    + intros [X3 st3] (H1 & H2 & H4 & H5). do 2 (split; [auto|]). split; [lia|exact H5].
Qed.

Lemma gen_prime_partial fuel X nbits st :
  (forall v, Estimate hl v) -> limbs (mpi_p X) -> 3 <= nbits ->
  partial NoFail (mpi_gen_prime hl f_rng fuel X nbits 0 st)
    (fun '(X', _) => mpi_wf X' /\ mpi_s X' = 1 /\ 3 <= val X' /\ val X' mod 2 = 1 /\ accepted (val X')) no_err.
Proof.
  intros Hest HX Hb. eapply partial_ext; [intros h; apply gen_prime_resign|].
  unfold mpi_gen_prime. case_bool (nbits <? 3); [lia|].
  eapply partial_bind; [apply partial_runs, prime_start_spec; [now apply resign_wf|exact Hb]|]. intros [X1 st1] (HX1 & Hs1 & H4 & _).
  cbn [Z.eqb]. assert (Hv : val X1 = mag X1) by (unfold val; rewrite Hs1; ring).
  pose proof (mag_nonneg X1 HX1). assert (3 <= mag X1) by dlia.
  eapply partial_weaken; [apply (next_prime_partial fuel X1 st1); auto| |auto].
  - rewrite Hv. dlia.
  - lia.
  - intros [X' st'] (H1 & H2 & H3 & H5 & H6). do 2 (split; [auto|]). split; [lia|auto].
Qed.

(** ** The search for a pair *)

(** What the loop has found when it ends. *)
Definition pair_found (nbits : Z) (E : mpi) (s : gen_state) : Prop :=
  let P := val (gs_P s) in
  let Q := val (gs_Q s) in
  (mpi_wf (gs_P s) /\ mpi_wf (gs_Q s) /\ mpi_wf (gs_N s) /\ mpi_wf (gs_P1 s) /\ mpi_wf (gs_Q1 s) /\ mpi_wf (gs_H s)) /\
  (3 <= Q < P /\ P mod 2 = 1 /\ Q mod 2 = 1 /\ accepted P /\ accepted Q) /\
  val (gs_N s) = P * Q /\ bitlen (P * Q) = nbits /\
  val (gs_P1 s) = P - 1 /\ val (gs_Q1 s) = Q - 1 /\ val (gs_H s) = (P - 1) * (Q - 1) /\
  Z.gcd (val E) ((P - 1) * (Q - 1)) = 1.

(** Between two turns: storage, and a [G] that does not end the loop. *)
Definition search_state (s : gen_state) : Prop :=
  limbs (mpi_p (gs_P s)) /\ limbs (mpi_p (gs_Q s)) /\ limbs (mpi_p (gs_N s)) /\
  mpi_wf (gs_P1 s) /\ mpi_wf (gs_Q1 s) /\ mpi_wf (gs_H s) /\ mpi_wf (gs_G s) /\ mpi_s (gs_G s) = 1.

Lemma gen_turn_spec nbits E s :
  mpi_wf E -> search_state s -> val (gs_G s) <> 1 ->
  mpi_wf (gs_P s) -> mpi_s (gs_P s) = 1 -> 3 <= val (gs_P s) -> val (gs_P s) mod 2 = 1 -> accepted (val (gs_P s)) ->
  mpi_wf (gs_Q s) -> mpi_s (gs_Q s) = 1 -> 3 <= val (gs_Q s) -> val (gs_Q s) mod 2 = 1 -> accepted (val (gs_Q s)) ->
  runs NoFail (gen_turn nbits E s)
    (fun s' => search_state s' /\ (val (gs_G s') = 1 -> pair_found nbits E s')) no_err.
Proof.
  intros HE (LP & LQ & LN & W1 & W2 & W3 & WG & SG) HG HP SP P3 PO PA HQ SQ Q3 QO QA. unfold gen_turn.
  set (pq := if mpi_cmp_mpi (gs_P s) (gs_Q s) <? 0 then _ else _).
  assert (Hpq : exists P Q, pq = (P, Q) /\ mpi_wf P /\ mpi_s P = 1 /\ 3 <= val Q <= val P /\ val P mod 2 = 1 /\
    accepted (val P) /\ mpi_wf Q /\ mpi_s Q = 1 /\ val Q mod 2 = 1 /\ accepted (val Q)).
  { unfold pq. rewrite mpi_cmp_mpi_spec by (auto; left; congruence). unfold mpi_swap.
    destruct (Z.compare_spec (val (gs_P s)) (val (gs_Q s))); cbn [cmp_sign Z.ltb Z.compare].
    all: eexists; eexists; split; [reflexivity|]; repeat (split; [auto; lia|]); auto. }
  destruct Hpq as (P & Q & -> & HP' & SP' & Hle & PO' & PA' & HQ' & SQ' & QO' & QA').
  rewrite mpi_cmp_mpi_spec by (auto; left; congruence).
  assert (Hstay : forall N, limbs (mpi_p N) ->
    runs NoFail (ret (GenState P Q N (gs_P1 s) (gs_Q1 s) (gs_H s) (gs_G s)))
      (fun s' => search_state s' /\ (val (gs_G s') = 1 -> pair_found nbits E s')) no_err).
  { intros N HN. apply runs_ret. split; [|intros H; contradiction].
    unfold search_state. cbn [gs_P gs_Q gs_N gs_P1 gs_Q1 gs_H gs_G].
    repeat (split; [auto; try apply HP'; apply HQ'|]). exact SG. }
  destruct (Z.compare_spec (val P) (val Q)) as [Ec|Ec|Ec]; [|lia|]; cbn [cmp_sign Z.eqb].
  { now apply Hstay. }
  eapply runs_bind.
  { eapply runs_ext; [intros h; apply mul_resign|]. apply mpi_mul_mpi_spec; cbn [deref]; auto. now apply resign_wf. }
  intros N (HN & MN & SN & NN). cbn [deref] in *. rewrite SP', SQ' in SN. cbn [Z.mul Pos.mul] in SN.
  assert (VP : val P = mag P) by (unfold val; rewrite SP'; ring).
  assert (VQ : val Q = mag Q) by (unfold val; rewrite SQ'; ring).
  assert (VN : val N = val P * val Q) by (unfold val; rewrite SN, MN, SP', SQ'; ring).
  runs_step mpi_msb_spec; [exact HN|lia|]. intros m ->.
  case_bool (bitlen (mag N) =? nbits); cbn [negb]; [|apply Hstay, HN].
  runs_step mpi_sub_int_spec; cbn [deref]; auto; [lia|]. intros P1 (HP1 & VP1 & _). cbn [deref] in VP1.
  runs_step mpi_sub_int_spec; cbn [deref]; auto; [lia|]. intros Q1 (HQ1 & VQ1 & _). cbn [deref] in VQ1.
  runs_step mpi_mul_mpi_val; cbn [deref]; auto. intros H (HH & VH). cbn [deref] in VH. rewrite VP1, VQ1 in VH.
  assert (Hh : 0 < val H) by (rewrite VH; nia).
  runs_step mpi_gcd_spec; auto.
  { pose proof (pos_sign H HH Hh) as SH. unfold val in Hh. rewrite SH in Hh. lia. }
  intros G (HG' & SG' & MG'). apply runs_ret. split.
  - unfold search_state. cbn [gs_P gs_Q gs_N gs_P1 gs_Q1 gs_H gs_G].
    repeat (split; [auto; try apply HP'; try apply HQ'; apply HN|]). exact SG'.
  - unfold pair_found. cbn [gs_P gs_Q gs_N gs_P1 gs_Q1 gs_H gs_G]. intros VG.
    unfold val in VG at 1. rewrite SG', MG', VH in VG.
    split; [auto 8|]. split; [repeat split; auto; lia|]. split; [exact VN|].
    split; [rewrite <- E0, VP, VQ, MN; reflexivity|]. repeat split; auto. lia.
Qed.

Lemma gen_loop_partial fuel pf nbits E s st :
  (forall v, Estimate hl v) -> 128 <= nbits -> mpi_wf E -> search_state s -> val (gs_G s) <> 1 ->
  partial NoFail (gen_loop hl f_rng fuel pf nbits E s st) (fun '(s', _) => pair_found nbits E s') no_err.
Proof.
  intros Hest Hb HE. revert s st. induction fuel as [|fuel IH]; intros s st Hs HG; cbn [gen_loop];
    [apply partial_out_of_fuel|].
  assert (Hb2 : 3 <= Z.shiftr (nbits + 1) 1) by (rewrite Z.shiftr_div_pow2 by lia; change (2 ^ 1) with 2; dlia).
  pose proof Hs as (LP & LQ & LN & W1 & W2 & W3 & WG & SG).
  eapply partial_bind; [apply gen_prime_partial; auto|]. intros [P st1] (HP & SP & P3 & PO & PA).
  eapply partial_bind; [apply gen_prime_partial; auto|]. intros [Q st2] (HQ & SQ & Q3 & QO & QA).
  partial_step gen_turn_spec; cbn [gs_P gs_Q gs_N gs_P1 gs_Q1 gs_H gs_G]; auto.
  { unfold search_state. cbn [gs_P gs_Q gs_N gs_P1 gs_Q1 gs_H gs_G]. destruct HP, HQ. auto 10. }
  intros s' [Hs' Hf]. pose proof Hs' as (_ & _ & _ & _ & _ & _ & WG' & SG').
  rewrite mpi_cmp_int_pos by (auto; lia).
  destruct (Z.compare_spec (val (gs_G s')) 1) as [Ec|Ec|Ec]; cbn [cmp_sign Z.eqb negb].
  - apply partial_ret. auto.
  - apply IH; auto. lia.
  - apply IH; auto. lia.
Qed.
End Gen.

(** ** The exponents *)

(** [mpi_inv_mod] in both of its cases for a modulus above 1. *)
Lemma inv_mod_cases hl X A N :
  Estimate hl (mag N) -> mpi_wf A -> canon A -> mpi_wf N -> 1 < val N ->
  runs NoFail (mpi_inv_mod hl X A N)
    (fun X' => Z.gcd (val A) (val N) = 1 /\ mpi_wf X' /\ 0 < val X' < val N /\ (val X' * val A) mod val N = 1)
    (fun e => e = POLARSSL_ERR_MPI_NOT_ACCEPTABLE /\ Z.gcd (val A) (val N) <> 1).
Proof.
  intros Hest HA HcA HN HvN. destruct (Z.eq_dec (Z.gcd (val A) (val N)) 1) as [Hg|Hg].
  - apply runs_no_err, runs_conj_pure; [exact Hg|]. now apply mpi_inv_mod_spec.
  - unfold mpi_inv_mod. rewrite cmp_int_0_leb by auto. rewrite (proj2 (Z.leb_gt _ _)) by lia.
    assert (HmN : val N = mag N) by (apply val_nonneg_mag; auto; lia).
    eapply runs_bind; [apply runs_no_err, mpi_gcd_spec; auto; lia|]. intros G (HG & HsG & HmG).
    rewrite (gcd_test G A N) by auto. case_bool (Z.gcd (val A) (val N) =? 1); [contradiction|].
    apply runs_throw. auto.
Qed.

Lemma pos_canon X : mpi_s X = 1 -> canon X.
Proof. intros H _. exact H. Qed.

Section GenKey.
Context (hl : bool) {RNG : Type}.
Implicit Type ctx : rsa_context RNG.

(** What key generation leaves: the pair, the exponents and the length; the
    rest of the context is as it was. *)
Definition key_made (nbits exponent : Z) ctx ctx' : Prop :=
  exists s, pair_found nbits (rsa_E ctx') s /\
  let P := val (rsa_P ctx') in let Q := val (rsa_Q ctx') in
  rsa_P ctx' = gs_P s /\ rsa_Q ctx' = gs_Q s /\ rsa_N ctx' = gs_N s /\
  mpi_wf (rsa_E ctx') /\ val (rsa_E ctx') = exponent /\
  (mpi_wf (rsa_D ctx') /\ 0 < val (rsa_D ctx') < (P - 1) * (Q - 1) /\
   (exponent * val (rsa_D ctx')) mod ((P - 1) * (Q - 1)) = 1) /\
  (mpi_wf (rsa_DP ctx') /\ val (rsa_DP ctx') = val (rsa_D ctx') mod (P - 1)) /\
  (mpi_wf (rsa_DQ ctx') /\ val (rsa_DQ ctx') = val (rsa_D ctx') mod (Q - 1)) /\
  (mpi_wf (rsa_QP ctx') /\ 0 < val (rsa_QP ctx') /\ (val (rsa_QP ctx') * Q) mod P = 1) /\
  rsa_len ctx' = (nbits + 7) / 8 /\
  rsa_RN ctx' = rsa_RN ctx /\ rsa_RP ctx' = rsa_RP ctx /\ rsa_RQ ctx' = rsa_RQ ctx /\
  rsa_padding ctx' = rsa_padding ctx /\ rsa_hash_id ctx' = rsa_hash_id ctx.

(** The only error left: two accepted numbers that are not coprime. *)
Definition not_coprime (e : Z) : Prop := e = POLARSSL_ERR_MPI_NOT_ACCEPTABLE.

Lemma gen_exponents_spec ctx nbits exponent E s st :
  (forall v, Estimate hl v) -> mpi_wf E -> val E = exponent -> 0 < exponent -> pair_found nbits E s ->
  runs NoFail (gen_exponents hl ctx E s st) (key_made nbits exponent ctx) not_coprime.
Proof.
  intros Hest HE VE He Hf. pose proof Hf as ((WP & WQ & WN & WP1 & WQ1 & WH) & (Hlt & _) & VN & Hb & VP1 & VQ1 & VH & Hg).
  unfold gen_exponents. set (p := val (gs_P s)) in *. set (q := val (gs_Q s)) in *.
  eapply runs_bind.
  { apply runs_no_err, mpi_inv_mod_spec; auto; [apply pos_canon, pos_sign; [exact HE|lia]|rewrite VH; nia|now rewrite VH|apply Hest]. }
  intros D (HD & HvD & Hinv). rewrite VH in *.
  eapply runs_bind.
  { apply runs_no_err, mpi_mod_mpi_spec; cbn [deref]; auto; [apply pos_canon, pos_sign; [exact HD|lia]|lia|discriminate|apply Hest]. }
  intros DP (HDP & VDP & _). cbn [deref] in VDP.
  eapply runs_bind.
  { apply runs_no_err, mpi_mod_mpi_spec; cbn [deref]; auto; [apply pos_canon, pos_sign; [exact HD|lia]|lia|discriminate|apply Hest]. }
  intros DQ (HDQ & VDQ & _). cbn [deref] in VDQ.
  eapply runs_bind.
  { eapply runs_weaken; [apply inv_mod_cases; auto; [apply pos_canon, pos_sign; auto; lia|lia]|intros a Ha; exact Ha|].
    now intros e [-> _]. }
  intros QP (_ & HQP & VQP & Hqp). fold p q in VQP, Hqp.
  assert (VNm : val (gs_N s) = mag (gs_N s)) by (apply val_nonneg_mag; auto; nia).
  eapply runs_bind; [apply mpi_msb_spec; [exact WN|apply mag_pos_n; auto; nia]|]. intros m ->.
  assert (Hlen : Z.shiftr (bitlen (mag (gs_N s)) + 7) 3 = (nbits + 7) / 8).
  { rewrite <- VNm, VN, Hb, Z.shiftr_div_pow2 by lia. reflexivity. }
  assert (Hinv' : (exponent * val D) mod ((p - 1) * (q - 1)) = 1) by (rewrite Z.mul_comm, <- VE; exact Hinv).
  assert (HQP0 : 0 < val QP) by lia. rewrite VP1 in VDP. rewrite VQ1 in VDQ.
  apply runs_ret. exists s. cbn [rsa_E rsa_P rsa_Q rsa_N rsa_D rsa_DP rsa_DQ rsa_QP rsa_len rsa_RN rsa_RP rsa_RQ rsa_padding rsa_hash_id].
  fold p q. auto 30.
Qed.

Lemma rsa_gen_key_partial fuel pf ctx f_rng nbits exponent :
  (forall v, Estimate hl v) -> rsa_f_rng ctx = Some f_rng -> 128 <= nbits -> 3 <= exponent < 2 ^ 63 ->
  limbs (mpi_p (rsa_P ctx)) -> limbs (mpi_p (rsa_Q ctx)) -> limbs (mpi_p (rsa_N ctx)) ->
  partial NoFail (rsa_gen_key hl fuel pf ctx nbits exponent) (key_made nbits exponent ctx)
    (fun e => e = Z.lor POLARSSL_ERR_RSA_KEY_GEN_FAILED POLARSSL_ERR_MPI_NOT_ACCEPTABLE).
Proof.
  intros Hest Hr Hb He LP LQ LN. unfold rsa_gen_key. rewrite Hr.
  case_bool (nbits <? 128); [lia|]. case_bool (exponent <? 3); [lia|]. cbn [orb].
  eapply partial_weaken; [apply partial_on_error with (E := not_coprime)|intros a Ha; exact Ha|].
  2: { unfold not_coprime. now intros e (e0 & -> & ->). }
  eapply partial_bind.
  { apply partial_runs, mpi_lset_spec. lia. }
  cbv beta. intros Ex (HE & VE & _). cbv zeta.
  eapply partial_bind.
  { eapply partial_weaken; [apply gen_loop_partial; auto| |intros e []].
    - unfold search_state. cbn [gs_P gs_Q gs_N gs_P1 gs_Q1 gs_H gs_G]. auto 10 with limbs.
    - discriminate.
    - intros a Ha; exact Ha. }
  intros [s st] Hf. apply partial_runs, gen_exponents_spec; auto. lia.
Qed.

(** With an even exponent the loop does not end. *)
Lemma rsa_gen_key_even fuel pf ctx f_rng nbits exponent :
  (forall v, Estimate hl v) -> rsa_f_rng ctx = Some f_rng -> 128 <= nbits -> 3 <= exponent < 2 ^ 63 ->
  exponent mod 2 = 0 ->
  limbs (mpi_p (rsa_P ctx)) -> limbs (mpi_p (rsa_Q ctx)) -> limbs (mpi_p (rsa_N ctx)) ->
  partial NoFail (rsa_gen_key hl fuel pf ctx nbits exponent) (fun _ => False) no_err.
Proof.
  intros Hest Hr Hb He Hev LP LQ LN. unfold rsa_gen_key. rewrite Hr.
  case_bool (nbits <? 128); [lia|]. case_bool (exponent <? 3); [lia|]. cbn [orb].
  eapply partial_weaken; [apply partial_on_error with (E := no_err)|intros a Ha; exact Ha|].
  2: { now intros e (e0 & [] & _). }
  eapply partial_bind; [apply partial_runs, mpi_lset_spec; lia|].
  cbv beta. intros Ex (HE & VE & _). cbv zeta.
  eapply partial_bind.
  { apply (gen_loop_partial hl f_rng fuel pf nbits Ex); auto; [|discriminate].
    unfold search_state. cbn [gs_P gs_Q gs_N gs_P1 gs_Q1 gs_H gs_G]. auto 10 with limbs. }
  intros [s st] Hf. exfalso. destruct Hf as (_ & (_ & PO & _) & _ & _ & _ & _ & _ & Hg).
  rewrite VE in Hg.
  assert (Hd : (2 | Z.gcd exponent ((val (gs_P s) - 1) * (val (gs_Q s) - 1)))).
  { apply Z.gcd_greatest; [now apply Z.mod_divide|]. apply Z.divide_mul_l. apply Z.mod_divide; dlia. }
  rewrite Hg in Hd. apply Z.divide_1_r_nonneg in Hd; lia.
Qed.

(** The keys made pass the checks. *)
Lemma key_made_good nbits exponent ctx ctx' :
  128 <= nbits <= 4096 -> 3 <= exponent < 2 ^ 63 -> key_made nbits exponent ctx ctx' ->
  pubkey_good ctx' /\ privkey_good ctx'.
Proof.
  intros Hn He (s & Hf & EP & EQ & EN & _ & VE & (_ & HD & Hinv) & _).
  destruct Hf as (_ & (Hlt & PO & QO & _) & VN & Hb & _ & _ & _ & Hg).
  unfold pubkey_good, privkey_good. rewrite EP, EQ, EN, VE in *. cbv zeta. rewrite VN, Hb.
  set (p := val (gs_P s)) in *. set (q := val (gs_Q s)) in *.
  assert (HEo : exponent mod 2 = 1).
  { destruct (Z.eq_dec (exponent mod 2) 0) as [Ez|Ez]; [exfalso|dlia].
    assert (Hd : (2 | Z.gcd exponent ((p - 1) * (q - 1)))).
    { apply Z.gcd_greatest; [now apply Z.mod_divide|]. apply Z.divide_mul_l. apply Z.mod_divide; dlia. }
    rewrite Hg in Hd. apply Z.divide_1_r_nonneg in Hd; lia. }
  split; [|split; [reflexivity|]; split; [now rewrite Z.mul_comm|exact Hg]].
  split; [rewrite Z.mul_mod, PO, QO by lia; reflexivity|]. split; [exact HEo|]. split; [lia|].
  pose proof (bitlen_mono 3 exponent ltac:(lia)) as H1. pose proof (bitlen_mono exponent (2 ^ 63 - 1) ltac:(lia)) as H2.
  change (bitlen 3) with 2 in H1. change (bitlen (2 ^ 63 - 1)) with 63 in H2. lia.
Qed.

(** A key made from two primes is one both operations can use. *)
Lemma key_made_keys nbits exponent ctx ctx' :
  (forall v, Estimate hl v) -> 0 < exponent -> key_made nbits exponent ctx ctx' ->
  mpi_p (rsa_RN ctx) = [] -> mpi_p (rsa_RP ctx) = [] -> mpi_p (rsa_RQ ctx) = [] ->
  prime (val (rsa_P ctx')) -> prime (val (rsa_Q ctx')) -> public_key hl ctx' /\ private_key hl ctx'.
Proof.
  intros Hest He (s & Hf & EP & EQ & EN & WE & VE & (WD & HD & Hinv) & (WDP & VDP) & (WDQ & VDQ) &
    (WQP & VQP & Hqp) & Hlen & RN & RP & RQ & _) CN CP CQ PP PQ.
  destruct Hf as ((WP & WQ & WN & _) & (Hlt & PO & QO & _) & VN & Hb & _).
  rewrite EP, EQ in *.
  assert (Hc : forall N RR, mpi_p RR = [] -> cache_ok N (Some RR)) by (intros N RR Hr Hne; contradiction).
  split; constructor; rewrite ?EP, ?EQ, ?EN, ?VE; auto; try lia.
  - rewrite VN, Z.mul_mod, PO, QO by lia. reflexivity.
  - apply Hc. congruence.
  - rewrite VN, Hb. exact Hlen.
  - apply Hc. congruence.
  - apply Hc. congruence.
Qed.
End GenKey.
