(* ===== verification/RsaTheorems.v ===== *)
(** * RSA: the properties *)
From Stdlib Require Import ZArith Znumtheory Zpow_facts List Lia Bool.
Import ListNotations.
From S2P Require Import Prelude CMonad Limbs Mpi MpiDivCorrect MpiExp MpiBin.
From S2P Require Import NumTheory MpiPrime Rsa RsaCorrect RsaPadding RsaKeys.
#[local] Open Scope Z_scope.
#[local] Open Scope cmonad_scope.

(** ** A key for the examples *)

Definition toy_key : rsa_context Z :=
  RsaContext Z 0 16 (Mpi 1 [18446743592673214465; 18446743592673217597]) (Mpi 1 [65537])
    (Mpi 1 [18446462603027742721; 16572148900709843788])
    (Mpi 1 [18446743841781317633]) (Mpi 1 [18446743824601448449])
    (Mpi 1 [14618179675952709633]) (Mpi 1 [7119800800208945153]) (Mpi 1 [9223371921964400627])
    mpi_init mpi_init mpi_init RSA_PKCS_V15 0 None 0.

Lemma toy_prime_P : prime 18446743841781317633.
Proof. apply (proth 2147483621 33 3); [lia|lia|]. rewrite <- Zpow_mod_correct by lia. vm_compute. reflexivity. Qed.

Lemma toy_prime_Q : prime 18446743824601448449.
Proof. apply (proth 2147483619 33 13); [lia|lia|]. rewrite <- Zpow_mod_correct by lia. vm_compute. reflexivity. Qed.

Ltac key_number := split; [now left | repeat (constructor; [unfold limb; simpl; lia|]); constructor].

Lemma toy_pkcs1 : pkcs1_key true toy_key.
Proof.
  constructor; [constructor|constructor|reflexivity|simpl; lia];
    try key_number; try reflexivity; try exact _; try (intros H; exact (False_ind _ (H eq_refl)));
    try exact toy_prime_P; try exact toy_prime_Q; try discriminate.
Qed.

Lemma toy_public : public_key true toy_key.
Proof. exact (pc_public _ _ toy_pkcs1). Qed.

Lemma toy_private : private_key true toy_key.
Proof. exact (pc_private _ _ toy_pkcs1). Qed.

(** A key of 512 bits, which has room for the digests of hashes. *)
Definition hash_key : rsa_context Z :=
  RsaContext Z 0 64
    (Mpi 1 [1; 0; 18446744073709550672; 18446744073709551615; 156221; 0; 18446744073709550672;
            18446744073709551615])
    (Mpi 1 [65537])
    (Mpi 1 [18446462603027742721; 18446462603027742720; 18446462603027742720; 18446462603027742720;
            17661722342144643196; 17661722342144543460; 11777014797565975092; 11777014797565975695])
    (Mpi 1 [1; 0; 18446744073709551402; 18446744073709551615])
    (Mpi 1 [1; 0; 18446744073709550886; 18446744073709551615])
    (Mpi 1 [18446462603027742721; 18446462603027742720; 10738950923054770810; 10738950923054770935])
    (Mpi 1 [18446462603027742721; 18446462603027742720; 253042142946196594; 253042142946196605])
    (Mpi 1 [11725837318171963043; 17195511433050957998; 11582839302096695053; 12655324422661204015])
    mpi_init mpi_init mpi_init RSA_PKCS_V15 0 None 0.

Lemma hash_prime_P :
  prime 115792089237316195423570985008687907780449558144559732858295418017514732388353.
Proof.
  apply (proth 170141183460469231731687303715884105621 129 5); [lia|lia|].
  rewrite <- Zpow_mod_correct by lia. vm_compute. reflexivity.
Qed.

Lemma hash_prime_Q :
  prime 115792089237316195423570985008687907604863856813355485711194120582722335277057.
Proof.
  apply (proth 170141183460469231731687303715884105363 129 5); [lia|lia|].
  rewrite <- Zpow_mod_correct by lia. vm_compute. reflexivity.
Qed.

Lemma hash_key_pkcs1 : pkcs1_key true hash_key.
Proof.
  constructor; [constructor|constructor|reflexivity|simpl; lia];
    try key_number; try reflexivity; try exact _; try (intros H; exact (False_ind _ (H eq_refl)));
    try exact hash_prime_P; try exact hash_prime_Q; try discriminate.
Qed.

(** The SHA-1 digest of the string "sparkle", and its signature. *)
Definition toy_sha1 : list Z :=
  [200; 64; 209; 24; 218; 234; 200; 252; 229; 168; 187; 246; 66; 31; 41; 205; 26; 137; 97; 149].

Definition toy_signature : list Z :=
  [223; 75; 208; 248; 81; 211; 174; 228; 34; 46; 13; 40; 244; 11; 223; 55; 116; 108; 179; 33; 111; 4; 4;
   47; 50; 26; 140; 143; 201; 49; 73; 76; 129; 119; 4; 73; 160; 214; 44; 144; 104; 1; 41; 175; 167; 36;
   151; 59; 174; 44; 225; 238; 83; 112; 142; 113; 125; 65; 156; 81; 185; 86; 186; 172].

(** Its SHA-256 digest. *)
Definition toy_sha256 : list Z :=
  [174; 254; 72; 103; 234; 64; 114; 21; 246; 200; 95; 196; 89; 48; 111; 36; 81; 149; 14; 251; 232; 234;
   46; 145; 254; 85; 33; 194; 73; 54; 139; 136].

(** Sixteen bytes below the modulus. *)
Definition toy_message : list Z := [0; 1; 2; 3; 4; 5; 6; 7; 8; 9; 10; 11; 12; 13; 14; 255].

Lemma toy_is_message : is_message toy_key toy_message.
Proof. split; [repeat (constructor; [unfold byte; lia|]); constructor|reflexivity]. Qed.

(** ** The operations *)

(** C4: The two operations are exponentiation modulo [N], the private one
    by way of the two primes and the Chinese remainder theorem: a message
    below [N] is mapped to the bytes of [m^E mod N] or [m^D mod N], as many
    as the modulus has; one that is not below [N] is refused; the key keeps
    its relations, whatever the state of the caches. *)
Theorem rsa_operation_correct hl {RNG} (ctx : rsa_context RNG) mode input :
  public_key hl ctx -> private_key hl ctx -> is_message ctx input ->
  runs NoFail (rsa_operation hl ctx mode input)
    (fun '(out, ctx') =>
       be_value input < val (rsa_N ctx) /\ length out = length input /\ Forall byte out /\
       be_value out = be_value input ^ exponent ctx mode mod val (rsa_N ctx) /\
       public_key hl ctx' /\ private_key hl ctx')
    (fun e => e = POLARSSL_ERR_RSA_BAD_INPUT_DATA /\ val (rsa_N ctx) <= be_value input).
Proof.
  intros Hpk Hsk Hm. eapply runs_weaken; [now apply rsa_operation_spec| |auto].
  intros [out ctx'] (H1 & H2 & H3 & H4 & Hs). do 4 (split; [assumption|]).
  split; [now apply (same_key_public hl ctx)|now apply (same_key_private hl ctx)].
Qed.

Lemma rsa_operation_correct_witness :
  runs NoFail (rsa_operation true toy_key RSA_PRIVATE toy_message)
    (fun '(out, ctx') =>
       be_value toy_message < val (rsa_N toy_key) /\ length out = 16%nat /\ Forall byte out /\
       be_value out = be_value toy_message ^ val (rsa_D toy_key) mod val (rsa_N toy_key) /\
       public_key true ctx' /\ private_key true ctx')
    (fun e => e = POLARSSL_ERR_RSA_BAD_INPUT_DATA /\ val (rsa_N toy_key) <= be_value toy_message).
Proof.
  exact (rsa_operation_correct true toy_key RSA_PRIVATE toy_message toy_public toy_private toy_is_message).
Defined.

(** C5: What one of the two operations makes of a message below the modulus,
    the other one turns into the message again, in both orders. *)
Theorem rsa_operations_cancel hl {RNG} (ctx : rsa_context RNG) mode input :
  public_key hl ctx -> private_key hl ctx -> is_message ctx input -> be_value input < val (rsa_N ctx) ->
  runs NoFail
    ('(out, ctx) <- rsa_operation hl ctx mode input;;
     rsa_operation hl ctx (other_mode mode) out)
    (fun '(out, ctx') => out = input /\ same_key ctx ctx') no_err.
Proof. apply operations_cancel. Qed.

Lemma rsa_operations_cancel_witness :
  runs NoFail
    ('(out, ctx) <- rsa_operation true toy_key RSA_PUBLIC toy_message;;
     rsa_operation true ctx RSA_PRIVATE out)
    (fun '(out, ctx') => out = toy_message /\ same_key toy_key ctx') no_err.
Proof.
  exact (rsa_operations_cancel true toy_key RSA_PUBLIC toy_message toy_public toy_private toy_is_message eq_refl).
Defined.

(** ** The padding *)

(** C8: What [rsa_pkcs1_encrypt] makes of at most [len - 11] bytes,
    [rsa_pkcs1_decrypt] turns into the same bytes again, with an output
    buffer that is large enough and answers of [rand] that hold enough
    non-zero bytes; each of the two may use either half of the key. *)
Theorem pkcs1_encryption_round_trip hl {RNG} (ctx : rsa_context RNG) mode ilen input rand max :
  pkcs1_key hl ctx -> 0 <= ilen <= Z.of_nat (length input) -> ilen + 11 <= rsa_len ctx ->
  Forall byte input -> (Z.to_nat (rsa_len ctx - 3 - ilen) <= usable rand)%nat -> ilen <= max ->
  runs NoFail
    ('(out, ctx, _) <- rsa_pkcs1_encrypt hl ctx mode ilen input rand;;
     rsa_pkcs1_decrypt hl ctx (other_mode mode) out max)
    (fun '(msg, ctx') => msg = firstn (Z.to_nat ilen) input /\ same_key ctx ctx') no_err.
Proof. apply pkcs1_encrypt_decrypt. Qed.

Lemma pkcs1_encryption_round_trip_witness :
  runs NoFail
    ('(out, ctx, _) <- rsa_pkcs1_encrypt true toy_key RSA_PUBLIC 4 [115; 112; 97; 114; 107]
                         [7; 256; 9; 1; 2; 3; 4; 5; 6; 8; 10];;
     rsa_pkcs1_decrypt true ctx RSA_PRIVATE out 4)
    (fun '(msg, ctx') => msg = [115; 112; 97; 114] /\ same_key toy_key ctx') no_err.
Proof.
  apply (pkcs1_encryption_round_trip true toy_key RSA_PUBLIC 4 [115; 112; 97; 114; 107]
    [7; 256; 9; 1; 2; 3; 4; 5; 6; 8; 10] 4 toy_pkcs1).
  - simpl. lia.
  - simpl. lia.
  - repeat (constructor; [unfold byte; lia|]); constructor.
  - vm_compute. lia.
  - lia.
Defined.

(** C6: A signature that [rsa_pkcs1_sign] makes with one half of a key is
    accepted by [rsa_pkcs1_verify] with the other half for the same hash:
    for a hash of the length its kind prescribes, MD2, MD4, MD5, SHA-1 or
    SHA-2, and for raw data of any length but 34, which the verification
    takes for a digest with a header ([verify_limits]); the padding must have
    its eight bytes. *)
Theorem pkcs1_signature_verifies hl {RNG} (ctx : rsa_context RNG) mode hash_id hashlen hash dlen :
  pkcs1_key hl ctx -> hash_ok hash_id hashlen hash -> Forall byte hash ->
  digest_len hash_id hashlen = Some dlen -> dlen + 11 <= rsa_len ctx ->
  runs NoFail
    ('(sig, ctx) <- rsa_pkcs1_sign hl ctx mode hash_id hashlen hash;;
     rsa_pkcs1_verify hl ctx (other_mode mode) hash_id hashlen hash sig)
    (fun ctx' => same_key ctx ctx') no_err.
Proof. apply pkcs1_sign_verify. Qed.

(** A SHA-256 digest, and raw data. *)
Lemma pkcs1_signature_verifies_witness :
  runs NoFail
    ('(sig, ctx) <- rsa_pkcs1_sign true hash_key RSA_PRIVATE SIG_RSA_SHA256 32 toy_sha256;;
     rsa_pkcs1_verify true ctx RSA_PUBLIC SIG_RSA_SHA256 32 toy_sha256 sig)
    (fun ctx' => same_key hash_key ctx') no_err /\
  runs NoFail
    ('(sig, ctx) <- rsa_pkcs1_sign true toy_key RSA_PRIVATE SIG_RSA_RAW 4 [1; 2; 3; 4];;
     rsa_pkcs1_verify true ctx RSA_PUBLIC SIG_RSA_RAW 4 [1; 2; 3; 4] sig)
    (fun ctx' => same_key toy_key ctx') no_err.
Proof.
  split.
  - apply (pkcs1_signature_verifies true hash_key RSA_PRIVATE SIG_RSA_SHA256 32 toy_sha256 51 hash_key_pkcs1).
    + do 4 right. left. now split.
    + now apply bytes_dec.
    + reflexivity.
    + simpl. lia.
  - apply (pkcs1_signature_verifies true toy_key RSA_PRIVATE SIG_RSA_RAW 4 [1; 2; 3; 4] 4 toy_pkcs1).
    + left. repeat split. discriminate.
    + repeat (constructor; [unfold byte; lia|]); constructor.
    + reflexivity.
    + discriminate.
Defined.

(** C7: For raw data (of any length but 34), MD2, MD4, MD5 and SHA-1,
    [rsa_pkcs1_verify] accepts a signature exactly when [sig^E mod N] is the
    block [0, 1, FF .. FF, 0] followed by the digest of the given hash; every
    other signature of the length of the modulus gets one of three errors,
    and no read leaves a buffer.  The SHA-2 kinds are outside: their check
    takes the number of bytes it compares from the signature
    ([verify_limits]). *)
Theorem pkcs1_verify_exact hl {RNG} (ctx : rsa_context RNG) hash_id hashlen hash sig :
  public_key hl ctx -> cache_ok (rsa_P ctx) (Some (rsa_RP ctx)) -> cache_ok (rsa_Q ctx) (Some (rsa_RQ ctx)) ->
  rsa_padding ctx = RSA_PKCS_V15 -> 16 <= rsa_len ctx <= 1024 -> is_message ctx sig ->
  hash_ok hash_id hashlen hash -> Forall byte hash ->
  In hash_id [SIG_RSA_RAW; SIG_RSA_MD2; SIG_RSA_MD4; SIG_RSA_MD5; SIG_RSA_SHA1] ->
  runs NoFail (rsa_pkcs1_verify hl ctx RSA_PUBLIC hash_id hashlen hash sig)
    (fun ctx' => same_key ctx ctx' /\ vouches ctx hash_id hashlen hash sig)
    (fun e => ((e = POLARSSL_ERR_RSA_VERIFY_FAILED \/ e = POLARSSL_ERR_RSA_INVALID_PADDING) /\
               ~ vouches ctx hash_id hashlen hash sig) \/
              (e = POLARSSL_ERR_RSA_BAD_INPUT_DATA /\ val (rsa_N ctx) <= be_value sig)).
Proof. apply verify_sound. Qed.

(** The signature of a SHA-1 digest is accepted, and shown to be one; for
    another digest it is refused. *)
Lemma pkcs1_verify_exact_witness :
  (exists ctx', fst (rsa_pkcs1_verify true hash_key RSA_PUBLIC SIG_RSA_SHA1 20 toy_sha1 toy_signature []) =
     Ok ctx' /\ same_key hash_key ctx' /\ vouches hash_key SIG_RSA_SHA1 20 toy_sha1 toy_signature) /\
  fst (rsa_pkcs1_verify true hash_key RSA_PUBLIC SIG_RSA_SHA1 20 (rev toy_sha1) toy_signature []) =
    Err POLARSSL_ERR_RSA_VERIFY_FAILED.
Proof.
  split; [|vm_compute; reflexivity].
  assert (H : runs NoFail (rsa_pkcs1_verify true hash_key RSA_PUBLIC SIG_RSA_SHA1 20 toy_sha1 toy_signature)
    (fun ctx' => same_key hash_key ctx' /\ vouches hash_key SIG_RSA_SHA1 20 toy_sha1 toy_signature)
    (fun e => ((e = POLARSSL_ERR_RSA_VERIFY_FAILED \/ e = POLARSSL_ERR_RSA_INVALID_PADDING) /\
               ~ vouches hash_key SIG_RSA_SHA1 20 toy_sha1 toy_signature) \/
              (e = POLARSSL_ERR_RSA_BAD_INPUT_DATA /\ val (rsa_N hash_key) <= be_value toy_signature))).
  { apply (pkcs1_verify_exact true hash_key SIG_RSA_SHA1 20 toy_sha1 toy_signature
      (pc_public _ _ hash_key_pkcs1)).
    - intros H. exact (False_ind _ (H eq_refl)).
    - intros H. exact (False_ind _ (H eq_refl)).
    - reflexivity.
    - simpl. lia.
    - split; [now apply bytes_dec|reflexivity].
    - do 2 right. left. now split.
    - now apply bytes_dec.
    - cbn [In]. auto 6. }
  specialize (H [] (Forall_nil _)). revert H.
  set (r := rsa_pkcs1_verify true hash_key RSA_PUBLIC SIG_RSA_SHA1 20 toy_sha1 toy_signature []).
  assert (Hr : match fst r with Ok _ => true | _ => false end = true) by (vm_compute; reflexivity).
  clearbody r. destruct r as [[c|e| |] h]; try discriminate. intros [_ H]. exists c. now split.
Defined.

(** ** Keys *)

(** C9: [rsa_check_privkey] accepts a key if and only if [N] and [E] are odd
    and of the sizes allowed, [N = P Q], [D E = 1] modulo [(P-1)(Q-1)] and
    [E] is coprime to it; every other key gets the key check error. *)
Theorem check_privkey_correct hl {RNG} (ctx : rsa_context RNG) :
  positive (rsa_N ctx) -> positive (rsa_E ctx) -> positive (rsa_P ctx) -> positive (rsa_Q ctx) ->
  positive (rsa_D ctx) -> 1 < val (rsa_P ctx) -> 1 < val (rsa_Q ctx) ->
  Estimate hl ((val (rsa_P ctx) - 1) * (val (rsa_Q ctx) - 1)) ->
  runs NoFail (rsa_check_privkey hl ctx) (fun _ => pubkey_good ctx /\ privkey_good ctx)
    (fun e => e = POLARSSL_ERR_RSA_KEY_CHECK_FAILED /\ ~ (pubkey_good ctx /\ privkey_good ctx)).
Proof. apply rsa_check_privkey_spec. Qed.

Lemma check_privkey_correct_witness :
  runs NoFail (rsa_check_privkey true toy_key) (fun _ => pubkey_good toy_key /\ privkey_good toy_key)
    (fun e => e = POLARSSL_ERR_RSA_KEY_CHECK_FAILED /\ ~ (pubkey_good toy_key /\ privkey_good toy_key)).
Proof.
  apply (check_privkey_correct true toy_key); try exact _;
    solve [split; [key_number|split; [reflexivity|apply Nat.ltb_lt; reflexivity]] | reflexivity].
Defined.

(** A key that [rsa_gen_key] makes in a fresh context passes both
    checks, has a modulus of exactly [nbits] bits and, when its two factors,
    which passed the primality test, are primes, serves both operations
    with PKCS#1 padding; the only error is the one for two factors that have
    no inverse.  With an even exponent it makes no key and never ends.  Of
    runs that end; for the estimate of a quotient digit with 128-bit words
    ([POLARSSL_HAVE_LONGLONG]). *)
Theorem gen_key_correct hl {RNG} fuel pf hash_id (f_rng : RNG -> Z * RNG) st nbits exponent :
  (forall v, Estimate hl v) -> 128 <= nbits <= 4096 -> 3 <= exponent < 2 ^ 31 ->
  let ctx := rsa_init RSA_PKCS_V15 hash_id (Some f_rng) st in
  partial NoFail (rsa_gen_key hl fuel pf ctx nbits exponent)
    (fun ctx' => exponent mod 2 = 1 /\ pubkey_good ctx' /\ privkey_good ctx' /\
       bitlen (val (rsa_N ctx')) = nbits /\ accepted (val (rsa_P ctx')) /\ accepted (val (rsa_Q ctx')) /\
       (prime (val (rsa_P ctx')) -> prime (val (rsa_Q ctx')) -> pkcs1_key hl ctx'))
    (fun e => exponent mod 2 = 1 /\
       e = Z.lor POLARSSL_ERR_RSA_KEY_GEN_FAILED POLARSSL_ERR_MPI_NOT_ACCEPTABLE).
Proof.
  intros Hest Hn He ctx. destruct (Z.eq_dec (exponent mod 2) 0) as [Hev|Hodd].
  - eapply partial_weaken; [apply (rsa_gen_key_even hl fuel pf ctx f_rng); auto with limbs; try lia; constructor|..].
    + intros a [].
    + intros e [].
  - assert (Ho : exponent mod 2 = 1) by dlia.
    eapply partial_weaken; [apply (rsa_gen_key_partial hl fuel pf ctx f_rng); auto with limbs; try lia; constructor|..].
    + intros ctx' Hk. pose proof Hk as (s & Hf & EP & EQ & EN & _ & VE & _).
      destruct (key_made_good nbits exponent ctx ctx') as [H1 H2]; [lia|lia|exact Hk|].
      destruct Hf as (_ & (_ & _ & _ & AP & AQ) & VN & Hb & _). rewrite EP, EQ, EN.
      split; [exact Ho|]. split; [exact H1|]. split; [exact H2|]. split; [now rewrite VN|].
      split; [exact AP|]. split; [exact AQ|]. intros PP PQ.
      destruct (key_made_keys hl nbits exponent ctx ctx') as [K1 K2]; auto; try lia; try now rewrite ?EP, ?EQ.
      destruct Hk as (? & _ & _ & _ & _ & _ & _ & _ & _ & _ & _ & Hlen & _ & _ & _ & Hpad & _).
      constructor; [exact K1|exact K2|exact Hpad|rewrite Hlen; dlia].
    + intros e ->. split; [exact Ho|reflexivity].
Qed.

(** ** Limits of the signature checks *)

(** A SHA-224 digest with the length byte [c] and any 28 bytes after it. *)
Definition sha224_like (c : Z) (rest : list Z) : list Z :=
  [0x30; 17 + c; 0x30; 0x0d; 0x06; 0x09; 0x60; 0x86; 0x48; 0x01; 0x65; 0x03; 0x04; 0x02; 4; 0x05;
   0x00; 0x04; c] ++ rest.

(** The SHA-2 comparison of such a block. *)
Lemma sha224_check hashlen hash rest c :
  length rest = 28%nat -> 0 <= c < 200 ->
  check_digest SIG_RSA_SHA224 hashlen hash (sha224_like c rest) =
  (e <- and_then (ret true)
          (and_then (memcmp_eq (firstn 18 ASN1_HASH_SHA2X ++ c :: rest) ASN1_HASH_SHA2X 18)
             (memcmp_eq (skipn 19 (firstn 18 ASN1_HASH_SHA2X ++ c :: rest)) hash (Z.to_nat c)));;
   verify_result e).
Proof.
  intros Hl Hc. unfold check_digest.
  assert (Hlen : Z.of_nat (length (sha224_like c rest)) = 47) by (unfold sha224_like; rewrite length_app, Hl; reflexivity).
  rewrite Hlen.
  change (47 =? 34) with false. change (47 =? 35) with false. change (47 =? 19 + 28) with true. cbv iota.
  rewrite bind_ret. cbv iota.
  change (nth 14 (sha224_like c rest) 0 =? 4) with true. change (SIG_RSA_SHA224 =? SIG_RSA_SHA224) with true.
  cbn [andb orb]. change (nth 1 (sha224_like c rest) 0) with (17 + c).
  replace (u8 (17 + c - 17)) with c by (unfold u8; rewrite Z.mod_small; lia).
  change (upd_list (upd_list (sha224_like c rest) 1 17) 14 0) with (firstn 18 ASN1_HASH_SHA2X ++ c :: rest).
  change (nth 18 (firstn 18 ASN1_HASH_SHA2X ++ c :: rest) 0) with c. rewrite Z.eqb_refl. reflexivity.
Qed.

(** The check of a SHA-2 digest takes the number of bytes it compares
    from the block: a block that says 0 is accepted for every hash, and one
    that says more than the hash has makes it read past the hash.  A raw
    digest of 34 bytes is taken for one of an MD hash, so that its own
    signature is refused. *)
Theorem verify_limits :
  (forall hashlen hash rest, length rest = 28%nat ->
     check_digest SIG_RSA_SHA224 hashlen hash (sha224_like 0 rest) = ret tt) /\
  (forall hashlen hash rest c, length rest = 28%nat -> length hash = 28%nat -> 28 < c < 200 ->
     check_digest SIG_RSA_SHA224 hashlen hash (sha224_like c rest) = ub) /\
  (forall hash, length hash = 34%nat -> firstn 13 hash <> firstn 13 ASN1_HASH_MDX ->
     digest_bytes SIG_RSA_RAW 34 hash = ret hash /\
     check_digest SIG_RSA_RAW 34 hash hash = throw POLARSSL_ERR_RSA_VERIFY_FAILED).
Proof.
  split; [|split].
  - intros hashlen hash rest Hl. rewrite sha224_check by (auto; lia). unfold and_then. rewrite bind_ret.
    rewrite (memcmp_eq_same _ ASN1_HASH_SHA2X 18) by (try reflexivity; simpl; lia). reflexivity.
  - intros hashlen hash rest c Hl Hh Hc. rewrite sha224_check by (auto; lia). unfold and_then. rewrite bind_ret.
    rewrite (memcmp_eq_same _ ASN1_HASH_SHA2X 18) by (try reflexivity; simpl; lia). rewrite bind_ret.
    unfold memcmp_eq, take_bytes. rewrite length_skipn, length_app. cbn [length]. rewrite Hl.
    case_bool (length (firstn 18 ASN1_HASH_SHA2X) + 29 - 19 <? Z.to_nat c)%nat; [reflexivity|].
    change (length (firstn 18 ASN1_HASH_SHA2X)) with 18%nat in *. lia.
  - intros hash Hl Hne. split.
    + unfold digest_bytes. change (SIG_RSA_RAW =? SIG_RSA_RAW) with true. cbn [Z.ltb Z.compare].
      rewrite take_bytes_firstn, firstn_all2 by (rewrite ?Hl; simpl; lia). reflexivity.
    + unfold check_digest. rewrite Hl. change (Z.of_nat 34 =? 34) with true. cbv iota.
      rewrite memcmp_eq_value by (rewrite ?length_upd_list; simpl; lia). rewrite bind_ret.
      destruct (list_eq_dec Z.eq_dec _ _) as [He|He]; [|reflexivity]. exfalso. apply Hne.
      apply (f_equal (firstn 13)) in He. rewrite !firstn_firstn in He. cbn [Nat.min] in He.
      rewrite <- He. do 13 (destruct hash as [|? hash]; [discriminate Hl|]). reflexivity.
Qed.
