(* ===== verification/Pbuf.v ===== *)
(** * lwIP: packet buffers

    [lwip/src/core/pbuf.c] in the configuration of [lwip/port]: the
    alignment is 1, [mem_realloc] returns its argument, and a failed
    [LWIP_ASSERT] or [LWIP_ERROR] calls [abort()].

    The store maps the address of a pbuf to its fields and every block of
    memory to its bytes.  The block with the address of a pbuf is the memory
    after its [struct pbuf]; a payload pointer is a block and an offset into
    it.  What fresh memory holds is a parameter, and so are, as everywhere, the
    answers of [malloc] ([memp_malloc] included).  The request to the TCP
    thread to free out-of-order segments, which an empty pool causes, touches
    no pbuf and is left out. *)
From Stdlib Require Import ZArith List Lia Bool.
From stdpp Require Import base gmap list.
From S2P Require Import Prelude CMonad.
#[local] Open Scope Z_scope.
#[local] Open Scope cmonad_scope.

(** ** Data *)

Definition PBUF_TRANSPORT_HLEN : Z := 20.
Definition PBUF_IP_HLEN : Z := 20.
Definition PBUF_LINK_HLEN : Z := 14.
Definition TCP_MSS : Z := 536.
Definition PBUF_POOL_BUFSIZE : Z := TCP_MSS + 40 + PBUF_LINK_HLEN.

Definition ERR_OK : Z := 0.
Definition ERR_MEM : Z := -1.
Definition ERR_VAL : Z := -9.
Definition ERR_ARG : Z := -10.

(** What a run that [abort()]s ends with. *)
Definition ABORT : Z := 134.

Definition lwip_assert (b : bool) : M unit := if b then ret tt else throw ABORT.

Inductive pbuf_layer := PBUF_TRANSPORT | PBUF_IP | PBUF_LINK | PBUF_RAW.
Inductive pbuf_type := PBUF_RAM | PBUF_ROM | PBUF_REF | PBUF_POOL.

#[export] Instance pbuf_type_eq_dec : EqDecision pbuf_type.
Proof. solve_decision. Defined.

Definition addr : Type := positive.

Record pbuf : Type := Pbuf
  { pb_next : option addr; pb_payload : option (addr * Z); pb_tot_len : Z; pb_len : Z;
    pb_type : pbuf_type; pb_flags : Z; pb_ref : Z }.

Record store : Type := Store
  { st_pbufs : gmap addr pbuf; st_mem : gmap addr (list Z) }.

Definition with_next (x : pbuf) (n : option addr) : pbuf :=
  Pbuf n (pb_payload x) (pb_tot_len x) (pb_len x) (pb_type x) (pb_flags x) (pb_ref x).
Definition with_payload (x : pbuf) (a : option (addr * Z)) : pbuf :=
  Pbuf (pb_next x) a (pb_tot_len x) (pb_len x) (pb_type x) (pb_flags x) (pb_ref x).
Definition with_tot_len (x : pbuf) (n : Z) : pbuf :=
  Pbuf (pb_next x) (pb_payload x) n (pb_len x) (pb_type x) (pb_flags x) (pb_ref x).
Definition with_len (x : pbuf) (n : Z) : pbuf :=
  Pbuf (pb_next x) (pb_payload x) (pb_tot_len x) n (pb_type x) (pb_flags x) (pb_ref x).
Definition with_ref (x : pbuf) (n : Z) : pbuf :=
  Pbuf (pb_next x) (pb_payload x) (pb_tot_len x) (pb_len x) (pb_type x) (pb_flags x) n.

(** ** Memory *)

(** [*p]: undefined for [NULL] and for a pbuf that was freed. *)
Definition fetch (st : store) (p : option addr) : M pbuf :=
  match p with
  | Some a => match st_pbufs st !! a with Some x => ret x | None => ub end
  | None => ub
  end.

Definition set_pbuf (a : addr) (x : pbuf) (st : store) : store := Store (<[a := x]> (st_pbufs st)) (st_mem st).

Definition free_block (a : addr) (st : store) : store :=
  Store (delete a (st_pbufs st)) (delete a (st_mem st)).

(** [n] bytes from [payload + off]. *)
Definition load (st : store) (payload : option (addr * Z)) (off n : Z) : M (list Z) :=
  if n =? 0 then ret []
  else
    match payload with
    | Some (b, o) =>
        match st_mem st !! b with
        | Some l =>
            if (0 <=? o + off) && (0 <=? n) && (o + off + n <=? Z.of_nat (length l)) then
              ret (firstn (Z.to_nat n) (skipn (Z.to_nat (o + off)) l))
            else ub
        | None => ub
        end
    | None => ub
    end.

(** [bs] in place of as many bytes of [l] from [i] on. *)
Definition splice (l : list Z) (i : nat) (bs : list Z) : list Z :=
  firstn i l ++ bs ++ skipn (i + length bs) l.

Definition write_at (l : list Z) (i : Z) (bs : list Z) : M (list Z) :=
  if (0 <=? i) && (i + Z.of_nat (length bs) <=? Z.of_nat (length l)) then ret (splice l (Z.to_nat i) bs)
  else ub.

(** [memcpy( payload + off, bs, .. )] *)
Definition save (st : store) (payload : option (addr * Z)) (off : Z) (bs : list Z) : M store :=
  if (length bs =? 0)%nat then ret st
  else
    match payload with
    | Some (b, o) =>
        match st_mem st !! b with
        | Some l => l <- write_at l (o + off) bs;; ret (Store (st_pbufs st) (<[b := l]> (st_mem st)))
        | None => ub
        end
    | None => ub
    end.

(** The fuel of a walk along a chain. *)
Definition walk_fuel (st : store) : nat := S (size (st_pbufs st)).

(** ** Reference counts *)

(** [while (p != NULL)] of [pbuf_free]. *)
Fixpoint free_loop (fuel : nat) (p : option addr) (count : Z) (st : store) : M (Z * store) :=
  match p with
  | None => ret (count, st)
  | Some a =>
      match fuel with
      | O => out_of_fuel
      | S fuel' =>
          x <- fetch st p;;
          _ <- lwip_assert (0 <? pb_ref x);;
          let r := u16 (pb_ref x - 1) in
          let st := set_pbuf a (with_ref x r) st in
          if r =? 0 then free_loop fuel' (pb_next x) (u8 (count + 1)) (free_block a st)
          else free_loop fuel' None count st
      end
  end.

Definition pbuf_free (p : option addr) (st : store) : M (Z * store) :=
  _ <- lwip_assert (bool_decide (p <> None));;
  free_loop (walk_fuel st) p 0 st.

Definition pbuf_ref (p : option addr) (st : store) : M store :=
  match p with
  | Some a =>
      x <- fetch st p;;
      ret (set_pbuf a (with_ref x (u16 (pb_ref x + 1))) st)
  | None => ret st
  end.

Fixpoint clen_loop (fuel : nat) (p : option addr) (len : Z) (st : store) : M Z :=
  match p with
  | None => ret len
  | Some _ =>
      match fuel with
      | O => out_of_fuel
      | S fuel' =>
          x <- fetch st p;;
          clen_loop fuel' (pb_next x) (u8 (len + 1)) st
      end
  end.

Definition pbuf_clen (p : option addr) (st : store) : M Z := clen_loop (walk_fuel st) p 0 st.

(** ** Allocation *)

Section Alloc.
(** What fresh memory holds. *)
Variable junk : nat -> Z.

Definition new_block (size : Z) (st : store) : M (option addr * store) :=
  ok <- malloc;;
  if (ok : bool) then
    let a := fresh (dom (st_pbufs st) ∪ dom (st_mem st)) in
    ret (Some a, Store (st_pbufs st) (<[a := map junk (seq 0 (Z.to_nat size))]> (st_mem st)))
  else ret (None, st).

Definition header_room (layer : pbuf_layer) : Z :=
  match layer with
  | PBUF_TRANSPORT => PBUF_TRANSPORT_HLEN + PBUF_IP_HLEN + PBUF_LINK_HLEN
  | PBUF_IP => PBUF_IP_HLEN + PBUF_LINK_HLEN
  | PBUF_LINK => PBUF_LINK_HLEN
  | PBUF_RAW => 0
  end.

(** [p->payload + p->len <= p + SIZEOF_STRUCT_PBUF + PBUF_POOL_BUFSIZE_ALIGNED] *)
Definition fits_pool (st : store) (p : addr) : M bool :=
  x <- fetch st (Some p);;
  match pb_payload x with
  | Some (b, o) => if bool_decide (b = p) then ret (o + pb_len x <=? PBUF_POOL_BUFSIZE) else ub
  | None => ub
  end.

(** [while (rem_len > 0)]: the tail of the chain with head [p], after [r]. *)
Fixpoint pool_tail (fuel : nat) (p r : addr) (rem_len : Z) (st : store) : M (option addr * store) :=
  if 0 <? rem_len then
    match fuel with
    | O => out_of_fuel
    | S fuel' =>
        '(q, st) <- new_block PBUF_POOL_BUFSIZE st;;
        match q with
        | None =>
            '(_, st) <- pbuf_free (Some p) st;;
            ret (None, st)
        | Some q =>
            x <- fetch st (Some r);;
            let st := set_pbuf r (with_next x (Some q)) st in
            _ <- lwip_assert (rem_len <? 0xffff);;
            let qlen := Z.min (u16 rem_len) PBUF_POOL_BUFSIZE in
            let st := set_pbuf q (Pbuf None (Some (q, 0)) (u16 rem_len) qlen PBUF_POOL 0 1) st in
            fits <- fits_pool st p;;
            _ <- lwip_assert fits;;
            pool_tail fuel' p q (rem_len - qlen) st
        end
    end
  else ret (Some p, st).

(** [p->ref = 1; p->flags = 0;] *)
Definition alloc_end (p : addr) (st : store) : M (option addr * store) :=
  x <- fetch st (Some p);;
  ret (Some p, set_pbuf p (Pbuf (pb_next x) (pb_payload x) (pb_tot_len x) (pb_len x) (pb_type x) 0 1) st).

Definition pbuf_alloc (layer : pbuf_layer) (length : Z) (type : pbuf_type) (st : store)
    : M (option addr * store) :=
  let offset := header_room layer in
  match type with
  | PBUF_POOL =>
      '(p, st) <- new_block PBUF_POOL_BUFSIZE st;;
      match p with
      | None => ret (None, st)
      | Some p =>
          let plen := Z.min length (PBUF_POOL_BUFSIZE - offset) in
          let st := set_pbuf p (Pbuf None (Some (p, offset)) length plen type 0 1) st in
          fits <- fits_pool st p;;
          _ <- lwip_assert fits;;
          _ <- lwip_assert (0 <? PBUF_POOL_BUFSIZE - offset);;
          '(q, st) <- pool_tail (Z.to_nat length) p p (length - plen) st;;
          match q with
          | None => ret (None, st)
          | Some p => alloc_end p st
          end
      end
  | PBUF_RAM =>
      '(p, st) <- new_block (offset + length) st;;
      match p with
      | None => ret (None, st)
      | Some p => alloc_end p (set_pbuf p (Pbuf None (Some (p, offset)) length length type 0 0) st)
      end
  | PBUF_ROM | PBUF_REF =>
      '(p, st) <- new_block 0 st;;
      match p with
      | None => ret (None, st)
      | Some p => alloc_end p (set_pbuf p (Pbuf None None length length type 0 0) st)
      end
  end.
End Alloc.

(** ** Chains *)

(** [for (p = h; p->next != NULL; p = p->next)]: the last pbuf. *)
Fixpoint cat_loop (fuel : nat) (p t : addr) (st : store) : M (addr * store) :=
  match fuel with
  | O => out_of_fuel
  | S fuel' =>
      x <- fetch st (Some p);;
      match pb_next x with
      | None => ret (p, st)
      | Some n =>
          y <- fetch st (Some t);;
          cat_loop fuel' n t (set_pbuf p (with_tot_len x (u16 (pb_tot_len x + pb_tot_len y))) st)
      end
  end.

Definition pbuf_cat (h t : option addr) (st : store) : M store :=
  match h, t with
  | Some h, Some t =>
      '(p, st) <- cat_loop (walk_fuel st) h t st;;
      x <- fetch st (Some p);;
      _ <- lwip_assert (pb_tot_len x =? pb_len x);;
      y <- fetch st (Some t);;
      ret (set_pbuf p (with_next (with_tot_len x (u16 (pb_tot_len x + pb_tot_len y))) (Some t)) st)
  | _, _ => throw ABORT
  end.

Definition pbuf_chain (h t : option addr) (st : store) : M store :=
  st <- pbuf_cat h t st;;
  pbuf_ref t st.

Definition pbuf_dechain (p : addr) (st : store) : M (option addr * store) :=
  x <- fetch st (Some p);;
  let q := pb_next x in
  '(tail_gone, st) <-
    (match q with
     | None => ret (1, st)
     | Some qa =>
         y <- fetch st q;;
         _ <- lwip_assert (pb_tot_len y =? pb_tot_len x - pb_len x);;
         let st := set_pbuf qa (with_tot_len y (u16 (pb_tot_len x - pb_len x))) st in
         x <- fetch st (Some p);;
         let st := set_pbuf p (with_tot_len (with_next x None) (pb_len x)) st in
         pbuf_free q st
     end);;
  x <- fetch st (Some p);;
  _ <- lwip_assert (pb_tot_len x =? pb_len x);;
  ret (if 0 <? tail_gone then None else q, st).

(** ** Shrinking and headers *)

(** [while (rem_len > q->len)] *)
Fixpoint realloc_loop (fuel : nat) (q : addr) (rem_len grow : Z) (st : store) : M (addr * Z * store) :=
  match fuel with
  | O => out_of_fuel
  | S fuel' =>
      x <- fetch st (Some q);;
      if pb_len x <? rem_len then
        _ <- lwip_assert (grow <? 0xffff);;
        let st := set_pbuf q (with_tot_len x (u16 (pb_tot_len x + u16 grow))) st in
        match pb_next x with
        | None => throw ABORT
        | Some n => realloc_loop fuel' n (u16 (rem_len - pb_len x)) grow st
        end
      else ret (q, rem_len, st)
  end.

Definition pbuf_realloc (p : option addr) (new_len : Z) (st : store) : M store :=
  match p with
  | None => throw ABORT
  | Some pa =>
      x <- fetch st p;;
      if pb_tot_len x <=? new_len then ret st
      else
        let grow := new_len - pb_tot_len x in
        '(q, rem_len, st) <- realloc_loop (walk_fuel st) pa new_len grow st;;
        x <- fetch st (Some q);;
        let st := set_pbuf q (with_tot_len (with_len x rem_len) rem_len) st in
        st <- (match pb_next x with
               | None => ret st
               | Some n => '(_, st) <- pbuf_free (Some n) st;; ret st
               end);;
        x <- fetch st (Some q);;
        ret (set_pbuf q (with_next x None) st)
  end.

Definition pbuf_header (p : option addr) (header_size_increment : Z) (st : store) : M (Z * store) :=
  match p with
  | None => throw ABORT
  | Some pa =>
      if header_size_increment =? 0 then ret (0, st)
      else
        x <- fetch st p;;
        let increment_magnitude := u16 (Z.abs header_size_increment) in
        _ <- lwip_assert ((0 <? header_size_increment) || (increment_magnitude <=? pb_len x));;
        let moved := fun b o =>
          ret (0, set_pbuf pa
            (with_tot_len
               (with_len (with_payload x (Some (b, o - header_size_increment)))
                  (u16 (pb_len x + header_size_increment)))
               (u16 (pb_tot_len x + header_size_increment))) st) in
        match pb_type x with
        | PBUF_RAM | PBUF_POOL =>
            match pb_payload x with
            | Some (b, o) =>
                if bool_decide (b = pa) then
                  if o - header_size_increment <? 0 then ret (1, st) else moved b o
                else ub
            | None => ub
            end
        | PBUF_REF | PBUF_ROM =>
            if (header_size_increment <? 0) && (increment_magnitude <=? pb_len x) then
              match pb_payload x with Some (b, o) => moved b o | None => ub end
            else ret (1, st)
        end
  end.

(** ** Copies *)

(** [LWIP_ERROR] against packet queues: the pbuf ends a packet and has a
    successor. *)
Definition no_queue (st : store) (p : option addr) : M unit :=
  match p with
  | None => ret tt
  | Some _ =>
      x <- fetch st p;;
      lwip_assert (negb ((pb_len x =? pb_tot_len x) && bool_decide (pb_next x <> None)))
  end.

(** The [do .. while (p_from)] loop. *)
Fixpoint copy_loop (fuel : nat) (p_to p_from : option addr) (offset_to offset_from : Z) (st : store)
    : M (Z * store) :=
  match fuel with
  | O => out_of_fuel
  | S fuel' =>
      _ <- lwip_assert (bool_decide (p_to <> None));;
      t <- fetch st p_to;;
      f <- fetch st p_from;;
      let len := if pb_len f - offset_from <=? pb_len t - offset_to then u16 (pb_len f - offset_from)
                 else u16 (pb_len t - offset_to) in
      bs <- load st (pb_payload f) offset_from len;;
      st <- save st (pb_payload t) offset_to bs;;
      let offset_to := u16 (offset_to + len) in
      let offset_from := u16 (offset_from + len) in
      _ <- lwip_assert (offset_to <=? pb_len t);;
      let '(p_to, offset_to) := if offset_to =? pb_len t then (pb_next t, 0) else (p_to, offset_to) in
      _ <- lwip_assert (offset_from <=? pb_len f);;
      let '(p_from, offset_from) :=
        if pb_len f <=? offset_from then (pb_next f, 0) else (p_from, offset_from) in
      _ <- no_queue st p_from;;
      _ <- no_queue st p_to;;
      match p_from with
      | None => ret (ERR_OK, st)
      | Some _ => copy_loop fuel' p_to p_from offset_to offset_from st
      end
  end.

Definition pbuf_copy (p_to p_from : option addr) (st : store) : M (Z * store) :=
  match p_to, p_from with
  | Some _, Some _ =>
      t <- fetch st p_to;;
      f <- fetch st p_from;;
      _ <- lwip_assert (pb_tot_len f <=? pb_tot_len t);;
      copy_loop (2 * walk_fuel st) p_to p_from 0 0 st
  | _, _ => throw ABORT
  end.

(** The bytes copied so far, and the destination. *)
Fixpoint copy_partial_loop (fuel : nat) (p : option addr) (dataptr : list Z) (left len offset : Z) (st : store)
    : M (Z * list Z) :=
  match p with
  | None => ret (left, dataptr)
  | Some _ =>
      if len =? 0 then ret (left, dataptr)
      else
        match fuel with
        | O => out_of_fuel
        | S fuel' =>
            x <- fetch st p;;
            if negb (offset =? 0) && (pb_len x <=? offset) then
              copy_partial_loop fuel' (pb_next x) dataptr left len (u16 (offset - pb_len x)) st
            else
              let n := u16 (pb_len x - offset) in
              let n := if len <? n then len else n in
              bs <- load st (pb_payload x) offset n;;
              dataptr <- write_at dataptr left bs;;
              copy_partial_loop fuel' (pb_next x) dataptr (u16 (left + n)) (u16 (len - n)) 0 st
        end
  end.

(** The number of bytes copied, and the buffer of the caller. *)
Definition pbuf_copy_partial (buf : option addr) (dataptr : option (list Z)) (len offset : Z) (st : store)
    : M (Z * list Z) :=
  match buf, dataptr with
  | Some _, Some dataptr => copy_partial_loop (walk_fuel st) buf dataptr 0 len offset st
  | _, _ => throw ABORT
  end.

Fixpoint take_loop (fuel : nat) (p : option addr) (dataptr : list Z) (total_copy_len copied_total : Z)
    (st : store) : M (Z * store) :=
  if total_copy_len =? 0 then ret (copied_total, st)
  else
    match fuel with
    | O => out_of_fuel
    | S fuel' =>
        _ <- lwip_assert (bool_decide (p <> None));;
        x <- fetch st p;;
        let n := if pb_len x <? total_copy_len then pb_len x else total_copy_len in
        bs <- take_bytes (Z.to_nat n) (skipn (Z.to_nat copied_total) dataptr);;
        st <- save st (pb_payload x) 0 bs;;
        take_loop fuel' (pb_next x) dataptr (u16 (total_copy_len - n)) (u16 (copied_total + n)) st
    end.

Definition pbuf_take (buf : option addr) (dataptr : option (list Z)) (len : Z) (st : store) : M (Z * store) :=
  match buf, dataptr with
  | Some _, Some dataptr =>
      x <- fetch st buf;;
      if pb_tot_len x <? len then ret (ERR_ARG, st)
      else
        '(copied_total, st) <- take_loop (walk_fuel st) buf dataptr len 0 st;;
        _ <- lwip_assert (copied_total =? len);;
        ret (ERR_OK, st)
  | _, _ => throw ABORT
  end.

Definition pbuf_coalesce (junk : nat -> Z) (p : addr) (layer : pbuf_layer) (st : store)
    : M (option addr * store) :=
  x <- fetch st (Some p);;
  match pb_next x with
  | None => ret (Some p, st)
  | Some _ =>
      '(q, st) <- pbuf_alloc junk layer (pb_tot_len x) PBUF_RAM st;;
      match q with
      | None => ret (Some p, st)
      | Some _ =>
          '(err, st) <- pbuf_copy q (Some p) st;;
          _ <- lwip_assert (err =? ERR_OK);;
          '(_, st) <- pbuf_free (Some p) st;;
          ret (q, st)
      end
  end.
