(* ===== verification/PbufChain.v ===== *)
(** * lwIP packet buffers: chains

    The invariant of a chain of pbufs, and what counting, referencing,
    freeing, joining and splitting chains do to it. *)
From Stdlib Require Import ZArith List Lia Bool.
From stdpp Require Import base gmap list.
From S2P Require Import Prelude CMonad Pbuf.
#[local] Open Scope Z_scope.
#[local] Open Scope cmonad_scope.

(** ** The invariant *)

(** The pbufs from [p] on, up to the [NULL] at the end. *)
Inductive chain (m : gmap addr pbuf) : option addr -> list (addr * pbuf) -> Prop :=
| chain_nil : chain m None []
| chain_cons a x l : m !! a = Some x -> chain m (pb_next x) l -> chain m (Some a) ((a, x) :: l).

(** The sum of the lengths. *)
Fixpoint total (l : list (addr * pbuf)) : Z :=
  match l with [] => 0 | (_, x) :: l' => pb_len x + total l' end.

(** [p->tot_len == p->len + (p->next? p->next->tot_len: 0)], with all numbers
    in their ranges. *)
Fixpoint totals_ok (l : list (addr * pbuf)) : Prop :=
  match l with
  | [] => True
  | (_, x) :: l' => pb_tot_len x = total l /\ 0 <= pb_len x /\ 0 < pb_ref x < 65536 /\ total l < 65536 /\ totals_ok l'
  end.

(** A packet: a chain with the invariant. *)
Definition packet (st : store) (p : option addr) (l : list (addr * pbuf)) : Prop :=
  chain (st_pbufs st) p l /\ totals_ok l.

Notation addrs l := (map fst l).

Lemma total_app l1 l2 : total (l1 ++ l2) = total l1 + total l2.
Proof. induction l1 as [|[a x] l1 IH]; simpl; lia. Qed.

Lemma totals_nonneg l : totals_ok l -> 0 <= total l.
Proof. induction l as [|[a x] l IH]; simpl; [lia|]. intros (_ & H0 & _ & _ & H). specialize (IH H). lia. Qed.

Lemma totals_app l1 l2 : totals_ok (l1 ++ l2) -> totals_ok l2.
Proof. induction l1 as [|[a x] l1 IH]; simpl; [auto|]. intros (_ & _ & _ & _ & H). auto. Qed.

Lemma chain_unique m p l l' : chain m p l -> chain m p l' -> l = l'.
Proof.
  intros H. revert l'. induction H as [|a x l Hx H IH]; intros l' H'; inversion H' as [|a' x' l2 Hx' H2]; subst; [reflexivity|].
  rewrite Hx in Hx'. injection Hx' as <-. f_equal. auto.
Qed.

Lemma chain_lookup m p l a x : chain m p l -> In (a, x) l -> m !! a = Some x.
Proof. induction 1; simpl; [tauto|]. intros [[= <- <-]|Hin]; auto. Qed.

(** A pbuf of a chain is the head of the rest. *)
Lemma chain_from m p l a : chain m p l -> In a (addrs l) ->
  exists l1 l2, l = l1 ++ l2 /\ chain m (Some a) l2.
Proof.
  induction 1 as [|b x l Hx H IH]; simpl; [tauto|]. intros [->|Hin].
  - exists [], ((a, x) :: l). split; [reflexivity|]. now constructor.
  - destruct (IH Hin) as (l1 & l2 & -> & H2). exists ((b, x) :: l1), l2. auto.
Qed.

(** A chain ends, so it visits no pbuf twice. *)
Lemma chain_head_fresh m a x l : chain m (Some a) ((a, x) :: l) -> ~ In a (addrs l).
Proof.
  intros H Hin. inversion H as [|b y l' Hx H' E1]; subst.
  destruct (chain_from _ _ _ a H' Hin) as (l1 & l2 & -> & H2).
  pose proof (chain_unique _ _ _ _ H H2) as He. apply (f_equal (@length _)) in He. simpl in He.
  rewrite length_app in He. lia.
Qed.

Lemma chain_NoDup m p l : chain m p l -> NoDup (addrs l).
Proof.
  induction 1 as [|a x l Hx H IH]; simpl; constructor; [|exact IH].
  rewrite list_elem_of_In. apply (chain_head_fresh m a x). now constructor.
Qed.

Lemma chain_app m p l1 a x l2 : chain m p (l1 ++ (a, x) :: l2) -> chain m (Some a) ((a, x) :: l2).
Proof.
  revert p. induction l1 as [|[b y] l1 IH]; intros p H; simpl in *.
  - inversion H; subst. exact H.
  - inversion H; subst. eauto.
Qed.

(** Changes outside a chain. *)
Lemma chain_ext m m' p l : chain m p l -> (forall a, In a (addrs l) -> m' !! a = m !! a) -> chain m' p l.
Proof.
  induction 1 as [|a x l Hx H IH]; intros He; constructor.
  - rewrite He; [exact Hx|now left].
  - apply IH. intros b Hb. apply He. now right.
Qed.

Lemma chain_insert m p l a x : chain m p l -> ~ In a (addrs l) -> chain (<[a := x]> m) p l.
Proof.
  intros H Hn. apply (chain_ext m); [exact H|]. intros b Hb. apply lookup_insert_ne. now intros ->.
Qed.

Lemma chain_delete m p l a : chain m p l -> ~ In a (addrs l) -> chain (delete a m) p l.
Proof.
  intros H Hn. apply (chain_ext m); [exact H|]. intros b Hb. apply lookup_delete_ne. now intros ->.
Qed.

(** The walks have fuel enough. *)
Lemma chain_size m p l : chain m p l -> (length l <= size m)%nat.
Proof.
  intros H. pose proof (chain_NoDup _ _ _ H) as Hnd.
  assert (Hsub : list_to_set (addrs l) ⊆ dom m).
  { intros a. rewrite elem_of_list_to_set, list_elem_of_In, in_map_iff. intros ([b x] & <- & Hin).
    apply elem_of_dom. exists x. now apply (chain_lookup _ _ _ _ _ H). }
  apply subseteq_size in Hsub. rewrite size_dom, size_list_to_set in Hsub by exact Hnd.
  now rewrite length_map in Hsub.
Qed.

Lemma fetch_some st a x : st_pbufs st !! a = Some x -> fetch st (Some a) = ret x.
Proof. intros H. unfold fetch. now rewrite H. Qed.

Lemma lwip_assert_true b : b = true -> lwip_assert b = ret tt.
Proof. now intros ->. Qed.

(** ** Counting and freeing *)

Lemma clen_loop_spec fuel st p l n :
  chain (st_pbufs st) p l -> (length l <= fuel)%nat -> 0 <= n < 256 ->
  clen_loop fuel p n st = ret (u8 (n + Z.of_nat (length l))).
Proof.
  revert p l n. induction fuel as [|fuel IH]; intros p l n H Hl Hn; inversion H as [|a x l' Hx H']; subst; simpl in Hl |- *.
  1, 3: unfold u8; rewrite Z.add_0_r, Z.mod_small by lia; reflexivity.
  { lia. }
  rewrite Hx, bind_ret, (IH (pb_next x) l') by (auto; unfold u8; pose proof (Z.mod_pos_bound (n + 1) 256); lia).
  f_equal. unfold u8. rewrite Zplus_mod_idemp_l. f_equal. lia.
Qed.

Lemma pbuf_clen_spec st p l : chain (st_pbufs st) p l -> pbuf_clen p st = ret (u8 (Z.of_nat (length l))).
Proof.
  intros H. unfold pbuf_clen, walk_fuel. pose proof (chain_size _ _ _ H).
  rewrite (clen_loop_spec _ st p l 0) by (auto; lia). reflexivity.
Qed.

(** What [pbuf_free] does to a chain: the pbufs it frees, as long as each has
    a single reference, and the reference it takes from the next one. *)
Fixpoint freed (l : list (addr * pbuf)) (st : store) : nat * store :=
  match l with
  | [] => (O, st)
  | (a, x) :: l' =>
      if pb_ref x =? 1 then let '(n, st') := freed l' (free_block a st) in (S n, st')
      else (O, set_pbuf a (with_ref x (pb_ref x - 1)) st)
  end.

Lemma free_block_set a x st : free_block a (set_pbuf a x st) = free_block a st.
Proof. unfold free_block, set_pbuf. simpl. now rewrite delete_insert_eq. Qed.


(** Reference counts in their range. *)
Definition refs_ok (l : list (addr * pbuf)) : Prop := Forall (fun c => 0 < pb_ref (snd c) < 65536) l.

Lemma totals_refs l : totals_ok l -> refs_ok l.
Proof. induction l as [|[a x] l IH]; intros H; [constructor|]. destruct H as (_ & _ & Hr & _ & H). constructor; [exact Hr|]. now apply IH. Qed.

Lemma free_loop_spec fuel st p l n :
  chain (st_pbufs st) p l -> refs_ok l -> (length l <= fuel)%nat -> 0 <= n < 256 ->
  free_loop fuel p n st = ret (u8 (n + Z.of_nat (fst (freed l st))), snd (freed l st)).
Proof.
  revert st p l n. induction fuel as [|fuel IH]; intros st p l n H Ht Hl Hn;
    inversion H as [|a x l' Hx H']; subst; simpl in Hl; try lia.
  1, 2: simpl; unfold u8; rewrite Z.add_0_r, Z.mod_small by lia; reflexivity.
  inversion Ht as [|? ? Hr Ht']; subst. cbn [snd] in Hr. cbn [free_loop freed].
  rewrite (fetch_some st a x), bind_ret by exact Hx.
  rewrite lwip_assert_true, bind_ret by (apply Z.ltb_lt; lia). cbv zeta.
  unfold u16. rewrite Z.mod_small by lia.
  case_bool (pb_ref x =? 1); case_bool (pb_ref x - 1 =? 0); try lia.
  - rewrite free_block_set. destruct (freed l' (free_block a st)) as [k st'] eqn:Ef.
    rewrite (IH (free_block a st) (pb_next x) l').
    + rewrite Ef. cbn [fst snd]. f_equal. f_equal. unfold u8. rewrite Zplus_mod_idemp_l. f_equal. lia.
    + apply chain_delete; [exact H'|now apply (chain_head_fresh (st_pbufs st) a x)].
    + exact Ht'.
    + lia.
    + unfold u8. apply Z.mod_pos_bound. lia.
  - cbn [fst snd]. destruct fuel; cbn [free_loop]; unfold u8; rewrite Z.add_0_r, Z.mod_small by lia; reflexivity.
Qed.

(** [pbuf_free] on a chain. *)
Lemma pbuf_free_chain st a l :
  chain (st_pbufs st) (Some a) l -> refs_ok l ->
  pbuf_free (Some a) st = ret (u8 (Z.of_nat (fst (freed l st))), snd (freed l st)).
Proof.
  intros H Hr. unfold pbuf_free, walk_fuel. rewrite lwip_assert_true, bind_ret by (now apply bool_decide_eq_true).
  pose proof (chain_size _ _ _ H). rewrite (free_loop_spec _ st _ l) by (auto; lia). reflexivity.
Qed.

Lemma pbuf_free_spec st a l :
  packet st (Some a) l -> pbuf_free (Some a) st = ret (u8 (Z.of_nat (fst (freed l st))), snd (freed l st)).
Proof. intros [H Ht]. apply pbuf_free_chain; [exact H|now apply totals_refs]. Qed.

(** Freeing touches the pbufs of the chain only. *)
Lemma freed_other l st b :
  ~ In b (addrs l) ->
  st_pbufs (snd (freed l st)) !! b = st_pbufs st !! b /\ st_mem (snd (freed l st)) !! b = st_mem st !! b.
Proof.
  revert st. induction l as [|[a x] l IH]; intros st Hn; cbn [freed]; [auto|].
  assert (Hab : a <> b) by (intros ->; apply Hn; now left).
  case_bool (pb_ref x =? 1).
  - specialize (IH (free_block a st)). destruct (freed l (free_block a st)) as [k st']. cbn [snd] in *.
    destruct IH as [-> ->]; [intros Hin; apply Hn; now right|]. unfold free_block. simpl.
    now rewrite !lookup_delete_ne by exact Hab.
  - cbn [snd]. unfold set_pbuf. simpl. now rewrite lookup_insert_ne by exact Hab.
Qed.

(** A chain nobody else refers to is freed as a whole. *)
Lemma freed_all l st :
  (forall a x, In (a, x) l -> pb_ref x = 1) ->
  fst (freed l st) = length l /\
  forall b, In b (addrs l) -> st_pbufs (snd (freed l st)) !! b = None /\ st_mem (snd (freed l st)) !! b = None.
Proof.
  revert st. induction l as [|[a x] l IH]; intros st Hr; cbn [freed]; [simpl; tauto|].
  rewrite (Hr a x) by now left. cbn [Z.eqb Pos.eqb].
  destruct (IH (free_block a st)) as [Hn Hb]; [intros b y Hin; apply (Hr b); now right|].
  assert (Hin : forall b, In b (addrs l) \/ ~ In b (addrs l)).
  { intros b. destruct (in_dec Pos.eq_dec b (addrs l)); auto. }
  pose proof (freed_other l (free_block a st)) as Ho.
  destruct (freed l (free_block a st)) as [k st']. cbn [fst snd length] in *. split; [now rewrite Hn|].
  intros b Hb0. simpl in Hb0. destruct Hb0 as [<-|Hb']; [|now apply Hb]. destruct (Hin a) as [Ha|Ha]; [now apply Hb|].
  destruct (Ho a Ha) as [-> ->]. unfold free_block. simpl. now rewrite !lookup_delete_eq.
Qed.

(** ** Joining *)

(** The first chain once the second one, with head [t] and [n] bytes, follows. *)
Fixpoint joined (t : addr) (n : Z) (l : list (addr * pbuf)) : list (addr * pbuf) :=
  match l with
  | [] => []
  | (a, x) :: l' =>
      let x := with_tot_len x (u16 (pb_tot_len x + n)) in
      match l' with
      | [] => [(a, with_next x (Some t))]
      | _ => (a, x) :: joined t n l'
      end
  end.

Lemma joined_cons t n a x l : l <> [] ->
  joined t n ((a, x) :: l) = (a, with_tot_len x (u16 (pb_tot_len x + n))) :: joined t n l.
Proof. destruct l; [contradiction|reflexivity]. Qed.

Lemma joined_addrs t n l : addrs (joined t n l) = addrs l.
Proof.
  induction l as [|[a x] l IH]; [reflexivity|]. destruct l as [|c l]; [reflexivity|].
  rewrite joined_cons by discriminate. simpl map in *. now rewrite IH.
Qed.

(** The lengths and the payloads are the same. *)
Lemma joined_fields t n l :
  map (fun '(_, x) => (pb_len x, pb_payload x)) (joined t n l) = map (fun '(_, x) => (pb_len x, pb_payload x)) l.
Proof.
  induction l as [|[a x] l IH]; [reflexivity|]. destruct l as [|c l]; [reflexivity|].
  rewrite joined_cons by discriminate. simpl map in *. now rewrite IH.
Qed.

Lemma joined_totals t l1 l2 : totals_ok l1 -> totals_ok l2 -> total l1 + total l2 < 65536 ->
  totals_ok (joined t (total l2) l1 ++ l2) /\ total (joined t (total l2) l1) = total l1.
Proof.
  intros H1 H2 Hs. pose proof (totals_nonneg l2 H2) as H0. revert H1 Hs.
  induction l1 as [|[a x] l1 IH]; intros H1 Hs; [simpl; auto|].
  assert (Hx : forall r, total r = total l1 -> total ((a, x) :: r ++ l2) = total ((a, x) :: l1) + total l2).
  { intros r Hr. simpl. rewrite total_app, Hr. lia. }
  destruct H1 as (Ht & Hl & Hr & Hb & H1). pose proof (totals_nonneg l1 H1) as Hn1. cbn [total] in Ht, Hs, Hb.
  destruct l1 as [|c l1].
  - cbn [joined app totals_ok total with_next with_tot_len pb_tot_len pb_len pb_ref] in *. unfold u16.
    rewrite Z.mod_small by lia. split; [|reflexivity]. repeat (split; [lia|]). exact H2.
  - rewrite joined_cons by discriminate. destruct IH as [IH1 IH2]; [exact H1|lia|].
    cbn [app totals_ok total with_tot_len pb_tot_len pb_len pb_ref] in *. unfold u16.
    rewrite total_app, IH2, Z.mod_small by lia. split; [|lia]. repeat (split; [lia|]). exact IH1.
Qed.

Lemma cat_spec fuel st p x l1 t y l2 :
  chain (st_pbufs st) (Some p) ((p, x) :: l1) -> totals_ok ((p, x) :: l1) ->
  chain (st_pbufs st) (Some t) ((t, y) :: l2) -> (forall a, In a (addrs ((p, x) :: l1)) -> ~ In a (addrs ((t, y) :: l2))) ->
  (length l1 < fuel)%nat ->
  exists st',
    ('(p, st) <- cat_loop fuel p t st;;
     x <- fetch st (Some p);;
     _ <- lwip_assert (pb_tot_len x =? pb_len x);;
     y <- fetch st (Some t);;
     ret (set_pbuf p (with_next (with_tot_len x (u16 (pb_tot_len x + pb_tot_len y))) (Some t)) st)) = ret st' /\
    chain (st_pbufs st') (Some p) (joined t (pb_tot_len y) ((p, x) :: l1) ++ (t, y) :: l2) /\
    (forall b, ~ In b (addrs ((p, x) :: l1)) -> st_pbufs st' !! b = st_pbufs st !! b) /\ st_mem st' = st_mem st.
Proof.
  revert st p x l1. induction fuel as [|fuel IH]; intros st p x l1 H1 Ht H2 Hd Hf; [lia|].
  pose proof (chain_head_fresh _ _ _ _ H1) as Hp.
  inversion H1 as [|? ? ? Hx H1']; subst. pose proof (chain_lookup _ _ _ t y H2 ltac:(now left)) as Hy.
  assert (Hpt : t <> p) by (intros ->; apply (Hd p); now left).
  cbn [cat_loop]. rewrite (fetch_some st p x), bind_ret by exact Hx.
  destruct l1 as [|[n z] l1].
  - inversion H1' as [En|]; subst. rewrite <- En in *. rewrite bind_ret.
    rewrite (fetch_some st p x), bind_ret by exact Hx. destruct Ht as (Ht & _). simpl in Ht.
    rewrite lwip_assert_true, bind_ret by (apply Z.eqb_eq; lia).
    rewrite (fetch_some st t y), bind_ret by exact Hy. eexists. split; [reflexivity|].
    split; [|split; [|reflexivity]].
    + cbn [joined app]. constructor; [apply lookup_insert_eq|]. cbn [with_next pb_next].
      apply chain_insert; [exact H2|]. apply Hd. now left.
    + intros b Hb. simpl. apply lookup_insert_ne. intros ->. apply Hb. now left.
  - assert (En : pb_next x = Some n) by (inversion H1'; congruence). rewrite En in *.
    rewrite (fetch_some st t y), bind_ret by exact Hy.
    set (x' := with_tot_len x (u16 (pb_tot_len x + pb_tot_len y))). set (st1 := set_pbuf p x' st).
    destruct (IH st1 n z l1) as (st' & He & Hc & Ho & Hm).
    + apply chain_insert; auto.
    + apply Ht.
    + apply chain_insert; [exact H2|]. apply Hd. now left.
    + intros a Ha. apply Hd. now right.
    + simpl in Hf. lia.
    + exists st'. split; [exact He|]. split; [|split].
      * rewrite joined_cons by discriminate. cbn [app]. constructor; [|exact Hc || (unfold x'; cbn; rewrite En; exact Hc)].
        rewrite Ho by exact Hp. apply lookup_insert_eq.
      * intros b Hb. rewrite Ho by (intros Hin; apply Hb; now right). apply lookup_insert_ne. intros ->. apply Hb. now left.
      * rewrite Hm. reflexivity.
Qed.

(** [pbuf_cat] joins two packets that share no pbuf. *)
Lemma pbuf_cat_spec st h l1 t l2 :
  packet st (Some h) l1 -> packet st (Some t) l2 -> (forall a, In a (addrs l1) -> ~ In a (addrs l2)) ->
  total l1 + total l2 < 65536 ->
  exists st', pbuf_cat (Some h) (Some t) st = ret st' /\
    packet st' (Some h) (joined t (total l2) l1 ++ l2) /\
    (forall b, ~ In b (addrs l1) -> st_pbufs st' !! b = st_pbufs st !! b) /\ st_mem st' = st_mem st.
Proof.
  intros [H1 T1] [H2 T2] Hd Hs.
  inversion H1 as [|? x l1' Hx H1']; subst. inversion H2 as [|? y l2' Hy H2']; subst.
  pose proof (chain_size _ _ _ H1) as Hsz. simpl in Hsz.
  destruct (cat_spec (walk_fuel st) st h x l1' t y l2' H1 T1 H2 Hd) as (st' & He & Hc & Ho & Hm);
    [unfold walk_fuel; lia|].
  exists st'. split; [exact He|]. split; [|split; assumption].
  destruct T2 as (Ty & T2). change (total ((t, y) :: l2')) with (total ((t, y) :: l2')) in *. rewrite <- Ty in *.
  split; [exact Hc|]. rewrite Ty in *. apply joined_totals; [exact T1| |exact Hs]. split; [exact Ty|exact T2].
Qed.
