(* ===== verification/PbufData.v ===== *)
(** * lwIP packet buffers: contents

    The bytes of a packet, and what the copies, the changes of header and the
    shrinking of a packet do to them. *)
From Stdlib Require Import ZArith List Lia Bool.
From stdpp Require Import base gmap list.
From S2P Require Import Prelude CMonad Pbuf PbufChain.
#[local] Open Scope Z_scope.
#[local] Open Scope cmonad_scope.

(** ** The bytes of a packet *)

Definition block (m : gmap addr (list Z)) (b : addr) : list Z :=
  match m !! b with Some l => l | None => [] end.

Definition bytes_of (m : gmap addr (list Z)) (x : pbuf) : list Z :=
  match pb_payload x with
  | Some (b, o) => firstn (Z.to_nat (pb_len x)) (skipn (Z.to_nat o) (block m b))
  | None => []
  end.

(** The payload lies in memory. *)
Definition valid (m : gmap addr (list Z)) (x : pbuf) : Prop :=
  0 <= pb_len x /\
  (pb_len x <> 0 -> match pb_payload x with
                    | Some (b, o) => 0 <= o /\ o + pb_len x <= Z.of_nat (length (block m b))
                    | None => False
                    end).

Definition all_valid (m : gmap addr (list Z)) (l : list (addr * pbuf)) : Prop := Forall (fun c => valid m (snd c)) l.

Fixpoint content (m : gmap addr (list Z)) (l : list (addr * pbuf)) : list Z :=
  match l with [] => [] | (_, x) :: l' => bytes_of m x ++ content m l' end.

Lemma content_app m l1 l2 : content m (l1 ++ l2) = content m l1 ++ content m l2.
Proof. induction l1 as [|[a x] l1 IH]; simpl; [reflexivity|]. now rewrite IH, app_assoc. Qed.

Lemma bytes_length m x : valid m x -> length (bytes_of m x) = Z.to_nat (pb_len x).
Proof.
  intros [H0 H]. unfold bytes_of. destruct (Z.eq_dec (pb_len x) 0) as [E|E].
  - rewrite E. destruct (pb_payload x) as [[b o]|]; reflexivity.
  - specialize (H E). destruct (pb_payload x) as [[b o]|]; [|contradiction].
    rewrite length_firstn, length_skipn. lia.
Qed.

Lemma content_length m l : all_valid m l -> Z.of_nat (length (content m l)) = total l.
Proof.
  induction 1 as [|[a x] l [H0 Hx] H IH]; [reflexivity|]. cbn [content total snd] in *.
  rewrite length_app, Nat2Z.inj_add, IH, bytes_length by (now split). lia.
Qed.

(** Joined packets hold the bytes of both. *)
Lemma content_fields m l l' :
  map (fun '(_, x) => (pb_len x, pb_payload x)) l' = map (fun '(_, x) => (pb_len x, pb_payload x)) l ->
  content m l' = content m l.
Proof.
  revert l'. induction l as [|[a x] l IH]; intros [|[b y] l'] H; try discriminate; [reflexivity|].
  simpl in H. injection H as H1 H2 H3. simpl. unfold bytes_of. now rewrite H1, H2, (IH l' H3).
Qed.

Lemma all_valid_fields m l l' :
  map (fun '(_, x) => (pb_len x, pb_payload x)) l' = map (fun '(_, x) => (pb_len x, pb_payload x)) l ->
  all_valid m l -> all_valid m l'.
Proof.
  revert l'. induction l as [|[a x] l IH]; intros [|[b y] l'] H Hv; try discriminate; [constructor|].
  simpl in H. injection H as H1 H2 H3. inversion Hv; subst. constructor; [|now apply IH].
  unfold valid in *. cbn [snd] in *. now rewrite H1, H2.
Qed.

(** ** Reading *)

Lemma load_bytes st x off n :
  valid (st_mem st) x -> 0 <= off -> 0 <= n -> off + n <= pb_len x ->
  load st (pb_payload x) off n = ret (firstn (Z.to_nat n) (skipn (Z.to_nat off) (bytes_of (st_mem st) x))).
Proof.
  intros [H0 Hv] Ho Hn Hl. unfold load. case_bool (n =? 0); [rewrite E; reflexivity|].
  specialize (Hv ltac:(lia)). unfold bytes_of. destruct (pb_payload x) as [[b o]|]; [|contradiction].
  destruct Hv as [Hob Hlb]. unfold block in *. destruct (st_mem st !! b) as [l|]; [|simpl in Hlb; lia].
  case_bool (0 <=? o + off); [|lia]. case_bool (0 <=? n); [|lia].
  case_bool (o + off + n <=? Z.of_nat (length l)); [|lia]. cbn [andb]. f_equal.
  rewrite skipn_firstn_comm, firstn_firstn, skipn_skipn. f_equal; [lia|]. f_equal. lia.
Qed.

Lemma splice_length l i bs : (i + length bs <= length l)%nat -> length (splice l i bs) = length l.
Proof. intros H. unfold splice. rewrite !length_app, length_firstn, length_skipn. lia. Qed.

Lemma write_at_ok l i bs :
  0 <= i -> i + Z.of_nat (length bs) <= Z.of_nat (length l) -> write_at l i bs = ret (splice l (Z.to_nat i) bs).
Proof.
  intros H1 H2. unfold write_at. case_bool (0 <=? i); [|lia].
  case_bool (i + Z.of_nat (length bs) <=? Z.of_nat (length l)); [reflexivity|lia].
Qed.

(** Writing twice in a row. *)
Lemma splice_splice l i a b :
  (i + length a + length b <= length l)%nat -> splice (splice l i a) (i + length a) b = splice l i (a ++ b).
Proof.
  intros H. unfold splice. assert (Hf : length (firstn i l) = i) by (rewrite length_firstn; lia).
  rewrite firstn_app, Hf, firstn_firstn. replace (i + length a - i)%nat with (length a) by lia.
  rewrite firstn_app, firstn_all, Nat.sub_diag, firstn_O, app_nil_r.
  replace (Nat.min (i + length a) i) with i by lia. rewrite <- !app_assoc. f_equal. f_equal. f_equal.
  rewrite app_assoc, skipn_app, length_app, Hf. rewrite skipn_all2 by (rewrite length_app; lia).
  rewrite skipn_skipn, length_app. simpl. f_equal. lia.
Qed.

Lemma splice_nil l i : splice l i [] = l.
Proof. unfold splice. simpl. now rewrite Nat.add_0_r, firstn_skipn. Qed.

Lemma copy_partial_spec fuel st p l dst left len offset :
  chain (st_pbufs st) p l -> totals_ok l -> all_valid (st_mem st) l -> (length l <= fuel)%nat ->
  0 <= left -> 0 <= len -> 0 <= offset < 65536 ->
  let bs := firstn (Z.to_nat len) (skipn (Z.to_nat offset) (content (st_mem st) l)) in
  left + Z.of_nat (length bs) <= Z.of_nat (length dst) -> left + len < 65536 ->
  copy_partial_loop fuel p dst left len offset st =
    ret (left + Z.of_nat (length bs), splice dst (Z.to_nat left) bs).
Proof.
  revert p l dst left len offset. induction fuel as [|fuel IH];
    intros p l dst left len offset H Ht Hv Hf Hl0 Hn Ho bs Hb Hs;
    inversion H as [|a x l' Hx H']; subst; simpl in Hf; try lia.
  1, 2: assert (Eb : bs = []) by (unfold bs; simpl content; rewrite skipn_nil; apply firstn_nil);
    rewrite Eb; cbn [copy_partial_loop length]; rewrite splice_nil; f_equal; f_equal; lia.
  cbn [copy_partial_loop]. case_bool (len =? 0).
  { unfold bs. subst len. rewrite firstn_O, splice_nil. cbn [length]. f_equal. f_equal. lia. }
  rewrite (fetch_some st a x), bind_ret by exact Hx. inversion Hv as [|? ? Hvx Hv']; subst. cbn [snd] in Hvx.
  destruct Ht as (_ & Hx0 & _ & Hb1 & Ht). pose proof (totals_nonneg _ Ht) as Ht0. cbn [total] in Hb1.
  pose proof (bytes_length _ _ Hvx) as Hbl. cbn [content] in bs.
  case_bool (offset =? 0); [|case_bool (pb_len x <=? offset)]; cbn [negb andb].
  2: { unfold u16. rewrite Z.mod_small by lia.
       assert (Eb : bs = firstn (Z.to_nat len) (skipn (Z.to_nat (offset - pb_len x)) (content (st_mem st) l'))).
       { unfold bs. rewrite skipn_app, skipn_all2 by lia. simpl. f_equal. f_equal. lia. }
       rewrite Eb in *. apply (IH (pb_next x) l'); auto; lia. }
  all: replace (u16 (pb_len x - offset)) with (pb_len x - offset) by (unfold u16; rewrite Z.mod_small; lia);
    set (n := if len <? pb_len x - offset then len else pb_len x - offset);
    assert (Hn' : n = Z.min len (pb_len x - offset)) by (unfold n; case_bool (len <? pb_len x - offset); lia);
    rewrite load_bytes, bind_ret by (auto; lia);
    set (b1 := firstn (Z.to_nat n) (skipn (Z.to_nat offset) (bytes_of (st_mem st) x)));
    assert (Hb1l : length b1 = Z.to_nat n) by (unfold b1; rewrite length_firstn, length_skipn; lia);
    assert (Eb : bs = b1 ++ firstn (Z.to_nat (len - n)) (skipn (Z.to_nat 0) (content (st_mem st) l')))
      by (unfold bs, b1; rewrite skipn_app, firstn_app, length_skipn;
          replace (Z.to_nat offset - length (bytes_of (st_mem st) x))%nat with O by lia;
          destruct (Z.le_gt_cases len (pb_len x - offset)) as [Hc|Hc];
          [ replace (Z.to_nat n) with (Z.to_nat len) by lia; f_equal;
            replace (Z.to_nat len - (length (bytes_of (st_mem st) x) - Z.to_nat offset))%nat with O by lia;
            replace (Z.to_nat (len - n)) with O by lia; reflexivity
          | rewrite !(firstn_all2 (skipn (Z.to_nat offset) _)) by (rewrite length_skipn; lia);
            f_equal; f_equal; lia ]);
    rewrite Eb, length_app, Hb1l in *;
    rewrite write_at_ok, bind_ret by lia; unfold u16; rewrite !Z.mod_small by lia;
    rewrite (IH (pb_next x) l'); auto; try lia; try (rewrite splice_length; lia);
    f_equal; f_equal; [lia|];
    replace (Z.to_nat (left + n)) with (Z.to_nat left + length b1)%nat by lia; apply splice_splice; lia.
Qed.

(** ** Writing *)

(** The payload lies in the memory that was allocated with the pbuf, as for
    the types [PBUF_RAM] and [PBUF_POOL]. *)
Definition owns (c : addr * pbuf) : Prop := exists o, pb_payload (snd c) = Some (fst c, o).

(** The memory [m'] differs from [m] in bytes of the blocks [bs] only. *)
Definition rewritten (bs : list addr) (m m' : gmap addr (list Z)) : Prop :=
  (forall b, ~ In b bs -> m' !! b = m !! b) /\ (forall b, length (block m' b) = length (block m b)).

Lemma rewritten_refl bs m : rewritten bs m m.
Proof. split; reflexivity. Qed.

Lemma rewritten_trans bs m1 m2 m3 : rewritten bs m1 m2 -> rewritten bs m2 m3 -> rewritten bs m1 m3.
Proof. intros [H1 L1] [H2 L2]. split; intros; [rewrite H2, H1 by assumption; reflexivity|now rewrite L2, L1]. Qed.

Lemma rewritten_weaken bs bs' m m' : rewritten bs m m' -> (forall b, In b bs -> In b bs') -> rewritten bs' m m'.
Proof. intros [H1 L1] Hs. split; [|exact L1]. intros b Hb. apply H1. auto. Qed.

Lemma valid_rewritten bs m m' x : rewritten bs m m' -> valid m x -> valid m' x.
Proof.
  intros [_ Hl] [H0 H]. split; [exact H0|]. intros Hne. specialize (H Hne).
  destruct (pb_payload x) as [[b o]|]; [|exact H]. now rewrite Hl.
Qed.

Lemma all_valid_rewritten bs m m' l : rewritten bs m m' -> all_valid m l -> all_valid m' l.
Proof. intros Hr H. eapply Forall_impl; [exact H|]. intros c. now apply (valid_rewritten bs). Qed.

Lemma content_rewritten bs m m' l :
  rewritten bs m m' -> Forall owns l -> (forall a, In a (addrs l) -> ~ In a bs) -> content m' l = content m l.
Proof.
  intros [Hr _]. induction 1 as [|[a x] l [o Ho] H IH]; intros Hd; [reflexivity|]. cbn [content fst snd] in *.
  rewrite IH by (intros b Hb; apply Hd; now right). f_equal. unfold bytes_of. rewrite Ho. unfold block.
  now rewrite Hr by (apply Hd; now left).
Qed.

Lemma save_bytes st x b o off bs :
  pb_payload x = Some (b, o) -> valid (st_mem st) x -> 0 <= off -> off + Z.of_nat (length bs) <= pb_len x ->
  exists m', save st (pb_payload x) off bs = ret (Store (st_pbufs st) m') /\
    bytes_of m' x = splice (bytes_of (st_mem st) x) (Z.to_nat off) bs /\ rewritten [b] (st_mem st) m'.
Proof.
  intros Hp [H0 Hv] Ho Hl. unfold save. case_bool (length bs =? 0)%nat.
  { apply length_zero_iff_nil in E. subst bs. exists (st_mem st). split; [now destruct st|].
    split; [now rewrite splice_nil|apply rewritten_refl]. }
  specialize (Hv ltac:(lia)). unfold bytes_of. rewrite Hp in *. destruct Hv as [Hob Hlb]. unfold block in *.
  destruct (st_mem st !! b) as [l|] eqn:El; [|simpl in Hlb; lia].
  rewrite write_at_ok, bind_ret by lia. eexists. split; [reflexivity|]. rewrite lookup_insert_eq. split.
  - unfold splice. assert (Hlo : length (firstn (Z.to_nat (o + off)) l) = Z.to_nat (o + off)) by (rewrite length_firstn; lia).
    rewrite skipn_app, Hlo, skipn_firstn_comm.
    replace (Z.to_nat o - Z.to_nat (o + off))%nat with O by lia. rewrite skipn_O.
    replace (Z.to_nat (o + off) - Z.to_nat o)%nat with (Z.to_nat off) by lia.
    set (t := skipn (Z.to_nat o) l).
    assert (Ht : length t = (length l - Z.to_nat o)%nat) by (unfold t; apply length_skipn).
    rewrite !firstn_app, length_firstn, firstn_firstn, firstn_firstn. rewrite Ht.
    f_equal; [f_equal; lia|].
    rewrite (firstn_all2 bs) by lia. f_equal.
    rewrite skipn_firstn_comm. unfold t. rewrite skipn_skipn. f_equal; [lia|]. f_equal. lia.
  - split; cbn [st_mem].
    + intros c Hc. apply lookup_insert_ne. intros ->. apply Hc. now left.
    + intros c. unfold block. destruct (decide (c = b)) as [->|Hne].
      * rewrite lookup_insert_eq, El. apply splice_length. lia.
      * now rewrite lookup_insert_ne by congruence.
Qed.

Lemma splice_0 l bs : splice l 0 bs = bs ++ skipn (length bs) l.
Proof. reflexivity. Qed.

Lemma take_loop_spec fuel st p l data n k :
  chain (st_pbufs st) p l -> totals_ok l -> all_valid (st_mem st) l -> Forall owns l -> (length l < fuel)%nat ->
  0 <= n <= total l -> 0 <= k -> k + n <= Z.of_nat (length data) -> k + n < 65536 ->
  exists m', take_loop fuel p data n k st = ret (k + n, Store (st_pbufs st) m') /\
    content m' l = firstn (Z.to_nat n) (skipn (Z.to_nat k) data) ++ skipn (Z.to_nat n) (content (st_mem st) l) /\
    rewritten (addrs l) (st_mem st) m'.
Proof.
  revert st p l n k. induction fuel as [|fuel IH]; intros st p l n k H Ht Hv Hw Hf Hn Hk Hd Hs; [lia|].
  cbn [take_loop]. case_bool (n =? 0).
  { subst n. exists (st_mem st). rewrite Z.add_0_r. split; [now destruct st|]. split; [reflexivity|apply rewritten_refl]. }
  inversion H as [|a x l' Hx H']; subst; [simpl in Hn; lia|].
  rewrite lwip_assert_true, bind_ret by (now apply bool_decide_eq_true).
  rewrite (fetch_some st a x), bind_ret by exact Hx.
  inversion Hv as [|? ? Hvx Hv']; subst. inversion Hw as [|? ? [o Ho] Hw']; subst. cbn [fst snd] in *.
  destruct Ht as (_ & Hx0 & _ & Hb1 & Ht). pose proof (totals_nonneg _ Ht) as Ht0. cbn [total] in *.
  pose proof (bytes_length _ _ Hvx) as Hbl.
  set (c := if pb_len x <? n then pb_len x else n).
  assert (Hc : c = Z.min n (pb_len x)) by (unfold c; case_bool (pb_len x <? n); lia).
  rewrite take_bytes_firstn, bind_ret by (rewrite length_skipn; lia).
  set (b1 := firstn (Z.to_nat c) (skipn (Z.to_nat k) data)).
  assert (Hb1l : length b1 = Z.to_nat c) by (unfold b1; rewrite length_firstn, length_skipn; lia).
  destruct (save_bytes st x a o 0 b1) as (m1 & -> & Hby & Hr1); [exact Ho|exact Hvx|lia|lia|].
  rewrite bind_ret. unfold u16. rewrite !Z.mod_small by lia.
  pose proof (chain_head_fresh _ _ _ _ H) as Ha.
  destruct (IH (Store (st_pbufs st) m1) (pb_next x) l' (n - c) (k + c)) as (m' & He & Hc' & Hr'); auto; try lia.
  { now apply (all_valid_rewritten [a] (st_mem st)). }
  { simpl in Hf. lia. }
  exists m'. split; [rewrite He; f_equal; f_equal; lia|]. cbn [st_mem] in *. split.
  - cbn [content]. rewrite Hc'.
    assert (Hb' : bytes_of m' x = bytes_of m1 x).
    { unfold bytes_of. rewrite Ho. unfold block. now rewrite (proj1 Hr' a Ha). }
    rewrite (content_rewritten [a] (st_mem st) m1 l') by (auto; intros b Hb [->|[]]; contradiction).
    rewrite Hb', Hby, splice_0, Hb1l. unfold b1. rewrite skipn_app, Hbl.
    destruct (Z.le_gt_cases n (pb_len x)) as [Hle|Hgt].
    + replace c with n by lia. replace (n - n) with 0 by lia. simpl.
      replace (Z.to_nat n - Z.to_nat (pb_len x))%nat with O by lia. rewrite skipn_O, app_assoc. reflexivity.
    + replace c with (pb_len x) by lia. rewrite (skipn_all2 (bytes_of (st_mem st) x)) by lia.
      rewrite (skipn_all2 (bytes_of (st_mem st) x)) by lia. rewrite app_nil_r. simpl app.
      rewrite app_assoc. f_equal; [|f_equal; lia].
      replace (Z.to_nat n) with (Z.to_nat (pb_len x) + Z.to_nat (n - pb_len x))%nat by lia.
      rewrite <- (firstn_skipn (Z.to_nat (pb_len x)) (firstn (Z.to_nat (pb_len x) + Z.to_nat (n - pb_len x)) (skipn (Z.to_nat k) data))).
      rewrite firstn_firstn, skipn_firstn_comm, skipn_skipn. f_equal; f_equal; try lia. f_equal. lia.
  - apply (rewritten_trans _ _ m1).
    + apply (rewritten_weaken [a]); [exact Hr1|]. intros b [->|[]]. now left.
    + apply (rewritten_weaken (addrs l')); [exact Hr'|]. intros b Hb. now right.
Qed.

(** [pbuf_take] writes the bytes to the front of the packet. *)
Lemma pbuf_take_spec st p l data n :
  packet st (Some p) l -> all_valid (st_mem st) l -> Forall owns l -> 0 <= n <= Z.of_nat (length data) ->
  n < 65536 ->
  (total l < n -> pbuf_take (Some p) (Some data) n st = ret (ERR_ARG, st)) /\
  (n <= total l -> exists m', pbuf_take (Some p) (Some data) n st = ret (ERR_OK, Store (st_pbufs st) m') /\
     content m' l = firstn (Z.to_nat n) data ++ skipn (Z.to_nat n) (content (st_mem st) l) /\
     rewritten (addrs l) (st_mem st) m').
Proof.
  intros [H Ht] Hv Hw Hn Hs. inversion H as [|? x l' Hx H']; subst. unfold pbuf_take.
  rewrite (fetch_some st p x), bind_ret by exact Hx. pose proof Ht as (Hx1 & _). rewrite Hx1.
  split; intros Hc; case_bool (total ((p, x) :: l') <? n); try lia; [reflexivity|].
  pose proof (chain_size _ _ _ H).
  destruct (take_loop_spec (walk_fuel st) st (Some p) ((p, x) :: l') data n 0) as (m' & -> & Hc' & Hr); auto;
    try lia; [unfold walk_fuel; lia|].
  rewrite bind_ret, lwip_assert_true, bind_ret by (apply Z.eqb_eq; lia). exists m'. auto.
Qed.

(** ** Copying a packet *)

Lemma splice_app_l h t i b : (i + length b <= length h)%nat -> splice (h ++ t) i b = splice h i b ++ t.
Proof.
  intros H. unfold splice. rewrite firstn_app, skipn_app.
  replace (i - length h)%nat with O by lia. replace (i + length b - length h)%nat with O by lia.
  rewrite firstn_O, skipn_O, app_nil_r, <- !app_assoc. reflexivity.
Qed.

Lemma splice_app_r h t b : splice (h ++ t) (length h) b = h ++ splice t 0 b.
Proof.
  unfold splice. rewrite firstn_app, skipn_app, firstn_all, Nat.sub_diag, firstn_O, app_nil_r.
  rewrite (skipn_all2 h) by lia. simpl. repeat f_equal. lia.
Qed.

(** Packets without empty pbufs, as [pbuf_alloc] makes them for a positive
    length. *)
Definition all_full (l : list (addr * pbuf)) : Prop := Forall (fun c => 0 < pb_len (snd c)) l.

Lemma full_total l : all_full l -> l <> [] -> 0 < total l.
Proof.
  intros H Hne. assert (H0 : 0 <= total l).
  { clear Hne. induction H as [|[a x] l Hx H IH]; simpl in *; lia. }
  destruct H as [|[a x] l Hx H]; [contradiction|]. simpl in *.
  assert (0 <= total l); [|lia]. clear - H. induction H as [|[a x] l Hx H IH]; simpl in *; lia.
Qed.

Lemma no_queue_ok st p l : chain (st_pbufs st) p l -> totals_ok l -> all_full l -> no_queue st p = ret tt.
Proof.
  intros H Ht Hf. destruct H as [|a x l Hx H]; [reflexivity|]. unfold no_queue.
  rewrite (fetch_some st a x), bind_ret by exact Hx. apply lwip_assert_true.
  destruct Ht as (Ht & _). inversion Hf; subst. cbn [total] in Ht.
  destruct l as [|c l].
  - inversion H as [En|]. rewrite bool_decide_eq_false_2 by (intros Hn; now apply Hn). now rewrite andb_false_r.
  - pose proof (full_total (c :: l) ltac:(assumption) ltac:(discriminate)).
    case_bool (pb_len x =? pb_tot_len x); [lia|reflexivity].
Qed.

Lemma save_content st a x l off bs :
  valid (st_mem st) x -> owns (a, x) -> Forall owns l -> ~ In a (addrs l) ->
  0 <= off -> off + Z.of_nat (length bs) <= pb_len x ->
  exists m', save st (pb_payload x) off bs = ret (Store (st_pbufs st) m') /\
    content m' ((a, x) :: l) = splice (content (st_mem st) ((a, x) :: l)) (Z.to_nat off) bs /\
    content m' l = content (st_mem st) l /\ rewritten [a] (st_mem st) m'.
Proof.
  intros Hv [o Ho] Hw Ha H0 Hl. cbn [fst snd] in Ho.
  destruct (save_bytes st x a o off bs Ho Hv H0 Hl) as (m' & He & Hb & Hr). exists m'. split; [exact He|].
  assert (Ec : content m' l = content (st_mem st) l).
  { apply (content_rewritten [a]); auto. intros b Hin [->|[]]. contradiction. }
  split; [|split; [exact Ec|exact Hr]]. cbn [content]. rewrite Hb, Ec. symmetry. apply splice_app_l.
  rewrite bytes_length by exact Hv. lia.
Qed.

Section Copy.
Variable pbufs : gmap addr pbuf.

(** What the loop needs of the destination and of the source. *)
Definition copyable (m : gmap addr (list Z)) (p : option addr) (l : list (addr * pbuf)) : Prop :=
  chain pbufs p l /\ totals_ok l /\ all_valid m l /\ all_full l /\ Forall owns l.

Lemma copyable_rewritten bs m m' p l : rewritten bs m m' -> copyable m p l -> copyable m' p l.
Proof.
  intros Hr (H1 & H2 & H3 & H4 & H5). pose proof (all_valid_rewritten bs m m' l Hr H3). repeat split; assumption.
Qed.

Lemma copyable_cons m p a x l : copyable m p ((a, x) :: l) ->
  (p = Some a /\ pbufs !! a = Some x /\ ~ In a (addrs l)) /\
  (valid m x /\ owns (a, x) /\ 0 < pb_len x) /\ copyable m (pb_next x) l /\
  pb_len x + total l < 65536 /\ 0 <= total l.
Proof.
  intros (H1 & H2 & H3 & H4 & H5).
  inversion H1; inversion H3; inversion H4; inversion H5; subst. cbn [snd] in *.
  destruct H2 as (_ & _ & _ & Hb & H2). pose proof (totals_nonneg _ H2). cbn [total] in Hb.
  split; [split; [reflexivity|split; [assumption|now apply (chain_head_fresh pbufs a x)]]|].
  split; [auto|]. split; [repeat split; assumption|lia].
Qed.

(** A position in a packet: a pbuf, the list from it on and an offset below
    its length. *)
Definition cursor (m : gmap addr (list Z)) (c : option addr * Z) (l : list (addr * pbuf)) : Prop :=
  copyable m (fst c) l /\ match l with [] => snd c = 0 | (_, x) :: _ => 0 <= snd c < pb_len x end.

Lemma cursor_start m p l : copyable m p l -> cursor m (p, 0) l.
Proof.
  intros H. split; [exact H|]. destruct l as [|[a x] l]; [reflexivity|].
  destruct (copyable_cons _ _ _ _ _ H) as (_ & (_ & _ & Hx) & _). simpl. lia.
Qed.

Lemma cursor_rewritten bs m m' c l : rewritten bs m m' -> cursor m c l -> cursor m' c l.
Proof. intros Hr [H1 H2]. split; [now apply (copyable_rewritten bs m)|exact H2]. Qed.

(** The position [n] bytes further on, at most at the end of the pbuf. *)
Definition advance (a : addr) (x : pbuf) (off n : Z) : option addr * Z :=
  if off + n =? pb_len x then (pb_next x, 0) else (Some a, off + n).

Definition from_here (a : addr) (x : pbuf) (off n : Z) (l : list (addr * pbuf)) : list (addr * pbuf) :=
  if off + n =? pb_len x then l else (a, x) :: l.

Lemma advance_cursor m a x off n l :
  cursor m (Some a, off) ((a, x) :: l) -> 0 < n <= pb_len x - off ->
  let c := advance a x off n in
  let l' := from_here a x off n l in
  cursor m c l' /\
  skipn (Z.to_nat (snd c)) (content m l') = skipn (Z.to_nat (off + n)) (content m ((a, x) :: l)) /\
  total l' - snd c = total ((a, x) :: l) - off - n /\
  (forall b, In b (addrs l') -> In b (addrs ((a, x) :: l))) /\
  (length l' <= S (length l))%nat /\ (off + n = pb_len x -> length l' = length l).
Proof.
  intros [H Ho] Hn. cbn [fst snd] in *. destruct (copyable_cons _ _ _ _ _ H) as (_ & (Hv & _ & Hx) & Hl & _).
  unfold advance, from_here. case_bool (off + n =? pb_len x); cbn [fst snd].
  - split; [now apply cursor_start|]. cbn [content total map length]. split; [|split; [lia|split; [now right|lia]]].
    pose proof (bytes_length m x Hv) as Hbl. rewrite E, skipn_app, (skipn_all2 (bytes_of m x)) by lia.
    rewrite Hbl, Nat.sub_diag. reflexivity.
  - split; [split; [exact H|cbn [snd]; lia]|]. split; [reflexivity|]. cbn [total length].
    split; [lia|]. split; [auto|]. lia.
Qed.

(** A write from the advanced position on is one from the old position. *)
Lemma advance_splice m m' a x off n l bs :
  copyable m (Some a) ((a, x) :: l) -> 0 <= off -> 0 < n <= pb_len x - off ->
  let c := advance a x off n in
  let l' := from_here a x off n l in
  content m' l' = splice (content m l') (Z.to_nat (snd c)) bs -> rewritten (addrs l') m m' ->
  content m' ((a, x) :: l) = splice (content m ((a, x) :: l)) (Z.to_nat (off + n)) bs.
Proof.
  intros H H0 Hn. destruct (copyable_cons _ _ _ _ _ H) as ((_ & _ & Ha) & (Hv & [o Ho] & _) & _).
  unfold advance, from_here. cbv zeta. case_bool (off + n =? pb_len x); cbn [snd]; [|auto].
  intros Hc Hr. cbn [content]. rewrite Hc.
  assert (Hb : bytes_of m' x = bytes_of m x).
  { cbn [fst snd] in Ho. unfold bytes_of. rewrite Ho. unfold block. now rewrite (proj1 Hr a Ha). }
  rewrite Hb, E. rewrite <- (bytes_length m x Hv). symmetry. apply splice_app_r.
Qed.

(** The bytes a step copies, and what is left. *)
Lemma step_bytes m a x off n l :
  copyable m (Some a) ((a, x) :: l) -> 0 <= off -> 0 < n <= pb_len x - off ->
  let b1 := firstn (Z.to_nat n) (skipn (Z.to_nat off) (bytes_of m x)) in
  length b1 = Z.to_nat n /\
  skipn (Z.to_nat off) (content m ((a, x) :: l)) = b1 ++ skipn (Z.to_nat (off + n)) (content m ((a, x) :: l)).
Proof.
  intros H H0 Hn b1. destruct (copyable_cons _ _ _ _ _ H) as (_ & (Hv & _) & _).
  pose proof (bytes_length m x Hv) as Hl.
  split; [unfold b1; rewrite length_firstn, length_skipn; lia|].
  replace (Z.to_nat (off + n)) with (Z.to_nat n + Z.to_nat off)%nat by lia. rewrite <- skipn_skipn.
  rewrite <- (firstn_skipn (Z.to_nat n) (skipn (Z.to_nat off) (content m ((a, x) :: l)))) at 1. f_equal.
  unfold b1. cbn [content]. rewrite skipn_app, firstn_app, length_skipn.
  replace (Z.to_nat n - (length (bytes_of m x) - Z.to_nat off))%nat with O by lia.
  rewrite firstn_O, app_nil_r. reflexivity.
Qed.

Lemma fetch_pbufs m a x : pbufs !! a = Some x -> fetch (Store pbufs m) (Some a) = ret x.
Proof. apply (fetch_some (Store pbufs m)). Qed.

(** The loop copies the rest of the source to the position in the destination. *)
Definition copies (fuel : nat) : Prop := forall m ct cf lt lf,
  cursor m ct lt -> cursor m cf lf -> (forall a, In a (addrs lf) -> ~ In a (addrs lt)) -> lf <> [] ->
  total lf - snd cf <= total lt - snd ct -> (length lt + length lf <= fuel)%nat ->
  exists m', copy_loop fuel (fst ct) (fst cf) (snd ct) (snd cf) (Store pbufs m) = ret (ERR_OK, Store pbufs m') /\
    content m' lt = splice (content m lt) (Z.to_nat (snd ct)) (skipn (Z.to_nat (snd cf)) (content m lf)) /\
    rewritten (addrs lt) m m'.

(** From the checks against queues on. *)
Lemma copy_next fuel m ct cf lt lf :
  copies fuel ->
  cursor m ct lt -> cursor m cf lf -> (forall a, In a (addrs lf) -> ~ In a (addrs lt)) ->
  total lf - snd cf <= total lt - snd ct -> (length lt + length lf <= fuel)%nat ->
  exists m',
    (_ <- no_queue (Store pbufs m) (fst cf);;
     _ <- no_queue (Store pbufs m) (fst ct);;
     match fst cf with
     | None => ret (ERR_OK, Store pbufs m)
     | Some _ => copy_loop fuel (fst ct) (fst cf) (snd ct) (snd cf) (Store pbufs m)
     end) = ret (ERR_OK, Store pbufs m') /\
    content m' lt = splice (content m lt) (Z.to_nat (snd ct)) (skipn (Z.to_nat (snd cf)) (content m lf)) /\
    rewritten (addrs lt) m m'.
Proof.
  intros IH Ht Hf Hd Htot Hfu.
  pose proof Ht as [(Tc & Tt & _ & Tf & _) _]. pose proof Hf as [(Fc & Ft & _ & Ff & _) _].
  rewrite (no_queue_ok _ _ lf), bind_ret by assumption. rewrite (no_queue_ok _ _ lt), bind_ret by assumption.
  destruct lf as [|c lf].
  - inversion Fc as [En|]. exists m. split; [reflexivity|]. cbn [content].
    rewrite skipn_nil, splice_nil. split; [reflexivity|apply rewritten_refl].
  - assert (En : exists p, fst cf = Some p) by (inversion Fc; eauto). destruct En as [p En]. rewrite En. rewrite <- En.
    apply IH; auto.
Qed.

Lemma copy_loop_spec fuel : copies fuel.
Proof.
  induction fuel as [|fuel IH]; intros m [pt ot] [pf of_] lt lf Ht Hf Hd Hne Htot Hfu;
    (destruct lf as [|[fa f] lf]; [contradiction|]); [simpl in Hfu; lia|].
  pose proof Hf as [Cf Of]. cbn [fst snd] in *. destruct (copyable_cons _ _ _ _ _ Cf) as ((-> & Fx & _) & (Fv & _) & _ & Fb).
  destruct lt as [|[ta t] lt]; [destruct Ht as [_ Ho]; cbn [total snd] in *; lia|].
  pose proof Ht as [Ct Ot]. cbn [fst snd] in *.
  destruct (copyable_cons _ _ _ _ _ Ct) as ((-> & Tx & Ta) & (Tv & To & _) & (_ & _ & _ & _ & Tw) & Tb).
  cbn [copy_loop]. rewrite lwip_assert_true, bind_ret by (now apply bool_decide_eq_true).
  rewrite (fetch_pbufs m ta t), bind_ret, (fetch_pbufs m fa f), bind_ret by assumption. cbv zeta.
  set (n := if pb_len f - of_ <=? pb_len t - ot then u16 (pb_len f - of_) else u16 (pb_len t - ot)).
  assert (Hn : n = Z.min (pb_len f - of_) (pb_len t - ot)).
  { unfold n, u16. case_bool (pb_len f - of_ <=? pb_len t - ot); rewrite Z.mod_small; lia. }
  rewrite load_bytes, bind_ret by (auto; lia). cbn [st_mem].
  destruct (step_bytes m fa f of_ n lf Cf) as [Hb1 Hsplit]; [lia|lia|].
  set (b1 := firstn (Z.to_nat n) _) in *. rewrite Hsplit. clear Hsplit.
  destruct (save_content (Store pbufs m) ta t lt ot b1 Tv To Tw Ta) as (m1 & -> & Hc1 & _ & Hr1); [lia|lia|].
  rewrite bind_ret. cbn [st_mem st_pbufs] in *. unfold u16. rewrite !Z.mod_small by lia.
  rewrite lwip_assert_true, bind_ret by (apply Z.leb_le; lia).
  change (if ot + n =? pb_len t then (pb_next t, 0) else (Some ta, ot + n)) with (advance ta t ot n).
  rewrite (surjective_pairing (advance ta t ot n)). rewrite lwip_assert_true, bind_ret by (apply Z.leb_le; lia).
  replace (pb_len f <=? of_ + n) with (of_ + n =? pb_len f)
    by (case_bool (of_ + n =? pb_len f); case_bool (pb_len f <=? of_ + n); lia).
  change (if of_ + n =? pb_len f then (pb_next f, 0) else (Some fa, of_ + n)) with (advance fa f of_ n).
  rewrite (surjective_pairing (advance fa f of_ n)).
  assert (Hfr : content m1 ((fa, f) :: lf) = content m ((fa, f) :: lf)).
  { apply (content_rewritten [ta]); [exact Hr1|apply Cf|]. intros b Hb [->|[]]. apply (Hd b Hb). now left. }
  pose proof (cursor_rewritten _ _ _ _ _ Hr1 Ht) as Ht1. pose proof (cursor_rewritten _ _ _ _ _ Hr1 Hf) as Hf1.
  destruct (advance_cursor m1 ta t ot n lt Ht1) as (At & _ & Att & Ati & Atn & Ate); [lia|].
  destruct (advance_cursor m1 fa f of_ n lf Hf1) as (Af & Afc & Aft & Afi & Afn & Afe); [lia|].
  rewrite <- Hfr, <- Afc. clear Afc. cbn [length] in Hfu.
  destruct (copy_next fuel m1 _ _ _ _ IH At Af) as (m' & He & Hc & Hr); [|lia|lia|].
  { intros a Ha Hin. exact (Hd a (Afi a Ha) (Ati a Hin)). }
  exists m'. split; [exact He|]. split.
  - rewrite (advance_splice m1 m' ta t ot n lt _ (proj1 Ht1) ltac:(lia) ltac:(lia) Hc Hr), Hc1.
    replace (Z.to_nat (ot + n)) with (Z.to_nat ot + length b1)%nat by lia. apply splice_splice.
    pose proof (content_length m _ (proj1 (proj2 (proj2 Ct)))) as Hlt. cbn [total] in Hlt, Aft, Htot.
    rewrite length_skipn.
    pose proof (content_length m1 _ (proj1 (proj2 (proj2 (proj1 Af))))) as Hlf. lia.
  - apply (rewritten_trans _ _ m1); [|exact (rewritten_weaken _ _ _ _ Hr Ati)].
    apply (rewritten_weaken [ta]); [exact Hr1|]. intros b [->|[]]. now left.
Qed.

(** [pbuf_copy] writes the source to the front of the destination. *)
Lemma pbuf_copy_spec m pt pf lt lf :
  copyable m (Some pt) lt -> copyable m (Some pf) lf -> (forall a, In a (addrs lf) -> ~ In a (addrs lt)) ->
  total lf <= total lt ->
  exists m', pbuf_copy (Some pt) (Some pf) (Store pbufs m) = ret (ERR_OK, Store pbufs m') /\
    content m' lt = content m lf ++ skipn (Z.to_nat (total lf)) (content m lt) /\ rewritten (addrs lt) m m'.
Proof.
  intros Ht Hf Hd Htot. unfold pbuf_copy.
  destruct lt as [|[ta t] lt]; [destruct Ht as [H _]; inversion H|].
  destruct lf as [|[fa f] lf]; [destruct Hf as [H _]; inversion H|].
  destruct (copyable_cons _ _ _ _ _ Ht) as ((Ep & Tx & _) & _). injection Ep as <-.
  destruct (copyable_cons _ _ _ _ _ Hf) as ((Ep & Fx & _) & _). injection Ep as <-.
  rewrite (fetch_pbufs m pt t), bind_ret, (fetch_pbufs m pf f), bind_ret by assumption.
  rewrite lwip_assert_true, bind_ret by
    (apply Z.leb_le; rewrite (proj1 (proj1 (proj2 Hf))), (proj1 (proj1 (proj2 Ht))); exact Htot).
  pose proof (chain_size _ _ _ (proj1 Ht)). pose proof (chain_size _ _ _ (proj1 Hf)).
  destruct (copy_loop_spec (2 * walk_fuel (Store pbufs m)) m (Some pt, 0) (Some pf, 0) ((pt, t) :: lt) ((pf, f) :: lf))
    as (m' & He & Hc & Hr); auto using cursor_start; [cbn [snd]; lia|unfold walk_fuel; simpl st_pbufs; lia|].
  exists m'. split; [exact He|]. split; [|exact Hr]. cbn [snd] in Hc. rewrite Hc. change (Z.to_nat 0) with O.
  rewrite skipn_O, splice_0. f_equal. f_equal.
  pose proof (content_length m _ (proj1 (proj2 (proj2 Hf)))). lia.
Qed.
End Copy.
