(* ===== verification/PbufEdit.v ===== *)
(** * lwIP packet buffers: headers, shrinking, splitting, allocation *)
From Stdlib Require Import ZArith List Lia Bool.
From stdpp Require Import base gmap list.
From S2P Require Import Prelude CMonad Pbuf PbufChain PbufData.
#[local] Open Scope Z_scope.
#[local] Open Scope cmonad_scope.

Lemma set_pbuf_same st a x : st_pbufs st !! a = Some x -> set_pbuf a x st = st.
Proof. intros H. unfold set_pbuf. rewrite insert_id by exact H. now destruct st. Qed.

Lemma set_pbuf_twice st a x y : set_pbuf a y (set_pbuf a x st) = set_pbuf a y st.
Proof. unfold set_pbuf. simpl. now rewrite insert_insert_eq. Qed.

Lemma lookup_set_pbuf st a x : st_pbufs (set_pbuf a x st) !! a = Some x.
Proof. apply lookup_insert_eq. Qed.

(** ** Headers *)

(** A pbuf with its payload moved by [n] bytes. *)
Definition shifted (x : pbuf) (n : Z) : pbuf :=
  with_tot_len
    (with_len (with_payload x (match pb_payload x with Some (b, o) => Some (b, o - n) | None => None end))
       (pb_len x + n)) (pb_tot_len x + n).

Definition holds_data (t : pbuf_type) : bool := match t with PBUF_RAM | PBUF_POOL => true | _ => false end.

(** [pbuf_header] on a pbuf that owns its payload. *)
Lemma pbuf_header_spec st a x o n :
  st_pbufs st !! a = Some x -> pb_payload x = Some (a, o) -> holds_data (pb_type x) = true ->
  0 <= pb_len x <= pb_tot_len x -> pb_tot_len x < 65536 -> -32768 <= n <= 32767 -> pb_tot_len x + n < 65536 ->
  pbuf_header (Some a) n st =
    if (n <? 0) && (pb_len x <? - n) then throw ABORT
    else if o - n <? 0 then (if n =? 0 then ret (0, st) else ret (1, st))
    else ret (0, set_pbuf a (shifted x n) st).
Proof.
  intros Hx Hp Ht Hl Hb Hn Hs. unfold pbuf_header.
  assert (H0 : shifted x 0 = x).
  { unfold shifted, with_tot_len, with_len, with_payload. rewrite Hp. cbn. rewrite Z.sub_0_r, !Z.add_0_r, <- Hp.
    now destruct x. }
  case_bool (n =? 0).
  { subst n. rewrite H0, set_pbuf_same by exact Hx. cbn [Z.ltb Z.compare andb]. now destruct (o - 0 <? 0). }
  rewrite (fetch_some st a x), bind_ret by exact Hx. cbv zeta.
  assert (Hm : u16 (Z.abs n) = Z.abs n) by (unfold u16; apply Z.mod_small; lia). rewrite Hm.
  assert (Hc : ((0 <? n) || (Z.abs n <=? pb_len x)) = negb ((n <? 0) && (pb_len x <? - n))).
  { case_bool (0 <? n); case_bool (n <? 0); case_bool (pb_len x <? - n); case_bool (Z.abs n <=? pb_len x);
      try reflexivity; lia. }
  rewrite Hc. destruct ((n <? 0) && (pb_len x <? - n)) eqn:Eb; [reflexivity|]. cbn [negb].
  rewrite lwip_assert_true, bind_ret by reflexivity. rewrite Hp.
  assert (Hlo : 0 <= pb_len x + n).
  { case_bool (n <? 0); [|lia]. case_bool (pb_len x <? - n); [discriminate|lia]. }
  unfold u16. rewrite !Z.mod_small by lia. unfold shifted. rewrite Hp.
  destruct (pb_type x); try discriminate Ht; rewrite bool_decide_eq_true_2 by reflexivity; reflexivity.
Qed.

(** Hiding a header takes its bytes from the front of the packet; showing it
    again restores the store. *)
Lemma pbuf_header_undo st a x l o k :
  packet st (Some a) ((a, x) :: l) -> all_valid (st_mem st) ((a, x) :: l) ->
  pb_payload x = Some (a, o) -> holds_data (pb_type x) = true -> 0 <= o -> 0 < k <= pb_len x -> k <= 32767 ->
  exists st', pbuf_header (Some a) (- k) st = ret (0, st') /\
    packet st' (Some a) ((a, shifted x (- k)) :: l) /\
    content (st_mem st') ((a, shifted x (- k)) :: l) = skipn (Z.to_nat k) (content (st_mem st) ((a, x) :: l)) /\
    pbuf_header (Some a) k st' = ret (0, st).
Proof.
  intros [H Ht] Hv Hp Hty H0 Hk Hk'. pose proof (chain_head_fresh _ _ _ _ H) as Ha.
  inversion H as [|? ? ? Hx H']; subst. destruct Ht as (Htot & Hl & Hr & Hb & Ht). cbn [total] in Htot, Hb.
  pose proof (totals_nonneg _ Ht). inversion Hv as [|? ? Hvx Hv']; subst. cbn [snd] in Hvx.
  exists (set_pbuf a (shifted x (- k)) st). split; [|split; [|split]].
  - rewrite (pbuf_header_spec st a x o) by (auto; lia). case_bool (pb_len x <? - - k); [lia|].
    rewrite andb_false_r. case_bool (o - - k <? 0); [lia|]. reflexivity.
  - split.
    + constructor; [apply lookup_set_pbuf|]. now apply chain_insert.
    + cbn [totals_ok total shifted with_tot_len with_len with_payload pb_tot_len pb_len pb_ref]. repeat (split; [lia|]).
      exact Ht.
  - cbn [content set_pbuf st_mem]. pose proof (bytes_length _ _ Hvx) as Hbl. rewrite skipn_app, Hbl.
    replace (Z.to_nat k - Z.to_nat (pb_len x))%nat with O by lia. rewrite skipn_O. f_equal.
    unfold bytes_of, shifted. rewrite Hp. cbn [with_tot_len with_len with_payload pb_payload pb_len].
    rewrite skipn_firstn_comm, skipn_skipn. f_equal; [lia|]. f_equal. lia.
  - set (y := shifted x (- k)).
    assert (Hy : pb_payload y = Some (a, o + k)) by (unfold y, shifted; rewrite Hp; cbn; do 2 f_equal; lia).
    rewrite (pbuf_header_spec _ a y (o + k));
      [|apply lookup_set_pbuf|exact Hy|exact Hty|unfold y; cbn; lia|unfold y; cbn; lia|lia|unfold y; cbn; lia].
    case_bool (k <? 0); [lia|]. cbn [andb]. case_bool (o + k - k <? 0); [lia|].
    rewrite set_pbuf_twice, set_pbuf_same; [reflexivity|]. rewrite Hx. f_equal.
    unfold y, shifted, with_tot_len, with_len, with_payload. rewrite Hp. cbn.
    replace (o - - k - k) with o by lia. replace (pb_len x + - k + k) with (pb_len x) by lia.
    replace (pb_tot_len x + - k + k) with (pb_tot_len x) by lia. rewrite <- Hp. now destruct x.
Qed.

(** ** Shrinking *)

(** The loop of [pbuf_realloc] and what follows it. *)
Definition realloc_body (fuel : nat) (q : addr) (rem_len grow : Z) (st : store) : M store :=
  '(q, rem_len, st) <- realloc_loop fuel q rem_len grow st;;
  x <- fetch st (Some q);;
  let st := set_pbuf q (with_tot_len (with_len x rem_len) rem_len) st in
  st <- (match pb_next x with
         | None => ret st
         | Some n => '(_, st) <- pbuf_free (Some n) st;; ret st
         end);;
  x <- fetch st (Some q);;
  ret (set_pbuf q (with_next x None) st).

(** What is kept of a packet that is cut to [n] bytes: pbufs with the same memory, the last
    one with less of it.  The rest is gone when nothing else refers to it. *)
Inductive trimmed (st st' : store) : Z -> list (addr * pbuf) -> list (addr * pbuf) -> Prop :=
| TrimmedHere n q x x' l :
    pb_payload x' = pb_payload x -> pb_type x' = pb_type x -> pb_ref x' = pb_ref x -> pb_len x' = n -> n <= pb_len x ->
    st_mem st' !! q = st_mem st !! q ->
    (Forall (fun c => pb_ref (snd c) = 1) l -> forall b, In b (addrs l) -> st_pbufs st' !! b = None /\ st_mem st' !! b = None) ->
    trimmed st st' n ((q, x) :: l) [(q, x')]
| TrimmedLater n q x x' l l' :
    pb_payload x' = pb_payload x -> pb_type x' = pb_type x -> pb_ref x' = pb_ref x -> pb_len x' = pb_len x -> pb_len x < n ->
    st_mem st' !! q = st_mem st !! q -> trimmed st st' (n - pb_len x) l l' -> trimmed st st' n ((q, x) :: l) ((q, x') :: l').

Lemma trimmed_mem st1 st2 st' n l l' : st_mem st1 = st_mem st2 -> trimmed st1 st' n l l' -> trimmed st2 st' n l l'.
Proof. intros E H. induction H; constructor; auto; congruence. Qed.

Lemma realloc_stop fuel st q x l rem grow :
  packet st (Some q) ((q, x) :: l) -> all_valid (st_mem st) ((q, x) :: l) -> owns (q, x) ->
  0 <= rem <= pb_len x -> (0 < fuel)%nat ->
  exists st' x', realloc_body fuel q rem grow st = ret st' /\
    packet st' (Some q) [(q, x')] /\ pb_len x' = rem /\ valid (st_mem st') x' /\ trimmed st st' rem ((q, x) :: l) [(q, x')] /\
    content (st_mem st') [(q, x')] = firstn (Z.to_nat rem) (content (st_mem st) ((q, x) :: l)) /\
    (forall b, ~ In b (addrs ((q, x) :: l)) -> st_pbufs st' !! b = st_pbufs st !! b /\ st_mem st' !! b = st_mem st !! b).
Proof.
  intros [H Ht] Hv [o Ho] Hr Hf. cbn [fst snd] in Ho. pose proof (chain_head_fresh _ _ _ _ H) as Hq.
  inversion H as [|? ? ? Hx H']; subst. destruct Ht as (_ & Hl & Hrf & Hb & Ht). cbn [total] in Hb.
  pose proof (totals_nonneg _ Ht). inversion Hv as [|? ? Hvx Hv']; subst. cbn [snd] in Hvx.
  unfold realloc_body. destruct fuel as [|fuel]; [lia|]. cbn [realloc_loop].
  rewrite (fetch_some st q x), bind_ret by exact Hx. case_bool (pb_len x <? rem); [lia|]. rewrite bind_ret.
  rewrite (fetch_some st q x), bind_ret by exact Hx. cbv zeta.
  set (x1 := with_tot_len (with_len x rem) rem). set (st1 := set_pbuf q x1 st).
  assert (Hfree : exists st2, (match pb_next x with None => ret st1
      | Some n => '(_, st) <- pbuf_free (Some n) st1;; ret st end) = ret st2 /\
      (forall b, ~ In b (addrs l) -> st_pbufs st2 !! b = st_pbufs st1 !! b /\ st_mem st2 !! b = st_mem st1 !! b) /\
      (Forall (fun c => pb_ref (snd c) = 1) l -> forall b, In b (addrs l) -> st_pbufs st2 !! b = None /\ st_mem st2 !! b = None)).
  { inversion H' as [En|n y l' Hy H'' En]; subst.
    - exists st1. split; [reflexivity|]. split; [auto|]. intros _ b [].
    - rewrite (pbuf_free_spec st1 n ((n, y) :: l')), bind_ret.
      2: { split; [|exact Ht]. apply chain_insert; [now rewrite En|exact Hq]. }
      eexists. split; [reflexivity|]. split; [intros b Hb0; now apply freed_other|]. intros Hr1 b Hb0.
      apply freed_all; [|exact Hb0]. intros a z Hin. rewrite List.Forall_forall in Hr1. exact (Hr1 _ Hin). }
  destruct Hfree as (st2 & -> & Hst2 & Hgone). rewrite bind_ret. destruct (Hst2 q Hq) as [Hq2 Hm2].
  unfold st1 in Hq2. rewrite lookup_set_pbuf in Hq2. rewrite (fetch_some st2 q x1), bind_ret by exact Hq2.
  exists (set_pbuf q (with_next x1 None) st2), (with_next x1 None). split; [reflexivity|].
  split; [split; [constructor; [apply lookup_set_pbuf|constructor]|cbn; lia]|].
  split; [reflexivity|]. split; [|split; [|split]].
  - destruct Hvx as [_ Hvx]. split; [cbn; lia|]. cbn [with_next x1 with_tot_len with_len pb_payload pb_len set_pbuf st_mem].
    rewrite Ho in *. unfold block in *. rewrite Hm2. cbn [st1 set_pbuf st_mem]. intros Hne. specialize (Hvx ltac:(lia)). lia.
  - constructor; try reflexivity; [lia|exact Hm2|]. intros Hr1 b Hb0. cbn [set_pbuf st_pbufs st_mem].
    rewrite lookup_insert_ne by (intros ->; exact (Hq Hb0)). now apply Hgone.
  - cbn [content set_pbuf st_mem]. rewrite app_nil_r, firstn_app, bytes_length by exact Hvx.
    replace (Z.to_nat rem - Z.to_nat (pb_len x))%nat with O by lia. rewrite firstn_O, app_nil_r.
    unfold bytes_of. cbn [with_next x1 with_tot_len with_len pb_payload pb_len]. rewrite Ho. unfold block.
    rewrite Hm2. cbn [st1 set_pbuf st_mem]. rewrite firstn_firstn. f_equal. lia.
  - intros b Hb0. assert (Hqb : q <> b) by (intros ->; apply Hb0; now left).
    destruct (Hst2 b) as [E1 E2]; [intros Hin; apply Hb0; now right|].
    cbn [set_pbuf st_pbufs st_mem st1] in *. rewrite lookup_insert_ne, E1, E2 by exact Hqb.
    unfold st1. cbn [set_pbuf st_pbufs]. now rewrite lookup_insert_ne.
Qed.

(** [pbuf_realloc] keeps the first [new_len] bytes of a packet. *)
Lemma realloc_spec fuel st q x l rem :
  packet st (Some q) ((q, x) :: l) -> all_valid (st_mem st) ((q, x) :: l) -> Forall owns ((q, x) :: l) ->
  0 <= rem < total ((q, x) :: l) -> (length l < fuel)%nat ->
  exists st' l', realloc_body fuel q rem (rem - total ((q, x) :: l)) st = ret st' /\
    packet st' (Some q) l' /\ all_valid (st_mem st') l' /\ total l' = rem /\ trimmed st st' rem ((q, x) :: l) l' /\
    content (st_mem st') l' = firstn (Z.to_nat rem) (content (st_mem st) ((q, x) :: l)) /\
    (forall b, In b (addrs l') -> In b (addrs ((q, x) :: l))) /\
    (forall b, ~ In b (addrs ((q, x) :: l)) -> st_pbufs st' !! b = st_pbufs st !! b /\ st_mem st' !! b = st_mem st !! b).
Proof.
  revert st q x l rem. induction fuel as [|fuel IH]; intros st q x l rem [H Ht] Hv Hw Hr Hf; [lia|].
  pose proof (chain_head_fresh _ _ _ _ H) as Hq. inversion H as [|? ? ? Hx H']; subst.
  inversion Hv as [|? ? Hvx Hv']; inversion Hw as [|? ? Hwx Hw']; subst. cbn [snd] in Hvx.
  pose proof Ht as (Htot & Hl & Hrf & Hb & Ht'). cbn [total] in *. pose proof (totals_nonneg _ Ht') as Ht0.
  destruct (Z.le_gt_cases rem (pb_len x)) as [Hc|Hc].
  { destruct (realloc_stop (S fuel) st q x l rem (rem - (pb_len x + total l))) as (st' & x' & He & Hp & Hl' & Hpl & Htr & Hct & Ho);
      try assumption; [split; assumption|lia|lia|].
    exists st', [(q, x')]. split; [exact He|]. split; [exact Hp|]. split; [|split; [cbn; lia|split; [exact Htr|split; [exact Hct|split; [|exact Ho]]]]].
    - constructor; [exact Hpl|constructor].
    - intros b [<-|[]]. now left. }
  destruct l as [|[n z] l]; [cbn [total] in *; lia|].
  assert (En : pb_next x = Some n) by (inversion H'; congruence).
  unfold realloc_body. cbn [realloc_loop]. rewrite (fetch_some st q x), bind_ret by exact Hx.
  case_bool (pb_len x <? rem); [|lia]. rewrite lwip_assert_true, bind_ret by (apply Z.ltb_lt; lia). rewrite En.
  set (x1 := with_tot_len x (u16 (pb_tot_len x + u16 (rem - (pb_len x + total ((n, z) :: l)))))).
  assert (Hx1 : pb_tot_len x1 = rem).
  { unfold x1, u16. cbn [with_tot_len pb_tot_len]. rewrite Zplus_mod_idemp_r, Htot. cbn [total].
    rewrite Z.mod_small; lia. }
  unfold u16. rewrite Z.mod_small by lia.
  destruct (IH (set_pbuf q x1 st) n z l (rem - pb_len x)) as (st' & l' & He & [Hc' Ht1] & Hva & Htl & Htr & Hct & Hin & Ho).
  { split; [now apply chain_insert; rewrite <- ?En|exact Ht']. }
  { exact Hv'. } { exact Hw'. } { cbn [total] in *. lia. } { simpl in Hf. lia. }
  destruct (Ho q Hq) as [Eq Em]. rewrite lookup_set_pbuf in Eq.
  exists st', ((q, x1) :: l'). split; [|split; [|split; [|split; [|split; [|split; [|split]]]]]].
  - rewrite <- He. unfold realloc_body. do 2 f_equal. cbn [total]. lia.
  - split; [constructor; [exact Eq|cbn [x1 with_tot_len pb_next]; now rewrite En]|].
    cbn [totals_ok total]. rewrite Hx1. cbn [x1 with_tot_len pb_len pb_ref]. repeat (split; [lia|]). exact Ht1.
  - constructor; [|exact Hva]. cbn [snd]. destruct Hwx as [o Hwx]. cbn [fst snd] in Hwx. destruct Hvx as [H0 Hvx].
    split; [exact H0|]. intros Hne. specialize (Hvx Hne). cbn [x1 with_tot_len pb_payload pb_len]. rewrite Hwx in *.
    unfold block in *. now rewrite Em.
  - cbn [total x1 with_tot_len pb_len]. lia.
  - apply TrimmedLater; [reflexivity|reflexivity|reflexivity|reflexivity|lia|exact Em|].
    exact (trimmed_mem (set_pbuf q x1 st) st st' _ _ _ eq_refl Htr).
  - cbn [content]. rewrite Hct. cbn [set_pbuf st_mem]. pose proof (bytes_length _ _ Hvx) as Hbl.
    rewrite firstn_app, (firstn_all2 (bytes_of _ x)) by lia. f_equal; [|f_equal; lia].
    destruct Hwx as [o Hwx]. cbn [fst snd] in Hwx. unfold bytes_of. cbn [x1 with_tot_len pb_payload pb_len].
    rewrite Hwx. unfold block. now rewrite Em.
  - intros b [<-|Hb0]; [now left|]. right. auto.
  - intros b Hb0. destruct (Ho b) as [E1 E2]; [intros Hin0; apply Hb0; now right|]. rewrite E1, E2.
    cbn [set_pbuf st_pbufs st_mem]. split; [|reflexivity]. apply lookup_insert_ne. intros ->. apply Hb0. now left.
Qed.

Lemma pbuf_realloc_spec st p l n :
  packet st (Some p) l -> all_valid (st_mem st) l -> Forall owns l -> 0 <= n ->
  exists st' l', pbuf_realloc (Some p) n st = ret st' /\
    packet st' (Some p) l' /\ total l' = Z.min n (total l) /\
    content (st_mem st') l' = firstn (Z.to_nat n) (content (st_mem st) l) /\
    (forall b, In b (addrs l') -> In b (addrs l)) /\
    (forall b, ~ In b (addrs l) -> st_pbufs st' !! b = st_pbufs st !! b /\ st_mem st' !! b = st_mem st !! b).
Proof.
  intros Hp Hv Hw Hn. pose proof Hp as [H Ht]. inversion H as [|? x l' Hx H']. subst.
  unfold pbuf_realloc. rewrite (fetch_some st p x), bind_ret by exact Hx.
  pose proof Ht as (Htot & _). rewrite Htot. case_bool (total ((p, x) :: l') <=? n).
  - exists st, ((p, x) :: l'). split; [reflexivity|]. split; [exact Hp|]. split; [lia|]. split; [|auto].
    rewrite firstn_all2; [reflexivity|]. pose proof (content_length _ _ Hv). lia.
  - pose proof (chain_size _ _ _ H) as Hsz. simpl in Hsz.
    destruct (realloc_spec (walk_fuel st) st p x l' n) as (st' & l2 & He & H1 & _ & H2 & _ & H3 & H4 & H5); auto;
      [unfold walk_fuel; lia|].
    exists st', l2. split; [exact He|]. split; [exact H1|]. split; [lia|]. auto.
Qed.

(** ** Joining and splitting *)

(** Splitting off the head that [pbuf_chain] joined restores the store. *)
Lemma chain_dechain st h x t l :
  packet st (Some h) [(h, x)] -> packet st (Some t) l -> ~ In h (addrs l) -> pb_len x + total l < 65536 ->
  (forall y, In (t, y) l -> pb_ref y < 65535) ->
  exists st1, pbuf_chain (Some h) (Some t) st = ret st1 /\ pbuf_dechain h st1 = ret (Some t, st).
Proof.
  intros Hh Ht Hn Hs Hr. destruct (pbuf_cat_spec st h [(h, x)] t l Hh Ht) as (st1 & Hc & [Hp1 _] & Ho & Hm).
  { intros a [<-|[]]. exact Hn. } { cbn [total]. lia. }
  destruct Hh as [Ch (Tx & Hl & Hrx & _)]. destruct Ht as [Ct Tt]. cbn [total] in Tx.
  inversion Ch as [|? ? ? Hx Chx]; inversion Ct as [|? y l' Hy Ct']. subst. cbn [joined app] in Hp1.
  assert (Hht : t <> h) by (intros ->; apply Hn; now left). pose proof Tt as (Ty & Hly & Hry & Hby & Tl).
  set (x1 := with_next (with_tot_len x (u16 (pb_tot_len x + total ((t, y) :: l')))) (Some t)) in *.
  assert (Hx1 : st_pbufs st1 !! h = Some x1) by (inversion Hp1; assumption).
  assert (Hy1 : st_pbufs st1 !! t = Some y) by (rewrite Ho; [exact Hy|intros [E|[]]; cbn in E; congruence]).
  set (y1 := with_ref y (pb_ref y + 1)). pose proof (Hr y ltac:(now left)) as Hry1.
  exists (set_pbuf t y1 st1). split.
  { unfold pbuf_chain. rewrite Hc, bind_ret. unfold pbuf_ref. rewrite (fetch_some st1 t y), bind_ret by exact Hy1.
    unfold u16. now rewrite Z.mod_small by lia. }
  pose proof (totals_nonneg _ Tt) as T0.
  assert (Htx1 : pb_tot_len x1 = pb_len x + total ((t, y) :: l')).
  { unfold x1. cbn [with_next with_tot_len pb_tot_len]. unfold u16. rewrite Z.mod_small; lia. }
  assert (Hnx : pb_next x = None) by (inversion Chx; congruence).
  unfold pbuf_dechain.
  rewrite (fetch_some _ h x1), bind_ret by (cbn; rewrite lookup_insert_ne by exact Hht; exact Hx1).
  change (pb_next x1) with (Some t). change (pb_len x1) with (pb_len x). cbv iota zeta. rewrite Htx1.
  replace (pb_len x + total ((t, y) :: l') - pb_len x) with (total ((t, y) :: l')) by lia.
  rewrite (fetch_some _ t y1), bind_ret by apply lookup_set_pbuf.
  rewrite lwip_assert_true, bind_ret by (apply Z.eqb_eq; exact Ty). rewrite set_pbuf_twice.
  assert (Hy1' : with_tot_len y1 (u16 (total ((t, y) :: l'))) = y1).
  { unfold u16. pose proof (totals_nonneg _ Tl). rewrite Z.mod_small by (cbn [total] in *; lia). rewrite <- Ty. now destruct y. }
  rewrite Hy1'. rewrite (fetch_some _ h x1), bind_ret by (cbn; rewrite lookup_insert_ne by exact Hht; exact Hx1).
  assert (Hx2 : with_tot_len (with_next x1 None) (pb_len x1) = x).
  { unfold x1. clear - Tx Hnx. destruct x as [nx pl tt ll ty fl rf]. cbn [pb_next pb_tot_len pb_len] in Tx, Hnx. subst nx. replace tt with ll by lia. reflexivity. }
  rewrite Hx2. set (st2 := set_pbuf h x (set_pbuf t y1 st1)).
  assert (Hst2 : st2 = set_pbuf t y1 st).
  { apply (f_equal2 Store); [|exact Hm]. apply map_eq. intros b. cbn.
    destruct (decide (b = h)) as [->|Hb]; [rewrite lookup_insert_eq, lookup_insert_ne by congruence; congruence|].
    rewrite lookup_insert_ne by congruence. destruct (decide (b = t)) as [->|Hb2]; [now rewrite !lookup_insert_eq|].
    rewrite !lookup_insert_ne by congruence. apply Ho. intros [E|[]]. cbn in E. congruence. }
  rewrite Hst2. clear Hst2 st2. pose proof (chain_head_fresh _ _ _ _ Ct) as Ht'.
  rewrite (pbuf_free_chain _ t ((t, y1) :: l')).
  2: { constructor; [apply lookup_set_pbuf|]. now apply chain_insert. }
  2: { constructor; [cbn; lia|now apply totals_refs]. }
  cbn [freed]. case_bool (pb_ref y1 =? 1); [cbn in E; lia|]. cbn [fst snd]. rewrite set_pbuf_twice.
  replace (with_ref y1 (pb_ref y1 - 1)) with y by (unfold y1; destruct y; cbn; f_equal; lia).
  rewrite (set_pbuf_same st t y) by exact Hy. rewrite bind_ret, (fetch_some st h x), bind_ret by exact Hx.
  rewrite lwip_assert_true, bind_ret by (apply Z.eqb_eq; lia). reflexivity.
Qed.
