(* ===== verification/PbufAlloc.v ===== *)
(** * lwIP packet buffers: allocation and the operations built on it *)
From Stdlib Require Import ZArith List Lia Bool.
From stdpp Require Import base gmap list.
From S2P Require Import Prelude CMonad Pbuf PbufChain PbufData PbufEdit.
#[local] Open Scope Z_scope.
#[local] Open Scope cmonad_scope.

(** ** Stores that grow *)

(** [st] is [st0] and the new pbufs of [l]. *)
Definition extends (st0 st : store) (l : list (addr * pbuf)) : Prop :=
  (forall a, In a (addrs l) -> st_pbufs st0 !! a = None /\ st_mem st0 !! a = None) /\
  (forall b, ~ In b (addrs l) -> st_pbufs st !! b = st_pbufs st0 !! b /\ st_mem st !! b = st_mem st0 !! b).

Lemma store_eq st st' :
  (forall b, st_pbufs st !! b = st_pbufs st' !! b /\ st_mem st !! b = st_mem st' !! b) -> st = st'.
Proof.
  intros H. destruct st as [p m], st' as [p' m']. cbn [st_pbufs st_mem] in H.
  assert (p = p') by (apply map_eq; intros; apply H). assert (m = m') by (apply map_eq; intros; apply H). congruence.
Qed.

(** A chain of new pbufs that is freed leaves the old store. *)
Lemma extends_freed st0 st l :
  extends st0 st l -> (forall a x, In (a, x) l -> pb_ref x = 1) -> snd (freed l st) = st0.
Proof.
  intros [Hn Ho] Hr. destruct (freed_all l st Hr) as [_ Hf]. apply store_eq. intros b.
  destruct (in_dec Pos.eq_dec b (addrs l)) as [Hin|Hin].
  - destruct (Hf b Hin) as [-> ->]. destruct (Hn b Hin) as [-> ->]. auto.
  - destruct (freed_other l st b Hin) as [-> ->]. now apply Ho.
Qed.

Section Alloc.
Variable junk : nat -> Z.

Lemma new_block_spec size st :
  0 <= size ->
  surely (new_block junk size st)
    (fun '(p, st') =>
       match p with
       | None => st' = st
       | Some a => st_pbufs st !! a = None /\ st_mem st !! a = None /\ st_pbufs st' = st_pbufs st /\
                   exists l, Z.of_nat (length l) = size /\ st_mem st' = <[a := l]> (st_mem st)
       end).
Proof.
  intros Hs. unfold new_block. eapply surely_bind; [apply (surely_malloc (fun _ => True)); exact I|].
  intros [|] _; apply surely_ret; [|reflexivity].
  set (D := dom (st_pbufs st) ∪ dom (st_mem st)). pose proof (is_fresh D) as Hf. unfold D in Hf at 2.
  rewrite elem_of_union, !elem_of_dom in Hf.
  split; [apply eq_None_not_Some; tauto|]. split; [apply eq_None_not_Some; tauto|]. split; [reflexivity|].
  eexists. split; [|reflexivity]. rewrite length_map, length_seq. lia.
Qed.

(** A new block, then its pbuf. *)
Lemma extends_cons st0 st l a x bs :
  extends st0 st l -> st_pbufs st !! a = None -> st_mem st !! a = None -> ~ In a (addrs l) ->
  extends st0 (Store (<[a := x]> (st_pbufs st)) (<[a := bs]> (st_mem st))) (l ++ [(a, x)]).
Proof.
  intros [Hn Ho] Ha1 Ha2 Hni. destruct (Ho a Hni) as [E1 E2]. split; intros b; rewrite map_app, in_app_iff; cbn [map In fst].
  - intros [Hb|[<-|[]]]; [now apply Hn|]. split; congruence.
  - intros Hb. cbn [st_pbufs st_mem]. assert (a <> b) by tauto. rewrite !lookup_insert_ne by assumption. apply Ho. tauto.
Qed.

(** ** Single pbufs *)

(** A pbuf that was just allocated. *)
Definition fresh_pbuf (st0 st : store) (p : addr) (payload : option (addr * Z)) (n size : Z) (t : pbuf_type) : Prop :=
  st_pbufs st0 !! p = None /\ st_mem st0 !! p = None /\
  st_pbufs st = <[p := Pbuf None payload n n t 0 1]> (st_pbufs st0) /\
  exists l, Z.of_nat (length l) = size /\ st_mem st = <[p := l]> (st_mem st0).

Lemma alloc_end_spec st p x :
  st_pbufs st !! p = Some x ->
  alloc_end p st = ret (Some p, set_pbuf p (Pbuf (pb_next x) (pb_payload x) (pb_tot_len x) (pb_len x) (pb_type x) 0 1) st).
Proof. intros H. unfold alloc_end. now rewrite (fetch_some st p x), bind_ret. Qed.

Lemma header_room_nonneg layer : 0 <= header_room layer <= 54.
Proof. destruct layer; unfold header_room, PBUF_TRANSPORT_HLEN, PBUF_IP_HLEN, PBUF_LINK_HLEN; lia. Qed.

Lemma alloc_ram layer n st :
  0 <= n ->
  surely (pbuf_alloc junk layer n PBUF_RAM st)
    (fun '(p, st') => match p with
       | None => st' = st
       | Some a => fresh_pbuf st st' a (Some (a, header_room layer)) n (header_room layer + n) PBUF_RAM
       end).
Proof.
  intros Hn. unfold pbuf_alloc. pose proof (header_room_nonneg layer).
  eapply surely_bind; [apply new_block_spec; lia|]. intros [[a|] st1]; [|intros ->; now apply surely_ret].
  intros (H1 & H2 & H3 & l & Hl & H4). erewrite alloc_end_spec by apply lookup_set_pbuf.
  apply surely_ret. rewrite set_pbuf_twice. unfold fresh_pbuf. cbn. rewrite H3. eauto 7.
Qed.

Lemma alloc_ref layer n t st :
  t = PBUF_ROM \/ t = PBUF_REF ->
  surely (pbuf_alloc junk layer n t st)
    (fun '(p, st') => match p with None => st' = st | Some a => fresh_pbuf st st' a None n 0 t end).
Proof.
  intros Ht. assert (E : pbuf_alloc junk layer n t st =
    ('(p, st) <- new_block junk 0 st;;
     match p with
     | None => ret (None, st)
     | Some p => alloc_end p (set_pbuf p (Pbuf None None n n t 0 0) st)
     end)) by (destruct Ht as [-> | ->]; reflexivity).
  rewrite E. eapply surely_bind; [apply new_block_spec; lia|]. intros [[a|] st1]; [|intros ->; now apply surely_ret].
  intros (H1 & H2 & H3 & l & Hl & H4). erewrite alloc_end_spec by apply lookup_set_pbuf.
  apply surely_ret. rewrite set_pbuf_twice. unfold fresh_pbuf. cbn. rewrite H3. eauto 7.
Qed.

(** ** Chains from the pool *)

(** A pbuf of the pool with one reference and its payload inside its block. *)
Definition pool_pbuf (m : gmap addr (list Z)) (c : addr * pbuf) : Prop :=
  exists o, pb_payload (snd c) = Some (fst c, o) /\ 0 <= o /\ 0 <= pb_len (snd c) /\
    o + pb_len (snd c) <= PBUF_POOL_BUFSIZE /\ Z.of_nat (length (block m (fst c))) = PBUF_POOL_BUFSIZE /\
    pb_ref (snd c) = 1 /\ pb_type (snd c) = PBUF_POOL.

(** The invariant of the lengths while [rem] bytes are still to come. *)
Fixpoint totals_to (rem : Z) (l : list (addr * pbuf)) : Prop :=
  match l with [] => True | (_, x) :: l' => pb_tot_len x = total l + rem /\ totals_to rem l' end.

Lemma totals_to_app rem l1 l2 : totals_to rem (l1 ++ l2) <-> totals_to (total l2 + rem) l1 /\ totals_to rem l2.
Proof.
  induction l1 as [|[a x] l1 IH]; simpl; [tauto|]. rewrite IH, total_app.
  split; intros [H1 H2]; repeat split; try tauto; lia.
Qed.

Lemma pool_totals m l : Forall (pool_pbuf m) l -> totals_to 0 l -> total l < 65536 -> totals_ok l /\ 0 <= total l.
Proof.
  induction 1 as [|[a x] l (o & _ & _ & Hl & _ & _ & Hr & _) H IH]; [simpl; lia|].
  cbn [snd totals_to total] in *. intros [Ht Hts] Hb.
  assert (H0 : 0 <= total l).
  { clear - H. induction H as [|[a x] l (o & _ & _ & Hl & _) H IH]; simpl in *; lia. }
  destruct IH as [IH _]; [exact Hts|lia|]. cbn [totals_ok total]. split; [|lia]. repeat (split; [lia|]). exact IH.
Qed.

Lemma pool_block m m' c : pool_pbuf m c -> m' !! fst c = m !! fst c -> pool_pbuf m' c.
Proof. intros (o & H) E. exists o. unfold block in *. now rewrite E. Qed.

(** The last pbuf of a chain gets a successor. *)
Lemma chain_snoc m p l r x q y :
  chain m p (l ++ [(r, x)]) -> m !! q = None -> pb_next y = None ->
  chain (<[q := y]> (<[r := with_next x (Some q)]> m)) p (l ++ [(r, with_next x (Some q)); (q, y)]).
Proof.
  revert p. induction l as [|[a z] l IH]; intros p H Hq Hy; inversion H as [|? ? ? Hx H']; subst; cbn [app] in *.
  - assert (q <> r) by congruence. constructor; [rewrite lookup_insert_ne by congruence; apply lookup_insert_eq|].
    cbn [with_next pb_next]. constructor; [apply lookup_insert_eq|]. rewrite Hy. constructor.
  - assert (q <> a) by congruence.
    assert (r <> a).
    { intros ->. apply (chain_head_fresh _ _ _ _ H). rewrite map_app, in_app_iff. right. now left. }
    constructor; [now rewrite !lookup_insert_ne by congruence|]. now apply IH.
Qed.

Lemma fits_pool_spec st p l : chain (st_pbufs st) (Some p) l -> Forall (pool_pbuf (st_mem st)) l -> fits_pool st p = ret true.
Proof.
  intros H Hp. inversion H as [|? x l' Hx H']; subst. inversion Hp as [|? ? (o & Hpl & _ & _ & Hb & _) _]; subst.
  cbn [fst snd] in *. unfold fits_pool. rewrite (fetch_some st p x), bind_ret by exact Hx. rewrite Hpl.
  rewrite bool_decide_eq_true_2 by reflexivity. case_bool (o + pb_len x <=? PBUF_POOL_BUFSIZE); [reflexivity|lia].
Qed.


(** The first pbuf is [p], with [off] bytes before its payload. *)
Definition head_room (p : addr) (off : Z) (l : list (addr * pbuf)) : Prop :=
  match l with (a, x) :: _ => a = p /\ pb_payload x = Some (p, off) | [] => False end.

(** What [pbuf_alloc] leaves for the type [PBUF_POOL]. *)
Definition pool_result (st0 : store) (n off : Z) (p : option addr) (st : store) : Prop :=
  match p with
  | None => st = st0
  | Some a =>
      exists l, extends st0 st l /\ packet st p l /\ total l = n /\ Forall (pool_pbuf (st_mem st)) l /\
        head_room a off l
  end.

(** The chain built so far, with last pbuf [r], while [rem] of the [n] bytes
    are still to come. *)
Record building (st0 st : store) (n off : Z) (p : addr) (l : list (addr * pbuf)) (r : addr) (x : pbuf) (rem : Z) : Prop :=
  Building
  { bu_chain : chain (st_pbufs st) (Some p) (l ++ [(r, x)]);
    bu_extends : extends st0 st (l ++ [(r, x)]);
    bu_pool : Forall (pool_pbuf (st_mem st)) (l ++ [(r, x)]);
    bu_totals : totals_to rem (l ++ [(r, x)]);
    bu_sum : total (l ++ [(r, x)]) + rem = n;
    bu_head : head_room p off (l ++ [(r, x)]) }.

Lemma extends_change st0 st st' l l' :
  extends st0 st l -> addrs l' = addrs l ->
  (forall b, ~ In b (addrs l) -> st_pbufs st' !! b = st_pbufs st !! b /\ st_mem st' !! b = st_mem st !! b) ->
  extends st0 st' l'.
Proof.
  intros [Hn Ho] Ha Hc. split; rewrite Ha; [exact Hn|]. intros b Hb.
  destruct (Hc b Hb) as [-> ->]. now apply Ho.
Qed.

(** One more pbuf of the pool. *)
Lemma building_step st0 st n off p l r x rem q bs :
  building st0 st n off p l r x rem -> st_pbufs st !! q = None -> st_mem st !! q = None ->
  Z.of_nat (length bs) = PBUF_POOL_BUFSIZE -> 0 < rem < 65536 ->
  let qlen := Z.min rem PBUF_POOL_BUFSIZE in
  let y := Pbuf None (Some (q, 0)) rem qlen PBUF_POOL 0 1 in
  building st0 (Store (<[q := y]> (<[r := with_next x (Some q)]> (st_pbufs st))) (<[q := bs]> (st_mem st)))
    n off p (l ++ [(r, with_next x (Some q))]) q y (rem - qlen).
Proof.
  intros [Hc He Hp Ht Hs Hh] Hq1 Hq2 Hbs Hr qlen y.
  assert (Hq : forall c, In c (l ++ [(r, x)]) -> fst c <> q).
  { intros [a z] Hin. cbn [fst]. intros ->. rewrite (chain_lookup _ _ _ _ _ Hc Hin) in Hq1. discriminate. }
  assert (Hqa : ~ In q (addrs (l ++ [(r, x)]))) by (rewrite in_map_iff; intros (c & <- & Hin); now apply (Hq c)).
  assert (Hpool : PBUF_POOL_BUFSIZE = 590) by reflexivity.
  constructor; rewrite <- ?app_assoc; cbn [app].
  - cbn [st_pbufs]. now apply chain_snoc.
  - apply (extends_change st0 (Store (<[q := y]> (st_pbufs st)) (<[q := bs]> (st_mem st))) _ ((l ++ [(r, x)]) ++ [(q, y)])).
    + now apply extends_cons.
    + rewrite !map_app, <- app_assoc. reflexivity.
    + intros b Hb. cbn [st_pbufs st_mem]. split; [|reflexivity].
      rewrite !map_app, !in_app_iff in Hb. cbn [map In fst] in Hb.
      destruct (decide (b = q)) as [->|Hbq]; [rewrite !lookup_insert_eq; reflexivity|].
      rewrite !lookup_insert_ne by (try congruence; intros ->; tauto). reflexivity.
  - cbn [st_mem]. apply Forall_app in Hp as [Hp1 Hp2]. inversion Hp2 as [|? ? Hpx _]; subst.
    assert (Hblk : forall c, In c (l ++ [(r, x)]) -> (<[q := bs]> (st_mem st) : gmap addr (list Z)) !! fst c = st_mem st !! fst c).
    { intros c Hin. apply lookup_insert_ne. intros E. now apply (Hq c Hin). }
    apply Forall_app. split; [|constructor; [|constructor; [|constructor]]].
    + rewrite Forall_forall in *. intros c Hin. apply (pool_block (st_mem st)); [now apply Hp1|].
      apply Hblk. rewrite in_app_iff. left. now apply list_elem_of_In.
    + destruct Hpx as (o & Hpx). exists o. cbn [fst snd with_next pb_payload pb_len pb_ref pb_type] in *.
      pose proof (Hblk (r, x) ltac:(rewrite in_app_iff; right; now left)) as Er. cbn [fst] in Er.
      unfold block in *. rewrite Er. exact Hpx.
    + exists 0. cbn [fst snd y pb_payload pb_len pb_ref pb_type]. unfold block. rewrite lookup_insert_eq. unfold qlen.
      split; [reflexivity|]. repeat split; lia.
  - assert (Ey : total [(q, y)] = qlen) by (cbn; lia). apply totals_to_app in Ht as [Ht1 Ht2].
    apply totals_to_app. cbn [totals_to total with_next y pb_tot_len pb_len] in *.
    replace (pb_len x + (qlen + 0) + (rem - qlen)) with (pb_len x + 0 + rem) by lia.
    split; [exact Ht1|]. repeat split; lia.
  - rewrite total_app in *. cbn [total with_next y pb_len] in *. lia.
  - destruct l as [|[a z] l]; exact Hh.
Qed.

Lemma pool_tail_spec st0 n off p fuel st l r x rem :
  building st0 st n off p l r x rem -> 0 <= rem < 65535 -> n < 65536 -> (Z.to_nat rem <= fuel)%nat ->
  surely (pool_tail junk fuel p r rem st)
    (fun '(p', st') => (p' = None \/ p' = Some p) /\ pool_result st0 n off p' st').
Proof.
  intros Hb Hr Hn Hf. revert st l r x rem Hb Hr Hf. induction fuel as [|fuel IH]; intros st l r x rem Hb Hr Hf;
    cbn [pool_tail]; case_bool (0 <? rem); try lia.
  1, 3: apply surely_ret; split; [now right|]; destruct Hb as [Hc He Hp Ht Hs Hh]; replace rem with 0 in * by lia;
    exists (l ++ [(r, x)]); destruct (pool_totals _ _ Hp Ht) as [Hok _]; [lia|];
    split; [exact He|]; split; [split; assumption|]; split; [lia|split; [exact Hp|exact Hh]].
  eapply surely_bind; [apply new_block_spec; unfold PBUF_POOL_BUFSIZE, TCP_MSS, PBUF_LINK_HLEN; lia|].
  intros [[q|] st1].
  - intros (Hq1 & Hq2 & Ep & bs & Hbs & Em). pose proof (building_step _ _ _ _ _ _ _ _ _ q bs Hb Hq1 Hq2 Hbs ltac:(lia)) as Hb'.
    cbv zeta in Hb'. pose proof Hb as [Hc _ _ _ _ _].
    rewrite (fetch_some st1 r x), bind_ret.
    2: { rewrite Ep. apply (chain_lookup _ _ _ _ _ Hc). rewrite in_app_iff. right. now left. }
    rewrite lwip_assert_true, bind_ret by (apply Z.ltb_lt; lia). cbv zeta.
    replace (u16 rem) with rem by (unfold u16; rewrite Z.mod_small; lia).
    destruct st1 as [p1 m1]. cbn [st_pbufs st_mem] in Ep, Em. subst p1 m1. unfold set_pbuf. cbn [st_pbufs st_mem].
    rewrite (fits_pool_spec _ p _ (bu_chain _ _ _ _ _ _ _ _ _ Hb') (bu_pool _ _ _ _ _ _ _ _ _ Hb')), bind_ret.
    rewrite lwip_assert_true, bind_ret by reflexivity.
    assert (Hpool : PBUF_POOL_BUFSIZE = 590) by reflexivity. apply (IH _ _ _ _ _ Hb'); lia.
  - intros ->. destruct Hb as [Hc He Hp Ht Hs Hh]. rewrite (pbuf_free_chain st p (l ++ [(r, x)])), bind_ret.
    + apply surely_ret. split; [now left|]. cbn [pool_result]. apply extends_freed; [exact He|].
      intros a z Hin. rewrite Forall_forall in Hp. destruct (Hp (a, z)) as (o & H); [now apply list_elem_of_In|]. apply H.
    + exact Hc.
    + eapply Forall_impl; [exact Hp|]. intros c (o & H). cbn beta. lia.
Qed.

Lemma alloc_pool layer n st :
  0 <= n < 65536 ->
  surely (pbuf_alloc junk layer n PBUF_POOL st) (fun '(p, st') => pool_result st n (header_room layer) p st').
Proof.
  intros Hn. unfold pbuf_alloc. pose proof (header_room_nonneg layer) as Hl. set (off := header_room layer) in *.
  assert (Hpool : PBUF_POOL_BUFSIZE = 590) by reflexivity.
  eapply surely_bind; [apply new_block_spec; lia|]. intros [[p|] st1]; [|intros ->; now apply surely_ret].
  intros (H1 & H2 & Ep & bs & Hbs & Em). destruct st1 as [p1 m1]. cbn [st_pbufs st_mem] in Ep, Em. subst p1 m1.
  set (plen := Z.min n (PBUF_POOL_BUFSIZE - off)).
  set (x := Pbuf None (Some (p, off)) n plen PBUF_POOL 0 1). unfold set_pbuf at 1. cbn [st_pbufs st_mem].
  assert (Hb : building st (Store (<[p := x]> (st_pbufs st)) (<[p := bs]> (st_mem st))) n off p [] p x (n - plen)).
  { constructor; cbn [app st_pbufs st_mem].
    - constructor; [apply lookup_insert_eq|constructor].
    - apply (extends_cons st st []); auto. split; [intros a []|auto].
    - constructor; [|constructor]. exists off. cbn [fst snd x pb_payload pb_len pb_ref pb_type].
      unfold block. rewrite lookup_insert_eq. split; [reflexivity|]. repeat split; lia.
    - cbn [totals_to total x pb_tot_len pb_len]. split; [lia|exact I].
    - cbn [total x pb_len]. lia.
    - split; reflexivity. }
  rewrite (fits_pool_spec _ p _ (bu_chain _ _ _ _ _ _ _ _ _ Hb) (bu_pool _ _ _ _ _ _ _ _ _ Hb)), bind_ret.
  rewrite lwip_assert_true, bind_ret by reflexivity.
  rewrite lwip_assert_true, bind_ret by (apply Z.ltb_lt; lia).
  eapply surely_bind; [apply (pool_tail_spec st n off p _ _ _ _ _ _ Hb); lia|].
  intros [p' st2] [[-> | ->] Hres]; [now apply surely_ret|].
  destruct Hres as (l & He & [Hc Ht] & Hs & Hp & Hh). inversion Hc as [|? y l' Hy Hc']. subst l.
  erewrite alloc_end_spec by exact Hy. apply surely_ret.
  inversion Hp as [|? ? Hpy Hp']. pose proof Hpy as (o & Hpl & _ & _ & _ & _ & Href & _). cbn [fst snd] in *.
  exists ((p, Pbuf (pb_next y) (pb_payload y) (pb_tot_len y) (pb_len y) (pb_type y) 0 1) :: l'). split; [|split; [|split; [|split; [|exact Hh]]]].
  - eapply extends_change; [exact He|reflexivity|]. intros b Hb0. cbn [set_pbuf st_pbufs st_mem]. split; [|reflexivity].
    apply lookup_insert_ne. intros ->. apply Hb0. now left.
  - split.
    + constructor; [apply lookup_set_pbuf|]. cbn [pb_next]. apply chain_insert; [exact Hc'|].
      now apply (chain_head_fresh (st_pbufs st2) p y).
    + cbn [totals_ok total pb_tot_len pb_len pb_ref] in *. rewrite Href in Ht. exact Ht.
  - exact Hs.
  - constructor; [|exact Hp']. cbn [set_pbuf st_mem]. exists o. cbn [fst snd pb_payload pb_len pb_ref pb_type].
    destruct Hpy as (o' & Hpy). cbn [fst snd] in Hpy. destruct Hpy as (E & Hpy). rewrite Hpl in E. injection E as <-.
    split; [exact Hpl|]. lia || (repeat split; try lia; apply Hpy).
Qed.
End Alloc.

(** ** Coalescing *)

(** A packet that owns its bytes depends on its blocks only. *)
Lemma owned_ext m m' l :
  Forall owns l -> (forall a, In a (addrs l) -> m' !! a = m !! a) ->
  content m' l = content m l /\ (all_valid m l -> all_valid m' l).
Proof.
  intros Hw He.
  assert (Hb : forall c, In c l -> bytes_of m' (snd c) = bytes_of m (snd c) /\ (valid m (snd c) -> valid m' (snd c))).
  { intros [a x] Hin. rewrite Forall_forall in Hw. destruct (Hw (a, x)) as [o Ho]; [now apply list_elem_of_In|].
    cbn [fst snd] in *. assert (E : m' !! a = m !! a) by (apply He, in_map_iff; exists (a, x); auto).
    unfold bytes_of, valid. rewrite Ho. unfold block. now rewrite E. }
  split.
  - clear - Hb. induction l as [|[a x] l IH]; [reflexivity|]. cbn [content].
    destruct (Hb (a, x)) as [Ex _]; [now left|]. cbn [snd] in Ex. rewrite Ex, IH; [reflexivity|].
    intros c Hc. apply Hb. now right.
  - unfold all_valid. rewrite !Forall_forall. intros Hv c Hc. apply Hb; [now apply list_elem_of_In|auto].
Qed.

(** A fresh pbuf of the type [PBUF_RAM] is a place to copy to. *)
Lemma fresh_copyable st0 st a off n :
  fresh_pbuf st0 st a (Some (a, off)) n (off + n) PBUF_RAM -> 0 <= off -> 0 < n < 65536 ->
  let x := Pbuf None (Some (a, off)) n n PBUF_RAM 0 1 in
  copyable (st_pbufs st) (st_mem st) (Some a) [(a, x)].
Proof.
  intros (_ & _ & Ep & bs & Hbs & Em) Ho Hn x. split; [|split; [|split; [|split]]].
  - rewrite Ep. constructor; [apply lookup_insert_eq|constructor].
  - cbn. lia.
  - constructor; [|constructor]. cbn [snd]. split; [cbn; lia|]. intros _. cbn [x pb_payload pb_len].
    unfold block. rewrite Em, lookup_insert_eq. lia.
  - constructor; [cbn; lia|constructor].
  - constructor; [|constructor]. now exists off.
Qed.

(** [pbuf_coalesce] moves a packet of several pbufs into a single one, or
    leaves it alone when there is no memory. *)
Lemma coalesce_spec junk st p l layer :
  packet st (Some p) l -> all_valid (st_mem st) l -> all_full l -> Forall owns l -> (1 < length l)%nat ->
  surely (pbuf_coalesce junk p layer st)
    (fun '(q, st') =>
       (q = Some p /\ st' = st) \/
       exists a x, q = Some a /\ packet st' q [(a, x)] /\ st_pbufs st !! a = None /\
         content (st_mem st') [(a, x)] = content (st_mem st) l /\
         ((forall b y, In (b, y) l -> pb_ref y = 1) -> forall b, In b (addrs l) -> st_pbufs st' !! b = None)).
Proof.
  intros [H Ht] Hv Hfull Hw Hl. inversion H as [|? x0 l0 Hx H']. subst. unfold pbuf_coalesce.
  rewrite (fetch_some st p x0), bind_ret by exact Hx.
  assert (En : exists n, pb_next x0 = Some n) by (inversion H'; subst; [simpl in Hl; lia|eauto]).
  destruct En as [n0 ->]. set (l := (p, x0) :: l0) in *. pose proof Ht as (Htot & _ & _ & Hb & _). fold l in Htot, Hb.
  pose proof (full_total l Hfull ltac:(discriminate)) as Hpos. rewrite Htot. pose proof (header_room_nonneg layer) as Hroom.
  eapply surely_bind; [apply alloc_ram; lia|]. intros [[a|] st1]; [|intros ->; apply surely_ret; now left].
  intros Hfr. pose proof (fresh_copyable _ _ _ _ _ Hfr ltac:(lia) ltac:(lia)) as Hct. cbv zeta in Hct.
  destruct Hfr as (Hn1 & Hn2 & Ep & bs & Hbs & Em). set (x := Pbuf None (Some (a, header_room layer)) (total l) (total l) PBUF_RAM 0 1) in *.
  assert (Ha : ~ In a (addrs l)).
  { rewrite in_map_iff. intros ([b y] & E & Hin). cbn in E. subst b.
    rewrite (chain_lookup _ _ _ _ _ H Hin) in Hn1. discriminate. }
  destruct (owned_ext (st_mem st) (st_mem st1) l Hw) as [Ec Ev].
  { intros b Hb0. rewrite Em. apply lookup_insert_ne. intros ->. contradiction. }
  assert (Hcf : copyable (st_pbufs st1) (st_mem st1) (Some p) l).
  { split; [rewrite Ep; now apply chain_insert|]. split; [exact Ht|]. split; [now apply Ev|]. split; assumption. }
  destruct st1 as [p1 m1]. cbn [st_pbufs st_mem] in *.
  destruct (pbuf_copy_spec p1 m1 a p [(a, x)] l Hct Hcf) as (m2 & Hcp & Hc2 & Hr2).
  { intros b Hb0 [E|[]]. cbn in E. subst b. contradiction. } { cbn [total x pb_len]. lia. }
  rewrite Hcp, bind_ret. rewrite lwip_assert_true, bind_ret by reflexivity.
  rewrite (pbuf_free_chain (Store p1 m2) p l), bind_ret by (try apply Hcf; now apply totals_refs).
  apply surely_ret. right. exists a, x. split; [reflexivity|].
  destruct (freed_other l (Store p1 m2) a Ha) as [F1 F2]. cbn [st_pbufs st_mem] in F1, F2. split; [|split; [exact Hn1|split]].
  - split; [|apply Hct]. constructor; [|constructor]. rewrite F1, Ep. apply lookup_insert_eq.
  - destruct (owned_ext m2 (st_mem (snd (freed l (Store p1 m2)))) [(a, x)]) as [E1 _]; [apply Hct| |].
    { intros b [E|[]]. cbn in E. now subst b. }
    rewrite E1, Hc2, Ec, skipn_all2, app_nil_r; [reflexivity|].
    pose proof (content_length m1 _ (proj1 (proj2 (proj2 Hct)))) as Hlen. cbn [total x pb_len] in Hlen. lia.
  - intros Hrefs b Hb0. now apply (freed_all l (Store p1 m2) Hrefs).
Qed.

(** A single new pbuf as a packet. *)
Lemma fresh_result st st' a (layer : pbuf_layer) n size t :
  fresh_pbuf st st' a (if holds_data t then Some (a, header_room layer) else None) n size t ->
  size = (if holds_data t then header_room layer + n else 0) -> 0 <= n < 65536 ->
  exists l, extends st st' l /\ packet st' (Some a) l /\ total l = n /\
    Forall (fun c => pb_ref (snd c) = 1 /\ pb_type (snd c) = t) l /\
    (holds_data t = true -> all_valid (st_mem st') l /\ Forall owns l /\ head_room a (header_room layer) l).
Proof.
  intros (H1 & H2 & Ep & bs & Hbs & Em) Hs Hn. set (x := Pbuf None _ n n t 0 1) in *. exists [(a, x)].
  assert (Hempty : extends st st []) by (split; [intros b []|auto]). pose proof (header_room_nonneg layer) as Hroom.
  split; [destruct st' as [p' m']; cbn [st_pbufs st_mem] in *; subst p' m'; now apply (extends_cons st st [])|].
  split; [split; [rewrite Ep; constructor; [apply lookup_insert_eq|constructor]|cbn; lia]|].
  split; [cbn; lia|]. split; [constructor; [auto|constructor]|].
  intros Ht. unfold x in *. rewrite Ht in *. split; [|split; [|split; reflexivity]]; (constructor; [|constructor]).
  - split; [cbn; lia|]. intros _. cbn [snd pb_payload pb_len]. unfold block. rewrite Em, lookup_insert_eq. lia.
  - now exists (header_room layer).
Qed.

(** ** Runs that have memory *)

Lemma thrifty_assert b : thrifty (lwip_assert b).
Proof. unfold lwip_assert. thrifty. Qed.
Lemma thrifty_fetch st p : thrifty (fetch st p).
Proof. unfold fetch. thrifty. Qed.
Lemma thrifty_load st p off n : thrifty (load st p off n).
Proof. unfold load. thrifty. Qed.
#[export] Hint Resolve thrifty_assert thrifty_fetch thrifty_load : thrifty.

Lemma thrifty_save st p off bs : thrifty (save st p off bs).
Proof. unfold save, write_at. thrifty. Qed.
#[export] Hint Resolve thrifty_save : thrifty.

Lemma thrifty_free p st : thrifty (pbuf_free p st).
Proof.
  unfold pbuf_free. apply thrifty_bind; [thrifty|intros _]. generalize (walk_fuel st) as fuel. intros fuel.
  generalize 0 as c. revert p st. induction fuel as [|fuel IH]; intros p st c; cbn [free_loop]; thrifty.
Qed.
#[export] Hint Resolve thrifty_free : thrifty.

Lemma thrifty_header p n st : thrifty (pbuf_header p n st).
Proof. unfold pbuf_header. thrifty. Qed.

Lemma thrifty_cat h t st : thrifty (pbuf_cat h t st).
Proof.
  unfold pbuf_cat. destruct h as [h|], t as [t|]; thrifty.
  generalize (walk_fuel st) as fuel. intros fuel. revert h st. induction fuel as [|fuel IH]; intros h st; cbn [cat_loop]; thrifty.
Qed.
#[export] Hint Resolve thrifty_header thrifty_cat : thrifty.

Lemma thrifty_no_queue st p : thrifty (no_queue st p).
Proof. unfold no_queue. thrifty. Qed.

(** A copy always succeeds, or does not end in a result. *)
Lemma enough_copy p q st : enough (pbuf_copy p q st) (fun r => fst r = ERR_OK).
Proof.
  unfold pbuf_copy. destruct p as [p|], q as [q|]; try (intros h a h' _ H; discriminate H).
  do 2 (eapply enough_bind; [apply thrifty_fetch|intros ? _]). eapply enough_bind; [apply thrifty_assert|intros _ _].
  generalize (2 * walk_fuel st)%nat, (Some p), (Some q). intros fuel. assert (H0 : forall st pt pf ot og, enough (copy_loop fuel pt pf ot og st) (fun r => fst r = ERR_OK)); [|auto].
  clear. induction fuel as [|fuel IH]; intros st pt pf ot og; cbn [copy_loop]; [intros h r h' _ H; discriminate H|].
  eapply enough_bind; [apply thrifty_assert|intros _ _]. do 2 (eapply enough_bind; [apply thrifty_fetch|intros ? _]). cbv zeta.
  eapply enough_bind; [apply thrifty_load|intros ? _]. eapply enough_bind; [apply thrifty_save|intros ? _].
  eapply enough_bind; [apply thrifty_assert|intros _ _]. destruct (if _ =? _ then _ else _) as [pt2 ot2].
  eapply enough_bind; [apply thrifty_assert|intros _ _]. destruct (if _ <=? _ then _ else _) as [pf2 og2].
  eapply enough_bind; [apply thrifty_no_queue|intros _ _]. eapply enough_bind; [apply thrifty_no_queue|intros _ _].
  destruct pf2; [apply IH|now apply enough_ret].
Qed.

(** With memory there is a pbuf. *)
Lemma enough_alloc junk layer n t st : t <> PBUF_POOL -> enough (pbuf_alloc junk layer n t st) (fun r => fst r <> None).
Proof.
  intros Ht. assert (Hb : forall k, enough (new_block junk k st) (fun r => fst r <> None)).
  { intros k. unfold new_block. eapply enough_bind; [apply enough_malloc|]. intros b ->. now apply enough_ret. }
  unfold pbuf_alloc. destruct t; try contradiction; (eapply enough_bind; [apply Hb|]); intros [[a|] st1] Hne; try contradiction; unfold alloc_end.
  all: eapply enough_bind; [apply thrifty_fetch|]; intros y _; now apply enough_ret.
Qed.
