(* ===== verification/PbufTheorems.v ===== *)
(** * lwIP packet buffers: the properties *)
From Stdlib Require Import ZArith List Lia Bool.
From stdpp Require Import base gmap list.
From S2P Require Import Prelude CMonad Pbuf PbufChain PbufData PbufEdit PbufAlloc.
#[local] Open Scope Z_scope.
#[local] Open Scope cmonad_scope.

(** ** Packets for the examples *)

(** Two pbufs with three and two bytes behind four bytes of header room. *)
Definition toy_a : pbuf := Pbuf (Some 2%positive) (Some (1%positive, 4)) 5 3 PBUF_RAM 0 1.
Definition toy_b : pbuf := Pbuf None (Some (2%positive, 4)) 2 2 PBUF_RAM 0 1.
(** A single pbuf with room for six bytes. *)
Definition toy_c : pbuf := Pbuf None (Some (3%positive, 0)) 6 6 PBUF_RAM 0 1.

Definition toy_store : store :=
  Store (<[1%positive := toy_a]> (<[2%positive := toy_b]> (<[3%positive := toy_c]> ∅)))
    (<[1%positive := [9; 9; 9; 9; 10; 11; 12]]>
       (<[2%positive := [8; 8; 8; 8; 13; 14]]> (<[3%positive := [0; 0; 0; 0; 0; 0]]> ∅))).

Definition toy_ab : list (addr * pbuf) := [(1%positive, toy_a); (2%positive, toy_b)].
Definition toy_cs : list (addr * pbuf) := [(3%positive, toy_c)].

Lemma toy_packet_ab : packet toy_store (Some 1%positive) toy_ab.
Proof. split; [|simpl; lia]. repeat (constructor; [reflexivity|]). constructor. Qed.

Lemma toy_packet_c : packet toy_store (Some 3%positive) toy_cs.
Proof. split; [|simpl; lia]. repeat (constructor; [reflexivity|]). constructor. Qed.

Lemma toy_valid_ab : all_valid (st_mem toy_store) toy_ab.
Proof. repeat (constructor; [split; [simpl; lia|intros _; vm_compute; split; discriminate]|]). constructor. Qed.

Lemma toy_valid_c : all_valid (st_mem toy_store) toy_cs.
Proof. repeat (constructor; [split; [simpl; lia|intros _; vm_compute; split; discriminate]|]). constructor. Qed.

Lemma toy_owns_ab : Forall owns toy_ab.
Proof. constructor; [now exists 4|]. constructor; [now exists 4|constructor]. Qed.

Lemma toy_owns_c : Forall owns toy_cs.
Proof. constructor; [now exists 0|constructor]. Qed.

Lemma toy_full_ab : all_full toy_ab.
Proof. repeat (constructor; [simpl; lia|]). constructor. Qed.

Lemma toy_full_c : all_full toy_cs.
Proof. repeat (constructor; [simpl; lia|]). constructor. Qed.

Lemma toy_disjoint a : In a (map fst toy_ab) -> ~ In a (map fst toy_cs).
Proof. simpl. intros [<-|[<-|[]]] [E|[]]; discriminate. Qed.

(** ** Allocation and freeing *)

(** C14: For every layer, type and 16-bit length, and whatever [malloc]
    answers, [pbuf_alloc] fails no assertion and either leaves the store
    exactly as it was, even when the pool runs out in the middle of a chain,
    or returns a new chain with the invariant of [tot_len], as many bytes as
    asked for, a single reference to every pbuf and, for the types with
    memory of their own, the room for the headers of the layer in front. *)
Theorem pbuf_alloc_correct junk layer n t st :
  0 <= n < 65536 ->
  surely (pbuf_alloc junk layer n t st)
    (fun '(p, st') =>
       match p with
       | None => st' = st
       | Some a =>
           exists l, extends st st' l /\ packet st' p l /\ total l = n /\
             Forall (fun c => pb_ref (snd c) = 1 /\ pb_type (snd c) = t) l /\
             (holds_data t = true -> all_valid (st_mem st') l /\ Forall owns l /\ head_room a (header_room layer) l)
       end).
Proof.
  intros Hn. destruct t.
  - eapply surely_weaken; [apply alloc_ram; lia|]. intros [[a|] st'] H; [|exact H].
    now apply (fresh_result st st' a _ n _ PBUF_RAM H).
  - eapply surely_weaken; [apply alloc_ref; now left|]. intros [[a|] st'] H; [|exact H].
    now apply (fresh_result st st' a _ n _ PBUF_ROM H).
  - eapply surely_weaken; [apply alloc_ref; now right|]. intros [[a|] st'] H; [|exact H].
    now apply (fresh_result st st' a _ n _ PBUF_REF H).
  - eapply surely_weaken; [apply alloc_pool; lia|]. intros [[a|] st'] H; [|exact H].
    destruct H as (l & He & Hp & Ht & Hf & Hh). exists l. repeat (split; [assumption|]). split.
    + eapply Forall_impl; [exact Hf|]. now intros c (o & H).
    + intros _. split; [|split; [|exact Hh]]; (eapply Forall_impl; [exact Hf|]); intros c (o & E & H).
      * split; [lia|]. intros _. rewrite E. lia.
      * now exists o.
Qed.

Lemma pbuf_alloc_correct_witness :
  surely (pbuf_alloc (fun _ => 7) PBUF_TRANSPORT 1200 PBUF_POOL toy_store)
    (fun '(p, st') =>
       match p with
       | None => st' = toy_store
       | Some a =>
           exists l, extends toy_store st' l /\ packet st' p l /\ total l = 1200 /\
             Forall (fun c => pb_ref (snd c) = 1 /\ pb_type (snd c) = PBUF_POOL) l /\
             (holds_data PBUF_POOL = true ->
              all_valid (st_mem st') l /\ Forall owns l /\ head_room a (header_room PBUF_TRANSPORT) l)
       end).
Proof. apply (pbuf_alloc_correct (fun _ => 7) PBUF_TRANSPORT 1200 PBUF_POOL toy_store). lia. Defined.

(** C16: [pbuf_free] on a packet frees the pbufs from the head on that have a
    single reference, takes one reference from the next pbuf, touches no
    other pbuf and returns the number freed modulo 256; a packet with single
    references is gone altogether. *)
Theorem pbuf_free_correct st a l :
  packet st (Some a) l ->
  exists k st', pbuf_free (Some a) st = ret (u8 (Z.of_nat k), st') /\ freed l st = (k, st') /\
    (forall b, ~ In b (map fst l) -> st_pbufs st' !! b = st_pbufs st !! b /\ st_mem st' !! b = st_mem st !! b) /\
    ((forall b x, In (b, x) l -> pb_ref x = 1) ->
     k = length l /\ forall b, In b (map fst l) -> st_pbufs st' !! b = None /\ st_mem st' !! b = None).
Proof.
  intros H. exists (fst (freed l st)), (snd (freed l st)). split; [now apply pbuf_free_spec|].
  split; [apply surjective_pairing|]. split; [intros b Hb; now apply freed_other|].
  intros Hr. now apply freed_all.
Qed.

Lemma pbuf_free_correct_witness :
  exists k st', pbuf_free (Some 1%positive) toy_store = ret (u8 (Z.of_nat k), st') /\
    freed toy_ab toy_store = (k, st') /\
    (forall b, ~ In b (map fst toy_ab) ->
       st_pbufs st' !! b = st_pbufs toy_store !! b /\ st_mem st' !! b = st_mem toy_store !! b) /\
    ((forall b x, In (b, x) toy_ab -> pb_ref x = 1) ->
     k = 2%nat /\ forall b, In b (map fst toy_ab) -> st_pbufs st' !! b = None /\ st_mem st' !! b = None).
Proof. exact (pbuf_free_correct toy_store 1%positive toy_ab toy_packet_ab). Defined.

(** ** Joining and splitting *)

(** C17: [pbuf_cat] of two packets without a common pbuf and with less than
    65536 bytes together is a packet with the bytes of the first, then those
    of the second; nothing else changes. *)
Theorem pbuf_cat_correct st h l1 t l2 :
  packet st (Some h) l1 -> packet st (Some t) l2 -> (forall a, In a (map fst l1) -> ~ In a (map fst l2)) ->
  total l1 + total l2 < 65536 ->
  exists st' l1', pbuf_cat (Some h) (Some t) st = ret st' /\ packet st' (Some h) (l1' ++ l2) /\
    map fst l1' = map fst l1 /\
    content (st_mem st') (l1' ++ l2) = content (st_mem st) l1 ++ content (st_mem st) l2 /\
    st_mem st' = st_mem st /\ (forall b, ~ In b (map fst l1) -> st_pbufs st' !! b = st_pbufs st !! b).
Proof.
  intros H1 H2 Hd Hs. destruct (pbuf_cat_spec st h l1 t l2 H1 H2 Hd Hs) as (st' & He & Hp & Ho & Hm).
  exists st', (joined t (total l2) l1). split; [exact He|]. split; [exact Hp|]. split; [apply joined_addrs|].
  split; [|split; [exact Hm|exact Ho]]. rewrite content_app, Hm. f_equal. apply content_fields, joined_fields.
Qed.

Lemma pbuf_cat_correct_witness :
  exists st' l1', pbuf_cat (Some 1%positive) (Some 3%positive) toy_store = ret st' /\
    packet st' (Some 1%positive) (l1' ++ toy_cs) /\ map fst l1' = map fst toy_ab /\
    content (st_mem st') (l1' ++ toy_cs) = [10; 11; 12; 13; 14] ++ [0; 0; 0; 0; 0; 0] /\
    st_mem st' = st_mem toy_store /\ (forall b, ~ In b (map fst toy_ab) -> st_pbufs st' !! b = st_pbufs toy_store !! b).
Proof.
  apply (pbuf_cat_correct toy_store 1%positive toy_ab 3%positive toy_cs toy_packet_ab toy_packet_c toy_disjoint).
  simpl. lia.
Defined.

(** [pbuf_dechain] undoes [pbuf_chain] of a single pbuf: it returns the
    tail, and the store is the one before, reference counts included. *)
Theorem pbuf_dechain_undoes_chain st h x t l :
  packet st (Some h) [(h, x)] -> packet st (Some t) l -> ~ In h (map fst l) -> pb_len x + total l < 65536 ->
  (forall y, In (t, y) l -> pb_ref y < 65535) ->
  (st1 <- pbuf_chain (Some h) (Some t) st;; pbuf_dechain h st1) = ret (Some t, st).
Proof.
  intros H1 H2 H3 H4 H5. destruct (chain_dechain st h x t l H1 H2 H3 H4 H5) as (st1 & E1 & E2).
  now rewrite E1, bind_ret.
Qed.

Lemma pbuf_dechain_undoes_chain_witness :
  (st1 <- pbuf_chain (Some 3%positive) (Some 1%positive) toy_store;; pbuf_dechain 3%positive st1) =
  ret (Some 1%positive, toy_store).
Proof.
  apply (pbuf_dechain_undoes_chain toy_store 3%positive toy_c 1%positive toy_ab toy_packet_c toy_packet_ab).
  - simpl. intros [E|[E|[]]]; discriminate.
  - simpl. lia.
  - intros y [E|[E|[]]]; inversion E. reflexivity.
Defined.

(** ** Headers and lengths *)

(** C15: [pbuf_realloc] cuts a packet to the first [n] bytes, or leaves it
    alone when it is not longer; the pbufs of other packets are untouched. *)
Theorem pbuf_realloc_correct st p l n :
  packet st (Some p) l -> all_valid (st_mem st) l -> Forall owns l -> 0 <= n ->
  exists st' l', pbuf_realloc (Some p) n st = ret st' /\
    packet st' (Some p) l' /\ total l' = Z.min n (total l) /\
    content (st_mem st') l' = firstn (Z.to_nat n) (content (st_mem st) l) /\
    (forall b, In b (map fst l') -> In b (map fst l)) /\
    (forall b, ~ In b (map fst l) -> st_pbufs st' !! b = st_pbufs st !! b /\ st_mem st' !! b = st_mem st !! b).
Proof. apply pbuf_realloc_spec. Qed.

Lemma pbuf_realloc_correct_witness :
  exists st' l', pbuf_realloc (Some 1%positive) 3 toy_store = ret st' /\
    packet st' (Some 1%positive) l' /\ total l' = Z.min 3 5 /\
    content (st_mem st') l' = [10; 11; 12] /\
    (forall b, In b (map fst l') -> In b (map fst toy_ab)) /\
    (forall b, ~ In b (map fst toy_ab) ->
       st_pbufs st' !! b = st_pbufs toy_store !! b /\ st_mem st' !! b = st_mem toy_store !! b).
Proof.
  apply (pbuf_realloc_correct toy_store 1%positive toy_ab 3 toy_packet_ab toy_valid_ab toy_owns_ab). lia.
Defined.

(** Hiding a header of [k] bytes with [pbuf_header] drops the first [k]
    bytes of the packet and keeps the invariant; showing it again restores
    the store. *)
Theorem pbuf_header_round_trip st a x l o k :
  packet st (Some a) ((a, x) :: l) -> all_valid (st_mem st) ((a, x) :: l) ->
  pb_payload x = Some (a, o) -> holds_data (pb_type x) = true -> 0 <= o -> 0 < k <= pb_len x -> k <= 32767 ->
  exists st' l', pbuf_header (Some a) (- k) st = ret (0, st') /\ packet st' (Some a) l' /\
    content (st_mem st') l' = skipn (Z.to_nat k) (content (st_mem st) ((a, x) :: l)) /\
    pbuf_header (Some a) k st' = ret (0, st).
Proof.
  intros H1 H2 H3 H4 H5 H6 H7. destruct (pbuf_header_undo st a x l o k) as (st' & E1 & E2 & E3 & E4); auto.
  exists st', ((a, shifted x (- k)) :: l). auto.
Qed.

Lemma pbuf_header_round_trip_witness :
  exists st' l', pbuf_header (Some 1%positive) (-2) toy_store = ret (0, st') /\ packet st' (Some 1%positive) l' /\
    content (st_mem st') l' = [12; 13; 14] /\ pbuf_header (Some 1%positive) 2 st' = ret (0, toy_store).
Proof.
  apply (pbuf_header_round_trip toy_store 1%positive toy_a [(2%positive, toy_b)] 4 2 toy_packet_ab toy_valid_ab);
    [reflexivity|reflexivity|lia|change (pb_len toy_a) with 3; lia|lia].
Defined.

(** ** Copies *)

(** What [pbuf_take] writes into a packet that owns its memory,
    [pbuf_copy_partial] reads back, any part of it, into a buffer that is
    large enough; a packet that is too short is refused. *)
Theorem pbuf_take_read_back st p l data n dst len off :
  packet st (Some p) l -> all_valid (st_mem st) l -> Forall owns l ->
  0 <= n <= Z.of_nat (length data) -> n < 65536 ->
  0 <= off -> 0 <= len -> off + len <= n -> len <= Z.of_nat (length dst) ->
  (total l < n -> pbuf_take (Some p) (Some data) n st = ret (ERR_ARG, st)) /\
  (n <= total l ->
   exists st', pbuf_take (Some p) (Some data) n st = ret (ERR_OK, st') /\
     pbuf_copy_partial (Some p) (Some dst) len off st' =
       ret (len, splice dst 0 (firstn (Z.to_nat len) (skipn (Z.to_nat off) data)))).
Proof.
  intros Hp Hv Hw Hn Hs Ho Hl Hol Hd. destruct (pbuf_take_spec st p l data n Hp Hv Hw Hn Hs) as [H1 H2].
  split; [exact H1|]. intros Hle. destruct (H2 Hle) as (m' & He & Hc & Hr).
  exists (Store (st_pbufs st) m'). split; [exact He|].
  pose proof (all_valid_rewritten _ _ _ _ Hr Hv) as Hv'. destruct Hp as [Hc0 Ht].
  assert (Hb : firstn (Z.to_nat len) (skipn (Z.to_nat off) (content m' l)) =
               firstn (Z.to_nat len) (skipn (Z.to_nat off) data)).
  { rewrite Hc, skipn_app, firstn_app, length_skipn, length_firstn.
    replace (Z.to_nat len - _)%nat with O by lia. rewrite firstn_O, app_nil_r, skipn_firstn_comm, firstn_firstn.
    f_equal. lia. }
  assert (Hbl : length (firstn (Z.to_nat len) (skipn (Z.to_nat off) data)) = Z.to_nat len)
    by (rewrite length_firstn, length_skipn; lia).
  pose proof (copy_partial_spec (walk_fuel (Store (st_pbufs st) m')) (Store (st_pbufs st) m') (Some p) l dst 0 len off
    Hc0 Ht Hv') as E. cbv zeta in E. cbn [st_mem] in E. rewrite Hb, Hbl in E. unfold pbuf_copy_partial.
  rewrite E; try lia.
  - f_equal. f_equal. lia.
  - pose proof (chain_size _ _ _ Hc0). unfold walk_fuel. cbn [st_pbufs]. lia.
Qed.

Lemma pbuf_take_read_back_witness :
  (5 < 4 -> pbuf_take (Some 1%positive) (Some [1; 2; 3; 4; 5]) 4 toy_store = ret (ERR_ARG, toy_store)) /\
  (4 <= 5 ->
   exists st', pbuf_take (Some 1%positive) (Some [1; 2; 3; 4; 5]) 4 toy_store = ret (ERR_OK, st') /\
     pbuf_copy_partial (Some 1%positive) (Some [0; 0; 0; 0]) 2 2 st' = ret (2, [3; 4; 0; 0])).
Proof.
  apply (pbuf_take_read_back toy_store 1%positive toy_ab [1; 2; 3; 4; 5] 4 [0; 0; 0; 0] 2 2
    toy_packet_ab toy_valid_ab toy_owns_ab); simpl; lia.
Defined.

(** [pbuf_copy] of a packet to one that is at least as long and shares no
    pbuf with it, both without empty pbufs and with memory of their own:
    the bytes of the source replace the first ones of the destination, and
    no other block of memory changes. *)
Theorem pbuf_copy_correct st pt pf lt lf :
  packet st (Some pt) lt -> all_valid (st_mem st) lt -> all_full lt -> Forall owns lt ->
  packet st (Some pf) lf -> all_valid (st_mem st) lf -> all_full lf -> Forall owns lf ->
  (forall a, In a (map fst lf) -> ~ In a (map fst lt)) -> total lf <= total lt ->
  exists m', pbuf_copy (Some pt) (Some pf) st = ret (ERR_OK, Store (st_pbufs st) m') /\
    content m' lt = content (st_mem st) lf ++ skipn (Z.to_nat (total lf)) (content (st_mem st) lt) /\
    rewritten (map fst lt) (st_mem st) m'.
Proof.
  intros [T1 T2] T3 T4 T5 [F1 F2] F3 F4 F5 Hd Hle. destruct st as [pb m]. cbn [st_pbufs st_mem] in *.
  apply (pbuf_copy_spec pb m pt pf lt lf); auto; split; auto.
Qed.

Lemma pbuf_copy_correct_witness :
  exists m', pbuf_copy (Some 3%positive) (Some 1%positive) toy_store = ret (ERR_OK, Store (st_pbufs toy_store) m') /\
    content m' toy_cs = [10; 11; 12; 13; 14] ++ [0] /\ rewritten (map fst toy_cs) (st_mem toy_store) m'.
Proof.
  apply (pbuf_copy_correct toy_store 3%positive 1%positive toy_cs toy_ab
    toy_packet_c toy_valid_c toy_full_c toy_owns_c toy_packet_ab toy_valid_ab toy_full_ab toy_owns_ab toy_disjoint).
  simpl. lia.
Defined.

(** [pbuf_coalesce] turns a packet of several pbufs into a single new one
    with the same bytes and frees the old pbufs nobody else refers to, or,
    when there is no memory, returns the packet as it was. *)
Theorem pbuf_coalesce_correct junk st p l layer :
  packet st (Some p) l -> all_valid (st_mem st) l -> all_full l -> Forall owns l -> (1 < length l)%nat ->
  surely (pbuf_coalesce junk p layer st)
    (fun '(q, st') =>
       (q = Some p /\ st' = st) \/
       exists a x, q = Some a /\ packet st' q [(a, x)] /\ st_pbufs st !! a = None /\
         content (st_mem st') [(a, x)] = content (st_mem st) l /\
         ((forall b y, In (b, y) l -> pb_ref y = 1) -> forall b, In b (map fst l) -> st_pbufs st' !! b = None)).
Proof. apply coalesce_spec. Qed.

Lemma pbuf_coalesce_correct_witness :
  surely (pbuf_coalesce (fun _ => 7) 1%positive PBUF_RAW toy_store)
    (fun '(q, st') =>
       (q = Some 1%positive /\ st' = toy_store) \/
       exists a x, q = Some a /\ packet st' q [(a, x)] /\ st_pbufs toy_store !! a = None /\
         content (st_mem st') [(a, x)] = [10; 11; 12; 13; 14] /\
         ((forall b y, In (b, y) toy_ab -> pb_ref y = 1) ->
          forall b, In b (map fst toy_ab) -> st_pbufs st' !! b = None)).
Proof.
  apply (pbuf_coalesce_correct (fun _ => 7) toy_store 1%positive toy_ab PBUF_RAW
    toy_packet_ab toy_valid_ab toy_full_ab toy_owns_ab). simpl. lia.
Defined.

(** ** Limits *)

(** A packet whose last pbuf is empty, and one as long as it. *)
Definition tail_store : store :=
  Store (<[1%positive := Pbuf (Some 2%positive) (Some (1%positive, 0)) 3 3 PBUF_RAM 0 1]>
           (<[2%positive := Pbuf None (Some (2%positive, 2)) 0 0 PBUF_RAM 0 1]>
              (<[3%positive := Pbuf None (Some (3%positive, 0)) 3 3 PBUF_RAM 0 1]> ∅)))
    (<[1%positive := [1; 2; 3]]> (<[2%positive := [4; 5]]> (<[3%positive := [0; 0; 0]]> ∅))).

(** The number of freed pbufs is kept in 8 bits, so that [pbuf_dechain]
    returns a pointer to a freed pbuf when it frees a multiple of 256 of
    them; and [pbuf_copy] aborts on a packet that ends in an empty pbuf
    although the destination is large enough. *)
Theorem pbuf_limits :
  (forall st h x q y l,
     packet st (Some h) ((h, x) :: (q, y) :: l) -> (forall b z, In (b, z) ((q, y) :: l) -> pb_ref z = 1) ->
     Z.of_nat (length ((q, y) :: l)) mod 256 = 0 ->
     exists st', pbuf_dechain h st = ret (Some q, st') /\ st_pbufs st' !! q = None) /\
  pbuf_copy (Some 3%positive) (Some 1%positive) tail_store [] = (Err ABORT, []).
Proof.
  split; [|vm_compute; reflexivity]. intros st h x q y l [H Ht] Hr Hm.
  pose proof (chain_head_fresh _ _ _ _ H) as Hh. inversion H as [|? ? ? Hx H']; subst.
  destruct Ht as (Tx & Hl & Hrx & _ & Ht). cbn [total] in Tx. pose proof Ht as (Ty & Hly & _ & Hby & Tl).
  assert (En : pb_next x = Some q) by (inversion H'; congruence). rewrite En in *.
  assert (Hy : st_pbufs st !! q = Some y) by (inversion H'; assumption). pose proof (totals_nonneg _ Ht) as T0.
  assert (Hqh : q <> h) by (intros ->; apply Hh; now left).
  unfold pbuf_dechain. rewrite (fetch_some st h x), bind_ret by exact Hx. rewrite En.
  rewrite (fetch_some st q y), bind_ret by exact Hy.
  replace (pb_tot_len x - pb_len x) with (total ((q, y) :: l)) by (cbn [total]; lia).
  rewrite lwip_assert_true, bind_ret by (apply Z.eqb_eq; exact Ty).
  assert (Ey : with_tot_len y (u16 (total ((q, y) :: l))) = y).
  { unfold u16. rewrite Z.mod_small by lia. rewrite <- Ty. now destruct y. }
  rewrite Ey, set_pbuf_same by exact Hy. rewrite (fetch_some st h x), bind_ret by exact Hx.
  set (x' := with_tot_len (with_next x None) (pb_len x)).
  assert (Hc : chain (st_pbufs (set_pbuf h x' st)) (Some q) ((q, y) :: l)) by (now apply chain_insert).
  rewrite (pbuf_free_chain _ q _ Hc (totals_refs _ Ht)), bind_ret.
  destruct (freed_all _ (set_pbuf h x' st) Hr) as [Hk Hg].
  destruct (freed_other ((q, y) :: l) (set_pbuf h x' st) h Hh) as [Hf _]. rewrite lookup_set_pbuf in Hf.
  rewrite (fetch_some _ h x'), bind_ret by exact Hf. rewrite lwip_assert_true, bind_ret by (apply Z.eqb_eq; reflexivity).
  rewrite Hk. unfold u8. rewrite Hm. eexists. split; [reflexivity|]. apply Hg. now left.
Qed.
