(* ===== verification/Inet.v ===== *)
(** * lwIP: byte order and addresses

    [lwip/src/core/ipv4/inet.c] and [ip_addr.c] on a little-endian host, the
    only kind for which [inet.c] defines the byte order functions.  A string
    is the list of its bytes with the terminating zero; reading past it is
    undefined. *)
From Stdlib Require Import ZArith List Lia Bool.
Import ListNotations.
From S2P Require Import Prelude CMonad.
#[local] Open Scope Z_scope.
#[local] Open Scope cmonad_scope.

(** ** Byte order *)

Definition htons (n : Z) : Z := Z.lor (Z.shiftl (Z.land n 0xff) 8) (Z.shiftr (Z.land n 0xff00) 8).
Definition ntohs (n : Z) : Z := htons n.

Definition htonl (n : Z) : Z :=
  Z.lor (Z.lor (Z.lor (Z.shiftl (Z.land n 0xff) 24) (Z.shiftl (Z.land n 0xff00) 8))
           (Z.shiftr (Z.land n 0xff0000) 8))
    (Z.shiftr (Z.land n 0xff000000) 24).
Definition ntohl (n : Z) : Z := htonl n.

(** ** Reading *)

Definition in_range (c lo up : Z) : bool := (lo <=? u8 c) && (u8 c <=? up).
Definition isdigit (c : Z) : bool := in_range c 48 57.
Definition isxdigit (c : Z) : bool := isdigit c || in_range c 97 102 || in_range c 65 70.
Definition islower (c : Z) : bool := in_range c 97 122.
Definition isspace (c : Z) : bool :=
  (c =? 32) || (c =? 12) || (c =? 10) || (c =? 13) || (c =? 9) || (c =? 11).

(** The inner loop: the number, and the string from the first character that
    does not belong to it. *)
Fixpoint aton_digits (base val : Z) (cp : list Z) : M (Z * list Z) :=
  match cp with
  | [] => ub
  | c :: cp' =>
      if isdigit c then aton_digits base (u32 (val * base + (c - 48))) cp'
      else if (base =? 16) && isxdigit c then
        aton_digits base (Z.lor (u32 (Z.shiftl val 4)) (c + 10 - (if islower c then 97 else 65))) cp'
      else ret (val, cp)
  end.

(** A number with its prefix; [None] when there is none. *)
Definition aton_number (cp : list Z) : M (option (Z * list Z)) :=
  match cp with
  | [] => ub
  | c :: cp1 =>
      if negb (isdigit c) then ret None
      else
        r <- (if c =? 48 then
                match cp1 with
                | [] => ub
                | x :: cp2 => if (x =? 120) || (x =? 88) then aton_digits 16 0 cp2 else aton_digits 8 0 cp1
                end
              else aton_digits 10 0 cp);;
        ret (Some r)
  end.

(** The outer loop, with room for [room] more parts. *)
Fixpoint aton_parts (room : nat) (parts cp : list Z) : M (option (list Z * Z * list Z)) :=
  n <- aton_number cp;;
  match n with
  | None => ret None
  | Some (val, cp) =>
      match cp with
      | [] => ub
      | c :: cp' =>
          if c =? 46 then
            match room with
            | O => ret None
            | S room' => aton_parts room' (parts ++ [val]) cp'
            end
          else ret (Some (parts, val, cp))
      end
  end.

(** [switch (pp - parts + 1)] *)
Definition concoct (parts : list Z) (val : Z) : option Z :=
  match parts with
  | [p0] => if 0xffffff <? val then None else Some (Z.lor val (u32 (Z.shiftl p0 24)))
  | [p0; p1] =>
      if 0xffff <? val then None
      else Some (Z.lor val (Z.lor (u32 (Z.shiftl p0 24)) (u32 (Z.shiftl p1 16))))
  | [p0; p1; p2] =>
      if 0xff <? val then None
      else Some (Z.lor val (Z.lor (Z.lor (u32 (Z.shiftl p0 24)) (u32 (Z.shiftl p1 16))) (u32 (Z.shiftl p2 8))))
  | _ => Some val
  end.

(** The address in network order, or [None] where the code returns 0. *)
Definition inet_aton (cp : list Z) : M (option Z) :=
  r <- aton_parts 3 [] cp;;
  match r with
  | None => ret None
  | Some (parts, val, cp) =>
      match cp with
      | [] => ub
      | c :: _ =>
          if negb (c =? 0) && negb (isspace c) then ret None
          else ret (match concoct parts val with Some v => Some (htonl v) | None => None end)
      end
  end.

Definition INADDR_NONE : Z := 0xffffffff.

Definition inet_addr (cp : list Z) : M Z :=
  r <- inet_aton cp;;
  ret (match r with Some a => a | None => INADDR_NONE end).

(** ** Writing *)

(** The [do .. while( *ap )] loop into [inv], with [room] places left; the last
    digit written comes first. *)
Fixpoint octet_digits (room : nat) (ap : Z) (inv : list Z) : M (list Z) :=
  match room with
  | O => ub
  | S room' =>
      let inv := (48 + ap mod 10) :: inv in
      if ap / 10 =? 0 then ret inv else octet_digits room' (ap / 10) inv
  end.

(** [*rp++ = c] into [str[16]]. *)
Definition put (str : list Z) (c : Z) : M (list Z) :=
  if (length str <? 16)%nat then ret (str ++ [c]) else ub.

Fixpoint put_all (str cs : list Z) : M (list Z) :=
  match cs with
  | [] => ret str
  | c :: cs' => str <- put str c;; put_all str cs'
  end.

(** [n] octets of [s_addr], the one with the lowest address first. *)
Fixpoint ntoa_loop (n : nat) (s_addr : Z) (str : list Z) : M (list Z) :=
  match n with
  | O => ret str
  | S n' =>
      inv <- octet_digits 3 (s_addr mod 256) [];;
      str <- put_all str inv;;
      str <- put str 46;;
      ntoa_loop n' (s_addr / 256) str
  end.

Definition inet_ntoa (s_addr : Z) : M (list Z) :=
  str <- ntoa_loop 4 s_addr [];;
  ret (removelast str ++ [0]).

(** ** Broadcast addresses *)

Definition NETIF_FLAG_BROADCAST : Z := 0x02.
Definition IP_ADDR_ANY_VALUE : Z := 0.
Definition IP_ADDR_BROADCAST_VALUE : Z := 0xffffffff.

(** [~] on 32 bits. *)
Definition not32 (x : Z) : Z := Z.lxor x 0xffffffff.

Definition ip_addr_netcmp (addr1 addr2 mask : Z) : bool := Z.land addr1 mask =? Z.land addr2 mask.

(** The fields of the interface that are looked at. *)
Definition ip_addr_isbroadcast (addr flags ip_addr netmask : Z) : Z :=
  if (not32 addr =? IP_ADDR_ANY_VALUE) || (addr =? IP_ADDR_ANY_VALUE) then 1
  else if Z.land flags NETIF_FLAG_BROADCAST =? 0 then 0
  else if addr =? ip_addr then 0
  else if ip_addr_netcmp addr ip_addr netmask &&
          (Z.land addr (not32 netmask) =? Z.land IP_ADDR_BROADCAST_VALUE (not32 netmask)) then 1
  else 0.

(** ** Byte order: facts *)

(** A field of a number. *)
Lemma land_field x k w m :
  0 <= k -> 0 <= w -> m = Z.shiftl (Z.ones w) k -> Z.land x m = (x / 2 ^ k mod 2 ^ w) * 2 ^ k.
Proof.
  intros Hk Hw ->. rewrite <- (Z.shiftl_mul_pow2 (x / 2 ^ k mod 2 ^ w)) by exact Hk.
  rewrite <- (Z.land_ones _ w) by exact Hw.
  rewrite Z.shiftl_land, <- (Z.shiftr_div_pow2 x) by exact Hk.
  apply Z.bits_inj'. intros i Hi. rewrite !Z.land_spec, !Z.shiftl_spec by exact Hi.
  destruct (Z.lt_ge_cases i k) as [Hc|Hc].
  - rewrite (Z.testbit_neg_r (Z.ones w)) by lia. now rewrite !andb_false_r.
  - rewrite Z.shiftr_spec by lia. do 2 f_equal. lia.
Qed.

Lemma land_byte x k m : 0 <= k -> m = Z.shiftl 255 k -> Z.land x m = (x / 2 ^ k mod 256) * 2 ^ k.
Proof. intros Hk Hm. apply (land_field x k 8 m Hk); [lia|exact Hm]. Qed.

Lemma htons_bytes n : 0 <= n < 65536 -> htons n = (n mod 256) * 256 + n / 256.
Proof.
  intros Hn. unfold htons. rewrite (land_byte n 0 0xff), (land_byte n 8 0xff00) by (reflexivity || lia).
  rewrite Z.shiftl_mul_pow2, Z.shiftr_div_pow2 by lia.
  change (2 ^ 0) with 1. change (2 ^ 8) with 256. rewrite Z.div_1_r, Z.mul_1_r, Z.div_mul by lia.
  replace (n / 256 mod 256) with (n / 256) by (rewrite Z.mod_small; dlia).
  change (n mod 256 * 256) with (n mod 256 * 2 ^ 8). apply lor_disjoint; [lia|]. change (2 ^ 8) with 256. dlia.
Qed.

Lemma htonl_bytes n : 0 <= n < 4294967296 ->
  htonl n = (n mod 256) * 16777216 + (n / 256 mod 256) * 65536 + (n / 65536 mod 256) * 256 + n / 16777216.
Proof.
  intros Hn. unfold htonl.
  rewrite (land_byte n 0 0xff), (land_byte n 8 0xff00), (land_byte n 16 0xff0000), (land_byte n 24 0xff000000)
    by (reflexivity || lia).
  rewrite !Z.shiftl_mul_pow2, !Z.shiftr_div_pow2 by lia.
  change (2 ^ 0) with 1. change (2 ^ 8) with 256. change (2 ^ 16) with 65536. change (2 ^ 24) with 16777216.
  rewrite Z.div_1_r, Z.mul_1_r.
  replace (n / 16777216 mod 256) with (n / 16777216) by (rewrite Z.mod_small; dlia).
  replace (n / 65536 mod 256 * 65536 / 256) with (n / 65536 mod 256 * 256) by dlia.
  rewrite Z.div_mul by lia.
  set (b0 := n mod 256). set (b1 := n / 256 mod 256). set (b2 := n / 65536 mod 256). set (b3 := n / 16777216).
  assert (Hb : 0 <= b0 < 256 /\ 0 <= b1 < 256 /\ 0 <= b2 < 256 /\ 0 <= b3 < 256) by (unfold b0, b1, b2, b3; dlia).
  replace (b1 * 256 * 256) with (b1 * 65536) by lia.
  change (b0 * 16777216) with (b0 * 2 ^ 24). rewrite (lor_disjoint b0 (b1 * 65536) 24) by lia.
  replace (b0 * 2 ^ 24 + b1 * 65536) with ((b0 * 256 + b1) * 2 ^ 16) by lia.
  rewrite (lor_disjoint _ (b2 * 256) 16) by lia.
  replace ((b0 * 256 + b1) * 2 ^ 16 + b2 * 256) with ((b0 * 65536 + b1 * 256 + b2) * 2 ^ 8) by lia.
  rewrite lor_disjoint by lia. lia.
Qed.

(** Every 32-bit number is made of four bytes. *)
Lemma four_bytes n : 0 <= n < 4294967296 ->
  exists b0 b1 b2 b3, 0 <= b0 < 256 /\ 0 <= b1 < 256 /\ 0 <= b2 < 256 /\ 0 <= b3 < 256 /\
    n = b0 + 256 * (b1 + 256 * (b2 + 256 * b3)).
Proof.
  intros Hn. exists (n mod 256), (n / 256 mod 256), (n / 256 / 256 mod 256), (n / 256 / 256 / 256).
  pose proof (Z.mod_pos_bound n 256 ltac:(lia)). pose proof (Z.mod_pos_bound (n / 256) 256 ltac:(lia)).
  pose proof (Z.mod_pos_bound (n / 256 / 256) 256 ltac:(lia)).
  pose proof (Z.div_mod n 256 ltac:(lia)). pose proof (Z.div_mod (n / 256) 256 ltac:(lia)).
  pose proof (Z.div_mod (n / 256 / 256) 256 ltac:(lia)). lia.
Qed.

Lemma htonl_of_bytes b0 b1 b2 b3 :
  0 <= b0 < 256 -> 0 <= b1 < 256 -> 0 <= b2 < 256 -> 0 <= b3 < 256 ->
  htonl (b0 + 256 * (b1 + 256 * (b2 + 256 * b3))) = b3 + 256 * (b2 + 256 * (b1 + 256 * b0)).
Proof.
  intros H0 H1 H2 H3. rewrite htonl_bytes by lia.
  assert (E1 : (b0 + 256 * (b1 + 256 * (b2 + 256 * b3))) / 256 = b1 + 256 * (b2 + 256 * b3)) by dlia.
  assert (E2 : (b0 + 256 * (b1 + 256 * (b2 + 256 * b3))) / 65536 = b2 + 256 * b3) by dlia.
  assert (E3 : (b0 + 256 * (b1 + 256 * (b2 + 256 * b3))) / 16777216 = b3) by dlia.
  assert (Em : forall b r, 0 <= b < 256 -> (b + 256 * r) mod 256 = b) by (intros; dlia).
  rewrite E1, E2, E3, !Em by assumption. lia.
Qed.

Lemma htonl_involutive n : 0 <= n < 4294967296 -> htonl (htonl n) = n.
Proof.
  intros Hn. destruct (four_bytes n Hn) as (b0 & b1 & b2 & b3 & H0 & H1 & H2 & H3 & ->).
  now rewrite !htonl_of_bytes by assumption.
Qed.

Lemma htons_of_bytes b0 b1 : 0 <= b0 < 256 -> 0 <= b1 < 256 -> htons (b0 + 256 * b1) = b1 + 256 * b0.
Proof. intros H0 H1. rewrite htons_bytes by lia. dlia. Qed.

Lemma two_bytes n : 0 <= n < 65536 -> exists b0 b1, 0 <= b0 < 256 /\ 0 <= b1 < 256 /\ n = b0 + 256 * b1.
Proof. intros Hn. exists (n mod 256), (n / 256). dlia. Qed.

Lemma htons_involutive n : 0 <= n < 65536 -> htons (htons n) = n.
Proof.
  intros Hn. destruct (two_bytes n Hn) as (b0 & b1 & H0 & H1 & ->). now rewrite !htons_of_bytes by assumption.
Qed.

(** ** Reading back what [inet_ntoa] writes *)

(** A character that ends a number. *)
Definition stops (c : Z) : Prop := c = 46 \/ c = 0.

Lemma digit_step base v d r :
  0 <= d <= 9 -> aton_digits base v ((48 + d) :: r) = aton_digits base (u32 (v * base + d)) r.
Proof.
  intros Hd. cbn [aton_digits]. unfold isdigit, in_range, u8. rewrite Z.mod_small by lia.
  case_bool (48 <=? 48 + d); [|lia]. case_bool (48 + d <=? 57); [|lia]. cbn [andb]. do 2 f_equal. lia.
Qed.

Lemma digits_stop base v c r : stops c -> aton_digits base v (c :: r) = ret (v, c :: r).
Proof.
  intros [-> | ->]; cbn [aton_digits]; change (isdigit 46) with false; change (isdigit 0) with false;
    change (isxdigit 46) with false; change (isxdigit 0) with false; now rewrite andb_false_r.
Qed.

(** The digits of an octet, read back. *)
Lemma octet_read o :
  0 <= o < 256 ->
  exists ds, octet_digits 3 o [] = ret ds /\ (1 <= length ds <= 3)%nat /\
    forall c r, stops c -> aton_number (ds ++ c :: r) = ret (Some (o, c :: r)).
Proof.
  intros Ho.
  assert (Hn : forall d r, 1 <= d <= 9 -> aton_number ((48 + d) :: r) = (x <- aton_digits 10 0 ((48 + d) :: r);; ret (Some x))).
  { intros d r Hd. unfold aton_number. assert (E : isdigit (48 + d) = true).
    { unfold isdigit, in_range, u8. rewrite Z.mod_small by lia. apply andb_true_intro. split; apply Z.leb_le; lia. }
    rewrite E. cbn [negb]. case_bool (48 + d =? 48); [lia|reflexivity]. }
  assert (Hm : o mod 10 = o - 10 * (o / 10)) by dlia. assert (Hm2 : o / 10 mod 10 = o / 10 - 10 * (o / 100)) by dlia.
  assert (Hd2 : o / 10 / 10 = o / 100) by dlia. assert (Hu : forall x, 0 <= x < 1000 -> u32 x = x).
  { intros x Hx. apply Z.mod_small. lia. }
  destruct (Z.lt_ge_cases o 10) as [H1|H1]; [|destruct (Z.lt_ge_cases o 100) as [H2|H2]].
  - assert (E : o / 10 = 0) by dlia. exists [48 + o]. unfold octet_digits. rewrite Hm, E. cbn [Z.eqb].
    replace (o - 10 * 0) with o by lia. split; [reflexivity|]. split; [simpl; lia|]. intros c r Hc. cbn [app].
    destruct (Z.eq_dec o 0) as [->|Hnz].
    + unfold aton_number. change (isdigit (48 + 0)) with true. cbn [negb]. change (48 + 0 =? 48) with true. cbv iota.
      assert (Ex : (c =? 120) || (c =? 88) = false) by (destruct Hc as [-> | ->]; reflexivity).
      rewrite Ex, digits_stop by exact Hc. reflexivity.
    + rewrite Hn, digit_step, digits_stop, bind_ret, Hu by (auto; lia). reflexivity.
  - assert (E : o / 10 / 10 = 0) by dlia. exists [48 + o / 10; 48 + o mod 10]. unfold octet_digits.
    case_bool (o / 10 =? 0); [dlia|]. rewrite E. cbn [Z.eqb]. replace (o / 10 mod 10) with (o / 10) by dlia.
    split; [reflexivity|]. split; [simpl; lia|]. intros c r Hc. cbn [app].
    rewrite Hn, !digit_step, digits_stop, bind_ret by (auto; dlia). rewrite !Hu by (rewrite ?Hu; dlia). do 3 f_equal. dlia.
  - assert (E : o / 10 / 10 / 10 = 0) by dlia. exists [48 + o / 10 / 10; 48 + o / 10 mod 10; 48 + o mod 10]. unfold octet_digits.
    case_bool (o / 10 =? 0); [dlia|]. case_bool (o / 10 / 10 =? 0); [dlia|]. rewrite E. cbn [Z.eqb].
    replace (o / 10 / 10 mod 10) with (o / 10 / 10) by dlia.
    split; [reflexivity|]. split; [simpl; lia|]. intros c r Hc. cbn [app].
    rewrite Hn, !digit_step, digits_stop, bind_ret by (auto; dlia). rewrite !Hu by (rewrite ?Hu; rewrite ?Hu; dlia).
    do 3 f_equal. dlia.
Qed.

Lemma put_all_ok str cs : (length str + length cs <= 16)%nat -> put_all str cs = ret (str ++ cs).
Proof.
  revert str. induction cs as [|c cs IH]; intros str H; cbn [put_all]; [now rewrite app_nil_r|].
  cbn [length] in H. unfold put. case_bool (length str <? 16)%nat; [|lia].
  rewrite bind_ret, IH by (rewrite length_app; cbn [length]; lia). now rewrite <- app_assoc.
Qed.

(** One octet with its dot. *)
Lemma ntoa_step n o a str :
  0 <= o < 256 -> (length str <= 12)%nat ->
  exists ds, octet_digits 3 o [] = ret ds /\ (length ds <= 3)%nat /\
    (forall c r, stops c -> aton_number (ds ++ c :: r) = ret (Some (o, c :: r))) /\
    ntoa_loop (S n) (o + 256 * a) str = ntoa_loop n a (str ++ ds ++ [46]).
Proof.
  intros Ho Hl. destruct (octet_read o Ho) as (ds & E & Hd & Hr). exists ds. split; [exact E|]. split; [lia|].
  split; [exact Hr|]. cbn [ntoa_loop]. replace ((o + 256 * a) mod 256) with o by dlia.
  replace ((o + 256 * a) / 256) with a by dlia. rewrite E, bind_ret, put_all_ok, bind_ret by lia.
  unfold put. case_bool (length (str ++ ds) <? 16)%nat; [|rewrite length_app in *; lia].
  now rewrite bind_ret, <- app_assoc.
Qed.

Lemma lor_bytes b0 b1 b2 b3 :
  0 <= b0 < 256 -> 0 <= b1 < 256 -> 0 <= b2 < 256 -> 0 <= b3 < 256 ->
  Z.lor b3 (Z.lor (Z.lor (u32 (Z.shiftl b0 24)) (u32 (Z.shiftl b1 16))) (u32 (Z.shiftl b2 8))) =
  b3 + 256 * (b2 + 256 * (b1 + 256 * b0)).
Proof.
  intros H0 H1 H2 H3. rewrite !Z.shiftl_mul_pow2 by lia. unfold u32.
  assert (P24 : 2 ^ 24 = 16777216) by reflexivity. assert (P16 : 2 ^ 16 = 65536) by reflexivity.
  assert (P8 : 2 ^ 8 = 256) by reflexivity.
  rewrite !Z.mod_small by (rewrite ?P24, ?P16, ?P8; lia).
  rewrite (lor_disjoint b0 (b1 * 2 ^ 16) 24) by (rewrite ?P24, ?P16; lia).
  replace (b0 * 2 ^ 24 + b1 * 2 ^ 16) with ((b0 * 256 + b1) * 2 ^ 16) by (rewrite P24, P16; lia).
  rewrite (lor_disjoint _ (b2 * 2 ^ 8) 16) by (rewrite ?P16, ?P8; lia).
  replace ((b0 * 256 + b1) * 2 ^ 16 + b2 * 2 ^ 8) with ((b0 * 65536 + b1 * 256 + b2) * 2 ^ 8) by (rewrite P16, P8; lia).
  rewrite Z.lor_comm, lor_disjoint by (rewrite ?P8; lia). rewrite P8. lia.
Qed.

Lemma aton_part room parts v ds r :
  (forall c r, stops c -> aton_number (ds ++ c :: r) = ret (Some (v, c :: r))) ->
  aton_parts (S room) parts (ds ++ 46 :: r) = aton_parts room (parts ++ [v]) r.
Proof. intros H. cbn [aton_parts]. now rewrite (H 46 r), bind_ret by now left. Qed.

Lemma inet_round_trip a :
  0 <= a < 4294967296 ->
  exists s, inet_ntoa a = ret s /\ (length s <= 16)%nat /\ inet_aton s = ret (Some a).
Proof.
  intros Ha. destruct (four_bytes a Ha) as (b0 & b1 & b2 & b3 & H0 & H1 & H2 & H3 & ->).
  destruct (ntoa_step 3 b0 (b1 + 256 * (b2 + 256 * b3)) [] H0) as (d0 & _ & L0 & R0 & S0); [simpl; lia|].
  destruct (ntoa_step 2 b1 (b2 + 256 * b3) ([] ++ d0 ++ [46]) H1) as (d1 & _ & L1 & R1 & S1);
    [rewrite !length_app; simpl; lia|].
  destruct (ntoa_step 1 b2 b3 (([] ++ d0 ++ [46]) ++ d1 ++ [46]) H2) as (d2 & _ & L2 & R2 & S2);
    [rewrite !length_app; simpl; lia|].
  destruct (ntoa_step 0 b3 0 ((([] ++ d0 ++ [46]) ++ d1 ++ [46]) ++ d2 ++ [46]) H3) as (d3 & _ & L3 & R3 & S3);
    [rewrite !length_app; simpl; lia|].
  replace (b3 + 256 * 0) with b3 in S3 by lia.
  exists (d0 ++ 46 :: d1 ++ 46 :: d2 ++ 46 :: d3 ++ [0]). split; [|split].
  - unfold inet_ntoa. rewrite S0, S1, S2, S3. cbn [ntoa_loop]. rewrite bind_ret. f_equal.
    rewrite !app_assoc, removelast_last. cbn [app]. now rewrite <- !app_assoc.
  - repeat (rewrite ?length_app; cbn [length]). lia.
  - unfold inet_aton. rewrite (aton_part 2 [] b0), (aton_part 1 _ b1), (aton_part 0 _ b2) by assumption.
    cbn [aton_parts]. rewrite (R3 0 []) by now right. rewrite !bind_ret. change (0 =? 46) with false. cbv iota.
    rewrite bind_ret. change (negb (0 =? 0) && negb (isspace 0)) with false. cbv iota. cbn [app concoct].
    case_bool (255 <? b3); [lia|]. now rewrite lor_bytes, htonl_of_bytes by assumption.
Qed.
