(* ===== verification/InetChksum.v ===== *)
(** * lwIP: the Internet checksum

    [lwip/src/core/ipv4/inet_chksum.c]: the three alternative routines for
    contiguous bytes, of which the port uses the first, and the checksums
    over chains of pbufs.  The host is little-endian.  Routines 2 and 3 look
    at the address of the bytes: [addr] stands for it.  The partial checksum
    is compiled for UDP-Lite only, which the port leaves out. *)
From Stdlib Require Import ZArith List Lia Bool.
From stdpp Require Import base gmap list.
From S2P Require Import Prelude CMonad Pbuf Inet.
#[local] Open Scope Z_scope.
#[local] Open Scope cmonad_scope.

(** [FOLD_U32T], assigned to an [u32_t]. *)
Definition FOLD_U32T (u : Z) : Z := u32 (Z.shiftr u 16 + Z.land u 0xffff).

Definition SWAP_BYTES_IN_WORD (w : Z) : Z :=
  Z.lor (Z.shiftl (Z.land w 0xff) 8) (Z.shiftr (Z.land w 0xff00) 8).

(** ** Algorithm 1 *)

(** [while (len > 1)] and the remaining octet. *)
Fixpoint sum_octets (data : list Z) (acc : Z) : Z :=
  match data with
  | a :: b :: data' => sum_octets data' (u32 (acc + Z.lor (u16 (Z.shiftl a 8)) b))
  | [a] => u32 (acc + u16 (Z.shiftl a 8))
  | [] => acc
  end.

Definition lwip_standard_chksum (data : list Z) : Z :=
  let acc := sum_octets data 0 in
  let acc := u32 (Z.shiftr acc 16 + Z.land acc 0xffff) in
  let acc := if negb (Z.land acc 0xffff0000 =? 0) then u32 (Z.shiftr acc 16 + Z.land acc 0xffff) else acc in
  htons (u16 acc).

(** ** Algorithm 2 *)

(** A 16-bit word and a 32-bit word in memory. *)
Definition word16 (a b : Z) : Z := a + 256 * b.
Definition word32 (a b c d : Z) : Z := word16 a b + 65536 * word16 c d.

(** [while (len > 1) { sum += *ps++; len -= 2; }]: the sum and the byte left over. *)
Fixpoint sum_words (data : list Z) (sum : Z) : Z * list Z :=
  match data with
  | a :: b :: data' => sum_words data' (u32 (sum + word16 a b))
  | _ => (sum, data)
  end.

(** An odd first byte becomes the high byte of [t]. *)
Definition odd_start (odd : bool) (data : list Z) : Z * list Z :=
  match data with
  | b :: data' => if odd then (256 * b, data') else (0, data)
  | [] => (0, data)
  end.

(** The byte left over becomes the low byte of [t]; then the end bytes, the
    two foldings and the swap. *)
Definition chksum_end (odd : bool) (t sum : Z) (rest : list Z) : Z :=
  let t := match rest with b :: _ => Z.lor (Z.land t 0xff00) b | [] => t end in
  let sum := FOLD_U32T (FOLD_U32T (u32 (sum + t))) in
  u16 (if odd then SWAP_BYTES_IN_WORD sum else sum).

Definition chksum_2 (addr : Z) (data : list Z) : Z :=
  let odd := negb (Z.land addr 1 =? 0) in
  let '(t, data) := odd_start odd data in
  let '(sum, rest) := sum_words data 0 in
  chksum_end odd t sum rest.

(** ** Algorithm 3 *)

(** Addition with the carry added back. *)
Definition add_carry (sum x : Z) : Z :=
  let tmp := u32 (sum + x) in
  if tmp <? sum then u32 (tmp + 1) else tmp.

(** [while (len > 7)] *)
Fixpoint sum_quads (data : list Z) (sum : Z) : Z * list Z :=
  match data with
  | a0 :: a1 :: a2 :: a3 :: a4 :: a5 :: a6 :: a7 :: data' =>
      sum_quads data' (add_carry (add_carry sum (word32 a0 a1 a2 a3)) (word32 a4 a5 a6 a7))
  | _ => (sum, data)
  end.

(** One 16-bit word in front when the address is not a multiple of four. *)
Definition align_word (addr : Z) (data : list Z) : Z * list Z :=
  match data with
  | a :: b :: data' => if negb (Z.land addr 3 =? 0) then (word16 a b, data') else (0, data)
  | _ => (0, data)
  end.

Definition chksum_3 (addr : Z) (data : list Z) : Z :=
  let odd := negb (Z.land addr 1 =? 0) in
  let '(t, data1) := odd_start odd data in
  let addr := if odd && negb (length data =? 0)%nat then addr + 1 else addr in
  let '(sum, data2) := align_word addr data1 in
  let '(sum, data3) := sum_quads data2 sum in
  let '(sum, rest) := sum_words data3 (FOLD_U32T sum) in
  chksum_end odd t sum rest.

(** ** The checksums of the protocols *)

Definition not16 (x : Z) : Z := Z.lxor x 0xffff.

(** [LWIP_CHKSUM( dataptr, len )] *)
Definition LWIP_CHKSUM (dataptr : list Z) (len : Z) : M Z :=
  data <- take_bytes (Z.to_nat len) dataptr;;
  ret (lwip_standard_chksum data).

Definition inet_chksum (dataptr : list Z) (len : Z) : M Z :=
  c <- LWIP_CHKSUM dataptr len;;
  ret (not16 c).

(** One pbuf of a chain, of which [n] bytes count: the accumulator and
    whether it is swapped. *)
Definition chksum_pbuf (x : pbuf) (n : Z) (acc : Z) (swapped : bool) (st : store) : M (Z * bool) :=
  data <- load st (pb_payload x) 0 n;;
  let acc := FOLD_U32T (u32 (acc + lwip_standard_chksum data)) in
  ret (if negb (pb_len x mod 2 =? 0) then (SWAP_BYTES_IN_WORD acc, negb swapped) else (acc, swapped)).

(** [for(q = p; q != NULL; q = q->next)] *)
Fixpoint chksum_loop (fuel : nat) (q : option addr) (acc : Z) (swapped : bool) (st : store) : M (Z * bool) :=
  match q with
  | None => ret (acc, swapped)
  | Some _ =>
      match fuel with
      | O => out_of_fuel
      | S fuel' =>
          x <- fetch st q;;
          '(acc, swapped) <- chksum_pbuf x (pb_len x) acc swapped st;;
          chksum_loop fuel' (pb_next x) acc swapped st
      end
  end.

Definition unswap (acc : Z) (swapped : bool) : Z := if swapped then SWAP_BYTES_IN_WORD acc else acc.

Definition inet_chksum_pbuf (p : option addr) (st : store) : M Z :=
  '(acc, swapped) <- chksum_loop (walk_fuel st) p 0 false st;;
  ret (not16 (Z.land (unswap acc swapped) 0xffff)).

(** The pseudo header and the end. *)
Definition chksum_pseudo_end (acc src dest proto proto_len : Z) : Z :=
  let acc := u32 (acc + Z.land src 0xffff) in
  let acc := u32 (acc + Z.land (Z.shiftr src 16) 0xffff) in
  let acc := u32 (acc + Z.land dest 0xffff) in
  let acc := u32 (acc + Z.land (Z.shiftr dest 16) 0xffff) in
  let acc := u32 (acc + htons (u16 proto)) in
  let acc := u32 (acc + htons proto_len) in
  not16 (Z.land (FOLD_U32T (FOLD_U32T acc)) 0xffff).

Definition inet_chksum_pseudo (p : option addr) (src dest proto proto_len : Z) (st : store) : M Z :=
  '(acc, swapped) <- chksum_loop (walk_fuel st) p 0 false st;;
  ret (chksum_pseudo_end (unswap acc swapped) src dest proto proto_len).

(** [for(q = p; (q != NULL) && (chksum_len > 0); q = q->next)] *)
Fixpoint chksum_partial_loop (fuel : nat) (q : option addr) (acc : Z) (swapped : bool) (chksum_len : Z)
    (st : store) : M (Z * bool) :=
  match q with
  | None => ret (acc, swapped)
  | Some _ =>
      if chksum_len =? 0 then ret (acc, swapped)
      else
        match fuel with
        | O => out_of_fuel
        | S fuel' =>
            x <- fetch st q;;
            let chklen := if chksum_len <? pb_len x then chksum_len else pb_len x in
            '(acc, swapped) <- chksum_pbuf x chklen acc swapped st;;
            let chksum_len := u16 (chksum_len - chklen) in
            _ <- lwip_assert (chksum_len <? 0x7fff);;
            chksum_partial_loop fuel' (pb_next x) acc swapped chksum_len st
        end
  end.

Definition inet_chksum_pseudo_partial (p : option addr) (src dest proto proto_len chksum_len : Z) (st : store)
    : M Z :=
  '(acc, swapped) <- chksum_partial_loop (walk_fuel st) p 0 false chksum_len st;;
  ret (chksum_pseudo_end (unswap acc swapped) src dest proto proto_len).
