(* ===== verification/ChksumSpec.v ===== *)
(** * lwIP: what the checksum routines compute

    The Internet sum of a string of bytes is its value as a little-endian
    number, modulo 65535, with 65535 in place of 0 for a string that is not
    all zero. *)
From Stdlib Require Import ZArith List Lia Bool.
From stdpp Require Import base gmap list.
From S2P Require Import Prelude CMonad Pbuf PbufChain PbufData Inet InetChksum.
#[local] Open Scope Z_scope.
#[local] Open Scope cmonad_scope.

(** All numbers of a concrete list are bytes. *)
Ltac bytes_tac := repeat (constructor; [unfold byte; lia|]); constructor.

(** ** Numbers modulo 65535 with a distinguished zero *)

Definition canon16 (s : Z) : Z := if s =? 0 then 0 else (s - 1) mod 65535 + 1.

(** Equal as one's complement sums. *)
Definition eqc (x y : Z) : Prop :=
  0 <= x /\ 0 <= y /\ x mod 65535 = y mod 65535 /\ (x = 0 <-> y = 0).

Lemma eqc_refl x : 0 <= x -> eqc x x.
Proof. unfold eqc. tauto. Qed.

#[export] Instance eqc_sym : Symmetric eqc.
Proof. intros x y (H1 & H2 & H3 & H4). unfold eqc. rewrite H3. tauto. Qed.

#[export] Instance eqc_trans : Transitive eqc.
Proof. intros x y z (H1 & H2 & H3 & H4) (K1 & K2 & K3 & K4). unfold eqc. rewrite H3, K3. tauto. Qed.

Lemma eqc_step x y k : 0 <= y -> x = y + 65535 * k -> 0 <= x -> (x = 0 <-> y = 0) -> eqc x y.
Proof. intros Hy -> Hx Hz. split; [exact Hx|]. split; [exact Hy|]. split; [dlia|exact Hz]. Qed.

Lemma eqc_add x y x' y' : eqc x x' -> eqc y y' -> eqc (x + y) (x' + y').
Proof.
  intros (H1 & H2 & H3 & H4) (K1 & K2 & K3 & K4). split; [lia|]. split; [lia|].
  split; [rewrite (Z.add_mod x), (Z.add_mod x'), H3, K3 by lia; reflexivity|]. lia.
Qed.

Lemma eqc_scale k x y : 0 < k -> eqc x y -> eqc (k * x) (k * y).
Proof.
  intros Hk (H1 & H2 & H3 & H4). split; [nia|]. split; [nia|].
  split; [rewrite (Z.mul_mod k x), (Z.mul_mod k y), H3 by lia; reflexivity|]. nia.
Qed.

(** [65536] is [1]. *)
Lemma eqc_65536 x : 0 <= x -> eqc (65536 * x) x.
Proof. intros H. apply (eqc_step _ _ x); lia. Qed.

Lemma eqc_2_32 x : 0 <= x -> eqc (4294967296 * x) x.
Proof. intros H. apply (eqc_step _ _ (65537 * x)); lia. Qed.

Lemma canon_range s : 0 <= s -> 0 <= canon16 s <= 65535.
Proof. intros H. unfold canon16. case_bool (s =? 0); [lia|]. pose proof (Z.mod_pos_bound (s - 1) 65535). lia. Qed.

Lemma eqc_canon s : 0 <= s -> eqc (canon16 s) s.
Proof.
  intros H. pose proof (canon_range s H). unfold canon16 in *. case_bool (s =? 0); [subst; now apply eqc_refl|].
  pose proof (Z.mod_pos_bound (s - 1) 65535). pose proof (Z.div_mod (s - 1) 65535).
  apply (eqc_step _ _ (- ((s - 1) / 65535))); lia.
Qed.

(** The representative is unique. *)
Lemma canon_unique x s : eqc x s -> x <= 65535 -> x = canon16 s.
Proof.
  intros Hx Hl. pose proof Hx as (H0 & Hs & _). pose proof (canon_range s Hs) as Hc.
  pose proof (eqc_trans _ _ _ Hx (eqc_sym _ _ (eqc_canon s Hs))) as (_ & _ & Hm & Hz).
  destruct (Z.eq_dec x 0) as [->|Hx0]; [symmetry; tauto|].
  assert (canon16 s <> 0) by tauto. dlia.
Qed.

(** ** Words *)

Lemma land_low x : Z.land x 0xffff = x mod 65536.
Proof. change 0xffff with (Z.ones 16). now rewrite Z.land_ones by lia. Qed.

Lemma fold_value u : 0 <= u < 4294967296 -> FOLD_U32T u = u / 65536 + u mod 65536.
Proof.
  intros Hu. unfold FOLD_U32T, u32. rewrite land_low, Z.shiftr_div_pow2 by lia. change (2 ^ 16) with 65536.
  apply Z.mod_small. dlia.
Qed.

Lemma eqc_fold u : 0 <= u < 4294967296 -> eqc (FOLD_U32T u) u.
Proof. intros Hu. rewrite fold_value by exact Hu. apply (eqc_step _ _ (- (u / 65536))); dlia. Qed.

Lemma fold_bound u b : 0 <= u < 4294967296 -> u <= b * 65536 + 65535 -> FOLD_U32T u <= b + 65535.
Proof. intros Hu Hb. rewrite fold_value by exact Hu. dlia. Qed.

Lemma fold_small u : 0 <= u <= 131070 -> FOLD_U32T u <= 65535.
Proof. intros Hu. rewrite fold_value by lia. dlia. Qed.

(** Folding twice leaves 16 bits. *)
Lemma fold_fold u : 0 <= u < 4294967296 -> eqc (FOLD_U32T (FOLD_U32T u)) u /\ FOLD_U32T (FOLD_U32T u) <= 65535.
Proof.
  intros Hu. pose proof (eqc_fold u Hu) as H1. pose proof (fold_bound u 65535 Hu ltac:(lia)). pose proof H1 as (H0 & _).
  split; [|apply fold_small; lia]. etransitivity; [|exact H1]. apply eqc_fold. lia.
Qed.

Lemma swap_is_htons w : SWAP_BYTES_IN_WORD w = htons w.
Proof. reflexivity. Qed.

Lemma eqc_htons w : 0 <= w <= 65535 -> eqc (htons w) (256 * w) /\ htons w <= 65535.
Proof.
  intros Hw. destruct (two_bytes w) as (b0 & b1 & H0 & H1 & ->); [lia|]. rewrite htons_of_bytes by assumption.
  split; [|lia]. apply (eqc_step _ _ (- b1)); lia.
Qed.

(** ** Algorithm 1 *)

Lemma word_of_octets a b : byte a -> byte b -> Z.lor (u16 (Z.shiftl a 8)) b = 256 * a + b.
Proof.
  unfold byte. intros Ha Hb. rewrite Z.shiftl_mul_pow2 by lia. unfold u16. change (2 ^ 8) with 256.
  rewrite Z.mod_small by lia. change 256 with (2 ^ 8) at 1. rewrite lor_disjoint by (change (2 ^ 8) with 256; lia).
  change (2 ^ 8) with 256. lia.
Qed.

Lemma le_value_nonneg l : Forall byte l -> 0 <= le_value l.
Proof. intros H. apply le_value_bounds in H. lia. Qed.

Lemma sum_octets_spec data acc k :
  Forall byte data -> 0 <= acc -> Z.of_nat (length data) <= 2 * k -> acc + 65535 * k < 4294967296 ->
  eqc (sum_octets data acc) (acc + 256 * le_value data) /\ sum_octets data acc <= acc + 65535 * k.
Proof.
  revert data acc k. fix IH 1. intros [|a [|b data]] acc k Hb Ha Hl Hk.
  - cbn [sum_octets le_value]. split; [|simpl in Hl; lia]. rewrite Z.mul_0_r, Z.add_0_r. now apply eqc_refl.
  - inversion Hb; subst. cbn [sum_octets le_value length] in *. unfold byte in *. unfold u16, u32.
    rewrite Z.shiftl_mul_pow2 by lia. change (2 ^ 8) with 256. rewrite (Z.mod_small (a * 256)), Z.mod_small by lia.
    split; [|lia]. apply (eqc_step _ _ 0); lia.
  - inversion Hb as [|? ? Ha1 Hb']; inversion Hb' as [|? ? Hb1 Hb2]; subst. cbn [sum_octets le_value length] in *.
    rewrite word_of_octets by assumption. unfold byte in *. unfold u32. rewrite Z.mod_small by lia.
    destruct (IH data (acc + (256 * a + b)) (k - 1)) as [H1 H2]; [exact Hb2|lia|lia|lia|]. split; [|lia].
    etransitivity; [exact H1|]. pose proof (le_value_nonneg data Hb2).
    replace (acc + 256 * (a + 256 * (b + 256 * le_value data)))
      with (acc + (256 * a + 65536 * b) + 65536 * (256 * le_value data)) by lia.
    apply eqc_add; [|symmetry; apply eqc_65536; lia]. apply eqc_add; [apply eqc_refl; lia|].
    apply (eqc_step _ _ (- b)); lia.
Qed.

Lemma chksum_1_spec data :
  Forall byte data -> Z.of_nat (length data) <= 65535 -> lwip_standard_chksum data = canon16 (le_value data).
Proof.
  intros Hb Hl. pose proof (le_value_nonneg data Hb) as H0.
  destruct (sum_octets_spec data 0 32768 Hb) as [H1 H2]; [lia|lia|lia|]. unfold lwip_standard_chksum.
  set (acc := sum_octets data 0) in *. pose proof H1 as (Hacc & _). rewrite Z.add_0_l in H1.
  fold (FOLD_U32T acc). set (f := FOLD_U32T acc).
  pose proof (eqc_fold acc ltac:(lia)) as F1. pose proof (fold_bound acc 65535 ltac:(lia) ltac:(lia)) as F2. fold f in F1, F2.
  pose proof F1 as (F0 & _).
  assert (Hhi : Z.land f 0xffff0000 = f / 65536 * 65536).
  { rewrite (land_field f 16 16) by (reflexivity || lia). change (2 ^ 16) with 65536. f_equal. apply Z.mod_small. dlia. }
  rewrite Hhi.
  set (g := if negb (f / 65536 * 65536 =? 0) then u32 (Z.shiftr f 16 + Z.land f 65535) else f).
  assert (Hg : eqc g f /\ g <= 65535).
  { unfold g. case_bool (f / 65536 * 65536 =? 0); cbn [negb]; [split; [now apply eqc_refl|dlia]|].
    change (u32 (Z.shiftr f 16 + Z.land f 65535)) with (FOLD_U32T f). split; [apply eqc_fold; lia|apply fold_small; lia]. }
  destruct Hg as [G1 G2]. pose proof G1 as (G0 & _). unfold u16. rewrite Z.mod_small by lia.
  destruct (eqc_htons g ltac:(lia)) as [E1 E2]. apply canon_unique; [|exact E2].
  etransitivity; [exact E1|]. etransitivity; [apply eqc_scale; [lia|]; etransitivity; [exact G1|etransitivity; [exact F1|exact H1]]|].
  replace (256 * (256 * le_value data)) with (65536 * le_value data) by lia. now apply eqc_65536.
Qed.

(** ** Algorithms 2 and 3 *)

(** At most one byte is left over. *)
Definition left_over (rest : list Z) : Prop := rest = [] \/ exists b, rest = [b] /\ byte b.

Lemma sum_words_spec data acc k :
  Forall byte data -> 0 <= acc -> Z.of_nat (length data) <= 2 * k + 1 -> acc + 65535 * k < 4294967296 ->
  let '(s, rest) := sum_words data acc in
  eqc (s + le_value rest) (acc + le_value data) /\ 0 <= s <= acc + 65535 * k /\ left_over rest /\
  (Z.of_nat (length data) mod 2 = 0 -> rest = []).
Proof.
  revert data acc k. fix IH 1. intros [|a [|b data]] acc k Hb Ha Hl Hk; cbn [sum_words].
  - simpl in Hl. cbn [le_value]. rewrite Z.add_0_r. split; [now apply eqc_refl|]. split; [lia|]. split; [now left|auto].
  - inversion Hb; subst. simpl in Hl. cbn [le_value]. unfold byte in *. split; [apply eqc_refl; lia|]. split; [lia|].
    split; [right; eauto|]. intros H. discriminate H.
  - inversion Hb as [|? ? Ha1 Hb']; inversion Hb' as [|? ? Hb1 Hb2]; subst. cbn [length] in *. unfold byte in *.
    unfold u32, word16. rewrite Z.mod_small by lia.
    specialize (IH data (acc + (a + 256 * b)) (k - 1) Hb2 ltac:(lia) ltac:(lia) ltac:(lia)).
    destruct (sum_words data (acc + (a + 256 * b))) as [s rest]. destruct IH as (H1 & H2 & H3 & H4).
    split; [|split; [lia|split; [exact H3|]]].
    + etransitivity; [exact H1|]. cbn [le_value]. pose proof (le_value_nonneg data Hb2).
      replace (acc + (a + 256 * (b + 256 * le_value data))) with (acc + (a + 256 * b) + 65536 * le_value data) by lia.
      apply eqc_add; [apply eqc_refl; lia|symmetry; now apply eqc_65536].
    + intros Hp. apply H4. dlia.
Qed.

(** The end of the two routines, for the bytes [x] whose sum is that of [t],
    [s] and [rest]. *)
Lemma chksum_end_spec (odd : bool) t s rest x :
  (t = 0 \/ exists b, byte b /\ t = 256 * b) -> left_over rest -> 0 <= s -> 0 <= x ->
  s + t + le_value rest < 4294967296 -> eqc (s + le_value rest + t) (if odd then 256 * x else x) ->
  chksum_end odd t s rest = canon16 x.
Proof.
  intros Ht Hr Hs Hx Hb He. unfold chksum_end.
  set (t' := match rest with [] => t | b :: _ => Z.lor (Z.land t 0xff00) b end).
  assert (Et : t' = t + le_value rest /\ 0 <= t).
  { unfold t'. destruct Hr as [->|(b & -> & Hbb)]; cbn [le_value].
    - destruct Ht as [->|(c & Hc & ->)]; unfold byte in *; lia.
    - rewrite (land_byte t 8 0xff00) by (reflexivity || lia). change (2 ^ 8) with 256. unfold byte in *.
      assert (Ec : t / 256 mod 256 * 256 = t) by (destruct Ht as [->|(c & Hc & ->)]; dlia). rewrite Ec.
      destruct Ht as [->|(c & Hc & ->)].
      + rewrite Z.lor_0_l. lia.
      + replace (256 * c) with (c * 2 ^ 8) by (change (2 ^ 8) with 256; lia). rewrite lor_disjoint by (change (2 ^ 8) with 256; lia).
        change (2 ^ 8) with 256. lia. }
  destruct Et as [-> Ht0].
  assert (Hrl : 0 <= le_value rest) by (destruct Hr as [->|(b & -> & Hbb)]; cbn [le_value]; unfold byte in *; lia).
  replace (u32 (s + (t + le_value rest))) with (s + le_value rest + t) by (unfold u32; rewrite Z.mod_small; lia).
  destruct (fold_fold (s + le_value rest + t)) as [F1 F2]; [lia|].
  set (f := FOLD_U32T (FOLD_U32T (s + le_value rest + t))) in *. pose proof F1 as (F0 & _).
  destruct odd.
  - rewrite swap_is_htons. destruct (eqc_htons f ltac:(lia)) as [G1 G2]. pose proof G1 as (G0 & _).
    unfold u16. rewrite Z.mod_small by lia. apply canon_unique; [|exact G2].
    etransitivity; [exact G1|]. etransitivity; [apply eqc_scale; [lia|etransitivity; [exact F1|exact He]]|].
    replace (256 * (256 * x)) with (65536 * x) by lia. now apply eqc_65536.
  - unfold u16. rewrite Z.mod_small by lia. apply canon_unique; [|exact F2]. etransitivity; [exact F1|exact He].
Qed.

(** The first byte, when it is taken apart. *)
Lemma odd_start_spec (odd : bool) data :
  Forall byte data ->
  let '(t, data') := odd_start odd data in
  Forall byte data' /\ (t = 0 \/ exists b, byte b /\ t = 256 * b) /\ (length data' <= length data)%nat /\
  (odd = true -> data <> [] -> length data' = (length data - 1)%nat) /\ (odd = false -> t = 0 /\ data' = data) /\
  eqc (le_value data' + t) (if odd then 256 * le_value data else le_value data).
Proof.
  intros H. pose proof (le_value_nonneg data H). unfold odd_start. destruct data as [|b data].
  - cbn [le_value]. split; [exact H|]. split; [now left|]. split; [lia|]. split; [contradiction|]. split; [auto|].
    destruct odd; now apply eqc_refl.
  - inversion H; subst. pose proof (le_value_nonneg data ltac:(assumption)). cbn [length le_value] in *. destruct odd.
    + split; [assumption|]. split; [right; eauto|]. split; [lia|]. split; [intros _ _; lia|]. split; [discriminate|].
      unfold byte in *. replace (256 * (b + 256 * le_value data)) with (256 * b + 65536 * le_value data) by lia.
      rewrite Z.add_comm. apply eqc_add; [apply eqc_refl; lia|symmetry; now apply eqc_65536].
    + split; [exact H|]. split; [now left|]. split; [cbn [length]; lia|]. split; [discriminate|]. split; [auto|].
      rewrite Z.add_0_r. now apply eqc_refl.
Qed.

Lemma chksum_2_spec addr data :
  Forall byte data -> Z.of_nat (length data) <= 0x20000 -> chksum_2 addr data = canon16 (le_value data).
Proof.
  intros Hb Hl. unfold chksum_2. set (odd := negb (Z.land addr 1 =? 0)).
  pose proof (odd_start_spec odd data Hb) as Ho. destruct (odd_start odd data) as [t data'].
  destruct Ho as (Hb' & Ht & Hle & Hodd & Heven & He).
  set (k := Z.of_nat (length data') / 2).
  assert (Hk : k <= 65536 /\ (k = 65536 -> t = 0 /\ Z.of_nat (length data') mod 2 = 0)).
  { unfold k. destruct odd.
    - assert (Hlt : (length data' <= length data - 1)%nat).
      { destruct data as [|b data]; [cbn [length] in *; lia|]. rewrite Hodd by (discriminate || reflexivity). lia. }
      split; [dlia|]. intros Hk. exfalso. dlia.
    - destruct Heven as [-> ->]; [reflexivity|]. split; [dlia|]. intros; split; [reflexivity|dlia]. }
  pose proof (sum_words_spec data' 0 k Hb' ltac:(lia) ltac:(unfold k; dlia) ltac:(lia)) as Hs.
  destruct (sum_words data' 0) as [s rest]. destruct Hs as (H1 & H2 & H3 & H4). rewrite Z.add_0_l in *.
  apply chksum_end_spec; auto; [lia|now apply le_value_nonneg| |].
  - assert (Hr : 0 <= le_value rest <= 255) by (destruct H3 as [->|(b & -> & Hbb)]; cbn [le_value]; unfold byte in *; lia).
    assert (0 <= t <= 65280) by (destruct Ht as [->|(b & Hbb & ->)]; unfold byte in *; lia).
    destruct (Z.eq_dec k 65536) as [E|E]; [|lia]. destruct Hk as [_ Hk]. destruct (Hk E) as [-> Hm]. rewrite (H4 Hm).
    cbn [le_value]. lia.
  - etransitivity; [|exact He]. apply eqc_add; [exact H1|]. apply eqc_refl.
    destruct Ht as [->|(b & Hbb & ->)]; unfold byte in *; lia.
Qed.

Lemma add_carry_spec s x :
  0 <= s < 4294967296 -> 0 <= x < 4294967296 ->
  eqc (add_carry s x) (s + x) /\ add_carry s x < 4294967296.
Proof.
  intros Hs Hx. unfold add_carry, u32. destruct (Z.lt_ge_cases (s + x) 4294967296) as [H|H].
  - rewrite Z.mod_small by lia. case_bool (s + x <? s); [lia|]. split; [apply eqc_refl; lia|lia].
  - assert (E : (s + x) mod 4294967296 = s + x - 4294967296) by dlia. rewrite E.
    case_bool (s + x - 4294967296 <? s); [|lia]. rewrite Z.mod_small by lia. split; [|lia].
    apply (eqc_step _ _ (- 65537)); lia.
Qed.

Lemma word32_value a b c d r : word32 a b c d + 4294967296 * r = a + 256 * (b + 256 * (c + 256 * (d + 256 * r))).
Proof. unfold word32, word16. lia. Qed.

Lemma sum_quads_spec n data sum :
  (length data <= n)%nat -> Forall byte data -> 0 <= sum < 4294967296 ->
  let '(s, rest) := sum_quads data sum in
  eqc (s + le_value rest) (sum + le_value data) /\ 0 <= s < 4294967296 /\ (length rest < 8)%nat /\ Forall byte rest.
Proof.
  revert data sum. induction n as [|n IH]; intros data sum Hn Hb Hs;
    do 8 (destruct data as [|? data]; [cbn [sum_quads];
      (split; [apply eqc_refl; pose proof (le_value_nonneg _ Hb); lia|]); split; [lia|]; split; [simpl; lia|exact Hb]|]).
  { simpl in Hn. lia. }
  cbn [sum_quads]. repeat match goal with H : Forall byte (_ :: _) |- _ => inversion H; clear H; subst end.
  unfold byte in *. cbn [length] in Hn.
  match goal with |- context [sum_quads data (add_carry (add_carry sum ?w1) ?w2)] => set (x1 := w1); set (x2 := w2) end.
  assert (Hx1 : 0 <= x1 < 4294967296) by (unfold x1, word32, word16; lia).
  assert (Hx2 : 0 <= x2 < 4294967296) by (unfold x2, word32, word16; lia).
  destruct (add_carry_spec sum x1 Hs Hx1) as [C1 C2]. pose proof C1 as (C0 & _).
  destruct (add_carry_spec (add_carry sum x1) x2 ltac:(lia) Hx2) as [D1 D2]. pose proof D1 as (D0 & _).
  specialize (IH data (add_carry (add_carry sum x1) x2) ltac:(lia) ltac:(assumption) ltac:(lia)).
  destruct (sum_quads data _) as [s rest]. destruct IH as (R1 & R2 & R3 & R4).
  split; [|split; [exact R2|split; [exact R3|exact R4]]]. etransitivity; [exact R1|].
  pose proof (le_value_nonneg data ltac:(assumption)) as Hd. cbn [le_value]. rewrite <- !word32_value. fold x1 x2.
  replace (sum + (x1 + 4294967296 * (x2 + 4294967296 * le_value data)))
    with (sum + x1 + 4294967296 * (x2 + 4294967296 * le_value data)) by lia.
  etransitivity; [apply eqc_add; [exact D1|apply eqc_refl; exact Hd]|].
  rewrite <- Z.add_assoc. apply eqc_add; [exact C1|].
  etransitivity; [|symmetry; apply eqc_2_32; lia]. apply eqc_add; [apply eqc_refl; lia|].
  symmetry. now apply eqc_2_32.
Qed.

Lemma chksum_3_spec addr data : Forall byte data -> chksum_3 addr data = canon16 (le_value data).
Proof.
  intros Hb. unfold chksum_3. set (odd := negb (Z.land addr 1 =? 0)).
  pose proof (odd_start_spec odd data Hb) as Ho. destruct (odd_start odd data) as [t data1].
  destruct Ho as (Hb1 & Ht & _ & _ & _ & He).
  set (addr' := if odd && negb (length data =? 0)%nat then addr + 1 else addr).
  assert (Ha : let '(s, data2) := align_word addr' data1 in
               Forall byte data2 /\ 0 <= s < 65536 /\ eqc (s + le_value data2) (le_value data1)).
  { pose proof (le_value_nonneg data1 Hb1). unfold align_word.
    destruct data1 as [|a [|b data2]]; try (split; [exact Hb1|]; split; [lia|]; now apply eqc_refl).
    destruct (negb (Z.land addr' 3 =? 0)); [|split; [exact Hb1|]; split; [lia|]; now apply eqc_refl].
    inversion Hb1 as [|? ? Ha1 Hb']; inversion Hb' as [|? ? Hb2 Hb3]; subst. pose proof (le_value_nonneg data2 Hb3).
    unfold byte, word16 in *. split; [assumption|]. split; [lia|]. cbn [le_value].
    replace (a + 256 * (b + 256 * le_value data2)) with (a + 256 * b + 65536 * le_value data2) by lia.
    apply eqc_add; [apply eqc_refl; lia|symmetry; now apply eqc_65536]. }
  destruct (align_word addr' data1) as [s0 data2]. destruct Ha as (Hb2 & Hs0 & He0).
  pose proof (sum_quads_spec (length data2) data2 s0 ltac:(lia) Hb2 ltac:(lia)) as Hq.
  destruct (sum_quads data2 s0) as [s1 data3]. destruct Hq as (Q1 & Q2 & Q3 & Q4).
  pose proof (eqc_fold s1 Q2) as F1. pose proof (fold_bound s1 65535 Q2 ltac:(lia)) as F2. pose proof F1 as (F0 & _).
  pose proof (sum_words_spec data3 (FOLD_U32T s1) 3 Q4 F0 ltac:(lia) ltac:(lia)) as Hs.
  destruct (sum_words data3 (FOLD_U32T s1)) as [s rest]. destruct Hs as (H1 & H2 & H3 & _).
  assert (Hr : 0 <= le_value rest <= 255) by (destruct H3 as [->|(b & -> & Hbb)]; cbn [le_value]; unfold byte in *; lia).
  assert (Ht0 : 0 <= t <= 65280) by (destruct Ht as [->|(b & Hbb & ->)]; unfold byte in *; lia).
  apply chksum_end_spec; auto; [lia|now apply le_value_nonneg|lia|].
  etransitivity; [|exact He]. apply eqc_add; [|apply eqc_refl; lia].
  etransitivity; [exact H1|]. etransitivity; [|exact He0]. etransitivity; [|exact Q1].
  apply eqc_add; [exact F1|]. apply eqc_refl. now apply le_value_nonneg.
Qed.

(** ** Chains *)

(** The accumulator after the bytes [bs]. *)
Definition summed (bs : list Z) (acc : Z) (swapped : bool) : Prop :=
  0 <= acc <= 65535 /\ swapped = negb (Z.of_nat (length bs) mod 2 =? 0) /\
  eqc acc (if swapped then 256 * le_value bs else le_value bs).

Lemma p256_even n : Z.of_nat n mod 2 = 0 -> forall x, 0 <= x -> eqc (p256 n * x) x.
Proof.
  intros H x Hx. replace n with (Z.to_nat (Z.of_nat n / 2) + Z.to_nat (Z.of_nat n / 2))%nat by dlia.
  generalize (Z.to_nat (Z.of_nat n / 2)). clear H n. intros n. induction n as [|n IH].
  - change (p256 (0 + 0)) with 1. rewrite Z.mul_1_l. now apply eqc_refl.
  - replace (S n + S n)%nat with (S (S (n + n))) by lia. rewrite !p256_S.
    replace (256 * (256 * p256 (n + n)) * x) with (65536 * (p256 (n + n) * x)) by lia.
    etransitivity; [apply eqc_65536; pose proof (p256_pos (n + n)); nia|exact IH].
Qed.

(** The sum of joined strings. *)
Lemma eqc_app a b :
  Forall byte a -> Forall byte b ->
  eqc (le_value (a ++ b)) (le_value a + (if Z.of_nat (length a) mod 2 =? 0 then le_value b else 256 * le_value b)).
Proof.
  intros Ha Hb. pose proof (le_value_nonneg a Ha). pose proof (le_value_nonneg b Hb).
  rewrite le_value_app. apply eqc_add; [now apply eqc_refl|]. case_bool (Z.of_nat (length a) mod 2 =? 0).
  - now apply p256_even.
  - destruct a as [|x a]; [exfalso; now apply E|]. cbn [length] in *. rewrite p256_S.
    replace (256 * p256 (length a) * le_value b) with (p256 (length a) * (256 * le_value b)) by lia.
    apply p256_even; [dlia|lia].
Qed.

Lemma summed_step bs data acc swapped n :
  summed bs acc swapped -> Forall byte bs -> Forall byte data -> Z.of_nat (length data) <= 65535 ->
  n = Z.of_nat (length data) ->
  let acc' := FOLD_U32T (u32 (acc + lwip_standard_chksum data)) in
  let '(a, s) := if negb (n mod 2 =? 0) then (SWAP_BYTES_IN_WORD acc', negb swapped) else (acc', swapped) in
  summed (bs ++ data) a s.
Proof.
  intros (Hr & Hs & He) Hb Hd Hl ->. rewrite chksum_1_spec by assumption.
  pose proof (le_value_nonneg bs Hb) as B0. pose proof (le_value_nonneg data Hd) as D0.
  pose proof (canon_range (le_value data) D0) as Hc. cbv zeta.
  replace (u32 (acc + canon16 (le_value data))) with (acc + canon16 (le_value data)) by (unfold u32; rewrite Z.mod_small; lia).
  set (u := acc + canon16 (le_value data)) in *. pose proof (eqc_fold u ltac:(lia)) as F1.
  pose proof (fold_small u ltac:(lia)) as F2. set (f := FOLD_U32T u) in *. pose proof F1 as (F0 & _).
  assert (Hf : eqc f (if swapped then 256 * le_value (bs ++ data) else le_value (bs ++ data))).
  { etransitivity; [exact F1|]. unfold u. etransitivity; [apply eqc_add; [exact He|now apply eqc_canon]|].
    pose proof (eqc_app bs data Hb Hd) as Ha. rewrite Hs. case_bool (Z.of_nat (length bs) mod 2 =? 0); cbn [negb].
    - now symmetry.
    - symmetry. etransitivity; [apply eqc_scale; [lia|exact Ha]|].
      replace (256 * (le_value bs + 256 * le_value data)) with (256 * le_value bs + 65536 * le_value data) by lia.
      apply eqc_add; [apply eqc_refl; lia|now apply eqc_65536]. }
  assert (Hpos : 0 <= le_value (bs ++ data)) by (apply le_value_nonneg, Forall_app; auto).
  case_bool (Z.of_nat (length data) mod 2 =? 0); cbn [negb].
  - split; [lia|]. split; [|exact Hf]. rewrite Hs, length_app. f_equal.
    case_bool (Z.of_nat (length bs) mod 2 =? 0); case_bool (Z.of_nat (length bs + length data) mod 2 =? 0);
      try reflexivity; dlia.
  - rewrite swap_is_htons. destruct (eqc_htons f ltac:(lia)) as [G1 G2]. pose proof G1 as (G0 & _).
    split; [lia|]. split.
    + rewrite Hs, length_app. case_bool (Z.of_nat (length bs) mod 2 =? 0);
        case_bool (Z.of_nat (length bs + length data) mod 2 =? 0); cbn [negb]; try reflexivity; dlia.
    + etransitivity; [exact G1|]. etransitivity; [apply eqc_scale; [lia|exact Hf]|]. destruct swapped; cbn [negb].
      * replace (256 * (256 * le_value (bs ++ data))) with (65536 * le_value (bs ++ data)) by lia. now apply eqc_65536.
      * apply eqc_refl. lia.
Qed.

Lemma chksum_loop_spec fuel st p l bs acc swapped :
  chain (st_pbufs st) p l -> totals_ok l -> all_valid (st_mem st) l -> Forall byte (content (st_mem st) l) ->
  (length l <= fuel)%nat -> summed bs acc swapped -> Forall byte bs ->
  exists acc' swapped', chksum_loop fuel p acc swapped st = ret (acc', swapped') /\
    summed (bs ++ content (st_mem st) l) acc' swapped'.
Proof.
  revert p l bs acc swapped. induction fuel as [|fuel IH]; intros p l bs acc swapped H Ht Hv Hb Hf Hs Hbs;
    inversion H as [|a x l' Hx H']; subst; simpl in Hf; try lia.
  1, 2: exists acc, swapped; split; [reflexivity|]; cbn [content]; now rewrite app_nil_r.
  cbn [chksum_loop]. rewrite (fetch_some st a x), bind_ret by exact Hx.
  inversion Hv as [|? ? Hvx Hv']; subst. cbn [snd] in Hvx. destruct Ht as (_ & Hx0 & _ & Hb1 & Ht).
  pose proof (totals_nonneg _ Ht). cbn [total content] in *. apply Forall_app in Hb as [Hbx Hb].
  pose proof (bytes_length _ _ Hvx) as Hlen. unfold chksum_pbuf. rewrite load_bytes, bind_ret by (auto; lia).
  rewrite skipn_O, firstn_all2 by lia.
  pose proof (summed_step bs (bytes_of (st_mem st) x) acc swapped (pb_len x) Hs Hbs Hbx ltac:(lia) ltac:(lia)) as Hstep.
  cbv zeta in Hstep. rewrite bind_ret. destruct (if negb (pb_len x mod 2 =? 0) then _ else _) as [a' s'].
  destruct (IH (pb_next x) l' (bs ++ bytes_of (st_mem st) x) a' s') as (acc' & swapped' & E & Hr); auto; [lia|now apply Forall_app|].
  exists acc', swapped'. split; [exact E|]. now rewrite app_assoc.
Qed.

(** The whole chain, unswapped. *)
Lemma chksum_chain st p l :
  packet st p l -> all_valid (st_mem st) l -> Forall byte (content (st_mem st) l) ->
  exists acc swapped, chksum_loop (walk_fuel st) p 0 false st = ret (acc, swapped) /\
    unswap acc swapped = canon16 (le_value (content (st_mem st) l)).
Proof.
  intros [H Ht] Hv Hb. pose proof (chain_size _ _ _ H).
  destruct (chksum_loop_spec (walk_fuel st) st p l [] 0 false) as (acc & swapped & E & (Hr & Hs & He)); auto.
  { unfold walk_fuel. lia. }
  { split; [lia|]. split; [reflexivity|]. now apply eqc_refl. }
  exists acc, swapped. split; [exact E|]. cbn [app] in He. pose proof (le_value_nonneg _ Hb). unfold unswap.
  destruct swapped; [|apply canon_unique; [exact He|lia]]. rewrite swap_is_htons.
  destruct (eqc_htons acc ltac:(lia)) as [G1 G2]. apply canon_unique; [|exact G2].
  etransitivity; [exact G1|]. etransitivity; [apply eqc_scale; [lia|exact He]|].
  rewrite Z.mul_assoc. now apply eqc_65536.
Qed.

Lemma land_small x : 0 <= x <= 65535 -> Z.land x 0xffff = x.
Proof. intros H. rewrite land_low. apply Z.mod_small. lia. Qed.

Lemma not16_value x : 0 <= x <= 65535 -> not16 x = 65535 - x.
Proof.
  intros Hx. unfold not16. change 0xffff with (Z.ones 16) at 1. 
  replace (65535 - x) with (Z.lnot x mod 2 ^ 16) by (unfold Z.lnot; change (2 ^ 16) with 65536; dlia).
  rewrite <- Z.land_ones by lia. apply Z.bits_inj'. intros i Hi. rewrite Z.lxor_spec, Z.land_spec, Z.lnot_spec by lia.
  destruct (Z.lt_ge_cases i 16).
  - rewrite Z.ones_spec_low by lia. now destruct (Z.testbit x i).
  - rewrite Z.ones_spec_high by lia. rewrite andb_false_r, xorb_false_r.
    rewrite <- (Z.mod_small x (2 ^ 16)) by (change (2 ^ 16) with 65536; lia). apply Z.mod_pow2_bits_high. lia.
Qed.

(** ** Storing and checking *)

(** The value to store makes the sum that of all ones. *)
Lemma stored_checksum z c :
  0 <= z -> c = not16 (canon16 z) -> canon16 (z + c) = 65535 /\ 0 <= c <= 65535.
Proof.
  intros Hz ->. pose proof (canon_range z Hz) as Hc. rewrite not16_value by exact Hc. split; [|lia].
  pose proof (eqc_canon z Hz) as He. symmetry. apply canon_unique; [|lia].
  etransitivity; [|apply eqc_add; [exact He|apply eqc_refl; lia]].
  replace (canon16 z + (65535 - canon16 z)) with 65535 by lia. now apply eqc_refl.
Qed.

(** A 16-bit number in the bytes of a string, at an even place. *)
Lemma stored_bytes a b c :
  Forall byte a -> Forall byte b -> 0 <= c <= 65535 -> Z.of_nat (length a) mod 2 = 0 ->
  eqc (le_value (a ++ [c mod 256; c / 256] ++ b)) (le_value (a ++ [0; 0] ++ b) + c).
Proof.
  intros Ha Hb Hc He. rewrite !le_value_app. cbn [le_value length app].
  pose proof (le_value_nonneg a Ha). pose proof (le_value_nonneg b Hb).
  replace (p256 2) with 65536 by reflexivity.
  match goal with |- eqc ?x (?y + c) => replace x with (y + p256 (length a) * c) by (pose proof (Z.div_mod c 256); nia) end.
  pose proof (p256_pos (length a)). apply eqc_add; [apply eqc_refl; nia|]. now apply p256_even.
Qed.

(** ... so the packet with the stored value checks. *)
Lemma stored_checksum_sums a b c :
  Forall byte a -> Forall byte b -> Z.of_nat (length a) mod 2 = 0 ->
  Z.of_nat (length a + length b) <= 65533 ->
  inet_chksum (a ++ [0; 0] ++ b) (Z.of_nat (length a + 2 + length b)) = ret c ->
  inet_chksum (a ++ [c mod 256; c / 256] ++ b) (Z.of_nat (length a + 2 + length b)) = ret 0.
Proof.
  intros Ha Hb He Hl Hc. unfold inet_chksum, LWIP_CHKSUM in *.
  rewrite take_bytes_firstn, bind_ret, firstn_all2, bind_ret in Hc by (repeat (rewrite ?length_app; cbn [length]); lia).
  assert (B0 : byte 0) by (unfold byte; lia).
  assert (Hz : Forall byte (a ++ [0; 0] ++ b)) by (apply Forall_app; split; [exact Ha|]; now repeat constructor).
  rewrite chksum_1_spec in Hc by (auto; repeat (rewrite ?length_app; cbn [length]); lia).
  apply (f_equal (fun m => fst (m []))) in Hc. injection Hc as Hc. pose proof (le_value_nonneg _ Hz) as Z0.
  destruct (stored_checksum _ c Z0 (eq_sym Hc)) as [Hcan Hcr].
  assert (Hw : Forall byte (a ++ [c mod 256; c / 256] ++ b)).
  { apply Forall_app; split; [exact Ha|]. constructor; [unfold byte; dlia|]. constructor; [unfold byte; dlia|exact Hb]. }
  rewrite take_bytes_firstn, bind_ret, firstn_all2, bind_ret by (repeat (rewrite ?length_app; cbn [length]); lia).
  rewrite chksum_1_spec by (auto; repeat (rewrite ?length_app; cbn [length]); lia). f_equal.
  pose proof (stored_bytes a b c Ha Hb ltac:(lia) He) as Hs.
  assert (E : canon16 (le_value (a ++ [c mod 256; c / 256] ++ b)) = 65535).
  { rewrite <- Hcan. apply canon_unique; [|apply canon_range, Hs]. etransitivity; [apply eqc_canon, Hs|exact Hs]. }
  now rewrite E.
Qed.

(** ** The pseudo header *)

(** The end of the pseudo header checksum. *)
Lemma pseudo_end_spec acc src dest proto proto_len x :
  0 <= acc <= 65535 -> eqc acc x ->
  0 <= src < 4294967296 -> 0 <= dest < 4294967296 -> 0 <= proto < 256 -> 0 <= proto_len < 65536 ->
  chksum_pseudo_end acc src dest proto proto_len =
  not16 (canon16 (x + src mod 65536 + src / 65536 + dest mod 65536 + dest / 65536 + htons proto + htons proto_len)).
Proof.
  intros Ha He Hs Hd Hpr Hpl. unfold chksum_pseudo_end.
  destruct (eqc_htons proto ltac:(lia)) as [(P0 & _) P1]. destruct (eqc_htons proto_len ltac:(lia)) as [(L0 & _) L1].
  rewrite !Z.shiftr_div_pow2 by lia. change (2 ^ 16) with 65536. rewrite !land_low.
  replace (src / 65536 mod 65536) with (src / 65536) by (rewrite Z.mod_small; dlia).
  replace (dest / 65536 mod 65536) with (dest / 65536) by (rewrite Z.mod_small; dlia).
  replace (u16 proto) with proto by (unfold u16; rewrite Z.mod_small; lia).
  assert (Hq : 0 <= src / 65536 < 65536 /\ 0 <= dest / 65536 < 65536) by dlia.
  pose proof (Z.mod_pos_bound src 65536 ltac:(lia)). pose proof (Z.mod_pos_bound dest 65536 ltac:(lia)).
  set (s0 := src mod 65536) in *. set (s1 := src / 65536) in *. set (d0 := dest mod 65536) in *.
  set (d1 := dest / 65536) in *. set (h0 := htons proto) in *. set (h1 := htons proto_len) in *.
  assert (Hu : forall y, 0 <= y < 1000000 -> u32 y = y) by (intros; apply Z.mod_small; lia).
  rewrite (Hu (acc + s0)), (Hu (acc + s0 + s1)), (Hu (acc + s0 + s1 + d0)), (Hu (acc + s0 + s1 + d0 + d1)),
    (Hu (acc + s0 + s1 + d0 + d1 + h0)), (Hu (acc + s0 + s1 + d0 + d1 + h0 + h1)) by lia.
  destruct (fold_fold (acc + s0 + s1 + d0 + d1 + h0 + h1)) as [F1 F2]; [lia|].
  pose proof F1 as (F0 & _). rewrite (Z.mod_small (FOLD_U32T _)) by lia. f_equal. apply canon_unique; [|exact F2].
  etransitivity; [exact F1|]. rewrite <- !Z.add_assoc. apply eqc_add; [exact He|apply eqc_refl; lia].
Qed.

(** The sum of the bytes [bs] and the pseudo header. *)
Definition pseudo_sum (bs : list Z) (src dest proto proto_len : Z) : Z :=
  le_value bs + src mod 65536 + src / 65536 + dest mod 65536 + dest / 65536 + htons proto + htons proto_len.

Lemma chksum_pseudo_value st p l src dest proto proto_len :
  packet st p l -> all_valid (st_mem st) l -> Forall byte (content (st_mem st) l) ->
  0 <= src < 4294967296 -> 0 <= dest < 4294967296 -> 0 <= proto < 256 -> 0 <= proto_len < 65536 ->
  inet_chksum_pseudo p src dest proto proto_len st =
    ret (not16 (canon16 (pseudo_sum (content (st_mem st) l) src dest proto proto_len))).
Proof.
  intros Hp Hv Hb Hs Hd Hpr Hpl. destruct (chksum_chain st p l Hp Hv Hb) as (acc & swapped & E & Eu).
  pose proof (le_value_nonneg _ Hb) as B0. pose proof (canon_range _ B0) as Hc.
  unfold inet_chksum_pseudo. rewrite E, bind_ret, Eu. f_equal. apply pseudo_end_spec; try assumption. now apply eqc_canon.
Qed.
