(* ===== verification/NetTheorems.v ===== *)
(** * lwIP: addresses and checksums, the properties *)
From Stdlib Require Import ZArith List Lia Bool.
From stdpp Require Import base gmap list.
From S2P Require Import Prelude CMonad Pbuf PbufChain PbufData Inet InetChksum.
From S2P Require Import ChksumSpec PbufTheorems.
#[local] Open Scope Z_scope.
#[local] Open Scope cmonad_scope.

(** ** Checksums *)

(** The three checksum routines compute the same function of the bytes,
    their value as a little-endian number modulo 65535: the first up to the
    64k its 32-bit accumulator can take, the second up to the 0x20000 bytes
    its comment promises, the third for any length, both at any address. *)
Theorem chksum_algorithms_agree addr data :
  Forall byte data ->
  let s := canon16 (le_value data) in
  (Z.of_nat (length data) <= 65535 -> lwip_standard_chksum data = s) /\
  (Z.of_nat (length data) <= 0x20000 -> chksum_2 addr data = s) /\ chksum_3 addr data = s.
Proof.
  intros Hb. split; [intros; now apply chksum_1_spec|]. split; [intros; now apply chksum_2_spec|].
  now apply chksum_3_spec.
Qed.

Lemma chksum_algorithms_agree_witness :
  let s := canon16 (le_value [1; 2; 255; 255; 7]) in
  (5 <= 65535 -> lwip_standard_chksum [1; 2; 255; 255; 7] = s) /\
  (5 <= 0x20000 -> chksum_2 1001 [1; 2; 255; 255; 7] = s) /\ chksum_3 1001 [1; 2; 255; 255; 7] = s.
Proof. apply (chksum_algorithms_agree 1001 [1; 2; 255; 255; 7]). bytes_tac. Defined.

(** C18: The checksum of a chain of pbufs does not depend on how the bytes are
    spread over the pbufs, odd lengths included: it is that of the same bytes
    in one piece, and with the pseudo header that of their sum. *)
Theorem chain_checksum_correct st p l src dest proto proto_len :
  packet st p l -> all_valid (st_mem st) l -> Forall byte (content (st_mem st) l) ->
  0 <= src < 4294967296 -> 0 <= dest < 4294967296 -> 0 <= proto < 256 -> 0 <= proto_len < 65536 ->
  inet_chksum_pbuf p st = inet_chksum (content (st_mem st) l) (total l) /\
  inet_chksum_pseudo p src dest proto proto_len st =
    ret (not16 (canon16 (le_value (content (st_mem st) l) + src mod 65536 + src / 65536 +
                         dest mod 65536 + dest / 65536 + htons proto + htons proto_len))).
Proof.
  intros Hp Hv Hb Hs Hd Hpr Hpl. destruct (chksum_chain st p l Hp Hv Hb) as (acc & swapped & E & Eu).
  pose proof (le_value_nonneg _ Hb) as B0. pose proof (canon_range _ B0) as Hc. pose proof (content_length _ _ Hv) as Hcl.
  split.
  - unfold inet_chksum_pbuf, inet_chksum, LWIP_CHKSUM. rewrite E, bind_ret, Eu.
    rewrite take_bytes_firstn, bind_ret, firstn_all2, bind_ret by lia.
    assert (Ht : total l < 65536).
    { destruct Hp as [_ Ht]. destruct l as [|[a x] l]; [simpl; lia|]. apply Ht. }
    rewrite chksum_1_spec by (auto; lia). now rewrite land_small.
  - exact (chksum_pseudo_value st p l src dest proto proto_len Hp Hv Hb Hs Hd Hpr Hpl).
Qed.

Lemma chain_checksum_correct_witness :
  inet_chksum_pbuf (Some 1%positive) toy_store = inet_chksum [10; 11; 12; 13; 14] 5 /\
  inet_chksum_pseudo (Some 1%positive) 0x0100007f 0x0200007f 17 5 toy_store =
    ret (not16 (canon16 (le_value [10; 11; 12; 13; 14] + 0x0100007f mod 65536 + 0x0100007f / 65536 +
                         0x0200007f mod 65536 + 0x0200007f / 65536 + htons 17 + htons 5))).
Proof.
  apply (chain_checksum_correct toy_store (Some 1%positive) toy_ab 0x0100007f 0x0200007f 17 5
    toy_packet_ab toy_valid_ab); [|lia|lia|lia|lia].
  change (content (st_mem toy_store) toy_ab) with [10; 11; 12; 13; 14]. bytes_tac.
Defined.

(** Storing the checksum makes the packet check: when a 16-bit field at
    an even place holds, in the byte order of the host, the checksum of the
    packet with a zero field, the checksum of the whole packet is 0. *)
Theorem stored_checksum_verifies a b c :
  Forall byte a -> Forall byte b -> Z.of_nat (length a) mod 2 = 0 ->
  Z.of_nat (length a + length b) <= 65533 ->
  inet_chksum (a ++ [0; 0] ++ b) (Z.of_nat (length a + 2 + length b)) = ret c ->
  inet_chksum (a ++ [c mod 256; c / 256] ++ b) (Z.of_nat (length a + 2 + length b)) = ret 0.
Proof. apply stored_checksum_sums. Qed.

Lemma stored_checksum_verifies_witness :
  inet_chksum ([69; 0; 0; 20] ++ [55921 mod 256; 55921 / 256] ++ [64; 17; 9]) 9 = ret 0.
Proof.
  apply (stored_checksum_verifies [69; 0; 0; 20] [64; 17; 9] 55921); [bytes_tac|bytes_tac|reflexivity|simpl; lia|].
  vm_compute. reflexivity.
Defined.

(** ** Addresses *)

(** [inet_ntoa] stays inside [str[16]] for every address, and both
    [inet_aton] and [inet_addr] read back the address from what it wrote. *)
Theorem inet_ntoa_round_trip a :
  0 <= a < 4294967296 ->
  exists s, inet_ntoa a = ret s /\ (length s <= 16)%nat /\ inet_aton s = ret (Some a) /\ inet_addr s = ret a.
Proof.
  intros Ha. destruct (inet_round_trip a Ha) as (s & E & L & R). exists s.
  repeat (split; [assumption|]). unfold inet_addr. now rewrite R, bind_ret.
Qed.

Lemma inet_ntoa_round_trip_witness :
  exists s, inet_ntoa 0x0100007f = ret s /\ (length s <= 16)%nat /\
    inet_aton s = ret (Some 0x0100007f) /\ inet_addr s = ret 0x0100007f.
Proof. apply (inet_ntoa_round_trip 0x0100007f). lia. Defined.

(** Strings [inet_aton] accepts although they are no addresses: the numbers
    before the last may exceed 255, "257.1.1.1" is 1.1.1.1, and an octal
    number may have the digits 8 and 9, "09.1.1.1" is 9.1.1.1. *)
Theorem inet_aton_limits :
  inet_aton [50; 53; 55; 46; 49; 46; 49; 46; 49; 0] = ret (Some 0x01010101) /\
  inet_aton [48; 57; 46; 49; 46; 49; 46; 49; 0] = ret (Some 0x01010109).
Proof. split; vm_compute; reflexivity. Qed.
