(* ===== verification/Timers.v ===== *)
(** * lwIP: timers

    [lwip/src/core/sys.c]: the list of timeouts of a thread, in which every
    entry holds its time relative to the one before, and the waits for
    messages and semaphores that run the handlers of the timeouts.

    A thread's list is reached through [sys_arch_timeouts()] by its own thread
    only, and its entries through the list only: it is a list here.  The
    port never returns a null pointer from [sys_arch_timeouts()].  The rest of
    the system, mailboxes and semaphores included, is a parameter, and so are
    the functions of the port that wait; a handler of the user is a parameter
    too: what it does to the rest of the system, and which timeouts it sets
    and cancels, in order.  Handlers that wait themselves are left out. *)
From Stdlib Require Import ZArith List Lia Bool.
From stdpp Require Import base gmap list.
From S2P Require Import Prelude CMonad Pbuf.
#[local] Open Scope Z_scope.
#[local] Open Scope cmonad_scope.

Definition SYS_ARCH_TIMEOUT : Z := 0xffffffff.

Section Timers.
Context {U : Type} `{EqDecision U}.

(** [sys_timeout_handler]: a function of the user, or the one of [sys.c]. *)
Inductive sys_timeout_handler := user_handler (u : U) | sswt_handler.

#[export] Instance handler_eq_dec : EqDecision sys_timeout_handler.
Proof. solve_decision. Defined.

(** [h] and [arg] of an entry; both may be null pointers. *)
Definition callback : Type := option sys_timeout_handler * option addr.

Record sys_timeo : Type := Timeo { to_time : Z; to_call : callback }.

Definition with_time (t : sys_timeo) (time : Z) : sys_timeo := Timeo time (to_call t).

(** ** Setting and cancelling *)

(** The [for] loop: [timeout] goes behind every entry that is not later. *)
Fixpoint insert_loop (timeout : sys_timeo) (ts : list sys_timeo) : list sys_timeo :=
  match ts with
  | [] => []
  | t :: next =>
      let timeout := with_time timeout (u32 (to_time timeout - to_time t)) in
      match next with
      | [] => [t; timeout]
      | n :: rest =>
          if to_time timeout <? to_time n then
            t :: timeout :: with_time n (u32 (to_time n - to_time timeout)) :: rest
          else t :: insert_loop timeout next
      end
  end.

Definition insert_timeout (msecs : Z) (c : callback) (ts : list sys_timeo) : list sys_timeo :=
  match ts with
  | [] => [Timeo msecs c]
  | n :: rest =>
      if msecs <? to_time n then Timeo msecs c :: with_time n (u32 (to_time n - msecs)) :: rest
      else insert_loop (Timeo msecs c) ts
  end.

Definition sys_timeout (msecs : Z) (c : callback) (ts : list sys_timeo) : M (list sys_timeo) :=
  ok <- malloc;;
  _ <- lwip_assert ok;;
  ret (insert_timeout msecs c ts).

Fixpoint sys_untimeout (c : callback) (ts : list sys_timeo) : list sys_timeo :=
  match ts with
  | [] => []
  | t :: next =>
      if bool_decide (to_call t = c) then
        match next with
        | [] => []
        | n :: rest => with_time n (u32 (to_time n + to_time t)) :: rest
        end
      else t :: sys_untimeout c next
  end.

(** What a handler of the user asks for. *)
Inductive timer_op :=
| SetTimeout (msecs : Z) (h : option U) (arg : option addr)
| CancelTimeout (h : option U) (arg : option addr).

Definition user_call (h : option U) (arg : option addr) : callback := (user_handler <$> h, arg).

Definition timer_op_run (o : timer_op) (ts : list sys_timeo) : M (list sys_timeo) :=
  match o with
  | SetTimeout msecs h arg => sys_timeout msecs (user_call h arg) ts
  | CancelTimeout h arg => ret (sys_untimeout (user_call h arg) ts)
  end.

Fixpoint timer_ops_run (os : list timer_op) (ts : list sys_timeo) : M (list sys_timeo) :=
  match os with
  | [] => ret ts
  | o :: os' => ts <- timer_op_run o ts;; timer_ops_run os' ts
  end.

(** ** Waiting *)

Context {W Sem : Type}.

(** [struct sswt_cb] *)
Record sswt_cb : Type := SswtCb { sw_timeflag : Z; sw_sem : Sem }.

(** The list of timeouts, the blocks [sys_sem_wait_timeout] has on the stack
    and the rest of the system. *)
Record sys : Type := Sys
  { s_timeouts : list sys_timeo; s_cbs : gmap addr sswt_cb; s_world : W }.

Variable user : U -> option addr -> W -> W * list timer_op.
Variable sys_sem_signal : Sem -> W -> W.

Definition sswt_run (arg : option addr) (s : sys) : M sys :=
  match arg with
  | None => ub
  | Some a =>
      match s_cbs s !! a with
      | None => ub
      | Some cb =>
          ret (Sys (s_timeouts s) (<[a := SswtCb 1 (sw_sem cb)]> (s_cbs s)) (sys_sem_signal (sw_sem cb) (s_world s)))
      end
  end.

(** [if (h != NULL) h(arg);] *)
Definition call_handler (c : callback) (s : sys) : M sys :=
  match fst c with
  | None => ret s
  | Some (user_handler u) =>
      let '(w, os) := user u (snd c) (s_world s) in
      ts <- timer_ops_run os (s_timeouts s);;
      ret (Sys ts (s_cbs s) w)
  | Some sswt_handler => sswt_run (snd c) s
  end.

(** The loop of [sys_mbox_fetch] and [sys_sem_wait]; [wait] is the function of
    the port, which returns the milliseconds waited or [SYS_ARCH_TIMEOUT]. *)
Fixpoint wait_loop (fuel : nat) (wait : Z -> W -> Z * W) (s : sys) : M sys :=
  match fuel with
  | O => out_of_fuel
  | S fuel' =>
      match s_timeouts s with
      | [] => ret (Sys [] (s_cbs s) (snd (wait 0 (s_world s))))
      | t :: next =>
          let '(time_needed, w) :=
            if 0 <? to_time t then wait (to_time t) (s_world s) else (SYS_ARCH_TIMEOUT, s_world s) in
          if time_needed =? SYS_ARCH_TIMEOUT then
            s <- call_handler (to_call t) (Sys next (s_cbs s) w);;
            wait_loop fuel' wait s
          else
            let left := if time_needed <? to_time t then u32 (to_time t - time_needed) else 0 in
            ret (Sys (with_time t left :: next) (s_cbs s) w)
      end
  end.

Variable sys_arch_mbox_fetch : Z -> W -> Z * W.
Variable sys_arch_sem_wait : Sem -> Z -> W -> Z * W.

Definition sys_mbox_fetch (fuel : nat) (s : sys) : M sys := wait_loop fuel sys_arch_mbox_fetch s.
Definition sys_sem_wait (fuel : nat) (sem : Sem) (s : sys) : M sys := wait_loop fuel (sys_arch_sem_wait sem) s.

(** The value returned, and the state after the block on the stack is gone. *)
Definition sys_sem_wait_timeout (fuel : nat) (sem : Sem) (timeout : Z) (s : sys) : M (Z * sys) :=
  let a := fresh (dom (s_cbs s)) in
  let self := (Some sswt_handler, Some a) in
  let s := Sys (s_timeouts s) (<[a := SswtCb 0 sem]> (s_cbs s)) (s_world s) in
  s <- (if 0 <? timeout then
          ts <- sys_timeout timeout self (s_timeouts s);;
          ret (Sys ts (s_cbs s) (s_world s))
        else ret s);;
  s <- sys_sem_wait fuel sem s;;
  match s_cbs s !! a with
  | None => ub
  | Some cb =>
      if negb (sw_timeflag cb =? 0) then ret (0, Sys (s_timeouts s) (delete a (s_cbs s)) (s_world s))
      else ret (1, Sys (sys_untimeout self (s_timeouts s)) (delete a (s_cbs s)) (s_world s))
  end.

Variable sys_sem_new : Z -> W -> Sem * W.
Variable sys_sem_free : Sem -> W -> W.

Definition sys_msleep (fuel : nat) (ms : Z) (s : sys) : M sys :=
  let '(delaysem, w) := sys_sem_new 0 (s_world s) in
  '(_, s) <- sys_sem_wait_timeout fuel delaysem ms (Sys (s_timeouts s) (s_cbs s) w);;
  ret (Sys (s_timeouts s) (s_cbs s) (sys_sem_free delaysem (s_world s))).
End Timers.

Arguments sys_timeout_handler U : clear implicits.
Arguments callback U : clear implicits.
Arguments sys_timeo U : clear implicits.
Arguments timer_op U : clear implicits.
Arguments sswt_cb Sem : clear implicits.
Arguments sys U W Sem : clear implicits.
