(* ===== verification/TimersSpec.v ===== *)
(** * lwIP: what the timers promise

    The agenda of a thread: the callbacks with the times at which they are
    due, in that order, those that are due together in the order in which
    they were set.  The lists of [Timers] implement it. *)
From Stdlib Require Import ZArith List Lia Bool.
From stdpp Require Import base gmap list.
From S2P Require Import Prelude CMonad Pbuf Timers.
#[local] Open Scope Z_scope.
#[local] Open Scope cmonad_scope.

Section Agenda.
Context {U : Type} `{EqDecision U}.
Implicit Types (ts : list (sys_timeo U)) (c : callback U) (ag : list (Z * callback U)).

(** ** The specification *)

Fixpoint agenda_set (due : Z) c ag : list (Z * callback U) :=
  match ag with
  | [] => [(due, c)]
  | (d, c') :: rest => if due <? d then (due, c) :: ag else (d, c') :: agenda_set due c rest
  end.

Fixpoint agenda_cancel c ag : list (Z * callback U) :=
  match ag with
  | [] => []
  | (d, c') :: rest => if bool_decide (c' = c) then rest else (d, c') :: agenda_cancel c rest
  end.

Definition agenda_op (now : Z) (o : timer_op U) ag : M (list (Z * callback U)) :=
  match o with
  | SetTimeout msecs h arg =>
      ok <- malloc;;
      _ <- lwip_assert ok;;
      ret (agenda_set (now + msecs) (user_call h arg) ag)
  | CancelTimeout h arg => ret (agenda_cancel (user_call h arg) ag)
  end.

Fixpoint agenda_ops (now : Z) (os : list (timer_op U)) ag : M (list (Z * callback U)) :=
  match os with
  | [] => ret ag
  | o :: os' => ag <- agenda_op now o ag;; agenda_ops now os' ag
  end.

(** ** The lists as agendas *)

Fixpoint agenda_of (now : Z) ts : list (Z * callback U) :=
  match ts with
  | [] => []
  | t :: next => (now + to_time t, to_call t) :: agenda_of (now + to_time t) next
  end.

Fixpoint total_time ts : Z :=
  match ts with
  | [] => 0
  | t :: next => to_time t + total_time next
  end.

(** Relative times, with sums that fit into 32 bits. *)
Definition timers_ok ts : Prop := Forall (fun t => 0 <= to_time t) ts /\ total_time ts < 4294967296.

Definition op_ok (o : timer_op U) : Prop :=
  match o with SetTimeout msecs _ _ => 0 <= msecs < 4294967296 | CancelTimeout _ _ => True end.

Lemma total_nonneg ts : Forall (fun t => 0 <= to_time t) ts -> 0 <= total_time ts.
Proof. induction 1; simpl; lia. Qed.

Lemma u32_small x : 0 <= x < 4294967296 -> u32 x = x.
Proof. apply Z.mod_small. Qed.

Lemma timers_ok_cons t ts : timers_ok (t :: ts) -> 0 <= to_time t < 4294967296 /\ timers_ok ts.
Proof.
  intros [Hf Ht]. inversion Hf as [|? ? H0 Hf' E1]; subst. pose proof (total_nonneg _ Hf').
  cbn [total_time] in Ht. repeat split; auto; lia.
Qed.

Lemma insert_loop_spec now c ts m :
  timers_ok ts -> 0 <= m < 4294967296 -> match ts with [] => False | t :: _ => to_time t <= m end ->
  agenda_of now (insert_loop (Timeo m c) ts) = agenda_set (now + m) c (agenda_of now ts) /\
  Forall (fun t => 0 <= to_time t) (insert_loop (Timeo m c) ts) /\
  total_time (insert_loop (Timeo m c) ts) = Z.max (total_time ts) m.
Proof.
  revert now m. induction ts as [|t next IH]; intros now m Hok Hm Hle; [contradiction|].
  destruct (timers_ok_cons _ _ Hok) as [Ht Hn]. pose proof (total_nonneg _ (proj1 Hn)) as Tn.
  cbn [insert_loop]. unfold with_time. cbn [agenda_of agenda_set to_time to_call]. rewrite u32_small by lia.
  case_bool (now + m <? now + to_time t); [lia|].
  destruct next as [|n rest].
  - cbn [agenda_of agenda_set total_time to_time to_call]. replace (now + to_time t + (m - to_time t)) with (now + m) by lia.
    repeat split; [|lia]. repeat constructor; cbn [to_time]; lia.
  - destruct (timers_ok_cons _ _ Hn) as [Hn0 Hr]. pose proof (total_nonneg _ (proj1 Hr)) as Tr.
    cbn [total_time] in *. destruct (Z.ltb_spec (m - to_time t) (to_time n)) as [E0|E0].
    + rewrite u32_small by lia. cbn [agenda_of agenda_set to_time to_call total_time].
      case_bool (now + m <? now + to_time t + to_time n); [|lia].
      replace (now + to_time t + (m - to_time t)) with (now + m) by lia.
      replace (now + m + (to_time n - (m - to_time t))) with (now + to_time t + to_time n) by lia.
      repeat split; [|lia]. destruct Hr. repeat (constructor; [cbn [to_time]; lia|]). assumption.
    + destruct (IH (now + to_time t) (m - to_time t) Hn) as (I1 & I2 & I3); [lia|exact E0|].
      cbn [agenda_of total_time to_time to_call].
      rewrite I1, I3. replace (now + to_time t + (m - to_time t)) with (now + m) by lia.
      repeat split; [|lia]. constructor; [lia|exact I2].
Qed.

Lemma insert_timeout_spec now c ts m :
  timers_ok ts -> 0 <= m < 4294967296 ->
  agenda_of now (insert_timeout m c ts) = agenda_set (now + m) c (agenda_of now ts) /\ timers_ok (insert_timeout m c ts).
Proof.
  intros Hok Hm. destruct ts as [|n rest].
  - repeat split; [|cbn [insert_timeout total_time to_time]; lia]. repeat constructor. cbn [to_time]. lia.
  - destruct (timers_ok_cons _ _ Hok) as [Hn Hr]. unfold insert_timeout.
    destruct (Z.ltb_spec m (to_time n)) as [E|E].
    + rewrite u32_small by lia. unfold with_time. cbn [agenda_of agenda_set to_time to_call].
      case_bool (now + m <? now + to_time n); [|lia].
      replace (now + m + (to_time n - m)) with (now + to_time n) by lia.
      split; [reflexivity|]. destruct Hok as [_ Hs], Hr as [Hr _]. cbn [total_time] in Hs.
      split; [repeat (constructor; [cbn [to_time]; lia|]); assumption|]. cbn [total_time to_time]. lia.
    + destruct (insert_loop_spec now c (n :: rest) m Hok Hm E) as (H1 & H2 & H3).
      split; [exact H1|]. split; [exact H2|]. rewrite H3. destruct Hok. lia.
Qed.

Lemma sys_untimeout_spec now c ts :
  timers_ok ts ->
  agenda_of now (sys_untimeout c ts) = agenda_cancel c (agenda_of now ts) /\
  Forall (fun t => 0 <= to_time t) (sys_untimeout c ts) /\ total_time (sys_untimeout c ts) <= total_time ts.
Proof.
  revert now. induction ts as [|t next IH]; intros now Hok; [repeat split; [constructor|simpl; lia]|].
  destruct (timers_ok_cons _ _ Hok) as [Ht Hn]. cbn [sys_untimeout agenda_of agenda_cancel].
  destruct (bool_decide_reflect (to_call t = c)) as [E|E].
  - destruct next as [|n rest]; [repeat split; [constructor|cbn [total_time]; lia]|].
    destruct (timers_ok_cons _ _ Hn) as [Hn0 Hr]. pose proof (total_nonneg _ (proj1 Hr)) as Tr.
    destruct Hok as [_ Hs]. cbn [total_time] in Hs. rewrite u32_small by lia.
    unfold with_time. cbn [agenda_of to_time to_call total_time].
    replace (now + (to_time n + to_time t)) with (now + to_time t + to_time n) by lia.
    split; [reflexivity|]. destruct Hr as [Hr _]. split; [constructor; [cbn [to_time]; lia|assumption]|lia].
  - destruct (IH (now + to_time t) Hn) as (I1 & I2 & I3). cbn [agenda_of total_time]. rewrite I1.
    repeat split; [constructor; [lia|exact I2]|lia].
Qed.

Lemma untimeout_ok c ts : timers_ok ts -> timers_ok (sys_untimeout c ts).
Proof. intros H. destruct (sys_untimeout_spec 0 c ts H) as (_ & H1 & H2). destruct H. split; [exact H1|lia]. Qed.

(** ** The operations *)

Definition implements (now : Z) ts ag : Prop := timers_ok ts /\ agenda_of now ts = ag.

Lemma timeout_simulates now msecs c ts :
  timers_ok ts -> 0 <= msecs < 4294967296 ->
  simulates (implements now) (sys_timeout msecs c ts)
    (ok <- malloc;; _ <- lwip_assert ok;; ret (agenda_set (now + msecs) c (agenda_of now ts))).
Proof.
  intros Hok Hm. unfold sys_timeout. apply simulates_bind with (R := eq); [now apply simulates_same|].
  intros ok ? <-. apply simulates_bind with (R := eq); [now apply simulates_same|]. intros _ _ _. apply simulates_ret.
  destruct (insert_timeout_spec now c ts msecs Hok Hm). now split.
Qed.

Lemma op_simulates now o ts :
  timers_ok ts -> op_ok o -> simulates (implements now) (timer_op_run o ts) (agenda_op now o (agenda_of now ts)).
Proof.
  intros Hok Ho. destruct o as [msecs h arg|h arg]; cbn [timer_op_run agenda_op].
  - now apply timeout_simulates.
  - apply simulates_ret. split; [now apply untimeout_ok|]. now apply sys_untimeout_spec.
Qed.

Lemma ops_simulates now os ts :
  timers_ok ts -> Forall op_ok os -> simulates (implements now) (timer_ops_run os ts) (agenda_ops now os (agenda_of now ts)).
Proof.
  intros Hok Ho. revert ts Hok. induction Ho as [|o os Ho _ IH]; intros ts Hok; cbn [timer_ops_run agenda_ops].
  - now apply simulates_ret.
  - eapply simulates_bind; [now apply op_simulates|]. intros ts' ag [Hok' <-]. now apply IH.
Qed.
End Agenda.

(** ** Waiting *)

(** The time the rest of the system has waited.  A wait for at most [t]
    milliseconds returns [SYS_ARCH_TIMEOUT] when they are over, or fewer
    milliseconds. *)
Class Waits {W} (clock : W -> Z) (wait : Z -> W -> Z * W) : Prop :=
  wait_law : forall t w, 0 < t < 4294967296 ->
    let '(n, w') := wait t w in
    (n = SYS_ARCH_TIMEOUT /\ clock w' = clock w + t) \/
    (n <> SYS_ARCH_TIMEOUT /\ 0 <= n <= t /\ clock w' = clock w + n).

(** Handlers take no time and set timeouts of 32 bits. *)
Class Handlers {U W} (clock : W -> Z) (user : U -> option addr -> W -> W * list (timer_op U)) : Prop :=
  handler_law : forall u arg w, let '(w', os) := user u arg w in clock w' = clock w /\ Forall op_ok os.

Class Signals {W Sem} (clock : W -> Z) (signal : Sem -> W -> W) : Prop :=
  signal_law : forall sem w, clock (signal sem w) = clock w.

Section Wait.
Context {U W Sem : Type} `{EqDecision U}.
Context (clock : W -> Z) (user : U -> option addr -> W -> W * list (timer_op U)) (signal : Sem -> W -> W).
Context (wait : Z -> W -> Z * W).

(** A thread with its agenda. *)
Record plan : Type := Plan
  { p_agenda : list (Z * callback U); p_cbs : gmap addr (sswt_cb Sem); p_world : W }.

Definition plan_call (c : callback U) (p : plan) : M plan :=
  match c with
  | (None, _) => ret p
  | (Some (user_handler u), arg) =>
      let '(w, os) := user u arg (p_world p) in
      ag <- agenda_ops (clock w) os (p_agenda p);;
      ret (Plan ag (p_cbs p) w)
  | (Some sswt_handler, Some a) =>
      match p_cbs p !! a with
      | None => ub
      | Some cb =>
          ret (Plan (p_agenda p) (<[a := SswtCb 1 (sw_sem cb)]> (p_cbs p)) (signal (sw_sem cb) (p_world p)))
      end
  | (Some sswt_handler, None) => ub
  end.

(** The callbacks of the agenda are called when they are due, until a wait
    ends otherwise. *)
Fixpoint plan_loop (fuel : nat) (p : plan) : M plan :=
  match fuel with
  | O => out_of_fuel
  | S fuel' =>
      match p_agenda p with
      | [] => ret (Plan [] (p_cbs p) (snd (wait 0 (p_world p))))
      | (due, c) :: rest =>
          let '(n, w) :=
            if clock (p_world p) <? due then wait (due - clock (p_world p)) (p_world p)
            else (SYS_ARCH_TIMEOUT, p_world p) in
          if n =? SYS_ARCH_TIMEOUT then
            p <- plan_call c (Plan rest (p_cbs p) w);;
            plan_loop fuel' p
          else ret (Plan ((due, c) :: rest) (p_cbs p) w)
      end
  end.

(** A state of [sys.c] as a plan. *)
Definition plan_of (s : sys U W Sem) : plan :=
  Plan (agenda_of (clock (s_world s)) (s_timeouts s)) (s_cbs s) (s_world s).

Definition is_plan (s : sys U W Sem) (p : plan) : Prop := timers_ok (s_timeouts s) /\ plan_of s = p.

Context `{!Handlers clock user} `{!Signals clock signal} `{!Waits clock wait}.

Lemma call_simulates c s :
  timers_ok (s_timeouts s) -> simulates is_plan (call_handler user signal c s) (plan_call c (plan_of s)).
Proof.
  intros Hok. destruct c as [[[u|]|] arg]; unfold call_handler, plan_call, plan_of; cbn [fst snd p_world p_agenda p_cbs].
  - pose proof (handler_law (clock := clock) u arg (s_world s)) as Hu.
    destruct (user u arg (s_world s)) as [w os]. destruct Hu as [Hc Ho]. rewrite <- Hc.
    eapply simulates_bind; [now apply ops_simulates|]. intros ts ag [Hok' <-]. now apply simulates_ret.
  - unfold sswt_run. destruct arg as [a|]; [|intros h; reflexivity].
    destruct (s_cbs s !! a) as [cb|]; [|intros h; reflexivity]. apply simulates_ret. split; [exact Hok|].
    unfold plan_of. cbn [s_world s_timeouts s_cbs]. now rewrite (signal_law (clock := clock)).
  - now apply simulates_ret.
Qed.

Lemma loop_simulates fuel s :
  timers_ok (s_timeouts s) ->
  simulates is_plan (wait_loop user signal fuel wait s) (plan_loop fuel (plan_of s)).
Proof.
  revert s. induction fuel as [|fuel IH]; intros s Hok; [intros h; reflexivity|].
  cbn [wait_loop plan_loop]. destruct s as [ts cbs w]. unfold plan_of. cbn [s_timeouts s_cbs s_world p_agenda p_cbs p_world] in *.
  destruct ts as [|t next]; [now apply simulates_ret|]. cbn [agenda_of].
  destruct (timers_ok_cons _ _ Hok) as [Ht Hn].
  assert (Hcall : forall w', clock w' = clock w + to_time t ->
            simulates is_plan (s <- call_handler user signal (to_call t) (Sys next cbs w');; wait_loop user signal fuel wait s)
              (p <- plan_call (to_call t) (Plan (agenda_of (clock w + to_time t) next) cbs w');; plan_loop fuel p)).
  { intros w' Hw. rewrite <- Hw. eapply simulates_bind; [exact (call_simulates (to_call t) (Sys next cbs w') Hn)|].
    intros s p [Hs <-]. now apply IH. }
  replace (clock w + to_time t - clock w) with (to_time t) by lia.
  destruct (Z.ltb_spec 0 (to_time t)) as [E|E], (Z.ltb_spec (clock w) (clock w + to_time t)) as [E1|E1]; try lia.
  - pose proof (wait_law (clock := clock) (wait := wait) (to_time t) w ltac:(lia)) as Hw.
    destruct (wait (to_time t) w) as [n w']. destruct Hw as [[-> Hw]|(Hne & Hr & Hw)].
    + rewrite Z.eqb_refl. now apply Hcall.
    + case_bool (n =? SYS_ARCH_TIMEOUT); [congruence|]. apply simulates_ret. unfold is_plan, plan_of. cbn [s_timeouts s_world s_cbs].
      destruct Hok as [Hf Hs]. inversion Hf; subst. cbn [total_time] in Hs. pose proof (total_nonneg _ (proj1 Hn)).
      assert (El : (if n <? to_time t then u32 (to_time t - n) else 0) = to_time t - n).
      { case_bool (n <? to_time t); [rewrite u32_small by lia; reflexivity|lia]. }
      rewrite El. unfold with_time. split.
      * split; [constructor; [cbn [to_time]; lia|assumption]|cbn [total_time to_time]; lia].
      * cbn [agenda_of to_time to_call]. rewrite Hw.
        now replace (clock w + n + (to_time t - n)) with (clock w + to_time t) by lia.
  - rewrite Z.eqb_refl. apply Hcall. lia.
Qed.
End Wait.

(** ** Waiting for a semaphore with a timeout

    The timeouts of [sys_sem_wait_timeout] point to blocks on the stack: to
    blocks that are alive, every one to another block, and to none that was
    signalled. *)

Section Blocks.
Context {U W Sem : Type} `{EqDecision U}.
Implicit Types (ts : list (sys_timeo U)) (c : callback U).

Definition is_sswt c : Prop := fst c = Some sswt_handler.

#[export] Instance is_sswt_dec c : Decision (is_sswt c).
Proof. apply option_eq_dec. Defined.

Definition sswt_part ts : list (callback U) := filter is_sswt (map to_call ts).

Lemma insert_loop_calls m c ts :
  ts <> [] -> exists l1 l2, map to_call ts = l1 ++ l2 /\ map to_call (insert_loop (Timeo m c) ts) = l1 ++ c :: l2.
Proof.
  revert m. induction ts as [|t next IH]; intros m Hne; [contradiction|]. cbn [insert_loop]. unfold with_time.
  destruct next as [|n rest]; [now exists [to_call t], []|]. cbn [to_time to_call].
  destruct (u32 (m - to_time t) <? to_time n); [now exists [to_call t], (map to_call (n :: rest))|].
  destruct (IH (u32 (m - to_time t))) as (l1 & l2 & E1 & E2); [discriminate|]. exists (to_call t :: l1), l2.
  cbn [map] in *. now rewrite E1, E2.
Qed.

Lemma insert_calls m c ts :
  exists l1 l2, map to_call ts = l1 ++ l2 /\ map to_call (insert_timeout m c ts) = l1 ++ c :: l2.
Proof.
  destruct ts as [|n rest]; [now exists [], []|]. unfold insert_timeout.
  destruct (m <? to_time n); [now exists [], (map to_call (n :: rest))|]. now apply insert_loop_calls.
Qed.

Lemma untimeout_calls c ts :
  (~ In c (map to_call ts) /\ sys_untimeout c ts = ts) \/
  exists l1 l2, map to_call ts = l1 ++ c :: l2 /\ map to_call (sys_untimeout c ts) = l1 ++ l2.
Proof.
  induction ts as [|t next IH]; [left; split; [intros []|reflexivity]|]. cbn [sys_untimeout map].
  destruct (bool_decide_reflect (to_call t = c)) as [<-|Hne].
  - right. exists [], (map to_call next). split; [reflexivity|]. now destruct next.
  - destruct IH as [[Hn E]|(l1 & l2 & E1 & E2)].
    + left. split; [intros [H|H]; [now apply Hne|now apply Hn]|now rewrite E].
    + right. exists (to_call t :: l1), l2. cbn [map]. now rewrite E1, E2.
Qed.

Lemma user_not_sswt h arg : ~ is_sswt (user_call (U := U) h arg).
Proof. unfold is_sswt, user_call. destruct h; discriminate. Qed.

(** Handlers of the user leave the timeouts of semaphores alone. *)
Lemma part_insert_user m h arg ts : sswt_part (insert_timeout m (user_call h arg) ts) = sswt_part ts.
Proof.
  unfold sswt_part. destruct (insert_calls m (user_call h arg) ts) as (l1 & l2 & -> & ->).
  rewrite !filter_app, filter_cons_False; [reflexivity|apply user_not_sswt].
Qed.

Lemma part_untimeout_user h arg ts : sswt_part (sys_untimeout (user_call h arg) ts) = sswt_part ts.
Proof.
  destruct (untimeout_calls (user_call h arg) ts) as [[_ ->]|(l1 & l2 & E1 & E2)]; [reflexivity|].
  unfold sswt_part. rewrite E1, E2, !filter_app, filter_cons_False; [reflexivity|apply user_not_sswt].
Qed.

Lemma timer_ops_part os ts E : partial NoFail (timer_ops_run os ts) (fun ts' => sswt_part ts' = sswt_part ts) E.
Proof.
  revert ts. induction os as [|o os IH]; intros ts; cbn [timer_ops_run]; [now apply partial_ret|].
  apply partial_bind with (Q := fun ts' => sswt_part ts' = sswt_part ts).
  - destruct o as [msecs h arg|h arg]; cbn [timer_op_run].
    + unfold sys_timeout. partial_step runs_malloc. intros ok Hok. rewrite (Hok eq_refl). unfold lwip_assert. rewrite bind_ret.
      apply partial_ret, part_insert_user.
    + apply partial_ret, part_untimeout_user.
  - intros ts' Hts. eapply partial_weaken; [apply IH| |auto]. cbv beta. intros a ->. exact Hts.
Qed.

(** ** What a wait does to the blocks *)

Definition blocks : Type := list (callback U) * gmap addr (sswt_cb Sem).

Definition blocks_of (s : sys U W Sem) : blocks := (sswt_part (s_timeouts s), s_cbs s).

(** A timeout fires. *)
Inductive fires : blocks -> blocks -> Prop :=
| fire a q (cbs : gmap addr (sswt_cb Sem)) cb :
    cbs !! a = Some cb -> fires ((Some sswt_handler, Some a) :: q, cbs) (q, <[a := SswtCb 1 (sw_sem cb)]> cbs).

Definition points (cbs : gmap addr (sswt_cb Sem)) c : Prop :=
  exists a cb, c = (Some sswt_handler, Some a) /\ cbs !! a = Some cb /\ sw_timeflag cb = 0.

Definition blocks_ok (b : blocks) : Prop := List.NoDup (fst b) /\ Forall (points (snd b)) (fst b).

Lemma points_insert a cb cbs c : points cbs c -> c <> (Some sswt_handler, Some a) -> points (<[a := cb]> cbs) c.
Proof.
  intros (b & cb' & -> & Hb & Hf) Hne. exists b, cb'. repeat split; [|exact Hf].
  rewrite lookup_insert_ne; [exact Hb|congruence].
Qed.

Lemma fires_ok b b' : fires b b' -> blocks_ok b -> blocks_ok b'.
Proof.
  intros [a q cbs cb Ha] [Hd Hp]. cbn [fst snd] in *. inversion Hd as [|? ? Hni Hd']; subst. inversion Hp; subst.
  split; [exact Hd'|]. cbn [fst snd]. apply Forall_forall. intros c Hc.
  apply points_insert; [eapply Forall_forall; eauto|]. intros ->. apply Hni. now apply list_elem_of_In.
Qed.

(** A block that is watched is never both signalled and pointed to. *)
Definition watched (a : addr) (b : blocks) : Prop :=
  exists cb, snd b !! a = Some cb /\ (sw_timeflag cb <> 0 -> ~ In (Some sswt_handler, Some a) (fst b)).

Lemma fires_dom b b' : fires b b' -> dom (snd b') = dom (snd b).
Proof.
  intros [a q cbs cb Ha]. cbn [snd]. rewrite dom_insert_L. apply elem_of_dom_2 in Ha. set_solver.
Qed.

Lemma fires_untimed a b b' :
  fires b b' -> ~ In (Some sswt_handler, Some a) (fst b) ->
  ~ In (Some sswt_handler, Some a) (fst b') /\ snd b' !! a = snd b !! a.
Proof.
  intros [x q cbs cb Hx] Hn. cbn [fst snd] in *. split; [intros H; apply Hn; now right|].
  apply lookup_insert_ne. intros ->. apply Hn. now left.
Qed.

Context (user : U -> option addr -> W -> W * list (timer_op U)) (signal : Sem -> W -> W).
Context (wait : Z -> W -> Z * W).

Lemma call_fires c s E :
  blocks_ok (sswt_part (Timeo 0 c :: s_timeouts s), s_cbs s) ->
  partial NoFail (call_handler user signal c s)
    (fun s' => rtc fires (sswt_part (Timeo 0 c :: s_timeouts s), s_cbs s) (blocks_of s')) E.
Proof.
  intros [_ Hp]. unfold sswt_part, call_handler, blocks_of in *. cbn [map to_call fst snd] in *.
  destruct c as [[[u|]|] arg]; cbn [fst snd].
  - rewrite filter_cons_False by discriminate. destruct (user u arg (s_world s)) as [w os].
    eapply partial_bind; [apply timer_ops_part|]. cbv beta. intros ts Hts. apply partial_ret.
    unfold sswt_part in Hts. cbn [s_timeouts s_cbs]. unfold sswt_part. rewrite Hts. apply rtc_refl.
  - rewrite filter_cons_True in Hp |- * by reflexivity. inversion Hp as [|? ? (a & cb & Ec & Ha & Hf) _]; subst.
    injection Ec as ->. unfold sswt_run. rewrite Ha. apply partial_ret, rtc_once. now constructor.
  - rewrite filter_cons_False by discriminate. apply partial_ret, rtc_refl.
Qed.

Lemma rtc_fires_ok b b' : rtc fires b b' -> blocks_ok b -> blocks_ok b'.
Proof. induction 1; eauto using fires_ok. Qed.

Lemma part_time m c ts : sswt_part (Timeo m c :: ts) = sswt_part (Timeo 0 c :: ts).
Proof. reflexivity. Qed.

Lemma loop_fires fuel s E :
  blocks_ok (blocks_of s) ->
  partial NoFail (wait_loop user signal fuel wait s) (fun s' => rtc fires (blocks_of s) (blocks_of s')) E.
Proof.
  revert s. induction fuel as [|fuel IH]; intros s Hok; [apply partial_out_of_fuel|]. cbn [wait_loop].
  destruct s as [ts cbs w]. cbn [s_timeouts s_cbs s_world] in *. destruct ts as [|[m c] next]; [now apply partial_ret, rtc_refl|].
  cbn [to_time to_call]. destruct (if 0 <? m then wait m w else (SYS_ARCH_TIMEOUT, w)) as [n w'].
  destruct (n =? SYS_ARCH_TIMEOUT); [|now apply partial_ret, rtc_refl].
  unfold blocks_of in *. cbn [s_timeouts s_cbs] in *. rewrite part_time in *.
  eapply partial_bind; [exact (call_fires c (Sys next cbs w') E Hok)|]. cbv beta. intros s' Hs. cbn [s_timeouts s_cbs] in Hs.
  eapply partial_weaken; [apply IH; now apply (rtc_fires_ok _ _ Hs)| |auto]. cbv beta. intros s2 H2. now transitivity (blocks_of s').
Qed.
End Blocks.
