(* ===== verification/TimersTheorems.v ===== *)
(** * lwIP timers: the properties *)
From Stdlib Require Import ZArith List Lia Bool Sorted.
From stdpp Require Import base gmap list.
From S2P Require Import Prelude CMonad Pbuf Timers TimersSpec.
#[local] Open Scope Z_scope.
#[local] Open Scope cmonad_scope.

(** ** A system for the examples

    The clock, and the time at which a message arrives or the semaphore is
    signalled; a signal makes it now.  The only handler sets itself again. *)

Definition toy_world : Type := Z * Z.
Definition toy_clock (w : toy_world) : Z := fst w.
Definition toy_wait (t : Z) (w : toy_world) : Z * toy_world :=
  let n := Z.max 0 (snd w - fst w) in
  if (t =? 0) || (n <? t) then (n, (fst w + n, snd w)) else (SYS_ARCH_TIMEOUT, (fst w + t, snd w)).
Definition toy_user (u : unit) (arg : option addr) (w : toy_world) : toy_world * list (timer_op unit) :=
  (w, [SetTimeout 250 (Some u) arg]).
Definition toy_signal (_ : unit) (w : toy_world) : toy_world := (fst w, fst w).

#[local] Instance toy_waits : Waits toy_clock toy_wait.
Proof.
  intros t [c m] Ht. unfold toy_wait, toy_clock, SYS_ARCH_TIMEOUT. cbn [fst snd].
  case_bool (t =? 0); [lia|]. case_bool (Z.max 0 (m - c) <? t); cbn [orb fst]; [right|left]; lia.
Qed.

#[local] Instance toy_handlers : Handlers toy_clock toy_user.
Proof. intros u arg w. split; [reflexivity|]. repeat constructor; lia. Qed.

#[local] Instance toy_signals : Signals toy_clock toy_signal.
Proof. intros sem w. reflexivity. Qed.

Definition toy_timers : list (sys_timeo unit) :=
  [Timeo 100 (Some (user_handler tt), None); Timeo 50 (None, None)].

Definition toy_sys : sys unit toy_world unit := Sys toy_timers ∅ (0, 1000).

Lemma toy_timers_ok : timers_ok toy_timers.
Proof. split; [|reflexivity]. repeat (constructor; [discriminate|]). constructor. Qed.

(** ** The agenda *)

Lemma agenda_after {U} now (ts : list (sys_timeo U)) :
  Forall (fun t => 0 <= to_time t) ts -> Forall (Z.le now) (map fst (agenda_of now ts)).
Proof.
  intros H. revert now. induction H as [|t ts Ht _ IH]; intros now; cbn [agenda_of map fst]; constructor; [lia|].
  eapply Forall_impl; [apply IH|]. cbv beta. lia.
Qed.

Lemma agenda_sorted {U} now (ts : list (sys_timeo U)) :
  Forall (fun t => 0 <= to_time t) ts -> StronglySorted Z.le (map fst (agenda_of now ts)).
Proof.
  intros H. revert now. induction H as [|t ts Ht H IH]; intros now; cbn [agenda_of map fst]; constructor; [apply IH|].
  now apply agenda_after.
Qed.

(** C39: The lists of relative times implement the agenda: as absolute times
    they are sorted, without overflow of 32 bits; [sys_timeout] enters a
    callback behind those due earlier or at the same time, [sys_untimeout]
    removes the first that matches and leaves the times of the others; and
    waiting for a message or a semaphore makes the same calls at the same
    times, and ends when and as, the loop over the agenda does. *)
Theorem timers_follow_agenda {U W Sem} `{EqDecision U} (clock : W -> Z) user (signal : Sem -> W -> W)
    fetch sem_wait sem fuel (s : sys U W Sem) :
  Handlers clock user -> Signals clock signal -> Waits clock fetch -> Waits clock (sem_wait sem) ->
  timers_ok (s_timeouts s) ->
  let now := clock (s_world s) in
  let agenda := agenda_of now (s_timeouts s) in
  StronglySorted Z.le (map fst agenda) /\
  (forall msecs c, 0 <= msecs < 4294967296 ->
     simulates (implements now) (sys_timeout msecs c (s_timeouts s))
       (ok <- malloc;; _ <- lwip_assert ok;; ret (agenda_set (now + msecs) c agenda))) /\
  (forall c, implements now (sys_untimeout c (s_timeouts s)) (agenda_cancel c agenda)) /\
  simulates (is_plan clock) (sys_mbox_fetch user signal fetch fuel s) (plan_loop clock user signal fetch fuel (plan_of clock s)) /\
  simulates (is_plan clock) (sys_sem_wait user signal sem_wait fuel sem s)
    (plan_loop clock user signal (sem_wait sem) fuel (plan_of clock s)).
Proof.
  intros Hh Hg Hf Hw Hok. cbv zeta. split; [apply agenda_sorted, Hok|].
  split; [intros; now apply timeout_simulates|].
  split; [intros c; split; [now apply untimeout_ok|now apply sys_untimeout_spec]|].
  split; now apply loop_simulates.
Qed.

Lemma timers_follow_agenda_witness :
  let agenda := [(100, (Some (user_handler tt), None)); (150, (None, None))] in
  StronglySorted Z.le [100; 150] /\
  (forall msecs c, 0 <= msecs < 4294967296 ->
     simulates (implements 0) (sys_timeout msecs c toy_timers)
       (ok <- malloc;; _ <- lwip_assert ok;; ret (agenda_set (0 + msecs) c agenda))) /\
  (forall c, implements 0 (sys_untimeout c toy_timers) (agenda_cancel c agenda)) /\
  simulates (is_plan toy_clock) (sys_mbox_fetch toy_user toy_signal toy_wait 9 toy_sys)
    (plan_loop toy_clock toy_user toy_signal toy_wait 9 (plan_of toy_clock toy_sys)) /\
  simulates (is_plan toy_clock) (sys_sem_wait toy_user toy_signal (fun _ => toy_wait) 9 tt toy_sys)
    (plan_loop toy_clock toy_user toy_signal toy_wait 9 (plan_of toy_clock toy_sys)).
Proof.
  exact (timers_follow_agenda toy_clock toy_user toy_signal toy_wait (fun _ => toy_wait) tt 9 toy_sys
    toy_handlers toy_signals toy_waits toy_waits toy_timers_ok).
Defined.

(** The waits of the example: the handler is called at 100, 350, 600 and 850,
    the message comes at 1000, a hundred milliseconds before the next call. *)
Example toy_run :
  sys_mbox_fetch toy_user toy_signal toy_wait 9 toy_sys [] =
  (Ok (Sys [Timeo 100 (Some (user_handler tt), None)] ∅ (1000, 1000)), []).
Proof. vm_compute. reflexivity. Qed.

(** ** Waiting with a timeout *)

Lemma blocks_delete {U Sem} (q : list (callback U)) (cbs : gmap addr (sswt_cb Sem)) a :
  blocks_ok (q, cbs) -> ~ In (Some sswt_handler, Some a) q -> blocks_ok (q, delete a cbs).
Proof.
  intros [Hd Hp] Hn. split; [exact Hd|]. cbn [fst snd] in *. apply Forall_forall. intros c Hc.
  destruct (proj1 (Forall_forall _ _) Hp c Hc) as (b & cb & -> & Hb & Hf). exists b, cb. repeat split; [|exact Hf].
  rewrite lookup_delete_ne; [exact Hb|]. intros ->. apply Hn. now apply list_elem_of_In.
Qed.

Lemma blocks_new {U Sem} (q q' : list (callback U)) (cbs : gmap addr (sswt_cb Sem)) a sem :
  blocks_ok (q, cbs) -> a ∉ dom cbs -> (q' = q \/ Permutation.Permutation q' ((Some sswt_handler, Some a) :: q)) ->
  blocks_ok (q', <[a := SswtCb 0 sem]> cbs).
Proof.
  intros [Hd Hp] Ha Hq. cbn [fst snd] in *.
  assert (Hne : forall c : callback U, points cbs c -> c <> (Some sswt_handler, Some a)).
  { intros c (b & cb & -> & Hb & _) E. injection E as ->. apply Ha. now apply elem_of_dom_2 in Hb. }
  assert (Hp' : Forall (points (<[a := SswtCb 0 sem]> cbs)) q).
  { eapply Forall_impl; [exact Hp|]. intros c Hc. apply points_insert; [exact Hc|now apply Hne]. }
  destruct Hq as [->|Hq]; [now split|]. split; cbn [fst snd].
  - apply (Permutation.Permutation_NoDup (Permutation.Permutation_sym Hq)). constructor; [|exact Hd].
    intros Hin. apply list_elem_of_In in Hin. now apply (Hne _ (proj1 (Forall_forall _ _) Hp _ Hin)).
  - rewrite Hq. constructor; [|exact Hp']. exists a, (SswtCb 0 sem). rewrite lookup_insert_eq. auto.
Qed.

Lemma part_insert_self {U} `{EqDecision U} m a (ts : list (sys_timeo U)) :
  Permutation.Permutation (sswt_part (insert_timeout m (Some sswt_handler, Some a) ts))
    ((Some sswt_handler, Some a) :: sswt_part ts).
Proof.
  unfold sswt_part. destruct (insert_calls m (Some sswt_handler, Some a) ts) as (l1 & l2 & -> & ->).
  rewrite !filter_app, filter_cons_True by reflexivity. symmetry. apply Permutation.Permutation_middle.
Qed.

(** The entry is not there any more. *)
Lemma part_untimeout_self {U Sem} `{EqDecision U} (ts : list (sys_timeo U)) (cbs : gmap addr (sswt_cb Sem)) a :
  blocks_ok (sswt_part ts, cbs) ->
  let q := sswt_part (sys_untimeout (Some sswt_handler, Some a) ts) in
  blocks_ok (q, cbs) /\ ~ In (Some sswt_handler, Some a) q.
Proof.
  intros [Hd Hp]. cbn [fst snd] in *. unfold sswt_part in *.
  destruct (untimeout_calls (Some sswt_handler, Some a) ts) as [[Hn ->]|(l1 & l2 & E1 & ->)].
  - split; [now split|]. intros Hin. apply Hn. apply list_elem_of_In in Hin. apply list_elem_of_filter in Hin.
    now apply list_elem_of_In.
  - rewrite E1, filter_app, filter_cons_True in Hd, Hp by reflexivity. rewrite filter_app.
    apply NoDup_remove in Hd as [Hd Hn]. split; [|exact Hn]. split; [exact Hd|]. cbn [fst snd].
    apply Forall_app in Hp as [Hp1 Hp2]. inversion Hp2; subst. now apply Forall_app.
Qed.

Lemma rtc_fires_dom {U Sem} (b b' : @blocks U Sem) : rtc fires b b' -> dom (snd b') = dom (snd b).
Proof. induction 1 as [|x y z Hf _ IH]; [reflexivity|]. rewrite IH. now apply fires_dom. Qed.

Lemma rtc_fires_untimed {U Sem} (b b' : @blocks U Sem) a :
  rtc fires b b' -> ~ In (Some sswt_handler, Some a) (fst b) -> snd b' !! a = snd b !! a.
Proof.
  induction 1 as [|x y z Hf _ IH]; intros Hn; [reflexivity|]. destruct (fires_untimed a x y Hf Hn) as [Hn' E].
  now rewrite IH.
Qed.

(** [sys_sem_wait_timeout] leaves no timeout behind that points to its
    block on the stack, whether the semaphore came first or the timeout, and
    whatever other handlers run meanwhile: every timeout of a semaphore wait
    points to a block that is alive and not yet signalled, no two to the same
    one, before and after; without a timeout it never reports one. *)
Theorem sem_wait_timeout_safe {U W Sem} `{EqDecision U} user (signal : Sem -> W -> W) sem_wait fuel sem timeout
    (s : sys U W Sem) :
  blocks_ok (blocks_of s) ->
  partial NoFail (sys_sem_wait_timeout user signal sem_wait fuel sem timeout s)
    (fun '(r, s') => blocks_ok (blocks_of s') /\ dom (s_cbs s') = dom (s_cbs s) /\
       (r = 0 \/ r = 1) /\ (timeout <= 0 -> r = 1)) no_err.
Proof.
  intros Hok. unfold sys_sem_wait_timeout. set (a := fresh (dom (s_cbs s))).
  assert (Ha : a ∉ dom (s_cbs s)) by apply is_fresh. cbv zeta. cbn [s_timeouts s_cbs s_world].
  set (cbs := <[a := SswtCb 0 sem]> (s_cbs s)). set (self := (Some sswt_handler, Some a)).
  assert (Hn : ~ In self (sswt_part (s_timeouts s))).
  { intros Hin. destruct Hok as [_ Hp]. apply list_elem_of_In in Hin.
    destruct (proj1 (Forall_forall _ _) Hp _ Hin) as (b & cb & E & Hb & _). injection E as <-.
    apply Ha. now apply elem_of_dom_2 in Hb. }
  apply partial_bind with (Q := fun s1 => blocks_ok (blocks_of s1) /\ s_cbs s1 = cbs /\
    (timeout <= 0 -> ~ In self (sswt_part (s_timeouts s1)))).
  - case_bool (0 <? timeout).
    + unfold sys_timeout. eapply partial_bind; [|intros ts H; exact H].
      partial_step runs_malloc. intros ok Hok'. rewrite (Hok' eq_refl). unfold lwip_assert. rewrite bind_ret.
      apply partial_ret. apply partial_ret. split; [|split; [reflexivity|lia]].
      apply (blocks_new (sswt_part (s_timeouts s))); [exact Hok|exact Ha|right; apply part_insert_self].
    + apply partial_ret. split; [|split; [reflexivity|intros _; exact Hn]].
      apply (blocks_new (sswt_part (s_timeouts s))); [exact Hok|exact Ha|now left].
  - intros s1 (Hok1 & Ec & Hn1). unfold sys_sem_wait.
    eapply partial_bind; [now apply loop_fires|]. cbv beta. intros s2 Hf.
    pose proof (rtc_fires_ok _ _ Hf Hok1) as Hok2. pose proof (rtc_fires_dom _ _ Hf) as Hd.
    unfold blocks_of in Hok2, Hd. cbn [fst snd] in Hd. rewrite Ec in Hd. unfold cbs in Hd. rewrite dom_insert_L in Hd.
    assert (Hdel : dom (delete a (s_cbs s2)) = dom (s_cbs s)) by (rewrite dom_delete_L, Hd; set_solver).
    assert (Hin : a ∈ dom (s_cbs s2)) by (rewrite Hd; set_solver). apply elem_of_dom in Hin as [cb Hcb]. rewrite Hcb.
    destruct (Z.eqb_spec (sw_timeflag cb) 0) as [Ef|Ef]; cbn [negb].
    + apply partial_ret. destruct (part_untimeout_self _ _ a Hok2) as [Hok3 Hn3].
      split; [apply blocks_delete; [exact Hok3|exact Hn3]|]. auto.
    + apply partial_ret. split; [|split; [exact Hdel|split; [now left|]]].
      * apply blocks_delete; [exact Hok2|]. intros Hi. destruct Hok2 as [_ Hp]. apply list_elem_of_In in Hi.
        destruct (proj1 (Forall_forall _ _) Hp _ Hi) as (b & cb' & E & Hb & Hfl). injection E as <-. cbn [snd] in Hb. congruence.
      * intros Ht. exfalso. pose proof (rtc_fires_untimed _ _ a Hf (Hn1 Ht)) as E. unfold blocks_of in E. cbn [snd] in E.
        rewrite Ec, Hcb in E. unfold cbs in E. rewrite lookup_insert_eq in E. injection E as ->. now apply Ef.
Qed.

Lemma sem_wait_timeout_safe_witness :
  partial NoFail (sys_sem_wait_timeout toy_user toy_signal (fun _ => toy_wait) 9 tt 300 toy_sys)
    (fun '(r, s') => blocks_ok (blocks_of s') /\ dom (s_cbs s') = ∅ /\ (r = 0 \/ r = 1) /\ (300 <= 0 -> r = 1)) no_err.
Proof.
  apply (sem_wait_timeout_safe toy_user toy_signal (fun _ => toy_wait) 9 tt 300 toy_sys).
  split; [constructor|constructor].
Defined.

(** In the example the timeout of 300 milliseconds comes first, and one of
    2000 is cancelled when the semaphore is signalled. *)
Example toy_wait_timeouts :
  fst (sys_sem_wait_timeout toy_user toy_signal (fun _ => toy_wait) 9 tt 300 toy_sys []) =
    Ok (0, Sys [Timeo 50 (Some (user_handler tt), None)] ∅ (300, 300)) /\
  fst (sys_sem_wait_timeout toy_user toy_signal (fun _ => toy_wait) 9 tt 2000 toy_sys []) =
    Ok (1, Sys [Timeo 100 (Some (user_handler tt), None)] ∅ (1000, 1000)).
Proof. split; vm_compute; reflexivity. Qed.

(** [sys_msleep] with no other timeouts: the thread waits [ms] milliseconds
    on a semaphore that nobody else knows, signals it itself and goes on. *)
Lemma sleep_alone {U W Sem} `{EqDecision U} user (signal : Sem -> W -> W) sem_wait sem_new sem_free ms sem
    (w w1 w2 : W) n w3 :
  0 < ms -> sem_new 0 w = (sem, w1) -> sem_wait sem ms w1 = (SYS_ARCH_TIMEOUT, w2) ->
  sem_wait sem 0 (signal sem w2) = (n, w3) ->
  sys_msleep (U := U) user signal sem_wait sem_new sem_free 2 ms (Sys [] ∅ w) [] = (Ok (Sys [] ∅ (sem_free sem w3)), []).
Proof.
  intros Hm En E1 E2. unfold sys_msleep. cbn [s_world]. rewrite En. unfold sys_sem_wait_timeout, sys_sem_wait.
  cbn [s_timeouts s_cbs s_world]. case_bool (0 <? ms); [|lia]. set (a := fresh (dom ∅)).
  unfold sys_timeout. cbn [insert_timeout]. unfold bind at 1 2 3 4 5. cbn [malloc lwip_assert ret fst snd].
  cbn [wait_loop s_timeouts s_cbs s_world to_time to_call]. case_bool (0 <? ms); [|lia]. rewrite E1, Z.eqb_refl.
  unfold call_handler, sswt_run. cbn [fst snd s_cbs s_timeouts s_world]. rewrite lookup_insert_eq. rewrite bind_ret.
  cbn [sw_sem]. cbn [wait_loop s_timeouts s_cbs s_world]. rewrite E2. cbn [snd ret].
  unfold bind, ret. cbn [s_timeouts s_cbs s_world]. rewrite lookup_insert_eq. cbn [sw_timeflag].
  change (negb (1 =? 0)) with true. cbn [s_timeouts s_cbs s_world].
  now rewrite insert_insert_eq, delete_insert_id by reflexivity.
Qed.
