(* ===== verification/Netif.v ===== *)
(** * lwIP: network interfaces and headers in memory

    The fields of [struct netif] of [lwip/src/include/lwip/netif.h] that the
    protocols read, the kinds of addresses an interface tells apart, the
    choice of an interface for a destination ([ip_route] of
    [lwip/src/core/ipv4/ip.c]), and the fields of headers as the bytes of a
    little-endian host. *)
From Stdlib Require Import ZArith List Lia Bool.
From stdpp Require Import base gmap list.
From S2P Require Import Prelude CMonad Pbuf Inet.
#[local] Open Scope Z_scope.
#[local] Open Scope cmonad_scope.

Definition ERR_BUF : Z := -2.
Definition ERR_RTE : Z := -4.

Record netif : Type := Netif
  { nf_ip_addr : Z; nf_netmask : Z; nf_gw : Z; nf_mtu : Z; nf_hwaddr_len : Z; nf_hwaddr : list Z; nf_flags : Z; nf_num : Z }.

#[export] Instance netif_eq_dec : EqDecision netif.
Proof. solve_decision. Defined.

Definition NETIF_FLAG_UP : Z := 0x01.

Definition netif_is_up (n : netif) : bool := negb (Z.land (nf_flags n) NETIF_FLAG_UP =? 0).

Definition ip_addr_isany (a : Z) : bool := a =? 0.
Definition ip_addr_ismulticast (a : Z) : bool := Z.land a (ntohl 0xf0000000) =? ntohl 0xe0000000.

Definition isbroadcast (a : Z) (n : netif) : bool :=
  negb (ip_addr_isbroadcast a (nf_flags n) (nf_ip_addr n) (nf_netmask n) =? 0).

(** ** Fields in memory *)

Definition field16 (x : Z) : list Z := [x mod 256; x / 256 mod 256].
Definition field32 (x : Z) : list Z := [x mod 256; x / 256 mod 256; x / 65536 mod 256; x / 16777216 mod 256].

Definition bytes_at (data : list Z) (i n : nat) : list Z := firstn n (skipn i data).

(** A field as a number of the host. *)
Definition get16 (data : list Z) (i : nat) : Z := le_value (bytes_at data i 2).
Definition get32 (data : list Z) (i : nat) : Z := le_value (bytes_at data i 4).

Lemma field16_value x : 0 <= x < 65536 -> le_value (field16 x) = x.
Proof. intros H. unfold field16. cbn [le_value]. dlia. Qed.

Lemma field32_value x : 0 <= x < 4294967296 -> le_value (field32 x) = x.
Proof. intros H. unfold field32. cbn [le_value]. dlia. Qed.

Lemma bytes_at_app a b i n : length a = i -> bytes_at (a ++ b) i n = firstn n b.
Proof. intros <-. unfold bytes_at. now rewrite skipn_app, skipn_all, Nat.sub_diag. Qed.

(** ** Routes *)

(** [for(netif = netif_list; netif != NULL; netif = netif->next)] *)
Fixpoint route_loop (l : list netif) (dest : Z) : option netif :=
  match l with
  | [] => None
  | n :: l' =>
      if netif_is_up n && ip_addr_netcmp dest (nf_ip_addr n) (nf_netmask n) then Some n else route_loop l' dest
  end.

Definition ip_route (netif_list : list netif) (netif_default : option netif) (dest : Z) : option netif :=
  match route_loop netif_list dest with
  | Some n => Some n
  | None =>
      match netif_default with
      | Some n => if netif_is_up n then Some n else None
      | None => None
      end
  end.

(** ** Sending *)

(** A packet is sent, and the reference to it given up. *)
Definition hand_over {W} (output : netif -> addr -> Z -> store -> W -> M (Z * store * W)) (n : netif) (p : addr) (dest : Z)
    (st : store) (w : W) : M (store * W) :=
  '(_, st, w) <- output n p dest st w;;
  '(_, st) <- pbuf_free (Some p) st;;
  ret (st, w).
