(* ===== verification/Etharp.v ===== *)
(** * lwIP: the address resolution protocol

    [lwip/src/netif/etharp.c] in the configuration of the port: a table of
    ten entries with packet queues, no VLANs, no AutoIP, no DHCP, no SNMP and
    a trusted source address of IP packets.

    The state is the table, the cached index, the store of packet buffers and
    the rest of the system, which [netif->linkoutput] changes: a parameter
    that sees the packet as it is handed over and sends it as it is.  The
    pointer to the interface in an entry, which only SNMP reads, is the number
    of the interface.  [ip_input], a parameter too, may do anything. *)
From Stdlib Require Import ZArith List Lia Bool.
From stdpp Require Import base gmap list.
From S2P Require Import Prelude CMonad Pbuf Inet Netif.
#[local] Open Scope Z_scope.
#[local] Open Scope cmonad_scope.

(** ** Data *)

Definition ARP_TABLE_SIZE : nat := 10.
Definition ARP_MAXAGE : Z := 240.
Definition ARP_MAXPENDING : Z := 2.
Definition HWTYPE_ETHERNET : Z := 1.
Definition ETHARP_TRY_HARD : Z := 1.
Definition ETHARP_FIND_ONLY : Z := 2.
Definition ETHARP_HWADDR_LEN : Z := 6.
Definition SIZEOF_ETH_HDR : Z := 14.
Definition SIZEOF_ETHARP_PACKET : Z := SIZEOF_ETH_HDR + 28.
Definition ETHTYPE_ARP : Z := 0x0806.
Definition ETHTYPE_IP : Z := 0x0800.
Definition ARP_REQUEST : Z := 1.
Definition ARP_REPLY : Z := 2.

Inductive etharp_state := ETHARP_STATE_EMPTY | ETHARP_STATE_PENDING | ETHARP_STATE_STABLE.

#[export] Instance etharp_state_eq_dec : EqDecision etharp_state.
Proof. solve_decision. Defined.

(** The queue is the list of its packets; every entry of it is a block of its
    own that only the queue points to. *)
Record etharp_entry : Type := Entry
  { ae_q : list addr; ae_ipaddr : Z; ae_ethaddr : list Z; ae_state : etharp_state; ae_ctime : Z; ae_netif : Z }.

Definition ethbroadcast : list Z := [255; 255; 255; 255; 255; 255].
Definition ethzero : list Z := [0; 0; 0; 0; 0; 0].

Definition with_state (e : etharp_entry) (x : etharp_state) : etharp_entry :=
  Entry (ae_q e) (ae_ipaddr e) (ae_ethaddr e) x (ae_ctime e) (ae_netif e).
Definition with_q (e : etharp_entry) (q : list addr) : etharp_entry :=
  Entry q (ae_ipaddr e) (ae_ethaddr e) (ae_state e) (ae_ctime e) (ae_netif e).
Definition with_ctime (e : etharp_entry) (c : Z) : etharp_entry :=
  Entry (ae_q e) (ae_ipaddr e) (ae_ethaddr e) (ae_state e) c (ae_netif e).

Definition has_state (e : etharp_entry) (x : etharp_state) : bool := bool_decide (ae_state e = x).

(** ** Queues *)

Fixpoint free_q_loop (q : list addr) (st : store) : M store :=
  match q with
  | [] => ret st
  | p :: q' => '(_, st) <- pbuf_free (Some p) st;; free_q_loop q' st
  end.

Definition free_etharp_q (q : list addr) (st : store) : M store :=
  _ <- lwip_assert (negb (length q =? 0)%nat);;
  free_q_loop q st.

(** ** Expiry *)

(** One turn of the loop of [etharp_tmr]. *)
Definition tmr_entry (e : etharp_entry) (st : store) : M (etharp_entry * store) :=
  let e := with_ctime e (u8 (ae_ctime e + 1)) in
  if (has_state e ETHARP_STATE_STABLE && (ARP_MAXAGE <=? ae_ctime e)) ||
     (has_state e ETHARP_STATE_PENDING && (ARP_MAXPENDING <=? ae_ctime e)) then
    '(e, st) <-
      (match ae_q e with
       | [] => ret (e, st)
       | q => st <- free_etharp_q q st;; ret (with_q e [], st)
       end);;
    ret (with_state e ETHARP_STATE_EMPTY, st)
  else ret (e, st).

Fixpoint tmr_loop (t : list etharp_entry) (st : store) : M (list etharp_entry * store) :=
  match t with
  | [] => ret ([], st)
  | e :: t' =>
      '(e, st) <- tmr_entry e st;;
      '(t', st) <- tmr_loop t' st;;
      ret (e :: t', st)
  end.

(** ** The search *)

(** The candidates of the sweep; [ARP_TABLE_SIZE] stands for none. *)
Record candidates : Type := Candidates
  { c_empty : nat; c_stable : nat; c_age_stable : Z; c_pending : nat; c_age_pending : Z;
    c_queue : nat; c_age_queue : Z }.

Definition no_candidates : candidates :=
  Candidates ARP_TABLE_SIZE ARP_TABLE_SIZE 0 ARP_TABLE_SIZE 0 ARP_TABLE_SIZE 0.

Definition matches (ipaddr : option Z) (e : etharp_entry) : bool :=
  match ipaddr with Some a => a =? ae_ipaddr e | None => false end.

(** The entries from [i] on: the index of a match, or the candidates. *)
Fixpoint sweep (ipaddr : option Z) (i : nat) (t : list etharp_entry) (c : candidates) : nat + candidates :=
  match t with
  | [] => inr c
  | e :: t' =>
      if (c_empty c =? ARP_TABLE_SIZE)%nat && has_state e ETHARP_STATE_EMPTY then
        sweep ipaddr (S i) t'
          (Candidates i (c_stable c) (c_age_stable c) (c_pending c) (c_age_pending c) (c_queue c) (c_age_queue c))
      else if has_state e ETHARP_STATE_PENDING then
        if matches ipaddr e then inl i
        else if negb (length (ae_q e) =? 0)%nat then
          sweep ipaddr (S i) t'
            (if c_age_queue c <=? ae_ctime e then
               Candidates (c_empty c) (c_stable c) (c_age_stable c) (c_pending c) (c_age_pending c) i (ae_ctime e)
             else c)
        else
          sweep ipaddr (S i) t'
            (if c_age_pending c <=? ae_ctime e then
               Candidates (c_empty c) (c_stable c) (c_age_stable c) i (ae_ctime e) (c_queue c) (c_age_queue c)
             else c)
      else if has_state e ETHARP_STATE_STABLE then
        if matches ipaddr e then inl i
        else
          sweep ipaddr (S i) t'
            (if c_age_stable c <=? ae_ctime e then
               Candidates (c_empty c) i (ae_ctime e) (c_pending c) (c_age_pending c) (c_queue c) (c_age_queue c)
             else c)
      else sweep ipaddr (S i) t' c
  end.

(** ** The protocol *)

Section Etharp.
Context {W : Type}.

Record arp : Type := Arp
  { arp_table : list etharp_entry; etharp_cached_entry : nat; arp_store : store; arp_world : W }.

(** What fresh memory holds. *)
Variable junk : nat -> Z.
Variable linkoutput : netif -> addr -> store -> W -> Z * W.

Definition entry (s : arp) (i : nat) : M etharp_entry :=
  match arp_table s !! i with Some e => ret e | None => ub end.

Definition set_entry (i : nat) (e : etharp_entry) (s : arp) : arp :=
  Arp (<[i := e]> (arp_table s)) (etharp_cached_entry s) (arp_store s) (arp_world s).
Definition set_store (st : store) (s : arp) : arp := Arp (arp_table s) (etharp_cached_entry s) st (arp_world s).
Definition set_cached (i : nat) (s : arp) : arp := Arp (arp_table s) i (arp_store s) (arp_world s).

Definition etharp_tmr (s : arp) : M arp :=
  '(t, st) <- tmr_loop (arp_table s) (arp_store s);;
  ret (Arp t (etharp_cached_entry s) st (arp_world s)).

(** b) choose the least destructive entry to recycle. *)
Definition choose_entry (c : candidates) (s : arp) : M (option nat * arp) :=
  if (c_empty c <? ARP_TABLE_SIZE)%nat then ret (Some (c_empty c), s)
  else if (c_stable c <? ARP_TABLE_SIZE)%nat then
    e <- entry s (c_stable c);;
    _ <- lwip_assert (length (ae_q e) =? 0)%nat;;
    ret (Some (c_stable c), s)
  else if (c_pending c <? ARP_TABLE_SIZE)%nat then ret (Some (c_pending c), s)
  else if (c_queue c <? ARP_TABLE_SIZE)%nat then
    e <- entry s (c_queue c);;
    st <- free_etharp_q (ae_q e) (arp_store s);;
    ret (Some (c_queue c), set_entry (c_queue c) (with_q e []) (set_store st s))
  else ret (None, s).

(** c) create new entry. *)
Definition create_entry (ipaddr : option Z) (i : nat) (s : arp) : M arp :=
  e <- entry s i;;
  let ip := match ipaddr with Some a => a | None => ae_ipaddr e end in
  ret (set_cached i (set_entry i (Entry (ae_q e) ip (ae_ethaddr e) ETHARP_STATE_EMPTY 0 (ae_netif e)) s)).

Definition search_entry (ipaddr : option Z) (flags : Z) (s : arp) : M (Z * arp) :=
  match sweep ipaddr 0 (arp_table s) no_candidates with
  | inl i => ret (Z.of_nat i, set_cached i s)
  | inr c =>
      if ((c_empty c =? ARP_TABLE_SIZE)%nat && (Z.land flags ETHARP_TRY_HARD =? 0)) ||
         negb (Z.land flags ETHARP_FIND_ONLY =? 0) then ret (ERR_MEM, s)
      else
        '(i, s) <- choose_entry c s;;
        match i with
        | None => ret (ERR_MEM, s)
        | Some i =>
            _ <- lwip_assert (i <? ARP_TABLE_SIZE)%nat;;
            s <- create_entry ipaddr i s;;
            ret (Z.of_nat i, s)
        end
  end.

Definition find_entry (ipaddr : option Z) (flags : Z) (s : arp) : M (Z * arp) :=
  match ipaddr with
  | None => search_entry ipaddr flags s
  | Some _ =>
      e <- entry s (etharp_cached_entry s);;
      if has_state e ETHARP_STATE_STABLE && matches ipaddr e then ret (Z.of_nat (etharp_cached_entry s), s)
      else search_entry ipaddr flags s
  end.

(** ** Sending *)

Definition etharp_send_ip (n : netif) (p : addr) (src dst : list Z) (s : arp) : M (Z * arp) :=
  x <- fetch (arp_store s) (Some p);;
  _ <- lwip_assert (nf_hwaddr_len n =? ETHARP_HWADDR_LEN);;
  st <- save (arp_store s) (pb_payload x) 0 (dst ++ src ++ field16 (htons ETHTYPE_IP));;
  let '(err, w) := linkoutput n p st (arp_world s) in
  ret (err, Arp (arp_table s) (etharp_cached_entry s) st w).

(** [while (arp_table[i].q != NULL)] *)
Fixpoint send_q_loop (n : netif) (i : nat) (ethaddr : list Z) (q : list addr) (s : arp) : M arp :=
  match q with
  | [] => ret s
  | p :: q' =>
      e <- entry s i;;
      let s := set_entry i (with_q e q') s in
      '(_, s) <- etharp_send_ip n p (nf_hwaddr n) ethaddr s;;
      '(_, st) <- pbuf_free (Some p) (arp_store s);;
      send_q_loop n i ethaddr q' (set_store st s)
  end.

Definition update_arp_entry (n : netif) (ipaddr : Z) (ethaddr : list Z) (flags : Z) (s : arp) : M (Z * arp) :=
  _ <- lwip_assert (nf_hwaddr_len n =? ETHARP_HWADDR_LEN);;
  if ip_addr_isany ipaddr || isbroadcast ipaddr n || ip_addr_ismulticast ipaddr then ret (ERR_ARG, s)
  else
    '(i, s) <- find_entry (Some ipaddr) flags s;;
    if i <? 0 then ret (i, s)
    else
      let i := Z.to_nat i in
      e <- entry s i;;
      let s := set_entry i (Entry (ae_q e) (ae_ipaddr e) ethaddr ETHARP_STATE_STABLE 0 (nf_num n)) s in
      s <- send_q_loop n i ethaddr (ae_q e) s;;
      ret (ERR_OK, s).

(** The index, with the addresses [*eth_ret] and [*ip_ret] point to. *)
Definition etharp_find_addr (ipaddr : Z) (s : arp) : M (Z * option (list Z * Z) * arp) :=
  '(i, s) <- find_entry (Some ipaddr) ETHARP_FIND_ONLY s;;
  if 0 <=? i then
    e <- entry s (Z.to_nat i);;
    if has_state e ETHARP_STATE_STABLE then ret (i, Some (ae_ethaddr e, ae_ipaddr e), s)
    else ret (-1, None, s)
  else ret (-1, None, s).

(** An ARP packet as it lies in memory. *)
Definition arp_packet (ethdst ethsrc : list Z) (opcode : Z) (shwaddr : list Z) (sipaddr : Z)
    (dhwaddr : list Z) (dipaddr : Z) : list Z :=
  ethdst ++ ethsrc ++ field16 (htons ETHTYPE_ARP) ++
  field16 (htons HWTYPE_ETHERNET) ++ field16 (htons ETHTYPE_IP) ++
  field16 (htons (Z.lor (Z.shiftl ETHARP_HWADDR_LEN 8) 4)) ++ field16 (htons opcode) ++
  shwaddr ++ field32 sipaddr ++ dhwaddr ++ field32 dipaddr.

Definition etharp_raw (n : netif) (ethsrc ethdst hwsrc : list Z) (ipsrc : Z) (hwdst : list Z) (ipdst opcode : Z)
    (s : arp) : M (Z * arp) :=
  '(p, st) <- pbuf_alloc junk PBUF_RAW SIZEOF_ETHARP_PACKET PBUF_RAM (arp_store s);;
  match p with
  | None => ret (ERR_MEM, set_store st s)
  | Some p =>
      x <- fetch st (Some p);;
      _ <- lwip_assert (SIZEOF_ETHARP_PACKET <=? pb_len x);;
      _ <- lwip_assert (nf_hwaddr_len n =? ETHARP_HWADDR_LEN);;
      st <- save st (pb_payload x) 0 (arp_packet ethdst ethsrc opcode hwsrc ipsrc hwdst ipdst);;
      let '(result, w) := linkoutput n p st (arp_world s) in
      '(_, st) <- pbuf_free (Some p) st;;
      ret (result, Arp (arp_table s) (etharp_cached_entry s) st w)
  end.

Definition etharp_request (n : netif) (ipaddr : Z) (s : arp) : M (Z * arp) :=
  etharp_raw n (nf_hwaddr n) ethbroadcast (nf_hwaddr n) (nf_ip_addr n) ethzero ipaddr ARP_REQUEST s.

(** [while (p)]: the first pbuf that is not in ROM, for which the packet must
    be copied. *)
Fixpoint copy_needed (fuel : nat) (p : option addr) (st : store) : M (option addr) :=
  match p with
  | None => ret None
  | Some _ =>
      match fuel with
      | O => out_of_fuel
      | S fuel' =>
          x <- fetch st p;;
          _ <- lwip_assert (negb (pb_len x =? pb_tot_len x) || bool_decide (pb_next x = None));;
          if bool_decide (pb_type x = PBUF_ROM) then copy_needed fuel' (pb_next x) st else ret p
      end
  end.

(** The packet to queue: a copy of [q], as long as [p->tot_len] for the pbuf
    at which the loop stopped, or [q] with a further reference. *)
Definition take_over (q : addr) (st : store) : M (option addr * store) :=
  p <- copy_needed (walk_fuel st) (Some q) st;;
  match p with
  | Some _ =>
      x <- fetch st p;;
      '(p, st) <- pbuf_alloc junk PBUF_RAW (pb_tot_len x) PBUF_RAM st;;
      match p with
      | None => ret (None, st)
      | Some _ =>
          '(err, st) <- pbuf_copy p (Some q) st;;
          if err =? ERR_OK then ret (p, st)
          else '(_, st) <- pbuf_free p st;; ret (None, st)
      end
  | None =>
      st <- pbuf_ref (Some q) st;;
      ret (Some q, st)
  end.

Definition queue_packet (i : nat) (q : addr) (result : Z) (s : arp) : M (Z * arp) :=
  '(p, st) <- take_over q (arp_store s);;
  match p with
  | None => ret (result, set_store st s)
  | Some p =>
      ok <- malloc;;
      if (ok : bool) then
        e <- entry s i;;
        ret (ERR_OK, set_entry i (with_q e (ae_q e ++ [p])) (set_store st s))
      else
        '(_, st) <- pbuf_free (Some p) st;;
        ret (result, set_store st s)
  end.

Definition etharp_query (n : netif) (ipaddr : Z) (q : option addr) (s : arp) : M (Z * arp) :=
  if isbroadcast ipaddr n || ip_addr_ismulticast ipaddr || ip_addr_isany ipaddr then ret (ERR_ARG, s)
  else
    '(i, s) <- find_entry (Some ipaddr) ETHARP_TRY_HARD s;;
    if i <? 0 then ret (i, s)
    else
      let i := Z.to_nat i in
      e <- entry s i;;
      let s := if has_state e ETHARP_STATE_EMPTY then set_entry i (with_state e ETHARP_STATE_PENDING) s else s in
      e <- entry s i;;
      _ <- lwip_assert (has_state e ETHARP_STATE_PENDING || has_state e ETHARP_STATE_STABLE);;
      '(result, s) <-
        (if has_state e ETHARP_STATE_PENDING || bool_decide (q = None) then etharp_request n ipaddr s
         else ret (ERR_MEM, s));;
      match q with
      | None => ret (result, s)
      | Some q =>
          if has_state e ETHARP_STATE_STABLE then etharp_send_ip n q (nf_hwaddr n) (ae_ethaddr e) s
          else if has_state e ETHARP_STATE_PENDING then queue_packet i q result s
          else ret (result, s)
      end.

Definition multicast_hwaddr (ipaddr : Z) : list Z :=
  let h := ntohl ipaddr in
  [0x01; 0x00; 0x5e; Z.land (Z.land (u16 (Z.shiftr h 16)) 0xff) 0x7f; Z.land (u16 (Z.shiftr h 8)) 0xff; Z.land (u16 h) 0xff].

Definition etharp_output (n : netif) (q : addr) (ipaddr : Z) (s : arp) : M (Z * arp) :=
  '(failed, st) <- pbuf_header (Some q) SIZEOF_ETH_HDR (arp_store s);;
  let s := set_store st s in
  if negb (failed =? 0) then ret (ERR_BUF, s)
  else if isbroadcast ipaddr n then etharp_send_ip n q (nf_hwaddr n) ethbroadcast s
  else if ip_addr_ismulticast ipaddr then etharp_send_ip n q (nf_hwaddr n) (multicast_hwaddr ipaddr) s
  else if negb (ip_addr_netcmp ipaddr (nf_ip_addr n) (nf_netmask n)) then
    if negb (nf_gw n =? 0) then etharp_query n (nf_gw n) (Some q) s else ret (ERR_RTE, s)
  else etharp_query n ipaddr (Some q) s.

(** ** Receiving *)

Definition etharp_ip_input (n : netif) (p : addr) (s : arp) : M arp :=
  x <- fetch (arp_store s) (Some p);;
  src <- load (arp_store s) (pb_payload x) (SIZEOF_ETH_HDR + 12) 4;;
  let src := le_value src in
  if negb (ip_addr_netcmp src (nf_ip_addr n) (nf_netmask n)) then ret s
  else
    ethsrc <- load (arp_store s) (pb_payload x) 6 6;;
    '(_, s) <- update_arp_entry n src ethsrc 0 s;;
    ret s.

(** The reply is written over the request. *)
Definition arp_reply (n : netif) (ethaddr : list Z) (p : addr) (s : arp) : M arp :=
  x <- fetch (arp_store s) (Some p);;
  data <- load (arp_store s) (pb_payload x) 0 SIZEOF_ETHARP_PACKET;;
  _ <- lwip_assert (nf_hwaddr_len n =? ETHARP_HWADDR_LEN);;
  let shwaddr := bytes_at data 22 6 in
  st <- save (arp_store s) (pb_payload x) 0
    (shwaddr ++ ethaddr ++ bytes_at data 12 8 ++ field16 (htons ARP_REPLY) ++
     ethaddr ++ field32 (nf_ip_addr n) ++ shwaddr ++ bytes_at data 28 4);;
  let '(_, w) := linkoutput n p st (arp_world s) in
  ret (Arp (arp_table s) (etharp_cached_entry s) st w).

Definition free_packet (p : addr) (s : arp) : M arp :=
  '(_, st) <- pbuf_free (Some p) (arp_store s);;
  ret (set_store st s).

(** [hwtype], [_hwlen_protolen], [proto] of the header and the type of the frame. *)
Definition arp_header_ok (data : list Z) : bool :=
  (le_value (bytes_at data 14 2) =? htons HWTYPE_ETHERNET) &&
  (le_value (bytes_at data 18 2) =? htons (Z.lor (Z.shiftl ETHARP_HWADDR_LEN 8) 4)) &&
  (le_value (bytes_at data 16 2) =? htons ETHTYPE_IP) &&
  (le_value (bytes_at data 12 2) =? htons ETHTYPE_ARP).

Definition etharp_arp_input (n : netif) (ethaddr : list Z) (p : addr) (s : arp) : M arp :=
  x <- fetch (arp_store s) (Some p);;
  if pb_len x <? SIZEOF_ETHARP_PACKET then free_packet p s
  else
    data <- load (arp_store s) (pb_payload x) 0 SIZEOF_ETHARP_PACKET;;
    if negb (arp_header_ok data) then free_packet p s
    else
      let sipaddr := le_value (bytes_at data 28 4) in
      let dipaddr := le_value (bytes_at data 38 4) in
      let for_us := if nf_ip_addr n =? 0 then false else dipaddr =? nf_ip_addr n in
      '(_, s) <- update_arp_entry n sipaddr (bytes_at data 22 6) (if for_us then ETHARP_TRY_HARD else 0) s;;
      opcode <- load (arp_store s) (pb_payload x) 20 2;;
      s <- (if (htons (le_value opcode) =? ARP_REQUEST) && for_us then arp_reply n ethaddr p s else ret s);;
      free_packet p s.

Variable ip_input : addr -> netif -> arp -> M arp.

Definition ethernet_input (p : addr) (n : netif) (s : arp) : M arp :=
  x <- fetch (arp_store s) (Some p);;
  type <- load (arp_store s) (pb_payload x) 12 2;;
  let type := htons (le_value type) in
  if type =? ETHTYPE_IP then
    s <- etharp_ip_input n p s;;
    '(failed, st) <- pbuf_header (Some p) (- SIZEOF_ETH_HDR) (arp_store s);;
    let s := set_store st s in
    if negb (failed =? 0) then throw ABORT else ip_input p n s
  else if type =? ETHTYPE_ARP then etharp_arp_input n (nf_hwaddr n) p s
  else free_packet p s.
End Etharp.

Arguments arp W : clear implicits.
