(* ===== verification/EtharpTable.v ===== *)
(** * lwIP: the ARP table

    The invariant of the table and of the packets in its queues, the search
    for an entry and the choice of the one that is recycled. *)
From Stdlib Require Import ZArith List Lia Bool.
From stdpp Require Import base gmap list.
From S2P Require Import Prelude CMonad Pbuf PbufChain PbufData PbufEdit PbufAlloc.
From S2P Require Import Inet Netif Etharp.
#[local] Open Scope Z_scope.
#[local] Open Scope cmonad_scope.

(** ** The invariant *)

Definition used (e : etharp_entry) : Prop := ae_state e <> ETHARP_STATE_EMPTY.

(** Only pending entries have packets; the ages are below their limits. *)
Record entry_ok (e : etharp_entry) : Prop := EntryOk
  { eo_queue : ae_state e <> ETHARP_STATE_PENDING -> ae_q e = [];
    eo_ctime : 0 <= ae_ctime e < 256;
    eo_stable : ae_state e = ETHARP_STATE_STABLE -> ae_ctime e < ARP_MAXAGE /\ length (ae_ethaddr e) = 6%nat;
    eo_pending : ae_state e = ETHARP_STATE_PENDING -> ae_ctime e < ARP_MAXPENDING }.

(** No two entries in use have the same address. *)
Definition distinct (t : list etharp_entry) : Prop :=
  forall i j e e', t !! i = Some e -> t !! j = Some e' -> used e -> used e' -> ae_ipaddr e = ae_ipaddr e' -> i = j.

Record table_ok (t : list etharp_entry) : Prop := TableOk
  { to_size : length t = ARP_TABLE_SIZE; to_entries : Forall entry_ok t; to_distinct : distinct t }.

Definition queues (t : list etharp_entry) : list addr := concat (map ae_q t).

(** A packet in a queue: a copy in one pbuf that belongs to the queue, with
    room for the Ethernet header. *)
Definition queued (st : store) (p : addr) : Prop :=
  exists x, st_pbufs st !! p = Some x /\ pb_next x = None /\ owns (p, x) /\ valid (st_mem st) x /\
    pb_tot_len x = pb_len x /\ SIZEOF_ETH_HDR <= pb_len x < 65536 /\ pb_ref x = 1.

Definition packets_ok (st : store) (ps : list addr) : Prop := List.NoDup ps /\ Forall (queued st) ps.

Record arp_ok {W} (s : arp W) : Prop := ArpOk
  { ao_table : table_ok (arp_table s); ao_cached : (etharp_cached_entry s < ARP_TABLE_SIZE)%nat;
    ao_packets : packets_ok (arp_store s) (queues (arp_table s)) }.

(** ** Lists of entries *)

Lemma has_state_true e x : has_state e x = true <-> ae_state e = x.
Proof. unfold has_state. apply bool_decide_eq_true. Qed.

Lemma has_state_false e x : has_state e x = false <-> ae_state e <> x.
Proof. unfold has_state. apply bool_decide_eq_false. Qed.

Lemma queues_app t1 t2 : queues (t1 ++ t2) = queues t1 ++ queues t2.
Proof. unfold queues. now rewrite map_app, concat_app. Qed.

Lemma in_queues t i e p : t !! i = Some e -> In p (ae_q e) -> In p (queues t).
Proof.
  intros He Hp. apply in_concat. exists (ae_q e). split; [|exact Hp]. apply in_map, list_elem_of_In.
  now apply list_elem_of_lookup_2 in He.
Qed.

(** An entry in the middle. *)
Lemma queues_at t i e : t !! i = Some e ->
  exists q1 q2, queues t = q1 ++ ae_q e ++ q2 /\ forall e', queues (<[i := e']> t) = q1 ++ ae_q e' ++ q2.
Proof.
  intros He. exists (queues (take i t)), (queues (drop (S i) t)). pose proof (lookup_lt_Some _ _ _ He) as Hl.
  split.
  - rewrite <- (take_drop_middle t i e He) at 1. now rewrite queues_app.
  - intros e'. rewrite insert_take_drop by exact Hl. now rewrite queues_app.
Qed.

Lemma queues_same_q t i e e' : t !! i = Some e -> ae_q e' = ae_q e -> queues (<[i := e']> t) = queues t.
Proof. intros He Hq. destruct (queues_at t i e He) as (q1 & q2 & -> & E). now rewrite E, Hq. Qed.

Lemma packets_perm st ps ps' : Permutation.Permutation ps ps' -> packets_ok st ps -> packets_ok st ps'.
Proof.
  intros Hp [Hd Hf]. split; [now apply (Permutation.Permutation_NoDup Hp)|]. now rewrite <- Hp.
Qed.

Lemma packets_tail st p ps : packets_ok st (p :: ps) -> queued st p /\ ~ In p ps /\ packets_ok st ps.
Proof. intros [Hd Hf]. inversion Hd; subst. inversion Hf; subst. repeat split; assumption. Qed.

(** A packet depends on its pbuf and its block only. *)
Lemma queued_ext st st' p :
  st_pbufs st' !! p = st_pbufs st !! p -> st_mem st' !! p = st_mem st !! p -> queued st p -> queued st' p.
Proof.
  intros Ep Em (x & H1 & H2 & (o & Ho) & H4 & H5). exists x. rewrite Ep. cbn [fst snd] in Ho.
  split; [exact H1|]. split; [exact H2|]. split; [now exists o|]. split; [|exact H5].
  unfold valid in *. rewrite Ho in *. unfold block in *. now rewrite Em.
Qed.

Lemma packets_ext st st' ps :
  (forall p, In p ps -> st_pbufs st' !! p = st_pbufs st !! p /\ st_mem st' !! p = st_mem st !! p) ->
  packets_ok st ps -> packets_ok st' ps.
Proof.
  intros He [Hd Hf]. split; [exact Hd|]. rewrite Forall_forall in *. intros p Hp.
  destruct (He p) as [E1 E2]; [now apply list_elem_of_In|]. apply (queued_ext st); auto.
Qed.

(** A queued packet is freed as a whole. *)
Lemma free_queued st p : queued st p -> pbuf_free (Some p) st = ret (1, free_block p st).
Proof.
  intros (x & Hx & Hn & _ & _ & _ & _ & Hr).
  assert (Hc : chain (st_pbufs st) (Some p) [(p, x)]) by (constructor; [exact Hx|rewrite Hn; constructor]).
  rewrite (pbuf_free_chain st p _ Hc) by (constructor; [cbn [snd]; lia|constructor]).
  cbn [freed]. rewrite Hr. reflexivity.
Qed.

Lemma free_block_other st p b : b <> p ->
  st_pbufs (free_block p st) !! b = st_pbufs st !! b /\ st_mem (free_block p st) !! b = st_mem st !! b.
Proof. intros H. unfold free_block. cbn [st_pbufs st_mem]. now rewrite !lookup_delete_ne by congruence. Qed.

Fixpoint free_blocks (ps : list addr) (st : store) : store :=
  match ps with
  | [] => st
  | p :: ps' => free_blocks ps' (free_block p st)
  end.

Lemma free_blocks_other ps st b : ~ In b ps ->
  st_pbufs (free_blocks ps st) !! b = st_pbufs st !! b /\ st_mem (free_blocks ps st) !! b = st_mem st !! b.
Proof.
  revert st. induction ps as [|p ps IH]; intros st Hn; [auto|]. cbn [free_blocks].
  destruct (IH (free_block p st)) as [-> ->]; [intros H; apply Hn; now right|].
  apply free_block_other. intros ->. apply Hn. now left.
Qed.

Lemma packets_free st ps p : packets_ok st (p :: ps) -> packets_ok (free_block p st) ps.
Proof.
  intros H. destruct (packets_tail _ _ _ H) as (_ & Hn & Hp). eapply packets_ext; [|exact Hp].
  intros b Hb. apply free_block_other. intros ->. contradiction.
Qed.

Lemma free_q_loop_spec q rest st :
  packets_ok st (q ++ rest) -> free_q_loop q st = ret (free_blocks q st) /\ packets_ok (free_blocks q st) rest.
Proof.
  revert st. induction q as [|p q IH]; intros st H; [auto|]. cbn [free_q_loop free_blocks app] in *.
  rewrite free_queued, bind_ret by apply (packets_tail _ _ _ H). apply IH. now apply packets_free.
Qed.

(** ** The sweep *)

(** [i] is the last of the oldest entries of a class, or there is none. *)
Definition oldest (P : etharp_entry -> Prop) (t : list etharp_entry) (i : nat) (age : Z) : Prop :=
  (i = ARP_TABLE_SIZE /\ age = 0 /\ Forall (fun e => ~ P e) t) \/
  (exists e, t !! i = Some e /\ P e /\ age = ae_ctime e /\ Forall (fun e' => P e' -> ae_ctime e' <= age) t).

Lemma oldest_skip P t i age e : ~ P e -> oldest P t i age -> oldest P (t ++ [e]) i age.
Proof.
  intros He [(Hi & Ha & Hf)|(e0 & Hi & Hp & Ha & Hf)]; [left|right].
  - repeat split; auto. apply Forall_app. auto.
  - exists e0. split; [now apply lookup_app_l_Some|]. repeat split; auto. apply Forall_app. split; [exact Hf|].
    constructor; [contradiction|constructor].
Qed.

Lemma oldest_step P t i age e :
  P e -> 0 <= ae_ctime e -> oldest P t i age ->
  oldest P (t ++ [e]) (if age <=? ae_ctime e then length t else i) (if age <=? ae_ctime e then ae_ctime e else age).
Proof.
  intros He Hc H. right. destruct (Z.leb_spec age (ae_ctime e)) as [E|E].
  - exists e. split; [now apply list_lookup_middle|]. repeat split; auto. apply Forall_app. split.
    + destruct H as [(_ & _ & Hf)|(e0 & _ & _ & _ & Hf)]; (eapply Forall_impl; [exact Hf|]); cbv beta; [tauto|].
      intros a Ha Hp. specialize (Ha Hp). lia.
    + constructor; [lia|constructor].
  - destruct H as [(_ & -> & _)|(e0 & Hi & Hp & Ha & Hf)]; [lia|]. exists e0.
    split; [now apply lookup_app_l_Some|]. repeat split; auto. apply Forall_app. split; [exact Hf|].
    constructor; [lia|constructor].
Qed.

Definition is_stable (e : etharp_entry) : Prop := ae_state e = ETHARP_STATE_STABLE.
Definition is_idle (e : etharp_entry) : Prop := ae_state e = ETHARP_STATE_PENDING /\ ae_q e = [].
Definition is_waiting (e : etharp_entry) : Prop := ae_state e = ETHARP_STATE_PENDING /\ ae_q e <> [].

Record cands_ok (t : list etharp_entry) (c : candidates) : Prop := CandsOk
  { co_empty : (c_empty c = ARP_TABLE_SIZE /\ Forall used t) \/
               (exists e, t !! c_empty c = Some e /\ ae_state e = ETHARP_STATE_EMPTY);
    co_stable : oldest is_stable t (c_stable c) (c_age_stable c);
    co_idle : oldest is_idle t (c_pending c) (c_age_pending c);
    co_waiting : oldest is_waiting t (c_queue c) (c_age_queue c) }.

Definition no_match (ip : option Z) (t : list etharp_entry) : Prop := Forall (fun e => used e -> matches ip e = false) t.

Lemma no_cands : cands_ok [] no_candidates.
Proof. constructor; left; repeat split; constructor. Qed.

(** One entry of the sweep that does not match. *)
Lemma cands_skip t c e : cands_ok t c -> used e -> ~ is_stable e -> ~ is_idle e -> ~ is_waiting e -> cands_ok (t ++ [e]) c.
Proof.
  intros [He Hs Hi Hw] Hu H1 H2 H3. constructor; try (now apply oldest_skip).
  destruct He as [[E Hf]|(e0 & E & Hs0)]; [left|right].
  - split; [exact E|]. apply Forall_app. auto.
  - exists e0. split; [now apply lookup_app_l_Some|exact Hs0].
Qed.

Lemma empty_app t c e (Hu : used e \/ c_empty c <> ARP_TABLE_SIZE) :
  (c_empty c = ARP_TABLE_SIZE /\ Forall used t) \/ (exists e, t !! c_empty c = Some e /\ ae_state e = ETHARP_STATE_EMPTY) ->
  (c_empty c = ARP_TABLE_SIZE /\ Forall used (t ++ [e])) \/
  (exists e', (t ++ [e]) !! c_empty c = Some e' /\ ae_state e' = ETHARP_STATE_EMPTY).
Proof.
  intros [[E Hf]|(e0 & E & Hs0)]; [left|right].
  - split; [exact E|]. apply Forall_app. split; [exact Hf|]. constructor; [|constructor]. tauto.
  - exists e0. split; [now apply lookup_app_l_Some|exact Hs0].
Qed.

Ltac not_class := unfold is_stable, is_idle, is_waiting, used in *; first [congruence | intros [? ?]; congruence | intuition congruence].

Lemma sweep_spec ip suf pre c :
  cands_ok pre c -> no_match ip pre -> Forall entry_ok suf ->
  match sweep ip (length pre) suf c with
  | inl j => exists e, (pre ++ suf) !! j = Some e /\ used e /\ matches ip e = true
  | inr c' => cands_ok (pre ++ suf) c' /\ no_match ip (pre ++ suf)
  end.
Proof.
  revert pre c. induction suf as [|e suf IH]; intros pre c Hc Hn Hok; [now rewrite app_nil_r|].
  inversion Hok as [|? ? He Hok']; subst. pose proof Hc as [Ce Cs Ci Cw]. pose proof (eo_ctime _ He) as Ht.
  assert (Hstep : forall c', cands_ok (pre ++ [e]) c' -> (used e -> matches ip e = false) ->
    match sweep ip (S (length pre)) suf c' with
    | inl j => exists e0, (pre ++ e :: suf) !! j = Some e0 /\ used e0 /\ matches ip e0 = true
    | inr c' => cands_ok (pre ++ e :: suf) c' /\ no_match ip (pre ++ e :: suf)
    end).
  { intros c' Hc' Hm. replace (S (length pre)) with (length (pre ++ [e])) by (rewrite length_app; cbn [length]; lia).
    replace (pre ++ e :: suf) with ((pre ++ [e]) ++ suf) by (now rewrite <- app_assoc). apply IH; auto.
    apply Forall_app. split; [exact Hn|]. constructor; [exact Hm|constructor]. }
  cbn [sweep].
  destruct ((c_empty c =? ARP_TABLE_SIZE)%nat && has_state e ETHARP_STATE_EMPTY) eqn:E1.
  { apply andb_prop in E1 as [_ E1]. apply has_state_true in E1. apply Hstep; [|intros Hu; now destruct (Hu E1)].
    constructor; cbn [c_empty c_stable c_age_stable c_pending c_age_pending c_queue c_age_queue]; try (apply oldest_skip; [not_class|assumption]).
    right. exists e. split; [now apply list_lookup_middle|exact E1]. }
  assert (Hue : used e \/ c_empty c <> ARP_TABLE_SIZE).
  { apply andb_false_iff in E1 as [E1|E1]; [right; now apply Nat.eqb_neq|left; now apply has_state_false in E1]. }
  destruct (has_state e ETHARP_STATE_PENDING) eqn:E2.
  { apply has_state_true in E2. destruct (matches ip e) eqn:Em.
    { exists e. split; [now apply list_lookup_middle|]. split; [not_class|exact Em]. }
    destruct (Nat.eqb_spec (length (ae_q e)) 0) as [Eq|Eq]; cbn [negb]; (apply Hstep; [|intros _; reflexivity]).
    - apply length_zero_iff_nil in Eq. assert (Hi : is_idle e) by now split.
      destruct (c_age_pending c <=? ae_ctime e) eqn:Ea; constructor;
        cbn [c_empty c_stable c_age_stable c_pending c_age_pending c_queue c_age_queue];
        try (now apply empty_app); try (apply oldest_skip; [not_class|assumption]);
        pose proof (oldest_step is_idle pre _ _ e Hi ltac:(lia) Ci) as Ho; now rewrite Ea in Ho.
    - assert (Hi : is_waiting e) by (split; [exact E2|]; intros H; now rewrite H in Eq).
      destruct (c_age_queue c <=? ae_ctime e) eqn:Ea; constructor;
        cbn [c_empty c_stable c_age_stable c_pending c_age_pending c_queue c_age_queue];
        try (now apply empty_app); try (apply oldest_skip; [not_class|assumption]);
        pose proof (oldest_step is_waiting pre _ _ e Hi ltac:(lia) Cw) as Ho; now rewrite Ea in Ho. }
  apply has_state_false in E2. destruct (has_state e ETHARP_STATE_STABLE) eqn:E3.
  - apply has_state_true in E3. destruct (matches ip e) eqn:Em.
    { exists e. split; [now apply list_lookup_middle|]. split; [not_class|exact Em]. }
    apply Hstep; [|intros _; reflexivity].
    destruct (c_age_stable c <=? ae_ctime e) eqn:Ea; constructor;
      cbn [c_empty c_stable c_age_stable c_pending c_age_pending c_queue c_age_queue];
      try (now apply empty_app); try (apply oldest_skip; [not_class|assumption]);
      pose proof (oldest_step is_stable pre _ _ e E3 ltac:(lia) Cs) as Ho; now rewrite Ea in Ho.
  - apply has_state_false in E3. assert (E4 : ae_state e = ETHARP_STATE_EMPTY) by (destruct (ae_state e); congruence).
    apply Hstep; [|intros Hu; now destruct (Hu E4)]. constructor; try (now apply empty_app); (apply oldest_skip; [not_class|assumption]).
Qed.

(** ** The entry that is recycled *)

(** The least destructive choice: an empty entry; without one the oldest
    stable one, then the oldest pending one without packets, then the oldest
    with packets. *)
Definition victim (t : list etharp_entry) (e : etharp_entry) : Prop :=
  ae_state e = ETHARP_STATE_EMPTY \/
  (Forall used t /\
   ((is_stable e /\ Forall (fun e' => is_stable e' -> ae_ctime e' <= ae_ctime e) t) \/
    (Forall (fun e' => ~ is_stable e') t /\
     ((is_idle e /\ Forall (fun e' => is_idle e' -> ae_ctime e' <= ae_ctime e) t) \/
      (Forall (fun e' => ~ is_idle e') t /\
       is_waiting e /\ Forall (fun e' => is_waiting e' -> ae_ctime e' <= ae_ctime e) t))))).

Section Search.
Context {W : Type}.
Implicit Types s : arp W.

Lemma entry_some s i e : arp_table s !! i = Some e -> entry s i = ret e.
Proof. intros H. unfold entry. now rewrite H. Qed.

(** What the choice of an entry leaves: its queue is empty. *)
Definition chosen s (i : nat) (e : etharp_entry) s1 : Prop :=
  arp_table s !! i = Some e /\ victim (arp_table s) e /\ arp_ok s1 /\
  s1 = Arp (<[i := with_q e []]> (arp_table s)) (etharp_cached_entry s) (free_blocks (ae_q e) (arp_store s)) (arp_world s).

Lemma table_insert t i e e' :
  table_ok t -> t !! i = Some e -> entry_ok e' ->
  (used e' -> forall j e2, j <> i -> t !! j = Some e2 -> used e2 -> ae_ipaddr e2 <> ae_ipaddr e') ->
  table_ok (<[i := e']> t).
Proof.
  intros [Hs He Hd] Hi He' Hne. pose proof (lookup_lt_Some _ _ _ Hi) as Hl. constructor.
  - now rewrite length_insert.
  - now apply Forall_insert.
  - intros j k ej ek Hj Hk Uj Uk E. destruct (decide (j = i)) as [->|Hji], (decide (k = i)) as [->|Hki]; [reflexivity| | |].
    + rewrite list_lookup_insert_eq in Hj by exact Hl. injection Hj as <-. rewrite list_lookup_insert_ne in Hk by congruence.
      exfalso. eapply (Hne Uj k ek); eauto.
    + rewrite list_lookup_insert_eq in Hk by exact Hl. injection Hk as <-. rewrite list_lookup_insert_ne in Hj by congruence.
      exfalso. eapply (Hne Uk j ej); eauto.
    + rewrite list_lookup_insert_ne in Hj, Hk by congruence. eapply Hd; eauto.
Qed.

Lemma with_q_ok e : entry_ok e -> entry_ok (with_q e []).
Proof. intros [H1 H2 H3 H4]. constructor; auto. Qed.

Lemma no_queue_chosen s i e :
  arp_ok s -> arp_table s !! i = Some e -> ae_q e = [] -> victim (arp_table s) e -> chosen s i e s.
Proof.
  intros Hs Hi Hq Hv. split; [exact Hi|]. split; [exact Hv|]. split; [exact Hs|]. rewrite Hq. cbn [free_blocks].
  rewrite list_insert_id; [now destruct s|]. rewrite Hi. f_equal. destruct e as [q ? ? ? ? ?]. cbn [ae_q] in Hq. now subst q.
Qed.

Lemma not_stable_of (t : list etharp_entry) i age :
  (ARP_TABLE_SIZE <= i)%nat -> length t = ARP_TABLE_SIZE -> forall P, oldest P t i age -> Forall (fun e => ~ P e) t.
Proof.
  intros Hi Hl P [(_ & _ & H)|(e & H & _)]; [exact H|]. apply lookup_lt_Some in H. lia.
Qed.

Lemma choose_entry_spec c s :
  arp_ok s -> cands_ok (arp_table s) c ->
  exists i s1 e, choose_entry c s = ret (Some i, s1) /\ (i < ARP_TABLE_SIZE)%nat /\ chosen s i e s1.
Proof.
  intros Hs [Ce Cs Ci Cw]. pose proof (ao_table _ Hs) as Ht. pose proof (to_size _ Ht) as Hsz. unfold choose_entry.
  assert (Hlt : forall P i age, oldest P (arp_table s) i age -> (i < ARP_TABLE_SIZE)%nat ->
            exists e, arp_table s !! i = Some e /\ P e /\ Forall (fun e' => P e' -> ae_ctime e' <= ae_ctime e) (arp_table s)).
  { intros P i age [(-> & _)|(e & H1 & H2 & -> & H3)] Hi; [lia|eauto]. }
  case_bool (c_empty c <? ARP_TABLE_SIZE)%nat.
  { destruct Ce as [[Hc _]|(e & He & Hst)]; [lia|]. exists (c_empty c), s, e. split; [reflexivity|]. split; [exact E|].
    apply no_queue_chosen; auto; [|now left]. apply eo_queue; [|congruence]. eapply Forall_lookup_1; [apply Ht|exact He]. }
  assert (Hu : Forall used (arp_table s)).
  { destruct Ce as [[_ H]|(e & He & _)]; [exact H|]. apply lookup_lt_Some in He. lia. }
  case_bool (c_stable c <? ARP_TABLE_SIZE)%nat.
  { destruct (Hlt _ _ _ Cs E0) as (e & He & Hp & Ho). exists (c_stable c), s, e.
    assert (Hq : ae_q e = []) by (apply eo_queue; [eapply Forall_lookup_1; [apply Ht|exact He]|unfold is_stable in Hp; congruence]).
    rewrite (entry_some _ _ _ He), bind_ret, Hq. rewrite lwip_assert_true, bind_ret by reflexivity.
    split; [reflexivity|]. split; [exact E0|]. apply no_queue_chosen; auto. right. split; [exact Hu|]. left. now split. }
  pose proof (not_stable_of _ _ _ E0 Hsz _ Cs) as Hns.
  case_bool (c_pending c <? ARP_TABLE_SIZE)%nat.
  { destruct (Hlt _ _ _ Ci E1) as (e & He & Hp & Ho). exists (c_pending c), s, e. split; [reflexivity|]. split; [exact E1|].
    apply no_queue_chosen; auto; [apply Hp|]. right. split; [exact Hu|]. right. split; [exact Hns|]. left. now split. }
  pose proof (not_stable_of _ _ _ E1 Hsz _ Ci) as Hni.
  case_bool (c_queue c <? ARP_TABLE_SIZE)%nat.
  - destruct (Hlt _ _ _ Cw E2) as (e & He & Hp & Ho). rewrite (entry_some _ _ _ He), bind_ret.
    destruct (queues_at _ _ _ He) as (q1 & q2 & Eq & Eq').
    pose proof (ao_packets _ Hs) as Hpk. rewrite Eq in Hpk.
    assert (Hpk' : packets_ok (arp_store s) (ae_q e ++ q1 ++ q2)).
    { eapply packets_perm; [|exact Hpk]. rewrite app_assoc, (Permutation.Permutation_app_comm q1), <- app_assoc. reflexivity. }
    destruct (free_q_loop_spec _ _ _ Hpk') as [Ef Hr]. unfold free_etharp_q.
    rewrite lwip_assert_true, bind_ret by (destruct Hp as [_ Hq]; destruct (ae_q e); [contradiction|reflexivity]).
    rewrite Ef, bind_ret. exists (c_queue c), (set_entry (c_queue c) (with_q e []) (set_store (free_blocks (ae_q e) (arp_store s)) s)), e.
    split; [reflexivity|]. split; [exact E2|]. split; [exact He|]. split.
    { right. split; [exact Hu|]. right. split; [exact Hns|]. right. now split. }
    split; [|reflexivity]. constructor; cbn [set_entry set_store arp_table etharp_cached_entry arp_store].
    + assert (Hek : entry_ok e) by (eapply Forall_lookup_1; [apply Ht|exact He]).
      apply (table_insert _ _ e); [exact Ht|exact He|now apply with_q_ok|].
      intros Ue j e2 Hj H2 U2 E3. apply Hj. eapply (to_distinct _ Ht); eauto.
    + apply Hs.
    + rewrite Eq'. exact Hr.
  - exfalso. pose proof (not_stable_of _ _ _ E2 Hsz _ Cw) as Hnw.
    destruct (arp_table s) as [|e t] eqn:Et; [discriminate|].
    inversion Hu as [|? ? U _]; subst. inversion Hns as [|? ? N1 _]; subst. inversion Hni as [|? ? N2 _]; subst.
    inversion Hnw as [|? ? N3 _]; subst. unfold used, is_stable, is_idle, is_waiting in *.
    destruct (ae_state e) eqn:Es; try congruence. destruct (ae_q e) eqn:Eq; [apply N2|apply N3]; split; auto; discriminate.
Qed.

(** ** The result of a search *)

Definition found s (a : Z) (i : nat) s' : Prop :=
  exists e, arp_table s !! i = Some e /\ used e /\ ae_ipaddr e = a /\ s' = set_cached i s.

Definition created s (a : Z) (i : nat) s' : Prop :=
  exists e, arp_table s !! i = Some e /\ victim (arp_table s) e /\
    s' = Arp (<[i := Entry [] a (ae_ethaddr e) ETHARP_STATE_EMPTY 0 (ae_netif e)]> (arp_table s)) i
           (free_blocks (ae_q e) (arp_store s)) (arp_world s).

Definition not_found s (a : Z) (flags : Z) s' : Prop :=
  s' = s /\ (Z.land flags ETHARP_FIND_ONLY <> 0 \/ (Z.land flags ETHARP_TRY_HARD = 0 /\ Forall used (arp_table s))).

Lemma found_ok s a i s' : arp_ok s -> found s a i s' -> arp_ok s'.
Proof.
  intros [H1 H2 H3] (e & He & _ & _ & ->). constructor; cbn [set_cached arp_table etharp_cached_entry arp_store]; auto.
  apply lookup_lt_Some in He. now rewrite (to_size _ H1) in He.
Qed.

Lemma created_ok s a i s1 e :
  chosen s i e s1 -> (i < ARP_TABLE_SIZE)%nat ->
  exists s', create_entry (Some a) i s1 = ret s' /\ arp_ok s' /\ created s a i s'.
Proof.
  intros (He & Hv & Hok & ->) Hi. pose proof (lookup_lt_Some _ _ _ He) as Hl. unfold create_entry.
  assert (E1 : <[i := with_q e []]> (arp_table s) !! i = Some (with_q e [])) by now apply list_lookup_insert_eq.
  rewrite (entry_some _ i (with_q e [])), bind_ret by exact E1. eexists. split; [reflexivity|].
  unfold set_cached, set_entry. cbn [arp_table etharp_cached_entry arp_store arp_world with_q ae_q ae_ipaddr ae_ethaddr ae_netif].
  rewrite list_insert_insert_eq. split; [|exists e; auto].
  destruct Hok as [Ht Hc Hp]. cbn [arp_table etharp_cached_entry arp_store] in *.
  set (e' := Entry [] a _ _ 0 _). rewrite <- (list_insert_insert_eq (arp_table s) i e' (with_q e [])).
  constructor; cbn [arp_table etharp_cached_entry arp_store].
  - apply (table_insert _ _ (with_q e [])); [exact Ht|exact E1| |intros Hu; now destruct Hu].
    constructor; unfold e'; cbn [ae_q ae_ctime ae_state]; [auto|lia|discriminate|discriminate].
  - exact Hi.
  - rewrite (queues_same_q _ i (with_q e [])); [exact Hp|exact E1|reflexivity].
Qed.

Lemma search_entry_spec a flags s :
  arp_ok s ->
  exists r s', search_entry (Some a) flags s = ret (r, s') /\ arp_ok s' /\
    ((r = ERR_MEM /\ no_match (Some a) (arp_table s) /\ not_found s a flags s') \/
     exists i, r = Z.of_nat i /\ (i < ARP_TABLE_SIZE)%nat /\
       (found s a i s' \/ (Z.land flags ETHARP_FIND_ONLY = 0 /\ no_match (Some a) (arp_table s) /\ created s a i s'))).
Proof.
  intros Hs. unfold search_entry. pose proof (ao_table _ Hs) as Ht.
  pose proof (sweep_spec (Some a) (arp_table s) [] no_candidates no_cands (proj2 (Forall_nil _) I) (to_entries _ Ht)) as Hsw.
  cbn [length app] in Hsw. destruct (sweep (Some a) 0 (arp_table s) no_candidates) as [i|c].
  - destruct Hsw as (e & He & Hu & Hm). cbn [matches] in Hm. apply Z.eqb_eq in Hm.
    assert (Hf : found s a i (set_cached i s)) by (exists e; auto).
    exists (Z.of_nat i), (set_cached i s). split; [reflexivity|]. split; [now apply (found_ok s a i)|].
    right. exists i. split; [reflexivity|]. split; [|now left]. apply lookup_lt_Some in He. now rewrite (to_size _ Ht) in He.
  - destruct Hsw as [Hc Hn].
    destruct (((c_empty c =? ARP_TABLE_SIZE)%nat && (Z.land flags ETHARP_TRY_HARD =? 0)) || negb (Z.land flags ETHARP_FIND_ONLY =? 0)) eqn:Ef.
    + exists ERR_MEM, s. split; [reflexivity|]. split; [exact Hs|]. left. split; [reflexivity|]. split; [exact Hn|].
      split; [reflexivity|]. apply orb_prop in Ef as [Ef|Ef].
      * right. apply andb_prop in Ef as [E1 E2]. apply Nat.eqb_eq in E1. apply Z.eqb_eq in E2. split; [exact E2|].
        destruct (co_empty _ _ Hc) as [[_ H]|(e & He & _)]; [exact H|]. apply lookup_lt_Some in He. rewrite (to_size _ Ht) in He. lia.
      * left. now apply negb_true_iff, Z.eqb_neq in Ef.
    + apply orb_false_iff in Ef as [_ Ef]. apply negb_false_iff, Z.eqb_eq in Ef.
      destruct (choose_entry_spec c s Hs Hc) as (i & s1 & e & E1 & Hi & Hch).
      destruct (created_ok s a i s1 e Hch Hi) as (s' & E2 & Hok & Hcr). exists (Z.of_nat i), s'.
      rewrite E1, bind_ret. rewrite lwip_assert_true, bind_ret by now apply Nat.ltb_lt. rewrite E2, bind_ret.
      split; [reflexivity|]. split; [exact Hok|]. right. exists i.
      split; [reflexivity|]. split; [exact Hi|]. right. auto.
Qed.

Lemma find_entry_spec a flags s :
  arp_ok s ->
  exists r s', find_entry (Some a) flags s = ret (r, s') /\ arp_ok s' /\
    ((r = ERR_MEM /\ no_match (Some a) (arp_table s) /\ not_found s a flags s') \/
     exists i, r = Z.of_nat i /\ (i < ARP_TABLE_SIZE)%nat /\
       (found s a i s' \/ (Z.land flags ETHARP_FIND_ONLY = 0 /\ no_match (Some a) (arp_table s) /\ created s a i s'))).
Proof.
  intros Hs. unfold find_entry. pose proof (ao_table _ Hs) as Ht. pose proof (ao_cached _ Hs) as Hc.
  destruct (arp_table s !! etharp_cached_entry s) as [e|] eqn:He; [|apply lookup_ge_None in He; rewrite (to_size _ Ht) in He; lia].
  rewrite (entry_some _ _ _ He), bind_ret. destruct (has_state e ETHARP_STATE_STABLE && matches (Some a) e) eqn:Em; [|now apply search_entry_spec].
  apply andb_prop in Em as [E1 E2]. apply has_state_true in E1. cbn [matches] in E2. apply Z.eqb_eq in E2.
  exists (Z.of_nat (etharp_cached_entry s)), s. split; [reflexivity|]. split; [exact Hs|]. right.
  exists (etharp_cached_entry s). split; [reflexivity|]. split; [exact Hc|]. left. exists e.
  split; [exact He|]. split; [unfold used; congruence|]. split; [auto|]. now destruct s.
Qed.
End Search.
