(* ===== verification/EtharpSpec.v ===== *)
(** * lwIP: what the operations on the ARP table do

    Expiry, resolution, requests and the queueing of packets, all of them
    without undefined behaviour from a table with the invariant. *)
From Stdlib Require Import ZArith List Lia Bool.
From stdpp Require Import base gmap list.
From S2P Require Import Prelude CMonad Pbuf PbufChain PbufData PbufEdit PbufAlloc.
From S2P Require Import Inet Netif Etharp EtharpTable.
#[local] Open Scope Z_scope.
#[local] Open Scope cmonad_scope.

(** ** Expiry *)

Definition limit (e : etharp_entry) : Z :=
  match ae_state e with
  | ETHARP_STATE_STABLE => ARP_MAXAGE
  | ETHARP_STATE_PENDING => ARP_MAXPENDING
  | ETHARP_STATE_EMPTY => 256
  end.

Definition expires (e : etharp_entry) : bool :=
  negb (has_state e ETHARP_STATE_EMPTY) && (limit e <=? u8 (ae_ctime e + 1)).

Definition tick (e : etharp_entry) : etharp_entry :=
  let c := u8 (ae_ctime e + 1) in
  if expires e then Entry [] (ae_ipaddr e) (ae_ethaddr e) ETHARP_STATE_EMPTY c (ae_netif e) else with_ctime e c.

Lemma tmr_entry_spec e st rest :
  packets_ok st (ae_q e ++ rest) ->
  tmr_entry e st = ret (tick e, if expires e then free_blocks (ae_q e) st else st) /\
  packets_ok (if expires e then free_blocks (ae_q e) st else st) (ae_q (tick e) ++ rest).
Proof.
  intros Hp. unfold tmr_entry, tick, expires, limit. destruct e as [q ip eth x c n].
  unfold has_state, with_ctime, with_q, with_state. cbn [ae_q ae_state ae_ctime ae_ipaddr ae_ethaddr ae_netif] in *.
  destruct (free_q_loop_spec _ _ _ Hp) as [Ef Hr].
  destruct x; [now split| |]; cbn [bool_decide decide_rel etharp_state_eq_dec];
    repeat (rewrite bool_decide_eq_true_2 by reflexivity); repeat (rewrite bool_decide_eq_false_2 by discriminate);
    cbn [andb orb negb]; rewrite ?orb_false_r.
  all: match goal with |- context [?a <=? ?b] => destruct (a <=? b) end; [|now split].
  all: destruct q as [|p q]; [now split|]; unfold free_etharp_q; rewrite lwip_assert_true, bind_ret by reflexivity;
    rewrite Ef, !bind_ret; now split.
Qed.

(** The packets of the entries that expire. *)
Fixpoint swept (t : list etharp_entry) (st : store) : store :=
  match t with
  | [] => st
  | e :: t' => swept t' (if expires e then free_blocks (ae_q e) st else st)
  end.

Lemma tmr_loop_spec t st rest :
  packets_ok st (queues t ++ rest) ->
  tmr_loop t st = ret (map tick t, swept t st) /\ packets_ok (swept t st) (queues (map tick t) ++ rest).
Proof.
  revert st rest. induction t as [|e t IH]; intros st rest Hp; [now split|]. cbn [tmr_loop map swept].
  unfold queues in *. cbn [map concat] in *. rewrite <- app_assoc in *.
  destruct (tmr_entry_spec e st (concat (map ae_q t) ++ rest) Hp) as [Ee He].
  rewrite Ee, bind_ret. set (st1 := if expires e then _ else st) in *.
  assert (Hp1 : packets_ok st1 (concat (map ae_q t) ++ ae_q (tick e) ++ rest)).
  { eapply packets_perm; [|exact He]. rewrite !app_assoc. apply Permutation.Permutation_app_tail, Permutation.Permutation_app_comm. }
  destruct (IH st1 _ Hp1) as [El Hl]. rewrite El, bind_ret. split; [reflexivity|].
  eapply packets_perm; [|exact Hl]. rewrite !app_assoc. apply Permutation.Permutation_app_tail, Permutation.Permutation_app_comm.
Qed.

Lemma tick_fields e : ae_ipaddr (tick e) = ae_ipaddr e /\ (used (tick e) -> used e).
Proof. unfold tick. destruct (expires e); split; auto. intros H. now destruct H. Qed.

Lemma tick_ok e : entry_ok e -> entry_ok (tick e).
Proof.
  intros [H1 H2 H3 H4]. assert (Hu : 0 <= u8 (ae_ctime e + 1) < 256) by (apply Z.mod_pos_bound; lia).
  unfold tick. destruct (expires e) eqn:E; [constructor; cbn [ae_q ae_state ae_ctime]; auto; discriminate|].
  unfold expires, limit in E. constructor; cbn [with_ctime ae_q ae_state ae_ctime ae_ethaddr]; auto.
  - intros Hs. destruct (H3 Hs) as [_ H]. split; [|exact H]. unfold has_state in E. rewrite Hs in E.
    cbn in E. apply Z.leb_gt in E. exact E.
  - intros Hs. unfold has_state in E. rewrite Hs in E. cbn in E. now apply Z.leb_gt in E.
Qed.

Lemma tick_table t : table_ok t -> table_ok (map tick t).
Proof.
  intros [H1 H2 H3]. constructor.
  - now rewrite length_map.
  - apply Forall_map. eapply Forall_impl; [exact H2|]. apply tick_ok.
  - intros i j e e' Hi Hj Ui Uj E. rewrite list_lookup_fmap in Hi, Hj.
    destruct (t !! i) as [ei|] eqn:Ei; [|discriminate]. destruct (t !! j) as [ej|] eqn:Ej; [|discriminate].
    injection Hi as <-. injection Hj as <-. destruct (tick_fields ei) as [F1 G1], (tick_fields ej) as [F2 G2].
    rewrite F1, F2 in E. eapply H3; eauto.
Qed.

Section Timer.
Context {W : Type}.
Implicit Types s : arp W.

Lemma etharp_tmr_spec s :
  arp_ok s -> exists s', etharp_tmr s = ret s' /\ arp_ok s' /\ arp_table s' = map tick (arp_table s) /\ arp_world s' = arp_world s.
Proof.
  intros [Ht Hc Hp]. unfold etharp_tmr. rewrite <- (app_nil_r (queues _)) in Hp.
  destruct (tmr_loop_spec _ _ _ Hp) as [E Hl]. rewrite E, bind_ret. eexists. split; [reflexivity|].
  rewrite app_nil_r in Hl. split; [|split; reflexivity].
  constructor; cbn [arp_table etharp_cached_entry arp_store]; [exact (tick_table _ Ht)|exact Hc|exact Hl].
Qed.

(** [n] calls of the timer. *)
Fixpoint ticks (n : nat) s : M (arp W) :=
  match n with
  | O => ret s
  | S n' => s <- etharp_tmr s;; ticks n' s
  end.

Lemma ticks_spec n s :
  arp_ok s ->
  exists s', ticks n s = ret s' /\ arp_ok s' /\ arp_table s' = Nat.iter n (map tick) (arp_table s) /\ arp_world s' = arp_world s.
Proof.
  revert s. induction n as [|n IH]; intros s Hs; [exists s; auto|]. cbn [ticks].
  destruct (etharp_tmr_spec s Hs) as (s1 & E1 & Hok & Et & Ew). rewrite E1, bind_ret.
  destruct (IH s1 Hok) as (s' & E & H & Et' & Ew'). exists s'. split; [exact E|]. split; [exact H|].
  split; [|congruence]. rewrite Et', Et. now rewrite <- Nat.iter_succ_r.
Qed.
End Timer.

Lemma iter_map_tick n t i : Nat.iter n (map tick) t !! i = Nat.iter n tick <$> t !! i.
Proof.
  induction n as [|n IH].
  - change (t !! i = id <$> t !! i). now rewrite option_fmap_id.
  - change (map tick (Nat.iter n (map tick) t) !! i = Nat.iter (S n) tick <$> t !! i).
    rewrite list_lookup_fmap, IH. now destruct (t !! i).
Qed.

Lemma empty_ticks n e : ae_state e = ETHARP_STATE_EMPTY -> ae_q e = [] ->
  ae_state (Nat.iter n tick e) = ETHARP_STATE_EMPTY /\ ae_q (Nat.iter n tick e) = [].
Proof.
  intros H1 H2. induction n as [|n [I1 I2]]; [auto|].
  change (Nat.iter (S n) tick e) with (tick (Nat.iter n tick e)). set (x := Nat.iter n tick e) in *.
  unfold tick, expires, has_state. rewrite I1. cbn. auto.
Qed.

(** An entry in use keeps its fields until its age reaches the limit. *)
Lemma used_ticks n e :
  entry_ok e -> used e ->
  (ae_ctime e + Z.of_nat n < limit e -> Nat.iter n tick e = with_ctime e (ae_ctime e + Z.of_nat n)) /\
  (limit e <= ae_ctime e + Z.of_nat n -> ae_state (Nat.iter n tick e) = ETHARP_STATE_EMPTY /\ ae_q (Nat.iter n tick e) = []).
Proof.
  intros He Hu. pose proof (eo_ctime _ He) as Hc.
  assert (Hl : limit e <= 240 /\ ae_ctime e < limit e).
  { destruct He as [_ _ H3 H4]. unfold limit, used in *. destruct (ae_state e) eqn:Es; [now destruct Hu| |];
      [specialize (H4 eq_refl)|destruct (H3 eq_refl) as [H5 _]]; unfold ARP_MAXAGE, ARP_MAXPENDING in *; lia. }
  assert (Hs : forall c, has_state (with_ctime e c) ETHARP_STATE_EMPTY = false) by (intros; now apply has_state_false).
  induction n as [|n [I1 I2]].
  - split; [|lia]. intros _. cbn [Nat.iter]. change (Z.of_nat 0) with 0. rewrite Z.add_0_r. now destruct e.
  - change (Nat.iter (S n) tick e) with (tick (Nat.iter n tick e)). set (x := Nat.iter n tick e) in *.
    destruct (Z.lt_ge_cases (ae_ctime e + Z.of_nat n) (limit e)) as [Hlt|Hge].
    + rewrite (I1 Hlt). unfold tick, expires. rewrite Hs. cbn [negb andb with_ctime ae_ctime].
      change (limit (with_ctime e (ae_ctime e + Z.of_nat n))) with (limit e).
      assert (E : u8 (ae_ctime e + Z.of_nat n + 1) = ae_ctime e + Z.of_nat (S n)) by (unfold u8; rewrite Z.mod_small; lia).
      rewrite E. destruct (Z.leb_spec (limit e) (ae_ctime e + Z.of_nat (S n))) as [E1|E1]; split; intros; try lia; [now split|reflexivity].
    + destruct (I2 Hge) as [J1 J2]. split; [lia|]. intros _. unfold tick, expires, has_state. rewrite J1. cbn. auto.
Qed.

(** ** Sending *)

Record netif_ok (n : netif) : Prop := NetifOk
  { no_len : nf_hwaddr_len n = ETHARP_HWADDR_LEN; no_hwaddr : length (nf_hwaddr n) = 6%nat }.

Definition ip_header (n : netif) (dst : list Z) : list Z := dst ++ nf_hwaddr n ++ field16 (htons ETHTYPE_IP).

(** [st1] is [st] with the Ethernet header in front of the packet [x]. *)
Definition framed (n : netif) (dst : list Z) (x : pbuf) (st st1 : store) : Prop :=
  st_pbufs st1 = st_pbufs st /\ bytes_of (st_mem st1) x = splice (bytes_of (st_mem st) x) 0 (ip_header n dst) /\
  exists b o, pb_payload x = Some (b, o) /\ rewritten [b] (st_mem st) (st_mem st1).

Section Send.
Context {W : Type} (linkoutput : netif -> addr -> store -> W -> Z * W).
Implicit Types s : arp W.

Lemma send_ip_spec n p dst s x :
  netif_ok n -> length dst = 6%nat -> st_pbufs (arp_store s) !! p = Some x -> valid (st_mem (arp_store s)) x ->
  SIZEOF_ETH_HDR <= pb_len x ->
  exists st1, framed n dst x (arp_store s) st1 /\
    etharp_send_ip linkoutput n p (nf_hwaddr n) dst s =
      ret (fst (linkoutput n p st1 (arp_world s)),
           Arp (arp_table s) (etharp_cached_entry s) st1 (snd (linkoutput n p st1 (arp_world s)))).
Proof.
  intros [N1 N2] Hd Hx Hv Hl. unfold SIZEOF_ETH_HDR in Hl. unfold etharp_send_ip.
  rewrite (fetch_some _ p x), bind_ret by exact Hx.
  rewrite N1, lwip_assert_true, bind_ret by reflexivity.
  assert (Hp : exists b o, pb_payload x = Some (b, o)).
  { destruct Hv as [_ Hv]. specialize (Hv ltac:(lia)). destruct (pb_payload x) as [[b o]|]; [eauto|contradiction]. }
  destruct Hp as (b & o & Hp).
  destruct (save_bytes (arp_store s) x b o 0 (ip_header n dst) Hp Hv) as (m' & Es & Eb & Hr); [lia| |].
  { unfold ip_header. rewrite !length_app, Hd, N2. cbn [field16 length]. lia. }
  fold (ip_header n dst). rewrite Es, bind_ret. exists (Store (st_pbufs (arp_store s)) m').
  destruct (linkoutput n p _ _) as [err w]. split; [|reflexivity]. split; [reflexivity|]. split; [exact Eb|]. eauto.
Qed.

(** The packets of a queue are sent in order, each with its header, and
    freed. *)
Inductive flush (n : netif) (dst : list Z) : list addr -> store * W -> store * W -> Prop :=
| flush_nil r : flush n dst [] r r
| flush_cons p ps x st st1 w r :
    st_pbufs st !! p = Some x -> framed n dst x st st1 ->
    flush n dst ps (free_block p st1, snd (linkoutput n p st1 w)) r -> flush n dst (p :: ps) (st, w) r.

Lemma queued_framed n dst p x st st1 q :
  st_pbufs st !! p = Some x -> owns (p, x) -> framed n dst x st st1 -> queued st q -> queued st1 q.
Proof.
  intros Hx [o0 Ho] (Ep & _ & b & o & Hp & Hr) (y & H1 & H2 & H3 & H4 & H5). exists y. rewrite Ep.
  split; [exact H1|]. split; [exact H2|]. split; [exact H3|]. split; [|exact H5]. now apply (valid_rewritten _ _ _ _ Hr).
Qed.

Lemma send_q_loop_spec n i dst q rest s e :
  netif_ok n -> length dst = 6%nat -> arp_table s !! i = Some e -> packets_ok (arp_store s) (q ++ rest) ->
  exists s', send_q_loop linkoutput n i dst q s = ret s' /\
    arp_table s' = (if (length q =? 0)%nat then arp_table s else <[i := with_q e []]> (arp_table s)) /\
    etharp_cached_entry s' = etharp_cached_entry s /\
    flush n dst q (arp_store s, arp_world s) (arp_store s', arp_world s') /\ packets_ok (arp_store s') rest.
Proof.
  intros Hn Hd. revert s e. induction q as [|p q IH]; intros s e He Hp.
  - exists s. repeat split; [constructor|apply Hp|apply Hp].
  - cbn [send_q_loop app] in *. rewrite (entry_some _ _ _ He), bind_ret. pose proof (lookup_lt_Some _ _ _ He) as Hl.
    destruct (packets_tail _ _ _ Hp) as ((x & Hx & Hnx & Hw & Hv & Ht & Hlen & Hr) & Hni & _).
    set (s1 := set_entry i (with_q e q) s).
    destruct (send_ip_spec n p dst s1 x Hn Hd Hx Hv (proj1 Hlen)) as (st1 & Hf & Es). cbn [s1 set_entry arp_store arp_world] in Hf, Es.
    rewrite Es, bind_ret. cbn [arp_store].
    assert (Hp1 : packets_ok st1 (p :: q ++ rest)).
    { destruct Hp as [Hnd Hfa]. split; [exact Hnd|]. eapply Forall_impl; [exact Hfa|]. intros a. now apply (queued_framed n dst p x (arp_store s)). }
    rewrite free_queued, bind_ret by apply (packets_tail _ _ _ Hp1).
    set (s2 := set_store _ _). destruct (IH s2 (with_q e q)) as (s' & E & Et & Ec & Hfl & Hrest).
    { cbn [s2 set_store arp_table s1 set_entry]. now apply list_lookup_insert_eq. }
    { cbn [s2 set_store arp_store]. now apply packets_free. }
    exists s'. split; [exact E|]. split; [|split; [exact Ec|split; [|exact Hrest]]].
    + rewrite Et. cbn [s2 set_store arp_table s1 set_entry length]. destruct q; cbn [length Nat.eqb]; [reflexivity|].
      now rewrite list_insert_insert_eq.
    + econstructor; [exact Hx|exact Hf|]. exact Hfl.
Qed.

(** ** Resolution *)

(** The address [a] is resolved to [eth]. *)
Definition maps (t : list etharp_entry) (a : Z) (eth : list Z) : Prop :=
  exists e, In e t /\ is_stable e /\ ae_ipaddr e = a /\ ae_ethaddr e = eth.

Definition unicast (n : netif) (a : Z) : Prop :=
  ip_addr_isany a = false /\ isbroadcast a n = false /\ ip_addr_ismulticast a = false.

(** What both results of a search have in common. *)
Lemma found_or_created s a i s1 :
  arp_ok s -> arp_ok s1 -> found s a i s1 \/ (no_match (Some a) (arp_table s) /\ created s a i s1) ->
  exists e, arp_table s1 !! i = Some e /\ ae_ipaddr e = a /\ etharp_cached_entry s1 = i /\ arp_world s1 = arp_world s /\
    (forall j e2, j <> i -> arp_table s1 !! j = Some e2 -> used e2 -> ae_ipaddr e2 <> a) /\
    (forall j, j <> i -> arp_table s1 !! j = arp_table s !! j).
Proof.
  intros Hs Hs1 [(e & He & Hu & Ha & ->)|(Hnm & e & He & Hv & ->)].
  - exists e. repeat split; auto. intros j e2 Hj H2 U2 E. apply Hj. cbn [set_cached arp_table] in H2.
    eapply (to_distinct _ (ao_table _ Hs)); eauto. congruence.
  - cbn [arp_table etharp_cached_entry arp_world]. pose proof (lookup_lt_Some _ _ _ He) as Hl.
    eexists. split; [now apply list_lookup_insert_eq|]. repeat split; auto.
    + intros j e2 Hj H2 U2 E. rewrite list_lookup_insert_ne in H2 by congruence.
      pose proof (Forall_lookup_1 _ _ _ _ Hnm H2 U2) as Hm. cbn [matches] in Hm. apply Z.eqb_neq in Hm. congruence.
    + intros j Hj. now apply list_lookup_insert_ne.
Qed.

Lemma update_spec n a eth flags s :
  arp_ok s -> netif_ok n -> length eth = 6%nat -> unicast n a ->
  exists r s', update_arp_entry linkoutput n a eth flags s = ret (r, s') /\ arp_ok s' /\
    ((r = ERR_MEM /\ no_match (Some a) (arp_table s) /\ not_found s a flags s') \/
     (r = ERR_OK /\ exists i e s1,
        (found s a i s1 \/ (no_match (Some a) (arp_table s) /\ created s a i s1)) /\ arp_table s1 !! i = Some e /\
        flush n eth (ae_q e) (arp_store s1, arp_world s1) (arp_store s', arp_world s') /\
        arp_table s' = <[i := Entry [] a eth ETHARP_STATE_STABLE 0 (nf_num n)]> (arp_table s1))).
Proof.
  intros Hs Hn Hd (U1 & U2 & U3). unfold update_arp_entry.
  rewrite (no_len _ Hn), lwip_assert_true, bind_ret by reflexivity. rewrite U1, U2, U3. cbn [orb].
  destruct (find_entry_spec a flags s Hs) as (r & s1 & Ef & Hok & [(-> & Hnm & Hnf)|(i & -> & Hi & Hfc)]); rewrite Ef, bind_ret.
  - exists ERR_MEM, s1. split; [reflexivity|]. split; [exact Hok|]. left. auto.
  - case_bool (Z.of_nat i <? 0); [lia|]. rewrite Nat2Z.id.
    assert (Hfc' : found s a i s1 \/ (no_match (Some a) (arp_table s) /\ created s a i s1)) by (destruct Hfc as [H|(_ & H & H')]; auto).
    destruct (found_or_created s a i s1 Hs Hok Hfc') as (e & He & Ha & Hc & Hw & Hne & _).
    pose proof (lookup_lt_Some _ _ _ He) as Hl.
    rewrite (entry_some _ _ _ He), bind_ret. set (e1 := Entry (ae_q e) (ae_ipaddr e) eth ETHARP_STATE_STABLE 0 (nf_num n)).
    set (s2 := set_entry i e1 s1). destruct (queues_at _ _ _ He) as (q1 & q2 & Eq & Eq').
    pose proof (ao_packets _ Hok) as Hp. rewrite Eq in Hp.
    assert (Hp' : packets_ok (arp_store s2) (ae_q e ++ q1 ++ q2)).
    { eapply packets_perm; [|exact Hp]. rewrite app_assoc, (Permutation.Permutation_app_comm q1), <- app_assoc. reflexivity. }
    destruct (send_q_loop_spec n i eth (ae_q e) (q1 ++ q2) s2 e1 Hn Hd) as (s' & Es & Et & Ec & Hfl & Hr).
    { cbn [s2 set_entry arp_table]. now apply list_lookup_insert_eq. } { exact Hp'. }
    fold s2. rewrite Es, bind_ret.
    assert (Et' : arp_table s' = <[i := Entry [] a eth ETHARP_STATE_STABLE 0 (nf_num n)]> (arp_table s1)).
    { rewrite Et. cbn [s2 set_entry arp_table]. destruct (Nat.eqb_spec (length (ae_q e)) 0) as [E0|E0].
      - apply length_zero_iff_nil in E0. unfold e1. now rewrite E0, Ha.
      - rewrite list_insert_insert_eq. unfold e1, with_q. cbn [ae_ipaddr ae_ethaddr ae_state ae_ctime ae_netif]. now rewrite Ha. }
    exists ERR_OK, s'. split; [reflexivity|]. split.
    + constructor.
      * rewrite Et'. apply (table_insert _ _ e); [apply Hok|exact He| |].
        -- constructor; cbn [ae_q ae_state ae_ctime ae_ethaddr]; [auto|lia|intros _; unfold ARP_MAXAGE; split; [lia|exact Hd]|discriminate].
        -- intros _ j e2 Hj H2 Ue. cbn [ae_ipaddr]. now apply (Hne j e2).
      * rewrite Ec. cbn [s2 set_entry etharp_cached_entry]. rewrite Hc. rewrite (to_size _ (ao_table _ Hok)) in Hl. exact Hl.
      * rewrite Et', Eq'. exact Hr.
    + right. split; [reflexivity|]. exists i, e, s1. auto.
Qed.

(** ** Requests *)

Variable junk : nat -> Z.

Lemma arp_packet_length ed es op sh si dh di :
  length ed = 6%nat -> length es = 6%nat -> length sh = 6%nat -> length dh = 6%nat ->
  length (arp_packet ed es op sh si dh di) = 42%nat.
Proof. intros. unfold arp_packet. rewrite !length_app. cbn [field16 field32 length]. lia. Qed.

(** An ARP packet is sent from a fresh pbuf, which is freed again, or there
    is no memory. *)
Lemma raw_spec n es ed hs ipsrc hd ipdst op s :
  netif_ok n -> length es = 6%nat -> length ed = 6%nat -> length hs = 6%nat -> length hd = 6%nat ->
  surely (etharp_raw junk linkoutput n es ed hs ipsrc hd ipdst op s)
    (fun '(r, s') => (r = ERR_MEM /\ s' = s) \/
       exists p st1, content (st_mem st1) [(p, Pbuf None (Some (p, 0)) 42 42 PBUF_RAM 0 1)] = arp_packet ed es op hs ipsrc hd ipdst /\
         st_pbufs st1 !! p = Some (Pbuf None (Some (p, 0)) 42 42 PBUF_RAM 0 1) /\
         r = fst (linkoutput n p st1 (arp_world s)) /\
         s' = Arp (arp_table s) (etharp_cached_entry s) (arp_store s) (snd (linkoutput n p st1 (arp_world s)))).
Proof.
  intros Hn L1 L2 L3 L4. unfold etharp_raw. change SIZEOF_ETHARP_PACKET with 42.
  eapply surely_bind; [apply alloc_ram; lia|]. intros [[p|] st1]; [|intros ->; apply surely_ret; left; now destruct s].
  change (header_room PBUF_RAW) with 0. intros Hfr. pose proof (fresh_copyable _ _ _ _ _ Hfr ltac:(lia) ltac:(lia)) as Hc. cbv zeta in Hc.
  set (x := Pbuf None (Some (p, 0)) 42 42 PBUF_RAM 0 1) in *.
  destruct Hc as (Hch & _ & Hv & _ & Hw). inversion Hv as [|? ? Hv0 _]; subst. inversion Hw as [|? ? Hw0 _]; subst.
  assert (Hx : st_pbufs st1 !! p = Some x) by (inversion Hch; assumption).
  rewrite (fetch_some _ p x), bind_ret by exact Hx. rewrite lwip_assert_true, bind_ret by reflexivity.
  rewrite (no_len _ Hn), lwip_assert_true, bind_ret by reflexivity.
  set (pk := arp_packet ed es op hs ipsrc hd ipdst). assert (Hpk : length pk = 42%nat) by now apply arp_packet_length.
  cbn [snd] in Hv0.
  destruct (save_bytes st1 x p 0 0 pk eq_refl Hv0) as (m' & Es & Eb & Hr); [lia|rewrite Hpk; cbn; lia|].
  rewrite Es, bind_ret. set (st2 := Store (st_pbufs st1) m'). destruct (linkoutput n p st2 (arp_world s)) as [err w] eqn:El.
  assert (Hlen : length (bytes_of (st_mem st1) x) = 42%nat) by (rewrite (bytes_length _ _ Hv0); reflexivity).
  assert (Hb : bytes_of m' x = pk).
  { rewrite Eb. unfold splice. cbn [Z.to_nat firstn app Nat.add]. rewrite Hpk, skipn_all2 by lia. apply app_nil_r. }
  assert (Hq : queued st2 p).
  { exists x. cbn [st2 st_pbufs st_mem]. split; [exact Hx|]. split; [reflexivity|]. split; [exact Hw0|].
    split; [now apply (valid_rewritten _ _ _ _ Hr)|]. split; [reflexivity|]. split; [cbn; unfold SIZEOF_ETH_HDR; lia|reflexivity]. }
  rewrite free_queued, bind_ret by exact Hq. apply surely_ret. right. exists p, st2.
  split; [change (bytes_of m' x ++ [] = pk); now rewrite Hb, app_nil_r|]. split; [exact Hx|]. rewrite El. cbn [fst snd].
  split; [reflexivity|]. f_equal. destruct Hfr as (Hn1 & Hn2 & Ep & bs & _ & Em). destruct Hr as [Hr _].
  apply store_eq. intros b. destruct (decide (b = p)) as [->|Hb0].
  - unfold free_block. cbn [st_pbufs st_mem]. now rewrite !lookup_delete_eq, Hn1, Hn2.
  - destruct (free_block_other st2 p b Hb0) as [-> ->]. cbn [st2 st_pbufs st_mem]. rewrite Ep, lookup_insert_ne by congruence.
    rewrite Hr, Em, lookup_insert_ne by (try intros [E|[]]; congruence). auto.
Qed.

(** ** Queueing *)

(** A packet of the IP layer: it owns its memory, has room for the header in
    its first pbuf, which is not read-only, and no empty pbufs. *)
Record outgoing (st : store) (q : addr) (l : list (addr * pbuf)) : Prop := Outgoing
  { og_copy : copyable (st_pbufs st) (st_mem st) (Some q) l;
    og_head : exists x l', l = (q, x) :: l' /\ pb_type x <> PBUF_ROM /\ SIZEOF_ETH_HDR <= pb_len x }.

Lemma copy_needed_spec st q l : outgoing st q l -> copy_needed (walk_fuel st) (Some q) st = ret (Some q).
Proof.
  intros [Hc (x & l' & -> & Ht & _)]. unfold walk_fuel. cbn [copy_needed].
  destruct (copyable_cons _ _ _ _ _ _ Hc) as ((_ & Hx & _) & (_ & _ & Hl) & Hc' & _).
  destruct Hc as (Hch & Htot & _ & Hfull & _).
  rewrite (fetch_some _ q x), bind_ret by exact Hx. destruct Htot as (Et & _). cbn [total] in Et.
  rewrite lwip_assert_true, bind_ret; [now rewrite bool_decide_eq_false_2 by exact Ht|].
  destruct l' as [|c l'].
  - inversion Hch; subst. destruct (pb_next x); [match goal with H : chain _ (Some _) [] |- _ => inversion H end|]. apply orb_true_r.
  - assert (Hpos : 0 < total (c :: l')) by (apply full_total; [apply Hc'|discriminate]).
    apply orb_true_intro. left. apply negb_true_iff, Z.eqb_neq. lia.
Qed.

Definition copied (st : store) (l : list (addr * pbuf)) (p : addr) (st' : store) : Prop :=
  st_pbufs st !! p = None /\ st_mem st !! p = None /\ queued st' p /\
  (forall b, b <> p -> st_pbufs st' !! b = st_pbufs st !! b /\ st_mem st' !! b = st_mem st !! b) /\
  exists x, st_pbufs st' !! p = Some x /\ bytes_of (st_mem st') x = content (st_mem st) l.

Lemma take_over_spec st q l :
  outgoing st q l ->
  surely (take_over junk q st) (fun '(p, st') => match p with None => st' = st | Some a => copied st l a st' end).
Proof.
  intros Ho. unfold take_over. rewrite (copy_needed_spec st q l Ho), bind_ret.
  destruct Ho as [Hc (x & l' & -> & Htype & Hhead)]. set (l := (q, x) :: l') in *.
  destruct (copyable_cons _ _ _ _ _ _ Hc) as ((_ & Hx & _) & (_ & _ & Hl) & _ & _ & H0). pose proof Hc as (Hch & Htot & Hv & Hfull & Hw).
  rewrite (fetch_some _ q x), bind_ret by exact Hx. destruct Htot as (Et & _ & _ & Hb & _). rewrite Et. fold l.
  fold l in Hb. assert (Hlen : SIZEOF_ETH_HDR <= total l) by (cbn [l total]; lia). unfold SIZEOF_ETH_HDR in *.
  eapply surely_bind; [apply alloc_ram; lia|]. intros [[a|] st1]; [|intros ->; now apply surely_ret].
  change (header_room PBUF_RAW) with 0. intros Hfr.
  pose proof (fresh_copyable _ _ _ _ _ Hfr ltac:(lia) ltac:(lia)) as Hct. cbv zeta in Hct.
  destruct Hfr as (Hn1 & Hn2 & Ep & bs & Hbs & Em). set (y := Pbuf None (Some (a, 0)) (total l) (total l) PBUF_RAM 0 1) in *.
  assert (Ha : ~ In a (map fst l)).
  { rewrite in_map_iff. intros ([b z] & E & Hin). cbn in E. subst b. rewrite (chain_lookup _ _ _ _ _ Hch Hin) in Hn1. discriminate. }
  destruct (owned_ext (st_mem st) (st_mem st1) l Hw) as [Ec Ev].
  { intros b Hb0. rewrite Em. apply lookup_insert_ne. intros ->. contradiction. }
  assert (Hcf : copyable (st_pbufs st1) (st_mem st1) (Some q) l).
  { split; [rewrite Ep; now apply chain_insert|]. split; [apply Hc|]. split; [now apply Ev|]. split; assumption. }
  destruct st1 as [p1 m1]. cbn [st_pbufs st_mem] in *.
  destruct (pbuf_copy_spec p1 m1 a q [(a, y)] l Hct Hcf) as (m2 & Hcp & Hc2 & Hr2).
  { intros b Hb0 [E|[]]. cbn in E. subst b. contradiction. } { cbn [total y pb_len]. lia. }
  rewrite Hcp, bind_ret. rewrite Z.eqb_refl. apply surely_ret.
  pose proof (copyable_rewritten _ _ _ _ _ _ Hr2 Hct) as Hct2. destruct Hct2 as (_ & _ & Hv2 & _ & Hw2).
  inversion Hv2 as [|? ? Hv3 _]; subst. inversion Hw2 as [|? ? Hw3 _]; subst. cbn [snd] in Hv3.
  split; [exact Hn1|]. split; [exact Hn2|]. split; [|split].
  - exists y. cbn [st_pbufs st_mem]. rewrite lookup_insert_eq. split; [reflexivity|]. split; [reflexivity|]. split; [exact Hw3|].
    split; [exact Hv3|]. split; [reflexivity|]. split; [exact (conj Hlen Hb)|reflexivity].
  - intros b Hb0. cbn [st_pbufs st_mem]. rewrite lookup_insert_ne by congruence. split; [reflexivity|].
    destruct Hr2 as [Hr2 _]. rewrite Hr2, lookup_insert_ne by (try intros [E|[]]; cbn in *; congruence). reflexivity.
  - exists y. cbn [st_pbufs st_mem]. rewrite lookup_insert_eq. split; [reflexivity|].
    cbn [content] in Hc2. rewrite app_nil_r in Hc2. rewrite Hc2, Ec, skipn_all2, app_nil_r; [reflexivity|].
    pose proof (content_length _ _ (proj1 (proj2 (proj2 Hct)))) as Hcl. cbn [content total] in Hcl.
    change (pb_len y) with (total l) in Hcl. rewrite ?length_app in *. cbn [length] in *. lia.
Qed.

(** A packet enters the queue of the entry [i]. *)
Definition enters s s' (l : list (addr * pbuf)) (i : nat) : Prop :=
  exists e p x, arp_table s !! i = Some e /\ arp_table s' = <[i := with_q e (ae_q e ++ [p])]> (arp_table s) /\
    arp_world s' = arp_world s /\ st_pbufs (arp_store s') !! p = Some x /\
    bytes_of (st_mem (arp_store s')) x = content (st_mem (arp_store s)) l.

Definition untouched s s' (l : list (addr * pbuf)) : Prop :=
  forall b, In b (map fst l) -> st_pbufs (arp_store s') !! b = st_pbufs (arp_store s) !! b.

Lemma queue_packet_spec i e q l r s :
  arp_ok s -> arp_table s !! i = Some e -> ae_state e = ETHARP_STATE_PENDING -> outgoing (arp_store s) q l ->
  surely (queue_packet junk i q r s)
    (fun '(r', s') => arp_ok s' /\ untouched s s' l /\ ((r' = r /\ s' = s) \/ (r' = ERR_OK /\ enters s s' l i))).
Proof.
  intros Hs He Hst Ho. unfold queue_packet. eapply surely_bind; [now apply (take_over_spec (arp_store s) q l)|].
  intros [[p|] st1].
  - intros (Hn & Hn2 & Hq & Hext & x & Hx & Hb).
    assert (Hold : forall b, In b (queues (arp_table s)) -> b <> p).
    { intros b Hin ->. destruct (ao_packets _ Hs) as [_ Hf]. apply list_elem_of_In in Hin.
      destruct (proj1 (Forall_forall _ _) Hf _ Hin) as (y & Hy & _). congruence. }
    assert (Hpk : packets_ok st1 (queues (arp_table s))).
    { eapply packets_ext; [|apply Hs]. intros b Hin. apply Hext. now apply Hold. }
    assert (Hl : forall b, In b (map fst l) -> b <> p).
    { intros b Hin ->. apply in_map_iff in Hin as ([c y] & E & Hin). cbn in E. subst c. destruct Ho as [(Hch & _) _].
      rewrite (chain_lookup _ _ _ _ _ Hch Hin) in Hn. discriminate. }
    eapply surely_bind; [apply (surely_malloc (fun _ => True)); exact I|]. intros [|] _.
    + rewrite (entry_some _ _ _ He), bind_ret. apply surely_ret. set (e' := with_q e (ae_q e ++ [p])).
      destruct (queues_at _ _ _ He) as (q1 & q2 & Eq & Eq'). pose proof (lookup_lt_Some _ _ _ He) as Hlt.
      assert (Hek : entry_ok e) by (eapply Forall_lookup_1; [apply (ao_table _ Hs)|exact He]).
      split; [|split].
      * constructor; cbn [set_entry set_store arp_table etharp_cached_entry arp_store]; [|apply Hs|].
        -- apply (table_insert _ _ e); [apply Hs|exact He| |].
           ++ destruct Hek as [H1 H2 H3 H4]. constructor; cbn [e' with_q ae_q ae_state ae_ctime ae_ethaddr]; auto. congruence.
           ++ intros Hu j e2 Hj H2 U2 E. apply Hj. eapply (to_distinct _ (ao_table _ Hs)); eauto.
        -- rewrite Eq'. unfold e'. cbn [with_q ae_q]. rewrite Eq in Hpk.
           assert (Hpk2 : packets_ok st1 (p :: q1 ++ ae_q e ++ q2)).
           { destruct Hpk as [Hd Hf]. split; [|now constructor]. constructor; [|exact Hd]. rewrite <- Eq. intros Hin. now apply (Hold p Hin). }
           eapply packets_perm; [|exact Hpk2]. rewrite <- app_assoc. cbn [app].
           rewrite (app_assoc q1 (ae_q e) (p :: q2)), (app_assoc q1 (ae_q e) q2). apply Permutation.Permutation_middle.
      * intros b Hin. cbn [set_entry set_store arp_store]. apply Hext. now apply Hl.
      * right. split; [reflexivity|]. exists e, p, x. repeat split; auto.
    + rewrite free_queued, bind_ret by exact Hq. apply surely_ret.
      assert (E : set_store (free_block p st1) s = s).
      { destruct s as [t c st w]. unfold set_store. cbn [arp_table etharp_cached_entry arp_store arp_world] in *. f_equal.
        apply store_eq. intros b. destruct (decide (b = p)) as [->|Hne].
        - unfold free_block. cbn [st_pbufs st_mem]. now rewrite !lookup_delete_eq, Hn, Hn2.
        - destruct (free_block_other st1 p b Hne) as [-> ->]. now apply Hext. }
      rewrite E. split; [exact Hs|]. split; [intros b _; reflexivity|]. now left.
  - intros ->. apply surely_ret. assert (E : set_store (arp_store s) s = s) by now destruct s. rewrite E.
    split; [exact Hs|]. split; [intros b _; reflexivity|]. now left.
Qed.

(** ** Queries *)

Lemma outgoing_ext st st' q l :
  outgoing st q l ->
  (forall b, In b (map fst l) -> st_pbufs st' !! b = st_pbufs st !! b /\ st_mem st' !! b = st_mem st !! b) ->
  outgoing st' q l /\ content (st_mem st') l = content (st_mem st) l.
Proof.
  intros [(Hch & Ht & Hv & Hf & Hw) Hh] He.
  destruct (owned_ext (st_mem st) (st_mem st') l Hw) as [Ec Ev]; [intros b Hb; now apply He|].
  split; [|exact Ec]. constructor; [|exact Hh]. split; [|split; [exact Ht|split; [now apply Ev|split; [exact Hf|exact Hw]]]].
  eapply chain_ext; [exact Hch|]. intros b Hb. now apply He.
Qed.

Lemma pending_ok s i e a :
  arp_ok s -> arp_table s !! i = Some e -> ae_ipaddr e = a -> ae_ctime e = 0 -> ae_q e = [] ->
  (forall j e2, j <> i -> arp_table s !! j = Some e2 -> used e2 -> ae_ipaddr e2 <> a) ->
  arp_ok (set_entry i (with_state e ETHARP_STATE_PENDING) s).
Proof.
  intros [Ht Hc Hp] He Ha Hct Hq Hne. constructor; cbn [set_entry arp_table etharp_cached_entry arp_store]; [|exact Hc|].
  - apply (table_insert _ _ e); [exact Ht|exact He| |].
    + constructor; cbn [with_state ae_q ae_state ae_ctime ae_ethaddr]; [congruence|lia|discriminate|unfold ARP_MAXPENDING; lia].
    + intros _ j e2 Hj H2 U2. cbn [with_state ae_ipaddr]. rewrite Ha. now apply (Hne j e2).
  - rewrite (queues_same_q _ i e); [exact Hp|exact He|reflexivity].
Qed.

(** The state in which [etharp_query] looks at the entry: pending or stable. *)
Lemma query_entry s a i s1 :
  arp_ok s -> arp_ok s1 -> found s a i s1 \/ (no_match (Some a) (arp_table s) /\ created s a i s1) ->
  exists e e2, arp_table s1 !! i = Some e /\
    let s2 := if has_state e ETHARP_STATE_EMPTY then set_entry i (with_state e ETHARP_STATE_PENDING) s1 else s1 in
    arp_table s2 !! i = Some e2 /\ ae_ipaddr e2 = a /\ used e2 /\ arp_ok s2 /\
    arp_store s2 = arp_store s1 /\ arp_world s2 = arp_world s /\
    (is_stable e2 -> arp_table s2 = arp_table s /\ arp_store s2 = arp_store s) /\
    (forall b, ~ In b (queues (arp_table s)) ->
       st_pbufs (arp_store s1) !! b = st_pbufs (arp_store s) !! b /\ st_mem (arp_store s1) !! b = st_mem (arp_store s) !! b).
Proof.
  intros Hs Hok Hfc. destruct (found_or_created s a i s1 Hs Hok Hfc) as (e & He & Ha & Hc & Hw & Hne & _).
  pose proof (lookup_lt_Some _ _ _ He) as Hl. exists e. destruct Hfc as [(e0 & He0 & Hu & _ & ->)|(Hnm & e0 & He0 & Hv & ->)].
  - exists e. cbn [set_cached arp_table] in He. assert (e = e0) by congruence. subst e0. split; [exact He|].
    assert (E : has_state e ETHARP_STATE_EMPTY = false) by now apply has_state_false. rewrite E. cbv zeta.
    repeat split; auto; apply Hok.
  - cbn [arp_table arp_store] in *. rewrite list_lookup_insert_eq in He by (now apply lookup_lt_Some in He0). injection He as <-.
    exists (Entry [] a (ae_ethaddr e0) ETHARP_STATE_PENDING 0 (ae_netif e0)).
    split; [now apply list_lookup_insert_eq; apply lookup_lt_Some in He0|].
    match goal with |- context [has_state ?x ETHARP_STATE_EMPTY] => change (has_state x ETHARP_STATE_EMPTY) with true end.
    cbv zeta iota. cbn [set_entry arp_table arp_store arp_world].
    split; [now apply list_lookup_insert_eq; rewrite ?length_insert in *|]. split; [reflexivity|]. split; [discriminate|].
    split; [|split; [reflexivity|split; [reflexivity|split; [discriminate|]]]].
    + eapply (pending_ok _ i); cbn [arp_table]; [exact Hok|now apply list_lookup_insert_eq; apply lookup_lt_Some in He0|reflexivity|reflexivity|reflexivity|exact Hne].
    + intros b Hb. apply free_blocks_other. intros Hin. apply Hb. now apply (in_queues _ i e0).
Qed.

Definition waits_for s (a : Z) (i : nat) (e : etharp_entry) : Prop :=
  arp_table s !! i = Some e /\ ae_state e = ETHARP_STATE_PENDING /\ ae_ipaddr e = a.

(** The frame of a request for [a], from a pbuf of its own. *)
Definition request_for (n : netif) (a : Z) (p : addr) (st : store) : Prop :=
  exists x, st_pbufs st !! p = Some x /\
    content (st_mem st) [(p, x)] =
      arp_packet ethbroadcast (nf_hwaddr n) ARP_REQUEST (nf_hwaddr n) (nf_ip_addr n) ethzero a.

(** At most such a request has been sent. *)
Definition asked (n : netif) (a : Z) s s' : Prop :=
  arp_world s' = arp_world s \/
  exists p st1, request_for n a p st1 /\ arp_world s' = snd (linkoutput n p st1 (arp_world s)).

(** The packet is sent at once, or queued behind a request, or dropped. *)
Definition query_result (n : netif) (a : Z) (q : addr) (l : list (addr * pbuf)) s (r : Z) s' : Prop :=
  (exists eth x st1, maps (arp_table s) a eth /\ st_pbufs (arp_store s) !! q = Some x /\ framed n eth x (arp_store s) st1 /\
     r = fst (linkoutput n q st1 (arp_world s)) /\ arp_world s' = snd (linkoutput n q st1 (arp_world s)) /\
     arp_store s' = st1 /\ arp_table s' = arp_table s) \/
  (exists i e, waits_for s' a i e /\ asked n a s s' /\
     ((exists q0 p x, ae_q e = q0 ++ [p] /\ st_pbufs (arp_store s') !! p = Some x /\
         bytes_of (st_mem (arp_store s')) x = content (st_mem (arp_store s)) l /\ r = ERR_OK) \/
      content (st_mem (arp_store s')) l = content (st_mem (arp_store s)) l)).

Lemma query_spec n a q l s :
  arp_ok s -> netif_ok n -> unicast n a -> outgoing (arp_store s) q l ->
  (forall b, In b (map fst l) -> ~ In b (queues (arp_table s))) ->
  surely (etharp_query junk linkoutput n a (Some q) s)
    (fun '(r, s') => arp_ok s' /\ untouched s s' l /\ query_result n a q l s r s').
Proof.
  intros Hs Hn (U1 & U2 & U3) Hq Hd. unfold etharp_query. rewrite U1, U2, U3. cbn [orb].
  destruct (find_entry_spec a ETHARP_TRY_HARD s Hs) as (r & s1 & Ef & Hok & [(-> & _ & _ & Hno)|(i & -> & Hi & Hfc)]); rewrite Ef, bind_ret.
  { destruct Hno as [Hno|[Hno _]]; exfalso; revert Hno; [intros Hno; now apply Hno|discriminate]. }
  case_bool (Z.of_nat i <? 0); [lia|]. rewrite Nat2Z.id.
  assert (Hfc' : found s a i s1 \/ (no_match (Some a) (arp_table s) /\ created s a i s1)) by (destruct Hfc as [H|(_ & H & H')]; auto).
  destruct (query_entry s a i s1 Hs Hok Hfc') as (e & e2 & He & H2). cbv zeta in H2.
  rewrite (entry_some _ _ _ He), bind_ret. set (s2 := if has_state e ETHARP_STATE_EMPTY then _ else s1) in *.
  destruct H2 as (He2 & Ha & Hu & Hok2 & Est & Ew & Hstable & Hkeep). rewrite (entry_some _ _ _ He2), bind_ret.
  destruct (outgoing_ext (arp_store s) (arp_store s2) q l Hq) as [Hq2 Ec]; [rewrite Est; intros b Hb; now apply Hkeep, Hd|].
  assert (Hunt : untouched s s2 l) by (intros b Hb; rewrite Est; now apply Hkeep, Hd).
  destruct (ae_state e2) eqn:Es2; [now destruct Hu| |].
  - assert (E1 : has_state e2 ETHARP_STATE_PENDING = true) by now apply has_state_true.
    assert (E3 : has_state e2 ETHARP_STATE_STABLE = false) by (apply has_state_false; congruence).
    rewrite E1, E3. cbn [orb]. rewrite lwip_assert_true, bind_ret by reflexivity.
    eapply surely_bind; [apply raw_spec; [exact Hn|apply Hn|reflexivity|apply Hn|reflexivity]|]. intros [r s3] Hr.
    assert (H3 : arp_ok s3 /\ arp_table s3 = arp_table s2 /\ arp_store s3 = arp_store s2 /\ asked n a s s3).
    { destruct Hr as [[_ ->]|(p & st1 & Hc & Hx & _ & ->)]; [split; [exact Hok2|]; split; [reflexivity|]; split; [reflexivity|]; now left|].
      split; [destruct Hok2; now constructor|]. split; [reflexivity|]. split; [reflexivity|]. right. exists p, st1.
      split; [eexists; split; [exact Hx|exact Hc]|]. cbn [arp_world]. now rewrite Ew. }
    destruct H3 as (Hok3 & Et3 & Est3 & Hask).
    eapply surely_weaken; [apply (queue_packet_spec i e2 q l r s3 Hok3); [now rewrite Et3|exact Es2|now rewrite Est3]|].
    intros [r' s'] (Hok' & Hu' & Hcase). split; [exact Hok'|]. split.
    { intros b Hb. rewrite (Hu' b Hb), Est3. now apply Hunt. }
    right. destruct Hcase as [[-> ->]|[-> (e' & p & x & He' & Et' & Ew' & Hx & Hb)]].
    + exists i, e2. rewrite Est3, Ec. split; [split; [now rewrite Et3|auto]|]. split; [exact Hask|]. now right.
    + assert (e' = e2) by (rewrite Et3 in He'; congruence). subst e'. exists i, (with_q e2 (ae_q e2 ++ [p])).
      split; [split; [|auto]|].
      * rewrite Et'. apply list_lookup_insert_eq. now apply lookup_lt_Some in He'.
      * split; [unfold asked in *; now rewrite Ew'|]. left. exists (ae_q e2), p, x. rewrite Hb, Est3, Ec. auto.
  - assert (E1 : has_state e2 ETHARP_STATE_PENDING = false) by (apply has_state_false; congruence).
    assert (E3 : has_state e2 ETHARP_STATE_STABLE = true) by now apply has_state_true.
    rewrite E1, E3. cbn [orb]. rewrite lwip_assert_true, bind_ret by reflexivity.
    rewrite bool_decide_eq_false_2 by discriminate. rewrite bind_ret.
    destruct (Hstable Es2) as [Et Est'].
    destruct Hq2 as [Hc (x & l' & -> & _ & Hlen)]. destruct (copyable_cons _ _ _ _ _ _ Hc) as ((_ & Hx & _) & (Hv & Hw & _) & _).
    assert (Heok : entry_ok e2) by (eapply Forall_lookup_1; [apply (ao_table _ Hok2)|exact He2]).
    destruct (send_ip_spec n q (ae_ethaddr e2) s2 x Hn (proj2 (eo_stable _ Heok Es2)) Hx Hv Hlen) as (st1 & Hf & Es).
    rewrite Es. apply surely_ret. split; [|split].
    + constructor; cbn [arp_table etharp_cached_entry arp_store]; [apply Hok2|apply Hok2|].
      destruct (ao_packets _ Hok2) as [Hnd Hfa]. split; [exact Hnd|]. eapply Forall_impl; [exact Hfa|].
      intros b. now apply (queued_framed n (ae_ethaddr e2) q x (arp_store s2)).
    + intros b Hb. cbn [arp_store]. rewrite (proj1 Hf). now apply Hunt.
    + left. exists (ae_ethaddr e2), x, st1. rewrite Est' in *. rewrite Ew in *. cbn [arp_table arp_store arp_world].
      split; [|auto 8]. exists e2. rewrite <- Et. split; [|auto]. apply list_elem_of_In. now apply list_elem_of_lookup_2 in He2.
Qed.
End Send.
