(* ===== verification/EtharpInput.v ===== *)
(** * lwIP: reception of ARP packets

    What [etharp_arp_input] does with a packet for the interface: it learns
    the sender and answers a request in the pbuf of the request. *)
From Stdlib Require Import ZArith List Lia Bool.
From stdpp Require Import base gmap list.
From S2P Require Import Prelude CMonad Pbuf PbufChain PbufData PbufEdit PbufAlloc.
From S2P Require Import Inet Netif Etharp EtharpTable EtharpSpec.
#[local] Open Scope Z_scope.
#[local] Open Scope cmonad_scope.

(** ** Fields of a packet *)

(** A list of six octets, spelled out. *)
Lemma six (l : list Z) : length l = 6%nat -> exists a b c d e f, l = [a; b; c; d; e; f].
Proof. intros H. do 6 (destruct l as [|? l]; [discriminate|]). destruct l; [|discriminate]. eauto 8. Qed.

(** The lengths of the hardware addresses of a packet. *)
Definition arp_args (ed es sh dh : list Z) : Prop :=
  length ed = 6%nat /\ length es = 6%nat /\ length sh = 6%nat /\ length dh = 6%nat.

Ltac six_all := repeat match goal with H : length ?l = 6%nat |- _ =>
  let E := fresh in destruct (six l H) as (? & ? & ? & ? & ? & ? & E); clear H; subst l end.

Lemma arp_packet_fields ed es op sh si dh di pad :
  arp_args ed es sh dh -> 0 <= si < 4294967296 -> 0 <= di < 4294967296 -> 0 <= op < 65536 ->
  let data := firstn 42 (arp_packet ed es op sh si dh di ++ pad) in
  arp_header_ok data = true /\ le_value (bytes_at data 28 4) = si /\ le_value (bytes_at data 38 4) = di /\
  bytes_at data 22 6 = sh /\ bytes_at data 12 8 = bytes_at (arp_packet ed es op sh si dh di) 12 8 /\
  bytes_at data 28 4 = field32 si.
Proof.
  intros (L1 & L2 & L3 & L4) Hs Hd Ho. cbv zeta.
  rewrite firstn_app, firstn_all2, (arp_packet_length _ _ _ _ _ _ _ L1 L2 L3 L4), Nat.sub_diag by now rewrite arp_packet_length.
  rewrite firstn_O, app_nil_r. six_all.
  split; [reflexivity|]. split; [apply (field32_value si Hs)|]. split; [apply (field32_value di Hd)|]. repeat split.
Qed.

Lemma arp_opcode ed es op sh si dh di pad :
  arp_args ed es sh dh -> 0 <= op < 65536 ->
  htons (le_value (firstn 2 (skipn 20 (arp_packet ed es op sh si dh di ++ pad)))) = op.
Proof.
  intros (L1 & L2 & L3 & L4) Ho. six_all. change (htons (le_value (field16 (htons op))) = op).
  destruct (two_bytes op Ho) as (b0 & b1 & H0 & H1 & ->). rewrite htons_of_bytes by assumption.
  rewrite field16_value by lia. now apply htons_of_bytes.
Qed.

(** ** What resolution leaves alone *)

Section Input.
Context {W : Type} (linkoutput : netif -> addr -> store -> W -> Z * W).
Implicit Types s : arp W.

(** The pbuf and the memory of [b]. *)
Definition same_at (st st' : store) (b : addr) : Prop :=
  st_pbufs st' !! b = st_pbufs st !! b /\ st_mem st' !! b = st_mem st !! b.

Lemma flush_other n dst ps r r' b :
  flush linkoutput n dst ps r r' -> packets_ok (fst r) ps -> ~ In b ps -> same_at (fst r) (fst r') b.
Proof.
  intros Hf. revert b. induction Hf as [r|p ps x st st1 w r Hx Hfr Hf IH]; intros b Hp Hb; [now split|]. cbn [fst] in *.
  destruct (packets_tail _ _ _ Hp) as ((y & Hy & _ & [o Hw] & _) & _ & _). assert (y = x) by congruence. subst y. cbn [fst snd] in Hw.
  assert (Hp1 : packets_ok st1 (p :: ps)).
  { destruct Hp as [Hnd Hfa]. split; [exact Hnd|]. eapply Forall_impl; [exact Hfa|].
    intros a. apply (queued_framed n dst p x st); [exact Hx|now exists o|exact Hfr]. }
  destruct (IH b (packets_free _ _ _ Hp1)) as [E1 E2]; [intros Hin; apply Hb; now right|].
  assert (Hne : b <> p) by (intros ->; apply Hb; now left).
  destruct (free_block_other st1 p b Hne) as [F1 F2]. destruct Hfr as (Ep & _ & b' & o' & Hp' & [Hr _]).
  unfold same_at. rewrite E1, E2, F1, F2, Ep, Hr; [now split|]. rewrite Hw in Hp'. injection Hp' as <- <-. intros [E|[]]. now apply Hne.
Qed.

Lemma queues_insert_nil t i e e' b : t !! i = Some e -> ae_q e' = [] -> In b (queues (<[i := e']> t)) -> In b (queues t).
Proof.
  intros He Hq. destruct (queues_at t i e He) as (q1 & q2 & -> & ->). rewrite Hq. cbn [app]. rewrite !in_app_iff. tauto.
Qed.

(** [update_arp_entry] with [ETHARP_TRY_HARD] resolves the address. *)
Lemma update_resolves n a eth s :
  arp_ok s -> netif_ok n -> length eth = 6%nat -> unicast n a ->
  exists s', update_arp_entry linkoutput n a eth ETHARP_TRY_HARD s = ret (ERR_OK, s') /\ arp_ok s' /\
    maps (arp_table s') a eth /\
    forall b, ~ In b (queues (arp_table s)) -> same_at (arp_store s) (arp_store s') b /\ ~ In b (queues (arp_table s')).
Proof.
  intros Hs Hn Hd Hu. destruct (update_spec linkoutput n a eth ETHARP_TRY_HARD s Hs Hn Hd Hu) as (r & s' & E & Hok & H).
  destruct H as [(_ & _ & _ & [H|[H _]])|(-> & i & e & s1 & Hfc & He & Hf & Et)]; [now destruct H|discriminate|].
  exists s'. split; [exact E|]. split; [exact Hok|]. pose proof (lookup_lt_Some _ _ _ He) as Hl. split.
  - exists (Entry [] a eth ETHARP_STATE_STABLE 0 (nf_num n)). split; [|now split].
    rewrite Et. apply list_elem_of_In. apply (list_elem_of_lookup_2 _ i). now apply list_lookup_insert_eq.
  - intros b Hb. split.
    2:{ intros Hin. apply Hb. rewrite Et in Hin. apply (queues_insert_nil _ i e) in Hin; [|exact He|reflexivity].
        destruct Hfc as [(e0 & He0 & _ & _ & ->)|(_ & e0 & He0 & _ & ->)]; [exact Hin|].
        cbn [arp_table] in Hin. now apply (queues_insert_nil _ i e0) in Hin. }
    pose proof (flush_other _ _ _ _ _ b Hf) as Hk. cbn [fst] in Hk.
    destruct Hfc as [(e0 & He0 & _ & _ & ->)|(_ & e0 & He0 & _ & ->)]; cbn [set_cached arp_table arp_store] in *.
    + assert (e0 = e) by congruence. subst e0. apply Hk.
      * destruct (queues_at _ _ _ He) as (q1 & q2 & Eq & _). pose proof (ao_packets _ Hs) as [Hnd Hfa]. rewrite Eq in Hnd, Hfa.
        split; [exact (NoDup_app_remove_r _ _ (NoDup_app_remove_l _ _ Hnd))|]. apply Forall_app in Hfa as [_ Hfa]. now apply Forall_app in Hfa as [Hfa _].
      * intros Hin. apply Hb. now apply (in_queues _ i e).
    + rewrite list_lookup_insert_eq in He by (now apply lookup_lt_Some in He0). injection He as <-. cbn [ae_q] in *.
      destruct Hk as [K1 K2]; [split; constructor|auto|].
      destruct (free_blocks_other (ae_q e0) (arp_store s) b) as [F1 F2]; [intros Hin; apply Hb; now apply (in_queues _ i e0)|].
      unfold same_at. now rewrite K1, K2, F1, F2.
Qed.

(** ** Reception *)

(** A packet in one pbuf that the receiver owns and no queue holds. *)
Definition received s (p : addr) (bs : list Z) : Prop :=
  exists x pad, st_pbufs (arp_store s) !! p = Some x /\ queued (arp_store s) p /\
    bytes_of (st_mem (arp_store s)) x = bs ++ pad /\ ~ In p (queues (arp_table s)).

Lemma received_same s s' p bs :
  received s p bs -> same_at (arp_store s) (arp_store s') p -> ~ In p (queues (arp_table s')) -> received s' p bs.
Proof.
  intros (x & pad & Hx & Hq & Hb & _) [E1 E2] Hn. exists x, pad. split; [congruence|]. split; [now apply (queued_ext (arp_store s))|].
  split; [|exact Hn]. destruct Hq as (y & Hy & _ & [o Hw] & _). assert (y = x) by congruence. subst y. cbn [fst snd] in Hw.
  rewrite <- Hb. unfold bytes_of. rewrite Hw. unfold block. now rewrite E2.
Qed.

Lemma received_parts s p bs : received s p bs -> length bs = 42%nat ->
  exists x pad o, st_pbufs (arp_store s) !! p = Some x /\ valid (st_mem (arp_store s)) x /\ pb_payload x = Some (p, o) /\
    42 <= pb_len x /\ bytes_of (st_mem (arp_store s)) x = bs ++ pad.
Proof.
  intros (x & pad & Hx & (y & Hy & _ & [o Hw] & Hv & _) & Hb & _) Hl. assert (y = x) by congruence. subst y.
  exists x, pad, o. pose proof (bytes_length _ _ Hv) as Hlen. rewrite Hb, length_app, Hl in Hlen. destruct Hv as [H0 Hv].
  split; [exact Hx|]. split; [now split|]. split; [exact Hw|]. split; [lia|exact Hb].
Qed.

Lemma reply_spec n ethaddr p s ed es op sh si dh di :
  netif_ok n -> length ethaddr = 6%nat -> arp_args ed es sh dh -> 0 <= si < 4294967296 -> 0 <= di < 4294967296 -> 0 <= op < 65536 ->
  received s p (arp_packet ed es op sh si dh di) -> arp_ok s ->
  exists st1, let w := snd (linkoutput n p st1 (arp_world s)) in
    let s' := Arp (arp_table s) (etharp_cached_entry s) st1 w in
    arp_reply linkoutput n ethaddr p s = ret s' /\ arp_ok s' /\
    received s' p (arp_packet sh ethaddr ARP_REPLY ethaddr (nf_ip_addr n) sh si).
Proof.
  intros Hn He Ha Hsi Hdi Hop Hr Hs. pose proof Ha as (L1 & L2 & L3 & L4).
  pose proof (arp_packet_length ed es op sh si dh di L1 L2 L3 L4) as Hlen.
  destruct (received_parts _ _ _ Hr Hlen) as (x & pad & o & Hx & Hv & Hp & Hl & Hb). unfold arp_reply.
  rewrite (fetch_some _ p x), bind_ret by exact Hx. change SIZEOF_ETHARP_PACKET with 42.
  rewrite load_bytes, bind_ret by (auto; lia). change (Z.to_nat 0) with 0%nat. change (Z.to_nat 42) with 42%nat.
  rewrite drop_0, Hb. rewrite (no_len _ Hn), lwip_assert_true, bind_ret by reflexivity.
  destruct (arp_packet_fields ed es op sh si dh di pad Ha Hsi Hdi Hop) as (_ & _ & _ & F1 & F2 & F3). rewrite F1, F2, F3.
  match goal with |- context [save _ _ 0 ?b] => set (bs := b) end.
  assert (Ebs : bs = arp_packet sh ethaddr ARP_REPLY ethaddr (nf_ip_addr n) sh si).
  { subst bs. clear - L1 L2 L3 L4 He. six_all. reflexivity. }
  assert (Hbs : length bs = 42%nat) by (rewrite Ebs; now apply arp_packet_length).
  destruct (save_bytes (arp_store s) x p o 0 bs Hp Hv) as (m' & Es & Eb & Hrw); [lia|rewrite Hbs; cbn; lia|].
  rewrite Es, bind_ret. exists (Store (st_pbufs (arp_store s)) m'). cbv zeta. destruct (linkoutput n p _ _) as [err w]. cbn [snd].
  split; [reflexivity|]. destruct Hr as (x0 & _ & Hx0 & Hq & _ & Hni).
  assert (Hq' : forall b, queued (arp_store s) b -> queued (Store (st_pbufs (arp_store s)) m') b).
  { intros b (y & H1 & H2 & H3 & H4 & H5). exists y. cbn [st_pbufs st_mem]. split; [exact H1|]. split; [exact H2|].
    split; [exact H3|]. split; [|exact H5]. now apply (valid_rewritten _ _ _ _ Hrw). }
  split.
  - destruct Hs as [H1 H2 [Hnd Hfa]]. constructor; cbn [arp_table etharp_cached_entry arp_store]; [exact H1|exact H2|].
    split; [exact Hnd|]. eapply Forall_impl; [exact Hfa|exact Hq'].
  - exists x, pad. cbn [arp_store arp_table st_pbufs st_mem]. split; [exact Hx|]. split; [now apply Hq'|]. split; [|exact Hni].
    rewrite Eb, Hb, <- Ebs. unfold splice. change (Z.to_nat 0) with 0%nat. rewrite Hbs.
    rewrite firstn_O. cbn [app]. f_equal. rewrite skipn_app, skipn_all2, Hlen by (rewrite Hlen; reflexivity). reflexivity.
Qed.

Lemma free_received s p bs : received s p bs -> arp_ok s ->
  free_packet p s = ret (set_store (free_block p (arp_store s)) s) /\ arp_ok (set_store (free_block p (arp_store s)) s).
Proof.
  intros (x & pad & _ & Hq & _ & Hn) [H1 H2 H3]. unfold free_packet. rewrite free_queued, bind_ret by exact Hq.
  split; [reflexivity|]. constructor; cbn [set_store arp_table etharp_cached_entry arp_store]; [exact H1|exact H2|].
  eapply packets_ext; [|exact H3]. intros b Hb. apply free_block_other. intros ->. contradiction.
Qed.

(** An ARP packet for the interface: the sender is learnt, and a request is
    answered in its own pbuf, which is freed in the end. *)
Lemma arp_input_spec n ethaddr p s ed es op sh si dh :
  arp_ok s -> netif_ok n -> length ethaddr = 6%nat -> arp_args ed es sh dh -> 0 <= si < 4294967296 -> 0 <= op < 65536 ->
  0 < nf_ip_addr n < 4294967296 -> unicast n si -> received s p (arp_packet ed es op sh si dh (nf_ip_addr n)) ->
  exists s1 s2 s', etharp_arp_input linkoutput n ethaddr p s = ret s' /\ arp_ok s' /\ maps (arp_table s') si sh /\
    update_arp_entry linkoutput n si sh ETHARP_TRY_HARD s = ret (ERR_OK, s1) /\
    received s2 p (if op =? ARP_REQUEST then arp_packet sh ethaddr ARP_REPLY ethaddr (nf_ip_addr n) sh si
                   else arp_packet ed es op sh si dh (nf_ip_addr n)) /\
    s' = Arp (arp_table s1) (etharp_cached_entry s1) (free_block p (arp_store s2)) (arp_world s') /\
    arp_world s' = (if op =? ARP_REQUEST then snd (linkoutput n p (arp_store s2) (arp_world s1)) else arp_world s1).
Proof.
  intros Hs Hn He Ha Hsi Hop Hip Hu Hr. pose proof Ha as (L1 & L2 & L3 & L4).
  pose proof (arp_packet_length ed es op sh si dh (nf_ip_addr n) L1 L2 L3 L4) as Hlen.
  destruct (received_parts _ _ _ Hr Hlen) as (x & pad & o & Hx & Hv & Hp & Hl & Hb). unfold etharp_arp_input.
  rewrite (fetch_some _ p x), bind_ret by exact Hx. change SIZEOF_ETHARP_PACKET with 42. case_bool (pb_len x <? 42); [lia|].
  rewrite load_bytes, bind_ret by (auto; lia). change (Z.to_nat 0) with 0%nat. change (Z.to_nat 42) with 42%nat. rewrite drop_0, Hb.
  destruct (arp_packet_fields ed es op sh si dh (nf_ip_addr n) pad Ha Hsi ltac:(lia) Hop) as (F1 & F2 & F3 & F4 & _ & _).
  rewrite F1, F2, F3, F4. cbn [negb]. case_bool (nf_ip_addr n =? 0); [lia|]. rewrite Z.eqb_refl. cbv iota zeta.
  destruct (update_resolves n si sh s Hs Hn L3 Hu) as (s1 & E1 & Hok & Hm & Hk). rewrite E1, bind_ret.
  assert (Hni : ~ In p (queues (arp_table s))) by (destruct Hr as (? & ? & _ & _ & _ & H); exact H).
  destruct (Hk p Hni) as [Hk1 Hni1].
  pose proof (received_same _ _ _ _ Hr Hk1 Hni1) as Hr1.
  destruct (received_parts _ _ _ Hr1 Hlen) as (x1 & pad1 & o1 & Hx1 & Hv1 & Hp1 & Hl1 & Hb1).
  assert (x1 = x) by (destruct Hk1; congruence). subst x1.
  rewrite load_bytes, bind_ret by (auto; lia). rewrite Hb1. change (Z.to_nat 20) with 20%nat. change (Z.to_nat 2) with 2%nat.
  rewrite (arp_opcode _ _ _ _ _ _ _ _ Ha Hop), andb_true_r.
  case_bool (op =? ARP_REQUEST).
  - destruct (reply_spec n ethaddr p s1 ed es op sh si dh (nf_ip_addr n) Hn He Ha Hsi ltac:(lia) Hop Hr1 Hok) as (st1 & Er & Hok2 & Hr2).
    rewrite Er, bind_ret. set (s2 := Arp _ _ st1 _) in *. destruct (free_received s2 p _ Hr2 Hok2) as [-> Hok3].
    exists s1, s2, (set_store (free_block p (arp_store s2)) s2). repeat (split; [first [reflexivity|assumption]|]). reflexivity.
  - rewrite bind_ret. destruct (free_received s1 p _ Hr1 Hok) as [-> Hok3].
    exists s1, s1, (set_store (free_block p (arp_store s1)) s1). repeat (split; [first [reflexivity|assumption]|]). reflexivity.
Qed.
End Input.
