(* ===== verification/EtharpTheorems.v ===== *)
(** * lwIP ARP: the properties

    Safety of the table, lookup, resolution, expiry, the treatment of packets
    for unresolved addresses, and the exchange of a request and its reply. *)
From Stdlib Require Import ZArith List Lia Bool.
From stdpp Require Import base gmap list.
From S2P Require Import Prelude CMonad Pbuf PbufChain PbufData PbufEdit PbufAlloc.
From S2P Require Import Inet Netif Etharp EtharpTable EtharpSpec EtharpInput.
#[local] Open Scope Z_scope.
#[local] Open Scope cmonad_scope.

(** ** A network for the examples

    Two hosts on 10.0.0.0/24; the link keeps what it is given.  The first
    host has a packet waiting for the second one and knows a third one. *)

Definition frames : Type := list (list Z).

Definition toy_link (n : netif) (p : addr) (st : store) (w : frames) : Z * frames :=
  (ERR_OK, w ++ [match st_pbufs st !! p with Some x => bytes_of (st_mem st) x | None => [] end]).

Definition host (i : Z) : Z := 10 + 16777216 * i.
Definition hw (i : Z) : list Z := [2; 0; 0; 0; 0; i].
Definition toy_netif (i : Z) : netif := Netif (host i) 0x00ffffff 0 1500 6 (hw i) 0x2 i.

Definition blank : etharp_entry := Entry [] 0 ethzero ETHARP_STATE_EMPTY 0 0.

(** Pbuf 1 waits, pbuf 2 holds an ARP packet. *)
Definition toy_request : list Z := arp_packet ethbroadcast (hw 1) ARP_REQUEST (hw 1) (host 1) ethzero (host 2).
Definition toy_reply : list Z := arp_packet (hw 1) (hw 2) ARP_REPLY (hw 2) (host 2) (hw 1) (host 1).

Definition toy_pbufs (bs : list Z) : store :=
  Store (<[1%positive := Pbuf None (Some (1%positive, 0)) 20 20 PBUF_RAM 0 1]>
           (<[2%positive := Pbuf None (Some (2%positive, 0)) 42 42 PBUF_RAM 0 1]> ∅))
    (<[1%positive := repeat 7 20]> (<[2%positive := bs]> ∅)).

Definition toy_arp (bs : list Z) : arp frames :=
  Arp (Entry [1%positive] (host 2) ethzero ETHARP_STATE_PENDING 1 1 ::
       Entry [] (host 3) (hw 3) ETHARP_STATE_STABLE 7 1 :: repeat blank 8) 0 (toy_pbufs bs) [].

Lemma distinct_pair e1 e2 n : ae_ipaddr e1 <> ae_ipaddr e2 -> distinct (e1 :: e2 :: repeat blank n).
Proof.
  intros Hne i j e e' Hi Hj Ui Uj E.
  assert (Hb : forall k x, repeat blank n !! k = Some x -> ~ used x).
  { intros k x Hk. apply list_elem_of_lookup_2, list_elem_of_In, repeat_spec in Hk. subst x. intros U. now apply U. }
  destruct i as [|[|i]], j as [|[|j]]; cbn in Hi, Hj; try reflexivity; try congruence.
  all: exfalso; first [now apply (Hb _ _ Hi) | now apply (Hb _ _ Hj)].
Qed.

Lemma toy_arp_ok bs : arp_ok (toy_arp bs).
Proof.
  constructor; [constructor| |].
  - reflexivity.
  - assert (Hb : entry_ok blank) by (constructor; cbn; [auto|lia|discriminate|discriminate]).
    constructor; [|constructor; [|apply Forall_forall; intros e He; apply list_elem_of_In, repeat_spec in He; now subst e]].
    + constructor; cbn; [congruence|lia|discriminate|unfold ARP_MAXPENDING; lia].
    + constructor; cbn; [auto|lia|unfold ARP_MAXAGE; split; [lia|reflexivity]|discriminate].
  - apply distinct_pair. discriminate.
  - unfold ARP_TABLE_SIZE. cbn. lia.
  - split; [repeat constructor; intros []|]. constructor; [|constructor].
    eexists. split; [reflexivity|]. split; [reflexivity|]. split; [now exists 0|]. split; [split; [cbn; lia|intros _; split; [lia|vm_compute; discriminate]]|].
    unfold SIZEOF_ETH_HDR. cbn. repeat split; lia.
Qed.

Lemma toy_netif_ok i : netif_ok (toy_netif i).
Proof. now split. Qed.

Lemma toy_received bs : length bs = 42%nat -> received (toy_arp bs) 2%positive bs.
Proof.
  intros Hl. set (x := Pbuf None (Some (2%positive, 0)) 42 42 PBUF_RAM 0 1).
  assert (Hv : valid (st_mem (toy_pbufs bs)) x).
  { split; cbn; [lia|]. intros _. unfold block. cbn [toy_pbufs st_mem].
    rewrite lookup_insert_ne, lookup_insert_eq by discriminate. lia. }
  exists x, []. split; [reflexivity|]. split; [|split].
  - exists x. split; [reflexivity|]. split; [reflexivity|]. split; [now exists 0|]. split; [exact Hv|].
    unfold SIZEOF_ETH_HDR. cbn. repeat split; lia.
  - rewrite app_nil_r. unfold bytes_of, block. cbn [x pb_payload pb_len toy_arp arp_store toy_pbufs st_mem].
    rewrite lookup_insert_ne, lookup_insert_eq by discriminate. rewrite drop_0. apply firstn_all2. rewrite Hl. reflexivity.
  - cbn. intros [E|[]]. discriminate.
Qed.

(** ** Lookup *)

(** [etharp_find_addr] is the lookup function of the table: it returns the
    hardware address an address is resolved to and -1 exactly for addresses
    without resolution, pending ones included; no entry, packet or other state
    changes and the invariant of the table holds again. *)
Theorem arp_lookup_correct {W} (s : arp W) a (H : arp_ok s) :
  exists i o s', etharp_find_addr a s = ret (i, o, s') /\ arp_ok s' /\
    arp_table s' = arp_table s /\ arp_store s' = arp_store s /\ arp_world s' = arp_world s /\
    match o with
    | Some (eth, ip) => ip = a /\ 0 <= i < 10 /\ maps (arp_table s) a eth /\ forall eth', maps (arp_table s) a eth' -> eth' = eth
    | None => i = -1 /\ forall eth, ~ maps (arp_table s) a eth
    end.
Proof.
  unfold etharp_find_addr.
  destruct (find_entry_spec a ETHARP_FIND_ONLY s H) as (r & s' & E & Hok & [(-> & Hnm & -> & _)|(i & -> & Hi & [Hf|(Hc & _)])]);
    [| |discriminate]; rewrite E, bind_ret.
  - exists (-1), None, s. do 5 (split; [first [reflexivity|assumption]|]). split; [reflexivity|].
    intros eth (e & Hin & Hst & Ha & _). pose proof (proj1 (List.Forall_forall _ _) Hnm e Hin) as Hm. cbn [matches] in Hm.
    assert (Hu : used e) by (unfold used, is_stable in *; congruence). specialize (Hm Hu). apply Z.eqb_neq in Hm. congruence.
  - destruct Hf as (e & He & Hu & Ha & ->). case_bool (0 <=? Z.of_nat i); [|lia]. rewrite Nat2Z.id.
    rewrite (entry_some (set_cached i s) _ _ He), bind_ret.
    assert (Huniq : forall e', In e' (arp_table s) -> used e' -> ae_ipaddr e' = a -> e' = e).
    { intros e' Hin Hu' Ha'. apply list_elem_of_In, list_elem_of_lookup in Hin as (j & Hj).
      assert (j = i) by (eapply (to_distinct _ (ao_table _ H)); eauto; congruence). congruence. }
    assert (Hin : In e (arp_table s)) by (apply list_elem_of_In; now apply list_elem_of_lookup_2 in He).
    destruct (has_state e ETHARP_STATE_STABLE) eqn:Es.
    + apply has_state_true in Es. exists (Z.of_nat i), (Some (ae_ethaddr e, ae_ipaddr e)), (set_cached i s).
      do 5 (split; [first [reflexivity|assumption]|]). split; [exact Ha|]. split; [unfold ARP_TABLE_SIZE in Hi; lia|].
      split; [exists e; auto|]. intros eth' (e' & Hin' & Hst' & Ha' & <-). f_equal. apply Huniq; auto. unfold used, is_stable in *. congruence.
    + apply has_state_false in Es. exists (-1), None, (set_cached i s).
      do 5 (split; [first [reflexivity|assumption]|]). split; [reflexivity|].
      intros eth (e' & Hin' & Hst' & Ha' & _). apply Es. rewrite <- (Huniq e'); auto. unfold used, is_stable in *. congruence.
Qed.

Lemma arp_lookup_correct_witness :
  arp_ok (toy_arp []) /\
  exists i o s', etharp_find_addr (host 3) (toy_arp []) = ret (i, o, s') /\ arp_ok s' /\
    arp_table s' = arp_table (toy_arp []) /\ arp_store s' = arp_store (toy_arp []) /\ arp_world s' = [] /\
    match o with
    | Some (eth, ip) => ip = host 3 /\ 0 <= i < 10 /\ maps (arp_table (toy_arp [])) (host 3) eth /\
        forall eth', maps (arp_table (toy_arp [])) (host 3) eth' -> eth' = eth
    | None => i = -1 /\ forall eth, ~ maps (arp_table (toy_arp [])) (host 3) eth
    end.
Proof. split; [exact (toy_arp_ok [])|]. exact (arp_lookup_correct (toy_arp []) (host 3) (toy_arp_ok [])). Defined.

(** ** Resolution *)

(** C37: [update_arp_entry] resolves a unicast address: it gives the address
    the hardware address in the table and sends the packets that waited for
    it in order, each with its Ethernet header, and frees them; the
    resolutions of other addresses stay, except that of one entry, the victim
    of the policy (an empty entry, else the oldest stable one, else the
    oldest pending one), when the address was new.  Without ETHARP_TRY_HARD a
    full table is left as it is.  Nothing is undefined behaviour and the
    invariant of the table holds again. *)
Theorem arp_update_correct {W} (linkoutput : netif -> addr -> store -> W -> Z * W) n a eth flags (s : arp W)
    (H : arp_ok s) (Hn : netif_ok n) (He : length eth = 6%nat) (Hu : unicast n a) :
  exists r s', update_arp_entry linkoutput n a eth flags s = ret (r, s') /\ arp_ok s' /\
    ((r = ERR_MEM /\ s' = s /\ Forall used (arp_table s) /\ no_match (Some a) (arp_table s)) \/
     (Z.land flags ETHARP_FIND_ONLY <> 0 /\ r = ERR_MEM /\ s' = s) \/
     (r = ERR_OK /\ maps (arp_table s') a eth /\
      exists v, In v (arp_table s) /\
        (forall a' eth', a' <> a -> maps (arp_table s') a' eth' -> maps (arp_table s) a' eth') /\
        (forall a' eth', a' <> a -> maps (arp_table s) a' eth' ->
           maps (arp_table s') a' eth' \/ (ae_ipaddr v = a' /\ is_stable v)) /\
        ((used v /\ ae_ipaddr v = a /\
          flush linkoutput n eth (ae_q v) (arp_store s, arp_world s) (arp_store s', arp_world s')) \/
         (no_match (Some a) (arp_table s) /\ victim (arp_table s) v /\ arp_world s' = arp_world s)))).
Proof.
  destruct (update_spec linkoutput n a eth flags s H Hn He Hu) as (r & s' & E & Hok & Hc). exists r, s'.
  split; [exact E|]. split; [exact Hok|].
  destruct Hc as [(-> & Hnm & -> & [Hf|[_ Hf]])|(-> & i & e & s1 & Hfc & He1 & Hfl & Et)];
    [right; left; now split|left; now split|right; right]. split; [reflexivity|].
  assert (Hv : exists v, arp_table s !! i = Some v /\ arp_table s' = <[i := Entry [] a eth ETHARP_STATE_STABLE 0 (nf_num n)]> (arp_table s) /\
    ((used v /\ ae_ipaddr v = a /\ flush linkoutput n eth (ae_q v) (arp_store s, arp_world s) (arp_store s', arp_world s')) \/
     (no_match (Some a) (arp_table s) /\ victim (arp_table s) v /\ arp_world s' = arp_world s))).
  { destruct Hfc as [(v & Hv & U & A & ->)|(Hnm & v & Hv & Hvic & ->)]; exists v; (split; [exact Hv|]); cbn [set_cached arp_table arp_store arp_world] in *.
    - split; [exact Et|]. left. assert (v = e) by congruence. subst v. auto.
    - rewrite list_insert_insert_eq in Et. split; [exact Et|]. right. split; [exact Hnm|]. split; [exact Hvic|].
      rewrite list_lookup_insert_eq in He1 by (now apply lookup_lt_Some in Hv). injection He1 as <-. cbn [ae_q] in Hfl.
      now inversion Hfl. }
  destruct Hv as (v & Hv & Ev & Hcase). pose proof (lookup_lt_Some _ _ _ Hv) as Hl. rewrite Ev. split.
  - eexists. split; [apply list_elem_of_In, (list_elem_of_lookup_2 _ i), list_lookup_insert_eq, Hl|]. now split.
  - exists v. split; [apply list_elem_of_In; now apply list_elem_of_lookup_2 in Hv|]. split; [|split; [|exact Hcase]].
    + intros a' eth' Ha (x & Hin & Hst & Hxa & Hxe). apply list_elem_of_In, list_elem_of_lookup in Hin as (j & Hj).
      destruct (decide (j = i)) as [->|Hji].
      * rewrite list_lookup_insert_eq in Hj by exact Hl. injection Hj as <-. cbn [ae_ipaddr] in Hxa. congruence.
      * rewrite list_lookup_insert_ne in Hj by congruence. exists x. split; [|auto]. apply list_elem_of_In. now apply list_elem_of_lookup_2 in Hj.
    + intros a' eth' Ha (x & Hin & Hst & Hxa & Hxe). apply list_elem_of_In, list_elem_of_lookup in Hin as (j & Hj).
      destruct (decide (j = i)) as [->|Hji]; [right; assert (x = v) by congruence; subst x; auto|left].
      exists x. split; [|auto]. apply list_elem_of_In, (list_elem_of_lookup_2 _ j). now rewrite list_lookup_insert_ne by congruence.
Qed.

Lemma toy_unicast i j : i = 1 \/ i = 2 -> j = 1 \/ j = 2 \/ j = 3 -> unicast (toy_netif i) (host j).
Proof. intros [->| ->] [->|[->| ->]]; repeat split. Qed.

Lemma arp_update_correct_witness :
  exists r s', update_arp_entry toy_link (toy_netif 1) (host 2) (hw 2) ETHARP_TRY_HARD (toy_arp []) = ret (r, s') /\
    arp_world s' = [hw 2 ++ hw 1 ++ [8; 0] ++ repeat 7 6] /\ arp_ok s' /\ maps (arp_table s') (host 2) (hw 2).
Proof.
  destruct (arp_update_correct toy_link (toy_netif 1) (host 2) (hw 2) ETHARP_TRY_HARD (toy_arp [])
    (toy_arp_ok []) (toy_netif_ok 1) eq_refl (toy_unicast 1 2 (or_introl eq_refl) (or_intror (or_introl eq_refl))))
    as (r & s' & E & Hok & Hc).
  exists r, s'. split; [exact E|].
  assert (Er : update_arp_entry toy_link (toy_netif 1) (host 2) (hw 2) ETHARP_TRY_HARD (toy_arp []) [] =
    (Ok (ERR_OK, Arp (Entry [] (host 2) (hw 2) ETHARP_STATE_STABLE 0 1 ::
       Entry [] (host 3) (hw 3) ETHARP_STATE_STABLE 7 1 :: repeat blank 8) 0
       (free_block 1%positive (toy_pbufs [])) [hw 2 ++ hw 1 ++ [8; 0] ++ repeat 7 6]), [])) by (vm_compute; reflexivity).
  rewrite E in Er. injection Er as -> ->.
  destruct Hc as [(Hc & _)|[(Hc & _)|(_ & Hm & _)]]; [discriminate|now destruct Hc|]. auto.
Defined.

(** ** Expiry *)

(** C40: The timer implements the ages: after [k] calls an entry in use has its
    address, hardware address, queue and state as long as its age, [k] more
    than before, is below the limit of its state (240 for resolved, 2 for
    pending entries), and from then on it is empty, its packets freed.  No
    entry is in use after 240 calls.  Nothing is undefined behaviour and the
    invariant of the table holds throughout. *)
Theorem arp_expiry_correct {W} (s : arp W) k (H : arp_ok s) :
  exists s', ticks k s = ret s' /\ arp_ok s' /\ arp_world s' = arp_world s /\
    (forall i e, arp_table s !! i = Some e -> used e ->
       exists e', arp_table s' !! i = Some e' /\
         (ae_ctime e + Z.of_nat k < limit e -> e' = with_ctime e (ae_ctime e + Z.of_nat k)) /\
         (limit e <= ae_ctime e + Z.of_nat k -> ae_state e' = ETHARP_STATE_EMPTY /\ ae_q e' = [])) /\
    ((240 <= k)%nat -> Forall (fun e => ae_state e = ETHARP_STATE_EMPTY) (arp_table s') /\ queues (arp_table s') = []).
Proof.
  destruct (ticks_spec k s H) as (s' & E & Hok & Et & Ew). exists s'.
  split; [exact E|]. split; [exact Hok|]. split; [exact Ew|].
  assert (Hk : forall i e, arp_table s !! i = Some e -> entry_ok e) by (intros i e; apply (Forall_lookup_1 _ _ _ _ (to_entries _ (ao_table _ H)))).
  split.
  - intros i e He U. exists (Nat.iter k tick e). rewrite Et, iter_map_tick, He. split; [reflexivity|].
    apply used_ticks; [now apply (Hk i)|exact U].
  - intros Hle. assert (Hall : Forall (fun e => ae_state e = ETHARP_STATE_EMPTY /\ ae_q e = []) (arp_table s')).
    { apply Forall_lookup_2. intros i x Hx. rewrite Et, iter_map_tick in Hx.
      destruct (arp_table s !! i) as [e|] eqn:He; [|discriminate]. injection Hx as <-. pose proof (Hk i e He) as Hek.
      destruct (decide (ae_state e = ETHARP_STATE_EMPTY)) as [Es|Es].
      - apply empty_ticks; [exact Es|]. apply Hek. congruence.
      - apply used_ticks; [exact Hek|exact Es|]. pose proof (eo_ctime _ Hek). unfold limit.
        destruct (ae_state e); [now destruct Es| |]; unfold ARP_MAXPENDING, ARP_MAXAGE; lia. }
    split; [eapply Forall_impl; [exact Hall|]; now intros x [? _]|].
    clear - Hall. unfold queues. induction Hall as [|x t [_ Hx] _ IH]; [reflexivity|]. cbn [map concat]. now rewrite Hx, IH.
Qed.

Lemma arp_expiry_correct_witness :
  arp_ok (toy_arp []) /\
  exists s', ticks 1 (toy_arp []) = ret s' /\ arp_ok s' /\ map ae_state (firstn 2 (arp_table s')) = [ETHARP_STATE_EMPTY; ETHARP_STATE_STABLE].
Proof.
  split; [exact (toy_arp_ok [])|]. destruct (arp_expiry_correct (toy_arp []) 1 (toy_arp_ok [])) as (s' & E & Hok & _).
  exists s'. split; [exact E|]. split; [exact Hok|].
  assert (Er : match ticks 1 (toy_arp []) [] with (Ok x, _) => map ae_state (firstn 2 (arp_table x)) | _ => [] end =
    [ETHARP_STATE_EMPTY; ETHARP_STATE_STABLE]) by (vm_compute; reflexivity).
  rewrite E in Er. exact Er.
Defined.

(** ** Packets for unresolved addresses *)

(** [etharp_query] with a packet: when the address is resolved, the packet
    itself is sent with its Ethernet header; otherwise the entry of the
    address is pending, nothing but a request for it has been sent, and a copy
    of the bytes of the packet is the last one of its queue, or there was no
    memory for the copy; the packet stays with the caller.  Nothing is
    undefined behaviour and the invariant of the table holds again. *)
Theorem arp_query_correct {W} junk (linkoutput : netif -> addr -> store -> W -> Z * W) n a q l (s : arp W)
    (H : arp_ok s) (Hn : netif_ok n) (Hu : unicast n a) (Hq : outgoing (arp_store s) q l)
    (Hd : forall b, In b (map fst l) -> ~ In b (queues (arp_table s))) :
  surely (etharp_query junk linkoutput n a (Some q) s)
    (fun '(r, s') => arp_ok s' /\ untouched s s' l /\ query_result linkoutput n a q l s r s').
Proof. now apply query_spec. Qed.

(** The packet of pbuf 2, as the IP layer hands it over. *)
Definition toy_out (bs : list Z) : list (addr * pbuf) :=
  [(2%positive, Pbuf None (Some (2%positive, 0)) 42 42 PBUF_RAM 0 1)].

Lemma toy_outgoing bs : length bs = 42%nat -> outgoing (arp_store (toy_arp bs)) 2%positive (toy_out bs).
Proof.
  intros Hl. destruct (toy_received bs Hl) as (x & pad & Hx & (y & Hy & Hny & Hw & Hv & Ht & Hlen & Hr) & _ & _).
  set (z := Pbuf None (Some (2%positive, 0)) 42 42 PBUF_RAM 0 1).
  assert (Ez : Some y = Some z) by (rewrite <- Hy; reflexivity). injection Ez as ->. clear x Hx. constructor.
  - split; [constructor; [reflexivity|constructor]|]. split; [cbn; repeat split; lia|].
    split; [constructor; [exact Hv|constructor]|]. split; (constructor; [|constructor]); [cbn; lia|exact Hw].
  - eexists _, []. split; [reflexivity|]. split; [discriminate|]. unfold SIZEOF_ETH_HDR. cbn. lia.
Qed.

Lemma arp_query_correct_witness :
  surely (etharp_query (fun _ => 0) toy_link (toy_netif 1) (host 2) (Some 2%positive) (toy_arp toy_reply))
    (fun '(r, s') => arp_ok s' /\ untouched (toy_arp toy_reply) s' (toy_out toy_reply) /\
       query_result toy_link (toy_netif 1) (host 2) 2%positive (toy_out toy_reply) (toy_arp toy_reply) r s').
Proof.
  apply (arp_query_correct (fun _ => 0) toy_link (toy_netif 1) (host 2) 2%positive (toy_out toy_reply) (toy_arp toy_reply)
    (toy_arp_ok toy_reply) (toy_netif_ok 1) (toy_unicast 1 2 (or_introl eq_refl) (or_intror (or_introl eq_refl)))
    (toy_outgoing toy_reply eq_refl)).
  intros b [<-|[]] [E|[]]. discriminate.
Defined.

(** ** A request and its reply *)

Definition frame (st : store) (p : addr) (bs : list Z) : Prop :=
  exists x pad, st_pbufs st !! p = Some x /\ bytes_of (st_mem st) x = bs ++ pad.

Lemma received_frame {W} (s : arp W) p bs : received s p bs -> frame (arp_store s) p bs.
Proof. intros (x & pad & H1 & _ & H2 & _). now exists x, pad. Qed.

(** C38: The protocol resolves addresses: the request the host [n] sends for the
    address of [m] makes [m] resolve [n] and send a reply over the request,
    and this reply makes [n] resolve [m], whatever the two tables hold
    before. *)
Theorem arp_round_trip {W} junk (linkoutput : netif -> addr -> store -> W -> Z * W) n m (s1 s2 : arp W)
    (H1 : arp_ok s1) (H2 : arp_ok s2) (Hn : netif_ok n) (Hm : netif_ok m)
    (In1 : 0 < nf_ip_addr n < 4294967296) (In2 : 0 < nf_ip_addr m < 4294967296)
    (Un : unicast n (nf_ip_addr m)) (Um : unicast m (nf_ip_addr n)) :
  let request := arp_packet ethbroadcast (nf_hwaddr n) ARP_REQUEST (nf_hwaddr n) (nf_ip_addr n) ethzero (nf_ip_addr m) in
  let reply := arp_packet (nf_hwaddr n) (nf_hwaddr m) ARP_REPLY (nf_hwaddr m) (nf_ip_addr m) (nf_hwaddr n) (nf_ip_addr n) in
  surely (etharp_request junk linkoutput n (nf_ip_addr m) s1)
    (fun '(r, s1') => (r = ERR_MEM /\ s1' = s1) \/
       exists p st, frame st p request /\ r = fst (linkoutput n p st (arp_world s1)) /\
         s1' = Arp (arp_table s1) (etharp_cached_entry s1) (arp_store s1) (snd (linkoutput n p st (arp_world s1)))) /\
  (forall p, received s2 p request ->
     exists s2' st w, etharp_arp_input linkoutput m (nf_hwaddr m) p s2 = ret s2' /\ arp_ok s2' /\
       maps (arp_table s2') (nf_ip_addr n) (nf_hwaddr n) /\ frame st p reply /\
       arp_world s2' = snd (linkoutput m p st w)) /\
  (forall p, received s1 p reply ->
     exists s1', etharp_arp_input linkoutput n (nf_hwaddr n) p s1 = ret s1' /\ arp_ok s1' /\
       maps (arp_table s1') (nf_ip_addr m) (nf_hwaddr m)).
Proof.
  cbv zeta. pose proof (no_hwaddr _ Hn) as Ln. pose proof (no_hwaddr _ Hm) as Lm.
  split; [|split].
  - eapply surely_weaken; [now apply raw_spec|]. intros [r s'] [Hr|(p & st & Hc & Hx & -> & ->)]; [now left|right].
    exists p, st. split; [|split; reflexivity]. eexists _, []. split; [exact Hx|].
    cbn [content] in Hc. rewrite app_nil_r in Hc. now rewrite app_nil_r.
  - intros p Hr.
    destruct (arp_input_spec linkoutput m (nf_hwaddr m) p s2 ethbroadcast (nf_hwaddr n) ARP_REQUEST (nf_hwaddr n) (nf_ip_addr n) ethzero
      H2 Hm Lm ltac:(now repeat split) ltac:(lia) ltac:(unfold ARP_REQUEST; lia) In2 Um Hr)
      as (sa & sb & s' & E & Hok & Hmap & _ & Hrec & _ & Hw).
    change (ARP_REQUEST =? ARP_REQUEST) with true in *. cbv iota in *.
    exists s', (arp_store sb), (arp_world sa). split; [exact E|]. split; [exact Hok|]. split; [exact Hmap|].
    split; [now apply received_frame|exact Hw].
  - intros p Hr.
    destruct (arp_input_spec linkoutput n (nf_hwaddr n) p s1 (nf_hwaddr n) (nf_hwaddr m) ARP_REPLY (nf_hwaddr m) (nf_ip_addr m) (nf_hwaddr n)
      H1 Hn Ln ltac:(now repeat split) ltac:(lia) ltac:(unfold ARP_REPLY; lia) In1 Un Hr) as (sa & sb & s' & E & Hok & Hmap & _).
    now exists s'.
Qed.

Lemma arp_round_trip_witness :
  (exists s' st w, etharp_arp_input toy_link (toy_netif 2) (hw 2) 2%positive (toy_arp toy_request) = ret s' /\ arp_ok s' /\
     maps (arp_table s') (host 1) (hw 1) /\ frame st 2%positive toy_reply /\
     arp_world s' = snd (toy_link (toy_netif 2) 2%positive st w)) /\
  (exists s', etharp_arp_input toy_link (toy_netif 1) (hw 1) 2%positive (toy_arp toy_reply) = ret s' /\ arp_ok s' /\
     maps (arp_table s') (host 2) (hw 2)).
Proof.
  destruct (arp_round_trip (fun _ => 0) toy_link (toy_netif 1) (toy_netif 2) (toy_arp toy_reply) (toy_arp toy_request)
    (toy_arp_ok toy_reply) (toy_arp_ok toy_request) (toy_netif_ok 1) (toy_netif_ok 2)
    (conj eq_refl eq_refl) (conj eq_refl eq_refl)
    (toy_unicast 1 2 (or_introl eq_refl) (or_intror (or_introl eq_refl)))
    (toy_unicast 2 1 (or_intror eq_refl) (or_introl eq_refl))) as (_ & E2 & E1).
  split; [exact (E2 2%positive (toy_received toy_request eq_refl))|exact (E1 2%positive (toy_received toy_reply eq_refl))].
Defined.

(** ** Limits *)

(** What the code does against its comments: a packet that cannot be copied is
    dropped but [ERR_OK] returned, the result of the request;
    [update_arp_entry] without [ETHARP_TRY_HARD] enters a new address when
    there is an empty entry; and the headers of a frame are read without a
    look at its length. *)
Theorem etharp_limits :
  (match etharp_query (fun _ => 0) toy_link (toy_netif 1) (host 2) (Some 2%positive) (toy_arp toy_reply) [true; false] with
   | (Ok (r, s'), _) => r = ERR_OK /\ arp_table s' = arp_table (toy_arp toy_reply) /\ arp_world s' = [toy_request]
   | _ => False
   end) /\
  (match update_arp_entry toy_link (toy_netif 1) (host 1) (hw 9) 0 (toy_arp []) [] with
   | (Ok (r, s'), _) => r = ERR_OK /\ maps (arp_table s') (host 1) (hw 9)
   | _ => False
   end) /\
  (let s := Arp (arp_table (toy_arp [])) 0
     (Store (<[1%positive := Pbuf None (Some (1%positive, 0)) 14 14 PBUF_RAM 0 1]> ∅)
       (<[1%positive := hw 1 ++ hw 2 ++ [8; 0]]> ∅)) ([] : frames) in
   ethernet_input toy_link (fun p n s => ret s) 1%positive (toy_netif 1) s [] = (Ub, [])).
Proof.
  split; [vm_compute; auto|]. split; [|vm_compute; reflexivity].
  vm_compute. split; [reflexivity|]. eexists. split; [right; right; left; reflexivity|]. now repeat split.
Qed.
