(* ===== verification/IpHdr.v ===== *)
(** * lwIP: the IP header

    [lwip/src/include/ipv4/lwip/ip.h]: the constants and the fields of the
    header, which is the list of its bytes. *)
From Stdlib Require Import ZArith List Lia Bool.
From stdpp Require Import base gmap list.
From S2P Require Import Prelude CMonad Pbuf PbufData Inet InetChksum ChksumSpec.
From S2P Require Import Netif.
#[local] Open Scope Z_scope.
#[local] Open Scope cmonad_scope.

Definition IP_HLEN : Z := 20.
Definition IP_PROTO_ICMP : Z := 1.
Definition IP_PROTO_UDP : Z := 17.
Definition IP_PROTO_TCP : Z := 6.
Definition IP_MF : Z := 0x2000.
Definition IP_OFFMASK : Z := 0x1fff.

Definition IPH_V (hdr : list Z) : Z := Z.shiftr (ntohs (get16 hdr 0)) 12.
Definition IPH_HL (hdr : list Z) : Z := Z.land (Z.shiftr (ntohs (get16 hdr 0)) 8) 0x0f.
Definition IPH_LEN (hdr : list Z) : Z := get16 hdr 2.
Definition IPH_ID (hdr : list Z) : Z := get16 hdr 4.
Definition IPH_OFFSET (hdr : list Z) : Z := get16 hdr 6.
Definition IPH_TTL (hdr : list Z) : Z := Z.shiftr (ntohs (get16 hdr 8)) 8.
Definition IPH_PROTO (hdr : list Z) : Z := Z.land (ntohs (get16 hdr 8)) 0xff.
Definition iph_src (hdr : list Z) : Z := get32 hdr 12.
Definition iph_dest (hdr : list Z) : Z := get32 hdr 16.

(** ** New headers from old ones *)

(** A header with another length and offset ([off] in the order of the
    network) and no checksum. *)
Definition renewed (iphdr : list Z) (len off : Z) : list Z :=
  firstn 2 iphdr ++ field16 (htons len) ++ bytes_at iphdr 4 2 ++ field16 off ++ bytes_at iphdr 8 2 ++ [0; 0] ++
  skipn 12 iphdr.

(** [IPH_CHKSUM_SET(iphdr, inet_chksum(iphdr, IP_HLEN))] *)
Definition with_chksum (hdr : list Z) : M (list Z) :=
  c <- inet_chksum hdr IP_HLEN;;
  ret (splice hdr 10 (field16 c)).


(** A header with its checksum stored. *)
Definition checked (hdr : list Z) : list Z := splice hdr 10 (field16 (not16 (lwip_standard_chksum hdr))).

(** A list of twenty elements in its elements. *)
Ltac twenty l H :=
  do 20 (destruct l as [|? l]; [discriminate H|]); destruct l; [clear H|discriminate H].

Lemma renewed_length iphdr len off : length iphdr = 20%nat -> length (renewed iphdr len off) = 20%nat.
Proof. intros H. twenty iphdr H. reflexivity. Qed.

Lemma checked_length hdr : length hdr = 20%nat -> length (checked hdr) = 20%nat.
Proof. intros H. unfold checked. rewrite splice_length; [exact H|]. rewrite H. cbn. lia. Qed.

Lemma with_chksum_spec hdr : length hdr = 20%nat -> with_chksum hdr = ret (checked hdr).
Proof.
  intros H. unfold with_chksum, inet_chksum, LWIP_CHKSUM, IP_HLEN. rewrite take_bytes_firstn, firstn_all2 by lia.
  now rewrite !bind_ret.
Qed.

Lemma renewed_bytes iphdr len off : length iphdr = 20%nat -> Forall byte iphdr -> Forall byte (renewed iphdr len off).
Proof.
  intros H Hb. twenty iphdr H. unfold renewed, field16. cbn. rewrite !Forall_cons in Hb |- *.
  assert (B0 : byte 0) by (unfold byte; lia).
  repeat match goal with |- _ /\ _ => split end; first [apply Hb|exact B0|apply Z.mod_pos_bound; lia|constructor].
Qed.

(** A header without checksum verifies once the checksum is stored. *)
Lemma checked_verifies hdr :
  length hdr = 20%nat -> Forall byte hdr -> bytes_at hdr 10 2 = [0; 0] ->
  Forall byte (checked hdr) /\ inet_chksum (checked hdr) IP_HLEN = ret 0.
Proof.
  intros H Hb H0. set (c := not16 (lwip_standard_chksum hdr)). pose (b10 := firstn 10 hdr). pose (b8 := skipn 12 hdr).
  assert (E : hdr = b10 ++ [0; 0] ++ b8).
  { subst b10 b8. clear c Hb. twenty hdr H. cbn in H0 |- *. now injection H0 as -> ->. }
  assert (L10 : length b10 = 10%nat) by (subst b10; rewrite length_firstn; lia).
  assert (L8 : length b8 = 8%nat) by (subst b8; rewrite length_skipn; lia).
  rewrite E in Hb. apply Forall_app in Hb as Hb'. destruct Hb' as [Hb10 Hb']. apply Forall_app in Hb' as [_ Hb8].
  assert (Hc : 0 <= c <= 65535).
  { apply (stored_checksum (le_value hdr) c); [apply le_value_nonneg; now rewrite E|]. unfold c. f_equal.
    apply chksum_1_spec; [now rewrite E|lia]. }
  assert (Es : checked hdr = b10 ++ [c mod 256; c / 256] ++ b8).
  { unfold checked. fold c. rewrite E. unfold splice, field16. rewrite firstn_app, L10, firstn_all2 by lia.
    change (firstn (10 - 10) _) with (@nil Z). rewrite app_nil_r, skipn_app, (skipn_all2 b10) by (cbn [length]; lia).
    rewrite L10. cbn [length app Nat.sub Nat.add skipn]. rewrite drop_0, (Z.mod_small (c / 256)) by dlia. reflexivity. }
  rewrite Es. split.
  - apply Forall_app. split; [exact Hb10|]. constructor; [unfold byte; dlia|]. constructor; [unfold byte; dlia|exact Hb8].
  - change IP_HLEN with (Z.of_nat (10 + 2 + 8)). rewrite <- L10, <- L8.
    apply (stored_checksum_sums b10 b8 c Hb10 Hb8); [now rewrite L10|lia|].
    rewrite <- E. unfold inet_chksum, LWIP_CHKSUM. rewrite take_bytes_firstn, bind_ret, firstn_all2, bind_ret by lia. reflexivity.
Qed.

Lemma renewed_verifies iphdr len off :
  length iphdr = 20%nat -> Forall byte iphdr ->
  Forall byte (checked (renewed iphdr len off)) /\ inet_chksum (checked (renewed iphdr len off)) IP_HLEN = ret 0.
Proof.
  intros H Hb. apply checked_verifies; [now apply renewed_length|now apply renewed_bytes|]. twenty iphdr H. reflexivity.
Qed.

(** ** Fields *)

Lemma htons_range n : 0 <= n < 65536 -> 0 <= htons n < 65536.
Proof. intros H. rewrite htons_bytes by exact H. dlia. Qed.

(** Everything but the length, the offset and the checksum is kept. *)
Lemma new_kept iphdr len off i n :
  length iphdr = 20%nat ->
  (i + n <= 2 \/ (4 <= i /\ i + n <= 6) \/ (8 <= i /\ i + n <= 10) \/ 12 <= i)%nat ->
  bytes_at (checked (renewed iphdr len off)) i n = bytes_at iphdr i n.
Proof.
  intros H Hi. unfold checked. generalize (not16 (lwip_standard_chksum (renewed iphdr len off))). intros c.
  twenty iphdr H. unfold renewed, field16, splice. cbn [firstn skipn app bytes_at length Nat.add].
  unfold bytes_at.
  assert (Hc : (i = 0 \/ i = 1 \/ i = 2 \/ i = 4 \/ i = 5 \/ i = 6 \/ i = 8 \/ i = 9 \/ i = 10 \/ 12 <= i)%nat \/ n = 0%nat) by lia.
  destruct Hc as [Hc| -> ]; [|reflexivity].
  do 9 (destruct Hc as [->|Hc]; [do 3 (destruct n as [|n]; [first [reflexivity|lia]|]); lia|]).
  do 12 (destruct i as [|i]; [lia|]). reflexivity.
Qed.

Lemma new_get16 iphdr len off i : length iphdr = 20%nat -> (i = 0 \/ i = 4 \/ i = 8)%nat -> get16 (checked (renewed iphdr len off)) i = get16 iphdr i.
Proof. intros H Hi. unfold get16. rewrite new_kept; [reflexivity|exact H|lia]. Qed.

Lemma new_get32 iphdr len off i : length iphdr = 20%nat -> (12 <= i)%nat -> get32 (checked (renewed iphdr len off)) i = get32 iphdr i.
Proof. intros H Hi. unfold get32. rewrite new_kept; [reflexivity|exact H|lia]. Qed.

Lemma new_len iphdr len off : length iphdr = 20%nat -> 0 <= len < 65536 -> IPH_LEN (checked (renewed iphdr len off)) = htons len.
Proof.
  intros H Hl. transitivity (le_value (field16 (htons len))); [|now apply field16_value, htons_range].
  unfold IPH_LEN, get16. f_equal. unfold checked. generalize (not16 (lwip_standard_chksum (renewed iphdr len off))). intros c.
  twenty iphdr H. reflexivity.
Qed.

Lemma new_offset iphdr len off : length iphdr = 20%nat -> 0 <= off < 65536 -> IPH_OFFSET (checked (renewed iphdr len off)) = off.
Proof.
  intros H Ho. transitivity (le_value (field16 off)); [|now apply field16_value].
  unfold IPH_OFFSET, get16. f_equal. unfold checked. generalize (not16 (lwip_standard_chksum (renewed iphdr len off))). intros c.
  twenty iphdr H. reflexivity.
Qed.

Lemma renewed_again iphdr len off len' off' :
  length iphdr = 20%nat -> renewed (checked (renewed iphdr len off)) len' off' = renewed iphdr len' off'.
Proof.
  intros H. unfold checked. generalize (not16 (lwip_standard_chksum (renewed iphdr len off))). intros c.
  twenty iphdr H. reflexivity.
Qed.
