(* ===== verification/Frames.v ===== *)
(** * lwIP: what the steps of the system leave alone

    Relations between the stores before and after a step, from the strictest
    to the loosest, and how they compose; and the program logic of functions
    whose assertions can fail: whatever [malloc] answers, the run ends, without
    undefined behaviour, in a result with a property or in [abort()].  [surely]
    is the case without failing assertions. *)
From Stdlib Require Import ZArith List Lia Bool.
From stdpp Require Import base gmap list.
From S2P Require Import Prelude CMonad Pbuf PbufChain PbufData.
#[local] Open Scope Z_scope.
#[local] Open Scope cmonad_scope.

(** ** Memory of some pbufs *)

(** The stores agree on the pbufs and the memory of [bs]. *)
Definition agree (st st' : store) (bs : list addr) : Prop :=
  forall b, In b bs -> st_pbufs st' !! b = st_pbufs st !! b /\ st_mem st' !! b = st_mem st !! b.

Lemma agree_refl st bs : agree st st bs.
Proof. intros b _. now split. Qed.

Lemma agree_trans st1 st2 st3 bs : agree st1 st2 bs -> agree st2 st3 bs -> agree st1 st3 bs.
Proof. intros H1 H2 b Hb. destruct (H1 b Hb), (H2 b Hb). split; congruence. Qed.

Lemma agree_incl st st' bs bs' : agree st st' bs -> (forall b, In b bs' -> In b bs) -> agree st st' bs'.
Proof. intros H Hi b Hb. apply H, Hi, Hb. Qed.

Lemma owned_block m a x o : pb_payload x = Some (a, o) -> bytes_of m x = firstn (Z.to_nat (pb_len x)) (skipn (Z.to_nat o) (block m a)).
Proof. intros H. unfold bytes_of. now rewrite H. Qed.

Lemma NoDup_app_disj {A} (l1 l2 : list A) : List.NoDup (l1 ++ l2) -> forall a, In a l1 -> ~ In a l2.
Proof.
  induction l1 as [|x l1 IH]; intros H a; [intros []|]. inversion H as [|? ? Hn H']; subst. intros [->|Ha].
  - intros H2. apply Hn, in_app_iff. now right.
  - now apply IH.
Qed.

(** The stores differ in the memory of [a] only. *)
Definition written (a : addr) (st st' : store) : Prop :=
  st_pbufs st' = st_pbufs st /\ rewritten [a] (st_mem st) (st_mem st').

Lemma written_agree a st st' bs : written a st st' -> ~ In a bs -> agree st st' bs.
Proof.
  intros [Hp [Hr _]] Hn b Hb. rewrite Hp. split; [reflexivity|]. apply Hr. intros [->|[]]. contradiction.
Qed.

Lemma written_trans a st1 st2 st3 : written a st1 st2 -> written a st2 st3 -> written a st1 st3.
Proof. intros [P1 R1] [P2 R2]. split; [congruence|]. now apply (rewritten_trans _ _ (st_mem st2)). Qed.

(** The stores differ in the memory of the pbufs [bs] only. *)
Definition changed (bs : list addr) (st st' : store) : Prop :=
  st_pbufs st' = st_pbufs st /\ rewritten bs (st_mem st) (st_mem st').

Lemma written_changed a bs st st' : written a st st' -> In a bs -> changed bs st st'.
Proof.
  intros [Hp Hr] Ha. split; [exact Hp|]. eapply rewritten_weaken; [exact Hr|]. intros b [<-|[]]. exact Ha.
Qed.

Lemma changed_refl bs st : changed bs st st.
Proof. split; [reflexivity|apply rewritten_refl]. Qed.

Lemma changed_trans bs st1 st2 st3 : changed bs st1 st2 -> changed bs st2 st3 -> changed bs st1 st3.
Proof. intros [P1 R1] [P2 R2]. split; [congruence|]. now apply (rewritten_trans _ _ (st_mem st2)). Qed.

Lemma changed_weaken bs bs' st st' : changed bs st st' -> (forall b, In b bs -> In b bs') -> changed bs' st st'.
Proof. intros [P R] H. split; [exact P|]. now apply (rewritten_weaken bs). Qed.

Lemma changed_agree bs st st' l : changed bs st st' -> (forall b, In b l -> ~ In b bs) -> agree st st' l.
Proof. intros [P [R _]] H b Hb. rewrite P. split; [reflexivity|]. apply R. now apply H. Qed.

(** ** Pbufs that go *)

(** The pbufs [bs] and their memory are gone, and nothing else is touched. *)
Definition removed (bs : list addr) (st st' : store) : Prop :=
  (forall b, In b bs -> st_pbufs st' !! b = None /\ st_mem st' !! b = None) /\
  (forall b, ~ In b bs -> st_pbufs st' !! b = st_pbufs st !! b /\ st_mem st' !! b = st_mem st !! b).

Lemma removed_refl st : removed [] st st.
Proof. split; [intros b []|auto]. Qed.

Lemma removed_app bs1 bs2 st1 st2 st3 : removed bs1 st1 st2 -> removed bs2 st2 st3 -> removed (bs1 ++ bs2) st1 st3.
Proof.
  intros [H1 K1] [H2 K2]. split; intros b Hb.
  - destruct (in_dec Pos.eq_dec b bs2) as [Hi|Hn]; [now apply H2|]. destruct (K2 b Hn) as [-> ->].
    apply in_app_iff in Hb as [Hb|Hb]; [now apply H1|contradiction].
  - rewrite in_app_iff in Hb. destruct (K2 b) as [-> ->]; [tauto|]. apply K1. tauto.
Qed.

Lemma removed_agree bs st st' l : removed bs st st' -> (forall b, In b l -> ~ In b bs) -> agree st st' l.
Proof. intros [_ H] Hd b Hb. apply H. now apply Hd. Qed.

(** Pbufs that have no part in this stay as they are. *)
Definition untouched (bs : list addr) (st st' : store) : Prop :=
  forall b, ~ In b bs -> st_pbufs st' !! b = st_pbufs st !! b /\ st_mem st' !! b = st_mem st !! b.

Lemma untouched_trans bs st1 st2 st3 : untouched bs st1 st2 -> untouched bs st2 st3 -> untouched bs st1 st3.
Proof. intros H1 H2 b Hb. destruct (H1 b Hb), (H2 b Hb). split; congruence. Qed.

Lemma untouched_weaken bs bs' st st' : untouched bs st st' -> (forall b, In b bs -> In b bs') -> untouched bs' st st'.
Proof. intros H Hi b Hb. apply H. auto. Qed.

Lemma untouched_agree bs st st' l : untouched bs st st' -> (forall b, In b l -> ~ In b bs) -> agree st st' l.
Proof. intros H Hd b Hb. apply H. now apply Hd. Qed.

Lemma changed_untouched bs st st' : changed bs st st' -> untouched bs st st'.
Proof. intros [P [R _]] b Hb. rewrite P. split; [reflexivity|]. now apply R. Qed.

(** ** The rest of the system *)

Section Evolves.
Context {W : Type} (held : W -> list addr).

(** A pbuf or a block of memory. *)
Definition live (st : store) (b : addr) : Prop := is_Some (st_pbufs st !! b) \/ is_Some (st_mem st !! b).

Lemma live_same st st' b : st_pbufs st' !! b = st_pbufs st !! b -> st_mem st' !! b = st_mem st !! b -> live st b -> live st' b.
Proof. unfold live. now intros -> ->. Qed.

(** The pbufs that the rest of the system holds exist, and are held once. *)
Definition accounted (st : store) (w : W) : Prop := List.NoDup (held w) /\ forall b, In b (held w) -> is_Some (st_pbufs st !! b).

Lemma accounted_alive st st' w :
  (forall b, In b (held w) -> is_Some (st_pbufs st !! b) -> is_Some (st_pbufs st' !! b)) -> accounted st w -> accounted st' w.
Proof. intros H [Hn Ha]. split; [exact Hn|]. auto. Qed.

Lemma accounted_untouched bs st st' w :
  untouched bs st st' -> (forall b, In b bs -> ~ In b (held w)) -> accounted st w -> accounted st' w.
Proof.
  intros Hu Hd. apply accounted_alive. intros b Hb. now rewrite (proj1 (Hu b (fun Hi => Hd b Hi Hb))).
Qed.

(** The rest of the system holds the pbufs [held].  From one state to the
    next, pbufs that neither it nor [gone] holds stay as they are, and those
    that were free or held, or are in [gone], are free or held then. *)
Definition evolves (gone : list addr) (st : store) (w : W) (st' : store) (w' : W) : Prop :=
  (forall b, live st b -> ~ In b (held w) -> ~ In b gone ->
     st_pbufs st' !! b = st_pbufs st !! b /\ st_mem st' !! b = st_mem st !! b /\ ~ In b (held w')) /\
  (forall b, st_pbufs st !! b = None \/ In b (held w) \/ In b gone -> st_pbufs st' !! b = None \/ In b (held w')) /\
  (accounted st w -> accounted st' w').

Lemma evolves_refl st w : evolves [] st w st w.
Proof. split; [auto|]. split; [|auto]. intros b [H|[H|[]]]; auto. Qed.

Lemma evolves_trans g1 g2 st1 w1 st2 w2 st3 w3 :
  evolves g1 st1 w1 st2 w2 -> evolves g2 st2 w2 st3 w3 -> evolves (g1 ++ g2) st1 w1 st3 w3.
Proof.
  intros (A1 & B1 & C1) (A2 & B2 & C2). split; [|split; [|auto]]; intros b.
  - rewrite in_app_iff. intros Hs Hh Hg. destruct (A1 b) as (P1 & M1 & H1); [auto|auto|tauto|].
    destruct (A2 b) as (P2 & M2 & H2); [exact (live_same _ _ _ P1 M1 Hs)|auto|tauto|]. split; [congruence|]. split; [congruence|exact H2].
  - rewrite in_app_iff. intros Hb. apply B2. destruct (in_dec Pos.eq_dec b g2) as [H2|H2]; [auto|].
    destruct (B1 b) as [H|H]; [tauto|auto|auto].
Qed.

Lemma evolves_accounted gone st w st' w' : evolves gone st w st' w' -> accounted st w -> accounted st' w'.
Proof. intros (_ & _ & C). exact C. Qed.

Lemma evolves_agree gone st w st' w' bs :
  evolves gone st w st' w' -> (forall b, In b bs -> is_Some (st_pbufs st !! b) /\ ~ In b (held w) /\ ~ In b gone) ->
  agree st st' bs /\ (forall b, In b bs -> ~ In b (held w')).
Proof.
  intros [A _] H. split; intros b Hb; destruct (H b Hb) as (Hs & Hh & Hg); destruct (A b (or_introl Hs) Hh Hg) as (P & M & H'); auto.
Qed.

Lemma removed_untouched bs st st' : removed bs st st' -> untouched bs st st'.
Proof. intros [_ K]. exact K. Qed.

Lemma removed_evolves bs st st' w : removed bs st st' -> (forall b, In b bs -> ~ In b (held w)) -> evolves bs st w st' w.
Proof.
  intros Hr Hd. pose proof Hr as [H K].
  split; [|split; [|exact (accounted_untouched bs st st' w (removed_untouched _ _ _ Hr) Hd)]]; intros b.
  - intros _ Hh Hg. destruct (K b Hg) as [P M]. auto.
  - intros [Hb|[Hb|Hb]]; [|auto|left; now apply H].
    destruct (in_dec Pos.eq_dec b bs) as [Hi|Hn]; [left; now apply H|]. left. destruct (K b Hn) as [-> _]. exact Hb.
Qed.

(** A packet is written over, used and freed. *)
Lemma evolves_used bs st w st1 st2 w' st3 :
  (forall b, In b bs -> is_Some (st_pbufs st !! b) /\ ~ In b (held w)) ->
  changed bs st st1 -> evolves [] st1 w st2 w' -> removed bs st2 st3 -> evolves bs st w st3 w'.
Proof.
  intros Hbs Hch Hev Hr. pose proof Hch as [P [R _]]. pose proof Hev as (A & B & C). pose proof Hr as [H K].
  destruct (evolves_agree _ _ _ _ _ bs Hev) as [_ Hd]; [intros b Hb; rewrite P; destruct (Hbs b Hb); auto|].
  split; [|split]; [intros b..|].
  - intros Hs Hh Hg. destruct (A b) as (P2 & M2 & H2); [apply (live_same st); [now rewrite P|now apply R|exact Hs]|exact Hh|intros []|].
    destruct (K b Hg) as [P3 M3]. split; [now rewrite P3, P2, P|]. split; [|exact H2]. rewrite M3, M2. now apply R.
  - intros Hb. destruct (in_dec Pos.eq_dec b bs) as [Hi|Hn]; [left; now apply H|].
    destruct (K b Hn) as [-> _]. apply B. rewrite P. tauto.
  - intros Ha. apply (accounted_untouched bs st2); [exact (removed_untouched _ _ _ Hr)|exact Hd|]. apply C.
    revert Ha. apply accounted_alive. intros b _. now rewrite P.
Qed.

(** ** Pbufs that are moved along *)

(** A pbuf without what it points to. *)
Definition shell (x : pbuf) : pbuf := with_len (with_payload x None) 0.

(** As [evolves], but the pbufs [bs] may point to other bytes than before. *)
Definition drifts (bs : list addr) (st : store) (w : W) (st' : store) (w' : W) : Prop :=
  (forall b, live st b -> ~ In b (held w) ->
     shell <$> st_pbufs st' !! b = shell <$> st_pbufs st !! b /\
     (~ In b bs -> st_pbufs st' !! b = st_pbufs st !! b) /\ st_mem st' !! b = st_mem st !! b /\ ~ In b (held w')) /\
  (forall b, st_pbufs st !! b = None \/ In b (held w) -> st_pbufs st' !! b = None \/ In b (held w')).

Lemma evolves_drifts bs st w st' w' : evolves [] st w st' w' -> drifts bs st w st' w'.
Proof.
  intros (A & B & _). split; intros b.
  - intros Hl Hh. destruct (A b Hl Hh) as (P & M & H); [intros []|]. rewrite P. auto.
  - intros Hb. apply B. tauto.
Qed.

Lemma drifts_refl bs st w : drifts bs st w st w.
Proof. apply evolves_drifts, evolves_refl. Qed.

Lemma drifts_live bs st w st' w' b : drifts bs st w st' w' -> ~ In b (held w) -> live st b -> live st' b.
Proof.
  intros [A _] Hh Hl. destruct (A b Hl Hh) as (P & _ & M & _). unfold live. rewrite M. destruct Hl as [[x Hx]|Hl]; [left|now right].
  rewrite Hx in P. destruct (st_pbufs st' !! b); [eauto|discriminate].
Qed.

Lemma drifts_trans bs st1 w1 st2 w2 st3 w3 : drifts bs st1 w1 st2 w2 -> drifts bs st2 w2 st3 w3 -> drifts bs st1 w1 st3 w3.
Proof.
  intros D1 D2. pose proof (fun b => drifts_live bs st1 w1 st2 w2 b D1) as HL. destruct D2 as [A2 B2]. split; intros b.
  - intros Hl Hh. pose proof (HL b Hh Hl) as Hl2. destruct D1 as [A1 _]. destruct (A1 b Hl Hh) as (P1 & Q1 & M1 & H1).
    destruct (A2 b Hl2 H1) as (P2 & Q2 & M2 & H2). split; [congruence|]. split; [|split; [congruence|exact H2]].
    intros Hb. rewrite (Q2 Hb). now apply Q1.
  - intros Hb. apply B2. destruct D1 as [_ B1]. now apply B1.
Qed.

Lemma drifts_weaken bs bs' st w st' w' : drifts bs st w st' w' -> (forall b, In b bs -> In b bs') -> drifts bs' st w st' w'.
Proof.
  intros [A B] Hi. split; [|exact B]. intros b Hl Hh. destruct (A b Hl Hh) as (P & Q & M & H).
  split; [exact P|]. split; [|auto]. intros Hb. apply Q. auto.
Qed.

(** One pbuf is moved along. *)
Lemma moved_drifts a x y st w : st_pbufs st !! a = Some x -> shell y = shell x -> drifts [a] st w (set_pbuf a y st) w.
Proof.
  intros Hx Hs. split; intros b; cbn.
  - intros _ Hh. destruct (decide (b = a)) as [->|Hb].
    + rewrite lookup_insert_eq, Hx. cbn. rewrite Hs. split; [reflexivity|]. split; [intros []; now left|auto].
    + rewrite lookup_insert_ne by congruence. auto.
  - intros [Hb|Hb]; [|now right]. left. destruct (decide (b = a)) as [->|Hne]; [congruence|]. now rewrite lookup_insert_ne by congruence.
Qed.

Lemma accounted_moved a x y st w : st_pbufs st !! a = Some x -> accounted st w -> accounted (set_pbuf a y st) w.
Proof.
  intros Hx. apply accounted_alive. intros b _. cbn. destruct (decide (b = a)) as [->|Hne]; [rewrite lookup_insert_eq; eauto|].
  now rewrite lookup_insert_ne by congruence.
Qed.

End Evolves.


Definition safely {A} (m : M A) (Q : A -> Prop) : Prop :=
  forall h, match m h with (Ok a, _) => Q a | (Err e, _) => e = ABORT | _ => False end.

Lemma safely_surely {A} (m : M A) Q : surely m Q -> safely m Q.
Proof. intros H h. destruct (H h) as (a & h' & -> & Ha). exact Ha. Qed.

Lemma safely_ret {A} (a : A) (Q : A -> Prop) : Q a -> safely (ret a) Q.
Proof. intros H h. exact H. Qed.

Lemma safely_abort {A} (Q : A -> Prop) : safely (throw ABORT) Q.
Proof. intros h. reflexivity. Qed.

Lemma safely_bind {A B} (m : M A) (k : A -> M B) Q Q' :
  safely m Q -> (forall a, Q a -> safely (k a) Q') -> safely (bind m k) Q'.
Proof.
  intros Hm Hk h. unfold bind. specialize (Hm h). destruct (m h) as [[a|e| |] h']; try contradiction; [|exact Hm].
  exact (Hk a Hm h').
Qed.

Lemma safely_assert (b : bool) (Q : unit -> Prop) : (b = true -> Q tt) -> safely (lwip_assert b) Q.
Proof. intros H. destruct b; [apply safely_ret; auto|apply safely_abort]. Qed.

Lemma safely_malloc (Q : bool -> Prop) : Q true -> Q false -> safely malloc Q.
Proof. intros Ht Hf. now apply safely_surely, surely_malloc. Qed.

Lemma safely_weaken {A} (m : M A) (Q Q' : A -> Prop) : safely m Q -> (forall a, Q a -> Q' a) -> safely m Q'.
Proof. intros H HQ h. specialize (H h). destruct (m h) as [[a|e| |] h']; auto. Qed.
