(* ===== verification/Driver.v ===== *)
(** * lwIP: the output function of an interface

    What the protocols rely on when they hand a packet to [netif->output] and
    release it, and a driver that writes down what it gets. *)
From Stdlib Require Import ZArith List Lia Bool.
From stdpp Require Import base gmap list.
From S2P Require Import Prelude CMonad Pbuf PbufChain PbufData Frames Netif.
#[local] Open Scope Z_scope.
#[local] Open Scope cmonad_scope.

Section Driver.
Context {W : Type}.

(** The rest of the system holds the pbufs [held], and the driver was handed
    the packets [handed].  A driver reads the packet, which may have parts in
    memory that is not its own; it may move its header, keep it or free it, and
    leaves alone whatever belongs to others. *)
Class Driver (held : W -> list addr) (handed : W -> list (netif * Z * list Z))
    (output : netif -> addr -> Z -> store -> W -> M (Z * store * W)) : Prop :=
  driver_takes : forall n p l dest st w,
    packet st (Some p) l -> all_valid (st_mem st) l -> Forall (fun c => pb_ref (snd c) = 1) l ->
    accounted held st w -> (forall b, In b (map fst l) -> ~ In b (held w)) ->
    surely (hand_over output n p dest st w)
      (fun '(st', w') => evolves held (map fst l) st w st' w' /\
         handed w' = handed w ++ [(n, dest, content (st_mem st) l)]).
End Driver.

(** ** A driver that keeps a log *)

Definition log : Type := list (netif * Z * list Z).

Fixpoint packet_bytes (fuel : nat) (p : option addr) (st : store) : M (list Z) :=
  match p with
  | None => ret []
  | Some _ =>
      match fuel with
      | O => out_of_fuel
      | S fuel' =>
          x <- fetch st p;;
          bs <- load st (pb_payload x) 0 (pb_len x);;
          rest <- packet_bytes fuel' (pb_next x) st;;
          ret (bs ++ rest)
      end
  end.

Definition log_output (n : netif) (p : addr) (dest : Z) (st : store) (w : log) : M (Z * store * log) :=
  bs <- packet_bytes (walk_fuel st) (Some p) st;;
  ret (ERR_OK, st, w ++ [(n, dest, bs)]).

Lemma packet_bytes_spec fuel st p l :
  chain (st_pbufs st) p l -> all_valid (st_mem st) l -> (length l <= fuel)%nat ->
  packet_bytes fuel p st = ret (content (st_mem st) l).
Proof.
  intros Hc. revert fuel. induction Hc as [|a x l Hx Hc IH]; intros fuel Hv Hf; [now destruct fuel|].
  destruct fuel as [|fuel]; [cbn in Hf; lia|]. inversion Hv as [|? ? Hvx Hv']; subst. cbn [packet_bytes snd] in *.
  rewrite (fetch_some _ _ _ Hx), bind_ret. rewrite load_bytes, bind_ret by (auto; destruct Hvx; lia).
  rewrite IH, bind_ret by (auto; cbn in Hf; lia). change (Z.to_nat 0) with 0%nat. rewrite drop_0, firstn_all2; [reflexivity|].
  rewrite bytes_length by exact Hvx. lia.
Qed.

#[export] Instance log_driver : Driver (fun _ => []) (fun w => w) log_output.
Proof.
  intros n p l dest st w Hp Hv Hr _ _. unfold hand_over, log_output.
  rewrite (packet_bytes_spec _ _ _ l) by (auto; try apply Hp; pose proof (chain_size _ _ _ (proj1 Hp)); unfold walk_fuel; lia).
  rewrite !bind_ret, (pbuf_free_spec _ _ _ Hp), bind_ret. apply surely_ret. split; [|reflexivity].
  assert (Hall : forall b y, In (b, y) l -> pb_ref y = 1) by (intros b y Hin; rewrite List.Forall_forall in Hr; exact (Hr _ Hin)).
  assert (Hrm : removed (map fst l) st (snd (freed l st))).
  { split; intros b Hb; [exact (proj2 (freed_all _ st Hall) b Hb)|exact (freed_other _ st b Hb)]. }
  exact (removed_evolves (fun _ : log => []) _ _ _ w Hrm (fun _ _ H => H)).
Qed.
