(* ===== verification/IpReass.v ===== *)
(** * lwIP: reassembly of IP datagrams

    The first half of [lwip/src/core/ipv4/ip_frag.c], with the checks for
    overlap and the removal of the oldest datagram switched on.

    The fragments of a datagram are linked through their own memory: the
    first bytes of the IP header of a fragment are overwritten with
    [struct ip_reass_helper], a pointer of eight bytes to the next fragment
    and the two ends of its data.  The list [reassdatagrams] is reached
    through its head only; a pointer into it is a place in the list.  What
    [icmp_time_exceeded] does to the store and to the rest of the system is a
    parameter here. *)
From Stdlib Require Import ZArith List Lia Bool.
From stdpp Require Import base gmap list.
From S2P Require Import Prelude CMonad Pbuf Inet InetChksum Netif IpHdr.
#[local] Open Scope Z_scope.
#[local] Open Scope cmonad_scope.

(** ** Data *)

Definition IP_REASS_MAXAGE : Z := 3.
Definition IP_REASS_MAX_PBUFS : Z := 10.
Definition IP_REASS_FLAG_LASTFRAG : Z := 0x01.
Definition ICMP_TE_FRAG : Z := 1.

(** Pointers in memory. *)
Definition ptr_value (p : option addr) : Z := match p with Some a => Z.pos a | None => 0 end.
Definition ptr_bytes (p : option addr) : list Z := field32 (ptr_value p) ++ field32 (ptr_value p / 4294967296).
Definition bytes_ptr (bs : list Z) : option addr := match le_value bs with Z.pos a => Some a | _ => None end.

Record ip_reass_helper : Type := Helper { h_next : option addr; h_start : Z; h_end : Z }.

Definition helper_bytes (h : ip_reass_helper) : list Z := ptr_bytes (h_next h) ++ field16 (h_start h) ++ field16 (h_end h).

Definition get_helper (q : option addr) (st : store) : M ip_reass_helper :=
  x <- fetch st q;;
  bs <- load st (pb_payload x) 0 12;;
  ret (Helper (bytes_ptr (firstn 8 bs)) (get16 bs 8) (get16 bs 10)).

Definition set_next_pbuf (q : addr) (p : option addr) (st : store) : M store :=
  x <- fetch st (Some q);;
  save st (pb_payload x) 0 (ptr_bytes p).

Definition IP_ADDRESSES_AND_ID_MATCH (a b : list Z) : bool :=
  (iph_src a =? iph_src b) && (iph_dest a =? iph_dest b) && (IPH_ID a =? IPH_ID b).

Record ip_reassdata : Type := Reassdata
  { rd_p : option addr; rd_iphdr : list Z; rd_datagram_len : Z; rd_flags : Z; rd_timer : Z }.

Definition with_p (r : ip_reassdata) (p : option addr) : ip_reassdata :=
  Reassdata p (rd_iphdr r) (rd_datagram_len r) (rd_flags r) (rd_timer r).
Definition with_iphdr (r : ip_reassdata) (h : list Z) : ip_reassdata :=
  Reassdata (rd_p r) h (rd_datagram_len r) (rd_flags r) (rd_timer r).
Definition with_last (r : ip_reassdata) (n : Z) : ip_reassdata :=
  Reassdata (rd_p r) (rd_iphdr r) n (Z.lor (rd_flags r) IP_REASS_FLAG_LASTFRAG) (rd_timer r).
Definition with_timer (r : ip_reassdata) (t : Z) : ip_reassdata :=
  Reassdata (rd_p r) (rd_iphdr r) (rd_datagram_len r) (rd_flags r) t.

(** ** Fragments *)

(** The data of a fragment, from its header. *)
Definition frag_len (hdr : list Z) : Z := u16 (ntohs (IPH_LEN hdr) - IPH_HL hdr * 4).
Definition frag_offset (hdr : list Z) : Z := u16 (Z.land (ntohs (IPH_OFFSET hdr)) IP_OFFMASK * 8).

(** Where the loop over the fragments stops: before [q], at the end, or at a
    fragment that covers the start of the new one. *)
Inductive place : Type :=
| Before (prev : option (addr * ip_reass_helper)) (q : addr) (h : ip_reass_helper)
| AtEnd (prev : option (addr * ip_reass_helper))
| Freepbuf.

Fixpoint scan_frags (fuel : nat) (start : Z) (prev : option (addr * ip_reass_helper)) (q : option addr)
    (valid : bool) (st : store) : M (place * bool) :=
  match q with
  | None => ret (AtEnd prev, valid)
  | Some a =>
      match fuel with
      | O => out_of_fuel
      | S fuel' =>
          h <- get_helper q st;;
          if start <? h_start h then ret (Before prev a h, valid)
          else if (start =? h_start h) || (start <? h_end h) then ret (Freepbuf, valid)
          else
            let valid := match prev with Some (_, hp) => valid && (h_end hp =? h_start h) | None => valid end in
            scan_frags fuel' start (Some (a, h)) (h_next h) valid st
      end
  end.

(** The new fragment is linked at its place: the head of the list, and
    whether there was no hole so far; [None]: it is thrown away. *)
Definition link_frag (ipr_p : option addr) (new_p : addr) (start end_ : Z) (pl : place) (valid : bool) (st : store)
    : M (option (option addr * bool) * store) :=
  match pl with
  | Freepbuf => ret (None, st)
  | Before prev q h =>
      st <- set_next_pbuf new_p (Some q) st;;
      match prev with
      | Some (a, hp) =>
          if (start <? h_end hp) || (h_start h <? end_) then ret (None, st)
          else st <- set_next_pbuf a (Some new_p) st;; ret (Some (ipr_p, valid), st)
      | None => ret (Some (Some new_p, valid), st)
      end
  | AtEnd (Some (a, hp)) =>
      _ <- lwip_assert (h_end hp <=? start);;
      st <- set_next_pbuf a (Some new_p) st;;
      ret (Some (ipr_p, valid && (h_end hp =? start)), st)
  | AtEnd None =>
      _ <- lwip_assert (bool_decide (ipr_p = None));;
      ret (Some (Some new_p, valid), st)
  end.

(** [while (q != NULL)]: whether there is no hole after the fragment [a], and
    the fragment where the loop stops. *)
Fixpoint no_holes (fuel : nat) (a : addr) (h : ip_reass_helper) (st : store) : M (bool * addr * ip_reass_helper) :=
  match h_next h with
  | None => ret (true, a, h)
  | Some q =>
      match fuel with
      | O => out_of_fuel
      | S fuel' =>
          hq <- get_helper (Some q) st;;
          if h_end h =? h_start hq then no_holes fuel' q hq st else ret (false, q, hq)
      end
  end.

(** The validation part: whether the datagram is complete. *)
Definition validate (ipr : ip_reassdata) (new_p : addr) (valid : bool) (st : store) : M bool :=
  if Z.land (rd_flags ipr) IP_REASS_FLAG_LASTFRAG =? 0 then ret false
  else if negb valid then ret false
  else
    first <- get_helper (rd_p ipr) st;;
    if negb (h_start first =? 0) then ret false
    else
      h <- get_helper (Some new_p) st;;
      '(valid, a, h) <- no_holes (walk_fuel st) new_p h st;;
      if (valid : bool) then
        _ <- lwip_assert (bool_decide (rd_p ipr <> None));;
        x <- fetch st (rd_p ipr);;
        y <- fetch st (Some a);;
        _ <- lwip_assert (bool_decide (pb_payload x <> pb_payload y));;
        _ <- lwip_assert (bool_decide (h_next h = None));;
        _ <- lwip_assert (h_end h =? rd_datagram_len ipr);;
        ret true
      else ret false.

(** ** Datagrams *)

Section Reass.
Context {W : Type}.

Record reass : Type := Reass
  { reassdatagrams : list ip_reassdata; ip_reass_pbufcount : Z; re_store : store; re_world : W }.

Variable icmp_time_exceeded : addr -> Z -> store -> W -> M (store * W).

Definition re_entry (s : reass) (i : nat) : M ip_reassdata :=
  match reassdatagrams s !! i with Some r => ret r | None => ub end.

Definition set_re_store (st : store) (s : reass) : reass :=
  Reass (reassdatagrams s) (ip_reass_pbufcount s) st (re_world s).
Definition set_re_entry (i : nat) (r : ip_reassdata) (s : reass) : reass :=
  Reass (<[i := r]> (reassdatagrams s)) (ip_reass_pbufcount s) (re_store s) (re_world s).
Definition set_pbufcount (n : Z) (s : reass) : reass :=
  Reass (reassdatagrams s) (u16 n) (re_store s) (re_world s).

Definition ip_reass_dequeue_datagram (ipr : nat) (prev : option nat) (s : reass) : M reass :=
  l <- (match ipr, prev with
        | O, _ => ret (drop 1 (reassdatagrams s))
        | _, None => throw ABORT
        | _, Some j => ret (take (S j) (reassdatagrams s) ++ drop (S ipr) (reassdatagrams s))
        end);;
  ret (Reass l (ip_reass_pbufcount s) (re_store s) (re_world s)).

(** [while (p != NULL)]: the fragments are freed one by one. *)
Fixpoint free_frags (fuel : nat) (p : option addr) (pbufs_freed : Z) (st : store) : M (Z * store) :=
  match p with
  | None => ret (pbufs_freed, st)
  | Some _ =>
      match fuel with
      | O => out_of_fuel
      | S fuel' =>
          h <- get_helper p st;;
          n <- pbuf_clen p st;;
          '(_, st) <- pbuf_free p st;;
          free_frags fuel' (h_next h) (pbufs_freed + n) st
      end
  end.

(** The first fragment was received: its header is restored and a time
    exceeded message sent. *)
Definition answer_first (ipr : ip_reassdata) (s : reass) : M (Z * option addr * reass) :=
  h <- get_helper (rd_p ipr) (re_store s);;
  match rd_p ipr with
  | Some p =>
      if h_start h =? 0 then
        x <- fetch (re_store s) (Some p);;
        st <- save (re_store s) (pb_payload x) 0 (rd_iphdr ipr);;
        '(st, w) <- icmp_time_exceeded p ICMP_TE_FRAG st (re_world s);;
        n <- pbuf_clen (Some p) st;;
        '(_, st) <- pbuf_free (Some p) st;;
        ret (n, h_next h, Reass (reassdatagrams s) (ip_reass_pbufcount s) st w)
      else ret (0, Some p, s)
  | None => ub
  end.

(** The pbufs of a datagram, the first one after the message. *)
Definition free_parts (r : ip_reassdata) (s : reass) : M (Z * reass) :=
  '(n, p, s) <- answer_first r s;;
  '(pbufs_freed, st) <- free_frags (walk_fuel (re_store s)) p n (re_store s);;
  ret (pbufs_freed, set_re_store st s).

Definition ip_reass_free_complete_datagram (ipr : nat) (prev : option nat) (s : reass) : M (Z * reass) :=
  _ <- lwip_assert (bool_decide (prev <> Some ipr));;
  _ <- lwip_assert (match prev with Some j => (S j =? ipr)%nat | None => true end);;
  r <- re_entry s ipr;;
  '(pbufs_freed, s) <- free_parts r s;;
  s <- ip_reass_dequeue_datagram ipr prev s;;
  _ <- lwip_assert (pbufs_freed <=? ip_reass_pbufcount s);;
  ret (pbufs_freed, set_pbufcount (ip_reass_pbufcount s - pbufs_freed) s).

(** The datagrams from the place [i] on, with the one before. *)
Fixpoint tmr_frags (fuel : nat) (i : nat) (prev : option nat) (s : reass) : M reass :=
  match reassdatagrams s !! i with
  | None => ret s
  | Some r =>
      match fuel with
      | O => out_of_fuel
      | S fuel' =>
          if 0 <? rd_timer r then
            tmr_frags fuel' (S i) (Some i) (set_re_entry i (with_timer r (rd_timer r - 1)) s)
          else
            '(_, s) <- ip_reass_free_complete_datagram i prev s;;
            tmr_frags fuel' i prev s
      end
  end.

Definition ip_reass_tmr (s : reass) : M reass := tmr_frags (length (reassdatagrams s)) 0 None s.

(** One search for the oldest datagram: its place and timer, the place of the
    last datagram that has a successor, and the number of other datagrams. *)
Fixpoint find_oldest (fraghdr : list Z) (i : nat) (l : list ip_reassdata) (oldest : option (nat * Z))
    (prev : option nat) (other : nat) : option (nat * Z) * option nat * nat :=
  match l with
  | [] => (oldest, prev, other)
  | r :: l' =>
      let m := IP_ADDRESSES_AND_ID_MATCH (rd_iphdr r) fraghdr in
      let older := match oldest with Some (_, t) => rd_timer r <=? t | None => true end in
      let oldest := if negb m && older then Some (i, rd_timer r) else oldest in
      let prev := match l' with [] => prev | _ => Some i end in
      find_oldest fraghdr (S i) l' oldest prev (if m then other else S other)
  end.

Fixpoint remove_loop (fuel : nat) (fraghdr : list Z) (pbufs_needed pbufs_freed : Z) (s : reass) : M (Z * reass) :=
  match fuel with
  | O => out_of_fuel
  | S fuel' =>
      let '(oldest, prev, other) := find_oldest fraghdr 0 (reassdatagrams s) None None 0 in
      '(pbufs_freed, s) <-
        (match oldest with
         | Some (i, _) =>
             '(n, s) <- ip_reass_free_complete_datagram i prev s;;
             ret (pbufs_freed + n, s)
         | None => ret (pbufs_freed, s)
         end);;
      if (pbufs_freed <? pbufs_needed) && (1 <? other)%nat then remove_loop fuel' fraghdr pbufs_needed pbufs_freed s
      else ret (pbufs_freed, s)
  end.

Definition ip_reass_remove_oldest_datagram (fraghdr : list Z) (pbufs_needed : Z) (s : reass) : M (Z * reass) :=
  remove_loop (S (length (reassdatagrams s))) fraghdr pbufs_needed 0 s.

(** The new datagram is the first in the list. *)
Definition ip_reass_enqueue_new_datagram (fraghdr : list Z) (clen : Z) (s : reass) : M (bool * reass) :=
  ok <- malloc;;
  '(ok, s) <-
    (if (ok : bool) then ret (true, s)
     else
       '(n, s) <- ip_reass_remove_oldest_datagram fraghdr clen s;;
       if clen <=? n then ok <- malloc;; ret (ok : bool, s) else ret (false, s));;
  if (ok : bool) then
    ret (true, Reass (Reassdata None fraghdr 0 0 IP_REASS_MAXAGE :: reassdatagrams s) (ip_reass_pbufcount s)
                 (re_store s) (re_world s))
  else ret (false, s).

Definition ip_reass_chain_frag_into_datagram_and_validate (ipr : nat) (new_p : addr) (s : reass) : M (bool * reass) :=
  r <- re_entry s ipr;;
  x <- fetch (re_store s) (Some new_p);;
  fraghdr <- load (re_store s) (pb_payload x) 0 IP_HLEN;;
  let start := frag_offset fraghdr in
  let end_ := u16 (start + frag_len fraghdr) in
  st <- save (re_store s) (pb_payload x) 0 (helper_bytes (Helper None start end_));;
  '(pl, valid) <- scan_frags (walk_fuel st) start None (rd_p r) true st;;
  '(res, st) <- link_frag (rd_p r) new_p start end_ pl valid st;;
  match res with
  | Some (p, valid) =>
      let r := with_p r p in
      complete <- validate r new_p valid st;;
      ret (complete, set_re_entry ipr r (set_re_store st s))
  | None =>
      n <- pbuf_clen (Some new_p) st;;
      '(_, st) <- pbuf_free (Some new_p) st;;
      ret (false, set_pbufcount (ip_reass_pbufcount s - n) (set_re_store st s))
  end.

(** [for (ipr = reassdatagrams; ipr != NULL; ipr = ipr->next)] *)
Fixpoint find_datagram (fraghdr : list Z) (i : nat) (prev : option nat) (l : list ip_reassdata) : option nat * option nat :=
  match l with
  | [] => (None, prev)
  | r :: l' =>
      if IP_ADDRESSES_AND_ID_MATCH (rd_iphdr r) fraghdr then (Some i, prev)
      else find_datagram fraghdr (S i) (Some i) l'
  end.

(** [while(r != NULL)]: the fragments after the first lose their headers and
    are joined to it. *)
Fixpoint join_frags (fuel : nat) (p : addr) (r : option addr) (st : store) : M store :=
  match r with
  | None => ret st
  | Some _ =>
      match fuel with
      | O => out_of_fuel
      | S fuel' =>
          x <- fetch st r;;
          '(_, st) <- pbuf_header r (- IP_HLEN) st;;
          st <- pbuf_cat (Some p) r st;;
          next <- load st (pb_payload x) 0 8;;
          join_frags fuel' p (bytes_ptr next) st
      end
  end.

(** The header of the datagram: that of the first fragment with the new
    length, no offset and a new checksum. *)
Definition whole_header (iphdr : list Z) (datagram_len : Z) : M (list Z) := with_chksum (renewed iphdr datagram_len 0).

(** The datagram at [ipr] is complete. *)
Definition deliver (ipr : nat) (prev : option nat) (s : reass) : M (option addr * reass) :=
  r <- re_entry s ipr;;
  match rd_p r with
  | None => ub
  | Some p =>
      let n := u16 (rd_datagram_len r + IP_HLEN) in
      h <- get_helper (Some p) (re_store s);;
      x <- fetch (re_store s) (Some p);;
      hdr <- whole_header (rd_iphdr r) n;;
      st <- save (re_store s) (pb_payload x) 0 hdr;;
      st <- join_frags (walk_fuel st) p (h_next h) st;;
      s <- ip_reass_dequeue_datagram ipr prev (set_re_store st s);;
      n <- pbuf_clen (Some p) st;;
      ret (Some p, set_pbufcount (ip_reass_pbufcount s - n) s)
  end.

(** [nullreturn] *)
Definition drop_frag (p : addr) (s : reass) : M (option addr * reass) :=
  '(_, st) <- pbuf_free (Some p) (re_store s);;
  ret (None, set_re_store st s).

(** Room for the pbufs of a fragment, if need be by freeing datagrams. *)
Definition make_room (fraghdr : list Z) (clen : Z) (s : reass) : M (bool * reass) :=
  if IP_REASS_MAX_PBUFS <? ip_reass_pbufcount s + clen then
    '(n, s) <- ip_reass_remove_oldest_datagram fraghdr clen s;;
    ret (negb (n =? 0) && (ip_reass_pbufcount s + clen <=? IP_REASS_MAX_PBUFS), s)
  else ret (true, s).

(** The datagram of the fragment, a new one if there is none, and the one
    before it. *)
Definition datagram_of (fraghdr : list Z) (clen : Z) (s : reass) : M (option (nat * option nat) * reass) :=
  match find_datagram fraghdr 0 None (reassdatagrams s) with
  | (Some i, prev) =>
      r <- re_entry s i;;
      let first := (Z.land (ntohs (IPH_OFFSET fraghdr)) IP_OFFMASK =? 0) &&
                   negb (Z.land (ntohs (IPH_OFFSET (rd_iphdr r))) IP_OFFMASK =? 0) in
      ret (Some (i, prev), if first then set_re_entry i (with_iphdr r fraghdr) s else s)
  | (None, prev) =>
      '(ok, s) <- ip_reass_enqueue_new_datagram fraghdr clen s;;
      ret (if (ok : bool) then Some (O, prev) else None, s)
  end.

Definition ip_reass (p : addr) (s : reass) : M (option addr * reass) :=
  x <- fetch (re_store s) (Some p);;
  fraghdr <- load (re_store s) (pb_payload x) 0 IP_HLEN;;
  if negb (IPH_HL fraghdr * 4 =? IP_HLEN) then drop_frag p s
  else
    clen <- pbuf_clen (Some p) (re_store s);;
    '(room, s) <- make_room fraghdr clen s;;
    if negb (room : bool) then drop_frag p s
    else
      '(found, s) <- datagram_of fraghdr clen s;;
      match found with
      | None => drop_frag p s
      | Some (ipr, prev) =>
          let s := set_pbufcount (ip_reass_pbufcount s + clen) s in
          r <- re_entry s ipr;;
          let s := if Z.land (ntohs (IPH_OFFSET fraghdr)) IP_MF =? 0 then
                     set_re_entry ipr (with_last r (u16 (frag_offset fraghdr + frag_len fraghdr))) s
                   else s in
          '(complete, s) <- ip_reass_chain_frag_into_datagram_and_validate ipr p s;;
          if (complete : bool) then deliver ipr prev s else ret (None, s)
      end.
End Reass.

Arguments reass W : clear implicits.
