(* ===== verification/IpReassMem.v ===== *)
(** * lwIP reassembly: fragments in memory

    The list of fragments that runs through the memory of their first pbufs,
    as a list segment, and what reading and writing its links does; the
    insertion of a fragment and the test for completeness as functions on
    the list of fragments, which the walks through the memory compute. *)
From Stdlib Require Import ZArith List Lia Bool.
From stdpp Require Import base gmap list.
From S2P Require Import Prelude CMonad Pbuf PbufChain PbufData PbufEdit PbufAlloc.
From S2P Require Import Inet InetChksum Netif IpHdr Frames IpReass.
#[local] Open Scope Z_scope.
#[local] Open Scope cmonad_scope.

(** ** Pointers and helpers as bytes *)

Lemma field32_mod x : le_value (field32 x) = x mod 4294967296.
Proof. unfold field32. cbn [le_value]. dlia. Qed.

Definition small_ptr (p : option addr) : Prop := ptr_value p < 18446744073709551616.

Lemma ptr_value_nonneg p : 0 <= ptr_value p.
Proof. destruct p; cbn; lia. Qed.

Lemma bytes_ptr_bytes p : small_ptr p -> bytes_ptr (ptr_bytes p) = p.
Proof.
  intros H. unfold small_ptr in H. pose proof (ptr_value_nonneg p) as H0. unfold bytes_ptr, ptr_bytes.
  assert (E : le_value (field32 (ptr_value p) ++ field32 (ptr_value p / 4294967296)) = ptr_value p).
  { rewrite le_value_app. change (p256 (length (field32 _))) with 4294967296. rewrite !field32_mod. dlia. }
  rewrite E. now destruct p.
Qed.

Lemma ptr_bytes_length p : length (ptr_bytes p) = 8%nat.
Proof. reflexivity. Qed.

Lemma helper_bytes_length h : length (helper_bytes h) = 12%nat.
Proof. reflexivity. Qed.

Definition range16 (x : Z) : Prop := 0 <= x < 65536.

Lemma helper_read h :
  small_ptr (h_next h) -> range16 (h_start h) -> range16 (h_end h) ->
  Helper (bytes_ptr (firstn 8 (helper_bytes h))) (get16 (helper_bytes h) 8) (get16 (helper_bytes h) 10) = h.
Proof.
  intros Hp Hs He. destruct h as [n s e]. cbn [h_next h_start h_end] in *. unfold helper_bytes. cbn [h_next h_start h_end].
  f_equal.
  - change (firstn 8 (ptr_bytes n ++ field16 s ++ field16 e)) with (ptr_bytes n). now apply bytes_ptr_bytes.
  - change (get16 (ptr_bytes n ++ field16 s ++ field16 e) 8) with (le_value (field16 s)). now apply field16_value.
  - change (get16 (ptr_bytes n ++ field16 s ++ field16 e) 10) with (le_value (field16 e)). now apply field16_value.
Qed.

(** ** Fragments *)

(** A fragment: its pbufs, the ends of its data, its data, and the header it
    had. *)
Record frag : Type := Frag
  { f_addr : addr; f_head : pbuf; f_tail : list (addr * pbuf); f_start : Z; f_end : Z; f_data : list Z; f_hdr : list Z }.

Definition f_pbufs (f : frag) : list (addr * pbuf) := (f_addr f, f_head f) :: f_tail f.
Definition f_addrs (f : frag) : list addr := map fst (f_pbufs f).
Definition f_helper (n : option addr) (f : frag) : ip_reass_helper := Helper n (f_start f) (f_end f).

(** A packet that owns its pbufs and their memory, has its header in the first
    pbuf, and room for the data of an ICMP message if it is the first. *)
Record whole_packet (st : store) (a : addr) (x : pbuf) (l : list (addr * pbuf)) : Prop := WholePacket
  { wp_packet : packet st (Some a) ((a, x) :: l); wp_valid : all_valid (st_mem st) ((a, x) :: l);
    wp_owns : Forall owns ((a, x) :: l); wp_refs : Forall (fun c => pb_ref (snd c) = 1) ((a, x) :: l);
    wp_type : holds_data (pb_type x) = true; wp_header : IP_HLEN <= pb_len x;
    wp_ptr : Z.pos a < 18446744073709551616 }.

(** A fragment in the list, in front of [n]. *)
Record frag_ok (st : store) (n : option addr) (f : frag) : Prop := FragOk
  { fo_packet : whole_packet st (f_addr f) (f_head f) (f_tail f);
    fo_helper : firstn 12 (bytes_of (st_mem st) (f_head f)) = helper_bytes (f_helper n f);
    fo_data : skipn 20 (content (st_mem st) (f_pbufs f)) = f_data f;
    fo_start : range16 (f_start f); fo_end : range16 (f_end f);
    fo_first : f_start f = 0 -> 28 <= pb_len (f_head f) }.

Lemma whole_packet_agree st st' a x l : agree st st' (a :: map fst l) -> whole_packet st a x l -> whole_packet st' a x l.
Proof.
  intros Ha [[Hc Ht] Hv Hw Hr Hty Hl Hp]. constructor; auto.
  - split; [|exact Ht]. eapply chain_ext; [exact Hc|]. intros b Hb. exact (proj1 (Ha b Hb)).
  - destruct (owned_ext (st_mem st) (st_mem st') _ Hw) as [_ Hv']; [intros b Hb; now apply Ha|]. now apply Hv'.
Qed.

Lemma frag_agree st st' n f : agree st st' (f_addrs f) -> frag_ok st n f -> frag_ok st' n f.
Proof.
  intros Ha [Hp Hh Hd Hs He Hf]. pose proof (wp_owns _ _ _ _ Hp) as Hw.
  destruct (owned_ext (st_mem st) (st_mem st') _ Hw) as [Ec _]; [intros b Hb; now apply Ha|].
  constructor; auto.
  - now apply (whole_packet_agree st).
  - inversion Hw as [|? ? [o Ho] _]; subst. cbn [fst snd] in Ho. rewrite (owned_block (st_mem st) _ _ _ Ho) in Hh.
    rewrite (owned_block (st_mem st') _ _ _ Ho). unfold block in *. destruct (Ha (f_addr f)) as [_ E]; [now left|]. now rewrite E.
  - unfold f_pbufs in *. now rewrite Ec.
Qed.

(** ** Segments of the list *)

Definition head_addr (fs : list frag) (q : option addr) : option addr :=
  match fs with f :: _ => Some (f_addr f) | [] => q end.

(** The fragments [fs] are linked, and the last one points to [q]. *)
Fixpoint seg (st : store) (fs : list frag) (q : option addr) : Prop :=
  match fs with
  | [] => True
  | f :: fs' => frag_ok st (head_addr fs' q) f /\ seg st fs' q
  end.

Definition all_addrs (fs : list frag) : list addr := concat (map f_addrs fs).

Lemma all_addrs_app fs1 fs2 : all_addrs (fs1 ++ fs2) = all_addrs fs1 ++ all_addrs fs2.
Proof. unfold all_addrs. now rewrite map_app, concat_app. Qed.

Lemma head_addr_app fs1 fs2 q : head_addr (fs1 ++ fs2) q = head_addr fs1 (head_addr fs2 q).
Proof. now destruct fs1. Qed.

Lemma seg_app st fs1 fs2 q : seg st (fs1 ++ fs2) q <-> seg st fs1 (head_addr fs2 q) /\ seg st fs2 q.
Proof.
  induction fs1 as [|f fs1 IH]; cbn [seg app]; [tauto|]. rewrite IH, head_addr_app. tauto.
Qed.

Lemma seg_agree st st' fs q : agree st st' (all_addrs fs) -> seg st fs q -> seg st' fs q.
Proof.
  induction fs as [|f fs IH]; intros Ha; [auto|]. intros [Hf Hs]. unfold all_addrs in Ha. cbn [map concat] in Ha. split.
  - eapply frag_agree; [|exact Hf]. eapply agree_incl; [exact Ha|]. intros b Hb. apply in_app_iff. now left.
  - apply IH; [|exact Hs]. eapply agree_incl; [exact Ha|]. intros b Hb. apply in_app_iff. now right.
Qed.

Lemma f_addr_in f : In (f_addr f) (f_addrs f).
Proof. now left. Qed.

Lemma frag_lookup st n f : frag_ok st n f -> st_pbufs st !! f_addr f = Some (f_head f).
Proof. intros H. destruct (wp_packet _ _ _ _ (fo_packet _ _ _ H)) as [Hc _]. now inversion Hc. Qed.

Lemma seg_lookup st fs q f : seg st fs q -> In f fs -> st_pbufs st !! f_addr f = Some (f_head f).
Proof.
  induction fs as [|g fs IH]; intros Hs Hin; [destruct Hin|]. destruct Hs as [Hg Hs]. destruct Hin as [->|Hin]; [|now apply IH].
  now apply (frag_lookup _ _ _ Hg).
Qed.

(** The walks have fuel enough. *)
Lemma seg_length st fs q : seg st fs q -> List.NoDup (all_addrs fs) -> (length fs <= size (st_pbufs st))%nat.
Proof.
  intros Hs Hnd. assert (Hl : (length fs <= length (all_addrs fs))%nat).
  { clear. unfold all_addrs. induction fs as [|f fs IH]; cbn [map concat length]; [lia|]. rewrite length_app.
    unfold f_addrs at 1. cbn [f_pbufs map length]. lia. }
  assert (Hsub : list_to_set (map f_addr fs) ⊆ dom (st_pbufs st)).
  { intros a. rewrite elem_of_list_to_set, list_elem_of_In, in_map_iff. intros (f & <- & Hin). apply elem_of_dom.
    exists (f_head f). now apply (seg_lookup st fs q). }
  assert (Hnd' : NoDup (map f_addr fs)).
  { clear - Hnd. induction fs as [|f fs IH]; cbn [map]; [constructor|]. unfold all_addrs in Hnd. cbn [map concat] in Hnd.
    constructor; [|apply IH; exact (List.NoDup_app_remove_l _ _ Hnd)].
    rewrite list_elem_of_In, in_map_iff. intros (g & E & Hg).
    inversion Hnd as [|? ? Hn _]; subst. apply Hn. apply in_app_iff. right. apply in_concat. exists (f_addrs g).
    split; [now apply in_map|]. rewrite <- E. apply f_addr_in. }
  apply subseteq_size in Hsub. rewrite size_list_to_set, length_map, size_dom in Hsub by exact Hnd'. exact Hsub.
Qed.

(** ** Reading and writing *)

Lemma head_parts st n f : frag_ok st n f ->
  exists o, pb_payload (f_head f) = Some (f_addr f, o) /\ valid (st_mem st) (f_head f) /\ 20 <= pb_len (f_head f).
Proof.
  intros H. destruct (fo_packet _ _ _ H) as [_ Hv Hw _ _ Hl _]. inversion Hw as [|? ? [o Ho] _]; inversion Hv; subst.
  exists o. auto.
Qed.

Lemma get_helper_spec st n f : frag_ok st n f -> small_ptr n -> get_helper (Some (f_addr f)) st = ret (f_helper n f).
Proof.
  intros H Hn. destruct (head_parts _ _ _ H) as (o & Ho & Hv & Hl). unfold get_helper.
  rewrite (fetch_some _ _ _ (frag_lookup _ _ _ H)), bind_ret. rewrite load_bytes, bind_ret by (auto; lia).
  change (Z.to_nat 0) with 0%nat. change (Z.to_nat 12) with 12%nat. rewrite drop_0, (fo_helper _ _ _ H). f_equal.
  apply (helper_read (f_helper n f)); [exact Hn|apply H|apply H].
Qed.

Lemma seg_small st fs q : seg st fs q -> small_ptr q -> small_ptr (head_addr fs q).
Proof. destruct fs as [|f fs]; [auto|]. intros [Hf _] _. exact (wp_ptr _ _ _ _ (fo_packet _ _ _ Hf)). Qed.

Lemma small_none : small_ptr None.
Proof. unfold small_ptr. cbn. lia. Qed.

Lemma whole_packet_written b st st' a x l : written b st st' -> whole_packet st a x l -> whole_packet st' a x l.
Proof.
  intros [Hp Hr] [[Hc Ht] Hv Hw Hrf Hty Hl Hpt]. constructor; auto.
  - split; [now rewrite Hp|exact Ht].
  - now apply (all_valid_rewritten _ _ _ _ Hr).
Qed.

(** Bytes written over the head of a packet. *)
Lemma write_head st a x l bs :
  whole_packet st a x l -> (length bs <= 20)%nat ->
  exists st', save st (pb_payload x) 0 bs = ret st' /\ written a st st' /\ whole_packet st' a x l /\
    bytes_of (st_mem st') x = bs ++ skipn (length bs) (bytes_of (st_mem st) x) /\
    content (st_mem st') ((a, x) :: l) = bs ++ skipn (length bs) (content (st_mem st) ((a, x) :: l)).
Proof.
  intros Hwp Hl. pose proof Hwp as [[Hc _] Hv Hw _ _ Hh _]. unfold IP_HLEN in Hh.
  inversion Hv as [|? ? Hvx _]; inversion Hw as [|? ? [o Ho] Hw']; subst. cbn [fst snd] in *.
  destruct (save_bytes st x a o 0 bs Ho Hvx) as (m1 & E1 & Eb & _); [lia|lia|].
  destruct (save_content st a x l 0 bs Hvx) as (m' & Es & Ec & _ & Hr); [now exists o|exact Hw'| |lia|lia|].
  { now apply (chain_head_fresh (st_pbufs st) a x l). }
  assert (m1 = m').
  { rewrite E1 in Es. apply (f_equal (fun m => fst (m []))) in Es. injection Es as Es. exact Es. }
  subst m1. exists (Store (st_pbufs st) m'). split; [exact Es|].
  assert (Hwr : written a st (Store (st_pbufs st) m')) by (split; [reflexivity|exact Hr]).
  split; [exact Hwr|]. split; [now apply (whole_packet_written a st)|]. cbn [st_mem].
  split; [now rewrite Eb|]. now rewrite Ec.
Qed.

(** The content of a packet, beyond a written head. *)
Lemma skip_head (bs l : list Z) n : (length bs <= n)%nat -> skipn n (bs ++ skipn (length bs) l) = skipn n l.
Proof.
  intros H. rewrite skipn_app, (skipn_all2 bs) by exact H. cbn [app]. rewrite skipn_skipn. f_equal. lia.
Qed.

Lemma set_next_spec st n n' f :
  frag_ok st n f ->
  exists st', set_next_pbuf (f_addr f) n' st = ret st' /\ written (f_addr f) st st' /\ frag_ok st' n' f.
Proof.
  intros H. pose proof H as [Hp Hh Hd Hs He Hf]. unfold set_next_pbuf.
  rewrite (fetch_some _ _ _ (frag_lookup _ _ _ H)), bind_ret.
  destruct (write_head st (f_addr f) (f_head f) (f_tail f) (ptr_bytes n') Hp) as (st' & E & Hw & Hp' & Eb & Ec).
  { rewrite ptr_bytes_length. lia. }
  exists st'. split; [exact E|]. split; [exact Hw|]. constructor; auto.
  - rewrite Eb, ptr_bytes_length, firstn_app, ptr_bytes_length, (firstn_all2 (ptr_bytes n')) by (rewrite ptr_bytes_length; lia).
    change (12 - 8)%nat with 4%nat. rewrite firstn_skipn_comm. change (8 + 4)%nat with 12%nat. rewrite Hh. reflexivity.
  - unfold f_pbufs in *. rewrite Ec, skip_head by (rewrite ptr_bytes_length; lia). exact Hd.
Qed.

(** A received packet becomes a fragment: the helper is written over its
    header. *)
Lemma new_frag st a x l start end_ hdr :
  whole_packet st a x l -> range16 start -> range16 end_ -> (start = 0 -> 28 <= pb_len x) ->
  let f := Frag a x l start end_ (skipn 20 (content (st_mem st) ((a, x) :: l))) hdr in
  exists st', save st (pb_payload x) 0 (helper_bytes (Helper None start end_)) = ret st' /\
    written a st st' /\ frag_ok st' None f.
Proof.
  intros Hp Hs He Hf f. destruct (write_head st a x l (helper_bytes (Helper None start end_)) Hp) as (st' & E & Hw & Hp' & Eb & Ec).
  { rewrite helper_bytes_length. lia. }
  exists st'. split; [exact E|]. split; [exact Hw|]. constructor; auto.
  - cbn [f f_head]. rewrite Eb, firstn_app, helper_bytes_length, firstn_all2 by (rewrite helper_bytes_length; lia).
    rewrite Nat.sub_diag, firstn_O. apply app_nil_r.
  - unfold f_pbufs. cbn [f f_addr f_head f_tail f_data]. rewrite Ec. apply skip_head. rewrite helper_bytes_length. lia.
Qed.

(** The last fragment of a segment gets another successor. *)
Lemma seg_relink st fs f q q' :
  seg st (fs ++ [f]) q -> List.NoDup (all_addrs (fs ++ [f])) ->
  exists st', set_next_pbuf (f_addr f) q' st = ret st' /\ written (f_addr f) st st' /\ seg st' (fs ++ [f]) q'.
Proof.
  intros Hs Hnd. apply seg_app in Hs as [H1 [H2 _]]. cbn [head_addr] in H1, H2.
  destruct (set_next_spec st q q' f H2) as (st' & E & Hw & Hf). exists st'. split; [exact E|]. split; [exact Hw|].
  apply seg_app. cbn [head_addr seg]. split; [|now split]. eapply seg_agree; [|exact H1].
  eapply written_agree; [exact Hw|]. intros Hin. rewrite all_addrs_app in Hnd.
  apply (NoDup_app_disj _ _ Hnd (f_addr f) Hin). unfold all_addrs. cbn [map concat]. apply in_app_iff. left. apply f_addr_in.
Qed.


(** ** On lists *)

(** The last fragment of [fs], or the one before. *)
Fixpoint last_frag (prev : option frag) (fs : list frag) : option frag :=
  match fs with [] => prev | g :: fs' => last_frag (Some g) fs' end.

Definition touches (prev : option frag) (start : Z) : bool :=
  match prev with Some p => f_end p =? start | None => true end.

(** [f] between [prev] and [g] overlaps neither; a fragment that becomes the
    first one is not compared. *)
Definition fits (prev : option frag) (f g : frag) : bool :=
  match prev with Some p => negb ((f_start f <? f_end p) || (f_start g <? f_end f)) | None => true end.

(** The list with the fragment [f], and whether no hole was seen on the way;
    [None] when [f] is thrown away. *)
Fixpoint insert (f : frag) (prev : option frag) (fs : list frag) (valid : bool) : option (list frag * bool) :=
  match fs with
  | [] => Some ([f], valid && touches prev (f_start f))
  | g :: fs' =>
      if f_start f <? f_start g then (if fits prev f g then Some (f :: g :: fs', valid) else None)
      else if (f_start f =? f_start g) || (f_start f <? f_end g) then None
      else
        match insert f (Some g) fs' (valid && touches prev (f_start g)) with
        | Some (l, v) => Some (g :: l, v)
        | None => None
        end
  end.

(** No hole between [f] and the fragments after it. *)
Fixpoint gapless (f : frag) (fs : list frag) : bool :=
  match fs with [] => true | g :: fs' => (f_end f =? f_start g) && gapless g fs' end.

Definition starts_at_0 (fs : list frag) : bool := match fs with f :: _ => f_start f =? 0 | [] => false end.

Lemma last_frag_snoc prev fs f : last_frag prev (fs ++ [f]) = Some f.
Proof. revert prev. induction fs as [|g fs IH]; intros prev; [reflexivity|]. apply IH. Qed.

Lemma last_frag_cases prev fs : (fs = [] /\ last_frag prev fs = prev) \/
  exists l f, fs = l ++ [f] /\ last_frag prev fs = Some f.
Proof.
  destruct fs as [|g fs] using rev_ind; [now left|]. right. exists fs, g. split; [reflexivity|]. apply last_frag_snoc.
Qed.

(** Without holes on the way to the end, [f] follows the last fragment. *)
Lemma insert_split f prev fs v fs' v' :
  insert f prev fs v = Some (fs', v') -> exists l1 l2, fs = l1 ++ l2 /\ fs' = l1 ++ f :: l2.
Proof.
  revert prev v fs' v'. induction fs as [|g fs IH]; intros prev v fs' v'; cbn [insert].
  - intros E. injection E as <- <-. now exists [], [].
  - destruct (f_start f <? f_start g).
    + destruct (fits prev f g); [|discriminate]. intros E. injection E as <- <-. now exists [], (g :: fs).
    + destruct ((f_start f =? f_start g) || (f_start f <? f_end g)); [discriminate|].
      destruct (insert f (Some g) fs _) as [[l w]|] eqn:Ei; [|discriminate]. intros E. injection E as <- <-.
      destruct (IH _ _ _ _ Ei) as (l1 & l2 & -> & ->). now exists (g :: l1), l2.
Qed.

(** ** The scan *)

Definition pointed (n : option addr) (f : frag) : addr * ip_reass_helper := (f_addr f, f_helper n f).

(** The place [pl] in [fs], after [prev], and the result of the insertion. *)
Inductive place_in (f : frag) (prev : option frag) (fs : list frag) (valid : bool) : place -> bool -> Prop :=
| in_before l1 g l2 v :
    fs = l1 ++ g :: l2 ->
    insert f prev fs valid = (if fits (last_frag prev l1) f g then Some (l1 ++ f :: g :: l2, v) else None) ->
    place_in f prev fs valid
      (Before (option_map (pointed (Some (f_addr g))) (last_frag prev l1)) (f_addr g) (f_helper (head_addr l2 None) g)) v
| at_end v :
    (match last_frag prev fs with Some p => f_end p <= f_start f | None => True end) ->
    insert f prev fs valid = Some (fs ++ [f], v && touches (last_frag prev fs) (f_start f)) ->
    place_in f prev fs valid (AtEnd (option_map (pointed None) (last_frag prev fs))) v
| thrown_away v : insert f prev fs valid = None -> place_in f prev fs valid Freepbuf v.

Lemma scan_spec f fs fuel prev valid st :
  seg st fs None -> (length fs <= fuel)%nat ->
  (match prev with Some p => f_end p <= f_start f | None => True end) ->
  exists pl v,
    scan_frags fuel (f_start f) (option_map (pointed (head_addr fs None)) prev) (head_addr fs None) valid st = ret (pl, v) /\
    place_in f prev fs valid pl v.
Proof.
  revert fuel prev valid. induction fs as [|g fs IH]; intros fuel prev valid Hs Hf Hp.
  - exists (AtEnd (option_map (pointed None) prev)), valid. split; [now destruct fuel|].
    change prev with (last_frag prev []) at 2. now apply at_end.
  - destruct fuel as [|fuel]; [cbn in Hf; lia|]. destruct Hs as [Hg Hs]. cbn [scan_frags head_addr].
    rewrite (get_helper_spec _ _ _ Hg) by (apply (seg_small st); [exact Hs|apply small_none]). rewrite bind_ret.
    cbn [f_helper h_start h_end h_next]. destruct (f_start f <? f_start g) eqn:E1.
    + eexists _, valid. split; [reflexivity|]. apply (in_before f prev (g :: fs) valid [] g fs valid); [reflexivity|].
      cbn [insert app last_frag]. now rewrite E1.
    + destruct ((f_start f =? f_start g) || (f_start f <? f_end g)) eqn:E2.
      { exists Freepbuf, valid. split; [reflexivity|]. apply thrown_away. cbn [insert]. now rewrite E1, E2. }
      apply orb_false_elim in E2 as E2'. destruct E2' as [_ E3]. apply Z.ltb_ge in E3.
      destruct (IH fuel (Some g) (valid && touches prev (f_start g)) Hs) as (pl & v & Esc & Hpl); [cbn in Hf; lia|exact E3|].
      exists pl, v. split.
      { rewrite <- Esc. cbn [option_map pointed]. f_equal. destruct prev; cbn; [reflexivity|now rewrite andb_true_r]. }
      destruct Hpl as [l1 g' l2 v -> Ei|v Hl Ei|v Ei].
      * apply (in_before f prev (g :: l1 ++ g' :: l2) valid (g :: l1) g' l2 v); [reflexivity|].
        cbn [insert last_frag app]. rewrite E1, E2, Ei. now destruct (fits _ _ _).
      * apply (at_end f prev (g :: fs) valid v); [exact Hl|]. cbn [insert last_frag app]. now rewrite E1, E2, Ei.
      * apply thrown_away. cbn [insert]. now rewrite E1, E2, Ei.
Qed.

(** ** The links *)

Lemma all_addrs_cons f fs : all_addrs (f :: fs) = f_addrs f ++ all_addrs fs.
Proof. reflexivity. Qed.

Lemma addr_in_all f fs : In f fs -> In (f_addr f) (all_addrs fs).
Proof. intros H. apply in_concat. exists (f_addrs f). split; [now apply in_map|apply f_addr_in]. Qed.

Lemma head_addr_in fs1 g fs2 q : exists a, head_addr (fs1 ++ g :: fs2) q = Some a.
Proof. destruct fs1; now eexists. Qed.

(** A new fragment between the parts of a list, with its links set. *)
Lemma link_between st l1 p f l2 :
  seg st (l1 ++ [p]) (head_addr l2 None) -> seg st l2 None -> frag_ok st (head_addr l2 None) f ->
  List.NoDup (all_addrs (f :: (l1 ++ [p]) ++ l2)) ->
  exists st', set_next_pbuf (f_addr p) (Some (f_addr f)) st = ret st' /\
    changed (all_addrs (f :: (l1 ++ [p]) ++ l2)) st st' /\ seg st' ((l1 ++ [p]) ++ f :: l2) None.
Proof.
  intros H1 H2 Hf Hnd. rewrite all_addrs_cons in Hnd.
  assert (Hin : In (f_addr p) (all_addrs ((l1 ++ [p]) ++ l2))).
  { apply addr_in_all, in_app_iff. left. apply in_app_iff. right. now left. }
  destruct (seg_relink st l1 p _ (Some (f_addr f)) H1) as (st' & E & Hw & Hs).
  { apply NoDup_app_remove_l in Hnd. rewrite all_addrs_app in Hnd. exact (NoDup_app_remove_r _ _ Hnd). }
  exists st'. split; [exact E|]. split.
  { apply (written_changed (f_addr p)); [exact Hw|]. rewrite all_addrs_cons. apply in_app_iff. now right. }
  apply seg_app. cbn [head_addr seg]. split; [exact Hs|]. split.
  - eapply frag_agree; [|exact Hf]. eapply written_agree; [exact Hw|]. intros Hb. exact (NoDup_app_disj _ _ Hnd _ Hb Hin).
  - eapply seg_agree; [|exact H2]. eapply written_agree; [exact Hw|]. intros Hb.
    apply NoDup_app_remove_l in Hnd. rewrite all_addrs_app in Hnd. apply (NoDup_app_disj _ _ Hnd (f_addr p)); [|exact Hb].
    apply addr_in_all, in_app_iff. right. now left.
Qed.

(** The scan and the links together insert the fragment. *)
Lemma link_spec f fs pl v st :
  seg st fs None -> frag_ok st None f -> List.NoDup (all_addrs (f :: fs)) -> place_in f None fs true pl v ->
  exists st',
    link_frag (head_addr fs None) (f_addr f) (f_start f) (f_end f) pl v st =
      ret (option_map (fun '(fs', v') => (head_addr fs' None, v')) (insert f None fs true), st') /\
    changed (all_addrs (f :: fs)) st st' /\
    (exists n, frag_ok st' n f) /\
    match insert f None fs true with Some (fs', _) => seg st' fs' None | None => seg st' fs None end.
Proof.
  intros Hs Hf Hnd Hpl. destruct Hpl as [l1 g l2 v -> Ei|v Hl Ei|v Ei]; rewrite Ei; cbn [link_frag].
  - destruct (set_next_spec st None (Some (f_addr g)) f Hf) as (st1 & E1 & Hw & Hf1). rewrite E1, bind_ret.
    assert (Hch : changed (all_addrs (f :: l1 ++ g :: l2)) st st1).
    { apply (written_changed (f_addr f)); [exact Hw|]. rewrite all_addrs_cons. apply in_app_iff. left. apply f_addr_in. }
    assert (Hs1 : seg st1 (l1 ++ g :: l2) None).
    { eapply seg_agree; [|exact Hs]. eapply written_agree; [exact Hw|]. rewrite all_addrs_cons in Hnd.
      exact (NoDup_app_disj _ _ Hnd _ (f_addr_in f)). }
    apply seg_app in Hs1 as Hs2. destruct Hs2 as [Hsa Hsb].
    destruct (last_frag_cases None l1) as [[-> El]|(l & p & -> & El)]; rewrite El; cbn [option_map pointed fits].
    + exists st1. split; [reflexivity|]. split; [exact Hch|]. split; [now exists (Some (f_addr g))|]. now split.
    + cbn [h_end f_helper h_start].
      destruct ((f_start f <? f_end p) || (f_start g <? f_end f)); cbn [negb].
      { exists st1. split; [reflexivity|]. split; [exact Hch|]. split; [now exists (Some (f_addr g))|exact Hs1]. }
      destruct (link_between st1 l p f (g :: l2) Hsa Hsb Hf1 Hnd) as (st2 & E2 & Hch2 & Hs2). rewrite E2, bind_ret.
      exists st2. split. { cbn [option_map]. do 4 f_equal. rewrite <- !app_assoc. now destruct l. }
      split; [now apply (changed_trans _ _ st1)|]. split; [|exact Hs2].
      apply seg_app in Hs2 as [_ [Hf2 _]]. eauto.
  - destruct (last_frag_cases None fs) as [[-> El]|(l & p & -> & El)]; rewrite El in *; cbn [option_map pointed].
    + cbn [head_addr]. rewrite bool_decide_true, lwip_assert_true, bind_ret by reflexivity. cbn [option_map app head_addr touches].
      rewrite andb_true_r. exists st. split; [reflexivity|]. split; [apply changed_refl|]. split; [eauto|]. cbn [seg head_addr]. auto.
    + cbn [h_end f_helper]. rewrite lwip_assert_true, bind_ret by now apply Z.leb_le.
      destruct (link_between st l p f [] Hs I Hf) as (st2 & E2 & Hch2 & Hs2); [now rewrite app_nil_r|].
      rewrite E2, bind_ret. rewrite app_nil_r in Hch2. exists st2. split. { cbn [option_map touches]. do 4 f_equal. now destruct l. }
      split; [exact Hch2|]. split; [|exact Hs2]. apply seg_app in Hs2 as [_ [Hf2 _]]. eauto.
  - exists st. split; [reflexivity|]. split; [apply changed_refl|]. split; [eauto|exact Hs].
Qed.

(** ** The validation *)

Lemma no_holes_spec fs f fuel st :
  seg st (f :: fs) None -> (length fs <= fuel)%nat ->
  exists a h,
    no_holes fuel (f_addr f) (f_helper (head_addr fs None) f) st = ret (gapless f fs, a, h) /\
    (gapless f fs = true ->
       exists l g, f :: fs = l ++ [g] /\ a = f_addr g /\ h = f_helper None g /\ st_pbufs st !! a = Some (f_head g)).
Proof.
  revert f fuel. induction fs as [|g fs IH]; intros f fuel [Hf Hs] Hfuel.
  - exists (f_addr f), (f_helper None f). split; [now destruct fuel|]. intros _. exists [], f. split; [reflexivity|].
    split; [reflexivity|]. split; [reflexivity|]. exact (frag_lookup _ _ _ Hf).
  - destruct fuel as [|fuel]; [cbn in Hfuel; lia|]. cbn [no_holes f_helper h_next head_addr gapless h_end]. pose proof Hs as [Hg Hs'].
    rewrite (get_helper_spec _ _ _ Hg) by (apply (seg_small st); [exact Hs'|apply small_none]). rewrite bind_ret.
    cbn [f_helper h_start]. destruct (f_end f =? f_start g); [|now eexists _, _].
    destruct (IH g fuel Hs) as (a & h & E & H); [cbn in Hfuel; lia|]. exists a, h. split; [exact E|]. intros Hg'.
    destruct (H Hg') as (l & g' & El & Ha). exists (f :: l), g'. split; [|exact Ha]. cbn [app]. now rewrite El.
Qed.

(** When the fragments make up the datagram, as far as is looked at. *)
Definition looks_complete (r : ip_reassdata) (valid : bool) (fs : list frag) (f : frag) (l2 : list frag) : bool :=
  negb (Z.land (rd_flags r) IP_REASS_FLAG_LASTFRAG =? 0) && valid && starts_at_0 fs && gapless f l2.

Definition last_end (fs : list frag) : Z := match last_frag None fs with Some f => f_end f | None => 0 end.

Lemma head_payload st n f : frag_ok st n f -> exists o, pb_payload (f_head f) = Some (f_addr f, o).
Proof. intros H. destruct (head_parts _ _ _ H) as (o & Ho & _). eauto. Qed.

Lemma validate_spec r l1 f l2 valid st :
  let fs := l1 ++ f :: l2 in
  seg st fs None -> List.NoDup (all_addrs fs) -> rd_p r = head_addr fs None ->
  validate r (f_addr f) valid st =
    if looks_complete r valid fs f l2 then
      (_ <- lwip_assert (1 <? length fs)%nat;;
       _ <- lwip_assert (last_end fs =? rd_datagram_len r);;
       ret true)
    else ret false.
Proof.
  intros fs Hs Hnd Hp. unfold validate, looks_complete.
  destruct (Z.land (rd_flags r) IP_REASS_FLAG_LASTFRAG =? 0); [reflexivity|]. cbn [negb andb].
  destruct valid; [|reflexivity]. cbn [negb andb].
  assert (Hc : exists h t, fs = h :: t /\ frag_ok st (head_addr t None) h /\ seg st t None).
  { unfold fs in *. destruct l1 as [|h l1]; destruct Hs as [Hh Ht]; [now exists f, l2|now exists h, (l1 ++ f :: l2)]. }
  destruct Hc as (h & t & E & Hh & Ht). rewrite Hp, E. cbn [head_addr starts_at_0].
  rewrite (get_helper_spec _ _ _ Hh) by (apply (seg_small st); [exact Ht|apply small_none]). rewrite bind_ret.
  cbn [f_helper h_start]. destruct (f_start h =? 0); [|reflexivity]. cbn [negb andb].
  apply seg_app in Hs as Hs'. destruct Hs' as [_ Hs2]. pose proof Hs2 as [Hf Hl2].
  rewrite (get_helper_spec _ _ _ Hf) by (apply (seg_small st); [exact Hl2|apply small_none]). rewrite bind_ret.
  destruct (no_holes_spec l2 f (walk_fuel st) st Hs2) as (a & hh & En & Hg).
  { pose proof (seg_length st fs None Hs Hnd) as Hlen. unfold fs in Hlen. rewrite length_app in Hlen. cbn [length] in Hlen.
    unfold walk_fuel. lia. }
  rewrite En, bind_ret. destruct (gapless f l2); [|reflexivity].
  destruct (Hg eq_refl) as (l & g & El & -> & -> & Hlook).
  assert (Elast : fs = (l1 ++ l) ++ [g]) by (unfold fs; now rewrite El, app_assoc).
  assert (Hfg : exists n, frag_ok st n g).
  { rewrite Elast in Hs. apply seg_app in Hs as [_ [Hgg _]]. eauto. }
  destruct Hfg as (n & Hgg). destruct (head_payload _ _ _ Hh) as (o & Ho). destruct (head_payload _ _ _ Hgg) as (o' & Ho').
  rewrite bool_decide_true, lwip_assert_true, bind_ret by (reflexivity || discriminate).
  rewrite (fetch_some _ _ _ (frag_lookup _ _ _ Hh)), bind_ret, (fetch_some _ _ _ Hlook), bind_ret, Ho, Ho'.
  cbn [f_helper h_next h_end].
  assert (Eb : bool_decide (Some (f_addr h, o) <> Some (f_addr g, o')) = (1 <? length (h :: t))%nat).
  { destruct t as [|t0 t].
    - rewrite E in Elast. destruct (l1 ++ l) as [|y [|]]; [|discriminate|discriminate].
      injection Elast as <-. rewrite Ho in Ho'. injection Ho' as <-. cbn [length]. apply bool_decide_false. intros H. now apply H.
    - cbn [length]. rewrite (proj2 (Nat.ltb_lt _ _)) by lia. apply bool_decide_true. intros [= Eq _].
      rewrite Elast in E. destruct (l1 ++ l) as [|y ys]; [discriminate|]. injection E as -> E.
      rewrite Elast in Hnd. cbn [app] in Hnd. rewrite all_addrs_cons in Hnd.
      apply (NoDup_app_disj _ _ Hnd (f_addr h) (f_addr_in h)). rewrite Eq. apply addr_in_all, in_app_iff. right. now left. }
  rewrite Eb. rewrite (bool_decide_true (None = None)) by reflexivity. rewrite <- E.
  assert (Hle : last_end fs = f_end g) by (unfold last_end; now rewrite Elast, last_frag_snoc). rewrite Hle.
  destruct (1 <? length fs)%nat; [|reflexivity]. rewrite !lwip_assert_true, !bind_ret by reflexivity. reflexivity.
Qed.
