(* ===== verification/IpReassInv.v ===== *)
(** * lwIP reassembly: joining, and the invariant

    The two walks that end a datagram: its fragments become one packet, or
    all of them are freed.  The datagrams that wait for fragments, each with
    the list of fragments it has, and that the operations on the list of
    datagrams keep the invariant.  The rest of the system, which sends the
    ICMP messages, is known through what it promises here. *)
From Stdlib Require Import ZArith List Lia Bool.
From stdpp Require Import base gmap list.
From S2P Require Import Prelude CMonad Pbuf PbufChain PbufData PbufEdit PbufAlloc.
From S2P Require Import Inet InetChksum Netif IpHdr Frames IpReass IpReassMem.
#[local] Open Scope Z_scope.
#[local] Open Scope cmonad_scope.

(** ** Freeing *)

Lemma whole_free st a x l : whole_packet st a x l ->
  exists n st', pbuf_free (Some a) st = ret (n, st') /\ removed (a :: map fst l) st st'.
Proof.
  intros [Hp _ _ Hr _ _ _]. eexists _, _. split; [exact (pbuf_free_spec _ _ _ Hp)|].
  assert (Hall : forall b y, In (b, y) ((a, x) :: l) -> pb_ref y = 1).
  { intros b y Hin. rewrite List.Forall_forall in Hr. exact (Hr _ Hin). }
  split; intros b Hb.
  - exact (proj2 (freed_all ((a, x) :: l) st Hall) b Hb).
  - exact (freed_other ((a, x) :: l) st b Hb).
Qed.

Lemma whole_clen st a x l : whole_packet st a x l -> (length l < 255)%nat ->
  pbuf_clen (Some a) st = ret (Z.of_nat (S (length l))).
Proof.
  intros [[Hc _] _ _ _ _ _ _] Hl. rewrite (pbuf_clen_spec _ _ _ Hc). cbn [length]. unfold u8. f_equal.
  apply Z.mod_small. lia.
Qed.

(** A fragment of few enough pbufs for [pbuf_clen]. *)
Definition short (f : frag) : Prop := (length (f_tail f) < 255)%nat.

Lemma free_frags_spec fs fuel n st :
  seg st fs None -> List.NoDup (all_addrs fs) -> Forall short fs -> (length fs <= fuel)%nat ->
  exists st', free_frags fuel (head_addr fs None) n st = ret (n + Z.of_nat (length (all_addrs fs)), st') /\
    removed (all_addrs fs) st st'.
Proof.
  revert fuel n st. induction fs as [|f fs IH]; intros fuel n st Hs Hnd Hsh Hf.
  - exists st. split; [destruct fuel; cbn; now rewrite Z.add_0_r|apply removed_refl].
  - destruct fuel as [|fuel]; [cbn in Hf; lia|]. destruct Hs as [Hf1 Hs]. inversion Hsh as [|? ? Hs1 Hsh']; subst.
    rewrite all_addrs_cons in *. cbn [free_frags head_addr].
    rewrite (get_helper_spec _ _ _ Hf1) by (apply (seg_small st); [exact Hs|apply small_none]). rewrite bind_ret.
    pose proof (fo_packet _ _ _ Hf1) as Hp. rewrite (whole_clen _ _ _ _ Hp Hs1), bind_ret.
    destruct (whole_free _ _ _ _ Hp) as (k & st1 & E1 & R1). rewrite E1, bind_ret. cbn [f_helper h_next].
    destruct (IH fuel (n + Z.of_nat (S (length (f_tail f)))) st1) as (st2 & E2 & R2); [| |exact Hsh'|cbn in Hf; lia|].
    + eapply seg_agree; [|exact Hs]. eapply removed_agree; [exact R1|].
      intros b Hb Hb'. exact (NoDup_app_disj _ _ Hnd b Hb' Hb).
    + exact (NoDup_app_remove_l _ _ Hnd).
    + exists st2. split; [|exact (removed_app _ _ _ _ _ R1 R2)]. rewrite E2. do 2 f_equal.
      rewrite length_app. unfold f_addrs, f_pbufs. cbn [map length]. rewrite length_map. lia.
Qed.

(** ** Joining *)

(** What joining keeps of the pbufs of the first chain. *)
Lemma joined_Forall (P : addr * pbuf -> Prop) t n l :
  (forall a x m, P (a, x) -> P (a, with_tot_len x m)) -> (forall a x q, P (a, x) -> P (a, with_next x q)) ->
  Forall P l -> Forall P (joined t n l).
Proof.
  intros H1 H2 Hl. induction Hl as [|[a x] l Hx Hl IH]; [constructor|]. destruct l as [|c l].
  - cbn. constructor; [now apply H2, H1|constructor].
  - rewrite joined_cons by discriminate. constructor; [now apply H1|exact IH].
Qed.

(** A packet that owns its memory, with one reference to each pbuf. *)
Record own_packet (st : store) (a : addr) (l : list (addr * pbuf)) : Prop := OwnPacket
  { op_packet : packet st (Some a) l; op_valid : all_valid (st_mem st) l; op_owns : Forall owns l;
    op_refs : Forall (fun c => pb_ref (snd c) = 1) l }.

Lemma whole_own st a x l : whole_packet st a x l -> own_packet st a ((a, x) :: l).
Proof. intros [H1 H2 H3 H4 _ _ _]. constructor; assumption. Qed.

Lemma own_agree st st' a l : agree st st' (map fst l) -> own_packet st a l -> own_packet st' a l.
Proof.
  intros Ha [[Hc Ht] Hv Hw Hr]. constructor; auto.
  - split; [|exact Ht]. eapply chain_ext; [exact Hc|]. intros b Hb. exact (proj1 (Ha b Hb)).
  - destruct (owned_ext (st_mem st) (st_mem st') _ Hw) as [_ Hv']; [intros b Hb; now apply Ha|]. now apply Hv'.
Qed.

(** Two packets that share nothing become one. *)
Lemma own_cat st a l1 b l2 :
  own_packet st a l1 -> own_packet st b l2 -> List.NoDup (map fst l1 ++ map fst l2) -> total l1 + total l2 < 65536 ->
  exists st' l, pbuf_cat (Some a) (Some b) st = ret st' /\ own_packet st' a l /\ map fst l = map fst l1 ++ map fst l2 /\
    content (st_mem st') l = content (st_mem st) l1 ++ content (st_mem st) l2 /\ total l = total l1 + total l2 /\
    st_mem st' = st_mem st /\ (forall c, ~ In c (map fst l1) -> st_pbufs st' !! c = st_pbufs st !! c).
Proof.
  intros [Hp1 Hv1 Hw1 Hr1] [Hp2 Hv2 Hw2 Hr2] Hnd Ht.
  destruct (pbuf_cat_spec st a l1 b l2 Hp1 Hp2 (NoDup_app_disj _ _ Hnd) Ht) as (st' & E & Hp & Hk & Hm).
  exists st', (joined b (total l2) l1 ++ l2). split; [exact E|].
  destruct (joined_totals b l1 l2 (proj2 Hp1) (proj2 Hp2) Ht) as [_ Htl].
  split; [|split; [|split; [|split; [|split; [exact Hm|exact Hk]]]]].
  - constructor; [exact Hp| | |].
    + rewrite Hm. apply Forall_app. split; [|exact Hv2]. eapply all_valid_fields; [apply joined_fields|exact Hv1].
    + apply Forall_app. split; [|exact Hw2]. apply joined_Forall; [intros ? ? ? H; exact H|intros ? ? ? H; exact H|exact Hw1].
    + apply Forall_app. split; [|exact Hr2]. apply joined_Forall; [intros ? ? ? H; exact H|intros ? ? ? H; exact H|exact Hr1].
  - now rewrite map_app, joined_addrs.
  - rewrite content_app, Hm. f_equal. apply content_fields, joined_fields.
  - rewrite total_app, Htl. reflexivity.
Qed.

(** The header of a fragment is hidden. *)
Lemma hide_header st n f : frag_ok st n f ->
  exists st' l', pbuf_header (Some (f_addr f)) (- IP_HLEN) st = ret (0, st') /\ own_packet st' (f_addr f) l' /\
    map fst l' = f_addrs f /\ content (st_mem st') l' = f_data f /\ total l' = total (f_pbufs f) - 20 /\
    st_mem st' = st_mem st /\ (forall c, c <> f_addr f -> st_pbufs st' !! c = st_pbufs st !! c).
Proof.
  intros Hf. destruct (head_parts _ _ _ Hf) as (o & Ho & Hv & Hl). pose proof Hf as [[Hp Hav Hw Hr Hty Hh _] _ Hd _ _ _].
  assert (Ho0 : 0 <= o). { destruct Hv as [_ Hv]. specialize (Hv ltac:(lia)). rewrite Ho in Hv. tauto. }
  destruct (pbuf_header_undo st (f_addr f) (f_head f) (f_tail f) o 20 Hp Hav Ho Hty Ho0) as (st' & E & Hp' & Hc & _); [lia|lia|].
  pose proof (frag_lookup _ _ _ Hf) as Hlook.
  assert (E' : pbuf_header (Some (f_addr f)) (Z.opp 20) st = ret (0, set_pbuf (f_addr f) (shifted (f_head f) (Z.opp 20)) st)).
  { destruct Hp as [_ (Htl & Hl0 & _ & Htot & Htt)]. apply totals_nonneg in Htt. cbn [total] in Htl, Htot.
    rewrite (pbuf_header_spec st (f_addr f) (f_head f) o (Z.opp 20) Hlook Ho Hty) by lia.
    destruct (Z.ltb_spec (pb_len (f_head f)) (Z.opp (Z.opp 20))); [lia|]. rewrite andb_false_r.
    destruct (Z.ltb_spec (o - Z.opp 20) 0); [lia|reflexivity]. }
  assert (Est : st' = set_pbuf (f_addr f) (shifted (f_head f) (Z.opp 20)) st).
  { rewrite E' in E. apply (f_equal (fun m => fst (m []))) in E. now injection E. }
  subst st'. eexists _, ((f_addr f, shifted (f_head f) (Z.opp 20)) :: f_tail f). split; [exact E'|].
  split; [|split; [reflexivity|split; [|split; [|split; [reflexivity|]]]]].
  - constructor; [exact Hp'| | |].
    + inversion Hav as [|? ? Hvx Hvl]; subst. constructor; [|exact Hvl]. destruct Hvx as [_ Hvx]. cbn [snd] in Hvx.
      specialize (Hvx ltac:(lia)). rewrite Ho in Hvx. split; cbn [snd shifted pb_len with_tot_len with_len]; [lia|].
      intros _. unfold shifted. cbn [pb_payload with_tot_len with_len with_payload]. rewrite Ho. cbn [pb_len st_mem set_pbuf]. lia.
    + inversion Hw as [|? ? _ Hw']; subst. constructor; [|exact Hw']. exists (o - Z.opp 20). cbn. now rewrite Ho.
    + inversion Hr as [|? ? Hr1 Hr']; subst. constructor; [exact Hr1|exact Hr'].
  - rewrite Hc. exact Hd.
  - cbn [total f_pbufs shifted with_tot_len pb_len with_len]. lia.
  - intros c Hc'. cbn. now apply lookup_insert_ne.
Qed.

Definition all_data (fs : list frag) : list Z := concat (map f_data fs).

Fixpoint data_len (fs : list frag) : Z :=
  match fs with [] => 0 | f :: fs' => total (f_pbufs f) - 20 + data_len fs' end.

(** The bytes at a pointer that was read before its pbuf was changed. *)
Lemma load_next st n f m : frag_ok st n f -> small_ptr n -> st_mem m = st_mem st ->
  (next <- load m (pb_payload (f_head f)) 0 8;; ret (bytes_ptr next)) = ret n.
Proof.
  intros Hf Hn Hm. destruct (head_parts _ _ _ Hf) as (o & Ho & Hv & Hl).
  rewrite load_bytes, bind_ret by (rewrite ?Hm; auto; lia). rewrite Hm. f_equal.
  change (Z.to_nat 0) with 0%nat. change (Z.to_nat 8) with 8%nat. rewrite drop_0.
  pose proof (f_equal (firstn 8) (fo_helper _ _ _ Hf)) as E. rewrite firstn_firstn in E. change (Init.Nat.min 8 12) with 8%nat in E.
  rewrite E. unfold helper_bytes. cbn [f_helper h_next].
  change (firstn 8 (ptr_bytes n ++ field16 (f_start f) ++ field16 (f_end f))) with (ptr_bytes n). now apply bytes_ptr_bytes.
Qed.

Lemma join_frags_spec fs fuel st a l :
  own_packet st a l -> seg st fs None -> List.NoDup (map fst l ++ all_addrs fs) ->
  total l + data_len fs < 65536 -> (length fs <= fuel)%nat ->
  exists st' l', join_frags fuel a (head_addr fs None) st = ret st' /\ own_packet st' a l' /\
    map fst l' = map fst l ++ all_addrs fs /\ content (st_mem st') l' = content (st_mem st) l ++ all_data fs /\
    total l' = total l + data_len fs /\
    st_mem st' = st_mem st /\ (forall c, ~ In c (map fst l ++ all_addrs fs) -> st_pbufs st' !! c = st_pbufs st !! c).
Proof.
  revert fuel st l. induction fs as [|f fs IH]; intros fuel st l Hl Hs Hnd Ht Hfuel.
  - exists st, l. cbn. rewrite !app_nil_r, Z.add_0_r. split; [now destruct fuel|]. do 5 (split; [auto|]). auto.
  - destruct fuel as [|fuel]; [cbn in Hfuel; lia|]. destruct Hs as [Hf Hs]. cbn [data_len] in Ht.
    rewrite all_addrs_cons, app_assoc in *. pose proof (NoDup_app_remove_r _ _ Hnd) as Hnd1.
    assert (Hfa : ~ In (f_addr f) (map fst l ++ all_addrs fs)).
    { intros Hi. apply in_app_iff in Hi as [Hi|Hi].
      - exact (NoDup_app_disj _ _ Hnd1 _ Hi (f_addr_in f)).
      - apply (NoDup_app_disj _ _ Hnd (f_addr f)); [|exact Hi]. apply in_app_iff. right. apply f_addr_in. }
    rewrite in_app_iff in Hfa.
    destruct (hide_header st _ f Hf) as (st1 & l1 & E1 & Hl1 & A1 & C1 & T1 & M1 & K1).
    assert (Ha1 : forall bs, ~ In (f_addr f) bs -> agree st st1 bs).
    { intros bs Hn b Hb. rewrite M1. split; [apply K1; congruence|reflexivity]. }
    assert (Hdl : 0 <= data_len fs).
    { clear - Hs. induction fs as [|g fs IH]; cbn; [lia|]. destruct Hs as [Hg Hs]. specialize (IH Hs).
      destruct (fo_packet _ _ _ Hg) as [[_ (_ & _ & _ & _ & Htt)] _ _ _ _ Hh _]. apply totals_nonneg in Htt.
      unfold f_pbufs. cbn [total]. unfold IP_HLEN in Hh. lia. }
    destruct (own_cat st1 a l (f_addr f) l1) as (st2 & l2 & E2 & Hl2 & A2 & C2 & T2 & M2 & K2).
    { eapply own_agree; [apply Ha1; tauto|exact Hl]. }
    { exact Hl1. } { now rewrite A1. } { lia. }
    assert (Hag : agree st st2 (all_addrs fs)).
    { eapply agree_trans; [apply Ha1; tauto|]. intros b Hb. rewrite M2. split; [|reflexivity]. apply K2.
      intros Hi. apply (NoDup_app_disj _ _ Hnd b); [|exact Hb]. apply in_app_iff. now left. }
    destruct (IH fuel st2 l2 Hl2) as (st3 & l3 & E3 & Hl3 & A3 & C3 & T3 & M3 & K3).
    { eapply seg_agree; [exact Hag|exact Hs]. } { now rewrite A2, A1. } { lia. } { cbn in Hfuel; lia. }
    exists st3, l3. cbn [join_frags head_addr].
    rewrite (fetch_some _ _ _ (frag_lookup _ _ _ Hf)), bind_ret, E1, bind_ret, E2, bind_ret.
    pose proof (load_next st _ f st2 Hf (seg_small st fs None Hs small_none) ltac:(congruence)) as En.
    assert (Eb : (next <- load st2 (pb_payload (f_head f)) 0 8;; join_frags fuel a (bytes_ptr next) st2) = ret st3).
    { rewrite <- E3. revert En. destruct (head_parts _ _ _ Hf) as (o & Ho & Hv & Hlen).
      rewrite load_bytes by (rewrite ?M2, ?M1; auto; lia). rewrite !bind_ret. intros En.
      apply (f_equal (fun m => fst (m []))) in En. injection En as ->. reflexivity. }
    rewrite Eb. split; [reflexivity|]. split; [exact Hl3|]. split; [now rewrite A3, A2, A1, <- app_assoc|].
    split.
    { rewrite C3, C2, C1, M1. unfold all_data. cbn [map concat]. now rewrite <- app_assoc. }
    split; [cbn [data_len]; lia|]. split; [congruence|]. intros c Hc. rewrite !in_app_iff in Hc.
    rewrite K3, K2, K1; [reflexivity| | |].
    + intros ->. apply Hc. left. right. apply f_addr_in.
    + tauto.
    + rewrite A2, A1, !in_app_iff. tauto.
Qed.


(** ** Datagrams *)

(** The ends of a fragment fit its header, its data and the largest datagram. *)
Record frag_legal (f : frag) : Prop := FragLegal
  { fl_start : f_start f = frag_offset (f_hdr f); fl_end : f_end f = f_start f + Z.of_nat (length (f_data f));
    fl_max : f_end f <= 65515 }.

Definition same_datagram (a b : list Z) : Prop := IP_ADDRESSES_AND_ID_MATCH a b = true.

Lemma same_datagram_fields a b :
  same_datagram a b <-> iph_src a = iph_src b /\ iph_dest a = iph_dest b /\ IPH_ID a = IPH_ID b.
Proof. unfold same_datagram, IP_ADDRESSES_AND_ID_MATCH. rewrite !andb_true_iff, !Z.eqb_eq. tauto. Qed.

#[export] Instance same_datagram_sym : Symmetric same_datagram.
Proof. intros a b. rewrite !same_datagram_fields. intros (-> & -> & ->). auto. Qed.

#[export] Instance same_datagram_trans : Transitive same_datagram.
Proof. intros a b c. rewrite !same_datagram_fields. intros (-> & -> & ->). auto. Qed.

Record datagram_ok (st : store) (r : ip_reassdata) (fs : list frag) : Prop := DatagramOk
  { do_p : rd_p r = head_addr fs None; do_seg : seg st fs None; do_legal : Forall frag_legal fs;
    do_same : Forall (fun f => same_datagram (f_hdr f) (rd_iphdr r)) fs;
    do_iphdr : length (rd_iphdr r) = 20%nat; do_timer : 0 <= rd_timer r <= IP_REASS_MAXAGE }.

(** The header of a first fragment. *)
Definition is_first (hdr : list Z) : bool := Z.land (ntohs (IPH_OFFSET hdr)) IP_OFFMASK =? 0.

(** A datagram keeps the header of its first fragment, once it is there. *)
Definition settled (r : ip_reassdata) (fs : list frag) : Prop :=
  match fs with
  | f :: _ => (is_first (rd_iphdr r) = true /\ f_start f = 0 /\ f_hdr f = rd_iphdr r) \/
              (is_first (rd_iphdr r) = false /\ f_start f <> 0)
  | [] => False
  end.

Lemma settled_ne rs fss : Forall2 settled rs fss -> Forall (fun fs => fs <> []) fss.
Proof. intros H. induction H as [|r fs rs fss H1 H IH]; constructor; [|exact IH]. intros ->. exact H1. Qed.

Definition pbufs_of (fss : list (list frag)) : list addr := concat (map all_addrs fss).

Lemma pbufs_of_app l1 l2 : pbufs_of (l1 ++ l2) = pbufs_of l1 ++ pbufs_of l2.
Proof. unfold pbufs_of. now rewrite map_app, concat_app. Qed.

Lemma pbufs_of_cons fs l : pbufs_of (fs :: l) = all_addrs fs ++ pbufs_of l.
Proof. reflexivity. Qed.

Lemma datagram_agree st st' r fs : agree st st' (all_addrs fs) -> datagram_ok st r fs -> datagram_ok st' r fs.
Proof. intros Ha [Hp Hs Hl Hm Hi Ht]. constructor; auto. now apply (seg_agree st). Qed.

Lemma datagrams_agree st st' rs fss :
  agree st st' (pbufs_of fss) -> Forall2 (datagram_ok st) rs fss -> Forall2 (datagram_ok st') rs fss.
Proof.
  intros Ha Hd. induction Hd as [|r fs rs fss H1 Hd IH]; [constructor|]. rewrite pbufs_of_cons in Ha. constructor.
  - eapply datagram_agree; [|exact H1]. eapply agree_incl; [exact Ha|]. intros b Hb. apply in_app_iff. now left.
  - apply IH. eapply agree_incl; [exact Ha|]. intros b Hb. apply in_app_iff. now right.
Qed.

Lemma pbufs_short fss n : Z.of_nat (length (pbufs_of fss)) <= n -> n <= 255 ->
  forall fs, In fs fss -> Forall short fs.
Proof.
  intros Hl Hn fs Hfs. apply List.Forall_forall. intros f Hf. unfold short.
  assert (H : (length (f_addrs f) <= length (pbufs_of fss))%nat); [|unfold f_addrs, f_pbufs in H; cbn in H; rewrite length_map in H; lia].
  apply in_split in Hfs as (l1 & l2 & ->). apply in_split in Hf as (k1 & k2 & ->).
  rewrite pbufs_of_app, pbufs_of_cons, all_addrs_app, all_addrs_cons, !length_app. lia.
Qed.

(** ** The rest of the system *)

Section Inv.
Context {W : Type} (held : W -> list addr).
#[local] Notation evolves := (Frames.evolves held).
#[local] Notation evolves_trans := (Frames.evolves_trans held).
#[local] Notation evolves_agree := (Frames.evolves_agree held).
#[local] Notation evolves_used := (Frames.evolves_used held).

(** What the rest of the system promises: [icmp_time_exceeded] reads the
    packet, and it leaves alone what does not belong to the rest. *)
Class QuietIcmp (icmp_time_exceeded : addr -> Z -> store -> W -> M (store * W)) : Prop :=
  quiet_icmp : forall p x l code st w,
    whole_packet st p x l -> 28 <= pb_len x -> (forall b, In b (p :: map fst l) -> ~ In b (held w)) -> accounted held st w ->
    surely (icmp_time_exceeded p code st w) (fun '(st', w') => evolves [] st w st' w').

(** The invariant, for the lists of fragments [fss] and [pending] pbufs that
    are counted already. *)
Record reass_inv (s : reass W) (fss : list (list frag)) (pending : Z) : Prop := ReassInv
  { ri_all : Forall2 (datagram_ok (re_store s)) (reassdatagrams s) fss;
    ri_nodup : List.NoDup (pbufs_of fss);
    ri_count : ip_reass_pbufcount s = Z.of_nat (length (pbufs_of fss)) + pending;
    ri_max : ip_reass_pbufcount s <= IP_REASS_MAX_PBUFS; ri_pending : 0 <= pending;
    ri_held : forall b, In b (pbufs_of fss) -> ~ In b (held (re_world s)); ri_accounted : accounted held (re_store s) (re_world s) }.

(** Between the arrivals of fragments. *)
Definition reass_ok (s : reass W) (fss : list (list frag)) : Prop :=
  reass_inv s fss 0 /\ Forall2 settled (reassdatagrams s) fss.

Lemma seg_alive st fs q b : seg st fs q -> In b (all_addrs fs) -> is_Some (st_pbufs st !! b).
Proof.
  induction fs as [|f fs IH]; [intros _ []|]. intros [Hf Hs] Hb. rewrite all_addrs_cons in Hb.
  apply in_app_iff in Hb as [Hb|Hb]; [|now apply IH]. destruct (wp_packet _ _ _ _ (fo_packet _ _ _ Hf)) as [Hc _].
  unfold f_addrs in Hb. apply in_map_iff in Hb as ([a x] & <- & Hin). exists x. exact (chain_lookup _ _ _ _ _ Hc Hin).
Qed.

Lemma pbufs_alive st rs fss b : Forall2 (datagram_ok st) rs fss -> In b (pbufs_of fss) -> is_Some (st_pbufs st !! b).
Proof.
  intros H. induction H as [|r fs rs fss H1 H IH]; [intros []|]. rewrite pbufs_of_cons, in_app_iff.
  intros [Hb|Hb]; [|now apply IH]. exact (seg_alive _ _ _ _ (do_seg _ _ _ H1) Hb).
Qed.

(** The pbufs of a fragment are counted. *)
Lemma count_inv s fss n :
  reass_inv s fss 0 -> 0 <= n -> ip_reass_pbufcount s + n <= IP_REASS_MAX_PBUFS ->
  reass_inv (set_pbufcount (ip_reass_pbufcount s + n) s) fss n.
Proof.
  intros [Ha Hnd Hc Hm Hp Hh Hac] Hn Hmax. unfold IP_REASS_MAX_PBUFS in Hmax.
  constructor; cbn [set_pbufcount reassdatagrams re_store re_world ip_reass_pbufcount]; auto;
    unfold u16, IP_REASS_MAX_PBUFS; rewrite Z.mod_small; lia.
Qed.

(** A datagram without fragments in front. *)
Lemma cons_inv s fss r :
  reass_inv s fss 0 -> datagram_ok (re_store s) r [] ->
  reass_inv (Reass (r :: reassdatagrams s) (ip_reass_pbufcount s) (re_store s) (re_world s)) ([] :: fss) 0.
Proof. intros [Ha Hnd Hc Hm Hp Hh Hac] Hr. constructor; auto. now constructor. Qed.

(** A datagram and the others. *)
Record datagram_at (s : reass W) (fss : list (list frag)) (i : nat) (fs : list frag) (r : ip_reassdata) : Prop := DatagramAt
  { da_entry : reassdatagrams s !! i = Some r; da_ok : datagram_ok (re_store s) r fs; da_nodup : List.NoDup (all_addrs fs);
    da_short : Forall short fs; da_held : forall b, In b (all_addrs fs) -> ~ In b (held (re_world s));
    da_disj : forall b, In b (all_addrs fs) -> ~ In b (pbufs_of (delete i fss));
    da_rest_nodup : List.NoDup (pbufs_of (delete i fss));
    da_perm : Permutation (pbufs_of fss) (all_addrs fs ++ pbufs_of (delete i fss));
    da_rest : Forall2 (datagram_ok (re_store s)) (delete i (reassdatagrams s)) (delete i fss);
    da_accounted : accounted held (re_store s) (re_world s) }.

Lemma inv_split s fss pend i fs :
  reass_inv s fss pend -> fss !! i = Some fs -> exists r, datagram_at s fss i fs r.
Proof.
  intros [Ha Hnd Hc Hm Hp Hh Hac] Hi. destruct (Forall2_lookup_r _ _ _ _ _ Ha Hi) as (r & Hr & Hd). exists r.
  pose proof (take_drop_middle _ _ _ Hi) as E.
  assert (Hperm : Permutation (pbufs_of fss) (all_addrs fs ++ pbufs_of (delete i fss))).
  { rewrite delete_take_drop. rewrite <- E at 1. rewrite !pbufs_of_app, pbufs_of_cons, !app_assoc.
    apply Permutation_app_tail, Permutation_app_comm. }
  pose proof (Permutation_NoDup Hperm Hnd) as Hnd'. constructor; auto.
  - exact (NoDup_app_remove_r _ _ Hnd').
  - apply (pbufs_short fss IP_REASS_MAX_PBUFS); [lia|unfold IP_REASS_MAX_PBUFS; lia|].
    rewrite <- E. apply in_app_iff. right. now left.
  - intros b Hb. apply Hh. apply (Permutation_in _ (Permutation_sym Hperm)). apply in_app_iff. now left.
  - exact (NoDup_app_disj _ _ Hnd').
  - exact (NoDup_app_remove_l _ _ Hnd').
  - rewrite !delete_take_drop. apply Forall2_app; [now apply Forall2_take|now apply Forall2_drop].
Qed.

(** The other datagrams, after the system went on without touching them. *)
Lemma inv_others s fss pend i fs r st' w' n :
  reass_inv s fss pend -> datagram_at s fss i fs r ->
  evolves (all_addrs fs) (re_store s) (re_world s) st' w' -> n = Z.of_nat (length (all_addrs fs)) ->
  reass_inv (Reass (delete i (reassdatagrams s)) (u16 (ip_reass_pbufcount s - n)) st' w') (delete i fss) pend.
Proof.
  intros [Ha Hnd Hc Hm Hp Hh Hac] [Hr Hd Hn Hs Hf Hdi Hrn Hpe Hre] Hev ->.
  pose proof (Permutation_length Hpe) as Hl. rewrite length_app in Hl. unfold IP_REASS_MAX_PBUFS in Hm.
  destruct (evolves_agree _ _ _ _ _ (pbufs_of (delete i fss)) Hev) as [Hag Hh'].
  { intros b Hb. assert (Hb' : In b (pbufs_of fss)).
    { apply (Permutation_in _ (Permutation_sym Hpe)), in_app_iff. now right. }
    split; [exact (pbufs_alive _ _ _ _ Ha Hb')|]. split; [now apply Hh|]. intros Hb2. exact (Hdi b Hb2 Hb). }
  constructor; cbn [reassdatagrams ip_reass_pbufcount re_store re_world]; auto.
  - exact (datagrams_agree _ _ _ _ Hag Hre).
  - unfold u16. rewrite Z.mod_small; lia.
  - unfold u16, IP_REASS_MAX_PBUFS. rewrite Z.mod_small; lia.
  - exact (evolves_accounted _ _ _ _ _ _ Hev Hac).
Qed.

(** ** Freeing a datagram *)

Section Ops.
Context (icmp_time_exceeded : addr -> Z -> store -> W -> M (store * W)) `{!QuietIcmp icmp_time_exceeded}.

Lemma answer_first_spec r s f fs :
  datagram_ok (re_store s) r (f :: fs) -> short f -> (forall b, In b (f_addrs f) -> ~ In b (held (re_world s))) ->
  accounted held (re_store s) (re_world s) ->
  surely (answer_first icmp_time_exceeded r s)
    (fun '(n, p, s') => exists fs' gone,
       p = head_addr fs' None /\ f :: fs = gone ++ fs' /\ n = Z.of_nat (length (all_addrs gone)) /\
       reassdatagrams s' = reassdatagrams s /\ ip_reass_pbufcount s' = ip_reass_pbufcount s /\
       evolves (all_addrs gone) (re_store s) (re_world s) (re_store s') (re_world s')).
Proof.
  intros [Hp [Hf Hs] Hl Hm Hi Ht] Hsh Hh Hac. unfold answer_first. rewrite Hp. cbn [head_addr].
  rewrite (get_helper_spec _ _ _ Hf) by (apply (seg_small (re_store s)); [exact Hs|apply small_none]). rewrite bind_ret.
  cbn [f_helper h_start h_next]. destruct (Z.eqb_spec (f_start f) 0) as [E0|E0].
  2: { apply surely_ret. exists (f :: fs), []. repeat (split; [reflexivity|]). apply evolves_refl. }
  rewrite (fetch_some _ _ _ (frag_lookup _ _ _ Hf)), bind_ret.
  destruct (write_head (re_store s) (f_addr f) (f_head f) (f_tail f) (rd_iphdr r) (fo_packet _ _ _ Hf)) as (st1 & E1 & Hw & Hp1 & _); [lia|].
  rewrite E1, bind_ret. eapply surely_bind.
  { apply (quiet_icmp _ _ _ _ _ _ Hp1); [now apply (fo_first _ _ _ Hf)|exact Hh|]. revert Hac. apply accounted_alive. intros b _. now rewrite (proj1 Hw). }
  intros [st2 w2] Hev.
  assert (Halive : forall b, In b (f_addrs f) -> is_Some (st_pbufs (re_store s) !! b)).
  { intros b Hb. apply (seg_alive _ [f] (head_addr fs None)); [now split|now rewrite all_addrs_cons, app_nil_r]. }
  assert (Hp2 : whole_packet st2 (f_addr f) (f_head f) (f_tail f)).
  { eapply whole_packet_agree; [|exact Hp1]. apply (proj1 (evolves_agree _ _ _ _ _ (f_addrs f) Hev ltac:(
      intros b Hb; split; [|split; [now apply Hh|intros []]];
      destruct Hw as [-> _]; exact (Halive b Hb)))). }
  rewrite (whole_clen _ _ _ _ Hp2 Hsh), bind_ret. destruct (whole_free _ _ _ _ Hp2) as (k & st3 & E3 & R3). rewrite E3, bind_ret.
  apply surely_ret. exists fs, [f]. split; [reflexivity|]. split; [reflexivity|].
  split. { rewrite all_addrs_cons, app_nil_r. unfold f_addrs, f_pbufs. cbn [map length]. now rewrite length_map. }
  split; [reflexivity|]. split; [reflexivity|]. cbn [re_store re_world]. rewrite all_addrs_cons, app_nil_r.
  apply (evolves_used _ _ _ st1 st2 _ _); [auto| |exact Hev|exact R3]. apply (written_changed (f_addr f)); [exact Hw|apply f_addr_in].
Qed.

Lemma free_parts_spec s fss i fs r :
  datagram_at s fss i fs r -> fs <> [] ->
  surely (free_parts icmp_time_exceeded r s)
    (fun '(n, s') => n = Z.of_nat (length (all_addrs fs)) /\
       reassdatagrams s' = reassdatagrams s /\ ip_reass_pbufcount s' = ip_reass_pbufcount s /\
       evolves (all_addrs fs) (re_store s) (re_world s) (re_store s') (re_world s')).
Proof.
  intros Hat Hne. pose proof Hat as [Hr Hd Hn Hs Hf _ _ _ _ _]. destruct fs as [|f fs]; [contradiction|]. inversion Hs as [|? ? Hs1 _]; subst.
  unfold free_parts. eapply surely_bind.
  { apply answer_first_spec; [exact Hd|exact Hs1| |exact (da_accounted _ _ _ _ _ Hat)]. intros b Hb. apply Hf. rewrite all_addrs_cons. apply in_app_iff. now left. }
  intros [[n p] s1] (fs' & gone & -> & E & -> & Hd1 & Hc1 & Hev). rewrite E in *.
  rewrite all_addrs_app in *. pose proof (do_seg _ _ _ Hd) as Hseg. apply seg_app in Hseg as [_ Hseg].
  destruct (evolves_agree _ _ _ _ _ (all_addrs fs') Hev) as [Hag Hh'].
  { intros b Hb. split; [exact (seg_alive _ _ _ _ Hseg Hb)|]. split; [apply Hf, in_app_iff; now right|].
    intros Hb'. exact (NoDup_app_disj _ _ Hn b Hb' Hb). }
  pose proof (seg_agree _ _ _ _ Hag Hseg) as Hseg1. apply NoDup_app_remove_l in Hn as Hn'.
  destruct (free_frags_spec fs' (walk_fuel (re_store s1)) (Z.of_nat (length (all_addrs gone))) (re_store s1) Hseg1 Hn') as (st2 & E2 & R2).
  { apply Forall_app in Hs. tauto. } { pose proof (seg_length _ _ _ Hseg1 Hn'). unfold walk_fuel. lia. }
  rewrite E2, bind_ret. apply surely_ret. split; [rewrite length_app; lia|]. split; [exact Hd1|]. split; [exact Hc1|].
  cbn [set_re_store re_store re_world]. apply (evolves_trans _ _ _ _ (re_store s1) (re_world s1)); [exact Hev|].
  apply removed_evolves; [exact R2|exact Hh'].
Qed.

(** The predecessor of a place. *)
Definition pred_of (i : nat) : option nat := match i with O => None | S j => Some j end.

(** What freeing the datagram at [i] leaves. *)
Definition datagram_freed (s : reass W) (fss : list (list frag)) (pend : Z) (i : nat) (fs : list frag) (n : Z) (s' : reass W) : Prop :=
  n = Z.of_nat (length (all_addrs fs)) /\ reassdatagrams s' = delete i (reassdatagrams s) /\
  reass_inv s' (delete i fss) pend /\ evolves (all_addrs fs) (re_store s) (re_world s) (re_store s') (re_world s').

(** From the right predecessor on, a datagram is freed; a wrong one is an
    assertion that fails. *)
Lemma free_complete_spec s fss pend i fs :
  reass_inv s fss pend -> fss !! i = Some fs -> fs <> [] ->
  surely (ip_reass_free_complete_datagram icmp_time_exceeded i (pred_of i) s)
    (fun '(n, s') => datagram_freed s fss pend i fs n s').
Proof.
  intros Hinv Hi Hne. destruct (inv_split _ _ _ _ _ Hinv Hi) as (r & Hat). unfold ip_reass_free_complete_datagram.
  rewrite (lwip_assert_true (bool_decide _)), bind_ret by (apply bool_decide_true; destruct i; cbn; [discriminate|intros [=]; lia]).
  rewrite lwip_assert_true, bind_ret by (destruct i; cbn; [reflexivity|apply Nat.eqb_refl]).
  unfold re_entry. rewrite (da_entry _ _ _ _ _ Hat), bind_ret.
  eapply surely_bind; [exact (free_parts_spec _ _ _ _ _ Hat Hne)|]. intros [n s1] (En & E1 & E2 & Hev).
  assert (Edeq : ip_reass_dequeue_datagram i (pred_of i) s1 =
                 ret (Reass (delete i (reassdatagrams s)) (ip_reass_pbufcount s) (re_store s1) (re_world s1))).
  { unfold ip_reass_dequeue_datagram. rewrite E1, E2, delete_take_drop. now destruct i. }
  rewrite Edeq, bind_ret. cbn [ip_reass_pbufcount].
  pose proof (Permutation_length (da_perm _ _ _ _ _ Hat)) as Hl. rewrite length_app in Hl.
  pose proof (ri_count _ _ _ Hinv) as Hc. pose proof (ri_pending _ _ _ Hinv) as Hp.
  rewrite lwip_assert_true, bind_ret by (apply Z.leb_le; lia). apply surely_ret. split; [exact En|]. split; [reflexivity|].
  split; [|exact Hev]. exact (inv_others _ _ _ _ _ _ _ _ _ Hinv Hat Hev En).
Qed.

Lemma free_complete_safe s fss pend i fs prev :
  reass_inv s fss pend -> fss !! i = Some fs -> fs <> [] ->
  safely (ip_reass_free_complete_datagram icmp_time_exceeded i prev s) (fun '(n, s') => datagram_freed s fss pend i fs n s').
Proof.
  intros Hinv Hi Hne. destruct (decide (prev = pred_of i)) as [->|Hp].
  { apply safely_surely. now apply free_complete_spec. }
  destruct (inv_split _ _ _ _ _ Hinv Hi) as (r & Hat). unfold ip_reass_free_complete_datagram.
  eapply safely_bind; [apply (safely_assert _ (fun _ => True)); auto|]. intros _ _.
  eapply safely_bind; [apply (safely_assert _ (fun _ => match prev with Some j => S j = i | None => True end))|].
  { destruct prev as [j|]; [|auto]. intros H. now apply Nat.eqb_eq in H. }
  intros [] Hprev. destruct prev as [j|]; [destruct Hp; now rewrite <- Hprev|]. destruct i as [|i]; [now destruct Hp|].
  unfold re_entry. rewrite (da_entry _ _ _ _ _ Hat), bind_ret.
  eapply safely_bind; [apply safely_surely; exact (free_parts_spec _ _ _ _ _ Hat Hne)|]. intros [n s1] _. apply safely_abort.
Qed.

(** ** The timer *)

Definition ticked (r : ip_reassdata) : ip_reassdata := with_timer r (rd_timer r - 1).
Definition alive (r : ip_reassdata) : bool := 0 <? rd_timer r.

(** What is left of the datagrams after a tick, and what is freed. *)
Definition tick (rs : list ip_reassdata) : list ip_reassdata := map ticked (List.filter alive rs).
Definition kept (rs : list ip_reassdata) (fss : list (list frag)) : list (list frag) :=
  map snd (List.filter (fun c => alive (fst c)) (combine rs fss)).

Lemma settled_tick rs fss : Forall2 settled rs fss -> Forall2 settled (tick rs) (kept rs fss).
Proof.
  unfold tick, kept. intros H. induction H as [|r fs rs fss H1 H IH]; [constructor|]. cbn [List.filter combine fst].
  destruct (alive r); [|exact IH]. cbn [map snd]. constructor; [exact H1|exact IH].
Qed.

Lemma datagram_ticked st r fs : alive r = true -> datagram_ok st r fs -> datagram_ok st (ticked r) fs.
Proof.
  intros Ha [Hp Hs Hl Hm Hi Ht]. apply Z.ltb_lt in Ha. constructor; auto. cbn. lia.
Qed.

Lemma set_entry_inv s fss pend i r r' fs :
  reass_inv s fss pend -> reassdatagrams s !! i = Some r -> fss !! i = Some fs ->
  datagram_ok (re_store s) r' fs -> reass_inv (set_re_entry i r' s) fss pend.
Proof.
  intros [Ha Hnd Hc Hm Hp Hh Hac] Hr Hi Hd. constructor; auto. cbn [set_re_entry reassdatagrams re_store].
  rewrite <- (list_insert_id _ _ _ Hi). now apply Forall2_insert.
Qed.

Lemma tmr_frags_spec fuel s done todo fdone ftodo :
  reassdatagrams s = done ++ todo -> length fdone = length done -> reass_inv s (fdone ++ ftodo) 0 ->
  Forall (fun fs => fs <> []) (fdone ++ ftodo) -> (length todo <= fuel)%nat ->
  surely (tmr_frags icmp_time_exceeded fuel (length done) (pred_of (length done)) s)
    (fun s' => reassdatagrams s' = done ++ tick todo /\ reass_inv s' (fdone ++ kept todo ftodo) 0 /\
       exists gone, evolves gone (re_store s) (re_world s) (re_store s') (re_world s') /\
         Permutation (pbufs_of ftodo) (gone ++ pbufs_of (kept todo ftodo))).
Proof.
  revert s done todo fdone ftodo. induction fuel as [|fuel IH]; intros s done todo fdone ftodo Hl Hlen Hinv Hne Hf.
  all: pose proof (Forall2_length _ _ _ (ri_all _ _ _ Hinv)) as Hl2; rewrite Hl, !length_app in Hl2.
  all: destruct todo as [|r todo]; [destruct ftodo; [|cbn in Hl2; lia]|].
  1, 3: cbn [tmr_frags]; rewrite Hl, app_nil_r, lookup_ge_None_2 by lia; apply surely_ret;
    rewrite !app_nil_r in *; split; [exact Hl|split; [exact Hinv|exists []; split; [apply evolves_refl|constructor]]].
  { cbn in Hf. lia. }
  destruct ftodo as [|fs ftodo]; [cbn in Hl2; lia|]. cbn [tmr_frags]. rewrite Hl, list_lookup_middle by reflexivity.
  assert (Hi : (fdone ++ fs :: ftodo) !! length done = Some fs) by now apply list_lookup_middle.
  assert (Hr : reassdatagrams s !! length done = Some r) by (rewrite Hl; now apply list_lookup_middle).
  unfold tick, kept. cbn [List.filter combine fst]. fold (alive r). destruct (alive r) eqn:Ea.
  - pose proof (Forall2_lookup_lr _ _ _ _ _ _ (ri_all _ _ _ Hinv) Hr Hi) as Hd. cbn [map snd].
    specialize (IH (set_re_entry (length done) (ticked r) s) (done ++ [ticked r]) todo (fdone ++ [fs]) ftodo).
    rewrite !length_app, <- !app_assoc in IH. cbn [length app] in IH. rewrite !Nat.add_1_r in IH. cbn [pred_of] in IH.
    eapply surely_weaken; [apply IH|].
    + cbn [set_re_entry reassdatagrams]. rewrite Hl. now rewrite insert_app_r_alt, Nat.sub_diag by lia.
    + lia.
    + apply (set_entry_inv _ _ _ _ r _ fs); auto. now apply datagram_ticked.
    + exact Hne.
    + cbn in Hf. lia.
    + intros s' (E & Hinv' & gone & Hev & Hp). split; [exact E|]. split; [exact Hinv'|]. exists gone. split; [exact Hev|].
      rewrite !pbufs_of_cons, Hp. rewrite !app_assoc. apply Permutation_app_tail, Permutation_app_comm.
  - assert (Hfs : fs <> []). { apply Forall_app in Hne as [_ Hne]. now inversion Hne. }
    eapply surely_bind; [exact (free_complete_spec _ _ _ _ _ Hinv Hi Hfs)|].
    intros [n s1] (En & E1 & Hinv1 & Hev1). rewrite Hl, delete_middle in E1.
    rewrite <- Hlen, delete_middle in Hinv1.
    eapply surely_weaken; [apply (IH s1 done todo fdone ftodo)|]; auto.
    + apply Forall_app in Hne as [Hn1 Hn2]. inversion Hn2; subst. now apply Forall_app.
    + cbn in Hf. lia.
    + intros s' (E & Hinv' & gone & Hev & Hp). split; [exact E|]. split; [exact Hinv'|].
      exists (all_addrs fs ++ gone). split; [exact (evolves_trans _ _ _ _ _ _ _ _ Hev1 Hev)|].
      rewrite pbufs_of_cons, Hp. now rewrite app_assoc.
Qed.
(** [ip_reass_tmr] drops the datagrams whose time is up. *)
Lemma tmr_spec s fss :
  reass_ok s fss ->
  surely (ip_reass_tmr icmp_time_exceeded s)
    (fun s' => exists fss', reass_ok s' fss' /\ reassdatagrams s' = tick (reassdatagrams s) /\
       exists gone, evolves gone (re_store s) (re_world s) (re_store s') (re_world s') /\
         Permutation (pbufs_of fss) (gone ++ pbufs_of fss')).
Proof.
  intros [Hinv Hset]. eapply surely_weaken.
  - apply (tmr_frags_spec _ s [] (reassdatagrams s) [] fss); auto. exact (settled_ne _ _ Hset).
  - intros s' (E & Hinv' & gone & Hev & Hp). cbn [app] in *. exists (kept (reassdatagrams s) fss).
    split; [|split; [exact E|eauto]]. split; [exact Hinv'|]. rewrite E. now apply settled_tick.
Qed.

(** Once a second, [n] times, with no fragment in between. *)
Fixpoint reass_ticks (n : nat) (s : reass W) : M (reass W) :=
  match n with
  | O => ret s
  | S n' => s <- ip_reass_tmr icmp_time_exceeded s;; reass_ticks n' s
  end.

Definition timers_to (k : Z) (rs : list ip_reassdata) : Prop := Forall (fun r => 0 <= rd_timer r <= k) rs.

Lemma timers_tick k rs : timers_to k rs -> timers_to (k - 1) (tick rs).
Proof.
  unfold tick. intros H. induction H as [|r rs H1 H IH]; [constructor|]. cbn [List.filter]. unfold alive at 1.
  destruct (Z.ltb_spec 0 (rd_timer r)); [|exact IH]. cbn [map]. constructor; [cbn; lia|exact IH].
Qed.

Lemma no_timers k rs : k = -1 -> timers_to k rs -> rs = [].
Proof. intros -> H. destruct H as [|r rs H _]; [reflexivity|]. lia. Qed.

Lemma ok_timers s fss : reass_ok s fss -> timers_to 3 (reassdatagrams s).
Proof.
  intros [Hinv _]. pose proof (ri_all _ _ _ Hinv) as Ha. clear Hinv. induction Ha as [|r fs rs fss' Hd _ IH]; [constructor|].
  constructor; [exact (do_timer _ _ _ Hd)|exact IH].
Qed.

Lemma reass_ticks_spec n s fss k :
  reass_ok s fss -> timers_to k (reassdatagrams s) ->
  surely (reass_ticks n s)
    (fun s' => exists fss', reass_ok s' fss' /\ timers_to (k - Z.of_nat n) (reassdatagrams s') /\
       exists gone, evolves gone (re_store s) (re_world s) (re_store s') (re_world s') /\
         Permutation (pbufs_of fss) (gone ++ pbufs_of fss')).
Proof.
  revert s fss k. induction n as [|n IH]; intros s fss k Hok Ht; cbn [reass_ticks].
  - apply surely_ret. exists fss. rewrite Z.sub_0_r. split; [exact Hok|]. split; [exact Ht|]. exists []. split; [apply evolves_refl|reflexivity].
  - eapply surely_bind; [exact (tmr_spec s fss Hok)|]. intros s1 (fss1 & Hok1 & E1 & g1 & Hev1 & Hp1).
    eapply surely_weaken; [apply (IH s1 fss1 (k - 1) Hok1); rewrite E1; now apply timers_tick|].
    intros s2 (fss2 & Hok2 & Ht2 & g2 & Hev2 & Hp2). exists fss2. split; [exact Hok2|]. split.
    + replace (k - Z.of_nat (S n)) with (k - 1 - Z.of_nat n) by lia. exact Ht2.
    + exists (g1 ++ g2). split; [exact (evolves_trans _ _ _ _ _ _ _ _ Hev1 Hev2)|]. now rewrite Hp1, Hp2, app_assoc.
Qed.
End Ops.
End Inv.
