(* ===== verification/IpReassStep.v ===== *)
(** * lwIP reassembly: one fragment

    The operations keep the invariant; what the arrival of a fragment does to
    its datagram: the fragment is linked, and the datagram is delivered when
    it looks complete. *)
From Stdlib Require Import ZArith List Lia Bool.
From stdpp Require Import base gmap list.
From S2P Require Import Prelude CMonad Pbuf PbufChain PbufData PbufEdit PbufAlloc.
From S2P Require Import Inet InetChksum ChksumSpec Netif IpHdr Frames IpReass.
From S2P Require Import IpReassMem IpReassInv.
#[local] Open Scope Z_scope.
#[local] Open Scope cmonad_scope.

Lemma delete_insert_same {A} (l : list A) i x : delete i (<[i := x]> l) = delete i l.
Proof. revert i. induction l as [|a l IH]; intros [|i]; try reflexivity. change (a :: delete i (<[i := x]> l) = a :: delete i l). now rewrite IH. Qed.

(** ** Searches *)

Lemma find_datagram_spec hdr l i :
  match find_datagram hdr i (pred_of i) l with
  | (Some j, prev) => prev = pred_of j /\ (i <= j)%nat /\ exists r, l !! (j - i)%nat = Some r /\ IP_ADDRESSES_AND_ID_MATCH (rd_iphdr r) hdr = true
  | (None, _) => Forall (fun r => IP_ADDRESSES_AND_ID_MATCH (rd_iphdr r) hdr = false) l
  end.
Proof.
  revert i. induction l as [|r l IH]; intros i; cbn [find_datagram]; [constructor|].
  destruct (IP_ADDRESSES_AND_ID_MATCH (rd_iphdr r) hdr) eqn:E.
  - split; [reflexivity|]. split; [lia|]. exists r. now rewrite Nat.sub_diag.
  - specialize (IH (S i)). cbn [pred_of] in IH. destruct (find_datagram hdr (S i) (Some i) l) as [[j|] prev].
    + destruct IH as (Hp & Hj & r' & Hr & Hm). split; [exact Hp|]. split; [lia|]. exists r'.
      split; [|exact Hm]. replace (j - i)%nat with (S (j - S i)) by lia. exact Hr.
    + now constructor.
Qed.

(** The oldest datagram is one of the list, and there is one as soon as
    another datagram was counted. *)
Lemma find_oldest_spec hdr l i oldest prev other :
  (oldest = None -> other = 0)%nat ->
  let '(oldest', _, other') := find_oldest hdr i l oldest prev other in
  (other' <= other + length l)%nat /\ (oldest' = None -> other' = 0%nat) /\
  match oldest' with Some (j, _) => (exists t, oldest = Some (j, t)) \/ (i <= j < i + length l)%nat | None => True end.
Proof.
  revert i oldest prev other. induction l as [|r l IH]; intros i oldest prev other H; cbn [find_oldest length].
  - split; [lia|]. split; [exact H|]. destruct oldest as [[j t]|]; eauto.
  - set (m := IP_ADDRESSES_AND_ID_MATCH (rd_iphdr r) hdr).
    set (older := match oldest with Some (_, t) => rd_timer r <=? t | None => true end).
    set (oldest1 := if negb m && older then Some (i, rd_timer r) else oldest).
    match goal with |- let '(_, _) := find_oldest _ _ _ _ ?pv ?ot in _ => specialize (IH (S i) oldest1 pv ot) end.
    destruct (find_oldest hdr (S i) l oldest1 _ _) as [[o p] ot]. destruct IH as (H1 & H2 & H3).
    + unfold oldest1, older. destruct m; cbn [negb andb]; [exact H|]. destruct oldest as [[j t]|]; [|discriminate].
      destruct (rd_timer r <=? t); discriminate.
    + split; [destruct m; lia|]. split; [exact H2|]. destruct o as [[j t]|]; [|exact I].
      destruct H3 as [(t' & E)|Hj]; [|right; lia]. unfold oldest1 in E.
      destruct (negb m && older); [injection E as <- <-; right; lia|left; eauto].
Qed.

Section Ops.
Context {W : Type} (held : W -> list addr).
Context (icmp_time_exceeded : addr -> Z -> store -> W -> M (store * W)) `{!QuietIcmp held icmp_time_exceeded}.

(** ** Removing datagrams *)

(** The state after datagrams went: those of [fss'] are left. *)
Definition thinned (s : reass W) (fss : list (list frag)) (s' : reass W) (fss' : list (list frag)) : Prop :=
  reass_ok held s' fss' /\
  exists gone, evolves held gone (re_store s) (re_world s) (re_store s') (re_world s') /\
    Permutation (pbufs_of fss) (gone ++ pbufs_of fss').

Lemma thinned_refl s fss : reass_ok held s fss -> thinned s fss s fss.
Proof. intros H. split; [exact H|]. exists []. split; [apply evolves_refl|reflexivity]. Qed.

Lemma thinned_trans s1 f1 s2 f2 s3 f3 : thinned s1 f1 s2 f2 -> thinned s2 f2 s3 f3 -> thinned s1 f1 s3 f3.
Proof.
  intros [_ (g1 & E1 & P1)] [H (g2 & E2 & P2)]. split; [exact H|]. exists (g1 ++ g2).
  split; [exact (evolves_trans _ _ _ _ _ _ _ _ _ E1 E2)|]. now rewrite P1, P2, app_assoc.
Qed.

Lemma freed_thinned s fss i fs n s' :
  reass_ok held s fss -> fss !! i = Some fs -> datagram_freed held s fss 0 i fs n s' -> thinned s fss s' (delete i fss).
Proof.
  intros [Hinv Hne] Hi (_ & Ed & Hinv' & Hev). split.
  - split; [exact Hinv'|]. rewrite Ed. now apply Forall2_delete.
  - exists (all_addrs fs). split; [exact Hev|]. destruct (inv_split _ _ _ _ _ _ Hinv Hi) as (r & Hat). exact (da_perm _ _ _ _ _ _ Hat).
Qed.

Lemma ok_lengths s fss : reass_ok held s fss -> length (reassdatagrams s) = length fss.
Proof. intros [H _]. exact (Forall2_length _ _ _ (ri_all _ _ _ _ H)). Qed.

Lemma remove_loop_spec fuel hdr need freed s fss :
  reass_ok held s fss -> (length fss < fuel)%nat ->
  safely (remove_loop icmp_time_exceeded fuel hdr need freed s) (fun '(_, s') => exists fss', thinned s fss s' fss').
Proof.
  revert freed s fss. induction fuel as [|fuel IH]; intros freed s fss Hok Hf; [lia|]. cbn [remove_loop].
  pose proof (find_oldest_spec hdr (reassdatagrams s) 0 None None 0 (fun _ => eq_refl)) as Hfo.
  destruct (find_oldest hdr 0 (reassdatagrams s) None None 0) as [[oldest prev] other]. destruct Hfo as (H1 & H2 & H3).
  rewrite (ok_lengths _ _ Hok) in *. destruct oldest as [[i t]|].
  - destruct H3 as [(t' & [=])|Hi]. destruct (lookup_lt_is_Some_2 fss i) as (fs & Hfs); [lia|].
    assert (Hne : fs <> []) by exact (Forall_lookup_1 _ _ _ _ (settled_ne _ _ (proj2 Hok)) Hfs).
    eapply safely_bind.
    { eapply safely_bind; [exact (free_complete_safe _ _ _ _ _ _ _ prev (proj1 Hok) Hfs Hne)|].
      intros [n s1] Hfr. apply (safely_ret _ (fun '(_, s1) => thinned s fss s1 (delete i fss))). exact (freed_thinned _ _ _ _ _ _ Hok Hfs Hfr). }
    intros [n s1] Hth. destruct (_ && _) eqn:Ec.
    + eapply safely_weaken; [apply (IH n s1 (delete i fss)); [apply Hth|]|].
      * rewrite length_delete by (apply lookup_lt_is_Some; lia). lia.
      * intros [k s2] (fss' & H). exists fss'. exact (thinned_trans _ _ _ _ _ _ Hth H).
    + apply safely_ret. exists (delete i fss). exact Hth.
  - rewrite bind_ret. rewrite (H2 eq_refl). cbn [Nat.ltb Nat.leb]. rewrite andb_false_r. apply safely_ret.
    exists fss. now apply thinned_refl.
Qed.

Lemma remove_oldest_spec hdr need s fss :
  reass_ok held s fss ->
  safely (ip_reass_remove_oldest_datagram icmp_time_exceeded hdr need s) (fun '(_, s') => exists fss', thinned s fss s' fss').
Proof. intros H. apply remove_loop_spec; [exact H|]. rewrite (ok_lengths _ _ H). lia. Qed.

(** ** A place for the fragment *)

Lemma make_room_spec hdr clen s fss :
  reass_ok held s fss ->
  safely (make_room icmp_time_exceeded hdr clen s)
    (fun '(room, s') => exists fss', thinned s fss s' fss' /\
       (room = true -> ip_reass_pbufcount s' + clen <= IP_REASS_MAX_PBUFS)).
Proof.
  intros H. unfold make_room. destruct (Z.ltb_spec IP_REASS_MAX_PBUFS (ip_reass_pbufcount s + clen)).
  - eapply safely_bind; [exact (remove_oldest_spec hdr clen s fss H)|]. intros [n s1] (fss' & Hth). apply safely_ret.
    exists fss'. split; [exact Hth|]. intros E. apply andb_prop in E as [_ E]. now apply Z.leb_le in E.
  - apply safely_ret. exists fss. split; [now apply thinned_refl|]. intros _. lia.
Qed.

(** The state with a place for the fragment: all other datagrams have
    fragments. *)
Record placed (hdr : list Z) (s : reass W) (fss : list (list frag)) (i : nat) (prev : option nat) (s' : reass W) (fss' : list (list frag)) : Prop := Placed
  { pl_inv : reass_inv held s' fss' 0; pl_rest : Forall2 settled (delete i (reassdatagrams s')) (delete i fss'); pl_lt : (i < length fss')%nat;
    pl_match : forall r, reassdatagrams s' !! i = Some r -> same_datagram (rd_iphdr r) hdr;
    pl_first : forall r fs, reassdatagrams s' !! i = Some r -> fss' !! i = Some fs ->
      (settled r fs /\ (is_first hdr = true -> is_first (rd_iphdr r) = true)) \/ (rd_iphdr r = hdr /\ starts_at_0 fs = false);
    pl_prev : i = O \/ prev = pred_of i; pl_count : ip_reass_pbufcount s' <= ip_reass_pbufcount s;
    pl_evolves : exists gone, evolves held gone (re_store s) (re_world s) (re_store s') (re_world s') /\
      Permutation (pbufs_of fss) (gone ++ pbufs_of fss') }.

Lemma thinned_count s fss s' fss' : reass_ok held s fss -> thinned s fss s' fss' -> ip_reass_pbufcount s' <= ip_reass_pbufcount s.
Proof.
  intros [H _] [[H' _] (gone & _ & Hp)]. rewrite (ri_count _ _ _ _ H), (ri_count _ _ _ _ H'), (Permutation_length Hp), length_app. lia.
Qed.

Lemma thinned_placed hdr s fss s1 fss1 i prev s2 fss2 :
  reass_ok held s fss -> thinned s fss s1 fss1 -> placed hdr s1 fss1 i prev s2 fss2 -> placed hdr s fss i prev s2 fss2.
Proof.
  intros Hok Hth [P1 P2 P3 P4 P5 P6 P7 (g2 & E2 & Q2)]. pose proof (thinned_count _ _ _ _ Hok Hth) as Hc.
  destruct Hth as [_ (g1 & E1 & Q1)]. constructor; auto; [lia|]. exists (g1 ++ g2).
  split; [exact (evolves_trans _ _ _ _ _ _ _ _ _ E1 E2)|]. now rewrite Q1, Q2, app_assoc.
Qed.

Lemma enqueue_new_spec hdr clen s fss :
  reass_ok held s fss -> length hdr = 20%nat ->
  safely (ip_reass_enqueue_new_datagram icmp_time_exceeded hdr clen s)
    (fun '(ok, s') => if ok : bool then exists fss', placed hdr s fss 0 None s' ([] :: fss') else exists fss', thinned s fss s' fss').
Proof.
  intros H Hh. unfold ip_reass_enqueue_new_datagram.
  eapply safely_bind; [apply (safely_malloc (fun _ => True)); exact I|]. intros ok _.
  eapply safely_bind.
  { instantiate (1 := fun '(_, s') => exists fss', thinned s fss s' fss'). destruct ok.
    - apply safely_ret. exists fss. now apply thinned_refl.
    - eapply safely_bind; [exact (remove_oldest_spec hdr clen s fss H)|]. intros [n s1] Hth. destruct (clen <=? n).
      + eapply safely_bind; [apply (safely_malloc (fun _ => True)); exact I|]. intros ok _. now apply safely_ret.
      + now apply safely_ret. }
  intros [ok1 s1] (fss' & Hth). destruct ok1; apply safely_ret; [|eauto]. exists fss'.
  pose proof Hth as [[[Ha Hnd Hc Hm Hp Hhe] Hne] Hev]. constructor; cbn [ip_reass_pbufcount re_store re_world length delete list_delete]; auto; [|lia| | |].
  - apply cons_inv; [apply Hth|]. constructor; cbn; auto. unfold IP_REASS_MAXAGE. lia.
  - intros r [= <-]. cbn. apply same_datagram_fields. auto.
  - intros r fs [= <-] [= <-]. now right.
  - exact (thinned_count _ _ _ _ H Hth).
Qed.

Lemma datagram_of_spec hdr clen s fss :
  reass_ok held s fss -> length hdr = 20%nat ->
  safely (datagram_of icmp_time_exceeded hdr clen s)
    (fun '(found, s') => match found with
       | Some (i, prev) => exists fss', placed hdr s fss i prev s' fss'
       | None => exists fss', thinned s fss s' fss'
       end).
Proof.
  intros H Hh. unfold datagram_of. pose proof (find_datagram_spec hdr (reassdatagrams s) 0) as Hf. cbn [pred_of] in Hf.
  destruct (find_datagram hdr 0 None (reassdatagrams s)) as [[i|] prev].
  - destruct Hf as (Hp & _ & r & Hr & Hmt). rewrite Nat.sub_0_r in Hr. unfold re_entry. rewrite Hr, bind_ret. apply safely_ret.
    pose proof H as [Hinv Hne]. destruct (Forall2_lookup_l _ _ _ _ _ (ri_all _ _ _ _ Hinv) Hr) as (fs & Hfs & Hd).
    exists fss. assert (Hi : reass_inv held (if (Z.land (ntohs (IPH_OFFSET hdr)) IP_OFFMASK =? 0) &&
      negb (Z.land (ntohs (IPH_OFFSET (rd_iphdr r))) IP_OFFMASK =? 0) then set_re_entry i (with_iphdr r hdr) s else s) fss 0).
    { destruct (_ && _); [|exact Hinv]. apply (set_entry_inv _ _ _ _ _ r _ fs); auto. destruct Hd as [D1 D2 D3 D4 D5 D6]. constructor; auto.
      eapply Forall_impl; [exact D4|]. intros f Hf. exact (same_datagram_trans _ _ _ Hf Hmt). }
    constructor; [exact Hi| | | | | | |].
    + destruct (_ && _); cbn [set_re_entry reassdatagrams]; [|now apply Forall2_delete].
      rewrite delete_insert_same. now apply Forall2_delete.
    + now apply lookup_lt_Some in Hfs.
    + intros r' Hr'. destruct (_ && _).
      * cbn in Hr'. rewrite list_lookup_insert_eq in Hr' by (apply lookup_lt_Some in Hr; exact Hr). injection Hr' as <-.
        cbn. apply same_datagram_fields. auto.
      * rewrite Hr in Hr'. injection Hr' as <-. exact Hmt.
    + intros r' fs' Hr' Hfs'. rewrite Hfs in Hfs'. injection Hfs' as <-.
      pose proof (Forall2_lookup_lr _ _ _ _ _ _ Hne Hr Hfs) as Hst. destruct (_ && _) eqn:Ec.
      * cbn in Hr'. rewrite list_lookup_insert_eq in Hr' by (apply lookup_lt_Some in Hr; exact Hr). injection Hr' as <-.
        right. split; [reflexivity|]. apply andb_prop in Ec as [_ Ec]. apply negb_true_iff in Ec. fold (is_first (rd_iphdr r)) in Ec.
        destruct fs as [|f fs]; [reflexivity|]. cbn [starts_at_0]. apply Z.eqb_neq. cbn in Hst. rewrite Ec in Hst. intuition discriminate.
      * rewrite Hr in Hr'. injection Hr' as <-. left. split; [exact Hst|]. intros E1. fold (is_first hdr) in Ec. rewrite E1 in Ec.
        now apply negb_false_iff in Ec.
    + now right.
    + destruct (_ && _); reflexivity.
    + exists []. split; [|reflexivity]. destruct (_ && _); apply evolves_refl.
  - eapply safely_bind; [exact (enqueue_new_spec hdr clen s fss H Hh)|]. intros [[|] s1]; [|intros Hx; now apply safely_ret].
    intros (fss' & [P1 P2 P3 P4 P5 P6 P7 P8]). apply safely_ret. exists ([] :: fss'). constructor; auto.
Qed.
End Ops.


(** ** Fragments that follow each other *)

(** No holes between the fragments [fs], nor after [prev]. *)
Fixpoint contiguous (prev : option frag) (fs : list frag) : Prop :=
  match fs with [] => True | g :: fs' => touches prev (f_start g) = true /\ contiguous (Some g) fs' end.

(** The first end of data: at the front of the list it is 0. *)
Definition end_of (prev : option frag) : Z := match prev with Some p => f_end p | None => 0 end.

Lemma gapless_contiguous f fs : gapless f fs = true <-> contiguous (Some f) fs.
Proof.
  revert f. induction fs as [|g fs IH]; intros f; cbn [gapless contiguous touches]; [tauto|].
  rewrite andb_true_iff, IH. tauto.
Qed.

(** Without holes before its place, a fragment that is kept has no overlap
    there either. *)
Lemma insert_valid f prev fs v fs' :
  (match prev with Some p => f_end p <= f_start f | None => True end) ->
  insert f prev fs v = Some (fs', true) ->
  v = true /\ exists l1 l2, fs = l1 ++ l2 /\ fs' = l1 ++ f :: l2 /\ contiguous prev l1 /\
    (match last_frag prev l1 with Some p => f_end p <= f_start f | None => True end).
Proof.
  revert prev v fs'. induction fs as [|g fs IH]; intros prev v fs' Hp; cbn [insert].
  - intros E. injection E as <- E. apply andb_prop in E as [-> _]. split; [reflexivity|]. exists [], []. now repeat split.
  - destruct (f_start f <? f_start g).
    + destruct (fits prev f g); [|discriminate]. intros E. injection E as <- ->. split; [reflexivity|]. exists [], (g :: fs). now repeat split.
    + destruct ((f_start f =? f_start g) || (f_start f <? f_end g)) eqn:E2; [discriminate|].
      apply orb_false_elim in E2 as [_ E2]. apply Z.ltb_ge in E2.
      destruct (insert f (Some g) fs _) as [[l w]|] eqn:Ei; [|discriminate]. intros E. injection E as <- ->.
      destruct (IH (Some g) _ _ E2 Ei) as (Ev & l1 & l2 & -> & -> & Hc & Hl). apply andb_prop in Ev as [-> Ht].
      split; [reflexivity|]. exists (g :: l1), l2. now repeat split.
Qed.

Lemma all_data_app l1 l2 : all_data (l1 ++ l2) = all_data l1 ++ all_data l2.
Proof. unfold all_data. now rewrite map_app, concat_app. Qed.

Lemma contiguous_length prev fs :
  contiguous (Some prev) fs -> Forall frag_legal fs ->
  f_end prev + Z.of_nat (length (all_data fs)) = end_of (last_frag (Some prev) fs).
Proof.
  revert prev. induction fs as [|g fs IH]; intros prev; cbn [contiguous touches last_frag]; [cbn; lia|].
  intros [Ht Hc] Hl. inversion Hl as [|? ? [_ Hg _] Hl']; subst. apply Z.eqb_eq in Ht. rewrite <- (IH g Hc Hl').
  unfold all_data. cbn [map concat]. rewrite length_app. lia.
Qed.

Lemma contiguous_length_0 fs :
  starts_at_0 fs = true -> contiguous None fs -> Forall frag_legal fs ->
  Z.of_nat (length (all_data fs)) = end_of (last_frag None fs).
Proof.
  destruct fs as [|g fs]; [discriminate|]. cbn [starts_at_0 contiguous last_frag]. intros H0 [_ Hc] Hl.
  inversion Hl as [|? ? [_ Hg _] Hl']; subst. apply Z.eqb_eq in H0. rewrite <- (contiguous_length _ _ Hc Hl').
  unfold all_data. cbn [map concat]. rewrite length_app. lia.
Qed.

(** ** Complete datagrams *)

(** What a datagram that is delivered looks like: the data start at 0, the
    pieces before and from the last fragment [f] on have no holes, [f] does not
    overlap the piece before it, and the end is the announced length. *)
Record deliverable (len : Z) (l1 : list frag) (f : frag) (l2 : list frag) : Prop := Deliverable
  { de_start : starts_at_0 (l1 ++ f :: l2) = true; de_before : contiguous None l1;
    de_seam : match last_frag None l1 with Some p => f_end p <= f_start f | None => True end;
    de_after : contiguous (Some f) l2; de_end : last_end (l1 ++ f :: l2) = len; de_many : (1 < length (l1 ++ f :: l2))%nat }.

Lemma last_frag_app prev l1 l2 : last_frag prev (l1 ++ l2) = last_frag (last_frag prev l1) l2.
Proof. revert prev. induction l1 as [|g l1 IH]; intros prev; [reflexivity|]. apply IH. Qed.

(** The data of a delivered datagram are no longer than announced. *)
Lemma deliverable_length len l1 f l2 :
  deliverable len l1 f l2 -> Forall frag_legal (l1 ++ f :: l2) -> 0 <= f_start f ->
  Z.of_nat (length (all_data (l1 ++ f :: l2))) <= len /\ len <= 65515.
Proof.
  intros [H0 H1 H2 H3 H4 _] Hl Hf. apply Forall_app in Hl as [Hl1 Hl2]. inversion Hl2 as [|? ? [_ Hfe Hfm] Hl2']; subst.
  unfold last_end. rewrite last_frag_app. cbn [last_frag].
  pose proof (contiguous_length f l2 H3 Hl2') as E2. fold (end_of (last_frag (Some f) l2)).
  assert (Hmax : end_of (last_frag (Some f) l2) <= 65515).
  { destruct (last_frag_cases (Some f) l2) as [[-> El]|(l & g & -> & El)]; rewrite El; cbn [end_of]; [exact Hfm|].
    apply Forall_app in Hl2' as [_ Hg]. inversion Hg as [|? ? [_ _ Hgm] _]. exact Hgm. }
  split; [|exact Hmax]. rewrite all_data_app, length_app. unfold all_data at 2. cbn [map concat]. rewrite length_app.
  fold (all_data l2). destruct l1 as [|g l1].
  - cbn [app starts_at_0] in H0. apply Z.eqb_eq in H0. cbn [all_data map concat length]. lia.
  - assert (Hs : starts_at_0 (g :: l1) = true) by exact H0. pose proof (contiguous_length_0 _ Hs H1 Hl1) as E1.
    destruct (last_frag_cases None (g :: l1)) as [[E _]|(l & p & _ & El)]; [discriminate|].
    rewrite El in *. cbn [end_of] in E1. lia.
Qed.

(** The header of the datagram: that of the first fragment with a new length,
    no offset and a new checksum. *)
Definition joined_header (iphdr : list Z) (n : Z) : list Z := checked (renewed iphdr n 0).

Lemma joined_header_length iphdr n : length iphdr = 20%nat -> length (joined_header iphdr n) = 20%nat.
Proof. intros H. now apply checked_length, renewed_length. Qed.

Lemma whole_header_spec iphdr n : length iphdr = 20%nat -> whole_header iphdr n = ret (joined_header iphdr n).
Proof. intros H. now apply with_chksum_spec, renewed_length. Qed.

(** ** The steps *)

Section Step.
Context {W : Type} (held : W -> list addr).

Lemma head_of_fs (fs : list frag) a : head_addr fs None = Some a -> exists f t, fs = f :: t /\ f_addr f = a.
Proof. destruct fs as [|f t]; [discriminate|]. intros [= <-]. eauto. Qed.

Lemma data_len_all st fs q : seg st fs q -> data_len fs = Z.of_nat (length (all_data fs)).
Proof.
  induction fs as [|f fs IH]; [reflexivity|]. intros [Hf Hs]. cbn [data_len]. rewrite (IH Hs). unfold all_data. cbn [map concat].
  rewrite length_app. pose proof Hf as [[Hp Hv _ _ _ Hh _] _ Hd _ _ _]. rewrite <- Hd, length_skipn.
  pose proof (content_length _ _ Hv) as El. fold (f_pbufs f) in El. unfold IP_HLEN in Hh.
  assert (20 <= total (f_pbufs f)); [|lia]. unfold f_pbufs. cbn [total]. destruct Hp as [_ (_ & _ & _ & _ & Htt)].
  apply totals_nonneg in Htt. lia.
Qed.

(** The datagram at [ipr] is delivered. *)
Lemma deliver_spec s fss i fs prev :
  reass_inv held s fss 0 -> fss !! i = Some fs -> (i = O \/ prev = pred_of i) -> fs <> [] ->
  Z.of_nat (length (all_data fs)) <= 65515 ->
  exists r a l s',
    reassdatagrams s !! i = Some r /\ deliver i prev s = ret (Some a, s') /\ own_packet (re_store s') a l /\
    map fst l = all_addrs fs /\
    content (st_mem (re_store s')) l = joined_header (rd_iphdr r) (u16 (rd_datagram_len r + IP_HLEN)) ++ all_data fs /\
    reassdatagrams s' = delete i (reassdatagrams s) /\ re_world s' = re_world s /\
    reass_inv held s' (delete i fss) 0 /\ untouched (all_addrs fs) (re_store s) (re_store s').
Proof.
  intros Hinv Hi Hprev Hne Hlen. destruct (inv_split _ _ _ _ _ _ Hinv Hi) as (r & Hat). exists r.
  pose proof Hat as [Hr [Dp Ds Dl Dsm Di Dt] Dn Dsh _ _ _ Dperm _ Dac]. destruct fs as [|f fs]; [contradiction|].
  set (hdr := joined_header (rd_iphdr r) (u16 (rd_datagram_len r + IP_HLEN))).
  assert (Eh : length hdr = 20%nat) by now apply joined_header_length.
  pose proof Ds as [Hf Hs]. pose proof (data_len_all _ _ _ Hs) as Edl.
  unfold all_data in Hlen. cbn [map concat] in Hlen. rewrite length_app in Hlen. fold (all_data fs) in Hlen.
  pose proof (fo_packet _ _ _ Hf) as Hp.
  destruct (write_head (re_store s) (f_addr f) (f_head f) (f_tail f) hdr Hp) as (st1 & E1 & Hw1 & Hp1 & _ & Ec1); [lia|].
  rewrite all_addrs_cons in Dn.
  assert (Hag1 : agree (re_store s) st1 (all_addrs fs)).
  { eapply written_agree; [exact Hw1|]. intros Hin. exact (NoDup_app_disj _ _ Dn _ (f_addr_in f) Hin). }
  pose proof (seg_agree _ _ _ _ Hag1 Hs) as Hs1. pose proof (NoDup_app_remove_l _ _ Dn) as Dn2.
  destruct (join_frags_spec fs (walk_fuel st1) st1 (f_addr f) (f_pbufs f) (whole_own _ _ _ _ Hp1) Hs1 Dn) as
    (st2 & l & E2 & Hl & Al & Cl & Tl & M2 & K2).
  { pose proof (content_length _ _ (wp_valid _ _ _ _ Hp)) as El. fold (f_pbufs f) in El.
    pose proof (f_equal (@length Z) (fo_data _ _ _ Hf)) as Ed. rewrite length_skipn in Ed. lia. }
  { pose proof (seg_length _ _ _ Hs1 Dn2). unfold walk_fuel. lia. }
  fold (f_addrs f) in Al, K2. rewrite <- all_addrs_cons in Al, K2.
  assert (Hun : untouched (all_addrs (f :: fs)) (re_store s) st2).
  { intros b Hb. rewrite (K2 b Hb), M2. apply (changed_untouched (all_addrs (f :: fs))); [|exact Hb].
    apply (written_changed (f_addr f)); [exact Hw1|]. apply addr_in_all. now left. }
  pose proof (Permutation_length Dperm) as Hpl. rewrite length_app in Hpl.
  assert (Ecl : pbuf_clen (Some (f_addr f)) st2 = ret (Z.of_nat (length (all_addrs (f :: fs))))).
  { rewrite (pbuf_clen_spec _ _ _ (proj1 (op_packet _ _ _ Hl))). f_equal. unfold u8.
    assert (El : length l = length (all_addrs (f :: fs))) by (rewrite <- Al; now rewrite length_map). rewrite El.
    pose proof (ri_count _ _ _ _ Hinv) as Hc. pose proof (ri_max _ _ _ _ Hinv) as Hm. unfold IP_REASS_MAX_PBUFS in Hm.
    rewrite Z.mod_small; lia. }
  exists (f_addr f), l, (Reass (delete i (reassdatagrams s)) (u16 (ip_reass_pbufcount s - Z.of_nat (length (all_addrs (f :: fs))))) st2 (re_world s)).
  split; [exact Hr|]. split.
  { unfold deliver, re_entry. rewrite Hr, bind_ret, Dp. cbn [head_addr].
    rewrite (get_helper_spec _ _ _ Hf) by (apply (seg_small (re_store s)); [exact Hs|apply small_none]). rewrite bind_ret.
    rewrite (fetch_some _ _ _ (frag_lookup _ _ _ Hf)), bind_ret, whole_header_spec, bind_ret by exact Di. fold hdr.
    rewrite E1, bind_ret. cbn [f_helper h_next]. rewrite E2, bind_ret.
    assert (Edeq : ip_reass_dequeue_datagram i prev (set_re_store st2 s) =
                   ret (Reass (delete i (reassdatagrams s)) (ip_reass_pbufcount s) st2 (re_world s))).
    { unfold ip_reass_dequeue_datagram, set_re_store. cbn [reassdatagrams ip_reass_pbufcount re_store re_world]. rewrite delete_take_drop.
      destruct i as [|i]; [now destruct prev|]. destruct Hprev as [Hz| -> ]; [discriminate|]. reflexivity. }
    rewrite Edeq, bind_ret, Ecl, bind_ret. reflexivity. }
  cbn [re_store re_world reassdatagrams]. split; [exact Hl|]. split; [exact Al|]. split.
  { rewrite Cl. unfold f_pbufs in Ec1 |- *. rewrite Ec1. rewrite Eh. fold (f_pbufs f). rewrite (fo_data _ _ _ Hf), <- app_assoc. reflexivity. }
  split; [reflexivity|]. split; [reflexivity|]. split; [|exact Hun].
  destruct Hinv as [Ha Hnd Hc Hm Hpe Hh]. unfold IP_REASS_MAX_PBUFS in Hm.
  constructor; cbn [re_store re_world reassdatagrams ip_reass_pbufcount]; [| | | |lia| |].
  - eapply datagrams_agree; [|exact (da_rest _ _ _ _ _ _ Hat)]. eapply untouched_agree; [exact Hun|].
    intros b Hb Hb'. exact (da_disj _ _ _ _ _ _ Hat b Hb' Hb).
  - exact (da_rest_nodup _ _ _ _ _ _ Hat).
  - unfold u16. rewrite Z.mod_small; lia.
  - unfold u16, IP_REASS_MAX_PBUFS. rewrite Z.mod_small; lia.
  - intros b Hb. apply Hh. apply (Permutation_in _ (Permutation_sym Dperm)), in_app_iff. now right.
  - exact (accounted_untouched held _ _ _ _ Hun (da_held _ _ _ _ _ _ Hat) Dac).
Qed.

(** The packet that arrives, as a fragment. *)
Definition frag_of (m : gmap addr (list Z)) (hdr : list Z) (a : addr) (x : pbuf) (l : list (addr * pbuf)) : frag :=
  Frag a x l (frag_offset hdr) (u16 (frag_offset hdr + frag_len hdr)) (skipn 20 (content m ((a, x) :: l))) hdr.

(** A packet that is no part of the datagrams nor held by the rest. *)
Record arriving (s : reass W) (fss : list (list frag)) (hdr : list Z) (a : addr) (x : pbuf) (l : list (addr * pbuf)) : Prop := Arriving
  { ar_packet : whole_packet (re_store s) a x l;
    ar_hdr : hdr = firstn 20 (bytes_of (st_mem (re_store s)) x);
    ar_free : forall b, In b (a :: map fst l) -> ~ In b (pbufs_of fss) /\ ~ In b (held (re_world s));
    ar_legal : frag_legal (frag_of (st_mem (re_store s)) hdr a x l);
    ar_first : frag_offset hdr = 0 -> 28 <= pb_len x }.

Lemma load_header st a x l : whole_packet st a x l -> load st (pb_payload x) 0 IP_HLEN = ret (firstn 20 (bytes_of (st_mem st) x)).
Proof.
  intros [_ Hv _ _ _ Hh _]. inversion Hv; subst. unfold IP_HLEN in *. now rewrite load_bytes by (auto; lia).
Qed.

Lemma whole_NoDup st a x l : whole_packet st a x l -> List.NoDup (a :: map fst l).
Proof. intros H. apply NoDup_ListNoDup. exact (chain_NoDup _ _ _ (proj1 (wp_packet _ _ _ _ H))). Qed.

Lemma u16_range z : range16 (u16 z).
Proof. unfold range16, u16. apply Z.mod_pos_bound. lia. Qed.

Lemma insert_perm f fs fs' l1 l2 : fs = l1 ++ l2 -> fs' = l1 ++ f :: l2 -> Permutation (all_addrs fs') (f_addrs f ++ all_addrs fs).
Proof.
  intros -> ->. rewrite !all_addrs_app, all_addrs_cons, !app_assoc. apply Permutation_app_tail, Permutation_app_comm.
Qed.

(** What holds after the fragment was linked. *)
Record linked (s : reass W) (fss : list (list frag)) (i : nat) (r : ip_reassdata) (f : frag) (fs fs' : list frag) (s' : reass W) : Prop := Linked
  { li_entries : reassdatagrams s' = <[i := with_p r (head_addr fs' None)]> (reassdatagrams s);
    li_inv : reass_inv held s' (<[i := fs']> fss) 0; li_world : re_world s' = re_world s;
    li_store : untouched (f_addrs f ++ all_addrs fs) (re_store s) (re_store s') }.

(** ... and after it was thrown away. *)
Record dropped (s : reass W) (fss : list (list frag)) (f : frag) (fs : list frag) (s' : reass W) : Prop := Dropped
  { dr_entries : reassdatagrams s' = reassdatagrams s; dr_inv : reass_inv held s' fss 0; dr_world : re_world s' = re_world s;
    dr_store : untouched (f_addrs f ++ all_addrs fs) (re_store s) (re_store s');
    dr_free : forall b, In b (f_addrs f) -> st_pbufs (re_store s') !! b = None }.

(** The other datagrams are not those changed. *)
Lemma others_untouched s fss pend i fs r f st' :
  reass_inv held s fss pend -> datagram_at held s fss i fs r -> (forall b, In b (f_addrs f) -> ~ In b (pbufs_of fss)) ->
  untouched (f_addrs f ++ all_addrs fs) (re_store s) st' ->
  Forall2 (datagram_ok st') (delete i (reassdatagrams s)) (delete i fss).
Proof.
  intros Hinv Hat Hfree Hun. eapply datagrams_agree; [|exact (da_rest _ _ _ _ _ _ Hat)].
  eapply untouched_agree; [exact Hun|]. intros b Hb. rewrite in_app_iff. intros [Hb'|Hb'].
  - apply (Hfree b Hb'). apply (Permutation_in _ (Permutation_sym (da_perm _ _ _ _ _ _ Hat))), in_app_iff. now right.
  - exact (da_disj _ _ _ _ _ _ Hat b Hb' Hb).
Qed.

Lemma Forall2_delete_insert {A B} (P : A -> B -> Prop) l k i x y :
  Forall2 P (delete i l) (delete i k) -> length l = length k -> P x y -> Forall2 P (<[i := x]> l) (<[i := y]> k).
Proof.
  intros Hd Hlen Hp. revert l k Hd Hlen.
  induction i as [|i IH]; intros [|a l] [|b k] Hd Hlen; try discriminate; try constructor; cbn in *; auto.
  - inversion Hd; subst. auto.
  - inversion Hd; subst. auto.
Qed.

Lemma inv_lengths s fss pend : reass_inv held s fss pend -> length (reassdatagrams s) = length fss.
Proof. intros H. exact (Forall2_length _ _ _ (ri_all _ _ _ _ H)). Qed.

Lemma linked_inv s fss i fs r hdr a x l st' l1 l2 :
  let f := frag_of (st_mem (re_store s)) hdr a x l in
  let fs' := l1 ++ f :: l2 in
  reass_inv held s fss (Z.of_nat (S (length l))) -> datagram_at held s fss i fs r -> fss !! i = Some fs ->
  arriving s fss hdr a x l -> same_datagram (rd_iphdr r) hdr -> fs = l1 ++ l2 -> seg st' fs' None ->
  untouched (f_addrs f ++ all_addrs fs) (re_store s) st' ->
  linked s fss i r f fs fs' (set_re_entry i (with_p r (head_addr fs' None)) (set_re_store st' s)).
Proof.
  intros f fs' Hinv Hat Hi [Hp Hh Hfree Hleg Hfirst] Hsd Efs Hs Hun.
  assert (Hfr : forall b, In b (f_addrs f) -> ~ In b (pbufs_of fss)) by (intros b Hb; exact (proj1 (Hfree b Hb))).
  pose proof (insert_perm f fs fs' l1 l2 Efs eq_refl) as Hperm1.
  assert (Hperm : Permutation (pbufs_of (<[i := fs']> fss)) (f_addrs f ++ pbufs_of fss)).
  { rewrite (da_perm _ _ _ _ _ _ Hat). rewrite insert_take_drop by (apply lookup_lt_Some in Hi; exact Hi).
    rewrite pbufs_of_app, pbufs_of_cons, Hperm1, delete_take_drop, pbufs_of_app. solve_Permutation. }
  constructor; [reflexivity| |reflexivity|exact Hun]. pose proof (da_ok _ _ _ _ _ _ Hat) as [Dp Ds Dl Dsm Di Dt].
  pose proof Hinv as [Ha Hnd Hc Hm Hpe Hhe]. constructor; cbn [set_re_entry set_re_store reassdatagrams re_store re_world ip_reass_pbufcount].
  - apply Forall2_delete_insert.
    + exact (others_untouched _ _ _ _ _ _ _ _ Hinv Hat Hfr Hun).
    + exact (inv_lengths _ _ _ Hinv).
    + constructor; [reflexivity|exact Hs| | |exact Di|exact Dt].
      2: { rewrite Efs in Dsm. apply Forall_app in Dsm as [D1 D2]. apply Forall_app. split; [exact D1|]. constructor; [|exact D2].
           symmetry. exact Hsd. }
      rewrite Efs in Dl. apply Forall_app in Dl as [D1 D2]. apply Forall_app. split; [exact D1|]. now constructor.
  - apply (Permutation_NoDup (Permutation_sym Hperm)). apply List.NoDup_app.
    + exact (whole_NoDup _ _ _ _ Hp).
    + exact Hnd.
    + exact Hfr.
  - rewrite Hc, (Permutation_length Hperm), length_app. unfold f_addrs, f_pbufs. cbn [f frag_of f_addr f_head f_tail map length].
    rewrite length_map. lia.
  - exact Hm.
  - lia.
  - intros b Hb. apply (Permutation_in _ Hperm), in_app_iff in Hb as [Hb|Hb]; [exact (proj2 (Hfree b Hb))|now apply Hhe].
  - apply (accounted_untouched held (f_addrs f ++ all_addrs fs) (re_store s)); [exact Hun| |exact (da_accounted _ _ _ _ _ _ Hat)].
    intros b Hb. apply in_app_iff in Hb as [Hb|Hb]; [exact (proj2 (Hfree b Hb))|exact (da_held _ _ _ _ _ _ Hat b Hb)].
Qed.

Lemma chain_frag_spec s fss i fs r hdr a x l :
  reass_inv held s fss (Z.of_nat (S (length l))) -> fss !! i = Some fs -> reassdatagrams s !! i = Some r ->
  arriving s fss hdr a x l -> same_datagram (rd_iphdr r) hdr ->
  let f := frag_of (st_mem (re_store s)) hdr a x l in
  match insert f None fs true with
  | Some (fs', v) => exists l1 l2 s',
      fs = l1 ++ l2 /\ fs' = l1 ++ f :: l2 /\ linked s fss i r f fs fs' s' /\
      ip_reass_chain_frag_into_datagram_and_validate i a s =
        if looks_complete r v fs' f l2 then
          (_ <- lwip_assert (1 <? length fs')%nat;; _ <- lwip_assert (last_end fs' =? rd_datagram_len r);; ret (true, s'))
        else ret (false, s')
  | None => exists s', ip_reass_chain_frag_into_datagram_and_validate i a s = ret (false, s') /\ dropped s fss f fs s'
  end.
Proof.
  intros Hinv Hi Hr Har Hsd f. destruct (inv_split _ _ _ _ _ _ Hinv Hi) as (r' & Hat).
  assert (r' = r) by (pose proof (da_entry _ _ _ _ _ _ Hat) as E; rewrite Hr in E; now injection E). subst r'.
  pose proof Har as [Hp Hh Hfree Hleg Hfirst]. pose proof (da_ok _ _ _ _ _ _ Hat) as [Dp Ds _ _ _ _].
  destruct (new_frag (re_store s) a x l (frag_offset hdr) (u16 (frag_offset hdr + frag_len hdr)) hdr Hp (u16_range _) (u16_range _) Hfirst)
    as (st1 & E1 & Hw1 & Hf1). change (Frag a x l _ _ _ _) with f in Hf1.
  assert (Hda : forall b, In b (f_addrs f) -> ~ In b (all_addrs fs)).
  { intros b Hb Hb'. apply (proj1 (Hfree b Hb)). apply (Permutation_in _ (Permutation_sym (da_perm _ _ _ _ _ _ Hat))), in_app_iff. now left. }
  assert (Hs1 : seg st1 fs None).
  { eapply seg_agree; [|exact Ds]. eapply written_agree; [exact Hw1|]. exact (Hda _ (f_addr_in f)). }
  assert (Hnd1 : List.NoDup (all_addrs (f :: fs))).
  { rewrite all_addrs_cons. apply List.NoDup_app; [|exact (da_nodup _ _ _ _ _ _ Hat)|exact Hda].
    exact (whole_NoDup _ _ _ _ Hp). }
  destruct (scan_spec f fs (walk_fuel st1) None true st1 Hs1) as (pl & v & E2 & Hpl).
  { pose proof (seg_length _ _ _ Hs1 (da_nodup _ _ _ _ _ _ Hat)). unfold walk_fuel. lia. } { exact I. }
  destruct (link_spec f fs pl v st1 Hs1 Hf1 Hnd1 Hpl) as (st2 & E3 & Hch & (n & Hf2) & Hs2).
  assert (Hun : untouched (f_addrs f ++ all_addrs fs) (re_store s) st2).
  { rewrite <- all_addrs_cons. apply (untouched_trans _ _ st1); [|now apply changed_untouched].
    apply changed_untouched, (written_changed (f_addr f)); [exact Hw1|]. apply addr_in_all. now left. }
  assert (Estep : ip_reass_chain_frag_into_datagram_and_validate i a s =
    match option_map (fun '(fs', v') => (head_addr fs' None, v')) (insert f None fs true) with
    | Some (p, valid) =>
        complete <- validate (with_p r p) a valid st2;;
        ret (complete, set_re_entry i (with_p r p) (set_re_store st2 s))
    | None =>
        n <- pbuf_clen (Some a) st2;;
        '(_, st) <- pbuf_free (Some a) st2;;
        ret (false, set_pbufcount (ip_reass_pbufcount s - n) (set_re_store st s))
    end).
  { unfold ip_reass_chain_frag_into_datagram_and_validate, re_entry. rewrite Hr, bind_ret.
    rewrite (fetch_some _ _ x) by (destruct (wp_packet _ _ _ _ Hp) as [Hc _]; now inversion Hc).
    rewrite bind_ret, (load_header _ _ _ _ Hp), bind_ret, <- Hh, E1, bind_ret, Dp.
    change (frag_offset hdr) with (f_start f). change (scan_frags _ _ None) with (scan_frags (walk_fuel st1) (f_start f) (option_map (pointed (head_addr fs None)) None)).
    rewrite E2, bind_ret. change (u16 _) with (f_end f). change a with (f_addr f) at 1. rewrite E3, bind_ret. reflexivity. }
  rewrite Estep. destruct (insert f None fs true) as [[fs' v']|] eqn:Ei; cbn [option_map].
  - destruct (insert_split _ _ _ _ _ _ Ei) as (l1 & l2 & Efs & Efs').
    exists l1, l2, (set_re_entry i (with_p r (head_addr fs' None)) (set_re_store st2 s)). split; [exact Efs|]. split; [exact Efs'|]. split.
    + subst fs'. exact (linked_inv s fss i fs r hdr a x l st2 l1 l2 Hinv Hat Hi Har Hsd Efs Hs2 Hun).
    + subst fs'. assert (Hnd2 : List.NoDup (all_addrs (l1 ++ f :: l2))).
      { apply (Permutation_NoDup (Permutation_sym (insert_perm f fs _ l1 l2 Efs eq_refl))). now rewrite <- all_addrs_cons. }
      pose proof (validate_spec (with_p r (head_addr (l1 ++ f :: l2) None)) l1 f l2 v' st2 Hs2 Hnd2 eq_refl) as Ev.
      change (f_addr f) with a in Ev. rewrite Ev. clear Ev.
      unfold looks_complete. cbn [rd_flags with_p rd_datagram_len]. destruct (_ && gapless f l2); [|now rewrite bind_ret].
      destruct (1 <? length (l1 ++ f :: l2))%nat; [|reflexivity]. rewrite !lwip_assert_true, !bind_ret by reflexivity.
      destruct (last_end (l1 ++ f :: l2) =? rd_datagram_len r); [|reflexivity]. now rewrite !lwip_assert_true, !bind_ret by reflexivity.
  - pose proof (fo_packet _ _ _ Hf2) as Hp2. change (f_addr f) with a in Hp2.
    pose proof Hinv as [Ha Hnd Hc Hm Hpe Hhe]. unfold IP_REASS_MAX_PBUFS in Hm.
    rewrite (whole_clen _ _ _ _ Hp2), bind_ret by (cbn [f frag_of f_tail]; lia).
    destruct (whole_free _ _ _ _ Hp2) as (k & st3 & E4 & R3). rewrite E4, bind_ret.
    exists (set_pbufcount (ip_reass_pbufcount s - Z.of_nat (S (length l))) (set_re_store st3 s)). split; [reflexivity|].
    assert (Hun3 : untouched (f_addrs f ++ all_addrs fs) (re_store s) st3).
    { apply (untouched_trans _ _ st2); [exact Hun|]. apply (untouched_weaken (f_addrs f)); [|intros b Hb; apply in_app_iff; now left].
      intros b Hb. exact (proj2 R3 b Hb). }
    constructor; [reflexivity| |reflexivity|exact Hun3|intros b Hb; exact (proj1 (proj1 R3 b Hb))].
    constructor; cbn [set_pbufcount set_re_store reassdatagrams re_store re_world ip_reass_pbufcount]; auto.
    + rewrite <- (list_insert_id _ _ _ Hr), <- (list_insert_id _ _ _ Hi). apply Forall2_delete_insert.
      * apply (others_untouched _ _ _ _ _ _ f _ Hinv Hat); [|exact Hun3]. intros b Hb. exact (proj1 (Hfree b Hb)).
      * exact (inv_lengths _ _ _ Hinv).
      * apply (datagram_agree st2); [|].
        { eapply removed_agree; [exact R3|]. intros b Hb Hb'. exact (Hda b Hb' Hb). }
        destruct (da_ok _ _ _ _ _ _ Hat). now constructor.
    + unfold u16. rewrite Z.mod_small; lia.
    + unfold u16, IP_REASS_MAX_PBUFS. rewrite Z.mod_small; lia.
    + lia.
    + apply (accounted_untouched held (f_addrs f ++ all_addrs fs) (re_store s)); [exact Hun3| |exact (da_accounted _ _ _ _ _ _ Hat)].
      intros b Hb. apply in_app_iff in Hb as [Hb|Hb]; [exact (proj2 (Hfree b Hb))|exact (da_held _ _ _ _ _ _ Hat b Hb)].
Qed.
End Step.
