(* ===== verification/IpReassOrder.v ===== *)
(** * lwIP reassembly: any fragment, and fragments that arrive in order *)
From Stdlib Require Import ZArith List Lia Bool.
From stdpp Require Import base gmap list.
From S2P Require Import Prelude CMonad Pbuf PbufChain PbufData PbufEdit PbufAlloc.
From S2P Require Import Inet InetChksum Netif IpHdr Frames IpReass IpReassMem.
From S2P Require Import IpReassInv IpReassStep.
#[local] Open Scope Z_scope.
#[local] Open Scope cmonad_scope.

(** ** Headers *)

Lemma offset_range hdr : 0 <= Z.land (ntohs (IPH_OFFSET hdr)) IP_OFFMASK < 8192.
Proof. unfold IP_OFFMASK. change 0x1fff with (Z.ones 13). rewrite Z.land_ones by lia. change 8192 with (2 ^ 13). apply Z.mod_pos_bound. lia. Qed.

Lemma frag_offset_value hdr : frag_offset hdr = Z.land (ntohs (IPH_OFFSET hdr)) IP_OFFMASK * 8.
Proof. unfold frag_offset, u16. pose proof (offset_range hdr). apply Z.mod_small. lia. Qed.

Lemma is_first_offset hdr : is_first hdr = (frag_offset hdr =? 0).
Proof. unfold is_first. rewrite frag_offset_value. destruct (Z.eqb_spec (Z.land (ntohs (IPH_OFFSET hdr)) IP_OFFMASK) 0), (Z.eqb_spec (Z.land (ntohs (IPH_OFFSET hdr)) IP_OFFMASK * 8) 0); lia. Qed.

Section Correct.
Context {W : Type} (held : W -> list addr).

(** A packet that [ip_input] hands over: it has the length of its header, it
    ends inside the largest datagram, and a first fragment has room for the
    data of an ICMP message. *)
Record incoming (s : reass W) (fss : list (list frag)) (hdr : list Z) (a : addr) (x : pbuf) (l : list (addr * pbuf)) : Prop := Incoming
  { in_packet : whole_packet (re_store s) a x l;
    in_hdr : hdr = firstn 20 (bytes_of (st_mem (re_store s)) x);
    in_free : forall b, In b (a :: map fst l) -> ~ In b (pbufs_of fss) /\ ~ In b (held (re_world s));
    in_short : (length l < 255)%nat; in_len : ntohs (IPH_LEN hdr) = total ((a, x) :: l);
    in_max : frag_offset hdr + total ((a, x) :: l) - 20 <= 65515;
    in_first : frag_offset hdr = 0 -> 28 <= pb_len x }.

Lemma whole_total st a x l : whole_packet st a x l -> 20 <= total ((a, x) :: l) < 65536.
Proof.
  intros [[_ (_ & _ & _ & Ht & Hl)] _ _ _ _ Hh _]. apply totals_nonneg in Hl. unfold IP_HLEN in Hh. cbn [total] in *. lia.
Qed.

Lemma frag_len_value hdr n : IPH_HL hdr * 4 = IP_HLEN -> ntohs (IPH_LEN hdr) = n -> 20 <= n < 65536 -> frag_len hdr = n - 20.
Proof. unfold frag_len, IP_HLEN, u16. intros -> -> H. apply Z.mod_small. lia. Qed.

Lemma header_length s fss hdr a x l : incoming s fss hdr a x l -> length hdr = 20%nat.
Proof.
  intros [Hp Hh _ _ _ _ _]. rewrite Hh, length_firstn, bytes_length by (pose proof (wp_valid _ _ _ _ Hp) as Hv; now inversion Hv).
  pose proof (wp_header _ _ _ _ Hp). unfold IP_HLEN in *. lia.
Qed.

Lemma incoming_arriving s fss hdr a x l :
  incoming s fss hdr a x l -> IPH_HL hdr * 4 = IP_HLEN -> arriving held s fss hdr a x l.
Proof.
  intros [Hp Hh Hf Hs Hl Hm H1] Hhl. pose proof (whole_total _ _ _ _ Hp) as Ht.
  constructor; auto. pose proof (frag_len_value _ _ Hhl Hl Ht) as Efl.
  pose proof (offset_range hdr) as Ho. pose proof (frag_offset_value hdr) as Eo.
  constructor; cbn [frag_of f_start f_hdr f_end f_data]; [reflexivity| |]; rewrite Efl; unfold u16; rewrite Z.mod_small by lia; [|lia].
  pose proof (content_length _ _ (wp_valid _ _ _ _ Hp)) as Ec. rewrite length_skipn. lia.
Qed.

(** The packet stays as it is while other datagrams are freed. *)
Lemma arriving_evolves s fss hdr a x l s' fss' gone :
  arriving held s fss hdr a x l -> evolves held gone (re_store s) (re_world s) (re_store s') (re_world s') ->
  Permutation (pbufs_of fss) (gone ++ pbufs_of fss') ->
  arriving held s' fss' hdr a x l /\ frag_of (st_mem (re_store s')) hdr a x l = frag_of (st_mem (re_store s)) hdr a x l.
Proof.
  intros [Hp Hh Hf Hl H1] Hev Hperm.
  assert (Hsub : forall b, In b (gone ++ pbufs_of fss') -> In b (pbufs_of fss)) by (intros b; apply Permutation_in; now symmetry).
  destruct (evolves_agree _ _ _ _ _ _ (a :: map fst l) Hev) as [Hag Hh'].
  { intros b Hb. split.
    - destruct (wp_packet _ _ _ _ Hp) as [Hc _]. change (a :: map fst l) with (map fst ((a, x) :: l)) in Hb.
      apply in_map_iff in Hb as ([c y] & <- & Hin). exists y. exact (chain_lookup _ _ _ _ _ Hc Hin).
    - split; [now apply Hf|]. intros Hg. apply (proj1 (Hf b Hb)), Hsub, in_app_iff. now left. }
  destruct (owned_ext (st_mem (re_store s)) (st_mem (re_store s')) _ (wp_owns _ _ _ _ Hp)) as [Ec _].
  { intros b Hb. exact (proj2 (Hag b Hb)). }
  assert (Ef : frag_of (st_mem (re_store s')) hdr a x l = frag_of (st_mem (re_store s)) hdr a x l).
  { unfold frag_of. now rewrite Ec. }
  split; [|exact Ef]. constructor.
  - exact (whole_packet_agree _ _ _ _ _ Hag Hp).
  - rewrite Hh. f_equal. pose proof (wp_owns _ _ _ _ Hp) as Ho. inversion Ho as [|? ? [o Hx] _]; subst. cbn [fst snd] in Hx.
    rewrite !(owned_block _ _ _ _ Hx). unfold block. now rewrite (proj2 (Hag a (or_introl eq_refl))).
  - intros b Hb. split; [|now apply Hh']. intros Hb'. apply (proj1 (Hf b Hb)), Hsub, in_app_iff. now right.
  - now rewrite Ef.
  - exact H1.
Qed.

(** ** Settled datagrams *)

Lemma insert_settled r f fs hdr :
  f_start f = frag_offset hdr -> f_hdr f = hdr -> Forall (fun g => 0 <= f_start g) fs ->
  (settled r fs /\ (is_first hdr = true -> is_first (rd_iphdr r) = true)) \/ (rd_iphdr r = hdr /\ starts_at_0 fs = false) ->
  match insert f None fs true with Some (fs', _) => settled r fs' | None => settled r fs end.
Proof.
  intros Es Eh Hge Hst. pose proof (is_first_offset hdr) as Ef. rewrite <- Es in Ef.
  assert (H0 : 0 <= f_start f) by (rewrite Es, frag_offset_value; pose proof (offset_range hdr); lia).
  destruct fs as [|g t]; cbn [insert].
  - destruct Hst as [[[] _]|[E _]]. cbn. rewrite E, Eh, Ef. destruct (Z.eqb_spec (f_start f) 0); tauto.
  - inversion Hge as [|? ? Hg _]; subst.
    assert (Hkeep : settled r (g :: t) \/ f_start f = 0 /\ f_start g <> 0 /\ f_hdr f = rd_iphdr r /\ is_first (rd_iphdr r) = true).
    { destruct Hst as [[Hst _]|[E Ez]]; [now left|]. cbn [starts_at_0] in Ez. apply Z.eqb_neq in Ez.
      destruct (Z.eqb_spec (f_start f) 0) as [E0|E0]; [right; rewrite E; tauto|]. left. right. now rewrite E. }
    destruct (Z.ltb_spec (f_start f) (f_start g)) as [Hlt|Hlt]; cbn [fits].
    + cbn. destruct (Z.eqb_spec (f_start f) 0) as [E0|E0].
      * left. destruct Hst as [[Hst Hi]|[E _]]; [|now rewrite E].
        specialize (Hi Ef). destruct Hst as [(_ & Hz & _)|[Hn _]]; [lia|congruence].
      * right. split; [|exact E0]. destruct Hst as [[Hst _]|[E _]]; [|now rewrite E].
        destruct Hst as [(_ & Hz & _)|[Hn _]]; [lia|exact Hn].
    + destruct Hkeep as [Hk|(E0 & En & _)]; [|lia]. destruct (_ || _); [exact Hk|].
      destruct (insert f (Some g) t _) as [[l w]|]; exact Hk.
Qed.

(** ** The theorem *)

(** A delivered datagram with the fragment [f] that completed it, in the
    pbufs [own]. *)
Inductive delivered (f : frag) (st : store) (q : addr) (own : list addr) : Prop :=
| Delivered len g l1 l2 t l :
    deliverable len l1 f l2 -> l1 ++ f :: l2 = g :: t ->
    Forall frag_legal (g :: t) -> Forall (fun h => same_datagram (f_hdr h) (f_hdr g)) t ->
    own_packet st q l -> map fst l = own ->
    content (st_mem st) l = joined_header (f_hdr g) (len + IP_HLEN) ++ all_data (g :: t) ->
    delivered f st q own.

(** What [ip_reass] leaves: the pbufs of the fragments are those of a
    delivered datagram, still wait, or belong to the rest or nobody. *)
Record reassembled (s : reass W) (fss : list (list frag)) (f : frag) (res : option addr) (s' : reass W)
    (fss' : list (list frag)) (own : list addr) : Prop := Reassembled
  { re_ok : reass_ok held s' fss';
    re_result : match res with Some q => delivered f (re_store s') q own | None => own = [] end;
    re_own : forall b, In b own -> ~ In b (pbufs_of fss') /\ ~ In b (held (re_world s'));
    re_accounted : forall b, In b (f_addrs f ++ pbufs_of fss) ->
      In b own \/ In b (pbufs_of fss') \/ st_pbufs (re_store s') !! b = None \/ In b (held (re_world s'));
    re_others : forall b, is_Some (st_pbufs (re_store s) !! b) -> ~ In b (held (re_world s)) ->
      ~ In b (f_addrs f ++ pbufs_of fss) ->
      st_pbufs (re_store s') !! b = st_pbufs (re_store s) !! b /\ st_mem (re_store s') !! b = st_mem (re_store s) !! b }.

(** The same of the part in which the rest of the system does nothing. *)
Record stepped (s : reass W) (fss : list (list frag)) (f : frag) (res : option addr) (s' : reass W)
    (fss' : list (list frag)) (own : list addr) : Prop := Stepped
  { sp_ok : reass_ok held s' fss';
    sp_result : match res with Some q => delivered f (re_store s') q own | None => own = [] end;
    sp_own : forall b, In b own -> ~ In b (pbufs_of fss') /\ ~ In b (held (re_world s'));
    sp_accounted : forall b, In b (f_addrs f ++ pbufs_of fss) ->
      In b own \/ In b (pbufs_of fss') \/ st_pbufs (re_store s') !! b = None;
    sp_world : re_world s' = re_world s; sp_others : untouched (f_addrs f ++ pbufs_of fss) (re_store s) (re_store s') }.

Lemma stepped_reassembled s fss gone s1 fss1 f res s' fss' own :
  evolves held gone (re_store s) (re_world s) (re_store s1) (re_world s1) ->
  Permutation (pbufs_of fss) (gone ++ pbufs_of fss1) ->
  stepped s1 fss1 f res s' fss' own -> reassembled s fss f res s' fss' own.
Proof.
  intros (Ha & Hb & _) Hperm [H1 H2 H3 H4 H5 H6]. constructor; auto.
  - intros b Hin. destruct (in_dec Pos.eq_dec b (f_addrs f ++ pbufs_of fss1)) as [Hi|Hn].
    { destruct (H4 b Hi) as [H|[H|H]]; auto. }
    assert (Hg : In b gone).
    { apply in_app_iff in Hin as [Hin|Hin]; [exfalso; apply Hn, in_app_iff; now left|].
      apply (Permutation_in _ Hperm), in_app_iff in Hin as [Hin|Hin]; [exact Hin|]. exfalso. apply Hn, in_app_iff. now right. }
    rewrite H5. destruct (Hb b) as [Hx|Hx]; [auto| |auto]. right. right. left. destruct (H6 b Hn) as [-> _]. exact Hx.
  - intros b Hs Hh Hn.
    assert (Hsub : forall c, In c (gone ++ pbufs_of fss1) -> In c (pbufs_of fss)) by (intros c; apply Permutation_in; now symmetry).
    destruct (Ha b (or_introl Hs) Hh) as (P & M & _).
    { intros Hg. apply Hn, in_app_iff. right. apply Hsub, in_app_iff. now left. }
    destruct (H6 b) as [P' M'].
    { intros Hg. apply Hn. apply in_app_iff in Hg as [Hg|Hg]; apply in_app_iff; [now left|right]. apply Hsub, in_app_iff. now right. }
    split; congruence.
Qed.

Lemma settled_insert_all rs fss i r r' fs fs' :
  rs !! i = Some r -> fss !! i = Some fs -> Forall2 settled (delete i rs) (delete i fss) -> length rs = length fss ->
  settled r' fs' -> Forall2 settled (<[i := r']> rs) (<[i := fs']> fss).
Proof. intros Hr Hfs Hd Hl Hs. now apply Forall2_delete_insert. Qed.

(** A fragment at its datagram. *)
Definition take_frag (i : nat) (prev : option nat) (a : addr) (s : reass W) : M (option addr * reass W) :=
  '(complete, s) <- ip_reass_chain_frag_into_datagram_and_validate i a s;;
  if (complete : bool) then deliver i prev s else ret (None, s).

Lemma pbufs_of_insert fss i fs fs' f :
  fss !! i = Some fs -> Permutation (all_addrs fs') (f_addrs f ++ all_addrs fs) ->
  Permutation (pbufs_of (<[i := fs']> fss)) (f_addrs f ++ pbufs_of fss).
Proof.
  intros Hi Hp. rewrite <- (take_drop_middle _ _ _ Hi) at 2. rewrite insert_take_drop by (apply lookup_lt_Some in Hi; exact Hi).
  rewrite !pbufs_of_app, !pbufs_of_cons, Hp. solve_Permutation.
Qed.

(** A fragment is at one place of a list. *)
Lemma split_unique l1 f l2 k1 k2 :
  List.NoDup (all_addrs (l1 ++ f :: l2)) -> l1 ++ f :: l2 = k1 ++ f :: k2 -> l1 = k1 /\ l2 = k2.
Proof.
  revert k1. induction l1 as [|y l1 IH]; intros [|z k1] Hnd E; cbn [app] in E, Hnd; rewrite all_addrs_cons in Hnd.
  - injection E as <-. auto.
  - injection E as -> ->. exfalso. apply (NoDup_app_disj _ _ Hnd (f_addr z) (f_addr_in z)).
    apply addr_in_all, in_app_iff. right. now left.
  - injection E as -> <-. exfalso. apply (NoDup_app_disj _ _ Hnd (f_addr f) (f_addr_in f)).
    apply addr_in_all, in_app_iff. right. now left.
  - injection E as -> E. destruct (IH k1 (NoDup_app_remove_l _ _ Hnd) E) as [-> ->]. auto.
Qed.

(** The datagram that is delivered is the one that looked complete. *)
Lemma looks_complete_deliverable r f fs fs' v l1 l2 :
  insert f None fs true = Some (fs', v) -> fs' = l1 ++ f :: l2 -> List.NoDup (all_addrs fs') ->
  looks_complete r v fs' f l2 = true -> (1 <? length fs')%nat = true -> (last_end fs' =? rd_datagram_len r) = true ->
  deliverable (rd_datagram_len r) l1 f l2.
Proof.
  intros Ei Efs' Hnd Hlc Hmany Hend. unfold looks_complete in Hlc. rewrite !andb_true_iff in Hlc.
  destruct Hlc as [[[_ ->] H0] Hg]. destruct (insert_valid f None fs true fs' I Ei) as (_ & k1 & k2 & _ & Ek & Hc & Hseam).
  rewrite Efs' in Hnd, Ek. destruct (split_unique _ _ _ _ _ Hnd Ek) as [<- <-].
  rewrite Efs' in H0, Hend, Hmany. constructor; auto.
  - now apply gapless_contiguous.
  - now apply Z.eqb_eq.
  - now apply Nat.ltb_lt.
Qed.

Lemma seg_starts st fs q : seg st fs q -> Forall (fun g => 0 <= f_start g) fs.
Proof.
  induction fs as [|f fs IH]; [constructor|]. intros [Hf Hs]. constructor; [|now apply IH]. destruct (fo_start _ _ _ Hf). lia.
Qed.

Lemma take_frag_spec s fss i fs r prev hdr a x l :
  let f := frag_of (st_mem (re_store s)) hdr a x l in
  reass_inv held s fss (Z.of_nat (S (length l))) -> fss !! i = Some fs -> reassdatagrams s !! i = Some r ->
  arriving held s fss hdr a x l -> same_datagram (rd_iphdr r) hdr ->
  Forall2 settled (delete i (reassdatagrams s)) (delete i fss) ->
  (settled r fs /\ (is_first hdr = true -> is_first (rd_iphdr r) = true)) \/ (rd_iphdr r = hdr /\ starts_at_0 fs = false) ->
  (i = O \/ prev = pred_of i) ->
  safely (take_frag i prev a s) (fun '(res, s') => exists fss' own, stepped s fss f res s' fss' own).
Proof.
  intros f Hinv Hi Hr Har Hsd Hrest Hfirst Hprev.
  pose proof (Forall2_lookup_lr _ _ _ _ _ _ (ri_all _ _ _ _ Hinv) Hr Hi) as Hd.
  pose proof (insert_settled r f fs hdr eq_refl eq_refl (seg_starts _ _ _ (do_seg _ _ _ Hd)) Hfirst) as Hset.
  pose proof (chain_frag_spec held s fss i fs r hdr a x l Hinv Hi Hr Har Hsd) as Hc. cbn zeta in Hc. fold f in Hc.
  assert (Hfsub : forall b, In b (all_addrs fs) -> In b (pbufs_of fss)).
  { intros b Hb. rewrite <- (take_drop_middle _ _ _ Hi), pbufs_of_app, pbufs_of_cons, !in_app_iff. auto. }
  assert (Hsub : forall b, In b (f_addrs f ++ all_addrs fs) -> In b (f_addrs f ++ pbufs_of fss)).
  { intros b. rewrite !in_app_iff. intros [Hb|Hb]; auto. }
  pose proof (inv_lengths held _ _ _ Hinv) as Hlen. unfold take_frag.
  destruct (insert f None fs true) as [[fs' v]|] eqn:Ei.
  2: { destruct Hc as (s' & E & [D1 D2 D3 D4 D5]). rewrite E, bind_ret. apply safely_ret. exists fss, []. constructor; auto.
    - split; [exact D2|]. rewrite D1, <- (list_insert_id _ _ _ Hr), <- (list_insert_id _ _ _ Hi).
      exact (settled_insert_all _ _ _ _ _ _ _ Hr Hi Hrest Hlen Hset).
    - intros b. rewrite in_app_iff. intros [Hb|Hb]; auto.
    - exact (untouched_weaken _ _ _ _ D4 Hsub). }
  destruct Hc as (l1 & l2 & s1 & Efs & Efs' & [L1 L2 L3 L4] & E). rewrite E.
  pose proof (insert_perm f fs fs' l1 l2 Efs Efs') as Hp1. pose proof (pbufs_of_insert _ _ _ _ _ Hi Hp1) as Hp2.
  assert (Hi' : <[i := fs']> fss !! i = Some fs') by (apply list_lookup_insert_eq; apply lookup_lt_Some in Hi; exact Hi).
  destruct (inv_split _ _ _ _ _ _ L2 Hi') as (r1 & Hat).
  assert (Hr1 : r1 = with_p r (head_addr fs' None)).
  { pose proof (da_entry _ _ _ _ _ _ Hat) as Er. rewrite L1, list_lookup_insert_eq in Er by (apply lookup_lt_Some in Hr; exact Hr). now injection Er. }
  subst r1. destruct (looks_complete r v fs' f l2) eqn:Elc.
  - destruct (1 <? length fs')%nat eqn:Emany; [|apply safely_abort]. rewrite lwip_assert_true, bind_ret by reflexivity.
    destruct (last_end fs' =? rd_datagram_len r) eqn:Eend; [|apply safely_abort]. rewrite lwip_assert_true, !bind_ret by reflexivity.
    pose proof (looks_complete_deliverable _ _ _ _ _ _ _ Ei Efs' (da_nodup _ _ _ _ _ _ Hat) Elc Emany Eend) as Hdel.
    pose proof (da_ok _ _ _ _ _ _ Hat) as [Dp Ds Dl Dsm Di Dt]. pose proof Dl as Dl'. rewrite Efs' in Dl'.
    destruct (deliverable_length _ _ _ _ Hdel Dl') as [Hlen1 Hlen2].
    { pose proof (seg_starts _ _ _ Ds) as Hst. rewrite Efs' in Hst. apply Forall_app in Hst as [_ Hst]. now inversion Hst. }
    rewrite <- Efs' in Hlen1.
    destruct (deliver_spec held s1 _ i fs' prev L2 Hi' Hprev) as (r2 & q & lq & s2 & Er2 & E2 & Hown & Al & Ec & R1 & R2 & R3 & R4).
    { rewrite Efs'. now destruct l1. } { lia. }
    rewrite (da_entry _ _ _ _ _ _ Hat) in Er2. injection Er2 as <-. rewrite E2. apply safely_ret.
    exists (delete i (<[i := fs']> fss)), (all_addrs fs'). constructor.
    + split; [exact R3|]. rewrite R1, L1, !delete_insert_same. exact Hrest.
    + destruct fs' as [|g t] eqn:Egt; [now destruct l1|].
      assert (Eg : f_hdr g = rd_iphdr r).
      { pose proof (de_start _ _ _ _ Hdel) as H0. rewrite <- Efs' in H0. cbn [starts_at_0] in H0. apply Z.eqb_eq in H0.
        destruct Hset as [(_ & _ & Eg)|[_ Hn]]; [exact Eg|contradiction]. }
      cbn [with_p rd_iphdr rd_datagram_len] in *. apply (Delivered f (re_store s2) q _ (rd_datagram_len r) g l1 l2 t lq); auto.
      * eapply Forall_impl; [exact (Forall_inv_tail Dsm)|]. intros h Hh. now rewrite Eg.
      * rewrite Ec, Eg. unfold u16, IP_HLEN. rewrite Z.mod_small; [reflexivity|].
        rewrite Efs' in Hlen1. lia.
    + intros b Hb. rewrite R2. split; [exact (da_disj _ _ _ _ _ _ Hat b Hb)|exact (da_held _ _ _ _ _ _ Hat b Hb)].
    + intros b Hb. apply (Permutation_in _ (Permutation_sym Hp2)) in Hb.
      apply (Permutation_in _ (da_perm _ _ _ _ _ _ Hat)), in_app_iff in Hb. tauto.
    + congruence.
    + apply (untouched_trans _ _ (re_store s1)); [exact (untouched_weaken _ _ _ _ L4 Hsub)|].
      eapply untouched_weaken; [exact R4|]. intros b Hb. apply Hsub. apply (Permutation_in _ Hp1). exact Hb.
  - rewrite bind_ret. apply safely_ret. exists (<[i := fs']> fss), []. constructor; auto.
    + split; [exact L2|]. rewrite L1. exact (settled_insert_all _ _ _ _ (with_p r _) _ _ Hr Hi Hrest Hlen Hset).
    + intros b Hb. right. left. apply (Permutation_in _ (Permutation_sym Hp2)). exact Hb.
    + exact (untouched_weaken _ _ _ _ L4 Hsub).
Qed.

Context (icmp_time_exceeded : addr -> Z -> store -> W -> M (store * W)) `{!QuietIcmp held icmp_time_exceeded}.

Lemma drop_frag_spec s fss s1 fss1 f :
  reass_ok held s fss -> thinned held s fss s1 fss1 ->
  whole_packet (re_store s1) (f_addr f) (f_head f) (f_tail f) ->
  (forall b, In b (f_addrs f) -> ~ In b (pbufs_of fss1) /\ ~ In b (held (re_world s1))) ->
  safely (drop_frag (f_addr f) s1) (fun '(res, s') => exists fss' own, reassembled s fss f res s' fss' own).
Proof.
  intros Hok [[Hinv1 Hset1] (gone & Hev & Hperm)] Hp Hfree. unfold drop_frag.
  destruct (whole_free _ _ _ _ Hp) as (k & st2 & E & R). rewrite E, bind_ret. apply safely_ret. exists fss1, [].
  apply (stepped_reassembled s fss gone s1 fss1); [exact Hev|exact Hperm|].
  assert (Hun : untouched (f_addrs f ++ pbufs_of fss1) (re_store s1) st2).
  { intros b Hb. apply (proj2 R). intros Hb'. apply Hb, in_app_iff. now left. }
  constructor; auto; cbn [set_re_store re_store re_world].
  - split; [|exact Hset1]. destruct Hinv1 as [Ha Hnd Hc Hm Hpe Hh Hac]. constructor; auto.
    + eapply datagrams_agree; [|exact Ha]. eapply removed_agree; [exact R|]. intros b Hb Hb'. exact (proj1 (Hfree b Hb') Hb).
    + apply (accounted_untouched held (f_addrs f) (re_store s1)); [exact (removed_untouched _ _ _ R)| |exact Hac].
      intros b Hb. exact (proj2 (Hfree b Hb)).
  - intros b. rewrite in_app_iff. intros [Hb|Hb]; [|auto]. right. right. exact (proj1 (proj1 R b Hb)).
Qed.

Lemma arriving_same s fss hdr a x l s' :
  arriving held s fss hdr a x l -> re_store s' = re_store s -> re_world s' = re_world s -> arriving held s' fss hdr a x l.
Proof. intros [A1 A2 A3 A4 A5] E1 E2. constructor; rewrite ?E1, ?E2; auto. Qed.

(** The flag and the length that the last fragment sets. *)
Definition mark_last (hdr : list Z) (i : nat) (r : ip_reassdata) (s : reass W) : reass W :=
  if Z.land (ntohs (IPH_OFFSET hdr)) IP_MF =? 0 then set_re_entry i (with_last r (u16 (frag_offset hdr + frag_len hdr))) s else s.

(** A place was found for the fragment. *)
Lemma placed_frag_spec s fss hdr a x l i prev s2 fss2 clen :
  let f := frag_of (st_mem (re_store s)) hdr a x l in
  arriving held s fss hdr a x l -> placed held hdr s fss i prev s2 fss2 -> clen = Z.of_nat (S (length l)) ->
  ip_reass_pbufcount s2 + clen <= IP_REASS_MAX_PBUFS ->
  let s3 := set_pbufcount (ip_reass_pbufcount s2 + clen) s2 in
  safely (r <- re_entry s3 i;; take_frag i prev a (mark_last hdr i r s3))
    (fun '(res, s') => exists fss' own, reassembled s fss f res s' fss' own).
Proof.
  intros f Har [P1 P2 P3 P4 P5 P6 P7 (gone & Hev & Hperm)] -> Hmax s3.
  destruct (arriving_evolves _ _ _ _ _ _ _ _ _ Har Hev Hperm) as [Har2 Ef].
  destruct (lookup_lt_is_Some_2 fss2 i P3) as (fs & Hi). destruct (inv_split _ _ _ _ _ _ P1 Hi) as (r & Hat).
  pose proof (da_entry _ _ _ _ _ _ Hat) as Hr. unfold re_entry. cbn [s3 set_pbufcount reassdatagrams]. rewrite Hr, bind_ret.
  assert (Hinv3 : reass_inv held s3 fss2 (Z.of_nat (S (length l)))).
  { apply count_inv; [exact P1|lia|exact Hmax]. }
  set (s4 := mark_last hdr i r s3). set (r4 := if Z.land (ntohs (IPH_OFFSET hdr)) IP_MF =? 0
    then with_last r (u16 (frag_offset hdr + frag_len hdr)) else r).
  assert (H4 : reass_inv held s4 fss2 (Z.of_nat (S (length l))) /\ reassdatagrams s4 !! i = Some r4 /\
               delete i (reassdatagrams s4) = delete i (reassdatagrams s2) /\ re_store s4 = re_store s2 /\ re_world s4 = re_world s2 /\
               rd_iphdr r4 = rd_iphdr r).
  { unfold s4, r4, mark_last. destruct (_ =? 0); [|repeat (split; [assumption || reflexivity|]); reflexivity]. split.
    - apply (set_entry_inv _ _ _ _ _ r _ fs); auto. destruct (da_ok _ _ _ _ _ _ Hat). now constructor.
    - cbn [set_re_entry reassdatagrams]. rewrite list_lookup_insert_eq by (apply lookup_lt_Some in Hr; exact Hr).
      rewrite delete_insert_same. auto. }
  destruct H4 as (Hinv4 & Hr4 & Hd4 & Hst4 & Hw4 & Hh4).
  eapply safely_weaken.
  - apply (take_frag_spec s4 fss2 i fs r4 prev hdr a x l Hinv4 Hi Hr4).
    + apply (arriving_same s2); auto.
    + rewrite Hh4. now apply P4.
    + now rewrite Hd4.
    + rewrite Hh4. specialize (P5 r fs Hr Hi). unfold settled in *. rewrite Hh4. exact P5.
    + exact P6.
  - intros [res s'] (fss' & own & Hst). exists fss', own. rewrite Hst4, Ef in Hst.
    apply (stepped_reassembled s fss gone s4 fss2); [now rewrite Hst4, Hw4|exact Hperm|exact Hst].
Qed.

Lemma ip_reass_spec s fss hdr a x l :
  reass_ok held s fss -> incoming s fss hdr a x l ->
  safely (ip_reass icmp_time_exceeded a s)
    (fun '(res, s') => exists fss' own, reassembled s fss (frag_of (st_mem (re_store s)) hdr a x l) res s' fss' own).
Proof.
  intros Hok Hin. pose proof Hin as [Hp Hh Hf Hs Hl Hm H1]. unfold ip_reass.
  rewrite (fetch_some _ _ x) by (destruct (wp_packet _ _ _ _ Hp) as [Hc _]; now inversion Hc).
  rewrite bind_ret, (load_header _ _ _ _ Hp), bind_ret, <- Hh.
  set (f := frag_of (st_mem (re_store s)) hdr a x l).
  destruct (Z.eqb_spec (IPH_HL hdr * 4) IP_HLEN) as [Ehl|Ehl]; cbn [negb].
  2: { exact (drop_frag_spec s fss s fss f Hok (thinned_refl _ _ _ Hok) Hp Hf). }
  pose proof (incoming_arriving _ _ _ _ _ _ Hin Ehl) as Har.
  pose proof (header_length _ _ _ _ _ _ Hin) as Hlh.
  assert (Hdrop : forall s1 fss1, thinned held s fss s1 fss1 ->
    safely (drop_frag a s1) (fun '(res, s') => exists fss' own, reassembled s fss f res s' fss' own)).
  { intros s1 fss1 Hth. pose proof Hth as [_ (gone & Hev & Hperm)].
    destruct (arriving_evolves _ _ _ _ _ _ _ _ _ Har Hev Hperm) as [[A1 A2 A3 _ _] _].
    exact (drop_frag_spec s fss s1 fss1 f Hok Hth A1 A3). }
  rewrite (whole_clen _ _ _ _ Hp Hs), bind_ret.
  eapply safely_bind; [exact (make_room_spec held icmp_time_exceeded hdr _ s fss Hok)|]. intros [room s1] (fss1 & Hth1 & Hroom).
  destruct room; [|exact (Hdrop _ _ Hth1)]. specialize (Hroom eq_refl). cbn [negb].
  eapply safely_bind; [exact (datagram_of_spec held icmp_time_exceeded hdr (Z.of_nat (S (length l))) s1 fss1 (proj1 Hth1) Hlh)|].
  intros [[[i prev]|] s2].
  - intros (fss2 & Hpl). pose proof (pl_count _ _ _ _ _ _ _ _ Hpl) as Hcnt.
    apply (placed_frag_spec s fss hdr a x l i prev s2 fss2 _ Har (thinned_placed _ _ _ _ _ _ _ _ _ _ Hok Hth1 Hpl) eq_refl). lia.
  - intros (fss2 & Hth2). exact (Hdrop _ _ (thinned_trans _ _ _ _ _ _ _ Hth1 Hth2)).
Qed.
End Correct.


Definition nonempty (f : frag) : Prop := f_start f < f_end f.

Lemma insert_append f prev fs v :
  (match prev with Some p => f_end p <= f_start f | None => True end) ->
  contiguous prev fs -> Forall nonempty fs -> touches (last_frag prev fs) (f_start f) = true ->
  insert f prev fs v = Some (fs ++ [f], v).
Proof.
  revert prev v. induction fs as [|g fs IH]; intros prev v Hp Hc Hn Ht; cbn [insert last_frag contiguous app] in *.
  - now rewrite Ht, andb_true_r.
  - destruct Hc as [Hg Hc]. inversion Hn as [|? ? Hng Hn']; subst. unfold nonempty in Hng.
    assert (Hge : f_end g <= f_start f).
    { clear - Hc Hn' Hng Ht. revert g Hng Hc Ht. induction fs as [|h fs IH]; intros g Hng Hc Ht; cbn [last_frag touches contiguous] in *.
      - apply Z.eqb_eq in Ht. lia.
      - destruct Hc as [Hh Hc]. inversion Hn' as [|? ? Hnh Hn2]; subst. apply Z.eqb_eq in Hh. unfold nonempty in Hnh.
        specialize (IH Hn2 h Hnh Hc Ht). lia. }
    destruct (Z.ltb_spec (f_start f) (f_start g)); [lia|]. destruct (Z.eqb_spec (f_start f) (f_start g)); [lia|].
    destruct (Z.ltb_spec (f_start f) (f_end g)); [lia|]. cbn [orb]. rewrite (IH (Some g) _ Hge Hc Hn' Ht). now rewrite Hg, andb_true_r.
Qed.

Lemma contiguous_app prev l1 l2 : contiguous prev (l1 ++ l2) <-> contiguous prev l1 /\ contiguous (last_frag prev l1) l2.
Proof.
  revert prev. induction l1 as [|g l1 IH]; intros prev; cbn [app contiguous last_frag]; [tauto|]. rewrite IH. tauto.
Qed.

Definition more_fragments (hdr : list Z) : bool := negb (Z.land (ntohs (IPH_OFFSET hdr)) IP_MF =? 0).

Section Order.
Context {W : Type} (held : W -> list addr).
Context (icmp_time_exceeded : addr -> Z -> store -> W -> M (store * W)).

(** The packets are handed over one after the other. *)
Fixpoint ip_reass_all (ps : list addr) (s : reass W) : M (list (option addr) * reass W) :=
  match ps with
  | [] => ret ([], s)
  | p :: ps' =>
      '(r, s) <- ip_reass icmp_time_exceeded p s;;
      '(rs, s) <- ip_reass_all ps' s;;
      ret (r :: rs, s)
  end.

(** A fragment that is still to be handed over. *)
Record waiting (s : reass W) (fss : list (list frag)) (hdr0 : list Z) (f : frag) : Prop := Waiting
  { wa_in : incoming held s fss (f_hdr f) (f_addr f) (f_head f) (f_tail f);
    wa_hl : IPH_HL (f_hdr f) * 4 = IP_HLEN;
    wa_frag : f = frag_of (st_mem (re_store s)) (f_hdr f) (f_addr f) (f_head f) (f_tail f);
    wa_same : same_datagram hdr0 (f_hdr f); wa_nonempty : nonempty f }.

Lemma waiting_untouched s fss hdr0 f bs s' fss' :
  waiting s fss hdr0 f -> untouched bs (re_store s) (re_store s') -> re_world s' = re_world s ->
  (forall b, In b (f_addrs f) -> ~ In b bs) -> (forall b, In b (pbufs_of fss') -> In b (pbufs_of fss) \/ In b bs) ->
  waiting s' fss' hdr0 f.
Proof.
  intros [[Hp Hh Hf Hs Hl Hm H1] Hhl Hfr Hsd Hne] Hun Hw Hd Hsub.
  assert (Hag : agree (re_store s) (re_store s') (f_addr f :: map fst (f_tail f))) by exact (untouched_agree _ _ _ _ Hun Hd).
  destruct (owned_ext (st_mem (re_store s)) (st_mem (re_store s')) _ (wp_owns _ _ _ _ Hp)) as [Ec _].
  { intros b Hb. exact (proj2 (Hag b Hb)). }
  constructor; [|exact Hhl| |exact Hsd|exact Hne].
  - constructor; auto.
    + exact (whole_packet_agree _ _ _ _ _ Hag Hp).
    + rewrite Hh at 1. f_equal. pose proof (wp_owns _ _ _ _ Hp) as Ho. inversion Ho as [|? ? [o Hx] _]; subst. cbn [fst snd] in Hx.
      rewrite !(owned_block _ _ _ _ Hx). unfold block. now rewrite (proj2 (Hag (f_addr f) (or_introl eq_refl))).
    + intros b Hb. rewrite Hw. split; [|now apply Hf]. intros Hb'. destruct (Hsub b Hb') as [H|H]; [exact (proj1 (Hf b Hb) H)|exact (Hd b Hb H)].
  - rewrite Hfr at 1. unfold frag_of. now rewrite Ec.
Qed.

Lemma waiting_arriving s fss hdr0 f : waiting s fss hdr0 f -> arriving held s fss (f_hdr f) (f_addr f) (f_head f) (f_tail f).
Proof. intros [Hin Hhl _ _ _]. now apply incoming_arriving. Qed.

(** The datagram at the head of the list has the fragments [done], and the
    last one is not among them. *)
Record partial_datagram (s : reass W) (fss : list (list frag)) (done : list frag) (r : ip_reassdata)
    (rds : list ip_reassdata) : Prop := PartialDatagram
  { pa_entries : reassdatagrams s = r :: rds; pa_flags : Z.land (rd_flags r) IP_REASS_FLAG_LASTFRAG = 0;
    pa_inv : reass_inv held s (done :: fss) 0; pa_rest : Forall2 settled rds fss;
    pa_start : starts_at_0 done = true; pa_contiguous : contiguous None done; pa_nonempty : Forall nonempty done }.

(** The steps of [ip_reass] before the fragment is linked. *)
Definition counted (f : frag) (r : ip_reassdata) (s : reass W) : reass W :=
  mark_last (f_hdr f) 0 r (set_pbufcount (ip_reass_pbufcount s + Z.of_nat (length (f_addrs f))) s).

Lemma clen_value f : length (f_addrs f) = S (length (f_tail f)).
Proof. unfold f_addrs, f_pbufs. cbn [map length]. now rewrite length_map. Qed.

Lemma reass_until_place s fss hdr0 f :
  waiting s fss hdr0 f -> ip_reass_pbufcount s + Z.of_nat (length (f_addrs f)) <= IP_REASS_MAX_PBUFS ->
  ip_reass icmp_time_exceeded (f_addr f) s =
    ('(found, s) <- datagram_of icmp_time_exceeded (f_hdr f) (Z.of_nat (length (f_addrs f))) s;;
     match found with
     | None => drop_frag (f_addr f) s
     | Some (ipr, prev) =>
         let s := set_pbufcount (ip_reass_pbufcount s + Z.of_nat (length (f_addrs f))) s in
         r <- re_entry s ipr;;
         take_frag ipr prev (f_addr f) (mark_last (f_hdr f) ipr r s)
     end).
Proof.
  intros [[Hp Hh _ Hs _ _ _] Hhl _ _ _] Hc. unfold ip_reass.
  rewrite (fetch_some _ _ (f_head f)) by (destruct (wp_packet _ _ _ _ Hp) as [Hk _]; now inversion Hk).
  rewrite bind_ret, (load_header _ _ _ _ Hp), bind_ret, <- Hh, Hhl. cbn [negb Z.eqb IP_HLEN Pos.eqb].
  rewrite (whole_clen _ _ _ _ Hp Hs), bind_ret, <- clen_value. unfold make_room.
  destruct (Z.ltb_spec IP_REASS_MAX_PBUFS (ip_reass_pbufcount s + Z.of_nat (length (f_addrs f)))); [lia|].
  rewrite bind_ret. reflexivity.
Qed.

Lemma counted_inv s fss done r rds f :
  partial_datagram s fss done r rds -> ip_reass_pbufcount s + Z.of_nat (length (f_addrs f)) <= IP_REASS_MAX_PBUFS ->
  reass_inv held (counted f r s) (done :: fss) (Z.of_nat (length (f_addrs f))) /\
  exists r4, reassdatagrams (counted f r s) = r4 :: rds /\ rd_iphdr r4 = rd_iphdr r /\
    re_store (counted f r s) = re_store s /\ re_world (counted f r s) = re_world s /\
    (if more_fragments (f_hdr f) then r4 = r else r4 = with_last r (u16 (frag_offset (f_hdr f) + frag_len (f_hdr f)))).
Proof.
  intros [Pe Pf Pi Pr Ps Pc Pn] Hmax. pose proof (ri_all _ _ _ _ Pi) as Ha.
  set (s3 := set_pbufcount (ip_reass_pbufcount s + Z.of_nat (length (f_addrs f))) s).
  assert (Hinv3 : reass_inv held s3 (done :: fss) (Z.of_nat (length (f_addrs f)))).
  { apply count_inv; [exact Pi|lia|exact Hmax]. }
  unfold counted, mark_last, more_fragments. fold s3. destruct (_ =? 0); cbn [negb].
  - split.
    + apply (set_entry_inv _ _ _ _ _ r _ done); auto; [cbn; now rewrite Pe|]. rewrite Pe in Ha. inversion Ha as [|? ? ? ? Hd _]; subst.
      destruct Hd. now constructor.
    + eexists. cbn [set_re_entry reassdatagrams s3 set_pbufcount]. rewrite Pe. repeat (split; [reflexivity|]). reflexivity.
  - split; [exact Hinv3|]. exists r. repeat (split; [assumption || reflexivity|]). reflexivity.
Qed.

(** The fragment that follows is linked at the end. *)
Lemma append_step s fss done r rds hdr0 f :
  partial_datagram s fss done r rds -> rd_iphdr r = hdr0 -> waiting s (done :: fss) hdr0 f ->
  touches (last_frag None done) (f_start f) = true ->
  ip_reass_pbufcount s + Z.of_nat (length (f_addrs f)) <= IP_REASS_MAX_PBUFS ->
  exists s', linked held (counted f r s) (done :: fss) 0
      (if more_fragments (f_hdr f) then r else with_last r (u16 (frag_offset (f_hdr f) + frag_len (f_hdr f)))) f done (done ++ [f]) s' /\
    ip_reass icmp_time_exceeded (f_addr f) s =
      (if more_fragments (f_hdr f) then ret (None, s') else deliver 0 None s').
Proof.
  intros Hpa Hhdr Hwa Ht Hmax. pose proof Hpa as [Pe Pf Pi Pr Ps Pc Pn].
  destruct (counted_inv _ _ _ _ _ f Hpa Hmax) as (Hinv4 & r4 & Hr4 & Hh4 & Hst4 & Hw4 & Hr4').
  pose proof Hwa as [Hin Hhl Hfr Hsd Hne]. pose proof (in_packet _ _ _ _ _ _ _ Hin) as Hp.
  pose proof (waiting_arriving _ _ _ _ Hwa) as Har.
  assert (Hfst : f_start f = frag_offset (f_hdr f)) by (rewrite Hfr at 1; reflexivity).
  assert (Hend : f_end f = u16 (frag_offset (f_hdr f) + frag_len (f_hdr f))) by (rewrite Hfr at 1; reflexivity).
  assert (Hpos : 0 < f_start f).
  { destruct (last_frag_cases None done) as [[-> _]|(l & p & Ed & El)]; [discriminate|]. rewrite El in Ht. cbn [touches] in Ht.
    apply Z.eqb_eq in Ht. rewrite Ed in Pn. apply Forall_app in Pn as [_ Pn]. inversion Pn as [|? ? Hnp _]; subst. unfold nonempty in Hnp.
    destruct Pi as [Ha _ _ _ _ _]. rewrite Pe in Ha. inversion Ha as [|? ? ? ? Hd _]; subst.
    pose proof (seg_starts _ _ _ (do_seg _ _ _ Hd)) as Hss. apply Forall_app in Hss as [_ Hss]. inversion Hss; subst. lia. }
  assert (Hdg : datagram_of icmp_time_exceeded (f_hdr f) (Z.of_nat (length (f_addrs f))) s = ret (Some (O, None), s)).
  { unfold datagram_of, re_entry. rewrite Pe. cbn [find_datagram]. unfold same_datagram in Hsd. rewrite Hhdr, Hsd. cbn [lookup list_lookup].
    rewrite bind_ret. fold (is_first (f_hdr f)). rewrite is_first_offset, <- Hfst.
    destruct (Z.eqb_spec (f_start f) 0); [lia|]. reflexivity. }
  assert (Hmem : frag_of (st_mem (re_store (counted f r s))) (f_hdr f) (f_addr f) (f_head f) (f_tail f) = f) by (rewrite Hst4; now symmetry).
  pose proof (chain_frag_spec held (counted f r s) (done :: fss) 0 done r4 (f_hdr f) (f_addr f) (f_head f) (f_tail f)) as Hc.
  rewrite clen_value in Hinv4. rewrite Hmem in Hc. cbn zeta in Hc.
  rewrite (insert_append f None done true I Pc Pn Ht) in Hc.
  destruct Hc as (l1 & l2 & s' & E1 & E2 & Hli & Ech); [exact Hinv4|reflexivity|now rewrite Hr4| | |].
  { exact (arriving_same held s _ _ _ _ _ _ Har Hst4 Hw4). } { now rewrite Hh4, Hhdr. }
  assert (Er4 : r4 = if more_fragments (f_hdr f) then r else with_last r (u16 (frag_offset (f_hdr f) + frag_len (f_hdr f)))) by (destruct (more_fragments (f_hdr f)); exact Hr4').
  rewrite <- Er4. exists s'. split; [exact Hli|].
  rewrite (reass_until_place s (done :: fss) hdr0 f Hwa Hmax), Hdg, bind_ret. unfold re_entry. cbn [set_pbufcount reassdatagrams].
  rewrite Pe. cbn [lookup list_lookup]. rewrite bind_ret. fold (counted f r s). unfold take_frag. rewrite Ech.
  assert (Hl2 : l2 = []).
  { pose proof (li_inv _ _ _ _ _ _ _ _ _ Hli) as Hi'. cbn [insert list_insert] in Hi'. pose proof (ri_nodup _ _ _ _ Hi') as Hnd.
    change (<[0%nat := done ++ [f]]> (done :: fss)) with ((done ++ [f]) :: fss) in Hnd. rewrite pbufs_of_cons in Hnd.
    apply NoDup_app_remove_r in Hnd. destruct (split_unique done f [] l1 l2 Hnd E2) as [_ <-]. reflexivity. }
  subst l2. unfold looks_complete. cbn [gapless]. rewrite andb_true_r.
  assert (Hs0 : starts_at_0 (done ++ [f]) = true) by (destruct done; [discriminate|exact Ps]). rewrite Hs0, andb_true_r, andb_true_r.
  destruct (more_fragments (f_hdr f)); subst r4.
  - rewrite Pf. cbn [Z.eqb negb]. now rewrite bind_ret.
  - cbn [with_last rd_flags rd_datagram_len]. rewrite Z.land_lor_distr_l, Pf. cbn [Z.lor Z.land IP_REASS_FLAG_LASTFRAG Pos.land Z.eqb negb].
    assert (Hmany : (1 <? length (done ++ [f]))%nat = true).
    { apply Nat.ltb_lt. rewrite length_app. destruct done; [discriminate|]. cbn [length]. lia. }
    rewrite Hmany. unfold last_end. rewrite last_frag_snoc, <- Hend, Z.eqb_refl, !lwip_assert_true, !bind_ret by reflexivity. reflexivity.
Qed.

(** The first fragment starts the datagram. *)
Lemma first_step s fss f :
  reass_ok held s fss -> waiting s fss (f_hdr f) f -> f_start f = 0 -> more_fragments (f_hdr f) = true ->
  Forall (fun r => IP_ADDRESSES_AND_ID_MATCH (rd_iphdr r) (f_hdr f) = false) (reassdatagrams s) ->
  ip_reass_pbufcount s + Z.of_nat (length (f_addrs f)) <= IP_REASS_MAX_PBUFS ->
  runs NoFail (ip_reass icmp_time_exceeded (f_addr f) s)
    (fun '(res, s') => res = None /\
       exists r, rd_iphdr r = f_hdr f /\ partial_datagram s' fss [f] r (reassdatagrams s) /\ re_world s' = re_world s /\
         untouched (f_addrs f) (re_store s) (re_store s') /\
         ip_reass_pbufcount s' = ip_reass_pbufcount s + Z.of_nat (length (f_addrs f))) no_err.
Proof.
  intros [Hinv Hset] Hwa H0 Hmore Hnone Hmax. rewrite (reass_until_place s fss _ f Hwa Hmax).
  pose proof Hwa as [Hin Hhl Hfr Hsd Hne].
  set (r := Reassdata None (f_hdr f) 0 0 IP_REASS_MAXAGE).
  set (s1 := Reass (r :: reassdatagrams s) (ip_reass_pbufcount s) (re_store s) (re_world s)).
  assert (Hdg : forall h, ok_heap NoFail h -> exists h', ok_heap NoFail h' /\
    datagram_of icmp_time_exceeded (f_hdr f) (Z.of_nat (length (f_addrs f))) s h = (Ok (Some (O, snd (find_datagram (f_hdr f) 0 None (reassdatagrams s))), s1), h')).
  { intros h Hh. pose proof (find_datagram_spec (f_hdr f) (reassdatagrams s) 0) as Hf. cbn [pred_of] in Hf. unfold datagram_of.
    destruct (find_datagram (f_hdr f) 0 None (reassdatagrams s)) as [[j|] prev].
    { destruct Hf as (_ & _ & r' & Hr' & Hm). exfalso. pose proof (Forall_lookup_1 _ _ _ _ Hnone Hr') as Hx. cbn in Hx. congruence. }
    unfold ip_reass_enqueue_new_datagram, bind, malloc, ret. inversion Hh as [|? ? <- Hh']; subst; [exists []|eexists]; split; eauto. }
  intros h Hh. destruct (Hdg h Hh) as (h' & Hh' & Ed). unfold bind at 1. rewrite Ed.
  assert (Hinv1 : reass_inv held s1 ([] :: fss) 0).
  { apply cons_inv; [exact Hinv|]. constructor; cbn; auto; [|unfold IP_REASS_MAXAGE; lia].
    exact (header_length _ _ _ _ _ _ _ Hin). }
  set (s3 := set_pbufcount (ip_reass_pbufcount s + Z.of_nat (length (f_addrs f))) s1).
  assert (Hinv3 : reass_inv held s3 ([] :: fss) (Z.of_nat (length (f_addrs f)))) by (apply (count_inv held s1); [exact Hinv1|lia|exact Hmax]).
  pose proof (chain_frag_spec held s3 ([] :: fss) 0 [] r (f_hdr f) (f_addr f) (f_head f) (f_tail f)) as Hc.
  rewrite clen_value in Hinv3. change (re_store s3) with (re_store s) in Hc. rewrite <- Hfr in Hc. cbn zeta in Hc. cbn [insert touches andb] in Hc.
  destruct Hc as (l1 & l2 & s' & E1 & E2 & Hli & Ech); [exact Hinv3|reflexivity|reflexivity| |exact Hsd|].
  { destruct (waiting_arriving _ _ _ _ Hwa) as [A1 A2 A3 A4 A5]. constructor; auto. }
  assert (Es3 : mark_last (f_hdr f) 0 r s3 = s3).
  { unfold mark_last. unfold more_fragments in Hmore. apply negb_true_iff in Hmore. now rewrite Hmore. }
  assert (Es : forall prev, (r0 <- re_entry s3 0;; take_frag 0 prev (f_addr f) (mark_last (f_hdr f) 0 r0 s3)) = ret (None, s')).
  { intros prev. change (re_entry s3 0) with (@ret ip_reassdata r). rewrite bind_ret, Es3. unfold take_frag. rewrite Ech.
    change (looks_complete r true [f] f l2) with false. cbv iota. now rewrite bind_ret. }
  cbv zeta. change (set_pbufcount (ip_reass_pbufcount s1 + _) s1) with s3. rewrite Es. unfold ret.
  split; [exact Hh'|]. split; [reflexivity|]. destruct Hli as [L1 L2 L3 L4].
  exists (with_p r (Some (f_addr f))). split; [reflexivity|].
  change (<[0%nat := [f]]> ([] :: fss)) with ([f] :: fss) in L2. split; [|split; [exact L3|split]].
  - constructor; auto; cbn; rewrite ?H0; auto.
  - intros b Hb. apply L4. unfold all_addrs. cbn [map concat]. now rewrite app_nil_r.
  - rewrite (ri_count _ _ _ _ L2), (ri_count _ _ _ _ Hinv), pbufs_of_cons, all_addrs_cons, app_nil_r, length_app. lia.
Qed.

(** All fragments but the last announce more. *)
Fixpoint marked (fs : list frag) : Prop :=
  match fs with
  | [] => False
  | f :: fs' =>
      match fs' with
      | [] => more_fragments (f_hdr f) = false
      | _ => more_fragments (f_hdr f) = true /\ marked fs'
      end
  end.

(** The datagram that comes out. *)
Definition joined_as (st : store) (q : addr) (hdr : list Z) (fs : list frag) : Prop :=
  exists l, own_packet st q l /\ map fst l = all_addrs fs /\
    content (st_mem st) l = joined_header hdr (Z.of_nat (length (all_data fs)) + IP_HLEN) ++ all_data fs.

Lemma list_insert_0 {A} (x y : A) l : <[0%nat := x]> (y :: l) = x :: l.
Proof. reflexivity. Qed.

(** After a fragment in the middle the datagram waits for the next one. *)
Lemma linked_partial s fss done r rds f s' :
  partial_datagram s fss done r rds -> nonempty f -> touches (last_frag None done) (f_start f) = true ->
  linked held (counted f r s) (done :: fss) 0 r f done (done ++ [f]) s' -> more_fragments (f_hdr f) = true ->
  ip_reass_pbufcount s + Z.of_nat (length (f_addrs f)) <= IP_REASS_MAX_PBUFS ->
  partial_datagram s' fss (done ++ [f]) (with_p r (head_addr (done ++ [f]) None)) rds /\
  untouched (f_addrs f ++ all_addrs done) (re_store s) (re_store s') /\ re_world s' = re_world s /\
  ip_reass_pbufcount s' = ip_reass_pbufcount s + Z.of_nat (length (f_addrs f)).
Proof.
  intros Hpa Hne Ht [L1 L2 L3 L4] Hmore Hmax. pose proof Hpa as [Pe Pf Pi Pr Ps Pc Pn].
  destruct (counted_inv _ _ _ _ _ f Hpa Hmax) as (_ & r4 & Hr4 & _ & Hst4 & Hw4 & _).
  rewrite list_insert_0 in L2. rewrite Hr4, list_insert_0 in L1. rewrite Hst4 in L4. rewrite Hw4 in L3.
  split; [|split; [exact L4|split; [exact L3|]]].
  - constructor; auto.
    + destruct done; [discriminate|exact Ps].
    + apply contiguous_app. split; [exact Pc|]. now split.
    + apply Forall_app. split; [exact Pn|]. now constructor.
  - rewrite (ri_count _ _ _ _ L2), (ri_count _ _ _ _ Pi), !pbufs_of_cons, all_addrs_app, !length_app.
    unfold all_addrs at 2. cbn [map concat]. rewrite app_nil_r. lia.
Qed.

Lemma rest_steps rest s fss done r rds hdr0 :
  partial_datagram s fss done r rds -> rd_iphdr r = hdr0 -> Forall (waiting s (done :: fss) hdr0) rest ->
  List.NoDup (all_addrs rest) -> contiguous (last_frag None done) rest -> marked rest ->
  ip_reass_pbufcount s + Z.of_nat (length (all_addrs rest)) <= IP_REASS_MAX_PBUFS ->
  exists q s', ip_reass_all (map f_addr rest) s = ret (repeat None (length rest - 1) ++ [Some q], s') /\
    reass_ok held s' fss /\ reassdatagrams s' = rds /\ joined_as (re_store s') q hdr0 (done ++ rest).
Proof.
  revert s done r. induction rest as [|f rest IH]; intros s done r Hpa Hhdr Hwa Hnd Hc Hmk Hmax; [destruct Hmk|].
  inversion Hwa as [|? ? Hf Hrest]; subst x l. destruct Hc as [Ht Hc]. rewrite all_addrs_cons in Hnd, Hmax. rewrite length_app in Hmax.
  destruct (append_step s fss done r rds hdr0 f Hpa Hhdr Hf Ht) as (s1 & Hli & E1); [lia|].
  cbn [map ip_reass_all]. rewrite E1. destruct rest as [|g rest].
  - cbn [marked] in Hmk. rewrite Hmk in *. cbn [length repeat app Nat.sub].
    destruct Hli as [L1 L2 L3 L4]. rewrite list_insert_0 in L2.
    destruct (counted_inv _ _ _ _ _ f Hpa) as (_ & r4 & Hr4 & _); [lia|]. rewrite Hr4, list_insert_0 in L1.
    pose proof Hpa as [Pe Pf Pi Pr Ps Pc Pn].
    pose proof (ri_all _ _ _ _ L2) as Ha. rewrite L1 in Ha. inversion Ha as [|? ? ? ? Hd _]; subst x y l l'.
    assert (Hc2 : contiguous None (done ++ [f])) by (apply contiguous_app; split; [exact Pc|now split]).
    assert (Hs2 : starts_at_0 (done ++ [f]) = true) by (destruct done; [discriminate|exact Ps]).
    pose proof (contiguous_length_0 _ Hs2 Hc2 (do_legal _ _ _ Hd)) as Hlen. rewrite last_frag_snoc in Hlen. cbn [end_of] in Hlen.
    assert (Hfm : f_end f <= 65515).
    { pose proof (do_legal _ _ _ Hd) as Hl. apply Forall_app in Hl as [_ Hl]. inversion Hl as [|? ? [_ _ Hm] _]. exact Hm. }
    destruct (deliver_spec held s1 ((done ++ [f]) :: fss) 0 (done ++ [f]) None L2 eq_refl) as
      (r2 & q & l & s2 & Er2 & E2 & Hown & Al & Ec & R1 & R2 & R3 & R4); [now left|now destruct done|lia|].
    rewrite L1 in Er2. injection Er2 as <-. exists q, s2. rewrite E2, !bind_ret.
    split; [reflexivity|]. rewrite L1 in R1. split; [|split; [exact R1|]].
    { split; [exact R3|]. rewrite R1. exact Pr. }
    exists l. split; [exact Hown|]. split; [exact Al|]. rewrite Ec. cbn [with_p with_last rd_iphdr rd_datagram_len]. rewrite Hhdr, Hlen.
    destruct Hf as [_ _ Hfr _ _].
    assert (Hend : f_end f = u16 (frag_offset (f_hdr f) + frag_len (f_hdr f))) by (rewrite Hfr at 1; reflexivity).
    rewrite <- Hend. unfold u16, IP_HLEN. rewrite Z.mod_small; [reflexivity|]. lia.
  - destruct Hmk as [Hmk1 Hmk]. rewrite Hmk1 in *. rewrite bind_ret.
    destruct (linked_partial _ _ _ _ _ _ _ Hpa (wa_nonempty _ _ _ _ Hf) Ht Hli Hmk1) as (Hpa1 & Hun & Hw & Hcnt); [lia|].
    destruct (IH s1 (done ++ [f]) (with_p r (head_addr (done ++ [f]) None)) Hpa1 Hhdr) as (q & s2 & E2 & Hok & Hrd & Hj).
    + apply List.Forall_forall. intros h Hh. rewrite List.Forall_forall in Hrest. pose proof (Hrest h Hh) as Hwh.
      apply (waiting_untouched s (done :: fss) hdr0 h (f_addrs f ++ all_addrs done)); auto.
      * intros b Hb. rewrite in_app_iff. intros [Hb'|Hb'].
        -- apply (NoDup_app_disj _ _ Hnd b Hb'). apply in_concat. exists (f_addrs h). split; [now apply in_map|exact Hb].
        -- apply (proj1 (in_free _ _ _ _ _ _ _ (wa_in _ _ _ _ Hwh) b Hb)). rewrite pbufs_of_cons, in_app_iff. now left.
      * intros b. rewrite !pbufs_of_cons, all_addrs_app, !in_app_iff. unfold all_addrs at 2. cbn [map concat]. rewrite app_nil_r. tauto.
    + exact (NoDup_app_remove_l _ _ Hnd).
    + rewrite last_frag_snoc. exact Hc.
    + exact Hmk.
    + lia.
    + rewrite <- app_assoc in Hj. exists q, s2. rewrite E2, bind_ret. split; [|auto]. cbn [length Nat.sub repeat app]. now rewrite ?Nat.sub_0_r.
Qed.

(** All fragments of a datagram, one after the other. *)
Lemma in_order_spec s fss f rest :
  reass_ok held s fss -> Forall (waiting s fss (f_hdr f)) (f :: rest) -> List.NoDup (all_addrs (f :: rest)) ->
  f_start f = 0 -> contiguous None (f :: rest) -> marked (f :: rest) -> rest <> [] ->
  Forall (fun r => IP_ADDRESSES_AND_ID_MATCH (rd_iphdr r) (f_hdr f) = false) (reassdatagrams s) ->
  ip_reass_pbufcount s + Z.of_nat (length (all_addrs (f :: rest))) <= IP_REASS_MAX_PBUFS ->
  runs NoFail (ip_reass_all (map f_addr (f :: rest)) s)
    (fun '(rs, s') => exists q, rs = repeat None (length rest) ++ [Some q] /\
       reass_ok held s' fss /\ reassdatagrams s' = reassdatagrams s /\ joined_as (re_store s') q (f_hdr f) (f :: rest)) no_err.
Proof.
  intros Hok Hwa Hnd H0 Hc Hm Hne Hnone Hmax. inversion Hwa as [|? ? Hf Hrest]; subst x l.
  rewrite all_addrs_cons in Hnd, Hmax. rewrite length_app in Hmax. destruct rest as [|g rest]; [contradiction|].
  cbn [map ip_reass_all]. eapply runs_bind.
  { apply (first_step s fss f Hok Hf H0); [apply Hm|exact Hnone|lia]. }
  intros [res s1] (-> & r & Hr & Hpa & Hw & Hun & Hcnt).
  destruct (rest_steps (g :: rest) s1 fss [f] r (reassdatagrams s) (f_hdr f) Hpa Hr) as (q & s2 & E & Hok2 & Hrd & Hj).
  - apply List.Forall_forall. intros h Hh. rewrite List.Forall_forall in Hrest.
    apply (waiting_untouched s fss (f_hdr f) h (f_addrs f)); auto.
    + intros b Hb Hb'. apply (NoDup_app_disj _ _ Hnd b Hb'). apply in_concat. exists (f_addrs h). split; [now apply in_map|exact Hb].
    + intros b. rewrite pbufs_of_cons, all_addrs_cons, app_nil_r, in_app_iff. tauto.
  - exact (NoDup_app_remove_l _ _ Hnd).
  - apply Hc.
  - apply Hm.
  - lia.
  - change (map f_addr (g :: rest)) with (f_addr g :: map f_addr rest) in E. cbn [ip_reass_all] in E. rewrite E, bind_ret.
    apply runs_ret. exists q. split; [cbn [length Nat.sub repeat app]; now rewrite Nat.sub_0_r|].
    split; [exact Hok2|]. split; [exact Hrd|exact Hj].
Qed.
End Order.
