(* ===== verification/IpReassTheorems.v ===== *)
(** * lwIP reassembly: the properties *)
From Stdlib Require Import ZArith List Lia Bool.
From stdpp Require Import base gmap list.
From S2P Require Import Prelude CMonad Pbuf PbufChain PbufData PbufEdit PbufAlloc.
From S2P Require Import Inet InetChksum ChksumSpec Netif IpHdr Frames IpReass.
From S2P Require Import IpReassMem IpReassInv IpReassStep IpReassOrder.
#[local] Open Scope Z_scope.
#[local] Open Scope cmonad_scope.

(** ** Fragments for the examples *)

Definition toy_hdr (id off : Z) (mf : bool) (len : Z) : list Z :=
  [0x45; 0] ++ field16 (htons (20 + len)) ++ field16 (htons id) ++ field16 (htons (off / 8 + if mf then 0x2000 else 0)) ++
  [64; 17; 0; 0] ++ [10; 0; 0; 2] ++ [10; 0; 0; 1].

Definition toy_bytes (id off : Z) (mf : bool) (data : list Z) : list Z := toy_hdr id off mf (Z.of_nat (length data)) ++ data.

(** A received packet in a pbuf of the pool. *)
Definition toy_pbuf (a : addr) (bs : list Z) : pbuf :=
  Pbuf None (Some (a, 14)) (Z.of_nat (length bs)) (Z.of_nat (length bs)) PBUF_POOL 0 1.

Definition toy_put (a : addr) (bs : list Z) (st : store) : store :=
  Store (<[a := toy_pbuf a bs]> (st_pbufs st)) (<[a := repeat 0 14 ++ bs]> (st_mem st)).

(** A system that sends no messages. *)
Definition toy_icmp (p : addr) (code : Z) (st : store) (w : unit) : M (store * unit) := ret (st, w).
Definition toy_held (w : unit) : list addr := [].

#[export] Instance toy_quiet : QuietIcmp toy_held toy_icmp.
Proof.
  intros p x l code st w _ _ _ _. apply surely_ret. apply evolves_refl.
Qed.

Definition toy_reass (st : store) : reass unit := Reass [] 0 st tt.

Lemma toy_reass_ok st : reass_ok toy_held (toy_reass st) [].
Proof. split; [|constructor]. constructor; cbn; auto; [constructor|unfold IP_REASS_MAX_PBUFS; lia|lia|split; [constructor|intros b []]]. Qed.

Definition toy_two : store :=
  toy_put 1%positive (toy_bytes 7 0 true [1; 2; 3; 4; 5; 6; 7; 8]) (toy_put 2%positive (toy_bytes 7 8 false [9; 10; 11]) (Store ∅ ∅)).

Definition toy_frag (a : addr) (off : Z) (mf : bool) (data : list Z) : frag :=
  Frag a (toy_pbuf a (toy_bytes 7 off mf data)) [] off (off + Z.of_nat (length data)) data (toy_hdr 7 off mf (Z.of_nat (length data))).

Definition toy_f1 : frag := toy_frag 1%positive 0 true [1; 2; 3; 4; 5; 6; 7; 8].
Definition toy_f2 : frag := toy_frag 2%positive 8 false [9; 10; 11].

(** A packet in a single pbuf. *)
Lemma whole_single st a o n t l :
  st_pbufs st !! a = Some (Pbuf None (Some (a, o)) n n t 0 1) -> st_mem st !! a = Some l -> 0 <= o ->
  o + n <= Z.of_nat (length l) -> 20 <= n < 65536 -> holds_data t = true -> Z.pos a < 18446744073709551616 ->
  whole_packet st a (Pbuf None (Some (a, o)) n n t 0 1) [].
Proof.
  intros Hp Hm Ho Hl Hn Ht Ha. constructor; cbn; auto.
  - split; [constructor; [exact Hp|constructor]|]. cbn. lia.
  - constructor; [|constructor]. split; cbn; [lia|]. intros _. unfold block. rewrite Hm. lia.
  - constructor; [|constructor]. now exists o.
  - unfold IP_HLEN. lia.
Qed.

Lemma toy_waiting a off mf data :
  (a = 1%positive /\ off = 0 /\ mf = true /\ data = [1; 2; 3; 4; 5; 6; 7; 8]) \/ (a = 2%positive /\ off = 8 /\ mf = false /\ data = [9; 10; 11]) ->
  waiting toy_held (toy_reass toy_two) [] (f_hdr toy_f1) (toy_frag a off mf data).
Proof.
  intros [(-> & -> & -> & ->)|(-> & -> & -> & ->)].
  all: constructor; [|reflexivity|reflexivity|reflexivity|reflexivity].
  all: constructor; [|reflexivity|intros b _; split; intros []|cbn; lia|reflexivity|vm_compute; discriminate|].
  1, 3: eapply whole_single; [reflexivity|reflexivity|lia|cbn; lia|cbn; lia|reflexivity|lia].
  all: first [intros _; vm_compute; discriminate|intros E; vm_compute in E; discriminate].
Qed.

(** ** The arrival of a fragment *)

(** C23: A fragment arrives as [ip_input] hands it over, of fewer than 256 pbufs,
    with the 28 bytes in the first pbuf that an ICMP message takes when it is
    the first of its datagram, and ending at most 65515 bytes into the datagram.
    Then [ip_reass] ends without touching memory it does not own, in a failed
    assertion or in a state with the invariant: every
    datagram in the list has its fragments linked in order in their own memory,
    never more than [IP_REASS_MAX_PBUFS] pbufs wait and [ip_reass_pbufcount] is
    their number; each pbuf of a fragment still waits, is part of the datagram
    that is returned, or was freed; and all other pbufs are as before.  The
    code does not check where a fragment ends: with one that ends behind 65535 it
    returns packets that are not well formed ([oversized_datagram]). *)
Theorem ip_reass_safe {W} (held : W -> list addr) icmp (Hq : QuietIcmp held icmp) s fss hdr a x l :
  reass_ok held s fss -> incoming held s fss hdr a x l ->
  safely (ip_reass icmp a s)
    (fun '(res, s') => exists fss' own,
       reass_ok held s' fss' /\ ip_reass_pbufcount s' = Z.of_nat (length (pbufs_of fss')) /\
       ip_reass_pbufcount s' <= IP_REASS_MAX_PBUFS /\
       (res = None -> own = []) /\ (forall q, res = Some q -> exists l', own_packet (re_store s') q l' /\ map fst l' = own) /\
       (forall b, In b (a :: map fst l ++ pbufs_of fss) ->
          In b own \/ In b (pbufs_of fss') \/ st_pbufs (re_store s') !! b = None \/ In b (held (re_world s'))) /\
       (forall b, is_Some (st_pbufs (re_store s) !! b) -> ~ In b (held (re_world s)) -> ~ In b (a :: map fst l ++ pbufs_of fss) ->
          st_pbufs (re_store s') !! b = st_pbufs (re_store s) !! b /\ st_mem (re_store s') !! b = st_mem (re_store s) !! b)).
Proof.
  intros Hok Hin. eapply safely_weaken; [exact (ip_reass_spec held icmp s fss hdr a x l Hok Hin)|].
  intros [res s'] (fss' & own & [R1 R2 R3 R4 R5]). exists fss', own. split; [exact R1|]. split.
  { destruct R1 as [[_ _ Hc _ _ _] _]. rewrite Z.add_0_r in Hc. exact Hc. }
  split; [exact (ri_max _ _ _ _ (proj1 R1))|]. split; [intros ->; exact R2|]. split; [|split; [exact R4|exact R5]].
  intros q ->. destruct R2 as [len g l1 l2 t l' _ _ _ _ Hown Al _]. eauto.
Qed.

Lemma ip_reass_safe_witness :
  safely (ip_reass toy_icmp 1%positive (toy_reass toy_two))
    (fun '(res, s') => exists fss' own,
       reass_ok toy_held s' fss' /\ ip_reass_pbufcount s' = Z.of_nat (length (pbufs_of fss')) /\
       ip_reass_pbufcount s' <= IP_REASS_MAX_PBUFS /\
       (res = None -> own = []) /\ (forall q, res = Some q -> exists l', own_packet (re_store s') q l' /\ map fst l' = own) /\
       (forall b, In b [1%positive] ->
          In b own \/ In b (pbufs_of fss') \/ st_pbufs (re_store s') !! b = None \/ In b (toy_held (re_world s'))) /\
       (forall b, is_Some (st_pbufs toy_two !! b) -> ~ In b [] -> ~ In b [1%positive] ->
          st_pbufs (re_store s') !! b = st_pbufs toy_two !! b /\ st_mem (re_store s') !! b = st_mem toy_two !! b)).
Proof.
  apply (ip_reass_safe toy_held toy_icmp _ (toy_reass toy_two) [] (f_hdr toy_f1) 1%positive (f_head toy_f1) []).
  - apply toy_reass_ok.
  - apply (wa_in _ _ _ _ _ (toy_waiting 1%positive 0 true _ (or_introl (conj eq_refl (conj eq_refl (conj eq_refl eq_refl)))))).
Defined.

(** C22: What [ip_reass] returns is made of fragments of one datagram, the one
    that arrived among them, with equal source, destination and
    identification: the header of the first fragment with the announced length,
    then the data of all fragments, each in order and none overlapping; there
    are no holes but possibly one, right before the fragment that arrived. *)
Theorem ip_reass_delivers {W} (held : W -> list addr) icmp (Hq : QuietIcmp held icmp) s fss hdr a x l :
  reass_ok held s fss -> incoming held s fss hdr a x l ->
  let f := frag_of (st_mem (re_store s)) hdr a x l in
  safely (ip_reass icmp a s)
    (fun '(res, s') => forall q, res = Some q ->
       exists len g t l1 l2 l', l1 ++ f :: l2 = g :: t /\
         Forall frag_legal (g :: t) /\ Forall (fun h => same_datagram (f_hdr h) (f_hdr g)) t /\
         f_start g = 0 /\ contiguous None l1 /\ contiguous (Some f) l2 /\
         (match last_frag None l1 with Some p => f_end p <= f_start f | None => True end) /\
         last_end (g :: t) = len /\
         packet (re_store s') (Some q) l' /\
         content (st_mem (re_store s')) l' = joined_header (f_hdr g) (len + IP_HLEN) ++ all_data (g :: t)).
Proof.
  intros Hok Hin f. eapply safely_weaken; [exact (ip_reass_spec held icmp s fss hdr a x l Hok Hin)|].
  intros [res s'] (fss' & own & [_ R2 _ _ _]) q ->. destruct R2 as [len g l1 l2 t l' [D1 D2 D3 D4 D5 _] E Hl Hsd [Hp _ _ _] _ Hc].
  exists len, g, t, l1, l2, l'. rewrite E in D1, D5. cbn [starts_at_0] in D1. apply Z.eqb_eq in D1.
  split; [exact E|]. split; [exact Hl|]. split; [exact Hsd|]. split; [exact D1|]. split; [exact D2|]. split; [exact D4|].
  split; [exact D3|]. split; [exact D5|]. split; [exact Hp|exact Hc].
Qed.

(** The state after the first fragment of two, and the fragment still to
    come. *)
Definition toy_one : reass unit :=
  match fst (ip_reass toy_icmp 1%positive (toy_reass toy_two) []) with Ok (_, s) => s | _ => toy_reass toy_two end.

Lemma toy_one_ok : reass_ok toy_held toy_one [[toy_f1]] /\ waiting toy_held toy_one [[toy_f1]] (f_hdr toy_f1) toy_f2.
Proof.
  pose proof (first_step toy_held toy_icmp (toy_reass toy_two) [] toy_f1 (toy_reass_ok toy_two)
    (toy_waiting 1%positive 0 true _ (or_introl (conj eq_refl (conj eq_refl (conj eq_refl eq_refl))))) eq_refl eq_refl
    (List.Forall_nil _) ltac:(vm_compute; discriminate) [] (List.Forall_nil _)) as H.
  unfold toy_one. change (f_addr toy_f1) with 1%positive in H.
  destruct (ip_reass toy_icmp 1%positive (toy_reass toy_two) []) as [[[res s]|e| |] h] eqn:E; [|exfalso..].
  2, 3, 4: vm_compute in E; discriminate E.
  destruct H as [_ (-> & r & Hr & [Pe _ Pi _ _ _ _] & Hwo & Hu & _)]. cbn [fst]. split.
  - split; [exact Pi|]. rewrite Pe. constructor; [|constructor]. left. rewrite Hr. repeat split.
  - apply (waiting_untouched toy_held (toy_reass toy_two) [] (f_hdr toy_f1) toy_f2 (f_addrs toy_f1)); auto.
    { apply toy_waiting. right. repeat split. }
    intros b [<-|[]] [E2|[]]. discriminate.
Qed.

(** The second fragment completes the datagram, and it is returned. *)
Lemma ip_reass_delivers_witness :
  (match fst (ip_reass toy_icmp 2%positive toy_one []) with Ok (res, _) => res = Some 1%positive | _ => False end) /\
  safely (ip_reass toy_icmp 2%positive toy_one)
    (fun '(res, s') => forall q, res = Some q ->
       exists len g t l1 l2 l', l1 ++ toy_f2 :: l2 = g :: t /\
         Forall frag_legal (g :: t) /\ Forall (fun h => same_datagram (f_hdr h) (f_hdr g)) t /\
         f_start g = 0 /\ contiguous None l1 /\ contiguous (Some toy_f2) l2 /\
         (match last_frag None l1 with Some p => f_end p <= f_start toy_f2 | None => True end) /\
         last_end (g :: t) = len /\
         packet (re_store s') (Some q) l' /\
         content (st_mem (re_store s')) l' = joined_header (f_hdr g) (len + IP_HLEN) ++ all_data (g :: t)).
Proof.
  split; [vm_compute; reflexivity|]. destruct toy_one_ok as [Hok [Hin _ Hfr _ _]].
  pose proof (ip_reass_delivers toy_held toy_icmp _ toy_one [[toy_f1]] (f_hdr toy_f2) 2%positive (f_head toy_f2) [] Hok Hin) as H.
  cbv zeta in H. change (f_addr toy_f2) with 2%positive in Hfr. change (f_tail toy_f2) with (@nil (addr * pbuf)) in Hfr.
  rewrite <- Hfr in H. exact H.
Defined.

(** ** A datagram in order *)

(** C21: When the fragments of a datagram arrive in order, there is room for
    their pbufs and memory for the bookkeeping, all of them but the last are
    kept, and the last one gives back the datagram: the header of the first
    fragment with the whole length, no offset and a checksum that verifies,
    and then exactly the data; other datagrams are left as they were. *)
Theorem reass_in_order {W} (held : W -> list addr) icmp s fss f rest :
  reass_ok held s fss -> Forall (waiting held s fss (f_hdr f)) (f :: rest) -> List.NoDup (all_addrs (f :: rest)) ->
  f_start f = 0 -> contiguous None (f :: rest) -> marked (f :: rest) -> rest <> [] ->
  Forall (fun r => IP_ADDRESSES_AND_ID_MATCH (rd_iphdr r) (f_hdr f) = false) (reassdatagrams s) ->
  ip_reass_pbufcount s + Z.of_nat (length (all_addrs (f :: rest))) <= IP_REASS_MAX_PBUFS ->
  runs NoFail (ip_reass_all icmp (map f_addr (f :: rest)) s)
    (fun '(rs, s') => exists q, rs = repeat None (length rest) ++ [Some q] /\
       reass_ok held s' fss /\ reassdatagrams s' = reassdatagrams s /\
       joined_as (re_store s') q (f_hdr f) (f :: rest) /\
       (Forall byte (f_hdr f) -> forall n, inet_chksum (joined_header (f_hdr f) n) IP_HLEN = ret 0)) no_err.
Proof.
  intros Hok Hwa Hnd H0 Hc Hm Hne Hnone Hmax. eapply runs_weaken; [exact (in_order_spec held icmp s fss f rest Hok Hwa Hnd H0 Hc Hm Hne Hnone Hmax)| |auto].
  intros [rs s'] (q & E & Hok2 & Hrd & Hj). exists q. split; [exact E|]. split; [exact Hok2|]. split; [exact Hrd|]. split; [exact Hj|].
  intros Hb n. apply renewed_verifies; [|exact Hb]. inversion Hwa as [|? ? Hf _]; subst. exact (header_length _ _ _ _ _ _ _ (wa_in _ _ _ _ _ Hf)).
Qed.

Lemma reass_in_order_witness :
  runs NoFail (ip_reass_all toy_icmp [1%positive; 2%positive] (toy_reass toy_two))
    (fun '(rs, s') => exists q, rs = [None; Some q] /\
       reass_ok toy_held s' [] /\ reassdatagrams s' = [] /\
       joined_as (re_store s') q (f_hdr toy_f1) [toy_f1; toy_f2] /\
       (Forall byte (f_hdr toy_f1) -> forall n, inet_chksum (joined_header (f_hdr toy_f1) n) IP_HLEN = ret 0)) no_err.
Proof.
  apply (reass_in_order toy_held toy_icmp (toy_reass toy_two) [] toy_f1 [toy_f2]).
  - apply toy_reass_ok.
  - constructor; [apply toy_waiting; left; repeat split|]. constructor; [apply toy_waiting; right; repeat split|constructor].
  - cbn. constructor; [intros [E|[]]; discriminate|]. constructor; [intros []|constructor].
  - reflexivity.
  - repeat split.
  - split; reflexivity.
  - discriminate.
  - constructor.
  - vm_compute. discriminate.
Defined.

(** ** The timer *)

(** C24: A datagram whose fragments do not all arrive does not stay: after four
    ticks of the timer without new fragments all datagrams are gone, no pbuf
    is counted, and every pbuf of their fragments is free or, if the message
    to the sender was put into it, held by the rest of the system; no
    assertion fails on the way. *)
Theorem reass_times_out {W} (held : W -> list addr) icmp (Hq : QuietIcmp held icmp) s fss :
  reass_ok held s fss ->
  surely (reass_ticks icmp 4 s)
    (fun s' => reassdatagrams s' = [] /\ ip_reass_pbufcount s' = 0 /\
       forall b, In b (pbufs_of fss) -> st_pbufs (re_store s') !! b = None \/ In b (held (re_world s'))).
Proof.
  intros Hok. eapply surely_weaken; [exact (reass_ticks_spec held icmp 4 s fss 3 Hok (ok_timers _ _ _ Hok))|].
  intros s' (fss' & [Hinv _] & Ht & gone & (_ & Hg & _) & Hp). assert (E : reassdatagrams s' = []) by exact (no_timers _ _ eq_refl Ht).
  pose proof (ri_all _ _ _ _ Hinv) as Ha. rewrite E in Ha. inversion Ha; subst. split; [exact E|].
  split; [rewrite (ri_count _ _ _ _ Hinv); reflexivity|]. intros b Hb. apply Hg. right. right.
  apply (Permutation_in _ Hp) in Hb. cbn [pbufs_of map concat] in Hb. now rewrite app_nil_r in Hb.
Qed.

Lemma reass_times_out_witness :
  exists s, reass_ok toy_held s [[toy_f1]] /\
    surely (reass_ticks toy_icmp 4 s)
      (fun s' => reassdatagrams s' = [] /\ ip_reass_pbufcount s' = 0 /\
         forall b, In b [1%positive] -> st_pbufs (re_store s') !! b = None \/ In b (toy_held (re_world s'))).
Proof.
  destruct (runs_total _ _ (first_step toy_held toy_icmp (toy_reass toy_two) [] toy_f1 (toy_reass_ok toy_two)
    (toy_waiting 1%positive 0 true _ (or_introl (conj eq_refl (conj eq_refl (conj eq_refl eq_refl))))) eq_refl eq_refl
    (List.Forall_nil _) ltac:(vm_compute; discriminate))) as ([res s] & h & _ & _ & r & Hr & [Pe _ Pi _ _ _ _] & _).
  assert (Hok : reass_ok toy_held s [[toy_f1]]).
  { split; [exact Pi|]. rewrite Pe. constructor; [|constructor]. left. rewrite Hr. repeat split. }
  exists s. split; [exact Hok|]. exact (reass_times_out toy_held toy_icmp _ s [[toy_f1]] Hok).
Defined.

(** ** Limits *)

(** Fragments 24 to 32 (the last), 0 to 8, and 16 to 24. *)
Definition hole_store : store :=
  toy_put 1%positive (toy_bytes 7 24 false (repeat 4 8)) (toy_put 2%positive (toy_bytes 7 0 true (repeat 1 8))
    (toy_put 3%positive (toy_bytes 7 16 true (repeat 3 8)) (Store ∅ ∅))).

(** Fragments 8 to 16 (the last), 16 to 24, and 0 to 8. *)
Definition beyond_store : store :=
  toy_put 1%positive (toy_bytes 7 8 false (repeat 4 8)) (toy_put 2%positive (toy_bytes 7 16 true (repeat 1 8))
    (toy_put 3%positive (toy_bytes 7 0 true (repeat 3 8)) (Store ∅ ∅))).

(** Ten pbufs: five fragments of one datagram and five of another; then one
    more fragment of the first. *)
Definition crowd_store : store :=
  fold_right (fun i st => toy_put (Pos.of_nat i) (toy_bytes (if (i <=? 5)%nat || (i =? 11)%nat then 7 else 8) (16 * Z.of_nat i) true (repeat 1 8)) st)
    (Store ∅ ∅) (seq 1 11).

(** Where [ip_reass] does not do what it means to: a fragment between two
    others is not checked for a hole before it, so a datagram is delivered
    with a hole, 44 bytes with a header that says 52; a fragment beyond the end
    that the last fragment announced stops the system when the rest
    arrives; and so does a fragment that finds no room and belongs to the oldest
    datagram. *)
Theorem reass_limits :
  (match fst (ip_reass_all toy_icmp [1; 2; 3]%positive (toy_reass hole_store) []) with
   | Ok (rs, s') =>
       rs = [None; None; Some 2%positive] /\ option_map pb_tot_len (st_pbufs (re_store s') !! 2%positive) = Some 44 /\
       IPH_LEN (skipn 14 (block (st_mem (re_store s')) 2%positive)) = htons 52
   | _ => False
   end) /\
  fst (ip_reass_all toy_icmp [1; 2; 3]%positive (toy_reass beyond_store) []) = Err ABORT /\
  fst (ip_reass_all toy_icmp (map Pos.of_nat (seq 1 11)) (toy_reass crowd_store) []) = Err ABORT.
Proof. split; [vm_compute; repeat split|split; vm_compute; reflexivity]. Qed.

(** Three fragments from 0 to 65544, the last one behind the largest datagram
    there can be. *)
Definition oversized_store : store :=
  toy_put 1%positive (toy_bytes 7 0 true (repeat 1 32768))
    (toy_put 2%positive (toy_bytes 7 32768 true (repeat 2 32760))
       (toy_put 3%positive (toy_bytes 7 65528 false (repeat 3 16)) (Store ∅ ∅))).

(** The end of the last fragment and the length of the whole datagram wrap
    around at [2^16]: the packet that is returned says it has 28 bytes, and its first
    pbuf has 32788. *)
Example oversized_datagram :
  match fst (ip_reass_all toy_icmp [1; 2; 3]%positive (toy_reass oversized_store) []) with
  | Ok (rs, s') =>
      rs = [None; None; Some 1%positive] /\
      option_map pb_tot_len (st_pbufs (re_store s') !! 1%positive) = Some 28 /\
      option_map pb_len (st_pbufs (re_store s') !! 1%positive) = Some 32788
  | _ => False
  end.
Proof. vm_compute. repeat split. Qed.
