(* ===== verification/IpFrag.v ===== *)
(** * lwIP: fragmentation of IP datagrams

    The second half of [lwip/src/core/ipv4/ip_frag.c], without the static
    buffer, as the port configures it: every fragment is a header in a pbuf of
    its own and pbufs that refer to the data of the datagram.  The output
    function of the interface is a parameter. *)
From Stdlib Require Import ZArith List Lia Bool.
From stdpp Require Import base gmap list.
From S2P Require Import Prelude CMonad Pbuf Inet InetChksum Netif IpHdr.
#[local] Open Scope Z_scope.
#[local] Open Scope cmonad_scope.

Section IpFrag.
Context {W : Type} (junk : nat -> Z).
Variable output : netif -> addr -> Z -> store -> W -> M (Z * store * W).

(** A new pbuf mirrors [newpbuflen] bytes of [x] and is added to the chain of
    [rambuf]; without memory [rambuf] is freed. *)
Definition mirror (rambuf : addr) (x : pbuf) (newpbuflen : Z) (st : store) : M (bool * store) :=
  '(newpbuf, st) <- pbuf_alloc junk PBUF_RAW 0 PBUF_REF st;;
  match newpbuf with
  | None =>
      '(_, st) <- pbuf_free (Some rambuf) st;;
      ret (false, st)
  | Some np =>
      y <- fetch st (Some np);;
      let st := set_pbuf np (with_tot_len (with_len (with_payload y (pb_payload x)) newpbuflen) newpbuflen) st in
      st <- pbuf_cat (Some rambuf) (Some np) st;;
      ret (true, st)
  end.

(** [while (left_to_copy)]: where the copying stops and the number of bytes in
    the last pbuf; [None]: there was no memory, and [rambuf] is freed. *)
Fixpoint frag_copy (fuel : nat) (rambuf : addr) (p : option addr) (left_to_copy newpbuflen : Z) (st : store)
    : M (option (option addr * Z) * store) :=
  if left_to_copy =? 0 then ret (Some (p, newpbuflen), st)
  else
    match fuel with
    | O => out_of_fuel
    | S fuel' =>
        x <- fetch st p;;
        let newpbuflen := if left_to_copy <? pb_len x then left_to_copy else pb_len x in
        if newpbuflen =? 0 then frag_copy fuel' rambuf (pb_next x) left_to_copy newpbuflen st
        else
          '(ok, st) <- mirror rambuf x newpbuflen st;;
          if (ok : bool) then
            let left_to_copy := u16 (left_to_copy - newpbuflen) in
            frag_copy fuel' rambuf (if left_to_copy =? 0 then p else pb_next x) left_to_copy newpbuflen st
          else ret (None, st)
    end.

(** The bytes [poff] are skipped: [p->payload += poff; p->len -= poff]. *)
Definition skip_bytes (p : option addr) (poff : Z) (st : store) : M store :=
  match p with
  | Some a =>
      x <- fetch st p;;
      ret (set_pbuf a
             (with_len (with_payload x (match pb_payload x with Some (b, o) => Some (b, o + poff) | None => None end))
                (u16 (pb_len x - poff))) st)
  | None => ub
  end.

(** The length and the offset of a fragment in its header, and the checksum. *)
Definition frag_header (iphdr : list Z) (cop tmp : Z) : M (list Z) := with_chksum (renewed iphdr (cop + IP_HLEN) (htons tmp)).

(** One turn of the loop: the fragment that begins [poff] bytes into [p], [cop]
    bytes long, is made and sent; the rest begins at the result, [None] when
    there was no memory. *)
Definition send_frag (n : netif) (dest : Z) (original : option (addr * Z)) (p : option addr) (cop tmp poff newpbuflen : Z)
    (st : store) (w : W) : M (option (option addr * Z) * store * W) :=
  '(rambuf, st) <- pbuf_alloc junk PBUF_LINK IP_HLEN PBUF_RAM st;;
  match rambuf with
  | None => ret (None, st, w)
  | Some rambuf =>
      x <- fetch st p;;
      _ <- lwip_assert (IP_HLEN <=? pb_len x);;
      iphdr <- load st original 0 IP_HLEN;;
      y <- fetch st (Some rambuf);;
      st <- save st (pb_payload y) 0 iphdr;;
      st <- skip_bytes p poff st;;
      '(rest, st) <- frag_copy (walk_fuel st) rambuf p cop newpbuflen st;;
      match rest with
      | None => ret (None, st, w)
      | Some (p, newpbuflen) =>
          hdr <- frag_header iphdr cop tmp;;
          st <- save st (pb_payload y) 0 hdr;;
          '(st, w) <- hand_over output n rambuf dest st w;;
          ret (Some (p, newpbuflen), st, w)
      end
  end.

(** [while (left)] *)
Fixpoint frag_loop (fuel : nat) (n : netif) (dest : Z) (original : option (addr * Z)) (p : option addr)
    (left ofo omf poff newpbuflen : Z) (st : store) (w : W) : M (Z * store * W) :=
  if left =? 0 then ret (ERR_OK, st, w)
  else
    match fuel with
    | O => out_of_fuel
    | S fuel' =>
        let mtu := nf_mtu n in
        let nfb := u16 (Z.quot (mtu - IP_HLEN) 8) in
        let last := left <=? mtu - IP_HLEN in
        let tmp := Z.lor omf (Z.land IP_OFFMASK ofo) in
        let tmp := if last then tmp else Z.lor tmp IP_MF in
        let cop := if last then left else u16 (nfb * 8) in
        '(rest, st, w) <- send_frag n dest original p cop tmp poff newpbuflen st w;;
        match rest with
        | None => ret (ERR_MEM, st, w)
        | Some (p, newpbuflen) =>
            frag_loop fuel' n dest original p (u16 (left - cop)) (u16 (ofo + nfb)) omf newpbuflen newpbuflen st w
        end
    end.

Definition ip_frag (p : addr) (n : netif) (dest : Z) (st : store) (w : W) : M (Z * store * W) :=
  x <- fetch st (Some p);;
  iphdr <- load st (pb_payload x) 0 IP_HLEN;;
  let tmp := ntohs (IPH_OFFSET iphdr) in
  let left := u16 (pb_tot_len x - IP_HLEN) in
  frag_loop (Z.to_nat left) n dest (pb_payload x) (Some p) left (Z.land tmp IP_OFFMASK) (Z.land tmp IP_MF) IP_HLEN 0 st w.
End IpFrag.
