(* ===== verification/IpFragSpec.v ===== *)
(** * lwIP: what fragmentation sends

    The pbufs of a fragment refer to the datagram, which is only moved along;
    the fragments tile its data; as packets of the receiver they are put
    together again. *)
From Stdlib Require Import ZArith List Lia Bool.
From stdpp Require Import base gmap list.
From S2P Require Import Prelude CMonad Pbuf PbufChain PbufData PbufEdit PbufAlloc.
From S2P Require Import Inet InetChksum Netif IpHdr Frames Driver IpReass IpReassMem.
From S2P Require Import IpReassInv IpReassStep IpReassOrder IpFrag.
#[local] Open Scope Z_scope.
#[local] Open Scope cmonad_scope.

(** ** Pbufs that refer to others *)

(** The bytes of pbufs whose memory is the same. *)
Lemma bytes_same m m' x :
  (forall b o, pb_payload x = Some (b, o) -> pb_len x <> 0 -> m' !! b = m !! b) -> valid m x ->
  bytes_of m' x = bytes_of m x /\ valid m' x.
Proof.
  intros Hm [H0 Hv]. unfold bytes_of, valid. destruct (Z.eq_dec (pb_len x) 0) as [E|E].
  - rewrite E. split; [|split; [lia|intros []; reflexivity]]. destruct (pb_payload x) as [[b o]|]; reflexivity.
  - specialize (Hv E). destruct (pb_payload x) as [[b o]|]; [|contradiction]. unfold block in *. rewrite (Hm b o eq_refl E). auto.
Qed.

Lemma content_same m m' l :
  (forall c b o, In c l -> pb_payload (snd c) = Some (b, o) -> pb_len (snd c) <> 0 -> m' !! b = m !! b) -> all_valid m l ->
  content m' l = content m l /\ all_valid m' l.
Proof.
  intros Hm Hv. induction Hv as [|[a x] l Hx Hv IH]; [split; [reflexivity|constructor]|]. cbn [snd content] in *.
  destruct (bytes_same m m' x) as [E1 V1]; [intros b o; exact (Hm (a, x) b o (or_introl eq_refl))|exact Hx|].
  destruct IH as [E2 V2]; [intros c b o Hc; exact (Hm c b o (or_intror Hc))|]. rewrite E1, E2. split; [reflexivity|]. now constructor.
Qed.

(** Valid bytes lie in memory. *)
Lemma valid_alive m x b o : valid m x -> pb_payload x = Some (b, o) -> pb_len x <> 0 -> is_Some (m !! b).
Proof.
  intros [H0 Hv] Hp Hn. specialize (Hv Hn). rewrite Hp in Hv. unfold block in Hv. destruct (m !! b); [eauto|cbn in Hv; lia].
Qed.

(** ** The copy *)

(** The new pbufs [lr] of a fragment, with head [rb], on top of [stb]. *)
Record building_frag (stb st : store) (rb : addr) (o : Z) (lr : list (addr * pbuf)) : Prop := BuildingFrag
  { bf_extends : extends stb st lr; bf_packet : packet st (Some rb) lr; bf_valid : all_valid (st_mem st) lr;
    bf_refs : Forall (fun c => pb_ref (snd c) = 1) lr;
    bf_head : exists x l, lr = (rb, x) :: l /\ pb_payload x = Some (rb, o) /\ pb_len x = 20;
    bf_apart : forall c b p, In c lr -> fst c <> rb -> pb_payload (snd c) = Some (b, p) -> b <> rb }.

Lemma extends_pbufs stb st l a : extends stb st l -> is_Some (st_pbufs stb !! a) ->
  st_pbufs st !! a = st_pbufs stb !! a /\ st_mem st !! a = st_mem stb !! a.
Proof. intros [H K] [y Hy]. apply K. intros Hin. destruct (H a Hin) as [E _]. congruence. Qed.

Lemma extends_mem stb st l a : extends stb st l -> is_Some (st_mem stb !! a) -> st_mem st !! a = st_mem stb !! a.
Proof. intros [H K] [y Hy]. apply K. intros Hin. destruct (H a Hin) as [_ E]. congruence. Qed.

Lemma extends_chain stb st lr p l : extends stb st lr -> chain (st_pbufs stb) p l -> chain (st_pbufs st) p l.
Proof.
  intros He Hc. eapply chain_ext; [exact Hc|]. intros a Ha. apply (extends_pbufs _ _ _ _ He).
  apply in_map_iff in Ha as ([b y] & <- & Hin). exists y. exact (chain_lookup _ _ _ _ _ Hc Hin).
Qed.

Section Copy.
Variable junk : nat -> Z.

(** One more pbuf that refers to [n] bytes of [x]. *)
Lemma mirror_spec stb st rb o lr x n :
  building_frag stb st rb o lr -> valid (st_mem stb) x -> 0 < n <= pb_len x -> total lr + n < 65536 ->
  surely (mirror junk rb x n st)
    (fun '(ok, st') => match ok : bool with
       | false => st' = stb
       | true => exists lr', building_frag stb st' rb o lr' /\ total lr' = total lr + n /\
           content (st_mem st') lr' = content (st_mem st) lr ++ firstn (Z.to_nat n) (bytes_of (st_mem stb) x)
       end).
Proof.
  unfold mirror. intros [Be Bp Bv Br (x0 & l0 & El & Hpl & Hlen0) Ba] Hx Hn Ht. eapply surely_bind; [apply alloc_ref; now right|]. intros [[np|] st1].
  2: { intros ->. rewrite (pbuf_free_spec _ _ _ Bp), bind_ret. apply surely_ret.
       apply (extends_freed _ _ _ Be). intros a y Hin. rewrite List.Forall_forall in Br. exact (Br _ Hin). }
  intros (N1 & N2 & E1 & (bs & Lbs & E2)). destruct bs; [|cbn in Lbs; lia].
  set (y := Pbuf None (pb_payload x) n n PBUF_REF 0 1). pose proof (totals_nonneg _ (proj2 Bp)) as Hlr0.
  rewrite (fetch_some st1 np (Pbuf None None 0 0 PBUF_REF 0 1)) by (rewrite E1; apply lookup_insert_eq). rewrite bind_ret.
  cbv zeta. change (with_tot_len (with_len (with_payload (Pbuf None None 0 0 PBUF_REF 0 1) (pb_payload x)) n) n) with y.
  set (st2 := set_pbuf np y st1).
  assert (P2 : st_pbufs st2 = <[np := y]> (st_pbufs st)) by (cbn; rewrite E1; apply insert_insert_eq).
  assert (M2 : st_mem st2 = <[np := []]> (st_mem st)) by exact E2.
  assert (Hnot : ~ In np (addrs lr)).
  { intros Hin. apply in_map_iff in Hin as ([b z] & Eb & Hin). cbn [fst] in Eb. subst b. pose proof (chain_lookup _ _ _ _ _ (proj1 Bp) Hin). congruence. }
  assert (Hex : extends stb st2 (lr ++ [(np, y)])).
  { replace st2 with (Store (<[np := y]> (st_pbufs st)) (<[np := []]> (st_mem st))) by (destruct st2; cbn in *; congruence).
    now apply extends_cons. }
  assert (Hp2 : packet st2 (Some rb) lr).
  { split; [|apply Bp]. rewrite P2. apply chain_insert; [apply Bp|exact Hnot]. }
  assert (Hy : packet st2 (Some np) [(np, y)]).
  { split; [|cbn; lia]. constructor; [rewrite P2; apply lookup_insert_eq|constructor]. }
  destruct (pbuf_cat_spec st2 rb lr np [(np, y)] Hp2 Hy) as (st3 & E3 & Hp3 & K3 & M3).
  { intros a Ha [<-|[]]. contradiction. } { cbn [total pb_len y]. lia. }
  rewrite E3, bind_ret. apply surely_ret.
  assert (Hsub : forall b o', pb_payload x = Some (b, o') -> pb_len x <> 0 -> st_mem st3 !! b = st_mem stb !! b).
  { intros b o' Hpx Hnz. destruct (valid_alive _ _ _ _ Hx Hpx Hnz) as [bs Hbs]. rewrite M3.
    apply (extends_mem _ _ _ _ Hex). eauto. }
  assert (Hm3 : forall b, st_mem st3 !! b = st_mem st !! b \/ b = np).
  { intros b. destruct (decide (b = np)) as [->|Hb]; [now right|]. left. rewrite M3, M2. now apply lookup_insert_ne. }
  assert (Hlr3 : content (st_mem st3) lr = content (st_mem st) lr /\ all_valid (st_mem st3) lr).
  { apply content_same; [|exact Bv]. intros c b p Hc Hpc Hnz. destruct (Hm3 b) as [E|E]; [exact E|]. subst b.
    pose proof (proj1 (List.Forall_forall _ _) Bv c Hc) as Hvc. cbv beta in Hvc.
    destruct (valid_alive _ _ _ _ Hvc Hpc Hnz) as [bs Hbs]. congruence. }
  destruct Hlr3 as [Ec3 Hv3]. cbn [total pb_len y] in Hp3. rewrite Z.add_0_r in Hp3.
  assert (Hyv : bytes_of (st_mem st3) y = firstn (Z.to_nat n) (bytes_of (st_mem stb) x) /\ valid (st_mem st3) y).
  { destruct (bytes_same _ _ _ Hsub Hx) as [Eb [_ Hvx]]. specialize (Hvx ltac:(lia)). rewrite <- Eb. unfold bytes_of, valid.
    cbn [y pb_payload pb_len]. destruct (pb_payload x) as [[b p]|]; [|contradiction]. split; [rewrite firstn_firstn; f_equal; lia|]. split; [lia|]. intros _. lia. }
  exists (joined np n lr ++ [(np, y)]). split; [|split].
  - constructor.
    + apply (extends_change _ st2 st3 (lr ++ [(np, y)])); [exact Hex|now rewrite !map_app, joined_addrs|].
      intros b Hb. rewrite M3. split; [|reflexivity]. apply K3. intros Hin. apply Hb. rewrite map_app, in_app_iff. now left.
    + exact Hp3.
    + apply Forall_app. split; [|constructor; [apply Hyv|constructor]]. eapply all_valid_fields; [apply joined_fields|exact Hv3].
    + apply Forall_app. split; [|constructor; [reflexivity|constructor]].
      clear - Br. induction Br as [|[a z] l Hz Hl IH]; [constructor|]. destruct l as [|c l]; [now constructor|].
      rewrite joined_cons by discriminate. now constructor.
    + rewrite El. destruct l0 as [|c l0]; [now eexists _, _|]. rewrite joined_cons by discriminate. cbn [app]. now eexists _, _.
    + assert (Hf : Forall (fun c => fst c <> rb -> forall b p, pb_payload (snd c) = Some (b, p) -> b <> rb) (joined np n lr ++ [(np, y)])).
      { apply Forall_app. split.
        - assert (Hf0 : Forall (fun c => fst c <> rb -> forall b p, pb_payload (snd c) = Some (b, p) -> b <> rb) lr).
          { apply List.Forall_forall. intros c Hc Hne b p. exact (Ba c b p Hc Hne). }
          clear - Hf0. induction Hf0 as [|[a z] l Hz Hl IH]; [constructor|]. destruct l as [|c l]; [now constructor|].
          rewrite joined_cons by discriminate. now constructor.
        - constructor; [|constructor]. cbn. intros _ b p Hb Eb. subst b.
          destruct (valid_alive _ _ _ _ Hx Hb ltac:(lia)) as [bs Hbs]. destruct Be as [H _].
          destruct (H rb) as [_ Hm]; [rewrite El; now left|congruence]. }
      intros c b p Hc Hne. rewrite List.Forall_forall in Hf. exact (Hf c Hc Hne b p).
  - rewrite total_app. destruct (joined_totals np lr [(np, y)] (proj2 Bp)) as [_ Et]; [cbn; lia|cbn; lia|]. cbn [total pb_len y] in Et |- *.
    rewrite Z.add_0_r in Et. rewrite Et. lia.
  - rewrite content_app. cbn [content]. rewrite app_nil_r, (proj1 Hyv). f_equal. rewrite <- Ec3. apply content_fields, joined_fields.
Qed.

Lemma frag_copy_spec fuel stb st rb o lr p l left np :
  building_frag stb st rb o lr -> chain (st_pbufs stb) p l -> all_valid (st_mem stb) l ->
  0 < left <= total l -> total lr + left < 65536 -> (length l <= fuel)%nat ->
  surely (frag_copy junk fuel rb p left np st)
    (fun '(res, st') => match res with
       | None => st' = stb
       | Some (p', np') => exists lr' l0 a x l',
           p' = Some a /\ l = l0 ++ (a, x) :: l' /\ 0 < np' <= pb_len x /\ total l0 + np' = left /\
           building_frag stb st' rb o lr' /\ total lr' = total lr + left /\
           content (st_mem st') lr' = content (st_mem st) lr ++ firstn (Z.to_nat left) (content (st_mem stb) l)
       end).
Proof.
  revert st lr p l left np. induction fuel as [|fuel IH]; intros st lr p l left np Hb Hc Hv Hleft Ht Hf.
  { destruct l; [cbn in Hleft; lia|cbn in Hf; lia]. }
  destruct l as [|[a x] l]; [cbn in Hleft; lia|]. inversion Hc as [|? ? ? Hx Hc']; subst. inversion Hv as [|? ? Hvx Hv']; subst.
  cbn [snd] in Hvx. cbn [total length] in *. pose proof (totals_nonneg _ (proj2 (bf_packet _ _ _ _ _ Hb))) as Hlr.
  assert (Hx' : st_pbufs st !! a = Some x) by (rewrite (proj1 (extends_pbufs _ _ _ _ (bf_extends _ _ _ _ _ Hb) ltac:(eauto))); exact Hx).
  cbn [frag_copy]. destruct (Z.eqb_spec left 0) as [El0|El0]; [lia|]. rewrite (fetch_some _ _ _ Hx'), bind_ret.
  destruct (Z.eq_dec (pb_len x) 0) as [E0|E0].
  - rewrite E0. destruct (Z.ltb_spec left 0); [lia|]. cbn [Z.eqb].
    eapply surely_weaken; [apply (IH st lr (pb_next x) l left 0 Hb Hc' Hv'); lia|].
    intros [[[p' np']|] st'] Hq; [|exact Hq]. destruct Hq as (lr' & l0 & b & y & l' & Ep & El & Hnp & Hsum & Hb' & Ht' & Ec).
    exists lr', ((a, x) :: l0), b, y, l'. rewrite El. split; [exact Ep|]. split; [reflexivity|]. split; [exact Hnp|].
    split; [cbn [total]; lia|]. split; [exact Hb'|]. split; [exact Ht'|]. rewrite Ec, El. cbn [content].
    assert (Ez : bytes_of (st_mem stb) x = []) by (apply length_zero_iff_nil; rewrite bytes_length by exact Hvx; lia).
    now rewrite Ez.
  - destruct Hvx as [Hx0 Hvx']. assert (Hvx : valid (st_mem stb) x) by now split. pose proof (bytes_length _ _ Hvx) as Lb.
    set (n := if left <? pb_len x then left else pb_len x).
    assert (Hn : n = Z.min left (pb_len x)) by (unfold n; destruct (Z.ltb_spec left (pb_len x)); lia).
    destruct (Z.eqb_spec n 0) as [En0|En0]; [lia|]. eapply surely_bind.
    { apply (mirror_spec stb st rb o lr x n Hb Hvx); lia. }
    intros [[|] st1]; [|intros ->; now apply surely_ret]. intros (lr1 & Hb1 & Ht1 & Ec1).
    assert (Eu : u16 (left - n) = left - n) by (unfold u16; apply Z.mod_small; lia). cbv zeta. rewrite Eu.
    destruct (Z.eqb_spec (left - n) 0) as [El|El].
    + assert (n = left) by lia. rewrite El. assert (E : frag_copy junk fuel rb (Some a) 0 n st1 = ret (Some (Some a, n), st1)) by now destruct fuel.
      rewrite E. apply surely_ret. exists lr1, [], a, x, l. split; [reflexivity|]. split; [reflexivity|].
      split; [lia|]. split; [cbn; lia|]. split; [exact Hb1|]. split; [lia|]. rewrite Ec1. f_equal.
      cbn [content]. rewrite firstn_app. replace (Z.to_nat left - length (bytes_of (st_mem stb) x))%nat with O by lia.
      rewrite firstn_O, app_nil_r. f_equal. lia.
    + assert (n = pb_len x) by lia. eapply surely_weaken; [apply (IH st1 lr1 (pb_next x) l (left - n) n Hb1 Hc' Hv'); lia|].
      intros [[[p' np']|] st'] H'; [|exact H']. destruct H' as (lr' & l0 & b & y & l' & Ep & Ell & Hnp & Hsum & Hb' & Ht' & Ec).
      exists lr', ((a, x) :: l0), b, y, l'. rewrite Ell. split; [exact Ep|]. split; [reflexivity|]. split; [exact Hnp|].
      split; [cbn [total]; lia|]. split; [exact Hb'|]. split; [lia|]. rewrite Ec, Ec1, Ell, <- app_assoc. f_equal. cbn [content].
      rewrite (firstn_app (Z.to_nat left)), (firstn_all2 (n := Z.to_nat n)), (firstn_all2 (n := Z.to_nat left)) by lia.
      f_equal. f_equal. lia.
Qed.
End Copy.

(** ** One fragment *)

(** A pbuf with [n] bytes of its payload skipped. *)
Definition skipped (x : pbuf) (n : Z) : pbuf :=
  with_len (with_payload x (match pb_payload x with Some (b, o) => Some (b, o + n) | None => None end)) (u16 (pb_len x - n)).

Definition short_pbufs (l : list (addr * pbuf)) : Prop := Forall (fun c => pb_len (snd c) < 65536) l.

Lemma skip_bytes_spec st a x l n :
  chain (st_pbufs st) (Some a) ((a, x) :: l) -> all_valid (st_mem st) ((a, x) :: l) -> 0 <= n <= pb_len x -> pb_len x < 65536 ->
  let st' := set_pbuf a (skipped x n) st in
  skip_bytes (Some a) n st = ret st' /\ chain (st_pbufs st') (Some a) ((a, skipped x n) :: l) /\
  all_valid (st_mem st') ((a, skipped x n) :: l) /\ total ((a, skipped x n) :: l) = total ((a, x) :: l) - n /\
  content (st_mem st') ((a, skipped x n) :: l) = skipn (Z.to_nat n) (content (st_mem st) ((a, x) :: l)) /\
  pb_len (skipped x n) = pb_len x - n.
Proof.
  intros Hc Hv Hn Hlen st'. inversion Hc as [|? ? ? Hx Hc']; subst. inversion Hv as [|? ? Hvx Hv']; subst. cbn [snd] in Hvx.
  assert (El : pb_len (skipped x n) = pb_len x - n) by (cbn; unfold u16; apply Z.mod_small; lia).
  split. { unfold skip_bytes. now rewrite (fetch_some _ _ _ Hx), bind_ret. }
  assert (Hfresh := chain_head_fresh _ _ _ _ Hc).
  split. { constructor; [apply lookup_insert_eq|]. cbn [skipped with_len with_payload pb_next]. now apply chain_insert. }
  assert (Hb : valid (st_mem st) (skipped x n) /\ bytes_of (st_mem st) (skipped x n) = skipn (Z.to_nat n) (bytes_of (st_mem st) x)).
  { destruct Hvx as [H0 Hvx]. unfold valid, bytes_of. rewrite El. cbn [skipped with_len with_payload pb_payload].
    destruct (Z.eq_dec (pb_len x) 0) as [E|E].
    - replace (pb_len x - n) with 0 by lia. split; [split; [lia|intros []; reflexivity]|]. replace n with 0 by lia. rewrite E.
      now destruct (pb_payload x) as [[b o]|].
    - specialize (Hvx E). destruct (pb_payload x) as [[b o]|]; [|contradiction]. split; [split; [lia|intros _; lia]|].
      rewrite skipn_firstn_comm, skipn_skipn. f_equal; [lia|]. f_equal. lia. }
  split. { constructor; [apply Hb|exact Hv']. }
  split. { cbn [total]. rewrite El. lia. }
  split; [|exact El]. cbn [content st' st_mem set_pbuf]. rewrite (proj2 Hb), skipn_app.
  rewrite (skipn_O (content _ _)) || replace (Z.to_nat n - length (bytes_of (st_mem st) x))%nat with O by (rewrite bytes_length by exact Hvx; lia).
  now rewrite drop_0.
Qed.

(** The new pbuf for the header. *)
Lemma alloc_header junk st :
  surely (pbuf_alloc junk PBUF_LINK IP_HLEN PBUF_RAM st)
    (fun '(r, st1) => match r with
       | None => st1 = st
       | Some rb => building_frag st st1 rb 14 [(rb, Pbuf None (Some (rb, 14)) 20 20 PBUF_RAM 0 1)]
       end).
Proof.
  eapply surely_weaken; [apply (alloc_ram junk PBUF_LINK IP_HLEN st); unfold IP_HLEN; lia|]. intros [[rb|] st1]; [|auto].
  intros (N1 & N2 & E1 & (bs & Lbs & E2)). unfold IP_HLEN in *. cbn [header_room] in *. set (y := Pbuf None (Some (rb, PBUF_LINK_HLEN)) 20 20 PBUF_RAM 0 1) in *.
  assert (Hex : extends st st1 [(rb, y)]).
  { replace st1 with (Store (<[rb := y]> (st_pbufs st)) (<[rb := bs]> (st_mem st))) by (destruct st1; cbn in *; congruence).
    apply (extends_cons st st []); auto. split; [intros a []|auto]. }
  constructor; [exact Hex| | | | |].
  - split; [|cbn; lia]. constructor; [rewrite E1; apply lookup_insert_eq|constructor].
  - constructor; [|constructor]. split; cbn; [lia|]. intros _. unfold block. rewrite E2, lookup_insert_eq. cbn [from_option]. rewrite Lbs. cbn. unfold PBUF_LINK_HLEN. lia.
  - constructor; [reflexivity|constructor].
  - now exists y, [].
  - intros c b p [<-|[]] Hne; now destruct Hne.
Qed.

(** A header is written into the pbuf for it. *)
Lemma write_header stb st rb o lr y hdr :
  building_frag stb st rb o lr -> length hdr = 20%nat -> pb_payload y = Some (rb, o) ->
  exists st', save st (pb_payload y) 0 hdr = ret st' /\ building_frag stb st' rb o lr /\
    content (st_mem st') lr = hdr ++ skipn 20 (content (st_mem st) lr).
Proof.
  intros [Be Bp Bv Br (x0 & l0 & -> & Hpl & Hlen0) Ba] Hh Hy. rewrite Hy, <- Hpl.
  inversion Bv as [|? ? Hvx Hv']; subst. cbn [snd] in Hvx.
  destruct (save_bytes st x0 rb o 0 hdr Hpl Hvx) as (m' & Es & Eb & Hr); [lia|lia|].
  exists (Store (st_pbufs st) m'). split; [exact Es|].
  assert (Hl0 : content m' l0 = content (st_mem st) l0 /\ all_valid m' l0).
  { apply content_same; [|exact Hv']. intros c b p Hc Hb _. apply (proj1 Hr). intros [<-|[]].
    refine (Ba c rb p (or_intror Hc) _ Hb eq_refl). intros Ec.
    apply (chain_head_fresh _ _ _ _ (proj1 Bp)). rewrite <- Ec. now apply in_map. }
  split.
  - constructor; cbn [st_pbufs st_mem]; auto.
    + apply (extends_change stb st _ ((rb, x0) :: l0)); [exact Be|reflexivity|]. intros b Hb. split; [reflexivity|].
      apply (proj1 Hr). intros [<-|[]]. apply Hb. now left.
    + constructor; [|apply Hl0]. exact (valid_rewritten _ _ _ _ Hr Hvx).
    + now eexists _, _.
  - cbn [content st_mem]. rewrite Eb, (proj1 Hl0). change (Z.to_nat 0) with O. rewrite splice_0, Hh, skipn_app.
    rewrite bytes_length, Hlen0 by exact Hvx. change (20 - Z.to_nat 20)%nat with O. now rewrite drop_0, app_assoc.
Qed.

(** ** The datagram that is cut *)

(** Nobody in [bs] has the pbufs [l] or the memory of their bytes. *)
Definition apart (bs : list addr) (l : list (addr * pbuf)) : Prop :=
  Forall (fun c => ~ In (fst c) bs /\ (pb_len (snd c) <> 0 -> forall b o, pb_payload (snd c) = Some (b, o) -> ~ In b bs)) l.

(** The memory of the header, as a pbuf that refers to it. *)
Definition header_pbuf (original : option (addr * Z)) : pbuf := Pbuf None original IP_HLEN IP_HLEN PBUF_REF 0 1.

(** The header [hdr] of the datagram and the pbufs [l] of what is left of it. *)
Record source (bs : list addr) (st : store) (original : option (addr * Z)) (hdr : list Z) (p : option addr) (l : list (addr * pbuf)) : Prop := Source
  { so_chain : chain (st_pbufs st) p l; so_valid : all_valid (st_mem st) l; so_short : short_pbufs l; so_apart : apart bs l;
    so_header : valid (st_mem st) (header_pbuf original); so_hdr : hdr = bytes_of (st_mem st) (header_pbuf original);
    so_theirs : forall b o, original = Some (b, o) -> ~ In b bs }.

Lemma source_load bs st original hdr p l : source bs st original hdr p l -> load st original 0 IP_HLEN = ret hdr /\ length hdr = 20%nat.
Proof.
  intros [_ _ _ _ Hv -> _]. split; [|rewrite bytes_length by exact Hv; reflexivity].
  change original with (pb_payload (header_pbuf original)) at 1. rewrite load_bytes by (auto; cbn; unfold IP_HLEN; lia).
  change (Z.to_nat 0) with O. rewrite drop_0, firstn_all2; [reflexivity|]. rewrite bytes_length by exact Hv. reflexivity.
Qed.

(** What others do leaves the datagram. *)
Lemma source_step bs bs' st st' original hdr p l :
  (forall b, live st b -> ~ In b bs -> st_pbufs st' !! b = st_pbufs st !! b /\ st_mem st' !! b = st_mem st !! b /\ ~ In b bs') ->
  source bs st original hdr p l ->
  source bs' st' original hdr p l /\ content (st_mem st') l = content (st_mem st) l.
Proof.
  intros Hs [Hc Hv Hsh Ha Hh Hhd Ht]. unfold apart in Ha. rewrite List.Forall_forall in Ha.
  assert (Hmem : forall x b o, valid (st_mem st) x -> pb_payload x = Some (b, o) -> pb_len x <> 0 -> ~ In b bs ->
    st_mem st' !! b = st_mem st !! b /\ ~ In b bs').
  { intros x b o Hx Hp Hn Hb. apply Hs; [|exact Hb]. right. exact (valid_alive _ _ _ _ Hx Hp Hn). }
  unfold all_valid in Hv. pose proof Hv as Hv'. rewrite List.Forall_forall in Hv'.
  destruct (content_same (st_mem st) (st_mem st') l) as [Ec Ev]; [|exact Hv|].
  { intros c b o Hc' Hp Hn. apply (Hmem (snd c) b o); auto. exact (proj2 (Ha c Hc') Hn b o Hp). }
  assert (Hhm : forall b o, original = Some (b, o) -> st_mem st' !! b = st_mem st !! b /\ ~ In b bs').
  { intros b o E. apply (Hmem (header_pbuf original) b o Hh E); [discriminate|]. exact (Ht b o E). }
  destruct (bytes_same (st_mem st) (st_mem st') (header_pbuf original)) as [Eb Eh]; [|exact Hh|].
  { intros b o E _. exact (proj1 (Hhm b o E)). }
  assert (Hl : forall c, In c l -> st_pbufs st' !! fst c = st_pbufs st !! fst c /\ ~ In (fst c) bs').
  { intros [b y] Hin. cbn [fst]. destruct (Hs b) as (P & _ & H); [left; exists y; exact (chain_lookup _ _ _ _ _ Hc Hin)|apply (Ha _ Hin)|auto]. }
  split; [|exact Ec]. constructor; auto.
  - apply (chain_ext (st_pbufs st)); [exact Hc|]. intros b Hb. apply in_map_iff in Hb as (c & <- & Hin). apply Hl, Hin.
  - apply List.Forall_forall. intros c Hin. split; [now apply Hl|]. intros Hn b o Hp.
    apply (Hmem (snd c) b o); auto. exact (proj2 (Ha c Hin) Hn b o Hp).
  - congruence.
  - intros b o E. now apply (Hhm b o).
Qed.

Lemma extends_fresh stb st lr b : extends stb st lr -> live stb b -> ~ In b (addrs lr).
Proof. intros [H _] [[x Hx]|[x Hx]] Hin; destruct (H b Hin); congruence. Qed.

Lemma source_extends bs stb st lr original hdr p l :
  extends stb st lr -> source bs stb original hdr p l -> source bs st original hdr p l /\ content (st_mem st) l = content (st_mem stb) l.
Proof.
  intros He. apply source_step. intros b Hl Hb. destruct (proj2 He b (extends_fresh _ _ _ _ He Hl)). auto.
Qed.

(** [poff] bytes are skipped. *)
Lemma source_skip bs st original hdr a x l n :
  source bs st original hdr (Some a) ((a, x) :: l) -> 0 <= n <= pb_len x ->
  let st' := set_pbuf a (skipped x n) st in
  let l' := (a, skipped x n) :: l in
  skip_bytes (Some a) n st = ret st' /\ source bs st' original hdr (Some a) l' /\ total l' = total ((a, x) :: l) - n /\
  content (st_mem st') l' = skipn (Z.to_nat n) (content (st_mem st) ((a, x) :: l)).
Proof.
  intros [Hc Hv Hsh Ha Hh Hhd Ht] Hn st' l'. inversion Hsh as [|? ? Hx Hsh']; subst. cbn [snd] in Hx.
  destruct (skip_bytes_spec st a x l n Hc Hv Hn Hx) as (E & C & V & T & K & L). inversion Ha as [|? ? [A1 A2] Ha']; subst. cbn [fst snd] in A1, A2.
  split; [exact E|]. split; [|split; [exact T|exact K]]. constructor; auto.
  - constructor; [cbn [snd]; lia|exact Hsh'].
  - constructor; [|exact Ha']. cbn [fst snd]. split; [exact A1|]. intros Hnz b o. cbn [skipped with_len with_payload pb_payload].
    destruct (pb_payload x) as [[b0 o0]|]; [|discriminate]. intros [= <- <-]. apply (A2 ltac:(lia) b0 o0 eq_refl).
Qed.

Lemma chain_suffix h p l0 a x l : chain h p (l0 ++ (a, x) :: l) -> chain h (Some a) ((a, x) :: l).
Proof.
  revert p. induction l0 as [|[b y] l0 IH]; intros p H; cbn [app] in H; inversion H; subst; [assumption|]. eauto.
Qed.

Lemma source_suffix bs st original hdr p l0 a x l :
  source bs st original hdr p (l0 ++ (a, x) :: l) -> source bs st original hdr (Some a) ((a, x) :: l).
Proof.
  intros [Hc Hv Hsh Ha Hh Hhd Ht]. unfold all_valid, short_pbufs, apart in *. rewrite Forall_app in Hv, Hsh, Ha. constructor; auto; try tauto.
  exact (chain_suffix _ _ _ _ _ _ Hc).
Qed.

(** ** One turn *)

Lemma building_moved stb st rb o lr a x y :
  building_frag stb st rb o lr -> st_pbufs stb !! a = Some x -> building_frag (set_pbuf a y stb) (set_pbuf a y st) rb o lr.
Proof.
  intros [Be [Bc Bt] Bv Br Bh Ba] Hx. assert (Hn : ~ In a (addrs lr)) by (apply (extends_fresh _ _ _ _ Be); left; eauto).
  constructor; auto.
  - destruct Be as [H K]. split; intros b Hb; cbn.
    + assert (b <> a) by (intros ->; contradiction). rewrite lookup_insert_ne by congruence. auto.
    + destruct (decide (b = a)) as [->|Hne]; [rewrite !lookup_insert_eq; split; [reflexivity|now apply K]|].
      rewrite !lookup_insert_ne by congruence. auto.
  - split; [|exact Bt]. now apply chain_insert.
Qed.

Section Turn.
Context {W : Type} (held : W -> list addr) (handed : W -> list (netif * Z * list Z)).
Context (output : netif -> addr -> Z -> store -> W -> M (Z * store * W)) `{!Driver held handed output}.
Variable junk : nat -> Z.

(** New pbufs are handed over. *)
Lemma building_sent stb st rb o lr n dest w :
  building_frag stb st rb o lr -> accounted held stb w ->
  surely (hand_over output n rb dest st w)
    (fun '(st', w') => evolves held [] stb w st' w' /\ accounted held st' w' /\
       handed w' = handed w ++ [(n, dest, content (st_mem st) lr)]).
Proof.
  intros [Be Bp Bv Br Bh Ba] Hacc.
  assert (Hh : forall b, In b (held w) -> ~ In b (addrs lr)) by (intros b Hb; apply (extends_fresh _ _ _ _ Be); left; now apply (proj2 Hacc)).
  assert (Hac1 : accounted held st w) by (revert Hacc; apply accounted_alive; intros b Hb; now rewrite (proj1 (proj2 Be b (Hh b Hb)))).
  eapply surely_weaken.
  { apply (driver_takes n rb lr dest st w Bp Bv Br); [|intros b Hb Hb'; exact (Hh b Hb' Hb)].
    exact Hac1. }
  intros [st' w'] ((A & B & C) & E). assert (Hac : accounted held st' w').
  { exact (C Hac1). }
  split; [|auto]. split; [|split; [|auto]]; intros b.
  - intros Hl Hb _. pose proof (extends_fresh _ _ _ _ Be Hl) as Hn. destruct (proj2 Be b Hn) as [P M].
    destruct (A b) as (P' & M' & H); [exact (live_same _ _ _ P M Hl)|exact Hb|exact Hn|]. split; [congruence|]. split; [congruence|exact H].
  - intros Hb. apply B. destruct (in_dec Pos.eq_dec b (addrs lr)) as [Hi|Hi]; [auto|]. destruct (proj2 Be b Hi) as [-> _].
    destruct Hb as [Hb|[Hb|[]]]; auto.
Qed.

(** What one turn leaves: the part [part] was sent, and [l'] is left. *)
Record turned (n : netif) (dest : Z) (original : option (addr * Z)) (hdr : list Z) (a : addr) (l : list (addr * pbuf)) (data : list Z) (cop tmp : Z)
    (st : store) (w : W) (st' : store) (w' : W) (p' : option addr) (np : Z) : Prop := Turned
  { tu_drift : drifts held [a] st w st' w'; tu_accounted : accounted held st' w';
    tu_handed : handed w' = handed w ++ [(n, dest, checked (renewed hdr (cop + IP_HLEN) (htons tmp)) ++ firstn (Z.to_nat cop) data)];
    tu_left : exists b y l', p' = Some b /\ source (held w') st' original hdr p' ((b, y) :: l') /\ 0 < np <= pb_len y /\
      skipn (Z.to_nat np) (content (st_mem st') ((b, y) :: l')) = skipn (Z.to_nat cop) data /\
      ((b = a /\ l' = l /\ np = cop) \/ exists l0, l = l0 ++ (b, y) :: l') }.

Lemma send_frag_spec n dest original hdr a x l cop tmp poff np st w :
  accounted held st w -> source (held w) st original hdr (Some a) ((a, x) :: l) ->
  IP_HLEN <= pb_len x -> 0 <= poff <= pb_len x -> 0 < cop <= total ((a, x) :: l) - poff -> cop + IP_HLEN < 65536 ->
  surely (send_frag junk output n dest original (Some a) cop tmp poff np st w)
    (fun '(rest, st', w') => match rest with
       | None => w' = w /\ drifts held [a] st w st' w' /\ accounted held st' w'
       | Some (p', np') => turned n dest original hdr a l (skipn (Z.to_nat poff) (content (st_mem st) ((a, x) :: l))) cop tmp st w st' w' p' np'
       end).
Proof.
  intros Hacc Hs Hx Hpoff Hcop Hmax. unfold send_frag. unfold IP_HLEN in Hx, Hmax. eapply surely_bind; [apply alloc_header|].
  intros [[rb|] st1]; [|intros ->; apply surely_ret; split; [reflexivity|split; [apply drifts_refl|exact Hacc]]]. intros B1.
  assert (Hx0 : st_pbufs st !! a = Some x) by (pose proof (so_chain _ _ _ _ _ _ Hs) as Hc; now inversion Hc).
  destruct (source_extends _ _ _ _ _ _ _ _ (bf_extends _ _ _ _ _ B1) Hs) as [S1 C1].
  rewrite (fetch_some st1 a x) by (pose proof (so_chain _ _ _ _ _ _ S1) as Hc; now inversion Hc).
  rewrite bind_ret, lwip_assert_true, bind_ret by (apply Z.leb_le; exact Hx).
  destruct (source_load _ _ _ _ _ _ S1) as [El Lh]. rewrite El, bind_ret.
  set (y := Pbuf None (Some (rb, 14)) 20 20 PBUF_RAM 0 1) in *. set (lr := [(rb, y)]) in *.
  rewrite (fetch_some st1 rb y) by (pose proof (proj1 (bf_packet _ _ _ _ _ B1)) as Hc; now inversion Hc). rewrite bind_ret.
  destruct (write_header st st1 rb 14 lr y hdr B1 Lh eq_refl) as (st2 & E2 & B2 & C2). rewrite E2, bind_ret.
  assert (E20 : skipn 20 (content (st_mem st1) lr) = []).
  { pose proof (bf_valid _ _ _ _ _ B1) as Hv. apply length_zero_iff_nil. rewrite length_skipn.
    pose proof (content_length _ _ Hv) as Hl. cbn in Hl |- *. lia. }
  rewrite E20, app_nil_r in C2.
  destruct (source_skip _ _ _ _ _ _ _ poff Hs Hpoff) as (_ & S3 & T3 & C3). set (x3 := skipped x poff) in *. set (l3 := (a, x3) :: l) in *.
  set (st3 := set_pbuf a x3 st) in *. destruct (source_extends _ _ _ _ _ _ _ _ (bf_extends _ _ _ _ _ B2) Hs) as [S2 _].
  destruct (source_skip _ _ _ _ _ _ _ poff S2 Hpoff) as (Es & _ & _ & _). rewrite Es, bind_ret.
  assert (B3 : building_frag st3 (set_pbuf a x3 st2) rb 14 lr) by exact (building_moved _ _ _ _ _ _ _ _ B2 Hx0).
  assert (D3 : drifts held [a] st w st3 w) by (apply (moved_drifts held a x); [exact Hx0|reflexivity]).
  assert (A3 : accounted held st3 w) by exact (accounted_moved held _ _ _ _ _ Hx0 Hacc).
  eapply surely_bind.
  { apply (frag_copy_spec junk (walk_fuel (set_pbuf a x3 st2)) st3 _ rb 14 lr (Some a) l3 cop np B3 (so_chain _ _ _ _ _ _ S3) (so_valid _ _ _ _ _ _ S3)).
    - lia.
    - cbn. lia.
    - pose proof (chain_size _ _ _ (extends_chain _ _ _ _ _ (bf_extends _ _ _ _ _ B3) (so_chain _ _ _ _ _ _ S3))). unfold walk_fuel. lia. }
  intros [[[p' np']|] st4]; [|intros ->; apply surely_ret; auto].
  intros (lr' & l0 & b & z & l' & -> & El3 & Hnp & Hsum & B4 & T4 & C4).
  unfold frag_header. rewrite with_chksum_spec, bind_ret by (apply renewed_length, Lh).
  destruct (write_header st3 st4 rb 14 lr' y (checked (renewed hdr (cop + IP_HLEN) (htons tmp))) B4) as (st5 & E5 & B5 & C5);
    [apply checked_length, renewed_length, Lh|reflexivity|].
  rewrite E5, bind_ret. eapply surely_bind; [apply (building_sent st3 st5 rb 14 lr' n dest w B5 A3)|].
  intros [st6 w6] (Hev & Hacc6 & Hh6). apply surely_ret.
  change (st_mem (set_pbuf a x3 st2)) with (st_mem st2) in C4. rewrite C2 in C4.
  rewrite C5, C4, skipn_app, Lh, (skipn_all2 hdr), Nat.sub_diag, drop_0, C3 in Hh6 by lia. cbn [app] in Hh6.
  assert (Hd6 : drifts held [a] st w st6 w6) by (eapply drifts_trans; [exact D3|now apply evolves_drifts]).
  destruct (source_step (held w) (held w6) st3 st6 original hdr (Some a) l3) as [S6 C6].
  { intros b' Hl Hb'. apply (proj1 Hev b' Hl Hb'). intros []. } { exact S3. }
  constructor; [exact Hd6|exact Hacc6|exact Hh6|]. rewrite El3 in S6. exists b, z, l'. split; [reflexivity|].
  split; [exact (source_suffix _ _ _ _ _ _ _ _ _ S6)|]. split; [exact Hnp|].
  split.
  2: { pose proof El3 as J. unfold l3 in J. destruct l0 as [|c0 l0]; [left|right].
       - injection J as J1 J2 J3. cbn in Hsum. split; [congruence|]. split; [congruence|lia].
       - injection J as J1 J2. now exists l0. }
  rewrite <- C3, <- C6, El3, content_app, skipn_app.
  pose proof (so_valid _ _ _ _ _ _ S6) as Hv6. apply Forall_app in Hv6 as [Hv6 _]. pose proof (content_length _ _ Hv6) as L0.
  rewrite (skipn_all2 (content (st_mem st6) l0)) by lia. cbn [app]. f_equal. lia.
Qed.

(** ** The whole datagram *)

(** Every pbuf with data has room for a header. *)
Definition wide (l : list (addr * pbuf)) : Prop := Forall (fun c => pb_len (snd c) = 0 \/ IP_HLEN <= pb_len (snd c)) l.

Lemma turned_wide n dest original hdr a l data cop tmp st w st' w' p' np :
  turned n dest original hdr a l data cop tmp st w st' w' p' np -> wide l -> IP_HLEN <= cop ->
  exists b y l', p' = Some b /\ source (held w') st' original hdr (Some b) ((b, y) :: l') /\ 0 <= np <= pb_len y /\
    skipn (Z.to_nat np) (content (st_mem st') ((b, y) :: l')) = skipn (Z.to_nat cop) data /\
    IP_HLEN <= pb_len y /\ wide l' /\ (forall c, In c (addrs ((b, y) :: l')) -> In c (a :: addrs l)).
Proof.
  intros [_ _ _ (b & y & l' & -> & Hs & Hnp & Ed & [(-> & -> & ->)|(l0 & ->)])] Hw Hc; exists b, y, l' || exists a, y, l.
  - repeat (split; [first [reflexivity|assumption|lia]|]). auto.
  - unfold wide in Hw. apply Forall_app in Hw as [_ Hw]. inversion Hw as [|? ? Hy Hw']; subst. cbn [snd] in Hy.
    repeat (split; [first [reflexivity|assumption|lia]|]). intros c Hin. right. rewrite map_app, in_app_iff. now right.
Qed.

(** The fragment with the data [part] at the offset [ofo]. *)
Definition fragment (hdr : list Z) (mf ofo : Z) (part : list Z) : list Z :=
  checked (renewed hdr (Z.of_nat (length part) + IP_HLEN) (htons (Z.lor mf (Z.land IP_OFFMASK ofo)))) ++ part.

(** Blocks of eight bytes that fit. *)
Definition blocks (mtu : Z) : Z := (mtu - IP_HLEN) / 8.

(** The fragments of [data] from the offset [ofo] on: as many whole blocks as
    fit, and the rest when it fits. *)
Fixpoint fragments (fuel : nat) (mtu : Z) (hdr : list Z) (omf ofo : Z) (data : list Z) : list (list Z) :=
  match data, fuel with
  | [], _ | _, O => []
  | _, S fuel' =>
      if Z.of_nat (length data) <=? mtu - IP_HLEN then [fragment hdr omf ofo data]
      else
        let k := Z.to_nat (8 * blocks mtu) in
        fragment hdr (Z.lor omf IP_MF) ofo (firstn k data) :: fragments fuel' mtu hdr omf (u16 (ofo + blocks mtu)) (skipn k data)
  end.

Lemma blocks_bounds mtu : 28 <= mtu -> 8 <= 8 * blocks mtu <= mtu - IP_HLEN.
Proof. unfold blocks, IP_HLEN. intros H. dlia. Qed.

Lemma fragments_fuel f1 f2 mtu hdr omf ofo data :
  28 <= mtu -> (length data <= f1)%nat -> (length data <= f2)%nat -> fragments f1 mtu hdr omf ofo data = fragments f2 mtu hdr omf ofo data.
Proof.
  intros Hm. pose proof (blocks_bounds mtu Hm). revert f2 ofo data. induction f1 as [|f1 IH]; intros f2 ofo data H1 H2.
  { destruct data; [now destruct f2|cbn in H1; lia]. }
  destruct data as [|z data]; [now destruct f2|]. destruct f2 as [|f2]; [cbn in H2; lia|]. cbn [fragments].
  destruct (_ <=? _); [reflexivity|]. f_equal. cbv zeta. apply IH; rewrite length_skipn; cbn [length] in *; lia.
Qed.

(** The length of the next fragment, and its offset field. *)
Definition turn_cop (mtu left : Z) : Z := if left <=? mtu - IP_HLEN then left else 8 * blocks mtu.
Definition turn_tmp (mtu omf ofo left : Z) : Z :=
  if left <=? mtu - IP_HLEN then Z.lor omf (Z.land IP_OFFMASK ofo) else Z.lor (Z.lor omf (Z.land IP_OFFMASK ofo)) IP_MF.

Lemma fragments_step mtu hdr omf ofo data :
  28 <= mtu -> data <> [] ->
  let cop := turn_cop mtu (Z.of_nat (length data)) in
  let rest := skipn (Z.to_nat cop) data in
  0 < cop <= Z.of_nat (length data) /\
  fragments (length data) mtu hdr omf ofo data =
    (checked (renewed hdr (cop + IP_HLEN) (htons (turn_tmp mtu omf ofo (Z.of_nat (length data))))) ++ firstn (Z.to_nat cop) data) ::
    fragments (length rest) mtu hdr omf (u16 (ofo + blocks mtu)) rest.
Proof.
  intros Hm Hne. pose proof (blocks_bounds mtu Hm) as Hb. unfold turn_cop, turn_tmp. destruct data as [|z data]; [contradiction|]. cbv zeta.
  set (d := z :: data). assert (Hd : (0 < length d)%nat) by (cbn; lia).
  change (fragments (length d) mtu hdr omf ofo d) with
    (if Z.of_nat (length d) <=? mtu - IP_HLEN then [fragment hdr omf ofo d]
     else fragment hdr (Z.lor omf IP_MF) ofo (firstn (Z.to_nat (8 * blocks mtu)) d) ::
            fragments (length data) mtu hdr omf (u16 (ofo + blocks mtu)) (skipn (Z.to_nat (8 * blocks mtu)) d)).
  destruct (Z.leb_spec (Z.of_nat (length d)) (mtu - IP_HLEN)).
  - split; [lia|]. rewrite Nat2Z.id, firstn_all, skipn_all. reflexivity.
  - split; [lia|]. unfold fragment at 1. f_equal.
    + rewrite length_firstn, Nat.min_l by lia. rewrite Z2Nat.id by lia.
      now rewrite <- !Z.lor_assoc, (Z.lor_comm IP_MF).
    + apply fragments_fuel; [exact Hm| |]; rewrite length_skipn; [|lia]. subst d. cbn [length] in *. lia.
Qed.

Lemma frag_loop_spec fuel n dest original hdr a x l left ofo omf poff np st w data :
  accounted held st w -> source (held w) st original hdr (Some a) ((a, x) :: l) -> IP_HLEN <= pb_len x -> wide l ->
  0 <= poff <= pb_len x -> data = skipn (Z.to_nat poff) (content (st_mem st) ((a, x) :: l)) -> Z.of_nat (length data) = left ->
  left + IP_HLEN < 65536 -> 44 <= nf_mtu n < 65536 -> (length data <= fuel)%nat ->
  surely (frag_loop junk output fuel n dest original (Some a) left ofo omf poff np st w)
    (fun '(err, st', w') => drifts held (a :: addrs l) st w st' w' /\ accounted held st' w' /\
       exists sent unsent, fragments (length data) (nf_mtu n) hdr omf ofo data = sent ++ unsent /\
         handed w' = handed w ++ map (fun d => (n, dest, d)) sent /\
         ((err = ERR_OK /\ unsent = []) \/ (err = ERR_MEM /\ unsent <> []))).
Proof.
  revert a x l left ofo poff np st w data. induction fuel as [|fuel IH]; intros a x l left ofo poff np st w data Hacc Hs Hx Hw Hpoff Hd Hl Hmax Hmtu Hf.
  { destruct data; [|cbn in Hf; lia]. cbn in Hl. subst left. apply surely_ret. split; [apply drifts_refl|]. split; [exact Hacc|].
    exists [], []. cbn. rewrite app_nil_r. auto. }
  cbn [frag_loop]. destruct (Z.eqb_spec left 0) as [E0|E0].
  { subst left. destruct data; [|cbn in E0; lia]. apply surely_ret. split; [apply drifts_refl|]. split; [exact Hacc|].
    exists [], []. cbn. rewrite app_nil_r. auto. }
  cbv zeta. set (mtu := nf_mtu n) in *. pose proof (blocks_bounds mtu ltac:(lia)) as Hb.
  assert (Enfb : u16 (Z.quot (mtu - IP_HLEN) 8) = blocks mtu).
  { unfold blocks, IP_HLEN in *. rewrite Z.quot_div_nonneg by lia. unfold u16. apply Z.mod_small. dlia. }
  rewrite Enfb. set (nfb := blocks mtu) in *.
  assert (E8 : u16 (nfb * 8) = 8 * nfb) by (unfold u16; rewrite Z.mod_small; unfold IP_HLEN in *; lia). rewrite E8.
  subst left. change (if Z.of_nat (length data) <=? mtu - IP_HLEN then Z.of_nat (length data) else 8 * nfb) with (turn_cop mtu (Z.of_nat (length data))).
  destruct (fragments_step mtu hdr omf ofo data) as [Hcop Efr]; [lia|intros ->; now destruct E0|].
  set (cop := turn_cop mtu (Z.of_nat (length data))) in *. set (tmp := turn_tmp mtu omf ofo (Z.of_nat (length data))) in *.
  assert (Htot : cop <= total ((a, x) :: l) - poff).
  { pose proof (content_length _ _ (so_valid _ _ _ _ _ _ Hs)) as Hc. apply (f_equal (@length Z)) in Hd. rewrite length_skipn in Hd. lia. }
  eapply surely_bind; [apply (send_frag_spec n dest original hdr a x l cop tmp poff np st w Hacc Hs Hx Hpoff); lia|].
  intros [[[[p' np']|] st1] w1].
  2: { intros (-> & Hdr & Hacc1). apply surely_ret. split; [apply (drifts_weaken held [a]); [exact Hdr|intros b [<-|[]]; now left]|].
       split; [exact Hacc1|]. exists [], (fragments (length data) mtu hdr omf ofo data). rewrite Efr. cbn [app map]. rewrite app_nil_r.
       split; [reflexivity|]. split; [reflexivity|]. right. split; [reflexivity|discriminate]. }
  intros Htu. pose proof Htu as [Hdr Hacc1 Hh1 _]. rewrite <- Hd in Hh1. set (rest := skipn (Z.to_nat cop) data) in *.
  assert (Erest : u16 (Z.of_nat (length data) - cop) = Z.of_nat (length rest)).
  { unfold rest. rewrite length_skipn. unfold u16, IP_HLEN in *. rewrite Z.mod_small; lia. }
  rewrite Erest.
  assert (Hdone : rest = [] \/ IP_HLEN <= cop).
  { unfold rest, cop, turn_cop, nfb, IP_HLEN in *. destruct (Z.leb_spec (Z.of_nat (length data)) (mtu - 20)); [left|right].
    - apply skipn_all2. lia.
    - unfold blocks, IP_HLEN in *. dlia. }
  assert (Hgo : surely (frag_loop junk output fuel n dest original p' (Z.of_nat (length rest)) (u16 (ofo + nfb)) omf np' np' st1 w1)
    (fun '(err, st', w') => drifts held (a :: addrs l) st1 w1 st' w' /\ accounted held st' w' /\
       exists sent unsent, fragments (length rest) mtu hdr omf (u16 (ofo + nfb)) rest = sent ++ unsent /\
         handed w' = handed w1 ++ map (fun d => (n, dest, d)) sent /\
         ((err = ERR_OK /\ unsent = []) \/ (err = ERR_MEM /\ unsent <> [])))).
  { destruct Hdone as [E|Hc20].
    - rewrite E. assert (El : forall k p q, frag_loop junk output k n dest original p 0 q omf np' np' st1 w1 = ret (ERR_OK, st1, w1)) by (intros [|k] ? ?; reflexivity).
      cbn [length Z.of_nat]. rewrite El. apply surely_ret. split; [apply drifts_refl|]. split; [exact Hacc1|]. exists [], []. cbn. rewrite app_nil_r. auto.
    - destruct (turned_wide _ _ _ _ _ _ _ _ _ _ _ _ _ _ _ Htu Hw Hc20) as (b & y & l' & -> & Hs1 & Hnp & Ed1 & Hy & Hw' & Hsub).
      rewrite <- Hd in Ed1. fold rest in Ed1.
      eapply surely_weaken; [apply (IH b y l' (Z.of_nat (length rest)) (u16 (ofo + nfb)) np' np' st1 w1 rest Hacc1 Hs1 Hy Hw' Hnp)|].
      + now symmetry.
      + reflexivity.
      + unfold rest. rewrite length_skipn. lia.
      + exact Hmtu.
      + unfold rest. rewrite length_skipn. lia.
      + intros [[err st'] w'] (D & A & R). split; [exact (drifts_weaken held _ _ _ _ _ _ D Hsub)|]. auto. }
  eapply surely_weaken; [exact Hgo|]. intros [[err st'] w'] (D & A & sent & unsent & Es & Eh & Ee).
  split; [eapply drifts_trans; [|exact D]; apply (drifts_weaken held [a]); [exact Hdr|intros b [<-|[]]; now left]|].
  split; [exact A|]. exists ((checked (renewed hdr (cop + IP_HLEN) (htons tmp)) ++ firstn (Z.to_nat cop) data) :: sent), unsent.
  split; [rewrite Efr; cbn [app]; now rewrite <- Es|]. split; [|exact Ee]. rewrite Eh, Hh1, <- app_assoc. reflexivity.
Qed.

Lemma totals_short l : totals_ok l -> short_pbufs l.
Proof.
  induction l as [|[a x] l IH]; cbn [totals_ok total]; [constructor|]. intros (_ & H0 & _ & Ht & Hl). pose proof (totals_nonneg _ Hl).
  constructor; [cbn; lia|now apply IH].
Qed.

(** A datagram whose pbufs nobody else has. *)
Record to_send (st : store) (w : W) (p : addr) (x : pbuf) (l : list (addr * pbuf)) : Prop := ToSend
  { ts_accounted : accounted held st w; ts_packet : packet st (Some p) ((p, x) :: l); ts_valid : all_valid (st_mem st) ((p, x) :: l);
    ts_apart : apart (held w) ((p, x) :: l); ts_head : IP_HLEN <= pb_len x; ts_wide : wide l }.

Lemma to_send_source st w p x l :
  to_send st w p x l -> source (held w) st (pb_payload x) (firstn 20 (content (st_mem st) ((p, x) :: l))) (Some p) ((p, x) :: l).
Proof.
  intros [Ha [Hc Ht] Hv Hap Hh Hw]. inversion Hv as [|? ? Hvx _]; subst. cbn [snd] in Hvx. unfold IP_HLEN in Hh.
  assert (Hb : valid (st_mem st) (header_pbuf (pb_payload x)) /\ bytes_of (st_mem st) (header_pbuf (pb_payload x)) = firstn 20 (bytes_of (st_mem st) x)).
  { destruct Hvx as [_ Hx]. specialize (Hx ltac:(lia)). unfold valid, bytes_of. cbn [header_pbuf pb_payload pb_len]. unfold IP_HLEN.
    destruct (pb_payload x) as [[b o]|]; [|contradiction]. split; [split; [lia|intros _; lia]|]. rewrite firstn_firstn. f_equal. lia. }
  constructor; auto.
  - now apply totals_short.
  - apply Hb.
  - rewrite (proj2 Hb). cbn [content]. rewrite firstn_app. pose proof (bytes_length _ _ Hvx) as Hl.
    replace (20 - length (bytes_of (st_mem st) x))%nat with O by lia. now rewrite firstn_O, app_nil_r.
  - intros b o Hp. inversion Hap as [|? ? [_ Hn] _]; subst. cbn [snd] in Hn. apply (Hn ltac:(lia) b o Hp).
Qed.

Lemma ip_frag_spec p n dest x l st w :
  to_send st w p x l -> 44 <= nf_mtu n < 65536 ->
  let hdr := firstn 20 (content (st_mem st) ((p, x) :: l)) in
  let data := skipn 20 (content (st_mem st) ((p, x) :: l)) in
  let tmp := ntohs (IPH_OFFSET hdr) in
  surely (ip_frag junk output p n dest st w)
    (fun '(err, st', w') => drifts held (p :: addrs l) st w st' w' /\ accounted held st' w' /\
       exists sent unsent, fragments (length data) (nf_mtu n) hdr (Z.land tmp IP_MF) (Z.land tmp IP_OFFMASK) data = sent ++ unsent /\
         handed w' = handed w ++ map (fun d => (n, dest, d)) sent /\
         ((err = ERR_OK /\ unsent = []) \/ (err = ERR_MEM /\ unsent <> []))).
Proof.
  intros Hts Hmtu hdr data tmp. pose proof (to_send_source _ _ _ _ _ Hts) as Hs. fold hdr in Hs. pose proof Hts as [Ha [Hc Ht] Hv Hap Hh Hw].
  unfold ip_frag. rewrite (fetch_some _ _ x) by now inversion Hc. rewrite bind_ret.
  destruct (source_load _ _ _ _ _ _ Hs) as [El Lh]. rewrite El, bind_ret. cbv zeta. fold tmp.
  pose proof (content_length _ _ Hv) as Lc. destruct Ht as (Et & H0 & _ & Hmax & Hl). pose proof (totals_nonneg _ Hl).
  assert (Ld : Z.of_nat (length data) = pb_tot_len x - IP_HLEN).
  { unfold data. rewrite length_skipn, Et. unfold IP_HLEN in *. cbn [total] in *. lia. }
  assert (Eu : u16 (pb_tot_len x - IP_HLEN) = Z.of_nat (length data)) by (rewrite Ld; unfold u16; apply Z.mod_small; unfold IP_HLEN in *; cbn [total] in *; lia).
  rewrite Eu. apply (frag_loop_spec _ n dest _ hdr p x l _ _ _ IP_HLEN 0 st w data); auto; unfold IP_HLEN in *; cbn [total] in *; lia.
Qed.
End Turn.

(** ** What the fragments are *)

Lemma fragment_parts hdr mf ofo part :
  length hdr = 20%nat -> length (fragment hdr mf ofo part) = (20 + length part)%nat /\
  firstn 20 (fragment hdr mf ofo part) = checked (renewed hdr (Z.of_nat (length part) + IP_HLEN) (htons (Z.lor mf (Z.land IP_OFFMASK ofo)))) /\
  skipn 20 (fragment hdr mf ofo part) = part.
Proof.
  intros H. unfold fragment. set (h := checked _). assert (Lh : length h = 20%nat) by now apply checked_length, renewed_length.
  rewrite length_app, Lh. split; [reflexivity|]. rewrite firstn_app, skipn_app, Lh, Nat.sub_diag, drop_0, firstn_O, app_nil_r.
  rewrite firstn_all2, skipn_all2 by lia. auto.
Qed.

(** They carry the data, none is larger than the interface allows, and their
    headers verify. *)
Lemma fragments_facts fuel mtu hdr omf ofo data :
  length hdr = 20%nat -> 28 <= mtu -> (length data <= fuel)%nat ->
  let ds := fragments fuel mtu hdr omf ofo data in
  concat (map (skipn 20) ds) = data /\ Forall (fun d => Z.of_nat (length d) <= mtu) ds /\
  (Forall byte hdr -> Forall (fun d => inet_chksum (firstn 20 d) IP_HLEN = ret 0) ds).
Proof.
  intros Hh Hm. pose proof (blocks_bounds mtu Hm) as Hb. unfold IP_HLEN in Hb. revert ofo data.
  assert (Hone : forall mf o part, Z.of_nat (length part) <= mtu - 20 -> skipn 20 (fragment hdr mf o part) = part /\
    Z.of_nat (length (fragment hdr mf o part)) <= mtu /\ (Forall byte hdr -> inet_chksum (firstn 20 (fragment hdr mf o part)) IP_HLEN = ret 0)).
  { intros mf o part Hp. destruct (fragment_parts hdr mf o part Hh) as (E1 & E2 & E3). rewrite E1, E2, E3.
    split; [reflexivity|]. split; [lia|]. intros Hby. now apply renewed_verifies. }
  induction fuel as [|fuel IH]; intros ofo data Hf; [destruct data; [cbn; auto|cbn in Hf; lia]|]. destruct data as [|z data]; [cbn; auto|].
  set (d := z :: data) in *. set (k := Z.to_nat (8 * blocks mtu)).
  change (fragments (S fuel) mtu hdr omf ofo d) with
    (if Z.of_nat (length d) <=? mtu - IP_HLEN then [fragment hdr omf ofo d]
     else fragment hdr (Z.lor omf IP_MF) ofo (firstn k d) :: fragments fuel mtu hdr omf (u16 (ofo + blocks mtu)) (skipn k d)).
  change (mtu - IP_HLEN) with (mtu - 20). destruct (Z.leb_spec (Z.of_nat (length d)) (mtu - 20)) as [Hle|Hgt]; cbv zeta.
  - destruct (Hone omf ofo d Hle) as (E1 & E2 & E3). cbn [map concat]. rewrite E1, app_nil_r. auto.
  - destruct (Hone (Z.lor omf IP_MF) ofo (firstn k d)) as (E1 & E2 & E3); [rewrite length_firstn; lia|].
    destruct (IH (u16 (ofo + blocks mtu)) (skipn k d)) as (I1 & I2 & I3); [rewrite length_skipn; lia|].
    cbn [map concat]. rewrite E1, I1, firstn_skipn. auto.
Qed.


(** ** The fields of a fragment *)

Definition frag_hdr (hdr : list Z) (mf ofo len : Z) : list Z := checked (renewed hdr (len + IP_HLEN) (htons (Z.lor mf (Z.land IP_OFFMASK ofo)))).

Lemma offset_bits mf ofo :
  mf = 0 \/ mf = IP_MF -> 0 <= ofo <= IP_OFFMASK ->
  let tmp := Z.lor mf (Z.land IP_OFFMASK ofo) in
  0 <= tmp < 65536 /\ Z.land tmp IP_OFFMASK = ofo /\ Z.land tmp IP_MF = mf.
Proof.
  intros Hmf Ho. unfold IP_OFFMASK, IP_MF in *. cbv zeta.
  assert (E : Z.land ofo 0x1fff = ofo) by (change 0x1fff with (Z.ones 13); rewrite Z.land_ones by lia; apply Z.mod_small; lia).
  assert (Hk : forall k, Z.land 0x1fff k = 0x1fff \/ Z.land 0x1fff k = 0 -> Z.land ofo k = if Z.land 0x1fff k =? 0 then 0 else ofo).
  { intros k Hk. transitivity (Z.land (Z.land ofo 0x1fff) k); [now rewrite E|]. rewrite <- Z.land_assoc. destruct Hk as [Hk|Hk]; rewrite Hk; cbn [Z.eqb]; [exact E|apply Z.land_0_r]. }
  rewrite (Z.land_comm _ ofo), E. split; [|split].
  - assert (Em : Z.land (Z.lor mf ofo) 65535 = Z.lor mf ofo) by (rewrite Z.land_lor_distr_l, (Hk 65535) by (now left); destruct Hmf; subst; reflexivity).
    rewrite <- Em. change 65535 with (Z.ones 16). rewrite Z.land_ones by lia. apply Z.mod_pos_bound. lia.
  - rewrite Z.land_lor_distr_l, E. destruct Hmf; subst; reflexivity.
  - rewrite Z.land_lor_distr_l, (Hk 0x2000) by (now right). destruct Hmf; subst; reflexivity.
Qed.

(** A header of twenty bytes. *)
Definition plain_header (hdr : list Z) : Prop := length hdr = 20%nat /\ IPH_HL hdr * 4 = IP_HLEN.

Lemma frag_hdr_fields hdr mf ofo len :
  plain_header hdr -> mf = 0 \/ mf = IP_MF -> 0 <= ofo -> 0 <= len -> 8 * ofo + len <= 65515 ->
  let h := frag_hdr hdr mf ofo len in
  length h = 20%nat /\ IPH_HL h * 4 = IP_HLEN /\ ntohs (IPH_LEN h) = len + IP_HLEN /\ frag_offset h = 8 * ofo /\ frag_len h = len /\
  more_fragments h = negb (mf =? 0) /\ same_datagram hdr h.
Proof.
  intros [L HL] Hmf Ho Hl Hmax h. set (off := htons (Z.lor mf (Z.land IP_OFFMASK ofo))) in *.
  destruct (offset_bits mf ofo Hmf) as (Ht & Hbo & Hbm); [unfold IP_OFFMASK; lia|].
  assert (Hoff : ntohs (IPH_OFFSET h) = Z.lor mf (Z.land IP_OFFMASK ofo)).
  { unfold h, frag_hdr. rewrite new_offset by (auto; apply htons_range; exact Ht). now apply htons_involutive. }
  assert (Hlen : ntohs (IPH_LEN h) = len + IP_HLEN).
  { unfold h, frag_hdr. rewrite new_len by (auto; unfold IP_HLEN; lia). apply htons_involutive. unfold IP_HLEN. lia. }
  assert (HHL : IPH_HL h = IPH_HL hdr) by (unfold IPH_HL, h, frag_hdr; now rewrite new_get16 by auto).
  split; [now apply checked_length, renewed_length|]. split; [now rewrite HHL|]. split; [exact Hlen|].
  split; [unfold frag_offset; rewrite Hoff, Hbo; unfold u16; rewrite Z.mod_small; lia|].
  split; [unfold frag_len; rewrite Hlen, HHL, HL; unfold u16, IP_HLEN; rewrite Z.mod_small; lia|].
  split; [unfold more_fragments; now rewrite Hoff, Hbm|].
  apply same_datagram_fields. unfold iph_src, iph_dest, IPH_ID, h, frag_hdr. rewrite !new_get32, new_get16 by (auto; lia). auto.
Qed.

(** ** The packets of the receiver *)

Section Receiver.
Context {W : Type} (held : W -> list addr).
Context (icmp_time_exceeded : addr -> Z -> store -> W -> M (store * W)).

(** A packet: its first pbuf and the others. *)
Definition parcel : Type := addr * pbuf * list (addr * pbuf).

Definition parcel_pbufs (c : parcel) : list (addr * pbuf) := (fst (fst c), snd (fst c)) :: snd c.

(** The bytes [d] have arrived in a packet that nobody else has; the pbufs
    after the first are few, and the first has the header and eight bytes. *)
Record received (s : reass W) (fss : list (list frag)) (c : parcel) (d : list Z) : Prop := Received
  { rv_packet : whole_packet (re_store s) (fst (fst c)) (snd (fst c)) (snd c);
    rv_bytes : content (st_mem (re_store s)) (parcel_pbufs c) = d;
    rv_free : forall b, In b (addrs (parcel_pbufs c)) -> ~ In b (pbufs_of fss) /\ ~ In b (held (re_world s));
    rv_few : (length (snd c) < 255)%nat; rv_room : IP_HLEN + 8 <= pb_len (snd (fst c)) \/ length (snd c) = O }.

(** The packet as a fragment. *)
Definition parcel_frag (s : reass W) (c : parcel) : frag :=
  frag_of (st_mem (re_store s)) (firstn 20 (content (st_mem (re_store s)) (parcel_pbufs c))) (fst (fst c)) (snd (fst c)) (snd c).

Lemma received_waiting s fss c hdr hdr0 mf ofo part :
  received s fss c (fragment hdr mf ofo part) -> plain_header hdr -> same_datagram hdr0 hdr -> mf = 0 \/ mf = IP_MF -> 0 <= ofo ->
  (0 < length part)%nat -> 8 * ofo + Z.of_nat (length part) <= 65515 -> (ofo = 0 -> 8 <= Z.of_nat (length part)) ->
  let f := parcel_frag s c in
  waiting held s fss hdr0 f /\ f_addr f = fst (fst c) /\ f_addrs f = addrs (parcel_pbufs c) /\
  f_start f = 8 * ofo /\ f_end f = 8 * ofo + Z.of_nat (length part) /\ f_data f = part /\
  f_hdr f = frag_hdr hdr mf ofo (Z.of_nat (length part)) /\ more_fragments (f_hdr f) = negb (mf =? 0).
Proof.
  destruct c as [[a x] l]. intros [Hp Hb Hf Hs Hr] Hh Hsd Hmf Ho Hlen Hmax H8 f. unfold parcel_pbufs in *. cbn [fst snd] in *.
  destruct (frag_hdr_fields hdr mf ofo (Z.of_nat (length part)) Hh Hmf Ho) as (Lh & HLh & Hln & Hoff & Hfl & Hmore & Hsame); [lia|exact Hmax|].
  unfold fragment in Hb. fold (frag_hdr hdr mf ofo (Z.of_nat (length part))) in Hb. set (h := frag_hdr hdr mf ofo (Z.of_nat (length part))) in *.
  assert (E20 : firstn 20 (content (st_mem (re_store s)) ((a, x) :: l)) = h) by (rewrite Hb, firstn_app, Lh, Nat.sub_diag, firstn_O, app_nil_r, firstn_all2; [reflexivity|lia]).
  assert (Ed : skipn 20 (content (st_mem (re_store s)) ((a, x) :: l)) = part) by (rewrite Hb, skipn_app, Lh, Nat.sub_diag, drop_0, skipn_all2; [reflexivity|lia]).
  assert (Etot : total ((a, x) :: l) = Z.of_nat (length part) + 20).
  { rewrite <- (content_length _ _ (wp_valid _ _ _ _ Hp)), Hb, length_app, Lh. lia. }
  pose proof (wp_header _ _ _ _ Hp) as Hx20. unfold IP_HLEN in Hx20.
  assert (Hvx : valid (st_mem (re_store s)) x) by (pose proof (wp_valid _ _ _ _ Hp) as Hv; now inversion Hv). pose proof (bytes_length _ _ Hvx) as Lx.
  unfold f, parcel_frag, parcel_pbufs. cbn [fst snd]. rewrite E20. unfold frag_of. rewrite Ed. cbn [f_addr f_head f_tail f_start f_end f_data f_hdr].
  assert (Hend : u16 (frag_offset h + frag_len h) = 8 * ofo + Z.of_nat (length part)) by (rewrite Hoff, Hfl; unfold u16; apply Z.mod_small; lia).
  split; [|rewrite Hend, Hoff; repeat (split; [first [reflexivity|exact Hmore]|]); exact Hmore].
  constructor; cbn [f_addr f_head f_tail f_start f_end f_data f_hdr]; [|exact HLh| | |].
  - constructor; auto.
    + rewrite <- E20. cbn [content]. rewrite firstn_app. replace (20 - length (bytes_of (st_mem (re_store s)) x))%nat with O by lia.
      now rewrite firstn_O, app_nil_r.
    + rewrite Hln, Etot. unfold IP_HLEN. lia.
    + rewrite Hoff, Etot. lia.
    + intros H0. rewrite Hoff in H0. destruct Hr as [Hr|Hr]; [unfold IP_HLEN in Hr; lia|]. destruct l; [|discriminate].
      cbn [total] in Etot. specialize (H8 ltac:(lia)). lia.
  - unfold frag_of. now rewrite Ed.
  - revert Hsd Hsame. rewrite !same_datagram_fields.
    intros (-> & -> & ->) (<- & <- & <-). auto.
  - unfold nonempty. cbn [f_start f_end]. lia.
Qed.

(** The addresses of the packets, and of all their pbufs. *)
Definition parcel_addrs (cs : list parcel) : list addr := map (fun c => fst (fst c)) cs.
Definition parcels_pbufs (cs : list parcel) : list addr := concat (map (fun c => addrs (parcel_pbufs c)) cs).

Lemma parcel_frags_addrs s cs :
  map f_addr (map (parcel_frag s) cs) = parcel_addrs cs /\ all_addrs (map (parcel_frag s) cs) = parcels_pbufs cs.
Proof.
  unfold all_addrs, parcels_pbufs, parcel_addrs. rewrite !map_map. split; reflexivity.
Qed.

(** The fragments in front of which [prev] ends. *)
Record in_order (s : reass W) (fss : list (list frag)) (hdr0 hdr : list Z) (mtu ofo : Z) (data : list Z) (prev : option frag)
    (cs : list parcel) : Prop := InOrder
  { io_waiting : Forall (waiting held s fss hdr0) (map (parcel_frag s) cs); io_contiguous : contiguous prev (map (parcel_frag s) cs);
    io_marked : marked (map (parcel_frag s) cs); io_data : all_data (map (parcel_frag s) cs) = data;
    io_first : exists c cs' (part : list Z) mf, cs = c :: cs' /\ f_start (parcel_frag s c) = 8 * ofo /\
      f_hdr (parcel_frag s c) = frag_hdr hdr mf ofo (Z.of_nat (length part)) /\ same_datagram hdr (f_hdr (parcel_frag s c)) /\
      (cs' = [] -> Z.of_nat (length data) <= mtu - IP_HLEN) }.

Lemma fragments_in_order s fss hdr0 hdr mtu fuel ofo data prev cs :
  Forall2 (received s fss) cs (fragments fuel mtu hdr 0 ofo data) -> plain_header hdr -> same_datagram hdr0 hdr -> 28 <= mtu ->
  0 <= ofo -> 8 * ofo + Z.of_nat (length data) <= 65515 -> data <> [] -> (length data <= fuel)%nat ->
  (ofo = 0 -> 8 <= Z.of_nat (length data)) -> touches prev (8 * ofo) = true ->
  in_order s fss hdr0 hdr mtu ofo data prev cs.
Proof.
  intros Hr Hh Hsd Hm. pose proof (blocks_bounds mtu Hm) as Hb. revert fuel ofo data prev Hr.
  induction cs as [|c cs IH]; intros fuel ofo data prev Hr Ho Hmax Hne Hf H8 Ht; destruct fuel as [|fuel]; try (destruct data; [contradiction|cbn in Hf; lia]).
  { destruct data; [contradiction|]. cbn [fragments] in Hr. destruct (_ <=? _); inversion Hr. }
  assert (Hd0 : (0 < length data)%nat) by (destruct data; [contradiction|cbn; lia]).
  assert (Hfr : fragments (S fuel) mtu hdr 0 ofo data =
    if Z.of_nat (length data) <=? mtu - IP_HLEN then [fragment hdr 0 ofo data]
    else fragment hdr IP_MF ofo (firstn (Z.to_nat (8 * blocks mtu)) data) ::
      fragments fuel mtu hdr 0 (u16 (ofo + blocks mtu)) (skipn (Z.to_nat (8 * blocks mtu)) data)) by (destruct data; [contradiction|reflexivity]).
  rewrite Hfr in Hr. destruct (Z.leb_spec (Z.of_nat (length data)) (mtu - IP_HLEN)) as [Hle|Hgt].
  - inversion Hr as [|? ? ? ? Hc Hr']; subst. inversion Hr'; subst.
    destruct (received_waiting s fss c hdr hdr0 0 ofo data Hc Hh Hsd (or_introl eq_refl) Ho Hd0 Hmax H8) as (Hwa & _ & _ & Hst & Hen & Hda & Hhd & Hmo).
    constructor; cbn [map].
    + constructor; [exact Hwa|constructor].
    + cbn [contiguous]. rewrite Hst. auto.
    + cbn [marked]. now rewrite Hmo.
    + unfold all_data. cbn [map concat]. now rewrite Hda, app_nil_r.
    + exists c, [], data, 0. split; [reflexivity|]. split; [exact Hst|]. split; [exact Hhd|]. split; [|auto].
      rewrite Hhd. apply (frag_hdr_fields hdr 0 ofo _ Hh (or_introl eq_refl) Ho); lia.
  - set (k := Z.to_nat (8 * blocks mtu)) in *. unfold IP_HLEN in *.
    assert (Lp : length (firstn k data) = k) by (rewrite length_firstn; lia).
    inversion Hr as [|? ? ? ? Hc Hr']; subst.
    destruct (received_waiting s fss c hdr hdr0 IP_MF ofo (firstn k data) Hc Hh Hsd (or_intror eq_refl) Ho) as (Hwa & _ & _ & Hst & Hen & Hda & Hhd & Hmo); try lia.
    assert (Eu : u16 (ofo + blocks mtu) = ofo + blocks mtu) by (unfold u16; apply Z.mod_small; lia). rewrite Eu in Hr'.
    assert (Ls : length (skipn k data) = (length data - k)%nat) by apply length_skipn.
    destruct (IH fuel (ofo + blocks mtu) (skipn k data) (Some (parcel_frag s c)) Hr') as [I1 I2 I3 I4 I5]; try lia.
    { intros E. rewrite E in Ls. cbn in Ls. lia. } { cbn [touches]. rewrite Hen, Lp. apply Z.eqb_eq. lia. }
    constructor; cbn [map].
    + constructor; [exact Hwa|exact I1].
    + cbn [contiguous]. now rewrite Hst.
    + destruct I5 as (c' & cs' & _ & _ & -> & _). cbn [map marked] in *. now rewrite Hmo.
    + unfold all_data in *. cbn [map concat]. rewrite I4, Hda. apply firstn_skipn.
    + exists c, cs, (firstn k data), IP_MF. split; [reflexivity|]. split; [exact Hst|]. split; [exact Hhd|].
      split; [rewrite Hhd; apply (frag_hdr_fields hdr IP_MF ofo _ Hh (or_intror eq_refl) Ho); lia|].
      destruct I5 as (c' & cs' & _ & _ & -> & _). discriminate.
Qed.

Lemma match_same r a b : same_datagram a b -> IP_ADDRESSES_AND_ID_MATCH r b = IP_ADDRESSES_AND_ID_MATCH r a.
Proof. rewrite same_datagram_fields. intros (E1 & E2 & E3). unfold IP_ADDRESSES_AND_ID_MATCH. now rewrite E1, E2, E3. Qed.

(** The fragments of a datagram, in order, give the datagram back. *)
Lemma fragments_reassembled s fss cs mtu hdr data :
  reass_ok held s fss -> plain_header hdr -> 28 <= mtu -> mtu - IP_HLEN < Z.of_nat (length data) <= 65515 ->
  Forall2 (received s fss) cs (fragments (length data) mtu hdr 0 0 data) -> List.NoDup (parcels_pbufs cs) ->
  Forall (fun r => IP_ADDRESSES_AND_ID_MATCH (rd_iphdr r) hdr = false) (reassdatagrams s) ->
  ip_reass_pbufcount s + Z.of_nat (length (parcels_pbufs cs)) <= IP_REASS_MAX_PBUFS ->
  runs NoFail (ip_reass_all icmp_time_exceeded (parcel_addrs cs) s)
    (fun '(rs, s') => exists q l, rs = repeat None (length cs - 1) ++ [Some q] /\
       reass_ok held s' fss /\ reassdatagrams s' = reassdatagrams s /\ own_packet (re_store s') q l /\
       content (st_mem (re_store s')) l = checked (renewed hdr (Z.of_nat (length data) + IP_HLEN) 0) ++ data) no_err.
Proof.
  intros Hok Hh Hm Hlen Hr Hnd Hnone Hmax. pose proof (blocks_bounds mtu Hm) as Hb. unfold IP_HLEN in Hlen, Hb.
  assert (Hne : data <> []) by (intros ->; cbn in Hlen; lia).
  assert (Hio : forall hdr0, same_datagram hdr0 hdr -> in_order s fss hdr0 hdr mtu 0 data None cs).
  { intros hdr0 Hs0. apply (fragments_in_order s fss hdr0 hdr mtu (length data) 0 data None cs Hr Hh Hs0 Hm); auto; lia. }
  destruct (Hio hdr) as [_ I2 I3 I4 (c & cs' & part & mf & Ec & Hst & Hhd & Hsd & Hlast)]; [now apply same_datagram_fields|].
  destruct (Hio (f_hdr (parcel_frag s c))) as [I1 _ _ _ _]; [now symmetry|].
  destruct (parcel_frags_addrs s cs) as [Ea Eall]. rewrite <- Ea. rewrite <- Eall in Hnd, Hmax. subst cs. cbn [map] in *.
  eapply runs_weaken; [apply (in_order_spec held icmp_time_exceeded s fss (parcel_frag s c) (map (parcel_frag s) cs') Hok I1 Hnd Hst I2 I3)| |auto].
  - destruct cs' as [|c' cs']; [|discriminate]. specialize (Hlast eq_refl). unfold IP_HLEN in Hlast. lia.
  - eapply Forall_impl; [exact Hnone|]. intros r E. cbn beta. now rewrite (match_same _ _ _ Hsd).
  - exact Hmax.
  - intros [rs s'] (q & E & Hok2 & Hrd & l & Hl & _ & Hc). exists q, l. rewrite length_map in E. cbn [length Nat.sub]. rewrite Nat.sub_0_r.
    split; [exact E|]. split; [exact Hok2|]. split; [exact Hrd|]. split; [exact Hl|].
    rewrite Hc, I4. unfold joined_header. rewrite Hhd. unfold frag_hdr. now rewrite renewed_again by apply Hh.
Qed.
End Receiver.
