(* ===== verification/IpFragTheorems.v ===== *)
(** * lwIP: fragmentation of IP datagrams: the properties *)
From Stdlib Require Import ZArith List Lia Bool.
From stdpp Require Import base gmap list.
From S2P Require Import Prelude CMonad Pbuf PbufChain PbufData Inet InetChksum.
From S2P Require Import ChksumSpec Netif IpHdr Frames Driver IpReass IpReassMem.
From S2P Require Import IpReassInv IpReassOrder IpReassTheorems IpFrag IpFragSpec.
#[local] Open Scope Z_scope.
#[local] Open Scope cmonad_scope.

(** ** A datagram for the examples *)

Definition small_netif (mtu : Z) : netif := Netif 0 0 0 mtu 6 [] 0 0.

(** Sixty bytes in two pbufs, the second one of the pool. *)
Definition cut_data : list Z := map Z.of_nat (seq 1 60).
Definition cut_hdr : list Z := toy_hdr 7 0 false 60.

Definition cut_first : pbuf := Pbuf (Some 6%positive) (Some (5%positive, 14)) 80 50 PBUF_RAM 0 1.
Definition cut_second : pbuf := Pbuf None (Some (6%positive, 0)) 30 30 PBUF_POOL 0 1.
Definition cut_store : store :=
  Store {[5%positive := cut_first; 6%positive := cut_second]}
    {[5%positive := repeat 0 14 ++ cut_hdr ++ firstn 30 cut_data; 6%positive := skipn 30 cut_data]}.

Lemma cut_to_send : to_send (fun _ : log => []) cut_store [] 5%positive cut_first [(6%positive, cut_second)].
Proof.
  constructor.
  - split; [constructor|intros b []].
  - split; [|vm_compute; repeat split; discriminate]. constructor; [reflexivity|]. constructor; [reflexivity|constructor].
  - constructor; [|constructor; [|constructor]]; (split; [cbn; lia|intros _; vm_compute; split; discriminate]).
  - constructor; [|constructor; [|constructor]]; (split; [intros []|intros _ b o _ []]).
  - vm_compute. discriminate.
  - constructor; [|constructor]. right. vm_compute. discriminate.
Qed.

(** The fragments for an interface with an MTU of 44 bytes. *)
Definition cut_fragments : list (list Z) := fragments 60 44 cut_hdr 0 0 cut_data.

(** ** Sending *)

(** C26: [ip_frag] hands the fragments of the datagram to the interface, in
    order: every one has the header of the datagram with its own length, the
    offset where its data begins and the mark for more fragments, and a checksum
    that verifies; none is larger than the MTU, and together they carry
    exactly the data.  Without memory it says so after a part of them.  The
    pbufs of the datagram keep their places in memory, lengths in total,
    reference counts and bytes, and all others, but those of the driver, are
    as before. *)
Theorem ip_frag_tiles {W} (held : W -> list addr) handed output (Hd : Driver held handed output) junk p n dest x l st w :
  to_send held st w p x l -> 44 <= nf_mtu n < 65536 ->
  let hdr := firstn 20 (content (st_mem st) ((p, x) :: l)) in
  let data := skipn 20 (content (st_mem st) ((p, x) :: l)) in
  let tmp := ntohs (IPH_OFFSET hdr) in
  let ds := fragments (length data) (nf_mtu n) hdr (Z.land tmp IP_MF) (Z.land tmp IP_OFFMASK) data in
  surely (ip_frag junk output p n dest st w)
    (fun '(err, st', w') => drifts held (p :: addrs l) st w st' w' /\ accounted held st' w' /\
       exists sent unsent, ds = sent ++ unsent /\ handed w' = handed w ++ map (fun d => (n, dest, d)) sent /\
         ((err = ERR_OK /\ unsent = []) \/ (err = ERR_MEM /\ unsent <> []))) /\
  concat (map (skipn 20) ds) = data /\ Forall (fun d => Z.of_nat (length d) <= nf_mtu n) ds /\
  (Forall byte hdr -> Forall (fun d => inet_chksum (firstn 20 d) IP_HLEN = ret 0) ds).
Proof.
  intros Hts Hmtu hdr data tmp ds. split; [exact (ip_frag_spec held handed output junk p n dest x l st w Hts Hmtu)|].
  apply fragments_facts; [|lia|reflexivity].
  exact (proj2 (source_load _ _ _ _ _ _ (to_send_source _ _ _ _ _ _ Hts))).
Qed.

Lemma ip_frag_tiles_witness :
  surely (ip_frag (fun _ => 0) log_output 5%positive (small_netif 44) 1 cut_store [])
    (fun '(err, st', w') => drifts (fun _ => []) [5%positive; 6%positive] cut_store [] st' w' /\ accounted (fun _ => []) st' w' /\
       exists sent unsent, cut_fragments = sent ++ unsent /\ w' = [] ++ map (fun d => (small_netif 44, 1, d)) sent /\
         ((err = ERR_OK /\ unsent = []) \/ (err = ERR_MEM /\ unsent <> []))) /\
  concat (map (skipn 20) cut_fragments) = cut_data /\ Forall (fun d => Z.of_nat (length d) <= 44) cut_fragments /\
  (Forall byte cut_hdr -> Forall (fun d => inet_chksum (firstn 20 d) IP_HLEN = ret 0) cut_fragments).
Proof.
  apply (ip_frag_tiles (fun _ => []) (fun w => w) log_output log_driver (fun _ => 0) 5%positive (small_netif 44) 1 cut_first
    [(6%positive, cut_second)] cut_store []).
  - apply cut_to_send.
  - cbn. lia.
Defined.

(** ** Sending and receiving *)

(** C25: What [ip_frag] cuts, [ip_reass] puts together: when a datagram that is
    too large for the interface has been sent without error, and packets with the
    bytes that the driver got for it arrive in order at a receiver with room
    for their pbufs, memory for the bookkeeping and no datagram of the same
    sender and identification in its list, the last one gives back the datagram,
    its header with a new checksum and exactly its data, and the other datagrams
    of the receiver are as before. *)
Theorem frag_reass_round_trip {W V} (held : W -> list addr) handed output (Hd : Driver held handed output) (held' : V -> list addr) icmp
    junk p n dest x l st w :
  to_send held st w p x l -> 44 <= nf_mtu n < 65536 ->
  let hdr := firstn 20 (content (st_mem st) ((p, x) :: l)) in
  let data := skipn 20 (content (st_mem st) ((p, x) :: l)) in
  plain_header hdr -> Z.land (ntohs (IPH_OFFSET hdr)) IP_MF = 0 -> Z.land (ntohs (IPH_OFFSET hdr)) IP_OFFMASK = 0 -> nf_mtu n < total ((p, x) :: l) ->
  surely (ip_frag junk output p n dest st w)
    (fun '(err, _, w') => err = ERR_OK -> exists ds, handed w' = handed w ++ map (fun d => (n, dest, d)) ds /\
       forall s fss cs, reass_ok held' s fss -> Forall2 (received held' s fss) cs ds -> List.NoDup (parcels_pbufs cs) ->
         Forall (fun r => IP_ADDRESSES_AND_ID_MATCH (rd_iphdr r) hdr = false) (reassdatagrams s) ->
         ip_reass_pbufcount s + Z.of_nat (length (parcels_pbufs cs)) <= IP_REASS_MAX_PBUFS ->
         runs NoFail (ip_reass_all icmp (parcel_addrs cs) s)
           (fun '(rs, s') => exists q l', rs = repeat None (length cs - 1) ++ [Some q] /\
              reass_ok held' s' fss /\ reassdatagrams s' = reassdatagrams s /\ own_packet (re_store s') q l' /\
              content (st_mem (re_store s')) l' = checked (renewed hdr (Z.of_nat (length data) + IP_HLEN) 0) ++ data) no_err).
Proof.
  intros Hts Hmtu hdr data Hh Hmf Hoff Hbig. eapply surely_weaken; [exact (ip_frag_spec held handed output junk p n dest x l st w Hts Hmtu)|].
  fold hdr data. rewrite Hmf, Hoff.
  intros [[err st'] w'] (_ & _ & sent & unsent & Es & Eh & Ee) ->.
  destruct Ee as [[_ ->]|[E _]]; [|discriminate]. rewrite app_nil_r in Es. exists sent. split; [exact Eh|].
  intros s fss cs Hok Hr Hnd Hnone Hmax. rewrite <- Es in Hr.
  pose proof Hts as [_ [_ (_ & _ & _ & Ht & _)] Hv _ _ _]. pose proof (content_length _ _ Hv) as Lc.
  assert (Ld : length data = (length (content (st_mem st) ((p, x) :: l)) - 20)%nat) by apply length_skipn.
  apply (fragments_reassembled held' icmp s fss cs (nf_mtu n) hdr data); auto; unfold IP_HLEN; lia.
Qed.

(** The fragments as they arrive in three pbufs of the pool. *)
Definition cut_packet (i : nat) : list Z := nth i cut_fragments [].
Definition cut_parcel (i : nat) : parcel := (Pos.of_nat (S i), toy_pbuf (Pos.of_nat (S i)) (cut_packet i), []).
Definition cut_received : store :=
  toy_put 1%positive (cut_packet 0) (toy_put 2%positive (cut_packet 1) (toy_put 3%positive (cut_packet 2) (Store ∅ ∅))).

Lemma cut_arrived : Forall2 (received toy_held (toy_reass cut_received) []) [cut_parcel 0; cut_parcel 1; cut_parcel 2] cut_fragments.
Proof.
  assert (H : forall i, (i < 3)%nat -> received toy_held (toy_reass cut_received) [] (cut_parcel i) (cut_packet i)).
  { intros i Hi. constructor; cbn [cut_parcel fst snd parcel_pbufs length].
    - do 3 (destruct i as [|i]; [eapply whole_single; [reflexivity|reflexivity|lia|vm_compute; discriminate|vm_compute; split; [discriminate|reflexivity]|reflexivity|vm_compute; reflexivity]|]). lia.
    - do 3 (destruct i as [|i]; [vm_compute; reflexivity|]). lia.
    - intros b _. split; intros [].
    - lia.
    - now right. }
  assert (E : cut_fragments = [cut_packet 0; cut_packet 1; cut_packet 2]) by (vm_compute; reflexivity). rewrite E.
  repeat (constructor; [apply H; lia|]). constructor.
Qed.

Lemma frag_reass_round_trip_witness :
  (surely (ip_frag (fun _ => 0) log_output 5%positive (small_netif 44) 1 cut_store [])
    (fun '(err, _, w') => err = ERR_OK -> exists ds, w' = [] ++ map (fun d => (small_netif 44, 1, d)) ds /\
       forall s fss cs, reass_ok toy_held s fss -> Forall2 (received toy_held s fss) cs ds -> List.NoDup (parcels_pbufs cs) ->
         Forall (fun r => IP_ADDRESSES_AND_ID_MATCH (rd_iphdr r) cut_hdr = false) (reassdatagrams s) ->
         ip_reass_pbufcount s + Z.of_nat (length (parcels_pbufs cs)) <= IP_REASS_MAX_PBUFS ->
         runs NoFail (ip_reass_all toy_icmp (parcel_addrs cs) s)
           (fun '(rs, s') => exists q l', rs = repeat None (length cs - 1) ++ [Some q] /\
              reass_ok toy_held s' fss /\ reassdatagrams s' = reassdatagrams s /\ own_packet (re_store s') q l' /\
              content (st_mem (re_store s')) l' = checked (renewed cut_hdr (Z.of_nat (length cut_data) + IP_HLEN) 0) ++ cut_data) no_err)) /\
  reass_ok toy_held (toy_reass cut_received) [] /\
  Forall2 (received toy_held (toy_reass cut_received) []) [cut_parcel 0; cut_parcel 1; cut_parcel 2] cut_fragments.
Proof.
  split; [|split; [apply toy_reass_ok|apply cut_arrived]].
  apply (frag_reass_round_trip (fun _ => []) (fun w => w) log_output log_driver toy_held toy_icmp (fun _ => 0) 5%positive (small_netif 44) 1
    cut_first [(6%positive, cut_second)] cut_store []).
  - apply cut_to_send.
  - cbn. lia.
  - split; vm_compute; reflexivity.
  - vm_compute. reflexivity.
  - vm_compute. reflexivity.
  - vm_compute. reflexivity.
Defined.

(** ** Limits *)

(** One pbuf with a header and sixty bytes. *)
Definition one_store : store :=
  Store {[5%positive := Pbuf None (Some (5%positive, 14)) 80 80 PBUF_RAM 0 1]} {[5%positive := repeat 0 14 ++ cut_hdr ++ cut_data]}.

(** A datagram whose second pbuf has ten bytes. *)
Definition narrow_store : store :=
  Store {[5%positive := Pbuf (Some 6%positive) (Some (5%positive, 14)) 80 46 PBUF_RAM 0 1; 6%positive := Pbuf (Some 7%positive) (Some (6%positive, 0)) 34 10 PBUF_POOL 0 1;
          7%positive := Pbuf None (Some (7%positive, 0)) 24 24 PBUF_POOL 0 1]}
    {[5%positive := repeat 0 14 ++ cut_hdr ++ firstn 26 cut_data; 6%positive := firstn 10 (skipn 26 cut_data); 7%positive := skipn 36 cut_data]}.

(** With room for one block of eight bytes in a fragment, or with a small pbuf
    where a fragment begins, [ip_frag] stops in the assertion that wants the
    header in one piece, although only the first pbuf has a header; with no
    room for a block it sends empty fragments until the fuel is used up. *)
Theorem ip_frag_limits :
  fst (ip_frag (fun _ => 0) log_output 5%positive (small_netif 28) 1 one_store [] []) = Err ABORT /\
  fst (ip_frag (fun _ => 0) log_output 5%positive (small_netif 27) 1 one_store [] []) = OutOfFuel /\
  fst (ip_frag (fun _ => 0) log_output 5%positive (small_netif 52) 1 narrow_store [] []) = Err ABORT.
Proof. split; [|split]; vm_compute; reflexivity. Qed.
