(* ===== verification/PacketEdit.v ===== *)
(** * lwIP: packets in their own memory

    Loads, stores and headers of a packet whose first pbuf holds its bytes in
    its own memory, on the bytes of the packet. *)
From Stdlib Require Import ZArith List Lia Bool.
From stdpp Require Import base gmap list.
From S2P Require Import Prelude CMonad Pbuf PbufChain PbufData PbufEdit PbufAlloc.
From S2P Require Import Inet InetChksum Netif IpHdr Frames Driver IpReassMem.
From S2P Require Import IpReassInv IpFrag IpFragSpec.
#[local] Open Scope Z_scope.
#[local] Open Scope cmonad_scope.

(** The packet at [p] with the first pbuf [x], which has [o] bytes in front of
    its payload. *)
Record own_head (st : store) (p : addr) (x : pbuf) (l : list (addr * pbuf)) (o : Z) : Prop := OwnHead
  { oh_own : own_packet st p ((p, x) :: l); oh_payload : pb_payload x = Some (p, o); oh_type : holds_data (pb_type x) = true;
    oh_room : 0 <= o; oh_block : o + pb_len x <= Z.of_nat (length (block (st_mem st) p)) }.

Section Head.
Context (st : store) (p : addr) (x : pbuf) (l : list (addr * pbuf)) (o : Z) (Hh : own_head st p x l o).

Lemma head_lookup : st_pbufs st !! p = Some x.
Proof. destruct Hh as [[[Hc _] _ _ _] _ _ _ _]. now inversion Hc. Qed.

Lemma head_valid : valid (st_mem st) x.
Proof. destruct Hh as [[_ Hv _ _] _ _ _ _]. now inversion Hv. Qed.

Lemma head_lengths : pb_tot_len x = total ((p, x) :: l) /\ 0 <= pb_len x <= pb_tot_len x /\ pb_tot_len x < 65536.
Proof.
  destruct Hh as [[[_ (Et & H0 & _ & Hm & Hl)] _ _ _] _ _ _ _]. pose proof (totals_nonneg _ Hl). cbn [total] in *. lia.
Qed.

Lemma head_bytes : content (st_mem st) ((p, x) :: l) = bytes_of (st_mem st) x ++ content (st_mem st) l /\
  Z.of_nat (length (bytes_of (st_mem st) x)) = pb_len x.
Proof. split; [reflexivity|]. rewrite bytes_length by exact head_valid. pose proof head_lengths. lia. Qed.

Lemma head_load off n : 0 <= off -> 0 <= n -> off + n <= pb_len x ->
  load st (pb_payload x) off n = ret (firstn (Z.to_nat n) (skipn (Z.to_nat off) (content (st_mem st) ((p, x) :: l)))).
Proof.
  intros Ho Hn Hl. rewrite (load_bytes st x off n head_valid Ho Hn Hl). f_equal. destruct head_bytes as [-> Hb].
  rewrite skipn_app, firstn_app, length_skipn. replace (Z.to_nat n - _)%nat with O by lia. now rewrite firstn_O, app_nil_r.
Qed.

Lemma head_save off bs : 0 <= off -> off + Z.of_nat (length bs) <= pb_len x ->
  exists st', save st (pb_payload x) off bs = ret st' /\ written p st st' /\ own_head st' p x l o /\
    content (st_mem st') ((p, x) :: l) = splice (content (st_mem st) ((p, x) :: l)) (Z.to_nat off) bs.
Proof.
  intros Ho Hl. destruct Hh as [[[Hc Ht] Hv Hw Hr] Hp Hty Hro Hbl]. inversion Hw as [|? ? _ Hw']; subst.
  destruct (save_content st p x l off bs head_valid) as (m' & Es & Ec & Hv' & Hrw); [now exists o|exact Hw'| |exact Ho|exact Hl|].
  { now apply (chain_head_fresh (st_pbufs st) p x l). }
  exists (Store (st_pbufs st) m'). split; [exact Es|]. split; [split; [reflexivity|exact Hrw]|]. split; [|exact Ec].
  constructor; auto; [constructor; auto; [split; assumption|]; exact (all_valid_rewritten _ _ _ _ Hrw Hv)|].
  cbn [st_mem]. now rewrite (proj2 Hrw).
Qed.

Lemma head_move n : Z.opp (pb_len x) <= n <= o -> -32768 <= n <= 32767 -> pb_tot_len x + n < 65536 ->
  let st' := set_pbuf p (shifted x n) st in
  pbuf_header (Some p) n st = ret (0, st') /\ own_head st' p (shifted x n) l (o - n) /\ untouched [p] st st' /\
  (n <= 0 -> content (st_mem st') ((p, shifted x n) :: l) = skipn (Z.to_nat (Z.opp n)) (content (st_mem st) ((p, x) :: l))) /\
  (0 <= n -> exists junk, length junk = Z.to_nat n /\ content (st_mem st') ((p, shifted x n) :: l) = junk ++ content (st_mem st) ((p, x) :: l)).
Proof.
  intros Hn Hs Hm st'. pose proof head_lengths as (Et & Hl & Hb). pose proof head_lookup as Hx.
  destruct Hh as [[[Hc Ht] Hva Hw Hr] Hp Hty Hro Hbl]. pose proof (chain_head_fresh _ _ _ _ Hc) as Hf.
  inversion Hc as [|? ? ? _ Hc']; inversion Hva as [|? ? _ Hva']; inversion Hw as [|? ? _ Hw']; inversion Hr as [|? ? Hr1 Hr']; subst.
  set (blk := block (st_mem st) p) in *.
  split. { rewrite (pbuf_header_spec st p x o n) by (auto; lia).
           destruct (Z.ltb_spec (pb_len x) (Z.opp n)); [lia|]. rewrite andb_false_r. destruct (Z.ltb_spec (o - n) 0); [lia|reflexivity]. }
  assert (Hpay : pb_payload (shifted x n) = Some (p, o - n)) by (cbn; now rewrite Hp).
  assert (Hlen : pb_len (shifted x n) = pb_len x + n) by reflexivity.
  assert (Hby : bytes_of (st_mem st) (shifted x n) = firstn (Z.to_nat (pb_len x + n)) (skipn (Z.to_nat (o - n)) blk)) by (unfold bytes_of; now rewrite Hpay).
  assert (Hbx : bytes_of (st_mem st) x = firstn (Z.to_nat (pb_len x)) (skipn (Z.to_nat o) blk)) by (unfold bytes_of; now rewrite Hp).
  destruct Ht as (_ & H0 & Href & _ & Hlt). pose proof (totals_nonneg _ Hlt). cbn [total] in *.
  split; [|split; [|split]].
  - constructor; auto; [|lia|cbn [st' st_mem set_pbuf]; fold blk; lia]. constructor.
    + split; [constructor; [apply lookup_insert_eq|now apply chain_insert]|].
      cbn [totals_ok total shifted with_tot_len with_len with_payload pb_tot_len pb_len pb_ref]. repeat (split; [lia|]). exact Hlt.
    + constructor; [|exact Hva']. split; cbn [snd]; [lia|]. intros _. rewrite Hpay. cbn [st' st_mem set_pbuf]. fold blk. lia.
    + constructor; [exists (o - n); exact Hpay|exact Hw'].
    + constructor; [exact Hr1|exact Hr'].
  - intros b Hbn. split; [|reflexivity]. cbn. apply lookup_insert_ne. intros ->. apply Hbn. now left.
  - intros Hn0. cbn [content st' st_mem set_pbuf]. rewrite Hby, Hbx, skipn_app, skipn_firstn_comm, skipn_skipn.
    f_equal; [f_equal; [lia|f_equal; lia]|]. rewrite length_firstn, length_skipn.
    replace (Z.to_nat (Z.opp n) - _)%nat with O by lia. now rewrite drop_0.
  - intros Hn0. exists (firstn (Z.to_nat n) (skipn (Z.to_nat (o - n)) blk)). split; [rewrite length_firstn, length_skipn; lia|].
    cbn [content st' st_mem set_pbuf]. rewrite Hby, Hbx, app_assoc. f_equal.
    rewrite <- (firstn_skipn (Z.to_nat n) (skipn (Z.to_nat (o - n)) blk)) at 1. rewrite skipn_skipn.
    replace (Z.to_nat n + Z.to_nat (o - n))%nat with (Z.to_nat o) by lia. rewrite firstn_app, length_firstn, length_skipn, firstn_firstn.
    f_equal; [f_equal; lia|f_equal; lia].
Qed.

(** The packet is cut. *)
Lemma trimmed_parts st' n l1 l1' : trimmed st st' n l1 l1' -> Forall (fun c => pb_ref (snd c) = 1) l1 ->
  (Forall owns l1 -> Forall owns l1') /\ Forall (fun c => pb_ref (snd c) = 1) l1' /\
  (0 < n -> all_full l1 -> all_full l1') /\
  (forall b, In b (addrs l1) -> ~ In b (addrs l1') -> st_pbufs st' !! b = None /\ st_mem st' !! b = None).
Proof.
  induction 1 as [n q y y' l1 Hp Ht Hr Hl Hn Hm Hg|n q y y' l1 l1' Hp Ht Hr Hl Hn Hm Htr IH]; intros Hrf; inversion Hrf as [|? ? Hr1 Hrf']; subst; cbn [snd] in Hr1.
  - split; [|split; [constructor; [cbn; congruence|constructor]|split]].
    + intros Hw. inversion Hw as [|? ? [o' E] _]; subst. cbn [fst snd] in E. constructor; [exists o'; cbn; congruence|constructor].
    + intros H0 _. constructor; [exact H0|constructor].
    + intros b [<-|Hb] Hb'; [exfalso; apply Hb'; now left|now apply Hg].
  - destruct (IH Hrf') as (I1 & I2 & I3 & I4). split; [|split; [constructor; [cbn; congruence|exact I2]|split]].
    + intros Hw. inversion Hw as [|? ? [o' E] Hw']; subst. cbn [fst snd] in E. constructor; [exists o'; cbn; congruence|now apply I1].
    + intros _ Hf. inversion Hf as [|? ? Hf1 Hf']; subst. cbn [snd] in Hf1. constructor; [cbn; lia|apply I3; [lia|exact Hf']].
    + intros b [<-|Hb] Hb'; [exfalso; apply Hb'; now left|]. apply I4; [exact Hb|]. intros Hi. apply Hb'. now right.
Qed.

Lemma head_trim n : 0 < n <= total ((p, x) :: l) -> all_full ((p, x) :: l) ->
  exists st' x' l', pbuf_realloc (Some p) n st = ret st' /\ own_head st' p x' l' o /\ all_full ((p, x') :: l') /\
    pb_len x' = Z.min n (pb_len x) /\ total ((p, x') :: l') = n /\
    content (st_mem st') ((p, x') :: l') = firstn (Z.to_nat n) (content (st_mem st) ((p, x) :: l)) /\
    (forall b, In b (addrs l') -> In b (addrs l)) /\ untouched (p :: addrs l) st st' /\
    (forall b, In b (addrs l) -> ~ In b (addrs l') -> st_pbufs st' !! b = None /\ st_mem st' !! b = None).
Proof.
  intros Hn Hf. pose proof head_lengths as (Et & Hl & Hb). pose proof head_lookup as Hx.
  unfold pbuf_realloc. rewrite (fetch_some st p x), bind_ret by exact Hx. rewrite Et.
  pose proof Hh as [[[Hc Ht] Hv Hw Hr] Hp Hty Hro Hbl].
  case_bool (total ((p, x) :: l) <=? n).
  - exists st, x, l. split; [reflexivity|]. split; [exact Hh|]. split; [exact Hf|]. split; [lia|]. split; [lia|]. split.
    { rewrite firstn_all2; [reflexivity|]. pose proof (content_length _ _ Hv). lia. }
    split; [auto|]. split; [intros b _; now split|]. intros b H1 H2. contradiction.
  - pose proof (chain_size _ _ _ Hc) as Hsz. simpl in Hsz.
    destruct (realloc_spec (walk_fuel st) st p x l n) as (st' & l2 & He & Hpk & Hv2 & H2 & Htr & H3 & H4 & H5);
      [split; assumption|exact Hv|exact Hw|lia|unfold walk_fuel; lia|].
    destruct (trimmed_parts _ _ _ _ Htr Hr) as (T1 & T2 & T3 & T4).
    assert (Hhd : exists x' l', l2 = (p, x') :: l' /\ pb_payload x' = pb_payload x /\ pb_type x' = pb_type x /\ pb_len x' = Z.min n (pb_len x) /\ st_mem st' !! p = st_mem st !! p).
    { inversion Htr; subst; do 2 eexists; (split; [reflexivity|]); repeat (split; [assumption|]); (split; [lia|assumption]). }
    destruct Hhd as (x' & l' & -> & E1 & E2 & E3 & E4). exists st', x', l'. split; [exact He|]. split.
    { constructor; [constructor; auto|congruence|congruence|exact Hro|]. unfold block in *. rewrite E4. lia. }
    split; [apply T3; [lia|exact Hf]|]. split; [exact E3|]. split; [exact H2|]. split; [exact H3|].
    pose proof (chain_head_fresh _ _ _ _ Hc) as Hfr1. pose proof (chain_head_fresh _ _ _ _ (proj1 Hpk)) as Hfr2. split; [|split; [exact H5|]].
    + intros b Hi. destruct (H4 b (or_intror Hi)) as [Eb|Hi']; [|exact Hi']. cbn [fst] in Eb. subst b. contradiction.
    + intros b Hi Hi'. apply T4; [now right|]. intros [Eb|H6]; [cbn [fst] in Eb; subst b; contradiction|contradiction].
Qed.

(** Whatever is done with a packet that was cut. *)
Lemma evolves_trimmed {W} (held : W -> list addr) st1 (l1 : list (addr * pbuf)) w st2 w2 :
  untouched (p :: addrs l) st st1 -> (forall b, In b (addrs l1) -> In b (addrs l)) ->
  (forall b, In b (addrs l) -> ~ In b (addrs l1) -> st_pbufs st1 !! b = None /\ st_mem st1 !! b = None) ->
  (forall b, In b (p :: addrs l) -> ~ In b (held w)) ->
  evolves held (p :: addrs l1) st1 w st2 w2 -> evolves held (p :: addrs l) st w st2 w2.
Proof.
  intros Hu Hi Hg Hd (A & B & C). split; [|split]; [intros b..|].
  - intros Hl Hh0 Hn. destruct (Hu b Hn) as [P M]. destruct (A b (live_same _ _ _ P M Hl) Hh0) as (P1 & M1 & H1).
    { intros [<-|Hb]; apply Hn; [now left|right; auto]. } split; [congruence|]. split; [congruence|exact H1].
  - intros Hb. destruct (in_dec Pos.eq_dec b (p :: addrs l)) as [H|H].
    + destruct (in_dec Pos.eq_dec b (p :: addrs l1)) as [H'|H']; [apply B; tauto|]. apply B. left. destruct H as [->|H]; [exfalso; apply H'; now left|].
      apply Hg; [exact H|]. intros Hb1. apply H'. now right.
    + apply B. rewrite (proj1 (Hu b H)). tauto.
  - intros Ha. apply C. exact (accounted_untouched held _ _ _ w Hu Hd Ha).
Qed.
End Head.

(** A new pbuf, and what others do with a state that it is added to. *)
Lemma fresh_head st0 st a off n :
  fresh_pbuf st0 st a (Some (a, off)) n (off + n) PBUF_RAM -> 0 <= off -> 0 < n < 65536 ->
  let x := Pbuf None (Some (a, off)) n n PBUF_RAM 0 1 in own_head st a x [] off /\ extends st0 st [(a, x)].
Proof.
  intros Hf Ho Hn x. pose proof (fresh_copyable st0 st a off n Hf Ho Hn) as (Hc & Ht & Hv & _ & Hw).
  destruct Hf as (N1 & N2 & E1 & bs & Lb & E2). split.
  - constructor; [constructor; [split; assumption|exact Hv|exact Hw|now constructor]|reflexivity|reflexivity|exact Ho|].
    cbn [x pb_len]. unfold block. rewrite E2, lookup_insert_eq. cbn [default]. lia.
  - replace st with (Store (<[a := x]> (st_pbufs st0)) (<[a := bs]> (st_mem st0))) by (unfold x; rewrite <- E1, <- E2; now destruct st).
    apply (extends_cons st0 st0 []); auto. split; [intros b []|auto].
Qed.

Lemma evolves_fresh {W} (held : W -> list addr) bs st st1 q y w st' w' :
  extends st st1 [(q, y)] -> accounted held st w -> evolves held (bs ++ [q]) st1 w st' w' -> evolves held bs st w st' w'.
Proof.
  intros He Hac (A & B & C). pose proof He as [Hn Ho].
  assert (Hq : forall b, live st b -> b <> q) by (intros b Hl ->; exact (extends_fresh _ _ _ _ He Hl (or_introl eq_refl))).
  assert (Hk : forall b, b <> q -> st_pbufs st1 !! b = st_pbufs st !! b /\ st_mem st1 !! b = st_mem st !! b).
  { intros b Hb. apply Ho. intros [E|[]]. now apply Hb. }
  split; [|split]; [intros b..|].
  - intros Hl Hh Hg. destruct (Hk b (Hq b Hl)) as [P M]. destruct (A b (live_same _ _ _ P M Hl) Hh) as (P1 & M1 & H1).
    { rewrite in_app_iff. intros [Hb|[E|[]]]; [contradiction|now apply (Hq b Hl)]. } split; [congruence|]. split; [congruence|exact H1].
  - intros Hb. apply B. rewrite in_app_iff. destruct (decide (b = q)) as [->|Hne]; [right; right; right; now left|]. rewrite (proj1 (Hk b Hne)). tauto.
  - intros _. apply C. revert Hac. apply accounted_alive. intros b _ Hs. rewrite (proj1 (Hk b ltac:(apply Hq; now left))). exact Hs.
Qed.

(** A packet is copied to a new pbuf. *)
Lemma copy_to_new st st1 p l r off :
  own_packet st p l -> all_full l -> fresh_pbuf st st1 r (Some (r, off)) (total l) (off + total l) PBUF_RAM -> 0 <= off ->
  let z := Pbuf None (Some (r, off)) (total l) (total l) PBUF_RAM 0 1 in
  exists st2, pbuf_copy (Some r) (Some p) st1 = ret (ERR_OK, st2) /\ own_head st2 r z [] off /\ extends st st2 [(r, z)] /\
    content (st_mem st2) [(r, z)] = content (st_mem st) l /\ ~ In r (addrs l).
Proof.
  intros [[Hc Ht] Hv Hw Hrf] Hf Hfp Ho z.
  assert (Hbd : 0 < total l < 65536).
  { destruct l as [|[a x] l]; [inversion Hc|]. pose proof Ht as (Et & _ & _ & Hm & _). split; [|lia]. now apply full_total. }
  destruct (fresh_head st st1 r off (total l) Hfp Ho Hbd) as [Hr He]. pose proof (fresh_copyable st st1 r off (total l) Hfp Ho Hbd) as Hct.
  cbv zeta in Hct. fold z in Hr, He, Hct.
  assert (Hlive : forall b, In b (addrs l) -> live st b).
  { intros b Hi. left. apply in_map_iff in Hi as ([d u] & <- & Hin). exists u. exact (chain_lookup _ _ _ _ _ Hc Hin). }
  assert (Hrn : ~ In r (addrs l)) by (intros Hin; exact (extends_fresh _ _ _ _ He (Hlive r Hin) (or_introl eq_refl))).
  destruct (owned_ext (st_mem st) (st_mem st1) l Hw) as [Ec Ev].
  { intros b Hi. apply (proj2 He). exact (extends_fresh _ _ _ _ He (Hlive b Hi)). }
  assert (Hcf : copyable (st_pbufs st1) (st_mem st1) (Some p) l).
  { split; [exact (extends_chain _ _ _ _ _ He Hc)|]. split; [exact Ht|]. split; [now apply Ev|]. split; [exact Hf|exact Hw]. }
  destruct (pbuf_copy_spec (st_pbufs st1) (st_mem st1) r p [(r, z)] l Hct Hcf) as (m' & E3 & C3 & R3).
  { intros b Hi [<-|[]]. exact (Hrn Hi). } { cbn. lia. }
  exists (Store (st_pbufs st1) m'). split; [replace st1 with (Store (st_pbufs st1) (st_mem st1)) by (now destruct st1); exact E3|]. split; [|split; [|split; [|exact Hrn]]].
  - destruct Hr as [[Hpk Hva Ho1 Hrf1] H1 H2 H3 H4]. constructor; auto; [|cbn [st_mem]; now rewrite (proj2 R3)].
    constructor; auto. exact (all_valid_rewritten _ _ _ _ R3 Hva).
  - apply (extends_change st st1 _ [(r, z)]); [exact He|reflexivity|]. intros b Hb. split; [reflexivity|]. now apply (proj1 R3).
  - cbn [st_mem]. rewrite C3, Ec, skipn_all2, app_nil_r; [reflexivity|].
    assert (Hlz : Z.of_nat (length (content (st_mem st1) [(r, z)])) = total [(r, z)]) by exact (content_length _ _ (proj1 (proj2 (proj2 Hct)))).
    cbn [total z pb_len] in Hlz. lia.
Qed.

(** A packet can be read while others are written. *)
Lemma own_load st st' p x l off n :
  own_packet st p ((p, x) :: l) -> agree st st' (p :: addrs l) -> 0 <= off -> 0 <= n -> off + n <= pb_len x ->
  load st' (pb_payload x) off n = ret (firstn (Z.to_nat n) (skipn (Z.to_nat off) (content (st_mem st) ((p, x) :: l)))).
Proof.
  intros Hw Ha Ho Hn Hl. pose proof (own_agree st st' p ((p, x) :: l) Ha Hw) as [_ Hv' _ _]. inversion Hv' as [|? ? Hvx _]; subst. cbn [snd] in Hvx.
  destruct (owned_ext (st_mem st) (st_mem st') _ (op_owns _ _ _ Hw)) as [Ec _]; [intros b Hb; now apply Ha|]. rewrite <- Ec.
  rewrite (load_bytes st' x off n Hvx Ho Hn Hl). f_equal. cbn [content]. rewrite skipn_app, firstn_app, length_skipn, (bytes_length _ _ Hvx).
  replace (Z.to_nat n - _)%nat with O by lia. now rewrite firstn_O, app_nil_r.
Qed.
