(* ===== verification/IpOut.v ===== *)
(** * lwIP: sending IP datagrams

    [ip_output] and [ip_output_if] of [lwip/src/core/ipv4/ip.c], and the
    queue of packets to the interface itself, [netif_loop_output] of
    [lwip/src/core/netif.c].  The pbufs of the queue of an interface are a
    list, whose ends are [loop_first] and [loop_last]; they are linked in the
    store too.  The output function of the interfaces and the call of
    [netif_poll] that [tcpip_callback] schedules are parameters. *)
From Stdlib Require Import ZArith List Lia Bool.
From stdpp Require Import base gmap list.
From S2P Require Import Prelude CMonad Pbuf Inet InetChksum Netif IpHdr IpFrag.
#[local] Open Scope Z_scope.
#[local] Open Scope cmonad_scope.

Definition IP_DEFAULT_TTL : Z := 255.
Definition ICMP_TTL : Z := IP_DEFAULT_TTL.

(** ** Fields of a header *)

Definition set16 (i : nat) (x : Z) (hdr : list Z) : list Z := splice hdr i (field16 x).
Definition set32 (i : nat) (x : Z) (hdr : list Z) : list Z := splice hdr i (field32 x).

Definition IPH_VHLTOS_SET (v hl tos : Z) (hdr : list Z) : list Z :=
  set16 0 (htons (u16 (Z.lor (Z.lor (Z.shiftl v 12) (Z.shiftl hl 8)) tos))) hdr.
Definition IPH_LEN_SET (len : Z) (hdr : list Z) : list Z := set16 2 len hdr.
Definition IPH_ID_SET (id : Z) (hdr : list Z) : list Z := set16 4 id hdr.
Definition IPH_OFFSET_SET (off : Z) (hdr : list Z) : list Z := set16 6 off hdr.
Definition IPH_TTL_SET (ttl : Z) (hdr : list Z) : list Z :=
  set16 8 (htons (u16 (Z.lor (IPH_PROTO hdr) (Z.shiftl (u16 ttl) 8)))) hdr.
Definition IPH_PROTO_SET (proto : Z) (hdr : list Z) : list Z :=
  set16 8 (htons (u16 (Z.lor proto (Z.shiftl (IPH_TTL hdr) 8)))) hdr.
Definition IPH_CHKSUM_SET (chksum : Z) (hdr : list Z) : list Z := set16 10 chksum hdr.

(** The header that [ip_output_if] makes in the bytes [hdr]. *)
Definition ip_header (hdr : list Z) (src dest ttl tos proto tot_len id : Z) : list Z :=
  let hdr := IPH_PROTO_SET proto (IPH_TTL_SET ttl hdr) in
  let hdr := IPH_VHLTOS_SET 4 (IP_HLEN / 4) tos (set32 16 dest hdr) in
  let hdr := IPH_ID_SET (htons id) (IPH_OFFSET_SET 0 (IPH_LEN_SET (htons tot_len) hdr)) in
  IPH_CHKSUM_SET 0 (set32 12 src hdr).

Section IpOut.
Context {W : Type}.

(** [ip_id], the queues of the interfaces by their numbers, and the rest. *)
Record ipstate : Type := IpState { ip_id : Z; ip_loop : gmap Z (list addr); ip_rest : W }.

Definition set_rest (w : W) (s : ipstate) : ipstate := IpState (ip_id s) (ip_loop s) w.
Definition set_loop (n : netif) (l : list addr) (s : ipstate) : ipstate :=
  IpState (ip_id s) (<[nf_num n := l]> (ip_loop s)) (ip_rest s).

Definition loop_of (n : netif) (s : ipstate) : list addr := default [] (ip_loop s !! nf_num n).

Context (junk : nat -> Z).
Variable output : netif -> addr -> Z -> store -> W -> M (Z * store * W).
Variable tcpip_callback : netif -> W -> M W.

(** [for (last = r; last->next != NULL; last = last->next);] *)
Fixpoint chain_pbufs (fuel : nat) (p : addr) (st : store) : M (list addr) :=
  match fuel with
  | O => out_of_fuel
  | S fuel' =>
      x <- fetch st (Some p);;
      match pb_next x with
      | None => ret [p]
      | Some q => l <- chain_pbufs fuel' q st;; ret (p :: l)
      end
  end.

(** The pbufs [l] are put on the queue; [r] is the first. *)
Definition enqueue (n : netif) (r : addr) (l : list addr) (st : store) (s : ipstate) : M (store * ipstate) :=
  st <- (match last (loop_of n s) with
         | Some z => y <- fetch st (Some z);; ret (set_pbuf z (with_next y (Some r)) st)
         | None => ret st
         end);;
  ret (st, set_loop n (loop_of n s ++ l) s).

Definition netif_loop_output (n : netif) (p : addr) (st : store) (s : ipstate) : M (Z * store * ipstate) :=
  x <- fetch st (Some p);;
  '(r, st) <- pbuf_alloc junk PBUF_LINK (pb_tot_len x) PBUF_RAM st;;
  match r with
  | None => ret (ERR_MEM, st, s)
  | Some r =>
      '(err, st) <- pbuf_copy (Some r) (Some p) st;;
      if negb (err =? ERR_OK) then
        '(_, st) <- pbuf_free (Some r) st;;
        ret (err, st, s)
      else
        l <- chain_pbufs (walk_fuel st) r st;;
        '(st, s) <- enqueue n r l st s;;
        w <- tcpip_callback n (ip_rest s);;
        ret (ERR_OK, st, set_rest w s)
  end.

(** The packet is complete: it goes to the queue, in fragments or as it is. *)
Definition send_packet (p : addr) (dest : Z) (n : netif) (st : store) (s : ipstate) : M (Z * store * ipstate) :=
  if dest =? nf_ip_addr n then netif_loop_output n p st s
  else
    x <- fetch st (Some p);;
    '(err, st, w) <-
      (if negb (nf_mtu n =? 0) && (nf_mtu n <? pb_tot_len x) then ip_frag junk output p n dest st (ip_rest s)
       else output n p dest st (ip_rest s));;
    ret (err, st, set_rest w s).

(** The source is [None] for [NULL], the destination is [None] for
    [IP_HDRINCL]: the packet has its header. *)
Definition ip_output_if (p : addr) (src dest : option Z) (ttl tos proto : Z) (n : netif) (st : store) (s : ipstate)
    : M (Z * store * ipstate) :=
  match dest with
  | Some dest =>
      '(e, st) <- pbuf_header (Some p) IP_HLEN st;;
      if negb (e =? 0) then ret (ERR_BUF, st, s)
      else
        x <- fetch st (Some p);;
        _ <- lwip_assert (IP_HLEN <=? pb_len x);;
        hdr <- load st (pb_payload x) 0 IP_HLEN;;
        let src := match src with Some a => if ip_addr_isany a then nf_ip_addr n else a | None => nf_ip_addr n end in
        hdr <- with_chksum (ip_header hdr src dest ttl tos proto (pb_tot_len x) (ip_id s));;
        st <- save st (pb_payload x) 0 hdr;;
        send_packet p dest n st (IpState (u16 (ip_id s + 1)) (ip_loop s) (ip_rest s))
  | None =>
      x <- fetch st (Some p);;
      dest <- load st (pb_payload x) 16 4;;
      send_packet p (le_value dest) n st s
  end.

Definition ip_output (netif_list : list netif) (netif_default : option netif) (p : addr) (src : option Z) (dest ttl tos proto : Z)
    (st : store) (s : ipstate) : M (Z * store * ipstate) :=
  match ip_route netif_list netif_default dest with
  | None => ret (ERR_RTE, st, s)
  | Some n => ip_output_if p src (Some dest) ttl tos proto n st s
  end.
End IpOut.
#[global] Arguments ipstate : clear implicits.
