(* ===== verification/IpOutSpec.v ===== *)
(** * lwIP: what the IP layer sends

    A packet that is sent and released is handed to the interface, cut into
    fragments, or copied to the queue of the interface; nothing else changes.
    Then the header of a datagram, and sending with it. *)
From Stdlib Require Import ZArith List Lia Bool.
From stdpp Require Import base gmap list.
From S2P Require Import Prelude CMonad Pbuf PbufChain PbufData PbufEdit PbufAlloc.
From S2P Require Import Inet InetChksum ChksumSpec Netif IpHdr Frames Driver.
From S2P Require Import IpReassMem IpReassInv IpFrag IpFragSpec PacketEdit IpOut.
#[local] Open Scope Z_scope.
#[local] Open Scope cmonad_scope.

Lemma surely_assoc {A B C} (m : M A) (k : A -> M B) (k' : B -> M C) Q :
  surely (bind m (fun a => bind (k a) k')) Q -> surely (bind (bind m k) k') Q.
Proof.
  intros H h. destruct (H h) as (c & h' & E & HQ). exists c, h'. split; [|exact HQ]. revert E. unfold bind.
  destruct (m h) as [[a|e| |] h0]; auto.
Qed.

(** ** Chains whose pbufs were moved along *)

Section Moved.
Context {W : Type} (held : W -> list addr).

Lemma drifts_chain bs st w st' w' p l :
  drifts held bs st w st' w' -> chain (st_pbufs st) p l -> (forall b, In b (addrs l) -> ~ In b (held w)) ->
  Forall (fun c => pb_ref (snd c) = 1) l ->
  exists l', chain (st_pbufs st') p l' /\ addrs l' = addrs l /\ Forall (fun c => pb_ref (snd c) = 1) l'.
Proof.
  intros [A _] Hc. induction Hc as [|a x l Hx Hc IH]; intros Hd Hr; [exists []; repeat constructor|].
  inversion Hr as [|? ? Hrx Hr']; subst. cbn [snd] in Hrx.
  destruct (A a) as (P & _); [left; eauto|apply Hd; now left|]. rewrite Hx in P. destruct (st_pbufs st' !! a) as [x'|] eqn:Hx'; [|discriminate].
  cbn in P. injection P as E1 E2 E3 E4 E5. destruct IH as (l' & C & E & R); [intros b Hb; apply Hd; now right|exact Hr'|].
  exists ((a, x') :: l'). split; [constructor; [exact Hx'|now rewrite E1]|]. split; [cbn [map fst]; now rewrite E|].
  constructor; [cbn; congruence|exact R].
Qed.

Lemma freed_removed st l : Forall (fun c => pb_ref (snd c) = 1) l -> removed (addrs l) st (snd (freed l st)).
Proof.
  intros Hr. assert (Hall : forall b y, In (b, y) l -> pb_ref y = 1) by (intros b y Hin; rewrite List.Forall_forall in Hr; exact (Hr _ Hin)).
  split; intros b Hb; [exact (proj2 (freed_all _ st Hall) b Hb)|exact (freed_other _ st b Hb)].
Qed.

Lemma free_whole st p l : chain (st_pbufs st) (Some p) l -> Forall (fun c => pb_ref (snd c) = 1) l ->
  exists k st', pbuf_free (Some p) st = ret (k, st') /\ removed (addrs l) st st'.
Proof.
  intros Hc Hr. eexists _, _. split; [apply (pbuf_free_chain st p l Hc)|now apply freed_removed].
  clear - Hr. induction Hr as [|[a x] l Hx Hl IH]; constructor; [cbn in *; lia|exact IH].
Qed.

Lemma drifts_removed bs st w st1 w1 st2 :
  drifts held bs st w st1 w1 -> accounted held st1 w1 -> removed bs st1 st2 -> (forall b, In b bs -> live st b /\ ~ In b (held w)) ->
  evolves held bs st w st2 w1.
Proof.
  intros [A B] Hac Hr Hbs. pose proof Hr as [H K]. assert (Hd : forall b, In b bs -> ~ In b (held w1)).
  { intros b Hb. destruct (Hbs b Hb) as [Hl Hh]. now apply (A b Hl Hh). }
  split; [|split]; [intros b..|].
  - intros Hl Hh Hg. destruct (A b Hl Hh) as (_ & Q & M & H1). destruct (K b Hg) as [P2 M2]. rewrite P2, M2. auto.
  - intros Hb. destruct (in_dec Pos.eq_dec b bs) as [Hi|Hn]; [left; now apply H|]. destruct (K b Hn) as [-> _]. apply B. tauto.
  - intros _. exact (accounted_untouched held bs st1 st2 w1 (removed_untouched _ _ _ Hr) Hd Hac).
Qed.
End Moved.

(** ** The state of the IP layer *)

(** [tcpip_callback] schedules a call, and has nothing to do with pbufs. *)
Class Scheduler {W} (held : W -> list addr) (handed : W -> list (netif * Z * list Z)) (tcpip_callback : netif -> W -> M W) : Prop :=
  scheduler_keeps : forall n w, surely (tcpip_callback n w) (fun w' => held w' = held w /\ handed w' = handed w).

Section Sent.
Context {W : Type} (held : W -> list addr) (handed : W -> list (netif * Z * list Z)).
Context (output : netif -> addr -> Z -> store -> W -> M (Z * store * W)) `{!Driver held handed output}.
Context (tcpip_callback : netif -> W -> M W) `{!Scheduler held handed tcpip_callback}.
Variable junk : nat -> Z.

(** The pbufs in the queues. *)
Definition loop_pbufs (s : ipstate W) : list addr := concat (map snd (map_to_list (ip_loop s))).

(** What the IP layer and the rest of the system hold. *)
Definition ip_held (s : ipstate W) : list addr := loop_pbufs s ++ held (ip_rest s).

Lemma loop_pbufs_in s b : In b (loop_pbufs s) <-> exists k l, ip_loop s !! k = Some l /\ In b l.
Proof.
  unfold loop_pbufs. rewrite in_concat. split.
  - intros (l & Hl & Hb). apply in_map_iff in Hl as ([k l'] & <- & Hin). exists k, l'. split; [|exact Hb].
    apply elem_of_map_to_list, list_elem_of_In. exact Hin.
  - intros (k & l & Hk & Hb). exists l. split; [|exact Hb]. apply in_map_iff. exists (k, l). split; [reflexivity|].
    now apply list_elem_of_In, elem_of_map_to_list.
Qed.

Lemma loop_of_in n s b : In b (loop_of n s) -> In b (loop_pbufs s).
Proof.
  unfold loop_of. intros Hb. apply loop_pbufs_in. destruct (ip_loop s !! nf_num n) as [l|] eqn:E; [|destruct Hb]. eauto.
Qed.

Lemma loop_pbufs_split n s : exists others, Permutation (loop_pbufs s) (loop_of n s ++ others) /\
  forall l, Permutation (loop_pbufs (set_loop n l s)) (l ++ others).
Proof.
  exists (concat (map snd (map_to_list (delete (nf_num n) (ip_loop s))))).
  assert (Hset : forall l, Permutation (loop_pbufs (set_loop n l s)) (l ++ concat (map snd (map_to_list (delete (nf_num n) (ip_loop s)))))).
  { intros l. unfold loop_pbufs. cbn [set_loop ip_loop]. rewrite <- (insert_delete_eq (ip_loop s)).
    rewrite (map_to_list_insert (delete (nf_num n) (ip_loop s))) by apply lookup_delete_eq. reflexivity. }
  split; [|exact Hset]. unfold loop_of. destruct (ip_loop s !! nf_num n) as [q|] eqn:E.
  - cbn [default]. rewrite <- Hset. unfold loop_pbufs. cbn [set_loop ip_loop]. now rewrite insert_id.
  - unfold loop_pbufs. now rewrite delete_id.
Qed.

Lemma accounted_parts st s : accounted ip_held st s ->
  accounted held st (ip_rest s) /\ List.NoDup (loop_pbufs s) /\
  (forall b, In b (loop_pbufs s) -> is_Some (st_pbufs st !! b) /\ ~ In b (held (ip_rest s))).
Proof.
  intros [Hn Ha]. unfold ip_held in Hn. split; [split; [exact (NoDup_app_remove_l _ _ Hn)|intros b Hb; apply Ha, in_app_iff; now right]|].
  split; [exact (NoDup_app_remove_r _ _ Hn)|]. intros b Hb. split; [apply Ha, in_app_iff; now left|exact (NoDup_app_disj _ _ Hn b Hb)].
Qed.

(** What others do with the rest of the state. *)
Lemma rest_evolves gone st s st' w' :
  evolves held gone st (ip_rest s) st' w' -> accounted ip_held st s -> (forall b, In b gone -> ~ In b (loop_pbufs s)) ->
  evolves ip_held gone st s st' (set_rest w' s).
Proof.
  intros (A & B & C) Hac Hg. destruct (accounted_parts _ _ Hac) as (H1 & Hnl & H2). unfold evolves, ip_held, accounted.
  cbn [set_rest ip_loop ip_rest]. change (loop_pbufs (set_rest w' s)) with (loop_pbufs s).
  assert (Hl : forall b, In b (loop_pbufs s) -> st_pbufs st' !! b = st_pbufs st !! b /\ ~ In b (held w')).
  { intros b Hb. destruct (H2 b Hb) as [Hs Hh]. destruct (A b (or_introl Hs) Hh) as (P & _ & H); [intros Hb'; exact (Hg b Hb' Hb)|auto]. }
  split; [|split]; [intros b..|].
  - rewrite !in_app_iff. intros Hs Hh Hb. destruct (A b Hs) as (P & M & H); tauto.
  - rewrite !in_app_iff. intros [Hb|[[Hb|Hb]|Hb]]; [|tauto| |]; destruct (B b) as [H|H]; tauto.
  - intros _. destruct (C H1) as [C1 C2]. split; [apply List.NoDup_app; auto; intros b Hb; now apply Hl|].
    intros b. rewrite in_app_iff. intros [Hb|Hb]; [rewrite (proj1 (Hl b Hb)); now apply H2|now apply C2].
Qed.

(** What was in the queue stays; the last of it points to [r]. *)
Definition linked (n : netif) (r : addr) (s : ipstate W) (st st' : store) : Prop :=
  forall b x, In b (loop_of n s) -> st_pbufs st !! b = Some x ->
    st_pbufs st' !! b = Some (if bool_decide (last (loop_of n s) = Some b) then with_next x (Some r) else x) /\ st_mem st' !! b = st_mem st !! b.

Lemma enqueue_run n st s r :
  (forall b, In b (ip_held s) -> is_Some (st_pbufs st !! b)) ->
  exists st', enqueue n r [r] st s = ret (st', set_loop n (loop_of n s ++ [r]) s) /\ st_mem st' = st_mem st /\
    (forall b, In b (ip_held s) -> is_Some (st_pbufs st' !! b)) /\
    (forall b, ~ In b (loop_pbufs s) -> st_pbufs st' !! b = st_pbufs st !! b) /\
    (forall b x, st_pbufs st !! b = Some x ->
       st_pbufs st' !! b = Some (if bool_decide (last (loop_of n s) = Some b) then with_next x (Some r) else x)).
Proof.
  intros Hal. unfold enqueue.
  destruct (last (loop_of n s)) as [z|] eqn:El.
  - assert (Hz : In z (loop_pbufs s)).
    { apply (loop_of_in n). apply last_Some in El as [k ->]. apply in_app_iff. right. now left. }
    destruct (Hal z) as [x Hx]; [unfold ip_held; apply in_app_iff; now left|].
    exists (set_pbuf z (with_next x (Some r)) st). rewrite (fetch_some _ _ _ Hx), !bind_ret. split; [reflexivity|]. split; [reflexivity|].
    split; [|split]; intros b Hb; cbn; (destruct (decide (b = z)) as [->|Hne]; [|rewrite lookup_insert_ne by congruence; auto]).
    + rewrite lookup_insert_eq. eauto.
    + contradiction.
    + rewrite lookup_insert_eq. intros Hbx. rewrite bool_decide_eq_true_2 by reflexivity. congruence.
    + intros Hbx. rewrite bool_decide_eq_false_2 by congruence. exact Hbx.
  - exists st. rewrite bind_ret. split; [reflexivity|]. split; [reflexivity|]. split; [auto|]. split; [auto|]. intros b x Hb.
    now rewrite bool_decide_eq_false_2 by discriminate.
Qed.

(** A new pbuf [r] is put on the queue. *)
Lemma enqueue_spec n stb st s r y :
  extends stb st [(r, y)] -> st_pbufs st !! r = Some y -> accounted ip_held stb s ->
  exists st', enqueue n r [r] st s = ret (st', set_loop n (loop_of n s ++ [r]) s) /\
    evolves ip_held [] stb s st' (set_loop n (loop_of n s ++ [r]) s) /\
    st_pbufs st' !! r = Some y /\ st_mem st' = st_mem st /\ ~ In r (ip_held s) /\ linked n r s stb st'.
Proof.
  intros He Hy Hac. destruct (accounted_parts _ _ Hac) as (H1 & Hnl & H2). set (s' := set_loop n (loop_of n s ++ [r]) s).
  assert (Hr : st_pbufs stb !! r = None) by (apply (proj1 He); now left).
  assert (Hrh : ~ In r (ip_held s)).
  { intros Hin. destruct (proj2 Hac r Hin) as [x Hx]. congruence. }
  assert (Hpe : Permutation (loop_pbufs s') (r :: loop_pbufs s)).
  { destruct (loop_pbufs_split n s) as (others & E1 & E2). unfold s'. rewrite (E2 _), E1. solve_Permutation. }
  assert (Hal0 : forall b, In b (ip_held s) -> is_Some (st_pbufs st !! b)).
  { intros b Hb. destruct (proj2 Hac b Hb) as [x Hx]. rewrite (proj1 (extends_pbufs _ _ _ _ He ltac:(eauto))). eauto. }
  pose proof (enqueue_run n st s r Hal0) as Hst.
  destruct Hst as (st' & E & M & Hal & Hun & Hlk). exists st'. split; [exact E|].
  assert (Hyr : st_pbufs st' !! r = Some y). { rewrite Hun; [exact Hy|]. intros Hin. apply Hrh. unfold ip_held. apply in_app_iff. now left. }
  assert (Hln : linked n r s stb st').
  { intros b x Hb Hx. assert (Hnb : ~ In b (addrs [(r, y)])) by (intros [Eb|[]]; cbn in Eb; subst b; congruence).
    destruct (proj2 He b Hnb) as [P' M']. rewrite M, M'. split; [|reflexivity]. apply Hlk. congruence. }
  split; [|auto]. assert (Hin : forall b, In b (ip_held s') <-> b = r \/ In b (ip_held s)).
  { intros b. unfold ip_held. change (ip_rest s') with (ip_rest s). rewrite !in_app_iff.
    assert (Hb : In b (loop_pbufs s') <-> b = r \/ In b (loop_pbufs s)).
    { split; intros Hb; [apply (Permutation_in _ Hpe) in Hb as [->|Hb]; auto|].
      apply (Permutation_in _ (Permutation_sym Hpe)). destruct Hb as [->|Hb]; [now left|now right]. }
    rewrite Hb. tauto. }
  split; [|split]; [intros b..|].
  - intros Hl Hh _. assert (Hb : b <> r) by (intros ->; exact (extends_fresh _ _ _ _ He Hl (or_introl eq_refl))).
    assert (Hnb : ~ In b (addrs [(r, y)])) by (intros [Eb|[]]; now apply Hb).
    destruct (proj2 He b Hnb) as [P' M']. rewrite M, Hun by (intros Hb'; apply Hh; unfold ip_held; apply in_app_iff; now left).
    split; [exact P'|]. split; [exact M'|]. rewrite Hin. tauto.
  - intros [Hb|[Hb|[]]]; [|right; apply Hin; now right]. destruct (decide (b = r)) as [->|Hne]; [right; apply Hin; now left|].
    destruct (in_dec Pos.eq_dec b (ip_held s)) as [Hi|Hi]; [right; apply Hin; now right|]. left.
    rewrite Hun by (intros Hb'; apply Hi; unfold ip_held; apply in_app_iff; now left).
    rewrite (proj1 (proj2 He b ltac:(intros [Eb|[]]; now apply Hne))). exact Hb.
  - intros _. split.
    + unfold ip_held. change (ip_rest s') with (ip_rest s). apply (Permutation_NoDup (Permutation_sym (Permutation_app_tail _ Hpe))).
      constructor; [exact Hrh|exact (proj1 Hac)].
    + intros b Hb. apply Hin in Hb as [->|Hb]; [eauto|now apply Hal].
Qed.

(** ** To oneself *)

(** A pbuf in a queue, with room for a link header. *)
Definition loop_pbuf (r : addr) (len : Z) : pbuf := Pbuf None (Some (r, PBUF_LINK_HLEN)) len len PBUF_RAM 0 1.

(** The bytes [bs] are a packet at the end of the queue. *)
Record looped (n : netif) (bs : list Z) (s : ipstate W) (st' : store) (s' : ipstate W) : Prop := Looped
  { lo_pbuf : exists r, let y := loop_pbuf r (Z.of_nat (length bs)) in
      ip_loop s' = <[nf_num n := loop_of n s ++ [r]]> (ip_loop s) /\ st_pbufs st' !! r = Some y /\ bytes_of (st_mem st') y = bs;
    lo_id : ip_id s' = ip_id s; lo_handed : handed (ip_rest s') = handed (ip_rest s) }.

(** A packet that is sent: its pbufs have their own memory and data. *)
Record outgoing (st : store) (s : ipstate W) (p : addr) (l : list (addr * pbuf)) : Prop := Outgoing
  { og_own : own_packet st p l; og_full : all_full l; og_accounted : accounted ip_held st s;
    og_free : forall b, In b (addrs l) -> ~ In b (ip_held s) }.

Lemma loop_output_spec n p l st s :
  outgoing st s p l ->
  surely (netif_loop_output junk tcpip_callback n p st s)
    (fun '(err, st', s') => evolves ip_held [] st s st' s' /\
       ((err = ERR_MEM /\ s' = s) \/
        (err = ERR_OK /\ looped n (content (st_mem st) l) s st' s' /\
         exists r, loop_of n s' = loop_of n s ++ [r] /\ linked n r s st st' /\ ~ In r (ip_held s) /\
           own_head st' r (loop_pbuf r (total l)) [] PBUF_LINK_HLEN /\ content (st_mem st') [(r, loop_pbuf r (total l))] = content (st_mem st) l))).
Proof.
  intros [[[Hc Ht] Hv Ho Hr] Hf Hac Hfr]. unfold netif_loop_output. destruct l as [|[a x] l]; [inversion Hc|].
  inversion Hc as [|? ? ? Hx _]; subst. rewrite (fetch_some _ _ _ Hx), bind_ret. pose proof Ht as (Et & _ & _ & Hmax & _).
  assert (Hpos : 0 < total ((a, x) :: l)) by (apply full_total; [exact Hf|discriminate]). set (lf := (a, x) :: l) in *.
  assert (Htn : 0 <= pb_tot_len x) by (rewrite Et; lia).
  eapply surely_bind; [apply (alloc_ram junk PBUF_LINK (pb_tot_len x) st Htn)|]. intros [[r|] st1].
  2: { intros ->. apply surely_ret. split; [apply evolves_refl|]. now left. }
  rewrite Et. intros Hfp. set (y := loop_pbuf r (total lf)).
  destruct (copy_to_new st st1 a lf r 14 (OwnPacket _ _ _ (conj Hc Ht) Hv Ho Hr) Hf Hfp ltac:(lia)) as (st2 & E3 & Hr2 & Hex2 & C3 & _).
  rewrite E3, bind_ret. cbn [Z.eqb negb ERR_OK].
  change (Pbuf None (Some (r, 14)) (total lf) (total lf) PBUF_RAM 0 1) with y in *. pose proof (head_lookup _ _ _ _ _ Hr2) as Hy.
  assert (Ech : chain_pbufs (walk_fuel st2) r st2 = ret [r]).
  { unfold walk_fuel. cbn [chain_pbufs]. now rewrite (fetch_some _ _ _ Hy), bind_ret. }
  rewrite Ech, bind_ret. destruct (enqueue_spec n st st2 s r y Hex2 Hy Hac) as (st3 & E4 & Hev & Hy3 & M3 & Hnr & Hln). rewrite E4, bind_ret.
  eapply surely_bind; [apply scheduler_keeps|]. intros w' [Hw1 Hw2]. apply surely_ret.
  assert (Heq : forall s1, ip_held (set_rest w' s1) = loop_pbufs s1 ++ held w') by reflexivity.
  split. { unfold evolves, accounted in *. rewrite Heq, Hw1. exact Hev. }
  assert (Hag : agree st2 st3 [r]) by (intros b [<-|[]]; split; congruence).
  right. split; [reflexivity|]. split.
  2: { exists r. split; [unfold loop_of; cbn; rewrite lookup_insert_eq; reflexivity|]. split; [exact Hln|]. split; [exact Hnr|].
       rewrite M3. split; [|exact C3]. destruct Hr2 as [Ho2 P2 T2 Ro2 B2]. constructor; auto; [|now rewrite M3].
       exact (own_agree _ _ r [(r, y)] Hag Ho2). }
  constructor; [|reflexivity|exact Hw2]. exists r. rewrite (content_length _ _ Hv). fold y. split; [reflexivity|]. split; [exact Hy3|].
  rewrite M3, <- (app_nil_r (bytes_of (st_mem st2) y)). exact C3.
Qed.

(** ** Sending *)

(** The packet fits the interface, or it can be cut. *)
Definition sendable (n : netif) (l : list (addr * pbuf)) : Prop :=
  nf_mtu n = 0 \/ total l <= nf_mtu n \/ (44 <= nf_mtu n < 65536 /\ Forall (fun c => IP_HLEN <= pb_len (snd c)) l).

(** Where the packet [bs] to [dest] went; without memory, nowhere or to the
    driver in part. *)
Inductive sent (n : netif) (dest : Z) (bs : list Z) (s : ipstate W) (st' : store) (s' : ipstate W) : Prop :=
| SentLoop : dest = nf_ip_addr n -> looped n bs s st' s' -> sent n dest bs s st' s'
| SentNowhere : dest = nf_ip_addr n -> s' = s -> sent n dest bs s st' s'
| SentWhole : dest <> nf_ip_addr n -> nf_mtu n = 0 \/ Z.of_nat (length bs) <= nf_mtu n -> ip_loop s' = ip_loop s -> ip_id s' = ip_id s ->
    handed (ip_rest s') = handed (ip_rest s) ++ [(n, dest, bs)] -> sent n dest bs s st' s'
| SentFragments now later : dest <> nf_ip_addr n -> nf_mtu n <> 0 -> nf_mtu n < Z.of_nat (length bs) -> ip_loop s' = ip_loop s -> ip_id s' = ip_id s ->
    (let tmp := ntohs (IPH_OFFSET (firstn 20 bs)) in
     fragments (length (skipn 20 bs)) (nf_mtu n) (firstn 20 bs) (Z.land tmp IP_MF) (Z.land tmp IP_OFFMASK) (skipn 20 bs) = now ++ later) ->
    handed (ip_rest s') = handed (ip_rest s) ++ map (fun d => (n, dest, d)) now -> sent n dest bs s st' s'.

(** The same with the answer: memory is missing exactly when the packet did not
    get into the queue, or not all of its fragments to the driver; a whole packet
    is answered by the driver. *)
Inductive dispatched (n : netif) (dest : Z) (bs : list Z) (s : ipstate W) (err : Z) (st' : store) (s' : ipstate W) : Prop :=
| GoneLoop : dest = nf_ip_addr n -> err = ERR_OK -> looped n bs s st' s' -> dispatched n dest bs s err st' s'
| GoneNowhere : dest = nf_ip_addr n -> err = ERR_MEM -> s' = s -> dispatched n dest bs s err st' s'
| GoneWhole : dest <> nf_ip_addr n -> nf_mtu n = 0 \/ Z.of_nat (length bs) <= nf_mtu n -> ip_loop s' = ip_loop s -> ip_id s' = ip_id s ->
    handed (ip_rest s') = handed (ip_rest s) ++ [(n, dest, bs)] -> dispatched n dest bs s err st' s'
| GoneFragments now later : dest <> nf_ip_addr n -> nf_mtu n <> 0 -> nf_mtu n < Z.of_nat (length bs) -> ip_loop s' = ip_loop s -> ip_id s' = ip_id s ->
    (let tmp := ntohs (IPH_OFFSET (firstn 20 bs)) in
     fragments (length (skipn 20 bs)) (nf_mtu n) (firstn 20 bs) (Z.land tmp IP_MF) (Z.land tmp IP_OFFMASK) (skipn 20 bs) = now ++ later) ->
    handed (ip_rest s') = handed (ip_rest s) ++ map (fun d => (n, dest, d)) now ->
    (err = ERR_OK /\ later = []) \/ (err = ERR_MEM /\ later <> []) -> dispatched n dest bs s err st' s'.

(** The packet [bs] went to the queue, to the driver, or to the driver in
    fragments, all of it. *)
Inductive posted (n : netif) (dest : Z) (bs : list Z) (s : ipstate W) (st' : store) (s' : ipstate W) : Prop :=
| PostedLoop : dest = nf_ip_addr n -> looped n bs s st' s' -> posted n dest bs s st' s'
| PostedWhole : dest <> nf_ip_addr n -> nf_mtu n = 0 \/ Z.of_nat (length bs) <= nf_mtu n -> ip_loop s' = ip_loop s -> ip_id s' = ip_id s ->
    handed (ip_rest s') = handed (ip_rest s) ++ [(n, dest, bs)] -> posted n dest bs s st' s'
| PostedFragments : dest <> nf_ip_addr n -> nf_mtu n <> 0 -> nf_mtu n < Z.of_nat (length bs) -> ip_loop s' = ip_loop s -> ip_id s' = ip_id s ->
    (let tmp := ntohs (IPH_OFFSET (firstn 20 bs)) in
     handed (ip_rest s') = handed (ip_rest s) ++ map (fun d => (n, dest, d))
       (fragments (length (skipn 20 bs)) (nf_mtu n) (firstn 20 bs) (Z.land tmp IP_MF) (Z.land tmp IP_OFFMASK) (skipn 20 bs))) ->
    posted n dest bs s st' s'.

(** The packet is for the driver in one piece, who may answer anything. *)
Definition for_driver (n : netif) (dest len : Z) : Prop := dest <> nf_ip_addr n /\ (nf_mtu n = 0 \/ len <= nf_mtu n).

Lemma dispatched_sent n dest bs s err st' s' : dispatched n dest bs s err st' s' -> sent n dest bs s st' s'.
Proof.
  intros [H1 _ H2|H1 _ H2|H1 H2 H3 H4 H5|now_ later H1 H2 H3 H4 H5 H6 H7 _].
  - now apply SentLoop.
  - now apply SentNowhere.
  - now apply SentWhole.
  - now apply (SentFragments _ _ _ _ _ _ now_ later).
Qed.

Lemma dispatched_posted n dest bs s err st' s' : dispatched n dest bs s err st' s' ->
  (err = ERR_MEM -> for_driver n dest (Z.of_nat (length bs))) -> posted n dest bs s st' s'.
Proof.
  unfold for_driver. intros [H1 _ H2|H1 He H2|H1 H2 H3 H4 H5|now_ later H1 H2 H3 H4 H5 H6 H7 He] Hm.
  - now apply PostedLoop.
  - destruct (Hm He). contradiction.
  - now apply PostedWhole.
  - destruct He as [[_ ->]|[He _]]; [|destruct (Hm He) as [_ [H|H]]; lia]. rewrite app_nil_r in H6. apply PostedFragments; auto. cbv zeta in H6 |- *.
    now rewrite H6.
Qed.

(** A packet is sent and the reference to it given up. *)
Definition send_code (p : addr) (dest : Z) (n : netif) (st : store) (s : ipstate W) : M (Z * store * ipstate W) :=
  '(e, st, s) <- send_packet junk output tcpip_callback p dest n st s;;
  '(_, st) <- pbuf_free (Some p) st;;
  ret (e, st, s).

Definition send_free (p : addr) (dest : Z) (n : netif) (st : store) (s : ipstate W) : M (store * ipstate W) :=
  '(_, st, s) <- send_packet junk output tcpip_callback p dest n st s;;
  '(_, st) <- pbuf_free (Some p) st;;
  ret (st, s).

Lemma outgoing_to_send st s p x l :
  outgoing st s p ((p, x) :: l) -> Forall (fun c => IP_HLEN <= pb_len (snd c)) ((p, x) :: l) -> to_send held st (ip_rest s) p x l.
Proof.
  intros [[Hp Hv Ho Hr] Hf Hac Hfr] Hw. inversion Hw as [|? ? Hx Hw']; subst.
  destruct (accounted_parts _ _ Hac) as (H1 & _ & _). constructor; auto.
  - apply List.Forall_forall. intros [b y] Hin.
    assert (Hb : ~ In b (held (ip_rest s))).
    { intros Hb. apply (Hfr b); [apply in_map_iff; now exists (b, y)|]. unfold ip_held. apply in_app_iff. now right. }
    split; [exact Hb|]. intros _ c o Hc. rewrite List.Forall_forall in Ho. destruct (Ho _ Hin) as [o' E]. cbn [fst snd] in *. rewrite E in Hc. now injection Hc as <- <-.
  - eapply Forall_impl; [exact Hw'|]. intros c Hc. now right.
Qed.

Lemma send_code_spec p n dest st s l :
  outgoing st s p l -> sendable n l -> 0 <= nf_mtu n ->
  surely (send_code p dest n st s)
    (fun '(err, st', s') => evolves ip_held (addrs l) st s st' s' /\ dispatched n dest (content (st_mem st) l) s err st' s').
Proof.
  intros Hog Hsd Hmtu. pose proof Hog as [[Hp Hv Ho Hr] Hf Hac Hfr]. pose proof Hp as [Hc Ht].
  destruct (accounted_parts _ _ Hac) as (Hacr & _ & _). pose proof (content_length _ _ Hv) as Lc.
  assert (Hal : forall b, In b (addrs l) -> is_Some (st_pbufs st !! b)).
  { intros b Hb. apply in_map_iff in Hb as ([c z] & <- & Hin). exists z. exact (chain_lookup _ _ _ _ _ Hc Hin). }
  assert (Hnl : forall b, In b (addrs l) -> ~ In b (loop_pbufs s)) by (intros b Hb Hb'; apply (Hfr b Hb); unfold ip_held; apply in_app_iff; now left).
  assert (Hnh : forall b, In b (addrs l) -> ~ In b (held (ip_rest s))) by (intros b Hb Hb'; apply (Hfr b Hb); unfold ip_held; apply in_app_iff; now right).
  unfold send_code, send_packet. destruct (Z.eqb_spec dest (nf_ip_addr n)) as [Ed|Ed].
  - eapply surely_bind; [apply (loop_output_spec n p l st s Hog)|]. intros [[err st1] s1] (Hev & Hres).
    destruct (evolves_agree _ _ _ _ _ _ (addrs l) Hev) as [Hag Hnh1].
    { intros b Hb. split; [now apply Hal|]. split; [now apply Hfr|intros []]. }
    destruct (free_whole st1 p l) as (k & st2 & E2 & R2); [|exact Hr|].
    { eapply chain_ext; [exact Hc|]. intros b Hb. exact (proj1 (Hag b Hb)). }
    rewrite E2, bind_ret. apply surely_ret. split.
    { change (addrs l) with ([] ++ addrs l). eapply evolves_trans; [exact Hev|]. now apply removed_evolves. }
    destruct Hres as [[-> ->]|[-> [[Hlo Hid Hha] _]]]; [now apply GoneNowhere|]. apply GoneLoop; [exact Ed|reflexivity|]. constructor; [|exact Hid|exact Hha].
    destruct Hlo as (r & E & Hy & Hby). exists r. split; [exact E|].
    assert (Hrn : ~ In r (addrs l)).
    { intros Hin. apply (Hnh1 r Hin). unfold ip_held. apply in_app_iff. left. apply (loop_of_in n). unfold loop_of. rewrite E, lookup_insert_eq. cbn.
      apply in_app_iff. right. now left. }
    destruct (proj2 R2 r Hrn) as [P2 M2]. rewrite P2. split; [exact Hy|]. rewrite <- Hby at 2.
    rewrite !(owned_block _ r _ PBUF_LINK_HLEN) by reflexivity. unfold block. now rewrite M2.
  - destruct l as [|[a x] l]; [inversion Hc|]. assert (a = p) by (inversion Hc; congruence). subst a.
    assert (Hx : st_pbufs st !! p = Some x) by now inversion Hc. rewrite (fetch_some _ _ _ Hx), bind_ret.
    pose proof Ht as (Etot & _). rewrite Etot. set (lf := (p, x) :: l) in *.
    destruct (Z.eqb_spec (nf_mtu n) 0) as [Em|Em]; [|destruct (Z.ltb_spec (nf_mtu n) (total lf)) as [Hlt|Hge]]; cbn [negb andb].
    2: { destruct Hsd as [Hs|[Hs|[Hm Hw]]]; [lia|lia|]. apply surely_assoc. eapply surely_bind.
         { exact (ip_frag_spec held handed output junk p n dest x l st (ip_rest s) (outgoing_to_send _ _ _ _ _ Hog Hw) Hm). }
         intros [[err st1] w1] (Hdr & Ha1 & now_ & later & Efr & Eh & He). cbv beta iota. rewrite bind_ret. cbv beta iota.
         destruct (drifts_chain held _ _ _ _ _ _ lf Hdr Hc Hnh Hr) as (l' & C' & A' & R').
         destruct (free_whole st1 p l' C' R') as (k & st2 & E2 & R2). rewrite E2, bind_ret. apply surely_ret. rewrite A' in R2. split.
         - apply rest_evolves; [|exact Hac|exact Hnl]. apply (drifts_removed held _ _ _ st1); [exact Hdr|exact Ha1|exact R2|].
           intros b Hb. split; [left; now apply Hal|now apply Hnh].
         - apply (GoneFragments _ _ _ _ _ _ _ now_ later); auto. lia. }
    all: assert (Hfit : nf_mtu n = 0 \/ Z.of_nat (length (content (st_mem st) lf)) <= nf_mtu n) by lia.
    all: pose proof (driver_takes n p lf dest st (ip_rest s) Hp Hv Hr Hacr Hnh) as Hd.
    all: assert (Hgo : surely (hand_over output n p dest st (ip_rest s))
           (fun '(st', w') => forall err, evolves ip_held (addrs lf) st s st' (set_rest w' s) /\
              dispatched n dest (content (st_mem st) lf) s err st' (set_rest w' s))).
    1, 3: eapply surely_weaken; [exact Hd|]; intros [st' w'] (Hev & Hh) err;
      split; [now apply rest_evolves|now apply GoneWhole].
    all: intros h; destruct (Hgo h) as ([st' w'] & h' & E & HQ); revert E; unfold hand_over, bind, ret;
      destruct (output n p dest st (ip_rest s) h) as [[[[e st1] w1]|e| |] h1]; try discriminate;
      destruct (pbuf_free (Some p) st1 h1) as [[[k st2]|e'| |] h2]; try discriminate; intros [= <- <- <-];
      exists (e, st2, set_rest w1 s), h2; split; [reflexivity|apply HQ].
Qed.

Lemma send_free_spec p n dest st s l :
  outgoing st s p l -> sendable n l -> 0 <= nf_mtu n ->
  surely (send_free p dest n st s)
    (fun '(st', s') => evolves ip_held (addrs l) st s st' s' /\ sent n dest (content (st_mem st) l) s st' s').
Proof.
  intros Hog Hsd Hm h. destruct (send_code_spec p n dest st s l Hog Hsd Hm h) as ([[e st'] s'] & h' & E & Hev & Hd).
  exists (st', s'), h'. split; [|split; [exact Hev|exact (dispatched_sent _ _ _ _ _ _ _ Hd)]].
  revert E. unfold send_code, send_free, bind, ret. destruct (send_packet _ _ _ _ _ _ _ _ h) as [[[[e1 st1] s1]|e1| |] h1]; try discriminate.
  destruct (pbuf_free (Some p) st1 h1) as [[[k st2]|e2| |] h2]; try discriminate. now intros [= <- <- <- <-].
Qed.

(** *** With memory *)

Hypothesis output_thrifty : forall n p dest st w, thrifty (output n p dest st w).
Hypothesis callback_thrifty : forall n w, thrifty (tcpip_callback n w).

Lemma thrifty_chain fuel p st : thrifty (chain_pbufs fuel p st).
Proof. revert p. induction fuel as [|fuel IH]; intros p; cbn [chain_pbufs]; thrifty. Qed.

Lemma thrifty_enqueue n r l st (s : ipstate W) : thrifty (enqueue n r l st s).
Proof. unfold enqueue. thrifty. Qed.

Lemma thrifty_skip p poff st : thrifty (skip_bytes p poff st).
Proof. unfold skip_bytes. thrifty. Qed.

Lemma thrifty_frag_header hdr cop tmp : thrifty (frag_header hdr cop tmp).
Proof. unfold frag_header, with_chksum, inet_chksum, LWIP_CHKSUM, take_bytes. thrifty. Qed.

Lemma thrifty_hand_over n p dest st w : thrifty (hand_over output n p dest st w).
Proof. unfold hand_over. apply thrifty_bind; [apply output_thrifty|thrifty]. Qed.

Lemma enough_loop_output n p st s : enough (netif_loop_output junk tcpip_callback n p st s) (fun '(err, _, _) => err = ERR_OK).
Proof.
  unfold netif_loop_output. eapply enough_bind; [apply thrifty_fetch|intros x _].
  eapply enough_bind; [apply enough_alloc; discriminate|]. intros [[r|] st1] Hr; [|now contradiction Hr].
  eapply enough_bind; [apply enough_copy|]. intros [e st2] He. cbn in He. subst e. cbn [Z.eqb negb ERR_OK].
  eapply enough_bind; [apply thrifty_chain|]. intros l _. eapply enough_bind; [apply thrifty_enqueue|]. intros [st3 s3] _. eapply enough_bind; [apply callback_thrifty|]. intros w _. now apply enough_ret.
Qed.

Lemma enough_mirror rb x n st : enough (mirror junk rb x n st) (fun r => fst r = true).
Proof.
  unfold mirror. eapply enough_bind; [apply enough_alloc; discriminate|]. intros [[np|] st1] Hr; [|now contradiction Hr].
  eapply enough_bind; [apply thrifty_fetch|intros y _]. eapply enough_bind; [apply thrifty_cat|intros st2 _]. now apply enough_ret.
Qed.

Lemma enough_frag_copy fuel rb p left np st : enough (frag_copy junk fuel rb p left np st) (fun r => fst r <> None).
Proof.
  revert p left np st. induction fuel as [|fuel IH]; intros p left np st; cbn [frag_copy]; (destruct (left =? 0); [now apply enough_ret|]).
  { intros h a h' _ E. discriminate E. }
  eapply enough_bind; [apply thrifty_fetch|intros x _]. cbv zeta. destruct (_ =? 0); [apply IH|].
  eapply enough_bind; [apply enough_mirror|]. intros [ok st1] Ho. cbn in Ho. subst ok. apply IH.
Qed.

Lemma enough_frag n p dest st w : enough (ip_frag junk output p n dest st w) (fun '(err, _, _) => err = ERR_OK).
Proof.
  unfold ip_frag. eapply enough_bind; [apply thrifty_fetch|intros x _]. eapply enough_bind; [apply thrifty_load|intros hdr _]. cbv zeta.
  generalize (u16 (pb_tot_len x - IP_HLEN)). intros left. generalize (Z.to_nat left) as fuel. intros fuel.
  generalize (Z.land (ntohs (IPH_OFFSET hdr)) IP_OFFMASK), (Z.land (ntohs (IPH_OFFSET hdr)) IP_MF), IP_HLEN, 0, (Some p).
  revert left st w. induction fuel as [|fuel IH]; intros left st w ofo omf poff np q; cbn [frag_loop];
    (destruct (left =? 0); [now apply enough_ret|]); [intros h a h' _ E; discriminate E|].
  cbv zeta. eapply enough_bind with (N := fun r => fst (fst r) <> None).
  2: { intros [[[[p' np']|] st1] w1] H; [apply IH|now contradiction H]. }
  unfold send_frag. eapply enough_bind; [apply enough_alloc; discriminate|]. intros [[rb|] st1] Hr; [|now contradiction Hr].
  eapply enough_bind; [apply thrifty_fetch|intros y _]. eapply enough_bind; [apply thrifty_assert|intros _ _].
  eapply enough_bind; [apply thrifty_load|intros ip _]. eapply enough_bind; [apply thrifty_fetch|intros z _].
  eapply enough_bind; [apply thrifty_save|intros st2 _].
  eapply enough_bind; [apply thrifty_skip|intros st3 _].
  eapply enough_bind; [apply enough_frag_copy|]. intros [[[p' np']|] st4] H; [|now contradiction H].
  eapply enough_bind; [apply thrifty_frag_header|intros h _]. eapply enough_bind; [apply thrifty_save|intros st5 _].
  eapply enough_bind; [apply thrifty_hand_over|].
  intros [st6 w6] _. now apply enough_ret.
Qed.

Lemma enough_send_code p n dest st s x : st_pbufs st !! p = Some x ->
  enough (send_code p dest n st s) (fun '(err, _, _) => err = ERR_MEM -> for_driver n dest (pb_tot_len x)).
Proof.
  intros Hx. unfold send_code. eapply enough_bind with (N := fun '(err, _, _) => err = ERR_MEM -> for_driver n dest (pb_tot_len x)).
  - unfold send_packet, for_driver. destruct (Z.eqb_spec dest (nf_ip_addr n)) as [Ed|Ed].
    + eapply enough_weaken; [apply enough_loop_output|]. intros [[e st1] s1] ->. discriminate.
    + rewrite (fetch_some _ _ _ Hx), bind_ret.
      destruct (Z.eqb_spec (nf_mtu n) 0) as [Em|Em]; [|destruct (Z.ltb_spec (nf_mtu n) (pb_tot_len x))]; cbn [negb andb].
      2: { eapply enough_bind; [apply enough_frag|]. intros [[e st1] w1] ->. apply enough_ret. discriminate. }
      all: eapply enough_bind; [apply output_thrifty|]; intros [[e st1] w1] _; apply enough_ret; auto.
  - intros [[e st1] s1] He. eapply enough_bind; [apply thrifty_free|]. intros [k st2] _. now apply enough_ret.
Qed.

(** A packet that is sent with memory is sent completely. *)
Lemma send_code_posts p n dest st s l :
  outgoing st s p l -> sendable n l -> 0 <= nf_mtu n ->
  runs NoFail (send_code p dest n st s)
    (fun '(_, st', s') => evolves ip_held (addrs l) st s st' s' /\ posted n dest (content (st_mem st) l) s st' s') no_err.
Proof.
  intros Hog Hsd Hm. pose proof Hog as [[[Hc Ht] Hv _ _] _ _ _]. destruct l as [|[a x] l]; [inversion Hc|].
  assert (Hx : st_pbufs st !! p = Some x) by now inversion Hc. pose proof (content_length _ _ Hv) as Lc. destruct Ht as (Et & _).
  eapply runs_weaken; [exact (surely_enough _ _ _ (send_code_spec p n dest st s _ Hog Hsd Hm) (enough_send_code p n dest st s x Hx))| |auto].
  intros [[e st'] s'] [[Hev Hd] He]. split; [exact Hev|]. apply (dispatched_posted _ _ _ _ _ _ _ Hd). rewrite Lc, <- Et. exact He.
Qed.
End Sent.


(** The header with all its fields, without the checksum. *)
Definition new_header (src dest ttl tos proto len id : Z) : list Z :=
  field16 (htons (Z.lor 0x4500 tos)) ++ field16 (htons len) ++ field16 (htons id) ++ [0; 0] ++
  field16 (htons (Z.lor proto (Z.shiftl ttl 8))) ++ [0; 0] ++ field32 src ++ field32 dest.

Lemma set16_get16 hdr v : length hdr = 20%nat -> 0 <= v < 65536 -> get16 (set16 8 v hdr) 8 = v.
Proof. intros H Hv. transitivity (le_value (field16 v)); [|now apply field16_value]. twenty hdr H. reflexivity. Qed.

Lemma byte_or a b : 0 <= a < 256 -> 0 <= b < 256 -> 0 <= Z.lor a (Z.shiftl b 8) < 65536 /\ Z.shiftr (Z.lor a (Z.shiftl b 8)) 8 = b.
Proof.
  intros Ha Hb. assert (E : Z.lor a (Z.shiftl b 8) = a + b * 256).
  { rewrite Z.shiftl_mul_pow2 by lia. change (2 ^ 8) with 256. symmetry. rewrite <- Z.lxor_lor, <- Z.add_nocarry_lxor; [reflexivity| |].
    all: apply Z.bits_inj'; intros i Hi; rewrite Z.land_spec, Z.bits_0; change 256 with (2 ^ 8); rewrite <- Z.shiftl_mul_pow2, Z.shiftl_spec by lia.
    all: destruct (Z.ltb_spec i 8); [rewrite (Z.testbit_neg_r b) by lia; apply andb_false_r|].
    all: rewrite (Z.bits_above_log2 a i) by (lia || (destruct (Z.eq_dec a 0) as [->|]; [cbn; lia|]; apply Z.log2_lt_pow2; [lia|];
      apply Z.lt_le_trans with (2 ^ 8); [exact (proj2 Ha)|apply Z.pow_le_mono_r; lia])); reflexivity. }
  rewrite E. split; [lia|]. rewrite Z.shiftr_div_pow2 by lia. change (2 ^ 8) with 256. dlia.
Qed.

Lemma land_byte_range x : 0 <= Z.land x 0xff < 256.
Proof. change 0xff with (Z.ones 8). rewrite Z.land_ones by lia. apply Z.mod_pos_bound. lia. Qed.

Lemma ip_header_new hdr src dest ttl tos proto len id :
  length hdr = 20%nat -> 0 <= ttl < 256 -> 0 <= proto < 256 -> 0 <= tos < 256 ->
  ip_header hdr src dest ttl tos proto len id = new_header src dest ttl tos proto len id.
Proof.
  intros H Ht Hp Hs. unfold ip_header, IPH_PROTO_SET, IPH_TTL_SET, IPH_TTL.
  set (v1 := htons (u16 (Z.lor (IPH_PROTO hdr) (Z.shiftl (u16 ttl) 8)))).
  destruct (byte_or (IPH_PROTO hdr) ttl) as [B1 B2]; [apply land_byte_range|exact Ht|].
  assert (Ev : v1 = htons (Z.lor (IPH_PROTO hdr) (Z.shiftl ttl 8))) by (unfold v1, u16; now rewrite (Z.mod_small ttl), Z.mod_small by lia).
  rewrite set16_get16 by (auto; rewrite Ev; now apply htons_range). rewrite Ev, htons_involutive, B2 by exact B1.
  destruct (byte_or proto ttl Hp Ht) as [B3 _]. assert (Eu : u16 (Z.lor proto (Z.shiftl ttl 8)) = Z.lor proto (Z.shiftl ttl 8)) by (unfold u16; apply Z.mod_small; exact B3).
  rewrite Eu. unfold IPH_VHLTOS_SET, IPH_ID_SET, IPH_LEN_SET, IPH_OFFSET_SET, IPH_CHKSUM_SET.
  change (Z.lor (Z.shiftl 4 12) (Z.shiftl (IP_HLEN / 4) 8)) with 0x4500.
  assert (Eo : u16 (Z.lor 0x4500 tos) = Z.lor 0x4500 tos).
  { unfold u16. apply Z.mod_small. destruct (byte_or tos 0x45 Hs ltac:(lia)) as [B _]. rewrite Z.lor_comm. exact B. }
  rewrite Eo. generalize (htons (Z.lor (IPH_PROTO hdr) (Z.shiftl ttl 8))). intros v. unfold new_header, set16, set32, splice, field16, field32.
  twenty hdr H. reflexivity.
Qed.

Lemma new_header_length src dest ttl tos proto len id : length (new_header src dest ttl tos proto len id) = 20%nat.
Proof. reflexivity. Qed.

Lemma new_header_bytes src dest ttl tos proto len id : Forall byte (new_header src dest ttl tos proto len id).
Proof.
  unfold new_header, field16, field32. cbn [app]. repeat (constructor; [first [apply Z.mod_pos_bound; lia|unfold byte; lia]|]). constructor.
Qed.

Lemma new_header_verifies src dest ttl tos proto len id :
  inet_chksum (checked (new_header src dest ttl tos proto len id)) IP_HLEN = ret 0.
Proof. apply checked_verifies; [reflexivity|apply new_header_bytes|reflexivity]. Qed.

(** ** Adding the header and sending *)

Lemma evolves_before {W} (held : W -> list addr) gone st st1 w st' w' :
  untouched gone st st1 -> (forall b, In b gone -> ~ In b (held w)) ->
  evolves held gone st1 w st' w' -> evolves held gone st w st' w'.
Proof.
  intros Hu Hd (A & B & C). split; [|split]; [intros b..|].
  - intros Hl Hh Hg. destruct (Hu b Hg) as [P M]. destruct (A b (live_same _ _ _ P M Hl) Hh Hg) as (P1 & M1 & H1).
    split; [congruence|]. split; [congruence|exact H1].
  - intros Hb. destruct (in_dec Pos.eq_dec b gone) as [Hi|Hn]; [apply B; tauto|]. apply B. rewrite (proj1 (Hu b Hn)). tauto.
  - intros Ha. apply C. exact (accounted_untouched held gone st st1 w Hu Hd Ha).
Qed.

Section Send.
Context {W : Type} (held : W -> list addr) (handed : W -> list (netif * Z * list Z)).
Context (output : netif -> addr -> Z -> store -> W -> M (Z * store * W)) `{!Driver held handed output}.
Context (tcpip_callback : netif -> W -> M W) `{!Scheduler held handed tcpip_callback}.
Variable junk : nat -> Z.

(** The source address that is used. *)
Definition source_of (src : option Z) (n : netif) : Z :=
  match src with Some a => if ip_addr_isany a then nf_ip_addr n else a | None => nf_ip_addr n end.

Definition next_id (s : ipstate W) : ipstate W := IpState (u16 (ip_id s + 1)) (ip_loop s) (ip_rest s).

(** [ip_output_if], and the reference to the packet given up. *)
Definition output_if_free (p : addr) (src : option Z) (dest ttl tos proto : Z) (n : netif) (st : store) (s : ipstate W)
    : M (store * ipstate W) :=
  '(_, st, s) <- ip_output_if junk output tcpip_callback p src (Some dest) ttl tos proto n st s;;
  '(_, st) <- pbuf_free (Some p) st;;
  ret (st, s).

(** A packet without a header can be sent through [n]. *)
Record ready (n : netif) (st : store) (s : ipstate W) (p : addr) (x : pbuf) (l : list (addr * pbuf)) (o : Z) : Prop := Ready
  { rd_head : own_head st p x l o; rd_room : IP_HLEN <= o; rd_full : Forall (fun c => 0 < pb_len (snd c)) l;
    rd_size : total ((p, x) :: l) + IP_HLEN < 65536; rd_mtu : 0 <= nf_mtu n; rd_send : sendable n ((p, shifted x IP_HLEN) :: l);
    rd_accounted : accounted (ip_held held) st s; rd_free : forall b, In b (p :: addrs l) -> ~ In b (ip_held held s) }.

(** The packet with the header that [ip_output_if] writes. *)
Definition with_header (n : netif) (src : option Z) (dest ttl tos proto : Z) (s : ipstate W) (bs : list Z) : list Z :=
  checked (new_header (source_of src n) dest ttl tos proto (Z.of_nat (length bs) + IP_HLEN) (ip_id s)) ++ bs.

(** [ip_output_if] puts the header in front of the packet, and sends it. *)
Lemma output_if_run p x l o src dest ttl tos proto n st s :
  ready n st s p x l o -> 0 <= ttl < 256 -> 0 <= tos < 256 -> 0 <= proto < 256 ->
  exists st2, ip_output_if junk output tcpip_callback p src (Some dest) ttl tos proto n st s =
      send_packet junk output tcpip_callback p dest n st2 (next_id s) /\
    outgoing held st2 (next_id s) p ((p, shifted x IP_HLEN) :: l) /\ untouched (p :: addrs l) st st2 /\
    content (st_mem st2) ((p, shifted x IP_HLEN) :: l) = with_header n src dest ttl tos proto s (content (st_mem st) ((p, x) :: l)).
Proof.
  intros [Hh Hro Hf Hsz Hmtu Hsd Hac Hfr] Ht Hs Hp. unfold IP_HLEN in Hro, Hsz, Hsd.
  pose proof (head_lengths _ _ _ _ _ Hh) as (Et & Hl & Hb). set (y := shifted x 20) in *.
  destruct (head_move st p x l o Hh 20) as (E1 & Hh1 & Hu1 & _ & Hc1); [lia|lia|lia|]. fold y in E1, Hh1, Hu1, Hc1.
  destruct (Hc1 ltac:(lia)) as (jk & Lj & Ec1). set (st1 := set_pbuf p y st) in *.
  assert (Ely : pb_len y = pb_len x + 20) by reflexivity. assert (Ety : pb_tot_len y = pb_tot_len x + 20) by reflexivity.
  unfold ip_output_if. change IP_HLEN with 20. rewrite E1, bind_ret. cbn [Z.eqb negb].
  rewrite (fetch_some _ _ _ (head_lookup _ _ _ _ _ Hh1)), bind_ret. unfold lwip_assert.
  destruct (Z.leb_spec 20 (pb_len y)) as [_|]; [|lia]. rewrite bind_ret.
  rewrite (head_load _ _ _ _ _ Hh1 0 20), bind_ret by lia. cbn [Z.to_nat Pos.to_nat]. rewrite drop_0, Ec1.
  change (Z.to_nat 20) with 20%nat in *. rewrite firstn_app, firstn_all2, Lj by lia. cbn [Nat.sub]. rewrite firstn_O, app_nil_r.
  cbv zeta. rewrite ip_header_new by assumption.
  change (match src with Some a => _ | None => _ end) with (source_of src n).
  set (nh := new_header _ _ _ _ _ _ _). rewrite (with_chksum_spec nh) by apply new_header_length. rewrite bind_ret.
  assert (Lh : length (checked nh) = 20%nat) by (apply checked_length, new_header_length).
  destruct (head_save st1 p y l (o - 20) Hh1 0 (checked nh)) as (st2 & E2 & Hw2 & Hh2 & Ec2); [lia|lia|]. rewrite E2, bind_ret. exists st2.
  rewrite Ec1 in Ec2. change (Z.to_nat 0) with 0%nat in Ec2. unfold splice in Ec2. rewrite Lh in Ec2. cbn [firstn app Nat.add] in Ec2.
  rewrite skipn_app, skipn_all2, Lj in Ec2 by lia. cbn [Nat.sub app] in Ec2. rewrite drop_0 in Ec2.
  set (c0 := content (st_mem st) ((p, x) :: l)) in *.
  assert (Hog : outgoing held st2 (next_id s) p ((p, y) :: l)).
  { constructor; [exact (oh_own _ _ _ _ _ Hh2)|constructor; [cbn [snd]; lia|exact Hf]| |exact Hfr].
    change (accounted (ip_held held) st2 s). apply (accounted_untouched _ [p] st).
    - eapply untouched_trans; [exact Hu1|]. apply changed_untouched. apply (written_changed p); [exact Hw2|now left].
    - intros b [<-|[]]. apply Hfr. now left.
    - exact Hac. }
  split; [reflexivity|]. split; [exact Hog|]. split.
  - apply (untouched_weaken [p]); [|intros b [<-|[]]; now left].
    eapply untouched_trans; [exact Hu1|]. apply changed_untouched. apply (written_changed p); [exact Hw2|now left].
  - fold y. rewrite Ec2. subst nh. unfold with_header. assert (Lc : Z.of_nat (length c0) = total ((p, x) :: l)) by exact (content_length _ _ (op_valid _ _ _ (oh_own _ _ _ _ _ Hh))).
    rewrite Lc, Ety, Et. reflexivity.
Qed.

(** What is sent, with the answer. *)
Definition output_code (p : addr) (src : option Z) (dest ttl tos proto : Z) (n : netif) (st : store) (s : ipstate W)
    : M (Z * store * ipstate W) :=
  '(e, st, s) <- ip_output_if junk output tcpip_callback p src (Some dest) ttl tos proto n st s;;
  '(_, st) <- pbuf_free (Some p) st;;
  ret (e, st, s).

Lemma output_code_spec p x l o src dest ttl tos proto n st s :
  ready n st s p x l o -> 0 <= ttl < 256 -> 0 <= tos < 256 -> 0 <= proto < 256 ->
  let bs := with_header n src dest ttl tos proto s (content (st_mem st) ((p, x) :: l)) in
  surely (output_code p src dest ttl tos proto n st s)
    (fun '(err, st', s') => evolves (ip_held held) (p :: addrs l) st s st' s' /\ dispatched handed n dest bs (next_id s) err st' s') /\
  ((forall n p dest st w, thrifty (output n p dest st w)) -> (forall n w, thrifty (tcpip_callback n w)) ->
   runs NoFail (output_code p src dest ttl tos proto n st s)
     (fun '(_, st', s') => evolves (ip_held held) (p :: addrs l) st s st' s' /\ posted handed n dest bs (next_id s) st' s') no_err).
Proof.
  intros Hrd Ht Hs Hp bs. destruct (output_if_run p x l o src dest ttl tos proto n st s Hrd Ht Hs Hp) as (st2 & E & Hog & Hu & Ec). fold bs in Ec.
  pose proof Hrd as [_ _ _ _ Hmtu Hsd _ Hfr]. unfold output_code. rewrite E.
  fold (send_code output tcpip_callback junk p dest n st2 (next_id s)). rewrite <- Ec. split.
  - eapply surely_weaken; [exact (send_code_spec held handed output tcpip_callback junk p n dest st2 (next_id s) _ Hog Hsd Hmtu)|].
    intros [[e st'] s'] [Hev Hd]. split; [|exact Hd]. exact (evolves_before (ip_held held) _ st st2 s _ _ Hu Hfr Hev).
  - intros Ho Hcb. eapply runs_weaken; [exact (send_code_posts held handed output tcpip_callback junk Ho Hcb p n dest st2 (next_id s) _ Hog Hsd Hmtu)| |auto].
    intros [[e st'] s'] [Hev Hd]. split; [|exact Hd]. exact (evolves_before (ip_held held) _ st st2 s _ _ Hu Hfr Hev).
Qed.

Lemma output_if_free_spec p x l o src dest ttl tos proto n st s :
  ready n st s p x l o -> 0 <= ttl < 256 -> 0 <= tos < 256 -> 0 <= proto < 256 ->
  surely (output_if_free p src dest ttl tos proto n st s)
    (fun '(st', s') =>
       let hdr := checked (new_header (source_of src n) dest ttl tos proto (total ((p, x) :: l) + IP_HLEN) (ip_id s)) in
       evolves (ip_held held) (p :: addrs l) st s st' s' /\
       sent handed n dest (hdr ++ content (st_mem st) ((p, x) :: l)) (next_id s) st' s').
Proof.
  intros Hrd Ht Hs Hp h. pose proof Hrd as [Hh _ _ _ _ _ _ _].
  destruct (proj1 (output_code_spec p x l o src dest ttl tos proto n st s Hrd Ht Hs Hp) h) as ([[e st'] s'] & h' & E & Hev & Hd).
  exists (st', s'), h'. split.
  - revert E. unfold output_code, output_if_free, bind, ret. destruct (ip_output_if _ _ _ _ _ _ _ _ _ _ _ _ h) as [[[[e1 st1] s1]|e1| |] h1]; try discriminate.
    destruct (pbuf_free (Some p) st1 h1) as [[[k st2]|e2| |] h2]; try discriminate. now intros [= <- <- <- <-].
  - cbv zeta. split; [exact Hev|]. apply dispatched_sent in Hd. unfold with_header in Hd.
    now rewrite (content_length _ _ (op_valid _ _ _ (oh_own _ _ _ _ _ Hh))) in Hd.
Qed.
End Send.
