(* ===== verification/Icmp.v ===== *)
(** * lwIP: ICMP

    [lwip/src/core/ipv4/icmp.c]: echo requests are answered, and messages are
    sent about packets that cannot be delivered.  A pointer to the header of
    an incoming packet stays where it is when the packet's [payload] moves. *)
From Stdlib Require Import ZArith List Lia Bool.
From stdpp Require Import base gmap list.
From S2P Require Import Prelude CMonad Pbuf Inet InetChksum Netif IpHdr IpFrag IpOut.
#[local] Open Scope Z_scope.
#[local] Open Scope cmonad_scope.

Definition ICMP_ER : Z := 0.
Definition ICMP_DUR : Z := 3.
Definition ICMP_ECHO : Z := 8.
Definition ICMP_TE : Z := 11.
Definition ICMP_DUR_PROTO : Z := 2.
Definition ICMP_DUR_PORT : Z := 3.
Definition ICMP_DEST_UNREACH_DATASIZE : Z := 8.

(** [sizeof(struct icmp_echo_hdr)] *)
Definition ICMP_ECHO_HLEN : Z := 8.

Section Icmp.
Context {W : Type} (junk : nat -> Z).
Variable output : netif -> addr -> Z -> store -> W -> M (Z * store * W).
Variable tcpip_callback : netif -> W -> M W.

(** ** Messages *)

(** The ICMP message in [q] about the packet [p]. *)
Definition response_message (p q : addr) (type code : Z) (st : store) : M store :=
  y <- fetch st (Some q);;
  _ <- lwip_assert (ICMP_ECHO_HLEN + IP_HLEN + ICMP_DEST_UNREACH_DATASIZE <=? pb_len y);;
  x <- fetch st (Some p);;
  st <- save st (pb_payload y) 0 [u8 type; u8 code];;
  st <- save st (pb_payload y) 4 [0; 0; 0; 0];;
  bs <- load st (pb_payload x) 0 (IP_HLEN + ICMP_DEST_UNREACH_DATASIZE);;
  st <- save st (pb_payload y) ICMP_ECHO_HLEN bs;;
  st <- save st (pb_payload y) 2 (field16 0);;
  msg <- load st (pb_payload y) 0 (pb_len y);;
  c <- inet_chksum msg (pb_len y);;
  save st (pb_payload y) 2 (field16 c).

Definition icmp_send_response (netif_list : list netif) (netif_default : option netif) (p : addr) (type code : Z)
    (st : store) (s : ipstate W) : M (store * ipstate W) :=
  '(q, st) <- pbuf_alloc junk PBUF_IP (ICMP_ECHO_HLEN + IP_HLEN + ICMP_DEST_UNREACH_DATASIZE) PBUF_RAM st;;
  match q with
  | None => ret (st, s)
  | Some q =>
      x <- fetch st (Some p);;
      st <- response_message p q type code st;;
      src <- load st (pb_payload x) 12 4;;
      '(_, st, s) <- ip_output junk output tcpip_callback netif_list netif_default q None (le_value src) ICMP_TTL 0 IP_PROTO_ICMP st s;;
      '(_, st) <- pbuf_free (Some q) st;;
      ret (st, s)
  end.

Definition icmp_dest_unreach netif_list netif_default (p : addr) (t : Z) (st : store) (s : ipstate W) : M (store * ipstate W) :=
  icmp_send_response netif_list netif_default p ICMP_DUR t st s.

Definition icmp_time_exceeded netif_list netif_default (p : addr) (t : Z) (st : store) (s : ipstate W) : M (store * ipstate W) :=
  icmp_send_response netif_list netif_default p ICMP_TE t st s.

(** ** Echo requests *)

(** [lenerr], [memerr], and the end of [icmp_input]. *)
Definition icmp_drop (p : addr) (st : store) (s : ipstate W) : M (store * ipstate W) :=
  '(_, st) <- pbuf_free (Some p) st;;
  ret (st, s).

(** A packet that has room for the link header, and its IP header: [p] or a
    copy of it; [None]: there was no memory. *)
Definition echo_packet (p : addr) (iphdr : option (addr * Z)) (hlen : Z) (st : store) : M (option (addr * option (addr * Z)) * store) :=
  '(e, st) <- pbuf_header (Some p) (PBUF_IP_HLEN + PBUF_LINK_HLEN) st;;
  if negb (e =? 0) then
    '(e, st) <- pbuf_header (Some p) hlen st;;
    _ <- lwip_assert (e =? 0);;
    x <- fetch st (Some p);;
    '(r, st) <- pbuf_alloc junk PBUF_LINK (pb_tot_len x) PBUF_RAM st;;
    match r with
    | None => ret (None, st)
    | Some r =>
        y <- fetch st (Some r);;
        _ <- lwip_assert (hlen + ICMP_ECHO_HLEN <=? pb_len y);;
        '(err, st) <- pbuf_copy (Some r) (Some p) st;;
        _ <- lwip_assert (err =? ERR_OK);;
        '(e, st) <- pbuf_header (Some r) (- hlen) st;;
        _ <- lwip_assert (e =? 0);;
        '(_, st) <- pbuf_free (Some p) st;;
        ret (Some (r, pb_payload y), st)
    end
  else
    '(e, st) <- pbuf_header (Some p) (- (PBUF_IP_HLEN + PBUF_LINK_HLEN)) st;;
    _ <- lwip_assert (e =? 0);;
    ret (Some (p, iphdr), st).

(** The checksum of a message whose type changes from [ICMP_ECHO] to 0. *)
Definition adjust_chksum (chksum : Z) : Z :=
  if htons (0xffff - Z.shiftl ICMP_ECHO 8) <=? chksum then u16 (chksum + htons (Z.shiftl ICMP_ECHO 8) + 1)
  else u16 (chksum + htons (Z.shiftl ICMP_ECHO 8)).

(** The request in [p] becomes the reply: the addresses are switched, the type
    set, and the checksums adjusted. *)
Definition make_reply (p : addr) (iphdr : option (addr * Z)) (st : store) : M store :=
  x <- fetch st (Some p);;
  let iecho := pb_payload x in
  src <- load st iphdr 12 4;;
  dest <- load st iphdr 16 4;;
  st <- save st iphdr 12 dest;;
  st <- save st iphdr 16 src;;
  st <- save st iecho 0 [ICMP_ER];;
  c <- load st iecho 2 2;;
  st <- save st iecho 2 (field16 (adjust_chksum (le_value c)));;
  hdr <- load st iphdr 0 IP_HLEN;;
  hdr <- with_chksum (IPH_CHKSUM_SET 0 (IPH_TTL_SET ICMP_TTL hdr));;
  save st iphdr 0 hdr.

(** [case ICMP_ECHO]: the packet that is freed in the end, if it is not freed
    already. *)
Definition icmp_echo (p : addr) (iphdr : option (addr * Z)) (hlen : Z) (inp : netif) (st : store) (s : ipstate W) : M (store * ipstate W) :=
  dest <- load st iphdr 16 4;;
  if ip_addr_ismulticast (le_value dest) || isbroadcast (le_value dest) inp then icmp_drop p st s
  else
    x <- fetch st (Some p);;
    if pb_tot_len x <? ICMP_ECHO_HLEN then icmp_drop p st s
    else
      c <- inet_chksum_pbuf (Some p) st;;
      if negb (c =? 0) then icmp_drop p st s
      else
        '(r, st) <- echo_packet p iphdr hlen st;;
        match r with
        | None => icmp_drop p st s
        | Some (p, iphdr) =>
            st <- make_reply p iphdr st;;
            '(e, st) <- pbuf_header (Some p) hlen st;;
            _ <- lwip_assert (e =? 0);;
            '(_, st, s) <- ip_output_if junk output tcpip_callback p None None ICMP_TTL 0 IP_PROTO_ICMP inp st s;;
            icmp_drop p st s
        end.

Definition icmp_input (p : addr) (inp : netif) (st : store) (s : ipstate W) : M (store * ipstate W) :=
  x <- fetch st (Some p);;
  let iphdr := pb_payload x in
  vhltos <- load st iphdr 0 2;;
  let hlen := IPH_HL vhltos * 4 in
  '(e, st) <- pbuf_header (Some p) (- hlen) st;;
  if negb (e =? 0) then icmp_drop p st s
  else
    x <- fetch st (Some p);;
    if pb_tot_len x <? 4 then icmp_drop p st s
    else
      type <- load st (pb_payload x) 0 1;;
      if le_value type =? ICMP_ECHO then icmp_echo p iphdr hlen inp st s else icmp_drop p st s.
End Icmp.
