(* ===== verification/EchoSpec.v ===== *)
(** * lwIP: ICMP messages and echo replies

    What [icmp_send_response] sends, and that it leaves alone what does not
    belong to it, as the reassembly of fragments requires; the reply that
    [icmp_input] makes of an echo request, in the pbufs of the request or in a
    copy, the bytes of this reply, and what is done with any ICMP packet. *)
From Stdlib Require Import ZArith List Lia Bool.
From stdpp Require Import base gmap list.
From S2P Require Import Prelude CMonad Pbuf PbufChain PbufData PbufEdit PbufAlloc.
From S2P Require Import Inet InetChksum ChksumSpec Netif IpHdr Frames Driver.
From S2P Require Import IpReassMem IpReassInv IpFrag IpFragSpec PacketEdit IpOut.
From S2P Require Import IpOutSpec Icmp.
#[local] Open Scope Z_scope.
#[local] Open Scope cmonad_scope.

(** A message about the bytes [bs]. *)
Definition icmp_message (type code c : Z) (bs : list Z) : list Z :=
  [u8 type; u8 code] ++ field16 c ++ [0; 0; 0; 0] ++ bs.

Definition response_bytes (type code : Z) (bs : list Z) : list Z :=
  icmp_message type code (not16 (lwip_standard_chksum (icmp_message type code 0 bs))) bs.

(** An interface that a message fits, or that can cut it. *)
Definition usable (n : netif) : Prop := nf_mtu n = 0 \/ 44 <= nf_mtu n < 65536.

Lemma route_usable l dflt dest n :
  Forall usable l -> (forall d, dflt = Some d -> usable d) -> ip_route l dflt dest = Some n -> usable n.
Proof.
  intros Hl Hd. unfold ip_route. assert (H : forall m, route_loop l dest = Some m -> usable m).
  { induction Hl as [|m l Hm Hl IH]; [discriminate|]. cbn [route_loop]. destruct (netif_is_up m && _); [now intros m' [= <-]|exact IH]. }
  destruct (route_loop l dest) as [m|]; [intros [= <-]; now apply H|]. destruct dflt as [d|]; [|discriminate].
  destruct (netif_is_up d); [|discriminate]. intros [= <-]. now apply Hd.
Qed.

(** ** The message *)

Lemma written_message c type code bs :
  length c = 36%nat -> length bs = 28%nat ->
  splice (splice (splice (splice c 0 [u8 type; u8 code]) 4 [0; 0; 0; 0]) 8 bs) 2 (field16 0) = icmp_message type code 0 bs.
Proof.
  intros Hc Hb. unfold splice, icmp_message, field16. rewrite Hb.
  do 8 (destruct c as [|? c]; [discriminate Hc|]). cbn [length firstn skipn app Nat.add]. rewrite drop_0, (skipn_all2 c) by (cbn in Hc; lia).
  now rewrite firstn_O, app_nil_r.
Qed.

Lemma message_length type code c bs : length bs = 28%nat -> length (icmp_message type code c bs) = 36%nat.
Proof. intros H. unfold icmp_message. cbn [app length field16]. now rewrite H. Qed.

Lemma message_chksum type code c bs : splice (icmp_message type code 0 bs) 2 (field16 c) = icmp_message type code c bs.
Proof. reflexivity. Qed.

Lemma response_message_spec st p x l q y o type code :
  own_packet st p ((p, x) :: l) -> 28 <= pb_len x -> own_head st q y [] o -> pb_len y = 36 -> ~ In q (p :: addrs l) ->
  exists st', response_message p q type code st = ret st' /\ written q st st' /\ own_head st' q y [] o /\
    content (st_mem st') [(q, y)] = response_bytes type code (firstn 28 (content (st_mem st) ((p, x) :: l))).
Proof.
  intros Hp Hx Hq Hy Hd. set (cp := content (st_mem st) ((p, x) :: l)). set (c0 := content (st_mem st) [(q, y)]).
  assert (Lc0 : length c0 = 36%nat).
  { destruct (head_bytes _ _ _ _ _ Hq) as [E L]. unfold c0. rewrite E. cbn [content]. rewrite app_nil_r. lia. }
  assert (Hlp : st_pbufs st !! p = Some x) by (destruct Hp as [[Hc _] _ _ _]; now inversion Hc).
  assert (Lcp : 28 <= Z.of_nat (length cp)).
  { unfold cp. rewrite (content_length _ _ (op_valid _ _ _ Hp)). cbn [total].
    pose proof (op_packet _ _ _ Hp) as [_ (_ & _ & _ & _ & Ht)]. pose proof (totals_nonneg _ Ht). lia. }
  unfold response_message, lwip_assert. rewrite (fetch_some _ _ _ (head_lookup _ _ _ _ _ Hq)), bind_ret. rewrite Hy.
  change (ICMP_ECHO_HLEN + IP_HLEN + ICMP_DEST_UNREACH_DATASIZE <=? 36) with true. cbv iota. rewrite bind_ret.
  rewrite (fetch_some _ _ _ Hlp), bind_ret.
  destruct (head_save st q y [] o Hq 0 [u8 type; u8 code]) as (st1 & E1 & W1 & H1 & C1); [lia|cbn; lia|]. rewrite E1, bind_ret.
  destruct (head_save st1 q y [] o H1 4 [0; 0; 0; 0]) as (st2 & E2 & W2 & H2 & C2); [lia|cbn; lia|]. rewrite E2, bind_ret.
  pose proof (written_trans _ _ _ _ W1 W2) as W12.
  rewrite (own_load st st2 p x l 0 (IP_HLEN + ICMP_DEST_UNREACH_DATASIZE) Hp (written_agree _ _ _ _ W12 Hd)), bind_ret by (unfold IP_HLEN, ICMP_DEST_UNREACH_DATASIZE; lia).
  change (Z.to_nat (IP_HLEN + ICMP_DEST_UNREACH_DATASIZE)) with 28%nat. change (Z.to_nat 0) with 0%nat. rewrite drop_0. fold cp.
  set (bs := firstn 28 cp). assert (Lbs : length bs = 28%nat) by (unfold bs; rewrite length_firstn; lia).
  destruct (head_save st2 q y [] o H2 ICMP_ECHO_HLEN bs) as (st3 & E3 & W3 & H3 & C3); [unfold ICMP_ECHO_HLEN; lia|rewrite Lbs, Hy; unfold ICMP_ECHO_HLEN; lia|]. rewrite E3, bind_ret.
  destruct (head_save st3 q y [] o H3 2 (field16 0)) as (st4 & E4 & W4 & H4 & C4); [lia|cbn; lia|]. rewrite E4, bind_ret.
  assert (Ec : content (st_mem st4) [(q, y)] = icmp_message type code 0 bs).
  { rewrite C4, C3, C2, C1. now apply written_message. }
  rewrite (head_load _ _ _ _ _ H4 0 36), bind_ret by lia. change (Z.to_nat 0) with 0%nat. rewrite drop_0, Ec.
  pose proof (message_length type code 0 bs Lbs) as Lm. change (Z.to_nat 36) with 36%nat. rewrite firstn_all2 by lia.
  unfold inet_chksum, LWIP_CHKSUM. change (Z.to_nat 36) with 36%nat. rewrite take_bytes_firstn, bind_ret, firstn_all2, bind_ret by lia. rewrite bind_ret.
  set (c := not16 _). destruct (head_save st4 q y [] o H4 2 (field16 c)) as (st5 & E5 & W5 & H5 & C5); [lia|cbn; lia|].
  exists st5. split; [exact E5|]. split; [|split; [exact H5|]].
  - exact (written_trans _ _ _ _ W12 (written_trans _ _ _ _ W3 (written_trans _ _ _ _ W4 W5))).
  - rewrite C5, Ec. apply message_chksum.
Qed.

(** The stored checksum makes the message verify. *)
Lemma response_verifies type code bs :
  length bs = 28%nat -> Forall byte bs -> Forall byte (response_bytes type code bs) /\ inet_chksum (response_bytes type code bs) 36 = ret 0.
Proof.
  intros Hl Hb. unfold response_bytes. set (m := icmp_message type code 0 bs). set (c := not16 (lwip_standard_chksum m)).
  assert (Ha : Forall byte [u8 type; u8 code]) by (constructor; [apply Z.mod_pos_bound; lia|constructor; [apply Z.mod_pos_bound; lia|constructor]]).
  assert (Hr : Forall byte ([0; 0; 0; 0] ++ bs)) by (repeat (constructor; [unfold byte; lia|]); exact Hb).
  assert (Hm : Forall byte m) by (apply Forall_app; split; [exact Ha|]; constructor; [vm_compute; split; congruence|constructor; [vm_compute; split; congruence|exact Hr]]).
  assert (Hc : 0 <= c <= 65535).
  { unfold c. rewrite chksum_1_spec by (auto; unfold m; rewrite message_length by exact Hl; lia). rewrite not16_value; pose proof (canon_range _ (le_value_nonneg m Hm)); lia. }
  assert (Ef : field16 c = [c mod 256; c / 256]) by (unfold field16; rewrite (Z.mod_small (c / 256)) by dlia; reflexivity).
  assert (E : icmp_message type code c bs = [u8 type; u8 code] ++ [c mod 256; c / 256] ++ ([0; 0; 0; 0] ++ bs)) by (unfold icmp_message; now rewrite Ef).
  rewrite E. split.
  - apply Forall_app. split; [exact Ha|]. constructor; [unfold byte; dlia|]. constructor; [unfold byte; dlia|exact Hr].
  - assert (L : 36 = Z.of_nat (length [u8 type; u8 code] + 2 + length ([0; 0; 0; 0] ++ bs))) by (rewrite length_app, Hl; reflexivity).
    rewrite L. apply stored_checksum_sums; [exact Ha|exact Hr|reflexivity|rewrite length_app, Hl; cbn; lia|]. rewrite <- L.
    change ([u8 type; u8 code] ++ [0; 0] ++ [0; 0; 0; 0] ++ bs) with m. unfold inet_chksum, LWIP_CHKSUM.
    rewrite take_bytes_firstn, bind_ret, firstn_all2, bind_ret by (unfold m; rewrite message_length by exact Hl; cbn; lia). reflexivity.
Qed.

(** ** Sending it *)

Section Response.
Context {W : Type} (held : W -> list addr) (handed : W -> list (netif * Z * list Z)).
Context (output : netif -> addr -> Z -> store -> W -> M (Z * store * W)) `{!Driver held handed output}.
Context (tcpip_callback : netif -> W -> M W) `{!Scheduler held handed tcpip_callback}.
Variable junk : nat -> Z.
Context (netif_list : list netif) (netif_default : option netif).
Hypothesis Hlist : Forall usable netif_list.
Hypothesis Hdefault : forall d, netif_default = Some d -> usable d.

(** The packet with the message about the bytes [bs] of a packet, sent to
    its source through [n]. *)
Definition response_packet (n : netif) (type code id : Z) (bs : list Z) : list Z :=
  checked (new_header (nf_ip_addr n) (get32 bs 12) ICMP_TTL 0 IP_PROTO_ICMP 56 id) ++ response_bytes type code bs.

(** Nothing was sent, for lack of memory or of a route, or the message. *)
Definition responded (type code : Z) (bs : list Z) (s : ipstate W) (st' : store) (s' : ipstate W) : Prop :=
  s' = s \/ exists n, ip_route netif_list netif_default (get32 bs 12) = Some n /\
    sent handed n (get32 bs 12) (response_packet n type code (ip_id s) bs) (next_id s) st' s'.

(** What the code does once it has a pbuf for the message: the message is
    written into it, and it is sent and freed. *)
Definition respond_with (q p : addr) (type code : Z) (st : store) (s : ipstate W) : M (store * ipstate W) :=
  x <- fetch st (Some p);;
  st <- response_message p q type code st;;
  src <- load st (pb_payload x) 12 4;;
  '(_, st, s) <- ip_output junk output tcpip_callback netif_list netif_default q None (le_value src) ICMP_TTL 0 IP_PROTO_ICMP st s;;
  '(_, st) <- pbuf_free (Some q) st;;
  ret (st, s).

Definition message_pbuf (q : addr) : pbuf := Pbuf None (Some (q, 34)) 36 36 PBUF_RAM 0 1.

Lemma respond_run p x l type code st s q st1 :
  own_packet st p ((p, x) :: l) -> 28 <= pb_len x -> (forall b, In b (p :: addrs l) -> ~ In b (ip_held held s)) ->
  accounted (ip_held held) st s -> fresh_pbuf st st1 q (Some (q, 34)) 36 70 PBUF_RAM ->
  let bs := firstn 28 (content (st_mem st) ((p, x) :: l)) in
  exists st2, respond_with q p type code st1 s =
      ('(_, st, s) <- ip_output junk output tcpip_callback netif_list netif_default q None (get32 bs 12) ICMP_TTL 0 IP_PROTO_ICMP st2 s;;
       '(_, st) <- pbuf_free (Some q) st;; ret (st, s)) /\
    extends st st2 [(q, message_pbuf q)] /\ content (st_mem st2) [(q, message_pbuf q)] = response_bytes type code bs /\
    own_head st2 q (message_pbuf q) [] 34 /\ ~ In q (ip_held held s) /\
    forall n, usable n -> ready held n st2 s q (message_pbuf q) [] 34.
Proof.
  intros Hp Hx Hfr Hac Hf bs. set (cp := content (st_mem st) ((p, x) :: l)) in *. unfold respond_with.
  destruct (fresh_head st st1 q 34 36 Hf ltac:(lia) ltac:(lia)) as [Hq He]. fold (message_pbuf q) in Hq, He. set (y := message_pbuf q) in *.
  assert (Hlive : forall b, In b (p :: addrs l) -> live st b).
  { intros b Hb. left. pose proof (op_packet _ _ _ Hp) as [Hc _]. change (p :: addrs l) with (addrs ((p, x) :: l)) in Hb.
    apply in_map_iff in Hb as ([c z] & <- & Hin). exists z. exact (chain_lookup _ _ _ _ _ Hc Hin). }
  assert (Hag : agree st st1 (p :: addrs l)) by (intros b Hb; apply (proj2 He); exact (extends_fresh _ _ _ _ He (Hlive b Hb))).
  assert (Hqn : ~ In q (p :: addrs l)) by (intros Hin; exact (extends_fresh _ _ _ _ He (Hlive q Hin) (or_introl eq_refl))).
  assert (Ecp : content (st_mem st1) ((p, x) :: l) = cp).
  { apply (owned_ext (st_mem st) (st_mem st1) _ (op_owns _ _ _ Hp)). intros b Hb. now apply Hag. }
  pose proof (own_agree st st1 p ((p, x) :: l) Hag Hp) as Hp1.
  assert (Hlp : st_pbufs st1 !! p = Some x) by (pose proof (op_packet _ _ _ Hp1) as [Hc _]; now inversion Hc).
  rewrite (fetch_some _ _ _ Hlp), bind_ret.
  destruct (response_message_spec st1 p x l q y 34 type code Hp1 Hx Hq eq_refl Hqn) as (st2 & E2 & W2 & Hq2 & C2). rewrite E2, bind_ret.
  rewrite Ecp in C2.
  rewrite (own_load st st2 p x l 12 4 Hp (agree_trans _ _ _ _ Hag (written_agree _ _ _ _ W2 Hqn))), bind_ret by lia.
  assert (Esrc : le_value (firstn (Z.to_nat 4) (skipn (Z.to_nat 12) cp)) = get32 bs 12).
  { unfold get32, bytes_at, bs. change (Z.to_nat 4) with 4%nat. change (Z.to_nat 12) with 12%nat. rewrite skipn_firstn_comm, firstn_firstn. reflexivity. }
  fold cp. rewrite Esrc. clear Esrc. set (dest := get32 bs 12).
  assert (Hqs : ~ In q (ip_held held s)).
  { intros Hin. destruct (proj2 Hac q Hin) as [z Hz]. exact (extends_fresh _ _ _ _ He (or_introl (ex_intro _ z Hz)) (or_introl eq_refl)). }
  assert (Hex2 : extends st st2 [(q, y)]).
  { apply (extends_change st st1 st2 [(q, y)]); [exact He|reflexivity|]. intros b Hb.
    apply (changed_untouched [q] st1 st2); [|exact Hb]. apply (written_changed q); [exact W2|now left]. }
  exists st2. split; [reflexivity|]. split; [exact Hex2|]. split; [exact C2|]. split; [exact Hq2|]. split; [exact Hqs|]. intros n Hu.
  constructor; [exact Hq2|unfold IP_HLEN; lia|constructor|cbn; unfold IP_HLEN; lia|unfold usable in Hu; lia| | |].
  - unfold sendable. cbn [total shifted with_tot_len with_len pb_len y message_pbuf]. destruct Hu as [Hu|Hu]; [now left|]. right.
    destruct (Z.le_gt_cases 56 (nf_mtu n)); [left; unfold IP_HLEN; lia|]. right. split; [exact Hu|]. constructor; [cbn; unfold IP_HLEN; lia|constructor].
  - revert Hac. apply accounted_alive. intros b Hb [z Hz]. rewrite (proj1 (proj2 Hex2 b (extends_fresh _ _ _ _ Hex2 (or_introl (ex_intro _ z Hz))))). now exists z.
  - intros b [<-|[]]. exact Hqs.
Qed.

(** The message was sent, to the source of the packet, if there is a route. *)
Definition reported (type code : Z) (bs : list Z) (s : ipstate W) (st' : store) (s' : ipstate W) : Prop :=
  match ip_route netif_list netif_default (get32 bs 12) with
  | Some n => posted handed n (get32 bs 12) (response_packet n type code (ip_id s) bs) (next_id s) st' s'
  | None => s' = s
  end.

(** The header in front of a message. *)
Lemma response_header n type code (s : ipstate W) bs : length bs = 28%nat ->
  with_header n None (get32 bs 12) ICMP_TTL 0 IP_PROTO_ICMP s (response_bytes type code bs) = response_packet n type code (ip_id s) bs.
Proof. intros H. unfold with_header, response_packet, response_bytes. now rewrite message_length. Qed.

Lemma first_28 st p x l : own_packet st p ((p, x) :: l) -> 28 <= pb_len x -> length (firstn 28 (content (st_mem st) ((p, x) :: l))) = 28%nat.
Proof.
  intros Hp Hx. pose proof (content_length _ _ (op_valid _ _ _ Hp)) as Lc. pose proof (op_packet _ _ _ Hp) as [_ (_ & _ & _ & _ & Ht)].
  pose proof (totals_nonneg _ Ht). cbn [total] in *. rewrite length_firstn. lia.
Qed.

(** The answer of the sending does not matter. *)
Lemma forget_code {A B C} (m : M (A * B * C)) (k : B -> M (A * B)) :
  forall h, ('(_, st, s) <- m;; '(_, st) <- k st;; ret (st, s)) h =
    ('(_, st, s) <- ('(e, st, s) <- m;; '(_, st) <- k st;; ret (e, st, s));; ret (st, s)) h.
Proof.
  intros h. unfold bind, ret. destruct (m h) as [[[[e b] c]|e| |] h1]; try reflexivity. now destruct (k b h1) as [[[e' b']|e'| |] h2].
Qed.

Lemma respond_spec p x l type code st s q st1 :
  own_packet st p ((p, x) :: l) -> 28 <= pb_len x -> (forall b, In b (p :: addrs l) -> ~ In b (ip_held held s)) ->
  accounted (ip_held held) st s -> fresh_pbuf st st1 q (Some (q, 34)) 36 70 PBUF_RAM ->
  let bs := firstn 28 (content (st_mem st) ((p, x) :: l)) in
  surely (respond_with q p type code st1 s)
    (fun '(st', s') => evolves (ip_held held) [] st s st' s' /\ responded type code bs s st' s') /\
  ((forall n p dest st w, thrifty (output n p dest st w)) -> (forall n w, thrifty (tcpip_callback n w)) ->
   runs NoFail (respond_with q p type code st1 s)
     (fun '(st', s') => evolves (ip_held held) [] st s st' s' /\ reported type code bs s st' s') no_err).
Proof.
  intros Hp Hx Hfr Hac Hf bs. pose proof (first_28 _ _ _ _ Hp Hx) as L28. fold bs in L28.
  destruct (respond_run p x l type code st s q st1 Hp Hx Hfr Hac Hf) as (st2 & E & Hex & C & Hq & Hqs & Hrd). fold bs in E, C. rewrite E. clear E.
  unfold ip_output, responded, reported. destruct (ip_route netif_list netif_default (get32 bs 12)) as [n|] eqn:Er.
  - pose proof (output_code_spec held handed output tcpip_callback junk q (message_pbuf q) [] 34 None (get32 bs 12) ICMP_TTL 0 IP_PROTO_ICMP n st2 s
      (Hrd n (route_usable _ _ _ _ Hlist Hdefault Er)) ltac:(unfold ICMP_TTL, IP_DEFAULT_TTL; lia) ltac:(lia) ltac:(unfold IP_PROTO_ICMP; lia)) as [H1 H2].
    rewrite C, (response_header n type code s bs L28) in H1, H2. split.
    + intros h. rewrite forget_code. revert h. change (surely ('(_, st', s') <- output_code output tcpip_callback junk q None (get32 bs 12) ICMP_TTL 0 IP_PROTO_ICMP n st2 s;; ret (st', s'))
        (fun '(st', s') => evolves (ip_held held) [] st s st' s' /\ (s' = s \/ exists n0, Some n = Some n0 /\
           sent handed n0 (get32 bs 12) (response_packet n0 type code (ip_id s) bs) (next_id s) st' s'))).
      eapply surely_bind; [exact H1|]. intros [[e st'] s'] [Hev Hd]. apply surely_ret. split; [exact (evolves_fresh _ [] _ _ _ _ _ _ _ Hex Hac Hev)|].
      right. exists n. split; [reflexivity|exact (dispatched_sent _ _ _ _ _ _ _ _ Hd)].
    + intros Ho Hcb h. rewrite forget_code. revert h. change (runs NoFail ('(_, st', s') <- output_code output tcpip_callback junk q None (get32 bs 12) ICMP_TTL 0 IP_PROTO_ICMP n st2 s;; ret (st', s'))
        (fun '(st', s') => evolves (ip_held held) [] st s st' s' /\
           posted handed n (get32 bs 12) (response_packet n type code (ip_id s) bs) (next_id s) st' s') no_err).
      eapply runs_bind; [exact (H2 Ho Hcb)|]. intros [[e st'] s'] [Hev Hd]. apply runs_ret. split; [|exact Hd].
      exact (evolves_fresh _ [] _ _ _ _ _ _ _ Hex Hac Hev).
  - rewrite bind_ret. destruct (free_whole st2 q [(q, message_pbuf q)]) as (k & st3 & E3 & R3);
      [exact (proj1 (op_packet _ _ _ (oh_own _ _ _ _ _ Hq)))|now repeat constructor|]. rewrite E3, bind_ret.
    assert (Hev : evolves (ip_held held) [] st s st3 s).
    { apply (evolves_fresh _ [] _ _ _ _ _ _ _ Hex Hac). apply removed_evolves; [exact R3|]. intros b [<-|[]]. exact Hqs. }
    split; [apply surely_ret; auto|]. intros _ _. apply runs_ret. auto.
Qed.

Lemma icmp_send_response_spec p x l type code st s :
  own_packet st p ((p, x) :: l) -> 28 <= pb_len x -> (forall b, In b (p :: addrs l) -> ~ In b (ip_held held s)) ->
  accounted (ip_held held) st s ->
  surely (icmp_send_response junk output tcpip_callback netif_list netif_default p type code st s)
    (fun '(st', s') => evolves (ip_held held) [] st s st' s' /\
       responded type code (firstn 28 (content (st_mem st) ((p, x) :: l))) s st' s').
Proof.
  intros Hp Hx Hfr Hac. unfold icmp_send_response.
  eapply surely_bind; [apply alloc_ram; unfold ICMP_ECHO_HLEN, IP_HLEN, ICMP_DEST_UNREACH_DATASIZE; lia|]. intros [[q|] st1].
  - intros Hf. exact (proj1 (respond_spec p x l type code st s q st1 Hp Hx Hfr Hac Hf)).
  - intros ->. apply surely_ret. split; [apply evolves_refl|]. now left.
Qed.

(** With memory the message is sent. *)
Lemma icmp_send_response_reports p x l type code st s :
  (forall n p dest st w, thrifty (output n p dest st w)) -> (forall n w, thrifty (tcpip_callback n w)) ->
  own_packet st p ((p, x) :: l) -> 28 <= pb_len x -> (forall b, In b (p :: addrs l) -> ~ In b (ip_held held s)) ->
  accounted (ip_held held) st s ->
  runs NoFail (icmp_send_response junk output tcpip_callback netif_list netif_default p type code st s)
    (fun '(st', s') => evolves (ip_held held) [] st s st' s' /\
       reported type code (firstn 28 (content (st_mem st) ((p, x) :: l))) s st' s') no_err.
Proof.
  intros Ho Hcb Hp Hx Hfr Hac. unfold icmp_send_response.
  eapply runs_bind.
  { eapply surely_enough; [apply alloc_ram; unfold ICMP_ECHO_HLEN, IP_HLEN, ICMP_DEST_UNREACH_DATASIZE; lia|apply enough_alloc; discriminate]. }
  intros [[q|] st1] [Hf Hne]; [|now contradiction Hne].
  exact (proj2 (respond_spec p x l type code st s q st1 Hp Hx Hfr Hac Hf) Ho Hcb).
Qed.

(** What the reassembly of fragments relies on. *)
#[export] Instance quiet_time_exceeded :
  QuietIcmp (ip_held held) (icmp_time_exceeded junk output tcpip_callback netif_list netif_default).
Proof.
  intros p x l code st s Hw Hx Hfr Hac. eapply surely_weaken.
  - apply (icmp_send_response_spec p x l); [exact (whole_own _ _ _ _ Hw)|exact Hx|exact Hfr|exact Hac].
  - intros [st' s'] [Hev _]. exact Hev.
Qed.
End Response.


(** The header of the reply, without the checksum: the addresses switched. *)
Definition reply_header (hdr : list Z) : list Z :=
  firstn 8 hdr ++ field16 (htons (u16 (Z.lor (IPH_PROTO hdr) (Z.shiftl (u16 ICMP_TTL) 8)))) ++ [0; 0] ++ bytes_at hdr 16 4 ++ bytes_at hdr 12 4.

(** The reply to a request, both with IP headers of 20 bytes. *)
Definition echo_reply (c : list Z) : list Z :=
  checked (reply_header (firstn 20 c)) ++ [ICMP_ER] ++ bytes_at c 21 1 ++ field16 (adjust_chksum (get16 c 22)) ++ skipn 24 c.

Lemma reply_header_length hdr : length hdr = 20%nat -> length (reply_header hdr) = 20%nat.
Proof. intros H. twenty hdr H. reflexivity. Qed.

(** ** Editing the packet *)

Lemma load_shift st b o k off n : load st (Some (b, o + k)) off n = load st (Some (b, o)) (k + off) n.
Proof. unfold load. now rewrite Z.add_assoc. Qed.

Lemma save_shift st b o k off bs : save st (Some (b, o + k)) off bs = save st (Some (b, o)) (k + off) bs.
Proof. unfold save. now rewrite Z.add_assoc. Qed.

Lemma save_beside st a y payload off bs st' :
  save st payload off bs = ret st' -> save (set_pbuf a y st) payload off bs = ret (set_pbuf a y st').
Proof.
  unfold save. destruct (length bs =? 0)%nat; [intros H; apply (f_equal (fun m => fst (m []))) in H; injection H as <-; reflexivity|].
  destruct payload as [[b o]|]; [|intros H; apply (f_equal (fun m => fst (m []))) in H; discriminate H]. cbn [set_pbuf st_mem st_pbufs].
  destruct (st_mem st !! b) as [l|]; [|intros H; apply (f_equal (fun m => fst (m []))) in H; discriminate H].
  unfold write_at. destruct (_ && _); intros H; apply (f_equal (fun m => fst (m []))) in H; [|discriminate H].
  cbn in H. injection H as <-. rewrite bind_ret. reflexivity.
Qed.

(** The stores of [make_reply]. *)
Definition reply_edits (c : list Z) : list Z :=
  let c1 := splice (splice c 12 (bytes_at c 16 4)) 16 (bytes_at c 12 4) in
  let c2 := splice c1 20 [ICMP_ER] in
  let c3 := splice c2 22 (field16 (adjust_chksum (get16 c2 22))) in
  splice c3 0 (checked (IPH_CHKSUM_SET 0 (IPH_TTL_SET ICMP_TTL (firstn 20 c3)))).

Lemma reply_edits_result c : (28 <= length c)%nat -> reply_edits c = echo_reply c.
Proof.
  intros H. unfold echo_reply, reply_edits. set (c1 := splice _ 16 _). set (c2 := splice c1 20 _).
  assert (E2 : get16 c2 22 = get16 c 22) by (subst c1 c2; do 24 (destruct c as [|? c]; [cbn in H; lia|]); reflexivity).
  rewrite E2. generalize (adjust_chksum (get16 c 22)). intros v. clear E2.
  assert (Eh : IPH_CHKSUM_SET 0 (IPH_TTL_SET ICMP_TTL (firstn 20 (splice c2 22 (field16 v)))) = reply_header (firstn 20 c)).
  { subst c1 c2. do 24 (destruct c as [|? c]; [cbn in H; lia|]). reflexivity. }
  rewrite Eh. assert (Lr : length (reply_header (firstn 20 c)) = 20%nat) by (apply reply_header_length; rewrite length_firstn; lia).
  pose proof (checked_length _ Lr) as Lc. clear Eh Lr. revert Lc. generalize (checked (reply_header (firstn 20 c))). intros hdr Lc.
  subst c1 c2. do 24 (destruct c as [|? c]; [cbn in H; lia|]). twenty hdr Lc. cbn. now rewrite !drop_0.
Qed.

Lemma make_reply_spec st p x l o :
  own_head st p x l o -> 28 <= pb_len x ->
  exists st', make_reply p (Some (p, o)) (set_pbuf p (shifted x (Z.opp 20)) st) = ret (set_pbuf p (shifted x (Z.opp 20)) st') /\
    written p st st' /\ own_head st' p x l o /\ content (st_mem st') ((p, x) :: l) = echo_reply (content (st_mem st) ((p, x) :: l)).
Proof.
  intros Hh Hx. set (y := shifted x (Z.opp 20)). set (c := content (st_mem st) ((p, x) :: l)).
  destruct (head_bytes _ _ _ _ _ Hh) as [Ebc Lbx]. assert (Lc : (28 <= length c)%nat) by (unfold c; rewrite Ebc, length_app; lia).
  pose proof (oh_payload _ _ _ _ _ Hh) as Hpx. rewrite <- (reply_edits_result c Lc). unfold make_reply.
  assert (Hy : forall st0, fetch (set_pbuf p y st0) (Some p) = ret y) by (intros st0; apply fetch_some, lookup_insert_eq). rewrite Hy, bind_ret. clear Hy.
  assert (Epy : pb_payload y = Some (p, o + 20)) by (unfold y, shifted; rewrite Hpx; cbn; do 2 f_equal; lia). rewrite Epy. cbv zeta.
  assert (Hld : forall st0 pl off n, load (set_pbuf p y st0) pl off n = load st0 pl off n) by reflexivity.
  rewrite Hld, <- Hpx, (head_load _ _ _ _ _ Hh 12 4), bind_ret by lia. fold c.
  rewrite Hld, (head_load _ _ _ _ _ Hh 16 4), bind_ret by lia. fold c.
  change (Z.to_nat 4) with 4%nat. change (Z.to_nat 12) with 12%nat. change (Z.to_nat 16) with 16%nat. fold (bytes_at c 12 4) (bytes_at c 16 4).
  assert (Lb : forall i, (i <= 24)%nat -> length (bytes_at c i 4) = 4%nat) by (intros i Hi; unfold bytes_at; rewrite length_firstn, length_skipn; lia).
  destruct (head_save st p x l o Hh 12 (bytes_at c 16 4)) as (st1 & E1 & W1 & H1 & C1); [lia|rewrite Lb; lia|]. rewrite (save_beside _ _ _ _ _ _ _ E1), bind_ret.
  destruct (head_save st1 p x l o H1 16 (bytes_at c 12 4)) as (st2 & E2 & W2 & H2 & C2); [lia|rewrite Lb; lia|]. rewrite (save_beside _ _ _ _ _ _ _ E2), bind_ret.
  destruct (head_save st2 p x l o H2 20 [ICMP_ER]) as (st3 & E3 & W3 & H3 & C3); [lia|cbn; lia|].
  rewrite save_shift, <- Hpx, (save_beside _ _ _ _ _ _ _ E3), bind_ret.
  rewrite Hld, load_shift, <- Hpx, (head_load _ _ _ _ _ H3 (20 + 2) 2), bind_ret by lia.
  rewrite C3, C2, C1. fold c. change (Z.to_nat (20 + 2)) with 22%nat. change (Z.to_nat 2) with 2%nat. change (Z.to_nat 12) with 12%nat. change (Z.to_nat 16) with 16%nat.
  change (Z.to_nat 20) with 20%nat. set (c2 := splice _ 20 [ICMP_ER]). change (le_value (firstn 2 (skipn 22 c2))) with (get16 c2 22).
  set (v := adjust_chksum (get16 c2 22)).
  destruct (head_save st3 p x l o H3 (20 + 2) (field16 v)) as (st4 & E4 & W4 & H4 & C4); [lia|cbn; lia|].
  rewrite save_shift, <- Hpx, (save_beside _ _ _ _ _ _ _ E4), bind_ret. rewrite Hld, (head_load _ _ _ _ _ H4 0 IP_HLEN), bind_ret by (unfold IP_HLEN; lia).
  rewrite C4, C3, C2, C1. fold c. change (Z.to_nat (20 + 2)) with 22%nat. change (Z.to_nat 0) with 0%nat. rewrite drop_0. change (Z.to_nat IP_HLEN) with 20%nat.
  change (Z.to_nat 12) with 12%nat. change (Z.to_nat 16) with 16%nat. change (Z.to_nat 20) with 20%nat. fold c2. set (c3 := splice c2 22 _).
  assert (L3 : length c3 = length c).
  { assert (Ls : forall a i (bs : list Z), (i + length bs <= length a)%nat -> length (splice a i bs) = length a) by (intros; now apply splice_length).
    assert (La : length (splice c 12 (bytes_at c 16 4)) = length c) by (apply Ls; rewrite Lb; lia).
    assert (Lb' : length (splice (splice c 12 (bytes_at c 16 4)) 16 (bytes_at c 12 4)) = length c) by (rewrite Ls; rewrite ?La, ?Lb; lia).
    assert (L2 : length c2 = length c) by (unfold c2; rewrite Ls; [exact Lb'|rewrite Lb'; cbn [length]; lia]).
    unfold c3. rewrite Ls by (cbn [field16 length]; lia). exact L2. }
  set (hdr := IPH_CHKSUM_SET 0 _). assert (Lh : length hdr = 20%nat).
  { assert (L20 : length (firstn 20 c3) = 20%nat) by (rewrite length_firstn; lia). unfold hdr. revert L20. generalize (firstn 20 c3). intros z Lz. twenty z Lz. reflexivity. }
  rewrite (with_chksum_spec _ Lh), bind_ret.
  destruct (head_save st4 p x l o H4 0 (checked hdr)) as (st5 & E5 & W5 & H5 & C5); [lia|rewrite checked_length by exact Lh; lia|].
  exists st5. split; [exact (save_beside _ _ _ _ _ _ _ E5)|]. split; [|split; [exact H5|]].
  - exact (written_trans _ _ _ _ W1 (written_trans _ _ _ _ W2 (written_trans _ _ _ _ W3 (written_trans _ _ _ _ W4 W5)))).
  - rewrite C5, C4, C3, C2, C1. reflexivity.
Qed.

(** ** A packet with room for headers *)

(** The packet [c] at [p'], whose IP header is hidden and has at least 14
    bytes of room: the packet [p] itself, or a new pbuf that replaces it. *)
Definition echo_ready (st : store) (p : addr) (l : list (addr * pbuf)) (c : list Z) (p' : addr) (iphdr : option (addr * Z)) (st' : store) : Prop :=
  exists x' l' o' st1, iphdr = Some (p', o') /\ st' = set_pbuf p' (shifted x' (Z.opp 20)) st1 /\ own_head st1 p' x' l' o' /\ 14 <= o' /\
    content (st_mem st1) ((p', x') :: l') = c /\ 28 <= pb_len x' /\
    ((p' = p /\ (p', x') :: l' = l /\ st1 = st) \/
     (l' = [] /\ exists st0, extends st st0 [(p', x')] /\ removed (addrs l) st0 st1)).

Lemma shifted_back x n b o : pb_payload x = Some (b, o) -> shifted (shifted x n) (Z.opp n) = x.
Proof.
  intros H. unfold shifted. rewrite H. unfold with_tot_len, with_len, with_payload. cbn. destruct x as [nx pl tl ln ty fl rf]. cbn in *. rewrite H.
  replace (o - n - Z.opp n) with o by lia. replace (ln + n + Z.opp n) with ln by lia. now replace (tl + n + Z.opp n) with tl by lia.
Qed.

(** [p] goes, and the new pbuf [r], whose header is hidden, takes its place. *)
Lemma take_over st p l r z o n :
  chain (st_pbufs st) (Some p) l -> Forall (fun c => pb_ref (snd c) = 1) l -> own_head st r z [] o -> ~ In r (addrs l) ->
  exists k st', pbuf_free (Some p) (set_pbuf r (shifted z n) st) = ret (k, set_pbuf r (shifted z n) st') /\
    own_head st' r z [] o /\ content (st_mem st') [(r, z)] = content (st_mem st) [(r, z)] /\ removed (addrs l) st st'.
Proof.
  intros Hc Hrf Hr Hrn. set (st3 := set_pbuf r (shifted z n) st).
  assert (Hc3 : chain (st_pbufs st3) (Some p) l).
  { eapply chain_ext; [exact Hc|]. intros b Hi. apply lookup_insert_ne. intros ->. exact (Hrn Hi). }
  destruct (free_whole st3 p l Hc3 Hrf) as (k & st4 & E5 & R5). exists k, (set_pbuf r z st4).
  assert (Hz4 : st_pbufs st4 !! r = Some (shifted z n)) by (rewrite (proj1 (proj2 R5 r Hrn)); apply lookup_insert_eq).
  assert (Hag : agree st (set_pbuf r z st4) [r]).
  { intros b [<-|[]]. cbn [set_pbuf st_pbufs st_mem]. rewrite lookup_insert_eq. split; [symmetry; exact (head_lookup _ _ _ _ _ Hr)|].
    rewrite (proj2 (proj2 R5 r Hrn)). reflexivity. }
  destruct (owned_ext (st_mem st) (st_mem (set_pbuf r z st4)) [(r, z)] (op_owns _ _ _ (oh_own _ _ _ _ _ Hr))) as [Ec5 _]; [intros b Hi; now apply Hag|].
  split; [now rewrite set_pbuf_twice, set_pbuf_same|]. split; [|split; [exact Ec5|]].
  - destruct Hr as [Hpk H1 H2 H3 H4]. constructor; auto; [exact (own_agree _ _ r [(r, z)] Hag Hpk)|].
    unfold block. rewrite (proj2 (Hag r (or_introl eq_refl))). exact H4.
  - destruct R5 as [R5a R5b]. split; intros b Hb2.
    + assert (Hne : b <> r) by (intros ->; exact (Hrn Hb2)). cbn [set_pbuf st_pbufs st_mem]. rewrite lookup_insert_ne by congruence. now apply R5a.
    + destruct (decide (b = r)) as [->|Hne]; [now apply Hag; left|]. cbn [set_pbuf st_pbufs st_mem]. rewrite lookup_insert_ne by congruence.
      destruct (R5b b Hb2) as [-> ->]. cbn [st3 set_pbuf st_pbufs st_mem]. now rewrite lookup_insert_ne by congruence.
Qed.

Section Packet.
Variable junk : nat -> Z.

Lemma echo_packet_spec st p x l o :
  own_head st p x l o -> 28 <= pb_len x -> total ((p, x) :: l) + 14 < 65536 -> Forall (fun c => 0 < pb_len (snd c)) l ->
  surely (echo_packet junk p (Some (p, o)) 20 (set_pbuf p (shifted x (Z.opp 20)) st))
    (fun '(r, st') => match r with
       | None => o < 14 /\ st' = st
       | Some (p', iphdr) => echo_ready st p ((p, x) :: l) (content (st_mem st) ((p, x) :: l)) p' iphdr st'
       end).
Proof.
  intros Hh Hx Htot Hf. set (y := shifted x (Z.opp 20)). pose proof (head_lengths _ _ _ _ _ Hh) as (Et & Hl & Hb).
  pose proof (head_lookup _ _ _ _ _ Hh) as Hlp. pose proof (oh_payload _ _ _ _ _ Hh) as Hpx. pose proof (oh_room _ _ _ _ _ Hh) as Ho.
  destruct (head_move st p x l o Hh (Z.opp 20)) as (_ & Hhy & _); [lia|lia|lia|]. fold y in Hhy. set (sty := set_pbuf p y st) in *.
  assert (Ely : pb_len y = pb_len x - 20) by reflexivity. assert (Ety : pb_tot_len y = pb_tot_len x - 20) by reflexivity.
  assert (Ehide : forall n, set_pbuf p (shifted (shifted y n) (Z.opp n)) (set_pbuf p (shifted y n) sty) = sty).
  { intros n. rewrite (shifted_back y n p (o - Z.opp 20) (oh_payload _ _ _ _ _ Hhy)). unfold sty. now rewrite !set_pbuf_twice. }
  unfold echo_packet. change (PBUF_IP_HLEN + PBUF_LINK_HLEN) with 34.
  rewrite (pbuf_header_spec sty p y (o - Z.opp 20) 34) by (try exact (head_lookup _ _ _ _ _ Hhy); try exact (oh_payload _ _ _ _ _ Hhy); try exact (oh_type _ _ _ _ _ Hhy); lia).
  cbn [Z.ltb Z.compare andb Z.eqb]. destruct (Z.ltb_spec (o - Z.opp 20 - 34) 0) as [Hroom|Hroom]; rewrite bind_ret; cbn [Z.eqb negb].
  2: { destruct (head_move sty p y l (o - Z.opp 20) Hhy 34) as (_ & Hhz & _); [lia|lia|lia|].
       destruct (head_move _ p _ l _ Hhz (Z.opp 34)) as (E2 & _); [cbn; lia|lia|cbn; lia|]. change (- (34)) with (Z.opp 34). rewrite E2, Ehide, bind_ret.
       unfold lwip_assert. cbn [Z.eqb]. rewrite bind_ret. apply surely_ret. exists x, l, o, st. repeat (split; [reflexivity|]). split; [exact Hh|].
       split; [lia|]. repeat (split; [reflexivity || assumption|]). left. auto. }
  destruct (head_move sty p y l (o - Z.opp 20) Hhy 20) as (E2 & _ & _); [lia|lia|lia|]. rewrite E2, bind_ret. unfold lwip_assert at 1. cbn [Z.eqb]. rewrite bind_ret.
  assert (Est : set_pbuf p (shifted y 20) sty = st).
  { unfold sty. rewrite set_pbuf_twice. replace (shifted y 20) with x by exact (eq_sym (shifted_back x (Z.opp 20) p o Hpx)). now apply set_pbuf_same. }
  rewrite Est, (fetch_some _ _ _ Hlp), bind_ret.
  eapply surely_bind; [apply (alloc_ram junk PBUF_LINK (pb_tot_len x) st); lia|]. intros [[r|] st1].
  2: { intros ->. apply surely_ret. split; [lia|reflexivity]. }
  change (header_room PBUF_LINK) with 14. rewrite Et. intros Hfp.
  assert (Hfu : all_full ((p, x) :: l)) by (constructor; [cbn; lia|exact Hf]). pose proof (oh_own _ _ _ _ _ Hh) as Hw.
  destruct (fresh_head st st1 r 14 (total ((p, x) :: l)) Hfp ltac:(lia) ltac:(lia)) as [Hr _].
  destruct (copy_to_new st st1 p ((p, x) :: l) r 14 Hw Hfu Hfp ltac:(lia)) as (st2 & E3 & Hr2 & He & C3 & Hrn). set (z := Pbuf _ _ _ _ _ _ _) in *.
  assert (Hz : 28 <= pb_len z) by (change (pb_len z) with (total ((p, x) :: l)); lia).
  rewrite (fetch_some _ _ _ (head_lookup _ _ _ _ _ Hr)), bind_ret. unfold lwip_assert at 1.
  change (20 + ICMP_ECHO_HLEN) with 28. destruct (Z.leb_spec 28 (pb_len z)) as [_|Hbad]; [|lia]. rewrite bind_ret.
  rewrite E3, bind_ret. unfold lwip_assert at 1. cbn [Z.eqb ERR_OK]. rewrite bind_ret.
  destruct (head_move st2 r z [] 14 Hr2 (Z.opp 20)) as (E4 & _); [lia|lia|change (pb_tot_len z) with (total ((p, x) :: l)); lia|]. change (- (20)) with (Z.opp 20). rewrite E4, bind_ret.
  unfold lwip_assert at 1. cbn [Z.eqb]. rewrite bind_ret.
  destruct (take_over st2 p ((p, x) :: l) r z 14 (Z.opp 20)) as (k & st5 & E5 & Hr5 & C5 & R5);
    [exact (extends_chain _ _ _ _ _ He (proj1 (op_packet _ _ _ Hw)))|exact (op_refs _ _ _ Hw)|exact Hr2|exact Hrn|].
  rewrite E5, bind_ret. apply surely_ret. exists z, [], 14, st5. repeat (split; [reflexivity|]). split; [exact Hr5|]. split; [lia|].
  split; [now rewrite C5|]. split; [exact Hz|]. right. split; [reflexivity|]. exists st2. now split.
Qed.
End Packet.


(** ** The header *)

Lemma reply_header_bytes hdr : length hdr = 20%nat -> Forall byte hdr -> Forall byte (reply_header hdr).
Proof.
  intros H Hb. twenty hdr H. unfold reply_header, bytes_at, field16. cbn [firstn skipn app]. rewrite !Forall_cons in Hb |- *.
  assert (B0 : byte 0) by (unfold byte; lia).
  repeat match goal with |- _ /\ _ => split end; first [apply Hb|exact B0|apply Z.mod_pos_bound; lia|constructor].
Qed.

Lemma reply_header_verifies hdr : length hdr = 20%nat -> Forall byte hdr ->
  Forall byte (checked (reply_header hdr)) /\ inet_chksum (checked (reply_header hdr)) IP_HLEN = ret 0.
Proof.
  intros H Hb. apply checked_verifies; [now apply reply_header_length|now apply reply_header_bytes|]. twenty hdr H. reflexivity.
Qed.

Lemma reply_ttl hdr : length hdr = 20%nat -> bytes_at (checked (reply_header hdr)) 8 2 = field16 (htons (Z.lor (IPH_PROTO hdr) (Z.shiftl 255 8))).
Proof.
  intros H. assert (Eu : u16 (Z.lor (IPH_PROTO hdr) (Z.shiftl (u16 ICMP_TTL) 8)) = Z.lor (IPH_PROTO hdr) (Z.shiftl 255 8)).
  { change (u16 ICMP_TTL) with 255. unfold u16. apply Z.mod_small, byte_or; [apply land_byte_range|lia]. }
  rewrite <- Eu. unfold checked. generalize (not16 (lwip_standard_chksum (reply_header hdr))). intros v. unfold reply_header.
  generalize (u16 (Z.lor (IPH_PROTO hdr) (Z.shiftl (u16 ICMP_TTL) 8))). intros w. twenty hdr H. reflexivity.
Qed.

Lemma reply_keeps hdr i n : length hdr = 20%nat -> (i + n <= 8)%nat -> bytes_at (checked (reply_header hdr)) i n = bytes_at hdr i n.
Proof.
  intros H Hi. unfold checked. generalize (not16 (lwip_standard_chksum (reply_header hdr))). intros v.
  unfold reply_header. generalize (htons (u16 (Z.lor (IPH_PROTO hdr) (Z.shiftl (u16 ICMP_TTL) 8)))). intros w. twenty hdr H.
  unfold splice, bytes_at, field16. cbn [firstn skipn app length Nat.add].
  do 8 (destruct i as [|i]; [do 9 (destruct n as [|n]; [first [reflexivity|lia]|]); lia|]). destruct n as [|n]; [reflexivity|lia].
Qed.

(** ** The checksum *)

(** The sums differ by a multiple of 65535. *)
Lemma adjusted_sum code c rest :
  byte code -> 0 <= c < 65536 -> Forall byte rest ->
  exists k, le_value ([ICMP_ER; code] ++ field16 (adjust_chksum c) ++ rest) = le_value ([ICMP_ECHO; code] ++ field16 c ++ rest) + 65535 * k.
Proof.
  intros Hco Hc Hr. unfold adjust_chksum. change (htons (0xffff - Z.shiftl ICMP_ECHO 8)) with 0xfff7. change (htons (Z.shiftl ICMP_ECHO 8)) with 8.
  assert (Ev : forall t v, 0 <= v < 65536 -> le_value ([t; code] ++ field16 v ++ rest) = t + 256 * code + 65536 * v + 4294967296 * le_value rest).
  { intros t v Hv. unfold field16. cbn [app le_value]. rewrite (Z.mod_small (v / 256)) by dlia. pose proof (Z.div_mod v 256). lia. }
  destruct (Z.leb_spec 0xfff7 c) as [Hl|Hl]; unfold u16.
  - assert (Em : (c + 8 + 1) mod 65536 = c + 9 - 65536) by dlia. rewrite Em, !Ev by lia. exists (9 - 65537). unfold ICMP_ER, ICMP_ECHO. lia.
  - rewrite Z.mod_small by lia. rewrite !Ev by lia. exists 8. unfold ICMP_ER, ICMP_ECHO. lia.
Qed.

(** A message checks exactly when its sum is a multiple of 65535 other than 0. *)
Lemma checks_iff m : Forall byte m -> Z.of_nat (length m) <= 65535 ->
  not16 (lwip_standard_chksum m) = 0 <-> le_value m mod 65535 = 0 /\ le_value m <> 0.
Proof.
  intros Hb Hl. pose proof (le_value_nonneg m Hb) as H0. rewrite chksum_1_spec by assumption. pose proof (canon_range _ H0) as Hr.
  rewrite not16_value by exact Hr. pose proof (eqc_canon _ H0) as (_ & _ & Hm & Hz). split.
  - intros E. assert (E1 : canon16 (le_value m) = 65535) by lia. rewrite E1 in Hm, Hz. split; [now rewrite <- Hm|]. intros E2. now apply Hz in E2.
  - intros [E1 E2]. assert (Hne : canon16 (le_value m) <> 0) by tauto. rewrite E1 in Hm. dlia.
Qed.

Lemma le_value_zero m : Forall byte m -> le_value m = 0 <-> Forall (eq 0) m.
Proof.
  intros Hb. induction Hb as [|b m Hb1 Hb IH]; [cbn; split; auto|]. cbn [le_value]. pose proof (le_value_nonneg m Hb). unfold byte in Hb1. split.
  - intros E. constructor; [lia|]. apply IH. lia.
  - intros Hf. inversion Hf as [|? ? <- Hf']; subst. rewrite (proj2 IH Hf'). lia.
Qed.

Lemma adjusted_checks code c rest :
  byte code -> 0 <= c < 65536 -> Forall byte rest -> Z.of_nat (length rest) <= 65531 ->
  not16 (lwip_standard_chksum ([ICMP_ECHO; code] ++ field16 c ++ rest)) = 0 ->
  let m := [ICMP_ER; code] ++ field16 (adjust_chksum c) ++ rest in
  Forall byte m /\ (not16 (lwip_standard_chksum m) = 0 <-> ~ Forall (eq 0) m).
Proof.
  intros Hco Hc Hr Hl Hch m. assert (Hfb : forall v, Forall byte (field16 v)) by (intros v; unfold field16; repeat constructor; apply Z.mod_pos_bound; lia).
  assert (Hm : forall t v, byte t -> Forall byte ([t; code] ++ field16 v ++ rest)).
  { intros t v Ht. constructor; [exact Ht|]. constructor; [exact Hco|]. apply Forall_app. now split. }
  assert (Hml : forall t v, Z.of_nat (length ([t; code] ++ field16 v ++ rest)) <= 65535) by (intros t v; cbn [app length field16]; lia).
  assert (Hbm : Forall byte m) by (apply Hm; unfold byte, ICMP_ER; lia). split; [exact Hbm|].
  apply checks_iff in Hch as [Hc1 _]; [|apply Hm; unfold byte, ICMP_ECHO; lia|apply Hml]. rewrite (checks_iff m Hbm (Hml _ _)).
  destruct (adjusted_sum code c rest Hco Hc Hr) as [k Ek]. fold m in Ek.
  assert (Hz : le_value m mod 65535 = 0) by (rewrite Ek, Z.mul_comm, Z_mod_plus_full; exact Hc1). rewrite (le_value_zero m Hbm). tauto.
Qed.

Lemma echo_reply_parts d : (28 <= length d)%nat ->
  firstn 20 (echo_reply d) = checked (reply_header (firstn 20 d)) /\
  skipn 20 (echo_reply d) = [ICMP_ER; nth 21 d 0] ++ field16 (adjust_chksum (get16 d 22)) ++ skipn 24 d /\ length (echo_reply d) = length d.
Proof.
  intros H. unfold echo_reply. set (h := checked _). assert (Lh : length h = 20%nat) by (apply checked_length, reply_header_length; rewrite length_firstn; lia).
  clearbody h. twenty h Lh. do 24 (destruct d as [|? d]; [cbn in H; lia|]). cbn [app firstn skipn bytes_at nth]. rewrite !drop_0. split; [reflexivity|]. split; [reflexivity|]. reflexivity.
Qed.

Lemma field16_bytes a b : byte a -> byte b -> field16 (a + 256 * b) = [a; b].
Proof. unfold byte, field16. intros Ha Hb. f_equal; [dlia|]. f_equal. dlia. Qed.

Lemma request_parts d : (28 <= length d)%nat -> Forall byte d -> le_value (bytes_at d 20 1) = ICMP_ECHO ->
  skipn 20 d = [ICMP_ECHO; nth 21 d 0] ++ field16 (get16 d 22) ++ skipn 24 d.
Proof.
  intros H Hb He. do 24 (destruct d as [|? d]; [cbn in H; lia|]). rewrite !Forall_cons in Hb. cbn in He. cbn [skipn nth app]. rewrite !drop_0.
  unfold get16, bytes_at. cbn [skipn firstn le_value]. rewrite Z.add_0_r in He. rewrite He, Z.mul_0_r, Z.add_0_r. rewrite field16_bytes; [reflexivity|apply Hb|apply Hb].
Qed.


(** ** ICMP packets *)

(** The packet [c], with an IP header of 20 bytes, is an echo request to [n]
    that gets an answer. *)
Definition answered (n : netif) (c : list Z) : bool :=
  (le_value (bytes_at c 20 1) =? ICMP_ECHO) &&
  negb (ip_addr_ismulticast (get32 c 16) || isbroadcast (get32 c 16) n) &&
  (not16 (lwip_standard_chksum (skipn 20 c)) =? 0).

Lemma chksum_pbuf_value st p l :
  packet st p l -> all_valid (st_mem st) l -> Forall byte (content (st_mem st) l) -> total l <= 65535 ->
  inet_chksum_pbuf p st = ret (not16 (lwip_standard_chksum (content (st_mem st) l))).
Proof.
  intros Hp Hv Hb Ht. destruct (chksum_chain st p l Hp Hv Hb) as (acc & sw & E & Ea). unfold inet_chksum_pbuf. rewrite E, bind_ret, Ea.
  rewrite chksum_1_spec by (auto; rewrite (content_length _ _ Hv); lia). now rewrite land_small by (apply canon_range, le_value_nonneg, Hb).
Qed.

Lemma reply_dest c : (28 <= length c)%nat -> get32 (echo_reply c) 16 = get32 c 12.
Proof.
  intros H. unfold echo_reply, get32. f_equal. set (h := reply_header (firstn 20 c)). assert (Eh : bytes_at (checked h) 16 4 = bytes_at c 12 4).
  { unfold checked. generalize (not16 (lwip_standard_chksum h)). intros v. subst h. do 28 (destruct c as [|? c]; [cbn in H; lia|]). reflexivity. }
  rewrite <- Eh. assert (Lh : length (checked h) = 20%nat) by (apply checked_length, reply_header_length; rewrite length_firstn; lia).
  revert Lh. generalize (checked h). intros z Lz. twenty z Lz. reflexivity.
Qed.

Section Input.
Context {W : Type} (held : W -> list addr) (handed : W -> list (netif * Z * list Z)).
Context (output : netif -> addr -> Z -> store -> W -> M (Z * store * W)) `{!Driver held handed output}.
Context (tcpip_callback : netif -> W -> M W) `{!Scheduler held handed tcpip_callback}.
Variable junk : nat -> Z.

(** An ICMP packet that has arrived: its IP header, of 20 bytes, and the
    ICMP header are in the first pbuf. *)
Record arrived (n : netif) (st : store) (s : ipstate W) (p : addr) (x : pbuf) (l : list (addr * pbuf)) (o : Z) : Prop := Arrived
  { ar_head : own_head st p x l o; ar_len : 28 <= pb_len x; ar_full : Forall (fun c => 0 < pb_len (snd c)) l;
    ar_hl : IPH_HL (content (st_mem st) ((p, x) :: l)) = 5; ar_bytes : Forall byte (content (st_mem st) ((p, x) :: l));
    ar_size : total ((p, x) :: l) + 14 < 65536; ar_mtu : 0 <= nf_mtu n; ar_send : sendable n ((p, x) :: l);
    ar_accounted : accounted (ip_held held) st s; ar_free : forall b, In b (p :: addrs l) -> ~ In b (ip_held held s) }.

(** The packet is freed. *)
Lemma drop_spec st st1 p x1 l s :
  untouched [p] st st1 -> chain (st_pbufs st1) (Some p) ((p, x1) :: l) -> Forall (fun c => pb_ref (snd c) = 1) ((p, x1) :: l) ->
  (forall b, In b (p :: addrs l) -> ~ In b (ip_held held s)) ->
  surely (icmp_drop p st1 s) (fun '(st', s') => evolves (ip_held held) (p :: addrs l) st s st' s' /\ s' = s).
Proof.
  intros Hu Hc Hr Hfr. unfold icmp_drop. destruct (free_whole st1 p _ Hc Hr) as (k & st2 & E & R). rewrite E, bind_ret. apply surely_ret.
  split; [|reflexivity]. apply (evolves_before _ _ st st1); [|exact Hfr|now apply removed_evolves].
  apply (untouched_weaken [p]); [exact Hu|]. intros b [<-|[]]. now left.
Qed.

(** The packet with its IP header and room for a link header is answered. *)
Lemma answer_spec n st p x l o s p' iphdr st1 :
  arrived n st s p x l o -> echo_ready st p ((p, x) :: l) (content (st_mem st) ((p, x) :: l)) p' iphdr st1 ->
  surely (st2 <- make_reply p' iphdr st1;;
          '(e, st3) <- pbuf_header (Some p') 20 st2;;
          _ <- lwip_assert (e =? 0);;
          '(_, st4, s') <- ip_output_if junk output tcpip_callback p' None None ICMP_TTL 0 IP_PROTO_ICMP n st3 s;;
          icmp_drop p' st4 s')
    (fun '(st', s') => evolves (ip_held held) (p :: addrs l) st s st' s' /\
       let c := content (st_mem st) ((p, x) :: l) in sent handed n (get32 c 12) (echo_reply c) s st' s').
Proof.
  intros [Hh Hx Hf _ _ Hsz Hmtu Hsd Hac Hfr] (x' & l' & o' & st0 & -> & -> & Hh0 & Ho & Ec & Hx' & Hor). set (c := content (st_mem st) ((p, x) :: l)) in *.
  destruct (make_reply_spec st0 p' x' l' o' Hh0 Hx') as (st2 & E2 & W2 & Hh2 & C2). rewrite E2, bind_ret. rewrite Ec in C2.
  pose proof (head_lengths _ _ _ _ _ Hh2) as (Et2 & Hl2 & Hb2). pose proof (op_valid _ _ _ (oh_own _ _ _ _ _ Hh2)) as Hv2.
  destruct (head_move st2 p' x' l' o' Hh2 (Z.opp 20)) as (_ & Hy & _); [lia|lia|lia|].
  destruct (head_move _ p' _ l' _ Hy 20) as (E3 & _); [cbn; lia|lia|cbn; lia|]. rewrite E3, bind_ret. unfold lwip_assert. cbn [Z.eqb]. rewrite bind_ret.
  pose proof (eq_sym (shifted_back x' (Z.opp 20) p' o' (oh_payload _ _ _ _ _ Hh2))) as Eb. change (Z.opp (Z.opp 20)) with 20 in Eb.
  rewrite <- Eb, set_pbuf_twice, set_pbuf_same by exact (head_lookup _ _ _ _ _ Hh2). clear E3 Eb Hy.
  unfold ip_output_if. rewrite (fetch_some _ _ _ (head_lookup _ _ _ _ _ Hh2)), bind_ret.
  rewrite (head_load _ _ _ _ _ Hh2 16 4), bind_ret by lia. rewrite C2.
  assert (Lc : (28 <= length c)%nat).
  { rewrite <- Ec. destruct (head_bytes _ _ _ _ _ Hh0) as [-> Lb]. rewrite length_app. lia. }
  change (le_value (firstn (Z.to_nat 4) (skipn (Z.to_nat 16) (echo_reply c)))) with (get32 (echo_reply c) 16). rewrite (reply_dest c Lc).
  assert (Hu2 : untouched [p'] st0 st2) by (apply changed_untouched, (written_changed p'); [exact W2|now left]).
  assert (Htl : total ((p', x') :: l') = total ((p, x) :: l)).
  { pose proof (content_length _ _ (op_valid _ _ _ (oh_own _ _ _ _ _ Hh0))) as L1. pose proof (content_length _ _ (op_valid _ _ _ (oh_own _ _ _ _ _ Hh))) as L2.
    rewrite Ec in L1. fold c in L2. lia. }
  assert (Hgo : forall gone, outgoing held st2 s p' ((p', x') :: l') -> sendable n ((p', x') :: l') ->
     (forall st' s', evolves (ip_held held) (p' :: addrs l') st2 s st' s' -> evolves (ip_held held) gone st s st' s') ->
     surely ('(_, st4, s') <- send_packet junk output tcpip_callback p' (get32 c 12) n st2 s;; icmp_drop p' st4 s')
       (fun '(st', s') => evolves (ip_held held) gone st s st' s' /\ sent handed n (get32 c 12) (echo_reply c) s st' s')).
  { intros gone Hog Hsd' Hev. eapply surely_weaken; [exact (send_free_spec held handed output tcpip_callback junk p' n (get32 c 12) st2 s _ Hog Hsd' Hmtu)|].
    intros [st' s'] [H1 H2]. split; [now apply Hev|]. now rewrite C2 in H2. }
  pose proof (oh_own _ _ _ _ _ Hh2) as Hw2. apply Hgo; clear Hgo; destruct Hor as [(-> & [= -> ->] & ->)|(-> & st5 & He & Hrm)].
  - constructor; [exact Hw2|constructor; [cbn; lia|exact Hf]| |exact Hfr].
    apply (accounted_untouched _ [p] st); [exact Hu2| |exact Hac]. intros b [<-|[]]. apply Hfr. now left.
  - assert (Hr : ~ In p' (ip_held held s)).
    { intros Hin. destruct (proj2 Hac p' Hin) as [z Hz]. exact (extends_fresh _ _ _ _ He (or_introl (ex_intro _ z Hz)) (or_introl eq_refl)). }
    constructor; [exact Hw2|constructor; [cbn; lia|constructor]| |intros b [<-|[]]; exact Hr].
    apply (accounted_untouched _ [p'] st0); [exact Hu2|intros b [<-|[]]; exact Hr|].
    apply (accounted_untouched _ (p :: addrs l) st5); [exact (removed_untouched _ _ _ Hrm)|exact Hfr|].
    apply (accounted_untouched _ [p'] st); [exact (proj2 He)|intros b [<-|[]]; exact Hr|exact Hac].
  - exact Hsd.
  - unfold sendable in *. rewrite Htl. destruct Hsd as [Hsd|[Hsd|[Hm _]]]; [now left|right; now left|].
    right. right. split; [exact Hm|]. constructor; [cbn; unfold IP_HLEN; lia|constructor].
  - intros st' s' Hev. apply (evolves_before _ _ st st2); [|exact Hfr|exact Hev]. apply (untouched_weaken [p]); [exact Hu2|]. intros b [<-|[]]. now left.
  - intros st' s' Hev. assert (Hr : ~ In p' (ip_held held s)).
    { intros Hin. destruct (proj2 Hac p' Hin) as [z Hz]. exact (extends_fresh _ _ _ _ He (or_introl (ex_intro _ z Hz)) (or_introl eq_refl)). }
    apply (evolves_fresh _ (p :: addrs l) _ _ _ _ _ _ _ He Hac). eapply evolves_trans; [exact (removed_evolves _ _ _ _ _ Hrm Hfr)|].
    apply (evolves_before _ _ st0 st2); [exact Hu2|intros b [<-|[]]; exact Hr|exact Hev].
Qed.

Lemma icmp_echo_spec n st p x l o s :
  arrived n st s p x l o ->
  surely (icmp_echo junk output tcpip_callback p (Some (p, o)) 20 n (set_pbuf p (shifted x (Z.opp 20)) st) s)
    (fun '(st', s') => evolves (ip_held held) (p :: addrs l) st s st' s' /\
       let c := content (st_mem st) ((p, x) :: l) in
       if negb (ip_addr_ismulticast (get32 c 16) || isbroadcast (get32 c 16) n) && (not16 (lwip_standard_chksum (skipn 20 c)) =? 0) then
         (o < 14 /\ s' = s) \/ sent handed n (get32 c 12) (echo_reply c) s st' s'
       else s' = s).
Proof.
  intros Ha. pose proof Ha as [Hh Hx Hf _ Hby Hsz _ _ Hac Hfr]. set (c := content (st_mem st) ((p, x) :: l)) in *.
  set (y := shifted x (Z.opp 20)). pose proof (head_lengths _ _ _ _ _ Hh) as (Et & Hl & Hb). pose proof (oh_room _ _ _ _ _ Hh) as Ho0.
  destruct (head_move st p x l o Hh (Z.opp 20)) as (_ & Hhy & Uy & Cy & _); [lia|lia|lia|]. fold y in Hhy, Uy, Cy. specialize (Cy ltac:(lia)).
  pose proof (oh_own _ _ _ _ _ Hhy) as [[Hcy Hty] Hvy _ Hry]. set (sty := set_pbuf p y st) in *.
  assert (Hdrop : surely (icmp_drop p sty s) (fun '(st', s') => evolves (ip_held held) (p :: addrs l) st s st' s' /\ s' = s)).
  { exact (drop_spec st sty p y l s Uy Hcy Hry Hfr). }
  unfold icmp_echo. assert (Eld : load sty (Some (p, o)) 16 4 = ret (bytes_at c 16 4)).
  { change (load sty (Some (p, o)) 16 4) with (load st (Some (p, o)) 16 4). rewrite <- (oh_payload _ _ _ _ _ Hh). exact (head_load _ _ _ _ _ Hh 16 4 ltac:(lia) ltac:(lia) ltac:(lia)). }
  rewrite Eld, bind_ret. change (le_value (bytes_at c 16 4)) with (get32 c 16).
  destruct (ip_addr_ismulticast (get32 c 16) || isbroadcast (get32 c 16) n); cbn [negb andb]; [exact Hdrop|].
  rewrite (fetch_some _ _ _ (head_lookup _ _ _ _ _ Hhy)), bind_ret. destruct (Z.ltb_spec (pb_tot_len y) ICMP_ECHO_HLEN) as [Hlt|_].
  { unfold ICMP_ECHO_HLEN in Hlt. change (pb_tot_len y) with (pb_tot_len x + Z.opp 20) in Hlt. lia. }
  change (Z.to_nat (Z.opp (Z.opp 20))) with 20%nat in Cy. fold c in Cy. pose proof (head_lengths _ _ _ _ _ Hhy) as (Ety & _ & Hby2).
  rewrite (chksum_pbuf_value sty (Some p) ((p, y) :: l)), bind_ret; [|split; assumption|exact Hvy| |lia].
  2: { rewrite Cy. rewrite List.Forall_forall in *. intros b Hi. apply Hby. rewrite <- (firstn_skipn 20 c). apply in_app_iff. now right. }
  rewrite Cy. destruct (not16 (lwip_standard_chksum (skipn 20 c)) =? 0); cbn [negb]; [|exact Hdrop].
  eapply surely_bind; [apply (echo_packet_spec junk st p x l o Hh Hx Hsz Hf)|]. intros [[[p' iphdr]|] st1].
  - intros Hready. eapply surely_weaken; [exact (answer_spec n st p x l o s p' iphdr st1 Ha Hready)|]. intros [st' s'] [H1 H2]. split; [exact H1|]. now right.
  - intros [Ho ->]. eapply surely_weaken; [apply (drop_spec st st p x l s)|].
    + intros b _. now split.
    + exact (proj1 (op_packet _ _ _ (oh_own _ _ _ _ _ Hh))).
    + exact (op_refs _ _ _ (oh_own _ _ _ _ _ Hh)).
    + exact Hfr.
    + intros [st' s'] [H1 H2]. split; [exact H1|]. now left.
Qed.

Lemma icmp_input_spec n st p x l o s :
  arrived n st s p x l o ->
  surely (icmp_input junk output tcpip_callback p n st s)
    (fun '(st', s') => evolves (ip_held held) (p :: addrs l) st s st' s' /\
       let c := content (st_mem st) ((p, x) :: l) in
       if answered n c then (o < 14 /\ s' = s) \/ sent handed n (get32 c 12) (echo_reply c) s st' s' else s' = s).
Proof.
  intros Ha. pose proof Ha as [Hh Hx _ Hhl _ Hsz _ _ _ Hfr]. set (c := content (st_mem st) ((p, x) :: l)) in *.
  pose proof (head_lengths _ _ _ _ _ Hh) as (Et & Hl & Hb). pose proof (oh_room _ _ _ _ _ Hh) as Ho0. unfold icmp_input.
  rewrite (fetch_some _ _ _ (head_lookup _ _ _ _ _ Hh)), bind_ret. cbv zeta. rewrite (head_load _ _ _ _ _ Hh 0 2), bind_ret by lia. fold c.
  change (IPH_HL (firstn (Z.to_nat 2) (skipn (Z.to_nat 0) c))) with (IPH_HL (bytes_at c 0 2)).
  assert (E5 : IPH_HL (bytes_at c 0 2) = 5).
  { rewrite <- Hhl. unfold IPH_HL, get16. do 4 f_equal. unfold bytes_at. rewrite !drop_0, firstn_firstn. reflexivity. }
  rewrite E5. change (5 * 4) with 20. change (- (20)) with (Z.opp 20).
  destruct (head_move st p x l o Hh (Z.opp 20)) as (E1 & Hhy & Uy & Cy & _); [lia|lia|lia|]. rewrite E1, bind_ret. cbn [Z.eqb negb].
  set (y := shifted x (Z.opp 20)) in *. set (sty := set_pbuf p y st) in *. specialize (Cy ltac:(lia)). change (Z.to_nat (Z.opp (Z.opp 20))) with 20%nat in Cy. fold c in Cy.
  rewrite (fetch_some _ _ _ (head_lookup _ _ _ _ _ Hhy)), bind_ret. destruct (Z.ltb_spec (pb_tot_len y) 4) as [Hlt|_].
  { change (pb_tot_len y) with (pb_tot_len x + Z.opp 20) in Hlt. lia. }
  rewrite (head_load _ _ _ _ _ Hhy 0 1), bind_ret by (try lia; change (pb_len y) with (pb_len x + Z.opp 20); lia). rewrite Cy.
  change (firstn (Z.to_nat 1) (skipn (Z.to_nat 0) (skipn 20 c))) with (bytes_at c 20 1). unfold answered.
  destruct (le_value (bytes_at c 20 1) =? ICMP_ECHO); cbn [andb].
  - rewrite (oh_payload _ _ _ _ _ Hh). exact (icmp_echo_spec n st p x l o s Ha).
  - pose proof (oh_own _ _ _ _ _ Hhy) as [[Hcy _] _ _ Hry]. exact (drop_spec st sty p y l s Uy Hcy Hry Hfr).
Qed.
End Input.
