(* ===== verification/IpIn.v ===== *)
(** * lwIP: receiving IP datagrams

    [ip_input] of [lwip/src/core/ipv4/ip.c] as the port configures it, without
    forwarding, DHCP and IGMP, and [netif_poll] of [lwip/src/core/netif.c].
    The input functions of UDP and TCP are parameters. *)
From Stdlib Require Import ZArith List Lia Bool.
From stdpp Require Import base gmap list.
From S2P Require Import Prelude CMonad Pbuf Inet InetChksum Netif IpHdr IpReass.
From S2P Require Import IpFrag IpOut Icmp.
#[local] Open Scope Z_scope.
#[local] Open Scope cmonad_scope.

(** The interface takes packets to [dest]. *)
Definition netif_accepts (n : netif) (dest : Z) : bool :=
  netif_is_up n && negb (ip_addr_isany (nf_ip_addr n)) && ((dest =? nf_ip_addr n) || isbroadcast dest n).

(** The walk along the list, which leaves out [inp]. *)
Fixpoint accepting (l : list netif) (inp : netif) (dest : Z) : option netif :=
  match l with
  | [] => None
  | n :: l' =>
      if nf_num n =? nf_num inp then accepting l' inp dest
      else if netif_accepts n dest then Some n else accepting l' inp dest
  end.

Definition input_netif (netif_list : list netif) (inp : netif) (dest : Z) : option netif :=
  if netif_accepts inp dest then Some inp else accepting netif_list inp dest.

Section IpIn.
Context {W : Type} (junk : nat -> Z).
Variable output : netif -> addr -> Z -> store -> W -> M (Z * store * W).
Variable tcpip_callback : netif -> W -> M W.
Variables (netif_list : list netif) (netif_default : option netif).
Variables udp_input tcp_input : addr -> netif -> store -> ipstate W -> M (store * ipstate W).

Definition with_re_store (st : store) (s : ipstate W) (r : reass (ipstate W)) : reass (ipstate W) :=
  Reass (reassdatagrams r) (ip_reass_pbufcount r) st s.

(** [pbuf_free(p)] *)
Definition ip_drop (p : addr) (r : reass (ipstate W)) : M (reass (ipstate W)) :=
  '(_, st) <- pbuf_free (Some p) (re_store r);;
  ret (set_re_store st r).

(** [switch (IPH_PROTO(iphdr))] *)
Definition ip_deliver (p : addr) (hdr : list Z) (inp : netif) (r : reass (ipstate W)) : M (reass (ipstate W)) :=
  let up := fun input => '(st, s) <- input p inp (re_store r) (re_world r);; ret (with_re_store st s r) in
  if IPH_PROTO hdr =? IP_PROTO_UDP then up udp_input
  else if IPH_PROTO hdr =? IP_PROTO_TCP then up tcp_input
  else if IPH_PROTO hdr =? IP_PROTO_ICMP then up (icmp_input junk output tcpip_callback)
  else
    r <- (if negb (isbroadcast (iph_dest hdr) inp) && negb (ip_addr_ismulticast (iph_dest hdr)) then
            '(st, s) <- icmp_dest_unreach junk output tcpip_callback netif_list netif_default p ICMP_DUR_PROTO (re_store r) (re_world r);;
            ret (with_re_store st s r)
          else ret r);;
    ip_drop p r.

(** The packet is for us: fragments are put together. *)
Definition ip_take (p : addr) (hdr : list Z) (inp : netif) (r : reass (ipstate W)) : M (reass (ipstate W)) :=
  if negb (Z.land (IPH_OFFSET hdr) (htons (Z.lor IP_OFFMASK IP_MF)) =? 0) then
    '(q, r) <- ip_reass (icmp_time_exceeded junk output tcpip_callback netif_list netif_default) p r;;
    match q with
    | None => ret r
    | Some p =>
        x <- fetch (re_store r) (Some p);;
        hdr <- load (re_store r) (pb_payload x) 0 IP_HLEN;;
        ip_deliver p hdr inp r
    end
  else ip_deliver p hdr inp r.

Definition ip_input (p : addr) (inp : netif) (r : reass (ipstate W)) : M (Z * reass (ipstate W)) :=
  x <- fetch (re_store r) (Some p);;
  vhltos <- load (re_store r) (pb_payload x) 0 2;;
  if negb (IPH_V vhltos =? 4) then r <- ip_drop p r;; ret (ERR_OK, r)
  else
    let iphdr_hlen := IPH_HL vhltos * 4 in
    len <- load (re_store r) (pb_payload x) 2 2;;
    let iphdr_len := ntohs (le_value len) in
    if (pb_len x <? iphdr_hlen) || (pb_tot_len x <? iphdr_len) then r <- ip_drop p r;; ret (ERR_OK, r)
    else
      bs <- load (re_store r) (pb_payload x) 0 iphdr_hlen;;
      c <- inet_chksum bs iphdr_hlen;;
      if negb (c =? 0) then r <- ip_drop p r;; ret (ERR_OK, r)
      else
        st <- pbuf_realloc (Some p) iphdr_len (re_store r);;
        let r := set_re_store st r in
        hdr <- load (re_store r) (pb_payload x) 0 IP_HLEN;;
        if isbroadcast (iph_src hdr) inp || ip_addr_ismulticast (iph_src hdr) then r <- ip_drop p r;; ret (ERR_OK, r)
        else
          match input_netif netif_list inp (iph_dest hdr) with
          | None => r <- ip_drop p r;; ret (ERR_OK, r)
          | Some _ => r <- ip_take p hdr inp r;; ret (ERR_OK, r)
          end.

(** ** The queue of an interface *)

(** [while(in_end->len != in_end->tot_len)]: the pbufs of the first packet. *)
Fixpoint packet_end (fuel : nat) (p : addr) (st : store) : M (list addr) :=
  match fuel with
  | O => out_of_fuel
  | S fuel' =>
      x <- fetch st (Some p);;
      if pb_len x =? pb_tot_len x then ret [p]
      else
        match pb_next x with
        | Some q => l <- packet_end fuel' q st;; ret (p :: l)
        | None => throw ABORT
        end
  end.

(** The first packet leaves the queue of [n]. *)
Definition dequeue (n : netif) (p : addr) (r : reass (ipstate W)) : M (reass (ipstate W)) :=
  let q := loop_of n (re_world r) in
  l <- packet_end (walk_fuel (re_store r)) p (re_store r);;
  match last l with
  | Some e =>
      x <- fetch (re_store r) (Some e);;
      rest <- (if bool_decide (last q = Some e) then ret []
               else _ <- lwip_assert (bool_decide (pb_next x <> None));; ret (drop (length l) q));;
      ret (with_re_store (set_pbuf e (with_next x None) (re_store r)) (set_loop n rest (re_world r)) r)
  | None => ub
  end.

Fixpoint netif_poll (fuel : nat) (n : netif) (r : reass (ipstate W)) : M (reass (ipstate W)) :=
  match loop_of n (re_world r) with
  | [] => ret r
  | p :: _ =>
      match fuel with
      | O => out_of_fuel
      | S fuel' =>
          r <- dequeue n p r;;
          '(err, r) <- ip_input p n r;;
          r <- (if negb (err =? ERR_OK) then ip_drop p r else ret r);;
          netif_poll fuel' n r
      end
  end.
End IpIn.
