(* ===== verification/IpInSpec.v ===== *)
(** * lwIP: which packets the IP layer takes

    [ip_input] frees a packet or hands it, cut to its length, to the
    reassembly or to the protocol.  The queue of packets to the interface
    itself is a list of packets, each in one pbuf: [netif_loop_output] appends
    one, and [netif_poll] takes the first. *)
From Stdlib Require Import ZArith List Lia Bool.
From stdpp Require Import base gmap list.
From S2P Require Import Prelude CMonad Pbuf PbufChain PbufData PbufEdit PbufAlloc.
From S2P Require Import Inet InetChksum ChksumSpec Netif IpHdr Frames Driver IpReass.
From S2P Require Import IpReassMem IpReassInv IpFrag IpFragSpec PacketEdit IpOut.
From S2P Require Import IpOutSpec Icmp EchoSpec IpIn.
#[local] Open Scope Z_scope.
#[local] Open Scope cmonad_scope.

(** The header of the packet [c], whose first [len] bytes are in one pbuf, is
    complete and verifies, and the packet has the announced length. *)
Definition ip_sound (len : Z) (c : list Z) : bool :=
  (IPH_V c =? 4) && negb ((len <? IPH_HL c * 4) || (Z.of_nat (length c) <? ntohs (IPH_LEN c))) &&
  (not16 (lwip_standard_chksum (firstn (Z.to_nat (IPH_HL c * 4)) c)) =? 0).

(** The packet comes from a single host, and an interface takes it. *)
Definition ip_for_us (netif_list : list netif) (inp : netif) (c : list Z) : bool :=
  negb (isbroadcast (iph_src c) inp || ip_addr_ismulticast (iph_src c)) &&
  match input_netif netif_list inp (iph_dest c) with Some _ => true | None => false end.

Lemma header_fields c : (20 <= length c)%nat ->
  IPH_V (firstn 20 c) = IPH_V c /\ IPH_HL (firstn 20 c) = IPH_HL c /\ IPH_LEN (firstn 20 c) = IPH_LEN c /\ iph_src (firstn 20 c) = iph_src c /\
  iph_dest (firstn 20 c) = iph_dest c /\ IPH_OFFSET (firstn 20 c) = IPH_OFFSET c /\ IPH_PROTO (firstn 20 c) = IPH_PROTO c.
Proof. intros H. do 20 (destruct c as [|? c]; [cbn in H; lia|]). repeat split; reflexivity. Qed.

(** ** What a packet has to be, read off its bytes *)

(** Numbers of 32 bits. *)
Definition word (a : Z) : Prop := 0 <= a < 4294967296.

(** All hosts, on an interface that can send to them: the limited broadcast
    address, its opposite, and the address of the network with all bits of the
    host set. *)
Definition broadcast_of (n : netif) (a : Z) : Prop :=
  a = 0 \/ a = 4294967295 \/
  Z.testbit (nf_flags n) 1 = true /\ a <> nf_ip_addr n /\
  forall i, 0 <= i < 32 -> Z.testbit a i = if Z.testbit (nf_netmask n) i then Z.testbit (nf_ip_addr n) i else true.

(** The interface is up, has an address, and is meant by [a]. *)
Definition takes (n : netif) (a : Z) : Prop :=
  Z.testbit (nf_flags n) 0 = true /\ nf_ip_addr n <> 0 /\ (a = nf_ip_addr n \/ broadcast_of n a).

(** The length a packet announces. *)
Definition announced (c : list Z) : Z := nth 2 c 0 * 256 + nth 3 c 0.

(** Version 4, a header within the first [len] bytes whose words sum up to
    65535, and all bytes that are announced. *)
Definition packet_sound (len : Z) (c : list Z) : Prop :=
  nth 0 c 0 / 16 = 4 /\ 0 < nth 0 c 0 mod 16 * 4 <= len /\ announced c <= Z.of_nat (length c) /\
  le_value (firstn (Z.to_nat (nth 0 c 0 mod 16 * 4)) c) mod 65535 = 0.

(** The source is one host, and the destination an interface that takes it. *)
Definition packet_for_us (netif_list : list netif) (inp : netif) (c : list Z) : Prop :=
  ~ broadcast_of inp (get32 c 12) /\ nth 12 c 0 / 16 <> 14 /\
  (takes inp (get32 c 16) \/ exists n, In n netif_list /\ nf_num n <> nf_num inp /\ takes n (get32 c 16)).

Lemma flag_bit f k : 0 <= k -> negb (Z.land f (2 ^ k) =? 0) = Z.testbit f k.
Proof.
  intros Hk. destruct (Z.testbit f k) eqn:E.
  - apply negb_true_iff, Z.eqb_neq. intros H. apply (f_equal (fun x => Z.testbit x k)) in H.
    rewrite Z.land_spec, E, Z.pow2_bits_true, Z.bits_0 in H by exact Hk. discriminate.
  - apply negb_false_iff, Z.eqb_eq, Z.bits_inj'. intros i Hi. rewrite Z.land_spec, Z.bits_0, Z.pow2_bits_eqb by exact Hk.
    destruct (Z.eqb_spec k i) as [<-|]; [now rewrite E|apply andb_false_r].
Qed.

Lemma high_bit a i : word a -> 32 <= i -> Z.testbit a i = false.
Proof.
  intros Ha Hi. destruct (Z.eq_dec a 0) as [->|]; [apply Z.bits_0|]. apply Z.bits_above_log2; [unfold word in Ha; lia|].
  apply Z.log2_lt_pow2; [unfold word in Ha; lia|]. apply Z.lt_le_trans with (2 ^ 32); [exact (proj2 Ha)|apply Z.pow_le_mono_r; lia].
Qed.

Lemma not32_bit m i : 0 <= i -> Z.testbit (not32 m) i = xorb (Z.testbit m i) (i <? 32).
Proof. intros Hi. unfold not32. rewrite Z.lxor_spec. f_equal. change 0xffffffff with (Z.ones 32). rewrite Z.testbit_ones by lia. destruct (Z.leb_spec 0 i); [reflexivity|lia]. Qed.

(** The two comparisons of the code, as one on the bits. *)
Lemma host_bits a ip m : word a -> word ip -> word m ->
  (Z.land a m = Z.land ip m /\ Z.land a (not32 m) = Z.land 0xffffffff (not32 m)) <->
  (forall i, 0 <= i < 32 -> Z.testbit a i = if Z.testbit m i then Z.testbit ip i else true).
Proof.
  intros Ha Hip Hm. split.
  - intros [H1 H2] i Hi. apply (f_equal (fun x => Z.testbit x i)) in H1, H2. rewrite !Z.land_spec, ?not32_bit in * by lia.
    change 0xffffffff with (Z.ones 32) in H2. rewrite Z.testbit_ones in H2 by lia. destruct (Z.leb_spec 0 i); [|lia]. destruct (Z.ltb_spec i 32); [|lia].
    destruct (Z.testbit m i), (Z.testbit a i), (Z.testbit ip i); auto.
  - intros H. split; apply Z.bits_inj'; intros i Hi; rewrite !Z.land_spec, ?not32_bit by lia; destruct (Z.ltb_spec i 32) as [Hl|Hl].
    + rewrite (H i) by lia. destruct (Z.testbit m i), (Z.testbit ip i); reflexivity.
    + now rewrite (high_bit m) by (auto; lia); rewrite !andb_false_r.
    + change 0xffffffff with (Z.ones 32). rewrite Z.testbit_ones by lia. destruct (Z.leb_spec 0 i); [|lia]. destruct (Z.ltb_spec i 32); [|lia].
      rewrite (H i) by lia. destruct (Z.testbit m i), (Z.testbit ip i); reflexivity.
    + rewrite (high_bit m) by (auto; lia). now rewrite !andb_false_r.
Qed.

Definition netif_words (n : netif) : Prop := word (nf_ip_addr n) /\ word (nf_netmask n).

Lemma isbroadcast_spec n a : netif_words n -> word a -> (isbroadcast a n = true <-> broadcast_of n a).
Proof.
  intros [Hip Hm] Ha. unfold isbroadcast, ip_addr_isbroadcast, broadcast_of, IP_ADDR_ANY_VALUE, ip_addr_netcmp. rewrite <- (host_bits a _ _ Ha Hip Hm).
  pose proof (flag_bit (nf_flags n) 1 ltac:(lia)) as Hf. change (2 ^ 1) with NETIF_FLAG_BROADCAST in Hf. rewrite <- Hf.
  assert (E0 : (not32 a =? 0) = (a =? 4294967295)).
  { apply eq_true_iff_eq. rewrite !Z.eqb_eq. unfold not32. now rewrite Z.lxor_eq_0_iff. }
  rewrite E0. destruct (Z.eqb_spec a 4294967295); [cbn; tauto|]. destruct (Z.eqb_spec a 0); [cbn; tauto|]. cbn [orb].
  destruct (Z.land (nf_flags n) NETIF_FLAG_BROADCAST =? 0); cbn [negb]; [split; [discriminate|intros [?|[?|[? _]]]; congruence]|].
  destruct (Z.eqb_spec a (nf_ip_addr n)); cbn [negb]; [split; [discriminate|intros [?|[?|(_ & ? & _)]]; congruence]|].
  destruct (Z.eqb_spec (Z.land a (nf_netmask n)) (Z.land (nf_ip_addr n) (nf_netmask n))) as [E1|E1]; cbn [andb].
  2: { split; [discriminate|]. intros [?|[?|(_ & _ & H & _)]]; congruence. }
  unfold IP_ADDR_BROADCAST_VALUE. destruct (Z.eqb_spec (Z.land a (not32 (nf_netmask n))) (Z.land 0xffffffff (not32 (nf_netmask n)))) as [E2|E2]; cbn [negb Z.eqb].
  - split; [intros _; right; right; auto|reflexivity].
  - split; [discriminate|]. intros [?|[?|(_ & _ & _ & H)]]; congruence.
Qed.

Lemma accepts_spec n a : netif_words n -> word a -> (netif_accepts n a = true <-> takes n a).
Proof.
  intros Hn Ha. unfold netif_accepts, takes, netif_is_up, ip_addr_isany. rewrite !andb_true_iff, orb_true_iff, (isbroadcast_spec n a Hn Ha).
  rewrite Z.eqb_eq, (negb_true_iff (nf_ip_addr n =? 0)), Z.eqb_neq. pose proof (flag_bit (nf_flags n) 0 ltac:(lia)) as Hf.
  change (2 ^ 0) with NETIF_FLAG_UP in Hf. rewrite Hf. tauto.
Qed.

Lemma multicast_spec b0 b1 b2 b3 : byte b0 -> byte b1 -> byte b2 -> byte b3 ->
  (ip_addr_ismulticast (le_value [b0; b1; b2; b3]) = true <-> b0 / 16 = 14).
Proof.
  intros H0 H1 H2 H3. unfold ip_addr_ismulticast. rewrite Z.eqb_eq. change (ntohl 0xf0000000) with 0xf0. change (ntohl 0xe0000000) with 0xe0.
  rewrite (land_field _ 4 4 0xf0) by (lia || reflexivity). cbn [le_value]. change (2 ^ 4) with 16. unfold byte in *.
  assert (E : (b0 + 256 * (b1 + 256 * (b2 + 256 * (b3 + 256 * 0)))) / 16 mod 16 = b0 / 16) by dlia. rewrite E. dlia.
Qed.

Lemma accepting_spec l inp a : Forall netif_words l -> word a ->
  (accepting l inp a <> None <-> exists n, In n l /\ nf_num n <> nf_num inp /\ takes n a).
Proof.
  intros Hl Ha. induction Hl as [|n l Hn Hl IH]; cbn [accepting]; [split; [now intros []|intros (? & [] & _)]|].
  destruct (Z.eqb_spec (nf_num n) (nf_num inp)) as [E|E]; [|destruct (netif_accepts n a) eqn:Ea].
  - rewrite IH. split; [intros (m & H1 & H2); exists m; split; [now right|exact H2]|].
    intros (m & [<-|H1] & H2 & H3); [contradiction|exists m; auto].
  - split; [|discriminate]. intros _. exists n. split; [now left|]. split; [exact E|now apply accepts_spec].
  - rewrite IH. split; [intros (m & H1 & H2); exists m; split; [now right|exact H2]|].
    intros (m & [<-|H1] & H2 & H3); [|exists m; auto]. apply accepts_spec in H3; [congruence|exact Hn|exact Ha].
Qed.

Lemma get32_word c i : Forall byte c -> word (get32 c i).
Proof.
  intros Hb. unfold word, get32. assert (Hs : Forall byte (bytes_at c i 4)) by (unfold bytes_at; apply Forall_take, Forall_drop, Hb).
  pose proof (le_value_bounds _ Hs) as H. assert (L : (length (bytes_at c i 4) <= 4)%nat) by (unfold bytes_at; rewrite length_firstn; lia).
  assert (Hp : forall k, (k <= 4)%nat -> p256 k <= 4294967296) by (intros k Hk; do 5 (destruct k as [|k]; [vm_compute; congruence|]); lia).
  pose proof (Hp _ L). lia.
Qed.

Lemma for_us_spec nl inp c : Forall netif_words nl -> netif_words inp -> Forall byte c -> (20 <= length c)%nat ->
  (ip_for_us nl inp c = true <-> packet_for_us nl inp c).
Proof.
  intros Hl Hi Hb Lc. unfold ip_for_us, packet_for_us, iph_src, iph_dest. pose proof (get32_word c 12 Hb) as W12. pose proof (get32_word c 16 Hb) as W16.
  rewrite andb_true_iff, negb_true_iff, orb_false_iff.
  assert (Hbr : isbroadcast (get32 c 12) inp = false <-> ~ broadcast_of inp (get32 c 12)).
  { rewrite <- (isbroadcast_spec inp _ Hi W12). destruct (isbroadcast (get32 c 12) inp); intuition congruence. }
  assert (Hmc : ip_addr_ismulticast (get32 c 12) = false <-> nth 12 c 0 / 16 <> 14).
  { clear - Hb Lc. do 16 (destruct c as [|? c]; [cbn in Lc; lia|]). unfold get32, bytes_at. cbn [firstn skipn nth].
    rewrite !Forall_cons in Hb. rewrite firstn_O. match goal with |- ip_addr_ismulticast (le_value [?b0; ?b1; ?b2; ?b3]) = _ <-> _ =>
      pose proof (multicast_spec b0 b1 b2 b3 ltac:(tauto) ltac:(tauto) ltac:(tauto) ltac:(tauto)) as H end.
    destruct (ip_addr_ismulticast _); intuition congruence. }
  assert (Hto : match input_netif nl inp (get32 c 16) with Some _ => true | None => false end = true <->
    takes inp (get32 c 16) \/ exists n, In n nl /\ nf_num n <> nf_num inp /\ takes n (get32 c 16)).
  { rewrite <- (accepts_spec inp _ Hi W16), <- (accepting_spec nl inp _ Hl W16). unfold input_netif.
    destruct (netif_accepts inp (get32 c 16)); [tauto|]. destruct (accepting nl inp (get32 c 16)).
    - split; [intros _; right; discriminate|reflexivity].
    - split; [discriminate|intros [H|H]; [discriminate|now contradiction H]]. }
  rewrite Hbr, Hmc, Hto. tauto.
Qed.

(** The fields at the begin of a header. *)
Lemma first_fields c : Forall byte c -> (4 <= length c)%nat ->
  IPH_V c = nth 0 c 0 / 16 /\ IPH_HL c = nth 0 c 0 mod 16 /\ ntohs (IPH_LEN c) = announced c.
Proof.
  intros Hb Lc. do 4 (destruct c as [|? c]; [cbn in Lc; lia|]). rewrite !Forall_cons in Hb. destruct Hb as (B0 & B1 & B2 & B3 & _).
  assert (Hsw : forall x y, byte x -> byte y -> ntohs (le_value [x; y]) = x * 256 + y).
  { intros x y Hx Hy. unfold ntohs. cbn [le_value]. unfold byte in *. rewrite Z.mul_0_r, Z.add_0_r, htons_of_bytes by lia. lia. }
  unfold IPH_V, IPH_HL, IPH_LEN, announced, get16, bytes_at. cbn [skipn firstn nth]. rewrite !firstn_O, !Hsw by assumption. split; [|split; [|reflexivity]].
  - rewrite Z.shiftr_div_pow2 by lia. change (2 ^ 12) with 4096. unfold byte in *. dlia.
  - rewrite Z.shiftr_div_pow2 by lia. change 0x0f with (Z.ones 4). rewrite Z.land_ones by lia. change (2 ^ 8) with 256. change (2 ^ 4) with 16. unfold byte in *. dlia.
Qed.

Lemma sound_spec len c : Forall byte c -> (20 <= length c)%nat -> (ip_sound len c = true <-> packet_sound len c).
Proof.
  intros Hb Lc. destruct (first_fields c Hb ltac:(lia)) as (E1 & E2 & E3). unfold ip_sound, packet_sound. rewrite E1, E2, E3. clear E1 E2 E3.
  rewrite !andb_true_iff, negb_true_iff, orb_false_iff, !Z.eqb_eq, !Z.ltb_ge.
  set (h := firstn _ c). assert (Hh : Forall byte h) by (unfold h; apply Forall_take, Hb).
  assert (Hl : Z.of_nat (length h) <= 65535) by (unfold h; rewrite length_firstn; pose proof (Z.mod_pos_bound (nth 0 c 0) 16 ltac:(lia)); lia).
  rewrite chksum_1_spec by assumption. pose proof (le_value_nonneg h Hh) as Hn. pose proof (canon_range (le_value h) Hn) as Hr.
  rewrite not16_value by lia.
  assert (Hx : 65535 - canon16 (le_value h) = 0 <-> le_value h mod 65535 = 0 /\ le_value h <> 0).
  { unfold canon16. destruct (Z.eqb_spec (le_value h) 0); [lia|]. dlia. }
  rewrite Hx. assert (Hv : nth 0 c 0 / 16 = 4 -> nth 0 c 0 mod 16 * 4 = 0 \/ le_value h <> 0).
  { intros Hv. destruct c as [|b0 c]; [cbn in Lc; lia|]. cbn [nth] in *. destruct (Z.eq_dec (b0 mod 16) 0) as [E|E]; [lia|right].
    unfold h. assert (exists k, Z.to_nat (b0 mod 16 * 4) = S k) as [k ->] by (exists (Z.to_nat (b0 mod 16 * 4 - 1)); pose proof (Z.mod_pos_bound b0 16); lia).
    cbn [firstn le_value]. pose proof (le_value_nonneg (firstn k c) ltac:(apply Forall_take; now inversion Hb)). inversion Hb; subst. unfold byte in *. dlia. }
  split.
  - intros ((H1 & H2 & H3) & H4 & H5). split; [exact H1|]. split; [|split; [exact H3|exact H4]]. split; [|exact H2].
    pose proof (Z.mod_pos_bound (nth 0 c 0) 16 ltac:(lia)). destruct (Z.eq_dec (nth 0 c 0 mod 16 * 4) 0) as [E|E]; [|lia].
    exfalso. apply H5. unfold h. now rewrite E.
  - intros (H1 & H2 & H3 & H4). split; [split; [exact H1|split; [lia|exact H3]]|]. split; [exact H4|]. destruct (Hv H1) as [E|E]; [lia|exact E].
Qed.

Section Input.
Context {W : Type} (junk : nat -> Z).
Variable output : netif -> addr -> Z -> store -> W -> M (Z * store * W).
Variable tcpip_callback : netif -> W -> M W.
Variables (netif_list : list netif) (netif_default : option netif).
Variables udp_input tcp_input : addr -> netif -> store -> ipstate W -> M (store * ipstate W).

(** A packet that has arrived, with its IP header in the first pbuf. *)
Record received (r : reass (ipstate W)) (p : addr) (x : pbuf) (l : list (addr * pbuf)) (o : Z) : Prop := Received
  { rv_head : own_head (re_store r) p x l o; rv_len : IP_HLEN <= pb_len x; rv_full : all_full ((p, x) :: l);
    rv_size : IP_HLEN <= ntohs (IPH_LEN (content (st_mem (re_store r)) ((p, x) :: l))) }.

Lemma ip_drop_spec (r : reass (ipstate W)) st1 p x l : chain (st_pbufs st1) (Some p) ((p, x) :: l) -> Forall (fun c => pb_ref (snd c) = 1) ((p, x) :: l) ->
  exists st', ip_drop p (set_re_store st1 r) = ret (set_re_store st' r) /\ removed (p :: addrs l) st1 st'.
Proof.
  intros Hc Hr. destruct (free_whole st1 p _ Hc Hr) as (k & st' & E & R). exists st'. split; [|exact R].
  unfold ip_drop. cbn [set_re_store re_store]. now rewrite E, bind_ret.
Qed.

(** The packet that the protocols get. *)
Definition ip_taken (r : reass (ipstate W)) (p : addr) (x : pbuf) (l : list (addr * pbuf)) (o : Z) (st' : store) (x' : pbuf) (l' : list (addr * pbuf)) : Prop :=
  let c := content (st_mem (re_store r)) ((p, x) :: l) in
  own_head st' p x' l' o /\ all_full ((p, x') :: l') /\ pb_len x' = Z.min (ntohs (IPH_LEN c)) (pb_len x) /\ total ((p, x') :: l') = ntohs (IPH_LEN c) /\
  content (st_mem st') ((p, x') :: l') = firstn (Z.to_nat (ntohs (IPH_LEN c))) c /\
  (forall b, In b (addrs l') -> In b (addrs l)) /\ untouched (p :: addrs l) (re_store r) st' /\
  (forall b, In b (addrs l) -> ~ In b (addrs l') -> st_pbufs st' !! b = None /\ st_mem st' !! b = None).

Lemma ip_input_spec r p x l o inp :
  received r p x l o ->
  let c := content (st_mem (re_store r)) ((p, x) :: l) in
  if ip_sound (pb_len x) c && ip_for_us netif_list inp c then
    exists st' x' l', ip_taken r p x l o st' x' l' /\
      ip_input junk output tcpip_callback netif_list netif_default udp_input tcp_input p inp r =
        (r <- ip_take junk output tcpip_callback netif_list netif_default udp_input tcp_input p (firstn 20 c) inp (set_re_store st' r);; ret (ERR_OK, r))
  else
    exists st', ip_input junk output tcpip_callback netif_list netif_default udp_input tcp_input p inp r = ret (ERR_OK, set_re_store st' r) /\
      removed (p :: addrs l) (re_store r) st'.
Proof.
  intros [Hh Hx Hf Hn] c. fold c in Hn. unfold IP_HLEN in Hx, Hn. pose proof (head_lengths _ _ _ _ _ Hh) as (Et & Hl & Hb).
  pose proof (oh_own _ _ _ _ _ Hh) as [[Hc Ht] Hv Hw Hr]. assert (Hr0 : set_re_store (re_store r) r = r) by now destruct r.
  assert (Lc : Z.of_nat (length c) = total ((p, x) :: l)) by exact (content_length _ _ Hv).
  assert (Hdrop : exists st', ip_drop p r = ret (set_re_store st' r) /\ removed (p :: addrs l) (re_store r) st').
  { destruct (ip_drop_spec r (re_store r) p x l Hc Hr) as (st' & E & R). rewrite Hr0 in E. eauto. }
  assert (Hd : exists st', (r0 <- ip_drop p r;; ret (ERR_OK, r0)) = ret (ERR_OK, set_re_store st' r) /\ removed (p :: addrs l) (re_store r) st').
  { destruct Hdrop as (st' & E & R). exists st'. now rewrite E, bind_ret. }
  unfold ip_input. rewrite (fetch_some _ _ _ (head_lookup _ _ _ _ _ Hh)), bind_ret, (head_load _ _ _ _ _ Hh 0 2), bind_ret by lia. fold c.
  rewrite (head_load _ _ _ _ _ Hh 2 2) by lia. fold c. change (Z.to_nat 2) with 2%nat. change (Z.to_nat 0) with 0%nat.
  fold (bytes_at c 0 2) (bytes_at c 2 2). change (le_value (bytes_at c 2 2)) with (IPH_LEN c).
  assert (Ef : IPH_V (bytes_at c 0 2) = IPH_V c /\ IPH_HL (bytes_at c 0 2) = IPH_HL c).
  { unfold IPH_V, IPH_HL, get16. replace (bytes_at (bytes_at c 0 2) 0 2) with (bytes_at c 0 2) by (unfold bytes_at; rewrite !drop_0, firstn_firstn; reflexivity). now split. }
  destruct Ef as [-> ->]. unfold ip_sound. destruct (IPH_V c =? 4); cbn [negb andb]; [|exact Hd].
  rewrite bind_ret. change (le_value (bytes_at c 2 2)) with (IPH_LEN c). rewrite Et, <- Lc.
  destruct ((pb_len x <? IPH_HL c * 4) || (Z.of_nat (length c) <? ntohs (IPH_LEN c))) eqn:Eb; cbn [negb andb]; [exact Hd|].
  apply orb_false_iff in Eb as [E1 E2]. apply Z.ltb_ge in E1, E2.
  assert (H0 : 0 <= IPH_HL c * 4) by (unfold IPH_HL; change 0x0f with (Z.ones 4); rewrite Z.land_ones by lia; pose proof (Z.mod_pos_bound (Z.shiftr (ntohs (get16 c 0)) 8) (2 ^ 4)); lia).
  rewrite (head_load _ _ _ _ _ Hh 0 (IPH_HL c * 4)), bind_ret by lia. fold c. change (Z.to_nat 0) with 0%nat. rewrite drop_0.
  set (hb := firstn (Z.to_nat (IPH_HL c * 4)) c). assert (Ecs : inet_chksum hb (IPH_HL c * 4) = ret (not16 (lwip_standard_chksum hb))).
  { unfold inet_chksum, LWIP_CHKSUM, hb. rewrite take_bytes_firstn, bind_ret, firstn_firstn, Nat.min_id, bind_ret by (rewrite length_firstn; lia). reflexivity. }
  rewrite Ecs, bind_ret. destruct (not16 (lwip_standard_chksum hb) =? 0); cbn [negb andb]; [|exact Hd].
  destruct (head_trim _ _ _ _ _ Hh (ntohs (IPH_LEN c))) as (st1 & x' & l' & Er & Hh' & Hf' & Hx' & Ht' & Hc' & Hi & Hu & Hg); [lia|exact Hf|].
  rewrite Er, bind_ret. cbn [re_store set_re_store]. fold c in Hc'. change (pb_payload x) with (pb_payload x).
  replace (pb_payload x) with (pb_payload x') by (rewrite (oh_payload _ _ _ _ _ Hh'), (oh_payload _ _ _ _ _ Hh); reflexivity).
  rewrite (head_load _ _ _ _ _ Hh' 0 IP_HLEN), bind_ret by (unfold IP_HLEN; lia). rewrite Hc'. change (Z.to_nat IP_HLEN) with 20%nat. change (Z.to_nat 0) with 0%nat.
  rewrite drop_0, firstn_firstn. replace (20 `min` Z.to_nat (ntohs (IPH_LEN c)))%nat with 20%nat by lia.
  destruct (header_fields c ltac:(lia)) as (_ & _ & _ & -> & -> & _ & _). unfold ip_for_us.
  assert (Hd2 : exists st', (r0 <- ip_drop p (set_re_store st1 r);; ret (ERR_OK, r0)) = ret (ERR_OK, set_re_store st' r) /\ removed (p :: addrs l) (re_store r) st').
  { pose proof (oh_own _ _ _ _ _ Hh') as [[Hc2 _] _ _ Hr2]. destruct (ip_drop_spec r st1 p x' l' Hc2 Hr2) as (st2 & E & [Ra Rb]). exists st2. rewrite E, bind_ret.
    split; [reflexivity|]. split; intros b Hb1.
    - destruct (in_dec Pos.eq_dec b (p :: addrs l')) as [Hin|Hin]; [now apply Ra|]. destruct (Rb b Hin) as [-> ->]. destruct Hb1 as [->|Hb1]; [exfalso; apply Hin; now left|].
      apply Hg; [exact Hb1|]. intros Hb2. apply Hin. now right.
    - destruct (Rb b) as [-> ->]; [|now apply Hu]. intros [->|Hb2]; apply Hb1; [now left|right; now apply Hi]. }
  destruct (isbroadcast (iph_src c) inp || ip_addr_ismulticast (iph_src c)); cbn [negb andb]; [exact Hd2|].
  destruct (input_netif netif_list inp (iph_dest c)); [|exact Hd2]. exists st1, x', l'. split; [|reflexivity]. repeat (split; [assumption|]). assumption.
Qed.
End Input.


Section Loop.
Context {W : Type} (held : W -> list addr) (handed : W -> list (netif * Z * list Z)).
Context (tcpip_callback : netif -> W -> M W) `{!Scheduler held handed tcpip_callback}.
Variable junk : nat -> Z.

(** The pbuf [r], in the queue in front of [nx], holds the packet [bs]. *)
Definition queued (st : store) (r : addr) (nx : option addr) (bs : list Z) : Prop :=
  let y := loop_pbuf r (Z.of_nat (length bs)) in
  st_pbufs st !! r = Some (with_next y nx) /\ bytes_of (st_mem st) y = bs /\
  PBUF_LINK_HLEN + Z.of_nat (length bs) <= Z.of_nat (length (block (st_mem st) r)) /\ 0 < Z.of_nat (length bs) < 65536.

(** The pbufs [q], linked in this order, hold the packets [bss]. *)
Fixpoint queue (st : store) (q : list addr) (bss : list (list Z)) : Prop :=
  match q, bss with
  | [], [] => True
  | r :: q', bs :: bss' => queued st r (head q') bs /\ queue st q' bss'
  | _, _ => False
  end.

Lemma queued_step st st' r nx nx' bs :
  queued st r nx bs -> st_pbufs st' !! r = Some (with_next (loop_pbuf r (Z.of_nat (length bs))) nx') -> st_mem st' !! r = st_mem st !! r ->
  queued st' r nx' bs.
Proof.
  intros (Q1 & Q2 & Q3 & Q4) Hp Hm. unfold queued in *.
  rewrite (owned_block _ r _ PBUF_LINK_HLEN) in Q2 by reflexivity. rewrite (owned_block _ r _ PBUF_LINK_HLEN) by reflexivity.
  unfold block in *. rewrite Hm. auto.
Qed.

Lemma queue_agree st st' q bss : agree st st' q -> queue st q bss -> queue st' q bss.
Proof.
  revert bss. induction q as [|r q IH]; intros [|bs bss] Ha; auto. intros [Hq Hr]. split; [|apply IH; [intros b Hb; apply Ha; now right|exact Hr]].
  destruct (Ha r (or_introl eq_refl)) as [P M]. apply (queued_step st _ _ _ _ _ Hq); [rewrite P; apply Hq|exact M].
Qed.

(** A packet is appended. *)
Lemma queue_snoc st st' q bss r bs :
  queue st q bss -> List.NoDup q ->
  (forall b x, In b q -> st_pbufs st !! b = Some x ->
     st_pbufs st' !! b = Some (if bool_decide (last q = Some b) then with_next x (Some r) else x) /\ st_mem st' !! b = st_mem st !! b) ->
  queued st' r None bs -> queue st' (q ++ [r]) (bss ++ [bs]).
Proof.
  revert bss. induction q as [|a q IH]; intros [|b0 bss] Hq Hnd Hl Hr; try contradiction; [now split|].
  destruct Hq as [Hqa Hq]. inversion Hnd as [|? ? Hna Hnd']; subst. destruct (Hl a _ (or_introl eq_refl) (proj1 Hqa)) as [Pa Ma]. cbn [app queue]. split.
  - apply (queued_step st _ _ _ _ _ Hqa); [|exact Ma]. rewrite Pa. destruct q as [|c q]; [now rewrite bool_decide_eq_true_2|].
    rewrite bool_decide_eq_false_2; [reflexivity|]. intros E. apply Hna. apply last_Some in E as [k E]. destruct k as [|k0 k]; cbn in E; [discriminate|]. injection E as -> E.
    rewrite E. apply in_app_iff. right. now left.
  - apply IH; [exact Hq|exact Hnd'| |exact Hr]. intros b x Hb Hx. destruct (Hl b x (or_intror Hb) Hx) as [P M]. split; [|exact M]. rewrite P. destruct q; [destruct Hb|reflexivity].
Qed.

(** The queue of the interface [n]. *)
Definition loop_queue (st : store) (s : ipstate W) (n : netif) (bss : list (list Z)) : Prop := queue st (loop_of n s) bss.

Lemma loop_NoDup st s n : accounted (ip_held held) st s -> List.NoDup (loop_of n s).
Proof.
  intros Hac. destruct (accounted_parts _ _ _ Hac) as (_ & Hn & _). destruct (loop_pbufs_split n s) as (others & E & _).
  apply (Permutation_NoDup E), NoDup_app_remove_r in Hn. exact Hn.
Qed.

Lemma loop_put n p l st s bss :
  outgoing held st s p l -> loop_queue st s n bss ->
  surely (netif_loop_output junk tcpip_callback n p st s)
    (fun '(err, st', s') => evolves (ip_held held) [] st s st' s' /\
       ((err = ERR_MEM /\ s' = s) \/ (err = ERR_OK /\ loop_queue st' s' n (bss ++ [content (st_mem st) l])))).
Proof.
  intros Hog Hq. eapply surely_weaken; [exact (loop_output_spec held handed tcpip_callback junk n p l st s Hog)|].
  intros [[err st'] s'] [Hev [H|(He & _ & r & Er & Hln & _ & Hr & Ec)]]; split; [exact Hev|now left|exact Hev|right]. split; [exact He|].
  unfold loop_queue. rewrite Er. pose proof Hog as [[[Hc Ht] Hv _ _] Hf Hac _]. pose proof (content_length _ _ Hv) as Lc.
  apply (queue_snoc st); [exact Hq|exact (loop_NoDup _ _ _ Hac)|exact Hln|]. rewrite <- Lc in Hr, Ec. pose proof Hr as [_ _ _ _ Hbl]. cbn [content] in Ec. rewrite app_nil_r in Ec.
  split; [exact (head_lookup _ _ _ _ _ Hr)|]. split; [exact Ec|]. split; [exact Hbl|]. rewrite Lc.
  destruct l as [|[a x] l]; [inversion Hc|]. destruct Ht as (Et & _ & _ & Hm & _). split; [|lia]. apply full_total; [exact Hf|discriminate].
Qed.

(** The first packet is taken. *)
Lemma loop_take n p q bs bss (r : reass (ipstate W)) :
  loop_of n (re_world r) = p :: q -> List.NoDup (p :: q) -> loop_queue (re_store r) (re_world r) n (bs :: bss) ->
  exists st', dequeue n p r = ret (with_re_store st' (set_loop n q (re_world r)) r) /\
    loop_queue st' (set_loop n q (re_world r)) n bss /\
    own_head st' p (loop_pbuf p (Z.of_nat (length bs))) [] PBUF_LINK_HLEN /\ content (st_mem st') [(p, loop_pbuf p (Z.of_nat (length bs)))] = bs /\
    untouched [p] (re_store r) st'.
Proof.
  intros Eq Hnd Hq. unfold loop_queue in *. rewrite Eq in Hq. destruct Hq as [Hp Hq]. pose proof Hp as (P1 & P2 & P3 & P4).
  inversion Hnd as [|? ? Hn Hnd']; subst. set (y := loop_pbuf p (Z.of_nat (length bs))) in *. set (st := re_store r) in *.
  exists (set_pbuf p y st). split.
  - unfold dequeue. rewrite Eq. fold st. unfold walk_fuel. cbn [packet_end]. rewrite (fetch_some _ _ _ P1), bind_ret. cbn [with_next pb_len pb_tot_len y loop_pbuf].
    rewrite Z.eqb_refl, bind_ret. cbn [last]. rewrite (fetch_some _ _ _ P1), bind_ret. destruct q as [|c q].
    + rewrite bool_decide_eq_true_2 by reflexivity. now rewrite bind_ret.
    + rewrite bool_decide_eq_false_2.
      2: { intros E. apply Hn. apply last_Some in E as [k E]. destruct k as [|k0 k]; cbn in E; [discriminate|]. injection E as _ E. rewrite E. apply in_app_iff. right. now left. }
      cbn [pb_next with_next head]. rewrite bool_decide_eq_true_2 by discriminate. unfold lwip_assert. now rewrite !bind_ret.
  - assert (Hu : untouched [p] st (set_pbuf p y st)).
    { intros b Hb. cbn. split; [|reflexivity]. apply lookup_insert_ne. intros ->. apply Hb. now left. }
    split; [|split; [|split; [|exact Hu]]].
    + unfold loop_of. cbn [set_loop ip_loop]. rewrite lookup_insert_eq. cbn [default]. apply (queue_agree st); [|exact Hq].
      apply (untouched_agree [p]); [exact Hu|]. intros b Hb [<-|[]]. exact (Hn Hb).
    + assert (Hval : valid (st_mem st) y) by (split; cbn; [lia|intros _; unfold PBUF_LINK_HLEN in *; lia]).
      constructor; [|reflexivity|reflexivity|unfold PBUF_LINK_HLEN; lia|exact P3]. constructor.
      * split; [constructor; [apply lookup_insert_eq|constructor]|]. cbn. lia.
      * constructor; [exact Hval|constructor].
      * constructor; [now exists PBUF_LINK_HLEN|constructor].
      * constructor; [reflexivity|constructor].
    + cbn [content]. rewrite app_nil_r. exact P2.
Qed.
End Loop.
