(* ===== verification/IpTheorems.v ===== *)
(** * lwIP: the properties of IP and ICMP *)
From Stdlib Require Import ZArith List Lia Bool.
From stdpp Require Import base gmap list.
From S2P Require Import Prelude CMonad Pbuf PbufChain PbufData PbufEdit PbufAlloc.
From S2P Require Import Inet InetChksum ChksumSpec Netif IpHdr Frames Driver IpReass.
From S2P Require Import IpReassMem IpReassInv IpReassTheorems IpFrag IpFragSpec.
From S2P Require Import PacketEdit IpOut IpOutSpec Icmp EchoSpec IpIn IpInSpec.
#[local] Open Scope Z_scope.
#[local] Open Scope cmonad_scope.

(** ** A host for the examples *)

Definition toy_callback (n : netif) (w : log) : M log := ret w.
Definition no_pbufs (w : log) : list addr := [].

#[export] Instance toy_scheduler : Scheduler no_pbufs (fun w => w) toy_callback.
Proof. intros n w. now apply surely_ret. Qed.

#[export] Instance toy_driver : Driver no_pbufs (fun w => w) log_output := log_driver.

(** 10.0.0.1 with the mask 255.255.255.0 *)
Definition toy_host : netif := Netif (get32 [10; 0; 0; 1] 0) (get32 [255; 255; 255; 0] 0) 0 1500 6 [2; 0; 0; 0; 0; 1] 0x03 0.

Definition toy_state : ipstate log := IpState 7 ∅ [].

Definition toy_echo (data : list Z) : list Z :=
  let m := [8; 0; 0; 0; 1; 2; 0; 9] ++ data in splice m 2 (field16 (not16 (lwip_standard_chksum m))).

(** An echo request from 10.0.0.2, with two bytes of padding. *)
Definition toy_ping : list Z := Eval vm_compute in
  checked (new_header (get32 [10; 0; 0; 2] 0) (get32 [10; 0; 0; 1] 0) 64 0 IP_PROTO_ICMP 32 1) ++ toy_echo [97; 98; 99; 100] ++ [0; 0].

Definition toy_world (bs : list Z) : reass (ipstate log) := Reass [] 0 (toy_put 1%positive bs (Store ∅ ∅)) toy_state.

Lemma toy_head bs : 20 <= Z.of_nat (length bs) < 65536 ->
  own_head (re_store (toy_world bs)) 1%positive (toy_pbuf 1%positive bs) [] 14 /\
  content (st_mem (re_store (toy_world bs))) [(1%positive, toy_pbuf 1%positive bs)] = bs.
Proof.
  intros H. assert (Hw : whole_packet (re_store (toy_world bs)) 1%positive (toy_pbuf 1%positive bs) []).
  { eapply whole_single; [apply lookup_insert_eq|cbn [re_store toy_world toy_put st_mem]; apply lookup_insert_eq|lia| |exact H|reflexivity|lia].
    rewrite length_app, repeat_length. lia. }
  split.
  - constructor; [exact (whole_own _ _ _ _ Hw)|reflexivity|reflexivity|lia|]. cbn [re_store toy_world toy_put st_mem toy_pbuf pb_len].
    unfold block. rewrite lookup_insert_eq. cbn [default]. rewrite length_app, repeat_length. lia.
  - cbn [content]. rewrite app_nil_r. unfold bytes_of, block. cbn [toy_pbuf pb_payload pb_len re_store toy_world toy_put st_mem]. rewrite lookup_insert_eq.
    cbn [default]. rewrite skipn_app, skipn_all2 by (rewrite repeat_length; lia). rewrite repeat_length. cbn [app]. change (Z.to_nat 14 - 14)%nat with 0%nat.
    rewrite drop_0, Nat2Z.id, firstn_all. reflexivity.
Qed.

Lemma toy_accounted bs : accounted (ip_held no_pbufs) (re_store (toy_world bs)) toy_state.
Proof. split; [constructor|intros b []]. Qed.

(** ** Echo requests *)

Section Ping.
Context {W : Type} (held : W -> list addr) (handed : W -> list (netif * Z * list Z)).
Context (output : netif -> addr -> Z -> store -> W -> M (Z * store * W)) `{!Driver held handed output}.
Context (tcpip_callback : netif -> W -> M W) `{!Scheduler held handed tcpip_callback}.
Variables (junk : nat -> Z) (netif_list : list netif) (netif_default : option netif).
Variables udp_input tcp_input : addr -> netif -> store -> ipstate W -> M (store * ipstate W).

(** A packet [c] with an echo request for us: not a fragment, without IP
    options, its first pbuf with the IP and ICMP headers. *)
Record echo_request (inp : netif) (len : Z) (c : list Z) : Prop := EchoRequest
  { er_sound : ip_sound len c = true; er_for_us : ip_for_us netif_list inp c = true; er_hl : IPH_HL c = 5;
    er_whole : Z.land (IPH_OFFSET c) (htons (Z.lor IP_OFFMASK IP_MF)) = 0; er_proto : IPH_PROTO c = IP_PROTO_ICMP;
    er_len : 28 <= len; er_bytes : Forall byte c; er_size : 28 <= ntohs (IPH_LEN c) < 65522;
    er_fits : 0 <= nf_mtu inp /\ (nf_mtu inp = 0 \/ ntohs (IPH_LEN c) <= nf_mtu inp);
    er_answered : answered inp (firstn (Z.to_nat (ntohs (IPH_LEN c))) c) = true }.

(** What the IP layer hands over has all that the answer needs. *)
Lemma request_arrives r p x l o inp st1 x1 l1 :
  received r p x l o -> accounted (ip_held held) (re_store r) (re_world r) ->
  (forall b, In b (p :: addrs l) -> ~ In b (ip_held held (re_world r))) ->
  let c := content (st_mem (re_store r)) ((p, x) :: l) in
  echo_request inp (pb_len x) c -> ip_taken r p x l o st1 x1 l1 -> arrived held inp st1 (re_world r) p x1 l1 o.
Proof.
  intros Hrv Hac Hfr c [_ _ Hhl _ _ Hlen Hby Hsz [Hm0 Hm] _] (Hh & Hf & Hx & Ht & Hc & Hi & Hu & _). fold c in Hx, Ht, Hc.
  set (n := ntohs (IPH_LEN c)) in *. constructor; auto; rewrite ?Hc.
  - lia.
  - now inversion Hf.
  - rewrite <- Hhl. unfold IPH_HL, get16, bytes_at. rewrite skipn_firstn_comm, firstn_firstn. do 5 f_equal. lia.
  - rewrite List.Forall_forall in *. intros b Hb. apply Hby. rewrite <- (firstn_skipn (Z.to_nat n) c). apply in_app_iff. now left.
  - lia.
  - unfold sendable. rewrite Ht. tauto.
  - exact (accounted_untouched _ _ _ _ _ Hu Hfr Hac).
  - intros b [<-|Hb]; apply Hfr; [now left|right; auto].
Qed.

(** C27: An echo request that arrives is answered: whatever the memory does, it
    is freed, the list of fragments stays as it is, and the reply to it, cut to
    the announced length, goes to its source through the interface it came
    from; only if there is no room for the headers in front of it and no
    memory for a copy nothing is sent.  Nothing else in the system changes. *)
Theorem ping_answered r p x l o inp :
  received r p x l o -> accounted (ip_held held) (re_store r) (re_world r) ->
  (forall b, In b (p :: addrs l) -> ~ In b (ip_held held (re_world r))) ->
  let c := content (st_mem (re_store r)) ((p, x) :: l) in
  echo_request inp (pb_len x) c ->
  surely (ip_input junk output tcpip_callback netif_list netif_default udp_input tcp_input p inp r)
    (fun '(e, r') => e = ERR_OK /\ reassdatagrams r' = reassdatagrams r /\ ip_reass_pbufcount r' = ip_reass_pbufcount r /\
       evolves (ip_held held) (p :: addrs l) (re_store r) (re_world r) (re_store r') (re_world r') /\
       ((o < 14 /\ re_world r' = re_world r) \/
        sent handed inp (get32 c 12) (echo_reply (firstn (Z.to_nat (ntohs (IPH_LEN c))) c)) (re_world r) (re_store r') (re_world r'))).
Proof.
  intros Hrv Hac Hfr c Hrq. pose proof Hrq as [Hso Hus _ Hwh Hpr _ _ Hsz _ Han].
  pose proof (ip_input_spec junk output tcpip_callback netif_list netif_default udp_input tcp_input r p x l o inp Hrv) as Hin.
  cbv zeta in Hin. fold c in Hin. rewrite Hso, Hus in Hin. destruct Hin as (st1 & x1 & l1 & Htk & E). rewrite E. clear E.
  pose proof (request_arrives r p x l o inp st1 x1 l1 Hrv Hac Hfr Hrq Htk) as Har. destruct Htk as (_ & _ & _ & _ & Hc & Hi & Hu & Hg). fold c in Hc.
  pose proof Hrv as [Hh0 Hx0 _ _]. unfold IP_HLEN in Hx0.
  assert (Lc : (20 <= length c)%nat) by (destruct (head_bytes _ _ _ _ _ Hh0) as [Ec Lb]; fold c in Ec; rewrite Ec, length_app; lia).
  destruct (header_fields c Lc) as (_ & _ & _ & _ & _ & Eoff & Epro). set (n := ntohs (IPH_LEN c)) in *. set (d := firstn (Z.to_nat n) c) in *.
  unfold ip_take. rewrite Eoff, Hwh. cbn [Z.eqb negb]. unfold ip_deliver. rewrite Epro, Hpr. cbn [IP_PROTO_ICMP IP_PROTO_UDP IP_PROTO_TCP Z.eqb Pos.eqb].
  cbn [re_store re_world set_re_store]. eapply surely_bind; [|intros r' Hr'; apply surely_ret; exact (conj eq_refl Hr')].
  eapply surely_bind; [exact (icmp_input_spec held handed output tcpip_callback junk inp st1 p x1 l1 o (re_world r) Har)|].
  intros [st' s'] [Hev Hres]. apply surely_ret. cbn [with_re_store reassdatagrams ip_reass_pbufcount re_store re_world set_re_store].
  split; [reflexivity|]. split; [reflexivity|]. split.
  - exact (evolves_trimmed _ _ _ _ _ Hh0 _ st1 l1 _ _ _ Hu Hi Hg Hfr Hev).
  - cbv zeta in Hres. rewrite Hc, Han in Hres. replace (get32 d 12) with (get32 c 12) in Hres; [exact Hres|].
    unfold get32, bytes_at, d. rewrite skipn_firstn_comm, firstn_firstn. do 2 f_equal. lia.
Qed.
End Ping.

Lemma toy_request : echo_request [toy_host] toy_host 34 toy_ping.
Proof.
  constructor; try reflexivity; try (vm_compute; split; congruence); [lia|bytes_tac|]. split; [cbn; lia|]. right. vm_compute. congruence.
Qed.

Lemma toy_ping_received : received (toy_world toy_ping) 1%positive (toy_pbuf 1%positive toy_ping) [] 14.
Proof.
  destruct (toy_head toy_ping ltac:(cbn; lia)) as [Hh _]. constructor; [exact Hh|vm_compute; congruence|now constructor|vm_compute; congruence].
Qed.

Lemma ping_answered_witness :
  surely (ip_input (fun _ => 0) log_output toy_callback [toy_host] None (fun _ _ st s => ret (st, s)) (fun _ _ st s => ret (st, s)) 1%positive toy_host
            (toy_world toy_ping))
    (fun '(e, r') => e = ERR_OK /\ reassdatagrams r' = [] /\ ip_reass_pbufcount r' = 0 /\
       evolves (ip_held no_pbufs) [1%positive] (re_store (toy_world toy_ping)) toy_state (re_store r') (re_world r') /\
       ((14 < 14 /\ re_world r' = toy_state) \/
        sent (fun w => w) toy_host (get32 [10; 0; 0; 2] 0) (echo_reply (firstn 32 toy_ping)) toy_state (re_store r') (re_world r'))).
Proof.
  pose proof (ping_answered no_pbufs (fun w => w) log_output toy_callback (fun _ => 0) [toy_host] None (fun _ _ st s => ret (st, s)) (fun _ _ st s => ret (st, s))
    (toy_world toy_ping) 1%positive (toy_pbuf 1%positive toy_ping) [] 14 toy_host toy_ping_received (toy_accounted toy_ping) (fun b _ H => H)) as H.
  exact (H toy_request).
Defined.

(** The specification of the reply, [echo_reply]: it has the length of the request, its addresses switched, TTL
    255, the other fields of the header and all data as they were, the type of
    a reply, and a header checksum that verifies.  If the request's message
    verifies then so does the reply's, whose checksum was only adjusted,
    unless all its bytes are zero. *)
Theorem echo_reply_correct d :
  (28 <= length d)%nat -> Z.of_nat (length d) <= 65535 -> Forall byte d -> le_value (bytes_at d 20 1) = ICMP_ECHO ->
  not16 (lwip_standard_chksum (skipn 20 d)) = 0 ->
  let q := echo_reply d in
  length q = length d /\ get32 q 12 = get32 d 16 /\ get32 q 16 = get32 d 12 /\
  bytes_at q 8 2 = field16 (htons (Z.lor (IPH_PROTO d) (Z.shiftl 255 8))) /\
  (forall i n, (i + n <= 8)%nat -> bytes_at q i n = bytes_at d i n) /\ inet_chksum (firstn 20 q) IP_HLEN = ret 0 /\
  nth 20 q 0 = ICMP_ER /\ nth 21 q 0 = nth 21 d 0 /\ skipn 24 q = skipn 24 d /\
  Forall byte (skipn 20 q) /\ (not16 (lwip_standard_chksum (skipn 20 q)) = 0 <-> ~ Forall (eq 0) (skipn 20 q)).
Proof.
  intros Hl Hmax Hb He Hc q. destruct (echo_reply_parts d Hl) as (E1 & E2 & E3). fold q in E1, E2, E3.
  assert (L20 : length (firstn 20 d) = 20%nat) by (rewrite length_firstn; lia).
  assert (Hb20 : Forall byte (firstn 20 d) /\ Forall byte (skipn 24 d)).
  { rewrite <- (firstn_skipn 20 d) in Hb. apply Forall_app in Hb as [H1 H2]. split; [exact H1|]. rewrite <- (firstn_skipn 4 (skipn 20 d)) in H2.
    apply Forall_app in H2 as [_ H2]. now rewrite skipn_skipn in H2. }
  assert (Hq : q = checked (reply_header (firstn 20 d)) ++ skipn 20 q) by (rewrite <- E1; symmetry; apply firstn_skipn).
  pose proof (checked_length _ (reply_header_length _ L20)) as Lh.
  assert (Hat : forall i n, (i + n <= 20)%nat -> bytes_at q i n = bytes_at (checked (reply_header (firstn 20 d))) i n /\ bytes_at (firstn 20 d) i n = bytes_at d i n).
  { intros i n Hi. unfold bytes_at. rewrite <- E1, !skipn_firstn_comm, !firstn_firstn. split; do 1 f_equal; lia. }
  split; [exact E3|]. split; [|split; [exact (reply_dest d Hl)|]].
  { unfold get32. rewrite (proj1 (Hat 12%nat 4%nat ltac:(lia))). unfold checked. generalize (not16 (lwip_standard_chksum (reply_header (firstn 20 d)))). intros v.
    clear - Hl. do 28 (destruct d as [|? d]; [cbn in Hl; lia|]). reflexivity. }
  split. { rewrite (proj1 (Hat 8%nat 2%nat ltac:(lia))), (reply_ttl _ L20). destruct (header_fields d ltac:(lia)) as (_ & _ & _ & _ & _ & _ & ->). reflexivity. }
  split. { intros i n Hi. destruct (Hat i n ltac:(lia)) as [-> <-]. now apply reply_keeps. }
  split. { rewrite E1. now apply reply_header_verifies. }
  assert (H24 : nth 20 q 0 = ICMP_ER /\ nth 21 q 0 = nth 21 d 0 /\ skipn 24 q = skipn 24 d).
  { rewrite Hq, E2. generalize (checked (reply_header (firstn 20 d))) Lh. intros h Lh'. twenty h Lh'. cbn [app nth skipn field16]. rewrite drop_0. auto. }
  destruct H24 as (H20 & H21 & H24). split; [exact H20|]. split; [exact H21|]. split; [exact H24|].
  rewrite (request_parts d Hl Hb He) in Hc. rewrite E2. apply adjusted_checks; [| |exact (proj2 Hb20)|rewrite length_skipn; lia|exact Hc].
  - rewrite List.Forall_forall in Hb. apply Hb, nth_In. lia.
  - assert (Hw : Forall byte (bytes_at d 22 2)).
    { rewrite List.Forall_forall in *. intros b Hin. apply Hb. rewrite <- (firstn_skipn 22 d). apply in_app_iff. right.
      rewrite <- (firstn_skipn 2 (skipn 22 d)). apply in_app_iff. now left. }
    unfold get16. pose proof (le_value_bounds _ Hw) as Hv. assert (Lw : length (bytes_at d 22 2) = 2%nat) by (unfold bytes_at; rewrite length_firstn, length_skipn; lia).
    rewrite Lw in Hv. change (p256 2) with 65536 in Hv. lia.
Qed.

Lemma echo_reply_correct_witness :
  let d := firstn 32 toy_ping in let q := echo_reply d in
  length q = 32%nat /\ get32 q 12 = get32 [10; 0; 0; 1] 0 /\ get32 q 16 = get32 [10; 0; 0; 2] 0 /\
  bytes_at q 8 2 = [255; 1] /\
  (forall i n, (i + n <= 8)%nat -> bytes_at q i n = bytes_at d i n) /\ inet_chksum (firstn 20 q) IP_HLEN = ret 0 /\
  nth 20 q 0 = ICMP_ER /\ nth 21 q 0 = 0 /\ skipn 24 q = [1; 2; 0; 9; 97; 98; 99; 100] /\
  Forall byte (skipn 20 q) /\ (not16 (lwip_standard_chksum (skipn 20 q)) = 0 <-> ~ Forall (eq 0) (skipn 20 q)).
Proof. apply (echo_reply_correct (firstn 32 toy_ping)); [cbn; lia|cbn; lia|bytes_tac|reflexivity|vm_compute; reflexivity]. Defined.

(** ** Sending *)

(** C28: [ip_output] sends a packet with room for a header through the interface
    that the route gives: with the 20 bytes of the header in front of it, which
    have the next identification, the given fields, the address of the
    interface if there is no source, and a checksum that verifies.  A packet for
    the interface itself gets into its queue and the answer is [ERR_OK], or the
    answer is [ERR_MEM] and it does not; one that fits the MTU goes to the
    driver whole, who answers; of any other one the driver gets the fragments
    in order, all of them if the answer is [ERR_OK] and a part if it is
    [ERR_MEM].  If memory does not run out, the whole packet is sent.  Once it
    is released nothing of it is left.  Without a route the answer is [ERR_RTE]
    and nothing happens. *)
Theorem ip_output_correct {W} (held : W -> list addr) handed output (Hd : Driver held handed output) callback (Hs : Scheduler held handed callback)
    junk nl dflt p x l o src dest ttl tos proto st s :
  0 <= ttl < 256 -> 0 <= tos < 256 -> 0 <= proto < 256 ->
  match ip_route nl dflt dest with
  | None => ip_output junk output callback nl dflt p src dest ttl tos proto st s = ret (ERR_RTE, st, s)
  | Some n =>
      ready held n st s p x l o ->
      let c := content (st_mem st) ((p, x) :: l) in
      let hdr := checked (new_header (source_of src n) dest ttl tos proto (Z.of_nat (length c) + IP_HLEN) (ip_id s)) in
      let run := '(e, st, s) <- ip_output junk output callback nl dflt p src dest ttl tos proto st s;; '(_, st) <- pbuf_free (Some p) st;; ret (e, st, s) in
      surely run
        (fun '(err, st', s') => evolves (ip_held held) (p :: addrs l) st s st' s' /\ dispatched handed n dest (hdr ++ c) (next_id s) err st' s') /\
      ((forall n p dest st w, thrifty (output n p dest st w)) -> (forall n w, thrifty (callback n w)) ->
       runs NoFail run
         (fun '(_, st', s') => evolves (ip_held held) (p :: addrs l) st s st' s' /\ posted handed n dest (hdr ++ c) (next_id s) st' s') no_err) /\
      inet_chksum hdr IP_HLEN = ret 0
  end.
Proof.
  intros Ht Hto Hp. unfold ip_output. destruct (ip_route nl dflt dest) as [n|]; [|reflexivity]. intros Hrd.
  destruct (output_code_spec held handed output callback junk p x l o src dest ttl tos proto n st s Hrd Ht Hto Hp) as [H1 H2].
  split; [exact H1|]. split; [exact H2|apply new_header_verifies].
Qed.

Definition toy_datagram : list Z := [1; 2; 3; 4; 5; 6; 7; 8; 9; 10; 11; 12; 13; 14; 15; 16; 17; 18; 19; 20].

(** A pbuf as [pbuf_alloc] makes it, with room for the headers. *)
Definition toy_out : pbuf := Pbuf None (Some (1%positive, 34)) 20 20 PBUF_RAM 0 1.
Definition toy_out_store : store := Store {[ 1%positive := toy_out ]} {[ 1%positive := repeat 0 34 ++ toy_datagram ]}.

Lemma toy_ready : ready no_pbufs toy_host toy_out_store toy_state 1%positive toy_out [] 34.
Proof.
  constructor; [|unfold IP_HLEN; lia|apply List.Forall_nil|vm_compute; reflexivity|vm_compute; congruence|right; left; vm_compute; congruence|split; [constructor|intros b []]|intros b _ []].
  constructor; [|reflexivity|reflexivity|lia|vm_compute; congruence]. apply (whole_own _ _ toy_out []).
  eapply whole_single; [reflexivity|reflexivity|lia|vm_compute; congruence|lia|reflexivity|lia].
Qed.

(** The driver of the examples needs no memory. *)
Lemma log_thrifty n p dest st w : thrifty (log_output n p dest st w).
Proof.
  unfold log_output. apply thrifty_bind; [|thrifty]. generalize (walk_fuel st) as fuel, (Some p) as q. intros fuel.
  induction fuel as [|fuel IH]; intros [q|]; cbn [packet_bytes]; thrifty.
Qed.

Lemma ip_output_correct_witness :
  runs NoFail ('(e, st, s) <- ip_output (fun _ => 0) log_output toy_callback [toy_host] None 1%positive None (get32 [10; 0; 0; 2] 0) 64 0 17 toy_out_store toy_state;;
          '(_, st) <- pbuf_free (Some 1%positive) st;; ret (e, st, s))
    (fun '(_, st', s') => evolves (ip_held no_pbufs) [1%positive] toy_out_store toy_state st' s' /\
       posted (fun w => w) toy_host (get32 [10; 0; 0; 2] 0)
         (checked (new_header (get32 [10; 0; 0; 1] 0) (get32 [10; 0; 0; 2] 0) 64 0 17 40 7) ++ toy_datagram) (next_id toy_state) st' s') no_err.
Proof.
  pose proof (ip_output_correct no_pbufs (fun w => w) log_output _ toy_callback _ (fun _ => 0) [toy_host] None 1%positive toy_out [] 34 None
    (get32 [10; 0; 0; 2] 0) 64 0 17 toy_out_store toy_state ltac:(lia) ltac:(lia) ltac:(lia)) as H.
  vm_compute (ip_route _ _ _) in H. destruct (H toy_ready) as (_ & H1 & _). exact (H1 log_thrifty (fun n w => thrifty_ret w)).
Defined.

(** ** Messages *)

(** C30: [icmp_dest_unreach] and [icmp_time_exceeded] send the source of a
    packet the message of their type: the header and the first eight bytes
    behind it after eight bytes with type, code and a checksum that verifies,
    in a packet of its own through the interface of the route.  The message is
    sent if there is a route and memory does not run out; at most it is sent
    otherwise.  The packet stays, and so does everything else
    (so the reassembly of fragments can rely on it). *)
Theorem icmp_message_correct {W} (held : W -> list addr) handed output (Hd : Driver held handed output) callback (Hs : Scheduler held handed callback)
    junk nl dflt p x l type code st s :
  Forall usable nl -> (forall d, dflt = Some d -> usable d) ->
  own_packet st p ((p, x) :: l) -> 28 <= pb_len x -> (forall b, In b (p :: addrs l) -> ~ In b (ip_held held s)) -> accounted (ip_held held) st s ->
  type = ICMP_DUR \/ type = ICMP_TE ->
  let bs := firstn 28 (content (st_mem st) ((p, x) :: l)) in
  let run := if type =? ICMP_DUR then icmp_dest_unreach junk output callback nl dflt p code st s else icmp_time_exceeded junk output callback nl dflt p code st s in
  surely run (fun '(st', s') => evolves (ip_held held) [] st s st' s' /\ responded handed nl dflt type code bs s st' s') /\
  ((forall n p dest st w, thrifty (output n p dest st w)) -> (forall n w, thrifty (callback n w)) ->
   runs NoFail run (fun '(st', s') => evolves (ip_held held) [] st s st' s' /\
     match ip_route nl dflt (get32 bs 12) with
     | Some n => posted handed n (get32 bs 12) (response_packet n type code (ip_id s) bs) (next_id s) st' s'
     | None => s' = s
     end) no_err) /\
  (Forall byte bs ->
     firstn 2 (response_bytes type code bs) = [type; u8 code] /\ skipn 8 (response_bytes type code bs) = bs /\
     inet_chksum (response_bytes type code bs) 36 = ret 0).
Proof.
  intros Hl Hdf Hp Hx Hfr Hac Hty bs run.
  assert (Erun : run = icmp_send_response junk output callback nl dflt p type code st s) by (unfold run; destruct Hty as [-> | ->]; reflexivity).
  rewrite Erun. split; [exact (icmp_send_response_spec held handed output callback junk nl dflt Hl Hdf p x l type code st s Hp Hx Hfr Hac)|].
  split; [intros Ho Hcb; exact (icmp_send_response_reports held handed output callback junk nl dflt Hl Hdf p x l type code st s Ho Hcb Hp Hx Hfr Hac)|].
  intros Hb. split; [destruct Hty as [-> | ->]; reflexivity|]. split; [unfold response_bytes, icmp_message; cbn [skipn app field16]; now rewrite drop_0|].
  apply response_verifies; [exact (first_28 _ _ _ _ Hp Hx)|exact Hb].
Qed.

Lemma icmp_message_correct_witness :
  let bs := firstn 28 toy_ping in
  runs NoFail (icmp_dest_unreach (fun _ => 0) log_output toy_callback [toy_host] None 1%positive ICMP_DUR_PORT (re_store (toy_world toy_ping)) toy_state)
    (fun '(st', s') => evolves (ip_held no_pbufs) [] (re_store (toy_world toy_ping)) toy_state st' s' /\
       posted (fun w => w) toy_host (get32 [10; 0; 0; 2] 0) (response_packet toy_host ICMP_DUR ICMP_DUR_PORT 7 bs) (next_id toy_state) st' s') no_err.
Proof.
  destruct (toy_head toy_ping ltac:(cbn; lia)) as [[Ho _ _ _ _] _].
  assert (Hu : Forall usable [toy_host]) by (constructor; [right; vm_compute; split; congruence|apply List.Forall_nil]).
  pose proof (icmp_message_correct no_pbufs (fun w => w) log_output _ toy_callback _ (fun _ => 0) [toy_host] None 1%positive (toy_pbuf 1%positive toy_ping) []
    ICMP_DUR ICMP_DUR_PORT (re_store (toy_world toy_ping)) toy_state Hu ltac:(discriminate) Ho ltac:(vm_compute; congruence) (fun b _ H => H) (toy_accounted toy_ping)
    (or_introl eq_refl)) as H.
  exact (proj1 (proj2 H) log_thrifty (fun n w => thrifty_ret w)).
Defined.

(** ** Receiving *)

(** C29: Of the packets that announce at least the 20 bytes of a header,
    [ip_input] takes exactly those with version 4, a whole header whose words sum
    up to 65535, all the bytes the header announces, a source that
    is no broadcast or multicast address, and a destination that an interface
    takes, one that is up and has an address, as its own address or as a broadcast
    to its network; it hands on
    the packet cut to its length, in the same pbufs, and frees any other packet
    without touching anything else.  (The code does not check that the announced
    length has room for a header: [ip_input_limits].) *)
Theorem ip_input_filters {W} junk output callback nl dflt udp tcp (r : reass (ipstate W)) p x l o inp :
  Forall netif_words nl -> netif_words inp ->
  own_head (re_store r) p x l o -> IP_HLEN <= pb_len x -> all_full ((p, x) :: l) ->
  let c := content (st_mem (re_store r)) ((p, x) :: l) in
  Forall byte c -> 20 <= announced c ->
  (packet_sound (pb_len x) c /\ packet_for_us nl inp c ->
    exists st' x' l', own_head st' p x' l' o /\ content (st_mem st') ((p, x') :: l') = firstn (Z.to_nat (announced c)) c /\
      total ((p, x') :: l') = announced c /\ (forall b, In b (addrs l') -> In b (addrs l)) /\ untouched (p :: addrs l) (re_store r) st' /\
      (forall b, In b (addrs l) -> ~ In b (addrs l') -> st_pbufs st' !! b = None /\ st_mem st' !! b = None) /\
      ip_input junk output callback nl dflt udp tcp p inp r =
        (r <- ip_take junk output callback nl dflt udp tcp p (firstn 20 c) inp (set_re_store st' r);; ret (ERR_OK, r))) /\
  (~ (packet_sound (pb_len x) c /\ packet_for_us nl inp c) ->
    exists st', ip_input junk output callback nl dflt udp tcp p inp r = ret (ERR_OK, set_re_store st' r) /\
      removed (p :: addrs l) (re_store r) st').
Proof.
  intros Hnl Hinp Hh Hx Hf c Hb Ha.
  assert (Lc : (20 <= length c)%nat).
  { destruct (head_bytes _ _ _ _ _ Hh) as [Ec Lb]. fold c in Ec. rewrite Ec, length_app. unfold IP_HLEN in Hx. lia. }
  destruct (first_fields c Hb ltac:(lia)) as (_ & _ & El).
  pose proof (ip_input_spec junk output callback nl dflt udp tcp r p x l o inp (Received _ _ _ _ _ Hh Hx Hf ltac:(fold c; rewrite El; exact Ha))) as H.
  cbv zeta in H. fold c in H. rewrite <- (sound_spec (pb_len x) c Hb Lc), <- (for_us_spec nl inp c Hnl Hinp Hb Lc), <- andb_true_iff.
  destruct (ip_sound (pb_len x) c && ip_for_us nl inp c); split; [intros _|intros Hn; now contradiction Hn|discriminate|intros _; exact H].
  destruct H as (st' & x' & l' & (H1 & _ & _ & H4 & H5 & H6 & H7 & H8) & E). fold c in H4, H5. rewrite El in H4, H5. exists st', x', l'. auto 8.
Qed.

(** The ping is taken, and not when its destination is changed. *)
Lemma ip_input_filters_witness :
  (exists st' x' l', own_head st' 1%positive x' l' 14 /\ content (st_mem st') ((1%positive, x') :: l') = firstn 32 toy_ping /\
    ip_input (fun _ => 0) log_output toy_callback [toy_host] None (fun _ _ st s => ret (st, s)) (fun _ _ st s => ret (st, s)) 1%positive toy_host (toy_world toy_ping) =
      (r <- ip_take (fun _ => 0) log_output toy_callback [toy_host] None (fun _ _ st s => ret (st, s)) (fun _ _ st s => ret (st, s)) 1%positive (firstn 20 toy_ping) toy_host
              (set_re_store st' (toy_world toy_ping));; ret (ERR_OK, r))) /\
  fst (ip_input (fun _ => 0) log_output toy_callback [toy_host] None (fun _ _ st s => ret (st, s)) (fun _ _ st s => ret (st, s)) 1%positive toy_host
         (toy_world (upd_list toy_ping 16 77)) []) = Ok (ERR_OK, Reass [] 0 (Store ∅ ∅) toy_state).
Proof.
  split; [|vm_compute; reflexivity]. destruct toy_ping_received as [Hh Hx Hf _].
  assert (Hw : netif_words toy_host) by (split; vm_compute; split; congruence).
  assert (Hws : Forall netif_words [toy_host]) by (constructor; [exact Hw|constructor]).
  assert (Hb : Forall byte (content (st_mem (re_store (toy_world toy_ping))) [(1%positive, toy_pbuf 1%positive toy_ping)])) by (vm_compute; repeat (constructor; [split; congruence|]); constructor).
  pose proof (ip_input_filters (fun _ => 0) log_output toy_callback [toy_host] None (fun _ _ st s => ret (st, s)) (fun _ _ st s => ret (st, s)) (toy_world toy_ping)
    1%positive (toy_pbuf 1%positive toy_ping) [] 14 toy_host Hws Hw Hh Hx Hf Hb ltac:(vm_compute; congruence)) as [H _].
  rewrite <- (sound_spec _ _ Hb ltac:(vm_compute; lia)), <- (for_us_spec [toy_host] toy_host _ Hws Hw Hb ltac:(vm_compute; lia)) in H.
  destruct (H (conj eq_refl eq_refl)) as (st' & x' & l' & H1 & H2 & _ & _ & _ & _ & E). exists st', x', l'. split; [exact H1|]. split; [exact H2|exact E].
Defined.

(** ** To the host itself *)

(** C31: The queue of an interface is a queue of packets: a packet for the
    address of the interface is appended as it is, in a pbuf of its own, or
    there is no memory and nothing happens; and [netif_poll] takes out the
    first one, whole and with its pointers as for a received packet, and leaves
    the others in their order. *)
Theorem loop_queue_fifo {W} (held : W -> list addr) handed callback (Hs : Scheduler held handed callback) junk n bss (r : reass (ipstate W)) :
  accounted (ip_held held) (re_store r) (re_world r) -> loop_queue (re_store r) (re_world r) n bss ->
  (forall p l, outgoing held (re_store r) (re_world r) p l ->
     surely (netif_loop_output junk callback n p (re_store r) (re_world r))
       (fun '(err, st', s') => evolves (ip_held held) [] (re_store r) (re_world r) st' s' /\
          ((err = ERR_MEM /\ s' = re_world r) \/ (err = ERR_OK /\ loop_queue st' s' n (bss ++ [content (st_mem (re_store r)) l]))))) /\
  (forall bs rest, bss = bs :: rest ->
     exists p q st', loop_of n (re_world r) = p :: q /\ dequeue n p r = ret (with_re_store st' (set_loop n q (re_world r)) r) /\
       loop_queue st' (set_loop n q (re_world r)) n rest /\
       own_packet st' p [(p, loop_pbuf p (Z.of_nat (length bs)))] /\ content (st_mem st') [(p, loop_pbuf p (Z.of_nat (length bs)))] = bs /\
       untouched [p] (re_store r) st').
Proof.
  intros Hac Hq. split.
  - intros p l Hog. exact (loop_put held handed callback junk n p l _ _ bss Hog Hq).
  - intros bs rest ->. pose proof (loop_NoDup held _ _ n Hac) as Hnd. destruct (loop_of n (re_world r)) as [|p q] eqn:E; [unfold loop_queue in Hq; rewrite E in Hq; destruct Hq|].
    destruct (loop_take n p q bs rest r E Hnd Hq) as (st' & H1 & H2 & H3 & H4 & H5). exists p, q, st'. split; [reflexivity|].
    split; [exact H1|]. split; [exact H2|]. split; [exact (oh_own _ _ _ _ _ H3)|]. now split.
Qed.

Lemma loop_queue_fifo_witness :
  surely (netif_loop_output (fun _ => 0) toy_callback toy_host 1%positive toy_out_store toy_state)
    (fun '(err, st', s') => evolves (ip_held no_pbufs) [] toy_out_store toy_state st' s' /\
       ((err = ERR_MEM /\ s' = toy_state) \/ (err = ERR_OK /\ loop_queue st' s' toy_host [toy_datagram]))).
Proof.
  assert (Ho : outgoing no_pbufs toy_out_store toy_state 1%positive [(1%positive, toy_out)]).
  { destruct toy_ready as [Hh _ _ _ _ _ Ha Hf]. constructor; [exact (oh_own _ _ _ _ _ Hh)|constructor; [vm_compute; reflexivity|apply List.Forall_nil]|exact Ha|exact Hf]. }
  exact (proj1 (loop_queue_fifo no_pbufs (fun w => w) toy_callback _ (fun _ => 0) toy_host [] (Reass [] 0 toy_out_store toy_state)
    (conj (List.NoDup_nil _) (fun b H => False_ind _ H)) I) 1%positive [(1%positive, toy_out)] Ho).
Defined.

(** ** Limits *)

Definition limit_input (bs : list Z) : outcome (Z * reass (ipstate log)) :=
  fst (ip_input (fun _ => 0) log_output toy_callback [toy_host] None (fun _ _ st s => ret (st, s)) (fun _ _ st s => ret (st, s)) 1%positive toy_host (toy_world bs) []).

(** The packets that were sent. *)
Definition limit_sent (bs : list Z) : option (list (list Z)) :=
  match limit_input bs with Ok (_, r) => Some (map snd (ip_rest (re_world r))) | _ => None end.

Definition limit_header (proto len : Z) : list Z :=
  checked (new_header (get32 [10; 0; 0; 2] 0) (get32 [10; 0; 0; 1] 0) 64 0 proto len 1).

(** A request with four bytes of IP options. *)
Definition limit_options : list Z :=
  let h := [0x46; 0; 0; 32; 0; 1; 0; 0; 64; 1; 0; 0; 10; 0; 0; 2; 10; 0; 0; 1; 1; 1; 1; 1] in
  splice h 10 (field16 (not16 (lwip_standard_chksum h))) ++ [8; 0; 0xf7; 0xff; 0; 0; 0; 0].

(** A packet of 4 bytes for an unknown protocol, and what is left of others
    behind it in the pbuf. *)
Definition limit_unknown : reass (ipstate log) :=
  let bs := limit_header 99 24 ++ [1; 2; 3; 4] in
  Reass [] 0 (Store {[ 1%positive := toy_pbuf 1%positive bs ]} {[ 1%positive := repeat 0 14 ++ bs ++ [77; 78; 79; 80] ]}) toy_state.

(** What the code does not check: a packet whose announced length is less than
    that of its header stops the system; a packet for an unknown protocol with
    less than eight bytes of data is answered with bytes of other packets; the
    reply to a request with IP options has a header checksum that does not
    verify; and the reply to an empty request with identification and sequence
    number 0 has the checksum 0, which does not verify. *)
Theorem ip_input_limits :
  limit_input (limit_header IP_PROTO_ICMP 10) = Err ABORT /\
  (match fst (ip_input (fun _ => 0) log_output toy_callback [toy_host] None (fun _ _ st s => ret (st, s)) (fun _ _ st s => ret (st, s)) 1%positive toy_host limit_unknown []) with
   | Ok (_, r) => map (fun m => skipn 52 (snd m)) (ip_rest (re_world r)) = [[77; 78; 79; 80]] | _ => False end) /\
  (match limit_sent limit_options with
   | Some [q] => IPH_HL q = 6 /\ not16 (lwip_standard_chksum (firstn 24 limit_options)) = 0 /\ not16 (lwip_standard_chksum (firstn 24 q)) <> 0 | _ => False end) /\
  (match limit_sent (limit_header IP_PROTO_ICMP 28 ++ [8; 0; 0xf7; 0xff; 0; 0; 0; 0]) with
   | Some [q] => skipn 20 q = repeat 0 8 /\ not16 (lwip_standard_chksum (skipn 20 q)) <> 0 | _ => False end).
Proof.
  split; [vm_compute; reflexivity|]. split; [vm_compute; reflexivity|]. split; vm_compute; repeat split; congruence.
Qed.
