(* ===== verification/Udp.v ===== *)
(** * lwIP: UDP

    [lwip/src/core/udp.c] as the port configures it (no UDP-Lite, no
    multicast groups, no DHCP, no broadcast filters): the control blocks of
    the datagram sockets and their list, sending and receiving.  The list
    [udp_pcbs] is the list of the addresses of its members, in the order of
    their [next] pointers.  The receive callbacks, which are pointers to
    functions of the application, are numbers, and calling them is a
    parameter. *)
From Stdlib Require Import ZArith List Lia Bool.
From stdpp Require Import base gmap list.
From S2P Require Import Prelude CMonad Pbuf Inet InetChksum Netif IpHdr IpFrag IpOut.
From S2P Require Import Icmp.
#[local] Open Scope Z_scope.
#[local] Open Scope cmonad_scope.

Definition ERR_USE : Z := -11.
Definition UDP_HLEN : Z := 8.
Definition UDP_TTL : Z := IP_DEFAULT_TTL.
Definition IP_ADDR_ANY : Z := 0.

Definition UDP_FLAGS_NOCHKSUM : Z := 0x01.
Definition UDP_FLAGS_CONNECTED : Z := 0x04.

Definition UDP_LOCAL_PORT_RANGE_START : Z := 4096.
Definition UDP_LOCAL_PORT_RANGE_END : Z := 0x7fff.

(** [struct udp_pcb] without [next]; [recv] is [None] for [NULL]. *)
Record udp_pcb : Type := UdpPcb
  { local_ip : Z; remote_ip : Z; so_options : Z; tos : Z; ttl : Z; flags : Z; local_port : Z; remote_port : Z;
    recv : option Z; recv_arg : Z }.

#[export] Instance udp_pcb_eq_dec : EqDecision udp_pcb.
Proof. solve_decision. Defined.

Definition with_local_ip (x : udp_pcb) (a : Z) : udp_pcb :=
  UdpPcb a (remote_ip x) (so_options x) (tos x) (ttl x) (flags x) (local_port x) (remote_port x) (recv x) (recv_arg x).
Definition with_local_port (x : udp_pcb) (n : Z) : udp_pcb :=
  UdpPcb (local_ip x) (remote_ip x) (so_options x) (tos x) (ttl x) (flags x) n (remote_port x) (recv x) (recv_arg x).
Definition with_remote (x : udp_pcb) (a n f : Z) : udp_pcb :=
  UdpPcb (local_ip x) a (so_options x) (tos x) (ttl x) f (local_port x) n (recv x) (recv_arg x).
Definition with_recv (x : udp_pcb) (f : option Z) (arg : Z) : udp_pcb :=
  UdpPcb (local_ip x) (remote_ip x) (so_options x) (tos x) (ttl x) (flags x) (local_port x) (remote_port x) f arg.

(** The list, and the control blocks. *)
Record udp : Type := Udp { udp_pcbs : list addr; pcb_heap : gmap addr udp_pcb }.

Definition get_pcb (a : addr) (u : udp) : M udp_pcb :=
  match pcb_heap u !! a with Some x => ret x | None => ub end.
Definition set_pcb (a : addr) (x : udp_pcb) (u : udp) : udp := Udp (udp_pcbs u) (<[a := x]> (pcb_heap u)).
Definition set_pcbs (l : list addr) (u : udp) : udp := Udp l (pcb_heap u).

(** ** Control blocks *)

Definition udp_new (u : udp) : M (option addr * udp) :=
  ok <- malloc;;
  if ok : bool then
    let a := fresh (dom (pcb_heap u)) in
    ret (Some a, set_pcb a (UdpPcb 0 0 0 0 UDP_TTL 0 0 0 None 0) u)
  else ret (None, u).

(** [for (ipcb = udp_pcbs; ipcb != NULL; ipcb = ipcb->next)] *)
Fixpoint rebind_loop (pcb : addr) (l : list addr) (rebind : bool) : M bool :=
  match l with
  | [] => ret rebind
  | ipcb :: l' =>
      if bool_decide (pcb = ipcb) then
        _ <- lwip_assert (negb rebind);;
        rebind_loop pcb l' true
      else rebind_loop pcb l' rebind
  end.

(** [while ((ipcb != NULL) && (port != UDP_LOCAL_PORT_RANGE_END))]; [l] is
    the list from [ipcb] on.  Whether [ipcb] is [NULL] in the end, and the
    port. *)
Fixpoint port_loop (fuel : nat) (u : udp) (l : list addr) (port : Z) : M (bool * Z) :=
  match l with
  | [] => ret (true, port)
  | ipcb :: l' =>
      if port =? UDP_LOCAL_PORT_RANGE_END then ret (false, port)
      else
        match fuel with
        | O => out_of_fuel
        | S fuel' =>
            x <- get_pcb ipcb u;;
            if local_port x =? port then port_loop fuel' u (udp_pcbs u) (u16 (port + 1))
            else port_loop fuel' u l' port
        end
  end.

(** Each port of the range needs one walk along the list at most. *)
Definition port_fuel (u : udp) : nat :=
  (Z.to_nat (UDP_LOCAL_PORT_RANGE_END - UDP_LOCAL_PORT_RANGE_START) * S (length (udp_pcbs u)) + length (udp_pcbs u))%nat.

Definition udp_bind (pcb : addr) (ipaddr : option Z) (port : Z) (u : udp) : M (Z * udp) :=
  rebind <- rebind_loop pcb (udp_pcbs u) false;;
  x <- get_pcb pcb u;;
  let u := set_pcb pcb (with_local_ip x (match ipaddr with Some a => a | None => 0 end)) u in
  '(found, port) <-
    (if port =? 0 then port_loop (port_fuel u) u (udp_pcbs u) UDP_LOCAL_PORT_RANGE_START else ret (true, port));;
  if negb found then ret (ERR_USE, u)
  else
    x <- get_pcb pcb u;;
    let u := set_pcb pcb (with_local_port x port) u in
    ret (ERR_OK, if rebind : bool then u else set_pcbs (pcb :: udp_pcbs u) u).

Definition udp_connect (pcb : addr) (ipaddr : option Z) (port : Z) (u : udp) : M (Z * udp) :=
  x <- get_pcb pcb u;;
  '(err, u) <- (if local_port x =? 0 then udp_bind pcb (Some (local_ip x)) (local_port x) u else ret (ERR_OK, u));;
  if negb (err =? ERR_OK) then ret (err, u)
  else
    x <- get_pcb pcb u;;
    let u := set_pcb pcb (with_remote x (match ipaddr with Some a => a | None => 0 end) port (Z.lor (flags x) UDP_FLAGS_CONNECTED)) u in
    ret (ERR_OK, if bool_decide (pcb ∈ udp_pcbs u) then u else set_pcbs (pcb :: udp_pcbs u) u).

Definition udp_disconnect (pcb : addr) (u : udp) : M udp :=
  x <- get_pcb pcb u;;
  ret (set_pcb pcb (with_remote x IP_ADDR_ANY 0 (Z.land (flags x) (u8 (Z.lnot UDP_FLAGS_CONNECTED)))) u).

Definition udp_recv (pcb : addr) (recv : option Z) (recv_arg : Z) (u : udp) : M udp :=
  x <- get_pcb pcb u;;
  ret (set_pcb pcb (with_recv x recv recv_arg) u).

(** [for (pcb2 = udp_pcbs; pcb2 != NULL; pcb2 = pcb2->next)] *)
Fixpoint unlink_loop (pcb : addr) (l : list addr) : list addr :=
  match l with
  | [] => []
  | pcb2 :: l' =>
      match l' with
      | [] => [pcb2]
      | next :: l'' => if bool_decide (next = pcb) then pcb2 :: unlink_loop pcb l'' else pcb2 :: unlink_loop pcb l'
      end
  end.

Definition udp_remove (pcb : addr) (u : udp) : M udp :=
  _ <- get_pcb pcb u;;
  let l := match udp_pcbs u with
           | a :: l' => if bool_decide (a = pcb) then l' else unlink_loop pcb (a :: l')
           | [] => []
           end in
  ret (Udp l (delete pcb (pcb_heap u))).

(** ** Demultiplexing *)

(** The fields of a datagram that the control blocks are compared with. *)
Definition local_match (dest_ip dest : Z) (broadcast : bool) (x : udp_pcb) : bool :=
  (local_port x =? dest) &&
  ((negb broadcast && ip_addr_isany (local_ip x)) || (local_ip x =? dest_ip) || broadcast).

Definition remote_match (src_ip src : Z) (x : udp_pcb) : bool :=
  (remote_port x =? src) && (ip_addr_isany (remote_ip x) || (remote_ip x =? src_ip)).

Definition unconnected (x : udp_pcb) : bool := Z.land (flags x) UDP_FLAGS_CONNECTED =? 0.

(** [for (pcb = udp_pcbs; pcb != NULL; pcb = pcb->next)]; [before] is the
    list up to [prev].  The control block, and the list. *)
Fixpoint demux_loop (u : udp) (src_ip dest_ip src dest : Z) (broadcast : bool) (before l : list addr) (uncon_pcb : option addr)
    : M (option addr * list addr) :=
  match l with
  | [] => ret (uncon_pcb, before)
  | pcb :: l' =>
      x <- get_pcb pcb u;;
      let m := local_match dest_ip dest broadcast x in
      let uncon_pcb := if m && bool_decide (uncon_pcb = None) && unconnected x then Some pcb else uncon_pcb in
      if m && remote_match src_ip src x then ret (Some pcb, pcb :: before ++ l')
      else demux_loop u src_ip dest_ip src dest broadcast (before ++ [pcb]) l' uncon_pcb
  end.

Section Udp.
Context {W : Type}.

(** The control blocks, and the rest of the system. *)
Record udpstate : Type := UdpState { us_udp : udp; us_rest : W }.

Definition udp_of (s : ipstate udpstate) : udp := us_udp (ip_rest s).
Definition with_udp (u : udp) (s : ipstate udpstate) : ipstate udpstate := set_rest (UdpState u (us_rest (ip_rest s))) s.

Context (junk : nat -> Z).
Variable output : netif -> addr -> Z -> store -> W -> M (Z * store * W).
Variable tcpip_callback : netif -> W -> M W.

(** The interfaces have nothing to do with the control blocks. *)
Definition udp_output (n : netif) (p : addr) (dest : Z) (st : store) (w : udpstate) : M (Z * store * udpstate) :=
  '(err, st, r) <- output n p dest st (us_rest w);;
  ret (err, st, UdpState (us_udp w) r).

Definition udp_callback (n : netif) (w : udpstate) : M udpstate :=
  r <- tcpip_callback n (us_rest w);;
  ret (UdpState (us_udp w) r).

(** ** Sending *)

(** The header, its checksum left out, is written to [q]. *)
Definition start_header (q : addr) (src_port dst_port : Z) (st : store) : M store :=
  y <- fetch st (Some q);;
  _ <- lwip_assert (UDP_HLEN <=? pb_len y);;
  st <- save st (pb_payload y) 0 (field16 (htons src_port));;
  st <- save st (pb_payload y) 2 (field16 (htons dst_port));;
  save st (pb_payload y) 6 (field16 0).

(** The length and the checksum. *)
Definition end_header (q : addr) (src_ip dst_ip : Z) (nochksum : bool) (st : store) : M store :=
  y <- fetch st (Some q);;
  st <- save st (pb_payload y) 4 (field16 (htons (pb_tot_len y)));;
  if nochksum then ret st
  else
    c <- inet_chksum_pseudo (Some q) src_ip dst_ip IP_PROTO_UDP (pb_tot_len y) st;;
    save st (pb_payload y) 6 (field16 (if c =? 0 then 0xffff else c)).

(** [if (q != p) pbuf_free(q);] *)
Definition free_header (q p : addr) (st : store) : M store :=
  if bool_decide (q = p) then ret st
  else
    '(_, st) <- pbuf_free (Some q) st;;
    ret st.

(** The packet that starts with room for the header; [None]: there was no
    memory. *)
Definition header_space (p : addr) (st : store) : M (option addr * store) :=
  '(e, st) <- pbuf_header (Some p) UDP_HLEN st;;
  if negb (e =? 0) then
    '(q, st) <- pbuf_alloc junk PBUF_IP UDP_HLEN PBUF_RAM st;;
    match q with
    | None => ret (None, st)
    | Some q => st <- pbuf_chain (Some q) (Some p) st;; ret (Some q, st)
    end
  else ret (Some p, st).

Definition udp_sendto_if (pcb p : addr) (dst_ip dst_port : Z) (n : netif) (st : store) (s : ipstate udpstate)
    : M (Z * store * ipstate udpstate) :=
  x <- get_pcb pcb (udp_of s);;
  '(err, u) <- (if local_port x =? 0 then udp_bind pcb (Some (local_ip x)) (local_port x) (udp_of s) else ret (ERR_OK, udp_of s));;
  let s := with_udp u s in
  if negb (err =? ERR_OK) then ret (err, st, s)
  else
    '(q, st) <- header_space p st;;
    match q with
    | None => ret (ERR_MEM, st, s)
    | Some q =>
        x <- get_pcb pcb (udp_of s);;
        st <- start_header q (local_port x) dst_port st;;
        if negb (ip_addr_isany (local_ip x)) && negb (local_ip x =? nf_ip_addr n) then
          st <- free_header q p st;;
          ret (ERR_VAL, st, s)
        else
          let src_ip := if ip_addr_isany (local_ip x) then nf_ip_addr n else local_ip x in
          st <- end_header q src_ip dst_ip (negb (Z.land (flags x) UDP_FLAGS_NOCHKSUM =? 0)) st;;
          '(err, st, s) <- ip_output_if junk udp_output udp_callback q (Some src_ip) (Some dst_ip) (ttl x) (tos x) IP_PROTO_UDP n st s;;
          st <- free_header q p st;;
          ret (err, st, s)
    end.

Variables (netif_list : list netif) (netif_default : option netif).

Definition udp_sendto (pcb p : addr) (dst_ip dst_port : Z) (st : store) (s : ipstate udpstate) : M (Z * store * ipstate udpstate) :=
  match ip_route netif_list netif_default dst_ip with
  | None => ret (ERR_RTE, st, s)
  | Some n => udp_sendto_if pcb p dst_ip dst_port n st s
  end.

Definition udp_send (pcb p : addr) (st : store) (s : ipstate udpstate) : M (Z * store * ipstate udpstate) :=
  x <- get_pcb pcb (udp_of s);;
  udp_sendto pcb p (remote_ip x) (remote_port x) st s.

(** ** Receiving *)

(** [pcb->recv(pcb->recv_arg, pcb, p, &iphdr->src, src)], the function first. *)
Variable call_recv : Z -> Z -> addr -> addr -> option (addr * Z) -> Z -> store -> ipstate udpstate -> M (store * ipstate udpstate).

Definition udp_drop (p : addr) (st : store) (s : ipstate udpstate) : M (store * ipstate udpstate) :=
  '(_, st) <- pbuf_free (Some p) st;;
  ret (st, s).

(** The address of the field [off] of a header. *)
Definition field_ptr (hdr : option (addr * Z)) (off : Z) : option (addr * Z) :=
  match hdr with Some (b, o) => Some (b, o + off) | None => None end.

(** The datagram in [p] is good: to the socket, or an answer to the sender. *)
Definition udp_hand_up (pcb : option addr) (p : addr) (iphdr : option (addr * Z)) (dest_ip src : Z) (broadcast : bool)
    (st : store) (s : ipstate udpstate) : M (store * ipstate udpstate) :=
  match pcb with
  | Some pcb =>
      x <- get_pcb pcb (udp_of s);;
      match recv x with
      | Some f => call_recv f (recv_arg x) pcb p (field_ptr iphdr 12) src st s
      | None => udp_drop p st s
      end
  | None =>
      '(st, s) <-
        (if negb broadcast && negb (ip_addr_ismulticast dest_ip) then
           vhltos <- load st iphdr 0 2;;
           '(_, st) <- pbuf_header (Some p) (IPH_HL vhltos * 4 + UDP_HLEN) st;;
           x <- fetch st (Some p);;
           _ <- lwip_assert (bool_decide (pb_payload x = iphdr));;
           icmp_dest_unreach junk udp_output udp_callback netif_list netif_default p ICMP_DUR_PORT st s
         else ret (st, s));;
      udp_drop p st s
  end.

(** [if (udphdr->chksum != 0)]: the checksum of the datagram in [p]. *)
Definition udp_chksum (p : addr) (src_ip dest_ip : Z) (st : store) : M Z :=
  x <- fetch st (Some p);;
  chksum <- load st (pb_payload x) 6 2;;
  if negb (le_value chksum =? 0) then inet_chksum_pseudo (Some p) src_ip dest_ip IP_PROTO_UDP (pb_tot_len x) st else ret 0.

Definition udp_input (p : addr) (inp : netif) (st : store) (s : ipstate udpstate) : M (store * ipstate udpstate) :=
  x <- fetch st (Some p);;
  let iphdr := pb_payload x in
  vhltos <- load st iphdr 0 2;;
  let hlen := IPH_HL vhltos * 4 in
  '(short, st) <-
    (if pb_tot_len x <? hlen + UDP_HLEN then ret (true, st)
     else '(e, st) <- pbuf_header (Some p) (- hlen) st;; ret (negb (e =? 0), st));;
  if short : bool then udp_drop p st s
  else
    x <- fetch st (Some p);;
    dest_ip <- load st iphdr 16 4;;
    let dest_ip := le_value dest_ip in
    let broadcast := isbroadcast dest_ip inp in
    src <- load st (pb_payload x) 0 2;;
    let src := ntohs (le_value src) in
    dest <- load st (pb_payload x) 2 2;;
    let dest := ntohs (le_value dest) in
    src_ip <- load st iphdr 12 4;;
    let src_ip := le_value src_ip in
    '(pcb, l) <- demux_loop (udp_of s) src_ip dest_ip src dest broadcast [] (udp_pcbs (udp_of s)) None;;
    let s := with_udp (set_pcbs l (udp_of s)) s in
    if negb (bool_decide (pcb = None)) || (nf_ip_addr inp =? dest_ip) then
      c <- udp_chksum p src_ip dest_ip st;;
      if negb (c =? 0) then udp_drop p st s
      else
        '(e, st) <- pbuf_header (Some p) (- UDP_HLEN) st;;
        _ <- lwip_assert (e =? 0);;
        udp_hand_up pcb p iphdr dest_ip src broadcast st s
    else udp_drop p st s.
End Udp.
#[global] Arguments udpstate : clear implicits.
