(* ===== verification/UdpSpec.v ===== *)
(** * lwIP: the control blocks of UDP

    The list holds the control blocks that have a port, and every operation
    keeps it so; [udp_bind] finds the first free port; demultiplexing is a
    search for the best member of the list, which comes to the front. *)
From Stdlib Require Import ZArith List Lia Bool.
From stdpp Require Import base gmap list.
From S2P Require Import Prelude CMonad Pbuf Inet Netif Udp.
#[local] Open Scope Z_scope.
#[local] Open Scope cmonad_scope.

(** ** The invariant *)

Record pcb_ok (x : udp_pcb) : Prop := PcbOk
  { po_local_ip : 0 <= local_ip x < 4294967296; po_remote_ip : 0 <= remote_ip x < 4294967296;
    po_tos : 0 <= tos x < 256; po_ttl : 0 <= ttl x < 256; po_flags : 0 <= flags x < 256;
    po_local_port : 0 <= local_port x < 65536; po_remote_port : 0 <= remote_port x < 65536 }.

(** The control blocks on the list are those with a port, once each. *)
Record udp_ok (u : udp) : Prop := UdpOk
  { uo_nodup : NoDup (udp_pcbs u); uo_alloc : forall a, a ∈ udp_pcbs u -> is_Some (pcb_heap u !! a);
    uo_listed : forall a x, pcb_heap u !! a = Some x -> a ∈ udp_pcbs u <-> local_port x <> 0;
    uo_pcb : forall a x, pcb_heap u !! a = Some x -> pcb_ok x }.

Lemma get_pcb_some a x u : pcb_heap u !! a = Some x -> get_pcb a u = ret x.
Proof. unfold get_pcb. now intros ->. Qed.

Lemma set_pcb_twice a x y u : set_pcb a y (set_pcb a x u) = set_pcb a y u.
Proof. unfold set_pcb. cbn. now rewrite insert_insert_eq. Qed.

Lemma set_pcb_lookup a x u : pcb_heap (set_pcb a x u) !! a = Some x.
Proof. apply lookup_insert_eq. Qed.

(** Changes that leave the port alone. *)
Lemma set_pcb_ok u a x y :
  udp_ok u -> pcb_heap u !! a = Some x -> local_port y = local_port x -> pcb_ok y -> udp_ok (set_pcb a y u).
Proof.
  intros [Hn Ha Hl Hp] Hx Hy Hok. constructor; cbn; [exact Hn|..].
  - intros b Hb. destruct (decide (b = a)) as [->|Hne]; [rewrite lookup_insert_eq; eauto|rewrite lookup_insert_ne by congruence; auto].
  - intros b z. destruct (decide (b = a)) as [->|Hne]; [|rewrite lookup_insert_ne by congruence; apply Hl].
    rewrite lookup_insert_eq. intros [= <-]. rewrite Hy. now apply Hl.
  - intros b z. destruct (decide (b = a)) as [->|Hne]; [|rewrite lookup_insert_ne by congruence; apply Hp].
    rewrite lookup_insert_eq. now intros [= <-].
Qed.

(** A control block gets a port. *)
Lemma bound_ok u a x y :
  udp_ok u -> pcb_heap u !! a = Some x -> local_port y <> 0 -> pcb_ok y ->
  let l := if bool_decide (a ∈ udp_pcbs u) then udp_pcbs u else a :: udp_pcbs u in
  udp_ok (set_pcbs l (set_pcb a y u)).
Proof.
  intros [Hn Ha Hl Hp] Hx Hy Hok l.
  assert (Hin : forall b, b ∈ l <-> b = a \/ b ∈ udp_pcbs u).
  { intros b. unfold l. case_bool_decide as Ea; [|rewrite elem_of_cons; tauto]. split; [tauto|]. intros [->|Hb]; auto. }
  constructor; cbn.
  - unfold l. case_bool_decide; [exact Hn|]. now constructor.
  - intros b Hb. destruct (decide (b = a)) as [->|Hne]; [rewrite lookup_insert_eq; eauto|rewrite lookup_insert_ne by congruence].
    apply Ha. apply Hin in Hb. tauto.
  - intros b z. rewrite Hin. destruct (decide (b = a)) as [->|Hne].
    + rewrite lookup_insert_eq. intros [= <-]. tauto.
    + rewrite lookup_insert_ne by congruence. intros Hz. rewrite <- (Hl b z Hz). tauto.
  - intros b z. destruct (decide (b = a)) as [->|Hne]; [|rewrite lookup_insert_ne by congruence; apply Hp].
    rewrite lookup_insert_eq. now intros [= <-].
Qed.

(** ** Ports *)

(** The ports of the list. *)
Definition ports_in_use (u : udp) : list Z := omap (fun a => local_port <$> pcb_heap u !! a) (udp_pcbs u).

Definition in_use (u : udp) (n : Z) : bool := bool_decide (n ∈ ports_in_use u).

(** The first port from [n] on that is free, below the end of the range. *)
Definition free_from (u : udp) (n : Z) : option Z :=
  List.find (fun k => negb (in_use u k)) (seqZ n (UDP_LOCAL_PORT_RANGE_END - n)).

Definition free_port (u : udp) : option Z := free_from u UDP_LOCAL_PORT_RANGE_START.

Lemma in_use_spec u n : in_use u n = true <-> exists a x, a ∈ udp_pcbs u /\ pcb_heap u !! a = Some x /\ local_port x = n.
Proof.
  unfold in_use. rewrite bool_decide_eq_true. unfold ports_in_use. rewrite list_elem_of_omap. split.
  - intros (a & Ha & E). destruct (pcb_heap u !! a) as [x|] eqn:Ex; [|discriminate]. injection E as E. eauto.
  - intros (a & x & Ha & Ex & E). exists a. split; [exact Ha|]. rewrite Ex. cbn. now rewrite E.
Qed.

Lemma free_from_step u n : n < UDP_LOCAL_PORT_RANGE_END ->
  free_from u n = if in_use u n then free_from u (n + 1) else Some n.
Proof.
  intros H. unfold free_from. rewrite seqZ_cons by lia. cbn [List.find].
  replace (Z.pred (UDP_LOCAL_PORT_RANGE_END - n)) with (UDP_LOCAL_PORT_RANGE_END - (n + 1)) by lia.
  replace (Z.succ n) with (n + 1) by lia. now destruct (in_use u n).
Qed.

Lemma free_from_spec u n m : free_from u n = Some m ->
  n <= m < UDP_LOCAL_PORT_RANGE_END /\ in_use u m = false /\ forall k, n <= k < m -> in_use u k = true.
Proof.
  assert (Hg : forall c n, Z.to_nat (UDP_LOCAL_PORT_RANGE_END - n) = c -> free_from u n = Some m ->
    n <= m < UDP_LOCAL_PORT_RANGE_END /\ in_use u m = false /\ forall k, n <= k < m -> in_use u k = true); [|eauto].
  induction c as [|c IH]; clear n; intros n Hc.
  - unfold free_from. rewrite seqZ_nil by lia. discriminate.
  - assert (n < UDP_LOCAL_PORT_RANGE_END) by lia. rewrite free_from_step by lia. destruct (in_use u n) eqn:E.
    + intros Hm. destruct (IH (n + 1) ltac:(lia) Hm) as (H1 & H2 & H3). split; [lia|]. split; [exact H2|]. intros k Hk.
      destruct (Z.eq_dec k n) as [->|]; [exact E|]. apply H3. lia.
    + intros [= <-]. split; [lia|]. split; [exact E|]. lia.
Qed.

Lemma free_from_none u n : free_from u n = None -> forall k, n <= k < UDP_LOCAL_PORT_RANGE_END -> in_use u k = true.
Proof.
  intros H k Hk. unfold free_from in H. apply (find_none _ _) with (x := k) in H.
  - now apply negb_false_iff in H.
  - apply list_elem_of_In, elem_of_seqZ. lia.
Qed.

(** [pre] is what the walk has behind it. *)
Lemma port_loop_spec u (Hal : forall a, a ∈ udp_pcbs u -> is_Some (pcb_heap u !! a)) fuel :
  forall pre l port,
  udp_pcbs u = pre ++ l -> (forall a x, a ∈ pre -> pcb_heap u !! a = Some x -> local_port x <> port) ->
  0 <= port <= UDP_LOCAL_PORT_RANGE_END -> (port = UDP_LOCAL_PORT_RANGE_END -> l <> []) ->
  (Z.to_nat (UDP_LOCAL_PORT_RANGE_END - port) * S (length (udp_pcbs u)) + length l <= fuel)%nat ->
  port_loop fuel u l port =
    ret (match free_from u port with Some n => (true, n) | None => (false, UDP_LOCAL_PORT_RANGE_END) end).
Proof.
  induction fuel as [|fuel IH]; intros pre l port Hl Hpre Hp He Hf; destruct l as [|a l].
  1, 3: assert (port <> UDP_LOCAL_PORT_RANGE_END) by (intros E; now apply He); rewrite free_from_step by lia.
  1, 2: destruct (in_use u port) eqn:Eu; [|reflexivity]; apply in_use_spec in Eu as (b & y & Hb & Hy & Ey); rewrite Hl, app_nil_r in Hb;
    exfalso; exact (Hpre b y Hb Hy Ey).
  - cbn [length] in Hf. lia.
  - cbn [port_loop]. destruct (Z.eqb_spec port UDP_LOCAL_PORT_RANGE_END) as [->|Hne].
    { unfold free_from. now rewrite seqZ_nil by lia. }
    destruct (Hal a) as [x Hx]; [rewrite Hl; apply elem_of_app; right; left|]. rewrite (get_pcb_some _ _ _ Hx), bind_ret.
    destruct (Z.eqb_spec (local_port x) port) as [E|E].
    + assert (Eu : u16 (port + 1) = port + 1) by (unfold u16; apply Z.mod_small; unfold UDP_LOCAL_PORT_RANGE_END in *; lia).
      rewrite Eu, free_from_step by lia. rewrite (proj2 (in_use_spec u port)) by (exists a, x; split; [rewrite Hl; apply elem_of_app; right; left|auto]).
      apply (IH []); [reflexivity|intros ? ? Hb; inversion Hb|lia|intros _ E0; rewrite E0 in Hl; now destruct pre|].
      cbn [length] in Hf. replace (Z.to_nat (UDP_LOCAL_PORT_RANGE_END - port)) with (S (Z.to_nat (UDP_LOCAL_PORT_RANGE_END - (port + 1)))) in Hf by lia.
      cbn [Nat.mul] in Hf. lia.
    + apply (IH (pre ++ [a])); [now rewrite <- app_assoc| |lia|intros; lia|cbn [length] in Hf; lia].
      intros b y Hb Hy. apply elem_of_app in Hb as [Hb|Hb]; [exact (Hpre b y Hb Hy)|]. apply list_elem_of_singleton in Hb as ->. congruence.
Qed.

(** ** Operations *)

Lemma rebind_loop_spec pcb l b : NoDup l -> (b = true -> pcb ∉ l) -> rebind_loop pcb l b = ret (b || bool_decide (pcb ∈ l)).
Proof.
  revert b. induction l as [|a l IH]; intros b Hn Hb; [cbn; now rewrite bool_decide_eq_false_2, orb_false_r by (intros H; inversion H)|].
  apply NoDup_cons in Hn as [Ha Hn]. cbn [rebind_loop]. destruct (decide (pcb = a)) as [E|E].
  - subst a. rewrite bool_decide_eq_true_2 by reflexivity. destruct b; [exfalso; apply Hb; [reflexivity|left]|]. cbn [negb lwip_assert]. unfold lwip_assert. rewrite bind_ret, IH by auto.
    rewrite (bool_decide_eq_true_2 (pcb ∈ pcb :: l)) by left. reflexivity.
  - rewrite (bool_decide_eq_false_2 (pcb = a)) by exact E.
    rewrite IH by (auto; intros Hb'; specialize (Hb Hb'); rewrite elem_of_cons in Hb; tauto). f_equal. f_equal.
    apply bool_decide_ext. rewrite elem_of_cons. tauto.
Qed.

Definition addr_or_any (ipaddr : option Z) : Z := match ipaddr with Some a => a | None => IP_ADDR_ANY end.

(** The port that [udp_bind] takes. *)
Definition bind_port (u : udp) (port : Z) : option Z := if port =? 0 then free_port u else Some port.

(** The control block [pcb] is put on the list. *)
Definition listed (pcb : addr) (u : udp) : udp :=
  if bool_decide (pcb ∈ udp_pcbs u) then u else set_pcbs (pcb :: udp_pcbs u) u.

Lemma ports_same u a x y : pcb_heap u !! a = Some x -> local_port y = local_port x -> ports_in_use (set_pcb a y u) = ports_in_use u.
Proof.
  intros Hx Hy. unfold ports_in_use. cbn [set_pcb udp_pcbs pcb_heap]. induction (udp_pcbs u) as [|b l IH]; [reflexivity|]. cbn. rewrite IH.
  destruct (decide (b = a)) as [->|Hne]; [now rewrite lookup_insert_eq, Hx; cbn; rewrite Hy|now rewrite lookup_insert_ne by congruence].
Qed.

Lemma free_from_same u u' n : ports_in_use u' = ports_in_use u -> free_from u' n = free_from u n.
Proof. intros E. unfold free_from, in_use. now rewrite E. Qed.

Lemma udp_bind_spec u pcb x ipaddr port :
  udp_ok u -> pcb_heap u !! pcb = Some x ->
  udp_bind pcb ipaddr port u =
    ret (let y := with_local_ip x (addr_or_any ipaddr) in
         match bind_port u port with
         | Some n => (ERR_OK, listed pcb (set_pcb pcb (with_local_port y n) u))
         | None => (ERR_USE, set_pcb pcb y u)
         end).
Proof.
  intros [Hn Ha Hl Hp] Hx. unfold udp_bind. rewrite rebind_loop_spec, bind_ret by (auto; discriminate). cbn [orb].
  rewrite (get_pcb_some _ _ _ Hx), bind_ret. change (match ipaddr with Some a => a | None => 0 end) with (addr_or_any ipaddr).
  set (y := with_local_ip x (addr_or_any ipaddr)). cbv zeta.
  assert (Hal : forall a, a ∈ udp_pcbs (set_pcb pcb y u) -> is_Some (pcb_heap (set_pcb pcb y u) !! a)).
  { intros b Hb. cbn. destruct (decide (b = pcb)) as [->|Hne]; [rewrite lookup_insert_eq; eauto|rewrite lookup_insert_ne by congruence; now apply Ha]. }
  assert (Hend : forall n, (z <- get_pcb pcb (set_pcb pcb y u);; ret (ERR_OK, if bool_decide (pcb ∈ udp_pcbs u) then set_pcb pcb (with_local_port z n) (set_pcb pcb y u)
      else set_pcbs (pcb :: udp_pcbs (set_pcb pcb (with_local_port z n) (set_pcb pcb y u))) (set_pcb pcb (with_local_port z n) (set_pcb pcb y u)))) =
      ret (ERR_OK, listed pcb (set_pcb pcb (with_local_port y n) u))).
  { intros n. rewrite (get_pcb_some _ _ _ (set_pcb_lookup _ _ _)), bind_ret, set_pcb_twice. unfold listed. reflexivity. }
  unfold bind_port. destruct (Z.eqb_spec port 0) as [->|Hne]; [|rewrite bind_ret; apply Hend].
  rewrite (port_loop_spec (set_pcb pcb y u) Hal _ [] (udp_pcbs u)); [|reflexivity|intros ? ? Hb; inversion Hb|vm_compute; split; congruence|discriminate|reflexivity].
  rewrite bind_ret. unfold free_port. rewrite (free_from_same u) by (now apply (ports_same u pcb x)).
  destruct (free_from u UDP_LOCAL_PORT_RANGE_START) as [n|]; [apply Hend|reflexivity].
Qed.

Lemma bind_port_range u port n : 0 <= port < 65536 -> bind_port u port = Some n -> 0 < n < 65536.
Proof.
  unfold bind_port. destruct (Z.eqb_spec port 0); [|intros H [= <-]; lia]. intros _ H. apply free_from_spec in H as [H _].
  unfold UDP_LOCAL_PORT_RANGE_START, UDP_LOCAL_PORT_RANGE_END in H. lia.
Qed.

Lemma with_local_ip_ok x a : pcb_ok x -> 0 <= a < 4294967296 -> pcb_ok (with_local_ip x a).
Proof. intros [] H. now constructor. Qed.

Lemma listed_pcb pcb u : pcb_heap (listed pcb u) = pcb_heap u.
Proof. unfold listed. now case_bool_decide. Qed.

Lemma listed_set pcb y u : listed pcb (set_pcb pcb y u) =
  set_pcbs (if bool_decide (pcb ∈ udp_pcbs u) then udp_pcbs u else pcb :: udp_pcbs u) (set_pcb pcb y u).
Proof. unfold listed. cbn [set_pcb udp_pcbs]. now case_bool_decide. Qed.

Lemma udp_bind_ok u pcb x ipaddr port err u' :
  udp_ok u -> pcb_heap u !! pcb = Some x -> 0 <= addr_or_any ipaddr < 4294967296 -> 0 <= port < 65536 ->
  udp_bind pcb ipaddr port u = ret (err, u') -> udp_ok u'.
Proof.
  intros Hu Hx Ha Hp. rewrite (udp_bind_spec u pcb x ipaddr port Hu Hx). intros E. injection (f_equal (fun m => fst (m [])) E) as E'. clear E.
  pose proof (with_local_ip_ok x _ (uo_pcb u Hu _ _ Hx) Ha) as Hy.
  destruct (bind_port u port) as [n|] eqn:En; injection E' as <- <-.
  - pose proof (bind_port_range u port n Hp En) as Hn. rewrite listed_set. apply (bound_ok u pcb x); [exact Hu|exact Hx|cbn; lia|].
    destruct Hy. constructor; cbn in *; auto. lia.
  - apply (set_pcb_ok u pcb x); [exact Hu|exact Hx|reflexivity|exact Hy].
Qed.

(** What [udp_connect] makes of a bound control block. *)
Definition connected (x : udp_pcb) (ipaddr : option Z) (port : Z) : udp_pcb :=
  with_remote x (addr_or_any ipaddr) port (Z.lor (flags x) UDP_FLAGS_CONNECTED).

Lemma udp_connect_spec u pcb x ipaddr port :
  udp_ok u -> pcb_heap u !! pcb = Some x ->
  udp_connect pcb ipaddr port u =
    ret (if local_port x =? 0 then
           match free_port u with
           | Some n => (ERR_OK, Udp (pcb :: udp_pcbs u) (<[pcb := connected (with_local_port x n) ipaddr port]> (pcb_heap u)))
           | None => (ERR_USE, u)
           end
         else (ERR_OK, set_pcb pcb (connected x ipaddr port) u)).
Proof.
  intros Hu Hx. pose proof (uo_listed u Hu pcb x Hx) as Hl. unfold udp_connect. rewrite (get_pcb_some _ _ _ Hx), bind_ret.
  destruct (Z.eqb_spec (local_port x) 0) as [E0|E0].
  - rewrite (udp_bind_spec u pcb x) by assumption. rewrite E0. unfold bind_port. cbn [Z.eqb addr_or_any].
    assert (Hni : pcb ∉ udp_pcbs u) by tauto. assert (Ex : with_local_ip x (local_ip x) = x) by now destruct x. cbv zeta. rewrite Ex.
    destruct (free_port u) as [n|]; rewrite bind_ret; cbn [Z.eqb negb ERR_OK ERR_USE].
    + rewrite listed_set, bool_decide_eq_false_2 by exact Hni. rewrite (get_pcb_some _ (with_local_port x n)) by apply lookup_insert_eq.
      rewrite bind_ret. unfold set_pcb, set_pcbs. cbn [udp_pcbs pcb_heap]. rewrite bool_decide_eq_true_2 by left.
      now rewrite insert_insert_eq.
    + unfold set_pcb. rewrite insert_id by exact Hx. now destruct u.
  - rewrite bind_ret. cbn [Z.eqb negb ERR_OK]. rewrite (get_pcb_some _ _ _ Hx), bind_ret. cbn [set_pcb udp_pcbs].
    now rewrite bool_decide_eq_true_2 by tauto.
Qed.

Lemma flags_lor f k : 0 <= f < 256 -> 0 <= k < 256 -> 0 <= Z.lor f k < 256.
Proof.
  intros Hf Hk. split; [apply Z.lor_nonneg; lia|]. change 256 with (2 ^ 8) in *.
  destruct (Z.eq_dec (Z.lor f k) 0) as [->|Hne]; [lia|]. pose proof (proj2 (Z.lor_nonneg f k) ltac:(lia)).
  apply Z.log2_lt_pow2; [lia|]. rewrite Z.log2_lor by lia. apply Z.max_lub_lt.
  - destruct (Z.eq_dec f 0) as [->|]; [cbn; lia|]. apply Z.log2_lt_pow2; lia.
  - destruct (Z.eq_dec k 0) as [->|]; [cbn; lia|]. apply Z.log2_lt_pow2; lia.
Qed.

Lemma connected_ok x ipaddr port : pcb_ok x -> 0 <= addr_or_any ipaddr < 4294967296 -> 0 <= port < 65536 -> pcb_ok (connected x ipaddr port).
Proof. intros [] Ha Hp. constructor; cbn; auto. apply flags_lor; [assumption|unfold UDP_FLAGS_CONNECTED; lia]. Qed.

Lemma udp_connect_ok u pcb x ipaddr port err u' :
  udp_ok u -> pcb_heap u !! pcb = Some x -> 0 <= addr_or_any ipaddr < 4294967296 -> 0 <= port < 65536 ->
  udp_connect pcb ipaddr port u = ret (err, u') -> udp_ok u'.
Proof.
  intros Hu Hx Ha Hp. rewrite (udp_connect_spec u pcb x ipaddr port Hu Hx). intros E. injection (f_equal (fun m => fst (m [])) E) as E'. clear E.
  pose proof (uo_pcb u Hu _ _ Hx) as Hok. pose proof (uo_listed u Hu _ _ Hx) as Hl. destruct (Z.eqb_spec (local_port x) 0) as [E0|E0].
  - destruct (free_port u) as [n|] eqn:En; injection E' as <- <-; [|exact Hu].
    pose proof (bind_port_range u 0 n ltac:(lia) En) as Hn. pose proof (bound_ok u pcb x (connected (with_local_port x n) ipaddr port) Hu Hx) as H.
    rewrite bool_decide_eq_false_2 in H by tauto. apply H; [cbn; lia|]. apply connected_ok; auto. destruct Hok. constructor; cbn; auto. lia.
  - injection E' as <- <-. apply (set_pcb_ok u pcb x); auto. now apply connected_ok.
Qed.

Definition disconnected (x : udp_pcb) : udp_pcb := with_remote x IP_ADDR_ANY 0 (Z.land (flags x) 0xfb).

Lemma udp_disconnect_spec u pcb x : pcb_heap u !! pcb = Some x -> udp_disconnect pcb u = ret (set_pcb pcb (disconnected x) u).
Proof. intros Hx. unfold udp_disconnect. now rewrite (get_pcb_some _ _ _ Hx), bind_ret. Qed.

Lemma disconnected_ok x : pcb_ok x -> pcb_ok (disconnected x).
Proof.
  intros []. constructor; cbn; auto; try (unfold IP_ADDR_ANY; lia). split; [apply Z.land_nonneg; lia|].
  assert (H0 : 0 <= Z.land (flags x) 0xfb) by (apply Z.land_nonneg; lia).
  destruct (Z.eq_dec (Z.land (flags x) 0xfb) 0) as [->|Hne]; [lia|]. change 256 with (2 ^ 8). apply Z.log2_lt_pow2; [lia|].
  pose proof (Z.log2_land (flags x) 0xfb ltac:(lia) ltac:(lia)) as Hlg. change (Z.log2 0xfb) with 7 in Hlg. lia.
Qed.

Lemma udp_recv_spec u pcb x f arg : pcb_heap u !! pcb = Some x -> udp_recv pcb f arg u = ret (set_pcb pcb (with_recv x f arg) u).
Proof. intros Hx. unfold udp_recv. now rewrite (get_pcb_some _ _ _ Hx), bind_ret. Qed.

Lemma with_recv_ok x f arg : pcb_ok x -> pcb_ok (with_recv x f arg).
Proof. intros []. now constructor. Qed.

(** The list without [pcb]. *)
Definition without (pcb : addr) (l : list addr) : list addr := filter (fun a => a <> pcb) l.

Lemma without_id pcb l : pcb ∉ l -> without pcb l = l.
Proof.
  intros H. unfold without. induction l as [|a l IH]; [reflexivity|]. rewrite filter_cons_True; [f_equal; apply IH|]; intros E; apply H; [now right|subst; left].
Qed.

Lemma without_head pcb l : pcb ∉ l -> without pcb (pcb :: l) = l.
Proof. intros H. unfold without. rewrite filter_cons_False by tauto. now apply without_id. Qed.

Lemma without_cons a pcb l : a <> pcb -> without pcb (a :: l) = a :: without pcb l.
Proof. intros H. unfold without. now rewrite filter_cons_True. Qed.

Lemma without_app pcb l1 l2 : without pcb (l1 ++ l2) = without pcb l1 ++ without pcb l2.
Proof. apply filter_app. Qed.

Lemma unlink_loop_spec pcb a l : a <> pcb -> NoDup (a :: l) -> unlink_loop pcb (a :: l) = a :: without pcb l.
Proof.
  revert a. induction l as [|b l IH]; intros a Ha Hn; [reflexivity|]. apply NoDup_cons in Hn as [Hn1 Hn]. cbn [unlink_loop].
  pose proof Hn as Hn'. apply NoDup_cons in Hn' as [Hb Hl]. destruct (decide (b = pcb)) as [->|Hne].
  - rewrite bool_decide_eq_true_2 by reflexivity. rewrite without_head by exact Hb. f_equal.
    destruct l as [|c l]; [reflexivity|]. assert (c <> pcb) by (intros ->; apply Hb; left).
    clear IH. revert c Hb Hl H Hn Hn1. induction l as [|d l IHl]; intros c Hb Hl H Hn Hn1; [reflexivity|]. cbn [unlink_loop].
    assert (d <> pcb) by (intros ->; apply Hb; right; left). rewrite bool_decide_eq_false_2 by assumption. f_equal.
    apply (IHl d); auto; [set_solver|now apply NoDup_cons in Hl|inversion Hn; subst; constructor; [set_solver|now apply NoDup_cons in Hl]|set_solver].
  - rewrite bool_decide_eq_false_2 by exact Hne. f_equal. change (unlink_loop pcb (b :: l) = without pcb (b :: l)). rewrite IH by assumption.
    now rewrite without_cons.
Qed.

Lemma udp_remove_spec u pcb x : udp_ok u -> pcb_heap u !! pcb = Some x ->
  udp_remove pcb u = ret (Udp (without pcb (udp_pcbs u)) (delete pcb (pcb_heap u))).
Proof.
  intros [Hn _ _ _] Hx. unfold udp_remove. rewrite (get_pcb_some _ _ _ Hx), bind_ret. f_equal. f_equal.
  destruct (udp_pcbs u) as [|a l]; [reflexivity|]. pose proof Hn as Hn'. apply NoDup_cons in Hn' as [Ha _].
  destruct (decide (a = pcb)) as [->|Hne].
  - rewrite bool_decide_eq_true_2 by reflexivity. now rewrite without_head.
  - rewrite bool_decide_eq_false_2 by exact Hne. rewrite unlink_loop_spec by assumption. now rewrite without_cons.
Qed.

Lemma elem_of_without pcb l a : a ∈ without pcb l <-> a <> pcb /\ a ∈ l.
Proof. unfold without. now rewrite list_elem_of_filter. Qed.

Lemma removed_ok u pcb : udp_ok u -> udp_ok (Udp (without pcb (udp_pcbs u)) (delete pcb (pcb_heap u))).
Proof.
  intros [Hn Ha Hl Hp]. constructor; cbn.
  - now apply NoDup_filter.
  - intros a [Hne Hin]%elem_of_without. rewrite lookup_delete_ne by congruence. now apply Ha.
  - intros a x [Hne Hx]%lookup_delete_Some. rewrite elem_of_without, <- (Hl a x Hx). split; [tauto|auto].
  - intros a x [_ Hx]%lookup_delete_Some. now apply (Hp a).
Qed.

Definition new_pcb : udp_pcb := UdpPcb 0 0 0 0 UDP_TTL 0 0 0 None 0.

Lemma udp_new_spec u : surely (udp_new u) (fun '(r, u') =>
  match r with None => u' = u | Some a => pcb_heap u !! a = None /\ u' = set_pcb a new_pcb u end).
Proof.
  unfold udp_new. eapply surely_bind; [apply (surely_malloc (fun _ => True)); exact I|]. intros [|] _; apply surely_ret; [|reflexivity].
  split; [|reflexivity]. apply not_elem_of_dom, is_fresh.
Qed.

Lemma new_pcb_ok u a : udp_ok u -> pcb_heap u !! a = None -> udp_ok (set_pcb a new_pcb u).
Proof.
  intros [Hn Ha Hl Hp] Hf. assert (Hni : a ∉ udp_pcbs u) by (intros Hin; destruct (Ha a Hin); congruence).
  constructor; cbn; [exact Hn|..].
  - intros b Hb. destruct (decide (b = a)) as [->|Hne]; [rewrite lookup_insert_eq; eauto|rewrite lookup_insert_ne by congruence; auto].
  - intros b z. destruct (decide (b = a)) as [->|Hne]; [|rewrite lookup_insert_ne by congruence; apply Hl].
    rewrite lookup_insert_eq. intros [= <-]. cbn. tauto.
  - intros b z. destruct (decide (b = a)) as [->|Hne]; [|rewrite lookup_insert_ne by congruence; apply Hp].
    rewrite lookup_insert_eq. intros [= <-]. constructor; vm_compute; split; congruence.
Qed.

(** ** Demultiplexing *)

Section Demux.
Variables (u : udp) (src_ip dest_ip src dest : Z) (broadcast : bool).

Definition holds (f : udp_pcb -> bool) (a : addr) : bool := match pcb_heap u !! a with Some x => f x | None => false end.

(** A control block that is connected to the sender, and one that is not
    connected. *)
Definition perfect : addr -> bool := holds (fun x => local_match dest_ip dest broadcast x && remote_match src_ip src x).
Definition candidate : addr -> bool := holds (fun x => local_match dest_ip dest broadcast x && unconnected x).

(** The best control block, and the list with it in front if it is
    connected to the sender. *)
Definition best_pcb : option addr * list addr :=
  match List.find perfect (udp_pcbs u) with
  | Some a => (Some a, a :: without a (udp_pcbs u))
  | None => (List.find candidate (udp_pcbs u), udp_pcbs u)
  end.

Lemma find_not_in (f : addr -> bool) (a : addr) l : f a = true -> Forall (fun b => f b = false) l -> a ∉ l.
Proof. intros Ha Hl Hin. rewrite Forall_forall in Hl. specialize (Hl a Hin). congruence. Qed.

Lemma demux_loop_spec l : forall before uncon,
  NoDup (before ++ l) -> (forall a, a ∈ l -> is_Some (pcb_heap u !! a)) ->
  demux_loop u src_ip dest_ip src dest broadcast before l uncon =
    ret (match List.find perfect l with
         | Some a => (Some a, a :: before ++ without a l)
         | None => (match uncon with Some a => Some a | None => List.find candidate l end, before ++ l)
         end).
Proof.
  induction l as [|a l IH]; intros before uncon Hn Ha.
  - cbn. rewrite app_nil_r. now destruct uncon.
  - cbn [demux_loop List.find]. destruct (Ha a ltac:(left)) as [x Hx]. rewrite (get_pcb_some _ _ _ Hx), bind_ret.
    unfold perfect at 1, candidate at 1, holds. rewrite Hx. cbv zeta. apply NoDup_app in Hn as (Hn1 & Hn2 & Hn3).
    pose proof Hn3 as Hn4. apply NoDup_cons in Hn4 as [Hal Hnl].
    destruct (local_match dest_ip dest broadcast x && remote_match src_ip src x) eqn:E; [now rewrite without_head|].
    rewrite IH.
    + destruct (List.find perfect l) as [b|] eqn:Eb.
      * rewrite <- app_assoc. cbn [app]. rewrite without_cons; [reflexivity|]. intros ->. apply List.find_some in Eb as [Hb _]. apply Hal. now apply list_elem_of_In.
      * rewrite <- app_assoc. cbn [app]. f_equal. f_equal. destruct uncon as [c|].
        { now rewrite bool_decide_eq_false_2, andb_false_r by discriminate. }
        rewrite bool_decide_eq_true_2 by reflexivity. rewrite andb_true_r. now destruct (local_match dest_ip dest broadcast x && unconnected x).
    + rewrite <- app_assoc. apply NoDup_app. auto.
    + intros b Hb. apply Ha. now right.
Qed.

Lemma demux_spec : udp_ok u ->
  demux_loop u src_ip dest_ip src dest broadcast [] (udp_pcbs u) None = ret best_pcb.
Proof.
  intros [Hn Ha _ _]. rewrite demux_loop_spec by assumption. unfold best_pcb.
  now destruct (List.find perfect (udp_pcbs u)).
Qed.

Lemma best_permutation : NoDup (udp_pcbs u) -> Permutation (snd best_pcb) (udp_pcbs u).
Proof.
  intros Hn. unfold best_pcb. destruct (List.find perfect (udp_pcbs u)) as [a|] eqn:E; [|reflexivity]. cbn [snd].
  apply List.find_some in E as [Hin _]. apply list_elem_of_In in Hin. apply list_elem_of_split in Hin as (l1 & l2 & El). rewrite El in *.
  rewrite without_app. apply NoDup_app in Hn as (H1 & H2 & H3). apply NoDup_cons in H3 as [H4 H5].
  rewrite (without_id a l1) by (intros Hi; apply (H2 a Hi); left). rewrite without_head by exact H4. now rewrite Permutation_middle.
Qed.
End Demux.

Lemma relisted_ok u l : udp_ok u -> Permutation l (udp_pcbs u) -> udp_ok (set_pcbs l u).
Proof.
  intros [Hn Ha Hl Hp] E. constructor; cbn; [|intros a; rewrite E; apply Ha|intros a x; rewrite E; apply Hl|exact Hp].
  now rewrite E.
Qed.
