(* ===== verification/UdpInSpec.v ===== *)
(** * lwIP: sending and receiving UDP datagrams

    The bytes of a datagram, the program [udp_sendto_if], and that sending
    leaves the control blocks alone; what [udp_input] makes of a packet: the
    data go to a socket, the sender is told that there is none, or the packet
    is freed. *)
From Stdlib Require Import ZArith List Lia Bool.
From stdpp Require Import base gmap list.
From S2P Require Import Prelude CMonad Pbuf PbufChain PbufData PbufEdit PbufAlloc.
From S2P Require Import Inet InetChksum ChksumSpec Netif IpHdr Frames Driver.
From S2P Require Import IpReassMem IpReassInv IpFrag IpFragSpec PacketEdit IpOut.
From S2P Require Import IpOutSpec Icmp EchoSpec Udp UdpSpec.
#[local] Open Scope Z_scope.
#[local] Open Scope cmonad_scope.

(** ** The bytes of a datagram *)

Definition udp_header (src dest len chksum : Z) : list Z :=
  field16 (htons src) ++ field16 (htons dest) ++ field16 (htons len) ++ field16 chksum.

(** The checksum of the bytes [d], those of a datagram, with the pseudo header. *)
Definition pseudo_chksum (src_ip dst_ip : Z) (d : list Z) : Z :=
  not16 (canon16 (pseudo_sum d src_ip dst_ip IP_PROTO_UDP (Z.of_nat (length d)))).

(** What [udp_sendto_if] stores for the checksum [c]. *)
Definition stored_chksum (c : Z) : Z := if c =? 0 then 0xffff else c.

Definition udp_datagram (src_ip dst_ip src dest : Z) (nochksum : bool) (data : list Z) : list Z :=
  let len := 8 + Z.of_nat (length data) in
  let c := if nochksum then 0 else stored_chksum (pseudo_chksum src_ip dst_ip (udp_header src dest len 0 ++ data)) in
  udp_header src dest len c ++ data.

Lemma field16_range x : Forall byte (field16 x).
Proof. repeat constructor; apply Z.mod_pos_bound; lia. Qed.

Lemma udp_header_bytes src dest len c : Forall byte (udp_header src dest len c).
Proof. unfold udp_header. repeat (apply Forall_app; split); apply field16_range. Qed.

Lemma pseudo_sum_nonneg bs src dest len : Forall byte bs -> 0 <= src -> 0 <= dest -> 0 <= len < 65536 ->
  0 <= pseudo_sum bs src dest IP_PROTO_UDP len.
Proof.
  intros Hb Hs Hd Hl. unfold pseudo_sum. pose proof (le_value_nonneg _ Hb). pose proof (htons_range IP_PROTO_UDP ltac:(unfold IP_PROTO_UDP; lia)). pose proof (htons_range len ltac:(lia)).
  unfold IP_PROTO_UDP in *. dlia.
Qed.

Lemma pseudo_chksum_range src dst d : Forall byte d -> 0 <= src -> 0 <= dst -> Z.of_nat (length d) < 65536 -> 0 <= pseudo_chksum src dst d <= 65535.
Proof.
  intros Hb Hs Hd Hl. unfold pseudo_chksum. pose proof (canon_range _ (pseudo_sum_nonneg d src dst (Z.of_nat (length d)) Hb Hs Hd ltac:(lia))) as Hc.
  rewrite not16_value by exact Hc. lia.
Qed.

(** A datagram with a checksum passes the check of the receiver. *)
Lemma datagram_verifies src_ip dst_ip src dest data :
  Forall byte data -> 0 <= src_ip -> 0 <= dst_ip -> Z.of_nat (length data) + 8 < 65536 ->
  let d := udp_datagram src_ip dst_ip src dest false data in
  get16 d 6 <> 0 /\ pseudo_chksum src_ip dst_ip d = 0.
Proof.
  intros Hb Hs Hd Hl d. unfold udp_datagram in d. set (len := 8 + Z.of_nat (length data)) in *. set (d0 := udp_header src dest len 0 ++ data) in *.
  assert (B0 : Forall byte d0) by (apply Forall_app; split; [apply udp_header_bytes|exact Hb]).
  assert (L0 : Z.of_nat (length d0) = len) by (unfold d0, udp_header; rewrite length_app; cbn [length app field16]; lia).
  pose proof (pseudo_chksum_range src_ip dst_ip d0 B0 Hs Hd ltac:(lia)) as Hr. set (c := pseudo_chksum src_ip dst_ip d0) in *.
  assert (Hsc : 0 < stored_chksum c <= 65535) by (unfold stored_chksum; destruct (Z.eqb_spec c 0); lia).
  set (a := field16 (htons src) ++ field16 (htons dest) ++ field16 (htons len)).
  assert (Ed : d = a ++ [stored_chksum c mod 256; stored_chksum c / 256] ++ data).
  { unfold d, udp_header, a. rewrite <- !app_assoc. do 3 f_equal. unfold field16. rewrite (Z.mod_small (stored_chksum c / 256)) by dlia. reflexivity. }
  assert (Ed0 : d0 = a ++ [0; 0] ++ data) by (unfold d0, udp_header, a; rewrite <- !app_assoc; reflexivity).
  assert (Ba : Forall byte a) by (unfold a; repeat (apply Forall_app; split); apply field16_range).
  split.
  - rewrite Ed. unfold get16. rewrite (bytes_at_app a) by reflexivity. cbn [firstn app le_value]. dlia.
  - assert (Ld : Z.of_nat (length d) = len) by (rewrite Ed; unfold a; rewrite !length_app; cbn [length app field16]; lia).
    unfold pseudo_chksum. rewrite Ld. set (k := src_ip mod 65536 + src_ip / 65536 + dst_ip mod 65536 + dst_ip / 65536 + htons IP_PROTO_UDP + htons len).
    assert (Es : forall bs, pseudo_sum bs src_ip dst_ip IP_PROTO_UDP len = le_value bs + k) by (intros; unfold pseudo_sum, k; lia).
    pose proof (pseudo_sum_nonneg d0 src_ip dst_ip len B0 Hs Hd ltac:(lia)) as Hz. rewrite Es in Hz.
    assert (Hk : 0 <= k) by (pose proof (htons_range IP_PROTO_UDP ltac:(unfold IP_PROTO_UDP; lia)); pose proof (htons_range len ltac:(lia)); unfold k, IP_PROTO_UDP in *; dlia).
    assert (Ec : c = not16 (canon16 (le_value d0 + k))) by (unfold c, pseudo_chksum; now rewrite L0, Es).
    pose proof (stored_bytes a data (stored_chksum c) Ba Hb ltac:(lia) eq_refl) as He. rewrite <- Ed, <- Ed0 in He.
    assert (E : eqc (pseudo_sum d src_ip dst_ip IP_PROTO_UDP len) (le_value d0 + k + stored_chksum c)).
    { rewrite Es. replace (le_value d0 + k + stored_chksum c) with (le_value d0 + stored_chksum c + k) by lia. apply eqc_add; [exact He|now apply eqc_refl]. }
    pose proof (canon_range _ Hz) as Hcr. rewrite not16_value in Ec by exact Hcr.
    assert (E2 : 65535 = canon16 (pseudo_sum d src_ip dst_ip IP_PROTO_UDP len)).
    { apply canon_unique; [|lia]. symmetry. etransitivity; [exact E|]. pose proof (eqc_canon _ Hz) as Hcan. symmetry.
      unfold stored_chksum. destruct (Z.eqb_spec c 0) as [E0|E0].
      - assert (Ecc : canon16 (le_value d0 + k) = 65535) by lia. etransitivity; [|apply eqc_add; [exact Hcan|apply eqc_refl; lia]].
        rewrite Ecc. symmetry. apply (eqc_step _ _ 1); lia.
      - etransitivity; [|apply eqc_add; [exact Hcan|apply eqc_refl; lia]]. replace (canon16 (le_value d0 + k) + c) with 65535 by lia. now apply eqc_refl. }
    rewrite <- E2. reflexivity.
Qed.

Lemma udp_datagram_length src_ip dst_ip src dest nochksum data :
  length (udp_datagram src_ip dst_ip src dest nochksum data) = (8 + length data)%nat.
Proof. reflexivity. Qed.

(** ** Writing the header *)

Lemma start_header_spec st q y l o sp dp :
  own_head st q y l o -> 8 <= pb_len y ->
  let c := content (st_mem st) ((q, y) :: l) in
  exists st', start_header q sp dp st = ret st' /\ written q st st' /\ own_head st' q y l o /\
    content (st_mem st') ((q, y) :: l) = splice (splice (splice c 0 (field16 (htons sp))) 2 (field16 (htons dp))) 6 (field16 0).
Proof.
  intros Hq Hy c. unfold start_header, lwip_assert. rewrite (fetch_some _ _ _ (head_lookup _ _ _ _ _ Hq)), bind_ret.
  unfold UDP_HLEN. destruct (Z.leb_spec 8 (pb_len y)) as [_|]; [|lia]. rewrite bind_ret.
  destruct (head_save st q y l o Hq 0 (field16 (htons sp))) as (st1 & E1 & W1 & H1 & C1); [lia|cbn; lia|]. rewrite E1, bind_ret.
  destruct (head_save st1 q y l o H1 2 (field16 (htons dp))) as (st2 & E2 & W2 & H2 & C2); [lia|cbn; lia|]. rewrite E2, bind_ret.
  destruct (head_save st2 q y l o H2 6 (field16 0)) as (st3 & E3 & W3 & H3 & C3); [lia|cbn; lia|]. exists st3. split; [exact E3|].
  split; [exact (written_trans _ _ _ _ W1 (written_trans _ _ _ _ W2 W3))|]. split; [exact H3|]. now rewrite C3, C2, C1.
Qed.

Lemma started jk sp dp data : length jk = 8%nat ->
  splice (splice (splice (splice (jk ++ data) 0 (field16 (htons sp))) 2 (field16 (htons dp))) 6 (field16 0)) 4 (field16 (htons (8 + Z.of_nat (length data)))) =
  udp_header sp dp (8 + Z.of_nat (length data)) 0 ++ data.
Proof.
  intros Hj. unfold udp_header. generalize (htons (8 + Z.of_nat (length data))). intros n. do 9 (destruct jk as [|? jk]; try discriminate Hj).
  unfold splice, field16. cbn [firstn skipn length app Nat.add]. now rewrite drop_0.
Qed.

Lemma end_header_spec st q y l o c sp dp data src_ip dst_ip nochksum :
  own_head st q y l o -> 8 <= pb_len y -> content (st_mem st) ((q, y) :: l) = c ->
  splice c 4 (field16 (htons (8 + Z.of_nat (length data)))) = udp_header sp dp (8 + Z.of_nat (length data)) 0 ++ data ->
  pb_tot_len y = 8 + Z.of_nat (length data) -> Forall byte data -> 0 <= src_ip < 4294967296 -> 0 <= dst_ip < 4294967296 ->
  exists st', end_header q src_ip dst_ip nochksum st = ret st' /\ written q st st' /\ own_head st' q y l o /\
    content (st_mem st') ((q, y) :: l) = udp_datagram src_ip dst_ip sp dp nochksum data.
Proof.
  intros Hq Hy Hc Hsp Et Hb Hs Hd. unfold end_header. rewrite (fetch_some _ _ _ (head_lookup _ _ _ _ _ Hq)), bind_ret. rewrite Et.
  pose proof (head_lengths _ _ _ _ _ Hq) as (Etl & Hl & Hm).
  destruct (head_save st q y l o Hq 4 (field16 (htons (8 + Z.of_nat (length data))))) as (st1 & E1 & W1 & H1 & C1); [lia|cbn; lia|]. rewrite E1, bind_ret.
  rewrite Hc in C1. change (Z.to_nat 4) with 4%nat in C1. rewrite Hsp in C1. unfold udp_datagram. destruct nochksum; [exists st1; auto|].
  set (len := 8 + Z.of_nat (length data)) in *. set (d0 := udp_header sp dp len 0 ++ data) in *.
  assert (B0 : Forall byte d0) by (apply Forall_app; split; [apply udp_header_bytes|exact Hb]).
  assert (L0 : Z.of_nat (length d0) = len) by (unfold d0, udp_header; rewrite length_app; cbn [length app field16]; lia).
  pose proof (oh_own _ _ _ _ _ H1) as [Hp1 Hv1 _ _].
  rewrite (chksum_pseudo_value st1 (Some q) ((q, y) :: l)), bind_ret by (auto; try rewrite C1; auto; unfold IP_PROTO_UDP; lia).
  rewrite C1. assert (Ec : not16 (canon16 (pseudo_sum d0 src_ip dst_ip IP_PROTO_UDP len)) = pseudo_chksum src_ip dst_ip d0) by (unfold pseudo_chksum; now rewrite L0).
  rewrite Ec. change (if pseudo_chksum src_ip dst_ip d0 =? 0 then 0xffff else pseudo_chksum src_ip dst_ip d0) with (stored_chksum (pseudo_chksum src_ip dst_ip d0)).
  destruct (head_save st1 q y l o H1 6 (field16 (stored_chksum (pseudo_chksum src_ip dst_ip d0)))) as (st2 & E2 & W2 & H2 & C2); [lia|cbn; lia|].
  exists st2. split; [exact E2|]. split; [exact (written_trans _ _ _ _ W1 W2)|]. split; [exact H2|]. rewrite C2, C1. unfold d0.
  generalize (stored_chksum (pseudo_chksum src_ip dst_ip (udp_header sp dp len 0 ++ data))). intros v. reflexivity.
Qed.

(** ** What sending leaves alone *)

(** Whenever [m] returns, it returns something with [Q]. *)
Definition whenever {A} (m : M A) (Q : A -> Prop) : Prop := forall h a h', m h = (Ok a, h') -> Q a.

Lemma whenever_ret {A} (a : A) (Q : A -> Prop) : Q a -> whenever (ret a) Q.
Proof. intros H h b h' [= <- <-]. exact H. Qed.

Lemma whenever_throw {A} e (Q : A -> Prop) : whenever (throw e) Q.
Proof. intros h a h'. discriminate. Qed.

Lemma whenever_fuel {A} (Q : A -> Prop) : whenever out_of_fuel Q.
Proof. intros h a h'. discriminate. Qed.

Lemma whenever_ub {A} (Q : A -> Prop) : whenever ub Q.
Proof. intros h a h'. discriminate. Qed.

Lemma whenever_true {A} (m : M A) : whenever m (fun _ => True).
Proof. intros h a h' _. exact I. Qed.

Lemma whenever_bind {A B} (m : M A) (k : A -> M B) Q Q' :
  whenever m Q -> (forall a, Q a -> whenever (k a) Q') -> whenever (bind m k) Q'.
Proof.
  intros Hm Hk h b h'. unfold bind. destruct (m h) as [[a|e| |] h1] eqn:E; try discriminate. exact (Hk a (Hm _ _ _ E) h1 b h').
Qed.

(** The next operation has nothing to do with [Q]. *)
Ltac skip := eapply whenever_bind; [apply whenever_true|]; intros ? _.
Ltac skip2 := eapply whenever_bind; [apply whenever_true|]; intros [? ?] _.

Section Keeps.
Context {W : Type} (P : W -> Prop) (junk : nat -> Z).
Context (output : netif -> addr -> Z -> store -> W -> M (Z * store * W)) (tcpip_callback : netif -> W -> M W).
Hypothesis Hout : forall n p dest st w, P w -> whenever (output n p dest st w) (fun '(_, _, w') => P w').
Hypothesis Hcall : forall n w, P w -> whenever (tcpip_callback n w) P.

Lemma send_frag_keeps n dest original p cop tmp poff nl st w : P w ->
  whenever (send_frag junk output n dest original p cop tmp poff nl st w) (fun '(_, _, w') => P w').
Proof.
  intros Hw. unfold send_frag. skip. destruct a as [[rambuf|] st1]; [|now apply whenever_ret].
  do 7 skip. destruct a5 as [[[p' nl']|] st2]; [|now apply whenever_ret]. do 2 skip.
  eapply (whenever_bind _ _ (fun '(_, w') => P w')).
  - unfold hand_over. eapply whenever_bind; [now apply Hout|]. intros [[? st3] w'] Hw'. skip2. now apply whenever_ret.
  - intros [st3 w'] Hw'. now apply whenever_ret.
Qed.

Lemma frag_loop_keeps fuel n dest original : forall p left ofo omf poff nl st w, P w ->
  whenever (frag_loop junk output fuel n dest original p left ofo omf poff nl st w) (fun '(_, _, w') => P w').
Proof.
  induction fuel as [|fuel IH]; intros p left ofo omf poff nl st w Hw; cbn [frag_loop]; (destruct (left =? 0); [now apply whenever_ret|]); [apply whenever_fuel|].
  eapply whenever_bind; [now apply send_frag_keeps|]. intros [[[[p' nl']|] st'] w'] Hw'; [now apply IH|now apply whenever_ret].
Qed.

Lemma send_packet_keeps p dest n st s : P (ip_rest s) ->
  whenever (send_packet junk output tcpip_callback p dest n st s) (fun '(_, _, s') => P (ip_rest s')).
Proof.
  intros Hs. unfold send_packet. destruct (dest =? nf_ip_addr n).
  - unfold netif_loop_output. do 2 skip. destruct a0 as [[r|] st1]; [|now apply whenever_ret]. skip. destruct a0 as [err st2].
    destruct (negb (err =? ERR_OK)); [skip2; now apply whenever_ret|]. skip.
    eapply (whenever_bind _ _ (fun '(_, s') => ip_rest s' = ip_rest s)).
    + unfold enqueue. eapply whenever_bind; [apply whenever_true|]. intros st3 _. now apply whenever_ret.
    + intros [st3 s1] Hs1. eapply whenever_bind; [apply Hcall; now rewrite Hs1|]. intros w' Hw'. now apply whenever_ret.
  - skip. eapply (whenever_bind _ _ (fun '(_, _, w') => P w')).
    + destruct (negb (nf_mtu n =? 0) && (nf_mtu n <? pb_tot_len a)); [|now apply Hout]. unfold ip_frag. do 2 skip. now apply frag_loop_keeps.
    + intros [[err st'] w'] Hw'. now apply whenever_ret.
Qed.

Lemma output_if_keeps p src dest ttl tos proto n st s : P (ip_rest s) ->
  whenever (ip_output_if junk output tcpip_callback p src (Some dest) ttl tos proto n st s) (fun '(_, _, s') => P (ip_rest s')).
Proof.
  intros Hs. unfold ip_output_if. skip. destruct a as [e st1]. destruct (negb (e =? 0)); [now apply whenever_ret|]. do 5 skip.
  now apply send_packet_keeps.
Qed.
End Keeps.

Lemma surely_whenever {A} (m : M A) Q Q' : surely m Q -> whenever m Q' -> surely m (fun a => Q a /\ Q' a).
Proof. intros H H' h. destruct (H h) as (a & h' & E & Ha). exists a, h'. split; [exact E|]. split; [exact Ha|exact (H' _ _ _ E)]. Qed.

Lemma runs_whenever {A} (m : M A) Q Q' : runs NoFail m Q no_err -> whenever m Q' -> runs NoFail m (fun a => Q a /\ Q' a) no_err.
Proof.
  intros H H' h Hh. specialize (H h Hh). destruct (m h) as [[a|e| |] h'] eqn:E; try exact H. destruct H as [H1 H2]. split; [exact H1|].
  split; [exact H2|exact (H' _ _ _ E)].
Qed.

(** ** Sending *)

Section Send.
Context {W : Type} (held : W -> list addr) (handed : W -> list (netif * Z * list Z)).
Context (output : netif -> addr -> Z -> store -> W -> M (Z * store * W)) `{Hdriver : !Driver held handed output}.
Context (tcpip_callback : netif -> W -> M W) `{Hscheduler : !Scheduler held handed tcpip_callback}.
Variable junk : nat -> Z.

(** What the rest of the system holds and got, seen from UDP. *)
Definition udp_held (w : udpstate W) : list addr := held (us_rest w).
Definition udp_handed (w : udpstate W) : list (netif * Z * list Z) := handed (us_rest w).

#[export] Instance udp_driver : Driver udp_held udp_handed (udp_output output).
Proof using Hdriver.
  intros n p l dest st w Hp Hv Hr Ha Hd. pose proof (driver_takes (Driver := Hdriver) n p l dest st (us_rest w) Hp Hv Hr Ha Hd) as H.
  intros h. destruct (H h) as ([st' w'] & h' & E & [Hev Hh]). exists (st', UdpState (us_udp w) w'), h'. split; [|split; [exact Hev|exact Hh]].
  revert E. unfold hand_over, udp_output, bind, ret. destruct (output n p dest st (us_rest w) h) as [[[[e st1] w1]|e| |] h1]; try discriminate.
  destruct (pbuf_free (Some p) st1 h1) as [[[k st2]|e'| |] h2]; try discriminate. now intros [= <- <- <-].
Qed.

#[export] Instance udp_scheduler : Scheduler udp_held udp_handed (udp_callback tcpip_callback).
Proof using Hscheduler.
  intros n w. unfold udp_callback. eapply surely_bind; [apply (scheduler_keeps (Scheduler := Hscheduler))|]. intros r [H1 H2]. now apply surely_ret.
Qed.

Lemma output_same_udp u n p dest st w : us_udp w = u ->
  whenever (udp_output output n p dest st w) (fun '(_, _, w') => us_udp w' = u).
Proof.
  intros <-. unfold udp_output. eapply whenever_bind; [apply whenever_true|]. intros [[err st'] r] _. now apply whenever_ret.
Qed.

Lemma callback_same_udp u n w : us_udp w = u -> whenever (udp_callback tcpip_callback n w) (fun w' => us_udp w' = u).
Proof. intros <-. unfold udp_callback. skip. now apply whenever_ret. Qed.

(** Data with room for the headers, that can be sent through [n]. *)
Record sendable_data (n : netif) (st : store) (s : ipstate (udpstate W)) (p : addr) (x : pbuf) (l : list (addr * pbuf)) (o : Z) : Prop := SendableData
  { sd_head : own_head st p x l o; sd_room : UDP_HLEN + IP_HLEN <= o; sd_full : Forall (fun c => 0 < pb_len (snd c)) l;
    sd_bytes : Forall byte (content (st_mem st) ((p, x) :: l)); sd_size : total ((p, x) :: l) + UDP_HLEN + IP_HLEN < 65536;
    sd_mtu : 0 <= nf_mtu n; sd_addr : 0 <= nf_ip_addr n < 4294967296; sd_send : sendable n ((p, shifted x (UDP_HLEN + IP_HLEN)) :: l);
    sd_accounted : accounted (ip_held udp_held) st s; sd_free : forall b, In b (p :: addrs l) -> ~ In b (ip_held udp_held s) }.

(** The control blocks once [pcb] has a port, and the port. *)
Definition bound (pcb : addr) (x : udp_pcb) (u : udp) : option (Z * udp) :=
  if local_port x =? 0 then
    match free_port u with Some n => Some (n, listed pcb (set_pcb pcb (with_local_port x n) u)) | None => None end
  else Some (local_port x, u).

Definition udp_source (x : udp_pcb) (n : netif) : Z := if ip_addr_isany (local_ip x) then nf_ip_addr n else local_ip x.

Definition no_chksum (x : udp_pcb) : bool := negb (Z.land (flags x) UDP_FLAGS_NOCHKSUM =? 0).

(** [udp_sendto_if], and the reference to the data given up. *)
Definition sendto_free (pcb p : addr) (dst_ip dst_port : Z) (n : netif) (st : store) (s : ipstate (udpstate W)) : M (store * ipstate (udpstate W)) :=
  '(_, st, s) <- udp_sendto_if junk output tcpip_callback pcb p dst_ip dst_port n st s;;
  '(_, st) <- pbuf_free (Some p) st;;
  ret (st, s).

Lemma with_udp_same (s : ipstate (udpstate W)) : with_udp (udp_of s) s = s.
Proof. destruct s as [i l [u w]]. reflexivity. Qed.

Lemma bind_for_send pcb x (s : ipstate (udpstate W)) :
  udp_ok (udp_of s) -> pcb_heap (udp_of s) !! pcb = Some x ->
  (if local_port x =? 0 then udp_bind pcb (Some (local_ip x)) (local_port x) (udp_of s) else ret (ERR_OK, udp_of s)) =
  ret (match bound pcb x (udp_of s) with Some (_, u) => (ERR_OK, u) | None => (ERR_USE, udp_of s) end).
Proof.
  intros Hu Hx. unfold bound. destruct (Z.eqb_spec (local_port x) 0) as [E|E]; [|reflexivity]. rewrite (udp_bind_spec _ pcb x) by assumption.
  assert (Ex : with_local_ip x (addr_or_any (Some (local_ip x))) = x) by now destruct x. cbv zeta. rewrite Ex, E. unfold bind_port. cbn [Z.eqb].
  destruct (free_port (udp_of s)); [reflexivity|]. unfold set_pcb. rewrite insert_id by exact Hx. now destruct (udp_of s).
Qed.

Lemma bound_spec pcb x u sp u' : udp_ok u -> pcb_heap u !! pcb = Some x -> bound pcb x u = Some (sp, u') ->
  pcb_heap u' !! pcb = Some (with_local_port x sp) /\ udp_ok u' /\ 0 < sp < 65536.
Proof.
  intros Hu Hx. unfold bound. pose proof (uo_pcb u Hu _ _ Hx) as Hok. destruct (Z.eqb_spec (local_port x) 0) as [E|E].
  - destruct (free_port u) as [n|] eqn:En; [|discriminate]. intros [= <- <-]. pose proof (bind_port_range u 0 n ltac:(lia) En) as Hn.
    rewrite listed_pcb, set_pcb_lookup. split; [reflexivity|]. split; [|exact Hn]. rewrite listed_set. apply (bound_ok u pcb x); [exact Hu|exact Hx|cbn; lia|].
    destruct Hok. constructor; cbn; auto. lia.
  - intros [= <- <-]. split; [rewrite Hx; now destruct x|]. split; [exact Hu|]. destruct Hok. lia.
Qed.

(** The header in front of the data: to the point where the addresses are
    compared. *)
Lemma header_started n st s p x l o sp dp :
  sendable_data n st s p x l o -> let data := content (st_mem st) ((p, x) :: l) in let y := shifted x 8 in
  exists st1 st2, header_space junk p st = ret (Some p, st1) /\ start_header p sp dp st1 = ret st2 /\ own_head st2 p y l (o - 8) /\ untouched [p] st st2 /\
    8 <= pb_len y /\ pb_tot_len y = 8 + Z.of_nat (length data) /\
    splice (content (st_mem st2) ((p, y) :: l)) 4 (field16 (htons (8 + Z.of_nat (length data)))) = udp_header sp dp (8 + Z.of_nat (length data)) 0 ++ data.
Proof.
  intros [Hh Hro Hf Hb Hsz _ _ _ _ _] data y. unfold UDP_HLEN, IP_HLEN in *. pose proof (head_lengths _ _ _ _ _ Hh) as (Et & Hl & Hm).
  assert (Ld : Z.of_nat (length data) = total ((p, x) :: l)) by exact (content_length _ _ (op_valid _ _ _ (oh_own _ _ _ _ _ Hh))).
  destruct (head_move st p x l o Hh 8) as (E1 & Hh1 & Hu1 & _ & Hc1); [lia|lia|lia|]. fold y in E1, Hh1, Hu1, Hc1.
  destruct (Hc1 ltac:(lia)) as (jk & Lj & Ec1). assert (Ely : pb_len y = pb_len x + 8) by reflexivity.
  destruct (start_header_spec (set_pbuf p y st) p y l (o - 8) sp dp Hh1 ltac:(lia)) as (st2 & E2 & W2 & Hh2 & C2).
  exists (set_pbuf p y st), st2. split; [unfold header_space, UDP_HLEN; rewrite E1, bind_ret; reflexivity|]. split; [exact E2|]. split; [exact Hh2|]. split.
  { eapply untouched_trans; [exact Hu1|]. apply changed_untouched. apply (written_changed p); [exact W2|now left]. }
  split; [lia|]. split; [change (pb_tot_len y) with (pb_tot_len x + 8); lia|]. rewrite C2, Ec1. now apply started.
Qed.

Lemma sendto_spec pcb x0 p x l o dst_ip dst_port n st s :
  udp_ok (udp_of s) -> pcb_heap (udp_of s) !! pcb = Some x0 -> sendable_data n st s p x l o ->
  0 <= dst_ip < 4294967296 ->
  match bound pcb x0 (udp_of s) with
  | None => udp_sendto_if junk output tcpip_callback pcb p dst_ip dst_port n st s = ret (ERR_USE, st, s)
  | Some (sp, u) =>
      if ip_addr_isany (local_ip x0) || (local_ip x0 =? nf_ip_addr n) then
        surely (sendto_free pcb p dst_ip dst_port n st s)
          (fun '(st', s') =>
             let d := udp_datagram (udp_source x0 n) dst_ip sp dst_port (no_chksum x0) (content (st_mem st) ((p, x) :: l)) in
             let hdr := checked (new_header (udp_source x0 n) dst_ip (ttl x0) (tos x0) IP_PROTO_UDP (Z.of_nat (length d) + IP_HLEN) (ip_id s)) in
             evolves (ip_held udp_held) (p :: addrs l) st s st' s' /\ udp_of s' = u /\
             sent udp_handed n dst_ip (hdr ++ d) (next_id (with_udp u s)) st' s')
      else
        exists st', udp_sendto_if junk output tcpip_callback pcb p dst_ip dst_port n st s = ret (ERR_VAL, st', with_udp u s) /\
          own_head st' p (shifted x UDP_HLEN) l (o - UDP_HLEN) /\ untouched [p] st st'
  end.
Proof.
  intros Hu Hx Hsd Hdip. pose proof Hsd as [Hh Hro Hf Hb Hsz Hmtu Hadr Hsend Hac Hfr]. unfold UDP_HLEN, IP_HLEN in Hro, Hsz, Hsend.
  assert (Eb := bind_for_send pcb x0 s Hu Hx). destruct (bound pcb x0 (udp_of s)) as [[sp u]|] eqn:Ebd.
  2: { unfold udp_sendto_if. rewrite (get_pcb_some _ _ _ Hx), bind_ret, Eb, bind_ret. cbn [Z.eqb negb ERR_USE ERR_OK]. now rewrite with_udp_same. }
  destruct (bound_spec _ _ _ _ _ Hu Hx Ebd) as (Hxu & Hu' & Hsp).
  destruct (header_started n st s p x l o sp dst_port Hsd) as (st1 & st2 & E1 & E2 & Hh2 & Hu2 & Hy & Ety & Ec2).
  set (data := content (st_mem st) ((p, x) :: l)) in *. set (y := shifted x 8) in *. pose proof (uo_pcb _ Hu _ _ Hx) as Hok.
  assert (Ld : Z.of_nat (length data) = total ((p, x) :: l)) by exact (content_length _ _ (op_valid _ _ _ (oh_own _ _ _ _ _ Hh))).
  assert (Egood : forall st3, end_header p (udp_source x0 n) dst_ip (no_chksum x0) st2 = ret st3 ->
    ip_addr_isany (local_ip x0) || (local_ip x0 =? nf_ip_addr n) = true ->
    udp_sendto_if junk output tcpip_callback pcb p dst_ip dst_port n st s =
      ('(err, st, s) <- ip_output_if junk (udp_output output) (udp_callback tcpip_callback) p (Some (udp_source x0 n)) (Some dst_ip) (ttl x0) (tos x0) IP_PROTO_UDP n st3 (with_udp u s);;
       st <- free_header p p st;; ret (err, st, s))).
  { intros st3 E3 Eg. unfold udp_sendto_if. rewrite (get_pcb_some _ _ _ Hx), bind_ret, Eb, bind_ret. cbn [Z.eqb negb ERR_OK].
    rewrite E1, bind_ret. change (udp_of (with_udp u s)) with u. rewrite (get_pcb_some _ _ _ Hxu), bind_ret. cbn [local_port with_local_port local_ip flags ttl tos].
    rewrite E2, bind_ret. rewrite <- negb_orb, Eg. cbn [negb]. change (if ip_addr_isany (local_ip x0) then nf_ip_addr n else local_ip x0) with (udp_source x0 n).
    change (negb (Z.land (flags x0) UDP_FLAGS_NOCHKSUM =? 0)) with (no_chksum x0). now rewrite E3, bind_ret. }
  destruct (ip_addr_isany (local_ip x0) || (local_ip x0 =? nf_ip_addr n)) eqn:Eg.
  2: { exists st2. split; [|split; [exact Hh2|exact Hu2]]. unfold udp_sendto_if. rewrite (get_pcb_some _ _ _ Hx), bind_ret, Eb, bind_ret. cbn [Z.eqb negb ERR_OK].
    rewrite E1, bind_ret. change (udp_of (with_udp u s)) with u. rewrite (get_pcb_some _ _ _ Hxu), bind_ret. cbn [local_port with_local_port local_ip].
    rewrite E2, bind_ret. rewrite <- negb_orb, Eg. cbn [negb]. unfold free_header. now rewrite bool_decide_eq_true_2, bind_ret by reflexivity. }
  assert (Hsrc : 0 <= udp_source x0 n < 4294967296) by (unfold udp_source; destruct (ip_addr_isany (local_ip x0)); [exact Hadr|exact (po_local_ip _ Hok)]).
  destruct (end_header_spec st2 p y l (o - 8) _ sp dst_port data (udp_source x0 n) dst_ip (no_chksum x0) Hh2 Hy eq_refl Ec2 Ety Hb Hsrc Hdip) as (st3 & E3 & W3 & Hh3 & C3).
  specialize (Egood st3 E3 eq_refl).
  assert (Hu3 : untouched [p] st st3) by (eapply untouched_trans; [exact Hu2|]; apply changed_untouched, (written_changed p); [exact W3|now left]).
  assert (Hrd : ready udp_held n st3 (with_udp u s) p y l (o - 8)).
  { constructor; auto.
    - unfold IP_HLEN. lia.
    - change (total ((p, y) :: l)) with (pb_len x + 8 + total l). cbn [total] in Hsz. unfold IP_HLEN. lia.
    - assert (Es : shifted y IP_HLEN = shifted x (8 + 20)).
      { unfold y, shifted, IP_HLEN. rewrite (oh_payload _ _ _ _ _ Hh). unfold with_tot_len, with_len, with_payload. cbn [pb_next pb_payload pb_tot_len pb_len pb_type pb_flags pb_ref].
        replace (o - 8 - 20) with (o - (8 + 20)) by lia. now rewrite <- !Z.add_assoc. }
      now rewrite Es.
    - change (accounted (ip_held udp_held) st3 s). apply (accounted_untouched _ [p] st); [exact Hu3| |exact Hac]. intros b [<-|[]]. apply Hfr. now left. }
  pose proof (output_if_free_spec udp_held udp_handed (udp_output output) (udp_callback tcpip_callback) junk p y l (o - 8) (Some (udp_source x0 n)) dst_ip (ttl x0) (tos x0) IP_PROTO_UDP
    n st3 (with_udp u s) Hrd (po_ttl _ Hok) (po_tos _ Hok) ltac:(unfold IP_PROTO_UDP; lia)) as Ho.
  assert (Hkeep : whenever (output_if_free (udp_output output) (udp_callback tcpip_callback) junk p (Some (udp_source x0 n)) dst_ip (ttl x0) (tos x0) IP_PROTO_UDP n st3 (with_udp u s))
    (fun '(_, s') => udp_of s' = u)).
  { unfold output_if_free. eapply (whenever_bind _ _ (fun '(_, _, s') => us_udp (ip_rest s') = u)).
    - apply (output_if_keeps (fun w => us_udp w = u)); [intros; now apply output_same_udp|intros; now apply callback_same_udp|reflexivity].
    - intros [[err st'] s'] Hs'. skip2. now apply whenever_ret. }
  pose proof (surely_whenever _ _ _ Ho Hkeep) as Hall. clear Ho Hkeep.
  intros h. destruct (Hall h) as ([st' s'] & h' & E & [[Hev Hsent] Hus]). exists (st', s'), h'. split; [|split; [|split; [exact Hus|]]].
  - revert E. unfold sendto_free, output_if_free. rewrite Egood. unfold free_header. rewrite bool_decide_eq_true_2 by reflexivity. unfold bind, ret.
    destruct (ip_output_if _ _ _ _ _ _ _ _ _ _ _ _ h) as [[[[err st4] s4]|e| |] h4]; try discriminate. auto.
  - apply (evolves_before _ _ st st3) in Hev; [exact Hev| |exact Hfr]. apply (untouched_weaken [p]); [exact Hu3|]. intros b [<-|[]]. now left.
  - rewrite C3 in Hsent. assert (Esrc : source_of (Some (udp_source x0 n)) n = udp_source x0 n).
    { unfold source_of. destruct (ip_addr_isany (udp_source x0 n)) eqn:Ea; [|reflexivity]. unfold udp_source in *. destruct (ip_addr_isany (local_ip x0)) eqn:E5; [reflexivity|congruence]. }
    rewrite Esrc in Hsent. rewrite udp_datagram_length. replace (Z.of_nat (8 + length data)) with (total ((p, y) :: l)); [exact Hsent|].
    change (total ((p, y) :: l)) with (pb_len x + 8 + total l). cbn [total] in Ld. lia.
Qed.
End Send.


Lemma shifted_add x a b q o : pb_payload x = Some (q, o) -> shifted (shifted x a) b = shifted x (a + b).
Proof.
  intros H. unfold shifted. rewrite H. unfold with_tot_len, with_len, with_payload. cbn [pb_next pb_payload pb_tot_len pb_len pb_type pb_flags pb_ref].
  replace (o - a - b) with (o - (a + b)) by lia. now rewrite <- !Z.add_assoc.
Qed.

Lemma shifted_0 x q o : pb_payload x = Some (q, o) -> shifted x 0 = x.
Proof.
  intros H. unfold shifted. rewrite H. destruct x as [nx pl tl ln ty fl rf]. unfold with_tot_len, with_len, with_payload. cbn in *. subst pl.
  now rewrite Z.sub_0_r, !Z.add_0_r.
Qed.

(** A packet that was sent stays so when others are freed. *)
Lemma looped_removed {W} (handed : W -> list (netif * Z * list Z)) n bs s st1 st2 s' gone :
  looped handed n bs s st1 s' -> removed gone st1 st2 -> (forall b, In b gone -> ~ In b (loop_pbufs s')) -> looped handed n bs s st2 s'.
Proof.
  intros [(r & E & Hy & Hb) Hi Hh] [_ Hk] Hd. constructor; [|exact Hi|exact Hh]. exists r. split; [exact E|].
  assert (Hr : ~ In r gone).
  { intros Hin. apply (Hd r Hin). apply (loop_of_in n). unfold loop_of. rewrite E, lookup_insert_eq. cbn. apply in_app_iff. right. now left. }
  destruct (Hk r Hr) as [P M]. rewrite P. split; [exact Hy|]. rewrite <- Hb at 2. rewrite !(owned_block _ r _ PBUF_LINK_HLEN) by reflexivity. unfold block. now rewrite M.
Qed.

Lemma sent_removed {W} (handed : W -> list (netif * Z * list Z)) n dest bs s st1 st2 s' gone :
  sent handed n dest bs s st1 s' -> removed gone st1 st2 -> (forall b, In b gone -> ~ In b (loop_pbufs s')) -> sent handed n dest bs s st2 s'.
Proof.
  intros Hs Hk Hd. destruct Hs as [H1 H2|H1|H1 H2 H3 H4|now_ later H1 H2 H3 H4 H5 H6]; [|now apply SentNowhere|now apply SentWhole|now apply (SentFragments _ _ _ _ _ _ _ now_ later)].
  apply SentLoop; [exact H1|]. exact (looped_removed _ _ _ _ _ _ _ _ H2 Hk Hd).
Qed.

Lemma posted_removed {W} (handed : W -> list (netif * Z * list Z)) n dest bs s st1 st2 s' gone :
  posted handed n dest bs s st1 s' -> removed gone st1 st2 -> (forall b, In b gone -> ~ In b (loop_pbufs s')) -> posted handed n dest bs s st2 s'.
Proof.
  intros Hs Hk Hd. destruct Hs as [H1 H2|H1 H2 H3 H4|H1 H2 H3 H4 H5 H6]; [|now apply PostedWhole|now apply PostedFragments].
  apply PostedLoop; [exact H1|]. exact (looped_removed _ _ _ _ _ _ _ _ H2 Hk Hd).
Qed.

(** ** What the packet says *)

(** The length of the IP header of the packet [c], and what is behind it. *)
Definition ip_hlen (c : list Z) : Z := IPH_HL c * 4.
Definition udp_part (c : list Z) : list Z := skipn (Z.to_nat (ip_hlen c)) c.

Definition udp_src (d : list Z) : Z := ntohs (get16 d 0).
Definition udp_dest (d : list Z) : Z := ntohs (get16 d 2).

(** The control block for the packet [c], and the list afterwards. *)
Definition udp_match (u : udp) (inp : netif) (c : list Z) : option addr * list addr :=
  best_pcb u (get32 c 12) (get32 c 16) (udp_src (udp_part c)) (udp_dest (udp_part c)) (isbroadcast (get32 c 16) inp).

(** There is no checksum, or it is right. *)
Definition udp_good (c : list Z) : bool :=
  (get16 (udp_part c) 6 =? 0) || (pseudo_chksum (get32 c 12) (get32 c 16) (udp_part c) =? 0).

Definition udp_for_us (u : udp) (inp : netif) (c : list Z) : bool :=
  negb (bool_decide (fst (udp_match u inp c) = None)) || (nf_ip_addr inp =? get32 c 16).

Inductive verdict : Type :=
| UdpDrop
| UdpDeliver (pcb : addr) (recv recv_arg : Z)
| UdpUnreachable.

(** What becomes of the packet [c]. *)
Definition udp_verdict (u : udp) (inp : netif) (c : list Z) : verdict :=
  if (ip_hlen c + UDP_HLEN <=? Z.of_nat (length c)) && udp_for_us u inp c && udp_good c then
    match fst (udp_match u inp c) with
    | Some a =>
        match pcb_heap u !! a with
        | Some x => match recv x with Some f => UdpDeliver a f (recv_arg x) | None => UdpDrop end
        | None => UdpDrop
        end
    | None => if isbroadcast (get32 c 16) inp || ip_addr_ismulticast (get32 c 16) then UdpDrop else UdpUnreachable
    end
  else UdpDrop.

(** The control blocks afterwards. *)
Definition udp_after (u : udp) (inp : netif) (c : list Z) : udp :=
  if ip_hlen c + UDP_HLEN <=? Z.of_nat (length c) then set_pcbs (snd (udp_match u inp c)) u else u.

Lemma get32_range c i : Forall byte c -> 0 <= get32 c i < 4294967296.
Proof.
  intros Hb. unfold get32. assert (Hs : Forall byte (bytes_at c i 4)) by (unfold bytes_at; apply Forall_take, Forall_drop, Hb).
  pose proof (le_value_bounds _ Hs) as H. assert (L : (length (bytes_at c i 4) <= 4)%nat) by (unfold bytes_at; rewrite length_firstn; lia).
  assert (Hp : forall k, (k <= 4)%nat -> p256 k <= 4294967296) by (intros k Hk; do 5 (destruct k as [|k]; [vm_compute; congruence|]); lia).
  specialize (Hp _ L). lia.
Qed.

Lemma get16_range c i : Forall byte c -> 0 <= get16 c i < 65536.
Proof.
  intros Hb. unfold get16. assert (Hs : Forall byte (bytes_at c i 2)) by (unfold bytes_at; apply Forall_take, Forall_drop, Hb).
  pose proof (le_value_bounds _ Hs) as H. assert (L : (length (bytes_at c i 2) <= 2)%nat) by (unfold bytes_at; rewrite length_firstn; lia).
  assert (Hp : forall k, (k <= 2)%nat -> p256 k <= 65536) by (intros k Hk; do 3 (destruct k as [|k]; [vm_compute; congruence|]); lia).
  specialize (Hp _ L). lia.
Qed.

Lemma ip_hlen_range c : 0 <= ip_hlen c <= 60.
Proof.
  unfold ip_hlen, IPH_HL. change 0x0f with (Z.ones 4). rewrite Z.land_ones by lia. pose proof (Z.mod_pos_bound (Z.shiftr (ntohs (get16 c 0)) 8) (2 ^ 4)). lia.
Qed.

(** ** What is done with it *)

Section Receive.
Context {W : Type} (held : W -> list addr) (handed : W -> list (netif * Z * list Z)).
Context (output : netif -> addr -> Z -> store -> W -> M (Z * store * W)) `{Hdriver : !Driver held handed output}.
Context (tcpip_callback : netif -> W -> M W) `{Hscheduler : !Scheduler held handed tcpip_callback}.
Variable junk : nat -> Z.
Context (netif_list : list netif) (netif_default : option netif).
Hypothesis Hlist : Forall usable netif_list.
Hypothesis Hdefault : forall d, netif_default = Some d -> usable d.
Variable call_recv : Z -> Z -> addr -> addr -> option (addr * Z) -> Z -> store -> ipstate (udpstate W) -> M (store * ipstate (udpstate W)).

Local Notation input := (udp_input junk output tcpip_callback netif_list netif_default call_recv).
Local Notation hand_up := (udp_hand_up junk output tcpip_callback netif_list netif_default call_recv).
Local Notation held' := (ip_held (udp_held held)).

(** A packet that has arrived; its IP header, and the UDP header if it has
    one, are in the first pbuf. *)
Record datagram_arrived (st : store) (s : ipstate (udpstate W)) (p : addr) (x : pbuf) (l : list (addr * pbuf)) (o : Z) : Prop := DatagramArrived
  { da_head : own_head st p x l o; da_bytes : Forall byte (content (st_mem st) ((p, x) :: l));
    da_ip : IP_HLEN <= ip_hlen (content (st_mem st) ((p, x) :: l)) <= pb_len x;
    da_udp : ip_hlen (content (st_mem st) ((p, x) :: l)) + UDP_HLEN <= pb_len x \/ total ((p, x) :: l) < ip_hlen (content (st_mem st) ((p, x) :: l)) + UDP_HLEN;
    da_accounted : accounted held' st s; da_free : forall b, In b (p :: addrs l) -> ~ In b (held' s) }.

(** The packet is freed. *)
Definition dropped (m : M (store * ipstate (udpstate W))) (st : store) (p : addr) (l : list (addr * pbuf)) (s' : ipstate (udpstate W)) : Prop :=
  exists st', m = ret (st', s') /\ removed (p :: addrs l) st st'.

Lemma udp_drop_spec st st1 p x l o s' : own_head st1 p x l o -> untouched [p] st st1 -> dropped (udp_drop p st1 s') st p l s'.
Proof.
  intros Hh Hu. pose proof (oh_own _ _ _ _ _ Hh) as [[Hc _] _ _ Hr]. destruct (free_whole st1 p _ Hc Hr) as (k & st2 & E & [R1 R2]).
  exists st2. unfold udp_drop. rewrite E, bind_ret. split; [reflexivity|]. split; [exact R1|]. intros b Hb. destruct (R2 b Hb) as [-> ->].
  apply Hu. intros [<-|[]]. apply Hb. now left.
Qed.

(** The data of a datagram, its headers behind the payload. *)
Definition unwrapped (st : store) (p : addr) (x : pbuf) (l : list (addr * pbuf)) (o : Z) (st' : store) (x' : pbuf) : Prop :=
  let c := content (st_mem st) ((p, x) :: l) in
  own_head st' p x' l (o + (ip_hlen c + UDP_HLEN)) /\ content (st_mem st') ((p, x') :: l) = skipn 8 (udp_part c) /\
  untouched [p] st st' /\ st_mem st' = st_mem st /\
  st' = set_pbuf p (shifted x (Z.opp (ip_hlen c + UDP_HLEN))) st /\ x' = shifted x (Z.opp (ip_hlen c + UDP_HLEN)).

Lemma header_fields2 c : (2 <= length c)%nat -> IPH_HL (bytes_at c 0 2) = IPH_HL c.
Proof. intros H. do 2 (destruct c as [|? c]; [cbn in H; lia|]). reflexivity. Qed.

(** The IP header goes; [None]: the packet is too short. *)
Lemma first_move st s p x l o :
  datagram_arrived st s p x l o ->
  let c := content (st_mem st) ((p, x) :: l) in let y := shifted x (Z.opp (ip_hlen c)) in
  ip_hlen c + UDP_HLEN <= Z.of_nat (length c) ->
  pbuf_header (Some p) (Z.opp (ip_hlen c)) st = ret (0, set_pbuf p y st) /\ own_head (set_pbuf p y st) p y l (o + ip_hlen c) /\
  untouched [p] st (set_pbuf p y st) /\ content (st_mem st) ((p, y) :: l) = udp_part c /\ 8 <= pb_len y /\ pb_len y = pb_len x - ip_hlen c /\
  Z.of_nat (length (udp_part c)) = pb_tot_len y.
Proof.
  intros [Hh Hb Hip Hudp Hac Hfr] c y Hlen. fold c in Hip, Hudp, Hb. unfold IP_HLEN, UDP_HLEN in *. pose proof (head_lengths _ _ _ _ _ Hh) as (Et & Hl & Hm).
  pose proof (oh_room _ _ _ _ _ Hh) as Ho. assert (Lc : Z.of_nat (length c) = total ((p, x) :: l)) by exact (content_length _ _ (op_valid _ _ _ (oh_own _ _ _ _ _ Hh))).
  pose proof (ip_hlen_range c). destruct (head_move st p x l o Hh (Z.opp (ip_hlen c))) as (E1 & Hhy & Uy & Cy & _); [lia|lia|lia|]. fold y in E1, Hhy, Uy, Cy.
  specialize (Cy ltac:(lia)). rewrite Z.opp_involutive in Cy. fold c in Cy. change (st_mem (set_pbuf p y st)) with (st_mem st) in Cy.
  replace (o - Z.opp (ip_hlen c)) with (o + ip_hlen c) in Hhy by lia. split; [exact E1|]. split; [exact Hhy|]. split; [exact Uy|]. split; [exact Cy|].
  assert (Ely : pb_len y = pb_len x - ip_hlen c) by (change (pb_len y) with (pb_len x + Z.opp (ip_hlen c)); lia). split; [lia|]. split; [exact Ely|].
  change (pb_tot_len y) with (pb_tot_len x + Z.opp (ip_hlen c)). unfold udp_part. rewrite length_skipn. lia.
Qed.

Lemma udp_input_run st s p x l o inp :
  udp_ok (udp_of s) -> datagram_arrived st s p x l o ->
  let c := content (st_mem st) ((p, x) :: l) in let s1 := with_udp (udp_after (udp_of s) inp c) s in
  if (ip_hlen c + UDP_HLEN <=? Z.of_nat (length c)) && udp_for_us (udp_of s) inp c && udp_good c then
    exists st' x', unwrapped st p x l o st' x' /\
      input p inp st s = hand_up (fst (udp_match (udp_of s) inp c)) p (Some (p, o)) (get32 c 16) (udp_src (udp_part c)) (isbroadcast (get32 c 16) inp) st' s1
  else dropped (input p inp st s) st p l s1.
Proof.
  intros Hu Ha c s1. pose proof Ha as [Hh Hb Hip Hudp _ _]. fold c in Hb, Hip, Hudp. unfold IP_HLEN in Hip. pose proof (head_lengths _ _ _ _ _ Hh) as (Et & Hl & Hm).
  pose proof (content_length _ _ (op_valid _ _ _ (oh_own _ _ _ _ _ Hh))) as Lc. fold c in Lc. pose proof (ip_hlen_range c) as Hr.
  unfold udp_input. rewrite (fetch_some _ _ _ (head_lookup _ _ _ _ _ Hh)), bind_ret. cbv zeta. rewrite (head_load _ _ _ _ _ Hh 0 2), bind_ret by lia. fold c.
  change (firstn (Z.to_nat 2) (skipn (Z.to_nat 0) c)) with (bytes_at c 0 2). rewrite header_fields2 by lia. change (IPH_HL c * 4) with (ip_hlen c).
  rewrite Et, <- Lc. unfold s1, udp_after. destruct (Z.ltb_spec (Z.of_nat (length c)) (ip_hlen c + UDP_HLEN)) as [Hs|Hs].
  { destruct (Z.leb_spec (ip_hlen c + UDP_HLEN) (Z.of_nat (length c))) as [|_]; [lia|]. cbn [andb]. rewrite bind_ret, with_udp_same.
    apply (udp_drop_spec st st p x l o); [exact Hh|]. intros b _. now split. }
  destruct (Z.leb_spec (ip_hlen c + UDP_HLEN) (Z.of_nat (length c))) as [_|]; [|lia]. cbn [andb].
  destruct (first_move st s p x l o Ha Hs) as (E1 & Hhy & Uy & Cy & H8 & Ely & Ld). fold c in E1, Hhy, Uy, Cy, H8, Ely, Ld. set (y := shifted x (Z.opp (ip_hlen c))) in *.
  change (- ip_hlen c) with (Z.opp (ip_hlen c)). rewrite E1, bind_ret. cbn [Z.eqb negb]. rewrite bind_ret. set (sty := set_pbuf p y st) in *.
  rewrite (fetch_some _ _ _ (head_lookup _ _ _ _ _ Hhy)), bind_ret.
  assert (Eld : forall off n, 0 <= off -> 0 <= n -> off + n <= pb_len x -> load sty (pb_payload x) off n = ret (bytes_at c (Z.to_nat off) (Z.to_nat n))).
  { intros off n H1 H2 H3. change (load sty (pb_payload x) off n) with (load st (pb_payload x) off n). exact (head_load _ _ _ _ _ Hh off n H1 H2 H3). }
  rewrite (Eld 16 4), bind_ret by lia. change (le_value (bytes_at c (Z.to_nat 16) (Z.to_nat 4))) with (get32 c 16).
  assert (Edl : forall off n, 0 <= off -> 0 <= n -> off + n <= 8 -> load sty (pb_payload y) off n = ret (bytes_at (udp_part c) (Z.to_nat off) (Z.to_nat n))).
  { intros off n H1 H2 H3. rewrite (head_load _ _ _ _ _ Hhy off n H1 H2) by lia. change (st_mem sty) with (st_mem st). now rewrite Cy. }
  rewrite (Edl 0 2), bind_ret, (Edl 2 2), bind_ret by lia. rewrite (Eld 12 4), bind_ret by lia. change (le_value (bytes_at c (Z.to_nat 12) (Z.to_nat 4))) with (get32 c 12).
  change (ntohs (le_value (bytes_at (udp_part c) (Z.to_nat 0) (Z.to_nat 2)))) with (udp_src (udp_part c)).
  change (ntohs (le_value (bytes_at (udp_part c) (Z.to_nat 2) (Z.to_nat 2)))) with (udp_dest (udp_part c)).
  rewrite demux_spec, bind_ret by exact Hu. fold (udp_match (udp_of s) inp c). unfold udp_for_us.
  destruct (udp_match (udp_of s) inp c) as [pcb lst]. cbn [fst snd]. set (s2 := with_udp _ s).
  assert (Hdrop : dropped (udp_drop p sty s2) st p l s2) by (eapply udp_drop_spec; [exact Hhy|exact Uy]).
  destruct (negb (bool_decide (pcb = None)) || (nf_ip_addr inp =? get32 c 16)); cbn [andb]; [|exact Hdrop].
  unfold udp_chksum. rewrite (fetch_some _ _ _ (head_lookup _ _ _ _ _ Hhy)), bind_ret, (Edl 6 2), bind_ret by lia.
  change (le_value (bytes_at (udp_part c) (Z.to_nat 6) (Z.to_nat 2))) with (get16 (udp_part c) 6).
  pose proof (oh_own _ _ _ _ _ Hhy) as [Hpy Hvy _ _]. pose proof (head_lengths _ _ _ _ _ Hhy) as (Ety & _ & Hmy).
  assert (Ech : inet_chksum_pseudo (Some p) (get32 c 12) (get32 c 16) IP_PROTO_UDP (pb_tot_len y) sty = ret (pseudo_chksum (get32 c 12) (get32 c 16) (udp_part c))).
  { rewrite (chksum_pseudo_value sty (Some p) ((p, y) :: l)); [|exact Hpy|exact Hvy| |now apply get32_range|now apply get32_range|unfold IP_PROTO_UDP; lia|lia].
    - change (st_mem sty) with (st_mem st). rewrite Cy. unfold pseudo_chksum. now rewrite Ld.
    - change (st_mem sty) with (st_mem st). rewrite Cy. now apply Forall_drop. }
  rewrite Ech. unfold udp_good.
  assert (Hgo : forall k, (if negb (k =? 0) then udp_drop p sty s2
      else '(e, st0) <- pbuf_header (Some p) (- UDP_HLEN) sty;; _ <- lwip_assert (e =? 0);;
           hand_up pcb p (pb_payload x) (get32 c 16) (udp_src (udp_part c)) (isbroadcast (get32 c 16) inp) st0 s2) =
      (if k =? 0 then hand_up pcb p (Some (p, o)) (get32 c 16) (udp_src (udp_part c)) (isbroadcast (get32 c 16) inp)
         (set_pbuf p (shifted x (Z.opp (ip_hlen c + UDP_HLEN))) st) s2 else udp_drop p sty s2)).
  { intros k. destruct (k =? 0); [|reflexivity]. cbn [negb]. pose proof (oh_room _ _ _ _ _ Hhy).
    destruct (head_move sty p y l _ Hhy (Z.opp 8)) as (E2 & _); [lia|lia|lia|]. change (- UDP_HLEN) with (Z.opp 8). rewrite E2, bind_ret. cbn [Z.eqb]. unfold lwip_assert.
    rewrite bind_ret. unfold sty at 1. rewrite set_pbuf_twice. unfold y. rewrite (shifted_add x _ _ p o (oh_payload _ _ _ _ _ Hh)), (oh_payload _ _ _ _ _ Hh).
    do 2 f_equal. f_equal. unfold UDP_HLEN. lia. }
  assert (Hun : exists st' x', unwrapped st p x l o st' x' /\ st' = set_pbuf p (shifted x (Z.opp (ip_hlen c + UDP_HLEN))) st).
  { assert (Hle : ip_hlen c + UDP_HLEN <= pb_len x) by (unfold UDP_HLEN in *; lia). unfold UDP_HLEN in Hle. pose proof (oh_room _ _ _ _ _ Hh).
    destruct (head_move st p x l o Hh (Z.opp (ip_hlen c + UDP_HLEN))) as (_ & Hh2 & U2 & C2 & _); [unfold UDP_HLEN; lia|unfold UDP_HLEN; lia|unfold UDP_HLEN; lia|].
    exists (set_pbuf p (shifted x (Z.opp (ip_hlen c + UDP_HLEN))) st), (shifted x (Z.opp (ip_hlen c + UDP_HLEN))). split; [|reflexivity]. split; [|split; [|split; [exact U2|auto]]].
    - fold c. replace (o + (ip_hlen c + UDP_HLEN)) with (o - Z.opp (ip_hlen c + UDP_HLEN)) by lia. exact Hh2.
    - rewrite C2 by (unfold UDP_HLEN; lia). fold c. rewrite Z.opp_involutive. unfold udp_part. rewrite skipn_skipn. f_equal. unfold UDP_HLEN. lia. }
  destruct Hun as (st' & x' & Hun & ->). destruct (Z.eqb_spec (get16 (udp_part c) 6) 0) as [E0|E0]; cbn [negb orb].
  - rewrite bind_ret. exists (set_pbuf p (shifted x (Z.opp (ip_hlen c + UDP_HLEN))) st), x'. split; [exact Hun|]. exact (Hgo 0).
  - rewrite bind_ret, Hgo. destruct (pseudo_chksum _ _ _ =? 0); [|exact Hdrop]. eexists _, x'. split; [exact Hun|reflexivity].
Qed.

(** Nobody wants the datagram: an answer, and the packet is freed. *)
Lemma response_keeps u p type code st (s : ipstate (udpstate W)) : udp_of s = u ->
  whenever (icmp_send_response junk (udp_output output) (udp_callback tcpip_callback) netif_list netif_default p type code st s) (fun '(_, s') => udp_of s' = u).
Proof.
  intros Hs. unfold icmp_send_response. eapply whenever_bind; [apply whenever_true|]. intros [[q|] st1] _; [|now apply whenever_ret]. do 3 skip.
  eapply (whenever_bind _ _ (fun '(_, _, s') => udp_of s' = u)).
  - unfold ip_output. destruct (ip_route netif_list netif_default _); [|now apply whenever_ret].
    apply (output_if_keeps (fun w => us_udp w = u)); [intros; now apply output_same_udp|intros; now apply callback_same_udp|exact Hs].
  - intros [[err st'] s'] Hs'. skip2. now apply whenever_ret.
Qed.

Lemma surely_ext {A} (m m' : M A) Q : (forall h, m h = m' h) -> surely m' Q -> surely m Q.
Proof. intros E H h. rewrite E. apply H. Qed.

Lemma assoc_at {A B C} (m : M A) (k : A -> M B) (k' : B -> M C) h : bind (bind m k) k' h = bind m (fun a => bind (k a) k') h.
Proof. unfold bind. now destruct (m h) as [[a|e| |] h']. Qed.

(** The message is about the packet with the header it came with. *)
Lemma unreachable_run st s p x l o st' x' s1 inp src :
  datagram_arrived st s p x l o -> let c := content (st_mem st) ((p, x) :: l) in
  unwrapped st p x l o st' x' -> ip_hlen c + UDP_HLEN <= pb_len x ->
  isbroadcast (get32 c 16) inp || ip_addr_ismulticast (get32 c 16) = false ->
  forall h, hand_up None p (Some (p, o)) (get32 c 16) src (isbroadcast (get32 c 16) inp) st' s1 h =
    ('(st2, s2) <- icmp_send_response junk (udp_output output) (udp_callback tcpip_callback) netif_list netif_default p ICMP_DUR ICMP_DUR_PORT st s1;;
     udp_drop p st2 s2) h.
Proof.
  intros Ha c (Hh' & _ & _ & Em & Est & Ex) Hlen Hno h. fold c in Hh', Est, Ex. pose proof Ha as [Hh Hb Hip _ Hac Hfr]. fold c in Hb, Hip. unfold IP_HLEN, UDP_HLEN in *.
  pose proof (head_lengths _ _ _ _ _ Hh) as (Et & Hl & Hm). pose proof (head_lengths _ _ _ _ _ Hh') as (Et' & Hl' & Hm'). pose proof (ip_hlen_range c) as Hr.
  pose proof (oh_room _ _ _ _ _ Hh) as Ho. unfold udp_hand_up. rewrite <- negb_orb, Hno. cbn [negb].
  assert (Eld : load st' (Some (p, o)) 0 2 = ret (bytes_at c 0 2)).
  { rewrite Est, <- (oh_payload _ _ _ _ _ Hh). change (load (set_pbuf p (shifted x (Z.opp (ip_hlen c + 8))) st) (pb_payload x) 0 2) with (load st (pb_payload x) 0 2).
    exact (head_load _ _ _ _ _ Hh 0 2 ltac:(lia) ltac:(lia) ltac:(lia)). }
  rewrite assoc_at, Eld, bind_ret, header_fields2. 2: { pose proof (content_length _ _ (op_valid _ _ _ (oh_own _ _ _ _ _ Hh))) as Lc. fold c in Lc. lia. }
  change (IPH_HL c * 4) with (ip_hlen c).
  destruct (head_move st' p x' l _ Hh' (ip_hlen c + 8)) as (E1 & _); [lia|lia|rewrite Ex; change (pb_tot_len (shifted x (Z.opp (ip_hlen c + 8)))) with (pb_tot_len x + Z.opp (ip_hlen c + 8)); lia|].
  rewrite Ex, (shifted_add x _ _ p o (oh_payload _ _ _ _ _ Hh)), Z.add_opp_diag_l, (shifted_0 x p o (oh_payload _ _ _ _ _ Hh)) in E1.
  unfold UDP_HLEN. rewrite assoc_at, E1, bind_ret, Est, set_pbuf_twice, set_pbuf_same by exact (head_lookup _ _ _ _ _ Hh).
  rewrite assoc_at, (fetch_some _ _ _ (head_lookup _ _ _ _ _ Hh)), bind_ret. unfold lwip_assert. rewrite (oh_payload _ _ _ _ _ Hh), bool_decide_eq_true_2 by reflexivity. rewrite bind_ret.
  reflexivity.
Qed.

(** The packet is freed after the message was sent. *)
Lemma unreachable_freed st s p x l o s1 st2 s2 :
  datagram_arrived st s p x l o -> ip_held (udp_held held) s1 = held' s ->
  evolves (ip_held (udp_held held)) [] st s1 st2 s2 ->
  exists st3, udp_drop p st2 s2 = ret (st3, s2) /\ evolves held' (p :: addrs l) st s st3 s2 /\ removed (p :: addrs l) st2 st3 /\
    forall b, In b (p :: addrs l) -> ~ In b (loop_pbufs s2).
Proof.
  intros [Hh _ _ _ Hac Hfr] Es1 Hev.
  destruct (evolves_agree _ _ _ _ _ _ (p :: addrs l) Hev) as [Hag Hnh].
  { intros b Hin. split; [|split; [rewrite Es1; now apply Hfr|intros []]]. pose proof (op_packet _ _ _ (oh_own _ _ _ _ _ Hh)) as [Hc _].
    change (p :: addrs l) with (addrs ((p, x) :: l)) in Hin. apply in_map_iff in Hin as ([d z] & <- & Hin). exists z. exact (chain_lookup _ _ _ _ _ Hc Hin). }
  unfold udp_drop. destruct (free_whole st2 p ((p, x) :: l)) as (k & st3 & E3 & R3);
    [exact (proj1 (op_packet _ _ _ (own_agree st st2 p ((p, x) :: l) Hag (oh_own _ _ _ _ _ Hh))))|exact (op_refs _ _ _ (oh_own _ _ _ _ _ Hh))|].
  exists st3. rewrite E3, bind_ret. split; [reflexivity|]. split; [|split; [exact R3|]].
  - change (p :: addrs l) with ([] ++ (p :: addrs l)). eapply evolves_trans; [|exact (removed_evolves _ _ _ _ _ R3 Hnh)].
    unfold evolves, accounted in *. rewrite Es1 in Hev. exact Hev.
  - intros b Hin Hlp. apply (Hnh b Hin). unfold ip_held. apply in_app_iff. now left.
Qed.

(** What [udp_input] does for a port that nobody has: it may send a message,
    and it does with memory. *)
Definition unreachable (st : store) (s : ipstate (udpstate W)) (p : addr) (l : list (addr * pbuf)) (c : list Z) (s1 : ipstate (udpstate W))
    (m : M (store * ipstate (udpstate W))) : Prop :=
  surely m (fun '(st', s') => evolves held' (p :: addrs l) st s st' s' /\ udp_of s' = udp_of s1 /\
    responded (udp_handed handed) netif_list netif_default ICMP_DUR ICMP_DUR_PORT (firstn 28 c) s1 st' s') /\
  ((forall n p dest st w, thrifty (output n p dest st w)) -> (forall n w, thrifty (tcpip_callback n w)) ->
   runs NoFail m (fun '(st', s') => evolves held' (p :: addrs l) st s st' s' /\ udp_of s' = udp_of s1 /\
     reported (udp_handed handed) netif_list netif_default ICMP_DUR ICMP_DUR_PORT (firstn 28 c) s1 st' s') no_err).

Lemma thrifty_udp_output n p dest st w : (forall n p dest st w, thrifty (output n p dest st w)) -> thrifty (udp_output output n p dest st w).
Proof. intros H. unfold udp_output. apply thrifty_bind; [apply H|thrifty]. Qed.

Lemma thrifty_udp_callback n w : (forall n w, thrifty (tcpip_callback n w)) -> thrifty (udp_callback tcpip_callback n w).
Proof. intros H. unfold udp_callback. apply thrifty_bind; [apply H|thrifty]. Qed.

Lemma unreachable_spec st s p x l o st' x' s1 inp src :
  datagram_arrived st s p x l o -> let c := content (st_mem st) ((p, x) :: l) in
  unwrapped st p x l o st' x' -> ip_hlen c + UDP_HLEN <= pb_len x -> ip_held (udp_held held) s1 = held' s ->
  isbroadcast (get32 c 16) inp || ip_addr_ismulticast (get32 c 16) = false ->
  unreachable st s p l c s1 (hand_up None p (Some (p, o)) (get32 c 16) src (isbroadcast (get32 c 16) inp) st' s1).
Proof.
  intros Ha c Hun Hlen Es1 Hno. pose proof (unreachable_run st s p x l o st' x' s1 inp src Ha Hun Hlen Hno) as E. fold c in E.
  pose proof Ha as [Hh _ Hip _ Hac Hfr]. fold c in Hip. pose proof (ip_hlen_range c) as Hr. unfold IP_HLEN, UDP_HLEN in *.
  assert (Hac1 : accounted (ip_held (udp_held held)) st s1) by (unfold accounted in *; now rewrite Es1).
  assert (Hfr1 : forall b, In b (p :: addrs l) -> ~ In b (ip_held (udp_held held) s1)) by now rewrite Es1.
  pose proof (response_keeps _ p ICMP_DUR ICMP_DUR_PORT st s1 eq_refl) as Hkeep. split.
  - apply (surely_ext _ _ _ E). eapply surely_bind.
    { exact (surely_whenever _ _ _ (icmp_send_response_spec (udp_held held) (udp_handed handed) (udp_output output) (udp_callback tcpip_callback) junk netif_list
        netif_default Hlist Hdefault p x l ICMP_DUR ICMP_DUR_PORT st s1 (oh_own _ _ _ _ _ Hh) ltac:(lia) Hfr1 Hac1) Hkeep). }
    intros [st2 s2] [[Hev Hre] Hus]. fold c in Hre. destruct (unreachable_freed st s p x l o s1 st2 s2 Ha Es1 Hev) as (st3 & -> & Hev3 & R3 & Hnl).
    apply surely_ret. split; [exact Hev3|]. split; [exact Hus|].
    destruct Hre as [->|(n & Er & Hsent)]; [now left|]. right. exists n. split; [exact Er|].
    exact (sent_removed _ _ _ _ _ st2 _ _ (p :: addrs l) Hsent R3 Hnl).
  - intros Ho Hcb. apply (runs_ext _ _ _ _ _ E). eapply runs_bind.
    { exact (runs_whenever _ _ _ (icmp_send_response_reports (udp_held held) (udp_handed handed) (udp_output output) (udp_callback tcpip_callback) junk netif_list
        netif_default Hlist Hdefault p x l ICMP_DUR ICMP_DUR_PORT st s1 (fun n p d st w => thrifty_udp_output n p d st w Ho) (fun n w => thrifty_udp_callback n w Hcb)
        (oh_own _ _ _ _ _ Hh) ltac:(lia) Hfr1 Hac1) Hkeep). }
    intros [st2 s2] [[Hev Hre] Hus]. fold c in Hre. destruct (unreachable_freed st s p x l o s1 st2 s2 Ha Es1 Hev) as (st3 & -> & Hev3 & R3 & Hnl).
    apply runs_ret. split; [exact Hev3|]. split; [exact Hus|]. unfold reported in *.
    destruct (ip_route netif_list netif_default (get32 (firstn 28 c) 12)) as [n|]; [|exact Hre].
    exact (posted_removed _ _ _ _ _ st2 _ _ (p :: addrs l) Hre R3 Hnl).
Qed.

(** What [udp_input] does with a packet. *)
Definition udp_outcome (st : store) (s : ipstate (udpstate W)) (p : addr) (x : pbuf) (l : list (addr * pbuf)) (o : Z) (inp : netif)
    (m : M (store * ipstate (udpstate W))) : Prop :=
  let c := content (st_mem st) ((p, x) :: l) in let s1 := with_udp (udp_after (udp_of s) inp c) s in
  match udp_verdict (udp_of s) inp c with
  | UdpDrop => dropped m st p l s1
  | UdpDeliver a f arg =>
      exists st' x', unwrapped st p x l o st' x' /\ m = call_recv f arg a p (Some (p, o + 12)) (udp_src (udp_part c)) st' s1
  | UdpUnreachable => unreachable st s p l c s1 m
  end.

Lemma find_listed u f a : List.find f (udp_pcbs u) = Some a -> a ∈ udp_pcbs u.
Proof. intros H. apply List.find_some in H as [H _]. now apply list_elem_of_In. Qed.

Lemma match_listed u inp c a : fst (udp_match u inp c) = Some a -> a ∈ udp_pcbs u.
Proof.
  unfold udp_match, best_pcb. destruct (List.find (perfect _ _ _ _ _ _) (udp_pcbs u)) as [b|] eqn:E; cbn [fst].
  - intros [= <-]. exact (find_listed _ _ _ E).
  - intros E2. exact (find_listed _ _ _ E2).
Qed.

Lemma udp_input_spec st s p x l o inp :
  udp_ok (udp_of s) -> datagram_arrived st s p x l o -> udp_outcome st s p x l o inp (input p inp st s).
Proof.
  intros Hu Ha. pose proof (udp_input_run st s p x l o inp Hu Ha) as H. unfold udp_outcome, udp_verdict. set (c := content (st_mem st) ((p, x) :: l)) in *. cbv zeta in *.
  set (s1 := with_udp (udp_after (udp_of s) inp c) s) in *. destruct ((ip_hlen c + UDP_HLEN <=? Z.of_nat (length c)) && udp_for_us (udp_of s) inp c && udp_good c) eqn:Eg; [|exact H].
  apply andb_true_iff in Eg as [Eg _]. apply andb_true_iff in Eg as [Eg _]. apply Z.leb_le in Eg. destruct H as (st' & x' & Hun & E).
  assert (Hheap : pcb_heap (udp_of s1) = pcb_heap (udp_of s)).
  { unfold s1, udp_after. destruct (ip_hlen c + UDP_HLEN <=? Z.of_nat (length c)); reflexivity. }
  assert (Hdrop : input p inp st s = udp_drop p st' s1 -> dropped (input p inp st s) st p l s1).
  { intros ->. destruct Hun as (Hh & _ & Un & _). exact (udp_drop_spec st st' p x' l _ s1 Hh Un). }
  destruct (fst (udp_match (udp_of s) inp c)) as [a|] eqn:Ea.
  - destruct (uo_alloc _ Hu a (match_listed _ _ _ _ Ea)) as [z Hz]. rewrite Hz. unfold udp_hand_up in E. rewrite (get_pcb_some a z), bind_ret in E by (now rewrite Hheap).
    destruct (recv z) as [f|]; [|exact (Hdrop E)]. exists st', x'. split; [exact Hun|exact E].
  - destruct (isbroadcast (get32 c 16) inp || ip_addr_ismulticast (get32 c 16)) eqn:Eb.
    + apply Hdrop. rewrite E. unfold udp_hand_up. rewrite <- negb_orb, Eb. cbn [negb]. now rewrite bind_ret.
    + rewrite E. pose proof Ha as [Hh _ Hip Hudp _ _]. fold c in Hip, Hudp. pose proof (content_length _ _ (op_valid _ _ _ (oh_own _ _ _ _ _ Hh))) as Lc. fold c in Lc.
      apply (unreachable_spec st s p x l o st' x' s1 inp); [exact Ha|exact Hun|fold c; lia|reflexivity|exact Eb].
Qed.
End Receive.
