(* ===== verification/UdpTheorems.v ===== *)
(** * lwIP: the properties of UDP *)
From Stdlib Require Import ZArith List Lia Bool.
From stdpp Require Import base gmap list relations.
From S2P Require Import Prelude CMonad Pbuf PbufChain PbufData PbufEdit PbufAlloc.
From S2P Require Import Inet InetChksum ChksumSpec Netif IpHdr Frames Driver IpReass.
From S2P Require Import IpReassMem IpReassInv IpReassTheorems IpFrag IpFragSpec.
From S2P Require Import PacketEdit IpOut IpOutSpec Icmp EchoSpec IpIn IpInSpec.
From S2P Require Import IpTheorems Udp UdpSpec UdpInSpec.
#[local] Open Scope Z_scope.
#[local] Open Scope cmonad_scope.

(** ** The control blocks *)

(** What an application and arriving packets do to the control blocks. *)
Inductive udp_step (u : udp) : udp -> Prop :=
| StepNew h a u' h' : udp_new u h = (Ok (a, u'), h') -> udp_step u u'
| StepBind pcb x ipaddr port err u' : pcb_heap u !! pcb = Some x -> 0 <= addr_or_any ipaddr < 4294967296 -> 0 <= port < 65536 ->
    udp_bind pcb ipaddr port u = ret (err, u') -> udp_step u u'
| StepConnect pcb x ipaddr port err u' : pcb_heap u !! pcb = Some x -> 0 <= addr_or_any ipaddr < 4294967296 -> 0 <= port < 65536 ->
    udp_connect pcb ipaddr port u = ret (err, u') -> udp_step u u'
| StepDisconnect pcb x u' : pcb_heap u !! pcb = Some x -> udp_disconnect pcb u = ret u' -> udp_step u u'
| StepRecv pcb x f arg u' : pcb_heap u !! pcb = Some x -> udp_recv pcb f arg u = ret u' -> udp_step u u'
| StepRemove pcb x u' : pcb_heap u !! pcb = Some x -> udp_remove pcb u = ret u' -> udp_step u u'
| StepInput src_ip dest_ip src dest broadcast r l :
    demux_loop u src_ip dest_ip src dest broadcast [] (udp_pcbs u) None = ret (r, l) -> udp_step u (set_pcbs l u).

Lemma ret_inj {A} (a b : A) : ret a = ret b -> a = b.
Proof. intros E. apply (f_equal (fun m => fst (m []))) in E. now injection E. Qed.

Lemma udp_step_ok u u' : udp_ok u -> udp_step u u' -> udp_ok u'.
Proof.
  intros Hu [h a u2 h' E|pcb x ip port err u2 Hx Ha Hp E|pcb x ip port err u2 Hx Ha Hp E|pcb x u2 Hx E|pcb x f arg u2 Hx E|pcb x u2 Hx E|si di s d b r l E].
  - destruct (udp_new_spec u h) as ([r v] & h2 & E2 & Hr). rewrite E in E2. injection E2 as <- <- <-. destruct a as [a|]; [|now subst].
    destruct Hr as [Hf ->]. now apply new_pcb_ok.
  - exact (udp_bind_ok u pcb x ip port err u2 Hu Hx Ha Hp E).
  - exact (udp_connect_ok u pcb x ip port err u2 Hu Hx Ha Hp E).
  - rewrite (udp_disconnect_spec u pcb x Hx) in E. apply ret_inj in E as <-. apply (set_pcb_ok u pcb x); [exact Hu|exact Hx|reflexivity|].
    exact (disconnected_ok _ (uo_pcb u Hu _ _ Hx)).
  - rewrite (udp_recv_spec u pcb x f arg Hx) in E. apply ret_inj in E as <-. apply (set_pcb_ok u pcb x); [exact Hu|exact Hx|reflexivity|].
    exact (with_recv_ok _ _ _ (uo_pcb u Hu _ _ Hx)).
  - rewrite (udp_remove_spec u pcb x Hu Hx) in E. apply ret_inj in E as <-. now apply removed_ok.
  - rewrite demux_spec in E by exact Hu. apply ret_inj in E. apply relisted_ok; [exact Hu|].
    pose proof (best_permutation u si di s d b (uo_nodup u Hu)) as H. now rewrite E in H.
Qed.

Definition no_pcbs : udp := Udp [] ∅.

Lemma no_pcbs_ok : udp_ok no_pcbs.
Proof. constructor; cbn; [constructor|intros a H; inversion H|intros a x H; discriminate|intros a x H; discriminate]. Qed.

(** C36: Whatever the application does with its sockets and whatever arrives,
    the list [udp_pcbs] holds exactly the control blocks that have a port,
    each once and all of them allocated, and all fields stay in their ranges.
    So the loops along the list end, and the assertion of [udp_bind] that a
    control block is on it at most once never fails. *)
Theorem udp_pcbs_invariant u :
  rtc udp_step no_pcbs u ->
  udp_ok u /\
  forall pcb x ipaddr port, pcb_heap u !! pcb = Some x -> rebind_loop pcb (udp_pcbs u) false = ret (bool_decide (local_port x <> 0)) /\
    exists err u', udp_bind pcb ipaddr port u = ret (err, u').
Proof.
  intros Hr. assert (Hu : udp_ok u).
  { pose proof no_pcbs_ok as H0. revert H0. induction Hr as [u|u1 u2 u3 Hs _ IH]; [auto|]. intros H1. apply IH. exact (udp_step_ok _ _ H1 Hs). }
  split; [exact Hu|]. intros pcb x ipaddr port Hx. split.
  - rewrite rebind_loop_spec by (auto using uo_nodup; discriminate). cbn [orb]. f_equal. apply bool_decide_ext. exact (uo_listed u Hu _ _ Hx).
  - rewrite (udp_bind_spec u pcb x ipaddr port Hu Hx). cbv zeta. destruct (bind_port u port); eauto.
Qed.

Definition toy_pcb : udp_pcb := UdpPcb 0 0 0 0 255 0 53 0 (Some 7) 8.
Definition toy_pcbs : udp := Udp [1%positive] {[ 1%positive := toy_pcb ]}.

Lemma toy_steps : rtc udp_step no_pcbs toy_pcbs.
Proof.
  apply (rtc_l _ _ (Udp [] {[ 1%positive := new_pcb ]})); [apply (StepNew _ [] (Some 1%positive) _ []); vm_compute; reflexivity|].
  apply (rtc_l _ _ (Udp [1%positive] {[ 1%positive := with_local_port new_pcb 53 ]})).
  { apply (StepBind _ 1%positive new_pcb None 53 0); [reflexivity|cbn; unfold IP_ADDR_ANY; lia|lia|reflexivity]. }
  apply rtc_once. apply (StepRecv _ 1%positive (with_local_port new_pcb 53) (Some 7) 8); reflexivity.
Qed.

Lemma udp_pcbs_invariant_witness :
  udp_ok toy_pcbs /\
  forall pcb x ipaddr port, pcb_heap toy_pcbs !! pcb = Some x -> rebind_loop pcb [1%positive] false = ret (bool_decide (local_port x <> 0)) /\
    exists err u', udp_bind pcb ipaddr port toy_pcbs = ret (err, u').
Proof. exact (udp_pcbs_invariant toy_pcbs toy_steps). Defined.

(** [udp_bind] without a port takes the first port of the range from 4096
    to 32766 that no control block of the list has: it is found in the steps
    the loop has, the control block has it and is on the list, once, and
    nothing else changes.  [ERR_USE] is the answer exactly if all 28671 ports
    are in use, and then only the address of the control block has changed.
    With a port the answer is [ERR_OK], whoever has that port. *)
Theorem udp_bind_correct u pcb x ipaddr port :
  udp_ok u -> pcb_heap u !! pcb = Some x ->
  let y := with_local_ip x (addr_or_any ipaddr) in
  (port = 0 -> (forall k, 4096 <= k < 32767 -> exists a z, a ∈ udp_pcbs u /\ pcb_heap u !! a = Some z /\ local_port z = k) ->
     udp_bind pcb ipaddr port u = ret (ERR_USE, set_pcb pcb y u)) /\
  ((port <> 0 \/ exists k, 4096 <= k < 32767 /\ forall a z, a ∈ udp_pcbs u -> pcb_heap u !! a = Some z -> local_port z <> k) ->
     exists n u', udp_bind pcb ipaddr port u = ret (ERR_OK, u') /\ pcb_heap u' = <[pcb := with_local_port y n]> (pcb_heap u) /\
       udp_pcbs u' = (if bool_decide (pcb ∈ udp_pcbs u) then udp_pcbs u else pcb :: udp_pcbs u) /\
       (port <> 0 -> n = port) /\
       (port = 0 -> 4096 <= n < 32767 /\ (forall a z, a ∈ udp_pcbs u -> pcb_heap u !! a = Some z -> local_port z <> n) /\
          forall k, 4096 <= k < n -> exists a z, a ∈ udp_pcbs u /\ pcb_heap u !! a = Some z /\ local_port z = k)).
Proof.
  intros Hu Hx y. rewrite (udp_bind_spec u pcb x ipaddr port Hu Hx). fold y. cbv zeta. unfold bind_port. split.
  - intros -> Hall. cbn [Z.eqb]. destruct (free_port u) as [n|] eqn:E; [|reflexivity]. exfalso. apply free_from_spec in E as (H1 & H2 & _).
    assert (in_use u n = true) by (apply in_use_spec, Hall; exact H1). congruence.
  - intros Hor. assert (Hres : exists n, (if port =? 0 then free_port u else Some port) = Some n /\ (port <> 0 -> n = port) /\ (port = 0 -> free_port u = Some n)).
    { destruct (Z.eqb_spec port 0) as [->|Hp]; [|exists port; tauto]. destruct Hor as [[]|(k & Hk & Hfree)]; [reflexivity|].
      destruct (free_port u) as [n|] eqn:E; [exists n; tauto|]. apply (free_from_none _ _ E), in_use_spec in Hk as (a & z & Ha & Hz & Ek). exfalso. exact (Hfree a z Ha Hz Ek). }
    destruct Hres as (n & -> & Hn & Hz). exists n. eexists. split; [reflexivity|]. rewrite listed_pcb, listed_set. split; [reflexivity|]. split; [reflexivity|].
    split; [exact Hn|]. intros E0. destruct (free_from_spec _ _ _ (Hz E0)) as (H1 & H2 & H3). split; [exact H1|]. split.
    + intros a z Ha Hza E. assert (in_use u n = true) by (apply in_use_spec; eauto). congruence.
    + intros k Hk. apply in_use_spec. apply H3. exact Hk.
Qed.

(** Two control blocks, the first one with the first port. *)
Definition toy_two : udp := Udp [1%positive] {[ 1%positive := with_local_port new_pcb 4096; 2%positive := new_pcb ]}.

Lemma toy_two_ok : udp_ok toy_two.
Proof.
  pose proof (new_pcb_ok _ 1%positive no_pcbs_ok eq_refl) as H1. pose proof (new_pcb_ok _ 2%positive H1 eq_refl) as H2.
  assert (E : udp_bind 1%positive None 0 (set_pcb 2%positive new_pcb (set_pcb 1%positive new_pcb no_pcbs)) = ret (0, toy_two)) by (vm_compute; reflexivity).
  exact (udp_bind_ok _ 1%positive new_pcb None 0 0 toy_two H2 eq_refl ltac:(vm_compute; split; congruence) ltac:(lia) E).
Qed.

Lemma udp_bind_correct_witness :
  exists n u', udp_bind 2%positive None 0 toy_two = ret (ERR_OK, u') /\ pcb_heap u' = <[2%positive := with_local_port new_pcb n]> (pcb_heap toy_two) /\
    udp_pcbs u' = [2%positive; 1%positive] /\ 4096 <= n < 32767.
Proof.
  destruct (proj2 (udp_bind_correct toy_two 2%positive new_pcb None 0 toy_two_ok eq_refl)) as (n & u' & E & H1 & H2 & _ & H4).
  - right. exists 5000. split; [lia|]. intros a z Ha Hz. apply list_elem_of_singleton in Ha as ->. injection Hz as <-. discriminate.
  - exists n, u'. split; [exact E|]. split; [exact H1|]. split; [exact H2|]. exact (proj1 (H4 eq_refl)).
Defined.

(** C35: The loop of [udp_input] finds the best control block: the first on the
    list that is bound to the destination and connected to the sender, or else
    the first that is bound to the destination and not connected.  One that is
    connected comes to the front of the list, and the list keeps its members
    and their order otherwise; then the same datagram finds it again, at once
    and without changing the list. *)
Theorem udp_demux_correct u src_ip dest_ip src dest broadcast :
  udp_ok u ->
  let r := best_pcb u src_ip dest_ip src dest broadcast in
  demux_loop u src_ip dest_ip src dest broadcast [] (udp_pcbs u) None = ret r /\
  Permutation (snd r) (udp_pcbs u) /\ (forall a, fst r = Some a -> without a (snd r) = without a (udp_pcbs u)) /\
  demux_loop (set_pcbs (snd r) u) src_ip dest_ip src dest broadcast [] (snd r) None = ret r.
Proof.
  intros Hu r. pose proof (best_permutation u src_ip dest_ip src dest broadcast (uo_nodup u Hu)) as Hp. fold r in Hp.
  split; [exact (demux_spec u src_ip dest_ip src dest broadcast Hu)|]. split; [exact Hp|].
  pose proof (relisted_ok u (snd r) Hu Hp) as Hu'. pose proof (demux_spec (set_pcbs (snd r) u) src_ip dest_ip src dest broadcast Hu') as Hd.
  cbn [udp_pcbs set_pcbs] in Hd. rewrite Hd. clear Hd. unfold best_pcb at 1. cbn [udp_pcbs set_pcbs].
  change (perfect (set_pcbs (snd r) u)) with (perfect u). change (candidate (set_pcbs (snd r) u)) with (candidate u).
  unfold r, best_pcb. destruct (List.find (perfect u src_ip dest_ip src dest broadcast) (udp_pcbs u)) as [a|] eqn:E; cbn [fst snd].
  - assert (Hni : a ∉ without a (udp_pcbs u)) by (rewrite elem_of_without; tauto). split.
    + intros b [= <-]. now rewrite without_head.
    + cbn [List.find]. rewrite (proj2 (List.find_some _ _ E)). now rewrite without_head.
  - split; [auto|]. now rewrite E.
Qed.

(** A socket for everybody and one that is connected. *)
Definition toy_sockets : udp :=
  Udp [1%positive; 2%positive] {[ 1%positive := toy_pcb; 2%positive := connected (with_local_port new_pcb 53) (Some 9) 99 ]}.

Lemma toy_sockets_ok : udp_ok toy_sockets.
Proof.
  constructor; cbn.
  - repeat (constructor; [set_solver|]). constructor.
  - intros a Ha. repeat (apply elem_of_cons in Ha as [->|Ha]; [rewrite ?lookup_insert_eq, ?lookup_insert_ne by discriminate; eauto|]). inversion Ha.
  - intros a x H. apply lookup_insert_Some in H as [[<- <-]|[Hne H]]; [cbn; set_solver|]. apply lookup_singleton_Some in H as [<- <-]. cbn. set_solver.
  - intros a x H. apply lookup_insert_Some in H as [[<- <-]|[Hne H]]; [|apply lookup_singleton_Some in H as [<- <-]]; constructor; vm_compute; split; congruence.
Qed.

Lemma udp_demux_correct_witness :
  demux_loop toy_sockets 9 5 99 53 false [] [1%positive; 2%positive] None = ret (Some 2%positive, [2%positive; 1%positive]) /\
  demux_loop (set_pcbs [2%positive; 1%positive] toy_sockets) 9 5 99 53 false [] [2%positive; 1%positive] None = ret (Some 2%positive, [2%positive; 1%positive]).
Proof.
  destruct (udp_demux_correct toy_sockets 9 5 99 53 false toy_sockets_ok) as (H1 & _ & _ & H4). split; [exact H1|exact H4].
Defined.

(** ** Sending *)

Lemma datagram_fields src_ip dst_ip src dest nochksum data :
  0 <= src < 65536 -> 0 <= dest < 65536 ->
  let d := udp_datagram src_ip dst_ip src dest nochksum data in
  udp_src d = src /\ udp_dest d = dest /\ get16 d 4 = htons (8 + Z.of_nat (length data)) mod 65536 /\ skipn 8 d = data.
Proof.
  intros Hs Hd d. unfold udp_src, udp_dest. assert (E0 : get16 d 0 = le_value (field16 (htons src))) by reflexivity.
  assert (E2 : get16 d 2 = le_value (field16 (htons dest))) by reflexivity. rewrite E0, E2, !field16_value by now apply htons_range.
  split; [now apply htons_involutive|]. split; [now apply htons_involutive|]. split; [|unfold d, udp_datagram, udp_header; cbn [app skipn field16]; now rewrite drop_0].
  change (get16 d 4) with (le_value (field16 (htons (8 + Z.of_nat (length data))))). unfold field16. cbn [le_value]. dlia.
Qed.

(** C33: [udp_sendto] sends data with room for the headers to a host and a port.
    Without a route, or if the control block needs a port and all are in use,
    it answers [ERR_RTE] or [ERR_USE] and nothing happens.  Otherwise the
    control block gets a port if it had none.  If its address is not that of
    the interface the answer is [ERR_VAL], and the packet keeps the eight bytes
    of the header; else the data go out behind a UDP and an IP header, with the
    ports, the length, and a checksum that is not zero and that the receiver's
    check accepts, or zero if the socket wants none; the packet is released,
    and nothing else changes. *)
Theorem udp_sendto_correct {W} (held : W -> list addr) handed output (Hd : Driver held handed output) callback (Hs : Scheduler held handed callback)
    junk nl dflt pcb x0 p x l o dst_ip dst_port st s :
  udp_ok (udp_of s) -> pcb_heap (udp_of s) !! pcb = Some x0 -> 0 <= dst_ip < 4294967296 -> 0 <= dst_port < 65536 ->
  let send := udp_sendto junk output callback nl dflt pcb p dst_ip dst_port st s in
  match ip_route nl dflt dst_ip with
  | None => send = ret (ERR_RTE, st, s)
  | Some n =>
      sendable_data held n st s p x l o ->
      match bound pcb x0 (udp_of s) with
      | None => send = ret (ERR_USE, st, s)
      | Some (sp, u) =>
          udp_ok u /\
          if ip_addr_isany (local_ip x0) || (local_ip x0 =? nf_ip_addr n) then
            let src_ip := udp_source x0 n in let data := content (st_mem st) ((p, x) :: l) in
            let d := udp_datagram src_ip dst_ip sp dst_port (no_chksum x0) data in
            let hdr := checked (new_header src_ip dst_ip (ttl x0) (tos x0) IP_PROTO_UDP (Z.of_nat (length d) + IP_HLEN) (ip_id s)) in
            surely ('(_, st, s) <- send;; '(_, st) <- pbuf_free (Some p) st;; ret (st, s))
              (fun '(st', s') => evolves (ip_held (udp_held held)) (p :: addrs l) st s st' s' /\ udp_of s' = u /\
                 sent (udp_handed handed) n dst_ip (hdr ++ d) (next_id (with_udp u s)) st' s') /\
            udp_src d = sp /\ udp_dest d = dst_port /\ ntohs (get16 d 4) = Z.of_nat (length d) /\ skipn 8 d = data /\
            (if no_chksum x0 then get16 d 6 = 0 else get16 d 6 <> 0 /\ pseudo_chksum src_ip dst_ip d = 0)
          else
            exists st', send = ret (ERR_VAL, st', with_udp u s) /\ own_head st' p (shifted x UDP_HLEN) l (o - UDP_HLEN) /\ untouched [p] st st'
      end
  end.
Proof.
  intros Hu Hx Hdip Hdp send. unfold send, udp_sendto. destruct (ip_route nl dflt dst_ip) as [n|]; [|reflexivity]. intros Hsd.
  pose proof (sendto_spec held handed output callback junk pcb x0 p x l o dst_ip dst_port n st s Hu Hx Hsd Hdip) as H.
  destruct (bound pcb x0 (udp_of s)) as [[sp u]|] eqn:Eb; [|exact H]. destruct (bound_spec _ _ _ _ _ Hu Hx Eb) as (_ & Hu' & Hsp). split; [exact Hu'|].
  destruct (ip_addr_isany (local_ip x0) || (local_ip x0 =? nf_ip_addr n)); [|exact H]. cbv zeta. split; [exact H|].
  set (data := content (st_mem st) ((p, x) :: l)) in *. pose proof Hsd as [Hh _ _ Hb Hsz _ Hadr _ _ _]. fold data in Hb. unfold UDP_HLEN, IP_HLEN in Hsz.
  pose proof (content_length _ _ (op_valid _ _ _ (oh_own _ _ _ _ _ Hh))) as Ld. fold data in Ld.
  destruct (datagram_fields (udp_source x0 n) dst_ip sp dst_port (no_chksum x0) data ltac:(lia) Hdp) as (F1 & F2 & F3 & F4).
  assert (Hsrc : 0 <= udp_source x0 n) by (unfold udp_source; destruct (ip_addr_isany (local_ip x0)); [lia|apply (po_local_ip _ (uo_pcb _ Hu _ _ Hx))]).
  split; [exact F1|]. split; [exact F2|]. split; [|split; [exact F4|]].
  - rewrite F3, udp_datagram_length, Z.mod_small by (apply htons_range; lia). unfold ntohs. rewrite htons_involutive by lia. lia.
  - destruct (no_chksum x0); [reflexivity|]. apply datagram_verifies; [exact Hb|lia|lia|lia].
Qed.

(** A host with one socket, at the port 53. *)
Definition toy_udp_state : ipstate (udpstate log) := IpState 7 ∅ (UdpState toy_pcbs []).

Lemma toy_sendable : sendable_data no_pbufs toy_host toy_out_store toy_udp_state 1%positive toy_out [] 34.
Proof.
  destruct toy_ready as [Hh _ _ _ _ _ _ _].
  constructor; [exact Hh|vm_compute; congruence|apply List.Forall_nil|vm_compute; repeat (constructor; [split; congruence|]); constructor|vm_compute; reflexivity|vm_compute; congruence|vm_compute; split; congruence| | |].
  - right; left. vm_compute. congruence.
  - split; [constructor|intros b []].
  - intros b _ [].
Qed.

Lemma toy_pcbs_ok : udp_ok (udp_of toy_udp_state).
Proof.
  assert (H : forall u, rtc udp_step no_pcbs u -> udp_ok u).
  { intros u Hr. pose proof no_pcbs_ok as H0. revert H0. induction Hr as [u|u1 u2 u3 Hs _ IH]; [auto|]. intros H1. apply IH. exact (udp_step_ok _ _ H1 Hs). }
  exact (H _ toy_steps).
Qed.

Lemma udp_sendto_correct_witness :
  let src := get32 [10; 0; 0; 1] 0 in let dst := get32 [10; 0; 0; 2] 0 in
  let d := udp_datagram src dst 53 99 false toy_datagram in
  surely ('(_, st, s) <- udp_sendto (fun _ => 0) log_output toy_callback [toy_host] None 1%positive 1%positive dst 99 toy_out_store toy_udp_state;;
          '(_, st) <- pbuf_free (Some 1%positive) st;; ret (st, s))
    (fun '(st', s') => evolves (ip_held (udp_held no_pbufs)) [1%positive] toy_out_store toy_udp_state st' s' /\ udp_of s' = toy_pcbs /\
       sent (udp_handed (fun w => w)) toy_host dst (checked (new_header src dst 255 0 IP_PROTO_UDP 48 7) ++ d) (next_id (with_udp toy_pcbs toy_udp_state)) st' s').
Proof.
  pose proof (udp_sendto_correct no_pbufs (fun w => w) log_output _ toy_callback _ (fun _ => 0) [toy_host] None 1%positive toy_pcb 1%positive toy_out [] 34
    (get32 [10; 0; 0; 2] 0) 99 toy_out_store toy_udp_state toy_pcbs_ok eq_refl ltac:(vm_compute; split; congruence) ltac:(lia)) as H.
  vm_compute (ip_route _ _ _) in H. exact (proj1 (proj2 (H toy_sendable))).
Defined.

(** ** Receiving *)

(** What the callback finds: the data, and the address of the sender in front of
    them. *)
Lemma delivered_facts {W} (held : W -> list addr) st s p x l o st' x' :
  datagram_arrived held st s p x l o -> unwrapped st p x l o st' x' ->
  let c := content (st_mem st) ((p, x) :: l) in
  own_head st' p x' l (o + (ip_hlen c + UDP_HLEN)) /\ content (st_mem st') ((p, x') :: l) = skipn 8 (udp_part c) /\
  untouched [p] st st' /\ load st' (Some (p, o + 12)) 0 4 = ret (bytes_at c 12 4).
Proof.
  intros Ha (H1 & H2 & H3 & H4 & H5 & _) c. fold c in H1, H2, H5. split; [exact H1|]. split; [exact H2|]. split; [exact H3|].
  pose proof Ha as [Hh _ Hip _ _ _]. fold c in Hip. unfold IP_HLEN in Hip.
  rewrite load_shift, H5, <- (oh_payload _ _ _ _ _ Hh). cbn [Z.add]. change (load (set_pbuf p (shifted x (Z.opp (ip_hlen c + UDP_HLEN))) st) (pb_payload x) (12 + 0) 4) with (load st (pb_payload x) 12 4).
  exact (head_load _ _ _ _ _ Hh 12 4 ltac:(lia) ltac:(lia) ltac:(lia)).
Qed.

(** C34: [udp_input] does with a packet what its bytes say: a datagram for a
    socket, with a right checksum or none, goes to the socket's callback, with
    the data as the payload, the sender's port and a pointer to its address; the
    sender of one for the interface that no socket wants is told that the port
    is unreachable if there is a route to it and memory does not run out, and the
    packet is freed; any other packet (too short, for
    somebody else, with a wrong checksum, without a callback, to everybody and
    unwanted) is freed and nothing else is touched. *)
Theorem udp_input_correct {W} (held : W -> list addr) handed output (Hd : Driver held handed output) callback (Hs : Scheduler held handed callback)
    junk nl dflt call_recv st s p x l o inp :
  Forall usable nl -> (forall d, dflt = Some d -> usable d) ->
  udp_ok (udp_of s) -> datagram_arrived held st s p x l o ->
  let c := content (st_mem st) ((p, x) :: l) in
  let m := udp_input junk output callback nl dflt call_recv p inp st s in
  let s1 := with_udp (udp_after (udp_of s) inp c) s in
  udp_ok (udp_of s1) /\
  match udp_verdict (udp_of s) inp c with
  | UdpDrop => exists st', m = ret (st', s1) /\ removed (p :: addrs l) st st'
  | UdpDeliver a f arg =>
      exists st' x', m = call_recv f arg a p (Some (p, o + 12)) (udp_src (udp_part c)) st' s1 /\
        own_head st' p x' l (o + (ip_hlen c + UDP_HLEN)) /\ content (st_mem st') ((p, x') :: l) = skipn 8 (udp_part c) /\
        untouched [p] st st' /\ load st' (Some (p, o + 12)) 0 4 = ret (bytes_at c 12 4)
  | UdpUnreachable =>
      let bs := firstn 28 c in
      surely m (fun '(st', s') => evolves (ip_held (udp_held held)) (p :: addrs l) st s st' s' /\ udp_of s' = udp_of s1 /\
        responded (udp_handed handed) nl dflt ICMP_DUR ICMP_DUR_PORT bs s1 st' s') /\
      ((forall n p dest st w, thrifty (output n p dest st w)) -> (forall n w, thrifty (callback n w)) ->
       runs NoFail m (fun '(st', s') => evolves (ip_held (udp_held held)) (p :: addrs l) st s st' s' /\ udp_of s' = udp_of s1 /\
         match ip_route nl dflt (get32 bs 12) with
         | Some n => posted (udp_handed handed) n (get32 bs 12) (response_packet n ICMP_DUR ICMP_DUR_PORT (ip_id s) bs) (next_id s1) st' s'
         | None => s' = s1
         end) no_err)
  end.
Proof.
  intros Hnl Hdf Hu Ha c m s1. pose proof (udp_input_spec held handed output callback junk nl dflt Hnl Hdf call_recv st s p x l o inp Hu Ha) as H.
  unfold udp_outcome in H. fold c in H. split.
  - change (udp_of s1) with (udp_after (udp_of s) inp c). unfold udp_after. destruct (ip_hlen c + UDP_HLEN <=? Z.of_nat (length c)); [|exact Hu]. apply relisted_ok; [exact Hu|].
    exact (best_permutation (udp_of s) _ _ _ _ _ (uo_nodup _ Hu)).
  - destruct (udp_verdict (udp_of s) inp c) as [|a f arg|]; [exact H| |exact H]. destruct H as (st' & x' & Hun & E). exists st', x'.
    split; [exact E|]. exact (delivered_facts held st s p x l o st' x' Ha Hun).
Qed.

(** A callback that keeps the data. *)
Definition toy_recv (f arg : Z) (pcb p : addr) (a : option (addr * Z)) (port : Z) (st : store) (s : ipstate (udpstate log)) : M (store * ipstate (udpstate log)) :=
  ret (st, s).

(** A datagram from the port 99 of 10.0.0.2 to the port [dest] of the host. *)
Definition toy_wire (dest : Z) : list Z :=
  let src := get32 [10; 0; 0; 2] 0 in let dst := get32 [10; 0; 0; 1] 0 in
  checked (new_header src dst 255 0 IP_PROTO_UDP 32 7) ++ udp_datagram src dst 99 dest false [1; 2; 3; 4].

Lemma toy_arrived dest : dest = 53 \/ dest = 54 ->
  datagram_arrived no_pbufs (re_store (toy_world (toy_wire dest))) toy_udp_state 1%positive (toy_pbuf 1%positive (toy_wire dest)) [] 14.
Proof.
  intros [-> | ->].
  - destruct (toy_head (toy_wire 53) ltac:(vm_compute; split; congruence)) as [Hh Ec].
    constructor; rewrite ?Ec; [exact Hh|vm_compute; repeat (constructor; [split; congruence|]); constructor|vm_compute; split; congruence|left; vm_compute; congruence|split; [constructor|intros b []]|intros b _ []].
  - destruct (toy_head (toy_wire 54) ltac:(vm_compute; split; congruence)) as [Hh Ec].
    constructor; rewrite ?Ec; [exact Hh|vm_compute; repeat (constructor; [split; congruence|]); constructor|vm_compute; split; congruence|left; vm_compute; congruence|split; [constructor|intros b []]|intros b _ []].
Qed.

(** The socket with port 53 gets a datagram; nobody has port 54, and the sender
    is told so. *)
Lemma udp_input_correct_witness :
  (exists st' x', udp_input (fun _ => 0) log_output toy_callback [toy_host] None toy_recv 1%positive toy_host (re_store (toy_world (toy_wire 53))) toy_udp_state =
      ret (st', toy_udp_state) /\
    own_head st' 1%positive x' [] 42 /\ content (st_mem st') [(1%positive, x')] = [1; 2; 3; 4] /\
    untouched [1%positive] (re_store (toy_world (toy_wire 53))) st' /\ load st' (Some (1%positive, 26)) 0 4 = ret [10; 0; 0; 2]) /\
  runs NoFail (udp_input (fun _ => 0) log_output toy_callback [toy_host] None toy_recv 1%positive toy_host (re_store (toy_world (toy_wire 54))) toy_udp_state)
    (fun '(st', s') => evolves (ip_held (udp_held no_pbufs)) [1%positive] (re_store (toy_world (toy_wire 54))) toy_udp_state st' s' /\ udp_of s' = toy_pcbs /\
       posted (udp_handed (fun w => w)) toy_host (get32 [10; 0; 0; 2] 0)
         (response_packet toy_host ICMP_DUR ICMP_DUR_PORT 7 (firstn 28 (toy_wire 54))) (next_id toy_udp_state) st' s') no_err.
Proof.
  assert (Hl : Forall usable [toy_host]) by (constructor; [right; vm_compute; split; congruence|apply List.Forall_nil]).
  assert (Hin := fun dest Hd => udp_input_correct no_pbufs (fun w => w) log_output _ toy_callback _ (fun _ => 0) [toy_host] None toy_recv (re_store (toy_world (toy_wire dest)))
    toy_udp_state 1%positive (toy_pbuf 1%positive (toy_wire dest)) [] 14 toy_host Hl ltac:(discriminate) toy_pcbs_ok (toy_arrived dest Hd)). split.
  - exact (proj2 (Hin 53 (or_introl eq_refl))).
  - exact (proj2 (proj2 (Hin 54 (or_intror eq_refl))) log_thrifty (fun n w => thrifty_ret w)).
Defined.

(** ** From one host to another *)

(** The packet that [udp_sendto] makes. *)
Definition udp_packet (src_ip dst_ip src dest : Z) (nochksum : bool) (ttl tos id : Z) (data : list Z) : list Z :=
  let d := udp_datagram src_ip dst_ip src dest nochksum data in
  checked (new_header src_ip dst_ip ttl tos IP_PROTO_UDP (Z.of_nat (length d) + IP_HLEN) id) ++ d.

Lemma packet_fields src_ip dst_ip ttl tos proto len id d :
  0 <= src_ip < 4294967296 -> 0 <= dst_ip < 4294967296 -> 0 <= tos < 256 ->
  let c := checked (new_header src_ip dst_ip ttl tos proto len id) ++ d in
  get32 c 12 = src_ip /\ get32 c 16 = dst_ip /\ ip_hlen c = 20 /\ udp_part c = d.
Proof.
  intros Hs Hd Ht c. assert (Lh : length (checked (new_header src_ip dst_ip ttl tos proto len id)) = 20%nat) by (apply checked_length, new_header_length).
  assert (F : get32 c 12 = le_value (field32 src_ip) /\ get32 c 16 = le_value (field32 dst_ip) /\ get16 c 0 = le_value (field16 (htons (Z.lor 0x4500 tos)))).
  { unfold c, checked. generalize (not16 (lwip_standard_chksum (new_header src_ip dst_ip ttl tos proto len id))). intros v. repeat split; reflexivity. }
  destruct F as (F1 & F2 & F3). split; [now rewrite F1, field32_value|]. split; [now rewrite F2, field32_value|].
  destruct (byte_or tos 0x45 Ht ltac:(lia)) as [B1 B2]. change (Z.shiftl 0x45 8) with 0x4500 in B1, B2. rewrite Z.lor_comm in B1, B2.
  assert (E : ip_hlen c = 20).
  { unfold ip_hlen, IPH_HL. rewrite F3, field16_value by (apply htons_range; exact B1). unfold ntohs. rewrite htons_involutive, B2 by exact B1. reflexivity. }
  split; [exact E|]. unfold udp_part. rewrite E. change (Z.to_nat 20) with 20%nat. unfold c. now rewrite skipn_app, skipn_all2, Lh, Nat.sub_diag, drop_0 by lia.
Qed.

Lemma packet_source src_ip dst_ip ttl tos proto len id d :
  bytes_at (checked (new_header src_ip dst_ip ttl tos proto len id) ++ d) 12 4 = field32 src_ip.
Proof.
  unfold checked. generalize (not16 (lwip_standard_chksum (new_header src_ip dst_ip ttl tos proto len id))). intros v. reflexivity.
Qed.

Lemma packet_delivered src_ip dst_ip src dest nochksum ttl tos id data u inp a x f :
  0 <= src_ip < 4294967296 -> 0 <= dst_ip < 4294967296 -> 0 <= tos < 256 -> 0 <= src < 65536 -> 0 <= dest < 65536 ->
  Forall byte data -> Z.of_nat (length data) + 8 < 65536 ->
  fst (best_pcb u src_ip dst_ip src dest (isbroadcast dst_ip inp)) = Some a -> pcb_heap u !! a = Some x -> recv x = Some f ->
  udp_verdict u inp (udp_packet src_ip dst_ip src dest nochksum ttl tos id data) = UdpDeliver a f (recv_arg x).
Proof.
  intros Hs Hd Ht Hsp Hdp Hb Hl Ha Hx Hf. unfold udp_packet. set (d := udp_datagram src_ip dst_ip src dest nochksum data). cbv zeta.
  destruct (packet_fields src_ip dst_ip ttl tos IP_PROTO_UDP (Z.of_nat (length d) + IP_HLEN) id d Hs Hd Ht) as (F1 & F2 & F3 & F4). set (c := _ ++ d) in *.
  destruct (datagram_fields src_ip dst_ip src dest nochksum data Hsp Hdp) as (G1 & G2 & _). fold d in G1, G2.
  assert (Em : fst (udp_match u inp c) = Some a) by (unfold udp_match; now rewrite F1, F2, F4, G1, G2).
  assert (Lc : 28 <= Z.of_nat (length c)).
  { assert (length c = 20 + length d)%nat; [|unfold d in *; rewrite udp_datagram_length in *; lia]. unfold c. rewrite length_app. reflexivity. }
  unfold udp_verdict, udp_for_us. rewrite Em, F3, (bool_decide_eq_false_2 (Some a = None)) by discriminate. unfold UDP_HLEN.
  destruct (Z.leb_spec (20 + 8) (Z.of_nat (length c))) as [_|]; [|lia]. cbn [negb orb andb].
  assert (Eg : udp_good c = true).
  { unfold udp_good. rewrite F1, F2, F4. destruct nochksum; [reflexivity|]. destruct (datagram_verifies src_ip dst_ip src dest data Hb ltac:(lia) ltac:(lia) Hl) as [_ E]. fold d in E.
    rewrite E. apply orb_true_r. }
  now rewrite Eg, Hx, Hf.
Qed.

(** C32: What a socket sends another one gets: if the datagram that
    [udp_sendto_if] gives to the interface arrives, with its headers in one
    pbuf, at a host where the sockets have one for its addresses and ports, then
    the callback of that socket is called with exactly the data that were sent,
    the port of the sender, and a pointer to the sender's address. *)
Theorem udp_round_trip {W W2} (held : W -> list addr) handed output (Hd : Driver held handed output) callback (Hs : Scheduler held handed callback) junk
    (held2 : W2 -> list addr) handed2 output2 (Hd2 : Driver held2 handed2 output2) callback2 (Hs2 : Scheduler held2 handed2 callback2) junk2 nl2 dflt2 call_recv
    pcb x0 p x l o dst_ip dst_port n st s sp u :
  udp_ok (udp_of s) -> pcb_heap (udp_of s) !! pcb = Some x0 -> 0 <= dst_ip < 4294967296 -> 0 <= dst_port < 65536 ->
  sendable_data held n st s p x l o -> bound pcb x0 (udp_of s) = Some (sp, u) -> ip_addr_isany (local_ip x0) || (local_ip x0 =? nf_ip_addr n) = true ->
  Forall usable nl2 -> (forall d, dflt2 = Some d -> usable d) ->
  let src_ip := udp_source x0 n in let data := content (st_mem st) ((p, x) :: l) in
  surely ('(_, st, s) <- udp_sendto_if junk output callback pcb p dst_ip dst_port n st s;; '(_, st) <- pbuf_free (Some p) st;; ret (st, s))
    (fun '(st', s') => exists c, sent (udp_handed handed) n dst_ip c (next_id (with_udp u s)) st' s' /\
       forall st2 s2 p2 x2 l2 o2 inp a z f,
         udp_ok (udp_of s2) -> datagram_arrived held2 st2 s2 p2 x2 l2 o2 -> content (st_mem st2) ((p2, x2) :: l2) = c ->
         fst (best_pcb (udp_of s2) src_ip dst_ip sp dst_port (isbroadcast dst_ip inp)) = Some a -> pcb_heap (udp_of s2) !! a = Some z -> recv z = Some f ->
         exists st3 x3 s3, udp_input junk2 output2 callback2 nl2 dflt2 call_recv p2 inp st2 s2 = call_recv f (recv_arg z) a p2 (Some (p2, o2 + 12)) sp st3 s3 /\
           content (st_mem st3) ((p2, x3) :: l2) = data /\ own_head st3 p2 x3 l2 (o2 + 28) /\ load st3 (Some (p2, o2 + 12)) 0 4 = ret (field32 src_ip)).
Proof.
  intros Hu Hx Hdip Hdp Hsd Hbd Hsrc Hnl Hdf src_ip data. pose proof (sendto_spec held handed output callback junk pcb x0 p x l o dst_ip dst_port n st s Hu Hx Hsd Hdip) as H.
  rewrite Hbd, Hsrc in H. destruct (bound_spec _ _ _ _ _ Hu Hx Hbd) as (_ & _ & Hsp). pose proof (uo_pcb _ Hu _ _ Hx) as Hok.
  pose proof Hsd as [Hh _ _ Hb Hsz _ Hadr _ _ _]. fold data in Hb. unfold UDP_HLEN, IP_HLEN in Hsz. pose proof (content_length _ _ (op_valid _ _ _ (oh_own _ _ _ _ _ Hh))) as Ld. fold data in Ld.
  assert (Hsi : 0 <= src_ip < 4294967296) by (unfold src_ip, udp_source; destruct (ip_addr_isany (local_ip x0)); [exact Hadr|exact (po_local_ip _ Hok)]).
  eapply surely_weaken; [exact H|]. intros [st' s'] (_ & _ & Hsent). cbv zeta in Hsent. fold src_ip data in Hsent.
  set (d := udp_datagram src_ip dst_ip sp dst_port (no_chksum x0) data) in *.
  destruct (packet_fields src_ip dst_ip (ttl x0) (tos x0) IP_PROTO_UDP (Z.of_nat (length d) + IP_HLEN) (ip_id s) d Hsi Hdip (po_tos _ Hok)) as (F1 & _ & F3 & F4).
  destruct (datagram_fields src_ip dst_ip sp dst_port (no_chksum x0) data ltac:(lia) Hdp) as (G1 & _ & _ & G4). fold d in G1, G4.
  assert (Hver := fun u2 inp a z f => packet_delivered src_ip dst_ip sp dst_port (no_chksum x0) (ttl x0) (tos x0) (ip_id s) data u2 inp a z f
    Hsi Hdip (po_tos _ Hok) ltac:(lia) Hdp Hb ltac:(lia)). unfold udp_packet in Hver. cbv zeta in Hver. fold d in Hver.
  pose proof (packet_source src_ip dst_ip (ttl x0) (tos x0) IP_PROTO_UDP (Z.of_nat (length d) + IP_HLEN) (ip_id s) d) as F5. cbv zeta in F1, F3, F4, F5.
  set (c := checked _ ++ d) in *. clearbody c. exists c. split; [exact Hsent|]. intros st2 s2 p2 x2 l2 o2 inp a z f Hu2 Ha2 Ec Ebest Hz Hf.
  pose proof (udp_input_spec held2 handed2 output2 callback2 junk2 nl2 dflt2 Hnl Hdf call_recv st2 s2 p2 x2 l2 o2 inp Hu2 Ha2) as Hin.
  unfold udp_outcome in Hin. rewrite Ec, (Hver (udp_of s2) inp a z f Ebest Hz Hf) in Hin. destruct Hin as (st3 & x3 & Hun & E).
  destruct (delivered_facts held2 st2 s2 p2 x2 l2 o2 st3 x3 Ha2 Hun) as (H1 & H2 & _ & H4). rewrite Ec in H1, H2, H4. rewrite F3 in H1. rewrite F4, G4 in H2. rewrite F5 in H4. rewrite F4, G1 in E.
  eexists st3, x3, _. split; [exact E|]. split; [exact H2|]. split; [exact H1|exact H4].
Qed.

Lemma udp_round_trip_witness :
  let src := get32 [10; 0; 0; 1] 0 in let dst := get32 [10; 0; 0; 2] 0 in
  surely ('(_, st, s) <- udp_sendto_if (fun _ => 0) log_output toy_callback 1%positive 1%positive dst 99 toy_host toy_out_store toy_udp_state;;
          '(_, st) <- pbuf_free (Some 1%positive) st;; ret (st, s))
    (fun '(st', s') => exists c, sent (udp_handed (fun w => w)) toy_host dst c (next_id (with_udp toy_pcbs toy_udp_state)) st' s' /\
       forall st2 s2 p2 x2 l2 o2 inp a z f,
         udp_ok (udp_of s2) -> datagram_arrived no_pbufs st2 s2 p2 x2 l2 o2 -> content (st_mem st2) ((p2, x2) :: l2) = c ->
         fst (best_pcb (udp_of s2) src dst 53 99 (isbroadcast dst inp)) = Some a -> pcb_heap (udp_of s2) !! a = Some z -> recv z = Some f ->
         exists st3 x3 s3, udp_input (fun _ => 0) log_output toy_callback [toy_host] None toy_recv p2 inp st2 s2 = toy_recv f (recv_arg z) a p2 (Some (p2, o2 + 12)) 53 st3 s3 /\
           content (st_mem st3) ((p2, x3) :: l2) = toy_datagram /\ own_head st3 p2 x3 l2 (o2 + 28) /\ load st3 (Some (p2, o2 + 12)) 0 4 = ret [10; 0; 0; 1]).
Proof.
  assert (Hl : Forall usable [toy_host]) by (constructor; [right; vm_compute; split; congruence|apply List.Forall_nil]).
  exact (udp_round_trip no_pbufs (fun w => w) log_output _ toy_callback _ (fun _ => 0) no_pbufs (fun w => w) log_output _ toy_callback _ (fun _ => 0) [toy_host] None toy_recv
    1%positive toy_pcb 1%positive toy_out [] 34 (get32 [10; 0; 0; 2] 0) 99 toy_host toy_out_store toy_udp_state 53 toy_pcbs toy_pcbs_ok eq_refl
    ltac:(vm_compute; split; congruence) ltac:(lia) toy_sendable eq_refl eq_refl Hl ltac:(discriminate)).
Defined.

(** ** Limits *)

(** The datagram for the port 53 with another length in its header and no
    checksum. *)
Definition limit_length : list Z := splice (splice (toy_wire 53) 24 (field16 (htons 9))) 26 [0; 0].

(** A packet whose first pbuf holds the IP header and nothing else. *)
Definition limit_split : store :=
  let h := firstn 20 (toy_wire 53) in let d := [0; 0; 0; 53; 0; 8; 0; 0] in
  Store {[ 1%positive := Pbuf (Some 2%positive) (Some (1%positive, 0)) 28 20 PBUF_RAM 0 1; 2%positive := Pbuf None (Some (2%positive, 0)) 8 8 PBUF_RAM 0 1 ]}
    {[ 1%positive := h ++ d; 2%positive := d ]}.

(** What the code does not do: the length in the header of a datagram is not
    looked at, so all bytes of the packet are delivered; a datagram whose header
    is not in the first pbuf stops the system; and a port that a socket has is
    given to another one. *)
Theorem udp_limits :
  (get16 (udp_part limit_length) 4 = htons 9 /\ udp_verdict toy_pcbs toy_host limit_length = UdpDeliver 1%positive 7 8 /\ length (skipn 8 (udp_part limit_length)) = 4%nat) /\
  fst (udp_input (fun _ => 0) log_output toy_callback [toy_host] None toy_recv 1%positive toy_host limit_split toy_udp_state []) = Err ABORT /\
  (match udp_bind 2%positive None 4096 toy_two [] with
   | (Ok (e, u), _) => e = ERR_OK /\ map (fun a => local_port <$> pcb_heap u !! a) (udp_pcbs u) = [Some 4096; Some 4096] | _ => False end).
Proof. split; [|split]; vm_compute; repeat split; reflexivity. Qed.
