(* ===== verification/Tcp.v ===== *)
(** * lwIP: TCP, connections and sending

    The control block of a connection, its queues of segments, and the
    functions of [lwip/src/core/tcp_out.c] with those of [tcp.c] and [tcp.h]
    they use, as the port configures them (no time stamps, no event API).  A
    segment is what the code keeps in [struct tcp_seg] and in the TCP header
    in front of its data: the chain of packet buffers of the segment is the
    list of the payloads behind the header, one for each buffer, and the
    functions of [pbuf.c] on it are those on such lists.  What is given to
    [ip_output] is appended to the list [wire], and [events] are the calls of
    the application's functions with what they returned; [in_input] says
    whether [tcp_input_pcb] is this connection. *)
From Stdlib Require Import ZArith List Lia Bool.
From stdpp Require Import base gmap list.
From S2P Require Import Prelude CMonad Pbuf Inet Netif IpHdr IpOut.
#[local] Open Scope Z_scope.
#[local] Open Scope cmonad_scope.
#[local] Open Scope record_scope.

Definition ERR_CONN : Z := -8.

(** ** Options *)

Definition TCP_WND : Z := 4 * TCP_MSS.
Definition TCP_SND_BUF : Z := 256.
Definition TCP_SND_QUEUELEN : Z := 4 * TCP_SND_BUF / TCP_MSS.
Definition TCP_SNDQUEUELEN_OVERFLOW : Z := 0xffff - 3.
Definition TCP_WND_UPDATE_THRESHOLD : Z := TCP_WND / 4.
Definition TCP_TTL : Z := IP_DEFAULT_TTL.
Definition TCP_HLEN : Z := 20.

(** ** Numbers *)

(** The signed 16 and 32 bit numbers that [x] is converted to. *)
Definition s16 (x : Z) : Z := (x + 32768) mod 65536 - 32768.
Definition s32 (x : Z) : Z := (x + 2147483648) mod 4294967296 - 2147483648.

Definition TCP_SEQ_LT (a b : Z) : bool := s32 (a - b) <? 0.
Definition TCP_SEQ_LEQ (a b : Z) : bool := s32 (a - b) <=? 0.
Definition TCP_SEQ_GT (a b : Z) : bool := 0 <? s32 (a - b).
Definition TCP_SEQ_GEQ (a b : Z) : bool := 0 <=? s32 (a - b).
Definition TCP_SEQ_BETWEEN (a b c : Z) : bool := TCP_SEQ_GEQ a b && TCP_SEQ_LEQ a c.

(** ** Flags *)

Definition TCP_FIN : Z := 0x01.
Definition TCP_SYN : Z := 0x02.
Definition TCP_RST : Z := 0x04.
Definition TCP_PSH : Z := 0x08.
Definition TCP_ACK : Z := 0x10.

(** [x & f], as a condition. *)
Definition has (f x : Z) : bool := negb (Z.land x f =? 0).

Definition TF_ACK_DELAY : Z := 0x01.
Definition TF_ACK_NOW : Z := 0x02.
Definition TF_INFR : Z := 0x04.
Definition TF_FIN : Z := 0x20.
Definition TF_NODELAY : Z := 0x40.
Definition TF_NAGLEMEMERR : Z := 0x80.
Definition TF_SEG_OPTS_MSS : Z := 0x01.

Definition TCP_WRITE_FLAG_COPY : Z := 0x01.
Definition TCP_WRITE_FLAG_MORE : Z := 0x02.

(** [x & ~f] for a byte [x]. *)
Definition without_flag (f x : Z) : Z := Z.land x (255 - f).

(** ** Segments *)

Inductive tcp_state :=
  CLOSED | LISTEN | SYN_SENT | SYN_RCVD | ESTABLISHED | FIN_WAIT_1 | FIN_WAIT_2 | CLOSE_WAIT | CLOSING | LAST_ACK | TIME_WAIT.

#[export] Instance tcp_state_eq_dec : EqDecision tcp_state.
Proof. solve_decision. Defined.

(** The payloads of a chain of packet buffers. *)
Definition chain : Type := list (list Z).

Definition tot_len (p : chain) : Z := Z.of_nat (length (concat p)).

(** [struct tcp_seg] without [next], with the sequence number and the flags
    of its header. *)
Record tcp_seg : Type := TcpSeg { seg_p : chain; seg_len : Z; seg_flags : Z; seg_seqno : Z; th_flags : Z }.

#[export] Instance tcp_seg_fields : Fields tcp_seg :=
  fun x => TcpSeg (seg_p x) (seg_len x) (seg_flags x) (seg_seqno x) (th_flags x).

#[export] Instance tcp_seg_eq_dec : EqDecision tcp_seg.
Proof. solve_decision. Defined.

Definition TCP_TCPLEN (seg : tcp_seg) : Z := seg_len seg + b2z (has (Z.lor TCP_FIN TCP_SYN) (th_flags seg)).

Definition LWIP_TCP_OPT_LENGTH (flags : Z) : Z := if has TF_SEG_OPTS_MSS flags then 4 else 0.

(** [pbuf_realloc] *)
Fixpoint cut_loop (p : chain) (rem_len : Z) : M chain :=
  match p with
  | [] => throw ABORT
  | q :: p' =>
      if Z.of_nat (length q) <? rem_len then
        r <- cut_loop p' (rem_len - Z.of_nat (length q));;
        ret (q :: r)
      else ret [firstn (Z.to_nat rem_len) q]
  end.

Definition chain_cut (p : chain) (new_len : Z) : M chain :=
  if tot_len p <=? new_len then ret p else cut_loop p new_len.

(** What is sent: the addresses, the fields of the header, and the data. *)
Record tcp_packet : Type := TcpPacket
  { pk_src_ip : Z; pk_dest_ip : Z; pk_src : Z; pk_dest : Z; pk_seqno : Z; pk_ackno : Z; pk_flags : Z; pk_wnd : Z;
    pk_mss : option Z; pk_data : list Z }.

#[export] Instance tcp_packet_fields : Fields tcp_packet :=
  fun x => TcpPacket (pk_src_ip x) (pk_dest_ip x) (pk_src x) (pk_dest x) (pk_seqno x) (pk_ackno x) (pk_flags x) (pk_wnd x)
    (pk_mss x) (pk_data x).

(** ** Connections *)

(** [struct tcp_pcb] without [next]; the callbacks are numbers. *)
Record tcp_pcb : Type := TcpPcb
  { local_ip : Z; remote_ip : Z; so_options : Z; tos : Z; ttl : Z;
    state : tcp_state; prio : Z; callback_arg : Z; local_port : Z; accept : option Z;
    remote_port : Z; flags : Z;
    rcv_nxt : Z; rcv_wnd : Z; rcv_ann_wnd : Z; rcv_ann_right_edge : Z;
    tmr : Z; polltmr : Z; pollinterval : Z; rtime : Z; mss : Z;
    rttest : Z; rtseq : Z; sa : Z; sv : Z; rto : Z; nrtx : Z;
    lastack : Z; dupacks : Z; cwnd : Z; ssthresh : Z;
    snd_nxt : Z; snd_wnd : Z; snd_wl1 : Z; snd_wl2 : Z; snd_lbb : Z; acked : Z; snd_buf : Z; snd_queuelen : Z;
    unsent : list tcp_seg; unacked : list tcp_seg; ooseq : list tcp_seg; refused_data : option chain;
    sent : option Z; recv : option Z; connected : option Z; poll : option Z; errf : option Z;
    keep_idle : Z; persist_cnt : Z; persist_backoff : Z; keep_cnt_sent : Z }.

#[export] Instance tcp_pcb_fields : Fields tcp_pcb :=
  fun x => TcpPcb (local_ip x) (remote_ip x) (so_options x) (tos x) (ttl x)
    (state x) (prio x) (callback_arg x) (local_port x) (accept x) (remote_port x) (flags x)
    (rcv_nxt x) (rcv_wnd x) (rcv_ann_wnd x) (rcv_ann_right_edge x)
    (tmr x) (polltmr x) (pollinterval x) (rtime x) (mss x) (rttest x) (rtseq x) (sa x) (sv x) (rto x) (nrtx x)
    (lastack x) (dupacks x) (cwnd x) (ssthresh x)
    (snd_nxt x) (snd_wnd x) (snd_wl1 x) (snd_wl2 x) (snd_lbb x) (acked x) (snd_buf x) (snd_queuelen x)
    (unsent x) (unacked x) (ooseq x) (refused_data x) (sent x) (recv x) (connected x) (poll x) (errf x)
    (keep_idle x) (persist_cnt x) (persist_backoff x) (keep_cnt_sent x).

(** The calls of the application's functions. *)
Inductive event := EV_ACCEPT | EV_SENT (space : Z) | EV_RECV (p : option chain) | EV_CONNECTED | EV_POLL | EV_ERR (err : Z).

Record conn : Type := Conn { pcb : tcp_pcb; wire : list tcp_packet; events : list (event * Z); tcp_ticks : Z; in_input : bool }.

#[export] Instance conn_fields : Fields conn := fun x => Conn (pcb x) (wire x) (events x) (tcp_ticks x) (in_input x).

Definition ip_send (k : tcp_packet) (c : conn) : conn := c <| wire := wire c ++ [k] |>.

(** ** Queues *)

(** The walk along a queue to the first segment that does not start before
    [seg], which is put in front of it. *)
Fixpoint insert_seg (seg : tcp_seg) (l : list tcp_seg) : list tcp_seg :=
  match l with
  | [] => [seg]
  | cur_seg :: l' => if TCP_SEQ_LT (seg_seqno cur_seg) (seg_seqno seg) then cur_seg :: insert_seg seg l' else seg :: l
  end.

Definition tcp_seg_copy (seg : tcp_seg) : M (option tcp_seg) :=
  ok <- malloc;;
  ret (if ok : bool then Some seg else None).

Section Tcp.
Variables (netif_list : list netif) (netif_default : option netif).

(** The option [TCP_SND_QUEUELEN]. *)
Variable snd_queuelen_max : Z.

(** ** Sending a segment *)

Definition tcp_output_set_header (p : tcp_pcb) (seqno : Z) (c : conn) : conn * tcp_packet :=
  let k := TcpPacket (local_ip p) (remote_ip p) (local_port p) (remote_port p) seqno (rcv_nxt p) TCP_ACK (rcv_ann_wnd p) None [] in
  (c <| pcb := p <| rcv_ann_right_edge := u32 (rcv_nxt p + rcv_ann_wnd p) |> |>, k).

Definition tcp_send_empty_ack (c : conn) : M (Z * conn) :=
  ok <- malloc;;
  if negb ok then ret (ERR_BUF, c)
  else
    let p := (pcb c) <| flags := without_flag (Z.lor TF_ACK_DELAY TF_ACK_NOW) (flags (pcb c)) |> in
    let (c, k) := tcp_output_set_header p (snd_nxt p) c in
    ret (ERR_OK, ip_send k c).

Definition tcp_output_segment (seg : tcp_seg) (c : conn) : conn :=
  let p := pcb c in
  let p := p <| rcv_ann_right_edge := u32 (rcv_nxt p + rcv_ann_wnd p) |> in
  match (if ip_addr_isany (local_ip p) then
           match ip_route netif_list netif_default (remote_ip p) with
           | None => None
           | Some n => Some (p <| local_ip := nf_ip_addr n |>)
           end
         else Some p) with
  | None => c <| pcb := p |>
  | Some p =>
      let p := if rtime p =? -1 then p <| rtime := 0 |> else p in
      let p := if rttest p =? 0 then p <| rttest := tcp_ticks c |> <| rtseq := seg_seqno seg |> else p in
      ip_send (TcpPacket (local_ip p) (remote_ip p) (local_port p) (remote_port p) (seg_seqno seg) (rcv_nxt p)
                 (th_flags seg) (rcv_ann_wnd p) (if has TF_SEG_OPTS_MSS (seg_flags seg) then Some TCP_MSS else None) (concat (seg_p seg)))
        (c <| pcb := p |>)
  end.

Definition tcp_do_output_nagle (p : tcp_pcb) : bool :=
  match unacked p with [] => true | _ => false end || has (Z.lor TF_NODELAY TF_INFR) (flags p) ||
  match unsent p with [] => false | [seg] => mss p <=? seg_len seg | _ => true end.

(** The window that the segment needs. *)
Definition need_wnd (p : tcp_pcb) (seg : tcp_seg) : Z := u32 (seg_seqno seg - lastack p + seg_len seg).

(** [seg] goes to the queue of the segments that are not acknowledged. *)
Definition put_unacked (seg : tcp_seg) (l : list tcp_seg) : list tcp_seg :=
  match last l with
  | None => [seg]
  | Some useg => if TCP_SEQ_LT (seg_seqno seg) (seg_seqno useg) then insert_seg seg l else l ++ [seg]
  end.

(** [while (seg != NULL && ...)]; [l] is the list from [seg] on. *)
Fixpoint output_loop (wnd : Z) (l : list tcp_seg) (c : conn) : M conn :=
  match l with
  | [] => ret c
  | seg :: l' =>
      if negb (need_wnd (pcb c) seg <=? wnd) then ret c
      else
        _ <- lwip_assert (negb (has TCP_RST (th_flags seg)));;
        if negb (tcp_do_output_nagle (pcb c)) && negb (has (Z.lor TF_NAGLEMEMERR TF_FIN) (flags (pcb c))) then ret c
        else
          let p := (pcb c) <| unsent := l' |> in
          let syn_sent := bool_decide (state p = SYN_SENT) in
          let seg := if syn_sent then seg else seg <| th_flags := Z.lor (th_flags seg) TCP_ACK |> in
          let p := if syn_sent then p else p <| flags := without_flag (Z.lor TF_ACK_DELAY TF_ACK_NOW) (flags p) |> in
          let c := tcp_output_segment seg (c <| pcb := p |>) in
          let p := pcb c in
          let nxt := u32 (seg_seqno seg + TCP_TCPLEN seg) in
          let p := if TCP_SEQ_LT (snd_nxt p) nxt then p <| snd_nxt := nxt |> else p in
          let p := if 0 <? TCP_TCPLEN seg then p <| unacked := put_unacked seg (unacked p) |> else p in
          output_loop wnd l' (c <| pcb := p |>)
  end.

Definition tcp_output (c : conn) : M (Z * conn) :=
  if in_input c then ret (ERR_OK, c)
  else
    let p := pcb c in
    let wnd := Z.min (snd_wnd p) (cwnd p) in
    if has TF_ACK_NOW (flags p) && match unsent p with [] => true | seg :: _ => wnd <? need_wnd p seg end
    then tcp_send_empty_ack c
    else
      c <- output_loop wnd (unsent p) c;;
      let p := pcb c in
      let p :=
        match unsent p with
        | seg :: _ =>
            if (persist_backoff p =? 0) && (snd_wnd p <? need_wnd p seg)
            then p <| persist_cnt := 0 |> <| persist_backoff := 1 |> else p
        | [] => p
        end in
      ret (ERR_OK, c <| pcb := p <| flags := without_flag TF_NAGLEMEMERR (flags p) |> |>).

Definition tcp_ack (c : conn) : M conn :=
  if has TF_ACK_DELAY (flags (pcb c)) then
    let p := (pcb c) <| flags := Z.lor (without_flag TF_ACK_DELAY (flags (pcb c))) TF_ACK_NOW |> in
    '(_, c) <- tcp_output (c <| pcb := p |>);;
    ret c
  else ret (c <| pcb := (pcb c) <| flags := Z.lor (flags (pcb c)) TF_ACK_DELAY |> |>).

Definition tcp_ack_now (c : conn) : M conn :=
  '(_, c) <- tcp_output (c <| pcb := (pcb c) <| flags := Z.lor (flags (pcb c)) TF_ACK_NOW |> |>);;
  ret c.

Definition tcp_rst (seqno ackno local_ip remote_ip local_port remote_port : Z) (c : conn) : M conn :=
  ok <- malloc;;
  if negb ok then ret c
  else ret (ip_send (TcpPacket local_ip remote_ip local_port remote_port seqno ackno (Z.lor TCP_RST TCP_ACK) TCP_WND None []) c).

(** ** Queueing data *)

Definition mark_memerr (p : tcp_pcb) : tcp_pcb := p <| flags := Z.lor (flags p) TF_NAGLEMEMERR |>.

(** The buffers of one segment with [seglen] bytes of data, and how many they
    are; [None]: no memory. *)
Definition seg_bufs (bytes : list Z) (copy : bool) : M (option chain) :=
  ok <- malloc;;
  if negb ok then ret None
  else if copy then ret (Some [bytes])
  else
    match bytes with
    | [] => ret (Some [[]])
    | _ =>
        ok <- malloc;;
        ret (if ok : bool then Some [[]; bytes] else None)
    end.

(** [while (queue == NULL || left > 0)]; the segments, and [queuelen]. *)
Fixpoint segment_loop (fuel : nat) (p : tcp_pcb) (data : option (list Z)) (left seqno queuelen : Z) (flags apiflags optflags : Z)
    (queue : list tcp_seg) : M (option (list tcp_seg * Z)) :=
  match fuel with
  | O => out_of_fuel
  | S fuel' =>
      let room := mss p - LWIP_TCP_OPT_LENGTH optflags in
      let seglen := u16 (if room <? left then room else left) in
      bytes <- match data with
               | Some d => take_bytes (Z.to_nat seglen) d
               | None => if seglen =? 0 then ret [] else ub
               end;;
      ok <- malloc;;
      if negb ok then ret None
      else
        bufs <- seg_bufs bytes (has TCP_WRITE_FLAG_COPY apiflags);;
        match bufs with
        | None => ret None
        | Some bufs =>
            let queuelen := u16 (queuelen + Z.of_nat (length bufs)) in
            if (snd_queuelen_max <? queuelen) || (TCP_SNDQUEUELEN_OVERFLOW <? queuelen) then ret None
            else
              let queue := queue ++ [TcpSeg bufs seglen optflags seqno flags] in
              let left := left - seglen in
              if 0 <? left then
                segment_loop fuel' p (match data with Some d => Some (skipn (Z.to_nat seglen) d) | None => None end) left
                  (u32 (seqno + seglen)) queuelen flags apiflags optflags queue
              else ret (Some (queue, queuelen))
        end
  end.

(** The data of [queue] may be put behind those of [useg]. *)
Definition may_merge (p : tcp_pcb) (useg queue : tcp_seg) (flags : Z) : bool :=
  negb (TCP_TCPLEN useg =? 0) && negb (has (Z.lor TCP_SYN TCP_FIN) (th_flags useg)) &&
  (negb (has (Z.lor TCP_SYN TCP_FIN) flags) || (flags =? TCP_FIN)) && (seg_len useg + seg_len queue <=? mss p) &&
  (seg_flags useg =? seg_flags queue) && (u32 (seg_seqno useg + seg_len useg) =? seg_seqno queue).

(** [useg] with the first of the new segments put behind it, and
    [queuelen]. *)
Definition merge_seg (useg queue : tcp_seg) (flags queuelen : Z) : M (tcp_seg * Z) :=
  let '(p, queuelen) := match seg_p queue with [] :: p => (p, u16 (queuelen - 1)) | p => (p, queuelen) end in
  if has TCP_FIN flags then
    _ <- lwip_assert (match p with [] => true | _ => false end && (seg_len queue =? 0));;
    ret (useg <| th_flags := Z.lor (th_flags useg) TCP_FIN |>, queuelen)
  else
    _ <- lwip_assert (match p with [] => false | q :: _ => 0 <? Z.of_nat (length q) end);;
    ret (useg <| seg_p := seg_p useg ++ p |> <| seg_len := u16 (seg_len useg + seg_len queue) |>, queuelen).

(** The last segment pushes its data. *)
Definition push_last (apiflags : Z) (l : list tcp_seg) : list tcp_seg :=
  match last l with
  | Some seg =>
      if (0 <? seg_len seg) && negb (has TCP_WRITE_FLAG_MORE apiflags)
      then removelast l ++ [seg <| th_flags := Z.lor (th_flags seg) TCP_PSH |>] else l
  | None => l
  end.

(** The new segments behind those of [unsent]. *)
Definition append_segs (p : tcp_pcb) (queue : list tcp_seg) (flags queuelen : Z) : M (list tcp_seg * Z) :=
  match last (unsent p), queue with
  | Some useg, q :: queue' =>
      if may_merge p useg q flags then
        '(useg, queuelen) <- merge_seg useg q flags queuelen;;
        ret (removelast (unsent p) ++ useg :: (if has TCP_FIN flags then [] else queue'), queuelen)
      else ret (unsent p ++ queue, queuelen)
  | _, _ => ret (unsent p ++ queue, queuelen)
  end.

Definition tcp_enqueue (p : tcp_pcb) (arg : option (list Z)) (len hflags apiflags optflags : Z) : M (Z * tcp_pcb) :=
  let syn_fin := has (Z.lor TCP_SYN TCP_FIN) hflags in
  _ <- lwip_assert (negb ((len =? 0) && (optflags =? 0) && negb syn_fin));;
  _ <- lwip_assert (negb ((len =? 0) && match arg with None => false | _ => true end));;
  if snd_buf p <? len then ret (ERR_MEM, mark_memerr p)
  else if (snd_queuelen_max <=? snd_queuelen p) || (TCP_SNDQUEUELEN_OVERFLOW <? snd_queuelen p) then ret (ERR_MEM, mark_memerr p)
  else
    let no_segs := match unacked p ++ unsent p with [] => true | _ => false end in
    _ <- lwip_assert (if negb (snd_queuelen p =? 0) then negb no_segs else no_segs);;
    r <- segment_loop (S (Z.to_nat snd_queuelen_max)) p arg len (snd_lbb p) (snd_queuelen p) hflags apiflags optflags [];;
    match r with
    | None => ret (ERR_MEM, mark_memerr p)
    | Some (queue, queuelen) =>
        '(l, queuelen) <- append_segs p queue hflags queuelen;;
        let len := if syn_fin then u16 (len + 1) else len in
        let p := if has TCP_FIN hflags then p <| flags := Z.lor (flags p) TF_FIN |> else p in
        let p := p <| unsent := l |> <| snd_lbb := u32 (snd_lbb p + len) |> <| snd_buf := u16 (snd_buf p - len) |>
                   <| snd_queuelen := queuelen |> in
        let p := p <| unsent := push_last apiflags (unsent p) |> in
        ret (ERR_OK, p)
    end.

(** [tcp_write]; [data] are the bytes at the pointer. *)
Definition tcp_write (p : tcp_pcb) (data : option (list Z)) (len apiflags : Z) : M (Z * tcp_pcb) :=
  match state p with
  | ESTABLISHED | CLOSE_WAIT | SYN_SENT | SYN_RCVD =>
      if 0 <? len then tcp_enqueue p data len 0 apiflags 0 else ret (ERR_OK, p)
  | _ => ret (ERR_CONN, p)
  end.

Definition tcp_send_ctrl (p : tcp_pcb) (flags : Z) : M (Z * tcp_pcb) := tcp_enqueue p None 0 flags TCP_WRITE_FLAG_COPY 0.

(** ** Sending again *)

Definition tcp_rexmit_rto (c : conn) : M conn :=
  let p := pcb c in
  match unacked p with
  | [] => ret c
  | _ =>
      let p := p <| unsent := unacked p ++ unsent p |> <| unacked := [] |> <| nrtx := u8 (nrtx p + 1) |> <| rttest := 0 |> in
      '(_, c) <- tcp_output (c <| pcb := p |>);;
      ret c
  end.

Definition tcp_rexmit (p : tcp_pcb) : tcp_pcb :=
  match unacked p with
  | [] => p
  | seg :: l => p <| unacked := l |> <| unsent := insert_seg seg (unsent p) |> <| nrtx := u8 (nrtx p + 1) |> <| rttest := 0 |>
  end.

Definition tcp_rexmit_fast (p : tcp_pcb) : tcp_pcb :=
  match unacked p with
  | [] => p
  | _ =>
      if has TF_INFR (flags p) then p
      else
        let p := tcp_rexmit p in
        let p := p <| ssthresh := (if snd_wnd p <? cwnd p then snd_wnd p / 2 else cwnd p / 2) |> in
        let p := if ssthresh p <? 2 * mss p then p <| ssthresh := u16 (2 * mss p) |> else p in
        p <| cwnd := u16 (ssthresh p + 3 * mss p) |> <| flags := Z.lor (flags p) TF_INFR |>
  end.

Definition tcp_keepalive (c : conn) : M conn :=
  ok <- malloc;;
  if negb ok then ret c
  else
    let (c, k) := tcp_output_set_header (pcb c) (u32 (snd_nxt (pcb c) - 1)) c in
    ret (ip_send k c).

Definition tcp_zero_window_probe (c : conn) : M conn :=
  match unacked (pcb c) ++ unsent (pcb c) with
  | [] => ret c
  | seg :: _ =>
      let is_fin := has TCP_FIN (th_flags seg) && (seg_len seg =? 0) in
      ok <- malloc;;
      if negb ok then ret c
      else
        let (c, k) := tcp_output_set_header (pcb c) (seg_seqno seg) c in
        if is_fin then ret (ip_send (k <| pk_flags := Z.lor TCP_ACK TCP_FIN |>) c)
        else
          match concat (seg_p seg) with
          | [] => ub
          | b :: _ => ret (ip_send (k <| pk_data := [b] |>) c)
          end
  end.

(** ** The window for the other side *)

Definition tcp_update_rcv_ann_wnd (p : tcp_pcb) : Z * tcp_pcb :=
  let new_right_edge := u32 (rcv_nxt p + rcv_wnd p) in
  if TCP_SEQ_GEQ new_right_edge (rcv_ann_right_edge p + Z.min (TCP_WND / 2) (mss p)) then
    (u32 (new_right_edge - rcv_ann_right_edge p), p <| rcv_ann_wnd := rcv_wnd p |>)
  else if TCP_SEQ_GT (rcv_nxt p) (rcv_ann_right_edge p) then (0, p <| rcv_ann_wnd := 0 |>)
  else (0, p <| rcv_ann_wnd := u16 (rcv_ann_right_edge p - rcv_nxt p) |>).

Definition tcp_recved (len : Z) (c : conn) : M conn :=
  let p := pcb c in
  _ <- lwip_assert (len <=? 0xffff - rcv_wnd p);;
  let p := p <| rcv_wnd := u16 (rcv_wnd p + len) |> in
  let p := if TCP_WND <? rcv_wnd p then p <| rcv_wnd := TCP_WND |> else p in
  let (wnd_inflation, p) := tcp_update_rcv_ann_wnd p in
  if TCP_WND_UPDATE_THRESHOLD <=? s32 wnd_inflation then tcp_ack_now (c <| pcb := p |>) else ret (c <| pcb := p |>).
End Tcp.
