(* ===== verification/TcpIn.v ===== *)
(** * lwIP: TCP, receiving

    [tcp_receive] of [lwip/src/core/tcp_in.c]: acknowledgements, the data that
    are next in the sequence, and the queue [ooseq] of those that are not.
    The static variables that describe the segment being processed are the
    record [tcp_in]. *)
From Stdlib Require Import ZArith List Lia Bool.
From stdpp Require Import base gmap list.
From S2P Require Import Prelude CMonad Pbuf Inet Netif Tcp.
#[local] Open Scope Z_scope.
#[local] Open Scope cmonad_scope.
#[local] Open Scope record_scope.

Definition TF_RESET : Z := 0x08.
Definition TF_CLOSED : Z := 0x10.
Definition TF_GOT_FIN : Z := 0x20.

(** [in_wnd] is [tcphdr->wnd], [in_opts] are the bytes behind the first 20 of
    the header, as far as the buffer reaches. *)
Record tcp_in : Type := TcpIn
  { inseg : tcp_seg; in_src_ip : Z; in_dest_ip : Z; in_src : Z; in_dest : Z; seqno : Z; ackno : Z; in_flags : Z; in_wnd : Z;
    hdrlen : Z; in_opts : list Z; tcplen : Z; recv_flags : Z; recv_data : option chain }.

#[export] Instance tcp_in_fields : Fields tcp_in :=
  fun x => TcpIn (inseg x) (in_src_ip x) (in_dest_ip x) (in_src x) (in_dest x) (seqno x) (ackno x) (in_flags x) (in_wnd x)
    (hdrlen x) (in_opts x) (tcplen x) (recv_flags x) (recv_data x).

(** ** Acknowledgements *)

Definition update_window (i : tcp_in) (p : tcp_pcb) : tcp_pcb :=
  if TCP_SEQ_LT (snd_wl1 p) (seqno i) ||
     ((snd_wl1 p =? seqno i) && TCP_SEQ_LT (snd_wl2 p) (ackno i)) ||
     ((snd_wl2 p =? ackno i) && (snd_wnd p <? in_wnd i))
  then
    let p := p <| snd_wnd := in_wnd i |> <| snd_wl1 := seqno i |> <| snd_wl2 := ackno i |> in
    if (0 <? snd_wnd p) && (0 <? persist_backoff p) then p <| persist_backoff := 0 |> else p
  else p.

(** [(u16_t)(pcb->cwnd + pcb->mss) > pcb->cwnd] *)
Definition inflate_cwnd (p : tcp_pcb) : tcp_pcb :=
  if cwnd p <? u16 (cwnd p + mss p) then p <| cwnd := u16 (cwnd p + mss p) |> else p.

(** An acknowledgement of nothing new. *)
Definition old_ack (i : tcp_in) (right_wnd_edge : Z) (p : tcp_pcb) : tcp_pcb :=
  let p := p <| acked := 0 |> in
  if (tcplen i =? 0) && (u32 (snd_wl2 p + snd_wnd p) =? right_wnd_edge) && (0 <=? rtime p) && (lastack p =? ackno i) then
    let p := p <| dupacks := u8 (dupacks p + 1) |> in
    if 3 <? dupacks p then inflate_cwnd p
    else if dupacks p =? 3 then tcp_rexmit_fast p else p
  else p <| dupacks := 0 |>.

Definition state_num (s : tcp_state) : Z :=
  match s with
  | CLOSED => 0 | LISTEN => 1 | SYN_SENT => 2 | SYN_RCVD => 3 | ESTABLISHED => 4 | FIN_WAIT_1 => 5 | FIN_WAIT_2 => 6
  | CLOSE_WAIT => 7 | CLOSING => 8 | LAST_ACK => 9 | TIME_WAIT => 10
  end.

(** The first segment of a queue is acknowledged: it is freed. *)
Definition drop_segment (next : tcp_seg) (p : tcp_pcb) : M tcp_pcb :=
  let clen := u8 (Z.of_nat (length (seg_p next))) in
  _ <- lwip_assert (clen <=? snd_queuelen p);;
  let p := if negb (acked p =? 0) && has TCP_FIN (th_flags next) then p <| acked := u16 (acked p - 1) |> else p in
  let p := p <| snd_queuelen := u16 (snd_queuelen p - clen) |> in
  _ <- lwip_assert ((snd_queuelen p =? 0) || negb match unacked p ++ unsent p with [] => true | _ => false end);;
  ret p.

(** [while (pcb->unacked != NULL && ...)] *)
Fixpoint unacked_loop (i : tcp_in) (l : list tcp_seg) (p : tcp_pcb) : M tcp_pcb :=
  match l with
  | [] => ret p
  | next :: l' =>
      if TCP_SEQ_LEQ (seg_seqno next + TCP_TCPLEN next) (ackno i) then
        p <- drop_segment next (p <| unacked := l' |>);;
        unacked_loop i l' p
      else ret p
  end.

(** [while (pcb->unsent != NULL && ...)] *)
Fixpoint unsent_loop (i : tcp_in) (l : list tcp_seg) (p : tcp_pcb) : M tcp_pcb :=
  match l with
  | [] => ret p
  | next :: l' =>
      if TCP_SEQ_BETWEEN (ackno i) (seg_seqno next + TCP_TCPLEN next) (snd_nxt p) then
        p <- drop_segment next (p <| unsent := l' |>);;
        unsent_loop i l' p
      else ret p
  end.

(** Slow start and congestion avoidance. *)
Definition open_cwnd (p : tcp_pcb) : M tcp_pcb :=
  if state_num ESTABLISHED <=? state_num (state p) then
    if cwnd p <? ssthresh p then ret (inflate_cwnd p)
    else if cwnd p =? 0 then ub
    else
      let new_cwnd := u16 (cwnd p + mss p * mss p / cwnd p) in
      ret (if cwnd p <? new_cwnd then p <| cwnd := new_cwnd |> else p)
  else ret p.

(** An acknowledgement of new data. *)
Definition new_ack (i : tcp_in) (p : tcp_pcb) : M tcp_pcb :=
  let p := if has TF_INFR (flags p) then p <| flags := without_flag TF_INFR (flags p) |> <| cwnd := ssthresh p |> else p in
  let p := p <| nrtx := 0 |> <| rto := s16 (Z.shiftr (sa p) 3 + sv p) |> <| acked := u16 (ackno i - lastack p) |> in
  let p := p <| snd_buf := u16 (snd_buf p + acked p) |> <| dupacks := 0 |> <| lastack := ackno i |> in
  p <- open_cwnd p;;
  p <- unacked_loop i (unacked p) p;;
  let p := p <| rtime := (match unacked p with [] => -1 | _ => 0 end) |> in
  ret (p <| polltmr := 0 |>).

(** [tcp_ticks] is the clock. *)
Definition update_rtt (i : tcp_in) (ticks : Z) (p : tcp_pcb) : tcp_pcb :=
  if negb (rttest p =? 0) && TCP_SEQ_LT (rtseq p) (ackno i) then
    let m := s16 (ticks - rttest p) in
    let m := s16 (m - Z.shiftr (sa p) 3) in
    let p := p <| sa := s16 (sa p + m) |> in
    let m := if m <? 0 then s16 (- m) else m in
    let m := s16 (m - Z.shiftr (sv p) 2) in
    let p := p <| sv := s16 (sv p + m) |> in
    p <| rto := s16 (Z.shiftr (sa p) 3 + sv p) |> <| rttest := 0 |>
  else p.

(** [if (flags & TCP_ACK)] *)
Definition receive_ack (i : tcp_in) (ticks : Z) (p : tcp_pcb) : M tcp_pcb :=
  let right_wnd_edge := u32 (snd_wnd p + snd_wl2 p) in
  let p := update_window i p in
  p <- (if TCP_SEQ_LEQ (ackno i) (lastack p) then ret (old_ack i right_wnd_edge p)
        else if TCP_SEQ_BETWEEN (ackno i) (lastack p + 1) (snd_nxt p) then new_ack i p
        else ret (p <| acked := 0 |>));;
  p <- unsent_loop i (unsent p) p;;
  ret (update_rtt i ticks p).

(** ** The queue of the segments that came too early *)

(** [while (next && TCP_SEQ_GEQ(seqno + cseg->len, next->tcphdr->seqno + next->len))] *)
Fixpoint oos_covered (seqno : Z) (cseg : tcp_seg) (next : list tcp_seg) : tcp_seg * list tcp_seg :=
  match next with
  | [] => (cseg, [])
  | n :: next' =>
      if TCP_SEQ_GEQ (seqno + seg_len cseg) (seg_seqno n + seg_len n) then
        oos_covered seqno
          (if has TCP_FIN (th_flags n) then cseg <| th_flags := Z.lor (th_flags cseg) TCP_FIN |> else cseg) next'
      else (cseg, next)
  end.

(** The list from [cseg] on. *)
Definition tcp_oos_insert_segment (seqno : Z) (cseg : tcp_seg) (next : list tcp_seg) : M (list tcp_seg) :=
  if has TCP_FIN (th_flags cseg) then ret [cseg]
  else
    let '(cseg, next) := oos_covered seqno cseg next in
    match next with
    | [] => ret [cseg]
    | n :: _ =>
        if TCP_SEQ_GT (seqno + seg_len cseg) (seg_seqno n) then
          let len := u16 (seg_seqno n - seqno) in
          q <- chain_cut (seg_p cseg) len;;
          ret (cseg <| seg_len := len |> <| seg_p := q |> :: next)
        else ret (cseg :: next)
    end.

(** [seg] ends where [seqno] starts. *)
Definition trim_end (seqno : Z) (seg : tcp_seg) : M tcp_seg :=
  if TCP_SEQ_GT (seg_seqno seg + seg_len seg) seqno then
    let len := u16 (seqno - seg_seqno seg) in
    q <- chain_cut (seg_p seg) len;;
    ret (seg <| seg_len := len |> <| seg_p := q |>)
  else ret seg.

Definition prev_list (prev : option tcp_seg) : list tcp_seg := match prev with Some p => [p] | None => [] end.

(** [for(next = pcb->ooseq; next != NULL; next = next->next)]; the list from
    [prev] on. *)
Fixpoint ooseq_loop (i : tcp_in) (prev : option tcp_seg) (l : list tcp_seg) : M (list tcp_seg) :=
  match l with
  | [] => ret (prev_list prev)
  | next :: l' =>
      if seqno i =? seg_seqno next then
        if seg_len next <? seg_len (inseg i) then
          cseg <- tcp_seg_copy (inseg i);;
          match cseg with
          | Some cseg => q <- tcp_oos_insert_segment (seqno i) cseg l;; ret (prev_list prev ++ q)
          | None => ret (prev_list prev ++ l)
          end
        else ret (prev_list prev ++ l)
      else if match prev with
              | None => TCP_SEQ_LT (seqno i) (seg_seqno next)
              | Some p => TCP_SEQ_BETWEEN (seqno i) (seg_seqno p + 1) (seg_seqno next - 1)
              end then
        cseg <- tcp_seg_copy (inseg i);;
        match cseg with
        | Some cseg =>
            before <- match prev with None => ret [] | Some p => p <- trim_end (seqno i) p;; ret [p] end;;
            q <- tcp_oos_insert_segment (seqno i) cseg l;;
            ret (before ++ q)
        | None => ret (prev_list prev ++ l)
        end
      else if match l' with [] => TCP_SEQ_GT (seqno i) (seg_seqno next) | _ => false end then
        if has TCP_FIN (th_flags next) then ret (prev_list prev ++ l)
        else
          cseg <- tcp_seg_copy (inseg i);;
          match cseg with
          | Some cseg => next <- trim_end (seqno i) next;; ret (prev_list prev ++ [next; cseg])
          | None => ret (prev_list prev ++ l)
          end
      else
        q <- ooseq_loop i (Some next) l';;
        ret (prev_list prev ++ q)
  end.

Definition queue_segment (i : tcp_in) (p : tcp_pcb) : M tcp_pcb :=
  match ooseq p with
  | [] =>
      cseg <- tcp_seg_copy (inseg i);;
      ret (p <| ooseq := prev_list cseg |>)
  | l =>
      q <- ooseq_loop i None l;;
      ret (p <| ooseq := q |>)
  end.

(** ** Data in sequence *)

(** [while (p->len < off)], and [pbuf_header(p, -off)]. *)
Fixpoint skip_front (p : chain) (off : Z) : M chain :=
  match p with
  | [] => ub
  | q :: p' =>
      if Z.of_nat (length q) <? off then
        r <- skip_front p' (off - Z.of_nat (length q));;
        ret ([] :: r)
      else ret (skipn (Z.to_nat off) q :: p')
  end.

Definition set_tcplen (i : tcp_in) : tcp_in := i <| tcplen := TCP_TCPLEN (inseg i) |>.

(** [if (tcplen > pcb->rcv_wnd)]: only what fits in the window is taken. *)
Definition trim_to_window (i : tcp_in) (p : tcp_pcb) : M tcp_in :=
  if rcv_wnd p <? tcplen i then
    let seg := inseg i in
    let seg := if has TCP_FIN (th_flags seg) then seg <| th_flags := without_flag TCP_FIN (th_flags seg) |> else seg in
    let seg := seg <| seg_len := rcv_wnd p |> in
    let seg := if has TCP_SYN (th_flags seg) then seg <| seg_len := u16 (seg_len seg - 1) |> else seg in
    q <- chain_cut (seg_p seg) (seg_len seg);;
    let i := set_tcplen (i <| inseg := seg <| seg_p := q |> |>) in
    _ <- lwip_assert (u32 (seqno i + tcplen i) =? u32 (rcv_nxt p + rcv_wnd p));;
    ret i
  else ret i.

(** [while (next && TCP_SEQ_GEQ(seqno + tcplen, next->tcphdr->seqno + next->len))] *)
Fixpoint seq_covered (i : tcp_in) (next : list tcp_seg) : tcp_in * list tcp_seg :=
  match next with
  | [] => (i, [])
  | n :: next' =>
      if TCP_SEQ_GEQ (seqno i + tcplen i) (seg_seqno n + seg_len n) then
        seq_covered
          (if has TCP_FIN (th_flags n) && negb (has TCP_SYN (th_flags (inseg i)))
           then set_tcplen (i <| inseg := (inseg i) <| th_flags := Z.lor (th_flags (inseg i)) TCP_FIN |> |>) else i) next'
      else (i, next)
  end.

(** The segments of the queue that the incoming one covers are freed, and it
    ends where the first of the others starts.  The code takes that place from
    [pcb->ooseq], which has been freed unless it is [next]. *)
Definition trim_to_ooseq (i : tcp_in) (p : tcp_pcb) : M (tcp_in * tcp_pcb) :=
  match ooseq p with
  | [] => ret (i, p)
  | first :: _ =>
      if has TCP_FIN (th_flags (inseg i)) then ret (i, p <| ooseq := [] |>)
      else
        let '(i, next) := seq_covered i (ooseq p) in
        i <- match next with
             | [] => ret i
             | n :: _ =>
                 if TCP_SEQ_GT (seqno i + tcplen i) (seg_seqno n) then
                   if negb (length next =? length (ooseq p))%nat then ub
                   else
                     let len := u16 (seg_seqno first - seqno i) in
                     let len := if has TCP_SYN (th_flags (inseg i)) then u16 (len - 1) else len in
                     q <- chain_cut (seg_p (inseg i)) len;;
                     let i := set_tcplen (i <| inseg := (inseg i) <| seg_len := len |> <| seg_p := q |> |>) in
                     _ <- lwip_assert (u32 (seqno i + tcplen i) =? seg_seqno first);;
                     ret i
                 else ret i
             end;;
        ret (i, p <| ooseq := next |>)
  end.

(** [rcv_nxt] moves over [len] sequence numbers. *)
Definition advance (len : Z) (p : tcp_pcb) : M tcp_pcb :=
  _ <- lwip_assert (len <=? rcv_wnd p);;
  ret (snd (tcp_update_rcv_ann_wnd (p <| rcv_nxt := u32 (rcv_nxt p + len) |> <| rcv_wnd := u16 (rcv_wnd p - len) |>))).

(** The data of a segment are put behind those for the application. *)
Definition add_data (p : chain) (d : option chain) : option chain :=
  if 0 <? tot_len p then Some (match d with Some r => r ++ p | None => p end) else d.

Definition got_fin (seg : tcp_seg) (i : tcp_in) : tcp_in :=
  if has TCP_FIN (th_flags seg) then i <| recv_flags := Z.lor (recv_flags i) TF_GOT_FIN |> else i.

(** [while (pcb->ooseq != NULL && pcb->ooseq->tcphdr->seqno == pcb->rcv_nxt)] *)
Fixpoint dequeue_loop (l : list tcp_seg) (i : tcp_in) (p : tcp_pcb) : M (tcp_in * tcp_pcb) :=
  match l with
  | [] => ret (i, p)
  | cseg :: l' =>
      if seg_seqno cseg =? rcv_nxt p then
        let i := i <| seqno := seg_seqno cseg |> in
        p <- advance (TCP_TCPLEN cseg) p;;
        let i := got_fin cseg (i <| recv_data := add_data (seg_p cseg) (recv_data i) |>) in
        let p := if has TCP_FIN (th_flags cseg) && bool_decide (state p = ESTABLISHED) then p <| state := CLOSE_WAIT |> else p in
        dequeue_loop l' i (p <| ooseq := l' |>)
      else ret (i, p)
  end.

Section TcpIn.
Variables (netif_list : list netif) (netif_default : option netif).

(** The bytes in front of [rcv_nxt] are left out; a whole segment in front of
    it is a duplicate. *)
Definition trim_front (i : tcp_in) (c : conn) : M (tcp_in * conn) :=
  let p := pcb c in
  if TCP_SEQ_BETWEEN (rcv_nxt p) (seqno i + 1) (seqno i + tcplen i - 1) then
    let off := s32 (rcv_nxt p - seqno i) in
    let seg := inseg i in
    _ <- lwip_assert (off <? 0x7fff);;
    _ <- lwip_assert (off <=? tot_len (seg_p seg));;
    q <- skip_front (seg_p seg) off;;
    let seg := seg <| seg_p := q |> <| seg_len := u16 (seg_len seg - u16 (rcv_nxt p - seqno i)) |> <| seg_seqno := rcv_nxt p |> in
    ret (i <| inseg := seg |> <| seqno := rcv_nxt p |>, c)
  else if TCP_SEQ_LT (seqno i) (rcv_nxt p) then
    c <- tcp_ack_now netif_list netif_default c;;
    ret (i, c)
  else ret (i, c).

(** [if (pcb->rcv_nxt == seqno)] *)
Definition in_sequence (i : tcp_in) (c : conn) : M (tcp_in * conn) :=
  let p := pcb c in
  i <- trim_to_window (set_tcplen i) p;;
  '(i, p) <- trim_to_ooseq i p;;
  let p := p <| rcv_nxt := seqno i |> in
  p <- advance (tcplen i) p;;
  let i := if 0 <? tot_len (seg_p (inseg i)) then i <| recv_data := Some (seg_p (inseg i)) |> else i in
  let i := got_fin (inseg i) i in
  '(i, p) <- dequeue_loop (ooseq p) i p;;
  c <- tcp_ack netif_list netif_default (c <| pcb := p |>);;
  ret (i, c).

(** [if (tcplen > 0)] *)
Definition receive_data (i : tcp_in) (c : conn) : M (tcp_in * conn) :=
  if 0 <? tcplen i then
    '(i, c) <- trim_front i c;;
    let p := pcb c in
    if TCP_SEQ_BETWEEN (seqno i) (rcv_nxt p) (rcv_nxt p + rcv_wnd p - 1) then
      if rcv_nxt p =? seqno i then in_sequence i c
      else
        '(_, c) <- tcp_send_empty_ack c;;
        p <- queue_segment i (pcb c);;
        ret (i, c <| pcb := p |>)
    else
      '(_, c) <- tcp_send_empty_ack c;;
      ret (i, c)
  else
    let p := pcb c in
    if negb (TCP_SEQ_BETWEEN (seqno i) (rcv_nxt p) (rcv_nxt p + rcv_wnd p - 1)) then
      c <- tcp_ack_now netif_list netif_default c;;
      ret (i, c)
    else ret (i, c).

Definition tcp_receive (i : tcp_in) (c : conn) : M (tcp_in * conn) :=
  p <- (if has TCP_ACK (in_flags i) then receive_ack i (tcp_ticks c) (pcb c) else ret (pcb c));;
  receive_data i (c <| pcb := p |>).
End TcpIn.
