(* ===== verification/TcpInSpec.v ===== *)
(** * lwIP: what TCP delivers

    The receiving side of a connection against the stream of bytes that the
    other side sends: sequence numbers as positions in the stream, segments as
    slices of it, the queue of early segments as disjoint slices in order. *)
From Stdlib Require Import ZArith List Lia Bool.
From stdpp Require Import base gmap list.
From S2P Require Import Prelude CMonad Pbuf Inet Netif Tcp TcpIn.
#[local] Open Scope Z_scope.
#[local] Open Scope cmonad_scope.
#[local] Open Scope record_scope.

(** ** Runs that stop only where [H] allows it

    [guarded H m Q]: [m] returns a result in [Q]; an assertion that fails, or
    undefined behaviour, needs [H]. *)
Definition guarded {A} (H : Prop) (m : M A) (Q : A -> Prop) : Prop :=
  forall h, match fst (m h) with Ok a => Q a | OutOfFuel => False | _ => H end.

Section Guarded.
Context {A B : Type} (H : Prop).

Lemma guarded_ret (a : A) (Q : A -> Prop) : Q a -> guarded H (ret a) Q.
Proof. intros HQ h. exact HQ. Qed.

Lemma guarded_bind (m : M A) (k : A -> M B) (Q : A -> Prop) (Q' : B -> Prop) :
  guarded H m Q -> (forall a, Q a -> guarded H (k a) Q') -> guarded H (bind m k) Q'.
Proof.
  intros Hm Hk h. specialize (Hm h). unfold bind. destruct (m h) as [[a|e| |] h']; cbn in *; try exact Hm. exact (Hk a Hm h').
Qed.

Lemma guarded_weaken (m : M A) (Q Q' : A -> Prop) : guarded H m Q -> (forall a, Q a -> Q' a) -> guarded H m Q'.
Proof. intros Hm HQ h. specialize (Hm h). destruct (fst (m h)); auto. Qed.

Lemma guarded_ub (Q : A -> Prop) : H -> guarded H ub Q.
Proof. intros HH h. exact HH. Qed.

Lemma guarded_throw e (Q : A -> Prop) : H -> guarded H (throw e) Q.
Proof. intros HH h. exact HH. Qed.
End Guarded.

Lemma guarded_assert H b (Q : unit -> Prop) : (b = false -> H) -> (b = true -> Q tt) -> guarded H (lwip_assert b) Q.
Proof. intros Hf Ht. unfold lwip_assert. destruct b; [apply guarded_ret; auto|apply guarded_throw; auto]. Qed.

(** What always holds of the result, and what holds of it while there is
    memory. *)
Definition provides {A} (H : Prop) (m : M A) (Q N : A -> Prop) : Prop := guarded H m Q /\ enough m N.

Lemma provides_ret {A} H (a : A) (Q N : A -> Prop) : Q a -> N a -> provides H (ret a) Q N.
Proof. split; [now apply guarded_ret|now apply enough_ret]. Qed.

Lemma provides_bind {A B} H (m : M A) (k : A -> M B) Q N Q' N' :
  provides H m Q N -> (forall a, Q a -> guarded H (k a) Q') -> (forall a, N a -> enough (k a) N') -> provides H (bind m k) Q' N'.
Proof. intros [H1 H2] H3 H4. split; [eapply guarded_bind; eauto|eapply enough_bind; eauto]. Qed.

Lemma guarded_enough {A} H (m : M A) Q : guarded H m Q -> thrifty m -> enough m Q.
Proof. intros Hg Ht h a h' Hh E. specialize (Hg h). rewrite E in Hg. split; [exact (proj1 (Ht h a h' Hh E))|exact Hg]. Qed.

Lemma guarded_runs {A} (m : M A) Q N : guarded False m Q -> enough m N -> runs NoFail m (fun a => Q a /\ N a) no_err.
Proof.
  intros Hg He. apply surely_enough; [|exact He]. intros h. specialize (Hg h). destruct (m h) as [[a|e| |] h']; try contradiction. eauto.
Qed.

Lemma guarded_malloc H (Q : bool -> Prop) : (forall b, Q b) -> guarded H malloc Q.
Proof. intros HQ [|b h]; cbn; apply HQ. Qed.

(** ** Flags *)

Lemma has_lor f g x : has (Z.lor f g) x = has f x || has g x.
Proof.
  unfold has. rewrite Z.land_lor_distr_r. destruct (Z.eqb_spec (Z.land x f) 0) as [->|Hf]; cbn [negb orb].
  - now rewrite Z.lor_0_l.
  - destruct (Z.eqb_spec (Z.lor (Z.land x f) (Z.land x g)) 0) as [E|]; [|reflexivity]. apply Z.lor_eq_0_iff in E. tauto.
Qed.

Lemma has_pow2 k x : 0 <= k -> has (2 ^ k) x = Z.testbit x k.
Proof.
  intros Hk. unfold has. rewrite land_pow2 by lia. destruct (Z.testbit x k); [|reflexivity].
  pose proof (pow2_pos k). destruct (Z.eqb_spec (2 ^ k) 0); [lia|reflexivity].
Qed.

Lemma has_set k j x : 0 <= k -> 0 <= j -> has (2 ^ k) (Z.lor x (2 ^ j)) = (k =? j) || has (2 ^ k) x.
Proof. intros Hk Hj. rewrite !has_pow2, Z.lor_spec, Z.pow2_bits_eqb by lia. rewrite (Z.eqb_sym j). now destruct (k =? j), (Z.testbit x k). Qed.

Lemma has_clear k j x : 0 <= k < 8 -> 0 <= j < 8 -> has (2 ^ k) (without_flag (2 ^ j) x) = negb (k =? j) && has (2 ^ k) x.
Proof.
  intros Hk Hj. unfold without_flag. rewrite !has_pow2, Z.land_spec by lia.
  assert (E : Z.testbit (255 - 2 ^ j) k = negb (k =? j)); [|rewrite E; apply andb_comm].
  assert (Hc : j = 0 \/ j = 1 \/ j = 2 \/ j = 3 \/ j = 4 \/ j = 5 \/ j = 6 \/ j = 7) by lia.
  assert (Hd : k = 0 \/ k = 1 \/ k = 2 \/ k = 3 \/ k = 4 \/ k = 5 \/ k = 6 \/ k = 7) by lia.
  repeat destruct Hc as [->|Hc]; try subst j; repeat destruct Hd as [->|Hd]; try subst k; reflexivity.
Qed.

Lemma fin_set x : has TCP_FIN (Z.lor x TCP_FIN) = true.
Proof. exact (has_set 0 0 x ltac:(lia) ltac:(lia)). Qed.

Lemma syn_fin_set x : has TCP_SYN (Z.lor x TCP_FIN) = has TCP_SYN x.
Proof. exact (has_set 1 0 x ltac:(lia) ltac:(lia)). Qed.

Lemma fin_clear x : has TCP_FIN (without_flag TCP_FIN x) = false.
Proof. exact (has_clear 0 0 x ltac:(lia) ltac:(lia)). Qed.

Lemma syn_fin_clear x : has TCP_SYN (without_flag TCP_FIN x) = has TCP_SYN x.
Proof. exact (has_clear 1 0 x ltac:(lia) ltac:(lia)). Qed.

(** ** Chains *)

Lemma tot_len_nonneg p : 0 <= tot_len p.
Proof. unfold tot_len. lia. Qed.

Lemma tot_len_cons q p : tot_len (q :: p) = Z.of_nat (length q) + tot_len p.
Proof. unfold tot_len. cbn. rewrite length_app. lia. Qed.

Lemma cut_loop_spec p : forall n, 0 <= n <= tot_len p -> p <> [] ->
  exists q, cut_loop p n = ret q /\ concat q = firstn (Z.to_nat n) (concat p) /\ q <> [].
Proof.
  induction p as [|c p IH]; intros n Hn Hp; [congruence|]. cbn [cut_loop concat]. rewrite tot_len_cons in Hn.
  destruct (Z.ltb_spec (Z.of_nat (length c)) n) as [Hc|Hc].
  - destruct (IH (n - Z.of_nat (length c))) as (q & E & Eq & _).
    { lia. }
    { intros ->. unfold tot_len in Hn. cbn in Hn. lia. }
    exists (c :: q). rewrite E. split; [reflexivity|]. cbn [concat]. rewrite Eq, firstn_app. split; [|discriminate].
    rewrite (firstn_all2 c) by lia. do 2 f_equal. lia.
  - exists [firstn (Z.to_nat n) c]. split; [reflexivity|]. cbn [concat]. rewrite app_nil_r, firstn_app. split; [|discriminate].
    replace (Z.to_nat n - length c)%nat with 0%nat by lia. now rewrite firstn_O, app_nil_r.
Qed.

Lemma chain_cut_spec p n : 0 <= n -> p <> [] ->
  exists q, chain_cut p n = ret q /\ concat q = firstn (Z.to_nat n) (concat p) /\ q <> [].
Proof.
  intros Hn Hp. unfold chain_cut. destruct (Z.leb_spec (tot_len p) n) as [Hl|Hl].
  - exists p. split; [reflexivity|]. split; [|exact Hp]. rewrite firstn_all2; [reflexivity|]. unfold tot_len in Hl. lia.
  - apply cut_loop_spec; [lia|exact Hp].
Qed.

Lemma skip_front_spec p : forall off, 0 <= off <= tot_len p -> p <> [] ->
  exists q, skip_front p off = ret q /\ concat q = skipn (Z.to_nat off) (concat p) /\ q <> [].
Proof.
  induction p as [|c p IH]; intros n Hn Hp; [congruence|]. cbn [skip_front concat]. rewrite tot_len_cons in Hn.
  destruct (Z.ltb_spec (Z.of_nat (length c)) n) as [Hc|Hc].
  - destruct (IH (n - Z.of_nat (length c))) as (q & E & Eq & _).
    { lia. }
    { intros ->. unfold tot_len in Hn. cbn in Hn. lia. }
    exists ([] :: q). rewrite E. split; [reflexivity|]. cbn [concat app]. rewrite Eq, skipn_app. split; [|discriminate].
    rewrite (skipn_all2 c) by lia. cbn [app]. f_equal. lia.
  - exists (skipn (Z.to_nat n) c :: p). split; [reflexivity|]. cbn [concat]. rewrite skipn_app. split; [|discriminate].
    replace (Z.to_nat n - length c)%nat with 0%nat by lia. reflexivity.
Qed.

(** ** Positions in the stream *)

Section Stream.

(** The sequence number of the first byte, the bytes that the other side
    sends, and whether it closes its side behind them. *)
Context (isn : Z) (S : list Z) (fin : bool).

(** How many sequence numbers the stream takes. *)
Definition size : Z := Z.of_nat (length S).
Definition total : Z := size + b2z fin.

Definition slice (a n : Z) : list Z := firstn (Z.to_nat n) (skipn (Z.to_nat a) S).

(** The sequence number [x] is that of the position [a]. *)
Definition at_pos (x a : Z) : Prop := exists k, x = isn + a + 4294967296 * k.

Lemma at_pos_add x a d : at_pos x a -> at_pos (x + d) (a + d).
Proof. intros [k ->]. exists k. lia. Qed.

Lemma at_pos_u32 x a : at_pos x a -> at_pos (u32 x) a.
Proof. intros [k ->]. exists (k - (isn + a + 4294967296 * k) / 4294967296). unfold u32.
  pose proof (Z.div_mod (isn + a + 4294967296 * k) 4294967296 ltac:(lia)). lia. Qed.

Lemma at_pos_isn a : at_pos (u32 (isn + a)) a.
Proof. apply at_pos_u32. exists 0. lia. Qed.

(** Numbers of the same position are the same. *)
Lemma at_pos_inj x y a : at_pos x a -> at_pos y a -> u32 x = u32 y.
Proof.
  intros [k ->] [l ->]. unfold u32. rewrite 2 (Z.mul_comm 4294967296), 2 Z.mod_add by lia. reflexivity.
Qed.

Lemma s32_diff x y a b : at_pos x a -> at_pos y b -> -2147483648 <= a - b < 2147483648 -> s32 (x - y) = a - b.
Proof.
  intros [k ->] [l ->] H. unfold s32.
  replace (isn + a + 4294967296 * k - (isn + b + 4294967296 * l) + 2147483648)
    with (a - b + 2147483648 + (k - l) * 4294967296) by lia.
  rewrite Z.mod_add, Z.mod_small by lia. lia.
Qed.

Lemma u32_diff x y a b : at_pos x a -> at_pos y b -> 0 <= a - b < 4294967296 -> u32 (x - y) = a - b.
Proof.
  intros [k ->] [l ->] H. unfold u32.
  replace (isn + a + 4294967296 * k - (isn + b + 4294967296 * l)) with (a - b + (k - l) * 4294967296) by lia.
  now rewrite Z.mod_add, Z.mod_small by lia.
Qed.

Lemma u16_diff x y a b : at_pos x a -> at_pos y b -> 0 <= a - b < 65536 -> u16 (x - y) = a - b.
Proof.
  intros [k ->] [l ->] H. unfold u16.
  replace (isn + a + 4294967296 * k - (isn + b + 4294967296 * l)) with (a - b + ((k - l) * 65536) * 65536) by lia.
  now rewrite Z.mod_add, Z.mod_small by lia.
Qed.

Lemma eqb_pos x y a b :
  x = u32 (isn + a) -> y = u32 (isn + b) -> -2147483648 <= a - b < 2147483648 -> (x =? y) = (a =? b).
Proof.
  intros -> -> H. destruct (Z.eqb_spec a b) as [->|Hne]; [apply Z.eqb_refl|]. apply Z.eqb_neq. intros E.
  pose proof (s32_diff _ _ a b (at_pos_isn a) (at_pos_isn b) H) as D. rewrite E, Z.sub_diag in D. change (s32 0) with 0 in D. lia.
Qed.

Section Compare.
Context {x y a b : Z} (Hx : at_pos x a) (Hy : at_pos y b) (Hd : -2147483648 <= a - b < 2147483648).

Lemma seq_lt : TCP_SEQ_LT x y = (a <? b).
Proof. unfold TCP_SEQ_LT. rewrite (s32_diff x y a b) by assumption. destruct (Z.ltb_spec a b); [apply Z.ltb_lt|apply Z.ltb_ge]; lia. Qed.

Lemma seq_leq : TCP_SEQ_LEQ x y = (a <=? b).
Proof. unfold TCP_SEQ_LEQ. rewrite (s32_diff x y a b) by assumption. destruct (Z.leb_spec a b); [apply Z.leb_le|apply Z.leb_gt]; lia. Qed.

Lemma seq_gt : TCP_SEQ_GT x y = (b <? a).
Proof. unfold TCP_SEQ_GT. rewrite (s32_diff x y a b) by assumption. destruct (Z.ltb_spec b a); [apply Z.ltb_lt|apply Z.ltb_ge]; lia. Qed.

Lemma seq_geq : TCP_SEQ_GEQ x y = (b <=? a).
Proof. unfold TCP_SEQ_GEQ. rewrite (s32_diff x y a b) by assumption. destruct (Z.leb_spec b a); [apply Z.leb_le|apply Z.leb_gt]; lia. Qed.
End Compare.

Lemma seq_between x y z a b c :
  at_pos x a -> at_pos y b -> at_pos z c -> -2147483648 <= a - b < 2147483648 -> -2147483648 <= a - c < 2147483648 ->
  TCP_SEQ_BETWEEN x y z = (b <=? a) && (a <=? c).
Proof. intros Hx Hy Hz H1 H2. unfold TCP_SEQ_BETWEEN. now rewrite (seq_geq Hx Hy H1), (seq_leq Hx Hz H2). Qed.

(** ** Slices *)

Lemma slice_length a n : 0 <= a -> 0 <= n -> a + n <= size -> Z.of_nat (length (slice a n)) = n.
Proof. intros Ha Hn H. unfold slice, size in *. rewrite length_firstn, length_skipn. lia. Qed.

Lemma slice_take a n k : 0 <= k -> k <= n -> firstn (Z.to_nat k) (slice a n) = slice a k.
Proof. intros H0 H. unfold slice. rewrite firstn_firstn. f_equal. lia. Qed.

Lemma slice_drop a n k : 0 <= a -> 0 <= k -> skipn (Z.to_nat k) (slice a n) = slice (a + k) (n - k).
Proof. intros Ha Hk. unfold slice. rewrite skipn_firstn_comm, skipn_skipn. f_equal; [lia|f_equal; lia]. Qed.

Lemma slice_app a n m : 0 <= a -> 0 <= n -> 0 <= m -> slice a n ++ slice (a + n) m = slice a (n + m).
Proof.
  intros Ha Hn Hm. unfold slice. rewrite (Z2Nat.inj_add n m) by lia. rewrite Z2Nat.inj_add by lia.
  rewrite <- (firstn_skipn (Z.to_nat n) (firstn (Z.to_nat n + Z.to_nat m) (skipn (Z.to_nat a) S))).
  rewrite firstn_firstn, Nat.min_l by lia. rewrite skipn_firstn_comm, skipn_skipn.
  f_equal. f_equal; [lia|]. f_equal. lia.
Qed.

Lemma slice_none a n : n <= 0 \/ size <= a -> slice a n = [].
Proof.
  unfold slice, size. intros [H|H].
  - replace (Z.to_nat n) with 0%nat by lia. reflexivity.
  - rewrite skipn_all2 by lia. apply firstn_nil.
Qed.

(** ** Segments of the stream *)

(** The segment carries the stream from the position [a] on. *)
Record carries (seg : tcp_seg) (a : Z) : Prop := Carries
  { ca_seqno : seg_seqno seg = u32 (isn + a); ca_len : 0 <= seg_len seg < 65536; ca_pos : 0 <= a;
    ca_end : a + seg_len seg <= size; ca_data : concat (seg_p seg) = slice a (seg_len seg); ca_p : seg_p seg <> [];
    ca_syn : has TCP_SYN (th_flags seg) = false;
    ca_fin : has TCP_FIN (th_flags seg) = true -> fin = true /\ a + seg_len seg = size;
    ca_some : 0 < TCP_TCPLEN seg }.

Lemma tcplen_value seg : has TCP_SYN (th_flags seg) = false -> TCP_TCPLEN seg = seg_len seg + b2z (has TCP_FIN (th_flags seg)).
Proof. intros H. unfold TCP_TCPLEN. now rewrite has_lor, H, orb_false_r. Qed.

Lemma carries_tcplen seg a : carries seg a -> TCP_TCPLEN seg = seg_len seg + b2z (has TCP_FIN (th_flags seg)).
Proof. intros H. apply tcplen_value, H. Qed.

Lemma carries_tot_len seg a : carries seg a -> tot_len (seg_p seg) = seg_len seg.
Proof. intros []. unfold tot_len. rewrite ca_data0. apply slice_length; lia. Qed.

Lemma carries_total seg a : carries seg a -> a + TCP_TCPLEN seg <= total.
Proof.
  intros H. rewrite (carries_tcplen seg a H). destruct H. unfold total. pose proof (b2z_bounds fin).
  destruct (has TCP_FIN (th_flags seg)) eqn:E; cbn [b2z]; [|lia]. destruct (ca_fin0 eq_refl) as [-> ?]. cbn [b2z]. lia.
Qed.

Lemma carries_start seg a : carries seg a -> at_pos (seg_seqno seg) a.
Proof. intros []. rewrite ca_seqno0. apply at_pos_isn. Qed.

Lemma carries_stop seg a : carries seg a -> at_pos (seg_seqno seg + seg_len seg) (a + seg_len seg).
Proof. intros H. apply at_pos_add. now apply carries_start. Qed.

(** With the flag of the end of the stream. *)
Lemma carries_with_fin seg a : carries seg a -> fin = true -> a + seg_len seg = size ->
  carries (seg <| th_flags := Z.lor (th_flags seg) TCP_FIN |>) a.
Proof.
  intros [] Hf He. constructor; cbn; auto.
  - now rewrite syn_fin_set.
  - rewrite tcplen_value; cbn; [|now rewrite syn_fin_set]. rewrite fin_set. cbn. lia.
Qed.

(** Only the first [n] bytes. *)
Lemma carries_cut seg a n q : carries seg a -> has TCP_FIN (th_flags seg) = false -> 0 < n <= seg_len seg ->
  concat q = firstn (Z.to_nat n) (concat (seg_p seg)) -> q <> [] ->
  carries (seg <| seg_len := n |> <| seg_p := q |>) a.
Proof.
  intros [] Hf Hn Hq Hne. constructor; cbn; auto; try lia.
  - rewrite Hq, ca_data0. apply slice_take; lia.
  - congruence.
  - rewrite tcplen_value by exact ca_syn0. cbn. rewrite Hf. cbn. lia.
Qed.

(** ** The queue of early segments *)

(** Whether the other side keeps to the window. *)
Context (strict : Prop).

(** The segments do not overlap and are in order, from [lo] on; they start
    before [hi]; only the last one may have the end of the stream. *)
Fixpoint queue_ok (lo hi : Z) (l : list tcp_seg) : Prop :=
  match l with
  | [] => True
  | seg :: l' =>
      exists a, lo <= a < hi /\ carries seg a /\ (strict -> a + TCP_TCPLEN seg <= hi) /\
        (l' <> [] -> has TCP_FIN (th_flags seg) = false) /\ queue_ok (a + seg_len seg) hi l'
  end.

Lemma queue_ok_from lo lo' hi l : lo' <= lo -> queue_ok lo hi l -> queue_ok lo' hi l.
Proof. destruct l as [|seg l]; [auto|]. cbn. intros Hl (a & Ha & H). exists a. split; [lia|exact H]. Qed.

Lemma queue_ok_suffix l m : forall lo hi, queue_ok lo hi (l ++ m) -> queue_ok lo hi m.
Proof.
  induction l as [|seg l IH]; intros lo hi H; [exact H|]. destruct H as (a & Ha & Hc & _ & _ & Hq).
  apply IH in Hq. destruct Hc. eapply queue_ok_from; [|exact Hq]. lia.
Qed.

(** Not the last of a queue: there are bytes in it. *)
Lemma carries_no_fin seg a : carries seg a -> has TCP_FIN (th_flags seg) = false -> 0 < seg_len seg /\ TCP_TCPLEN seg = seg_len seg.
Proof. intros H Hf. pose proof (carries_tcplen seg a H) as E. rewrite Hf in E. destruct H. cbn in E. lia. Qed.

Lemma seqno_apart seg1 seg2 a b : carries seg1 a -> carries seg2 b -> -2147483648 <= a - b < 2147483648 ->
  (seg_seqno seg1 =? seg_seqno seg2) = (a =? b).
Proof. intros H1 H2. apply eqb_pos; [apply H1|apply H2]. Qed.

(** The first segment of the queue starts with the new one only if it is
    shorter. *)
Definition head_shorter (cseg : tcp_seg) (l : list tcp_seg) : Prop :=
  match l with n :: _ => seg_seqno n = seg_seqno cseg -> seg_len n < seg_len cseg | [] => True end.

Lemma oos_covered_spec hi l : forall cseg a lo,
  carries cseg a -> has TCP_FIN (th_flags cseg) = false -> a <= lo -> hi - a <= 65536 -> queue_ok lo hi l -> head_shorter cseg l ->
  (strict -> a + TCP_TCPLEN cseg <= hi) ->
  exists cseg' l', oos_covered (seg_seqno cseg) cseg l = (cseg', l') /\ carries cseg' a /\ seg_len cseg' = seg_len cseg /\
    seg_p cseg' = seg_p cseg /\ (strict -> a + TCP_TCPLEN cseg' <= hi) /\ (l' <> [] -> has TCP_FIN (th_flags cseg') = false) /\
    match l' with
    | [] => True
    | n :: _ => exists b, a < b /\ carries n b /\ queue_ok b hi l' /\ a + seg_len cseg < b + seg_len n
    end.
Proof.
  induction l as [|n l IH]; intros cseg a lo Hc Hf Ha Hd Hq Hh Hs; cbn [oos_covered].
  - exists cseg, []. repeat (split; [auto; try congruence|]). exact I.
  - destruct Hq as (b & Hb & Hn & Hs' & Hlast & Hq).
    assert (Hcl := ca_len _ _ Hc). assert (Hnl := ca_len _ _ Hn).
    rewrite (seq_geq (carries_stop _ _ Hc) (carries_stop _ _ Hn)) by lia.
    destruct (Z.leb_spec (b + seg_len n) (a + seg_len cseg)) as [Hcov|Hcov].
    + destruct (has TCP_FIN (th_flags n)) eqn:Efin.
      * destruct (ca_fin _ _ Hn Efin) as [Hfin Hend]. pose proof (ca_end _ _ Hc) as Hce.
        assert (l = []) as -> by (destruct l; [reflexivity|now specialize (Hlast ltac:(discriminate))]).
        exists (cseg <| th_flags := Z.lor (th_flags cseg) TCP_FIN |>), []. cbn [oos_covered].
        split; [reflexivity|]. split; [apply carries_with_fin; auto; lia|]. split; [reflexivity|]. split; [reflexivity|].
        split; [|split; [congruence|exact I]]. intros Hst. specialize (Hs' Hst). rewrite (carries_tcplen n b Hn), Efin in Hs'.
        rewrite tcplen_value; cbn; [|rewrite syn_fin_set; apply Hc]. rewrite fin_set. cbn in *. lia.
      * destruct (carries_no_fin _ _ Hn Efin) as [Hpos _].
        apply (IH cseg a (b + seg_len n)); auto; [lia|]. destruct l as [|n2 l]; [exact I|]. cbn. intros E.
        destruct Hq as (b2 & Hb2 & Hn2 & _). apply Z.eqb_eq in E. rewrite (seqno_apart n2 cseg b2 a) in E by (auto; lia).
        apply Z.eqb_eq in E. lia.
    + exists cseg, (n :: l). split; [reflexivity|]. split; [exact Hc|]. split; [reflexivity|]. split; [reflexivity|].
      split; [exact Hs|]. split; [auto|]. exists b. split; [|split; [exact Hn|split; [|lia]]].
      * destruct (Z.eq_dec b a) as [->|]; [|lia]. cbn in Hh. pose proof (ca_seqno _ _ Hc). pose proof (ca_seqno _ _ Hn).
        specialize (Hh ltac:(congruence)). lia.
      * exists b. split; [lia|]. auto.
Qed.

(** The [n] bytes from the position [a] on are in the segments. *)
Definition holds (l : list tcp_seg) (a n : Z) : Prop :=
  forall x, a <= x < a + n -> exists s b, s ∈ l /\ carries s b /\ b <= x < b + seg_len s.

Lemma holds_seg l s b a n : s ∈ l -> carries s b -> b <= a -> a + n <= b + seg_len s -> holds l a n.
Proof. intros Hs Hc H1 H2 x Hx. exists s, b. split; [exact Hs|]. split; [exact Hc|lia]. Qed.

Lemma holds_app l l' a n : holds l' a n -> holds (l ++ l') a n.
Proof. intros H x Hx. destruct (H x Hx) as (s & b & Hs & Hr). exists s, b. split; [|exact Hr]. apply elem_of_app. auto. Qed.

(** The first bytes are in one segment, the others in the next. *)
Lemma holds_two s1 s2 l a b n : carries s1 a -> carries s2 b -> b <= a + seg_len s1 -> a + n <= b + seg_len s2 -> holds (s1 :: s2 :: l) a n.
Proof.
  intros H1 H2 Hb Hn x Hx. destruct (Z.lt_ge_cases x b).
  - exists s1, a. split; [apply elem_of_cons; auto|]. split; [exact H1|lia].
  - exists s2, b. split; [apply elem_of_cons; right; apply elem_of_cons; auto|]. split; [exact H2|lia].
Qed.

Lemma oos_insert_spec cseg a lo hi l :
  carries cseg a -> a < hi -> a <= lo -> hi - a <= 65536 -> queue_ok lo hi l -> head_shorter cseg l ->
  (strict -> a + TCP_TCPLEN cseg <= hi) ->
  exists q, tcp_oos_insert_segment (seg_seqno cseg) cseg l = ret q /\ queue_ok a hi q /\ holds q a (seg_len cseg).
Proof.
  intros Hc Hh Ha Hd Hq Hs Hst. unfold tcp_oos_insert_segment. destruct (has TCP_FIN (th_flags cseg)) eqn:Ef.
  - exists [cseg]. split; [reflexivity|]. split; [|apply holds_seg with cseg a; auto with lia; constructor].
    exists a. split; [lia|]. repeat (split; [auto; congruence|]). exact I.
  - destruct (oos_covered_spec hi l cseg a lo Hc Ef Ha Hd Hq Hs Hst) as (cs & l' & -> & Hc' & El & Ep & Hst' & Hlast & Hn).
    destruct l' as [|n l'].
    + exists [cs]. split; [reflexivity|]. split; [|apply holds_seg with cs a; auto with lia; constructor].
      exists a. split; [lia|]. repeat (split; [auto|]). exact I.
    + destruct Hn as (b & Hab & Hnb & Hq' & Hlt). specialize (Hlast ltac:(discriminate)).
      assert (Hcl := ca_len _ _ Hc). assert (Hb : b < hi) by (destruct Hq' as (b' & Hb' & _); lia).
      pose proof (at_pos_add _ _ (seg_len cs) (carries_start _ _ Hc)) as Hcs. rewrite El in Hcs at 2.
      rewrite (seq_gt Hcs (carries_start _ _ Hnb)) by lia.
      destruct (Z.ltb_spec b (a + seg_len cseg)) as [Hov|Hov].
      * rewrite (u16_diff _ _ b a (carries_start _ _ Hnb) (carries_start _ _ Hc)) by lia.
        destruct (chain_cut_spec (seg_p cs) (b - a) ltac:(lia) (ca_p _ _ Hc')) as (q & -> & Eq & Hne).
        pose proof (carries_cut cs a (b - a) q Hc' Hlast ltac:(lia) Eq Hne) as Hcut.
        eexists. split; [reflexivity|]. split; [|apply (holds_two _ _ _ a b _ Hcut Hnb); cbn; lia]. exists a. split; [lia|].
        split; [exact Hcut|]. split; [|split; [auto|]].
        { intros _. rewrite (carries_tcplen _ _ Hcut). cbn. rewrite Hlast. cbn. lia. }
        cbn [seg_len set_field]. replace (a + _) with b; [exact Hq'|]. cbn. lia.
      * eexists. split; [reflexivity|]. split; [|apply holds_seg with cs a; auto with lia; constructor].
        exists a. split; [lia|]. split; [exact Hc'|]. split; [exact Hst'|].
        split; [auto|]. rewrite El. eapply queue_ok_from; [|exact Hq']. lia.
Qed.

Lemma trim_end_spec seg b x a : carries seg b -> has TCP_FIN (th_flags seg) = false -> at_pos x a -> b < a -> a - b < 65536 ->
  exists seg', trim_end x seg = ret seg' /\ carries seg' b /\ has TCP_FIN (th_flags seg') = false /\
    b + seg_len seg' <= a /\ seg_len seg' <= seg_len seg.
Proof.
  intros Hc Hf Hx Hba Hd. pose proof (ca_len _ _ Hc). unfold trim_end. rewrite (seq_gt (carries_stop _ _ Hc) Hx) by lia.
  destruct (Z.ltb_spec a (b + seg_len seg)) as [Hov|Hov]; [|exists seg; repeat (split; [auto; lia|]); lia].
  rewrite (u16_diff _ _ a b Hx (carries_start _ _ Hc)) by lia.
  destruct (chain_cut_spec (seg_p seg) (a - b) ltac:(lia) (ca_p _ _ Hc)) as (q & -> & Eq & Hne).
  eexists. split; [reflexivity|]. split; [apply carries_cut; auto; lia|]. cbn. split; [exact Hf|]. lia.
Qed.

(** A queue behind the segment in front of it. *)
Lemma queue_behind prev lo hi n l : queue_ok lo hi (prev_list prev ++ n :: l) ->
  exists m b, lo <= m <= b /\ carries n b /\ queue_ok b hi (n :: l) /\ b < hi /\
    (forall p, prev = Some p -> exists c, carries p c /\ c < b /\ lo <= c /\ has TCP_FIN (th_flags p) = false /\ m = c + seg_len p /\ c < hi /\
       (strict -> c + TCP_TCPLEN p <= hi)) /\
    (forall q, queue_ok m hi q -> queue_ok lo hi (prev_list prev ++ q)).
Proof.
  destruct prev as [p|]; cbn [prev_list app].
  - intros (c & Hc & Hp & Hs & Hf & Hq). specialize (Hf ltac:(discriminate)). destruct (carries_no_fin _ _ Hp Hf) as [Hl _].
    pose proof Hq as Hq'. destruct Hq as (b & Hb & Hn & Hr). exists (c + seg_len p), b. split; [lia|]. split; [exact Hn|].
    split; [exists b; split; [lia|auto]|]. split; [lia|]. split.
    + intros p' [= <-]. exists c. repeat (split; [auto; lia|]). exact Hs.
    + intros q Hqq. exists c. split; [lia|]. auto.
  - intros (b & Hb & Hn & Hr). exists lo, b. split; [lia|]. split; [exact Hn|]. split; [exists b; split; [lia|auto]|].
    split; [lia|]. split; [discriminate|auto].
Qed.

Lemma seg_copy_spec H seg : guarded H (tcp_seg_copy seg) (fun c => c = None \/ c = Some seg).
Proof.
  unfold tcp_seg_copy. apply guarded_bind with (fun _ => True); [now apply guarded_malloc|]. intros [|] _; apply guarded_ret; auto.
Qed.

Lemma provides_copy {A} H seg (k : option tcp_seg -> M A) Q N :
  guarded H (k None) Q -> provides H (k (Some seg)) Q N -> provides H (bind (tcp_seg_copy seg) k) Q N.
Proof.
  intros H1 [H2 H3]. split.
  - eapply guarded_bind; [apply seg_copy_spec|]. now intros c [->| ->].
  - apply enough_bind with (fun c => c = Some seg); [|now intros c ->].
    unfold tcp_seg_copy. eapply enough_bind; [apply enough_malloc|]. intros ok ->. now apply enough_ret.
Qed.

Lemma ooseq_loop_spec H i a hi l :
  carries (inseg i) a -> seqno i = seg_seqno (inseg i) -> a < hi -> (strict -> a + TCP_TCPLEN (inseg i) <= hi) ->
  forall prev lo, lo <= a -> hi - lo <= 65536 -> queue_ok lo hi (prev_list prev ++ l) ->
  (forall p c, prev = Some p -> carries p c -> lo <= c < hi -> c < a) -> l <> [] ->
  provides H (ooseq_loop i prev l) (queue_ok lo hi) (fun q => holds q a (seg_len (inseg i))).
Proof.
  intros Hc Eseq Hah Hst. induction l as [|n l IH]; intros prev lo Hlo Hd Hq Hprev Hl0; cbn [ooseq_loop]; [contradiction|].
  pose proof Hq as Hq0. apply queue_behind in Hq. destruct Hq as (m & b & Hm & Hn & Hq & Hbh & Hp & Hre).
  assert (Hab : -2147483648 <= a - b < 2147483648) by (destruct Hm; lia).
  assert (Hsame : guarded H (ret (prev_list prev ++ n :: l)) (queue_ok lo hi)) by now apply guarded_ret.
  rewrite Eseq, (seqno_apart _ _ a b Hc Hn Hab). destruct (Z.eqb_spec a b) as [<-|Hne].
  { destruct (Z.ltb_spec (seg_len n) (seg_len (inseg i))) as [Hl|Hl].
    2:{ split; [exact Hsame|]. apply enough_ret, holds_app, holds_seg with n a; auto with lia. constructor. }
    apply provides_copy; [exact Hsame|].
    destruct (oos_insert_spec (inseg i) a a hi (n :: l) Hc Hah ltac:(lia) ltac:(lia) Hq (fun _ => Hl) Hst) as (q & -> & Hqq & Hho).
    apply provides_ret; [|now apply holds_app]. apply Hre. eapply queue_ok_from; [|exact Hqq]. lia. }
  match goal with |- context [if ?c then _ else _] => assert (Ehere : c = (a <? b)) end.
  { destruct prev as [p|]; [|apply (seq_lt (carries_start _ _ Hc) (carries_start _ _ Hn) Hab)].
    destruct (Hp p eq_refl) as (c & Hpc & Hcb & Hloc & _ & _ & Hch & _). specialize (Hprev p c eq_refl Hpc ltac:(lia)).
    rewrite (seq_between _ _ _ a (c + 1) (b + -1) (carries_start _ _ Hc)); [|apply at_pos_add, carries_start; assumption..|lia|lia].
    destruct (Z.leb_spec (c + 1) a), (Z.leb_spec a (b + -1)), (Z.ltb_spec a b); try reflexivity; lia. }
  rewrite Ehere. clear Ehere. destruct (Z.ltb_spec a b) as [Hlt|Hge].
  { apply provides_copy; [exact Hsame|].
    destruct (oos_insert_spec (inseg i) a b hi (n :: l) Hc Hah ltac:(lia) ltac:(lia) Hq) as (q & Eq & Hqq & Hho); [|exact Hst|].
    { intros E. apply Z.eqb_eq in E. rewrite (seqno_apart _ _ b a Hn Hc) in E by lia. apply Z.eqb_eq in E. lia. }
    rewrite Eq. destruct prev as [p|].
    - destruct (Hp p eq_refl) as (c & Hpc & Hcb & Hloc & Hpf & Em & Hch & Hps). specialize (Hprev p c eq_refl Hpc ltac:(lia)).
      destruct (trim_end_spec p c _ a Hpc Hpf (carries_start _ _ Hc) Hprev ltac:(lia)) as (p' & -> & Hpc' & Hpf' & Hend & Hle).
      apply provides_ret; [|now apply (holds_app [p'])]. exists c. split; [lia|]. split; [exact Hpc'|]. split; [|split; [auto|]].
      + intros Hs. specialize (Hps Hs). rewrite (carries_tcplen _ _ Hpc), Hpf in Hps. rewrite (carries_tcplen _ _ Hpc'), Hpf'. lia.
      + eapply queue_ok_from; [|exact Hqq]. lia.
    - apply provides_ret; [|exact Hho]. eapply queue_ok_from; [|exact Hqq]. lia. }
  match goal with |- context [if ?c then _ else _] => assert (Elast : c = match l with [] => true | _ => false end) end.
  { destruct l; [|reflexivity]. rewrite (seq_gt (carries_start _ _ Hc) (carries_start _ _ Hn) Hab). apply Z.ltb_lt. lia. }
  rewrite Elast. clear Elast. destruct l as [|n2 l].
  - destruct (has TCP_FIN (th_flags n)) eqn:Efin.
    { split; [exact Hsame|]. destruct (ca_fin _ _ Hn Efin). pose proof (ca_end _ _ Hc).
      apply enough_ret, holds_app, holds_seg with n b; auto with lia. constructor. }
    apply provides_copy; [exact Hsame|].
    destruct (trim_end_spec n b _ a Hn Efin (carries_start _ _ Hc) ltac:(lia) ltac:(lia)) as (n' & -> & Hn' & Hf' & Hend & Hle).
    apply provides_ret; [apply Hre|apply holds_app, holds_seg with (inseg i) a; auto with lia; constructor; constructor].
    exists b. split; [lia|]. split; [exact Hn'|]. split; [|split; [auto|]].
    + intros Hs. destruct Hq as (b' & Hb' & Hnb' & Hs' & _). rewrite (carries_tcplen _ _ Hn'), Hf'. specialize (Hst Hs).
      destruct (ca_some _ _ Hc). rewrite (carries_tcplen _ _ Hc) in Hst. pose proof (b2z_bounds (has TCP_FIN (th_flags (inseg i)))).
      pose proof (ca_len _ _ Hc). cbn. lia.
    + exists a. split; [lia|]. split; [exact Hc|]. split; [exact Hst|]. split; [congruence|exact I].
  - eapply provides_bind; [apply (IH (Some n) m); [lia|lia| | |discriminate]| |].
    + eapply queue_ok_from; [|exact Hq]. lia.
    + intros p c [= <-] Hpc Hcr. assert (E : (seg_seqno n =? seg_seqno n) = true) by apply Z.eqb_refl.
      rewrite (seqno_apart n n c b Hpc Hn) in E by lia. apply Z.eqb_eq in E. lia.
    + intros q Hqq. apply guarded_ret. now apply Hre.
    + intros q Hho. now apply enough_ret, holds_app.
Qed.

Lemma queue_segment_spec H i a lo hi p :
  carries (inseg i) a -> seqno i = seg_seqno (inseg i) -> lo <= a < hi -> hi - lo <= 65536 ->
  (strict -> a + TCP_TCPLEN (inseg i) <= hi) -> queue_ok lo hi (ooseq p) ->
  provides H (queue_segment i p) (fun p' => exists q, p' = p <| ooseq := q |> /\ queue_ok lo hi q)
    (fun p' => holds (ooseq p') a (seg_len (inseg i))).
Proof.
  intros Hc Eseq Ha Hd Hst Hq. unfold queue_segment. destruct (ooseq p) as [|n l] eqn:Eo.
  - apply provides_copy; [apply guarded_ret; exists []; split; [reflexivity|exact I]|].
    apply provides_ret; [|apply holds_seg with (inseg i) a; auto with lia; constructor]. eexists. split; [reflexivity|].
    exists a. split; [lia|]. split; [exact Hc|]. split; [exact Hst|]. split; [congruence|exact I].
  - eapply provides_bind; [exact (ooseq_loop_spec H i a hi (n :: l) Hc Eseq (proj2 Ha) Hst None lo (proj1 Ha) Hd Hq ltac:(discriminate) ltac:(discriminate))| |].
    + intros q Hqq. apply guarded_ret. eauto.
    + intros q Hho. now apply enough_ret.
Qed.

(** ** Data in sequence *)

(** The connection waits for the position [R]. *)
Record rcv_ok (R : Z) (p : tcp_pcb) : Prop := RcvOk
  { ro_nxt : rcv_nxt p = u32 (isn + R); ro_pos : 0 <= R <= total; ro_wnd : 0 <= rcv_wnd p < 65536;
    ro_queue : queue_ok (R + 1) (R + rcv_wnd p) (ooseq p) }.

(** What receiving leaves alone. *)
Definition others (p : tcp_pcb) : tcp_pcb :=
  p <| rcv_nxt := 0 |> <| rcv_wnd := 0 |> <| rcv_ann_wnd := 0 |> <| rcv_ann_right_edge := 0 |> <| ooseq := [] |>
    <| state := CLOSED |> <| flags := 0 |>.

(** The number of bytes in front of the position [n]. *)
Definition upto (n : Z) : Z := Z.min n size.

Definition data_of (d : option chain) : list Z := match d with Some p => concat p | None => [] end.

(** The end of the stream is passed between [R] and [R']. *)
Definition passes_end (R R' : Z) : bool := (R <=? size) && (size <? R').

(** The input with another segment. *)
Definition with_inseg (s : tcp_seg) (i : tcp_in) : tcp_in := i <| inseg := s |> <| tcplen := TCP_TCPLEN s |>.

Lemma carries_without_fin seg a : carries seg a -> 0 < seg_len seg ->
  carries (seg <| th_flags := without_flag TCP_FIN (th_flags seg) |>) a.
Proof.
  intros [] Hl. constructor; cbn; auto.
  - now rewrite syn_fin_clear.
  - now rewrite fin_clear.
  - rewrite tcplen_value; cbn; [|now rewrite syn_fin_clear]. rewrite fin_clear. cbn. lia.
Qed.

Lemma trim_to_window_spec i R p :
  carries (inseg i) R -> seqno i = rcv_nxt p -> 0 < rcv_wnd p < 65536 ->
  exists s, trim_to_window (set_tcplen i) p = ret (with_inseg s i) /\ carries s R /\
    TCP_TCPLEN s = Z.min (TCP_TCPLEN (inseg i)) (rcv_wnd p).
Proof.
  intros Hc Hs Hw. unfold trim_to_window, set_tcplen. cbn [tcplen set_field inseg]. cbn.
  pose proof (carries_tcplen _ _ Hc) as Et. pose proof (ca_len _ _ Hc) as Hl. pose proof (b2z_bounds (has TCP_FIN (th_flags (inseg i)))).
  destruct (Z.ltb_spec (rcv_wnd p) (TCP_TCPLEN (inseg i))) as [Hlt|Hge].
  - set (seg := if has TCP_FIN (th_flags (inseg i)) then _ else _).
    assert (Hseg : carries seg R /\ has TCP_FIN (th_flags seg) = false /\ seg_len seg = seg_len (inseg i)).
    { unfold seg. destruct (has TCP_FIN (th_flags (inseg i))) eqn:Ef; [|auto].
      split; [apply carries_without_fin; [exact Hc|]; cbn in *; lia|]. cbn. now rewrite fin_clear. }
    destruct Hseg as (Hcs & Hfs & Els). clearbody seg. rewrite (ca_syn _ _ Hcs). cbn.
    destruct (chain_cut_spec (seg_p seg) (rcv_wnd p) ltac:(lia) (ca_p _ _ Hcs)) as (q & -> & Eq & Hne).
    assert (Hlen : rcv_wnd p <= seg_len seg) by (destruct (has TCP_FIN (th_flags (inseg i))); cbn in *; lia).
    pose proof (carries_cut seg R (rcv_wnd p) q Hcs Hfs ltac:(lia) Eq Hne) as Hcut.
    exists (seg <| seg_len := rcv_wnd p |> <| seg_p := q |>).
    assert (Elen : TCP_TCPLEN (seg <| seg_len := rcv_wnd p |> <| seg_p := q |>) = rcv_wnd p).
    { rewrite (carries_tcplen _ _ Hcut). cbn. rewrite Hfs. cbn. lia. }
    split; [|split; [exact Hcut|rewrite Elen; lia]].
    unfold bind, with_inseg. unfold TCP_TCPLEN in *. cbn in Elen |- *. rewrite Elen, Hs, Z.eqb_refl. reflexivity.
  - exists (inseg i). split; [|split; [exact Hc|lia]]. unfold with_inseg. now destruct i.
Qed.

(** The place up to which the segment goes does not cut a segment behind one
    that it covers. *)
Definition clean_cut (e : Z) (q : list tcp_seg) : bool :=
  match q with
  | [] => true
  | first :: rest =>
      negb (TCP_SEQ_GEQ e (seg_seqno first + seg_len first)) ||
      forallb (fun n => negb (TCP_SEQ_GT e (seg_seqno n) && negb (TCP_SEQ_GEQ e (seg_seqno n + seg_len n)))) rest
  end.

Lemma seq_covered_spec hi l : forall i R lo,
  carries (inseg i) R -> has TCP_FIN (th_flags (inseg i)) = false -> seqno i = u32 (isn + R) -> tcplen i = TCP_TCPLEN (inseg i) ->
  R < lo -> hi - R <= 65536 -> queue_ok lo hi l -> R + tcplen i <= hi ->
  exists s pre l', seq_covered i l = (with_inseg s i, l') /\ l = pre ++ l' /\ carries s R /\ seg_len s = seg_len (inseg i) /\
    (strict -> R + TCP_TCPLEN s <= hi) /\ TCP_TCPLEN (inseg i) <= TCP_TCPLEN s /\ (l' <> [] -> has TCP_FIN (th_flags s) = false) /\
    (pre <> [] -> exists f, head l = Some f /\ TCP_SEQ_GEQ (seqno i + tcplen i) (seg_seqno f + seg_len f) = true) /\
    match l' with
    | [] => True
    | n :: _ => exists b, R < b < hi /\ carries n b /\ queue_ok b hi l' /\ R + seg_len s < b + seg_len n
    end.
Proof.
  induction l as [|n l IH]; intros i R lo Hc Hf Es Et Hlo Hd Hq Hh; cbn [seq_covered].
  - exists (inseg i), [], []. split; [unfold with_inseg; rewrite <- Et; now destruct i|].
    repeat (split; [auto; try lia; try congruence|]). exact I.
  - destruct Hq as (b & Hb & Hn & Hs' & Hlast & Hq). pose proof (carries_no_fin _ _ Hc Hf) as [Hpos El].
    assert (Hcl := ca_len _ _ Hc). assert (Hnl := ca_len _ _ Hn).
    assert (He : at_pos (seqno i + tcplen i) (R + seg_len (inseg i))).
    { rewrite Es, Et, El. apply at_pos_add, at_pos_isn. }
    rewrite (seq_geq He (carries_stop _ _ Hn)) by lia.
    destruct (Z.leb_spec (b + seg_len n) (R + seg_len (inseg i))) as [Hcov|Hcov].
    + assert (Hhead : exists f, head (n :: l) = Some f /\ TCP_SEQ_GEQ (seqno i + tcplen i) (seg_seqno f + seg_len f) = true).
      { exists n. split; [reflexivity|]. rewrite (seq_geq He (carries_stop _ _ Hn)) by lia. now apply Z.leb_le. }
      rewrite (ca_syn _ _ Hc), andb_true_r. destruct (has TCP_FIN (th_flags n)) eqn:Efin.
      * destruct (ca_fin _ _ Hn Efin) as [Hfin Hend]. pose proof (ca_end _ _ Hc) as Hce.
        assert (l = []) as -> by (destruct l; [reflexivity|now specialize (Hlast ltac:(discriminate))]).
        exists ((inseg i) <| th_flags := Z.lor (th_flags (inseg i)) TCP_FIN |>), [n], []. cbn [seq_covered].
        assert (Hcf := carries_with_fin _ _ Hc Hfin ltac:(lia)).
        assert (Etf := carries_tcplen _ _ Hcf). cbn in Etf. rewrite fin_set in Etf. cbn in Etf.
        split; [reflexivity|]. split; [reflexivity|]. split; [exact Hcf|]. split; [reflexivity|].
        split; [|split; [lia|split; [congruence|split; [auto|exact I]]]].
        intros Hst. specialize (Hs' Hst). rewrite (carries_tcplen n b Hn), Efin in Hs'. cbn in Hs'. lia.
      * destruct (carries_no_fin _ _ Hn Efin) as [Hpn _].
        destruct (IH i R (b + seg_len n) Hc Hf Es Et ltac:(lia) Hd Hq Hh) as (s & pre & l' & E1 & -> & H1 & H2 & H3 & H4 & H5 & _ & H6).
        exists s, (n :: pre), l'. repeat (split; [auto|]). exact H6.
    + exists (inseg i), [], (n :: l). split; [unfold with_inseg; rewrite <- Et; now destruct i|].
      split; [reflexivity|]. split; [exact Hc|]. split; [reflexivity|]. split; [lia|]. split; [lia|]. split; [auto|]. split; [congruence|].
      exists b. split; [lia|]. split; [exact Hn|]. split; [|lia]. exists b. split; [lia|]. auto.
Qed.

Lemma covered_later e f n pre l : TCP_SEQ_GEQ e (seg_seqno f + seg_len f) = true -> head (pre ++ n :: l) = Some f -> pre <> [] ->
  TCP_SEQ_GT e (seg_seqno n) = true -> TCP_SEQ_GEQ e (seg_seqno n + seg_len n) = false -> clean_cut e (pre ++ n :: l) = false.
Proof.
  intros Hf Eh Hpre Hg Hn. destruct pre as [|f' pre]; [congruence|]. cbn in Eh. injection Eh as ->. cbn [clean_cut app].
  rewrite Hf. cbn [negb orb]. rewrite forallb_app. cbn [forallb]. rewrite Hg, Hn. cbn. apply andb_false_r.
Qed.

Lemma trim_to_ooseq_spec hi i R p :
  carries (inseg i) R -> seqno i = u32 (isn + R) -> tcplen i = TCP_TCPLEN (inseg i) -> hi - R <= 65536 -> R + tcplen i <= hi ->
  queue_ok (R + 1) hi (ooseq p) -> (strict -> clean_cut (seqno i + tcplen i) (ooseq p) = true) ->
  guarded (~ strict) (trim_to_ooseq i p) (fun '(i', p') => exists s q, i' = with_inseg s i /\ p' = p <| ooseq := q |> /\
    carries s R /\ (strict -> R + TCP_TCPLEN s <= hi) /\ queue_ok (R + seg_len s) hi q /\
    (q <> [] -> has TCP_FIN (th_flags s) = false) /\
    (TCP_TCPLEN (inseg i) <= TCP_TCPLEN s \/
     exists n q', q = n :: q' /\ carries n (R + seg_len s) /\ R + TCP_TCPLEN (inseg i) <= R + seg_len s + seg_len n)).
Proof.
  intros Hc Es Et Hd Hh Hq Hcl. unfold trim_to_ooseq. destruct (ooseq p) as [|f l] eqn:Eo.
  { apply guarded_ret. exists (inseg i), []. split; [unfold with_inseg; rewrite <- Et; now destruct i|].
    split; [destruct p; cbn in *; now subst|]. split; [exact Hc|]. split; [lia|]. split; [exact I|]. split; [congruence|lia]. }
  destruct (has TCP_FIN (th_flags (inseg i))) eqn:Ef.
  { apply guarded_ret. exists (inseg i), []. split; [unfold with_inseg; rewrite <- Et; now destruct i|].
    split; [reflexivity|]. split; [exact Hc|]. split; [lia|]. split; [exact I|]. split; [congruence|lia]. }
  pose proof (carries_no_fin _ _ Hc Ef) as [Hpos El].
  destruct (seq_covered_spec hi (f :: l) i R (R + 1) Hc Ef Es Et ltac:(lia) Hd Hq Hh)
    as (s & pre & l' & -> & Epre & Hs & Els & Hst & Hle & Hfin & Hhead & Hn).
  destruct l' as [|n l'].
  { apply guarded_ret. exists s, []. split; [reflexivity|]. split; [reflexivity|]. split; [exact Hs|]. split; [exact Hst|].
    split; [exact I|]. split; [congruence|lia]. }
  destruct Hn as (b & Hb & Hnb & Hqn & Hlt). specialize (Hfin ltac:(discriminate)).
  pose proof (carries_no_fin _ _ Hs Hfin) as [Hsp Esl]. assert (Hsl := ca_len _ _ Hs). assert (Hnl := ca_len _ _ Hnb).
  assert (He : at_pos (seqno (with_inseg s i) + tcplen (with_inseg s i)) (R + seg_len s)).
  { cbn. rewrite Es, Esl. apply at_pos_add, at_pos_isn. }
  assert (Ete : seqno (with_inseg s i) + tcplen (with_inseg s i) = seqno i + tcplen i) by (cbn; lia).
  rewrite (seq_gt He (carries_start _ _ Hnb)) by lia. destruct (Z.ltb_spec b (R + seg_len s)) as [Hov|Hov].
  2:{ apply guarded_ret. exists s, (n :: l'). split; [reflexivity|]. split; [reflexivity|]. split; [exact Hs|]. split; [exact Hst|].
      split; [eapply queue_ok_from; [|exact Hqn]; lia|]. split; [auto|lia]. }
  destruct (length (n :: l') =? length (f :: l))%nat eqn:Elen; cbn [negb].
  2:{ eapply guarded_bind; [apply guarded_ub|intros ? H; exact H].
      intros Hstr. specialize (Hcl Hstr). destruct pre as [|f' pre]; [cbn in Epre; rewrite Epre, Nat.eqb_refl in Elen; discriminate|].
      destruct (Hhead ltac:(discriminate)) as (f0 & Ef0 & Hge). rewrite Epre in Ef0, Hcl.
      rewrite (covered_later _ f0 n _ _ Hge Ef0 ltac:(discriminate)) in Hcl; [discriminate| |]; rewrite <- Ete.
      - rewrite (seq_gt He (carries_start _ _ Hnb)) by lia. apply Z.ltb_lt. lia.
      - rewrite (seq_geq He (carries_stop _ _ Hnb)) by lia. apply Z.leb_gt. lia. }
  apply Nat.eqb_eq in Elen. assert (pre = []) as ->.
  { destruct pre; [reflexivity|]. rewrite Epre in Elen. cbn in Elen. rewrite length_app in Elen. cbn in Elen. lia. }
  cbn in Epre. injection Epre as <- <-. cbn [inseg with_inseg set_field]. cbn. rewrite (ca_syn _ _ Hs).
  rewrite Es, (u16_diff _ _ b R (carries_start _ _ Hnb) (at_pos_isn R)) by lia.
  destruct (chain_cut_spec (seg_p s) (b - R) ltac:(lia) (ca_p _ _ Hs)) as (q & -> & Eq & Hne).
  pose proof (carries_cut s R (b - R) q Hs Hfin ltac:(lia) Eq Hne) as Hcut.
  assert (Elc : TCP_TCPLEN (s <| seg_len := b - R |> <| seg_p := q |>) = b - R).
  { rewrite (carries_tcplen _ _ Hcut). cbn. rewrite Hfin. cbn. lia. }
  rewrite bind_ret. unfold set_tcplen. cbn. rewrite Elc.
  assert (Eu : (u32 (seqno i + (b - R)) =? seg_seqno f) = true).
  { apply Z.eqb_eq. rewrite (ca_seqno _ _ Hnb), Es. apply (at_pos_inj _ _ b); [|exists 0; lia].
    pose proof (at_pos_add _ _ (b - R) (at_pos_isn R)) as X. replace (R + (b - R)) with b in X by lia. exact X. }
  rewrite Es in Eu. rewrite Eu. cbn. apply guarded_ret.
  exists (s <| seg_len := b - R |> <| seg_p := q |>), (f :: l).
  split; [unfold with_inseg; rewrite Elc; reflexivity|]. split; [reflexivity|]. split; [exact Hcut|].
  split; [rewrite Elc; lia|]. cbn [seg_len set_field]. replace (R + _) with b by (cbn; lia). split; [exact Hqn|]. split; [intros _; exact Hfin|].
  right. exists f, l. split; [reflexivity|]. split; [exact Hnb|]. lia.
Qed.

(** What [advance] does to the connection. *)
Lemma update_rcv_ann_wnd_spec p : exists w, snd (tcp_update_rcv_ann_wnd p) = p <| rcv_ann_wnd := w |>.
Proof. unfold tcp_update_rcv_ann_wnd. destruct (TCP_SEQ_GEQ _ _); [eauto|]. destruct (TCP_SEQ_GT _ _); cbn [snd]; eauto. Qed.

Lemma advance_spec H R p len : rcv_nxt p = u32 (isn + R) -> 0 <= len -> 0 <= rcv_wnd p < 65536 -> (rcv_wnd p < len -> H) ->
  guarded H (advance len p) (fun p' => len <= rcv_wnd p /\ exists w,
    p' = p <| rcv_nxt := u32 (isn + (R + len)) |> <| rcv_wnd := rcv_wnd p - len |> <| rcv_ann_wnd := w |>).
Proof.
  intros En Hl Hw HH. unfold advance. apply guarded_bind with (fun _ => len <= rcv_wnd p).
  { apply guarded_assert; [intros E; apply HH; lia|intros E; lia]. }
  intros _ Hle. apply guarded_ret. split; [exact Hle|].
  assert (E1 : u32 (rcv_nxt p + len) = u32 (isn + (R + len))).
  { rewrite En. apply (at_pos_inj _ _ (R + len)); [apply at_pos_add, at_pos_isn|exists 0; lia]. }
  assert (E2 : u16 (rcv_wnd p - len) = rcv_wnd p - len) by (unfold u16; rewrite Z.mod_small; lia).
  rewrite E1, E2. apply update_rcv_ann_wnd_spec.
Qed.

Lemma add_data_spec seg a d : carries seg a -> data_of (add_data (seg_p seg) d) = data_of d ++ slice a (seg_len seg).
Proof.
  intros Hc. unfold add_data. rewrite (carries_tot_len _ _ Hc), <- (ca_data _ _ Hc).
  destruct (Z.ltb_spec 0 (seg_len seg)) as [Hl|Hl].
  - destruct d; cbn; [apply concat_app|reflexivity].
  - assert (E : concat (seg_p seg) = []); [|rewrite E; now rewrite app_nil_r].
    rewrite (ca_data _ _ Hc). apply slice_none. lia.
Qed.

(** From the position [R] on, the bytes up to [R'], in two steps. *)
Lemma slice_step R R1 R2 : 0 <= R <= R1 -> R1 <= R2 -> slice R (upto R1 - R) ++ slice R1 (upto R2 - R1) = slice R (upto R2 - R).
Proof.
  intros H1 H2. unfold upto. destruct (Z.le_gt_cases size R1) as [Hs|Hs].
  - rewrite (slice_none R1) by (right; lia). rewrite app_nil_r, !Z.min_r by lia. reflexivity.
  - rewrite (Z.min_l R1) by lia. pose proof (slice_app R (R1 - R) (Z.min R2 size - R1)) as E.
    replace (R + (R1 - R)) with R1 in E by lia. rewrite E by lia. f_equal. lia.
Qed.

Lemma passes_step R R1 R2 : R <= R1 -> R1 <= R2 -> passes_end R R2 = passes_end R R1 || passes_end R1 R2.
Proof. intros H1 H2. unfold passes_end. destruct (Z.leb_spec R size), (Z.leb_spec R1 size), (Z.ltb_spec size R1), (Z.ltb_spec size R2); try reflexivity; lia. Qed.

Lemma passes_segment seg a : carries seg a -> passes_end a (a + TCP_TCPLEN seg) = has TCP_FIN (th_flags seg).
Proof.
  intros Hc. rewrite (carries_tcplen _ _ Hc). unfold passes_end. pose proof (ca_end _ _ Hc). pose proof (ca_len _ _ Hc).
  destruct (has TCP_FIN (th_flags seg)) eqn:E; cbn [b2z].
  - destruct (ca_fin _ _ Hc E). apply andb_true_intro. split; [apply Z.leb_le|apply Z.ltb_lt]; lia.
  - destruct (Z.ltb_spec size (a + (seg_len seg + 0))); [lia|]. apply andb_false_r.
Qed.

Lemma upto_segment seg a : carries seg a -> upto (a + TCP_TCPLEN seg) - a = seg_len seg.
Proof.
  intros Hc. rewrite (carries_tcplen _ _ Hc). unfold upto. pose proof (ca_end _ _ Hc). pose proof (b2z_bounds (has TCP_FIN (th_flags seg))).
  destruct (has TCP_FIN (th_flags seg)) eqn:E; cbn [b2z]; [destruct (ca_fin _ _ Hc E)|]; lia.
Qed.

Lemma got_fin_flag seg i : has TF_GOT_FIN (recv_flags (got_fin seg i)) = has TF_GOT_FIN (recv_flags i) || has TCP_FIN (th_flags seg).
Proof.
  unfold got_fin. destruct (has TCP_FIN (th_flags seg)); cbn; [|now rewrite orb_false_r].
  rewrite orb_true_r. exact (has_set 5 5 (recv_flags i) ltac:(lia) ltac:(lia)).
Qed.

Lemma got_fin_data seg i : recv_data (got_fin seg i) = recv_data i.
Proof. unfold got_fin. now destruct (has TCP_FIN (th_flags seg)). Qed.

(** The connection has received the stream from [R] up to [R']. *)
Record received (i i' : tcp_in) (p p' : tcp_pcb) (R R' : Z) : Prop := Received
  { re_le : R <= R'; re_data : data_of (recv_data i') = data_of (recv_data i) ++ slice R (upto R' - R);
    re_fin : has TF_GOT_FIN (recv_flags i') = has TF_GOT_FIN (recv_flags i) || passes_end R R';
    re_nxt : rcv_nxt p' = u32 (isn + R'); re_wnd : rcv_wnd p' = rcv_wnd p - (R' - R);
    re_others : others p' = others p;
    re_state : state p' = state p \/ (state p = ESTABLISHED /\ state p' = CLOSE_WAIT /\ passes_end R R' = true) }.

Lemma received_refl i p R : rcv_nxt p = u32 (isn + R) -> received i i p p R R.
Proof.
  intros H. constructor; auto; try lia.
  - rewrite slice_none, app_nil_r; [reflexivity|]. unfold upto. lia.
  - unfold passes_end. destruct (Z.leb_spec R size), (Z.ltb_spec size R); cbn; rewrite ?orb_false_r; reflexivity || lia.
Qed.

Lemma received_trans i1 i2 i3 p1 p2 p3 R1 R2 R3 : 0 <= R1 ->
  received i1 i2 p1 p2 R1 R2 -> received i2 i3 p2 p3 R2 R3 -> received i1 i3 p1 p3 R1 R3.
Proof.
  intros H0 [L1 D1 F1 N1 W1 O1 S1] [L2 D2 F2 N2 W2 O2 S2]. constructor; try congruence; try lia.
  - rewrite D2, D1, <- app_assoc, slice_step by lia. reflexivity.
  - rewrite F2, F1, (passes_step R1 R2 R3), orb_assoc by lia. reflexivity.
  - rewrite (passes_step R1 R2 R3) by lia. destruct S1 as [S1|(S1 & S1' & E1)], S2 as [S2|(S2 & S2' & E2)].
    + left. congruence.
    + right. rewrite E2, orb_true_r. split; [congruence|auto].
    + right. rewrite E1. split; [congruence|]. split; [congruence|reflexivity].
    + congruence.
Qed.

(** One segment of the queue is taken. *)
Lemma take_segment_spec cseg R i p q :
  carries cseg R -> rcv_nxt p = u32 (isn + R) -> 0 <= rcv_wnd p < 65536 -> (strict -> TCP_TCPLEN cseg <= rcv_wnd p) ->
  let p1 q w := p <| rcv_nxt := u32 (isn + (R + TCP_TCPLEN cseg)) |> <| rcv_wnd := rcv_wnd p - TCP_TCPLEN cseg |>
              <| rcv_ann_wnd := w |> in
  guarded (~ strict) (advance (TCP_TCPLEN cseg) p) (fun p' => TCP_TCPLEN cseg <= rcv_wnd p /\ exists w,
    p' = p1 q w /\
    let i' := got_fin cseg ((i <| seqno := seg_seqno cseg |>) <| recv_data := add_data (seg_p cseg) (recv_data i) |>) in
    let p'' := (if has TCP_FIN (th_flags cseg) && bool_decide (state p' = ESTABLISHED) then p' <| state := CLOSE_WAIT |> else p') <| ooseq := q |> in
    received i i' p p'' R (R + TCP_TCPLEN cseg)).
Proof.
  intros Hc En Hw Hst p1. eapply guarded_weaken.
  { apply (advance_spec (~ strict) R p (TCP_TCPLEN cseg) En); [pose proof (ca_some _ _ Hc); lia|exact Hw|].
    intros Hlt Hs. specialize (Hst Hs). lia. }
  intros p' (Hle & w & ->). split; [exact Hle|]. exists w. split; [reflexivity|]. cbn [set_field]. cbn.
  pose proof (passes_segment _ _ Hc) as Epass. pose proof (ca_some _ _ Hc).
  constructor.
  - lia.
  - rewrite got_fin_data. cbn. rewrite (add_data_spec _ R), (upto_segment _ _ Hc) by exact Hc. reflexivity.
  - rewrite got_fin_flag, Epass. reflexivity.
  - now destruct (has TCP_FIN (th_flags cseg) && _).
  - destruct (has TCP_FIN (th_flags cseg) && _); cbn; lia.
  - now destruct (has TCP_FIN (th_flags cseg) && _).
  - rewrite Epass. destruct (has TCP_FIN (th_flags cseg)); cbn; [|auto]. case_bool_decide; cbn; auto.
Qed.

Lemma dequeue_loop_spec l : forall i p R hi,
  ooseq p = l -> rcv_nxt p = u32 (isn + R) -> 0 <= rcv_wnd p < 65536 -> hi = R + rcv_wnd p -> queue_ok R hi l -> 0 <= R ->
  guarded (~ strict) (dequeue_loop l i p) (fun '(i', p') => exists R', received i i' p p' R R' /\ 0 <= rcv_wnd p' < 65536 /\
    queue_ok (R' + 1) hi (ooseq p') /\ (R' = R \/ R' <= total) /\
    (forall n q, l = n :: q -> carries n R -> R + TCP_TCPLEN n <= R')).
Proof.
  induction l as [|n l IH]; intros i p R hi Eo En Hw Ehi Hq H0; cbn [dequeue_loop].
  { apply guarded_ret. exists R. rewrite Eo. split; [now apply received_refl|]. split; [exact Hw|]. split; [exact I|].
    split; [auto|discriminate]. }
  destruct Hq as (b & Hb & Hn & Hs & Hlast & Hq).
  rewrite (eqb_pos _ _ b R (ca_seqno _ _ Hn) En) by lia. destruct (Z.eqb_spec b R) as [->|Hne].
  2:{ apply guarded_ret. exists R. split; [now apply received_refl|]. split; [exact Hw|]. rewrite Eo. split.
      { exists b. split; [lia|]. auto. }
      split; [auto|]. intros n' q [= <- <-] Hnr. pose proof (seqno_apart n n R b Hnr Hn ltac:(lia)) as E.
      rewrite Z.eqb_refl in E. symmetry in E. apply Z.eqb_eq in E. lia. }
  eapply guarded_bind; [apply (take_segment_spec n R i p l Hn En Hw)|].
  { intros Hst. specialize (Hs Hst). lia. }
  intros p' (Hle & w & -> & Hrec). pose proof (ca_some _ _ Hn) as Hpos.
  set (p2 := (if _ && _ then _ else _) <| ooseq := l |>) in *. set (i2 := got_fin n _) in *.
  eapply guarded_weaken; [apply (IH i2 p2 (R + TCP_TCPLEN n) hi)|].
  - reflexivity.
  - apply Hrec.
  - rewrite (re_wnd _ _ _ _ _ _ Hrec). lia.
  - rewrite (re_wnd _ _ _ _ _ _ Hrec). lia.
  - rewrite (carries_tcplen _ _ Hn). destruct (has TCP_FIN (th_flags n)) eqn:Ef; cbn [b2z].
    + destruct l; [exact I|]. now specialize (Hlast ltac:(discriminate)).
    + eapply queue_ok_from; [|exact Hq]. lia.
  - lia.
  - intros [i' p'] (R' & Hrec' & Hw' & Hq' & Ht & _). exists R'. split; [eapply received_trans; eauto|].
    split; [exact Hw'|]. split; [exact Hq'|]. pose proof (carries_total _ _ Hn). split; [right; lia|].
    intros n' q [= <- <-] _. apply Hrec'.
Qed.

(** ** Receiving *)

Context (netif_list : list netif) (netif_default : option netif).

(** A segment without data, for the sake of the acknowledgement. *)
Definition bare_ack (k : tcp_packet) : Prop := pk_data k = [] /\ pk_flags k = TCP_ACK.

(** What the code does besides receiving: it answers. *)
Record answers (c c' : conn) : Prop := Answers
  { an_wire : exists ks, wire c' = wire c ++ ks /\ Forall bare_ack ks; an_input : in_input c' = in_input c;
    an_ticks : tcp_ticks c' = tcp_ticks c }.

(** The connection may have other flags, and may have announced another
    window. *)
Definition same_but_flags (p p' : tcp_pcb) : Prop :=
  exists f e, p' = p <| flags := f |> <| rcv_ann_right_edge := e |>.

Lemma answers_refl c : answers c c.
Proof. constructor; auto. exists []. now rewrite app_nil_r. Qed.

Lemma answers_trans c1 c2 c3 : answers c1 c2 -> answers c2 c3 -> answers c1 c3.
Proof.
  intros [(k1 & E1 & H1) I1 T1] [(k2 & E2 & H2) I2 T2]. constructor; try congruence.
  exists (k1 ++ k2). rewrite E2, E1, app_assoc. split; [reflexivity|]. now apply Forall_app.
Qed.

Lemma answers_pcb c p : answers c (c <| pcb := p |>).
Proof. constructor; auto. exists []. now rewrite app_nil_r. Qed.

Lemma send_empty_ack_spec H c :
  guarded H (tcp_send_empty_ack c) (fun '(_, c') => answers c c' /\ same_but_flags (pcb c) (pcb c')).
Proof.
  unfold tcp_send_empty_ack. apply guarded_bind with (fun _ => True); [now apply guarded_malloc|]. intros [|] _; cbn [negb].
  - apply guarded_ret. split.
    + constructor; auto. cbn. eexists. split; [reflexivity|]. constructor; [now split|constructor].
    + cbn. unfold same_but_flags. do 2 eexists. reflexivity.
  - apply guarded_ret. split; [apply answers_refl|]. exists (flags (pcb c)), (rcv_ann_right_edge (pcb c)). now destruct (pcb c).
Qed.

(** While a segment is being processed, nothing else is sent. *)
Lemma ack_now_input c : in_input c = true -> exists f, tcp_ack_now netif_list netif_default c = ret (c <| pcb := (pcb c) <| flags := f |> |>).
Proof. intros Hi. unfold tcp_ack_now, tcp_output. cbn. rewrite Hi. eexists. reflexivity. Qed.

Lemma ack_input c : in_input c = true -> exists f, tcp_ack netif_list netif_default c = ret (c <| pcb := (pcb c) <| flags := f |> |>).
Proof.
  intros Hi. unfold tcp_ack, tcp_output. destruct (has TF_ACK_DELAY _); [cbn; rewrite Hi|]; eexists; reflexivity.
Qed.

Lemma in_sequence_spec i c R :
  carries (inseg i) R -> seqno i = u32 (isn + R) -> recv_data i = None -> in_input c = true ->
  rcv_ok R (pcb c) -> 0 < rcv_wnd (pcb c) ->
  (strict -> clean_cut (seqno i + Z.min (TCP_TCPLEN (inseg i)) (rcv_wnd (pcb c))) (ooseq (pcb c)) = true) ->
  guarded (~ strict) (in_sequence netif_list netif_default i c) (fun '(i', c') => exists R', received i i' (pcb c) (pcb c') R R' /\
    rcv_ok R' (pcb c') /\ answers c c' /\ Z.min (R + TCP_TCPLEN (inseg i)) (R + rcv_wnd (pcb c)) <= R').
Proof.
  intros Hc Es Ed Hi [En Hp Hw Hq] Hwp Hcl. unfold in_sequence.
  destruct (trim_to_window_spec i R (pcb c) Hc ltac:(congruence) ltac:(lia)) as (s1 & -> & Hc1 & El1). rewrite bind_ret.
  set (hi := R + rcv_wnd (pcb c)) in *.
  eapply guarded_bind.
  { apply (trim_to_ooseq_spec hi (with_inseg s1 i) R (pcb c)); cbn; auto; try lia. intros Hst. rewrite El1. auto. }
  intros [i1 p1] (s & q & -> & -> & Hc2 & Hst2 & Hq2 & Hfin2 & Hprog). cbn [inseg with_inseg set_field] in Hprog. cbn.
  pose proof (ca_some _ _ Hc2) as Hpos.
  set (p0 := (pcb c) <| ooseq := q |> <| rcv_nxt := seqno i |>).
  eapply guarded_bind; [apply (advance_spec (~ strict) R p0 (TCP_TCPLEN s)); cbn; auto; [lia|]|].
  { intros Hlt Hst. specialize (Hst2 Hst). lia. }
  intros p' (Hle & w & ->). cbn in Hle. fold (with_inseg s i).
  match goal with |- guarded _ (bind (dequeue_loop ?l ?i2 ?p2) _) _ => set (p3 := p2); set (i3 := i2) end.
  assert (Hrec : received i i3 (pcb c) p3 R (R + TCP_TCPLEN s)).
  { pose proof (passes_segment _ _ Hc2) as Epass. constructor; auto.
    - lia.
    - unfold i3. rewrite got_fin_data, <- (upto_segment _ _ Hc2), Z.add_simpl_l || rewrite got_fin_data.
      pose proof (add_data_spec s R None Hc2) as Ea. unfold add_data in Ea. rewrite (upto_segment _ _ Hc2), Ed. cbn [data_of app] in *.
      destruct (0 <? tot_len (seg_p s)); cbn; rewrite ?Ed; exact Ea.
    - unfold i3. rewrite got_fin_flag, Epass. f_equal. all: now destruct (0 <? tot_len (seg_p s)).
    - cbn. lia. }
  eapply guarded_bind; [apply (dequeue_loop_spec q i3 p3 (R + TCP_TCPLEN s) hi)|].
  - reflexivity.
  - apply Hrec.
  - rewrite (re_wnd _ _ _ _ _ _ Hrec). lia.
  - rewrite (re_wnd _ _ _ _ _ _ Hrec). unfold hi. lia.
  - destruct (has TCP_FIN (th_flags s)) eqn:Ef.
    + destruct q; [exact I|]. now specialize (Hfin2 ltac:(discriminate)).
    + destruct (carries_no_fin _ _ Hc2 Ef) as [_ ->]. exact Hq2.
  - lia.
  - intros [i' p'] (R' & Hrec' & Hw' & Hq' & Ht & Hhead). 
    match goal with |- context [tcp_ack _ _ ?c'] => destruct (ack_input c' Hi) as (f & ->) end. apply guarded_ret. cbn.
    pose proof (carries_total _ _ Hc2) as Htot. pose proof (re_le _ _ _ _ _ _ Hrec') as Hmono.
    pose proof (received_trans _ _ _ _ _ _ _ _ _ (proj1 Hp) Hrec Hrec') as Hall.
    exists R'. split; [destruct Hall; constructor; auto|]. split; [|split; [constructor; auto; exists []; now rewrite app_nil_r|]].
    + constructor; cbn; [apply Hall|lia|exact Hw'|]. rewrite (re_wnd _ _ _ _ _ _ Hall).
      replace (R' + (rcv_wnd (pcb c) - (R' - R))) with hi by (unfold hi; lia). exact Hq'.
    + destruct Hprog as [Hge|(n & q' & -> & Hn & Hge)]; [lia|].
      destruct (has TCP_FIN (th_flags s)) eqn:Ef; [now specialize (Hfin2 ltac:(discriminate))|].
      destruct (carries_no_fin _ _ Hc2 Ef) as [_ Els]. rewrite Els in Hhead. specialize (Hhead n q' eq_refl Hn).
      rewrite (carries_tcplen _ _ Hn) in Hhead. pose proof (b2z_bounds (has TCP_FIN (th_flags n))). lia.
Qed.

Lemma same_flags_received i p p' R : rcv_ok R p -> same_but_flags p p' -> received i i p p' R R /\ rcv_ok R p'.
Proof.
  intros Hr (f & e & ->). pose proof (received_refl i p R (ro_nxt _ _ Hr)) as [L D F N W O St]. split.
  - constructor; auto.
  - destruct Hr. now constructor.
Qed.

Lemma same_flags_trans p p1 p2 : same_but_flags p p1 -> same_but_flags p1 p2 -> same_but_flags p p2.
Proof. intros (f & e & ->) (f' & e' & ->). now exists f', e'. Qed.

(** Nothing but an answer. *)
Lemma only_answer H i c c1 R : rcv_ok R (pcb c) -> answers c c1 -> same_but_flags (pcb c) (pcb c1) ->
  guarded H ('(_, c2) <- tcp_send_empty_ack c1;; ret (i, c2))
    (fun '(i', c') => received i i' (pcb c) (pcb c') R R /\ rcv_ok R (pcb c') /\ answers c c').
Proof.
  intros Hr Ha Hs. eapply guarded_bind; [apply send_empty_ack_spec|]. intros [e c2] [Ha2 Hs2]. apply guarded_ret.
  destruct (same_flags_received i _ _ R Hr (same_flags_trans _ _ _ Hs Hs2)). split; [assumption|]. split; [assumption|].
  eapply answers_trans; eauto.
Qed.

(** A segment whose first bytes have been received already. *)
Lemma skip_received seg P R q : carries seg P -> P <= R < P + TCP_TCPLEN seg ->
  concat q = skipn (Z.to_nat (R - P)) (concat (seg_p seg)) -> q <> [] ->
  let s := seg <| seg_p := q |> <| seg_len := seg_len seg - (R - P) |> <| seg_seqno := u32 (isn + R) |> in
  carries s R /\ TCP_TCPLEN s = P + TCP_TCPLEN seg - R.
Proof.
  intros Hc HR Hq Hne s. rewrite (carries_tcplen _ _ Hc) in *.
  assert (Et : TCP_TCPLEN s = seg_len seg - (R - P) + b2z (has TCP_FIN (th_flags seg))) by exact (tcplen_value s (ca_syn _ _ Hc)).
  pose proof (b2z_bounds (has TCP_FIN (th_flags seg))). destruct Hc. split; [|lia]. constructor; cbn; auto; try lia.
  - rewrite Hq, ca_data0. rewrite slice_drop by lia. f_equal. lia.
  - intros Hf. destruct (ca_fin0 Hf). split; [assumption|lia].
Qed.

(** What the other side must keep to for the assertions of the code to hold. *)
Record behaves (i : tcp_in) (p : tcp_pcb) (R P : Z) : Prop := Behaves
  { bh_window : R < P -> P + TCP_TCPLEN (inseg i) <= R + rcv_wnd p;
    bh_clean : P <= R -> clean_cut (rcv_nxt p + Z.min (P + TCP_TCPLEN (inseg i) - R) (rcv_wnd p)) (ooseq p) = true;
    bh_short : seg_len (inseg i) < 0x7fff }.

Definition receives (i i' : tcp_in) (c c' : conn) (R R' : Z) : Prop :=
  received i i' (pcb c) (pcb c') R R' /\ rcv_ok R' (pcb c') /\ answers c c'.

Lemma receive_data_spec i c R P :
  carries (inseg i) P -> seqno i = seg_seqno (inseg i) -> tcplen i = TCP_TCPLEN (inseg i) -> recv_data i = None ->
  in_input c = true -> rcv_ok R (pcb c) -> -1073741824 < P - R < 1073741824 -> (strict -> behaves i (pcb c) R P) ->
  guarded (~ strict) (receive_data netif_list netif_default i c) (fun '(i', c') => exists R', receives i i' c c' R R' /\
    (P <= R -> Z.min (P + TCP_TCPLEN (inseg i)) (R + rcv_wnd (pcb c)) <= R') /\ (R < P -> R' = R)).
Proof.
  intros Hc Es Et Ed Hi Hr Hnear Hst. pose proof Hr as [En Hp Hw Hq]. pose proof (carries_tcplen _ _ Hc) as El.
  pose proof (ca_some _ _ Hc) as Hpos. pose proof (ca_len _ _ Hc) as Hlen. pose proof (b2z_bounds (has TCP_FIN (th_flags (inseg i)))) as Hb.
  unfold receive_data. rewrite Et. destruct (Z.ltb_spec 0 (TCP_TCPLEN (inseg i))); [|lia].
  assert (HsP : at_pos (seqno i) P) by (rewrite Es; now apply carries_start).
  assert (HnR : at_pos (rcv_nxt (pcb c)) R) by (rewrite En; apply at_pos_isn).
  assert (HwR : at_pos (rcv_nxt (pcb c) + rcv_wnd (pcb c) - 1) (R + rcv_wnd (pcb c) + -1)).
  { unfold Z.sub. now apply at_pos_add, at_pos_add. }
  unfold trim_front. rewrite Et.
  rewrite (seq_between _ _ _ R (P + 1) (P + TCP_TCPLEN (inseg i) + -1) HnR); [|now apply at_pos_add|unfold Z.sub; now apply at_pos_add, at_pos_add|lia|lia].
  destruct (Z.leb_spec (P + 1) R) as [HPR|HPR]; cbn [andb].
  2:{ rewrite (seq_lt HsP HnR) by lia. destruct (Z.ltb_spec P R); [lia|]. rewrite bind_ret.
      rewrite (seq_between _ _ _ P R (R + rcv_wnd (pcb c) + -1) HsP HnR HwR) by lia.
      destruct (Z.leb_spec R P); [|lia]. cbn [andb]. destruct (Z.leb_spec P (R + rcv_wnd (pcb c) + -1)) as [Hin|Hout].
      2:{ eapply guarded_weaken; [apply (only_answer _ i c c R Hr (answers_refl c)); exists (flags (pcb c)), (rcv_ann_right_edge (pcb c)); now destruct (pcb c)|].
          intros [i' c'] (G1 & G2 & G3). exists R. split; [now split|]. lia. }
      rewrite (eqb_pos (rcv_nxt (pcb c)) (seqno i) R P En (eq_trans Es (ca_seqno _ _ Hc))) by lia. destruct (Z.eqb_spec R P) as [<-|Hne].
      - eapply guarded_weaken; [apply (in_sequence_spec i c R Hc (eq_trans Es (ca_seqno _ _ Hc)) Ed Hi Hr ltac:(lia))|].
        + intros Hs. specialize (Hst Hs). destruct Hst as [_ Hcl _]. rewrite Es, (ca_seqno _ _ Hc), <- En.
          replace (TCP_TCPLEN (inseg i)) with (R + TCP_TCPLEN (inseg i) - R) by lia. apply Hcl. lia.
        + intros [i' c'] (R' & G1 & G2 & G3 & G4). exists R'. split; [now split|]. lia.
      - eapply guarded_bind; [apply send_empty_ack_spec|]. intros [e c1] [Ha Hs]. cbn beta.
        destruct (same_flags_received i _ _ R Hr Hs) as [Hrec Hr1]. pose proof Hr1 as [En1 _ Hw1 Hq1].
        pose proof (re_wnd _ _ _ _ _ _ Hrec) as Ew. eapply guarded_bind.
        { eapply proj1. apply (queue_segment_spec _ i P (R + 1) (R + rcv_wnd (pcb c1)) (pcb c1) Hc Es); [lia|lia| |exact Hq1].
          intros Hstr. destruct (Hst Hstr) as [Hwn _ _]. lia. }
        intros p' (q & -> & Hqq). apply guarded_ret. exists R. split; [|lia]. split; [|split].
        + destruct Hrec. constructor; auto.
        + destruct Hr1. constructor; auto.
        + eapply answers_trans; [exact Ha|apply answers_pcb]. }
  destruct (Z.leb_spec R (P + TCP_TCPLEN (inseg i) + -1)) as [Hnew|Hold].
  - rewrite (s32_diff _ _ R P HnR HsP) by lia. rewrite (carries_tot_len _ _ Hc).
    eapply guarded_bind.
    { eapply guarded_bind; [apply (guarded_assert _ _ (fun _ => True))|].
      - intros E Hs. specialize (Hst Hs). destruct Hst. apply Z.ltb_ge in E. lia.
      - auto.
      - intros _ _. eapply guarded_bind; [apply (guarded_assert _ _ (fun _ => True)); [intros E; apply Z.leb_gt in E; lia|auto]|].
        intros _ _. destruct (skip_front_spec (seg_p (inseg i)) (R - P)) as (q & Eq & Eqc & Hqn); [rewrite (carries_tot_len _ _ Hc); lia|apply Hc|].
        rewrite Eq, bind_ret. apply guarded_ret. instantiate (1 := fun '(i1, c1) => c1 = c /\ carries (inseg i1) R /\ seqno i1 = u32 (isn + R) /\
          recv_data i1 = recv_data i /\ recv_flags i1 = recv_flags i /\ TCP_TCPLEN (inseg i1) = P + TCP_TCPLEN (inseg i) - R).
        split; [reflexivity|]. cbn. rewrite (u16_diff _ _ R P HnR HsP) by lia.
        assert (Eu : u16 (seg_len (inseg i) - (R - P)) = seg_len (inseg i) - (R - P)) by (unfold u16; rewrite Z.mod_small; lia).
        rewrite Eu, En. destruct (skip_received (inseg i) P R q Hc ltac:(lia) Eqc Hqn) as [G1 G2]. auto. }
    intros [i1 c1] (-> & Hc1 & Es1 & Ed1 & Ef1 & Et1).
    rewrite Es1, <- En. rewrite (seq_between _ _ _ R R (R + rcv_wnd (pcb c) + -1) HnR HnR HwR) by lia. rewrite Z.leb_refl. cbn [andb].
    destruct (Z.leb_spec R (R + rcv_wnd (pcb c) + -1)) as [Hin|Hout].
    + rewrite Z.eqb_refl. eapply guarded_weaken; [apply (in_sequence_spec i1 c R Hc1 Es1 ltac:(congruence) Hi Hr ltac:(lia))|].
      * intros Hs. destruct (Hst Hs) as [_ Hcl _]. rewrite Es1, <- En, Et1. apply Hcl. lia.
      * intros [i' c'] (R' & G1 & G2 & G3 & G4). exists R'. split; [|lia]. split; [|now split].
        destruct G1. constructor; congruence.
    + eapply guarded_weaken; [apply (only_answer _ i1 c c R Hr (answers_refl c)); exists (flags (pcb c)), (rcv_ann_right_edge (pcb c)); now destruct (pcb c)|].
      intros [i' c'] (G1 & G2 & G3). exists R. split; [|lia]. split; [|now split]. destruct G1. constructor; congruence.
  - rewrite (seq_lt HsP HnR) by lia. destruct (Z.ltb_spec P R); [|lia].
    destruct (ack_now_input c Hi) as (f & ->). rewrite !bind_ret.
    set (c1 := c <| pcb := (pcb c) <| flags := f |> |>). change (rcv_nxt (pcb c1)) with (rcv_nxt (pcb c)). change (rcv_wnd (pcb c1)) with (rcv_wnd (pcb c)).
    rewrite (seq_between _ _ _ P R (R + rcv_wnd (pcb c) + -1) HsP HnR HwR) by lia. destruct (Z.leb_spec R P); [lia|]. cbn [andb].
    eapply guarded_weaken; [apply (only_answer _ i c c1 R Hr (answers_pcb _ _))|].
    + exists f, (rcv_ann_right_edge (pcb c)). now destruct (pcb c).
    + intros [i' c'] (G1 & G2 & G3). exists R. split; [now split|]. lia.
Qed.

(** A segment that comes too early is kept while there is memory. *)
Lemma receive_data_keeps i c R P :
  carries (inseg i) P -> seqno i = seg_seqno (inseg i) -> tcplen i = TCP_TCPLEN (inseg i) -> rcv_ok R (pcb c) ->
  R < P -> P + TCP_TCPLEN (inseg i) <= R + rcv_wnd (pcb c) ->
  enough (receive_data netif_list netif_default i c) (fun '(i', c') => holds (ooseq (pcb c')) P (seg_len (inseg i))).
Proof.
  intros Hc Es Et Hr HRP Hwin. pose proof Hr as [En Hp Hw Hq]. pose proof (ca_some _ _ Hc) as Hpos.
  assert (HsP : at_pos (seqno i) P) by (rewrite Es; now apply carries_start).
  assert (HnR : at_pos (rcv_nxt (pcb c)) R) by (rewrite En; apply at_pos_isn).
  unfold receive_data, trim_front. rewrite Et. destruct (Z.ltb_spec 0 (TCP_TCPLEN (inseg i))); [|lia].
  rewrite (seq_between _ _ _ R (P + 1) (P + TCP_TCPLEN (inseg i) + -1) HnR); [|now apply at_pos_add|unfold Z.sub; now apply at_pos_add, at_pos_add|lia|lia].
  replace (P + 1 <=? R) with false by (symmetry; apply Z.leb_gt; lia). cbn [andb]. rewrite (seq_lt HsP HnR) by lia.
  replace (P <? R) with false by (symmetry; apply Z.ltb_ge; lia).
  rewrite bind_ret, (seq_between _ _ _ P R (R + rcv_wnd (pcb c) + -1) HsP HnR) by (lia || (unfold Z.sub; now apply at_pos_add, at_pos_add)).
  replace (R <=? P) with true by (symmetry; apply Z.leb_le; lia).
  replace (P <=? R + rcv_wnd (pcb c) + -1) with true by (symmetry; apply Z.leb_le; lia). cbn [andb].
  rewrite (eqb_pos (rcv_nxt (pcb c)) (seqno i) R P En (eq_trans Es (ca_seqno _ _ Hc))) by lia.
  replace (R =? P) with false by (symmetry; apply Z.eqb_neq; lia).
  eapply enough_bind; [apply (guarded_enough False _ _ (send_empty_ack_spec False c)); unfold tcp_send_empty_ack; thrifty|].
  - eapply enough_weaken; [apply enough_malloc|]. auto.
  - intros [e c1] [_ Hs]. destruct (same_flags_received i _ _ R Hr Hs) as [Hrec [_ _ Hw1 Hq1]]. pose proof (re_wnd _ _ _ _ _ _ Hrec) as Ew.
    apply enough_bind with (fun p' => holds (ooseq p') P (seg_len (inseg i))); [|intros p' Hho; now apply enough_ret].
    apply (queue_segment_spec False i P (R + 1) (R + rcv_wnd (pcb c1)) (pcb c1) Hc Es); [lia|lia|intros _; lia|exact Hq1].
Qed.
End Stream.
