(* ===== verification/TcpOutSpec.v ===== *)
(** * lwIP: what TCP keeps and sends

    The sending side of a connection against the stream of bytes that the
    application has written: all that is queued or sent are slices of the
    stream at their places, and every byte that has not been acknowledged is
    in a queue. *)
From Stdlib Require Import ZArith List Lia Bool.
From stdpp Require Import base gmap list.
From S2P Require Import Prelude CMonad Pbuf Inet Netif Tcp TcpIn TcpInSpec.
#[local] Open Scope Z_scope.
#[local] Open Scope cmonad_scope.
#[local] Open Scope record_scope.

(** ** Longer streams *)

Section Longer.
Context (isn : Z).

Lemma size_app S T : size (S ++ T) = size S + size T.
Proof. unfold size. rewrite length_app. lia. Qed.

Lemma slice_longer S T a n : 0 <= a -> 0 <= n -> a + n <= size S -> slice (S ++ T) a n = slice S a n.
Proof.
  intros Ha Hn H. unfold slice, size in *. rewrite skipn_app, firstn_app, length_skipn.
  replace (Z.to_nat n - (length S - Z.to_nat a))%nat with 0%nat by lia. now rewrite firstn_O, app_nil_r.
Qed.

(** What is true of a segment stays true when more is written, or when the
    stream is closed. *)
Lemma carries_longer S T fin fin' seg a : carries isn S fin seg a -> (fin = true -> T = [] /\ fin' = true) ->
  carries isn (S ++ T) fin' seg a.
Proof.
  intros [] Hf. constructor; auto.
  - rewrite size_app. unfold size at 2. lia.
  - rewrite slice_longer by lia. assumption.
  - intros E. destruct (ca_fin E) as [Hfin He]. destruct (Hf Hfin) as [-> ->]. rewrite app_nil_r. auto.
Qed.

(** Flags that TCP does not send for their place in the stream. *)
Lemma carries_flags S fin seg a f : carries isn S fin seg a ->
  has TCP_FIN f = has TCP_FIN (th_flags seg) -> has TCP_SYN f = has TCP_SYN (th_flags seg) ->
  carries isn S fin (seg <| th_flags := f |>) a.
Proof.
  intros [] Ef Es. constructor; cbn; rewrite ?Ef, ?Es; auto. unfold TCP_TCPLEN in *. cbn. now rewrite has_lor, Ef, Es, <- has_lor.
Qed.
End Longer.

(** ** The invariant *)

Section Sender.

(** The sequence number of the first byte, the bytes written so far, and
    whether the stream has been closed. *)
Context (isn : Z) (S : list Z) (fin : bool).

(** The number of packet buffers. *)
Fixpoint clens (l : list tcp_seg) : Z :=
  match l with [] => 0 | s :: l' => Z.of_nat (length (seg_p s)) + clens l' end.

Definition seg_ok (s : tcp_seg) : Prop := (exists a, carries isn S fin s a) /\ has TCP_RST (th_flags s) = false.

(** The positions from [A] to [B] are in the segments. *)
Definition covers (l : list tcp_seg) (A B : Z) : Prop :=
  forall n, A <= n < B -> exists s a, s ∈ l /\ carries isn S fin s a /\ a <= n < a + TCP_TCPLEN s.

Record snd_ok (max : Z) (A N : Z) (p : tcp_pcb) : Prop := SndOk
  { so_lastack : lastack p = u32 (isn + A); so_nxt : snd_nxt p = u32 (isn + N); so_lbb : snd_lbb p = u32 (isn + total S fin);
    so_pos : 0 <= A <= N; so_end : N <= total S fin; so_small : total S fin < 1073741824;
    so_segs : Forall seg_ok (unacked p ++ unsent p); so_covers : covers (unacked p ++ unsent p) A (total S fin);
    so_queuelen : snd_queuelen p = clens (unacked p ++ unsent p); so_max : snd_queuelen p <= max;
    so_mss : 0 < mss p <= TCP_MSS; so_cwnd : 0 < cwnd p < 65536; so_ssthresh : 0 <= ssthresh p < 65536;
    so_infr : has TF_INFR (flags p) = true -> 0 < ssthresh p; so_wnd : 0 <= snd_wnd p < 65536;
    so_buf : 0 <= snd_buf p < 65536 }.

Lemma clens_app l m : clens (l ++ m) = clens l + clens m.
Proof. induction l as [|s l IH]; cbn; [reflexivity|]. rewrite IH. lia. Qed.

Lemma clens_nonneg l : 0 <= clens l.
Proof. induction l; cbn; lia. Qed.

Lemma clens_perm l m : l ≡ₚ m -> clens l = clens m.
Proof. induction 1; cbn; lia. Qed.

Lemma covers_incl l m A B : (forall s, s ∈ l -> s ∈ m) -> covers l A B -> covers m A B.
Proof. intros H Hc n Hn. destruct (Hc n Hn) as (s & a & Hs & Hr). exists s, a. split; [auto|exact Hr]. Qed.

Lemma covers_app l m A B C : covers l A B -> covers m B C -> covers (l ++ m) A C.
Proof.
  intros Hl Hm n Hn. destruct (Z.lt_ge_cases n B) as [H|H].
  - destruct (Hl n ltac:(lia)) as (s & a & Hs & Hr). exists s, a. rewrite elem_of_app. auto.
  - destruct (Hm n ltac:(lia)) as (s & a & Hs & Hr). exists s, a. rewrite elem_of_app. auto.
Qed.

Lemma covers_none l A B : B <= A -> covers l A B.
Proof. intros H n Hn. lia. Qed.

Lemma covers_one s a : carries isn S fin s a -> covers [s] a (a + TCP_TCPLEN s).
Proof. intros H n Hn. exists s, a. split; [now apply list_elem_of_singleton|]. auto. Qed.

(** ** The queues *)

Lemma insert_seg_perm s l : insert_seg s l ≡ₚ s :: l.
Proof.
  induction l as [|x l IH]; cbn; [reflexivity|]. destruct (TCP_SEQ_LT _ _); [|reflexivity].
  rewrite IH. apply Permutation_swap.
Qed.

Lemma put_unacked_perm s l : put_unacked s l ≡ₚ s :: l.
Proof.
  unfold put_unacked. destruct (last l) as [u|] eqn:E.
  - destruct (TCP_SEQ_LT _ _); [apply insert_seg_perm|]. symmetry. apply Permutation_cons_append.
  - apply last_None in E. now subst.
Qed.

(** A segment is replaced by one that carries the same. *)
Lemma covers_replace l m s s' A B : (forall a, carries isn S fin s a -> carries isn S fin s' a) -> TCP_TCPLEN s' = TCP_TCPLEN s ->
  covers (l ++ s :: m) A B -> covers (s' :: l ++ m) A B.
Proof.
  intros Hc El H n Hn. destruct (H n Hn) as (x & a & Hx & Ha & Hr). rewrite elem_of_app, elem_of_cons in Hx.
  destruct Hx as [Hx|[->|Hx]].
  - exists x, a. rewrite elem_of_cons, elem_of_app. auto.
  - exists s', a. rewrite elem_of_cons, El. auto.
  - exists x, a. rewrite elem_of_cons, elem_of_app. auto.
Qed.

(** Another segment of the same place, with other flags. *)
Lemma seg_ok_ack s : seg_ok s -> seg_ok (s <| th_flags := Z.lor (th_flags s) TCP_ACK |>).
Proof.
  intros [(a & Hc) Hr]. split.
  - exists a. apply carries_flags; [exact Hc| |].
    + exact (has_set 0 4 (th_flags s) ltac:(lia) ltac:(lia)).
    + exact (has_set 1 4 (th_flags s) ltac:(lia) ltac:(lia)).
  - cbn. rewrite <- Hr. exact (has_set 2 4 (th_flags s) ltac:(lia) ltac:(lia)).
Qed.

(** ** Output *)

(** What is sent: a slice of the stream at its place, or no data at all. *)
Definition seg_of (k : tcp_packet) : tcp_seg := TcpSeg [pk_data k] (Z.of_nat (length (pk_data k))) 0 (pk_seqno k) (pk_flags k).

Definition packet_ok (k : tcp_packet) : Prop := bare_ack k \/ exists a, carries isn S fin (seg_of k) a.

(** What is sent by the functions of this section. *)
Definition sends (c c' : conn) : Prop :=
  (exists ks, wire c' = wire c ++ ks /\ Forall packet_ok ks) /\ in_input c' = in_input c /\ tcp_ticks c' = tcp_ticks c.

Lemma sends_refl c : sends c c.
Proof. split; [|auto]. exists []. now rewrite app_nil_r. Qed.

Lemma sends_trans c1 c2 c3 : sends c1 c2 -> sends c2 c3 -> sends c1 c3.
Proof.
  intros [(k1 & E1 & H1) [I1 T1]] [(k2 & E2 & H2) [I2 T2]]. split; [|split; congruence].
  exists (k1 ++ k2). rewrite E2, E1, app_assoc. split; [reflexivity|]. now apply Forall_app.
Qed.

Lemma sends_pcb c p : sends c (c <| pcb := p |>).
Proof. split; [|auto]. exists []. now rewrite app_nil_r. Qed.

Lemma sends_answers c c' : answers c c' -> sends c c'.
Proof.
  intros [(ks & E & H) Hi Ht]. split; [|auto]. exists ks. split; [exact E|]. eapply Forall_impl; [exact H|]. now left.
Qed.

(** A packet made from a segment. *)
Lemma packet_of_seg s k a : carries isn S fin s a -> pk_data k = concat (seg_p s) -> pk_seqno k = seg_seqno s ->
  pk_flags k = th_flags s -> packet_ok k.
Proof.
  intros Hc Ed En Ef. right. exists a. pose proof (carries_tot_len _ _ _ _ _ Hc) as Et. unfold tot_len in Et.
  destruct Hc. unfold seg_of. rewrite Ed, En, Ef, Et. constructor; cbn; auto. now rewrite app_nil_r.
Qed.

Context (netif_list : list netif) (netif_default : option netif).

(** What [tcp_output_segment] does to the connection. *)
Definition same_sender (p p' : tcp_pcb) : Prop :=
  unacked p' = unacked p /\ unsent p' = unsent p /\ lastack p' = lastack p /\ snd_nxt p' = snd_nxt p /\ snd_lbb p' = snd_lbb p /\
  snd_queuelen p' = snd_queuelen p /\ mss p' = mss p /\ cwnd p' = cwnd p /\ ssthresh p' = ssthresh p /\ snd_wnd p' = snd_wnd p /\
  snd_buf p' = snd_buf p /\ has TF_INFR (flags p') = has TF_INFR (flags p) /\ state p' = state p.

Lemma output_segment_spec seg c a : carries isn S fin seg a ->
  sends c (tcp_output_segment netif_list netif_default seg c) /\ same_sender (pcb c) (pcb (tcp_output_segment netif_list netif_default seg c)).
Proof.
  intros Hc. unfold tcp_output_segment.
  set (p := (pcb c) <| rcv_ann_right_edge := _ |>). assert (Hp : same_sender (pcb c) p) by (repeat split). clearbody p.
  set (r := if ip_addr_isany (local_ip p) then _ else _).
  assert (Hr : match r with None => True | Some p' => same_sender (pcb c) p' end).
  { unfold r. destruct (ip_addr_isany _); [|exact Hp]. destruct (ip_route _ _ _); [exact Hp|exact I]. }
  destruct r as [p'|]; [|split; [apply sends_pcb|exact Hp]]. clear Hp p.
  set (p1 := if rtime p' =? -1 then _ else _). assert (H1 : same_sender (pcb c) p1) by (unfold p1; destruct (rtime p' =? -1); exact Hr).
  set (p2 := if rttest p1 =? 0 then _ else _). assert (H2 : same_sender (pcb c) p2) by (clearbody p1; unfold p2; destruct (rttest p1 =? 0); exact H1).
  split; [|exact H2]. split; [|auto]. cbn. eexists. split; [reflexivity|]. constructor; [|constructor].
  eapply packet_of_seg; [exact Hc|reflexivity..].
Qed.

Lemma tcplen_flags seg f : has TCP_FIN f = has TCP_FIN (th_flags seg) -> has TCP_SYN f = has TCP_SYN (th_flags seg) ->
  TCP_TCPLEN (seg <| th_flags := f |>) = TCP_TCPLEN seg.
Proof. intros Ef Es. unfold TCP_TCPLEN. cbn. now rewrite !has_lor, Ef, Es. Qed.

Lemma ack_flag_fin f : has TCP_FIN (Z.lor f TCP_ACK) = has TCP_FIN f.
Proof. exact (has_set 0 4 f ltac:(lia) ltac:(lia)). Qed.

Lemma ack_flag_syn f : has TCP_SYN (Z.lor f TCP_ACK) = has TCP_SYN f.
Proof. exact (has_set 1 4 f ltac:(lia) ltac:(lia)). Qed.

(** Clearing the flags of acknowledgements leaves the others. *)
Lemma infr_clear f : has TF_INFR (without_flag (Z.lor TF_ACK_DELAY TF_ACK_NOW) f) = has TF_INFR f.
Proof.
  unfold without_flag, has. rewrite <- Z.land_assoc. f_equal.
Qed.

(** The first segment of [unsent] goes to [unacked], as [seg']. *)
Lemma snd_ok_moved max A N p p' seg seg' l a :
  snd_ok max A N p -> unsent p = seg :: l -> carries isn S fin seg a ->
  (forall b, carries isn S fin seg b -> carries isn S fin seg' b) -> seg_ok seg' -> TCP_TCPLEN seg' = TCP_TCPLEN seg -> seg_p seg' = seg_p seg ->
  same_sender (p <| unsent := l |> <| unacked := put_unacked seg' (unacked p) |> <| snd_nxt := u32 (isn + Z.max N (a + TCP_TCPLEN seg)) |>) p' ->
  snd_ok max A (Z.max N (a + TCP_TCPLEN seg)) p'.
Proof.
  intros [Hla Hn Hlb Hpos Hend Hsm Hs Hc Hq Hm Hmss Hcw Hss Hif Hw Hb] Eu Ha Hcar Hok El Ep
    (E1 & E2 & E3 & E4 & E5 & E6 & E7 & E8 & E9 & E10 & E11 & E12 & E13). cbn in *.
  assert (Hperm : unacked p' ++ unsent p' ≡ₚ seg' :: unacked p ++ l).
  { rewrite E1, E2. now rewrite put_unacked_perm. }
  pose proof (carries_total _ _ _ _ _ Ha) as Htot. constructor; try congruence; try lia.
  - rewrite Hperm. rewrite Eu in Hs. apply Forall_app in Hs. destruct Hs as [Hs1 Hs2]. apply Forall_cons in Hs2.
    constructor; [exact Hok|]. apply Forall_app. split; [exact Hs1|apply Hs2].
  - rewrite Eu in Hc. apply (covers_replace _ _ _ seg') in Hc; [|exact Hcar|exact El]. eapply covers_incl; [|exact Hc].
    intros s. now rewrite Hperm.
  - rewrite E6, Hq, Eu, (clens_perm _ _ Hperm), clens_app. cbn. rewrite clens_app, Ep. lia.
  - rewrite E9, E12. exact Hif.
Qed.

Lemma output_loop_spec max wnd l : forall c A N, snd_ok max A N (pcb c) -> unsent (pcb c) = l ->
  guarded False (output_loop netif_list netif_default wnd l c) (fun c' => exists N', snd_ok max A N' (pcb c') /\ sends c c' /\ N <= N').
Proof.
  assert (Hdone : forall c A N, snd_ok max A N (pcb c) -> guarded False (ret c) (fun c' => exists N', snd_ok max A N' (pcb c') /\ sends c c' /\ N <= N')).
  { intros c A N H. apply guarded_ret. exists N. split; [exact H|]. split; [apply sends_refl|lia]. }
  induction l as [|seg l IH]; intros c A N H Eu; cbn [output_loop]; [now apply (Hdone c A N)|].
  destruct (negb _); [now apply (Hdone c A N)|].
  pose proof (so_segs _ _ _ _ H) as Hs. rewrite Eu in Hs. apply Forall_app in Hs. destruct Hs as [_ Hs]. apply Forall_cons in Hs.
  destruct Hs as [[(a & Ha) Hrst] _]. rewrite Hrst. cbn [negb]. change (lwip_assert true) with (ret tt). rewrite bind_ret.
  destruct (_ && _); [now apply (Hdone c A N)|].
  set (seg' := if bool_decide (state ((pcb c) <| unsent := l |>) = SYN_SENT) then seg else _).
  assert (Hseg : (forall b, carries isn S fin seg b -> carries isn S fin seg' b) /\ seg_ok seg' /\ TCP_TCPLEN seg' = TCP_TCPLEN seg /\
    seg_p seg' = seg_p seg /\ seg_seqno seg' = seg_seqno seg).
  { unfold seg'. destruct (bool_decide _); [split; [auto|]; split; [split; eauto|auto]|]. split; [|split; [apply seg_ok_ack; split; eauto|]].
    - intros b Hb. apply carries_flags; [exact Hb|apply ack_flag_fin|apply ack_flag_syn].
    - split; [apply tcplen_flags; [apply ack_flag_fin|apply ack_flag_syn]|auto]. }
  destruct Hseg as (Hcar & Hok & El & Ep & Es). clearbody seg'.
  set (p1 := if bool_decide _ then (pcb c) <| unsent := l |> else _).
  assert (Hp1 : same_sender ((pcb c) <| unsent := l |>) p1).
  { unfold p1. destruct (bool_decide _); repeat split. cbn. apply infr_clear. }
  clearbody p1.
  destruct (output_segment_spec seg' (c <| pcb := p1 |>) a (Hcar a Ha)) as [Hsend Hsame].
  set (c1 := tcp_output_segment netif_list netif_default seg' (c <| pcb := p1 |>)) in *. clearbody c1.
  cbv zeta. rewrite El, Es. pose proof (ca_some _ _ _ _ _ Ha). destruct (Z.ltb_spec 0 (TCP_TCPLEN seg)); [|lia].
  set (p2 := if TCP_SEQ_LT _ _ then _ else _).
  assert (Hall : same_sender ((pcb c) <| unsent := l |> <| unacked := put_unacked seg' (unacked (pcb c)) |>
                                <| snd_nxt := u32 (isn + Z.max N (a + TCP_TCPLEN seg)) |>)
                   (p2 <| unacked := put_unacked seg' (unacked p2) |>)).
  { destruct Hp1 as (E1 & E2 & E3 & E4 & E5 & E6 & E7 & E8 & E9 & E10 & E11 & E12 & E13).
    destruct Hsame as (F1 & F2 & F3 & F4 & F5 & F6 & F7 & F8 & F9 & F10 & F11 & F12 & F13). cbn in *.
    pose proof (so_nxt _ _ _ _ H) as En. pose proof (carries_total _ _ _ _ _ Ha) as Ht. pose proof (so_small _ _ _ _ H).
    pose proof (ca_pos _ _ _ _ _ Ha). pose proof (so_pos _ _ _ _ H). pose proof (so_end _ _ _ _ H).
    assert (Hat : at_pos isn (snd_nxt (pcb c1)) N) by (rewrite F4, E4, En; apply at_pos_isn).
    assert (Hat2 : at_pos isn (u32 (seg_seqno seg + TCP_TCPLEN seg)) (a + TCP_TCPLEN seg)) by (apply at_pos_u32, at_pos_add; eapply carries_start; eauto).
    unfold p2. rewrite (seq_lt isn Hat Hat2) by lia.
    assert (Eat : u32 (seg_seqno seg + TCP_TCPLEN seg) = u32 (isn + (a + TCP_TCPLEN seg))).
    { rewrite (ca_seqno _ _ _ _ _ Ha). apply (at_pos_inj isn _ _ (a + TCP_TCPLEN seg)); [apply at_pos_add, at_pos_isn|exists 0; lia]. }
    destruct (Z.ltb_spec N (a + TCP_TCPLEN seg)) as [Hlt|Hge]; unfold same_sender; cbn; rewrite ?F1, ?E1, ?F2, ?E2.
    - rewrite Z.max_r, Eat by lia. repeat split; congruence.
    - rewrite Z.max_l by lia. repeat split; congruence. }
  pose proof (snd_ok_moved max A N _ _ seg seg' l a H Eu Ha Hcar Hok El Ep Hall) as Hok2.
  assert (El2 : unsent (p2 <| unacked := put_unacked seg' (unacked p2) |>) = l) by apply Hall.
  clearbody p2. set (c2 := c1 <| pcb := p2 <| unacked := put_unacked seg' (unacked p2) |> |>).
  assert (Hc2 : pcb c2 = p2 <| unacked := put_unacked seg' (unacked p2) |>) by reflexivity.
  rewrite <- Hc2 in Hok2, El2. eapply guarded_weaken; [apply (IH c2 A _ Hok2 El2)|].
  intros c' (N' & G1 & G2 & G3). exists N'. split; [exact G1|]. split; [|lia].
  eapply sends_trans; [|exact G2]. eapply sends_trans; [|apply sends_pcb]. eapply sends_trans; [apply sends_pcb|exact Hsend].
Qed.

(** Other flags, which TCP may set at any time. *)
Lemma snd_ok_same max A N p p' : snd_ok max A N p -> same_sender p p' -> snd_ok max A N p'.
Proof.
  intros [] (E1 & E2 & E3 & E4 & E5 & E6 & E7 & E8 & E9 & E10 & E11 & E12 & E13).
  constructor; rewrite ?E1, ?E2, ?E3, ?E4, ?E5, ?E6, ?E7, ?E8, ?E9, ?E10, ?E11, ?E12; assumption.
Qed.

Lemma same_sender_refl p : same_sender p p.
Proof. repeat split. Qed.

(** An answer does not touch what is sent. *)
Lemma send_empty_ack_sender H max A N c : snd_ok max A N (pcb c) ->
  guarded H (tcp_send_empty_ack c) (fun '(_, c') => snd_ok max A N (pcb c') /\ sends c c').
Proof.
  intros Hok. unfold tcp_send_empty_ack. apply guarded_bind with (fun _ => True); [now apply guarded_malloc|]. intros [|] _; cbn [negb].
  - apply guarded_ret. split.
    + eapply snd_ok_same; [exact Hok|]. repeat split. cbn. apply infr_clear.
    + split; [|auto]. cbn. eexists. split; [reflexivity|]. constructor; [|constructor]. now left.
  - apply guarded_ret. split; [exact Hok|apply sends_refl].
Qed.

Lemma output_spec max A N c : snd_ok max A N (pcb c) ->
  guarded False (tcp_output netif_list netif_default c) (fun '(err, c') => exists N', snd_ok max A N' (pcb c') /\ sends c c' /\ N <= N').
Proof.
  intros Hok. unfold tcp_output. destruct (in_input c).
  { apply guarded_ret. exists N. split; [exact Hok|]. split; [apply sends_refl|lia]. }
  destruct (_ && _).
  { eapply guarded_weaken; [exact (send_empty_ack_sender False max A N c Hok)|]. intros [e c'] [H1 H2]. exists N. split; [exact H1|]. split; [exact H2|lia]. }
  eapply guarded_bind; [apply (output_loop_spec max _ _ c A N Hok eq_refl)|]. intros c1 (N' & H1 & H2 & H3).
  apply guarded_ret. exists N'. split; [|split; [eapply sends_trans; [exact H2|apply sends_pcb]|exact H3]].
  eapply snd_ok_same; [exact H1|]. cbn.
  set (p := match unsent (pcb c1) with [] => _ | _ => _ end).
  assert (Hp : same_sender (pcb c1) p) by (unfold p; destruct (unsent (pcb c1)); [|destruct (_ && _)]; repeat split).
  clearbody p. destruct Hp as (E1 & E2 & E3 & E4 & E5 & E6 & E7 & E8 & E9 & E10 & E11 & E12 & E13).
  repeat split; cbn; try assumption. rewrite <- E12. unfold without_flag, has. rewrite <- Z.land_assoc. reflexivity.
Qed.

(** ** Acknowledgements *)

Definition same_receiver (p p' : tcp_pcb) : Prop :=
  rcv_nxt p' = rcv_nxt p /\ rcv_wnd p' = rcv_wnd p /\ ooseq p' = ooseq p /\ state p' = state p /\
  refused_data p' = refused_data p /\ recv p' = recv p.

Lemma same_receiver_refl p : same_receiver p p.
Proof. repeat split. Qed.

Lemma same_receiver_trans p1 p2 p3 : same_receiver p1 p2 -> same_receiver p2 p3 -> same_receiver p1 p3.
Proof. unfold same_receiver. intuition congruence. Qed.

Lemma clens_in s l : s ∈ l -> Z.of_nat (length (seg_p s)) <= clens l.
Proof. induction 1; cbn; [pose proof (clens_nonneg l)|]; lia. Qed.

(** A segment whose end is acknowledged leaves the queues. *)
Lemma drop_segment_spec max A N p p1 s a rest :
  snd_ok max A N p -> max < 256 -> carries isn S fin s a -> a + TCP_TCPLEN s <= A -> unacked p ++ unsent p ≡ₚ s :: rest ->
  unacked p1 ++ unsent p1 = rest -> same_sender (p <| unacked := unacked p1 |> <| unsent := unsent p1 |>) p1 ->
  guarded False (drop_segment s p1) (fun p' => snd_ok max A N p' /\ unacked p' = unacked p1 /\ unsent p' = unsent p1 /\ same_receiver p1 p').
Proof.
  intros Hok Hmax Hc Hend Hperm Erest Hsame. pose proof Hok as [Hla Hn Hlb Hpos He Hsm Hs Hcov Hq Hm Hmss Hcw Hss Hif Hw Hb].
  destruct Hsame as (E1 & E2 & E3 & E4 & E5 & E6 & E7 & E8 & E9 & E10 & E11 & E12 & E13). cbn in *.
  pose proof (clens_perm _ _ Hperm) as Ecl. cbn in Ecl. pose proof (clens_nonneg rest).
  assert (Hu8 : u8 (Z.of_nat (length (seg_p s))) = Z.of_nat (length (seg_p s))) by (unfold u8; rewrite Z.mod_small; lia).
  unfold drop_segment. rewrite Hu8. apply guarded_bind with (fun _ => True).
  { apply guarded_assert; [|auto]. intros E. apply Z.leb_gt in E. lia. }
  intros _ _.
  set (p2 := if negb (acked p1 =? 0) && has TCP_FIN (th_flags s) then p1 <| acked := u16 (acked p1 - 1) |> else p1).
  assert (Hp2 : same_sender p1 p2 /\ same_receiver p1 p2) by (unfold p2; destruct (_ && _); split; repeat split).
  clearbody p2. destruct Hp2 as [(F1 & F2 & F3 & F4 & F5 & F6 & F7 & F8 & F9 & F10 & F11 & F12 & F13) Hrecv].
  assert (Eq : u16 (snd_queuelen p2 - Z.of_nat (length (seg_p s))) = clens rest).
  { rewrite F6, E6, Hq, Ecl. unfold u16. rewrite Z.mod_small; lia. }
  rewrite Eq. cbn. apply guarded_bind with (fun _ => True).
  { apply guarded_assert; [|auto]. rewrite F1, F2, Erest. destruct rest; cbn; [discriminate|].
    destruct (_ =? 0); discriminate. }
  intros _ _. apply guarded_ret. split; [|cbn; auto].
  constructor; cbn; rewrite ?F1, ?F2, ?F3, ?F4, ?F5, ?F7, ?F8, ?F9, ?F10, ?F11, ?F12, ?E3, ?E4, ?E5, ?E7, ?E8, ?E9, ?E10, ?E11, ?E12, ?Erest;
    try assumption; try lia.
  - rewrite Hperm in Hs. now apply Forall_cons in Hs.
  - intros n Hn'. destruct (Hcov n Hn') as (x & b & Hx & Hb' & Hr). rewrite Hperm in Hx. apply elem_of_cons in Hx.
    destruct Hx as [->|Hx]; [|exists x, b; auto].
    pose proof (eqb_pos isn _ _ a b (ca_seqno _ _ _ _ _ Hc) (ca_seqno _ _ _ _ _ Hb')) as X.
    pose proof (ca_pos _ _ _ _ _ Hc). pose proof (ca_pos _ _ _ _ _ Hb'). pose proof (carries_total _ _ _ _ _ Hb').
    pose proof (ca_some _ _ _ _ _ Hb'). specialize (X ltac:(lia)). rewrite Z.eqb_refl in X.
    symmetry in X. apply Z.eqb_eq in X. lia.
Qed.

(** The segments in front whose last position is in front of [y] are gone from
    the queue, and no others. *)
Definition cleared (y : Z) (l l' : list tcp_seg) : Prop :=
  exists d, l = d ++ l' /\ Forall (fun s => exists a, carries isn S fin s a /\ a + TCP_TCPLEN s <= y) d /\
    match l' with [] => True | s :: _ => exists a, carries isn S fin s a /\ y < a + TCP_TCPLEN s end.

Lemma cleared_nil y : cleared y [] [].
Proof. exists []. auto. Qed.

Lemma cleared_stop y s l a : carries isn S fin s a -> y < a + TCP_TCPLEN s -> cleared y (s :: l) (s :: l).
Proof. exists []. eauto. Qed.

Lemma cleared_cons y s l l' a : carries isn S fin s a -> a + TCP_TCPLEN s <= y -> cleared y l l' -> cleared y (s :: l) l'.
Proof. intros Ha Hle (d & -> & Hd & Hl). exists (s :: d). split; [reflexivity|]. split; [|exact Hl]. constructor; [|exact Hd]. eauto. Qed.

Section Ack.
Context (i : tcp_in) (y : Z).

(** The acknowledgement is of the position [y]. *)
Context (Hy : at_pos isn (ackno i) y).

Lemma unacked_loop_spec max A N l : forall p, snd_ok max A N p -> max < 256 -> unacked p = l -> y <= A -> -1073741824 < y - N ->
  guarded False (unacked_loop i l p) (fun p' => snd_ok max A N p' /\ same_receiver p p' /\
    cleared y (unacked p) (unacked p') /\ unsent p' = unsent p).
Proof.
  induction l as [|s l IH]; intros p Hok Hmax Eu HyA Hnear; cbn [unacked_loop].
  { apply guarded_ret. rewrite Eu. split; [exact Hok|]. split; [apply same_receiver_refl|]. auto using cleared_nil. }
  pose proof Hok as [Hla Hn Hlb Hpos He Hsm Hs _ _ _ _ _ _ _ _ _]. rewrite Eu in Hs. apply Forall_cons in Hs. destruct Hs as [[(a & Ha) _] _].
  pose proof (carries_total _ _ _ _ _ Ha). pose proof (ca_pos _ _ _ _ _ Ha). pose proof (ca_some _ _ _ _ _ Ha).
  rewrite (seq_leq isn (at_pos_add isn _ _ (TCP_TCPLEN s) (carries_start _ _ _ _ _ Ha)) Hy) by lia.
  destruct (Z.leb_spec (a + TCP_TCPLEN s) y) as [Hle|Hgt].
  2:{ apply guarded_ret. rewrite Eu. split; [exact Hok|]. split; [apply same_receiver_refl|]. eauto using cleared_stop. }
  eapply guarded_bind.
  - apply (drop_segment_spec max A N p (p <| unacked := l |>) s a (l ++ unsent p) Hok Hmax Ha); cbn; [lia| |reflexivity|repeat split].
    now rewrite Eu.
  - intros p' (K1 & K2 & K3 & K4). eapply guarded_weaken; [apply (IH p' K1 Hmax K2 HyA Hnear)|].
    intros p2 (G1 & G2 & G3 & G4). split; [exact G1|]. split; [eapply same_receiver_trans; [|exact G2]; exact K4|].
    rewrite Eu. rewrite K2 in G3. split; [eapply cleared_cons; eauto|now rewrite G4, K3].
Qed.

Lemma unsent_loop_spec max A N l : forall p, snd_ok max A N p -> max < 256 -> unsent p = l -> (y <= N -> y <= A) -> -1073741824 < y - N < 1073741824 ->
  guarded False (unsent_loop i l p) (fun p' => snd_ok max A N p' /\ same_receiver p p' /\
    (y <= N -> cleared y (unsent p) (unsent p')) /\ unacked p' = unacked p).
Proof.
  induction l as [|s l IH]; intros p Hok Hmax Eu HyA Hnear; cbn [unsent_loop].
  { apply guarded_ret. rewrite Eu. split; [exact Hok|]. split; [apply same_receiver_refl|]. auto using cleared_nil. }
  pose proof Hok as [Hla Hn Hlb Hpos He Hsm Hs _ _ _ _ _ _ _ _ _]. rewrite Eu in Hs. apply Forall_app in Hs. destruct Hs as [_ Hs].
  apply Forall_cons in Hs. destruct Hs as [[(a & Ha) _] _].
  pose proof (carries_total _ _ _ _ _ Ha). pose proof (ca_pos _ _ _ _ _ Ha). pose proof (ca_some _ _ _ _ _ Ha).
  rewrite (seq_between isn _ _ _ y (a + TCP_TCPLEN s) N Hy (at_pos_add isn _ _ (TCP_TCPLEN s) (carries_start _ _ _ _ _ Ha))); [|rewrite Hn; apply at_pos_isn|lia|lia].
  destruct (Z.leb_spec (a + TCP_TCPLEN s) y) as [Hle|Hgt], (Z.leb_spec y N) as [HyN|HyN]; cbn [andb].
  2,3,4: apply guarded_ret; rewrite Eu; (split; [exact Hok|]); (split; [apply same_receiver_refl|]); (split; [intros; first [lia|eapply cleared_stop; eauto]|reflexivity]).
  specialize (HyA HyN). eapply guarded_bind.
  - apply (drop_segment_spec max A N p (p <| unsent := l |>) s a (unacked p ++ l) Hok Hmax Ha); cbn; [lia| |reflexivity|repeat split].
    rewrite Eu. symmetry. apply Permutation_middle.
  - intros p' (K1 & K2 & K3 & K4). eapply guarded_weaken; [apply (IH p' K1 Hmax K3 (fun _ => HyA) Hnear)|].
    intros p2 (G1 & G2 & G3 & G4). split; [exact G1|]. split; [eapply same_receiver_trans; [|exact G2]; exact K4|].
    rewrite Eu. rewrite K3 in G3. split; [intros Hy'; eapply cleared_cons; eauto|now rewrite G4, K2].
Qed.
End Ack.

(** The same segments in other queues. *)
Lemma snd_ok_perm max A N p p' : snd_ok max A N p -> unacked p' ++ unsent p' ≡ₚ unacked p ++ unsent p ->
  same_sender (p <| unacked := unacked p' |> <| unsent := unsent p' |>) p' -> snd_ok max A N p'.
Proof.
  intros [] Hp (E1 & E2 & E3 & E4 & E5 & E6 & E7 & E8 & E9 & E10 & E11 & E12 & E13). cbn in *.
  constructor; rewrite ?E3, ?E4, ?E5, ?E6, ?E7, ?E8, ?E9, ?E10, ?E11, ?E12; try assumption.
  - now rewrite Hp.
  - eapply covers_incl; [|eassumption]. intros s. now rewrite Hp.
  - now rewrite (clens_perm _ _ Hp).
Qed.

Lemma rexmit_perm p : unacked (tcp_rexmit p) ++ unsent (tcp_rexmit p) ≡ₚ unacked p ++ unsent p.
Proof.
  unfold tcp_rexmit. destruct (unacked p) as [|s l] eqn:E; [now rewrite E|]. cbn. rewrite insert_seg_perm.
  symmetry. apply Permutation_middle.
Qed.

Lemma rexmit_spec max A N p : snd_ok max A N p -> snd_ok max A N (tcp_rexmit p) /\ same_receiver p (tcp_rexmit p).
Proof.
  intros Hok. split.
  - apply (snd_ok_perm max A N p); [exact Hok|apply rexmit_perm|]. unfold tcp_rexmit. destruct (unacked p); repeat split.
  - unfold tcp_rexmit. destruct (unacked p); repeat split.
Qed.

(** The congestion window, and the threshold, stay in their ranges. *)
Lemma snd_ok_cwnd max A N p w t : snd_ok max A N p -> 0 < w < 65536 -> 0 < t < 65536 ->
  snd_ok max A N (p <| ssthresh := t |> <| cwnd := w |>) /\ snd_ok max A N (p <| cwnd := w |>) /\
  snd_ok max A N (p <| ssthresh := t |> <| cwnd := w |> <| flags := Z.lor (flags p) TF_INFR |>).
Proof. intros [] Hw Ht. split; [|split]; constructor; cbn; auto; lia. Qed.

Lemma inflate_spec max A N p : snd_ok max A N p -> snd_ok max A N (inflate_cwnd p) /\ same_receiver p (inflate_cwnd p).
Proof.
  intros Hok. unfold inflate_cwnd. destruct (Z.ltb_spec (cwnd p) (u16 (cwnd p + mss p))) as [H|H]; [|split; [exact Hok|repeat split]].
  split; [|repeat split]. pose proof (so_cwnd _ _ _ _ Hok). pose proof (Z.mod_pos_bound (cwnd p + mss p) 65536).
  apply (snd_ok_cwnd max A N p _ 1 Hok); unfold u16 in *; lia.
Qed.

Lemma rexmit_fast_spec max A N p : snd_ok max A N p -> snd_ok max A N (tcp_rexmit_fast p) /\ same_receiver p (tcp_rexmit_fast p).
Proof.
  intros Hok. unfold tcp_rexmit_fast. destruct (unacked p) as [|s l] eqn:E; [split; [exact Hok|repeat split]|].
  destruct (has TF_INFR (flags p)); [split; [exact Hok|repeat split]|].
  destruct (rexmit_spec max A N p Hok) as [H1 H2]. set (q := tcp_rexmit p) in *. clearbody q.
  pose proof (so_cwnd _ _ _ _ H1). pose proof (so_wnd _ _ _ _ H1). pose proof (so_mss _ _ _ _ H1) as Hm. unfold TCP_MSS in Hm.
  set (h := if snd_wnd q <? cwnd q then snd_wnd q / 2 else cwnd q / 2).
  assert (Hh : 0 <= h < 32768) by (unfold h; destruct (_ <? _); split; [apply Z.div_pos|apply Z.div_lt_upper_bound|apply Z.div_pos|apply Z.div_lt_upper_bound]; lia).
  clearbody h. cbn. set (t := if h <? 2 * mss q then u16 (2 * mss q) else h).
  assert (Et : 0 < t < 32768) by (unfold t, u16; destruct (Z.ltb_spec h (2 * mss q)); [rewrite Z.mod_small; lia|lia]).
  assert (Ew : u16 (t + 3 * mss q) = t + 3 * mss q) by (unfold u16; rewrite Z.mod_small; lia).
  destruct (Z.ltb_spec h (2 * mss q)) as [Hlt|Hge].
  - replace t with (u16 (2 * mss q)) in * by reflexivity. cbn. split; [|exact H2]. rewrite Ew.
    apply (snd_ok_cwnd max A N q); lia || exact H1.
  - replace t with h in * by reflexivity. cbn. split; [|exact H2]. rewrite Ew. apply (snd_ok_cwnd max A N q); lia || exact H1.
Qed.

Section Ack2.
Context (i : tcp_in) (y : Z) (Hy : ackno i = u32 (isn + y)) (Hwnd : 0 <= in_wnd i < 65536).

Lemma update_window_spec max A N p : snd_ok max A N p -> snd_ok max A N (update_window i p) /\ same_receiver p (update_window i p).
Proof.
  intros Hok. unfold update_window. destruct (_ || _); [|split; [exact Hok|repeat split]]. cbn.
  destruct (_ && _); (split; [destruct Hok; constructor; cbn; auto|repeat split]).
Qed.

Lemma snd_ok_dupacks max A N p d : snd_ok max A N p -> snd_ok max A N (p <| dupacks := d |>) /\ same_receiver p (p <| dupacks := d |>).
Proof. intros []. split; [constructor; cbn; auto|repeat split]. Qed.

Lemma old_ack_spec max A N e p : snd_ok max A N p -> snd_ok max A N (old_ack i e p) /\ same_receiver p (old_ack i e p).
Proof.
  intros Hok. unfold old_ack. set (q := p <| acked := 0 |>).
  assert (Hq : snd_ok max A N q /\ same_receiver p q) by (split; [destruct Hok; constructor; cbn; auto|repeat split]).
  clearbody q. destruct Hq as [Hq Hpq]. destruct (_ && _ && _ && _).
  - destruct (snd_ok_dupacks max A N q (u8 (dupacks q + 1)) Hq) as [H1 H2]. set (r := q <| dupacks := _ |>) in *. clearbody r.
    destruct (3 <? dupacks r).
    + destruct (inflate_spec max A N r H1) as [H3 H4]. split; [exact H3|]. eapply same_receiver_trans; [exact Hpq|]. eapply same_receiver_trans; eauto.
    + destruct (dupacks r =? 3).
      * destruct (rexmit_fast_spec max A N r H1) as [H3 H4]. split; [exact H3|]. eapply same_receiver_trans; [exact Hpq|]. eapply same_receiver_trans; eauto.
      * split; [exact H1|]. eapply same_receiver_trans; eauto.
  - destruct (snd_ok_dupacks max A N q 0 Hq) as [H1 H2]. split; [exact H1|]. eapply same_receiver_trans; eauto.
Qed.

Lemma open_cwnd_spec max A N p : snd_ok max A N p ->
  guarded False (open_cwnd p) (fun p' => snd_ok max A N p' /\ same_receiver p p' /\ unacked p' = unacked p /\ unsent p' = unsent p).
Proof.
  intros Hok. unfold open_cwnd. destruct (_ <=? _); [|apply guarded_ret; split; [exact Hok|repeat split]].
  destruct (cwnd p <? ssthresh p).
  { apply guarded_ret. destruct (inflate_spec max A N p Hok). split; [assumption|]. split; [assumption|].
    unfold inflate_cwnd. now destruct (_ <? _). }
  pose proof (so_cwnd _ _ _ _ Hok). destruct (Z.eqb_spec (cwnd p) 0); [lia|]. apply guarded_ret.
  destruct (Z.ltb_spec (cwnd p) (u16 (cwnd p + mss p * mss p / cwnd p))) as [H1|H1]; [|split; [exact Hok|repeat split]].
  split; [|repeat split]. pose proof (Z.mod_pos_bound (cwnd p + mss p * mss p / cwnd p) 65536).
  apply (snd_ok_cwnd max A N p _ 1 Hok); unfold u16 in *; lia.
Qed.

Lemma ackno_at : at_pos isn (ackno i) y.
Proof. rewrite Hy. apply at_pos_isn. Qed.

Lemma new_ack_spec max A N p : snd_ok max A N p -> max < 256 -> A < y <= N ->
  guarded False (new_ack i p) (fun p' => snd_ok max y N p' /\ same_receiver p p' /\
    cleared y (unacked p) (unacked p') /\ unsent p' = unsent p).
Proof.
  intros Hok Hmax Hr. unfold new_ack.
  set (p1 := if has TF_INFR (flags p) then _ else p).
  assert (Q1 : unacked p1 = unacked p /\ unsent p1 = unsent p) by (unfold p1; now destruct (has TF_INFR (flags p))).
  assert (H1 : snd_ok max A N p1 /\ same_receiver p p1).
  { unfold p1. destruct (has TF_INFR (flags p)) eqn:Ei; [|split; [exact Hok|repeat split]]. split; [|repeat split].
    pose proof (so_infr _ _ _ _ Hok Ei). destruct Hok; constructor; cbn; auto. lia. }
  clearbody p1. destruct H1 as [H1 R1]. cbv zeta. set (p3 := _ <| lastack := _ |>).
  assert (Q3 : unacked p3 = unacked p1 /\ unsent p3 = unsent p1) by (split; reflexivity).
  assert (H3 : snd_ok max y N p3 /\ same_receiver p1 p3).
  { split; [|repeat split]. destruct H1; constructor; cbn; auto; try lia.
    - intros n Hn. apply so_covers0. lia.
    - apply Z.mod_pos_bound. lia. }
  clearbody p3. destruct H3 as [H3 R3].
  eapply guarded_bind; [exact (open_cwnd_spec max y N p3 H3)|]. intros p4 (H4 & R4 & Q4 & Q4').
  pose proof (so_pos _ _ _ _ Hok). pose proof (so_end _ _ _ _ Hok). pose proof (so_small _ _ _ _ Hok).
  eapply guarded_bind; [apply (unacked_loop_spec i y ackno_at max y N _ p4 H4 Hmax eq_refl); lia|]. intros p5 (H5 & R5 & Q5 & Q5').
  destruct Q1 as [Q1 Q1'], Q3 as [Q3 Q3']. rewrite Q4, Q3, Q1 in Q5. rewrite Q4', Q3', Q1' in Q5'.
  apply guarded_ret. split; [|split; [|split; [exact Q5|exact Q5']]].
  - destruct H5; constructor; cbn; auto.
  - eapply same_receiver_trans; [exact R1|]. eapply same_receiver_trans; [exact R3|]. eapply same_receiver_trans; [exact R4|]. exact R5.
Qed.

Lemma update_rtt_spec max A N t p : snd_ok max A N p -> snd_ok max A N (update_rtt i t p) /\ same_receiver p (update_rtt i t p).
Proof.
  intros Hok. unfold update_rtt. destruct (_ && _); [|split; [exact Hok|repeat split]].
  split; [destruct Hok; constructor; cbn; auto|repeat split].
Qed.

(** An acknowledgement of any position near what has been sent. *)
Lemma receive_ack_full max A N t p : snd_ok max A N p -> max < 256 -> -1073741824 < y - N < 1073741824 ->
  guarded False (receive_ack i t p) (fun p' => snd_ok max (if (A <? y) && (y <=? N) then y else A) N p' /\ same_receiver p p' /\
    (A < y <= N -> cleared y (unacked p) (unacked p') /\ cleared y (unsent p) (unsent p'))).
Proof.
  intros Hok Hmax Hnear. unfold receive_ack. destruct (update_window_spec max A N p Hok) as [H1 R1].
  assert (Q1 : unacked (update_window i p) = unacked p /\ unsent (update_window i p) = unsent p).
  { unfold update_window. destruct (_ || _); [|auto]. cbn. now destruct (_ && _). }
  set (p1 := update_window i p) in *. clearbody p1. set (A' := if (A <? y) && (y <=? N) then y else A).
  pose proof (so_pos _ _ _ _ Hok). pose proof (so_end _ _ _ _ Hok). pose proof (so_small _ _ _ _ Hok).
  assert (Hla : at_pos isn (lastack p1) A) by (rewrite (so_lastack _ _ _ _ H1); apply at_pos_isn).
  assert (Hnx : at_pos isn (snd_nxt p1) N) by (rewrite (so_nxt _ _ _ _ H1); apply at_pos_isn).
  eapply (guarded_bind _ _ _ (fun q => snd_ok max A' N q /\ same_receiver p q /\
    (A < y <= N -> cleared y (unacked p) (unacked q) /\ unsent q = unsent p))).
  { rewrite (seq_leq isn ackno_at Hla) by lia. unfold A'. destruct (Z.leb_spec y A) as [Hle|Hgt].
    - destruct (Z.ltb_spec A y); [lia|]. cbn [andb]. apply guarded_ret. destruct (old_ack_spec max A N (u32 (snd_wnd p + snd_wl2 p)) p1 H1).
      split; [assumption|]. split; [eapply same_receiver_trans; eauto|lia].
    - destruct (Z.ltb_spec A y); [|lia]. cbn [andb].
      rewrite (seq_between isn _ _ _ y (A + 1) N ackno_at (at_pos_add isn _ _ 1 Hla) Hnx) by lia.
      destruct (Z.leb_spec (A + 1) y); [|lia]. cbn [andb]. destruct (Z.leb_spec y N).
      + eapply guarded_weaken; [apply (new_ack_spec max A N p1 H1 Hmax); lia|]. intros q (G1 & G2 & G3 & G4).
        split; [exact G1|]. split; [eapply same_receiver_trans; eauto|]. intros _. destruct Q1 as [<- <-]. auto.
      + apply guarded_ret. split; [destruct H1; constructor; cbn; auto|]. split; [exact R1|lia]. }
  intros q (K2 & R2 & Q2). eapply guarded_bind.
  - apply (unsent_loop_spec i y ackno_at max A' N _ q K2 Hmax eq_refl); [|lia]. unfold A'. intros Hy'.
    destruct (Z.ltb_spec A y); cbn [andb]; [|lia]. destruct (Z.leb_spec y N); lia.
  - intros q2 (K3 & R3 & Q3 & Q3'). apply guarded_ret. destruct (update_rtt_spec max A' N t q2 K3). split; [assumption|].
    split; [eapply same_receiver_trans; [exact R2|]; eapply same_receiver_trans; eauto|]. intros Hr. destruct (Q2 Hr) as [C1 C2].
    assert (Q4 : unacked (update_rtt i t q2) = unacked q2 /\ unsent (update_rtt i t q2) = unsent q2)
      by (unfold update_rtt; destruct (negb (rttest q2 =? 0) && TCP_SEQ_LT (rtseq q2) (ackno i)); split; reflexivity).
    destruct Q4 as [-> ->]. rewrite Q3', <- C2. split; [exact C1|apply Q3; lia].
Qed.

Lemma receive_ack_spec max A N t p : snd_ok max A N p -> max < 256 -> -1073741824 < y - N < 1073741824 ->
  guarded False (receive_ack i t p) (fun p' => snd_ok max (if (A <? y) && (y <=? N) then y else A) N p' /\ same_receiver p p').
Proof. intros Hok Hmax Hnear. eapply guarded_weaken; [exact (receive_ack_full max A N t p Hok Hmax Hnear)|]. tauto. Qed.

Lemma drop_segment_thrifty s p : thrifty (drop_segment s p).
Proof. unfold drop_segment, lwip_assert. thrifty. Qed.

Lemma loops_thrifty l p : thrifty (unacked_loop i l p) /\ thrifty (unsent_loop i l p).
Proof.
  revert p. induction l as [|s l IH]; intros p; split; cbn; auto with thrifty; (destruct (_ : bool); [|auto with thrifty]);
    apply thrifty_bind; auto using drop_segment_thrifty; intros p'; apply IH.
Qed.

Lemma receive_ack_thrifty t p : thrifty (receive_ack i t p).
Proof.
  unfold receive_ack, new_ack, open_cwnd. cbv zeta. apply thrifty_bind; [|intros q; apply thrifty_bind; [apply loops_thrifty|thrifty]].
  repeat match goal with |- thrifty (if ?b then _ else _) => destruct b end; auto with thrifty.
  apply thrifty_bind; [thrifty|]. intros q. apply thrifty_bind; [apply loops_thrifty|thrifty].
Qed.
End Ack2.

(** ** New segments *)

Lemma seg_bufs_spec bytes copy : guarded False (seg_bufs bytes copy) (fun r =>
  match r with None => True | Some c => c = [bytes] \/ (c = [[]; bytes] /\ bytes <> []) end).
Proof.
  unfold seg_bufs. apply guarded_bind with (fun _ => True); [now apply guarded_malloc|]. intros [|] _; cbn [negb]; [|now apply guarded_ret].
  destruct copy; [apply guarded_ret; auto|]. destruct bytes as [|b bytes]; [apply guarded_ret; auto|].
  apply guarded_bind with (fun _ => True); [now apply guarded_malloc|]. intros [|] _; apply guarded_ret; [|exact I]. right. split; [reflexivity|discriminate].
Qed.

Lemma take_slice a n k : 0 <= a -> 0 <= k <= n -> a + n <= size S -> take_bytes (Z.to_nat k) (slice S a n) = ret (slice S a k).
Proof.
  intros Ha Hk Hn. unfold take_bytes. pose proof (slice_length S a n Ha ltac:(lia) Hn).
  destruct (Nat.ltb_spec (length (slice S a n)) (Z.to_nat k)); [lia|]. now rewrite slice_take by lia.
Qed.

(** A new segment with [n] bytes. *)
Lemma new_seg_carries a n c : 0 <= a -> 0 < n <= TCP_MSS -> a + n <= size S -> c = [slice S a n] \/ c = [[]; slice S a n] ->
  let s := TcpSeg c n 0 (u32 (isn + a)) 0 in carries isn S fin s a /\ TCP_TCPLEN s = n /\ has TCP_RST (th_flags s) = false.
Proof.
  intros Ha Hn Hs Hc s. unfold TCP_MSS in Hn. assert (Et : TCP_TCPLEN s = n) by (unfold s, TCP_TCPLEN; cbn [seg_len th_flags]; change (has (Z.lor TCP_FIN TCP_SYN) 0) with false; cbn; lia).
  split; [|auto]. constructor; cbn; auto; try lia; try discriminate.
  - destruct Hc as [-> | ->]; cbn; now rewrite app_nil_r.
  - destruct Hc as [-> | ->]; discriminate.
Qed.

(** The new segments: the first, and the others. *)
Definition new_segs (B : Z) (q : list tcp_seg) : Prop :=
  exists s q1, q = s :: q1 /\ carries isn S fin s B /\ has TCP_FIN (th_flags s) = false /\
    (exists bytes, bytes <> [] /\ (seg_p s = [bytes] \/ seg_p s = [[]; bytes])) /\
    Forall seg_ok q /\ covers q1 (B + TCP_TCPLEN s) (size S).

Lemma segment_loop_spec max p apiflags fuel : forall a queuelen queue,
  0 < mss p <= TCP_MSS -> 0 <= queuelen <= max -> max < 256 -> 0 <= a < size S -> size S < 1073741824 ->
  (Z.to_nat (max - queuelen) < fuel)%nat ->
  guarded False (segment_loop max fuel p (Some (slice S a (size S - a))) (size S - a) (u32 (isn + a)) queuelen 0 apiflags 0 queue)
    (fun r => match r with
     | None => True
     | Some (q', n) => exists q, q' = queue ++ q /\ new_segs a q /\ n = queuelen + clens q /\ n <= max
     end).
Proof.
  induction fuel as [|fuel IH]; intros a queuelen queue Hm Hq Hmax Ha Hs Hf; [lia|]. cbn [segment_loop].
  assert (Em : mss p - LWIP_TCP_OPT_LENGTH 0 = mss p) by (change (LWIP_TCP_OPT_LENGTH 0) with 0; lia). rewrite Em. unfold TCP_MSS in Hm.
  set (n := if mss p <? size S - a then mss p else size S - a).
  assert (Hn : 0 < n <= TCP_MSS /\ n <= size S - a) by (unfold n, TCP_MSS; destruct (Z.ltb_spec (mss p) (size S - a)); lia).
  assert (En : u16 n = n) by (unfold u16, TCP_MSS in *; rewrite Z.mod_small; lia). rewrite En. clearbody n.
  rewrite take_slice by lia. rewrite bind_ret.
  apply guarded_bind with (fun _ => True); [now apply guarded_malloc|]. intros [|] _; cbn [negb]; [|now apply guarded_ret].
  eapply guarded_bind; [apply seg_bufs_spec|]. intros [c|] Hc; [|now apply guarded_ret].
  assert (Hsl : Z.of_nat (length (slice S a n)) = n) by (apply slice_length; lia).
  assert (Hcl : 1 <= Z.of_nat (length c) <= 2) by (destruct Hc as [->|[-> _]]; cbn; lia).
  assert (Eq : u16 (queuelen + Z.of_nat (length c)) = queuelen + Z.of_nat (length c)) by (unfold u16; rewrite Z.mod_small; lia).
  rewrite Eq. destruct (Z.ltb_spec max (queuelen + Z.of_nat (length c))) as [Hlong|Hok]; cbn [orb]; [now apply guarded_ret|].
  destruct (Z.ltb_spec TCP_SNDQUEUELEN_OVERFLOW (queuelen + Z.of_nat (length c))); [now apply guarded_ret|].
  destruct (new_seg_carries a n c ltac:(lia) ltac:(lia) ltac:(lia) ltac:(tauto)) as (Hcar & Et & Hrst).
  set (s := TcpSeg c n 0 (u32 (isn + a)) 0) in *.
  assert (Hb : exists bytes, bytes <> [] /\ (seg_p s = [bytes] \/ seg_p s = [[]; bytes])).
  { exists (slice S a n). split; [intros E; rewrite E in Hsl; cbn in Hsl; lia|]. cbn. tauto. }
  destruct (Z.ltb_spec 0 (size S - a - n)) as [Hmore|Hend].
  - rewrite slice_drop by lia.
    assert (Eu : u32 (u32 (isn + a) + n) = u32 (isn + (a + n))).
    { apply (at_pos_inj isn _ _ (a + n)); [apply at_pos_add, at_pos_isn|exists 0; lia]. }
    rewrite Eu. replace (size S - a - n) with (size S - (a + n)) by lia.
    eapply guarded_weaken; [apply (IH (a + n) _ (queue ++ [s])); unfold TCP_MSS; lia|].
    intros [[q' m]|]; [|auto]. intros (q & -> & (s2 & q1 & -> & Hc2 & _ & _ & Hall & Hcov) & -> & Hle).
    exists (s :: s2 :: q1). split; [now rewrite <- app_assoc|]. split; [|cbn in *; lia].
    exists s, (s2 :: q1). split; [reflexivity|]. split; [exact Hcar|]. split; [reflexivity|]. split; [exact Hb|].
    split; [constructor; [split; eauto|exact Hall]|]. rewrite Et. eapply (covers_app [s2] q1); [apply covers_one; exact Hc2|exact Hcov].
  - apply guarded_ret. exists [s]. split; [reflexivity|]. split; [|cbn; lia].
    exists s, []. split; [reflexivity|]. split; [exact Hcar|]. split; [reflexivity|]. split; [exact Hb|].
    split; [constructor; [split; eauto|constructor]|]. apply covers_none. lia.
Qed.

(** ** Behind the segments that wait *)

Lemma last_split {A} (l : list A) x : last l = Some x -> l = removelast l ++ [x].
Proof.
  intros H. destruct l as [|a l] using rev_ind; [discriminate|]. rewrite last_snoc in H. injection H as ->.
  now rewrite removelast_last.
Qed.

(** Segments of the same number are at the same place. *)
Lemma carries_same s s' a b : carries isn S fin s a -> carries isn S fin s' b -> size S < 1073741824 -> seg_seqno s = seg_seqno s' -> a = b.
Proof.
  intros H1 H2 Hs E. pose proof (eqb_pos isn _ _ a b (ca_seqno _ _ _ _ _ H1) (ca_seqno _ _ _ _ _ H2)) as X.
  pose proof (ca_pos _ _ _ _ _ H1). pose proof (ca_end _ _ _ _ _ H1). pose proof (ca_len _ _ _ _ _ H1).
  pose proof (ca_pos _ _ _ _ _ H2). pose proof (ca_end _ _ _ _ _ H2). pose proof (ca_len _ _ _ _ _ H2).
  rewrite E, Z.eqb_refl in X. specialize (X ltac:(lia)). symmetry in X. now apply Z.eqb_eq in X.
Qed.

(** The invariant of the queues, apart from the rest of the connection. *)
Definition queues_ok (l : list tcp_seg) (A B : Z) : Prop := Forall seg_ok l /\ covers l A B.

(** The last segment is replaced by one that carries more, and others
    follow. *)
Lemma replace_last w l u u' q b A B C : size S < 1073741824 ->
  queues_ok (w ++ l ++ [u]) A B -> carries isn S fin u b -> b + TCP_TCPLEN u = B -> carries isn S fin u' b ->
  TCP_TCPLEN u <= TCP_TCPLEN u' -> has TCP_RST (th_flags u') = false -> Forall seg_ok q -> covers q (b + TCP_TCPLEN u') C ->
  queues_ok (w ++ l ++ u' :: q) A C.
Proof.
  intros Hsz [Hs Hc] Hu HB Hu' Hle Hr Hq Hcq. split.
  - rewrite app_assoc in *. apply Forall_app in Hs. apply Forall_app. split; [apply Hs|]. constructor; [split; eauto|exact Hq].
  - intros n Hn. destruct (Z.lt_ge_cases n B) as [H1|H1]; [|destruct (Z.lt_ge_cases n (b + TCP_TCPLEN u')) as [H2|H2]].
    + destruct (Hc n ltac:(lia)) as (s & a & H2 & Ha & Hr'). rewrite !elem_of_app, list_elem_of_singleton in H2.
      destruct H2 as [H2|[H2|E]]; [exists s, a; rewrite !elem_of_app; auto..|]. subst s.
      rewrite (carries_same u u a b Ha Hu Hsz eq_refl) in *. exists u', b. rewrite !elem_of_app, elem_of_cons. split; [auto|]. split; [exact Hu'|lia].
    + pose proof (ca_some _ _ _ _ _ Hu). exists u', b. rewrite !elem_of_app, elem_of_cons. split; [auto|]. split; [exact Hu'|lia].
    + destruct (Hcq n ltac:(lia)) as (s & a & H3 & H4). exists s, a. rewrite !elem_of_app, elem_of_cons. auto.
Qed.

Lemma push_flag_fin f : has TCP_FIN (Z.lor f TCP_PSH) = has TCP_FIN f.
Proof. exact (has_set 0 3 f ltac:(lia) ltac:(lia)). Qed.

Lemma push_flag_syn f : has TCP_SYN (Z.lor f TCP_PSH) = has TCP_SYN f.
Proof. exact (has_set 1 3 f ltac:(lia) ltac:(lia)). Qed.

Lemma push_last_spec apiflags u l A B : queues_ok (u ++ l) A B ->
  queues_ok (u ++ push_last apiflags l) A B /\ clens (u ++ push_last apiflags l) = clens (u ++ l).
Proof.
  intros Hq. unfold push_last. destruct (last l) as [s|] eqn:E; [|auto]. destruct (_ && _); [|auto]. apply last_split in E. destruct Hq as [Hs Hc].
  set (l0 := removelast l) in *. clearbody l0. subst l. set (s' := s <| th_flags := _ |>).
  assert (Hcar : forall a, carries isn S fin s a -> carries isn S fin s' a).
  { intros a Ha. apply carries_flags; [exact Ha|apply push_flag_fin|apply push_flag_syn]. }
  assert (Et : TCP_TCPLEN s' = TCP_TCPLEN s) by (apply tcplen_flags; [apply push_flag_fin|apply push_flag_syn]).
  rewrite !app_assoc in *. split; [split|].
  - apply Forall_app in Hs. destruct Hs as [H1 H2]. apply Forall_app. split; [exact H1|]. apply Forall_cons in H2. constructor; [|constructor].
    destruct H2 as [[(a & Ha) Hr] _]. split; [eauto|]. cbn. rewrite <- Hr. exact (has_set 2 3 (th_flags s) ltac:(lia) ltac:(lia)).
  - apply (covers_replace _ _ s s') in Hc; [|exact Hcar|exact Et].
    eapply covers_incl; [|exact Hc]. intros x. rewrite app_nil_r, elem_of_cons, !elem_of_app, list_elem_of_singleton. tauto.
  - rewrite !clens_app. reflexivity.
Qed.

Lemma merge_data u s0 b B bytes : carries isn S fin u b -> carries isn S fin s0 B -> has TCP_FIN (th_flags u) = false ->
  has TCP_FIN (th_flags s0) = false -> b + seg_len u = B -> seg_len u + seg_len s0 <= TCP_MSS -> concat bytes = concat (seg_p s0) ->
  let u' := u <| seg_p := seg_p u ++ bytes |> <| seg_len := u16 (seg_len u + seg_len s0) |> in
  carries isn S fin u' b /\ TCP_TCPLEN u' = TCP_TCPLEN u + TCP_TCPLEN s0.
Proof.
  intros Hu Hs Hfu Hfs HB Hm Hb u'. unfold TCP_MSS in Hm.
  destruct (carries_no_fin _ _ _ _ _ Hu Hfu) as [Hu0 Hu1]. destruct (carries_no_fin _ _ _ _ _ Hs Hfs) as [Hs0 Hs1].
  assert (E16 : u16 (seg_len u + seg_len s0) = seg_len u + seg_len s0) by (unfold u16; rewrite Z.mod_small; lia).
  assert (Et : TCP_TCPLEN u' = seg_len u + seg_len s0).
  { rewrite (tcplen_value u' (ca_syn _ _ _ _ _ Hu)). unfold u'. cbn [seg_len th_flags set_field]. cbn. rewrite E16, Hfu. cbn. lia. }
  split; [|lia]. pose proof (ca_end _ _ _ _ _ Hs) as Hse. destruct Hu as [H1 H2 H3 H4 H5 H6 H7 H8 H9].
  constructor; cbn; rewrite ?E16; auto; try lia; try congruence.
  - rewrite concat_app, Hb, H5, (ca_data _ _ _ _ _ Hs), <- HB. apply slice_app; lia.
  - intros E. apply app_nil in E. tauto.
Qed.

Lemma append_segs_spec p q A B n :
  queues_ok (unacked p ++ unsent p) A B -> new_segs B q -> mss p <= TCP_MSS -> B < 1073741824 -> size S < 1073741824 ->
  n = clens (unacked p ++ unsent p) + clens q -> n < 65536 ->
  guarded False (append_segs p q 0 n) (fun '(l, m) => queues_ok (unacked p ++ l) A (size S) /\ m = clens (unacked p ++ l) /\ m <= n).
Proof.
  intros [Hs Hc] (s & q1 & -> & Hcar & Hfin & (bytes & Hne & Hb) & Hall & Hcov) Hm HB Hsz -> Hn.
  assert (Happ : queues_ok (unacked p ++ unsent p ++ s :: q1) A (size S)).
  { rewrite app_assoc. split; [now apply Forall_app|]. eapply covers_app; [exact Hc|].
    eapply (covers_app [s] q1); [apply covers_one; exact Hcar|exact Hcov]. }
  assert (Hplain : guarded False (ret (unsent p ++ s :: q1, clens (unacked p ++ unsent p) + clens (s :: q1)))
    (fun '(l, m) => queues_ok (unacked p ++ l) A (size S) /\ m = clens (unacked p ++ l) /\ m <= clens (unacked p ++ unsent p) + clens (s :: q1))).
  { apply guarded_ret. split; [exact Happ|]. rewrite app_assoc, (clens_app _ (s :: q1)). lia. }
  unfold append_segs. destruct (last (unsent p)) as [u|] eqn:El; [|exact Hplain].
  destruct (may_merge p u s 0) eqn:Emm; [|exact Hplain]. apply last_split in El.
  unfold may_merge in Emm. rewrite !andb_true_iff in Emm. destruct Emm as [[[[[_ Hnf] _] Hlen] _] Hseq].
  apply negb_true_iff in Hnf. rewrite has_lor in Hnf. apply orb_false_iff in Hnf. destruct Hnf as [_ Hnf]. apply Z.leb_le in Hlen.
  set (l0 := removelast (unsent p)) in *. rewrite El in *. pose proof Hs as Hs'.
  rewrite app_assoc in Hs'. apply Forall_app in Hs'. destruct Hs' as [_ Hs2]. apply Forall_cons in Hs2. destruct Hs2 as [[(b & Hu) Hur] _].
  assert (HbB : b + seg_len u = B).
  { pose proof (at_pos_u32 isn _ _ (carries_stop _ _ _ _ _ Hu)) as Hat. apply Z.eqb_eq in Hseq.
    pose proof (ca_pos _ _ _ _ _ Hu). pose proof (ca_end _ _ _ _ _ Hu). pose proof (ca_len _ _ _ _ _ Hu). pose proof (ca_pos _ _ _ _ _ Hcar).
    pose proof (s32_diff isn _ _ (b + seg_len u) B Hat (carries_start _ _ _ _ _ Hcar) ltac:(lia)) as Es. rewrite Hseq, Z.sub_diag in Es.
    change (s32 0) with 0 in Es. lia. }
  unfold merge_seg. change (has TCP_FIN 0) with false.
  assert (Hmerge : forall bs m, concat bs = concat (seg_p s) -> m + Z.of_nat (length (seg_p s)) = clens (unacked p ++ l0 ++ [u]) + clens (s :: q1) + Z.of_nat (length bs) ->
    (length bs <= length (seg_p s))%nat ->
    guarded False (ret (l0 ++ u <| seg_p := seg_p u ++ bs |> <| seg_len := u16 (seg_len u + seg_len s) |> :: q1, m))
    (fun '(l, m) => queues_ok (unacked p ++ l) A (size S) /\ m = clens (unacked p ++ l) /\ m <= clens (unacked p ++ l0 ++ [u]) + clens (s :: q1))).
  { intros bs m Hbs Em Hle. destruct (merge_data u s b B bs Hu Hcar Hnf Hfin HbB ltac:(lia) Hbs) as [Hu' Et].
    set (u' := u <| seg_p := seg_p u ++ bs |> <| seg_len := u16 (seg_len u + seg_len s) |>) in *.
    assert (Elen : Z.of_nat (length (seg_p u')) = Z.of_nat (length (seg_p u)) + Z.of_nat (length bs)) by (cbn; rewrite length_app; lia).
    apply guarded_ret. rewrite !clens_app in *. cbn [clens] in *. split; [|lia].
    destruct (carries_no_fin _ _ _ _ _ Hu Hnf) as [_ Eu]. pose proof (ca_some _ _ _ _ _ Hcar).
    apply replace_last with (u := u) (b := b) (B := B); auto; [now split|lia|lia|now apply Forall_cons in Hall|].
    replace (b + TCP_TCPLEN u') with (B + TCP_TCPLEN s) by lia. exact Hcov. }
  destruct Hb as [Hb|Hb]; rewrite Hb.
  - destruct bytes as [|x bytes]; [congruence|]. change (lwip_assert _) with (ret tt). rewrite !bind_ret.
    apply (Hmerge [x :: bytes]); rewrite Hb; [reflexivity|reflexivity|cbn; lia].
  - destruct bytes as [|x bytes]; [congruence|]. change (lwip_assert _) with (ret tt). rewrite !bind_ret.
    apply (Hmerge [x :: bytes]); rewrite Hb; [reflexivity| |cbn; lia].
    unfold u16. pose proof (clens_nonneg (unacked p ++ l0 ++ [u])). pose proof (clens_nonneg q1). cbn [clens] in *. rewrite Hb in *. cbn in *. rewrite Z.mod_small; lia.
Qed.
End Sender.

(** ** Writing, and closing *)

Lemma queues_longer isn S T fin' l A : queues_ok isn S false l A (size S) ->
  queues_ok isn (S ++ T) fin' l A (size S).
Proof.
  assert (Hl : forall s a, carries isn S false s a -> carries isn (S ++ T) fin' s a).
  { intros s a H. eapply carries_longer; [exact H|discriminate]. }
  intros [Hs Hc]. split.
  - eapply Forall_impl; [exact Hs|]. intros s [(a & Ha) Hr]. split; eauto.
  - intros n Hn. destruct (Hc n Hn) as (s & a & H1 & H2 & H3). eauto 6.
Qed.

Lemma queues_have_buffers isn S fin max A N p : snd_ok isn S fin max A N p ->
  (if negb (snd_queuelen p =? 0) then negb match unacked p ++ unsent p with [] => true | _ => false end
   else match unacked p ++ unsent p with [] => true | _ => false end) = true.
Proof.
  intros H. rewrite (so_queuelen _ _ _ _ _ _ _ H). pose proof (so_segs _ _ _ _ _ _ _ H) as Hs.
  destruct (unacked p ++ unsent p) as [|s l]; [reflexivity|]. apply Forall_cons in Hs. destruct Hs as [[(a & Ha) _] _].
  pose proof (ca_p _ _ _ _ _ Ha). pose proof (clens_nonneg l). cbn [clens]. destruct (seg_p s); [congruence|].
  destruct (Z.eqb_spec (Z.of_nat (length (l0 :: c)) + clens l) 0); [cbn in *; lia|reflexivity].
Qed.

(** What queueing leaves as it is. *)
Definition same_rest (p p' : tcp_pcb) : Prop :=
  same_receiver p p' /\ unacked p' = unacked p /\ lastack p' = lastack p /\ snd_nxt p' = snd_nxt p.

(** The connection with new queues, up to the end of the longer stream. *)
Lemma snd_ok_queued isn S T fin' max A N p l m len f :
  snd_ok isn S false max A N p -> queues_ok isn (S ++ T) fin' (unacked p ++ l) A (total (S ++ T) fin') ->
  m = clens (unacked p ++ l) -> m <= max -> total (S ++ T) fin' = size S + len -> 0 <= len -> size S + len < 1073741824 ->
  has TF_INFR f = has TF_INFR (flags p) ->
  snd_ok isn (S ++ T) fin' max A N
    (p <| flags := f |> <| unsent := l |> <| snd_lbb := u32 (snd_lbb p + len) |> <| snd_buf := u16 (snd_buf p - len) |> <| snd_queuelen := m |>).
Proof.
  intros [Hla Hn Hlb Hpos He Hsm Hs Hc Hq Hm Hmss Hcw Hss Hif Hw Hb] [Q1 Q2] Em Hmax Ht Hlen Hsmall Hf.
  assert (E0 : total S false = size S) by (unfold total; cbn; lia).
  constructor; cbn; rewrite ?Hf; auto; try lia.
  - rewrite Hlb, Ht, E0. apply (at_pos_inj isn _ _ (size S + len)); [apply at_pos_add, at_pos_isn|exists 0; lia].
  - unfold u16. pose proof (Z.mod_pos_bound (snd_buf p - len) 65536). lia.
Qed.

(** Nothing is queued. *)
Definition refused isn S fin max A N (p p' : tcp_pcb) : Prop :=
  snd_ok isn S fin max A N p' /\ same_rest p p' /\ unsent p' = unsent p.

Lemma mark_memerr_refused isn S fin max A N p : snd_ok isn S fin max A N p -> refused isn S fin max A N p (mark_memerr p).
Proof.
  intros H. split; [|repeat split]. eapply snd_ok_same; [exact H|]. repeat split. unfold mark_memerr. cbn.
  exact (has_set 2 7 (flags p) ltac:(lia) ltac:(lia)).
Qed.

(** The guards of [tcp_enqueue], and the segments that wait. *)
Lemma enqueue_guards isn S max A N p arg len hflags apiflags Q :
  snd_ok isn S false max A N p ->
  (len =? 0) && negb (has (Z.lor TCP_SYN TCP_FIN) hflags) = false -> (len =? 0) && match arg with None => false | _ => true end = false ->
  (forall p', refused isn S false max A N p p' -> Q (ERR_MEM, p')) ->
  (len <= snd_buf p -> snd_queuelen p < max ->
   guarded False (r <- segment_loop max (Datatypes.S (Z.to_nat max)) p arg len (snd_lbb p) (snd_queuelen p) hflags apiflags 0 [];;
    match r with
    | None => ret (ERR_MEM, mark_memerr p)
    | Some (queue, queuelen) =>
        '(l, queuelen) <- append_segs p queue hflags queuelen;;
        let len := if has (Z.lor TCP_SYN TCP_FIN) hflags then u16 (len + 1) else len in
        let p := if has TCP_FIN hflags then p <| flags := Z.lor (flags p) TF_FIN |> else p in
        let p := p <| unsent := l |> <| snd_lbb := u32 (snd_lbb p + len) |> <| snd_buf := u16 (snd_buf p - len) |>
                   <| snd_queuelen := queuelen |> in
        let p := p <| unsent := push_last apiflags (unsent p) |> in
        ret (ERR_OK, p)
    end) Q) ->
  guarded False (tcp_enqueue max p arg len hflags apiflags 0) Q.
Proof.
  intros H E1 E2 Hr Hk. pose proof (Hr _ (mark_memerr_refused _ _ _ _ _ _ _ H)) as Hmem. unfold tcp_enqueue.
  change (0 =? 0) with true. rewrite andb_true_r, E1, E2.
  change (lwip_assert (negb false)) with (ret tt). rewrite !bind_ret. destruct (Z.ltb_spec (snd_buf p) len); [now apply guarded_ret|].
  destruct (Z.leb_spec max (snd_queuelen p)); cbn [orb]; [now apply guarded_ret|].
  destruct (_ <? snd_queuelen p); [now apply guarded_ret|].
  rewrite (queues_have_buffers _ _ _ _ _ _ _ H). change (lwip_assert true) with (ret tt). rewrite bind_ret. now apply Hk.
Qed.

Lemma enqueue_data_spec isn S T max A N p apiflags : snd_ok isn S false max A N p -> max < 256 -> T <> [] -> size S + size T < 1073741824 ->
  guarded False (tcp_enqueue max p (Some T) (size T) 0 apiflags 0) (fun '(err, p') =>
    (err = ERR_OK /\ snd_ok isn (S ++ T) false max A N p' /\ same_rest p p') \/ (err = ERR_MEM /\ refused isn S false max A N p p')).
Proof.
  intros H Hmax HT Hsz. assert (HT' : 0 < size T) by (unfold size; destruct T; [congruence|cbn; lia]).
  assert (E0 : (size T =? 0) = false) by now apply Z.eqb_neq; lia.
  apply enqueue_guards with isn S A N; [exact H|rewrite E0; reflexivity..|intros p' Hp'; right; auto|]. intros Hb Hq.
  change (has TCP_FIN 0) with false. change (has (Z.lor TCP_SYN TCP_FIN) 0) with false. cbv iota.
  assert (Et : forall X, total X false = size X) by (intros X; unfold total; cbn; lia).
  pose proof (so_queuelen _ _ _ _ _ _ _ H) as Eq. pose proof (clens_nonneg (unacked p ++ unsent p)).
  assert (E1 : slice (S ++ T) (size S) (size (S ++ T) - size S) = T).
  { unfold slice. rewrite size_app. unfold size. rewrite Nat2Z.id, skipn_app, skipn_all, Nat.sub_diag. apply firstn_all2. cbn. lia. }
  assert (E2 : snd_lbb p = u32 (isn + size S)) by (rewrite (so_lbb _ _ _ _ _ _ _ H), Et; reflexivity).
  assert (E3 : size T = size (S ++ T) - size S) by (rewrite size_app; lia).
  eapply guarded_bind.
  { rewrite E2. rewrite <- E1 at 1. rewrite E3. apply (segment_loop_spec isn (S ++ T) false max).
    - apply (so_mss _ _ _ _ _ _ _ H). - lia. - lia. - rewrite size_app; unfold size in *; lia. - rewrite size_app; lia. - lia. }
  intros [[q n]|]; [|intros _; apply guarded_ret; right; split; [reflexivity|now apply mark_memerr_refused]].
  cbn [app]. intros (q' & -> & Hnew & -> & Hle). pose proof (so_segs _ _ _ _ _ _ _ H) as Hs. pose proof (so_covers _ _ _ _ _ _ _ H) as Hc.
  rewrite Et in Hc. eapply guarded_bind.
  { apply (append_segs_spec isn (S ++ T) false p q' A (size S)); [apply queues_longer; now split|exact Hnew|..].
    - apply (so_mss _ _ _ _ _ _ _ H). - lia. - rewrite size_app; lia. - now rewrite Eq. - lia. }
  intros [l m] (Hl & -> & Hm). apply guarded_ret. left. split; [reflexivity|]. split; [|repeat split].
  destruct (push_last_spec isn (S ++ T) false apiflags (unacked p) l _ _ Hl) as [Hl' Ecl].
  eapply snd_ok_same; [apply (snd_ok_queued isn S T false max A N p (push_last apiflags l) (clens (unacked p ++ l)) (size T) (flags p) H)|].
  - now rewrite Et.
  - now rewrite Ecl.
  - lia.
  - rewrite Et, size_app. reflexivity.
  - lia.
  - lia.
  - reflexivity.
  - repeat split.
Qed.

Lemma write_spec isn S T max A N p apiflags : snd_ok isn S false max A N p -> max < 256 -> T <> [] -> size S + size T < 1073741824 ->
  guarded False (tcp_write max p (Some T) (size T) apiflags) (fun '(err, p') =>
    (err = ERR_OK /\ snd_ok isn (S ++ T) false max A N p' /\ same_rest p p') \/
    ((err = ERR_MEM \/ err = ERR_CONN) /\ refused isn S false max A N p p')).
Proof.
  intros H Hmax HT Hsz. assert (HT' : 0 <? size T = true) by (apply Z.ltb_lt; unfold size; destruct T; [congruence|cbn; lia]).
  assert (Hconn : guarded False (ret (ERR_CONN, p)) (fun '(err, p') =>
    (err = ERR_OK /\ snd_ok isn (S ++ T) false max A N p' /\ same_rest p p') \/
    ((err = ERR_MEM \/ err = ERR_CONN) /\ refused isn S false max A N p p'))).
  { apply guarded_ret. right. split; [auto|]. split; [exact H|]. repeat split. }
  assert (Henq := enqueue_data_spec isn S T max A N p apiflags H Hmax HT Hsz).
  unfold tcp_write. rewrite HT'. destruct (state p); try exact Hconn;
    (eapply guarded_weaken; [exact Henq|]; intros [err p'] [G|[-> G]]; [now left|right; auto]).
Qed.

(** *** The end of the stream *)

Lemma segment_loop_fin max f p seqno n : 0 < mss p -> 0 <= n -> n < max -> max < 256 ->
  guarded False (segment_loop max (Datatypes.S f) p None 0 seqno n TCP_FIN TCP_WRITE_FLAG_COPY 0 []) (fun r =>
    match r with None => True | Some (q, m) => q = [TcpSeg [[]] 0 0 seqno TCP_FIN] /\ m = n + 1 end).
Proof.
  intros Hm Hn Hlt Hmax. cbn [segment_loop]. change (LWIP_TCP_OPT_LENGTH 0) with 0. rewrite Z.sub_0_r.
  destruct (Z.ltb_spec (mss p) 0); [lia|]. change (u16 0 =? 0) with true. cbv iota. rewrite bind_ret.
  apply guarded_bind with (fun _ => True); [now apply guarded_malloc|]. intros [|] _; cbn [negb]; [|now apply guarded_ret].
  eapply guarded_bind; [apply seg_bufs_spec|]. intros [c|] Hc; [|now apply guarded_ret].
  assert (c = [[]]) as -> by (destruct Hc as [->|[_ Hc]]; [reflexivity|congruence]). cbn [length].
  assert (E : u16 (n + Z.of_nat 1) = n + 1) by (unfold u16; rewrite Z.mod_small; lia). rewrite E.
  destruct (_ || _); [now apply guarded_ret|]. change (0 <? 0 - u16 0) with false. cbv iota. apply guarded_ret. auto.
Qed.

Lemma total_fin S : total S true = size S + 1.
Proof. reflexivity. Qed.

Lemma fin_seg_carries isn S p : concat p = [] -> p <> [] -> size S < 1073741824 ->
  carries isn S true (TcpSeg p 0 0 (u32 (isn + size S)) TCP_FIN) (size S).
Proof.
  intros Hp Hne Hs. constructor; cbn; auto; try lia; try discriminate.
  - unfold size. lia.
  - reflexivity.
Qed.

(** A segment at the end of the stream also carries the end. *)
Lemma carries_end_fin isn S s b : carries isn S true s b -> has TCP_FIN (th_flags s) = false -> b + seg_len s = size S ->
  let s' := s <| th_flags := Z.lor (th_flags s) TCP_FIN |> in carries isn S true s' b /\ TCP_TCPLEN s' = TCP_TCPLEN s + 1.
Proof.
  intros Hc Hf He s'. split; [now apply carries_with_fin|]. rewrite (carries_tcplen _ _ _ _ _ Hc), Hf.
  rewrite (tcplen_value s'); [|unfold s'; cbn; rewrite syn_fin_set; apply Hc]. unfold s'. cbn. rewrite fin_set. cbn. lia.
Qed.

Lemma append_fin_spec isn S p A n :
  queues_ok isn S true (unacked p ++ unsent p) A (size S) -> size S < 1073741824 -> n = clens (unacked p ++ unsent p) + 1 -> n < 65536 ->
  guarded False (append_segs p [TcpSeg [[]] 0 0 (u32 (isn + size S)) TCP_FIN] TCP_FIN n) (fun '(l, m) =>
    queues_ok isn S true (unacked p ++ l) A (total S true) /\ m = clens (unacked p ++ l) /\ m <= n).
Proof.
  intros [Hs Hc] Hsz -> Hn. rewrite total_fin. set (s := TcpSeg [[]] 0 0 (u32 (isn + size S)) TCP_FIN).
  pose proof (fin_seg_carries isn S [[]] eq_refl ltac:(discriminate) Hsz) as Hcar. fold s in Hcar.
  assert (Hplain : guarded False (ret (unsent p ++ [s], clens (unacked p ++ unsent p) + 1))
    (fun '(l, m) => queues_ok isn S true (unacked p ++ l) A (size S + 1) /\ m = clens (unacked p ++ l) /\ m <= clens (unacked p ++ unsent p) + 1)).
  { apply guarded_ret. rewrite app_assoc, (clens_app _ [s]). split; [|cbn; lia]. split.
    - apply Forall_app. split; [exact Hs|]. constructor; [|constructor]. split; [eauto|reflexivity].
    - eapply covers_app; [exact Hc|]. exact (covers_one isn S true s (size S) Hcar). }
  unfold append_segs. destruct (last (unsent p)) as [u|] eqn:El; [|exact Hplain].
  destruct (may_merge p u s TCP_FIN) eqn:Emm; [|exact Hplain]. apply last_split in El.
  unfold may_merge in Emm. rewrite !andb_true_iff in Emm. destruct Emm as [[[[[_ Hnf] _] Hlen] _] Hseq].
  apply negb_true_iff in Hnf. rewrite has_lor in Hnf. apply orb_false_iff in Hnf. destruct Hnf as [_ Hnf].
  set (l0 := removelast (unsent p)) in *. rewrite El in *. pose proof Hs as Hs'.
  rewrite app_assoc in Hs'. apply Forall_app in Hs'. destruct Hs' as [_ Hs2]. apply Forall_cons in Hs2. destruct Hs2 as [[(b & Hu) Hur] _].
  assert (HbB : b + seg_len u = size S).
  { pose proof (at_pos_u32 isn _ _ (carries_stop _ _ _ _ _ Hu)) as Hat. apply Z.eqb_eq in Hseq.
    pose proof (ca_pos _ _ _ _ _ Hu). pose proof (ca_end _ _ _ _ _ Hu). pose proof (ca_len _ _ _ _ _ Hu).
    pose proof (s32_diff isn _ _ (b + seg_len u) (size S) Hat (carries_start _ _ _ _ _ Hcar) ltac:(lia)) as Es. rewrite Hseq, Z.sub_diag in Es.
    change (s32 0) with 0 in Es. lia. }
  destruct (carries_no_fin _ _ _ _ _ Hu Hnf) as [_ Eu].
  unfold merge_seg. change (has TCP_FIN TCP_FIN) with true. change (seg_p s) with ([[]] : chain). change (seg_len s =? 0) with true. cbv iota.
  change (lwip_assert _) with (ret tt). rewrite !bind_ret.
  destruct (carries_end_fin isn S u b Hu Hnf HbB) as [Hu' Et]. set (u' := u <| th_flags := _ |>) in *.
  assert (Ep : seg_p u' = seg_p u) by reflexivity.
  assert (Hr' : has TCP_RST (th_flags u') = false) by (rewrite <- Hur; exact (has_set 2 0 (th_flags u) ltac:(lia) ltac:(lia))). clearbody u'.
  assert (E16 : u16 (clens (unacked p ++ l0 ++ [u]) + 1 - 1) = clens (unacked p ++ l0 ++ [u])).
  { pose proof (clens_nonneg (unacked p ++ l0 ++ [u])). unfold u16. rewrite Z.mod_small; lia. }
  rewrite E16. apply guarded_ret. split; [|rewrite !clens_app; cbn [clens]; rewrite Ep; lia].
  apply replace_last with (u := u) (b := b) (B := size S); auto; [now split|lia|lia|]. apply covers_none. lia.
Qed.

Lemma send_fin_spec isn S max A N p : snd_ok isn S false max A N p -> max < 256 -> size S + 1 < 1073741824 ->
  guarded False (tcp_send_ctrl max p TCP_FIN) (fun '(err, p') =>
    (err = ERR_OK /\ snd_ok isn S true max A N p' /\ same_rest p p') \/ (err = ERR_MEM /\ refused isn S false max A N p p')).
Proof.
  intros H Hmax Hsz. unfold tcp_send_ctrl. apply enqueue_guards with isn S A N; [exact H|reflexivity..|intros p' Hp'; right; auto|].
  intros Hb Hq. change (has TCP_FIN TCP_FIN) with true. change (has (Z.lor TCP_SYN TCP_FIN) TCP_FIN) with true. cbv iota.
  assert (Et : total S false = size S) by (unfold total; cbn; lia).
  assert (E2 : snd_lbb p = u32 (isn + size S)) by (rewrite (so_lbb _ _ _ _ _ _ _ H), Et; reflexivity).
  pose proof (so_queuelen _ _ _ _ _ _ _ H) as Eq. pose proof (clens_nonneg (unacked p ++ unsent p)).
  eapply guarded_bind; [apply segment_loop_fin; [apply (so_mss _ _ _ _ _ _ _ H)|lia..]|].
  intros [[q n]|]; [|intros _; apply guarded_ret; right; split; [reflexivity|now apply mark_memerr_refused]].
  intros [-> ->]. pose proof (so_segs _ _ _ _ _ _ _ H) as Hs. pose proof (so_covers _ _ _ _ _ _ _ H) as Hc. rewrite Et in Hc.
  assert (Hold : queues_ok isn S true (unacked p ++ unsent p) A (size S)).
  { rewrite <- (app_nil_r S) at 1. apply queues_longer. now split. }
  eapply guarded_bind; [rewrite E2; apply (append_fin_spec isn S p A); [exact Hold|lia|now rewrite Eq|lia]|].
  intros [l m] (Hl & -> & Hm). apply guarded_ret. left. split; [reflexivity|]. change (u16 (0 + 1)) with 1.
  split; [|repeat split].
  destruct (push_last_spec isn S true TCP_WRITE_FLAG_COPY (unacked p) l _ _ Hl) as [Hl' Ecl].
  pose proof (snd_ok_queued isn S [] true max A N p (push_last TCP_WRITE_FLAG_COPY l) (clens (unacked p ++ l)) 1 (Z.lor (flags p) TF_FIN) H) as K.
  rewrite app_nil_r in K. eapply snd_ok_same; [apply K|].
  - exact Hl'.
  - now rewrite Ecl.
  - lia.
  - apply total_fin.
  - lia.
  - lia.
  - exact (has_set 2 5 (flags p) ltac:(lia) ltac:(lia)).
  - repeat split.
Qed.

(** ** The timers *)

Section Timers.
Context (isn : Z) (S : list Z) (fin : bool) (netif_list : list netif) (netif_default : option netif).

Lemma rexmit_rto_spec max A N c : snd_ok isn S fin max A N (pcb c) ->
  guarded False (tcp_rexmit_rto netif_list netif_default c) (fun c' =>
    exists N', snd_ok isn S fin max A N' (pcb c') /\ sends isn S fin c c' /\ N <= N').
Proof.
  intros H. unfold tcp_rexmit_rto. destruct (unacked (pcb c)) as [|s l] eqn:E.
  { apply guarded_ret. exists N. split; [exact H|]. split; [apply sends_refl|lia]. }
  set (p := _ <| rttest := 0 |>). eapply guarded_bind; [apply (output_spec isn S fin netif_list netif_default max A N (c <| pcb := p |>))|].
  - destruct H as []. rewrite E in *. constructor; cbn; auto.
  - intros [e c'] (N' & H1 & H2 & H3). apply guarded_ret. exists N'. split; [exact H1|]. split; [|exact H3].
    eapply sends_trans; [apply sends_pcb|exact H2].
Qed.

(** The first byte of a segment. *)
Lemma probe_carries seg a b l : carries isn S fin seg a -> concat (seg_p seg) = b :: l ->
  carries isn S fin (TcpSeg [[b]] 1 0 (seg_seqno seg) TCP_ACK) a.
Proof.
  intros Hc E. pose proof (carries_tot_len _ _ _ _ _ Hc) as Et. unfold tot_len in Et. rewrite E in Et. cbn [length] in Et.
  pose proof (ca_data _ _ _ _ _ Hc) as Hd. rewrite E in Hd. destruct Hc. constructor; cbn; auto; try lia; try discriminate.
  - rewrite <- (slice_take S a (seg_len seg) 1) by lia. rewrite <- Hd. reflexivity.
  - reflexivity.
Qed.

Lemma zero_window_probe_spec max A N c : snd_ok isn S fin max A N (pcb c) ->
  guarded False (tcp_zero_window_probe c) (fun c' => snd_ok isn S fin max A N (pcb c') /\ sends isn S fin c c').
Proof.
  intros H. unfold tcp_zero_window_probe. pose proof (so_segs _ _ _ _ _ _ _ H) as Hs.
  destruct (unacked (pcb c) ++ unsent (pcb c)) as [|seg l]; [apply guarded_ret; split; [exact H|apply sends_refl]|].
  apply Forall_cons in Hs. destruct Hs as [[(a & Ha) _] _].
  apply guarded_bind with (fun _ => True); [now apply guarded_malloc|]. intros [|] _; cbn [negb]; [|apply guarded_ret; split; [exact H|apply sends_refl]].
  unfold tcp_output_set_header. cbv zeta. set (p := _ <| rcv_ann_right_edge := _ |>).
  assert (Hp : snd_ok isn S fin max A N p) by (eapply snd_ok_same; [exact H|repeat split]).
  assert (Hsend : forall k, packet_ok isn S fin k -> sends isn S fin c (ip_send k (c <| pcb := p |>))).
  { intros k Hk. split; [|auto]. exists [k]. split; [reflexivity|]. constructor; [exact Hk|constructor]. }
  destruct (has TCP_FIN (th_flags seg) && (seg_len seg =? 0)) eqn:E.
  - apply guarded_ret. split; [exact Hp|]. apply Hsend. right. exists a. apply andb_prop in E. destruct E as [Ef Ez].
    apply Z.eqb_eq in Ez. destruct Ha. rewrite Ez in *. destruct (ca_fin Ef) as [Hfin Hend].
    constructor; cbn; auto; try lia; try discriminate. reflexivity.
  - destruct (concat (seg_p seg)) as [|b r] eqn:Ed.
    + exfalso. pose proof (carries_tot_len _ _ _ _ _ Ha) as Et. unfold tot_len in Et. rewrite Ed in Et. cbn in Et.
      pose proof (carries_tcplen _ _ _ _ _ Ha) as El. pose proof (ca_some _ _ _ _ _ Ha). rewrite <- Et in *.
      change (0 =? 0) with true in E. rewrite andb_true_r in E. rewrite E in El. cbn in El. lia.
    + apply guarded_ret. split; [exact Hp|]. apply Hsend. right. exists a. exact (probe_carries seg a b r Ha Ed).
Qed.
End Timers.
