(* ===== verification/TcpProc.v ===== *)
(** * lwIP: TCP, the state machine

    Closing and removing connections ([lwip/src/core/tcp.c]), the options of a
    segment, the processing of a segment in each state, and what [tcp_input]
    does for a connection that it has found ([tcp_in.c]); the timers, for one
    connection.  The functions of the application are a parameter: what they
    do to the connection, and what they return.  A connection that the code
    has removed from its lists is in the state [CLOSED]; the function
    [tcp_recv_null] that the code puts in [recv] is [None] here, which it
    treats in the same way. *)
From Stdlib Require Import ZArith List Lia Bool.
From stdpp Require Import base gmap list.
From S2P Require Import Prelude CMonad Pbuf Inet Netif IpHdr IpOut Tcp TcpIn.
#[local] Open Scope Z_scope.
#[local] Open Scope cmonad_scope.
#[local] Open Scope record_scope.

Definition ERR_ABRT : Z := -5.
Definition ERR_RST : Z := -6.

Definition TCP_SLOW_INTERVAL : Z := 500.
Definition TCP_FIN_WAIT_TIMEOUT : Z := 20000.
Definition TCP_SYN_RCVD_TIMEOUT : Z := 20000.
Definition TCP_OOSEQ_TIMEOUT : Z := 6.
Definition TCP_MSL : Z := 60000.
Definition TCP_KEEPIDLE_DEFAULT : Z := 7200000.
Definition TCP_KEEPINTVL_DEFAULT : Z := 75000.
Definition TCP_MAXIDLE : Z := 9 * TCP_KEEPINTVL_DEFAULT.
Definition TCP_MAXRTX : Z := 12.
Definition TCP_SYNMAXRTX : Z := 6.
Definition TCP_PRIO_NORMAL : Z := 64.
Definition SOF_KEEPALIVE : Z := 0x0008.

Definition tcp_backoff : list Z := [1; 2; 3; 4; 5; 6; 7; 7; 7; 7; 7; 7; 7].
Definition tcp_persist_backoff : list Z := [3; 6; 12; 24; 48; 96; 120].

(** ** Options *)

Definition opt_at (i : tcp_in) (c : Z) : M Z :=
  match in_opts i !! Z.to_nat c with Some b => ret b | None => ub end.

(** [for (c = 0; c < max_c; )] *)
Fixpoint parse_loop (fuel : nat) (i : tcp_in) (c max_c : Z) (p : tcp_pcb) : M tcp_pcb :=
  match fuel with
  | O => out_of_fuel
  | S fuel' =>
      if negb (c <? max_c) then ret p
      else
        opt <- opt_at i c;;
        if opt =? 0 then ret p
        else if opt =? 1 then parse_loop fuel' i (u16 (c + 1)) max_c p
        else if opt =? 2 then
          l <- opt_at i (c + 1);;
          if negb (l =? 4) || (max_c <? c + 4) then ret p
          else
            b1 <- opt_at i (c + 2);;
            b2 <- opt_at i (c + 3);;
            let m := Z.lor (Z.shiftl b1 8) b2 in
            let p := p <| mss := (if (TCP_MSS <? m) || (m =? 0) then TCP_MSS else m) |> in
            parse_loop fuel' i (u16 (c + 4)) max_c p
        else
          l <- opt_at i (c + 1);;
          if l =? 0 then ret p else parse_loop fuel' i (u16 (c + l)) max_c p
  end.

Definition tcp_parseopt (i : tcp_in) (p : tcp_pcb) : M tcp_pcb :=
  if 5 <? hdrlen i then
    let max_c := (hdrlen i - 5) * 4 in
    parse_loop (S (Z.to_nat max_c)) i 0 max_c p
  else ret p.

(** ** Removing a connection *)

Definition tcp_pcb_purge (p : tcp_pcb) : tcp_pcb :=
  match state p with
  | CLOSED | TIME_WAIT | LISTEN => p
  | _ => p <| refused_data := None |> <| rtime := -1 |> <| ooseq := [] |> <| unsent := [] |> <| unacked := [] |>
  end.

Section TcpProc.
Variables (netif_list : list netif) (netif_default : option netif).
Variable snd_queuelen_max : Z.

(** What the application's function of this number does when it is called. *)
Variable app : Z -> event -> conn -> M (Z * conn).

Definition tcp_event (f : Z) (e : event) (c : conn) : M (Z * conn) :=
  '(err, c) <- app f e c;;
  ret (err, c <| events := events c ++ [(e, err)] |>).

(** [TCP_EVENT_ACCEPT], [TCP_EVENT_SENT], [TCP_EVENT_CONNECTED] and
    [TCP_EVENT_POLL] *)
Definition event_opt (f : option Z) (e : event) (c : conn) : M (Z * conn) :=
  match f with Some f => tcp_event f e c | None => ret (ERR_OK, c) end.

Definition TCP_EVENT_ERR (f : option Z) (err : Z) (c : conn) : M conn :=
  '(_, c) <- event_opt f (EV_ERR err) c;;
  ret c.

Definition empty {A} (l : list A) : bool := match l with [] => true | _ => false end.

Definition tcp_pcb_remove (c : conn) : M conn :=
  let c := c <| pcb := tcp_pcb_purge (pcb c) |> in
  c <- (if negb (bool_decide (state (pcb c) = TIME_WAIT)) && negb (bool_decide (state (pcb c) = LISTEN)) && has TF_ACK_DELAY (flags (pcb c))
        then
          '(_, c) <- tcp_output netif_list netif_default (c <| pcb := (pcb c) <| flags := Z.lor (flags (pcb c)) TF_ACK_NOW |> |>);;
          ret c
        else ret c);;
  _ <- lwip_assert (bool_decide (state (pcb c) = LISTEN) || empty (unsent (pcb c)) && empty (unacked (pcb c)) && empty (ooseq (pcb c)));;
  ret (c <| pcb := (pcb c) <| state := CLOSED |> |>).

Definition tcp_abandon (reset : bool) (c : conn) : M conn :=
  if bool_decide (state (pcb c) = TIME_WAIT) then tcp_pcb_remove c
  else
    let p := pcb c in
    c <- tcp_pcb_remove c;;
    c <- TCP_EVENT_ERR (errf p) ERR_ABRT c;;
    if reset then tcp_rst (snd_nxt p) (rcv_nxt p) (local_ip p) (remote_ip p) (local_port p) (remote_port p) c else ret c.

(** A connection that listens has a structure of its own. *)
Definition tcp_close (c : conn) : M (Z * conn) :=
  let send_fin (s : tcp_state) :=
    '(err, p) <- tcp_send_ctrl snd_queuelen_max (pcb c) TCP_FIN;;
    if err =? ERR_OK then
      '(_, c) <- tcp_output netif_list netif_default (c <| pcb := p <| state := s |> |>);;
      ret (err, c)
    else ret (err, c <| pcb := p |>) in
  match state (pcb c) with
  | SYN_SENT => c <- tcp_pcb_remove c;; ret (ERR_OK, c)
  | SYN_RCVD | ESTABLISHED => send_fin FIN_WAIT_1
  | CLOSE_WAIT => send_fin LAST_ACK
  | _ => ret (ERR_OK, c)
  end.

(** [TCP_EVENT_RECV], with [tcp_recv_null] *)
Definition TCP_EVENT_RECV (d : option chain) (c : conn) : M (Z * conn) :=
  match recv (pcb c) with
  | Some f => tcp_event f (EV_RECV d) c
  | None =>
      match d with
      | Some q => c <- tcp_recved netif_list netif_default (tot_len q) c;; ret (ERR_OK, c)
      | None => tcp_close c
      end
  end.

(** ** Processing a segment *)

Definition tcp_eff_send_mss (sendmss addr : Z) : Z :=
  match ip_route netif_list netif_default addr with
  | Some n => if negb (nf_mtu n =? 0) then Z.min sendmss (u16 (nf_mtu n - IP_HLEN - TCP_HLEN)) else sendmss
  | None => sendmss
  end.

Definition reset_reply (i : tcp_in) (c : conn) : M conn :=
  tcp_rst (ackno i) (u32 (seqno i + tcplen i)) (in_dest_ip i) (in_src_ip i) (in_dest i) (in_src i) c.

(** [case SYN_SENT] *)
Definition process_syn_sent (i : tcp_in) (c : conn) : M conn :=
  let p := pcb c in
  if has TCP_ACK (in_flags i) && has TCP_SYN (in_flags i) then
    match unacked p with
    | [] => ub
    | rseg :: l =>
        if ackno i =? u32 (seg_seqno rseg + 1) then
          let p := p <| snd_buf := u16 (snd_buf p + 1) |> <| rcv_nxt := u32 (seqno i + 1) |> in
          let p := p <| rcv_ann_right_edge := rcv_nxt p |> <| lastack := ackno i |> <| snd_wnd := in_wnd i |>
                     <| snd_wl1 := u32 (seqno i - 1) |> <| state := ESTABLISHED |> in
          let p := p <| mss := tcp_eff_send_mss (mss p) (remote_ip p) |> in
          let p := p <| ssthresh := u16 (mss p * 10) |> in
          let p := p <| cwnd := (if cwnd p =? 1 then u16 (mss p * 2) else mss p) |> in
          _ <- lwip_assert (0 <? snd_queuelen p);;
          let p := p <| snd_queuelen := u16 (snd_queuelen p - 1) |> <| unacked := l |> in
          let p := match l with [] => p <| rtime := -1 |> | _ => p <| rtime := 0 |> <| nrtx := 0 |> end in
          '(_, c) <- event_opt (connected p) EV_CONNECTED (c <| pcb := p |>);;
          tcp_ack_now netif_list netif_default c
        else reset_reply i c
    end
  else if has TCP_ACK (in_flags i) then reset_reply i c
  else ret c.

(** The other side has closed: [tcp_ack_now], and the state [s]. *)
Definition ack_fin (s : tcp_state) (c : conn) : M conn :=
  c <- tcp_ack_now netif_list netif_default c;;
  ret (c <| pcb := (pcb c) <| state := s |> |>).

Definition ack_fin_wait (c : conn) : M conn :=
  c <- tcp_ack_now netif_list netif_default c;;
  ret (c <| pcb := (tcp_pcb_purge (pcb c)) <| state := TIME_WAIT |> |>).

(** [case SYN_RCVD] *)
Definition process_syn_rcvd (i : tcp_in) (c : conn) : M (Z * (tcp_in * conn)) :=
  let p := pcb c in
  if has TCP_ACK (in_flags i) then
    if TCP_SEQ_BETWEEN (ackno i) (lastack p + 1) (snd_nxt p) then
      _ <- lwip_assert (match accept p with Some _ => true | None => false end);;
      '(err, c) <- event_opt (accept p) EV_ACCEPT (c <| pcb := p <| state := ESTABLISHED |> |>);;
      if negb (err =? ERR_OK) then
        c <- tcp_abandon true c;;
        ret (ERR_ABRT, (i, c))
      else
        let old_cwnd := cwnd (pcb c) in
        '(i, c) <- tcp_receive netif_list netif_default i c;;
        let p := pcb c in
        let p := if negb (acked p =? 0) then p <| acked := u16 (acked p - 1) |> else p in
        let p := p <| cwnd := (if old_cwnd =? 1 then u16 (mss p * 2) else mss p) |> in
        let c := c <| pcb := p |> in
        c <- (if has TF_GOT_FIN (recv_flags i) then ack_fin CLOSE_WAIT c else ret c);;
        ret (ERR_OK, (i, c))
    else
      c <- reset_reply i c;;
      ret (ERR_OK, (i, c))
  else if has TCP_SYN (in_flags i) && (seqno i =? u32 (rcv_nxt p - 1)) then ret (ERR_OK, (i, c <| pcb := tcp_rexmit p |>))
  else ret (ERR_OK, (i, c)).

(** All that has been sent is acknowledged. *)
Definition acks_all (i : tcp_in) (c : conn) : bool := has TCP_ACK (in_flags i) && (ackno i =? snd_nxt (pcb c)).

(** The states from [ESTABLISHED] on, behind [tcp_receive]. *)
Definition process_received (s : tcp_state) (i : tcp_in) (c : conn) : M (tcp_in * conn) :=
  let got_fin := has TF_GOT_FIN (recv_flags i) in
  match s with
  | ESTABLISHED | CLOSE_WAIT => c <- (if got_fin then ack_fin CLOSE_WAIT c else ret c);; ret (i, c)
  | FIN_WAIT_1 =>
      c <- (if got_fin then if acks_all i c then ack_fin_wait c else ack_fin CLOSING c
            else if acks_all i c then ret (c <| pcb := (pcb c) <| state := FIN_WAIT_2 |> |>) else ret c);;
      ret (i, c)
  | FIN_WAIT_2 => c <- (if got_fin then ack_fin_wait c else ret c);; ret (i, c)
  | CLOSING =>
      ret (i, if acks_all i c then c <| pcb := (tcp_pcb_purge (pcb c)) <| state := TIME_WAIT |> |> else c)
  | LAST_ACK => ret (if acks_all i c then i <| recv_flags := Z.lor (recv_flags i) TF_CLOSED |> else i, c)
  | _ => ret (i, c)
  end.

Definition acceptable_reset (i : tcp_in) (p : tcp_pcb) : bool :=
  if bool_decide (state p = SYN_SENT) then ackno i =? snd_nxt p
  else TCP_SEQ_BETWEEN (seqno i) (rcv_nxt p) (rcv_nxt p + rcv_wnd p).

Definition tcp_process (i : tcp_in) (c : conn) : M (Z * (tcp_in * conn)) :=
  let p := pcb c in
  if has TCP_RST (in_flags i) then
    if acceptable_reset i p then
      _ <- lwip_assert (negb (bool_decide (state p = CLOSED)));;
      ret (ERR_RST, (i <| recv_flags := Z.lor (recv_flags i) TF_RESET |>,
                     c <| pcb := p <| flags := without_flag TF_ACK_DELAY (flags p) |> |>))
    else ret (ERR_OK, (i, c))
  else if has TCP_SYN (in_flags i) && negb (bool_decide (state p = SYN_SENT)) && negb (bool_decide (state p = SYN_RCVD)) then
    c <- tcp_ack_now netif_list netif_default c;;
    ret (ERR_OK, (i, c))
  else
    p <- tcp_parseopt i (p <| tmr := tcp_ticks c |> <| keep_cnt_sent := 0 |>);;
    let c := c <| pcb := p |> in
    match state p with
    | SYN_SENT => c <- process_syn_sent i c;; ret (ERR_OK, (i, c))
    | SYN_RCVD => process_syn_rcvd i c
    | CLOSED | LISTEN | TIME_WAIT => ret (ERR_OK, (i, c))
    | s =>
        '(i, c) <- tcp_receive netif_list netif_default i c;;
        r <- process_received s i c;;
        ret (ERR_OK, r)
    end.

(** The application gets what it refused before; [false]: it still refuses. *)
Definition offer_refused (c : conn) : M (bool * conn) :=
  match refused_data (pcb c) with
  | None => ret (true, c)
  | Some d =>
      '(err, c) <- TCP_EVENT_RECV (Some d) c;;
      ret (if err =? ERR_OK then (true, c <| pcb := (pcb c) <| refused_data := None |> |>) else (false, c))
  end.

(** What the application is told behind [tcp_process]. *)
Definition notify (i : tcp_in) (c : conn) : M conn :=
  '(_, c) <- (if 0 <? acked (pcb c) then event_opt (sent (pcb c)) (EV_SENT (acked (pcb c))) c else ret (ERR_OK, c));;
  c <- match recv_data i with
       | None => ret c
       | Some d =>
           '(err, c) <- TCP_EVENT_RECV (Some d) c;;
           ret (if err =? ERR_OK then c else c <| pcb := (pcb c) <| refused_data := Some d |> |>)
       end;;
  if has TF_GOT_FIN (recv_flags i) then '(_, c) <- TCP_EVENT_RECV None c;; ret c else ret c.

(** [tcp_input], for a segment that belongs to the connection. *)
Definition tcp_input_segment (i : tcp_in) (c : conn) : M conn :=
  let i := i <| recv_data := None |> <| recv_flags := 0 |> in
  '(go, c) <- offer_refused c;;
  if negb go then ret c
  else
    '(err, (i, c)) <- tcp_process i (c <| in_input := true |>);;
    c <- (if err =? ERR_ABRT then ret c
          else if has TF_RESET (recv_flags i) then
            c <- TCP_EVENT_ERR (errf (pcb c)) ERR_RST c;;
            tcp_pcb_remove c
          else if has TF_CLOSED (recv_flags i) then tcp_pcb_remove c
          else
            c <- notify i c;;
            '(_, c) <- tcp_output netif_list netif_default (c <| in_input := false |>);;
            ret c);;
    ret (c <| in_input := false |>).

Definition tcp_timewait_input (i : tcp_in) (c : conn) : M conn :=
  let answer (c : conn) :=
    if 0 <? tcplen i then
      '(_, c) <- tcp_output netif_list netif_default (c <| pcb := (pcb c) <| flags := Z.lor (flags (pcb c)) TF_ACK_NOW |> |>);;
      ret c
    else ret c in
  if has TCP_RST (in_flags i) then ret c
  else if has TCP_SYN (in_flags i) then
    if TCP_SEQ_BETWEEN (seqno i) (rcv_nxt (pcb c)) (rcv_nxt (pcb c) + rcv_wnd (pcb c)) then reset_reply i c else answer c
  else if has TCP_FIN (in_flags i) then answer (c <| pcb := (pcb c) <| tmr := tcp_ticks c |> |>)
  else answer c.

(** ** Opening a connection *)

(** What [tcp_alloc] puts in a new structure; [iss] is from [tcp_next_iss]. *)
Definition tcp_alloc (iss ticks : Z) : tcp_pcb :=
  {| local_ip := 0; remote_ip := 0; so_options := 0; tos := 0; ttl := TCP_TTL; state := CLOSED; prio := TCP_PRIO_NORMAL;
     callback_arg := 0; local_port := 0; accept := None; remote_port := 0; flags := 0;
     rcv_nxt := 0; rcv_wnd := TCP_WND; rcv_ann_wnd := TCP_WND; rcv_ann_right_edge := 0;
     tmr := ticks; polltmr := 0; pollinterval := 0; rtime := -1; mss := TCP_MSS; rttest := 0; rtseq := 0; sa := 0;
     sv := 3000 / TCP_SLOW_INTERVAL; rto := 3000 / TCP_SLOW_INTERVAL; nrtx := 0; lastack := iss; dupacks := 0; cwnd := 1; ssthresh := 0;
     snd_nxt := iss; snd_wnd := 0; snd_wl1 := 0; snd_wl2 := iss; snd_lbb := iss; acked := 0; snd_buf := TCP_SND_BUF; snd_queuelen := 0;
     unsent := []; unacked := []; ooseq := []; refused_data := None;
     sent := None; recv := None; connected := None; poll := None; errf := None;
     keep_idle := TCP_KEEPIDLE_DEFAULT; persist_cnt := 0; persist_backoff := 0; keep_cnt_sent := 0 |}.

(** [iss] is from [tcp_next_iss], [port0] from [tcp_new_port]; the address is
    not null. *)
Definition tcp_connect (iss port0 ipaddr port : Z) (f : option Z) (c : conn) : M (Z * conn) :=
  let p := pcb c in
  _ <- lwip_assert (bool_decide (state p = CLOSED));;
  let p := p <| remote_ip := ipaddr |> <| remote_port := port |> in
  let p := if local_port p =? 0 then p <| local_port := port0 |> else p in
  let p := p <| rcv_nxt := 0 |> <| snd_nxt := iss |> <| lastack := u32 (iss - 1) |> <| snd_lbb := u32 (iss - 1) |>
             <| rcv_wnd := TCP_WND |> <| rcv_ann_wnd := TCP_WND |> <| rcv_ann_right_edge := 0 |> <| snd_wnd := TCP_WND |> in
  let p := p <| mss := tcp_eff_send_mss TCP_MSS ipaddr |> in
  let p := p <| cwnd := 1 |> <| ssthresh := u16 (mss p * 10) |> <| state := SYN_SENT |> <| connected := f |> in
  '(err, p) <- tcp_enqueue snd_queuelen_max p None 0 TCP_SYN 0 TF_SEG_OPTS_MSS;;
  if err =? ERR_OK then
    '(_, c) <- tcp_output netif_list netif_default (c <| pcb := p |>);;
    ret (err, c)
  else ret (err, c <| pcb := p |>).

(** [struct tcp_pcb_listen] *)
Record tcp_pcb_listen : Type := TcpPcbListen
  { l_local_ip : Z; l_so_options : Z; l_callback_arg : Z; l_local_port : Z; l_accept : option Z }.

(** [c] is the place of the connection that the segment may open, and [iss]
    from [tcp_next_iss]; no other connection is given up for its structure. *)
Definition tcp_listen_input (iss : Z) (l : tcp_pcb_listen) (i : tcp_in) (c : conn) : M (Z * conn) :=
  if has TCP_ACK (in_flags i) then
    c <- tcp_rst (u32 (ackno i + 1)) (u32 (seqno i + tcplen i)) (in_dest_ip i) (in_src_ip i) (in_dest i) (in_src i) c;;
    ret (ERR_OK, c)
  else if negb (has TCP_SYN (in_flags i)) then ret (ERR_OK, c)
  else
  ok <- malloc;;
  if negb ok then ret (ERR_MEM, c)
  else
  let p := (tcp_alloc iss (tcp_ticks c)) <| local_ip := in_dest_ip i |> <| local_port := l_local_port l |> <| remote_ip := in_src_ip i |>
             <| remote_port := in_src i |> <| state := SYN_RCVD |> <| rcv_nxt := u32 (seqno i + 1) |> in
  let p := p <| rcv_ann_right_edge := rcv_nxt p |> <| snd_wnd := in_wnd i |> <| ssthresh := in_wnd i |>
             <| snd_wl1 := u32 (seqno i - 1) |> <| callback_arg := l_callback_arg l |> <| accept := l_accept l |>
             <| so_options := Z.land (l_so_options l) 0x199 |> in
  p <- tcp_parseopt i p;;
  let p := p <| mss := tcp_eff_send_mss (mss p) (remote_ip p) |> in
  '(err, p) <- tcp_enqueue snd_queuelen_max p None 0 (Z.lor TCP_SYN TCP_ACK) 0 TF_SEG_OPTS_MSS;;
  let c := c <| pcb := p |> in
  if negb (err =? ERR_OK) then
    c <- tcp_abandon false c;;
    ret (err, c)
  else tcp_output netif_list netif_default c.

(** ** Timers *)

(** The persist timer, or the retransmission timer. *)
Definition slow_resend (c : conn) : M conn :=
  let p := pcb c in
  if 0 <? persist_backoff p then
    let p := p <| persist_cnt := u32 (persist_cnt p + 1) |> in
    match tcp_persist_backoff !! Z.to_nat (persist_backoff p - 1) with
    | None => ub
    | Some n =>
        if n <=? persist_cnt p then
          let p := p <| persist_cnt := 0 |> in
          let p := if persist_backoff p <? 7 then p <| persist_backoff := persist_backoff p + 1 |> else p in
          tcp_zero_window_probe (c <| pcb := p |>)
        else ret (c <| pcb := p |>)
    end
  else
    let p := if 0 <=? rtime p then p <| rtime := s16 (rtime p + 1) |> else p in
    if negb (empty (unacked p)) && (rto p <=? rtime p) then
      p <- (if negb (bool_decide (state p = SYN_SENT)) then
              match tcp_backoff !! Z.to_nat (nrtx p) with
              | None => ub
              | Some n => ret (p <| rto := s16 (Z.shiftl (Z.shiftr (sa p) 3 + sv p) n) |>)
              end
            else ret p);;
      let p := p <| rtime := 0 |> in
      let p := p <| ssthresh := Z.shiftr (Z.min (cwnd p) (snd_wnd p)) 1 |> in
      let p := if ssthresh p <? mss p then p <| ssthresh := u16 (mss p * 2) |> else p in
      tcp_rexmit_rto netif_list netif_default (c <| pcb := p <| cwnd := mss p |> |>)
    else ret (c <| pcb := p |>).

(** How long the connection has had nothing from the other side, against
    [limit] milliseconds. *)
Definition idle_for (limit : Z) (c : conn) : bool := limit / TCP_SLOW_INTERVAL <? u32 (tcp_ticks c - tmr (pcb c)).

(** The connection has been kept alive for long enough, or a probe is sent;
    [true]: it is removed. *)
Definition slow_keepalive (c : conn) : M (bool * conn) :=
  if has SOF_KEEPALIVE (so_options (pcb c)) && (bool_decide (state (pcb c) = ESTABLISHED) || bool_decide (state (pcb c) = CLOSE_WAIT)) then
    if idle_for (keep_idle (pcb c) + TCP_MAXIDLE) c then ret (true, c)
    else if idle_for (keep_idle (pcb c) + keep_cnt_sent (pcb c) * TCP_KEEPINTVL_DEFAULT) c then
      c <- tcp_keepalive c;;
      ret (false, c <| pcb := (pcb c) <| keep_cnt_sent := u8 (keep_cnt_sent (pcb c) + 1) |> |>)
    else ret (false, c)
  else ret (false, c).

(** [tcp_slowtmr] for one active connection, behind [++tcp_ticks]. *)
Definition tcp_slowtmr (c : conn) : M conn :=
  let p := pcb c in
  _ <- lwip_assert (negb (bool_decide (state p = CLOSED)) && negb (bool_decide (state p = LISTEN)) && negb (bool_decide (state p = TIME_WAIT)));;
  let tired := (bool_decide (state p = SYN_SENT) && (nrtx p =? TCP_SYNMAXRTX)) || (nrtx p =? TCP_MAXRTX) in
  c <- (if tired then ret c else slow_resend c);;
  let remove1 := bool_decide (state (pcb c) = FIN_WAIT_2) && idle_for TCP_FIN_WAIT_TIMEOUT c in
  '(pcb_reset, c) <- slow_keepalive c;;
  let p := pcb c in
  let c := if negb (empty (ooseq p)) && (u32 (rto p * TCP_OOSEQ_TIMEOUT) <=? u32 (tcp_ticks c - tmr p))
           then c <| pcb := p <| ooseq := [] |> |> else c in
  let remove2 := bool_decide (state (pcb c) = SYN_RCVD) && idle_for TCP_SYN_RCVD_TIMEOUT c in
  let remove3 := bool_decide (state (pcb c) = LAST_ACK) && idle_for (2 * TCP_MSL) c in
  if tired || remove1 || pcb_reset || remove2 || remove3 then
    let p := tcp_pcb_purge (pcb c) in
    c <- TCP_EVENT_ERR (errf p) ERR_ABRT (c <| pcb := p |>);;
    c <- (if pcb_reset then tcp_rst (snd_nxt p) (rcv_nxt p) (local_ip p) (remote_ip p) (local_port p) (remote_port p) c else ret c);;
    ret (c <| pcb := (pcb c) <| state := CLOSED |> |>)
  else
    let p := (pcb c) <| polltmr := u8 (polltmr (pcb c) + 1) |> in
    if pollinterval p <=? polltmr p then
      '(err, c) <- event_opt (poll p) EV_POLL (c <| pcb := p <| polltmr := 0 |> |>);;
      if err =? ERR_OK then
        '(_, c) <- tcp_output netif_list netif_default c;;
        ret c
      else ret c
    else ret (c <| pcb := p |>).

(** [tcp_fasttmr] for one active connection. *)
Definition tcp_fasttmr (c : conn) : M conn :=
  '(_, c) <- offer_refused c;;
  if has TF_ACK_DELAY (flags (pcb c)) then
    c <- tcp_ack_now netif_list netif_default c;;
    ret (c <| pcb := (pcb c) <| flags := without_flag (Z.lor TF_ACK_DELAY TF_ACK_NOW) (flags (pcb c)) |> |>)
  else ret c.
End TcpProc.
