(* ===== verification/TcpEnd.v ===== *)
(** * lwIP: the end of a TCP connection

    What sending leaves alone: the functions that send do not touch what the
    connection receives, do not call the application, and acknowledge what the
    connection has received.  Then both directions of a connection at once:
    the stream that it sends and the stream of the other side, and what every
    operation does to them. *)
From Stdlib Require Import ZArith List Lia Bool.
From stdpp Require Import base gmap list.
From S2P Require Import Prelude CMonad Pbuf Inet Netif IpHdr Tcp TcpIn TcpInSpec.
From S2P Require Import TcpOutSpec TcpProc.
#[local] Open Scope Z_scope.
#[local] Open Scope cmonad_scope.
#[local] Open Scope record_scope.

(** ** Runs that return *)

Definition yields {A} (m : M A) (Q : A -> Prop) : Prop := forall h a h', m h = (Ok a, h') -> Q a.

Section Yields.
Context {A B : Type}.
Implicit Types (Q : A -> Prop) (m : M A).

Lemma yields_ret (a : A) Q : Q a -> yields (ret a) Q.
Proof. intros H h b h' E. injection E as <- _. exact H. Qed.

Lemma yields_bind m (k : A -> M B) Q (Q' : B -> Prop) : yields m Q -> (forall a, Q a -> yields (k a) Q') -> yields (bind m k) Q'.
Proof.
  intros Hm Hk h b h' E. unfold bind in E. destruct (m h) as [[a|e| |] h1] eqn:Em; try discriminate.
  exact (Hk a (Hm _ _ _ Em) _ _ _ E).
Qed.

Lemma yields_any m (k : A -> M B) (Q' : B -> Prop) : (forall a, yields (k a) Q') -> yields (bind m k) Q'.
Proof. intros Hk. apply yields_bind with (fun _ => True); [now intros h a h' E|]. intros a _. apply Hk. Qed.

Lemma yields_weaken m Q Q' : yields m Q -> (forall a, Q a -> Q' a) -> yields m Q'.
Proof. intros Hm HQ h a h' E. apply HQ. exact (Hm _ _ _ E). Qed.

Lemma yields_and m Q Q' : yields m Q -> yields m Q' -> yields m (fun a => Q a /\ Q' a).
Proof. intros H1 H2 h a h' E. split; [exact (H1 _ _ _ E)|exact (H2 _ _ _ E)]. Qed.

Lemma yields_ub Q : yields ub Q.
Proof. intros h a h' E. discriminate. Qed.

Lemma yields_throw e Q : yields (throw e) Q.
Proof. intros h a h' E. discriminate. Qed.

Lemma guarded_yields H m Q : guarded H m Q -> yields m Q.
Proof. intros Hm h a h' E. specialize (Hm h). rewrite E in Hm. exact Hm. Qed.

Lemma guarded_and H m Q Q' : guarded H m Q -> yields m Q' -> guarded H m (fun a => Q a /\ Q' a).
Proof.
  intros H1 H2 h. specialize (H1 h). specialize (H2 h). destruct (m h) as [[a|e| |] h']; cbn in *; auto. split; [exact H1|]. exact (H2 _ _ eq_refl).
Qed.
End Yields.

(** Nothing but acknowledgements of [r] is sent. *)
Definition says (r : Z) (c c' : conn) : Prop :=
  events c' = events c /\ exists ks, wire c' = wire c ++ ks /\ Forall (fun k => pk_ackno k = r) ks.

Definition quiet (c c' : conn) : Prop := same_receiver (pcb c) (pcb c') /\ says (rcv_nxt (pcb c)) c c'.

Lemma says_refl r c : says r c c.
Proof. split; [reflexivity|]. exists []. now rewrite app_nil_r. Qed.

Lemma says_same r c c' : events c' = events c -> wire c' = wire c -> says r c c'.
Proof. intros E W. split; [exact E|]. exists []. now rewrite app_nil_r. Qed.

Lemma says_trans r c1 c2 c3 : says r c1 c2 -> says r c2 c3 -> says r c1 c3.
Proof.
  intros [E1 (k1 & W1 & F1)] [E2 (k2 & W2 & F2)]. split; [congruence|]. exists (k1 ++ k2). rewrite W2, W1, app_assoc.
  split; [reflexivity|]. now apply Forall_app.
Qed.

Lemma quiet_refl c : quiet c c.
Proof. split; [apply same_receiver_refl|apply says_refl]. Qed.

Lemma quiet_trans c1 c2 c3 : quiet c1 c2 -> quiet c2 c3 -> quiet c1 c3.
Proof.
  intros [R1 S1] [R2 S2]. split; [eapply same_receiver_trans; eauto|].
  destruct R1 as [E _]. rewrite E in S2. eapply says_trans; eauto.
Qed.

Lemma quiet_pcb c p : same_receiver (pcb c) p -> quiet c (c <| pcb := p |>).
Proof. intros H. split; [exact H|now apply says_same]. Qed.

Lemma quiet_input c b : quiet c (c <| in_input := b |>).
Proof. split; [apply same_receiver_refl|now apply says_same]. Qed.

Lemma quiet_send c k : pk_ackno k = rcv_nxt (pcb c) -> quiet c (ip_send k c).
Proof.
  intros H. split; [apply same_receiver_refl|]. split; [reflexivity|]. exists [k]. split; [reflexivity|]. now constructor.
Qed.

Lemma yields_quiet_trans c c1 (m : M conn) : quiet c c1 -> yields m (quiet c1) -> yields m (quiet c).
Proof. intros H Hm. eapply yields_weaken; [exact Hm|]. intros c'. now apply quiet_trans. Qed.

(** The goal holds unless the run ends there. *)
Ltac may_fail := first [apply yields_ub | apply yields_throw].

Section Quiet.
Context (netif_list : list netif) (netif_default : option netif).

Lemma set_header_quiet p n c : same_receiver (pcb c) p ->
  quiet c (fst (tcp_output_set_header p n c)) /\ pk_ackno (snd (tcp_output_set_header p n c)) = rcv_nxt (pcb c).
Proof. intros H. split; [now apply quiet_pcb|]. apply H. Qed.

Lemma send_empty_ack_quiet c : yields (tcp_send_empty_ack c) (fun r => quiet c (snd r)).
Proof.
  unfold tcp_send_empty_ack. apply yields_any. intros [|]; cbn [negb].
  - apply yields_ret. cbn [snd]. eapply quiet_trans; [apply quiet_pcb|apply quiet_send]; repeat split.
  - apply yields_ret, quiet_refl.
Qed.

Lemma output_segment_quiet seg c : quiet c (tcp_output_segment netif_list netif_default seg c).
Proof.
  unfold tcp_output_segment.
  set (p := (pcb c) <| rcv_ann_right_edge := _ |>). assert (Hp : same_receiver (pcb c) p) by (repeat split). clearbody p.
  set (r := if ip_addr_isany (local_ip p) then _ else _).
  assert (Hr : match r with None => True | Some p' => same_receiver (pcb c) p' end).
  { unfold r. destruct (ip_addr_isany _); [|exact Hp]. destruct (ip_route _ _ _); [exact Hp|exact I]. }
  clearbody r. destruct r as [p'|]; [|now apply quiet_pcb]. clear Hp p.
  set (p1 := if rtime p' =? -1 then _ else _). assert (H1 : same_receiver (pcb c) p1) by (unfold p1; destruct (rtime p' =? -1); exact Hr).
  clearbody p1. set (p2 := if rttest p1 =? 0 then _ else _).
  assert (H2 : same_receiver (pcb c) p2) by (unfold p2; destruct (rttest p1 =? 0); exact H1). clearbody p2.
  eapply quiet_trans; [apply (quiet_pcb c p2 H2)|]. apply quiet_send. reflexivity.
Qed.

Lemma output_loop_quiet wnd l : forall c, yields (output_loop netif_list netif_default wnd l c) (quiet c).
Proof.
  induction l as [|seg l IH]; intros c; cbn [output_loop]; [apply yields_ret, quiet_refl|].
  destruct (negb _); [apply yields_ret, quiet_refl|].
  apply yields_any. intros _.
  destruct (_ && _); [apply yields_ret, quiet_refl|].
  set (seg' := if bool_decide (state ((pcb c) <| unsent := l |>) = SYN_SENT) then seg else _). clearbody seg'.
  set (p1 := if bool_decide _ then (pcb c) <| unsent := l |> else _).
  assert (H1 : same_receiver (pcb c) p1) by (unfold p1; destruct (bool_decide _); repeat split). clearbody p1.
  pose proof (output_segment_quiet seg' (c <| pcb := p1 |>)) as H2. cbv zeta.
  set (c1 := tcp_output_segment _ _ seg' _) in *. clearbody c1.
  eapply yields_quiet_trans; [|apply IH]. eapply quiet_trans; [apply (quiet_pcb c p1 H1)|]. eapply quiet_trans; [exact H2|].
  apply quiet_pcb. destruct (TCP_SEQ_LT _ _), (0 <? _); repeat split.
Qed.

Lemma output_quiet c : yields (tcp_output netif_list netif_default c) (fun r => quiet c (snd r)).
Proof.
  unfold tcp_output. destruct (in_input c); [apply yields_ret, quiet_refl|].
  destruct (_ && _); [apply send_empty_ack_quiet|].
  eapply yields_bind; [apply output_loop_quiet|]. intros c1 H1. apply yields_ret. eapply quiet_trans; [exact H1|].
  apply quiet_pcb. destruct (unsent (pcb c1)); [|destruct (_ && _)]; repeat split.
Qed.

Lemma ack_now_quiet c : yields (tcp_ack_now netif_list netif_default c) (quiet c).
Proof.
  unfold tcp_ack_now. eapply yields_bind; [apply output_quiet|]. intros [e c1] H1. apply yields_ret.
  eapply quiet_trans; [|exact H1]. apply quiet_pcb. repeat split.
Qed.

Lemma rexmit_rto_quiet c : yields (tcp_rexmit_rto netif_list netif_default c) (quiet c).
Proof.
  unfold tcp_rexmit_rto. destruct (unacked (pcb c)); [apply yields_ret, quiet_refl|].
  eapply yields_bind; [apply output_quiet|]. intros [e c1] H1. apply yields_ret.
  eapply quiet_trans; [|exact H1]. apply quiet_pcb. repeat split.
Qed.

Lemma keepalive_quiet c : yields (tcp_keepalive c) (quiet c).
Proof.
  unfold tcp_keepalive. apply yields_any. intros [|]; cbn [negb].
  - apply yields_ret. eapply quiet_trans; [apply quiet_pcb|apply quiet_send]; repeat split.
  - apply yields_ret, quiet_refl.
Qed.

Lemma zero_window_probe_quiet c : yields (tcp_zero_window_probe c) (quiet c).
Proof.
  unfold tcp_zero_window_probe. destruct (unacked (pcb c) ++ unsent (pcb c)) as [|seg l]; [apply yields_ret, quiet_refl|].
  apply yields_any. intros [|]; cbn [negb]; [|apply yields_ret, quiet_refl].
  set (h := tcp_output_set_header _ _ _). pose proof (set_header_quiet (pcb c) (seg_seqno seg) c (same_receiver_refl _)) as [H1 H2].
  fold h in H1, H2. clearbody h. destruct h as [c1 k]. cbn [fst snd] in *.
  assert (Hsend : forall k', pk_ackno k' = pk_ackno k -> quiet c (ip_send k' c1)).
  { intros k' E. eapply quiet_trans; [exact H1|]. apply quiet_send. rewrite E, H2. symmetry. apply H1. }
  destruct (_ && _); [apply yields_ret, Hsend; reflexivity|].
  destruct (concat (seg_p seg)); [may_fail|]. apply yields_ret, Hsend. reflexivity.
Qed.

(** ** Receiving *)

(** What receiving data leaves alone besides; it answers only if it does not
    take the data. *)
Definition calm (c c' : conn) : Prop := says (rcv_nxt (pcb c)) c c' /\ has TF_INFR (flags (pcb c')) = has TF_INFR (flags (pcb c)).

Lemma send_empty_ack_calm c : yields (tcp_send_empty_ack c) (fun r => calm c (snd r)).
Proof.
  eapply yields_weaken; [apply yields_and; [apply send_empty_ack_quiet|]|].
  - instantiate (1 := fun r => has TF_INFR (flags (pcb (snd r))) = has TF_INFR (flags (pcb c))). unfold tcp_send_empty_ack.
    apply yields_any. intros [|]; cbn [negb]; apply yields_ret; [|reflexivity].
    apply infr_clear.
  - intros r [[_ H1] H2]. now split.
Qed.

Lemma flag_set_infr k f : 0 <= k -> k <> 2 -> has TF_INFR (Z.lor f (2 ^ k)) = has TF_INFR f.
Proof. intros Hk Hne. change TF_INFR with (2 ^ 2). rewrite has_set by lia. destruct (Z.eqb_spec 2 k); [congruence|reflexivity]. Qed.

Lemma infr_ack_flags f : has TF_INFR (Z.lor (without_flag TF_ACK_DELAY f) TF_ACK_NOW) = has TF_INFR f.
Proof. change TF_ACK_NOW with (2 ^ 1). rewrite flag_set_infr by lia. exact (has_clear 2 0 f ltac:(lia) ltac:(lia)). Qed.

(** Nothing is sent at all. *)
Record mute (c c' : conn) : Prop := Mute
  { mu_events : events c' = events c; mu_wire : wire c' = wire c; mu_infr : has TF_INFR (flags (pcb c')) = has TF_INFR (flags (pcb c));
    mu_input : in_input c' = in_input c }.

Lemma mute_calm c c' : mute c c' -> calm c c'.
Proof. intros [E W F _]. split; [now apply says_same|exact F]. Qed.

Lemma mute_ack_now c : in_input c = true -> yields (tcp_ack_now netif_list netif_default c) (fun c' => mute c c' /\ rcv_nxt (pcb c') = rcv_nxt (pcb c)).
Proof.
  intros Hi. unfold tcp_ack_now, tcp_output. cbn. rewrite Hi. apply yields_ret. split; [|reflexivity].
  constructor; [reflexivity..| |reflexivity]. exact (flag_set_infr 1 (flags (pcb c)) ltac:(lia) ltac:(lia)).
Qed.

Lemma mute_ack c : in_input c = true -> yields (tcp_ack netif_list netif_default c) (mute c).
Proof.
  intros Hi. unfold tcp_ack, tcp_output. destruct (has TF_ACK_DELAY _).
  - cbn. rewrite Hi. apply yields_ret. constructor; [reflexivity..|apply infr_ack_flags|reflexivity].
  - apply yields_ret. constructor; [reflexivity..| |reflexivity]. exact (flag_set_infr 0 (flags (pcb c)) ltac:(lia) ltac:(lia)).
Qed.

(** The same flags. *)
Definition keeps_flags (p p' : tcp_pcb) : Prop := flags p' = flags p.

Lemma update_wnd_flags p : flags (snd (tcp_update_rcv_ann_wnd p)) = flags p.
Proof. unfold tcp_update_rcv_ann_wnd. destruct (TCP_SEQ_GEQ _ _); [reflexivity|]. destruct (TCP_SEQ_GT _ _); reflexivity. Qed.

Lemma advance_flags len p : yields (advance len p) (keeps_flags p).
Proof.
  unfold advance. apply yields_any. intros _. apply yields_ret.
  unfold keeps_flags. now rewrite update_wnd_flags.
Qed.

Lemma dequeue_loop_flags l : forall i p, yields (dequeue_loop l i p) (fun r => keeps_flags p (snd r)).
Proof.
  induction l as [|s l IH]; intros i p; cbn [dequeue_loop]; [now apply yields_ret|].
  destruct (_ =? _); [|now apply yields_ret]. eapply yields_bind; [apply advance_flags|]. intros p1 H1.
  eapply yields_weaken; [apply IH|]. intros r H2. unfold keeps_flags in *. rewrite H2. destruct (_ && _); exact H1.
Qed.

Lemma trim_to_ooseq_flags i p : yields (trim_to_ooseq i p) (fun r => keeps_flags p (snd r)).
Proof.
  unfold trim_to_ooseq. destruct (ooseq p); [now apply yields_ret|]. destruct (has _ _); [now apply yields_ret|].
  destruct (seq_covered _ _). apply yields_any. intros j. now apply yields_ret.
Qed.

Lemma queue_segment_flags i p : yields (queue_segment i p) (keeps_flags p).
Proof. unfold queue_segment. destruct (ooseq p); apply yields_any; intros q; now apply yields_ret. Qed.

Lemma in_sequence_mute i c : in_input c = true -> yields (in_sequence netif_list netif_default i c) (fun r => mute c (snd r)).
Proof.
  intros Hi. unfold in_sequence. apply yields_any. intros i1. eapply yields_bind; [apply trim_to_ooseq_flags|]. intros [i2 p2] H2.
  cbn [snd] in H2. eapply yields_bind; [apply advance_flags|]. intros p3 H3. eapply yields_bind; [apply dequeue_loop_flags|].
  intros [i4 p4] H4. cbn [snd] in H4. eapply yields_bind; [now apply mute_ack|]. intros c5 [H5 H6 H7 H8]. apply yields_ret. cbn [snd].
  unfold keeps_flags in *. constructor; [exact H5|exact H6| |exact H8]. rewrite H7. cbn. rewrite H4, H3. cbn. now rewrite H2.
Qed.

Lemma trim_front_mute i c : in_input c = true ->
  yields (trim_front netif_list netif_default i c) (fun r => mute c (snd r) /\ rcv_nxt (pcb (snd r)) = rcv_nxt (pcb c)).
Proof.
  intros Hi. unfold trim_front. destruct (TCP_SEQ_BETWEEN _ _ _).
  - apply yields_any. intros _. apply yields_any. intros _. apply yields_any. intros q. apply yields_ret. split; [now constructor|reflexivity].
  - destruct (TCP_SEQ_LT _ _); [|apply yields_ret; split; [now constructor|reflexivity]].
    eapply yields_bind; [now apply mute_ack_now|]. intros c1 H1. apply yields_ret. exact H1.
Qed.

Lemma receive_data_calm i c : in_input c = true -> yields (receive_data netif_list netif_default i c) (fun r => calm c (snd r)).
Proof.
  intros Hi. unfold receive_data. destruct (0 <? tcplen i).
  - eapply yields_bind; [now apply trim_front_mute|]. intros [i1 c1] [Hm Hn]. cbn [snd] in *. pose proof (mute_calm _ _ Hm) as Hc.
    assert (Hi1 : in_input c1 = true) by (now rewrite (mu_input _ _ Hm)).
    assert (Htrans : forall c2, calm c1 c2 -> calm c c2).
    { intros c2 [S2 F2]. destruct Hc as [S1 F1]. split; [|congruence]. rewrite Hn in S2. eapply says_trans; eauto. }
    destruct (TCP_SEQ_BETWEEN _ _ _); [destruct (_ =? _)|].
    + eapply yields_weaken; [now apply in_sequence_mute|]. intros r Hr. apply Htrans. now apply mute_calm.
    + eapply yields_bind; [apply send_empty_ack_calm|]. intros [e c2] H2. cbn [snd] in H2.
      eapply yields_bind; [apply queue_segment_flags|]. intros p3 H3. apply yields_ret. cbn [snd]. apply Htrans.
      destruct H2 as [S2 F2]. split; [exact S2|]. unfold keeps_flags in H3. cbn. now rewrite H3.
    + eapply yields_bind; [apply send_empty_ack_calm|]. intros [e c2] H2. apply yields_ret. now apply Htrans.
  - destruct (negb _); [|apply yields_ret; now apply mute_calm].
    eapply yields_bind; [now apply mute_ack_now|]. intros c1 [H1 _]. apply yields_ret. now apply mute_calm.
Qed.
End Quiet.


(** ** What the application has been told *)

(** The bytes that the application has accepted. *)
Fixpoint heard (l : list (event * Z)) : list Z :=
  match l with
  | [] => []
  | (EV_RECV (Some d), err) :: l' => if err =? ERR_OK then concat d ++ heard l' else heard l'
  | _ :: l' => heard l'
  end.

(** Whether it has been told of the end. *)
Definition told (l : list (event * Z)) : bool :=
  existsb (fun x => match fst x with EV_RECV None => true | _ => false end) l.

Lemma heard_app l m : heard (l ++ m) = heard l ++ heard m.
Proof.
  induction l as [|[e err] l IH]; [reflexivity|]. destruct e as [| |[d|]| | |]; cbn [heard app]; try exact IH.
  destruct (err =? ERR_OK); [|exact IH]. now rewrite IH, app_assoc.
Qed.

Lemma told_app l m : told (l ++ m) = told l || told m.
Proof. apply existsb_app. Qed.

(** The states in which a connection carries data, and whether it is being
    closed from this side. *)
Definition closing (s : tcp_state) : option bool :=
  match s with
  | ESTABLISHED | CLOSE_WAIT => Some false
  | FIN_WAIT_1 | FIN_WAIT_2 | CLOSING | LAST_ACK => Some true
  | _ => None
  end.

Section End.

(** The stream of this side, and that of the other one. *)
Context (isn : Z) (S : list Z) (fin : bool) (isn' : Z) (S' : list Z) (fin' : bool) (max : Z).
Context (netif_list : list netif) (netif_default : option netif).

Notation output := (tcp_output netif_list netif_default).

(** The connection has all up to the position [R] of the other stream; the
    positions before [A] of its own are acknowledged, those before [N] are
    sent. *)
Record alive (A N R : Z) (c : conn) : Prop := Alive
  { al_snd : snd_ok isn S fin max A N (pcb c); al_rcv : rcv_ok isn' S' fin' False R (pcb c);
    al_state : closing (state (pcb c)) = Some fin; al_recv : exists f, recv (pcb c) = Some f; al_wnd : rcv_wnd (pcb c) <= TCP_WND;
    al_heard : heard (events c) ++ data_of (refused_data (pcb c)) = slice S' 0 (upto S' R);
    al_told : told (events c) = true -> R = size S' + 1; al_idle : in_input c = false }.

(** A packet of this side; those that open or reset connections do not speak of
    the streams. *)
Definition pk_good (R : Z) (k : tcp_packet) : Prop :=
  has (Z.lor TCP_RST TCP_SYN) (pk_flags k) = true \/ (packet_ok isn S fin k /\ exists r, 0 <= r <= R /\ pk_ackno k = u32 (isn' + r)).

Definition wire_ok (R : Z) (c : conn) : Prop := Forall (pk_good R) (wire c).

Lemma pk_good_later R R' k : R <= R' -> pk_good R k -> pk_good R' k.
Proof. intros H [Hk|(Hk & r & Hr & E)]; [now left|]. right. split; [exact Hk|]. exists r. split; [lia|exact E]. Qed.

Lemma wire_ok_later R R' c : R <= R' -> wire_ok R c -> wire_ok R' c.
Proof. intros H. unfold wire_ok. intros Hw. eapply Forall_impl; [exact Hw|]. intros k. now apply pk_good_later. Qed.

Lemma wire_ok_sends R c c' : 0 <= R -> wire_ok R c -> sends isn S fin c c' -> says (u32 (isn' + R)) c c' -> wire_ok R c'.
Proof.
  intros HR Hw [(ks & E & Hk) _] [_ (ks' & E' & Ha)]. unfold wire_ok in *. rewrite E. apply Forall_app. split; [exact Hw|].
  rewrite E in E'. apply app_inv_head in E'. subst ks'. rewrite Forall_forall in *. intros k Hin. right.
  split; [now apply Hk|]. exists R. split; [lia|]. now apply Ha.
Qed.

Lemma queue_ok_wider lo hi hi' l : hi <= hi' -> queue_ok isn' S' fin' False lo hi l -> queue_ok isn' S' fin' False lo hi' l.
Proof.
  intros H. revert lo. induction l as [|s l IH]; intros lo Hq; [exact I|]. destruct Hq as (a & Ha & Hc & _ & Hf & Hq).
  exists a. split; [lia|]. split; [exact Hc|]. split; [contradiction|]. split; [exact Hf|]. now apply IH.
Qed.

(** ** Sending *)

Lemma rcv_ok_same R p p' : rcv_ok isn' S' fin' False R p -> same_receiver p p' -> rcv_ok isn' S' fin' False R p'.
Proof. intros [] (E1 & E2 & E3 & _). constructor; rewrite ?E1, ?E2, ?E3; assumption. Qed.

Lemma alive_quiet A N N' R c c' : alive A N R c -> wire_ok R c -> snd_ok isn S fin max A N' (pcb c') -> sends isn S fin c c' -> quiet c c' ->
  alive A N' R c' /\ wire_ok R c'.
Proof.
  intros [] Hw Hs Hsend [Hr Hsay]. pose proof (rcv_ok_same R _ _ al_rcv0 Hr) as Hrcv.
  pose proof (ro_pos _ _ _ _ _ _ al_rcv0). rewrite (ro_nxt _ _ _ _ _ _ al_rcv0) in Hsay.
  split; [|apply (wire_ok_sends R c); auto; lia]. destruct Hr as (E1 & E2 & E3 & E4 & E5 & E6). destruct Hsay as [Ee _].
  constructor; rewrite ?E2, ?E4, ?E5, ?E6, ?Ee; auto. destruct Hsend as [_ [Hi _]]. congruence.
Qed.

Lemma alive_output A N R c : alive A N R c -> wire_ok R c ->
  guarded False (output c) (fun r => exists N', N <= N' /\ alive A N' R (snd r) /\ wire_ok R (snd r)).
Proof.
  intros Ha Hw. eapply guarded_weaken; [apply guarded_and; [apply (output_spec isn S fin _ _ max A N c (al_snd _ _ _ _ Ha))|apply output_quiet]|].
  intros [e c'] [(N' & H1 & H2 & H3) H4]. exists N'. split; [exact H3|]. now apply (alive_quiet A N N' R c).
Qed.

(** Other values of what the invariant does not speak of. *)
Lemma alive_pcb A N R c p : alive A N R c -> wire_ok R c -> same_sender (pcb c) p -> same_receiver (pcb c) p ->
  alive A N R (c <| pcb := p |>) /\ wire_ok R (c <| pcb := p |>).
Proof.
  intros Ha Hw Hs Hr. apply (alive_quiet A N N R c); [exact Ha|exact Hw|eapply snd_ok_same; [apply Ha|exact Hs]|apply sends_pcb|now apply quiet_pcb].
Qed.

Lemma ack_now_flags_infr f : has TF_INFR (Z.lor f TF_ACK_NOW) = has TF_INFR f.
Proof. exact (flag_set_infr 1 f ltac:(lia) ltac:(lia)). Qed.

Lemma alive_ack_now A N R c : alive A N R c -> wire_ok R c ->
  guarded False (tcp_ack_now netif_list netif_default c) (fun c' => exists N', N <= N' /\ alive A N' R c' /\ wire_ok R c').
Proof.
  intros Ha Hw. unfold tcp_ack_now. destruct (alive_pcb A N R c ((pcb c) <| flags := Z.lor (flags (pcb c)) TF_ACK_NOW |>) Ha Hw) as [Ha1 Hw1].
  { repeat split. apply ack_now_flags_infr. }
  { repeat split. }
  eapply guarded_bind; [apply (alive_output A N R _ Ha1 Hw1)|]. intros [e c'] H. now apply guarded_ret.
Qed.

(** ** The application's own calls *)

Lemma alive_recved A N R c len : 0 <= len -> alive A N R c -> wire_ok R c -> len <= 0xffff - rcv_wnd (pcb c) ->
  guarded False (tcp_recved netif_list netif_default len c) (fun c' => exists N', N <= N' /\ alive A N' R c' /\ wire_ok R c').
Proof.
  intros Hl Ha Hw Hle. unfold tcp_recved. pose proof (al_rcv _ _ _ _ Ha) as [En Hp Hrw Hq]. pose proof (al_wnd _ _ _ _ Ha) as Hcap.
  apply guarded_bind with (fun _ => True); [apply guarded_assert; [|auto]; intros E; apply Z.leb_gt in E; lia|]. intros _ _.
  assert (E16 : u16 (rcv_wnd (pcb c) + len) = rcv_wnd (pcb c) + len) by (unfold u16; rewrite Z.mod_small; lia). rewrite E16. cbv zeta.
  set (p1 := if TCP_WND <? _ then _ else _).
  set (w := if TCP_WND <? rcv_wnd (pcb c) + len then TCP_WND else rcv_wnd (pcb c) + len).
  assert (E1 : p1 = (pcb c) <| rcv_wnd := w |>).
  { unfold p1, w. cbn [rcv_wnd set_field]. change (rcv_wnd ((pcb c) <| rcv_wnd := rcv_wnd (pcb c) + len |>)) with (rcv_wnd (pcb c) + len).
    destruct (TCP_WND <? rcv_wnd (pcb c) + len); reflexivity. }
  assert (Hww : rcv_wnd (pcb c) <= w /\ w <= TCP_WND /\ w < 65536).
  { unfold w. unfold TCP_WND, TCP_MSS in *. destruct (Z.ltb_spec (4 * 536) (rcv_wnd (pcb c) + len)); lia. }
  clearbody w p1. subst p1.
  destruct (update_rcv_ann_wnd_spec ((pcb c) <| rcv_wnd := w |>)) as [aw Eaw].
  destruct (tcp_update_rcv_ann_wnd _) as [infl p2]. cbn [snd] in Eaw. subst p2.
  set (p2 := (pcb c) <| rcv_wnd := w |> <| rcv_ann_wnd := aw |>).
  assert (Ha2 : alive A N R (c <| pcb := p2 |>)).
  { destruct Ha. constructor; cbn; auto; try lia.
    - eapply snd_ok_same; [exact al_snd0|repeat split].
    - constructor; cbn; auto; try lia. eapply queue_ok_wider; [|exact Hq]. lia. }
  assert (Hw2 : wire_ok R (c <| pcb := p2 |>)) by exact Hw.
  destruct (_ <=? _); [now apply alive_ack_now|]. apply guarded_ret. exists N. split; [lia|]. now split.
Qed.
End End.

(** ** Writing and closing *)

Section Longer.
Context (isn : Z) (S : list Z) (isn' : Z) (S' : list Z) (fin' : bool) (max : Z).
Context (netif_list : list netif) (netif_default : option netif).

Lemma wire_ok_longer T fin R c : wire_ok isn S false isn' R c -> wire_ok isn (S ++ T) fin isn' R c.
Proof.
  unfold wire_ok. intros H. eapply Forall_impl; [exact H|]. intros k [Hk|[[Hk|(a & Ha)] Hr]]; [now left| |]; right; (split; [|exact Hr]).
  - now left.
  - right. exists a. eapply carries_longer; [exact Ha|discriminate].
Qed.

(** New queues, and perhaps another state. *)
Lemma alive_queued T fin A N R c p s : alive isn S false isn' S' fin' max A N R c -> wire_ok isn S false isn' R c ->
  snd_ok isn (S ++ T) fin max A N p -> same_receiver (pcb c) p -> closing s = Some fin ->
  let c' := c <| pcb := p <| state := s |> |> in alive isn (S ++ T) fin isn' S' fin' max A N R c' /\ wire_ok isn (S ++ T) fin isn' R c'.
Proof.
  intros Ha Hw Hs Hr Hst c'. split; [|now apply (wire_ok_longer T fin R c)].
  pose proof (rcv_ok_same isn' S' fin' R _ _ (al_rcv _ _ _ _ _ _ _ _ _ _ _ Ha) Hr) as [].
  destruct Ha, Hr as (E1 & E2 & E3 & E4 & E5 & E6). constructor; cbn; rewrite ?E2, ?E5, ?E6; auto.
  - destruct Hs. constructor; auto.
  - constructor; cbn; rewrite <- ?E1, <- ?E2, <- ?E3; auto; congruence.
Qed.

Lemma alive_write T A N R c apiflags : alive isn S false isn' S' fin' max A N R c -> wire_ok isn S false isn' R c ->
  max < 256 -> T <> [] -> size S + size T < 1073741824 ->
  guarded False (tcp_write max (pcb c) (Some T) (size T) apiflags) (fun '(err, p) =>
    let c' := c <| pcb := p |> in
    (err = ERR_OK /\ alive isn (S ++ T) false isn' S' fin' max A N R c' /\ wire_ok isn (S ++ T) false isn' R c') \/
    (err <> ERR_OK /\ alive isn S false isn' S' fin' max A N R c' /\ wire_ok isn S false isn' R c')).
Proof.
  intros Ha Hw Hmax HT Hsz. eapply guarded_weaken; [apply (write_spec isn S T max A N); auto; apply Ha|].
  assert (Hlift : forall p, same_receiver (pcb c) p -> c <| pcb := p <| state := state (pcb c) |> |> = c <| pcb := p |>).
  { intros p (_ & _ & _ & E & _). rewrite <- E. now destruct p. }
  intros [err p] [(-> & H1 & H2 & _)|(Herr & H1 & [H2 _] & _)].
  - left. split; [reflexivity|]. pose proof (alive_queued T false A N R c p (state (pcb c)) Ha Hw H1 H2 (al_state _ _ _ _ _ _ _ _ _ _ _ Ha)) as K.
    cbv zeta in K. rewrite (Hlift p H2) in K. exact K.
  - right. split; [destruct Herr as [->| ->]; discriminate|].
    pose proof (alive_queued [] false A N R c p (state (pcb c)) Ha Hw) as K. rewrite app_nil_r in K.
    specialize (K H1 H2 (al_state _ _ _ _ _ _ _ _ _ _ _ Ha)). cbv zeta in K. rewrite (Hlift p H2) in K. exact K.
Qed.

Lemma alive_close A N R c : alive isn S false isn' S' fin' max A N R c -> wire_ok isn S false isn' R c ->
  max < 256 -> size S + 1 < 1073741824 ->
  guarded False (tcp_close netif_list netif_default max c) (fun '(err, c') =>
    (err = ERR_OK /\ exists N', N <= N' /\ alive isn S true isn' S' fin' max A N' R c' /\ wire_ok isn S true isn' R c') \/
    (err <> ERR_OK /\ alive isn S false isn' S' fin' max A N R c' /\ wire_ok isn S false isn' R c')).
Proof.
  intros Ha Hw Hmax Hsz. pose proof (al_state _ _ _ _ _ _ _ _ _ _ _ Ha) as Hst.
  assert (Hfin : forall s, closing s = Some true -> guarded False
    ('(err, p) <- tcp_send_ctrl max (pcb c) TCP_FIN;;
     if err =? ERR_OK then
       '(_, c) <- tcp_output netif_list netif_default (c <| pcb := p <| state := s |> |>);;
       ret (err, c)
     else ret (err, c <| pcb := p |>))
    (fun '(err, c') =>
      (err = ERR_OK /\ exists N', N <= N' /\ alive isn S true isn' S' fin' max A N' R c' /\ wire_ok isn S true isn' R c') \/
      (err <> ERR_OK /\ alive isn S false isn' S' fin' max A N R c' /\ wire_ok isn S false isn' R c'))).
  { intros s Hs. eapply guarded_bind; [apply (send_fin_spec isn S max A N); auto; apply Ha|].
    intros [err p] [(-> & H1 & H2 & _)|(-> & H1 & [H2 _] & _)].
    - change (ERR_OK =? ERR_OK) with true. cbv iota. pose proof (alive_queued [] true A N R c p s Ha Hw) as K. rewrite app_nil_r in K.
      specialize (K H1 H2 Hs). cbv zeta in K. destruct K as [K1 K2]. eapply guarded_bind; [apply alive_output; eassumption|].
      intros [e c'] H. apply guarded_ret. left. split; [reflexivity|exact H].
    - change (ERR_MEM =? ERR_OK) with false. cbv iota. apply guarded_ret. right. split; [discriminate|].
      pose proof (alive_queued [] false A N R c p (state (pcb c)) Ha Hw) as K. rewrite app_nil_r in K. specialize (K H1 H2 Hst). cbv zeta in K.
      assert (E : c <| pcb := p <| state := state (pcb c) |> |> = c <| pcb := p |>).
      { destruct H2 as (_ & _ & _ & E & _). rewrite <- E. now destruct p. }
      rewrite E in K. exact K. }
  unfold tcp_close. destruct (state (pcb c)); try discriminate; apply Hfin; reflexivity.
Qed.
End Longer.
