(* ===== verification/TcpEndIn.v ===== *)
(** * lwIP: the end of a TCP connection, receiving

    What a segment of the other side does to both directions of a connection,
    through the state machine and up to the application. *)
From Stdlib Require Import ZArith List Lia Bool.
From stdpp Require Import base gmap list.
From S2P Require Import Prelude CMonad Pbuf Inet Netif IpHdr Tcp TcpIn TcpInSpec.
From S2P Require Import TcpOutSpec TcpProc TcpEnd.
#[local] Open Scope Z_scope.
#[local] Open Scope cmonad_scope.
#[local] Open Scope record_scope.

(** What [tcp_input] takes from a packet that arrives in the buffers [q]: with
    its options, and the number of words in its header. *)
Definition tcp_in_of (k : tcp_packet) (q : chain) (hdr : Z) (opts : list Z) : tcp_in :=
  {| inseg := TcpSeg q (u16 (tot_len q)) 0 (pk_seqno k) (pk_flags k); in_src_ip := pk_src_ip k; in_dest_ip := pk_dest_ip k;
     in_src := pk_src k; in_dest := pk_dest k; seqno := pk_seqno k; ackno := pk_ackno k; in_flags := pk_flags k;
     in_wnd := u16 (pk_wnd k); hdrlen := hdr; in_opts := opts;
     tcplen := u16 (tot_len q + b2z (has (Z.lor TCP_FIN TCP_SYN) (pk_flags k))); recv_flags := 0; recv_data := None |}.

Section EndIn.
Context (isn : Z) (S : list Z) (fin : bool) (isn' : Z) (S' : list Z) (fin' : bool) (max : Z).
Context (netif_list : list netif) (netif_default : option netif).

Notation snd_ok := (snd_ok isn S fin max).
Notation rcv_ok := (rcv_ok isn' S' fin' False).
Notation receives := (receives isn' S' fin' False).

Lemma snd_ok_others A N p p' : snd_ok A N p -> others p' = others p -> has TF_INFR (flags p') = has TF_INFR (flags p) -> snd_ok A N p'.
Proof.
  intros H E Ef.
  pose proof (f_equal unacked E) as E1. pose proof (f_equal unsent E) as E2. pose proof (f_equal lastack E) as E3.
  pose proof (f_equal snd_nxt E) as E4. pose proof (f_equal snd_lbb E) as E5. pose proof (f_equal snd_queuelen E) as E6.
  pose proof (f_equal mss E) as E7. pose proof (f_equal cwnd E) as E8. pose proof (f_equal ssthresh E) as E9.
  pose proof (f_equal snd_wnd E) as E10. pose proof (f_equal snd_buf E) as E11. clear E.
  change (unacked p' = unacked p) in E1. change (unsent p' = unsent p) in E2. change (lastack p' = lastack p) in E3.
  change (snd_nxt p' = snd_nxt p) in E4. change (snd_lbb p' = snd_lbb p) in E5. change (snd_queuelen p' = snd_queuelen p) in E6.
  change (mss p' = mss p) in E7. change (cwnd p' = cwnd p) in E8. change (ssthresh p' = ssthresh p) in E9.
  change (snd_wnd p' = snd_wnd p) in E10. change (snd_buf p' = snd_buf p) in E11.
  destruct H. constructor; rewrite ?E1, ?E2, ?E3, ?E4, ?E5, ?E6, ?E7, ?E8, ?E9, ?E10, ?E11, ?Ef; assumption.
Qed.

(** The segment: of no data, or a piece of the other stream. *)
Definition fits (i : tcp_in) : Prop := tcplen i = 0 \/ (tcplen i = TCP_TCPLEN (inseg i) /\ exists P, carries isn' S' fin' (inseg i) P).

(** The result of receiving, up to the position [R']. *)
Record took (A N R R' : Z) (i' : tcp_in) (c c' : conn) : Prop := Took
  { tk_snd : snd_ok A N (pcb c'); tk_rcv : rcv_ok R' (pcb c'); tk_le : R <= R';
    tk_data : data_of (recv_data i') = slice S' R (upto S' R' - R); tk_fin : has TF_GOT_FIN (recv_flags i') = passes_end S' R R';
    tk_wnd : rcv_wnd (pcb c') <= rcv_wnd (pcb c); tk_sends : sends isn S fin c c'; tk_says : says (rcv_nxt (pcb c)) c c';
    tk_state : closing (state (pcb c')) = closing (state (pcb c)); tk_refused : refused_data (pcb c') = refused_data (pcb c);
    tk_recv : recv (pcb c') = recv (pcb c) }.

(** Only the flags for acknowledgements change. *)
Lemma took_nothing A N R i c f : snd_ok A N (pcb c) -> rcv_ok R (pcb c) -> has TF_INFR f = has TF_INFR (flags (pcb c)) ->
  recv_data i = None -> recv_flags i = 0 -> took A N R R i c (c <| pcb := (pcb c) <| flags := f |> |>).
Proof.
  intros Hs Hr Hf Ed Ef. constructor; try reflexivity; auto.
  - eapply snd_ok_same; [exact Hs|]. repeat split. exact Hf.
  - destruct Hr. now constructor.
  - rewrite Ed, slice_none; [reflexivity|]. unfold upto. lia.
  - rewrite Ef. unfold passes_end. cbn. destruct (Z.leb_spec R (size S')), (Z.ltb_spec (size S') R); reflexivity || lia.
  - apply sends_pcb.
  - now apply says_same.
Qed.

Lemma receive_data_end A N R i c : snd_ok A N (pcb c) -> rcv_ok R (pcb c) -> in_input c = true -> fits i ->
  total S' fin' < 1073741824 -> seqno i = seg_seqno (inseg i) -> recv_data i = None -> recv_flags i = 0 ->
  yields (receive_data netif_list netif_default i c) (fun r => exists R', took A N R R' (fst r) c (snd r)).
Proof.
  intros Hs Hr Hi Hfit Hsm Es Ed Ef. destruct Hfit as [E0|(Et & P & HP)].
  - unfold receive_data. rewrite E0. change (0 <? 0) with false. cbv iota.
    assert (Hc : took A N R R i c c).
    { pose proof (took_nothing A N R i c (flags (pcb c)) Hs Hr eq_refl Ed Ef) as K.
      replace (c <| pcb := (pcb c) <| flags := flags (pcb c) |> |>) with c in K; [exact K|]. destruct c as [p]. now destruct p. }
    destruct (negb _); [|apply yields_ret; eauto]. unfold tcp_ack_now, tcp_output. cbn [in_input set_field].
    change (in_input (c <| pcb := (pcb c) <| flags := Z.lor (flags (pcb c)) TF_ACK_NOW |> |>)) with (in_input c). rewrite Hi.
    apply yields_ret. exists R. cbn [fst snd]. apply took_nothing; auto. exact (flag_set_infr 1 (flags (pcb c)) ltac:(lia) ltac:(lia)).
  - pose proof (carries_total _ _ _ _ _ HP) as Htot. pose proof (ca_pos _ _ _ _ _ HP). pose proof (ca_some _ _ _ _ _ HP).
    pose proof (ro_pos _ _ _ _ _ _ Hr).
    eapply yields_weaken.
    + apply yields_and; [|apply (receive_data_calm netif_list netif_default i c Hi)].
      eapply guarded_yields. apply (receive_data_spec isn' S' fin' False netif_list netif_default i c R P); auto; [lia|contradiction].
    + intros [i' c'] [(R' & (Hrec & Hrcv & Hans) & _) [Hsay Hinfr]]. exists R'. cbn [fst snd] in *. destruct Hrec.
      assert (Er : refused_data (pcb c') = refused_data (pcb c)) by exact (f_equal refused_data re_others).
      assert (Ev : recv (pcb c') = recv (pcb c)) by exact (f_equal recv re_others).
      constructor; auto; try lia.
      * eapply snd_ok_others; eauto.
      * rewrite re_data, Ed. reflexivity.
      * rewrite re_fin, Ef. reflexivity.
      * now apply sends_answers.
      * destruct re_state as [->|(-> & -> & _)]; reflexivity.
Qed.

(** ** A segment in each state *)

(** The segment acknowledges the position [y]. *)
Context (y : Z).

Record regular (i : tcp_in) : Prop := Regular
  { rg_fits : fits i; rg_syn : has TCP_SYN (in_flags i) = false; rg_ackno : ackno i = u32 (isn + y); rg_y : 0 <= y <= total S fin;
    rg_seqno : seqno i = seg_seqno (inseg i); rg_opts : Forall (fun b => 0 <= b) (in_opts i); rg_wnd : 0 <= in_wnd i < 65536; rg_data : recv_data i = None; rg_flags : recv_flags i = 0 }.

Lemma took_trans A' N R R' i' c p c' : same_receiver (pcb c) p -> took A' N R R' i' (c <| pcb := p |>) c' -> took A' N R R' i' c c'.
Proof.
  intros (E1 & E2 & E3 & E4 & E5 & E6) []. cbn in *. constructor; auto; try congruence; try lia.
  - rewrite E1 in tk_says0. eapply says_trans; [|exact tk_says0]. now apply says_same.
Qed.

Lemma tcp_receive_end A N R i c : snd_ok A N (pcb c) -> rcv_ok R (pcb c) -> in_input c = true -> regular i ->
  max < 256 -> total S' fin' < 1073741824 ->
  yields (tcp_receive netif_list netif_default i c) (fun r => exists A' R', (A' = A \/ A' = y) /\ took A' N R R' (fst r) c (snd r)).
Proof.
  intros Hs Hr Hi Hreg Hmax Hsm. destruct Hreg. unfold tcp_receive.
  eapply yields_bind with (Q := fun p => exists A', (A' = A \/ A' = y) /\ snd_ok A' N p /\ same_receiver (pcb c) p).
  - destruct (has TCP_ACK (in_flags i)).
    + eapply guarded_yields, guarded_weaken.
      * apply (receive_ack_spec isn S fin i y rg_ackno0 rg_wnd0 max A N (tcp_ticks c) (pcb c) Hs Hmax).
        destruct Hs. lia.
      * intros p [H1 H2]. eexists. split; [|split; [exact H1|exact H2]]. destruct (_ && _); auto.
    + apply yields_ret. exists A. split; [now left|]. split; [exact Hs|apply same_receiver_refl].
  - intros p (A' & HA & H1 & H2). eapply yields_weaken.
    + apply (receive_data_end A' N R i (c <| pcb := p |>)); auto. exact (rcv_ok_same isn' S' fin' R _ _ Hr H2).
    + intros r (R' & K). exists A', R'. split; [exact HA|]. eapply took_trans; [exact H2|exact K].
Qed.

(** The state [s] for a connection that goes on. *)
Record goes_on (A N R : Z) (c : conn) : Prop := GoesOn
  { go_snd : snd_ok A N (pcb c); go_rcv : rcv_ok R (pcb c); go_wnd : rcv_wnd (pcb c) <= TCP_WND; go_state : closing (state (pcb c)) = Some fin }.

(** What [tcp_process] has done, for [tcp_input]. *)
Record went (R R' : Z) (i' : tcp_in) (c c' : conn) : Prop := Went
  { we_le : R <= R'; we_pos : R' <= total S' fin'; we_data : data_of (recv_data i') = slice S' R (upto S' R' - R);
    we_fin : has TF_GOT_FIN (recv_flags i') = passes_end S' R R'; we_sends : sends isn S fin c c'; we_says : says (rcv_nxt (pcb c)) c c';
    we_recv : recv (pcb c') = recv (pcb c); we_refused : refused_data (pcb c') = None }.

Lemma went_pcb R R' i' c c' p : went R R' i' c c' -> recv p = recv (pcb c') -> refused_data p = None -> went R R' i' c (c' <| pcb := p |>).
Proof.
  intros [] Hr Hf. constructor; auto. cbn. congruence.
Qed.

Lemma ack_now_input' c : in_input c = true ->
  tcp_ack_now netif_list netif_default c = ret (c <| pcb := (pcb c) <| flags := Z.lor (flags (pcb c)) TF_ACK_NOW |> |>).
Proof. intros Hi. unfold tcp_ack_now, tcp_output. cbn. now rewrite Hi. Qed.

(** Behind [tcp_receive]: the connection goes on, or it waits for the time to
    be removed. *)
Definition parked (R : Z) (c : conn) : Prop :=
  closing (state (pcb c)) = None /\ rcv_nxt (pcb c) = u32 (isn' + R) /\ unsent (pcb c) = [].

Definition after (A N R R' : Z) (i' : tcp_in) (c c' : conn) : Prop :=
  went R R' i' c c' /\ (parked R' c' \/ goes_on A N R' c').

Lemma goes_on_pcb A N R c f s : goes_on A N R c -> has TF_INFR f = has TF_INFR (flags (pcb c)) -> closing s = Some fin ->
  goes_on A N R (c <| pcb := (pcb c) <| flags := f |> <| state := s |> |>).
Proof.
  intros [Hs Hr Hw Hc] Hf Hst. constructor; auto.
  - destruct Hs. constructor; cbn; rewrite ?Hf; auto.
  - destruct Hr. now constructor.
Qed.

Lemma process_received_spec A N R R' s i c c1 : in_input c1 = true -> closing s = Some fin -> went R R' i c c1 -> goes_on A N R' c1 ->
  yields (process_received netif_list netif_default s i c1) (fun r => after A N R R' (fst r) c (snd r)).
Proof.
  intros Hi Hst Hw Hg.
  assert (Hsame : after A N R R' i c c1) by (split; auto).
  assert (Hack : forall s', closing s' = Some fin -> yields (ack_fin netif_list netif_default s' c1) (fun c' => after A N R R' i c c')).
  { intros s' Hs'. unfold ack_fin. rewrite (ack_now_input' c1 Hi), bind_ret. apply yields_ret. split.
    - pose (p1 := (pcb c1) <| flags := Z.lor (flags (pcb c1)) TF_ACK_NOW |> <| state := s' |>).
      exact (went_pcb R R' i c c1 p1 Hw eq_refl (we_refused _ _ _ _ _ Hw)).
    - right. pose proof (goes_on_pcb A N R' c1 _ s' Hg (flag_set_infr 1 (flags (pcb c1)) ltac:(lia) ltac:(lia)) Hs') as K. exact K. }
  assert (Hpurge : forall f, after A N R R' i c (c1 <| pcb := (tcp_pcb_purge ((pcb c1) <| flags := f |>)) <| state := TIME_WAIT |> |>)).
  { intros f. pose proof (go_state _ _ _ _ Hg) as Hc. pose proof (ro_nxt _ _ _ _ _ _ (go_rcv _ _ _ _ Hg)) as En. split.
    - apply (went_pcb R R' i c c1); [exact Hw| |]; unfold tcp_pcb_purge; cbn; destruct (state (pcb c1)); cbn; apply Hw || reflexivity.
    - left. unfold parked, tcp_pcb_purge. cbn. destruct (state (pcb c1)); try discriminate; auto. }
  assert (Hwait : yields (ack_fin_wait netif_list netif_default c1) (fun c' => after A N R R' i c c')).
  { unfold ack_fin_wait. rewrite (ack_now_input' c1 Hi), bind_ret. apply yields_ret. pose proof (Hpurge (Z.lor (flags (pcb c1)) TF_ACK_NOW)) as K. exact K. }
  assert (Hlift : forall m : M conn, yields m (fun c' => after A N R R' i c c') ->
    yields (c' <- m;; ret (i, c')) (fun r => after A N R R' (fst r) c (snd r))).
  { intros m Hm. eapply yields_bind; [exact Hm|]. intros c' Hc'. now apply yields_ret. }
  unfold process_received. destruct s; try discriminate.
  - apply Hlift. destruct (has _ _); [now apply Hack|now apply yields_ret].
  - apply Hlift. destruct (has _ _), (acks_all i c1); auto; apply yields_ret; [|exact Hsame].
    split; [apply (went_pcb R R' i c c1); [exact Hw|reflexivity|apply Hw]|]. right.
    pose proof (goes_on_pcb A N R' c1 (flags (pcb c1)) FIN_WAIT_2 Hg eq_refl Hst) as K.
    replace ((pcb c1) <| flags := flags (pcb c1) |>) with (pcb c1) in K by (now destruct (pcb c1)). exact K.
  - apply Hlift. destruct (has _ _); [exact Hwait|now apply yields_ret].
  - apply Hlift. destruct (has _ _); [now apply Hack|now apply yields_ret].
  - apply yields_ret. cbn [fst snd]. destruct (acks_all i c1); [|exact Hsame]. pose proof (Hpurge (flags (pcb c1))) as K.
    replace ((pcb c1) <| flags := flags (pcb c1) |>) with (pcb c1) in K by (now destruct (pcb c1)). exact K.
  - apply yields_ret. cbn [fst snd]. destruct (acks_all i c1); [|exact Hsame]. split; [|now right]. destruct Hw. constructor; auto.
    cbn. rewrite <- we_fin0. exact (has_set 5 4 (recv_flags i) ltac:(lia) ltac:(lia)).
Qed.

Lemma opt_at_byte i c : Forall (fun b => 0 <= b) (in_opts i) -> yields (opt_at i c) (fun b => 0 <= b).
Proof.
  intros H. unfold opt_at. destruct (in_opts i !! Z.to_nat c) eqn:E; [|apply yields_ub]. apply yields_ret.
  rewrite Forall_forall in H. apply H. now apply list_elem_of_lookup_2 in E.
Qed.

(** The options change the size of segments, within its limits. *)
Definition new_mss (p p' : tcp_pcb) : Prop := exists m, p' = p <| mss := m |> /\ (0 < m <= TCP_MSS \/ m = mss p).

Lemma parse_loop_mss fuel i max_c : Forall (fun b => 0 <= b) (in_opts i) -> forall c p, yields (parse_loop fuel i c max_c p) (new_mss p).
Proof.
  intros Hb. assert (Hsame : forall p, yields (ret p) (new_mss p)).
  { intros p. apply yields_ret. exists (mss p). split; [now destruct p|now right]. }
  induction fuel as [|fuel IH]; intros c p; cbn [parse_loop]; [intros h a h' E; discriminate|].
  destruct (negb _); [apply Hsame|]. apply yields_any. intros opt. destruct (opt =? 0); [apply Hsame|]. destruct (opt =? 1); [apply IH|].
  destruct (opt =? 2).
  - apply yields_any. intros l. destruct (_ || _); [apply Hsame|].
    eapply yields_bind; [now apply opt_at_byte|]. intros b1 H1. eapply yields_bind; [now apply opt_at_byte|]. intros b2 H2. cbv zeta.
    set (m := Z.lor (Z.shiftl b1 8) b2). assert (Hm : 0 <= m) by (apply Z.lor_nonneg; split; [apply Z.shiftl_nonneg|]; assumption).
    set (m' := if (TCP_MSS <? m) || (m =? 0) then TCP_MSS else m).
    assert (Hm' : 0 < m' <= TCP_MSS).
    { unfold m', TCP_MSS. destruct (Z.ltb_spec 536 m); cbn [orb]; [lia|]. destruct (Z.eqb_spec m 0); lia. }
    clearbody m'. eapply yields_weaken; [apply IH|]. intros p' (m2 & -> & H3). exists m2. split; [reflexivity|]. left.
    destruct H3 as [H3| ->]; [exact H3|exact Hm'].
  - apply yields_any. intros l. destruct (_ =? _); [apply Hsame|apply IH].
Qed.

Lemma tcp_parseopt_mss i p : Forall (fun b => 0 <= b) (in_opts i) -> yields (tcp_parseopt i p) (new_mss p).
Proof.
  intros H. unfold tcp_parseopt. destruct (5 <? hdrlen i); [now apply parse_loop_mss|]. apply yields_ret. exists (mss p). split; [now destruct p|now right].
Qed.

Lemma snd_ok_mss A N p m : snd_ok A N p -> 0 < m <= TCP_MSS \/ m = mss p -> snd_ok A N (p <| mss := m |>).
Proof. intros [] Hm. constructor; cbn; auto. destruct Hm as [Hm| ->]; auto. Qed.

Context (app : Z -> event -> conn -> M (Z * conn)).
Notation process := (tcp_process netif_list netif_default app).

(** What a packet can be: one that opens or resets connections, or a regular
    one. *)
Definition arrived (i : tcp_in) : Prop :=
  recv_data i = None /\ recv_flags i = 0 /\ (has (Z.lor TCP_RST TCP_SYN) (in_flags i) = true \/ regular i).

Lemma went_nothing R i c : 0 <= R <= total S' fin' -> recv_data i = None -> recv_flags i = 0 -> refused_data (pcb c) = None -> went R R i c c.
Proof.
  intros HR Ed Ef Hf. constructor; auto; try lia.
  - rewrite Ed, slice_none; [reflexivity|]. unfold upto. lia.
  - rewrite Ef. unfold passes_end. cbn. destruct (Z.leb_spec R (size S')), (Z.ltb_spec (size S') R); reflexivity || lia.
  - apply sends_refl.
  - apply says_refl.
Qed.

Lemma tcp_process_spec A N R i c : goes_on A N R c -> in_input c = true -> refused_data (pcb c) = None -> arrived i ->
  max < 256 -> total S' fin' < 1073741824 ->
  yields (process i c) (fun r => fst r <> ERR_ABRT /\ in_input (snd (snd r)) = true /\
    ((has TF_RESET (recv_flags (fst (snd r))) = true /\ events (snd (snd r)) = events c /\ wire (snd (snd r)) = wire c) \/
     exists A' R', (A' = A \/ A' = y) /\ after A' N R R' (fst (snd r)) c (snd (snd r)))).
Proof.
  intros Hg Hi Hf (Ed & Ef & Hk) Hmax Hsm. pose proof Hg as [Hs Hr Hw Hst]. pose proof (ro_pos _ _ _ _ _ _ Hr) as HR. unfold tcp_process.
  assert (Hnothing : after A N R R i c c) by (split; [now apply went_nothing|now right]).
  destruct (has TCP_RST (in_flags i)) eqn:Erst.
  { destruct (acceptable_reset i (pcb c)).
    - apply yields_any. intros _. apply yields_ret. split; [discriminate|]. split; [exact Hi|]. left. cbn. split; [|auto].
      rewrite Ef. reflexivity.
    - apply yields_ret. split; [discriminate|]. split; [exact Hi|]. right. exists A, R. split; [now left|exact Hnothing]. }
  destruct Hk as [Hk|Hreg].
  { rewrite has_lor, Erst in Hk. cbn [orb] in Hk. rewrite Hk. destruct (bool_decide_reflect (state (pcb c) = SYN_SENT)) as [E|_]; [rewrite E in Hst; discriminate|].
    destruct (bool_decide_reflect (state (pcb c) = SYN_RCVD)) as [E|_]; [rewrite E in Hst; discriminate|]. cbn [andb negb].
    rewrite (ack_now_input' c Hi), bind_ret. apply yields_ret. split; [discriminate|]. split; [exact Hi|]. right. exists A, R. split; [now left|].
    cbn [fst snd]. split; [apply (went_pcb R R i c c); [apply Hnothing|reflexivity|exact Hf]|]. right.
    pose proof (goes_on_pcb A N R c _ (state (pcb c)) Hg (flag_set_infr 1 (flags (pcb c)) ltac:(lia) ltac:(lia)) Hst) as K. exact K. }
  pose proof Hreg as []. rewrite rg_syn0. cbn [andb].
  eapply yields_bind; [now apply tcp_parseopt_mss|]. intros p (m & -> & Hm).
  set (p := (pcb c) <| tmr := tcp_ticks c |> <| keep_cnt_sent := 0 |> <| mss := m |>).
  assert (Hsp : snd_ok A N p).
  { apply snd_ok_mss; [|exact Hm]. eapply snd_ok_same; [exact Hs|repeat split]. }
  assert (Hrecv : same_receiver (pcb c) p) by (repeat split). change (state p) with (state (pcb c)).
  assert (Hlive : forall s, closing s = Some fin -> yields ('(i, c) <- tcp_receive netif_list netif_default i (c <| pcb := p |>);;
    r <- process_received netif_list netif_default s i c;; ret (ERR_OK, r))
    (fun r => fst r <> ERR_ABRT /\ in_input (snd (snd r)) = true /\
      ((has TF_RESET (recv_flags (fst (snd r))) = true /\ events (snd (snd r)) = events c /\ wire (snd (snd r)) = wire c) \/
       exists A' R', (A' = A \/ A' = y) /\ after A' N R R' (fst (snd r)) c (snd (snd r))))).
  { intros s Hs'. eapply yields_bind.
    - apply (tcp_receive_end A N R i (c <| pcb := p |>)); auto. exact (rcv_ok_same isn' S' fin' R _ _ Hr Hrecv).
    - intros [i1 c1] (A' & R' & HA & Ht). cbn [fst snd] in Ht. apply took_trans in Ht; [|exact Hrecv]. destruct Ht.
      assert (Hi1 : in_input c1 = true) by (destruct tk_sends0 as [_ [E _]]; congruence).
      assert (Hwent : went R R' i1 c c1).
      { constructor; auto; try congruence. apply (ro_pos _ _ _ _ _ _ tk_rcv0). }
      eapply yields_bind.
      + apply (process_received_spec A' N R R' s i1 c c1 Hi1 Hs' Hwent). constructor; auto; try congruence. lia.
      + intros [i2 c2] H2. apply yields_ret. split; [discriminate|]. cbn [fst snd] in *.
        split; [destruct H2 as [[] _]; destruct we_sends0 as [_ [E _]]; congruence|]. right. exists A', R'. auto. }
  destruct (state (pcb c)) eqn:E; try discriminate; now apply Hlive.
Qed.

(** ** Up to the application *)

(** The application's functions do nothing to the connection themselves. *)
Context (app_quiet : forall f e c, exists err, app f e c = ret (err, c)).

Notation event_recv := (TCP_EVENT_RECV netif_list netif_default max app).

Lemma tcp_event_quiet f e c : exists err, tcp_event app f e c = ret (err, c <| events := events c ++ [(e, err)] |>).
Proof. destruct (app_quiet f e c) as [err E]. exists err. unfold tcp_event. now rewrite E, bind_ret. Qed.

(** What has been handed over, with [d] to come. *)
Record hears (R : Z) (d : option chain) (c : conn) : Prop := Hears
  { hr_heard : heard (events c) ++ data_of d = slice S' 0 (upto S' R); hr_told : told (events c) = true -> R = size S' + 1;
    hr_recv : exists f, recv (pcb c) = Some f }.

Lemma event_recv_data R d c : hears R (Some d) c ->
  yields (event_recv (Some d) c) (fun r => exists l, snd r = c <| events := l |> /\ hears R (if fst r =? ERR_OK then None else Some d) (snd r)).
Proof.
  intros [Hh Ht (f & Ef)]. unfold TCP_EVENT_RECV. rewrite Ef. destruct (tcp_event_quiet f (EV_RECV (Some d)) c) as [err ->].
  apply yields_ret. eexists. split; [reflexivity|]. cbn [fst snd].
  constructor; cbn; [|rewrite told_app; cbn; rewrite orb_false_r; exact Ht|eauto].
  rewrite heard_app. cbn [heard]. destruct (err =? ERR_OK); cbn [data_of]; rewrite ?app_nil_r; exact Hh.
Qed.

Lemma event_recv_end R d c : R = size S' + 1 -> hears R d c ->
  yields (event_recv None c) (fun r => exists l, snd r = c <| events := l |> /\ hears R d (snd r)).
Proof.
  intros HR [Hh Ht (f & Ef)]. unfold TCP_EVENT_RECV. rewrite Ef. destruct (tcp_event_quiet f (EV_RECV None) c) as [err ->].
  apply yields_ret. eexists. split; [reflexivity|]. constructor; cbn; [|auto|eauto]. rewrite heard_app. cbn [heard]. now rewrite app_nil_r.
Qed.

Lemma event_opt_quiet f e c : (forall d, e <> EV_RECV d) -> exists err l, event_opt app f e c = ret (err, c <| events := l |>) /\
  heard l = heard (events c) /\ told l = told (events c).
Proof.
  intros He. destruct f as [f|]; cbn [event_opt].
  - destruct (tcp_event_quiet f e c) as [err ->]. exists err, (events c ++ [(e, err)]). split; [reflexivity|]. rewrite heard_app, told_app.
    destruct e as [| |[d|]| | |]; cbn; rewrite ?app_nil_r, ?orb_false_r; auto; exfalso; eapply He; reflexivity.
  - exists ERR_OK, (events c). split; [|auto]. now destruct c.
Qed.

(** The connection is no longer there, or is about to go. *)
Definition ended (R : Z) (c : conn) : Prop :=
  closing (state (pcb c)) = None /\ heard (events c) `prefix_of` S' /\ (told (events c) = true -> R = size S' + 1).

Lemma slice_prefix n : slice S' 0 n `prefix_of` S'.
Proof. unfold slice. exists (skipn (Z.to_nat n) S'). symmetry. apply firstn_skipn. Qed.

Lemma hears_prefix R d c : hears R d c -> heard (events c) `prefix_of` S'.
Proof. intros [Hh _ _]. eapply transitivity; [|apply (slice_prefix (upto S' R))]. exists (data_of d). now symmetry. Qed.

Notation alive := (alive isn S fin isn' S' fin' max).
Notation wire_ok := (wire_ok isn S fin isn').

Lemma alive_hears A N R c : alive A N R c -> hears R (refused_data (pcb c)) c.
Proof. intros []. now constructor. Qed.

Lemma goes_on_alive A N R c : goes_on A N R c -> hears R (refused_data (pcb c)) c -> in_input c = false -> alive A N R c.
Proof. intros [] [] Hi. now constructor. Qed.

Lemma alive_goes_on A N R c : alive A N R c -> goes_on A N R c.
Proof. intros []. now constructor. Qed.

Lemma offer_refused_spec A N R c : alive A N R c -> wire_ok R c -> yields (offer_refused netif_list netif_default max app c) (fun r =>
  alive A N R (snd r) /\ wire_ok R (snd r) /\ (fst r = true -> refused_data (pcb (snd r)) = None)).
Proof.
  intros Ha Hw. unfold offer_refused. destruct (refused_data (pcb c)) as [d|] eqn:Ed; [|apply yields_ret; auto].
  pose proof (alive_hears A N R c Ha) as Hh. rewrite Ed in Hh.
  eapply yields_bind; [apply (event_recv_data R d c Hh)|]. intros [err c1] (l & E & H1). cbn [fst snd] in *. subst c1.
  apply yields_ret. pose proof (alive_goes_on A N R c Ha) as [G1 G2 G3 G4]. destruct (err =? ERR_OK); cbn [fst snd].
  - split; [|split; [exact Hw|reflexivity]]. apply goes_on_alive; [constructor; auto| |apply Ha].
    + eapply snd_ok_same; [exact G1|repeat split].
    + destruct G2. now constructor.
    + destruct H1. now constructor.
  - split; [|split; [exact Hw|discriminate]]. apply goes_on_alive; [now constructor| |apply Ha]. cbn. now rewrite Ed.
Qed.

(** The connection while its segment is processed; [d] is still to be handed
    over. *)
Record settled (A N R : Z) (d : option chain) (c : conn) : Prop := Settled
  { se_rest : parked R c \/ goes_on A N R c; se_wire : wire_ok R c; se_hears : hears R d c; se_input : in_input c = true }.

Lemma settled_events A N R d d' c l : settled A N R d c -> hears R d' (c <| events := l |>) -> settled A N R d' (c <| events := l |>).
Proof. intros [Hr Hw _ Hi] Hh. constructor; auto. destruct Hr as [Hr|[]]; [now left|right; now constructor]. Qed.

Lemma goes_on_refused A N R c d : goes_on A N R c -> goes_on A N R (c <| pcb := (pcb c) <| refused_data := d |> |>).
Proof. intros [Hs [] ? ?]. constructor; auto; [|now constructor]. eapply snd_ok_same; [exact Hs|repeat split]. Qed.

Lemma notify_spec A N R i c : settled A N R (recv_data i) c -> refused_data (pcb c) = None ->
  (has TF_GOT_FIN (recv_flags i) = true -> R = size S' + 1) ->
  yields (notify netif_list netif_default max app i c) (fun c' => settled A N R (refused_data (pcb c')) c').
Proof.
  intros Hs Hf Hfin. unfold notify.
  eapply yields_bind with (Q := fun r => settled A N R (recv_data i) (snd r) /\ refused_data (pcb (snd r)) = None).
  { destruct (0 <? acked (pcb c)); [|now apply yields_ret].
    destruct (event_opt_quiet (sent (pcb c)) (EV_SENT (acked (pcb c))) c ltac:(discriminate)) as (err & l & -> & Eh & Et).
    apply yields_ret. cbn [snd]. split; [|exact Hf]. eapply settled_events; [exact Hs|]. destruct Hs as [_ _ [H1 H2 H3] _].
    constructor; [cbn; rewrite Eh; exact H1|change (told l = true -> R = size S' + 1); rewrite Et; exact H2|exact H3]. }
  intros [e c1] [H1 Hf1]. cbn [snd] in *.
  eapply yields_bind with (Q := fun c2 => settled A N R (refused_data (pcb c2)) c2).
  { destruct (recv_data i) as [d|] eqn:Ed; [|apply yields_ret; now rewrite Hf1].
    eapply yields_bind; [apply (event_recv_data R d c1), H1|]. intros [err c2] (l & E & Hh). cbn [fst snd] in *. subst c2. apply yields_ret.
    pose proof (settled_events A N R (Some d) _ c1 l H1 Hh) as H2.
    assert (Hf2 : refused_data (pcb (c1 <| events := l |>)) = None) by exact Hf1. destruct (err =? ERR_OK); [cbv beta; now rewrite Hf2|].
    destruct H2 as [Hr Hw [G1 G2 G3] Hi]. constructor; auto; [|now constructor].
    destruct Hr as [Hr|Hr]; [now left|right]. now apply goes_on_refused. }
  intros c2 H2. destruct (has TF_GOT_FIN (recv_flags i)) eqn:Eg; [|now apply yields_ret].
  eapply yields_bind; [apply (event_recv_end R (refused_data (pcb c2)) c2 (Hfin eq_refl)), H2|]. intros [err c3] (l & E & Hh). cbn [fst snd] in *. subst c3. apply yields_ret.
  eapply settled_events; [exact H2|exact Hh].
Qed.

(** A connection that is not there any more only answers. *)
Lemma parked_output R c : parked R c -> 0 <= R -> wire_ok R c -> yields (tcp_output netif_list netif_default c) (fun r =>
  closing (state (pcb (snd r))) = None /\ wire_ok R (snd r) /\ events (snd r) = events c).
Proof.
  intros (Hc & En & Eu) HR Hw.
  assert (Hsend : yields (tcp_output netif_list netif_default c) (fun r => sends isn S fin c (snd r))).
  { unfold tcp_output. destruct (in_input c); [apply yields_ret, sends_refl|]. rewrite Eu. destruct (_ && _).
    - eapply yields_weaken; [apply (guarded_yields True), send_empty_ack_spec|]. intros [e c'] [H _]. now apply sends_answers.
    - cbn [output_loop]. rewrite bind_ret. apply yields_ret. apply sends_pcb. }
  eapply yields_weaken; [apply yields_and; [exact Hsend|apply output_quiet]|]. intros r [H1 [(_ & _ & _ & E & _) H2]].
  split; [now rewrite E|]. rewrite En in H2. split; [|apply H2]. eapply wire_ok_sends; eauto.
Qed.

Lemma remove_spec c : in_input c = true -> yields (tcp_pcb_remove netif_list netif_default c) (fun c' =>
  closing (state (pcb c')) = None /\ wire c' = wire c /\ events c' = events c).
Proof.
  intros Hi. unfold tcp_pcb_remove. eapply yields_bind with (Q := fun c' => wire c' = wire c /\ events c' = events c).
  - destruct (_ && _); [|now apply yields_ret]. unfold tcp_output.
    match goal with |- context [if in_input ?x then _ else _] => change (in_input x) with (in_input c) end. rewrite Hi.
    rewrite bind_ret. now apply yields_ret.
  - intros c' [H1 H2]. apply yields_any. intros _. apply yields_ret. auto.
Qed.

(** What is sent at the end. *)
Lemma settled_output A N R c : settled A N R (refused_data (pcb c)) c -> 0 <= R ->
  yields (tcp_output netif_list netif_default (c <| in_input := false |>)) (fun r =>
    exists N', wire_ok R (snd r) /\ (alive A N' R (snd r) \/ ended R (snd r))).
Proof.
  intros [[Hp|Hg] Hw Hh _] HR.
  - eapply yields_weaken; [apply (parked_output R (c <| in_input := false |>)); [exact Hp|exact HR|exact Hw]|].
    intros r (H4 & H5 & H6). exists N. split; [exact H5|]. right. split; [exact H4|]. rewrite H6.
    split; [exact (hears_prefix _ _ _ Hh)|apply Hh].
  - assert (Ha : alive A N R (c <| in_input := false |>)).
    { apply goes_on_alive; [destruct Hg; now constructor|destruct Hh; now constructor|reflexivity]. }
    eapply yields_weaken; [exact (guarded_yields _ _ _ (alive_output _ _ _ _ _ _ _ _ _ A N R _ Ha Hw))|].
    intros r (N' & _ & H4 & H5). exists N'. auto.
Qed.

Lemma event_err_spec f err c : yields (TCP_EVENT_ERR app f err c) (fun c' =>
  exists l, c' = c <| events := l |> /\ heard l = heard (events c) /\ told l = told (events c)).
Proof.
  unfold TCP_EVENT_ERR. destruct (event_opt_quiet f (EV_ERR err) c ltac:(discriminate)) as (e & l & -> & Eh & Et).
  rewrite bind_ret. apply yields_ret. eauto.
Qed.

(** The connection is gone; nothing was handed over since [c]. *)
Lemma ended_later R R' d c c' : hears R d c -> closing (state (pcb c')) = None -> heard (events c') = heard (events c) ->
  told (events c') = told (events c) -> R <= R' <= total S' fin' -> ended R' c'.
Proof.
  intros Hh Hc Eh Et HR. split; [exact Hc|]. rewrite Eh, Et. split; [exact (hears_prefix _ _ _ Hh)|]. intros Ht.
  apply Hh in Ht. unfold total in *. pose proof (b2z_bounds fin'). lia.
Qed.

Lemma went_wire R R' i c c' : 0 <= R -> rcv_nxt (pcb c) = u32 (isn' + R) -> wire_ok R c -> went R R' i c c' -> wire_ok R' c'.
Proof.
  intros HR En Hw []. apply (wire_ok_later isn S fin isn' R R' c'); [lia|].
  apply (wire_ok_sends isn S fin isn' R c c'); [exact HR|exact Hw|exact we_sends0|]. now rewrite <- En.
Qed.

Lemma reset_spec c : in_input c = true ->
  yields (c' <- TCP_EVENT_ERR app (errf (pcb c)) ERR_RST c;; tcp_pcb_remove netif_list netif_default c') (fun c' =>
    closing (state (pcb c')) = None /\ wire c' = wire c /\ heard (events c') = heard (events c) /\ told (events c') = told (events c)).
Proof.
  intros Hi. eapply yields_bind; [apply event_err_spec|]. intros c1 (l & E & Eh & Et). assert (Hi1 : in_input c1 = true) by (now rewrite E).
  eapply yields_weaken; [apply (remove_spec c1 Hi1)|]. intros c2 (H1 & H2 & H3). rewrite H2, H3, E. auto.
Qed.

(** What has been received is to be handed over. *)
Lemma went_settled A N R R' i c c' : hears R None c -> 0 <= R -> wire_ok R' c' -> in_input c' = true -> went R R' i c c' ->
  parked R' c' \/ goes_on A N R' c' -> settled A N R' (recv_data i) c'.
Proof.
  intros [Hh Ht Hrecv] HR Hw Hi [] Hrest. pose proof (proj1 we_says0) as Eev. constructor; [exact Hrest|exact Hw| |exact Hi].
  cbn [data_of] in Hh. rewrite app_nil_r in Hh. constructor; rewrite ?Eev, ?we_recv0; auto.
  - rewrite Hh, we_data0. pose proof (slice_step S' 0 R R' ltac:(lia) ltac:(lia)) as K. now rewrite !Z.sub_0_r in K.
  - intros Htold. apply Ht in Htold. unfold total in *. pose proof (b2z_bounds fin'). lia.
Qed.

(** What [tcp_input] does behind [tcp_process]. *)
Lemma finish_spec A N R R' i c c' : hears R None c -> 0 <= R -> rcv_nxt (pcb c) = u32 (isn' + R) -> wire_ok R c -> in_input c' = true ->
  went R R' i c c' -> parked R' c' \/ goes_on A N R' c' ->
  yields (if has TF_CLOSED (recv_flags i) then tcp_pcb_remove netif_list netif_default c'
          else
            c <- notify netif_list netif_default max app i c';;
            '(_, c) <- tcp_output netif_list netif_default (c <| in_input := false |>);;
            ret c)
    (fun c4 => exists N', wire_ok R' c4 /\ (alive A N' R' c4 \/ ended R' c4)).
Proof.
  intros Hh HR En Hw Hi Hwent Hrest. pose proof (went_wire R R' i c c' HR En Hw Hwent) as Hw'. pose proof Hwent as [].
  destruct (has TF_CLOSED (recv_flags i)).
  - eapply yields_weaken; [apply (remove_spec c' Hi)|]. intros c3 (H1 & H2 & H3). exists N.
    split; [unfold TcpEnd.wire_ok; rewrite H2; exact Hw'|]. right. pose proof (proj1 we_says0) as Eev.
    apply (ended_later R R' None c c3 Hh H1); [now rewrite H3, Eev..|lia].
  - pose proof (went_settled A N R R' i c c' Hh HR Hw' Hi Hwent Hrest) as Hset.
    eapply yields_bind; [apply (notify_spec A N R' i c' Hset we_refused0)|].
    + intros Hg. rewrite we_fin0 in Hg. unfold passes_end in Hg. apply andb_prop in Hg. destruct Hg as [_ Hg]. apply Z.ltb_lt in Hg.
      unfold total in *. pose proof (b2z_bounds fin'). lia.
    + intros c3 H3. cbv beta in H3. eapply yields_bind; [apply (settled_output A N R' c3 H3 ltac:(lia))|].
      intros [e c4] H4. now apply yields_ret.
Qed.

(** What a segment does to a connection. *)
Lemma input_segment_spec A N R i c : alive A N R c -> wire_ok R c -> arrived i -> max < 256 -> total S' fin' < 1073741824 ->
  yields (tcp_input_segment netif_list netif_default max app i c) (fun c' => exists A' N' R',
    (A' = A \/ A' = y) /\ R <= R' <= total S' fin' /\ wire_ok R' c' /\ (alive A' N' R' c' \/ ended R' c')).
Proof.
  intros Ha Hw (Ed & Ef & Hk) Hmax Hsm. unfold tcp_input_segment.
  replace (i <| recv_data := None |> <| recv_flags := 0 |>) with i by (destruct i; cbn in *; now subst).
  eapply yields_bind; [apply (offer_refused_spec A N R c Ha Hw)|]. intros [go c1] (Ha1 & Hw1 & Hf1). cbn [fst snd] in *.
  pose proof (ro_pos _ _ _ _ _ _ (al_rcv _ _ _ _ _ _ _ _ _ _ _ Ha1)) as HR.
  destruct go; cbn [negb]; [|apply yields_ret; exists A, N, R; auto with lia]. specialize (Hf1 eq_refl).
  pose proof (alive_hears A N R c1 Ha1) as Hh1. rewrite Hf1 in Hh1. pose proof (ro_nxt _ _ _ _ _ _ (al_rcv _ _ _ _ _ _ _ _ _ _ _ Ha1)) as En.
  set (c2 := c1 <| in_input := true |>).
  assert (Hc2 : goes_on A N R c2 /\ hears R None c2 /\ wire_ok R c2 /\ in_input c2 = true /\ refused_data (pcb c2) = None /\
    rcv_nxt (pcb c2) = u32 (isn' + R)).
  { split; [destruct (alive_goes_on A N R c1 Ha1); now constructor|].
    split; [destruct Hh1; now constructor|]. now repeat split. }
  clearbody c2. destruct Hc2 as (Hg & Hh & Hw2 & Hi & Hf & En2).
  eapply yields_bind; [apply (tcp_process_spec A N R i c2 Hg Hi Hf (conj Ed (conj Ef Hk)) Hmax Hsm)|].
  intros [err [i3 c3]]. cbn [fst snd]. intros (Herr & Hi3 & Hcase). destruct (Z.eqb_spec err ERR_ABRT); [congruence|].
  eapply yields_bind with (Q := fun c4 => exists A' N' R', (A' = A \/ A' = y) /\ R <= R' <= total S' fin' /\ wire_ok R' c4 /\ (alive A' N' R' c4 \/ ended R' c4)).
  - destruct (has TF_RESET (recv_flags i3)) eqn:Eres.
    + eapply yields_weaken; [apply (reset_spec c3 Hi3)|]. intros c4 (H1 & H2 & Eh & Et).
      destruct Hcase as [(_ & Eev & Ewi)|(A' & R' & HA & Hwent & _)].
      * exists A, N, R. split; [now left|]. split; [lia|]. split; [unfold TcpEnd.wire_ok; rewrite H2, Ewi; exact Hw2|]. right.
        apply (ended_later R R None c2 c4 Hh H1); [now rewrite Eh, Eev|now rewrite Et, Eev|lia].
      * pose proof (went_wire R R' i3 c2 c3 ltac:(lia) En2 Hw2 Hwent) as Hw3. destruct Hwent. pose proof (proj1 we_says0) as Eev.
        exists A', N, R'. split; [exact HA|]. split; [lia|]. split; [unfold TcpEnd.wire_ok; rewrite H2; exact Hw3|]. right.
        apply (ended_later R R' None c2 c4 Hh H1); [now rewrite Eh, Eev|now rewrite Et, Eev|lia].
    + destruct Hcase as [(E & _)|(A' & R' & HA & Hwent & Hrest)]; [congruence|].
      eapply yields_weaken; [apply (finish_spec A' N R R' i3 c2 c3 Hh ltac:(lia) En2 Hw2 Hi3 Hwent Hrest)|].
      intros c4 (N' & H1 & H2). exists A', N', R'. destruct Hwent. auto with lia.
  - intros c4 (A' & N' & R' & HA & HR' & H4 & H5). apply yields_ret. exists A', N', R'. split; [exact HA|]. split; [exact HR'|].
    split; [exact H4|]. destruct H5 as [H5|H5]; [left|now right]. destruct H5. now constructor.
Qed.

(** ** Timers *)

Lemma alive_rto A N R c p : alive A N R c -> wire_ok R c -> snd_ok A N p -> same_receiver (pcb c) p ->
  yields (tcp_rexmit_rto netif_list netif_default (c <| pcb := p |>)) (fun c' => exists N', alive A N' R c' /\ wire_ok R c').
Proof.
  intros Ha Hw Hs Hr.
  assert (Ha1 : alive A N R (c <| pcb := p |>) /\ wire_ok R (c <| pcb := p |>)).
  { apply (alive_quiet isn S fin isn' S' fin' max A N N R c); [exact Ha|exact Hw|exact Hs|apply sends_pcb|now apply quiet_pcb]. }
  destruct Ha1 as [Ha1 Hw1]. eapply yields_weaken.
  - apply yields_and; [exact (guarded_yields _ _ _ (rexmit_rto_spec isn S fin netif_list netif_default max A N (c <| pcb := p |>) Hs))|].
    apply rexmit_rto_quiet.
  - intros c' [(N' & H1 & H2 & _) H3]. exists N'. now apply (alive_quiet isn S fin isn' S' fin' max A N N' R (c <| pcb := p |>)).
Qed.

Lemma slow_resend_spec A N R c : alive A N R c -> wire_ok R c ->
  yields (slow_resend netif_list netif_default c) (fun c' => exists N', alive A N' R c' /\ wire_ok R c').
Proof.
  intros Ha Hw. pose proof (al_snd _ _ _ _ _ _ _ _ _ _ _ Ha) as Hs. unfold slow_resend.
  assert (Hpcb : forall p, same_sender (pcb c) p -> same_receiver (pcb c) p -> alive A N R (c <| pcb := p |>) /\ wire_ok R (c <| pcb := p |>)).
  { intros p. now apply alive_pcb. }
  destruct (0 <? persist_backoff (pcb c)).
  - cbv zeta. change (persist_backoff ((pcb c) <| persist_cnt := u32 (persist_cnt (pcb c) + 1) |>)) with (persist_backoff (pcb c)).
    destruct (tcp_persist_backoff !! _); [|apply yields_ub]. destruct (_ <=? _).
    + set (p2 := if _ <? 7 then _ else _). assert (Hp2 : same_sender (pcb c) p2 /\ same_receiver (pcb c) p2).
      { unfold p2. destruct (_ <? 7); split; repeat split. }
      clearbody p2. destruct Hp2 as [G1 G2]. destruct (Hpcb p2 G1 G2) as [Ha2 Hw2]. eapply yields_weaken.
      * apply yields_and; [exact (guarded_yields _ _ _ (zero_window_probe_spec isn S fin max A N _ (al_snd _ _ _ _ _ _ _ _ _ _ _ Ha2)))|].
        apply zero_window_probe_quiet.
      * intros c' [[H1 H2] H3]. exists N. now apply (alive_quiet isn S fin isn' S' fin' max A N N R (c <| pcb := p2 |>)).
    + apply yields_ret. exists N. apply Hpcb; repeat split.
  - cbv zeta. set (p1 := if 0 <=? rtime (pcb c) then _ else _).
    assert (Hp1 : same_sender (pcb c) p1 /\ same_receiver (pcb c) p1) by (unfold p1; destruct (_ <=? _); split; repeat split).
    clearbody p1. destruct Hp1 as [G1 G2]. destruct (_ && _); [|apply yields_ret; exists N; now apply Hpcb].
    eapply yields_bind with (Q := fun p => same_sender (pcb c) p /\ same_receiver (pcb c) p).
    { destruct (negb _); [|now apply yields_ret]. destruct (tcp_backoff !! _); [|apply yields_ub]. apply yields_ret. now split. }
    intros p [H1 H2]. assert (Hsp : snd_ok A N p) by (eapply snd_ok_same; eauto).
    set (p3 := if _ <? mss _ then _ else _).
    assert (Hp3 : exists x, 0 < x < 65536 /\ p3 = p <| rtime := 0 |> <| ssthresh := x |>).
    { unfold p3. cbn [ssthresh mss set_field]. set (x := Z.shiftr (Z.min (cwnd _) (snd_wnd _)) 1).
      pose proof (so_mss _ _ _ _ _ _ _ Hsp) as Hm. unfold TCP_MSS in Hm. pose proof (so_cwnd _ _ _ _ _ _ _ Hsp) as Hcw.
      change (ssthresh (p <| rtime := 0 |> <| ssthresh := x |>)) with x. change (mss (p <| rtime := 0 |> <| ssthresh := x |>)) with (mss p).
      assert (Hx : x < 65536).
      { unfold x. change (cwnd (p <| rtime := 0 |>)) with (cwnd p). rewrite Z.shiftr_div_pow2 by lia. change (2 ^ 1) with 2.
        assert (Z.min (cwnd p) (snd_wnd (p <| rtime := 0 |>)) / 2 <= cwnd p / 2) by (apply Z.div_le_mono; lia).
        pose proof (Z.div_lt_upper_bound (cwnd p) 2 65536). lia. }
      clearbody x. destruct (Z.ltb_spec x (mss p)).
      - exists (u16 (mss p * 2)). split; [unfold u16; rewrite Z.mod_small; lia|reflexivity].
      - exists x. split; [lia|reflexivity]. }
    destruct Hp3 as (x & Hx & E). rewrite E. eapply alive_rto; [exact Ha|exact Hw| |].
    + destruct Hsp as []. constructor; cbn; auto; unfold TCP_MSS in *; lia.
    + exact H2.
Qed.

Lemma slow_keepalive_spec A N R c : alive A N R c -> wire_ok R c ->
  yields (slow_keepalive c) (fun r => alive A N R (snd r) /\ wire_ok R (snd r)).
Proof.
  intros Ha Hw. unfold slow_keepalive. destruct (_ && _); [|now apply yields_ret]. destruct (idle_for _ c); [now apply yields_ret|].
  destruct (idle_for _ c); [|now apply yields_ret].
  eapply yields_bind with (Q := fun c' => alive A N R c' /\ wire_ok R c').
  - eapply yields_weaken; [apply yields_and; [|apply keepalive_quiet]|].
    + instantiate (1 := fun c' => snd_ok A N (pcb c') /\ sends isn S fin c c'). unfold tcp_keepalive. apply yields_any. intros [|]; cbn [negb].
      * unfold tcp_output_set_header. apply yields_ret. split; [eapply snd_ok_same; [apply Ha|repeat split]|].
        split; [|auto]. eexists. split; [reflexivity|]. constructor; [|constructor]. left. split; reflexivity.
      * apply yields_ret. split; [apply Ha|apply sends_refl].
    + intros c' [[H1 H2] H3]. now apply (alive_quiet isn S fin isn' S' fin' max A N N R c).
  - intros c' [H1 H2]. apply yields_ret. apply alive_pcb; auto; repeat split.
Qed.

(** A connection whose time has run out. *)
Lemma expired A N R c (reset : bool) : alive A N R c -> wire_ok R c ->
  yields (let p := tcp_pcb_purge (pcb c) in
    c <- TCP_EVENT_ERR app (errf p) ERR_ABRT (c <| pcb := p |>);;
    c <- (if reset then tcp_rst (snd_nxt p) (rcv_nxt p) (local_ip p) (remote_ip p) (local_port p) (remote_port p) c else ret c);;
    ret (c <| pcb := (pcb c) <| state := CLOSED |> |>)) (fun c' => wire_ok R c' /\ ended R c').
Proof.
  intros Ha Hw. cbv zeta. set (p := tcp_pcb_purge (pcb c)). eapply yields_bind; [apply event_err_spec|]. intros c1 (l & E & Eh & Et).
  pose proof (alive_hears A N R c Ha) as Hh.
  eapply yields_bind with (Q := fun c2 => wire_ok R c2 /\ events c2 = l).
  - subst c1. assert (Hw1 : wire_ok R (c <| pcb := p |> <| events := l |>)) by exact Hw.
    destruct reset; [|now apply yields_ret]. unfold tcp_rst. apply yields_any. intros [|]; cbn [negb]; apply yields_ret; [|now split].
    split; [|reflexivity]. apply Forall_app. split; [exact Hw|]. constructor; [now left|constructor].
  - intros c2 [H1 H2]. apply yields_ret. split; [exact H1|]. split; [reflexivity|]. cbn [events set_field].
    change (events (c2 <| pcb := (pcb c2) <| state := CLOSED |> |>)) with (events c2). rewrite H2, Eh, Et.
    split; [exact (hears_prefix _ _ _ Hh)|apply Hh].
Qed.

Lemma drop_ooseq A N R c : alive A N R c -> alive A N R (c <| pcb := (pcb c) <| ooseq := [] |> |>).
Proof.
  intros []. constructor; auto; [eapply snd_ok_same; [exact al_snd|repeat split]|]. destruct al_rcv. now constructor.
Qed.

Lemma slowtmr_spec A N R c : alive A N R c -> wire_ok R c ->
  yields (tcp_slowtmr netif_list netif_default app c) (fun c' => wire_ok R c' /\ ((exists N', alive A N' R c') \/ ended R c')).
Proof.
  intros Ha Hw. unfold tcp_slowtmr. apply yields_any. intros _. cbv zeta. set (tired := (_ && _) || _). clearbody tired.
  eapply yields_bind with (Q := fun c1 => exists N', alive A N' R c1 /\ wire_ok R c1).
  { destruct tired; [apply yields_ret; eauto|now apply slow_resend_spec with (N := N)]. }
  intros c1 (N1 & Ha1 & Hw1). eapply yields_bind; [now apply (slow_keepalive_spec A N1 R c1)|]. intros [reset c2] [Ha2 Hw2]. cbn [snd] in *.
  set (c3 := if _ && (_ <=? _) then _ else c2).
  assert (H3 : alive A N1 R c3 /\ wire_ok R c3) by (unfold c3; destruct (_ && (_ <=? _)); [split; [now apply drop_ooseq|exact Hw2]|now split]).
  clearbody c3. destruct H3 as [Ha3 Hw3]. destruct (_ || _).
  - eapply yields_weaken; [exact (expired A N1 R c3 reset Ha3 Hw3)|]. intros c4 [H4 H5]. auto.
  - set (p := (pcb c3) <| polltmr := _ |>). destruct (_ <=? _).
    + destruct (alive_pcb isn S fin isn' S' fin' max A N1 R c3 (p <| polltmr := 0 |>) Ha3 Hw3) as [Ha4 Hw4]; [repeat split..|].
      destruct (event_opt_quiet (poll p) EV_POLL (c3 <| pcb := p <| polltmr := 0 |> |>) ltac:(discriminate)) as (err & l & E & Eh & Et).
      rewrite E, bind_ret. set (c5 := _ <| events := l |>).
      assert (Ha5 : alive A N1 R c5).
      { destruct Ha4. constructor; auto; [exact (eq_trans (f_equal (fun x => x ++ _) Eh) al_heard)|].
        change (told l = true -> R = size S' + 1). now rewrite Et. }
      assert (Hw5 : wire_ok R c5) by exact Hw4. clearbody c5. destruct (_ =? _); [|apply yields_ret; split; [exact Hw5|left; now exists N1]].
      eapply yields_bind; [exact (guarded_yields _ _ _ (alive_output _ _ _ _ _ _ _ _ _ A N1 R c5 Ha5 Hw5))|].
      intros [e c6] (N6 & _ & H6 & H7). apply yields_ret. split; [exact H7|]. left. now exists N6.
    + apply yields_ret. destruct (alive_pcb isn S fin isn' S' fin' max A N1 R c3 p Ha3 Hw3) as [Ha4 Hw4]; [repeat split..|].
      split; [exact Hw4|]. left. now exists N1.
Qed.

Lemma fasttmr_spec A N R c : alive A N R c -> wire_ok R c ->
  yields (tcp_fasttmr netif_list netif_default max app c) (fun c' => exists N', alive A N' R c' /\ wire_ok R c').
Proof.
  intros Ha Hw. unfold tcp_fasttmr. eapply yields_bind; [now apply (offer_refused_spec A N R c)|]. intros [b c1] (Ha1 & Hw1 & _). cbn [snd] in *.
  destruct (has _ _); [|apply yields_ret; eauto].
  eapply yields_bind; [exact (guarded_yields _ _ _ (alive_ack_now _ _ _ _ _ _ _ _ _ A N R c1 Ha1 Hw1))|].
  intros c2 (N2 & _ & Ha2 & Hw2). apply yields_ret. exists N2. apply alive_pcb; auto; [repeat split; apply infr_clear|repeat split].
Qed.
End EndIn.

(** ** Packets *)

(** A packet that the other side has sent is regular, and acknowledges what
    it has received. *)
Lemma packet_arrives isn S fin isn' S' fin' R k q hdr opts : pk_good isn' S' fin' isn R k -> 0 <= R <= total S fin ->
  concat q = pk_data k -> q <> [] -> tot_len q <= 65495 -> Forall (fun b => 0 <= b) opts ->
  exists y, y <= R /\ arrived isn S fin isn' S' fin' y (tcp_in_of k q hdr opts).
Proof.
  intros [Hk|(Hk & y & Hy & Ea)] HR Hq Hne Hlen Ho; [exists R; split; [lia|]; split; [reflexivity|]; split; [reflexivity|now left]|].
  exists y. split; [lia|]. split; [reflexivity|]. split; [reflexivity|]. right. pose proof (tot_len_nonneg q).
  assert (Et : u16 (tot_len q) = tot_len q) by (unfold u16; rewrite Z.mod_small; lia).
  assert (Ef : tcplen (tcp_in_of k q hdr opts) = tot_len q + b2z (has (Z.lor TCP_FIN TCP_SYN) (pk_flags k))).
  { cbn. pose proof (b2z_bounds (has (Z.lor TCP_FIN TCP_SYN) (pk_flags k))). unfold u16. rewrite Z.mod_small; lia. }
  assert (Hsyn : has TCP_SYN (pk_flags k) = false) by (destruct Hk as [[_ ->]|(a & [])]; [reflexivity|assumption]).
  constructor; auto; try lia.
  - destruct Hk as [[Ed Efl]|(a & Hc)].
    + left. rewrite Ef, Efl. unfold tot_len. now rewrite Hq, Ed.
    + right. split; [rewrite Ef; cbn; now rewrite Et|]. exists a. destruct Hc. cbn in *. rewrite app_nil_r in ca_data.
      assert (El : tot_len q = Z.of_nat (length (pk_data k))) by (unfold tot_len; now rewrite Hq).
      constructor; cbn; rewrite ?Et, ?El, ?Hq; auto.
  - cbn. unfold u16. apply Z.mod_pos_bound. lia.
Qed.
