(* ===== verification/TcpTheorems.v ===== *)
(** * lwIP: TCP carries the stream

    Two ends of a connection and a network that may lose, repeat and delay
    packets: what one application has heard is the beginning of what the other
    has written, and what it has not heard is still queued. *)
From Stdlib Require Import ZArith List Lia Bool.
From stdpp Require Import base gmap list.
From S2P Require Import Prelude CMonad Pbuf Inet Netif IpHdr Tcp TcpIn TcpInSpec.
From S2P Require Import TcpOutSpec TcpProc TcpEnd TcpEndIn.
#[local] Open Scope Z_scope.
#[local] Open Scope cmonad_scope.
#[local] Open Scope record_scope.

(** ** The system *)

(** What a host has besides its connections: its interfaces, the option
    [TCP_SND_QUEUELEN], and the functions of its application. *)
Record host : Type := Host
  { ho_netifs : list netif; ho_default : option netif; ho_queuelen : Z; ho_app : Z -> event -> conn -> M (Z * conn) }.

(** The functions of the application do nothing to the connection; its calls
    are steps of their own. *)
Record host_ok (h : host) : Prop := HostOk
  { hk_queuelen : ho_queuelen h < 256; hk_app : forall f e c, exists err, ho_app h f e c = ret (err, c) }.

(** One end: the connection, the bytes that [tcp_write] has accepted, and
    whether [tcp_close] has. *)
Record side : Type := Side { sd_conn : conn; sd_written : list Z; sd_closed : bool }.

Definition live (c : conn) : bool := match closing (state (pcb c)) with Some _ => true | None => false end.

(** One step of an end, with the packets [net] that the other one has ever
    sent.  [hp] says which allocations succeed. *)
Inductive act (h : host) (net : list tcp_packet) : side -> side -> Prop :=
| act_write c w cl T apiflags hp hp' err p :
    live c = true -> T <> [] -> size w + size T < 1073741823 ->
    tcp_write (ho_queuelen h) (pcb c) (Some T) (size T) apiflags hp = (Ok (err, p), hp') ->
    act h net (Side c w cl) (Side (c <| pcb := p |>) (if err =? ERR_OK then w ++ T else w) cl)
| act_close c w cl hp hp' err c' :
    live c = true -> tcp_close (ho_netifs h) (ho_default h) (ho_queuelen h) c hp = (Ok (err, c'), hp') ->
    act h net (Side c w cl) (Side c' w (cl || (err =? ERR_OK)))
| act_output c w cl hp hp' err c' :
    live c = true -> tcp_output (ho_netifs h) (ho_default h) c hp = (Ok (err, c'), hp') -> act h net (Side c w cl) (Side c' w cl)
| act_recved c w cl len hp hp' c' :
    live c = true -> 0 <= len -> tcp_recved (ho_netifs h) (ho_default h) len c hp = (Ok c', hp') ->
    act h net (Side c w cl) (Side c' w cl)
| act_slowtmr c w cl hp hp' c' :
    live c = true ->
    tcp_slowtmr (ho_netifs h) (ho_default h) (ho_app h) (c <| tcp_ticks := u32 (tcp_ticks c + 1) |>) hp = (Ok c', hp') ->
    act h net (Side c w cl) (Side c' w cl)
| act_fasttmr c w cl hp hp' c' :
    live c = true -> tcp_fasttmr (ho_netifs h) (ho_default h) (ho_queuelen h) (ho_app h) c hp = (Ok c', hp') ->
    act h net (Side c w cl) (Side c' w cl)
| act_input c w cl k q hdr opts hp hp' c' :
    live c = true -> k ∈ net -> concat q = pk_data k -> q <> [] -> tot_len q <= 65495 -> Forall (fun b => 0 <= b) opts ->
    tcp_input_segment (ho_netifs h) (ho_default h) (ho_queuelen h) (ho_app h) (tcp_in_of k q hdr opts) c hp = (Ok c', hp') ->
    act h net (Side c w cl) (Side c' w cl).

Inductive step (h1 h2 : host) : side * side -> side * side -> Prop :=
| step_left x x' y : act h1 (wire (sd_conn y)) x x' -> step h1 h2 (x, y) (x', y)
| step_right x y y' : act h2 (wire (sd_conn x)) y y' -> step h1 h2 (x, y) (x, y').

(** The packets that open a connection. *)
Definition handshake (isn' : Z) (k : tcp_packet) : Prop :=
  has TCP_SYN (pk_flags k) = true \/ (bare_ack k /\ pk_ackno k = u32 isn').

(** An end that has just been connected: [isn] is its first sequence number,
    [isn'] that of the other end. *)
Record fresh (h : host) (isn isn' : Z) (x : side) : Prop := Fresh
  { fr_written : sd_written x = []; fr_closed : sd_closed x = false; fr_wire : Forall (handshake isn') (wire (sd_conn x));
    fr_events : heard (events (sd_conn x)) = [] /\ told (events (sd_conn x)) = false;
    fr_input : in_input (sd_conn x) = false; fr_state : state (pcb (sd_conn x)) = ESTABLISHED;
    fr_recv : exists f, recv (pcb (sd_conn x)) = Some f; fr_refused : refused_data (pcb (sd_conn x)) = None;
    fr_seq : lastack (pcb (sd_conn x)) = u32 isn /\ snd_nxt (pcb (sd_conn x)) = u32 isn /\ snd_lbb (pcb (sd_conn x)) = u32 isn;
    fr_rcv : rcv_nxt (pcb (sd_conn x)) = u32 isn'; fr_wnd : 0 <= rcv_wnd (pcb (sd_conn x)) <= TCP_WND;
    fr_queues : unacked (pcb (sd_conn x)) = [] /\ unsent (pcb (sd_conn x)) = [] /\ ooseq (pcb (sd_conn x)) = [];
    fr_queuelen : snd_queuelen (pcb (sd_conn x)) = 0 /\ 0 <= ho_queuelen h; fr_mss : 0 < mss (pcb (sd_conn x)) <= TCP_MSS;
    fr_cwnd : 0 < cwnd (pcb (sd_conn x)) < 65536; fr_ssthresh : 0 < ssthresh (pcb (sd_conn x)) < 65536;
    fr_snd : 0 <= snd_wnd (pcb (sd_conn x)) < 65536 /\ 0 <= snd_buf (pcb (sd_conn x)) < 65536 }.

(** ** The invariant *)

Section Invariant.
Context (h : host) (isn isn' : Z) (Hh : host_ok h).

(** [x] has the stream of the other end up to [R]; that one has the stream of
    [x] up to [R']. *)
Record side_inv (S' : list Z) (fin' : bool) (R R' : Z) (x : side) : Prop := SideInv
  { si_pos : 0 <= R <= total S' fin'; si_small : size (sd_written x) < 1073741823;
    si_wire : wire_ok isn (sd_written x) (sd_closed x) isn' R (sd_conn x);
    si_conn : (exists A N, A <= R' /\ alive isn (sd_written x) (sd_closed x) isn' S' fin' (ho_queuelen h) A N R (sd_conn x)) \/
              ended S' R (sd_conn x) }.

Lemma ended_not_live S' R c : ended S' R c -> live c = false.
Proof. intros [E _]. unfold live. now rewrite E. Qed.

Lemma fresh_inv x : fresh h isn isn' x -> side_inv [] false 0 0 x.
Proof.
  intros []. destruct fr_events0 as [V1 V2], fr_seq0 as (E1 & E2 & E3), fr_queues0 as (Q1 & Q2 & Q3), fr_queuelen0 as [L1 L2], fr_snd0.
  assert (E0 : total [] false = 0) by reflexivity. assert (Ei : forall z, u32 (z + 0) = u32 z) by (intros z; now rewrite Z.add_0_r).
  constructor; rewrite ?fr_written0, ?fr_closed0, ?E0; try (unfold size; cbn; lia); [|].
  { eapply Forall_impl; [exact fr_wire0|]. intros k [Hk|[Hk Hn]]; [left; rewrite has_lor, Hk; apply orb_true_r|]. right.
    split; [now left|]. exists 0. split; [lia|]. now rewrite Ei. }
  left. exists 0, 0. split; [lia|]. constructor; rewrite ?fr_state0, ?fr_refused0, ?V1, ?V2; auto; try lia; try discriminate.
  - constructor; rewrite ?E0, ?Q1, ?Q2, ?Ei; auto; try lia. intros n Hn; lia.
  - constructor; rewrite ?E0, ?Q3, ?Ei; auto; try exact I; unfold TCP_WND, TCP_MSS in *; lia.
Qed.

Lemma side_inv_weaken S' fin' R R1 R2 x : R1 <= R2 -> side_inv S' fin' R R1 x -> side_inv S' fin' R R2 x.
Proof. intros H [H1 H2 H3 [(A & N & H4 & H5)|H4]]; constructor; auto. left. exists A, N. split; [lia|exact H5]. Qed.

(** The other end writes more, or closes. *)
Lemma queue_longer S' T fin1 fin2 lo hi l : (fin1 = true -> T = [] /\ fin2 = true) -> queue_ok isn' S' fin1 False lo hi l ->
  queue_ok isn' (S' ++ T) fin2 False lo hi l.
Proof.
  intros Hf. revert lo. induction l as [|s l IH]; intros lo Hq; [exact I|]. destruct Hq as (a & Ha & Hc & _ & Hl & Hq).
  exists a. split; [exact Ha|]. split; [eapply carries_longer; eauto|]. split; [contradiction|]. split; [exact Hl|]. now apply IH.
Qed.

Lemma peer_longer S' T fin2 R R' x : side_inv S' false R R' x -> side_inv (S' ++ T) fin2 R R' x.
Proof.
  intros [Hp Hs Hw Hc]. unfold total in Hp. cbn in Hp. assert (HT : 0 <= size T) by (unfold size; lia). pose proof (b2z_bounds fin2).
  assert (Hp2 : 0 <= R <= total (S' ++ T) fin2) by (unfold total; rewrite size_app; lia).
  constructor; auto. destruct Hc as [(A & N & HA & [])|(H1 & H2 & H3)].
  - left. exists A, N. split; [exact HA|]. constructor; auto.
    + destruct al_rcv. constructor; auto. eapply queue_longer; [|exact ro_queue]. discriminate.
    + rewrite al_heard. unfold upto. rewrite size_app, !Z.min_l by lia. symmetry. apply slice_longer; lia.
    + intros Ht. apply al_told in Ht. lia.
  - right. split; [exact H1|]. split; [|intros Ht; apply H3 in Ht; lia].
    eapply transitivity; [exact H2|]. now apply prefix_app_r.
Qed.

Notation alive_side w cl := (alive isn w cl isn').

(** What a step of an end changes. *)
Definition grows (S' : list Z) (fin' : bool) (R R' : Z) (x x' : side) : Prop :=
  exists R1, R <= R1 /\ side_inv S' fin' R1 R' x' /\
    ((sd_written x' = sd_written x /\ sd_closed x' = sd_closed x) \/ (sd_closed x = false /\ exists T, sd_written x' = sd_written x ++ T)).

Section Act.
Context (S' : list Z) (fin' : bool) (R R' A N : Z) (c : conn) (w : list Z) (cl : bool).
Context (HR : 0 <= R <= total S' fin') (HA : A <= R') (Hsmall : size w < 1073741823).
Context (Ha : alive_side w cl S' fin' (ho_queuelen h) A N R c) (Hw : wire_ok isn w cl isn' R c).

Lemma grows_same R1 c' : R <= R1 <= total S' fin' -> wire_ok isn w cl isn' R1 c' ->
  (exists A1 N1, A1 <= R' /\ alive_side w cl S' fin' (ho_queuelen h) A1 N1 R1 c') \/ ended S' R1 c' ->
  grows S' fin' R R' (Side c w cl) (Side c' w cl).
Proof. intros HR1 Hw1 H1. exists R1. split; [lia|]. split; [constructor; auto; lia|]. now left. Qed.

Lemma grows_alive A1 N1 c' : A1 <= R' -> alive_side w cl S' fin' (ho_queuelen h) A1 N1 R c' -> wire_ok isn w cl isn' R c' ->
  grows S' fin' R R' (Side c w cl) (Side c' w cl).
Proof. intros HA1 Ha1 Hw1. apply (grows_same R); [lia|exact Hw1|]. left. eauto. Qed.

Lemma grows_write T apiflags hp hp' err p : T <> [] -> size w + size T < 1073741823 ->
  tcp_write (ho_queuelen h) (pcb c) (Some T) (size T) apiflags hp = (Ok (err, p), hp') ->
  grows S' fin' R R' (Side c w cl) (Side (c <| pcb := p |>) (if err =? ERR_OK then w ++ T else w) cl).
Proof.
  intros HT Hsz E. pose proof (al_state _ _ _ _ _ _ _ _ _ _ _ Ha) as Hst. pose proof grows_alive as Hsame. destruct cl.
  - assert (Ec : err = ERR_CONN /\ p = pcb c).
    { unfold tcp_write in E. destruct (state (pcb c)); try discriminate; injection E as <- <- _; auto. }
    destruct Ec as [-> ->]. change (ERR_CONN =? ERR_OK) with false. cbv iota. replace (c <| pcb := pcb c |>) with c by now destruct c.
    now apply (Hsame A N).
  - pose proof (alive_write isn w isn' S' fin' (ho_queuelen h) T A N R c apiflags Ha Hw (hk_queuelen h Hh) HT ltac:(lia)) as Hrun.
    apply guarded_yields in Hrun. apply Hrun in E. cbv zeta in E. destruct E as [(-> & H1 & H2)|(Herr & H1 & H2)].
    + change (ERR_OK =? ERR_OK) with true. cbv iota. exists R. split; [lia|]. split; [|right; split; [reflexivity|now exists T]].
      constructor; cbn; auto; [rewrite size_app; lia|]. left. eauto.
    + apply Z.eqb_neq in Herr. rewrite Herr. now apply (Hsame A N).
Qed.

Lemma grows_close hp hp' err c' : tcp_close (ho_netifs h) (ho_default h) (ho_queuelen h) c hp = (Ok (err, c'), hp') ->
  grows S' fin' R R' (Side c w cl) (Side c' w (cl || (err =? ERR_OK))).
Proof.
  intros E. pose proof (al_state _ _ _ _ _ _ _ _ _ _ _ Ha) as Hst. pose proof grows_alive as Hsame. destruct cl.
  - assert (Ec : c' = c) by (unfold tcp_close in E; destruct (state (pcb c)); try discriminate; now injection E as _ <- _).
    subst c'. now apply (Hsame A N).
  - pose proof (alive_close isn w isn' S' fin' (ho_queuelen h) (ho_netifs h) (ho_default h) A N R c Ha Hw (hk_queuelen h Hh) ltac:(lia)) as Hrun.
    apply guarded_yields in Hrun. apply Hrun in E. destruct E as [(-> & N1 & _ & H1 & H2)|(Herr & H1 & H2)].
    + change (ERR_OK =? ERR_OK) with true. exists R. split; [lia|]. split; [|right; split; [reflexivity|exists []; symmetry; apply app_nil_r]].
      constructor; cbn; auto. left. eauto.
    + apply Z.eqb_neq in Herr. rewrite Herr. now apply (Hsame A N).
Qed.

Lemma grows_recved len hp hp' c' : 0 <= len -> tcp_recved (ho_netifs h) (ho_default h) len c hp = (Ok c', hp') ->
  grows S' fin' R R' (Side c w cl) (Side c' w cl).
Proof.
  intros Hl E. destruct (Z.leb_spec len (0xffff - rcv_wnd (pcb c))) as [Hle|Hgt].
  - pose proof (alive_recved isn w cl isn' S' fin' (ho_queuelen h) (ho_netifs h) (ho_default h) A N R c len Hl Ha Hw Hle) as Hrun.
    apply guarded_yields in Hrun. apply Hrun in E. destruct E as (N1 & _ & H1 & H2). now apply (grows_alive A N1).
  - unfold tcp_recved in E. apply Z.leb_gt in Hgt. rewrite Hgt in E. discriminate.
Qed.

Lemma grows_slowtmr hp hp' c' :
  tcp_slowtmr (ho_netifs h) (ho_default h) (ho_app h) (c <| tcp_ticks := u32 (tcp_ticks c + 1) |>) hp = (Ok c', hp') ->
  grows S' fin' R R' (Side c w cl) (Side c' w cl).
Proof.
  intros E. assert (Ha1 : alive_side w cl S' fin' (ho_queuelen h) A N R (c <| tcp_ticks := u32 (tcp_ticks c + 1) |>)) by (destruct Ha; now constructor).
  apply (slowtmr_spec isn w cl isn' S' fin' (ho_queuelen h) _ _ (ho_app h) (hk_app h Hh) A N R _ Ha1 Hw) in E.
  destruct E as [H1 [(N1 & H2)|H2]]; [now apply (grows_alive A N1)|]. apply (grows_same R); auto. lia.
Qed.

Lemma grows_input net k q hdr opts hp hp' c' : total S' fin' < 1073741824 -> 0 <= R' <= total w cl ->
  Forall (pk_good isn' S' fin' isn R') net -> k ∈ net -> concat q = pk_data k -> q <> [] -> tot_len q <= 65495 -> Forall (fun b => 0 <= b) opts ->
  tcp_input_segment (ho_netifs h) (ho_default h) (ho_queuelen h) (ho_app h) (tcp_in_of k q hdr opts) c hp = (Ok c', hp') ->
  grows S' fin' R R' (Side c w cl) (Side c' w cl).
Proof.
  intros Hsm HR' Hnet Hk Hq Hne Hlen Ho E. rewrite Forall_forall in Hnet. specialize (Hnet k Hk).
  destruct (packet_arrives isn w cl isn' S' fin' R' k q hdr opts Hnet HR' Hq Hne Hlen Ho) as (y & Hy & Harr).
  apply (input_segment_spec isn w cl isn' S' fin' (ho_queuelen h) _ _ y (ho_app h) (hk_app h Hh) A N R _ c Ha Hw Harr (hk_queuelen h Hh) Hsm) in E.
  destruct E as (A1 & N1 & R1 & HA1 & HR1 & Hw1 & [H1|H1]); (apply (grows_same R1); [lia|exact Hw1|]); [left|now right].
  exists A1, N1. split; [destruct HA1; lia|exact H1].
Qed.
End Act.

Lemma act_inv S' fin' R R' x x' net : side_inv S' fin' R R' x -> total S' fin' < 1073741824 ->
  0 <= R' <= total (sd_written x) (sd_closed x) -> Forall (pk_good isn' S' fin' isn R') net -> act h net x x' -> grows S' fin' R R' x x'.
Proof.
  intros [H1 H2 H3 H4] Hsm HR' Hnet Hact.
  assert (Hlive : forall c w cl, Side c w cl = x -> live c = true -> exists A N, A <= R' /\ alive_side w cl S' fin' (ho_queuelen h) A N R c).
  { intros c w cl <- Hl. destruct H4 as [H4|H4]; [exact H4|]. apply ended_not_live in H4. cbn in H4. congruence. }
  destruct Hact as [c w cl T apiflags hp hp' err p Hl HT Hsz E|c w cl hp hp' err c' Hl E|c w cl hp hp' err c' Hl E|c w cl len hp hp' c' Hl Hlen E
    |c w cl hp hp' c' Hl E|c w cl hp hp' c' Hl E|c w cl k q hdr opts hp hp' c' Hl Hk Hq Hne Hlen Ho E];
    destruct (Hlive c w cl eq_refl Hl) as (A & N & HA & Ha); cbn in H2, H3, HR'.
  - eapply grows_write; eauto.
  - eapply grows_close; eauto.
  - pose proof (alive_output isn w cl isn' S' fin' (ho_queuelen h) (ho_netifs h) (ho_default h) A N R c Ha H3) as Hrun.
    apply guarded_yields in Hrun. apply Hrun in E. destruct E as (N1 & _ & G1 & G2). eapply grows_alive; eauto.
  - eapply grows_recved; eauto.
  - eapply grows_slowtmr; eauto.
  - apply (fasttmr_spec isn w cl isn' S' fin' (ho_queuelen h) _ _ (ho_app h) (hk_app h Hh) A N R c Ha H3) in E.
    destruct E as (N1 & G1 & G2). eapply grows_alive; eauto.
  - eapply grows_input; eauto.
Qed.
End Invariant.

(** ** The whole *)

Section Whole.
Context (h1 h2 : host) (isn1 isn2 : Z) (H1 : host_ok h1) (H2 : host_ok h2).

Definition sys_inv (s : side * side) : Prop :=
  exists R1 R2, side_inv h1 isn1 isn2 (sd_written s.2) (sd_closed s.2) R1 R2 s.1 /\
                side_inv h2 isn2 isn1 (sd_written s.1) (sd_closed s.1) R2 R1 s.2.

Lemma small_total w cl : size w < 1073741823 -> total w cl < 1073741824.
Proof. unfold total. pose proof (b2z_bounds cl). lia. Qed.

(** The other end, when this one has gone on. *)
Lemma peer_step h isn isn' x x' R R1 R2 y : R <= R1 -> side_inv h isn isn' (sd_written x) (sd_closed x) R2 R y ->
  (sd_written x' = sd_written x /\ sd_closed x' = sd_closed x) \/ (sd_closed x = false /\ exists T, sd_written x' = sd_written x ++ T) ->
  side_inv h isn isn' (sd_written x') (sd_closed x') R2 R1 y.
Proof.
  intros HR Hy Hx. apply (side_inv_weaken _ _ _ _ _ _ R R1 _ HR). destruct Hx as [[-> ->]|[E (T & ->)]]; [exact Hy|].
  rewrite E in Hy. now apply peer_longer.
Qed.

Lemma step_inv s s' : sys_inv s -> step h1 h2 s s' -> sys_inv s'.
Proof.
  intros (R1 & R2 & Hx & Hy) Hs. destruct Hs as [x x' y Ha|x y y' Ha]; cbn [fst snd] in *.
  - destruct (act_inv h1 isn1 isn2 H1 _ _ _ _ _ _ _ Hx (small_total _ _ (si_small _ _ _ _ _ _ _ _ Hy)) (si_pos _ _ _ _ _ _ _ _ Hy)
      (si_wire _ _ _ _ _ _ _ _ Hy) Ha) as (R3 & HR & Hx' & Hgrow).
    exists R3, R2. cbn [fst snd]. split; [exact Hx'|]. eapply peer_step; eauto.
  - destruct (act_inv h2 isn2 isn1 H2 _ _ _ _ _ _ _ Hy (small_total _ _ (si_small _ _ _ _ _ _ _ _ Hx)) (si_pos _ _ _ _ _ _ _ _ Hx)
      (si_wire _ _ _ _ _ _ _ _ Hx) Ha) as (R3 & HR & Hy' & Hgrow).
    exists R1, R3. cbn [fst snd]. split; [eapply peer_step; eauto|exact Hy'].
Qed.

Lemma reachable_inv x0 y0 s : fresh h1 isn1 isn2 x0 -> fresh h2 isn2 isn1 y0 -> rtc (step h1 h2) (x0, y0) s -> sys_inv s.
Proof.
  intros F1 F2 Hr. remember (x0, y0) as s0 eqn:E0. assert (Hinv : sys_inv s0).
  { subst s0. exists 0, 0. cbn [fst snd]. rewrite (fr_written _ _ _ _ F1), (fr_closed _ _ _ _ F1), (fr_written _ _ _ _ F2), (fr_closed _ _ _ _ F2).
    split; [now apply fresh_inv|now apply fresh_inv]. }
  clear E0. induction Hr as [s|s1 s2 s3 Hs Hr IH]; [exact Hinv|]. apply IH. eapply step_inv; eauto.
Qed.
End Whole.

(** What the application at an end has been given, or refuses for the moment. *)
Definition given (x : side) : list Z := heard (events (sd_conn x)) ++ data_of (refused_data (pcb (sd_conn x))).

Lemma inv_heard h isn isn' S' fin' R R' x : side_inv h isn isn' S' fin' R R' x -> heard (events (sd_conn x)) `prefix_of` S'.
Proof.
  intros [_ _ _ [(A & N & _ & Ha)|(_ & H & _)]]; [|exact H]. eapply transitivity; [|apply (slice_prefix S' (upto S' R))].
  exists (data_of (refused_data (pcb (sd_conn x)))). symmetry. apply Ha.
Qed.

Lemma inv_live h isn isn' S' fin' R R' x : side_inv h isn isn' S' fin' R R' x -> live (sd_conn x) = true ->
  exists A N, A <= R' /\ alive isn (sd_written x) (sd_closed x) isn' S' fin' (ho_queuelen h) A N R (sd_conn x).
Proof. intros [_ _ _ [H|H]] Hl; [exact H|]. apply ended_not_live in H. congruence. Qed.

(** ** Two hosts *)

Definition toy_host : host := Host [] None 8 (fun _ _ c => ret (ERR_OK, c)).
Definition toy_heap : heap := repeat true 20.

Definition result {A B} (f : A -> B) (d : B) (r : outcome A * heap) : B := match r with (Ok a, _) => f a | _ => d end.

Definition toy_new (iss ip port : Z) : conn :=
  Conn ((tcp_alloc iss 0) <| local_ip := ip |> <| local_port := port |> <| recv := Some 1 |>) [] [] 0 false.

Definition toy_packet (n : nat) (c : conn) : tcp_packet := nth n (wire c) (TcpPacket 0 0 0 0 0 0 0 0 None []).

Definition toy_input (k : tcp_packet) (q : chain) (hdr : Z) (opts : list Z) (c : conn) : conn :=
  result id c (tcp_input_segment [] None 8 (ho_app toy_host) (tcp_in_of k q hdr opts) c toy_heap).

(** [tcp_connect] at the one, [tcp_listen_input] at the other, and the packets
    that open the connection. *)
Definition toy_mss : list Z := [2; 4; 2; 24].
Definition toy_x1 : conn := result snd (toy_new 0 1 80) (tcp_connect [] None 8 4294967295 0 2 25 None (toy_new 0 1 80) toy_heap).
Definition toy_open : conn :=
  result snd (toy_new 2000 2 25)
    (tcp_listen_input [] None 8 (ho_app toy_host) 2000 (TcpPcbListen 0 0 0 25 (Some 1)) (tcp_in_of (toy_packet 0 toy_x1) [[]] 6 toy_mss)
       (toy_new 2000 2 25) toy_heap).
Definition toy_y1 : conn := toy_open <| pcb := (pcb toy_open) <| recv := Some 1 |> |>.
Definition toy_x2 : conn := toy_input (toy_packet 0 toy_y1) [[]] 6 toy_mss toy_x1.
Definition toy_y2 : conn := toy_input (toy_packet 1 toy_x2) [[]] 5 [] toy_y1.

Lemma toy_host_ok : host_ok toy_host.
Proof. split; [cbn; lia|]. intros f e c. exists ERR_OK. reflexivity. Qed.

Ltac toy_fresh :=
  constructor; try (vm_compute; repeat split; first [reflexivity | discriminate | (eexists; reflexivity)]).

Lemma toy_fresh_x : fresh toy_host 4294967295 2001 (Side toy_x2 [] false).
Proof. toy_fresh. vm_compute. constructor; [left; reflexivity|]. constructor; [right; repeat split|constructor]. Qed.

Lemma toy_fresh_y : fresh toy_host 2001 4294967295 (Side toy_y2 [] false).
Proof. toy_fresh. vm_compute. constructor; [left; reflexivity|constructor]. Qed.

(** Three bytes are written and sent; they arrive. *)
Definition toy_p3 : tcp_pcb := result snd (pcb toy_x2) (tcp_write 8 (pcb toy_x2) (Some [1; 2; 3]) 3 1 toy_heap).
Definition toy_x3 : conn := toy_x2 <| pcb := toy_p3 |>.
Definition toy_x4 : conn := result snd toy_x3 (tcp_output [] None toy_x3 toy_heap).
Definition toy_y4 : conn := toy_input (toy_packet 2 toy_x4) [[1]; [2; 3]] 5 [] toy_y2.

(** The one closes, and the other is told. *)
Definition toy_x5 : conn := result snd toy_x4 (tcp_close [] None 8 toy_x4 toy_heap).
Definition toy_y5 : conn := toy_input (toy_packet 3 toy_x5) [[]] 5 [] toy_y4.

Notation toy_run := (rtc (step toy_host toy_host) (Side toy_x2 [] false, Side toy_y2 [] false)).

Lemma toy_sent : toy_run (Side toy_x4 [1; 2; 3] false, Side toy_y2 [] false).
Proof.
  eapply rtc_l; [apply step_left|eapply rtc_l; [apply step_left|apply rtc_refl]].
  - eapply (act_write toy_host _ toy_x2 [] false [1; 2; 3] 1 toy_heap _ ERR_OK toy_p3); [reflexivity|discriminate|reflexivity|].
    vm_compute. reflexivity.
  - eapply (act_output toy_host _ toy_x3 [1; 2; 3] false toy_heap _ ERR_OK toy_x4); [reflexivity|]. vm_compute. reflexivity.
Qed.

Lemma toy_heard : toy_run (Side toy_x4 [1; 2; 3] false, Side toy_y4 [] false).
Proof.
  eapply rtc_r; [exact toy_sent|]. apply step_right.
  eapply (act_input toy_host _ toy_y2 [] false (toy_packet 2 toy_x4) [[1]; [2; 3]] 5 [] toy_heap _ toy_y4);
    [reflexivity| |reflexivity|discriminate|vm_compute; discriminate|constructor|vm_compute; reflexivity].
  vm_compute. do 2 apply list_elem_of_further. apply list_elem_of_here.
Qed.

Lemma toy_told : toy_run (Side toy_x5 [1; 2; 3] true, Side toy_y5 [] false).
Proof.
  eapply rtc_r; [eapply rtc_r; [exact toy_heard|]|].
  - apply step_left. eapply (act_close toy_host _ toy_x4 [1; 2; 3] false toy_heap _ ERR_OK toy_x5); [reflexivity|]. vm_compute. reflexivity.
  - apply step_right.
    eapply (act_input toy_host _ toy_y4 [] false (toy_packet 3 toy_x5) [[]] 5 [] toy_heap _ toy_y5);
      [reflexivity| |reflexivity|discriminate|vm_compute; discriminate|constructor|vm_compute; reflexivity].
    vm_compute. do 3 apply list_elem_of_further. apply list_elem_of_here.
Qed.

(** ** The properties *)

(** C10: two ends have just been connected; they call [tcp_write], [tcp_close],
    [tcp_output], [tcp_recved], the timers and [tcp_input] in any order, for
    packets that the other one has sent, up to a call that fails an assertion.
    Whatever the network loses, repeats, delays and puts in another order,
    whatever allocations fail and whatever data the applications refuse, what
    the application of one end has accepted from its connection is the
    beginning of what the other application has written: in order, without
    gaps, each byte once.  (Each way carries less than 2^30 bytes, fewer than
    256 buffers are queued, and the applications call TCP only from outside of
    the functions it calls.) *)
Theorem tcp_stream_prefix h1 h2 isn1 isn2 x0 y0 x y :
  host_ok h1 -> host_ok h2 -> fresh h1 isn1 isn2 x0 -> fresh h2 isn2 isn1 y0 -> rtc (step h1 h2) (x0, y0) (x, y) ->
  heard (events (sd_conn y)) `prefix_of` sd_written x /\ heard (events (sd_conn x)) `prefix_of` sd_written y.
Proof.
  intros K1 K2 F1 F2 Hr. destruct (reachable_inv h1 h2 isn1 isn2 K1 K2 x0 y0 (x, y) F1 F2 Hr) as (R1 & R2 & Hx & Hy).
  split; eapply inv_heard; eauto.
Qed.

Lemma tcp_stream_prefix_witness :
  let x := Side toy_x4 [1; 2; 3] false in let y := Side toy_y4 [] false in
  heard (events (sd_conn y)) = [1; 2; 3] /\ heard (events (sd_conn y)) `prefix_of` sd_written x.
Proof.
  intros x y. split; [vm_compute; reflexivity|].
  exact (proj1 (tcp_stream_prefix toy_host toy_host 4294967295 2001 (Side toy_x2 [] false) (Side toy_y2 [] false) x y
    toy_host_ok toy_host_ok toy_fresh_x toy_fresh_y toy_heard)).
Defined.



(** C12: in the same runs no byte is lost for good: while both ends are
    connected, what has been written and not been given to the other
    application is in a segment in the queues of the sender, at its place in
    the stream. *)
Theorem tcp_stream_keeps h1 h2 isn1 isn2 x0 y0 x y n :
  host_ok h1 -> host_ok h2 -> fresh h1 isn1 isn2 x0 -> fresh h2 isn2 isn1 y0 -> rtc (step h1 h2) (x0, y0) (x, y) ->
  live (sd_conn x) = true -> live (sd_conn y) = true -> size (given y) <= n < size (sd_written x) ->
  exists seg a, seg ∈ unacked (pcb (sd_conn x)) ++ unsent (pcb (sd_conn x)) /\ seg_seqno seg = u32 (isn1 + a) /\
    a <= n < a + tot_len (seg_p seg) /\ concat (seg_p seg) = slice (sd_written x) a (tot_len (seg_p seg)).
Proof.
  intros K1 K2 F1 F2 Hr Hlx Hly Hn. destruct (reachable_inv h1 h2 isn1 isn2 K1 K2 x0 y0 (x, y) F1 F2 Hr) as (R1 & R2 & Hx & Hy).
  destruct (inv_live _ _ _ _ _ _ _ _ Hx Hlx) as (A & N & HA & Ha). destruct (inv_live _ _ _ _ _ _ _ _ Hy Hly) as (A2 & N2 & _ & Hb).
  cbn [fst snd] in *. pose proof (si_pos _ _ _ _ _ _ _ _ Hy) as Hp.
  assert (Eg : size (given y) = upto (sd_written x) R2).
  { unfold given. rewrite (al_heard _ _ _ _ _ _ _ _ _ _ _ Hb). unfold size at 1. apply slice_length; unfold upto, size in *; lia. }
  pose proof (al_snd _ _ _ _ _ _ _ _ _ _ _ Ha) as Hs. unfold upto in Eg.
  destruct (so_covers _ _ _ _ _ _ _ Hs n) as (seg & a & Hin & Hc & Hr').
  { unfold total. pose proof (b2z_bounds (sd_closed x)). lia. }
  exists seg, a. split; [exact Hin|]. split; [apply Hc|]. rewrite (carries_tot_len _ _ _ _ _ Hc). split; [|apply Hc].
  rewrite (carries_tcplen _ _ _ _ _ Hc) in Hr'. destruct (has TCP_FIN (th_flags seg)) eqn:Ef; cbn in Hr'; [|lia].
  destruct (ca_fin _ _ _ _ _ Hc Ef). lia.
Qed.

Lemma tcp_stream_keeps_witness :
  let x := Side toy_x4 [1; 2; 3] false in
  exists seg a, seg ∈ unacked (pcb (sd_conn x)) ++ unsent (pcb (sd_conn x)) /\ a <= 1 < a + tot_len (seg_p seg).
Proof.
  intros x. set (y := Side toy_y2 [] false). assert (Hx : live (sd_conn x) = true) by (vm_compute; reflexivity).
  assert (Hy : live (sd_conn y) = true) by (vm_compute; reflexivity).
  assert (Hn : size (given y) <= 1 < size (sd_written x)) by (vm_compute; split; [discriminate|reflexivity]).
  destruct (tcp_stream_keeps toy_host toy_host 4294967295 2001 (Side toy_x2 [] false) (Side toy_y2 [] false) x y 1
    toy_host_ok toy_host_ok toy_fresh_x toy_fresh_y toy_sent Hx Hy Hn) as (seg & a & H1 & _ & H2 & _).
  exists seg, a. split; [exact H1|exact H2].
Defined.

(** ** One segment *)

(** What the connection has of the other stream, and what is new for the
    application, after a segment. *)
Record takes isn' S' fin' (R R' : Z) (i' : tcp_in) (p : tcp_pcb) : Prop := Takes
  { ta_rcv : rcv_ok isn' S' fin' True R' p; ta_data : data_of (recv_data i') = slice S' R (upto S' R' - R);
    ta_fin : has TF_GOT_FIN (recv_flags i') = passes_end S' R R' }.

Section Receive.
Context (isn : Z) (S : list Z) (fin : bool) (isn' : Z) (S' : list Z) (fin' : bool).
Context (max : Z) (netif_list : list netif) (netif_default : option netif) (A N R y P : Z) (i : tcp_in) (c : conn).

(** The acknowledgement is of the position [y], the data start at [P]. *)
Record segment_for : Prop := SegmentFor
  { sf_snd : snd_ok isn S fin max A N (pcb c); sf_rcv : rcv_ok isn' S' fin' True R (pcb c); sf_input : in_input c = true;
    sf_max : max < 256; sf_ackno : ackno i = u32 (isn + y); sf_y : 0 <= y <= total S fin; sf_wnd : 0 <= in_wnd i < 65536;
    sf_carries : carries isn' S' fin' (inseg i) P; sf_seqno : seqno i = seg_seqno (inseg i); sf_len : tcplen i = TCP_TCPLEN (inseg i);
    sf_data : recv_data i = None; sf_flags : recv_flags i = 0; sf_small : total S' fin' < 1073741824; sf_behaves : behaves i (pcb c) R P }.

Context (Hf : segment_for).

(** What the acknowledgement does, and what of the connection is as before. *)
Lemma receive_ack_part : guarded False (if has TCP_ACK (in_flags i) then receive_ack i (tcp_ticks c) (pcb c) else ret (pcb c)) (fun p =>
  snd_ok isn S fin max (if has TCP_ACK (in_flags i) && (A <? y) && (y <=? N) then y else A) N p /\ same_receiver (pcb c) p /\
  (has TCP_ACK (in_flags i) = true -> A < y <= N ->
     cleared isn S fin y (unacked (pcb c)) (unacked p) /\ cleared isn S fin y (unsent (pcb c)) (unsent p))).
Proof.
  destruct Hf. destruct (has TCP_ACK (in_flags i)); cbn [andb].
  - eapply guarded_weaken; [apply (receive_ack_full isn S fin i y sf_ackno0 sf_wnd0 max A N (tcp_ticks c) (pcb c) sf_snd0 sf_max0); destruct sf_snd0; lia|].
    intros p (H1 & H2 & H3). auto.
  - apply guarded_ret. split; [exact sf_snd0|]. split; [apply same_receiver_refl|discriminate].
Qed.

Lemma same_receiver_behaves p : same_receiver (pcb c) p -> rcv_ok isn' S' fin' True R p /\ behaves i p R P /\ rcv_wnd p = rcv_wnd (pcb c).
Proof.
  intros (E1 & E2 & E3 & _). destruct Hf as [_ [] _ _ _ _ _ _ _ _ _ _ _ []]. split; [|split; [|exact E2]]; constructor; rewrite ?E1, ?E2, ?E3; assumption.
Qed.

Lemma receive_keeps : R < P ->
  enough (tcp_receive netif_list netif_default i c) (fun '(i', c') => holds isn' S' fin' (ooseq (pcb c')) P (seg_len (inseg i))).
Proof.
  intros HRP. unfold tcp_receive. eapply enough_bind.
  - apply (guarded_enough _ _ _ receive_ack_part). destruct (has TCP_ACK (in_flags i)); auto using receive_ack_thrifty with thrifty.
  - intros p (_ & Hsame & _). destruct (same_receiver_behaves p Hsame) as (Hr & Hb & _). destruct Hf. destruct Hb.
    apply (receive_data_keeps isn' S' fin' True netif_list netif_default i (c <| pcb := p |>) R P); auto.
Qed.

End Receive.

Definition toy_in : tcp_in := tcp_in_of (toy_packet 2 toy_x4) [[1]; [2; 3]] 5 [].
Definition toy_y3 : conn := toy_y2 <| in_input := true |>.

(** A connection that has just been opened. *)
Lemma fresh_alive h isn isn' x : 0 <= ho_queuelen h -> fresh h isn isn' x ->
  snd_ok isn [] false (ho_queuelen h) 0 0 (pcb (sd_conn x)) /\
  forall S' fin' strict, rcv_ok isn' S' fin' strict 0 (pcb (sd_conn x)).
Proof.
  intros Hq []. destruct fr_seq0 as (E1 & E2 & E3), fr_queues0 as (Q1 & Q2 & Q3), fr_queuelen0 as [L1 L2], fr_snd0.
  assert (E0 : total [] false = 0) by reflexivity. assert (Ei : forall z, u32 (z + 0) = u32 z) by (intros z; now rewrite Z.add_0_r).
  split; [constructor; rewrite ?E0, ?Q1, ?Q2, ?Ei; auto; try lia; intros n Hn; lia|]. intros S' fin' strict.
  constructor; rewrite ?Q3, ?Ei; auto; try exact I; unfold TCP_WND, TCP_MSS in *; try lia.
  unfold total, size. pose proof (b2z_bounds fin'). lia.
Qed.

Ltac toy_carries :=
  constructor; [vm_compute; reflexivity|cbn [seg_len]; lia|lia|vm_compute; discriminate|vm_compute; reflexivity|discriminate|
    vm_compute; reflexivity|vm_compute; discriminate|vm_compute; reflexivity].

(** The last two of the three bytes. *)
Definition toy_early : tcp_in := toy_in <| inseg := TcpSeg [[2; 3]] 2 0 0 24 |> <| seqno := 0 |> <| tcplen := 2 |>.

Lemma toy_segment_for P i : (P = 0 /\ i = toy_in) \/ (P = 1 /\ i = toy_early) ->
  segment_for 2001 [] false 4294967295 [1; 2; 3] false 8 0 0 0 0 P i toy_y3.
Proof.
  intros HP. destruct (fresh_alive toy_host 2001 4294967295 (Side toy_y2 [] false) ltac:(cbn; lia) toy_fresh_y) as [Hs Hr].
  assert (Ey : pcb (sd_conn (Side toy_y2 [] false)) = pcb toy_y3) by (vm_compute; reflexivity). rewrite Ey in Hs, Hr. change (ho_queuelen toy_host) with 8 in Hs.
  assert (Eo : rcv_wnd (pcb toy_y3) = 2144 /\ ooseq (pcb toy_y3) = []) by (vm_compute; auto). destruct Eo as [Ew Eo].
  assert (Ei : inseg toy_in = TcpSeg [[1]; [2; 3]] 3 0 4294967295 24) by (vm_compute; reflexivity).
  assert (Ee : inseg toy_early = TcpSeg [[2; 3]] 2 0 0 24) by (vm_compute; reflexivity).
  destruct HP as [[-> ->]|[-> ->]].
  - apply (SegmentFor _ _ _ _ _ _ _ _ _ _ _ _ _ _ Hs (Hr _ _ _)); try (vm_compute; reflexivity).
    + vm_compute. split; discriminate.
    + vm_compute. split; [discriminate|reflexivity].
    + rewrite Ei. toy_carries.
    + constructor; rewrite ?Ei, ?Eo, ?Ew; [lia|reflexivity|cbn [seg_len]; lia].
  - apply (SegmentFor _ _ _ _ _ _ _ _ _ _ _ _ _ _ Hs (Hr _ _ _)); try (vm_compute; reflexivity).
    + vm_compute. split; discriminate.
    + vm_compute. split; [discriminate|reflexivity].
    + rewrite Ee. toy_carries.
    + constructor; rewrite ?Ee, ?Eo, ?Ew; [intros _; vm_compute; discriminate|reflexivity|cbn [seg_len]; lia].
Qed.


(** [tcp_write] takes all of the bytes or none: if it succeeds, the queues
    hold what they held with the new bytes behind it, split in segments of at
    most the maximum size; if it fails, for lack of memory or because the
    connection is being closed, nothing has changed but the flag that says
    so. *)
Theorem tcp_write_correct isn S T max A N p apiflags :
  snd_ok isn S false max A N p -> max < 256 -> T <> [] -> size S + size T < 1073741824 ->
  guarded False (tcp_write max p (Some T) (size T) apiflags) (fun '(err, p') =>
    (err = ERR_OK /\ snd_ok isn (S ++ T) false max A N p' /\ same_rest p p') \/
    ((err = ERR_MEM \/ err = ERR_CONN) /\ snd_ok isn S false max A N p' /\ same_rest p p' /\ unsent p' = unsent p)).
Proof. exact (write_spec isn S T max A N p apiflags). Qed.

Lemma tcp_write_correct_witness :
  guarded False (tcp_write 8 (pcb toy_x2) (Some [1; 2; 3]) 3 TCP_WRITE_FLAG_COPY) (fun '(err, p') =>
    err = ERR_OK -> covers 4294967295 [1; 2; 3] false (unacked p' ++ unsent p') 0 3).
Proof.
  destruct (fresh_alive toy_host 4294967295 2001 (Side toy_x2 [] false) ltac:(cbn; lia) toy_fresh_x) as [Hs _].
  assert (Ex : pcb (sd_conn (Side toy_x2 [] false)) = pcb toy_x2) by (vm_compute; reflexivity). rewrite Ex in Hs. change (ho_queuelen toy_host) with 8 in Hs.
  eapply guarded_weaken.
  - apply (tcp_write_correct 4294967295 [] [1; 2; 3] 8 0 0 (pcb toy_x2) TCP_WRITE_FLAG_COPY Hs); [lia|discriminate|reflexivity].
  - intros [err p'] [(_ & H & _)|([E|E] & _)] Eok; [exact (so_covers _ _ _ _ _ _ _ H)|subst err; discriminate..].
Defined.

(** ** Where the code does something else *)

(** All that has been sent is acknowledged: the code takes this for an
    acknowledgement of its FIN, which has not been sent, and the data that are
    not sent are freed when the other side closes. *)
Definition stuck : conn := toy_x2 <| pcb := (pcb toy_x2) <| snd_wnd := 0 |> |>.
Definition stuck_written : conn := stuck <| pcb := result snd (pcb stuck) (tcp_write 8 (pcb stuck) (Some [1; 2; 3]) 3 1 toy_heap) |>.
Definition stuck_closed : conn := result snd stuck_written (tcp_close [] None 8 stuck_written toy_heap).
Definition toy_ack (f : Z) : tcp_packet := TcpPacket 2 1 25 80 2001 4294967295 f 0 None [].
Definition stuck_acked : conn := toy_input (toy_ack TCP_ACK) [[]] 5 [] stuck_closed.
Definition stuck_gone : conn := toy_input (toy_ack (Z.lor TCP_ACK TCP_FIN)) [[]] 5 [] stuck_acked.

Lemma fin_not_sent :
  state (pcb stuck_acked) = FIN_WAIT_2 /\ map (fun s => concat (seg_p s)) (unsent (pcb stuck_acked)) = [[1; 2; 3]] /\
  state (pcb stuck_gone) = TIME_WAIT /\ unsent (pcb stuck_gone) = [].
Proof. vm_compute. auto. Qed.

(** After the last retransmission a fast one makes [nrtx] pass
    [TCP_MAXRTX]: the code reads behind the end of [tcp_backoff]. *)
Definition resent : conn :=
  Nat.iter 4 (toy_input (TcpPacket 2 1 25 80 2001 4294967295 TCP_ACK 2144 None []) [[]] 5 []) (toy_x4 <| pcb := (pcb toy_x4) <| nrtx := TCP_MAXRTX |> |>).

Definition late (c : conn) : conn := c <| pcb := (pcb c) <| rtime := rto (pcb c) |> |>.

Lemma backoff_overrun : nrtx (pcb resent) = 13 /\ fst (tcp_slowtmr [] None (ho_app toy_host) (late resent) toy_heap) = Ub.
Proof. vm_compute. auto. Qed.

(** An option without its length at the end of the options. *)
Lemma parseopt_overrun : fst (tcp_parseopt (tcp_in_of (toy_ack TCP_ACK) [[]] 6 [1; 1; 1; 2]) (pcb toy_x2) toy_heap) = Ub.
Proof. vm_compute. reflexivity. Qed.

(** As the port is configured, [tcp_write] without the copy flag fails. *)
Lemma no_copy_fails :
  match fst (tcp_write TCP_SND_QUEUELEN (pcb toy_x2) (Some [1]) 1 0 toy_heap) with Ok (err, _) => err = ERR_MEM | _ => False end.
Proof. vm_compute. reflexivity. Qed.

(** A FIN with no room in the buffer. *)
Lemma snd_buf_wraps :
  match fst (tcp_send_ctrl 8 ((pcb toy_x2) <| snd_buf := 0 |>) TCP_FIN toy_heap) with Ok (_, p) => snd_buf p = 65535 | _ => False end.
Proof. vm_compute. reflexivity. Qed.

(** The application is told of the end while it refuses the last data. *)
Lemma end_before_data :
  let app (f : Z) (e : event) (c : conn) := ret (match e with EV_RECV (Some _) => ERR_MEM | _ => ERR_OK end, c) in
  let k := (toy_packet 2 toy_x4) <| pk_flags := Z.lor TCP_ACK TCP_FIN |> in
  match fst (tcp_input_segment [] None 8 app (tcp_in_of k [[1; 2; 3]] 5 []) toy_y2 toy_heap) with
  | Ok c => map fst (events c) = [EV_ACCEPT; EV_RECV (Some [[1; 2; 3]]); EV_RECV None] /\ refused_data (pcb c) = Some [[1; 2; 3]]
  | _ => False
  end.
Proof. vm_compute. auto. Qed.

(** An early segment that passes the end of the window is kept whole; when the
    data in front of it come, an assertion fails. *)
Definition overrun : conn := toy_input (TcpPacket 1 2 80 25 1 2001 TCP_ACK 2144 None (repeat 5 3000)) [repeat 5 3000] 5 [] toy_y2.

Lemma window_overrun :
  map seg_len (ooseq (pcb overrun)) = [3000] /\ rcv_wnd (pcb overrun) = 2144 /\
  fst (tcp_input_segment [] None 8 (ho_app toy_host) (tcp_in_of (TcpPacket 1 2 80 25 4294967295 2001 TCP_ACK 2144 None [6; 7]) [[6; 7]] 5 [])
    overrun toy_heap) = Err ABORT.
Proof. vm_compute. auto. Qed.
